(* ===== verification/_CoqProject ===== *)
-Q . S2P
Prelude.v
Ordering.v
AmmState.v
Petgraph.v
Graph.v
GraphPairs.v
GraphInv.v
GraphProps.v
GraphTheorems.v
Config.v
Liquidity.v
LiquidityProps.v
LiquidityBuild.v
LiquidityTheorems.v
SearchTypes.v
Enumerate.v
EnumerateProps.v
EnumerateTheorems.v
QuoteCache.v
QuoteCacheProps.v
Quote.v
QuoteProps.v
Workers.v
Ranking.v
Heuristic.v
HeuristicSearch.v
HeuristicProps.v
HeuristicSteps.v
HeuristicRun.v
HeuristicWatch.v
WorkerScripts.v
WorkersProps.v
WorkersTheorems.v
HeuristicTheorems.v
HeuristicPruning.v
Searcher.v
SearchTheorems.v
ModeTheorems.v
Streaming.v
StreamingProps.v
StreamingTheorems.v
Session.v
SessionProps.v
SessionTheorems.v
StreamDriver.v
StreamDriverProps.v
StreamDriverRun.v
StreamDriverTheorems.v
LiveState.v
LiveGraph.v
LiveGraphProps.v
LiveGraphTheorems.v
LiveView.v
GraphIndex.v
GraphIndexProps.v
GraphIndexTheorems.v
Bytes.v
ExecutorRouter.v
Execution.v
ExecutionProps.v
ExecutionTheorems.v
LiveRoutes.v
LiveRoutesProps.v
LiveRoutesInv.v
LiveRuntime.v
LiveRuntimeProps.v
LiveRuntimeTheorems.v
Concrete.v
Witnesses.v
SearchWitnesses.v
LiquidityWitnesses.v
HeuristicWitnesses.v
StreamWitnesses.v
LiveWitnesses.v
LiveRouteWitnesses.v
SidecarWitnesses.v
