(* ===== verification/Prelude.v ===== *)
(** * evm-amm-search: a verification development

    The repository finds swap routes over automated market makers.  A registry
    of pools (from the external crate [evm-amm-state]) becomes a token graph; a
    searcher enumerates routes in the graph and quotes them hop by hop through
    the pools' adapters; a streaming layer turns a running search into events
    and progress; a session keeps the routes of a search and refreshes them
    when pools change; a runtime follows the pools' states commit by commit and
    keeps the routes of its subscribers current; a sidecar service admits
    requests by an index of the live graph and turns quoted routes into
    transactions for an executor contract.

    ** Parts and files

    - [Prelude]: machine integers, results, stable sorting, list lemmas,
      the hint database [amm] and the tactics of the development.
    - [AmmState]: the interface to the external crate [evm-amm-state] (pool keys,
      registrations, adapters, caches) as the class [AmmTypes] and records of
      the fields the repository reads.  [Petgraph]: the interface to the graph
      library, operations and laws apart.
    - Token graph, [src/src/graph.rs]: [Graph] is the state ([AmmGraph]: the
      graph, the token table, the edge map, the pair index, the cached outgoing
      view and the version) with every operation; [GraphPairs], [GraphInv],
      [GraphProps] hold the representation invariant [graph_wf] and its
      preservation, [GraphTheorems] the theorems.
    - Configuration, [src/src/search.rs] and [src/src/liquidity.rs]: [Config] has
      every configuration record, builder and [validate].
    - Requests, paths, quotes, errors, counters: [SearchTypes].
    - Exhaustive enumeration, [enumerate_routes_filtered]: [Enumerate]; levels of
      the breadth-first search and their invariants in [EnumerateProps], the
      theorems in [EnumerateTheorems].
    - Quote cache, [SharedQuoteCache]: [QuoteCache] is the state, its critical
      sections as functions and the interleavings of threads as the step
      relation [cache_step]; theorems in [QuoteCacheProps].
    - Quoting, [quote_path_with_registry] and the prefix tree [QuoteDag]: [Quote];
      [QuoteProps] relates a batch to quoting each path on its own.
    - Worker threads, the thread scopes of [quote_and_rank_parallel] and
      [quote_and_stream_parallel]: [Workers] has a thread's program as a
      [Script] that stops wherever it touches what is shared (the quote cache,
      the [cancelled] flag, the channel), the threads and their coordinator as
      a [WorkerSystem], and one function per kind of [Move]: a thread's turn,
      the coordinator's, a spurious wake-up, an adapter's panic.  A run
      follows a schedule, a list of moves, and then lets everyone go on in turn.
      [WorkerScripts] holds what a program does ([follows]), [WorkersProps] the
      invariant of the system ([sys_good]) and the measure of its moves ([bounded]);
      [WorkersTheorems] is about all executions.
    - Heuristic search, [find_routes_heuristic_with_cache_observed] and the
      methods it calls: [Heuristic] has the connectors, rankings, shortlists,
      prunings and the fast lane's candidates, [HeuristicSearch] the search by
      levels and passes over the record [Run] of the function's variables;
      [Ordering] models the comparators given to [sort_by], which must be orders.
      [HeuristicProps] and [HeuristicSteps] specify the pieces, [HeuristicRun]
      is a small specification logic for functions that thread a [Run],
      [HeuristicTheorems] and [HeuristicPruning] hold the theorems.
    - Searcher, [AmmSearcher]: [Searcher] composes the graph, both searches and
      the quoting; theorems in [SearchTheorems], and in [ModeTheorems] on how the
      two modes compare.
    - Streaming, [StreamingRouteState]: [Streaming], [StreamingProps],
      [StreamingTheorems].
    - Sessions, [RouteSearchSession]: [Session], [SessionProps],
      [SessionTheorems].
    - Streaming driver, [stream_routes_parallel_with_cache] and its entry points:
      [StreamDriver] runs the heuristic search with an observer, quotes the
      remaining routes on the worker threads and feeds [StreamingRouteState].
      [HeuristicWatch] relates what an observer has seen to its state,
      [StreamDriverProps] specifies the quoting on threads, [StreamDriverRun] the
      driver's state, [StreamDriverTheorems] holds the theorems.
    - Liquidity index, [src/src/liquidity.rs]: [Liquidity] has the state and
      every operation (a vector of targets, four reverse indexes, a free list);
      [LiquidityProps] holds the representation invariant [index_wf] and the
      abstract [view] (source and balance by pool and token), [LiquidityBuild]
      what building and reconciling leave in the view, [LiquidityTheorems] the
      theorems, with the chain's storage as a function of contract and slot.
    - Live graph, [src/src/live_graph.rs]: [LiveState] is the interface to the
      snapshots and commits of the live runtime (class [AmmLive]), [LiveGraph] the
      state [LiveAmmGraph] with its transitions, which may fail with an error or
      panic; [LiveGraphProps] relates a live graph to the snapshot it represents
      ([live_ok]), [LiveGraphTheorems] holds the theorems, [LiveView] the search
      over a snapshot and its live graph ([LiveSearchView]).
    - Live routes, [src/src/live_routes.rs]: [LiveRoutes] is the coordinator
      ([LiveRouteActor]) with its handlers, over an explicit store of what it
      shares (cancellation tokens, watch channels, the job and clean-up queues,
      everything published in order); [LiveRuntime] has its loop, the worker
      threads and their searches, and the outside, as the step relations
      [runtime_step] and [environment_step].  [LiveRoutesProps] says what each
      handler does to one subscription and leaves alone elsewhere,
      [LiveRoutesInv] holds the coordinator's invariant [actor_ok] and what ties
      it to the jobs on their way, [LiveRuntimeProps] the invariant of the
      runtime, [LiveRuntimeTheorems] executions and the theorems.
    - Request-path graph index, [src/sidecar/src/graph_index.rs] and the cache
      around it in [src/sidecar/src/node.rs]: [GraphIndex] has the index, its
      deltas and the updater's loop body; [GraphIndexProps] relates an index to
      the graph and the pools it counts, [GraphIndexTheorems] follows the
      runtime's feed of deltas.
    - Executor contract, [src/contracts/ExperimentalExecutorRouter.sol]: [Bytes]
      has byte strings and the reading of calldata, [ExecutorRouter] the whole
      contract in a state monad over its storage and the world; the class [Evm]
      is what other contracts do.
    - Executable swaps, [src/sidecar/src/execution.rs]: [Execution] has the
      checks, the packed route and the transaction; [ExecutionProps] relates the
      bytes of a hop to what the contract reads from them, [ExecutionTheorems]
      holds the theorems about both sides.
    - [Concrete] instantiates every interface with executable code and a small
      market; [Witnesses], [SearchWitnesses], [LiquidityWitnesses],
      [HeuristicWitnesses], [StreamWitnesses], [LiveWitnesses],
      [LiveRouteWitnesses] and [SidecarWitnesses] apply the theorems to it.

    ** What the theorems show

    The graph keeps its representation invariant under every public mutation,
    its version identifies its topology, and maintaining it pool by pool agrees
    with rebuilding it.  The enumeration terminates and returns exactly the
    admissible routes, shortest first; limits, exclusions and cancellation
    select from that list.  The quote cache returns the right result to every
    thread in every interleaving, simulates a key once at a time and never
    deadlocks; and the worker threads of a search always finish, with the cache
    right, even when an adapter panics.  Quoting a batch through the prefix tree and the cache equals
    quoting every path alone.  Hence an exhaustive search returns the
    quotable admissible routes, best first.  A heuristic search always returns,
    with an answer the caches do not influence: distinct admissible routes,
    rightly quoted and ranked.  When it prunes nothing it refines the exhaustive
    search; its dominance index is a Pareto front, its reachability check exact,
    and its balance cap drops only what cannot beat the incumbent.  The
    parallel search returns what the sequential one returns, for every
    interleaving of its threads (or [WorkerPanic] after a panic), and the batch
    searches do for every order of their workers.  A streaming run keeps its best and its top routes right, its
    progress in bounds and monotone, gates its first results, and says truthfully
    why it ended.  The streaming driver reports rightly what it observed,
    whatever the callback and the schedule of its threads; it returns, and a
    finality [Exhaustive] certifies that no admissible route was missed.  A
    session starts with the routes its search observed, and a refresh leaves
    what a full re-quote would, keeps its indexes, and asks for a recompute
    exactly when it has to.  The liquidity index never panics, keeps its
    reverse indexes, and its fresh balances are what the chain's storage says,
    through transfers, removed logs, storage writes, refreshes and
    reconciliations; reconciling around a graph change agrees with rebuilding.
    A live graph refuses what does not follow its state, and however it got to a
    snapshot it is what a rebuild from that snapshot gives, so a search on a
    view of it answers for the current snapshot.  The live route runtime composes
    all of it: whatever the order of commits, commands, cancellations and worker
    steps, a route shown as ready is that of an uninterrupted search on the
    current state, hence admissible, rightly quoted and, for an exhaustive
    search, optimal in a rebuild of the current snapshot; a commit invalidates
    every subscription, the queues keep their bounds, publications their order,
    the runtime never stalls with a search to do, and its shutdown ends.  The
    sidecar's index, moved by the published deltas alone, is what a scan of the
    live graph would give.  The executor contract performs, for the transaction
    built for a route, exactly the swaps that route asks for; a call that returns
    has paid the recipient at least the floor and left the contract's balances
    as they were when it took its input, whatever the pools do; every call ends; and the routes a search
    finds pass the builder's checks.

    ** Conventions

    [Result] is [result]; operations that can panic, overflow a checked
    counter or (for loops) run out of fuel return an [option], and theorems show
    that they return.  Integers keep their width where it matters: [U256]
    arithmetic wraps, counters saturate or wrap as in the code.  A hash
    map or set is a [gmap] or [gset]; where the code depends on its iteration
    order the order is an argument.  Mutable state is passed explicitly; a
    callback is a function of the trace of events it has received.  The
    adapters are external: theorems about quotes assume [simulates], that
    during one search the adapters answer the same question the same way.

    ** Bounds and fuel

    [enumerate_fuel] bounds the states of the breadth-first search by the
    number of paths of at most [max_hops] hops in a graph of the largest
    out-degree; [enumeration_sound_complete] shows that it is enough.  The levels
    of the heuristic search take [max_hops] as fuel (a level adds a hop) and the
    walk of the balance cap the same bound as the enumeration;
    [heuristic_search_sound] shows that they end.  The
    worker threads finish within [worker_fuel] rounds after the moves of a
    schedule: every turn uses up some of it, since a turn that goes on with a
    program counts for more than waking all the threads that wait
    ([run_threads_spec], [workers_finish]).  The scheduling loop of the
    live routes takes the length of its queue ([schedule_pending_ok]), the loop of
    the executor contract the length of the route, of which every hop uses at
    least [HOP_COMMON_SIZE] bytes ([executor_call_ends]).  Every other recursion
    is structural.

    ** Not modelled

    The reading ends of the live routes' channels (the lossy event channel of
    [LiveRouteObserver] among them), which are those of the asynchronous runtime;
    the overlay cache (a forwarding wrapper), the demonstration router, of the
    sidecar the HTTP interface, the configuration files, the coverage ledger and
    the lifecycle of the node, and the terminal interface, which are input and
    output around this core.  The ABI encoder, the other contracts an executor
    call reaches and the memory and gas of the EVM are parameters or left out.  The
    workers of a batch, whose jobs are whole searches, run one after the other,
    in any order, over the shared quote cache, and do not panic; the threads of
    the parallel and the streamed searches interleave and may panic.  Threads
    read the [cancelled] flag as last written (a relaxed read that lags is left
    out), and with one worker there is no thread and a panic is the caller's. *)

From stdpp Require Export base option list gmap sets strings.
From stdpp Require Export sorting.

#[global] Set Default Goal Selector "!".

(** ** Notation scope of the development *)

Declare Scope amm_scope.
Delimit Scope amm_scope with amm.

(** ** Machine integers

    [U256] values are integers in [0, 2^256); the operators of the [ruint]
    type wrap.  [usize] and [u64] are 64-bit. Addresses are 160-bit words; the
    byte-wise order the source sorts addresses with ([as_slice().cmp]) is the
    numeric order of the big-endian word. *)

Abbreviation U256 := Z (only parsing).
Abbreviation Address := Z (only parsing).

Definition u256_modulus : Z := 2 ^ 256.
Definition u64_max : Z := 2 ^ 64 - 1.
Definition usize_max : Z := 2 ^ 64 - 1.
Definition u16_max : Z := 2 ^ 16 - 1.

Definition is_u256 (x : U256) : Prop := (0 <= x < u256_modulus)%Z.

Definition u256_wrap (x : Z) : U256 := (x mod u256_modulus)%Z.
Definition u256_sub (x y : U256) : U256 := u256_wrap (x - y)%Z.
Definition u256_add (x y : U256) : U256 := u256_wrap (x + y)%Z.

(** [usize] arithmetic used by the counters: [saturating_add],
    [saturating_mul], and [checked_add] on [u64]. *)
Definition usize_saturating_add (x y : Z) : Z := Z.min (x + y) usize_max.
Definition usize_saturating_mul (x y : Z) : Z := Z.min (x * y) usize_max.
Definition u64_checked_add (x y : Z) : option Z :=
  if decide (x + y <= u64_max)%Z then Some (x + y)%Z else None.

(** ** Results

    Rust's [Result<A, E>].  The functor argument comes last so that
    [result E] is a monad for stdpp's do-notation. *)

Inductive result (E A : Type) : Type :=
  | Ok (a : A)
  | Err (e : E).
Arguments Ok {E A} a.
Arguments Err {E A} e.

#[export] Instance result_ret E : MRet (result E) := λ A a, Ok a.
#[export] Instance result_bind E : MBind (result E) := λ A B f m,
  match m with Ok a => f a | Err e => Err e end.
#[export] Instance result_fmap E : FMap (result E) := λ A B f m,
  match m with Ok a => Ok (f a) | Err e => Err e end.
#[export] Instance result_eq_dec {E A} `{!EqDecision E} `{!EqDecision A} :
  EqDecision (result E A).
Proof. solve_decision. Defined.

(** [opt.ok_or(e)]. *)
Definition ok_or {E A} (o : option A) (e : E) : result E A :=
  match o with Some a => Ok a | None => Err e end.

Definition result_ok {E A} (r : result E A) : option A :=
  match r with Ok a => Some a | Err _ => None end.

Lemma ok_or_Ok {E A} (o : option A) (e : E) a : ok_or o e = Ok a ↔ o = Some a.
Proof. destruct o; simpl; split; congruence. Qed.

Lemma result_bind_Ok {E A B} (m : result E A) (f : A → result E B) b :
  m ≫= f = Ok b ↔ ∃ a, m = Ok a ∧ f a = Ok b.
Proof. destruct m; simpl; naive_solver. Qed.

(** ** Hash maps with default entries: [map.entry(k).or_default()] *)

Definition entry_or_default {A} `{Countable K} (d : A) (f : A → A) (k : K)
    (m : gmap K A) : gmap K A :=
  <[k := f (default d (m !! k))]> m.

Section entry.
Context {A : Type} `{Countable K} (d : A) (f : A → A).
Implicit Types (m : gmap K A) (k : K).

Lemma lookup_entry_eq m k :
  entry_or_default d f k m !! k = Some (f (default d (m !! k))).
Proof. apply lookup_insert_eq. Qed.

Lemma lookup_entry_ne m k k' :
  k ≠ k' → entry_or_default d f k m !! k' = m !! k'.
Proof. apply lookup_insert_ne. Qed.

Lemma default_entry m k k' :
  default d (entry_or_default d f k m !! k') =
  if decide (k = k') then f (default d (m !! k')) else default d (m !! k').
Proof.
  case_decide; subst.
  - by rewrite lookup_entry_eq.
  - by rewrite lookup_entry_ne.
Qed.
End entry.

(** ** Lists *)

Lemma filter_ext_in {A} (P Q : A → Prop) `{!∀ x, Decision (P x)} `{!∀ x, Decision (Q x)}
    (l : list A) :
  (∀ x, x ∈ l → P x ↔ Q x) → filter P l = filter Q l.
Proof.
  induction l as [|x l IH]; intros HPQ; [done|].
  rewrite !filter_cons, IH by set_solver.
  destruct (HPQ x); [set_solver|]. repeat case_decide; naive_solver.
Qed.

Lemma filter_all {A} (P : A → Prop) `{!∀ x, Decision (P x)} (l : list A) :
  (∀ x, x ∈ l → P x) → filter P l = l.
Proof.
  induction l as [|x l IH]; intros HP; [done|].
  rewrite filter_cons_True, IH by set_solver. done.
Qed.

Lemma filter_none {A} (P : A → Prop) `{!∀ x, Decision (P x)} (l : list A) :
  (∀ x, x ∈ l → ¬ P x) → filter P l = [].
Proof.
  induction l as [|x l IH]; intros HP; [done|].
  rewrite filter_cons_False, IH by set_solver. done.
Qed.

Lemma omap_ext_in {A B} (f h : A → option B) (l : list A) :
  (∀ x, x ∈ l → f x = h x) → omap f l = omap h l.
Proof.
  induction l as [|x l IH]; intros Hf; csimpl; [done|].
  rewrite Hf, IH by set_solver. done.
Qed.

Lemma Permutation_cons_eq {A} (x y : A) (l k : list A) :
  x = y → l ≡ₚ k → x :: l ≡ₚ y :: k.
Proof. by intros -> ->. Qed.

Lemma NoDup_omap_inj {A B} (f : A → option B) (l : list A) :
  NoDup l →
  (∀ x y z, x ∈ l → y ∈ l → f x = Some z → f y = Some z → x = y) → NoDup (omap f l).
Proof.
  induction 1 as [|x l Hx Hl IH]; intros Hf; csimpl; [constructor|].
  assert (NoDup (omap f l)).
  { apply IH. intros y y' z ? ?. apply Hf; set_solver. }
  destruct (f x) as [z|] eqn:Hz; [|done]. constructor; [|done].
  intros (y & Hy & Hyz)%list_elem_of_omap. apply Hx.
  by rewrite (Hf x y z) by set_solver.
Qed.

Lemma omap_fmap_list {A B C} (f : A → B) (g : B → option C) (l : list A) :
  omap g (f <$> l) = omap (g ∘ f) l.
Proof. induction l as [|a l IH]; csimpl; [done|]. by destruct (g (f a)); rewrite IH. Qed.

Lemma foldl_fmap_list {A B C} (f : C → B → C) (h : A → B) (l : list A) c :
  foldl f c (h <$> l) = foldl (λ c a, f c (h a)) c l.
Proof. revert c. induction l as [|a l IH]; intros c; csimpl; auto. Qed.

Lemma StronglySorted_weaken {A} (R S : relation A) (l : list A) :
  StronglySorted R l → (∀ x y, R x y → S x y) → StronglySorted S l.
Proof.
  induction 1 as [|x l Hl IH Hx]; intros HRS; constructor; [auto|].
  eapply Forall_impl; eauto.
Qed.

(** ** Stable sorting

    [slice::sort_by] is a stable sort.  A comparator is given as the Boolean
    [le x y], true when [x] need not come after [y] ([cmp x y <> Greater]). *)

Fixpoint insert_by {A} (le : A → A → bool) (x : A) (l : list A) : list A :=
  match l with
  | [] => [x]
  | y :: l' => if le x y then x :: l else y :: insert_by le x l'
  end.

Definition stable_sort {A} (le : A → A → bool) (l : list A) : list A :=
  foldr (insert_by le) [] l.

Section stable_sort.
Context {A : Type} (le : A → A → bool).

Lemma insert_by_perm x l : insert_by le x l ≡ₚ x :: l.
Proof.
  induction l as [|y l IH]; simpl; [done|].
  destruct (le x y); [done|]. rewrite IH. apply Permutation_swap.
Qed.

Lemma stable_sort_perm l : stable_sort le l ≡ₚ l.
Proof.
  induction l as [|x l IH]; simpl; [done|].
  rewrite insert_by_perm. by rewrite IH.
Qed.

Lemma elem_of_stable_sort x l : x ∈ stable_sort le l ↔ x ∈ l.
Proof. by rewrite stable_sort_perm. Qed.

Lemma length_stable_sort l : length (stable_sort le l) = length l.
Proof. by rewrite stable_sort_perm. Qed.

Context (le_total : ∀ x y, le x y = true ∨ le y x = true).
Context (le_trans : ∀ x y z, le x y = true → le y z = true → le x z = true).

Let R (x y : A) : Prop := le x y = true.

Lemma insert_by_sorted x l :
  StronglySorted R l → StronglySorted R (insert_by le x l).
Proof.
  induction 1 as [|y l Hl IH Hy]; simpl; [by repeat constructor|].
  destruct (le x y) eqn:E; constructor.
  - by constructor.
  - constructor; [done|]. eapply Forall_impl; [exact Hy|].
    intros z Hz. by eapply le_trans.
  - done.
  - rewrite insert_by_perm. constructor; [|done].
    destruct (le_total x y) as [H|H]; [by rewrite H in E|exact H].
Qed.

Lemma stable_sort_sorted l : StronglySorted R (stable_sort le l).
Proof. induction l as [|x l IH]; simpl; [constructor|by apply insert_by_sorted]. Qed.

(** Stability: the elements equivalent to [a] keep their order. *)
Definition same_rank (a x : A) : bool := le a x && le x a.

Lemma insert_by_filter_same a x l :
  filter (λ y, same_rank a y = true) (insert_by le x l) =
  filter (λ y, same_rank a y = true) (x :: l).
Proof.
  induction l as [|y l IH]; simpl; [done|].
  destruct (le x y) eqn:E; [done|].
  rewrite (filter_cons _ y (insert_by le x l)), IH, !filter_cons.
  destruct (decide (same_rank a y = true)) as [Hy|Hy];
    destruct (decide (same_rank a x = true)) as [Hx|Hx]; try done.
  unfold same_rank in Hx, Hy. apply andb_prop in Hx as [_ Hx], Hy as [Hy _].
  by rewrite (le_trans x a y) in E.
Qed.

Lemma stable_sort_stable a l :
  filter (λ y, same_rank a y = true) (stable_sort le l) =
  filter (λ y, same_rank a y = true) l.
Proof.
  induction l as [|x l IH]; simpl; [done|].
  rewrite insert_by_filter_same, !filter_cons, IH. done.
Qed.

Lemma same_rank_refl a : same_rank a a = true.
Proof. unfold same_rank. by destruct (le_total a a) as [->| ->]. Qed.

(** A sorted list is determined by the order within each rank. *)
Lemma sorted_by_unique l k :
  StronglySorted R l → StronglySorted R k →
  (∀ a, filter (λ y, same_rank a y = true) l = filter (λ y, same_rank a y = true) k) →
  l = k.
Proof.
  intros Hl. revert k. induction Hl as [|x l Hl IH Hx]; intros [|y k] Hk Heq.
  - done.
  - specialize (Heq y). rewrite filter_cons_True in Heq by apply same_rank_refl. done.
  - specialize (Heq x). rewrite filter_cons_True in Heq by apply same_rank_refl. done.
  - apply StronglySorted_inv in Hk as [Hk Hy].
    assert (x ∈ y :: k) as Hxk.
    { assert (x ∈ filter (λ z, same_rank x z = true) (y :: k)) as H.
      - rewrite <-Heq, filter_cons_True by apply same_rank_refl. set_solver.
      - apply list_elem_of_filter in H. naive_solver. }
    assert (y ∈ x :: l) as Hyl.
    { assert (y ∈ filter (λ z, same_rank y z = true) (x :: l)) as H.
      - rewrite Heq, filter_cons_True by apply same_rank_refl. set_solver.
      - apply list_elem_of_filter in H. naive_solver. }
    rewrite Forall_forall in Hx, Hy. apply elem_of_cons in Hxk, Hyl.
    assert (x = y) as ->.
    { destruct Hxk as [?|Hxk]; [done|]. destruct Hyl as [?|Hyl]; [done|].
      specialize (Heq x). rewrite !filter_cons_True in Heq; [by injection Heq|..].
      - unfold same_rank. by rewrite (Hx y Hyl), (Hy x Hxk).
      - apply same_rank_refl. }
    f_equal. apply IH; [done|]. intros a. specialize (Heq a). rewrite !filter_cons in Heq.
    destruct (decide (same_rank a y = true)); congruence.
Qed.

Lemma stable_sort_app_sort l k : stable_sort le (stable_sort le l ++ k) = stable_sort le (l ++ k).
Proof.
  apply sorted_by_unique; [apply stable_sort_sorted..|]. intros a.
  by rewrite !stable_sort_stable, !filter_app, stable_sort_stable.
Qed.

(** Sorting one element into a sorted list, after its equals. *)
Fixpoint insert_last (x : A) (l : list A) : list A :=
  match l with
  | [] => [x]
  | y :: l' => if le y x then y :: insert_last x l' else x :: l
  end.

Lemma insert_last_perm x l : insert_last x l ≡ₚ l ++ [x].
Proof.
  induction l as [|y l IH]; simpl; [done|]. destruct (le y x); [by rewrite IH|].
  rewrite <-Permutation_cons_append. apply Permutation_swap.
Qed.

Lemma insert_last_sorted x l : StronglySorted R l → StronglySorted R (insert_last x l).
Proof.
  induction 1 as [|y l Hl IH Hy]; simpl; [by repeat constructor|].
  destruct (le y x) eqn:E; constructor.
  - done.
  - rewrite insert_last_perm. apply Forall_app. by repeat constructor.
  - by constructor.
  - assert (R x y) as Hxy by (destruct (le_total x y) as [H|H]; [exact H|congruence]).
    constructor; [done|]. eapply Forall_impl; [exact Hy|]. intros z. by apply le_trans.
Qed.

Lemma insert_last_filter_same a x l :
  StronglySorted R l →
  filter (λ y, same_rank a y = true) (insert_last x l) =
  filter (λ y, same_rank a y = true) (l ++ [x]).
Proof.
  induction 1 as [|y l Hl IH Hy]; simpl; [done|].
  destruct (le y x) eqn:E; [by rewrite !filter_cons, IH|].
  rewrite (filter_cons _ x). destruct (decide (same_rank a x = true)) as [Hx|Hx].
  - rewrite filter_none, (app_comm_cons l), filter_app, filter_none; [|clear IH..].
    + by rewrite filter_cons_True.
    + intros z Hz Haz. unfold same_rank in Hx, Haz.
      apply andb_prop in Hx as [Hax _], Haz as [_ Hza].
      assert (le z x = true) as Hzx by eauto.
      apply elem_of_cons in Hz as [->|Hz]; [congruence|].
      rewrite Forall_forall in Hy. specialize (Hy z Hz). unfold R in Hy.
      rewrite (le_trans y z x) in E; done.
    + intros z Hz Haz. unfold same_rank in Hx, Haz.
      apply andb_prop in Hx as [Hax _], Haz as [_ Hza].
      assert (le z x = true) as Hzx by eauto.
      apply elem_of_cons in Hz as [->|Hz]; [congruence|].
      rewrite Forall_forall in Hy. specialize (Hy z Hz). unfold R in Hy.
      rewrite (le_trans y z x) in E; done.
  - by rewrite (app_comm_cons l), filter_app, (filter_cons_False _ x), app_nil_r.
Qed.

Lemma stable_sort_snoc l x : stable_sort le (l ++ [x]) = insert_last x (stable_sort le l).
Proof.
  apply sorted_by_unique.
  - apply stable_sort_sorted.
  - apply insert_last_sorted, stable_sort_sorted.
  - intros a. rewrite insert_last_filter_same by apply stable_sort_sorted.
    by rewrite stable_sort_stable, !filter_app, stable_sort_stable.
Qed.

Lemma take_insert_last n x l : take n (insert_last x (take n l)) = take n (insert_last x l).
Proof.
  revert n. induction l as [|y l IH]; intros [|n]; simpl; try done.
  destruct (le y x); simpl; f_equal; [apply IH|].
  destruct n; simpl; [done|]. f_equal. rewrite take_take. f_equal. lia.
Qed.

(** Keeping the first [n] of a ranking is enough to rank one more element. *)
Lemma take_stable_sort_snoc n l x :
  take n (stable_sort le (take n (stable_sort le l) ++ [x])) = take n (stable_sort le (l ++ [x])).
Proof.
  rewrite !stable_sort_snoc. rewrite <-take_insert_last.
  assert (stable_sort le (take n (stable_sort le l)) = take n (stable_sort le l)) as ->.
  { apply sorted_by_unique; [apply stable_sort_sorted|..].
    - assert (StronglySorted R (take n (stable_sort le l) ++ drop n (stable_sort le l))) as H
        by (rewrite take_drop; apply stable_sort_sorted).
      by apply StronglySorted_app_1_l in H.
    - intros a. apply stable_sort_stable. }
  by rewrite take_take, Nat.min_id, take_insert_last.
Qed.
End stable_sort.

(** Descending order of an integer key: [sort_by_key(|x| Reverse(key x))]. *)
Definition desc_by {A} (key : A → Z) (x y : A) : bool := bool_decide (key y <= key x)%Z.

Lemma desc_by_total {A} (key : A → Z) x y :
  desc_by key x y = true ∨ desc_by key y x = true.
Proof. unfold desc_by. rewrite !bool_decide_eq_true. lia. Qed.

Lemma desc_by_trans {A} (key : A → Z) x y z :
  desc_by key x y = true → desc_by key y z = true → desc_by key x z = true.
Proof. unfold desc_by. rewrite !bool_decide_eq_true. lia. Qed.

(** ** Loops whose body may panic *)

Fixpoint try_fold {A B} (f : B → A → option B) (l : list A) (b : B) : option B :=
  match l with
  | [] => Some b
  | a :: l => b ← f b a; try_fold f l b
  end.

Lemma try_fold_inv {A B} (P : B → Prop) (f : B → A → option B) (l : list A) (b : B) :
  P b → (∀ b a, a ∈ l → P b → ∃ b', f b a = Some b' ∧ P b') →
  ∃ b', try_fold f l b = Some b' ∧ P b'.
Proof.
  revert b. induction l as [|a l IH]; intros b Hb Hf; simpl; [eauto|].
  destruct (Hf b a) as (b' & -> & Hb'); [set_solver|done|]. simpl.
  apply IH; [done|]. intros b'' a' Ha'. apply Hf. set_solver.
Qed.

Lemma try_fold_app {A B} (f : B → A → option B) (l k : list A) (b : B) :
  try_fold f (l ++ k) b = try_fold f l b ≫= try_fold f k.
Proof.
  revert b. induction l as [|a l IH]; intros b; simpl; [done|].
  destruct (f b a); simpl; auto.
Qed.

(** ** [Vec::dedup]: drop consecutive repetitions *)

Fixpoint dedup {A} `{EqDecision A} (l : list A) : list A :=
  match l with
  | x :: (y :: _) as l' => if decide (x = y) then dedup l' else x :: dedup l'
  | _ => l
  end.

(** ** Enumeration: [iter().enumerate()] *)

Definition enumerate {A} (l : list A) : list (nat * A) := imap pair l.

Lemma elem_of_enumerate {A} (l : list A) i x : (i, x) ∈ enumerate l ↔ l !! i = Some x.
Proof.
  unfold enumerate. rewrite elem_of_lookup_imap. naive_solver.
Qed.

(** ** Automation of the development *)

Create HintDb amm discriminated.
#[export] Hint Resolve desc_by_total desc_by_trans : amm.
#[export] Hint Rewrite @length_stable_sort @elem_of_stable_sort : amm.

(** Split conjunctions and destruct existentials in the context. *)
Ltac destruct_all :=
  repeat match goal with
  | H : _ ∧ _ |- _ => destruct H
  | H : ∃ _, _ |- _ => destruct H
  | H : is_Some _ |- _ => destruct H
  end.

(** Case analysis on the first [match] or [if] of the goal. *)
Ltac case_match_goal :=
  match goal with
  | |- context [ match ?x with _ => _ end ] => destruct x eqn:?
  end.
