(* ===== verification/Ordering.v ===== *)
(** * Comparators ([std::cmp::Ordering], [slice::sort_by])

    A comparator is a function into [comparison].  Comparators are built from
    keys, reversals and [then_with] chains; this file shows that such chains
    are total preorders, so that the stable sort they drive is a sort.
    [sort_by] refuses a comparator that is no total order on the elements. *)

From S2P Require Import Prelude.

Definition then_with (c d : comparison) : comparison := match c with Eq => d | c => c end.

(** [cmp x y <> Greater]: what a sort looks at. *)
Definition not_greater {A} (cmp : A → A → comparison) (x y : A) : bool :=
  match cmp x y with Gt => false | _ => true end.

Definition bool_cmp (x y : bool) : comparison :=
  match x, y with
  | false, true => Lt
  | true, false => Gt
  | _, _ => Eq
  end.

(** [Option<T>]'s derived order: [None] first. *)
Definition option_cmp {A} (cmp : A → A → comparison) (x y : option A) : comparison :=
  match x, y with
  | None, None => Eq
  | None, Some _ => Lt
  | Some _, None => Gt
  | Some x, Some y => cmp x y
  end.

(** [sort_by]: a stable sort; with a comparator that is not a total order on
    the elements the order of the result is unspecified and the sort may
    panic, which is [None]. *)
Definition consistent_order {A} (le : A → A → bool) (l : list A) : bool :=
  forallb (λ x, forallb (λ y,
    (le x y || le y x) && forallb (λ z, negb (le x y && le y z) || le x z) l) l) l.

Definition sort_by {A} (cmp : A → A → comparison) (l : list A) : option (list A) :=
  if consistent_order (not_greater cmp) l then Some (stable_sort (not_greater cmp) l) else None.

(** ** Total preorders *)

Record total_preorder {A} (cmp : A → A → comparison) : Prop := {
  tp_opp x y : cmp y x = CompOpp (cmp x y);
  tp_trans x y z : cmp x y ≠ Gt → cmp y z ≠ Gt → cmp x z ≠ Gt;
}.

Section preorder.
Context {A : Type} (cmp : A → A → comparison) (Hcmp : total_preorder cmp).

Lemma tp_refl x : cmp x x = Eq.
Proof. pose proof (tp_opp _ Hcmp x x). by destruct (cmp x x). Qed.

Lemma tp_Eq_l x y z : cmp x y = Eq → cmp x z = cmp y z.
Proof.
  intros He. assert (cmp y x = Eq) as He' by (by rewrite (tp_opp _ Hcmp x y), He).
  pose proof (tp_trans _ Hcmp x y z). pose proof (tp_trans _ Hcmp y x z).
  pose proof (tp_trans _ Hcmp z x y). pose proof (tp_trans _ Hcmp z y x).
  pose proof (tp_opp _ Hcmp x z) as Hx. pose proof (tp_opp _ Hcmp y z) as Hy.
  rewrite He, He', Hx, Hy in *. destruct (cmp x z), (cmp y z); simpl in *; naive_solver.
Qed.

Lemma tp_Lt_trans x y z : cmp x y = Lt → cmp y z ≠ Gt → cmp x z = Lt.
Proof.
  intros Hxy Hyz. pose proof (tp_trans _ Hcmp x y z) as Hxz. rewrite Hxy in Hxz.
  destruct (cmp x z) eqn:E; [|done|naive_solver].
  apply tp_Eq_l with (z := y) in E. rewrite Hxy, (tp_opp _ Hcmp y z) in E.
  by destruct (cmp y z).
Qed.

Lemma tp_trans_Lt x y z : cmp x y ≠ Gt → cmp y z = Lt → cmp x z = Lt.
Proof.
  intros Hxy Hyz. destruct (cmp x y) eqn:E; [|by eapply tp_Lt_trans; [|rewrite Hyz]|done].
  by rewrite (tp_Eq_l _ _ z E).
Qed.

Lemma not_greater_total x y : not_greater cmp x y = true ∨ not_greater cmp y x = true.
Proof.
  unfold not_greater. rewrite (tp_opp _ Hcmp x y). destruct (cmp x y); simpl; auto.
Qed.

Lemma not_greater_trans x y z :
  not_greater cmp x y = true → not_greater cmp y z = true → not_greater cmp x z = true.
Proof.
  unfold not_greater. pose proof (tp_trans _ Hcmp x y z).
  destruct (cmp x y), (cmp y z), (cmp x z); naive_solver.
Qed.

Lemma consistent_preorder l : consistent_order (not_greater cmp) l = true.
Proof.
  unfold consistent_order. apply forallb_forall. intros x _. apply forallb_forall. intros y _.
  apply andb_true_iff. split.
  - apply orb_true_iff, not_greater_total.
  - apply forallb_forall. intros z _. destruct (not_greater cmp x y && not_greater cmp y z) eqn:E.
    + apply andb_prop in E as [??]. simpl. by eapply not_greater_trans.
    + done.
Qed.

(** A total preorder is always accepted. *)
Lemma sort_by_preorder l : sort_by cmp l = Some (stable_sort (not_greater cmp) l).
Proof. unfold sort_by. by rewrite consistent_preorder. Qed.

Lemma sorted_by_preorder l :
  StronglySorted (λ x y, cmp x y ≠ Gt) (stable_sort (not_greater cmp) l).
Proof.
  eapply StronglySorted_weaken.
  - apply stable_sort_sorted; [apply not_greater_total|apply not_greater_trans].
  - intros x y. unfold not_greater. by destruct (cmp x y).
Qed.
End preorder.

Lemma sort_by_perm {A} (cmp : A → A → comparison) l l' : sort_by cmp l = Some l' → l' ≡ₚ l.
Proof.
  unfold sort_by. destruct (consistent_order _ _); [|done]. intros [= <-].
  apply stable_sort_perm.
Qed.

(** ** Building comparators *)

Lemma Z_compare_preorder : total_preorder Z.compare.
Proof. constructor; [apply Z.compare_antisym|]. exact Z.le_trans. Qed.

Lemma Nat_compare_preorder : total_preorder Nat.compare.
Proof. constructor; [apply Nat.compare_antisym|]. intros x y z. rewrite !Nat.compare_le_iff. lia. Qed.

Lemma bool_cmp_preorder : total_preorder bool_cmp.
Proof. constructor; [by intros [] []|by intros [] [] []]. Qed.

Lemma string_leb_Gt x y : String.compare x y ≠ Gt ↔ String.leb x y = true.
Proof. unfold String.leb. destruct (String.compare x y); naive_solver. Qed.

Lemma String_compare_preorder : total_preorder String.compare.
Proof.
  constructor; [by intros x y; rewrite String.compare_antisym|].
  intros x y z. rewrite !string_leb_Gt, <- !Is_true_true.
  apply (transitivity (R := String.le)).
Qed.

Lemma key_preorder {A B} (cmp : B → B → comparison) (key : A → B) :
  total_preorder cmp → total_preorder (λ x y, cmp (key x) (key y)).
Proof.
  intros [Ho Ht]. constructor; [intros; apply Ho|]. intros x y z. apply Ht.
Qed.

(** [cmp y x]: descending. *)
Lemma flip_preorder {A} (cmp : A → A → comparison) :
  total_preorder cmp → total_preorder (λ x y, cmp y x).
Proof.
  intros [Ho Ht]. constructor; [intros; apply Ho|]. intros x y z Hx Hy. by eapply Ht.
Qed.

Lemma then_with_preorder {A} (c d : A → A → comparison) :
  total_preorder c → total_preorder d → total_preorder (λ x y, then_with (c x y) (d x y)).
Proof.
  intros Hc Hd. constructor.
  - intros x y. rewrite (tp_opp _ Hc x y), (tp_opp _ Hd x y). by destruct (c x y).
  - intros x y z. destruct (c x y) eqn:Exy; simpl; [|intros _|done].
    + rewrite (tp_Eq_l c Hc x y z Exy). destruct (c y z); simpl; try done.
      apply (tp_trans _ Hd).
    + destruct (c y z) eqn:Eyz; simpl; [| |done].
      * by rewrite (tp_Lt_trans c Hc x y z Exy ltac:(by rewrite Eyz)).
      * by rewrite (tp_Lt_trans c Hc x y z Exy ltac:(by rewrite Eyz)).
Qed.

Lemma option_cmp_preorder {A} (cmp : A → A → comparison) :
  total_preorder cmp → total_preorder (option_cmp cmp).
Proof.
  intros [Ho Ht]. constructor; [intros [] []; simpl; auto|].
  intros [] [] []; simpl; try done. apply Ht.
Qed.

Lemma preorder_ext {A} (c d : A → A → comparison) :
  total_preorder c → (∀ x y, d x y = c x y) → total_preorder d.
Proof.
  intros [Ho Ht] Heq. constructor; [intros; rewrite !Heq; apply Ho|].
  intros x y z. rewrite !Heq. apply Ht.
Qed.

#[export] Hint Resolve Z_compare_preorder Nat_compare_preorder bool_cmp_preorder
  String_compare_preorder option_cmp_preorder : amm.

(** Decide that a [then_with] chain over keys is a total preorder. *)
Ltac solve_preorder :=
  repeat first
    [ apply then_with_preorder
    | solve [auto with amm]
    | match goal with
      | |- total_preorder (λ x y, ?cmp (@?key x) (@?key y)) =>
          apply (key_preorder cmp key)
      | |- total_preorder (λ x y, ?cmp (@?key y) (@?key x)) =>
          apply (flip_preorder (λ x y, cmp (key x) (key y))), (key_preorder cmp key)
      end ].
