(* ===== verification/AmmState.v ===== *)
(** * The interface to [evm-amm-state]

    The crate under verification is the search layer over the external
    [evm-amm-state] crate.  That crate's code is not part of this repository,
    so its types and operations are parameters: the class [AmmTypes] holds the
    opaque types, the records below hold exactly the fields the search layer
    reads, and [AdapterRegistry] is a record of operations with the laws the
    search layer relies on stated separately in [registry_wf]. *)

From S2P Require Import Prelude.

(** Opaque types of the adapter crate.  [pool_debug] and [sim_error_display]
    are the [Debug] and [Display] renderings the search layer sorts by or
    reports; the three [sim_*] projections are the fields of [SimConfig] the
    quote cache keys on. *)
Module ProtocolId.
Inductive t : Type :=
  | UniswapV2 | UniswapV3 | PancakeV3 | Slipstream | SolidlyV2
  | BalancerV2 | Curve | Custom (tag : Z)
  | BalancerV3 | Erc4626 | UniswapV4.

#[global] Instance t_eq_dec : EqDecision t.
Proof. solve_decision. Defined.
End ProtocolId.

Module PoolStatus.
(** [Other] stands for every status the search layer never names. *)
Inductive t : Type := Ready | Degraded | Other (tag : Z).

#[global] Instance t_eq_dec : EqDecision t.
Proof. solve_decision. Defined.
End PoolStatus.

Class AmmTypes := {
  PoolKey : Type;
  PoolKey_eq_dec :: EqDecision PoolKey;
  PoolKey_countable :: Countable PoolKey;
  pool_protocol : PoolKey → ProtocolId.t;
  pool_address : PoolKey → option Address;
  pool_debug : PoolKey → string;
  address_debug : Address → string;
  protocol_debug : ProtocolId.t → string;
  AdapterCache : Type;
  SimConfig : Type;
  SimConfig_default : SimConfig;
  sim_v3_quoter : SimConfig → Address;
  sim_v2_router : SimConfig → Address;
  sim_from : SimConfig → Address;
  SimError : Type;
  sim_error_display : SimError → string;
  (** the live runtime's state points and versioned pool states *)
  AmmStatePoint : Type;
  AmmStatePoint_eq_dec :: EqDecision AmmStatePoint;
  PoolInstanceId : Type;
  PoolInstanceId_eq_dec :: EqDecision PoolInstanceId;
  PoolInstanceId_countable :: Countable PoolInstanceId;
  instance_key : PoolInstanceId → PoolKey;
  instance_debug : PoolInstanceId → string;
  PoolStateRef : Type;
  PoolStateRef_eq_dec :: EqDecision PoolStateRef;
  PoolStateRef_countable :: Countable PoolStateRef;
  PoolRevision : Type;
  PoolStateRef_new : PoolInstanceId → PoolRevision → AmmStatePoint → PoolStateRef;
  state_ref_pool : PoolStateRef → PoolInstanceId;
}.

(** ** Pool metadata: the fields the search layer and the router encoders read *)

Module CurveVariant.
(** [Other] stands for every variant the encoders never name. *)
Inductive t : Type := StableSwap | CryptoSwap | CryptoSwapNG | Other (tag : Z).

#[global] Instance t_eq_dec : EqDecision t.
Proof. solve_decision. Defined.
End CurveVariant.

Record BalancerCash := {
  cash_token : Address;
  cash_slot : U256;
  cash_high_field : bool;
}.

Module ProtocolMetadata.
Inductive t : Type :=
  | UniswapV2 (token0 token1 : option Address) (fee_bps : option Z)
  | UniswapV3 (token0 token1 : option Address) (fee : option Z)
  | PancakeV3 (token0 token1 : option Address) (fee : option Z)
  | Slipstream (token0 token1 : option Address) (fee : option Z)
  | SolidlyV2 (token0 token1 : option Address)
  | BalancerV2 (tokens : list Address) (vault : option Address)
      (token_cash : list BalancerCash)
  | Curve (coins : list Address) (variant : CurveVariant.t)
  | Unknown
  | Custom (tag : Z).
End ProtocolMetadata.

Section registry.
Context `{!AmmTypes}.

Record PoolRegistration := {
  reg_key : PoolKey;
  reg_status : PoolStatus.t;
  reg_metadata : ProtocolMetadata.t;
  reg_state_addresses : list Address;
}.

(** An adapter is its canonical [simulate_swap]; it may write the cache. *)
Definition Adapter : Type :=
  PoolRegistration → AdapterCache → Address → Address → U256 → SimConfig →
  result SimError U256 * AdapterCache.

Record AdapterRegistry := {
  registry_pools : list PoolRegistration;
  registry_pool : PoolKey → option PoolRegistration;
  registry_adapter : ProtocolId.t → option Adapter;
}.

(** The registry indexes its registrations by key: [pool] finds exactly the
    registrations [pools] iterates over, one per key. *)
Record registry_wf (r : AdapterRegistry) : Prop := {
  registry_pool_spec k p :
    registry_pool r k = Some p ↔ p ∈ registry_pools r ∧ reg_key p = k;
  registry_pools_nodup : NoDup (reg_key <$> registry_pools r);
}.
End registry.
