(* ===== verification/Petgraph.v ===== *)
(** * The interface to [petgraph::stable_graph::StableDiGraph]

    The graph library is external: this file states the operations the search
    layer calls as a class, and the behaviour it relies on as a second class
    of laws, so that every definition depends on the operations only and every
    theorem that needs a law names [PetgraphLaws].

    The laws are the documented ones (indices stay valid until their node or
    edge is removed; removing a node removes its edges) together with the
    iteration order of [edges_directed]: most recently added edge first, which
    is the order the cached view of the graph mirrors. *)

From S2P Require Import Prelude.

Abbreviation NodeIndex := nat (only parsing).
Abbreviation EdgeIndex := nat (only parsing).

Class Petgraph (NW EW : Type) := {
  DiGraph : Type;
  pg_empty : DiGraph;
  pg_node_weight : DiGraph → NodeIndex → option NW;
  (** endpoints and weight of a live edge *)
  pg_edge : DiGraph → EdgeIndex → option (NodeIndex * NodeIndex * EW);
  pg_outgoing : DiGraph → NodeIndex → list EdgeIndex;
  pg_incoming : DiGraph → NodeIndex → list EdgeIndex;
  pg_node_indices : DiGraph → list NodeIndex;
  pg_edge_indices : DiGraph → list EdgeIndex;
  pg_add_node : NW → DiGraph → NodeIndex * DiGraph;
  pg_add_edge : NodeIndex → NodeIndex → EW → DiGraph → EdgeIndex * DiGraph;
  pg_remove_edge : EdgeIndex → DiGraph → DiGraph;
  pg_remove_node : NodeIndex → DiGraph → DiGraph;
}.
Arguments DiGraph NW EW {_}.

Definition pg_node_count {NW EW} `{!Petgraph NW EW} (g : DiGraph NW EW) : nat :=
  length (pg_node_indices g).
Definition pg_edge_count {NW EW} `{!Petgraph NW EW} (g : DiGraph NW EW) : nat :=
  length (pg_edge_indices g).

(** [pg_ok g]: [g] was built by the library's operations. *)
Class PetgraphLaws (NW EW : Type) `{!Petgraph NW EW} := {
  pg_ok : DiGraph NW EW → Prop;

  pg_ok_empty : pg_ok pg_empty;
  pg_ok_add_node g w : pg_ok g → pg_ok (pg_add_node w g).2;
  pg_ok_add_edge g a b w :
    pg_ok g → is_Some (pg_node_weight g a) → is_Some (pg_node_weight g b) →
    pg_ok (pg_add_edge a b w g).2;
  pg_ok_remove_edge g e : pg_ok g → pg_ok (pg_remove_edge e g);
  pg_ok_remove_node g n : pg_ok g → pg_ok (pg_remove_node n g);

  pg_empty_node n : pg_node_weight pg_empty n = None;
  pg_empty_edge e : pg_edge pg_empty e = None;

  pg_edge_live g e a b w :
    pg_ok g → pg_edge g e = Some (a, b, w) →
    is_Some (pg_node_weight g a) ∧ is_Some (pg_node_weight g b);
  pg_outgoing_spec g n e :
    pg_ok g → e ∈ pg_outgoing g n ↔ ∃ b w, pg_edge g e = Some (n, b, w);
  pg_incoming_spec g n e :
    pg_ok g → e ∈ pg_incoming g n ↔ ∃ a w, pg_edge g e = Some (a, n, w);
  pg_outgoing_nodup g n : pg_ok g → NoDup (pg_outgoing g n);
  pg_incoming_nodup g n : pg_ok g → NoDup (pg_incoming g n);
  pg_node_indices_spec g n :
    pg_ok g → n ∈ pg_node_indices g ↔ is_Some (pg_node_weight g n);
  pg_node_indices_nodup g : pg_ok g → NoDup (pg_node_indices g);
  pg_edge_indices_spec g e :
    pg_ok g → e ∈ pg_edge_indices g ↔ is_Some (pg_edge g e);
  pg_edge_indices_nodup g : pg_ok g → NoDup (pg_edge_indices g);

  pg_add_node_fresh g w :
    pg_ok g → pg_node_weight g (pg_add_node w g).1 = None;
  pg_add_node_weight g w n :
    pg_ok g → pg_node_weight (pg_add_node w g).2 n =
    if decide (n = (pg_add_node w g).1) then Some w else pg_node_weight g n;
  pg_add_node_edge g w e :
    pg_ok g → pg_edge (pg_add_node w g).2 e = pg_edge g e;
  pg_add_node_outgoing g w n :
    pg_ok g → pg_outgoing (pg_add_node w g).2 n = pg_outgoing g n;

  pg_add_edge_fresh g a b w :
    pg_ok g → is_Some (pg_node_weight g a) → is_Some (pg_node_weight g b) →
    pg_edge g (pg_add_edge a b w g).1 = None;
  pg_add_edge_weight g a b w n :
    pg_ok g → is_Some (pg_node_weight g a) → is_Some (pg_node_weight g b) →
    pg_node_weight (pg_add_edge a b w g).2 n = pg_node_weight g n;
  pg_add_edge_edge g a b w e :
    pg_ok g → is_Some (pg_node_weight g a) → is_Some (pg_node_weight g b) →
    pg_edge (pg_add_edge a b w g).2 e =
    if decide (e = (pg_add_edge a b w g).1) then Some (a, b, w) else pg_edge g e;
  pg_add_edge_outgoing g a b w n :
    pg_ok g → is_Some (pg_node_weight g a) → is_Some (pg_node_weight g b) →
    pg_outgoing (pg_add_edge a b w g).2 n =
    if decide (n = a) then (pg_add_edge a b w g).1 :: pg_outgoing g n
    else pg_outgoing g n;

  pg_remove_edge_weight g e n :
    pg_ok g → pg_node_weight (pg_remove_edge e g) n = pg_node_weight g n;
  pg_remove_edge_edge g e e' :
    pg_ok g → pg_edge (pg_remove_edge e g) e' =
    if decide (e' = e) then None else pg_edge g e';
  pg_remove_edge_outgoing g e n :
    pg_ok g → pg_outgoing (pg_remove_edge e g) n =
    filter (λ e', e' ≠ e) (pg_outgoing g n);

  pg_remove_node_weight g n m :
    pg_ok g → pg_node_weight (pg_remove_node n g) m =
    if decide (m = n) then None else pg_node_weight g m;
  (** Every edge of a removed node goes with it; the others stay. *)
  pg_remove_node_edge g n e :
    pg_ok g → pg_edge (pg_remove_node n g) e =
    match pg_edge g e with
    | Some (a, b, w) => if decide (a = n ∨ b = n) then None else Some (a, b, w)
    | None => None
    end;
  pg_remove_node_outgoing g n m :
    pg_ok g → pg_outgoing (pg_remove_node n g) m =
    filter (λ e, is_Some (pg_edge (pg_remove_node n g) e)) (pg_outgoing g m);
}.
