(* ===== verification/Graph.v ===== *)
(** * The token graph ([src/graph.rs])

    Token addresses are nodes, directed pool swaps are edges.  The state is the
    record [AmmGraph] with the fields of the Rust struct; a function that may
    panic (an exhausted version counter) returns [None] for the panic.  The
    process-wide lineage counter [NEXT_GRAPH_LINEAGE] is threaded explicitly. *)

From S2P Require Import Prelude AmmState Petgraph.

(** ** Versions *)

Record GraphVersion := { lineage : Z; revision : Z }.

#[export] Instance GraphVersion_eq_dec : EqDecision GraphVersion.
Proof. solve_decision. Defined.

(** [fetch_update] returns the previous counter and panics at [u64::MAX]. *)
Definition GraphVersion_initial (next_lineage : Z) : option (GraphVersion * Z) :=
  next ← u64_checked_add next_lineage 1;
  Some ({| lineage := next_lineage; revision := 0 |}, next).

Definition GraphVersion_checked_next (v : GraphVersion) : option GraphVersion :=
  r ← u64_checked_add (revision v) 1;
  Some {| lineage := lineage v; revision := r |}.

(** [next]: the [expect] on [checked_next]; [None] is the panic. *)
Definition GraphVersion_next (v : GraphVersion) : option GraphVersion :=
  GraphVersion_checked_next v.

(** ** Build options and skip reasons *)

Record GraphBuildOptions := { include_degraded : bool }.

Definition GraphBuildOptions_default : GraphBuildOptions :=
  {| include_degraded := false |}.
Definition GraphBuildOptions_include_degraded : GraphBuildOptions :=
  {| include_degraded := true |}.
Definition indexes_degraded (o : GraphBuildOptions) : bool := include_degraded o.

Inductive SkippedPoolReason : Type :=
  | SkipStatus (status : PoolStatus.t)
  | MissingMetadata (field : string)
  | UnsupportedMetadata
  | TooFewTokens (count : nat).

#[export] Instance SkippedPoolReason_eq_dec : EqDecision SkippedPoolReason.
Proof. solve_decision. Defined.

Inductive GraphPoolMutation : Type :=
  | MutUnchanged
  | MutAdded (directed_edges : Z)
  | MutUpdated (removed_edges added_edges : Z)
  | MutRemoved (directed_edges : Z)
  | MutSkipped (reason : SkippedPoolReason).

Definition topology_changed (m : GraphPoolMutation) : bool :=
  match m with
  | MutAdded _ | MutUpdated _ _ | MutRemoved _ => true
  | _ => false
  end.

(** ** Token extraction *)

Definition is_indexable_status (status : PoolStatus.t) (o : GraphBuildOptions) : bool :=
  bool_decide (status = PoolStatus.Ready)
  || (indexes_degraded o && bool_decide (status = PoolStatus.Degraded)).

Definition pair_tokens (token0 token1 : option Address) (field : string) :
    result SkippedPoolReason (list Address) :=
  match token0, token1 with
  | Some t0, Some t1 => Ok [t0; t1]
  | _, _ => Err (MissingMetadata field)
  end.

Definition address_le (x y : Address) : bool := bool_decide (x <= y)%Z.

Definition normalize_tokens (tokens : list Address) :
    result SkippedPoolReason (list Address) :=
  let tokens := dedup (stable_sort address_le tokens) in
  if decide (length tokens < 2) then Err (TooFewTokens (length tokens))
  else Ok tokens.

Definition directed_edge_count (tokens : nat) : Z :=
  usize_saturating_mul (Z.of_nat tokens) (Z.max 0 (Z.of_nat tokens - 1)).

(** [for_each_token_pair]: the closure's captured state is threaded. *)
Definition for_each_token_pair {S} (tokens : list Address)
    (apply : S → Address * Address → S) (s : S) : S :=
  foldl (λ s '(left_index, left_token),
    foldl (λ s right_token, apply s (left_token, right_token)) s
      (drop (left_index + 1) tokens))
    s (enumerate tokens).

Section graph.
Context `{!AmmTypes}.

Definition tokens_for_pool (pool : PoolRegistration) :
    result SkippedPoolReason (list Address) :=
  tokens ←
    match reg_metadata pool with
    | ProtocolMetadata.UniswapV2 t0 t1 _ =>
        pair_tokens t0 t1 "Uniswap V2 token0/token1"
    | ProtocolMetadata.UniswapV3 t0 t1 _
    | ProtocolMetadata.PancakeV3 t0 t1 _
    | ProtocolMetadata.Slipstream t0 t1 _ =>
        pair_tokens t0 t1 "V3-family token0/token1"
    | ProtocolMetadata.SolidlyV2 t0 t1 =>
        pair_tokens t0 t1 "Solidly V2 token0/token1"
    | ProtocolMetadata.BalancerV2 tokens _ _ => Ok tokens
    | ProtocolMetadata.Curve coins _ => Ok coins
    | ProtocolMetadata.Unknown | ProtocolMetadata.Custom _ =>
        Err UnsupportedMetadata
    end;
  normalize_tokens tokens.

Definition pool_key_sort_key (pool : PoolKey) : string := pool_debug pool.

(** ** The graph *)

Record EdgeData := { ed_pool : PoolKey }.

Record CachedOutgoingEdge := {
  ce_target : NodeIndex;
  ce_token_in : Address;
  ce_token_out : Address;
  ce_pool : PoolKey;
}.

Record SkippedPool := { skipped_pool : PoolKey; skipped_reason : SkippedPoolReason }.

Context `{!Petgraph Address EdgeData}.

Record AmmGraph := {
  graph : DiGraph Address EdgeData;
  node_map : gmap Address NodeIndex;
  edge_map : gmap PoolKey (list EdgeIndex);
  pool_tokens : gmap PoolKey (list Address);
  pair_pools : gmap (Address * Address) (gset PoolKey);
  outgoing_map : gmap NodeIndex (list CachedOutgoingEdge);
  version : GraphVersion;
}.

Record GraphBuildReport := {
  report_graph : AmmGraph;
  report_indexed_pools : list PoolKey;
  report_skipped_pools : list SkippedPool;
}.

Record GraphBuildSummary := {
  summary_indexed_pools : list PoolKey;
  summary_skipped_pools : list SkippedPool;
}.

Definition set_version (v : GraphVersion) (g : AmmGraph) : AmmGraph :=
  {| graph := graph g; node_map := node_map g; edge_map := edge_map g;
     pool_tokens := pool_tokens g; pair_pools := pair_pools g;
     outgoing_map := outgoing_map g; version := v |}.

Definition set_pairs (m : gmap (Address * Address) (gset PoolKey)) (g : AmmGraph) : AmmGraph :=
  {| graph := graph g; node_map := node_map g; edge_map := edge_map g;
     pool_tokens := pool_tokens g; pair_pools := m;
     outgoing_map := outgoing_map g; version := version g |}.

Definition set_pool_tokens (m : gmap PoolKey (list Address)) (g : AmmGraph) : AmmGraph :=
  {| graph := graph g; node_map := node_map g; edge_map := edge_map g;
     pool_tokens := m; pair_pools := pair_pools g;
     outgoing_map := outgoing_map g; version := version g |}.

(** [AmmGraph::new]: an empty graph under a fresh lineage. *)
Definition AmmGraph_empty (v : GraphVersion) : AmmGraph :=
  {| graph := pg_empty; node_map := ∅; edge_map := ∅; pool_tokens := ∅;
     pair_pools := ∅; outgoing_map := ∅; version := v |}.

Definition AmmGraph_new (next_lineage : Z) : option (AmmGraph * Z) :=
  '(v, next) ← GraphVersion_initial next_lineage;
  Some (AmmGraph_empty v, next).

(** *** Queries *)

Definition node_count (g : AmmGraph) : nat := pg_node_count (graph g).
Definition edge_count (g : AmmGraph) : nat := pg_edge_count (graph g).
Definition node_index (g : AmmGraph) (token : Address) : option NodeIndex :=
  node_map g !! token.
Definition node_token (g : AmmGraph) (node : NodeIndex) : option Address :=
  pg_node_weight (graph g) node.

Definition edges_for_pool (g : AmmGraph) (pool : PoolKey) : list EdgeIndex :=
  match edge_map g !! pool with
  | Some edges => filter (λ e, is_Some (pg_edge (graph g) e)) edges
  | None => []
  end.

Definition outgoing_edges (g : AmmGraph) (node : NodeIndex) : list CachedOutgoingEdge :=
  default [] (outgoing_map g !! node).

Definition tracked_tokens_for_pool (g : AmmGraph) (pool : PoolKey)
    (parallel_only : bool) : gset Address :=
  match pool_tokens g !! pool with
  | None => ∅
  | Some tokens =>
      if negb parallel_only then list_to_set tokens
      else for_each_token_pair tokens (λ tracked pair,
        match pair_pools g !! pair with
        | Some pools =>
            if decide (2 <= size pools) then tracked ∪ {[pair.1]} ∪ {[pair.2]}
            else tracked
        | None => tracked
        end) ∅
  end.

Definition parallel_neighbors (g : AmmGraph) (pool : PoolKey) : gset PoolKey :=
  match pool_tokens g !! pool with
  | None => ∅
  | Some tokens => for_each_token_pair tokens (λ neighbors pair,
      match pair_pools g !! pair with
      | Some pools => neighbors ∪ pools
      | None => neighbors
      end) ∅
  end.

(** *** Adding a pool *)

Definition get_or_create_node (token : Address) (g : AmmGraph) : NodeIndex * AmmGraph :=
  match node_map g !! token with
  | Some node => (node, g)
  | None =>
      let '(node, pg) := pg_add_node token (graph g) in
      (node,
       {| graph := pg; node_map := <[token := node]> (node_map g);
          edge_map := edge_map g; pool_tokens := pool_tokens g;
          pair_pools := pair_pools g; outgoing_map := outgoing_map g;
          version := version g |})
  end.

Fixpoint create_nodes (tokens : list Address) (g : AmmGraph) : list NodeIndex * AmmGraph :=
  match tokens with
  | [] => ([], g)
  | token :: tokens =>
      let '(node, g) := get_or_create_node token g in
      let '(nodes, g) := create_nodes tokens g in
      (node :: nodes, g)
  end.

(** The body of the inner loop of [add_pool_edges]: one directed edge, its
    entry in front of the cached outgoing view, its index in [edge_map]. *)
Definition add_directed_edge (pool : PoolKey) (from to : Address * NodeIndex)
    (g : AmmGraph) : AmmGraph :=
  let '(edge, pg) := pg_add_edge from.2 to.2 {| ed_pool := pool |} (graph g) in
  {| graph := pg; node_map := node_map g;
     edge_map := entry_or_default [] (λ edges, edges ++ [edge]) pool (edge_map g);
     pool_tokens := pool_tokens g; pair_pools := pair_pools g;
     outgoing_map := entry_or_default []
       (cons {| ce_target := to.2; ce_token_in := from.1;
                ce_token_out := to.1; ce_pool := pool |})
       from.2 (outgoing_map g);
     version := version g |}.

Definition add_pool_pairs (pool : PoolKey) (tokens : list Address) (g : AmmGraph) : AmmGraph :=
  set_pairs (for_each_token_pair tokens (λ m pair,
    entry_or_default ∅ (λ pools, {[pool]} ∪ pools) pair m) (pair_pools g)) g.

Definition remove_pool_pairs (pool : PoolKey) (tokens : list Address) (g : AmmGraph) : AmmGraph :=
  set_pairs (for_each_token_pair tokens (λ m pair,
    match m !! pair with
    | Some pools =>
        let pools := pools ∖ {[pool]} in
        if decide (pools = ∅) then delete pair m else <[pair := pools]> m
    | None => m
    end) (pair_pools g)) g.

Definition add_pool_edges (pool : PoolKey) (tokens : list Address) (g : AmmGraph) : AmmGraph :=
  let '(nodes, g) := create_nodes tokens g in
  let g := foldl (λ g '(from_idx, from_node),
      foldl (λ g '(to_idx, to_node),
        if decide (from_idx = to_idx) then g
        else add_directed_edge pool (nth from_idx tokens 0%Z, from_node)
               (nth to_idx tokens 0%Z, to_node) g)
        g (enumerate nodes))
      g (enumerate nodes) in
  let g := add_pool_pairs pool tokens g in
  set_pool_tokens (<[pool := tokens]> (pool_tokens g)) g.

(** *** Removing a pool *)

(** [retain] on the cached edges of one token's node. *)
Definition retain_outgoing (pool : PoolKey) (g : AmmGraph)
    (m : gmap NodeIndex (list CachedOutgoingEdge)) (token : Address) :
    gmap NodeIndex (list CachedOutgoingEdge) :=
  match node_map g !! token with
  | None => m
  | Some node =>
      match m !! node with
      | Some edges => <[node := filter (λ e, ce_pool e ≠ pool) edges]> m
      | None => m
      end
  end.

Definition remove_pool_edges (pool : PoolKey) (g : AmmGraph) :
    (nat * list Address) * AmmGraph :=
  let tokens := default [] (pool_tokens g !! pool) in
  let g := set_pool_tokens (delete pool (pool_tokens g)) g in
  let g := remove_pool_pairs pool tokens g in
  match edge_map g !! pool with
  | None => ((0, tokens), g)
  | Some edges =>
      ((length edges, tokens),
       {| graph := foldl (λ pg e, pg_remove_edge e pg) (graph g) edges;
          node_map := node_map g;
          edge_map := delete pool (edge_map g);
          pool_tokens := pool_tokens g; pair_pools := pair_pools g;
          outgoing_map := foldl (retain_outgoing pool g) (outgoing_map g) tokens;
          version := version g |})
  end.

(** One step of the loop of [prune_orphan_tokens]. *)
Definition prune_orphan_token (g : AmmGraph) (token : Address) : AmmGraph :=
  match node_map g !! token with
  | None => g
  | Some node =>
      let has_edges :=
        bool_decide (pg_outgoing (graph g) node ≠ [])
        || bool_decide (pg_incoming (graph g) node ≠ []) in
      if has_edges then g
      else {| graph := pg_remove_node node (graph g);
              node_map := delete token (node_map g);
              edge_map := edge_map g; pool_tokens := pool_tokens g;
              pair_pools := pair_pools g;
              outgoing_map := delete node (outgoing_map g);
              version := version g |}
  end.

Definition prune_orphan_tokens (tokens : list Address) (g : AmmGraph) : AmmGraph :=
  foldl prune_orphan_token g tokens.

Definition remove_pool (pool : PoolKey) (g : AmmGraph) : option (nat * AmmGraph) :=
  let '((removed, _), g) := remove_pool_edges pool g in
  if decide (0 < removed) then
    v ← GraphVersion_next (version g);
    Some (removed, set_version v g)
  else Some (removed, g).

Definition remove_pool_compacting (pool : PoolKey) (g : AmmGraph) :
    option (GraphPoolMutation * AmmGraph) :=
  let '((directed_edges, tokens), g) := remove_pool_edges pool g in
  if decide (directed_edges = 0) then Some (MutUnchanged, g)
  else
    let g := prune_orphan_tokens tokens g in
    v ← GraphVersion_next (version g);
    Some (MutRemoved (Z.of_nat directed_edges), set_version v g).

Definition remove_or_skip (pool : PoolKey) (reason : SkippedPoolReason) (g : AmmGraph) :
    option (GraphPoolMutation * AmmGraph) :=
  '(m, g) ← remove_pool_compacting pool g;
  match m with
  | MutRemoved n => Some (MutRemoved n, g)
  | MutUnchanged => Some (MutSkipped reason, g)
  | _ => None (* unreachable!() *)
  end.

(** *** Applying one registration *)

Definition apply_pool (registration : PoolRegistration) (o : GraphBuildOptions)
    (g : AmmGraph) : option (GraphPoolMutation * AmmGraph) :=
  let key := reg_key registration in
  if is_indexable_status (reg_status registration) o then
    match tokens_for_pool registration with
    | Err reason => remove_or_skip key reason g
    | Ok tokens =>
        match pool_tokens g !! key with
        | Some current =>
            if decide (current = tokens) then Some (MutUnchanged, g)
            else
              let '((removed_edges, old_tokens), g) := remove_pool_edges key g in
              let g := prune_orphan_tokens old_tokens g in
              let g := add_pool_edges key tokens g in
              v ← GraphVersion_next (version g);
              Some (MutUpdated (Z.of_nat removed_edges)
                      (directed_edge_count (length tokens)), set_version v g)
        | None =>
            let g := add_pool_edges key tokens g in
            v ← GraphVersion_next (version g);
            Some (MutAdded (directed_edge_count (length tokens)), set_version v g)
        end
    end
  else remove_or_skip key (SkipStatus (reg_status registration)) g.

(** *** Building from a registry *)

Definition registration_le (x y : PoolRegistration) : bool :=
  String.leb (pool_key_sort_key (reg_key x)) (pool_key_sort_key (reg_key y)).

(** One iteration of the loop of [from_registry]. *)
Definition index_pool (o : GraphBuildOptions)
    (acc : AmmGraph * list PoolKey * list SkippedPool) (pool : PoolRegistration) :
    AmmGraph * list PoolKey * list SkippedPool :=
  let '(g, indexed, skipped) := acc in
  if negb (is_indexable_status (reg_status pool) o) then
    (g, indexed, skipped ++ [{| skipped_pool := reg_key pool;
                                skipped_reason := SkipStatus (reg_status pool) |}])
  else
    match tokens_for_pool pool with
    | Err reason =>
        (g, indexed, skipped ++ [{| skipped_pool := reg_key pool;
                                    skipped_reason := reason |}])
    | Ok tokens =>
        (add_pool_edges (reg_key pool) tokens g, indexed ++ [reg_key pool], skipped)
    end.

Definition from_registry (registry : AdapterRegistry) (o : GraphBuildOptions)
    (next_lineage : Z) : option (GraphBuildReport * Z) :=
  '(g, next) ← AmmGraph_new next_lineage;
  let pools := stable_sort registration_le (registry_pools registry) in
  let '(g, indexed, skipped) := foldl (index_pool o) (g, [], []) pools in
  Some ({| report_graph := g; report_indexed_pools := indexed;
           report_skipped_pools := skipped |}, next).

Definition same_observable_topology (g g' : AmmGraph) : bool :=
  bool_decide (pool_tokens g = pool_tokens g')
  && bool_decide (size (node_map g) = size (node_map g'))
  && bool_decide (dom (node_map g) ⊆ dom (node_map g')).

Definition rebuild_from_registry (registry : AdapterRegistry) (o : GraphBuildOptions)
    (next_lineage : Z) (g : AmmGraph) : option (GraphBuildSummary * AmmGraph * Z) :=
  '(report, next) ← from_registry registry o next_lineage;
  v ← (if same_observable_topology g (report_graph report) then Some (version g)
       else GraphVersion_next (version g));
  Some ({| summary_indexed_pools := report_indexed_pools report;
           summary_skipped_pools := report_skipped_pools report |},
        set_version v (report_graph report), next).
End graph.
