(* ===== verification/GraphPairs.v ===== *)
(** * Token pairs

    The two loops of [src/graph.rs] over the tokens of a pool, as lists:
    [token_pairs] is what [for_each_token_pair] visits, [directed_pairs] what
    the nested loops of [add_pool_edges] visit. *)

From S2P Require Import Prelude AmmState Petgraph Graph.

Fixpoint token_pairs {A} (l : list A) : list (A * A) :=
  match l with
  | [] => []
  | x :: l => (pair x <$> l) ++ token_pairs l
  end.

Definition directed_pairs {A} (l : list A) : list (A * A) :=
  '(i, x) ← enumerate l;
  omap (λ '(j, y), if decide (i = j) then None else Some (x, y)) (enumerate l).

(** ** [for_each_token_pair] is a fold over [token_pairs] *)

Lemma for_each_token_pair_offset {S} (f : S → Address * Address → S) pre l s :
  foldl (λ s '(i, x), foldl (λ s y, f s (x, y)) s (drop (i + 1) (pre ++ l))) s
    (imap (λ i x, (length pre + i, x)) l) =
  foldl f s (token_pairs l).
Proof.
  revert pre s. induction l as [|x l IH]; intros pre s; simpl; [done|].
  rewrite Nat.add_0_r.
  replace (drop (length pre + 1) (pre ++ x :: l)) with l.
  2: { rewrite drop_app_ge by lia. by replace (length pre + 1 - length pre) with 1 by lia. }
  rewrite foldl_app. specialize (IH (pre ++ [x])).
  rewrite length_app in IH. simpl in IH. rewrite <- app_assoc in IH. simpl in IH.
  replace (foldl f s (pair x <$> l)) with (foldl (λ s y, f s (x, y)) s l).
  2: { clear. revert s. induction l; intros s; simpl; auto. }
  rewrite <- IH. f_equal. apply imap_ext. intros i y _. simpl. f_equal. lia.
Qed.

Lemma for_each_token_pair_foldl {S} (f : S → Address * Address → S) l s :
  for_each_token_pair l f s = foldl f s (token_pairs l).
Proof. apply (for_each_token_pair_offset f [] l s). Qed.

Lemma elem_of_token_pairs_l {A} (l : list A) x y : (x, y) ∈ token_pairs l → x ∈ l ∧ y ∈ l.
Proof.
  induction l as [|z l IH]; simpl; [by intros ?%elem_of_nil|].
  rewrite elem_of_app, list_elem_of_fmap. set_solver.
Qed.

Lemma elem_of_token_pairs_ne {A} (l : list A) x y :
  NoDup l → (x, y) ∈ token_pairs l → x ≠ y.
Proof.
  induction 1 as [|z l Hz Hl IH]; simpl; [by intros ?%elem_of_nil|].
  rewrite elem_of_app, list_elem_of_fmap. intros [(?&?&?)|?]; [set_solver|auto].
Qed.

Lemma elem_of_token_pairs_total {A} (l : list A) x y :
  x ∈ l → y ∈ l → x ≠ y → (x, y) ∈ token_pairs l ∨ (y, x) ∈ token_pairs l.
Proof.
  induction l as [|z l IH]; simpl; [by intros ?%elem_of_nil|].
  rewrite !elem_of_app, !list_elem_of_fmap, !elem_of_cons. naive_solver.
Qed.

(** ** The nested loop of [add_pool_edges] is a fold over [directed_pairs] *)

Lemma foldl_bind {A B C} (f : B → C → B) (h : A → list C) (l : list A) b :
  foldl f b (l ≫= h) = foldl (λ b a, foldl f b (h a)) b l.
Proof.
  revert b. induction l as [|a l IH]; intros b; simpl; [done|].
  by rewrite foldl_app, IH.
Qed.

Lemma foldl_omap {A B C} (f : B → C → B) (h : A → option C) (l : list A) b :
  foldl f b (omap h l) =
  foldl (λ b a, match h a with Some c => f b c | None => b end) b l.
Proof.
  revert b. induction l as [|a l IH]; intros b; simpl; [done|].
  destruct (h a); simpl; apply IH.
Qed.

Lemma foldl_ext_in {A B} (f g : B → A → B) (l : list A) b :
  (∀ b a, a ∈ l → f b a = g b a) → foldl f b l = foldl g b l.
Proof.
  revert b. induction l as [|a l IH]; intros b Hfg; simpl; [done|].
  rewrite Hfg by set_solver. apply IH. set_solver.
Qed.

Lemma foldl_directed_pairs {A B} (f : B → A * A → B) (l : list A) b :
  foldl f b (directed_pairs l) =
  foldl (λ b '(i, x), foldl (λ b '(j, y),
    if decide (i = j) then b else f b (x, y)) b (enumerate l)) b (enumerate l).
Proof.
  unfold directed_pairs. rewrite foldl_bind. apply foldl_ext_in.
  intros b' [i x] _. rewrite foldl_omap. apply foldl_ext_in.
  intros b'' [j y] _. by case_decide.
Qed.

Lemma elem_of_directed_pairs {A} (l : list A) x y :
  (x, y) ∈ directed_pairs l ↔ ∃ i j, i ≠ j ∧ l !! i = Some x ∧ l !! j = Some y.
Proof.
  unfold directed_pairs. rewrite list_elem_of_bind. split.
  - intros ([i x'] & Hy & Hx). apply list_elem_of_omap in Hy as ([j y'] & Hj & Heq).
    apply elem_of_enumerate in Hx, Hj. case_decide; simplify_eq. eauto.
  - intros (i & j & Hij & Hi & Hj). exists (i, x). rewrite elem_of_enumerate.
    split; [|done]. apply list_elem_of_omap. exists (j, y).
    rewrite elem_of_enumerate. by case_decide.
Qed.

Lemma elem_of_directed_pairs_nodup {A} (l : list A) x y :
  NoDup l → (x, y) ∈ directed_pairs l ↔ x ∈ l ∧ y ∈ l ∧ x ≠ y.
Proof.
  intros Hl. rewrite elem_of_directed_pairs. split.
  - intros (i & j & Hij & Hi & Hj). split_and!.
    + by eapply list_elem_of_lookup_2.
    + by eapply list_elem_of_lookup_2.
    + intros ->. apply Hij. by eapply NoDup_lookup.
  - intros ([i Hi]%list_elem_of_lookup & [j Hj]%list_elem_of_lookup & Hne).
    exists i, j. naive_solver.
Qed.

Lemma fmap_bind_list {A B C} (f : B → C) (g : A → list B) (l : list A) :
  f <$> (l ≫= g) = l ≫= (λ x, f <$> g x).
Proof. induction l as [|a l IH]; [done|]. by rewrite !bind_cons, fmap_app, IH. Qed.

Lemma enumerate_fmap {A B} (f : A → B) (l : list A) :
  enumerate (f <$> l) = prod_map id f <$> enumerate l.
Proof. unfold enumerate. rewrite imap_fmap, fmap_imap. by apply imap_ext. Qed.

Lemma directed_pairs_fmap {A B} (f : A → B) (l : list A) :
  directed_pairs (f <$> l) = prod_map f f <$> directed_pairs l.
Proof.
  unfold directed_pairs. rewrite enumerate_fmap. rewrite fmap_bind_list, list_fmap_bind.
  apply list_bind_ext; [|done]. intros [i x]. simpl.
  rewrite list_fmap_omap, omap_fmap_list. 
  induction (enumerate l) as [|[j y] k IH]; csimpl; [done|].
  rewrite IH. by case_decide.
Qed.

Lemma length_other_entries {A B} (h : nat → A → B) (l : list A) i k :
  length (omap (λ '(j, y), if decide (i = j) then None else Some (h j y))
    (imap (λ j y, (k + j, y)) l)) =
  if decide (k <= i < k + length l) then length l - 1 else length l.
Proof.
  revert k. induction l as [|y l IH]; intros k; csimpl.
  { by case_decide. }
  replace (imap ((λ j y0, (k + j, y0)) ∘ S) l) with (imap (λ j y0, (S k + j, y0)) l).
  2: { apply imap_ext. intros j z _. simpl. f_equal. lia. }
  rewrite Nat.add_0_r. specialize (IH (S k)).
  destruct (decide (i = k)) as [Hik|Hik]; cbn [length]; rewrite IH;
    repeat case_decide; lia.
Qed.

Lemma length_bind_const {A B} (f : A → list B) (l : list A) n :
  (∀ a, a ∈ l → length (f a) = n) → length (l ≫= f) = length l * n.
Proof.
  induction l as [|a l IH]; intros Hn; [done|].
  rewrite bind_cons, length_app, Hn, IH by set_solver. simpl. lia.
Qed.

Lemma length_directed_pairs {A} (l : list A) :
  length (directed_pairs l) = length l * (length l - 1).
Proof.
  unfold directed_pairs.
  rewrite (length_bind_const _ _ (length l - 1)).
  { unfold enumerate. by rewrite length_imap. }
  intros [i x] Hi%elem_of_enumerate%lookup_lt_Some.
  pose proof (length_other_entries (λ _ y, (x, y)) l i 0) as H. simpl in H.
  unfold enumerate. etrans; [exact H|]. rewrite decide_True; [done|lia].
Qed.

Lemma NoDup_directed_pairs {A} (l : list A) : NoDup l → NoDup (directed_pairs l).
Proof.
  intros Hl. unfold directed_pairs. apply NoDup_bind.
  - intros [i x] [j y] [a b] Hi Hj Ha Hb.
    apply list_elem_of_omap in Ha as ([i' ?] & _ & ?), Hb as ([j' ?] & _ & ?).
    repeat case_decide; simplify_eq. apply elem_of_enumerate in Hi, Hj.
    f_equal. by eapply NoDup_lookup.
  - intros [i x] _. assert (∀ k (l' : list A), NoDup l' →
      NoDup (omap (λ '(j, y), if decide (i = j) then None else Some (x, y))
        (imap (λ j y, (k + j, y)) l'))) as Hgen.
    { intros k l' Hl'. revert k. induction Hl' as [|y l' Hy _ IH]; intros k; csimpl; [constructor|].
      assert (imap ((λ j y, (k + j, y)) ∘ S) l' = imap (λ j y, (S k + j, y)) l') as ->
        by (apply imap_ext; intros; simpl; f_equal; lia).
      case_decide; [apply IH|]. constructor; [|apply IH].
      intros ([j z] & Hz & ?)%list_elem_of_omap. case_decide; simplify_eq.
      apply Hy. apply elem_of_lookup_imap in Hz as (? & ? & [= -> <-] & ?).
      by eapply list_elem_of_lookup_2. }
    apply (Hgen 0 l Hl).
  - unfold enumerate. apply NoDup_fmap_1 with (f := fst).
    rewrite fmap_imap. assert (∀ k (l' : list A), NoDup (imap (λ j y, k + j) l')) as Hgen.
    { intros k l'. revert k. induction l' as [|y l' IH]; intros k; csimpl; [constructor|].
      assert (imap ((λ j _, k + j) ∘ S) l' = imap (λ j _, S k + j) l') as ->
        by (apply imap_ext; intros; simpl; lia).
      constructor; [|apply IH]. intros (j & ? & ? & _)%elem_of_lookup_imap. lia. }
    apply (Hgen 0 l).
Qed.
