(* ===== verification/GraphInv.v ===== *)
(** * The invariant of the token graph

    [core_wf] ties the petgraph value to the node map, the edge map and the
    cached outgoing view; [graph_wf] adds the topology recorded in
    [pool_tokens] and [pair_pools].  The lemmas follow the helper functions of
    [src/graph.rs] one by one. *)

From S2P Require Import Prelude AmmState Petgraph Graph GraphPairs.

Section inv.
Context `{!AmmTypes} `{!Petgraph Address EdgeData} `{!PetgraphLaws Address EdgeData}.
Implicit Types (g : AmmGraph) (p q : PoolKey) (t : Address) (n : NodeIndex)
  (e : EdgeIndex) (ts : list Address).

(** The cached record that belongs to a live edge. *)
Definition cached_of g e : option CachedOutgoingEdge :=
  '(a, b, w) ← pg_edge (graph g) e;
  ta ← pg_node_weight (graph g) a;
  tb ← pg_node_weight (graph g) b;
  Some {| ce_target := b; ce_token_in := ta; ce_token_out := tb;
          ce_pool := ed_pool w |}.

(** The token pair and pool of a live edge. *)
Definition edge_view g e : option (Address * Address * PoolKey) :=
  c ← cached_of g e; Some (ce_token_in c, ce_token_out c, ce_pool c).

(** The token pairs of the edges listed for a pool, in order. *)
Definition pool_view g p : list (option (Address * Address * PoolKey)) :=
  edge_view g <$> default [] (edge_map g !! p).

Definition pool_edges p ts : list (option (Address * Address * PoolKey)) :=
  (λ '(a, b), Some (a, b, p)) <$> directed_pairs ts.

Record core_wf g : Prop := {
  wf_pg : pg_ok (graph g);
  wf_nodes t n : node_map g !! t = Some n ↔ pg_node_weight (graph g) n = Some t;
  wf_edge_list p es : edge_map g !! p = Some es → NoDup es;
  wf_edge_map p e :
    e ∈ default [] (edge_map g !! p) ↔
    ∃ a b w, pg_edge (graph g) e = Some (a, b, w) ∧ ed_pool w = p;
  wf_outgoing n :
    outgoing_edges g n = omap (cached_of g) (pg_outgoing (graph g) n);
}.

(** [pair_pools] lists, for every unordered token pair, the pools holding it. *)
Definition pairs_wf g : Prop :=
  ∀ pr, pair_pools g !! pr ≠ Some ∅ ∧
    ∀ p, p ∈ default ∅ (pair_pools g !! pr) ↔
      ∃ ts, pool_tokens g !! p = Some ts ∧ pr ∈ token_pairs ts.

Definition topology_wf g : Prop :=
  ∀ p, match pool_tokens g !! p with
       | Some ts => NoDup ts ∧ 2 ≤ length ts ∧ pool_view g p = pool_edges p ts
       | None => edge_map g !! p = None
       end.

Record graph_wf g : Prop := {
  wf_core : core_wf g;
  wf_topology : topology_wf g;
  wf_pairs : pairs_wf g;
}.

(** Compaction: the token nodes are exactly the tokens of the indexed pools. *)
Definition no_orphans g : Prop :=
  ∀ t, is_Some (node_map g !! t) ↔ ∃ p ts, pool_tokens g !! p = Some ts ∧ t ∈ ts.

(** ** Views of live edges *)

Lemma cached_of_Some g e c :
  core_wf g →
  cached_of g e = Some c ↔
  ∃ a, pg_edge (graph g) e = Some (a, ce_target c, {| ed_pool := ce_pool c |}) ∧
    pg_node_weight (graph g) a = Some (ce_token_in c) ∧
    pg_node_weight (graph g) (ce_target c) = Some (ce_token_out c).
Proof.
  intros Hg. unfold cached_of. destruct (pg_edge (graph g) e) as [[[a b] [w]]|] eqn:He; simpl.
  2: naive_solver.
  destruct (pg_edge_live _ _ _ _ _ (wf_pg _ Hg) He) as [[ta Ha] [tb Hb]].
  rewrite Ha, Hb. simpl. destruct c; naive_solver.
Qed.

Lemma cached_of_live g e a b w :
  core_wf g → pg_edge (graph g) e = Some (a, b, w) → is_Some (cached_of g e).
Proof.
  intros Hg He. unfold cached_of. rewrite He. simpl.
  destruct (pg_edge_live _ _ _ _ _ (wf_pg _ Hg) He) as [[ta Ha] [tb Hb]].
  rewrite Ha, Hb. eauto.
Qed.

Lemma elem_of_pool_view g p a b q :
  core_wf g → Some (a, b, q) ∈ pool_view g p →
  q = p ∧ ∃ e c, cached_of g e = Some c ∧ ce_token_in c = a ∧ ce_token_out c = b ∧ ce_pool c = p.
Proof.
  intros Hg (e & Hv & He)%list_elem_of_fmap.
  apply (wf_edge_map _ Hg) in He as (na & nb & [w] & He & Hw). simpl in Hw; subst w.
  destruct (cached_of_live _ _ _ _ _ Hg He) as [c Hc].
  unfold edge_view in Hv. rewrite Hc in Hv. simpl in Hv.
  pose proof Hc as Hc'. apply cached_of_Some in Hc as (?&?&?&?); [|done].
  naive_solver.
Qed.

(** An outgoing cached edge is an edge of the pool it names. *)
Lemma outgoing_edges_spec g n c :
  core_wf g →
  c ∈ outgoing_edges g n ↔
  ∃ e, pg_edge (graph g) e = Some (n, ce_target c, {| ed_pool := ce_pool c |}) ∧
    node_map g !! ce_token_in c = Some n ∧
    node_map g !! ce_token_out c = Some (ce_target c).
Proof.
  intros Hg. rewrite (wf_outgoing _ Hg), list_elem_of_omap. split.
  - intros (e & (b & w & He)%(pg_outgoing_spec _ _ _ (wf_pg _ Hg)) & Hc).
    apply cached_of_Some in Hc as (a & He' & Ha & Hb); [|done].
    exists e. rewrite !(wf_nodes _ Hg). naive_solver.
  - intros (e & He & Ha & Hb). rewrite (wf_nodes _ Hg) in Ha, Hb. exists e.
    rewrite cached_of_Some by done.
    rewrite (pg_outgoing_spec _ _ _ (wf_pg _ Hg)). naive_solver.
Qed.

(** Two graphs that agree on the petgraph value agree on every view. *)
Lemma cached_of_ext g g' e :
  pg_edge (graph g') e = pg_edge (graph g) e →
  (∀ a b w, pg_edge (graph g) e = Some (a, b, w) →
    pg_node_weight (graph g') a = pg_node_weight (graph g) a ∧
    pg_node_weight (graph g') b = pg_node_weight (graph g) b) →
  cached_of g' e = cached_of g e.
Proof.
  intros He Hn. unfold cached_of. rewrite He.
  destruct (pg_edge (graph g) e) as [[[a b] w]|]; simpl; [|done].
  destruct (Hn a b w) as [-> ->]; done.
Qed.

(** ** Adding nodes *)

(** [extends g g']: [g'] has the nodes of [g] and the same edges and topology. *)
Record node_extension g g' : Prop := {
  ext_nodes t n : node_map g !! t = Some n → node_map g' !! t = Some n;
  ext_views p : pool_view g' p = pool_view g p;
  ext_edge_map : edge_map g' = edge_map g;
  ext_tokens : pool_tokens g' = pool_tokens g;
  ext_pairs : pair_pools g' = pair_pools g;
  ext_version : version g' = version g;
}.

#[export] Instance node_extension_po : PreOrder node_extension.
Proof.
  split; [by split|]. intros g1 g2 g3 H1 H2. split.
  - intros t n Ht. by apply (ext_nodes _ _ H2), (ext_nodes _ _ H1).
  - intros p. by rewrite (ext_views _ _ H2), (ext_views _ _ H1).
  - etrans; [apply H2|apply H1].
  - etrans; [apply H2|apply H1].
  - etrans; [apply H2|apply H1].
  - etrans; [apply H2|apply H1].
Qed.

Lemma get_or_create_node_wf t g :
  core_wf g →
  let '(n, g') := get_or_create_node t g in
  core_wf g' ∧ node_extension g g' ∧ node_map g' !! t = Some n ∧
  dom (node_map g') = {[t]} ∪ dom (node_map g).
Proof.
  intros Hg. unfold get_or_create_node. destruct (node_map g !! t) as [n|] eqn:Ht.
  { split_and!; [done..|]. apply elem_of_dom_2 in Ht. set_solver. }
  destruct (pg_add_node t (graph g)) as [n pg] eqn:Hpg.
  pose proof (wf_pg _ Hg) as Hok.
  pose proof (pg_add_node_fresh (graph g) t Hok) as Hfresh.
  pose proof (pg_add_node_weight (graph g) t) as Hw.
  pose proof (pg_add_node_edge (graph g) t) as He.
  pose proof (pg_add_node_outgoing (graph g) t) as Ho.
  pose proof (pg_ok_add_node (graph g) t Hok) as Hok'.
  rewrite Hpg in Hfresh, Hw, He, Ho, Hok'. simpl in *.
  match goal with |- core_wf ?g1 ∧ _ => set (g' := g1) end.
  assert (∀ e, cached_of g' e = cached_of g e) as Hc.
  { intros e. apply cached_of_ext; [by apply He|].
    intros a b w Hab. destruct (pg_edge_live _ _ _ _ _ Hok Hab) as [[] []].
    split; simpl; rewrite Hw by done; rewrite decide_False; congruence. }
  split_and!.
  - split; simpl.
    + done.
    + intros t' n'. rewrite Hw by done. case_decide as Hn; subst.
      * rewrite lookup_insert_Some, (wf_nodes _ Hg), Hfresh. naive_solver.
      * assert (pg_node_weight (graph g) n' = Some t' → t ≠ t').
        { rewrite <- (wf_nodes _ Hg). congruence. }
        rewrite lookup_insert_Some, (wf_nodes _ Hg). naive_solver.
    + apply (wf_edge_list _ Hg).
    + intros p e. rewrite He by done. apply (wf_edge_map _ Hg).
    + intros n'. rewrite Ho by done. etrans; [apply (wf_outgoing _ Hg)|].
      apply omap_ext_in. intros e _. symmetry. apply Hc.
  - split; simpl; [|unfold pool_view; simpl|done..].
    + intros t' n' Ht'. by rewrite lookup_insert_ne by congruence.
    + intros p. apply list_fmap_ext. intros i e _. unfold edge_view. by rewrite Hc.
  - apply lookup_insert_eq.
  - apply dom_insert_L.
Qed.

Lemma create_nodes_wf ts g :
  core_wf g →
  let '(ns, g') := create_nodes ts g in
  core_wf g' ∧ node_extension g g' ∧
  Forall2 (λ t n, node_map g' !! t = Some n) ts ns ∧
  dom (node_map g') = list_to_set ts ∪ dom (node_map g).
Proof.
  revert g. induction ts as [|t ts IH]; intros g Hg; simpl.
  { split_and!; [done..|constructor|set_solver]. }
  pose proof (get_or_create_node_wf t g Hg) as H1.
  destruct (get_or_create_node t g) as [n g1]. destruct H1 as (Hg1 & He1 & Ht & Hd1).
  specialize (IH g1 Hg1). destruct (create_nodes ts g1) as [ns g2].
  destruct IH as (Hg2 & He2 & Hts & Hd2). split_and!.
  - done.
  - by etrans.
  - constructor; [by apply (ext_nodes _ _ He2)|done].
  - rewrite Hd2, Hd1. set_solver.
Qed.

(** ** Adding edges *)

(** [pool_extension p l g g']: [g'] lists the edges [l] after those [g] lists
    for [p] and agrees with [g] everywhere else. *)
Record pool_extension p (l : list (option (Address * Address * PoolKey))) g g' : Prop := {
  pe_nodes : node_map g' = node_map g;
  pe_view : pool_view g' p = pool_view g p ++ l;
  pe_other q : q ≠ p →
    pool_view g' q = pool_view g q ∧ edge_map g' !! q = edge_map g !! q;
  pe_tokens : pool_tokens g' = pool_tokens g;
  pe_pairs : pair_pools g' = pair_pools g;
  pe_version : version g' = version g;
}.

Lemma pool_extension_trans p l1 l2 g1 g2 g3 :
  pool_extension p l1 g1 g2 → pool_extension p l2 g2 g3 →
  pool_extension p (l1 ++ l2) g1 g3.
Proof.
  intros H1 H2. split.
  - etrans; [apply H2|apply H1].
  - by rewrite (pe_view _ _ _ _ H2), (pe_view _ _ _ _ H1), app_assoc.
  - intros q Hq. destruct (pe_other _ _ _ _ H2 q Hq) as [-> ->].
    apply (pe_other _ _ _ _ H1 q Hq).
  - etrans; [apply H2|apply H1].
  - etrans; [apply H2|apply H1].
  - etrans; [apply H2|apply H1].
Qed.

Lemma pool_view_ext g g' p :
  default [] (edge_map g' !! p) = default [] (edge_map g !! p) →
  (∀ e, e ∈ default [] (edge_map g !! p) → cached_of g' e = cached_of g e) →
  pool_view g' p = pool_view g p.
Proof.
  intros Hp Hc. unfold pool_view. rewrite Hp. apply Forall_fmap_ext_1, Forall_forall.
  intros e He. unfold edge_view. by rewrite Hc.
Qed.

Lemma add_directed_edge_wf p from to g :
  core_wf g → node_map g !! from.1 = Some from.2 → node_map g !! to.1 = Some to.2 →
  core_wf (add_directed_edge p from to g) ∧
  pool_extension p [Some (from.1, to.1, p)] g (add_directed_edge p from to g).
Proof.
  intros Hg Hf Ht. unfold add_directed_edge.
  pose proof (wf_pg _ Hg) as Hok.
  apply (wf_nodes _ Hg) in Hf, Ht.
  assert (is_Some (pg_node_weight (graph g) from.2)) as Hf' by eauto.
  assert (is_Some (pg_node_weight (graph g) to.2)) as Ht' by eauto.
  destruct (pg_add_edge from.2 to.2 {| ed_pool := p |} (graph g)) as [e pg] eqn:Hpg.
  pose proof (pg_add_edge_fresh _ _ _ {| ed_pool := p |} Hok Hf' Ht') as Hfresh.
  pose proof (λ n, pg_add_edge_weight _ _ _ {| ed_pool := p |} n Hok Hf' Ht') as Hw.
  pose proof (λ e, pg_add_edge_edge _ _ _ {| ed_pool := p |} e Hok Hf' Ht') as He.
  pose proof (λ n, pg_add_edge_outgoing _ _ _ {| ed_pool := p |} n Hok Hf' Ht') as Ho.
  pose proof (pg_ok_add_edge _ _ _ {| ed_pool := p |} Hok Hf' Ht') as Hok'.
  rewrite Hpg in *. simpl in *.
  match goal with |- core_wf ?g1 ∧ _ => set (g' := g1) end.
  assert (∀ e', is_Some (pg_edge (graph g) e') → cached_of g' e' = cached_of g e') as Hc.
  { intros e' [? He']. apply cached_of_ext; [|by intros; simpl; rewrite !Hw].
    simpl. rewrite He, decide_False by congruence. done. }
  assert (cached_of g' e = Some {| ce_target := to.2; ce_token_in := from.1;
            ce_token_out := to.1; ce_pool := p |}) as Hnew.
  { unfold cached_of. simpl. rewrite He, decide_True by done. simpl.
    by rewrite !Hw, Hf, Ht. }
  assert (e ∉ default [] (edge_map g !! p)) as Hnotin.
  { rewrite (wf_edge_map _ Hg). naive_solver congruence. }
  split; [split; simpl|split; simpl; [done|..|done|done|done]].
  - done.
  - intros t n. rewrite Hw. apply (wf_nodes _ Hg).
  - intros q es. destruct (decide (q = p)) as [->|Hq].
    + rewrite lookup_entry_eq. intros [= <-]. apply NoDup_app. split_and!.
      * destruct (edge_map g !! p) eqn:Hp; simpl; [|constructor].
        by apply (wf_edge_list _ Hg p).
      * set_solver.
      * apply NoDup_singleton.
    + rewrite lookup_entry_ne by done. apply (wf_edge_list _ Hg).
  - intros q e'. rewrite default_entry, He. case_decide; subst.
    + rewrite elem_of_app, (wf_edge_map _ Hg), list_elem_of_singleton.
      case_decide; naive_solver congruence.
    + rewrite (wf_edge_map _ Hg). case_decide; naive_solver congruence.
  - intros n. unfold outgoing_edges. simpl. rewrite default_entry, Ho.
    assert (omap (cached_of g') (pg_outgoing (graph g) n) = outgoing_edges g n) as Hold.
    { rewrite (wf_outgoing _ Hg). apply omap_ext_in. intros e' He'.
      apply (pg_outgoing_spec _ _ _ Hok) in He' as (?&?&He'). apply Hc. by rewrite He'. }
    destruct (decide (from.2 = n)) as [<-|Hne].
    + rewrite decide_True by done. csimpl. rewrite Hnew, Hold. done.
    + rewrite decide_False by done. by rewrite Hold.
  - unfold pool_view. simpl. rewrite lookup_entry_eq. simpl. rewrite fmap_app. f_equal.
    + apply Forall_fmap_ext_1, Forall_forall.
      intros e' (?&?&?&He'&_)%(wf_edge_map _ Hg). unfold edge_view. by rewrite Hc.
    + unfold edge_view. simpl. by rewrite Hnew.
  - intros q Hq. rewrite lookup_entry_ne by done. split; [|done].
    apply pool_view_ext; [simpl; by rewrite lookup_entry_ne|].
    intros e' (?&?&?&He'&_)%(wf_edge_map _ Hg). apply Hc. by rewrite He'.
Qed.

Definition add_edges p (prs : list ((Address * NodeIndex) * (Address * NodeIndex))) g :=
  foldl (λ g '(from, to), add_directed_edge p from to g) g prs.

Lemma add_edges_wf p prs g :
  core_wf g →
  Forall (λ '(from, to), node_map g !! from.1 = Some from.2 ∧
                         node_map g !! to.1 = Some to.2) prs →
  core_wf (add_edges p prs g) ∧
  pool_extension p ((λ '(from, to), Some (from.1, to.1, p)) <$> prs) g (add_edges p prs g).
Proof.
  revert g. induction prs as [|[from to] prs IH]; intros g Hg Hprs.
  { split; [done|]. split; simpl; try done. by rewrite app_nil_r. }
  apply Forall_cons in Hprs as [[Hf Ht] Hprs].
  destruct (add_directed_edge_wf p from to g Hg Hf Ht) as [Hg1 He1].
  destruct (IH (add_directed_edge p from to g)) as [Hg2 He2]; [done| |].
  { eapply Forall_impl; [exact Hprs|]. intros [f' t'].
    by rewrite (pe_nodes _ _ _ _ He1). }
  split; [done|]. apply (pool_extension_trans _ [_] _ _ _ _ He1 He2).
Qed.

(** The two index loops of [add_pool_edges] visit the directed pairs. *)
Lemma add_pool_edges_loop p ts ns g :
  length ts = length ns →
  foldl (λ g '(from_idx, from_node),
    foldl (λ g '(to_idx, to_node),
      if decide (from_idx = to_idx) then g
      else add_directed_edge p (nth from_idx ts 0%Z, from_node)
             (nth to_idx ts 0%Z, to_node) g)
      g (enumerate ns)) g (enumerate ns) =
  add_edges p (directed_pairs (zip ts ns)) g.
Proof.
  intros Hlen. unfold add_edges. rewrite foldl_directed_pairs.
  assert (enumerate ns = prod_map id snd <$> enumerate (zip ts ns)) as ->.
  { rewrite <- enumerate_fmap. f_equal. symmetry. apply snd_zip. lia. }
  assert (∀ i tn, (i, tn) ∈ enumerate (zip ts ns) → nth i ts 0%Z = tn.1) as Hnth.
  { intros i [t n] Hi%elem_of_enumerate. apply nth_lookup_Some.
    apply lookup_zip_with_Some in Hi as (?&?&?&?&?). by simplify_eq. }
  rewrite foldl_fmap_list. apply foldl_ext_in. intros g1 [i [t n]] Hi.
  apply Hnth in Hi. simpl in *. rewrite foldl_fmap_list. apply foldl_ext_in.
  intros g2 [j [t' n']] Hj. apply Hnth in Hj. simpl in *. by rewrite Hi, Hj.
Qed.

(** ** Token pairs *)

Lemma add_pool_pairs_lookup p ts (m : gmap (Address * Address) (gset PoolKey)) :
  (∀ pr, m !! pr ≠ Some ∅) →
  ∀ pr, let m' := for_each_token_pair ts (λ m pr,
          entry_or_default ∅ (λ pools, {[p]} ∪ pools) pr m) m in
    m' !! pr ≠ Some ∅ ∧
    ∀ q, q ∈ default ∅ (m' !! pr) ↔
      q ∈ default ∅ (m !! pr) ∨ (q = p ∧ pr ∈ token_pairs ts).
Proof.
  rewrite for_each_token_pair_foldl. revert m.
  induction (token_pairs ts) as [|pr' prs IH]; intros m Hm pr; simpl.
  { split; [apply Hm|]. set_solver. }
  destruct (IH (entry_or_default ∅ (λ pools, {[p]} ∪ pools) pr' m)) with pr as [H1 H2].
  { intros pr1. destruct (decide (pr' = pr1)) as [->|].
    - rewrite lookup_entry_eq. intros [= ?]. set_solver.
    - by rewrite lookup_entry_ne. }
  split; [done|]. intros q. rewrite H2, default_entry. case_decide; set_solver.
Qed.

Lemma remove_pool_pairs_lookup p ts (m : gmap (Address * Address) (gset PoolKey)) :
  (∀ pr, m !! pr ≠ Some ∅) →
  ∀ pr, let m' := for_each_token_pair ts (λ m pr,
          match m !! pr with
          | Some pools =>
              let pools := pools ∖ {[p]} in
              if decide (pools = ∅) then delete pr m else <[pr := pools]> m
          | None => m
          end) m in
    m' !! pr ≠ Some ∅ ∧
    ∀ q, q ∈ default ∅ (m' !! pr) ↔
      q ∈ default ∅ (m !! pr) ∧ ¬ (q = p ∧ pr ∈ token_pairs ts).
Proof.
  rewrite for_each_token_pair_foldl. revert m.
  induction (token_pairs ts) as [|pr' prs IH]; intros m Hm pr; simpl.
  { split; [apply Hm|]. set_solver. }
  set (m1 := match m !! pr' with Some _ => _ | None => _ end).
  assert (∀ pr1, m1 !! pr1 ≠ Some ∅ ∧ ∀ q, q ∈ default ∅ (m1 !! pr1) ↔
            q ∈ default ∅ (m !! pr1) ∧ ¬ (q = p ∧ pr1 = pr')) as Hm1.
  { intros pr1. unfold m1. specialize (Hm pr1).
    destruct (m !! pr') as [pools|] eqn:Hpr; [case_decide|].
    - rewrite lookup_delete. case_decide; subst; [|set_solver].
      rewrite Hpr. simpl. set_solver.
    - rewrite lookup_insert. case_decide; subst; [|set_solver].
      rewrite Hpr. simpl. split; [congruence|set_solver].
    - split; [done|]. intros q. destruct (decide (pr1 = pr')) as [->|]; [|naive_solver].
      rewrite Hpr. set_solver. }
  destruct (IH m1) with pr as [H1 H2]; [apply Hm1|].
  split; [done|]. intros q. rewrite H2. destruct (Hm1 pr) as [_ ->]. set_solver.
Qed.

(** ** [add_pool_edges] *)

Lemma core_wf_set_pairs m g : core_wf g → core_wf (set_pairs m g).
Proof. by destruct 1; split. Qed.

Lemma core_wf_set_pool_tokens m g : core_wf g → core_wf (set_pool_tokens m g).
Proof. by destruct 1; split. Qed.

Lemma core_wf_set_version v g : core_wf g → core_wf (set_version v g).
Proof. by destruct 1; split. Qed.

Lemma graph_wf_set_version v g : graph_wf g → graph_wf (set_version v g).
Proof. destruct 1 as [H1 H2 H3]. split; [by apply core_wf_set_version|exact H2|exact H3]. Qed.

(** The fields of the graph [add_pool_edges] builds before it records the
    topology. *)
Lemma add_pool_edges_core p ts g :
  core_wf g →
  ∃ g', add_pool_edges p ts g =
      set_pool_tokens (<[p := ts]> (pool_tokens g')) (add_pool_pairs p ts g') ∧
    core_wf g' ∧
    pool_view g' p = pool_view g p ++ pool_edges p ts ∧
    (∀ q, q ≠ p → pool_view g' q = pool_view g q ∧ edge_map g' !! q = edge_map g !! q) ∧
    pool_tokens g' = pool_tokens g ∧ pair_pools g' = pair_pools g ∧
    version g' = version g ∧
    dom (node_map g') = list_to_set ts ∪ dom (node_map g).
Proof.
  intros Hg. unfold add_pool_edges.
  pose proof (create_nodes_wf ts g Hg) as Hn.
  destruct (create_nodes ts g) as [ns g1]. destruct Hn as (Hg1 & Hext & Hts & Hdom).
  pose proof (Forall2_length _ _ _ Hts) as Hlen.
  rewrite add_pool_edges_loop by done.
  destruct (add_edges_wf p (directed_pairs (zip ts ns)) g1 Hg1) as [Hg2 He2].
  { apply Forall_forall. intros [[t n] [t' n']] Hin.
    apply elem_of_directed_pairs in Hin as (i & j & _ & Hi & Hj).
    apply lookup_zip_with_Some in Hi as (?&?&?&?&?), Hj as (?&?&?&?&?). simplify_eq.
    split; by eapply (Forall2_lookup_lr _ _ _ _ _ _ Hts). }
  eexists. split; [simpl; reflexivity|]. split_and!.
  - done.
  - rewrite (pe_view _ _ _ _ He2), (ext_views _ _ Hext). f_equal. unfold pool_edges.
    rewrite <- (fst_zip ts ns) at 2 by lia.
    rewrite directed_pairs_fmap, <- list_fmap_compose.
    apply list_fmap_ext. by intros _ [[] []] _.
  - intros q Hq. destruct (pe_other _ _ _ _ He2 q Hq) as [-> ->].
    by rewrite (ext_views _ _ Hext), (ext_edge_map _ _ Hext).
  - rewrite (pe_tokens _ _ _ _ He2). apply Hext.
  - rewrite (pe_pairs _ _ _ _ He2). apply Hext.
  - rewrite (pe_version _ _ _ _ He2). apply Hext.
  - by rewrite (pe_nodes _ _ _ _ He2).
Qed.

Lemma add_pool_edges_wf p ts g :
  graph_wf g → pool_tokens g !! p = None → NoDup ts → 2 ≤ length ts →
  let g' := add_pool_edges p ts g in
  graph_wf g' ∧ pool_tokens g' = <[p := ts]> (pool_tokens g) ∧
  version g' = version g ∧ dom (node_map g') = list_to_set ts ∪ dom (node_map g).
Proof.
  intros [Hcore Htop Hpairs] Hp Hnd Hlen.
  destruct (add_pool_edges_core p ts g Hcore)
    as (g1 & Heq & Hg1 & Hview & Hother & Htok & Hpp & Hv & Hdom).
  simpl. rewrite Heq. split_and!; [split|simpl; by rewrite Htok|done|done].
  - apply core_wf_set_pool_tokens. unfold add_pool_pairs. by apply core_wf_set_pairs.
  - intros q. simpl. destruct (decide (p = q)) as [<-|Hq].
    + rewrite lookup_insert_eq. split_and!; [done..|].
      change (pool_view g1 p = pool_edges p ts). rewrite Hview.
      specialize (Htop p). rewrite Hp in Htop. unfold pool_view. by rewrite Htop.
    + rewrite lookup_insert_ne, Htok by done. specialize (Htop q).
      destruct (Hother q) as [Hv' He']; [done|].
      destruct (pool_tokens g !! q); [|by rewrite He'].
      change (NoDup l ∧ 2 ≤ length l ∧ pool_view g1 q = pool_edges q l). by rewrite Hv'.
  - intros pr. simpl. rewrite Hpp, Htok.
    destruct (add_pool_pairs_lookup p ts (pair_pools g)) with pr as [H1 H2].
    { intros pr'. apply Hpairs. }
    split; [done|]. intros q. rewrite H2. destruct (Hpairs pr) as [_ ->].
    destruct (decide (p = q)) as [<-|Hq].
    + rewrite lookup_insert_eq, Hp. naive_solver.
    + rewrite lookup_insert_ne by done. naive_solver.
Qed.

(** ** [remove_pool_edges] *)

Lemma remove_edges_spec es (pg : DiGraph Address EdgeData) :
  pg_ok pg →
  let pg' := foldl (λ pg e, pg_remove_edge e pg) pg es in
  pg_ok pg' ∧ (∀ n, pg_node_weight pg' n = pg_node_weight pg n) ∧
  (∀ e, pg_edge pg' e = if decide (e ∈ es) then None else pg_edge pg e) ∧
  (∀ n, pg_outgoing pg' n = filter (λ e, e ∉ es) (pg_outgoing pg n)).
Proof.
  revert pg. induction es as [|e es IH]; intros pg Hok; simpl.
  { split_and!; [done..|]. intros n. symmetry. apply filter_all.
    intros. apply not_elem_of_nil. }
  destruct (IH (pg_remove_edge e pg)) as (H1 & H2 & H3 & H4).
  { by apply pg_ok_remove_edge. }
  split_and!; [done|..].
  - intros n. rewrite H2. by apply pg_remove_edge_weight.
  - intros e'. rewrite H3, pg_remove_edge_edge by done. repeat case_decide; set_solver.
  - intros n. rewrite H4, pg_remove_edge_outgoing by done. rewrite list_filter_filter.
    apply list_filter_iff. intros e'. set_solver.
Qed.

(** The cached lists after [retain] on the nodes of [ts]. *)
Lemma retain_outgoing_spec p g ts m n :
  default [] (foldl (retain_outgoing p g) m ts !! n) =
  if decide (Exists (λ t, node_map g !! t = Some n) ts)
  then filter (λ c, ce_pool c ≠ p) (default [] (m !! n))
  else default [] (m !! n).
Proof.
  revert m. induction ts as [|t ts IH]; intros m; [done|].
  cbn [foldl]. rewrite IH. unfold retain_outgoing.
  assert (∀ o : option (list CachedOutgoingEdge),
    filter (λ c, ce_pool c ≠ p) (default [] o) =
    default [] (filter (λ c, ce_pool c ≠ p) <$> o)) as Hdef by by intros [].
  assert (∀ l : list CachedOutgoingEdge,
    filter (λ c, ce_pool c ≠ p) (filter (λ c, ce_pool c ≠ p) l) =
    filter (λ c, ce_pool c ≠ p) l) as Hidem.
  { intros l. rewrite list_filter_filter. apply list_filter_iff. naive_solver. }
  pose proof (Exists_cons (λ t, node_map g !! t = Some n) t ts) as Hex. simpl in Hex.
  destruct (node_map g !! t) as [nt|] eqn:Ht.
  2: { rewrite (decide_ext _ _ _ _ Hex). apply decide_ext. naive_solver. }
  destruct (decide (nt = n)) as [->|Hne].
  - rewrite (decide_True (P := Exists _ (t :: ts))) by (by left).
    destruct (m !! n) as [l|] eqn:Hm.
    + rewrite lookup_insert_eq. simpl. case_decide; [apply Hidem|done].
    + rewrite Hm. simpl. by case_decide.
  - assert (default [] (match m !! nt with
        | Some edges => <[nt:=filter (λ c, ce_pool c ≠ p) edges]> m
        | None => m end !! n) = default [] (m !! n)) as ->.
    { destruct (m !! nt); [by rewrite lookup_insert_ne|done]. }
    rewrite (decide_ext _ _ _ _ Hex). apply decide_ext. naive_solver.
Qed.

Lemma omap_filter_cached g g' es p n :
  core_wf g → edge_map g !! p = Some es →
  (∀ e, cached_of g' e = if decide (e ∈ es) then None else cached_of g e) →
  omap (cached_of g') (filter (λ e, e ∉ es) (pg_outgoing (graph g) n)) =
  filter (λ c, ce_pool c ≠ p) (omap (cached_of g) (pg_outgoing (graph g) n)).
Proof.
  intros Hg Hp Hc.
  assert (∀ e c, cached_of g e = Some c → e ∈ es ↔ ce_pool c = p) as Hes.
  { intros e c Hce. apply cached_of_Some in Hce as (a & He & _); [|done].
    pose proof (wf_edge_map _ Hg p e) as Hm. rewrite Hp in Hm. simpl in Hm.
    rewrite Hm. naive_solver. }
  induction (pg_outgoing (graph g) n) as [|e l IH]; [done|].
  rewrite filter_cons. csimpl. destruct (cached_of g e) as [c|] eqn:Hce.
  - specialize (Hes e c Hce). rewrite filter_cons.
    case_decide as H1; case_decide as H2; [|naive_solver..|done].
    csimpl. rewrite Hc, decide_False, Hce by done. by rewrite IH.
  - case_decide; csimpl; [|done]. rewrite Hc, decide_False, Hce by done. done.
Qed.

(** Every edge of an indexed pool leaves from one of the pool's tokens. *)
Lemma pool_edge_source p ts g e a b w :
  graph_wf g → pool_tokens g !! p = Some ts →
  pg_edge (graph g) e = Some (a, b, w) → ed_pool w = p →
  ∃ t, t ∈ ts ∧ node_map g !! t = Some a.
Proof.
  intros [Hcore Htop _] Hp He Hw. specialize (Htop p). rewrite Hp in Htop.
  destruct Htop as (Hnd & _ & Hview).
  destruct (cached_of_live _ _ _ _ _ Hcore He) as [c Hc].
  assert (edge_view g e ∈ pool_view g p) as Hin.
  { apply list_elem_of_fmap. exists e. split; [done|].
    apply (wf_edge_map _ Hcore). by exists a, b, w. }
  pose proof Hc as Hc'. apply cached_of_Some in Hc' as (a' & He' & Ha & _); [|done].
  rewrite He in He'. simplify_eq. unfold edge_view in Hin. rewrite Hc in Hin.
  rewrite Hview in Hin. apply list_elem_of_fmap in Hin as ([x y] & Heq & Hin).
  apply (elem_of_directed_pairs_nodup _ _ _ Hnd) in Hin. simpl in Heq. simplify_eq.
  exists (ce_token_in c). split; [naive_solver|]. by apply (wf_nodes _ Hcore).
Qed.

Lemma remove_pool_edges_absent p g :
  graph_wf g → pool_tokens g !! p = None →
  remove_pool_edges p g = ((0, []), g).
Proof.
  intros [Hcore Htop Hpairs] Hp. unfold remove_pool_edges. simpl.
  specialize (Htop p). rewrite Hp in *. rewrite Htop. f_equal.
  unfold remove_pool_pairs, set_pairs, set_pool_tokens. simpl.
  rewrite delete_id by done. by destruct g.
Qed.

Lemma remove_pool_edges_core p ts es g :
  graph_wf g → pool_tokens g !! p = Some ts → edge_map g !! p = Some es →
  let g' := (remove_pool_edges p g).2 in
  core_wf g' ∧ node_map g' = node_map g ∧
  (∀ q, q ≠ p → pool_view g' q = pool_view g q) ∧
  edge_map g' = delete p (edge_map g) ∧
  pool_tokens g' = delete p (pool_tokens g) ∧ version g' = version g.
Proof.
  intros Hwf Hp Hes. pose proof (wf_core _ Hwf) as Hg. unfold remove_pool_edges. simpl.
  rewrite Hp, Hes. simpl.
  destruct (remove_edges_spec es (graph g) (wf_pg _ Hg)) as (Hok & Hw & He & Ho).
  match goal with |- core_wf ?g1 ∧ _ => set (g' := g1) end.
  assert (∀ e, e ∈ es ↔ ∃ a b w, pg_edge (graph g) e = Some (a, b, w) ∧ ed_pool w = p) as Hin.
  { intros e. rewrite <- (wf_edge_map _ Hg), Hes. done. }
  assert (∀ e, cached_of g' e = if decide (e ∈ es) then None else cached_of g e) as Hc.
  { intros e. case_decide as Hd.
    - unfold cached_of. simpl. rewrite He, decide_True; done.
    - apply cached_of_ext; simpl; [by rewrite He, decide_False|]. intros. by rewrite !Hw. }
  split_and!; [split; simpl| |..]; try done.
  - intros t n. rewrite Hw. apply (wf_nodes _ Hg).
  - intros q es'. rewrite lookup_delete_Some. intros [_ ?]. by apply (wf_edge_list _ Hg q).
  - intros q e. rewrite He. pose proof (wf_edge_map _ Hg q e) as Hqe.
    destruct (decide (p = q)) as [<-|Hq].
    + rewrite lookup_delete_eq. case_decide as Hd; [set_solver|].
      rewrite Hin in Hd. set_solver.
    + rewrite lookup_delete_ne, Hqe by done. case_decide as Hd; [|done].
      apply Hin in Hd. naive_solver congruence.
  - intros n. unfold outgoing_edges. simpl.
    rewrite retain_outgoing_spec, Ho, (omap_filter_cached g g' es p n Hg Hes Hc).
    rewrite <- (wf_outgoing _ Hg). case_decide as Hd; [done|].
    symmetry. apply filter_all. intros c (e & Hce & _)%(outgoing_edges_spec _ _ _ Hg) Hcp.
    apply Hd. destruct (pool_edge_source p ts g e n (ce_target c) _ Hwf Hp Hce Hcp)
      as (t & Ht & Hn). apply Exists_exists. eauto.
  - intros q Hq. apply pool_view_ext; [simpl; by rewrite lookup_delete_ne|].
    intros e (a & b & w & He' & Hw')%(wf_edge_map _ Hg).
    rewrite Hc, decide_False; [done|]. rewrite Hin. naive_solver congruence.
Qed.

Lemma remove_pool_edges_wf p g :
  graph_wf g →
  let ts := default [] (pool_tokens g !! p) in
  let '((removed, tokens), g') := remove_pool_edges p g in
  graph_wf g' ∧ removed = length ts * (length ts - 1) ∧ tokens = ts ∧
  pool_tokens g' = delete p (pool_tokens g) ∧ node_map g' = node_map g ∧
  version g' = version g.
Proof.
  intros Hwf. destruct (pool_tokens g !! p) as [ts|] eqn:Hp; simpl.
  2: { rewrite remove_pool_edges_absent by done. by rewrite delete_id. }
  pose proof (wf_topology _ Hwf p) as Htp. rewrite Hp in Htp. destruct Htp as (Hnd & Hlen & Hv).
  destruct (edge_map g !! p) as [es|] eqn:Hes.
  2: { unfold pool_view in Hv. rewrite Hes in Hv. apply (f_equal length) in Hv.
       unfold pool_edges in Hv. rewrite !length_fmap, length_directed_pairs in Hv.
       simpl in Hv. nia. }
  pose proof (remove_pool_edges_core p ts es g Hwf Hp Hes) as Hrem.
  assert (remove_pool_edges p g = ((length es, ts), (remove_pool_edges p g).2)) as Heq.
  { unfold remove_pool_edges. simpl. by rewrite Hp, Hes. }
  assert (pair_pools (remove_pool_edges p g).2 = pair_pools (remove_pool_pairs p ts g)) as Hpp.
  { unfold remove_pool_edges. simpl. by rewrite Hp, Hes. }
  rewrite Heq. destruct (remove_pool_edges p g) as [x g']. simpl in *.
  destruct Hrem as (Hcore & Hn & Hother & Hem & Htok & Hver).
  split_and!; [split| |done..]; [done|..].
  - intros q. rewrite Htok. destruct (decide (p = q)) as [<-|Hq].
    + by rewrite lookup_delete_eq, Hem, lookup_delete_eq.
    + rewrite lookup_delete_ne by done. rewrite Hother, Hem, lookup_delete_ne by done.
      apply (wf_topology _ Hwf).
  - intros pr. rewrite Hpp, Htok. simpl.
    destruct (remove_pool_pairs_lookup p ts (pair_pools g)) with pr as [H1 H2].
    { intros pr'. apply (wf_pairs _ Hwf). }
    split; [done|]. intros q. rewrite H2. destruct (wf_pairs _ Hwf pr) as [_ ->].
    destruct (decide (p = q)) as [<-|Hq].
    + rewrite Hp, lookup_delete_eq. naive_solver.
    + rewrite lookup_delete_ne by done. naive_solver.
  - unfold pool_view in Hv. rewrite Hes in Hv. apply (f_equal length) in Hv.
    unfold pool_edges in Hv. by rewrite !length_fmap, length_directed_pairs in Hv.
Qed.

(** ** Token pairs and edges *)

(** The edges of the graph are the directed token pairs of the indexed pools. *)
Lemma edges_of_pools g p a b :
  graph_wf g →
  (∃ e c, cached_of g e = Some c ∧ ce_token_in c = a ∧ ce_token_out c = b ∧ ce_pool c = p) ↔
  ∃ ts, pool_tokens g !! p = Some ts ∧ a ∈ ts ∧ b ∈ ts ∧ a ≠ b.
Proof.
  intros [Hcore Htop _]. specialize (Htop p). split.
  - intros (e & c & Hc & <- & <- & <-).
    assert (edge_view g e ∈ pool_view g (ce_pool c)) as Hin.
    { apply list_elem_of_fmap. exists e. split; [done|].
      apply cached_of_Some in Hc as (?&?&?); [|done]. apply (wf_edge_map _ Hcore). eauto. }
    unfold edge_view in Hin. rewrite Hc in Hin. simpl in Hin.
    destruct (pool_tokens g !! ce_pool c) as [ts|] eqn:Hp.
    + destruct Htop as (Hnd & _ & Hview). rewrite Hview in Hin.
      apply list_elem_of_fmap in Hin as ([x y] & ? & Hin). simplify_eq.
      apply (elem_of_directed_pairs_nodup _ _ _ Hnd) in Hin. eauto.
    + unfold pool_view in Hin. rewrite Htop in Hin. simpl in Hin. set_solver.
  - intros (ts & Hp & Ha & Hb & Hne). rewrite Hp in Htop. destruct Htop as (Hnd & _ & Hview).
    assert (Some (a, b, p) ∈ pool_view g p) as Hin.
    { rewrite Hview. apply list_elem_of_fmap. exists (a, b). split; [done|].
      by apply elem_of_directed_pairs_nodup. }
    by apply elem_of_pool_view in Hin as [_ ?].
Qed.

(** An edge is determined by its token pair and its pool. *)
Lemma edge_view_inj g e1 e2 v :
  graph_wf g → edge_view g e1 = Some v → edge_view g e2 = Some v → e1 = e2.
Proof.
  intros [Hc Htop _] H1 H2. destruct v as [[a b] p].
  assert (∀ e, edge_view g e = Some (a, b, p) → e ∈ default [] (edge_map g !! p)) as Hin.
  { intros e He. unfold edge_view in He. destruct (cached_of g e) as [c|] eqn:Hce; simplify_eq/=.
    apply (wf_edge_map _ Hc). apply cached_of_Some in Hce as (a & He & _); [|done]. eauto. }
  specialize (Htop p). destruct (pool_tokens g !! p) as [ts|].
  2: { specialize (Hin e1 H1). rewrite Htop in Hin. set_solver. }
  destruct Htop as (Hnd & _ & Hview).
  pose proof (Hin e1 H1) as [i1 Hi1]%list_elem_of_lookup.
  pose proof (Hin e2 H2) as [i2 Hi2]%list_elem_of_lookup.
  assert (NoDup (pool_view g p)) as Hndv.
  { rewrite Hview. unfold pool_edges. apply NoDup_fmap; [|by apply NoDup_directed_pairs].
    intros [] []. naive_solver. }
  assert (i1 = i2) as ->; [|congruence].
  eapply (NoDup_lookup _ _ _ (edge_view g e1) Hndv); unfold pool_view;
    rewrite list_lookup_fmap, ?Hi1, ?Hi2; simpl; congruence.
Qed.

Lemma token_has_edges g t n :
  graph_wf g → node_map g !! t = Some n →
  (pg_outgoing (graph g) n ≠ [] ∨ pg_incoming (graph g) n ≠ []) ↔
  ∃ p ts, pool_tokens g !! p = Some ts ∧ t ∈ ts.
Proof.
  intros Hwf Ht. pose proof (wf_core _ Hwf) as Hcore. pose proof (wf_pg _ Hcore) as Hok.
  apply (wf_nodes _ Hcore) in Ht. split.
  - assert (∀ l : list EdgeIndex, l ≠ [] → ∃ e, e ∈ l) as Hne.
    { intros [|e l] ?; [done|]. exists e. set_solver. }
    intros [[e He]%Hne|[e He]%Hne].
    + apply (pg_outgoing_spec _ _ _ Hok) in He as (b & w & He).
      destruct (cached_of_live _ _ _ _ _ Hcore He) as [c Hc]. pose proof Hc as Hc'.
      apply cached_of_Some in Hc' as (a' & He' & Ha & Hb); [|done].
      destruct (proj1 (edges_of_pools g (ce_pool c) (ce_token_in c) (ce_token_out c) Hwf))
        as (ts & Hp & Hin & _); [by exists e, c|]. exists (ce_pool c), ts. naive_solver congruence.
    + apply (pg_incoming_spec _ _ _ Hok) in He as (b & w & He).
      destruct (cached_of_live _ _ _ _ _ Hcore He) as [c Hc]. pose proof Hc as Hc'.
      apply cached_of_Some in Hc' as (a' & He' & Ha & Hb); [|done].
      destruct (proj1 (edges_of_pools g (ce_pool c) (ce_token_in c) (ce_token_out c) Hwf))
        as (ts & Hp & _ & Hin & _); [by exists e, c|]. exists (ce_pool c), ts.
      naive_solver congruence.
  - intros (p & ts & Hp & Hin). left.
    pose proof (wf_topology _ Hwf p) as Htp. rewrite Hp in Htp. destruct Htp as (Hnd & Hlen & _).
    assert (∃ t', t' ∈ ts ∧ t ≠ t') as (t' & Ht' & Hne).
    { destruct ts as [|x [|y ts]]; simpl in Hlen; [lia..|].
      apply NoDup_cons in Hnd as [Hx _].
      destruct (decide (t = x)) as [->|]; [exists y|exists x]; set_solver. }
    destruct (proj2 (edges_of_pools g p t t' Hwf)) as (e & c & Hc & <- & _).
    { eauto 10. }
    apply cached_of_Some in Hc as (a & He & Ha & _); [|done].
    assert (a = n) as ->.
    { apply (wf_nodes _ Hcore) in Ha, Ht. congruence. }
    intros Hnil. eapply not_elem_of_nil. rewrite <- Hnil.
    apply (pg_outgoing_spec _ _ _ Hok). eauto.
Qed.

(** ** [prune_orphan_tokens] *)

Lemma prune_orphan_token_wf t g :
  graph_wf g →
  let g' := prune_orphan_token g t in
  graph_wf g' ∧ pool_tokens g' = pool_tokens g ∧ version g' = version g ∧
  ∀ t', is_Some (node_map g' !! t') ↔ is_Some (node_map g !! t') ∧
    (t' = t → ∃ p ts, pool_tokens g !! p = Some ts ∧ t ∈ ts).
Proof.
  intros Hwf. pose proof (wf_core _ Hwf) as Hg. pose proof (wf_pg _ Hg) as Hok.
  unfold prune_orphan_token. destruct (node_map g !! t) as [n|] eqn:Ht.
  2: { simpl. split_and!; [done..|]. intros t'. split; [|naive_solver].
       intros Hs. split; [done|]. intros ->. rewrite Ht in Hs. by destruct Hs. }
  pose proof (token_has_edges g t n Hwf Ht) as Hedges.
  destruct (bool_decide (pg_outgoing (graph g) n ≠ [])
            || bool_decide (pg_incoming (graph g) n ≠ [])) eqn:Hb; simpl.
  { rewrite orb_true_iff, !bool_decide_eq_true, Hedges in Hb.
    split_and!; [done..|]. naive_solver. }
  rewrite orb_false_iff, !bool_decide_eq_false in Hb. destruct Hb as [Hb1 Hb2].
  apply dec_stable in Hb1, Hb2.
  assert (∀ e a b w, pg_edge (graph g) e = Some (a, b, w) → a ≠ n ∧ b ≠ n) as Hfree.
  { intros e a b w He. split; intros ->.
    - apply (not_elem_of_nil e). rewrite <- Hb1. apply pg_outgoing_spec; eauto.
    - apply (not_elem_of_nil e). rewrite <- Hb2. apply pg_incoming_spec; eauto. }
  assert (∀ e, pg_edge (pg_remove_node n (graph g)) e = pg_edge (graph g) e) as He.
  { intros e. rewrite pg_remove_node_edge by done.
    destruct (pg_edge (graph g) e) as [[[a b] w]|] eqn:Hab; [|done].
    destruct (Hfree e a b w Hab). rewrite decide_False; naive_solver. }
  match goal with |- graph_wf ?g1 ∧ _ => set (g' := g1) end.
  assert (∀ e, cached_of g' e = cached_of g e) as Hc.
  { intros e. apply cached_of_ext; simpl; [apply He|]. intros a b w Hab.
    destruct (Hfree e a b w Hab). split; rewrite pg_remove_node_weight, decide_False by done; done. }
  split_and!; [split| done..|].
  - split; simpl.
    + by apply pg_ok_remove_node.
    + intros t' n'. rewrite lookup_delete_Some, pg_remove_node_weight, (wf_nodes _ Hg) by done.
      apply (wf_nodes _ Hg) in Ht.
      case_decide; subst; [naive_solver congruence|].
      split; [naive_solver|]. intros Hn'. split; [|done]. intros <-.
      apply (wf_nodes _ Hg) in Ht, Hn'. congruence.
    + apply (wf_edge_list _ Hg).
    + intros p e. rewrite He. apply (wf_edge_map _ Hg).
    + intros m. unfold outgoing_edges. simpl. rewrite pg_remove_node_outgoing by done.
      rewrite filter_all.
      2: { intros e (b & w & Hab)%(pg_outgoing_spec _ _ _ Hok). by rewrite He, Hab. }
      rewrite (omap_ext_in _ (cached_of g)) by done.
      rewrite lookup_delete. case_decide; subst; [by rewrite Hb1|].
      apply (wf_outgoing _ Hg).
  - intros p. simpl. pose proof (wf_topology _ Hwf p) as Htp.
    destruct (pool_tokens g !! p); [|done].
    rewrite (pool_view_ext g g' p); [done|done|]. intros; apply Hc.
  - apply (wf_pairs _ Hwf).
  - intros t'. simpl. rewrite lookup_delete_is_Some. naive_solver.
Qed.

Lemma prune_orphan_tokens_wf ts g :
  graph_wf g →
  let g' := prune_orphan_tokens ts g in
  graph_wf g' ∧ pool_tokens g' = pool_tokens g ∧ version g' = version g ∧
  ∀ t, is_Some (node_map g' !! t) ↔ is_Some (node_map g !! t) ∧
    (t ∈ ts → ∃ p us, pool_tokens g !! p = Some us ∧ t ∈ us).
Proof.
  unfold prune_orphan_tokens. revert g. induction ts as [|t ts IH]; intros g Hg; simpl.
  { split_and!; [done..|]. set_solver. }
  destruct (prune_orphan_token_wf t g Hg) as (Hg1 & Ht1 & Hv1 & Hn1).
  destruct (IH _ Hg1) as (Hg2 & Ht2 & Hv2 & Hn2).
  split_and!; [done|congruence|congruence|].
  intros t'. rewrite Hn2, Hn1, Ht1, elem_of_cons. naive_solver.
Qed.
End inv.
