(* ===== verification/GraphProps.v ===== *)
(** * Properties of the token graph

    The invariant of every reachable graph, the functional behaviour of
    [apply_pool], [remove_pool_compacting] and [from_registry] against the
    abstract state [pool_tokens], and the agreement of incremental maintenance
    with a rebuild. *)

From S2P Require Import Prelude AmmState Petgraph Graph GraphPairs GraphInv.

(** ** Token normalisation *)

Lemma elem_of_dedup {A} `{EqDecision A} (l : list A) x : x ∈ dedup l ↔ x ∈ l.
Proof.
  induction l as [|a [|b l] IH]; [done..|].
  cbn [dedup]. case_decide; subst.
  - rewrite IH. set_solver.
  - rewrite !elem_of_cons in *. rewrite IH. set_solver.
Qed.

Lemma dedup_sorted (l : list Address) :
  StronglySorted Z.le l → StronglySorted Z.lt (dedup l).
Proof.
  induction 1 as [|a l Hl IH Ha]; [constructor|].
  destruct l as [|b l]; [by repeat constructor|].
  cbn [dedup]. case_decide as Hab; [done|].
  constructor; [done|]. apply Forall_forall. intros x Hx.
  apply (elem_of_dedup (b :: l)) in Hx. apply StronglySorted_inv in Hl as [_ Hb].
  rewrite Forall_forall in Hb. apply Forall_cons in Ha as [Hab' _].
  apply elem_of_cons in Hx as [->|Hx]; [lia|]. specialize (Hb x Hx). lia.
Qed.

Lemma sorted_lt_nodup (l : list Z) : StronglySorted Z.lt l → NoDup l.
Proof.
  induction 1 as [|a l Hl IH Ha]; constructor; [|done].
  intros Hin. rewrite Forall_forall in Ha. specialize (Ha a Hin). lia.
Qed.

Lemma normalized_sorted (ts : list Address) :
  StronglySorted Z.lt (dedup (stable_sort address_le ts)).
Proof.
  apply dedup_sorted. eapply StronglySorted_weaken.
  - apply stable_sort_sorted.
    + intros x y. unfold address_le. rewrite !bool_decide_eq_true. lia.
    + intros x y z. unfold address_le. rewrite !bool_decide_eq_true. lia.
  - intros x y. unfold address_le. by rewrite bool_decide_eq_true.
Qed.

Lemma elem_of_normalized (ts : list Address) t :
  t ∈ dedup (stable_sort address_le ts) ↔ t ∈ ts.
Proof. by rewrite elem_of_dedup, elem_of_stable_sort. Qed.

(** [normalize_tokens] yields the tokens of its input in strictly ascending
    byte order without repetitions, and fails with the number of distinct
    tokens exactly when there are fewer than two. *)
Theorem normalize_tokens_spec (tokens : list Address) :
  match normalize_tokens tokens with
  | Ok ts => StronglySorted Z.lt ts ∧ (∀ t, t ∈ ts ↔ t ∈ tokens) ∧ 2 ≤ length ts
  | Err reason =>
      ∃ n, reason = TooFewTokens n ∧ n < 2 ∧
        size (list_to_set tokens : gset Address) = n
  end.
Proof.
  unfold normalize_tokens. set (ts := dedup _).
  assert (∀ t, t ∈ ts ↔ t ∈ tokens) as Hin by apply elem_of_normalized.
  assert (StronglySorted Z.lt ts) as Hs by apply normalized_sorted.
  case_decide as Hlen.
  - exists (length ts). split_and!; [done..|].
    rewrite <- (size_list_to_set (C := gset Address) ts) by by apply sorted_lt_nodup.
    f_equal. set_solver.
  - split_and!; [done..|lia].
Qed.

Lemma normalize_tokens_Ok tokens ts :
  normalize_tokens tokens = Ok ts → NoDup ts ∧ 2 ≤ length ts.
Proof.
  unfold normalize_tokens. case_decide; [done|]. intros [= <-].
  split; [apply sorted_lt_nodup, normalized_sorted|lia].
Qed.

Section props.
Context `{!AmmTypes} `{!Petgraph Address EdgeData} `{!PetgraphLaws Address EdgeData}.
Implicit Types (g : AmmGraph) (p : PoolKey) (o : GraphBuildOptions)
  (r : PoolRegistration) (R : AdapterRegistry).

Lemma tokens_for_pool_Ok r ts : tokens_for_pool r = Ok ts → NoDup ts ∧ 2 ≤ length ts.
Proof.
  unfold tokens_for_pool. rewrite result_bind_Ok. intros (l & _ & Hl).
  by eapply normalize_tokens_Ok.
Qed.

(** ** The abstract state: indexed pools and their tokens *)

(** The tokens a registration should be indexed with, or why it is not. *)
Definition searchable_tokens o r : result SkippedPoolReason (list Address) :=
  if is_indexable_status (reg_status r) o then tokens_for_pool r
  else Err (SkipStatus (reg_status r)).

Definition apply_spec o r (m : gmap PoolKey (list Address)) :
    GraphPoolMutation * gmap PoolKey (list Address) :=
  match searchable_tokens o r, m !! reg_key r with
  | Ok ts, Some old =>
      if decide (old = ts) then (MutUnchanged, m)
      else (MutUpdated (Z.of_nat (length old * (length old - 1)))
              (directed_edge_count (length ts)), <[reg_key r := ts]> m)
  | Ok ts, None =>
      (MutAdded (directed_edge_count (length ts)), <[reg_key r := ts]> m)
  | Err _, Some old =>
      (MutRemoved (Z.of_nat (length old * (length old - 1))), delete (reg_key r) m)
  | Err reason, None => (MutSkipped reason, m)
  end.

(** The version after a mutation; [None] is the exhausted counter. *)
Definition version_after (m : GraphPoolMutation) (v : GraphVersion) : option GraphVersion :=
  if topology_changed m then GraphVersion_next v else Some v.

Lemma remove_pool_edges_set_version p v g :
  remove_pool_edges p (set_version v g) =
  let '(x, g') := remove_pool_edges p g in (x, set_version v g').
Proof. unfold remove_pool_edges. simpl. by destruct (edge_map g !! p). Qed.

(** [remove_pool_compacting] on an indexed and on an unknown pool. *)
Lemma remove_pool_compacting_spec p g :
  graph_wf g →
  match pool_tokens g !! p with
  | None => remove_pool_compacting p g = Some (MutUnchanged, g)
  | Some ts =>
      ∃ g', remove_pool_compacting p g =
          (v ← GraphVersion_next (version g);
           Some (MutRemoved (Z.of_nat (length ts * (length ts - 1))), set_version v g')) ∧
        graph_wf g' ∧ pool_tokens g' = delete p (pool_tokens g) ∧ version g' = version g ∧
        ∀ t, is_Some (node_map g' !! t) ↔ is_Some (node_map g !! t) ∧
          (t ∈ ts → ∃ q us, q ≠ p ∧ pool_tokens g !! q = Some us ∧ t ∈ us)
  end.
Proof.
  intros Hwf. unfold remove_pool_compacting.
  pose proof (remove_pool_edges_wf p g Hwf) as Hrem. simpl in Hrem.
  destruct (pool_tokens g !! p) as [ts|] eqn:Hp; simpl in Hrem.
  2: { by rewrite (remove_pool_edges_absent p g Hwf Hp). }
  pose proof (wf_topology _ Hwf p) as Htp. rewrite Hp in Htp.
  destruct Htp as (_ & Hlen & _).
  destruct (remove_pool_edges p g) as [[n us] g1].
  destruct Hrem as (Hwf1 & -> & -> & Htok & Hnm & Hv).
  destruct (prune_orphan_tokens_wf ts g1 Hwf1) as (Hwf2 & Htok2 & Hv2 & Hn2).
  exists (prune_orphan_tokens ts g1). split.
  { rewrite decide_False by nia. by rewrite Hv2, Hv. }
  split_and!; [done|congruence|congruence|].
  intros t. rewrite Hn2, Hnm, Htok. setoid_rewrite lookup_delete_Some. naive_solver.
Qed.

(** One application of a registration refines [apply_spec] on the abstract
    state; the graph keeps its invariant and stays compact. *)
Lemma apply_pool_refines r o g :
  graph_wf g →
  ∃ g', apply_pool r o g =
      (let m := (apply_spec o r (pool_tokens g)).1 in
       v ← version_after m (version g); Some (m, set_version v g')) ∧
    graph_wf g' ∧ pool_tokens g' = (apply_spec o r (pool_tokens g)).2 ∧
    version g' = version g ∧ (no_orphans g → no_orphans g').
Proof.
  intros Hwf.
  assert (∀ g1, set_version (version g1) g1 = g1) as Hset by by intros [].
  assert (∀ reason, searchable_tokens o r = Err reason →
    ∃ g', remove_or_skip (reg_key r) reason g =
      (let m := (apply_spec o r (pool_tokens g)).1 in
       v ← version_after m (version g); Some (m, set_version v g')) ∧
    graph_wf g' ∧ pool_tokens g' = (apply_spec o r (pool_tokens g)).2 ∧
    version g' = version g ∧ (no_orphans g → no_orphans g')) as Hskip.
  { intros reason Hreason. unfold apply_spec, remove_or_skip. rewrite Hreason.
    pose proof (remove_pool_compacting_spec (reg_key r) g Hwf) as Hrem.
    destruct (pool_tokens g !! reg_key r) as [old|] eqn:Hold; simpl.
    - destruct Hrem as (g' & -> & Hwf' & Htok & Hv & Hn). exists g'.
      split; [unfold version_after; simpl; by destruct (GraphVersion_next (version g))|].
      split_and!; [done..|]. intros Hno t. rewrite Hn, Htok.
      setoid_rewrite lookup_delete_Some. specialize (Hno t).
      destruct (decide (t ∈ old)); naive_solver congruence.
    - exists g. rewrite Hrem. simpl. rewrite Hset. done. }
  unfold apply_pool. unfold searchable_tokens in Hskip.
  destruct (is_indexable_status (reg_status r) o) eqn:Hst; [|by apply Hskip].
  destruct (tokens_for_pool r) as [ts|reason] eqn:Hts; [|by apply Hskip].
  clear Hskip. destruct (tokens_for_pool_Ok _ _ Hts) as [Hnd Hlen].
  unfold apply_spec, searchable_tokens. rewrite Hst, Hts.
  destruct (pool_tokens g !! reg_key r) as [old|] eqn:Hold.
  - case_decide as Heq; simpl.
    { exists g. by rewrite Hset. }
    pose proof (remove_pool_edges_wf (reg_key r) g Hwf) as Hrem. simpl in Hrem.
    rewrite Hold in Hrem. simpl in Hrem.
    destruct (remove_pool_edges (reg_key r) g) as [[n us] g1].
    destruct Hrem as (Hwf1 & -> & -> & Htok1 & Hnm1 & Hv1).
    destruct (prune_orphan_tokens_wf old g1 Hwf1) as (Hwf2 & Htok2 & Hv2 & Hn2).
    destruct (add_pool_edges_wf (reg_key r) ts (prune_orphan_tokens old g1))
      as (Hwf3 & Htok3 & Hv3 & Hd3); [done| |done|done|].
    { by rewrite Htok2, Htok1, lookup_delete_eq. }
    exists (add_pool_edges (reg_key r) ts (prune_orphan_tokens old g1)).
    rewrite Hv3, Hv2, Hv1, Htok3, Htok2, Htok1, insert_delete_eq.
    split_and!; [done..|]. intros Hno t.
    rewrite <- elem_of_dom, Hd3, elem_of_union, elem_of_list_to_set, elem_of_dom.
    rewrite Hn2, Hnm1, Htok1, Htok3, Htok2, Htok1, insert_delete_eq.
    setoid_rewrite lookup_delete_Some. setoid_rewrite lookup_insert_Some.
    specialize (Hno t). destruct (decide (t ∈ old)); naive_solver congruence.
  - destruct (add_pool_edges_wf (reg_key r) ts g) as (Hwf3 & Htok3 & Hv3 & Hd3); [done..|].
    exists (add_pool_edges (reg_key r) ts g). simpl. rewrite Hv3, Htok3.
    split_and!; [done..|]. intros Hno t.
    rewrite <- elem_of_dom, Hd3, elem_of_union, elem_of_list_to_set, elem_of_dom, Htok3.
    setoid_rewrite lookup_insert_Some. specialize (Hno t). naive_solver congruence.
Qed.

Lemma graph_wf_empty v : graph_wf (AmmGraph_empty v).
Proof.
  split; [split; simpl|..].
  - apply pg_ok_empty.
  - intros t n. rewrite pg_empty_node, lookup_empty. naive_solver.
  - intros p es. by rewrite lookup_empty.
  - intros p e. rewrite lookup_empty, pg_empty_edge. simpl. set_solver.
  - intros n. unfold outgoing_edges. simpl. rewrite lookup_empty. simpl.
    destruct (pg_outgoing pg_empty n) as [|e l] eqn:Hl; [done|].
    assert (e ∈ pg_outgoing pg_empty n) as He by (rewrite Hl; set_solver).
    apply (pg_outgoing_spec _ _ _ pg_ok_empty) in He as (?&?&He).
    by rewrite pg_empty_edge in He.
  - intros p. simpl. by rewrite !lookup_empty.
  - intros pr. simpl. rewrite lookup_empty. split; [done|].
    intros p. rewrite lookup_empty. set_solver.
Qed.

Lemma no_orphans_empty v : no_orphans (AmmGraph_empty v).
Proof.
  intros t. simpl. rewrite lookup_empty. setoid_rewrite lookup_empty.
  split; [by intros []|naive_solver].
Qed.

(** ** [from_registry] *)

(** The abstract state a registry describes. *)
Definition registry_topology o R p : option (list Address) :=
  r ← registry_pool R p; result_ok (searchable_tokens o r).

(** The skipped registrations of a list, with their reasons, in order. *)
Definition skipped_of o (l : list PoolRegistration) : list SkippedPool :=
  omap (λ r, match searchable_tokens o r with
             | Ok _ => None
             | Err reason => Some {| skipped_pool := reg_key r; skipped_reason := reason |}
             end) l.

Definition indexed_of o (l : list PoolRegistration) : list PoolKey :=
  omap (λ r, match searchable_tokens o r with
             | Ok _ => Some (reg_key r) | Err _ => None end) l.

Lemma index_pool_step o g ix sk r :
  index_pool o (g, ix, sk) r =
  match searchable_tokens o r with
  | Ok ts => (add_pool_edges (reg_key r) ts g, ix ++ [reg_key r], sk)
  | Err reason =>
      (g, ix, sk ++ [{| skipped_pool := reg_key r; skipped_reason := reason |}])
  end.
Proof.
  unfold index_pool, searchable_tokens.
  by destruct (is_indexable_status (reg_status r) o); simpl; [destruct (tokens_for_pool r)|].
Qed.

Lemma index_pools_spec o l g ix sk :
  graph_wf g → no_orphans g → NoDup (reg_key <$> l) →
  (∀ r, r ∈ l → pool_tokens g !! reg_key r = None) →
  let '(g', ix', sk') := foldl (index_pool o) (g, ix, sk) l in
  graph_wf g' ∧ no_orphans g' ∧ version g' = version g ∧
  ix' = ix ++ indexed_of o l ∧ sk' = sk ++ skipped_of o l ∧
  (∀ r, r ∈ l → pool_tokens g' !! reg_key r = result_ok (searchable_tokens o r)) ∧
  (∀ p, p ∉ reg_key <$> l → pool_tokens g' !! p = pool_tokens g !! p).
Proof.
  revert g ix sk. induction l as [|r l IH]; intros g ix sk Hwf Hno Hnd Hnone.
  { simpl. rewrite !app_nil_r. split_and!; try done. set_solver. }
  cbn [foldl]. rewrite index_pool_step. rewrite fmap_cons in Hnd.
  apply NoDup_cons in Hnd as [Hr Hnd].
  assert (∀ r', r' ∈ l → reg_key r' ≠ reg_key r) as Hne.
  { intros r' Hr' Heq. apply Hr. rewrite <- Heq. by apply list_elem_of_fmap_2. }
  unfold indexed_of, skipped_of. csimpl.
  destruct (searchable_tokens o r) as [ts|reason] eqn:Hs.
  - assert (tokens_for_pool r = Ok ts) as Hts.
    { unfold searchable_tokens in Hs. by case_match. }
    destruct (tokens_for_pool_Ok _ _ Hts) as [Hnd' Hlen].
    destruct (add_pool_edges_wf (reg_key r) ts g Hwf) as (Hwf1 & Htok1 & Hv1 & Hd1); [|done..|].
    { apply Hnone. set_solver. }
    specialize (IH (add_pool_edges (reg_key r) ts g) (ix ++ [reg_key r]) sk Hwf1).
    destruct (foldl _ _ l) as [[g' ix'] sk'].
    destruct IH as (H1 & H2 & H3 & -> & -> & H6 & H7); [|done|..].
    { intros t. rewrite <- elem_of_dom, Hd1, elem_of_union, elem_of_list_to_set, elem_of_dom.
      rewrite Htok1, (Hno t). setoid_rewrite lookup_insert_Some.
      assert (∀ q us, pool_tokens g !! q = Some us → reg_key r ≠ q) as Hq.
      { intros q us Hq Heq. subst q. rewrite Hnone in Hq; set_solver. }
      clear -Hq. naive_solver. }
    { intros r' Hr'. rewrite Htok1, lookup_insert_ne by (by apply not_eq_sym, Hne).
      apply Hnone. set_solver. }
    split_and!; [done|done|congruence|by rewrite <- app_assoc|done| |].
    + intros r' [->|Hr']%elem_of_cons; [|by apply H6].
      rewrite H7, Htok1, lookup_insert_eq, Hs by done. done.
    + intros p. rewrite not_elem_of_cons. intros [Hp1 Hp2].
      rewrite H7, Htok1, lookup_insert_ne by done. done.
  - specialize (IH g ix (sk ++ [{| skipped_pool := reg_key r; skipped_reason := reason |}]) Hwf Hno Hnd).
    destruct (foldl _ _ l) as [[g' ix'] sk'].
    destruct IH as (H1 & H2 & H3 & -> & -> & H6 & H7).
    { intros r' Hr'. apply Hnone. set_solver. }
    split_and!; [done|done|done|done|by rewrite <- app_assoc| |].
    + intros r' [->|Hr']%elem_of_cons; [|by apply H6].
      rewrite H7, Hs by done. apply Hnone. set_solver.
    + intros p. rewrite not_elem_of_cons. intros [Hp1 Hp2]. by apply H7.
Qed.

Lemma from_registry_spec R o lin rep lin' :
  registry_wf R → from_registry R o lin = Some (rep, lin') →
  graph_wf (report_graph rep) ∧ no_orphans (report_graph rep) ∧
  version (report_graph rep) = {| lineage := lin; revision := 0 |} ∧
  (∀ p, pool_tokens (report_graph rep) !! p = registry_topology o R p) ∧
  report_indexed_pools rep = indexed_of o (stable_sort registration_le (registry_pools R)) ∧
  report_skipped_pools rep = skipped_of o (stable_sort registration_le (registry_pools R)).
Proof.
  intros HR. unfold from_registry, AmmGraph_new, GraphVersion_initial.
  destruct (u64_checked_add lin 1) as [next|]; [|done]. simpl.
  set (l := stable_sort registration_le (registry_pools R)).
  assert (l ≡ₚ registry_pools R) as Hl by apply stable_sort_perm.
  pose proof (index_pools_spec o l (AmmGraph_empty {| lineage := lin; revision := 0 |}) [] []
    (graph_wf_empty _) (no_orphans_empty _)) as Hix.
  destruct (foldl _ _ l) as [[g ix] sk]. intros [= <- <-].
  destruct Hix as (H1 & H2 & H3 & H4 & H5 & H6 & H7).
  { rewrite Hl. apply registry_pools_nodup, HR. }
  { intros r _. apply lookup_empty. }
  simpl. split_and!; [done|done|done| |done|done].
  intros p. unfold registry_topology.
  destruct (registry_pool R p) as [r|] eqn:Hr; simpl.
  - apply (registry_pool_spec _ HR) in Hr as [Hr <-]. apply H6. by rewrite Hl.
  - rewrite H7; [apply lookup_empty|]. intros (r & -> & Hin)%list_elem_of_fmap.
    rewrite Hl in Hin. assert (registry_pool R (reg_key r) = Some r); [|congruence].
    by apply (registry_pool_spec _ HR).
Qed.

(** ** Agreement of two graphs with the same abstract state *)

Lemma same_observable_topology_spec g g' :
  no_orphans g → no_orphans g' →
  same_observable_topology g g' = true ↔ pool_tokens g = pool_tokens g'.
Proof.
  intros Hg Hg'. unfold same_observable_topology.
  rewrite !andb_true_iff, !bool_decide_eq_true. split; [naive_solver|].
  intros Heq.
  assert (dom (node_map g) = dom (node_map g')) as Hdom.
  { apply set_eq. intros t. rewrite !elem_of_dom, (Hg t), (Hg' t). by rewrite Heq. }
  split_and!; [done| |by rewrite Hdom].
  by rewrite <- !size_dom, Hdom.
Qed.
End props.
