(* ===== verification/GraphTheorems.v ===== *)
(** * Theorems about the token graph

    The invariant and the versioning discipline of every reachable graph, the
    functional behaviour of [apply_pool], [remove_pool_compacting] and
    [from_registry], the agreement of incremental maintenance with a rebuild,
    and what the queries of the graph return. *)

From S2P Require Import Prelude AmmState Petgraph Graph GraphPairs GraphInv GraphProps.

Section theorems.
Context `{!AmmTypes} `{!Petgraph Address EdgeData} `{!PetgraphLaws Address EdgeData}.
Implicit Types (g : AmmGraph) (p : PoolKey) (o : GraphBuildOptions)
  (r : PoolRegistration) (R : AdapterRegistry).

(** ** The public mutations as a step relation *)

Inductive graph_step : AmmGraph → AmmGraph → Prop :=
  | step_apply r o g m g' :
      apply_pool r o g = Some (m, g') → graph_step g g'
  | step_remove p g n g' :
      remove_pool p g = Some (n, g') → graph_step g g'
  | step_compact p g m g' :
      remove_pool_compacting p g = Some (m, g') → graph_step g g'
  | step_rebuild R o lin g s g' lin' :
      registry_wf R →
      rebuild_from_registry R o lin g = Some (s, g', lin') → graph_step g g'.

(** [newer v v']: the version a mutation may leave behind; [changed] says
    whether it has to be a new one. *)
Definition newer (changed : bool) (v v' : GraphVersion) : Prop :=
  lineage v' = lineage v ∧
  revision v' = (if changed then revision v + 1 else revision v)%Z.

Lemma GraphVersion_next_newer v v' : GraphVersion_next v = Some v' → newer true v v'.
Proof.
  unfold GraphVersion_next, GraphVersion_checked_next, u64_checked_add.
  case_decide; simpl; [|done]. by intros [= <-].
Qed.

(** What one mutation does to the invariant, the version and the topology. *)
Definition step_ok g g' : Prop :=
  graph_wf g' ∧ (∃ b, newer b (version g) (version g') ∧
                      (b = false → pool_tokens g' = pool_tokens g)).

Lemma apply_spec_unchanged o r m :
  topology_changed (apply_spec o r m).1 = false → (apply_spec o r m).2 = m.
Proof.
  unfold apply_spec. destruct (searchable_tokens o r), (m !! reg_key r); simpl; try done.
  by case_decide.
Qed.

Lemma apply_pool_step r o g m g' :
  graph_wf g → apply_pool r o g = Some (m, g') →
  step_ok g g' ∧ (m, pool_tokens g') = apply_spec o r (pool_tokens g) ∧
  newer (topology_changed m) (version g) (version g') ∧ (no_orphans g → no_orphans g').
Proof.
  intros Hwf Happ. destruct (apply_pool_refines r o g Hwf) as (g1 & Heq & Hwf1 & Htok & Hv & Hno).
  rewrite Happ in Heq. simpl in Heq. unfold version_after in Heq.
  pose proof (apply_spec_unchanged o r (pool_tokens g)) as Hun.
  destruct (apply_spec o r (pool_tokens g)) as [m1 ts1]. simpl in *.
  assert (∃ v, newer (topology_changed m1) (version g) v ∧ m = m1 ∧ g' = set_version v g1)
    as (v & Hnew & -> & ->).
  { destruct (topology_changed m1); simpl in Heq.
    - destruct (GraphVersion_next (version g)) as [v|] eqn:Hnext; simplify_eq/=.
      exists v. split; [by apply GraphVersion_next_newer|done].
    - simplify_eq. by exists (version g). }
  split_and!; [|simpl; by rewrite Htok|done|exact Hno].
  split; [by apply graph_wf_set_version|]. exists (topology_changed m1).
  split; [done|]. intros Hb. simpl. rewrite Htok. by apply Hun.
Qed.

Lemma remove_pool_compacting_step p g m g' :
  graph_wf g → remove_pool_compacting p g = Some (m, g') → step_ok g g'.
Proof.
  intros Hwf Hrem. pose proof (remove_pool_compacting_spec p g Hwf) as Hspec.
  destruct (pool_tokens g !! p) as [ts|].
  - destruct Hspec as (g1 & Heq & Hwf1 & _ & Hv & _). rewrite Hrem in Heq.
    destruct (GraphVersion_next (version g)) as [v|] eqn:Hnext; simplify_eq/=.
    split; [by apply graph_wf_set_version|].
    exists true. by split; [apply GraphVersion_next_newer|].
  - rewrite Hrem in Hspec. simplify_eq. split; [done|]. exists false. done.
Qed.

(** [remove_pool] counts the edges of an indexed pool and leaves its tokens'
    nodes in place. *)
Lemma remove_pool_spec p g :
  graph_wf g →
  match pool_tokens g !! p with
  | None => remove_pool p g = Some (0, g)
  | Some ts =>
      ∃ g', remove_pool p g =
          (v ← GraphVersion_next (version g);
           Some (length ts * (length ts - 1), set_version v g')) ∧
        graph_wf g' ∧ pool_tokens g' = delete p (pool_tokens g) ∧
        version g' = version g ∧ node_map g' = node_map g
  end.
Proof.
  intros Hwf. unfold remove_pool.
  pose proof (remove_pool_edges_wf p g Hwf) as Hrem. simpl in Hrem.
  destruct (pool_tokens g !! p) as [ts|] eqn:Hp; simpl in Hrem.
  2: { rewrite (remove_pool_edges_absent p g Hwf Hp). by rewrite decide_False by lia. }
  pose proof (wf_topology _ Hwf p) as Htp. rewrite Hp in Htp. destruct Htp as (_ & Hlen & _).
  destruct (remove_pool_edges p g) as [[n us] g1].
  destruct Hrem as (Hwf1 & -> & -> & Htok & Hnm & Hv).
  exists g1. rewrite decide_True by nia. rewrite Hv. done.
Qed.

Lemma remove_pool_step p g n g' :
  graph_wf g → remove_pool p g = Some (n, g') → step_ok g g'.
Proof.
  intros Hwf Hrem. pose proof (remove_pool_spec p g Hwf) as Hspec.
  destruct (pool_tokens g !! p) as [ts|].
  - destruct Hspec as (g1 & Heq & Hwf1 & _ & _). rewrite Hrem in Heq.
    destruct (GraphVersion_next (version g)) as [v|] eqn:Hnext; simplify_eq/=.
    split; [by apply graph_wf_set_version|].
    exists true. by split; [apply GraphVersion_next_newer|].
  - rewrite Hrem in Hspec. simplify_eq. split; [done|]. exists false. done.
Qed.

Lemma rebuild_spec R o lin g s g' lin' :
  registry_wf R → rebuild_from_registry R o lin g = Some (s, g', lin') →
  ∃ rep, from_registry R o lin = Some (rep, lin') ∧
    graph_wf g' ∧ no_orphans g' ∧
    (∀ p, pool_tokens g' !! p = registry_topology o R p) ∧
    summary_indexed_pools s = report_indexed_pools rep ∧
    summary_skipped_pools s = report_skipped_pools rep ∧
    newer (negb (same_observable_topology g (report_graph rep))) (version g) (version g') ∧
    g' = set_version (version g') (report_graph rep).
Proof.
  intros HR. unfold rebuild_from_registry.
  destruct (from_registry R o lin) as [[rep next]|] eqn:Hfrom; simpl; [|done].
  destruct (from_registry_spec R o lin rep next HR Hfrom) as (Hwf & Hno & _ & Htok & _).
  destruct (same_observable_topology g (report_graph rep)) eqn:Hsame; simpl.
  - intros [= <- <- <-]. exists rep. simpl. rewrite Hsame.
    split_and!; try done; by apply graph_wf_set_version.
  - destruct (GraphVersion_next (version g)) as [v|] eqn:Hnext; [|done].
    intros [= <- <- <-]. exists rep. simpl. rewrite Hsame.
    apply GraphVersion_next_newer in Hnext.
    split_and!; try done; [by apply graph_wf_set_version|apply Hnext..].
Qed.

Lemma rebuild_step R o lin g s g' lin' :
  registry_wf R → rebuild_from_registry R o lin g = Some (s, g', lin') → step_ok g g'.
Proof.
  intros HR Hre. destruct (rebuild_spec _ _ _ _ _ _ _ HR Hre)
    as (rep & _ & Hwf & _ & _ & _ & _ & Hnew & Heq).
  split; [done|]. eexists; split; [exact Hnew|].
  intros Hs%negb_false_iff. unfold same_observable_topology in Hs.
  apply andb_prop in Hs as [Hs _]. apply andb_prop in Hs as [Hs _].
  apply bool_decide_eq_true in Hs. rewrite Heq. by rewrite Hs.
Qed.

Lemma graph_step_ok g g' : graph_wf g → graph_step g g' → step_ok g g'.
Proof.
  intros Hwf Hstep. destruct Hstep as [r o g m g1 Happ| | |].
  - by apply (proj1 (apply_pool_step _ _ _ _ _ Hwf Happ)).
  - by eapply remove_pool_step.
  - by eapply remove_pool_compacting_step.
  - by eapply rebuild_step.
Qed.

Lemma graph_steps_ok g g' :
  graph_wf g → rtc graph_step g g' →
  graph_wf g' ∧ lineage (version g') = lineage (version g) ∧
  (revision (version g) <= revision (version g'))%Z ∧
  (revision (version g) = revision (version g') → pool_tokens g' = pool_tokens g).
Proof.
  intros Hwf Hsteps. revert Hwf. induction Hsteps as [g|g1 g2 g3 H12 _ IH]; [done|].
  intros Hwf. destruct (graph_step_ok _ _ Hwf H12) as [Hwf2 (b & [Hl Hr] & Hsame)].
  destruct (IH Hwf2) as (Hwf3 & Hl' & Hr' & Hsame').
  split_and!; [done|congruence|destruct b; lia|].
  intros Heq. destruct b; [lia|]. rewrite Hsame' by lia. auto.
Qed.

(** C11: Every graph the public mutations reach from [AmmGraph::new] keeps the
    representation invariant: the node table and the graph agree, [edge_map]
    lists exactly the live edges of each pool, the cached outgoing view equals
    the graph's own outgoing edges in the same order, the pair index lists
    exactly the pools holding a pair, and a pool's edges are all ordered pairs
    of its distinct tokens. *)
Theorem reachable_graph_wf lin g0 lin' g :
  AmmGraph_new lin = Some (g0, lin') → rtc graph_step g0 g → graph_wf g.
Proof.
  unfold AmmGraph_new, GraphVersion_initial. destruct (u64_checked_add lin 1); [|done].
  intros [= <- <-] Hsteps. apply (graph_steps_ok _ _ (graph_wf_empty _) Hsteps).
Qed.

(** The graph version identifies a topology: along any sequence of public
    mutations the lineage is kept, the revision never decreases, and two
    states with the same version index the same pools with the same tokens. *)
Theorem version_identifies_topology g g' :
  graph_wf g → rtc graph_step g g' →
  lineage (version g') = lineage (version g) ∧
  (revision (version g) <= revision (version g'))%Z ∧
  (version g = version g' → pool_tokens g' = pool_tokens g).
Proof.
  intros Hwf Hsteps. destruct (graph_steps_ok _ _ Hwf Hsteps) as (_ & Hl & Hr & Hs).
  split_and!; [done..|]. intros Hv. apply Hs. by rewrite Hv.
Qed.

(** [apply_pool] on a well-formed graph panics only on an exhausted
    revision counter; otherwise it returns the mutation and the pool table of
    the abstract specification [apply_spec] (index, re-index, drop or skip the
    registration), bumps the revision by one exactly when the topology
    changed, and keeps the invariant and the compactness of the graph. *)
Theorem apply_pool_correct r o g :
  graph_wf g →
  match apply_pool r o g with
  | None => revision (version g) = u64_max ∨ (u64_max < revision (version g))%Z
  | Some (m, g') =>
      (m, pool_tokens g') = apply_spec o r (pool_tokens g) ∧
      newer (topology_changed m) (version g) (version g') ∧
      graph_wf g' ∧ (no_orphans g → no_orphans g')
  end.
Proof.
  intros Hwf. destruct (apply_pool r o g) as [[m g']|] eqn:Happ.
  - destruct (apply_pool_step _ _ _ _ _ Hwf Happ) as ([? _] & ? & ? & ?). done.
  - destruct (apply_pool_refines r o g Hwf) as (g1 & Heq & _).
    rewrite Happ in Heq. simpl in Heq. unfold version_after in Heq.
    destruct (topology_changed _); [|done]. revert Heq.
    unfold GraphVersion_next, GraphVersion_checked_next, u64_checked_add.
    case_decide; simpl; [done|lia].
Qed.

(** [from_registry] indexes exactly the registrations whose status is
    indexable and whose metadata yields two distinct tokens, reports them and
    the skipped ones (with the reason) in the order of their rendered keys,
    and returns a compact well-formed graph at revision 0 of a fresh lineage. *)
Theorem from_registry_correct R o lin rep lin' :
  registry_wf R → from_registry R o lin = Some (rep, lin') →
  let pools := stable_sort registration_le (registry_pools R) in
  graph_wf (report_graph rep) ∧ no_orphans (report_graph rep) ∧
  version (report_graph rep) = {| lineage := lin; revision := 0 |} ∧
  lin' = (lin + 1)%Z ∧
  (∀ p, pool_tokens (report_graph rep) !! p = registry_topology o R p) ∧
  report_indexed_pools rep = indexed_of o pools ∧
  report_skipped_pools rep = skipped_of o pools.
Proof.
  intros HR Hf. assert (lin' = (lin + 1)%Z) as ->.
  { revert Hf. unfold from_registry, AmmGraph_new, GraphVersion_initial, u64_checked_add.
    case_decide; [|done]. simpl. destruct (foldl _ _ _) as [[? ?] ?]. by intros [= _ <-]. }
  destruct (from_registry_spec R o lin rep _ HR Hf) as (?&?&?&?&?&?). done.
Qed.

(** [g] indexes what registry [R] describes. *)
Definition tracks o R g : Prop := ∀ p, pool_tokens g !! p = registry_topology o R p.

(** [R'] is [R] with the registration [r] stored under its key. *)
Definition registered r R R' : Prop :=
  ∀ p, registry_pool R' p = if decide (p = reg_key r) then Some r else registry_pool R p.

Lemma apply_spec_tracks o r R R' m p :
  registered r R R' → (∀ q, m !! q = registry_topology o R q) →
  (apply_spec o r m).2 !! p = registry_topology o R' p.
Proof.
  intros Hreg Hm. unfold registry_topology, apply_spec. rewrite Hreg.
  case_decide as Hp; subst.
  - simpl. destruct (searchable_tokens o r) as [ts|reason];
      destruct (m !! reg_key r) as [old|] eqn:Hold; simpl;
      [case_decide; subst; simpl|..]; by simplify_map_eq.
  - fold (registry_topology o R p).
    destruct (searchable_tokens o r) as [ts|reason];
      destruct (m !! reg_key r) as [old|] eqn:Hold; simpl;
      [case_decide; simpl|..]; rewrite ?lookup_insert_ne, ?lookup_delete_ne by done; apply Hm.
Qed.

(** A cached outgoing edge of [a]'s node swaps to [b] on the pool [p]. *)
Definition connected g (a b : Address) p : Prop :=
  ∃ n c, node_index g a = Some n ∧ c ∈ outgoing_edges g n ∧ ce_token_out c = b ∧ ce_pool c = p.

Lemma connected_spec g a b p :
  graph_wf g →
  connected g a b p ↔ ∃ ts, pool_tokens g !! p = Some ts ∧ a ∈ ts ∧ b ∈ ts ∧ a ≠ b.
Proof.
  intros Hwf. rewrite <- (edges_of_pools g p a b Hwf). pose proof (wf_core _ Hwf) as Hc. split.
  - intros (n & c & Hn & Hin & <- & <-).
    apply (outgoing_edges_spec _ _ _ Hc) in Hin as (e & He & Hi & Ho).
    exists e, c. split_and!; try done.
    + apply cached_of_Some; [done|]. exists n. split; [done|].
      split; by apply (wf_nodes _ Hc).
    + apply (wf_nodes _ Hc) in Hi, Hn. congruence.
  - intros (e & c & Hcache & <- & <- & <-).
    pose proof Hcache as Hcache'.
    apply cached_of_Some in Hcache' as (n & He & Hi & Ho); [|done].
    apply (wf_nodes _ Hc) in Hi, Ho. exists n, c. split_and!; try done.
    apply (outgoing_edges_spec _ _ _ Hc). eauto.
Qed.

(** Graphs that index the same pools have the same connections and tokens. *)
Lemma same_connections g g' a b p :
  graph_wf g → graph_wf g' → pool_tokens g' = pool_tokens g →
  connected g a b p ↔ connected g' a b p.
Proof. intros Hwf Hwf' Htok. rewrite !connected_spec by done. by rewrite Htok. Qed.

Lemma same_tokens g g' :
  no_orphans g → no_orphans g' → pool_tokens g' = pool_tokens g → dom (node_map g') = dom (node_map g).
Proof.
  intros Hno Hno' Htok. apply set_eq. intros t. rewrite !elem_of_dom, (Hno t), (Hno' t). by rewrite Htok.
Qed.

(** C12: Incremental maintenance agrees with a rebuild: after the registry and
    the graph absorb the same registration, the graph again indexes exactly
    what the registry describes, and rebuilding from that registry recognises
    the topology as unchanged (the version is kept) and returns a graph with
    the same pools, the same tokens and the same directed connections. *)
Theorem incremental_agrees_with_rebuild r o R R' g m g1 lin s g2 lin' :
  registry_wf R' → registered r R R' → graph_wf g → no_orphans g → tracks o R g →
  apply_pool r o g = Some (m, g1) →
  rebuild_from_registry R' o lin g1 = Some (s, g2, lin') →
  tracks o R' g1 ∧ version g2 = version g1 ∧ pool_tokens g2 = pool_tokens g1 ∧
  dom (node_map g2) = dom (node_map g1) ∧
  ∀ a b p, (∃ n c, node_index g1 a = Some n ∧ c ∈ outgoing_edges g1 n ∧
             ce_token_out c = b ∧ ce_pool c = p) ↔
           (∃ n c, node_index g2 a = Some n ∧ c ∈ outgoing_edges g2 n ∧
             ce_token_out c = b ∧ ce_pool c = p).
Proof.
  intros HR' Hreg Hwf Hno Htr Happ Hre.
  destruct (apply_pool_step _ _ _ _ _ Hwf Happ) as ([Hwf1 _] & Hspec & _ & Hno1).
  specialize (Hno1 Hno). apply (f_equal snd) in Hspec. simpl in Hspec.
  assert (tracks o R' g1) as Htr1.
  { intros p. rewrite Hspec. by eapply apply_spec_tracks. }
  destruct (rebuild_spec _ _ _ _ _ _ _ HR' Hre)
    as (rep & _ & Hwf2 & Hno2 & Htok2 & _ & _ & Hnew & Heq).
  assert (pool_tokens g2 = pool_tokens g1) as Htok.
  { apply map_eq. intros p. by rewrite Htok2, Htr1. }
  assert (same_observable_topology g1 (report_graph rep) = true) as Hsame.
  { apply same_observable_topology_spec; [done| |].
    - rewrite Heq in Hno2. exact Hno2.
    - rewrite Heq in Htok. by rewrite <- Htok. }
  rewrite Hsame in Hnew. destruct Hnew as [Hl Hr].
  split_and!; [done| |done| |].
  - destruct (version g2), (version g1). simpl in *. congruence.
  - by apply same_tokens.
  - intros a b p. fold (connected g1 a b p) (connected g2 a b p). by apply same_connections.
Qed.
(** ** Sorted token lists and the pair index *)

Definition tokens_sorted g : Prop :=
  ∀ p ts, pool_tokens g !! p = Some ts → StronglySorted Z.lt ts.

Lemma searchable_tokens_sorted o r ts :
  searchable_tokens o r = Ok ts → StronglySorted Z.lt ts.
Proof.
  unfold searchable_tokens, tokens_for_pool. case_match; [|done].
  rewrite result_bind_Ok. intros (l & _ & Hl). revert Hl.
  unfold normalize_tokens. case_decide; [done|]. intros [= <-]. apply normalized_sorted.
Qed.

Lemma graph_step_sorted g g' :
  graph_wf g → tokens_sorted g → graph_step g g' → tokens_sorted g'.
Proof.
  intros Hwf Hs Hstep. destruct Hstep as [r o g m g1 H1|p g n g1 H1|p g m g1 H1|R o lin g s g1 lin1 HR H1].
  - destruct (apply_pool_step _ _ _ _ _ Hwf H1) as (_ & Hspec & _).
    apply (f_equal snd) in Hspec. simpl in Hspec.
    unfold tokens_sorted. rewrite Hspec. clear Hspec. intros p ts. unfold apply_spec.
    destruct (searchable_tokens o r) as [us|] eqn:Hus;
      destruct (pool_tokens g !! reg_key r); [case_decide|..]; simpl;
      rewrite ?lookup_insert_Some, ?lookup_delete_Some;
      pose proof (searchable_tokens_sorted o r); naive_solver.
  - pose proof (remove_pool_spec p g Hwf) as Hspec.
    destruct (pool_tokens g !! p).
    + destruct Hspec as (g2 & Heq & _ & Htok & _). rewrite H1 in Heq.
      destruct (GraphVersion_next _); simplify_eq/=.
      intros q ts. simpl. rewrite Htok, lookup_delete_Some. intros [_ ?]. eauto.
    + rewrite H1 in Hspec. by simplify_eq.
  - pose proof (remove_pool_compacting_spec p g Hwf) as Hspec.
    destruct (pool_tokens g !! p).
    + destruct Hspec as (g2 & Heq & _ & Htok & _). rewrite H1 in Heq.
      destruct (GraphVersion_next _); simplify_eq/=.
      intros q ts. simpl. rewrite Htok, lookup_delete_Some. intros [_ ?]. eauto.
    + rewrite H1 in Hspec. by simplify_eq.
  - destruct (rebuild_spec _ _ _ _ _ _ _ HR H1) as (rep & _ & _ & _ & Htok & _).
    intros p ts. rewrite Htok. unfold registry_topology.
    destruct (registry_pool R p) as [r|]; simpl; [|done].
    destruct (searchable_tokens o r) eqn:Hr; simpl; [|done].
    intros [= <-]. by eapply searchable_tokens_sorted.
Qed.

Lemma elem_of_token_pairs_sorted (l : list Z) x y :
  StronglySorted Z.lt l → (x, y) ∈ token_pairs l ↔ x ∈ l ∧ y ∈ l ∧ (x < y)%Z.
Proof.
  induction 1 as [|a l Hl IH Ha]; simpl; [set_solver|].
  rewrite elem_of_app, list_elem_of_fmap, IH, !elem_of_cons.
  rewrite Forall_forall in Ha. split.
  - intros [(z & [= -> ->] & Hz)|?]; [|naive_solver].
    split_and!; auto.
  - intros ([->|Hx] & [->|Hy] & Hlt); [lia|left; eauto|specialize (Ha x Hx); lia|auto].
Qed.

(** Two distinct tokens the two pools have in common. *)
Definition share_pair g p q a b : Prop :=
  a ≠ b ∧ ∃ ts us, pool_tokens g !! p = Some ts ∧ pool_tokens g !! q = Some us ∧
    a ∈ ts ∧ b ∈ ts ∧ a ∈ us ∧ b ∈ us.

Lemma share_pair_sym g p q a b : share_pair g p q a b → share_pair g p q b a.
Proof. unfold share_pair. naive_solver. Qed.

Lemma pair_pools_spec g p q ts x y :
  graph_wf g → tokens_sorted g → pool_tokens g !! p = Some ts →
  (x, y) ∈ token_pairs ts ∧ q ∈ default ∅ (pair_pools g !! (x, y)) ↔
  (x < y)%Z ∧ share_pair g p q x y.
Proof.
  intros Hwf Hs Hp. destruct (wf_pairs _ Hwf (x, y)) as [_ Hq]. rewrite Hq.
  rewrite elem_of_token_pairs_sorted by eauto. split.
  - intros [(?&?&?) (us & Hus & Hin)].
    apply elem_of_token_pairs_sorted in Hin as (?&?&?); [|by eauto].
    split; [done|]. split; [lia|]. by exists ts, us.
  - intros (Hlt & _ & ts' & us & Hp' & Hus & ?&?&?&?). simplify_eq.
    split; [done|]. exists us. by rewrite elem_of_token_pairs_sorted by eauto.
Qed.

Lemma elem_of_foldl_union {A B} `{Countable B} (f : A → gset B) (l : list A) X b :
  b ∈ foldl (λ X a, X ∪ f a) X l ↔ b ∈ X ∨ ∃ a, a ∈ l ∧ b ∈ f a.
Proof. revert X. induction l as [|a l IH]; intros X; simpl; [set_solver|]. rewrite IH. set_solver. Qed.

Lemma foldl_ext_fun {A B} (f h : B → A → B) (l : list A) b :
  (∀ b a, f b a = h b a) → foldl f b l = foldl h b l.
Proof. intros Hf. apply foldl_ext_in. auto. Qed.

(** [parallel_neighbors] of a pool are exactly the pools (itself included)
    that hold two distinct tokens in common with it. *)
Theorem parallel_neighbors_spec g p q :
  graph_wf g → tokens_sorted g →
  q ∈ parallel_neighbors g p ↔ ∃ a b, share_pair g p q a b.
Proof.
  intros Hwf Hs. unfold parallel_neighbors.
  destruct (pool_tokens g !! p) as [ts|] eqn:Hp.
  2: { split; [set_solver|]. intros (a & b & _ & us & vs & H1 & _). congruence. }
  rewrite for_each_token_pair_foldl.
  rewrite (foldl_ext_fun _ (λ X pr, X ∪ default ∅ (pair_pools g !! pr))).
  2: { intros X pr. destruct (pair_pools g !! pr); simpl; [done|]. set_solver. }
  rewrite elem_of_foldl_union. split.
  - intros [?|([x y] & Hin)]; [set_solver|].
    apply (pair_pools_spec _ _ _ _ _ _ Hwf Hs Hp) in Hin as [_ ?]. eauto.
  - intros (a & b & Hsh). right.
    destruct (Z.lt_trichotomy a b) as [Hlt|[Heq|Hlt]]; [|by destruct Hsh|].
    + exists (a, b). by apply (pair_pools_spec _ _ _ _ _ _ Hwf Hs Hp).
    + exists (b, a). apply (pair_pools_spec _ _ _ _ _ _ Hwf Hs Hp).
      split; [done|]. by apply share_pair_sym.
Qed.

(** [tracked_tokens_for_pool] returns all the tokens of an indexed pool,
    or with [parallel_only] exactly those it can be swapped for on another
    pool: the token and a second one lie together in some other pool. *)
Theorem tracked_tokens_spec g p b t :
  graph_wf g → tokens_sorted g →
  t ∈ tracked_tokens_for_pool g p b ↔
  if b then ∃ q t', q ≠ p ∧ share_pair g p q t t'
  else ∃ ts, pool_tokens g !! p = Some ts ∧ t ∈ ts.
Proof.
  intros Hwf Hs. unfold tracked_tokens_for_pool.
  destruct (pool_tokens g !! p) as [ts|] eqn:Hp.
  2: { destruct b; [|set_solver]. split; [set_solver|].
       intros (q & t' & _ & _ & us & vs & H1 & _). congruence. }
  destruct b; simpl; [|set_solver].
  rewrite for_each_token_pair_foldl.
  rewrite (foldl_ext_fun _ (λ X pr, X ∪
    if decide (2 <= size (default ∅ (pair_pools g !! pr) : gset PoolKey))
    then {[pr.1; pr.2]} else ∅)).
  2: { intros X pr. destruct (pair_pools g !! pr); cbn [default from_option id].
       - case_decide; [by rewrite <- (assoc_L (∪))|by rewrite (right_id_L ∅ (∪))].
       - rewrite size_empty, decide_False by lia. by rewrite (right_id_L ∅ (∪)). }
  rewrite elem_of_foldl_union.
  assert (∀ x y, (x, y) ∈ token_pairs ts →
    2 <= size (default ∅ (pair_pools g !! (x, y)) : gset PoolKey) ↔
    ∃ q, q ≠ p ∧ q ∈ default ∅ (pair_pools g !! (x, y))) as Hsize.
  { intros x y Hxy. set (X := default ∅ _).
    assert (p ∈ X) as HpX by (apply (wf_pairs _ Hwf); eauto).
    assert (size X = S (size (X ∖ {[p]}))) as ->.
    { rewrite (union_difference_singleton_L p X HpX) at 1.
      rewrite size_union by set_solver. by rewrite size_singleton. }
    split.
    - intros Hle. destruct (set_choose_or_empty (X ∖ {[p]})) as [[q Hq]|He]; [set_solver|].
      rewrite He, size_empty in Hle. lia.
    - intros (q & Hne & Hq). assert (size (X ∖ {[p]}) ≠ 0); [|lia].
      rewrite size_non_empty_iff. set_solver. }
  split.
  - intros [?|([x y] & Hin & Ht)]; [set_solver|]. case_decide as Hd; [|set_solver].
    apply Hsize in Hd as (q & Hne & Hq); [|done].
    destruct (proj1 (pair_pools_spec _ _ q _ _ _ Hwf Hs Hp) (conj Hin Hq)) as [_ Hsh].
    simpl in Ht. exists q. apply elem_of_union in Ht as [Ht|Ht]; apply elem_of_singleton in Ht; subst t.
    + by exists y.
    + exists x. split; [done|]. by apply share_pair_sym.
  - intros (q & t' & Hne & Hsh). right.
    assert (∃ x y, t ∈ ({[x; y]} : gset Address) ∧ (x < y)%Z ∧ share_pair g p q x y)
      as (x & y & Ht & Hlt & Hxy).
    { destruct (Z.lt_trichotomy t t') as [Hlt|[Heq|Hlt]]; [|by destruct Hsh|].
      - exists t, t'. set_solver.
      - exists t', t. split; [set_solver|]. split; [done|]. by apply share_pair_sym. }
    destruct (proj2 (pair_pools_spec _ _ q _ _ _ Hwf Hs Hp) (conj Hlt Hxy)) as [Hin Hq].
    exists (x, y). split; [done|]. rewrite decide_True; [done|]. apply Hsize; eauto.
Qed.

(** The cached outgoing view of a token's node is in the order of the
    graph's own outgoing edges, and lists, for each pool holding the token,
    exactly one swap to every other token of the pool. *)
Theorem outgoing_edges_correct g t n :
  graph_wf g → node_index g t = Some n →
  outgoing_edges g n = omap (cached_of g) (pg_outgoing (graph g) n) ∧
  length (outgoing_edges g n) = length (pg_outgoing (graph g) n) ∧
  ∀ p b, (∃ m, node_index g b = Some m ∧
      {| ce_target := m; ce_token_in := t; ce_token_out := b; ce_pool := p |}
        ∈ outgoing_edges g n) ↔
    ∃ ts, pool_tokens g !! p = Some ts ∧ t ∈ ts ∧ b ∈ ts ∧ t ≠ b.
Proof.
  intros Hwf Ht. pose proof (wf_core _ Hwf) as Hc. split; [by apply (wf_outgoing _ Hc)|].
  split.
  { rewrite (wf_outgoing _ Hc).
    assert (∀ e, e ∈ pg_outgoing (graph g) n → is_Some (cached_of g e)) as Hl.
    { intros e (b & w & He)%(pg_outgoing_spec _ _ _ (wf_pg _ Hc)).
      by eapply cached_of_live. }
    induction (pg_outgoing (graph g) n) as [|e l IH]; [done|].
    destruct (Hl e) as [c Hce]; [set_solver|]. csimpl. rewrite Hce. simpl.
    f_equal. apply IH. set_solver. }
  intros p b. rewrite <- (edges_of_pools g p t b Hwf). split.
  - intros (m & Hm & Hin). apply (outgoing_edges_spec _ _ _ Hc) in Hin as (e & He & Hi & Ho).
    simpl in *.
    exists e, {| ce_target := m; ce_token_in := t; ce_token_out := b; ce_pool := p |}.
    split; [|done]. apply cached_of_Some; [done|]. exists n. simpl. split; [done|].
    split; by apply (wf_nodes _ Hc).
  - intros (e & c & Hcache & Hin & <- & <-). pose proof Hcache as Hcache'.
    apply cached_of_Some in Hcache' as (m & He & Hi & Ho); [|done].
    apply (wf_nodes _ Hc) in Hi, Ho. unfold node_index in *. simplify_eq.
    exists (ce_target c). split; [done|]. destruct c. simpl in *.
    apply (outgoing_edges_spec _ _ _ Hc). simpl. exists e. simplify_eq. done.
Qed.

(** Removing a pool that was just indexed undoes it: [apply_pool] of a new
    registration followed by [remove_pool_compacting] of its key restores the
    pool table and the set of token nodes, and moves the revision by two. *)
Theorem add_remove_roundtrip r o g g1 g2 m m' :
  graph_wf g → no_orphans g → pool_tokens g !! reg_key r = None →
  apply_pool r o g = Some (m, g1) → topology_changed m = true →
  remove_pool_compacting (reg_key r) g1 = Some (m', g2) →
  pool_tokens g2 = pool_tokens g ∧ dom (node_map g2) = dom (node_map g) ∧
  graph_wf g2 ∧ revision (version g2) = (revision (version g) + 2)%Z.
Proof.
  intros Hwf Hno Hp Happ Hm Hrem.
  destruct (apply_pool_step _ _ _ _ _ Hwf Happ) as ([Hwf1 _] & Hspec & Hnew & Hno1).
  rewrite Hm in Hnew. specialize (Hno1 Hno).
  unfold apply_spec in Hspec. rewrite Hp in Hspec.
  destruct (searchable_tokens o r) as [ts|]; injection Hspec as -> Htok; [|done].
  pose proof (remove_pool_compacting_spec (reg_key r) g1 Hwf1) as Hsp.
  rewrite Htok, lookup_insert_eq in Hsp.
  destruct Hsp as (g' & Heq & Hwf' & Htok' & Hv' & Hn'). rewrite Hrem in Heq.
  destruct (GraphVersion_next (version g1)) as [v|] eqn:Hnext; simplify_eq/=.
  rewrite delete_insert_id in Htok' by done.
  split_and!; [done| |by apply graph_wf_set_version|].
  - apply set_eq. intros t. rewrite !elem_of_dom, Hn', (Hno1 t), (Hno t).
    rewrite Htok. split.
    + intros [(q & us & Hq & Hin) Hts]. apply lookup_insert_Some in Hq as [[<- <-]|[Hne Hq]].
      * destruct (Hts Hin) as (q & us & Hne & Hq & Hin').
        rewrite lookup_insert_ne in Hq by done. eauto.
      * eauto.
    + intros (q & us & Hq & Hin). assert (q ≠ reg_key r) by congruence.
      split; [|intros _]; exists q, us; rewrite lookup_insert_ne by done; eauto.
  - apply GraphVersion_next_newer in Hnext as [_ Hr]. destruct Hnew as [_ Hr1]. lia.
Qed.
End theorems.
