(* ===== verification/Config.v ===== *)
(** * Search configuration ([src/search.rs], [src/liquidity.rs])

    The configuration records of the searcher with their presets, their
    [with_*] builders and their [validate] functions.  [usize] fields are
    naturals (they are only compared and stored), basis points are integers of
    the [u16] range. *)

From S2P Require Import Prelude.

(** The error of [validate]: [SearchError::InvalidConfig { reason }]. *)
Record InvalidConfig := { invalid_reason : string }.

Definition validated : Type := result InvalidConfig unit.

(** The two statements every [validate] is made of: an early return under a
    guard, and [inner.validate()?]. *)
Definition reject_if (guard : bool) (reason : string) (rest : validated) : validated :=
  if guard then Err {| invalid_reason := reason |} else rest.

Lemma reject_if_Ok guard reason rest :
  reject_if guard reason rest = Ok () ↔ guard = false ∧ rest = Ok ().
Proof. destruct guard; simpl; naive_solver. Qed.

Lemma validated_then (v rest : validated) :
  (v ≫= λ _, rest) = Ok () ↔ v = Ok () ∧ rest = Ok ().
Proof. destruct v as [[]|]; simpl; naive_solver. Qed.

Lemma andb_eqb_0 b n : b && (n =? 0) = false ↔ (b = true → 1 ≤ n).
Proof. destruct b, n; simpl; naive_solver lia. Qed.

Lemma eqb_0 n : (n =? 0) = false ↔ 1 ≤ n.
Proof. destruct n; simpl; naive_solver lia. Qed.

(** ** [LiquidityPruningConfig] *)

Definition PARALLEL_EDGE_THRESHOLD : nat := 2.

Record LiquidityPruningConfig := {
  lp_enabled : bool;
  lp_min_parallel_edges : nat;
  lp_order_by_output_balance : bool;
  lp_prune_balance_dominated : bool;
  lp_prune_unknown : bool;
  lp_rank_branches_by_liquidity : bool;
}.

Definition LiquidityPruningConfig_default : LiquidityPruningConfig :=
  {| lp_enabled := false; lp_min_parallel_edges := PARALLEL_EDGE_THRESHOLD;
     lp_order_by_output_balance := true; lp_prune_balance_dominated := true;
     lp_prune_unknown := false; lp_rank_branches_by_liquidity := false |}.
Definition LiquidityPruningConfig_disabled : LiquidityPruningConfig :=
  {| lp_enabled := false; lp_min_parallel_edges := PARALLEL_EDGE_THRESHOLD;
     lp_order_by_output_balance := true; lp_prune_balance_dominated := true;
     lp_prune_unknown := false; lp_rank_branches_by_liquidity := false |}.
Definition LiquidityPruningConfig_enabled : LiquidityPruningConfig :=
  {| lp_enabled := true; lp_min_parallel_edges := PARALLEL_EDGE_THRESHOLD;
     lp_order_by_output_balance := true; lp_prune_balance_dominated := true;
     lp_prune_unknown := false; lp_rank_branches_by_liquidity := true |}.

Definition lp_with_min_parallel_edges (_ : nat) (c : LiquidityPruningConfig) :=
  let '(Build_LiquidityPruningConfig e _ o d u r) := c in
  Build_LiquidityPruningConfig e PARALLEL_EDGE_THRESHOLD o d u r.
Definition lp_with_order_by_output_balance (o : bool) (c : LiquidityPruningConfig) :=
  let '(Build_LiquidityPruningConfig e m _ d u r) := c in
  Build_LiquidityPruningConfig e m o d u r.
Definition lp_with_prune_balance_dominated (d : bool) (c : LiquidityPruningConfig) :=
  let '(Build_LiquidityPruningConfig e m o _ u r) := c in
  Build_LiquidityPruningConfig e m o d u r.
Definition lp_with_prune_unknown (u : bool) (c : LiquidityPruningConfig) :=
  let '(Build_LiquidityPruningConfig e m o d _ r) := c in
  Build_LiquidityPruningConfig e m o d u r.
Definition lp_with_rank_branches_by_liquidity (r : bool) (c : LiquidityPruningConfig) :=
  let '(Build_LiquidityPruningConfig e m o d u _) := c in
  Build_LiquidityPruningConfig e m o d u r.

(** ** [FastLaneConfig] *)

Record FastLaneConfig := {
  fl_enabled : bool;
  fl_max_connectors : nat;
  fl_direct_edges_per_pair : nat;
  fl_connector_edges_per_pair : nat;
  fl_evaluate_direct_best_first : bool;
}.

Definition FastLaneConfig_default : FastLaneConfig :=
  {| fl_enabled := true; fl_max_connectors := 8; fl_direct_edges_per_pair := 1;
     fl_connector_edges_per_pair := 1; fl_evaluate_direct_best_first := true |}.
Definition FastLaneConfig_disabled : FastLaneConfig :=
  {| fl_enabled := false; fl_max_connectors := 8; fl_direct_edges_per_pair := 1;
     fl_connector_edges_per_pair := 1; fl_evaluate_direct_best_first := true |}.
Definition FastLaneConfig_enabled : FastLaneConfig :=
  {| fl_enabled := true; fl_max_connectors := 8; fl_direct_edges_per_pair := 1;
     fl_connector_edges_per_pair := 1; fl_evaluate_direct_best_first := true |}.

Definition fl_with_enabled (e : bool) (c : FastLaneConfig) :=
  let '(Build_FastLaneConfig _ m d k b) := c in Build_FastLaneConfig e m d k b.
Definition fl_with_max_connectors (m : nat) (c : FastLaneConfig) :=
  let '(Build_FastLaneConfig e _ d k b) := c in Build_FastLaneConfig e m d k b.
Definition fl_with_direct_edges_per_pair (d : nat) (c : FastLaneConfig) :=
  let '(Build_FastLaneConfig e m _ k b) := c in Build_FastLaneConfig e m d k b.
Definition fl_with_connector_edges_per_pair (k : nat) (c : FastLaneConfig) :=
  let '(Build_FastLaneConfig e m d _ b) := c in Build_FastLaneConfig e m d k b.
Definition fl_with_evaluate_direct_best_first (b : bool) (c : FastLaneConfig) :=
  let '(Build_FastLaneConfig e m d k _) := c in Build_FastLaneConfig e m d k b.

Definition FastLaneConfig_validate (c : FastLaneConfig) : validated :=
  reject_if (fl_enabled c && (fl_direct_edges_per_pair c =? 0))
    "fast_lane.direct_edges_per_pair must be at least 1" $
  reject_if (fl_enabled c && (fl_connector_edges_per_pair c =? 0))
    "fast_lane.connector_edges_per_pair must be at least 1" $
  Ok ().

(** ** [AdaptiveEdgeShortlistConfig] *)

Record AdaptiveEdgeShortlistConfig := {
  es_enabled : bool;
  es_initial_edges_per_pair : nat;
  es_refinement_edges_per_pair : nat;
  es_refine_parallel_edges : bool;
  es_protocol_ordering : bool;
}.

Definition AdaptiveEdgeShortlistConfig_disabled : AdaptiveEdgeShortlistConfig :=
  {| es_enabled := false; es_initial_edges_per_pair := 1;
     es_refinement_edges_per_pair := 3; es_refine_parallel_edges := false;
     es_protocol_ordering := false |}.
Definition AdaptiveEdgeShortlistConfig_ordering_only : AdaptiveEdgeShortlistConfig :=
  {| es_enabled := false; es_initial_edges_per_pair := 1;
     es_refinement_edges_per_pair := 3; es_refine_parallel_edges := false;
     es_protocol_ordering := true |}.
Definition AdaptiveEdgeShortlistConfig_enabled : AdaptiveEdgeShortlistConfig :=
  {| es_enabled := true; es_initial_edges_per_pair := 1;
     es_refinement_edges_per_pair := 3; es_refine_parallel_edges := true;
     es_protocol_ordering := true |}.
Definition AdaptiveEdgeShortlistConfig_default : AdaptiveEdgeShortlistConfig :=
  AdaptiveEdgeShortlistConfig_ordering_only.

Definition es_with_enabled (e : bool) (c : AdaptiveEdgeShortlistConfig) :=
  let '(Build_AdaptiveEdgeShortlistConfig _ i r p o) := c in
  Build_AdaptiveEdgeShortlistConfig e i r p o.
Definition es_with_initial_edges_per_pair (i : nat) (c : AdaptiveEdgeShortlistConfig) :=
  let '(Build_AdaptiveEdgeShortlistConfig e _ r p o) := c in
  Build_AdaptiveEdgeShortlistConfig e i r p o.
Definition es_with_refinement_edges_per_pair (r : nat) (c : AdaptiveEdgeShortlistConfig) :=
  let '(Build_AdaptiveEdgeShortlistConfig e i _ p o) := c in
  Build_AdaptiveEdgeShortlistConfig e i r p o.
Definition es_with_refine_parallel_edges (p : bool) (c : AdaptiveEdgeShortlistConfig) :=
  let '(Build_AdaptiveEdgeShortlistConfig e i r _ o) := c in
  Build_AdaptiveEdgeShortlistConfig e i r p o.
Definition es_with_protocol_ordering (o : bool) (c : AdaptiveEdgeShortlistConfig) :=
  let '(Build_AdaptiveEdgeShortlistConfig e i r p _) := c in
  Build_AdaptiveEdgeShortlistConfig e i r p o.

Definition AdaptiveEdgeShortlistConfig_validate (c : AdaptiveEdgeShortlistConfig) : validated :=
  reject_if (es_enabled c && (es_initial_edges_per_pair c =? 0))
    "edge_shortlist.initial_edges_per_pair must be at least 1" $
  reject_if (es_enabled c && (es_refinement_edges_per_pair c =? 0))
    "edge_shortlist.refinement_edges_per_pair must be at least 1" $
  Ok ().

(** ** [UpperBoundPruningConfig] *)

Record UpperBoundPruningConfig := {
  ub_enabled : bool;
  ub_balance_cap_pruning : bool;
  ub_estimated_rate_pruning : bool;
  ub_fail_open_on_unknown : bool;
}.

Definition UpperBoundPruningConfig_default : UpperBoundPruningConfig :=
  {| ub_enabled := true; ub_balance_cap_pruning := true;
     ub_estimated_rate_pruning := false; ub_fail_open_on_unknown := true |}.
Definition UpperBoundPruningConfig_disabled : UpperBoundPruningConfig :=
  {| ub_enabled := false; ub_balance_cap_pruning := false;
     ub_estimated_rate_pruning := false; ub_fail_open_on_unknown := true |}.
Definition UpperBoundPruningConfig_conservative : UpperBoundPruningConfig :=
  {| ub_enabled := true; ub_balance_cap_pruning := true;
     ub_estimated_rate_pruning := false; ub_fail_open_on_unknown := true |}.

Definition ub_with_enabled (e : bool) (c : UpperBoundPruningConfig) :=
  let '(Build_UpperBoundPruningConfig _ b r f) := c in Build_UpperBoundPruningConfig e b r f.
Definition ub_with_balance_cap_pruning (b : bool) (c : UpperBoundPruningConfig) :=
  let '(Build_UpperBoundPruningConfig e _ r f) := c in Build_UpperBoundPruningConfig e b r f.
Definition ub_with_estimated_rate_pruning (r : bool) (c : UpperBoundPruningConfig) :=
  let '(Build_UpperBoundPruningConfig e b _ f) := c in Build_UpperBoundPruningConfig e b r f.
Definition ub_with_fail_open_on_unknown (f : bool) (c : UpperBoundPruningConfig) :=
  let '(Build_UpperBoundPruningConfig e b r _) := c in Build_UpperBoundPruningConfig e b r f.

(** ** [HeuristicSearchConfig] *)

Record HeuristicSearchConfig := {
  max_auto_connectors : nat;
  min_auto_connector_degree : nat;
  beam_width : option nat;
  parallel_edge_limit : nat;
  simulate_finalists : bool;
  max_finalists : nat;
  target_first : bool;
  prefix_dominance : bool;
  fast_lane : FastLaneConfig;
  edge_shortlist : AdaptiveEdgeShortlistConfig;
  upper_bound_pruning : UpperBoundPruningConfig;
}.

Definition HeuristicSearchConfig_balanced : HeuristicSearchConfig :=
  {| max_auto_connectors := 8; min_auto_connector_degree := 6;
     beam_width := Some 64; parallel_edge_limit := 1;
     simulate_finalists := true; max_finalists := 16;
     target_first := true; prefix_dominance := true;
     fast_lane := FastLaneConfig_enabled;
     edge_shortlist := AdaptiveEdgeShortlistConfig_ordering_only;
     upper_bound_pruning := UpperBoundPruningConfig_conservative |}.
Definition HeuristicSearchConfig_latency_first : HeuristicSearchConfig :=
  {| max_auto_connectors := 8; min_auto_connector_degree := 6;
     beam_width := Some 64; parallel_edge_limit := 1;
     simulate_finalists := true; max_finalists := 16;
     target_first := true; prefix_dominance := true;
     fast_lane := FastLaneConfig_enabled;
     edge_shortlist := AdaptiveEdgeShortlistConfig_enabled;
     upper_bound_pruning := UpperBoundPruningConfig_conservative |}.
Definition HeuristicSearchConfig_default : HeuristicSearchConfig :=
  HeuristicSearchConfig_balanced.

Definition hs_with_auto_connectors (a b : nat) (c : HeuristicSearchConfig) :=
  let '(Build_HeuristicSearchConfig _ _ w l s f t p x y z) := c in
  Build_HeuristicSearchConfig a b w l s f t p x y z.
Definition hs_with_beam_width (w : option nat) (c : HeuristicSearchConfig) :=
  let '(Build_HeuristicSearchConfig a b _ l s f t p x y z) := c in
  Build_HeuristicSearchConfig a b w l s f t p x y z.
Definition hs_with_parallel_edge_limit (l : nat) (c : HeuristicSearchConfig) :=
  let '(Build_HeuristicSearchConfig a b w _ s f t p x y z) := c in
  Build_HeuristicSearchConfig a b w l s f t p x y z.
Definition hs_with_finalist_simulation (s : bool) (f : nat) (c : HeuristicSearchConfig) :=
  let '(Build_HeuristicSearchConfig a b w l _ _ t p x y z) := c in
  Build_HeuristicSearchConfig a b w l s f t p x y z.
Definition hs_with_target_first (t : bool) (c : HeuristicSearchConfig) :=
  let '(Build_HeuristicSearchConfig a b w l s f _ p x y z) := c in
  Build_HeuristicSearchConfig a b w l s f t p x y z.
Definition hs_with_prefix_dominance (p : bool) (c : HeuristicSearchConfig) :=
  let '(Build_HeuristicSearchConfig a b w l s f t _ x y z) := c in
  Build_HeuristicSearchConfig a b w l s f t p x y z.
Definition hs_with_fast_lane (x : FastLaneConfig) (c : HeuristicSearchConfig) :=
  let '(Build_HeuristicSearchConfig a b w l s f t p _ y z) := c in
  Build_HeuristicSearchConfig a b w l s f t p x y z.
Definition hs_with_edge_shortlist (y : AdaptiveEdgeShortlistConfig) (c : HeuristicSearchConfig) :=
  let '(Build_HeuristicSearchConfig a b w l s f t p x _ z) := c in
  Build_HeuristicSearchConfig a b w l s f t p x y z.
Definition hs_with_upper_bound_pruning (z : UpperBoundPruningConfig) (c : HeuristicSearchConfig) :=
  let '(Build_HeuristicSearchConfig a b w l s f t p x y _) := c in
  Build_HeuristicSearchConfig a b w l s f t p x y z.

Definition HeuristicSearchConfig_validate (c : HeuristicSearchConfig) : validated :=
  reject_if (parallel_edge_limit c =? 0) "parallel_edge_limit must be at least 1" $
  reject_if (max_finalists c =? 0) "max_finalists must be at least 1" $
  reject_if (bool_decide (beam_width c = Some 0)) "beam_width must be at least 1" $
  FastLaneConfig_validate (fast_lane c) ≫= λ _,
  AdaptiveEdgeShortlistConfig_validate (edge_shortlist c) ≫= λ _,
  Ok ().

(** ** [SearchConfig] *)

Inductive SearchMode : Type :=
  | ModeExhaustive
  | ModeHeuristic (heuristic : HeuristicSearchConfig).

Record SearchConfig := {
  min_hops : nat;
  max_hops : nat;
  max_candidates : option nat;
  connector_tokens : option (gset Address);
  mode : SearchMode;
  liquidity_pruning : LiquidityPruningConfig;
}.

Definition SearchConfig_default : SearchConfig :=
  {| min_hops := 1; max_hops := 3; max_candidates := None; connector_tokens := None;
     mode := ModeExhaustive; liquidity_pruning := LiquidityPruningConfig_default |}.

Definition with_hops (lo hi : nat) (c : SearchConfig) : SearchConfig :=
  let '(Build_SearchConfig _ _ m k s l) := c in Build_SearchConfig lo hi m k s l.
Definition with_max_candidates (m : nat) (c : SearchConfig) : SearchConfig :=
  let '(Build_SearchConfig lo hi _ k s l) := c in Build_SearchConfig lo hi (Some m) k s l.
Definition with_connector_tokens (ts : list Address) (c : SearchConfig) : SearchConfig :=
  let '(Build_SearchConfig lo hi m _ s l) := c in
  Build_SearchConfig lo hi m (Some (list_to_set ts)) s l.
Definition with_mode (s : SearchMode) (c : SearchConfig) : SearchConfig :=
  let '(Build_SearchConfig lo hi m k _ l) := c in Build_SearchConfig lo hi m k s l.
Definition exhaustive (c : SearchConfig) : SearchConfig := with_mode ModeExhaustive c.
Definition heuristic (c : SearchConfig) : SearchConfig :=
  with_mode (ModeHeuristic HeuristicSearchConfig_default) c.
Definition with_liquidity_pruning (l : LiquidityPruningConfig) (c : SearchConfig) : SearchConfig :=
  let '(Build_SearchConfig lo hi m k s _) := c in Build_SearchConfig lo hi m k s l.

Definition SearchConfig_validate (c : SearchConfig) : validated :=
  reject_if (min_hops c =? 0) "min_hops must be at least 1" $
  reject_if (max_hops c <? min_hops c) "min_hops cannot exceed max_hops" $
  reject_if (bool_decide (max_candidates c = Some 0)) "max_candidates must be at least 1" $
  match mode c with
  | ModeHeuristic heuristic => HeuristicSearchConfig_validate heuristic ≫= λ _, Ok ()
  | ModeExhaustive => Ok ()
  end.

(** [connector_allowed]: the endpoints are always allowed. *)
Definition connector_allowed_with_tokens (token token_in token_out : Address)
    (tokens : option (gset Address)) : bool :=
  if bool_decide (token = token_in) || bool_decide (token = token_out) then true
  else match tokens with
       | None => true
       | Some tokens => bool_decide (token ∈ tokens)
       end.

Definition connector_allowed (token token_in token_out : Address) (c : SearchConfig) : bool :=
  connector_allowed_with_tokens token token_in token_out (connector_tokens c).

Definition max_candidates_reached (count : nat) (c : SearchConfig) : bool :=
  match max_candidates c with
  | Some max_candidates => max_candidates <=? count
  | None => false
  end.

(** ** [ParallelSearchConfig] *)

Record ParallelSearchConfig := { workers : nat }.

(** [thread::available_parallelism().map_or(1, usize::from)]. *)
Definition ParallelSearchConfig_default (available_parallelism : option nat) : ParallelSearchConfig :=
  {| workers := match available_parallelism with Some n => n | None => 1 end |}.
Definition with_workers (n : nat) (_ : ParallelSearchConfig) : ParallelSearchConfig :=
  {| workers := n |}.
Definition ParallelSearchConfig_validate (c : ParallelSearchConfig) : validated :=
  reject_if (workers c =? 0) "workers must be at least 1" $ Ok ().

(** ** Streaming thresholds *)

Inductive StreamingThresholdMode : Type := All | Any.

Record StreamingThresholdPolicy := {
  threshold_mode : StreamingThresholdMode;
  min_confidence_bps : option Z;
  min_exhaustive_fraction_bps : option Z;
}.

Definition StreamingThresholdPolicy_all : StreamingThresholdPolicy :=
  {| threshold_mode := All; min_confidence_bps := None; min_exhaustive_fraction_bps := None |}.
Definition StreamingThresholdPolicy_any : StreamingThresholdPolicy :=
  {| threshold_mode := Any; min_confidence_bps := None; min_exhaustive_fraction_bps := None |}.

Definition with_min_confidence_bps (bps : Z) (p : StreamingThresholdPolicy) :=
  {| threshold_mode := threshold_mode p; min_confidence_bps := Some bps;
     min_exhaustive_fraction_bps := min_exhaustive_fraction_bps p |}.
Definition with_min_exhaustive_fraction_bps (bps : Z) (p : StreamingThresholdPolicy) :=
  {| threshold_mode := threshold_mode p; min_confidence_bps := min_confidence_bps p;
     min_exhaustive_fraction_bps := Some bps |}.

(** [is_some_and(|bps| !(1..=10_000).contains(&bps))]. *)
Definition bps_out_of_range (o : option Z) : bool :=
  match o with
  | Some bps => negb ((1 <=? bps)%Z && (bps <=? 10000)%Z)
  | None => false
  end.

Definition StreamingThresholdPolicy_validate (p : StreamingThresholdPolicy) : validated :=
  reject_if (bool_decide (min_confidence_bps p = None)
             && bool_decide (min_exhaustive_fraction_bps p = None))
    "streaming threshold policy must configure at least one threshold" $
  reject_if (bps_out_of_range (min_confidence_bps p))
    "streaming confidence threshold must be between 1 and 10000 bps" $
  reject_if (bps_out_of_range (min_exhaustive_fraction_bps p))
    "streaming exhaustive fraction threshold must be between 1 and 10000 bps" $
  Ok ().

Definition policy_with_confidence (p : option StreamingThresholdPolicy) (bps : Z) :=
  with_min_confidence_bps bps (default StreamingThresholdPolicy_all p).
Definition policy_with_exhaustive_fraction (p : option StreamingThresholdPolicy) (bps : Z) :=
  with_min_exhaustive_fraction_bps bps (default StreamingThresholdPolicy_all p).

(** ** [StreamingSearchConfig] *)

Inductive StreamingCompletion : Type :=
  | FastLaneExhausted | HeuristicExhausted | CompletionExhaustive.

#[export] Instance StreamingCompletion_eq_dec : EqDecision StreamingCompletion.
Proof. solve_decision. Defined.

Record StreamingSearchConfig := {
  completion : StreamingCompletion;
  parallel : ParallelSearchConfig;
  emit_all_viable : bool;
  top_k : nat;
  stop_policy : option StreamingThresholdPolicy;
  initial_result_policy : option StreamingThresholdPolicy;
}.

Definition StreamingSearchConfig_default (available : option nat) : StreamingSearchConfig :=
  {| completion := CompletionExhaustive; parallel := ParallelSearchConfig_default available;
     emit_all_viable := false; top_k := 1; stop_policy := None;
     initial_result_policy := None |}.

Definition ss_with_completion (x : StreamingCompletion) (c : StreamingSearchConfig) :=
  let '(Build_StreamingSearchConfig _ p e k s i) := c in
  Build_StreamingSearchConfig x p e k s i.
Definition fast_lane_only := ss_with_completion FastLaneExhausted.
Definition heuristic_only := ss_with_completion HeuristicExhausted.
Definition ss_exhaustive := ss_with_completion CompletionExhaustive.
Definition with_parallel (p : ParallelSearchConfig) (c : StreamingSearchConfig) :=
  let '(Build_StreamingSearchConfig x _ e k s i) := c in
  Build_StreamingSearchConfig x p e k s i.
Definition with_emit_all_viable (e : bool) (c : StreamingSearchConfig) :=
  let '(Build_StreamingSearchConfig x p _ k s i) := c in
  Build_StreamingSearchConfig x p e k s i.
Definition with_top_k (k : nat) (c : StreamingSearchConfig) :=
  let '(Build_StreamingSearchConfig x p e _ s i) := c in
  Build_StreamingSearchConfig x p e k s i.
Definition with_stop_policy (s : StreamingThresholdPolicy) (c : StreamingSearchConfig) :=
  let '(Build_StreamingSearchConfig x p e k _ i) := c in
  Build_StreamingSearchConfig x p e k (Some s) i.
Definition with_initial_result_policy (i : StreamingThresholdPolicy) (c : StreamingSearchConfig) :=
  let '(Build_StreamingSearchConfig x p e k s _) := c in
  Build_StreamingSearchConfig x p e k s (Some i).

Definition stop_at_confidence_bps (bps : Z) (c : StreamingSearchConfig) :=
  with_stop_policy (policy_with_confidence (stop_policy c) bps) c.
Definition stop_at_exhaustive_fraction_bps (bps : Z) (c : StreamingSearchConfig) :=
  with_stop_policy (policy_with_exhaustive_fraction (stop_policy c) bps) c.
Definition both_thresholds (confidence fraction : Z) : StreamingThresholdPolicy :=
  with_min_exhaustive_fraction_bps fraction
    (with_min_confidence_bps confidence StreamingThresholdPolicy_all).
Definition stop_at_confidence_and_exhaustive_fraction_bps (confidence fraction : Z) :=
  with_stop_policy (both_thresholds confidence fraction).
Definition emit_initial_results_at_confidence_bps (bps : Z) (c : StreamingSearchConfig) :=
  with_initial_result_policy (policy_with_confidence (initial_result_policy c) bps) c.
Definition emit_initial_results_at_exhaustive_fraction_bps (bps : Z) (c : StreamingSearchConfig) :=
  with_initial_result_policy (policy_with_exhaustive_fraction (initial_result_policy c) bps) c.
Definition emit_initial_results_at_confidence_and_exhaustive_fraction_bps
    (confidence fraction : Z) :=
  with_initial_result_policy (both_thresholds confidence fraction).

Definition validate_policy (p : option StreamingThresholdPolicy) (rest : validated) : validated :=
  match p with
  | Some policy => StreamingThresholdPolicy_validate policy ≫= λ _, rest
  | None => rest
  end.

Definition StreamingSearchConfig_validate (c : StreamingSearchConfig) : validated :=
  ParallelSearchConfig_validate (parallel c) ≫= λ _,
  reject_if (top_k c =? 0) "streaming top_k must be at least 1" $
  validate_policy (stop_policy c) $
  validate_policy (initial_result_policy c) $
  Ok ().

(** ** What the validations accept *)

Definition fast_lane_ok (c : FastLaneConfig) : Prop :=
  fl_enabled c = true → 1 ≤ fl_direct_edges_per_pair c ∧ 1 ≤ fl_connector_edges_per_pair c.

Definition edge_shortlist_ok (c : AdaptiveEdgeShortlistConfig) : Prop :=
  es_enabled c = true → 1 ≤ es_initial_edges_per_pair c ∧ 1 ≤ es_refinement_edges_per_pair c.

Definition at_least_one (o : option nat) : Prop := ∀ n, o = Some n → 1 ≤ n.

Definition heuristic_ok (c : HeuristicSearchConfig) : Prop :=
  1 ≤ parallel_edge_limit c ∧ 1 ≤ max_finalists c ∧ at_least_one (beam_width c) ∧
  fast_lane_ok (fast_lane c) ∧ edge_shortlist_ok (edge_shortlist c).

Definition search_config_ok (c : SearchConfig) : Prop :=
  1 ≤ min_hops c ≤ max_hops c ∧ at_least_one (max_candidates c) ∧
  ∀ h, mode c = ModeHeuristic h → heuristic_ok h.

Definition bps_ok (o : option Z) : Prop := ∀ b, o = Some b → (1 <= b <= 10000)%Z.

Definition policy_ok (p : StreamingThresholdPolicy) : Prop :=
  (is_Some (min_confidence_bps p) ∨ is_Some (min_exhaustive_fraction_bps p)) ∧
  bps_ok (min_confidence_bps p) ∧ bps_ok (min_exhaustive_fraction_bps p).

Definition streaming_config_ok (c : StreamingSearchConfig) : Prop :=
  1 ≤ workers (parallel c) ∧ 1 ≤ top_k c ∧
  (∀ p, stop_policy c = Some p → policy_ok p) ∧
  (∀ p, initial_result_policy c = Some p → policy_ok p).

Lemma some_zero_ok (o : option nat) : bool_decide (o = Some 0) = false ↔ at_least_one o.
Proof.
  rewrite bool_decide_eq_false. unfold at_least_one. split.
  - intros Ho n ->. destruct n; [done|lia].
  - intros Ho ->. specialize (Ho 0 eq_refl). lia.
Qed.

Lemma fast_lane_validate_Ok c : FastLaneConfig_validate c = Ok () ↔ fast_lane_ok c.
Proof.
  unfold FastLaneConfig_validate, fast_lane_ok. rewrite !reject_if_Ok, !andb_eqb_0. tauto.
Qed.

Lemma edge_shortlist_validate_Ok c :
  AdaptiveEdgeShortlistConfig_validate c = Ok () ↔ edge_shortlist_ok c.
Proof.
  unfold AdaptiveEdgeShortlistConfig_validate, edge_shortlist_ok.
  rewrite !reject_if_Ok, !andb_eqb_0. tauto.
Qed.

Lemma heuristic_validate_Ok c : HeuristicSearchConfig_validate c = Ok () ↔ heuristic_ok c.
Proof.
  unfold HeuristicSearchConfig_validate, heuristic_ok.
  rewrite !reject_if_Ok, !eqb_0, some_zero_ok, !validated_then,
    fast_lane_validate_Ok, edge_shortlist_validate_Ok. tauto.
Qed.

Lemma search_config_validate_Ok c : SearchConfig_validate c = Ok () ↔ search_config_ok c.
Proof.
  unfold SearchConfig_validate, search_config_ok.
  rewrite !reject_if_Ok, eqb_0, some_zero_ok, Nat.ltb_ge.
  destruct (mode c) as [|h]; [naive_solver|].
  rewrite validated_then, heuristic_validate_Ok. naive_solver.
Qed.

Lemma bps_out_of_range_false o : bps_out_of_range o = false ↔ bps_ok o.
Proof.
  unfold bps_ok. destruct o as [b|]; simpl; [|naive_solver].
  rewrite negb_false_iff, andb_true_iff, !Z.leb_le. naive_solver.
Qed.

Lemma policy_validate_Ok p : StreamingThresholdPolicy_validate p = Ok () ↔ policy_ok p.
Proof.
  unfold StreamingThresholdPolicy_validate, policy_ok.
  rewrite !reject_if_Ok, !bps_out_of_range_false, andb_false_iff, !bool_decide_eq_false,
    <- !not_eq_None_Some. tauto.
Qed.

Lemma validate_policy_Ok o rest :
  validate_policy o rest = Ok () ↔ (∀ p, o = Some p → policy_ok p) ∧ rest = Ok ().
Proof.
  destruct o as [p|]; simpl; [|naive_solver].
  rewrite validated_then, policy_validate_Ok. naive_solver.
Qed.

Lemma streaming_validate_Ok c : StreamingSearchConfig_validate c = Ok () ↔ streaming_config_ok c.
Proof.
  unfold StreamingSearchConfig_validate, streaming_config_ok, ParallelSearchConfig_validate.
  rewrite validated_then, !reject_if_Ok, !eqb_0, !validate_policy_Ok. tauto.
Qed.

(** [SearchConfig::validate] succeeds exactly on the configurations a search
    can run with: at least one hop, an ordered hop range, positive limits, and
    in heuristic mode the same for every enabled sub-configuration; the default
    configuration and both heuristic presets are among them. *)
Theorem search_config_validate_correct (c : SearchConfig) :
  (SearchConfig_validate c = Ok () ↔ search_config_ok c) ∧
  SearchConfig_validate SearchConfig_default = Ok () ∧
  SearchConfig_validate (heuristic SearchConfig_default) = Ok () ∧
  SearchConfig_validate (with_mode (ModeHeuristic HeuristicSearchConfig_latency_first)
    SearchConfig_default) = Ok ().
Proof. split_and!; [apply search_config_validate_Ok|reflexivity..]. Qed.

Lemma bps_ok_Some b : bps_ok (Some b) ↔ (1 <= b <= 10000)%Z.
Proof. unfold bps_ok. split; [by intros H; apply H|]. by intros H b' [= <-]. Qed.

Lemma policy_with_confidence_ok o bps :
  (∀ p, o = Some p → policy_ok p) →
  policy_ok (policy_with_confidence o bps) ↔ (1 <= bps <= 10000)%Z.
Proof.
  intros Ho. unfold policy_ok, policy_with_confidence. simpl. rewrite bps_ok_Some.
  assert (bps_ok (min_exhaustive_fraction_bps (default StreamingThresholdPolicy_all o))).
  { destruct o as [p|]; [by apply (Ho p)|]. by intros b [=]. }
  split; [tauto|]. intros Hb. split; [left; eauto|done].
Qed.

Lemma policy_with_exhaustive_fraction_ok o bps :
  (∀ p, o = Some p → policy_ok p) →
  policy_ok (policy_with_exhaustive_fraction o bps) ↔ (1 <= bps <= 10000)%Z.
Proof.
  intros Ho. unfold policy_ok, policy_with_exhaustive_fraction. simpl. rewrite bps_ok_Some.
  assert (bps_ok (min_confidence_bps (default StreamingThresholdPolicy_all o))).
  { destruct o as [p|]; [by apply (Ho p)|]. by intros b [=]. }
  split; [tauto|]. intros Hb. split; [right; eauto|done].
Qed.

(** [StreamingSearchConfig::validate] succeeds exactly when there is a
    worker, a positive [top_k], and every configured policy has a threshold
    and thresholds in [1..=10000]; the builders that set a threshold keep a
    valid configuration valid exactly for thresholds in that range. *)
Theorem streaming_config_validate_correct (c : StreamingSearchConfig) bps :
  (StreamingSearchConfig_validate c = Ok () ↔ streaming_config_ok c) ∧
  (StreamingSearchConfig_validate c = Ok () →
    (StreamingSearchConfig_validate (stop_at_confidence_bps bps c) = Ok () ↔
      (1 <= bps <= 10000)%Z) ∧
    (StreamingSearchConfig_validate (emit_initial_results_at_exhaustive_fraction_bps bps c)
      = Ok () ↔ (1 <= bps <= 10000)%Z)).
Proof.
  split; [apply streaming_validate_Ok|]. rewrite !streaming_validate_Ok.
  destruct c as [x w e k s i]. unfold streaming_config_ok. simpl.
  intros (Hw & Hk & Hs & Hi).
  rewrite <- (policy_with_confidence_ok s bps Hs) at 1.
  rewrite <- (policy_with_exhaustive_fraction_ok i bps Hi).
  split; (split; [intros (_ & _ & H1 & H2); eauto|]);
    intros Hp; split_and!; try done; by intros p [= <-].
Qed.
