(* ===== verification/Liquidity.v ===== *)
(** * The liquidity index ([src/src/liquidity.rs])

    A sidecar of pool-held token balances: one target per tracked pool and
    token, four reverse indexes into the vector of targets and a list of free
    slots.  [self.targets[i]] panics out of range: the operations that index the
    vector return [None] for the panic.  The caches, the provider and the
    registration's token list belong to external crates and are arguments. *)

From S2P Require Import Prelude AmmState Petgraph Graph Config.

Definition BALANCER_CASH_BITS : Z := 112.

Inductive LiquidityIndexScope : Type :=
  | ParallelEdgeOutputs
  | AllDirectedEdgeInputsAndOutputs.

Inductive BalanceState : Type :=
  | BalanceUnknown
  | BalanceStale
  | BalanceFresh (value : U256).

#[export] Instance BalanceState_eq_dec : EqDecision BalanceState.
Proof. solve_decision. Defined.

Definition fresh_of (b : BalanceState) : option U256 :=
  match b with BalanceFresh value => Some value | _ => None end.

Inductive LiquiditySource : Type :=
  | Erc20Balance (holder : Address) (slot : option U256)
  | BalancerV2VaultCash (vault : Address) (slot : U256) (high_field : bool)
  | SourceUnknown.

#[export] Instance LiquiditySource_eq_dec : EqDecision LiquiditySource.
Proof. solve_decision. Defined.

Record PoolLiquidityTarget := {
  lt_token : Address;
  lt_source : LiquiditySource;
  lt_balance : BalanceState;
  lt_active : bool;
}.

(** [storage_slot]. *)
Definition storage_slot (t : PoolLiquidityTarget) : option (Address * U256) :=
  match lt_source t with
  | Erc20Balance _ (Some slot) => Some (lt_token t, slot)
  | BalancerV2VaultCash vault slot _ => Some (vault, slot)
  | Erc20Balance _ None | SourceUnknown => None
  end.

Definition erc20_holder (t : PoolLiquidityTarget) : option Address :=
  match lt_source t with Erc20Balance holder _ => Some holder | _ => None end.

Definition set_lt_balance (b : BalanceState) (t : PoolLiquidityTarget) : PoolLiquidityTarget :=
  {| lt_token := lt_token t; lt_source := lt_source t; lt_balance := b;
     lt_active := lt_active t |}.
Definition set_lt_source (s : LiquiditySource) (t : PoolLiquidityTarget) : PoolLiquidityTarget :=
  {| lt_token := lt_token t; lt_source := s; lt_balance := lt_balance t;
     lt_active := lt_active t |}.
Definition deactivate (t : PoolLiquidityTarget) : PoolLiquidityTarget :=
  {| lt_token := lt_token t; lt_source := lt_source t; lt_balance := lt_balance t;
     lt_active := false |}.

(** [preserve_discovered_source]. *)
Definition preserve_discovered_source (previous desired : LiquiditySource) : LiquiditySource :=
  match previous, desired with
  | Erc20Balance previous_holder (Some _), Erc20Balance desired_holder _ =>
      if decide (previous_holder = desired_holder) then previous else desired
  | _, _ => desired
  end.

(** [remove_reverse_index]: an emptied entry is removed. *)
Definition remove_reverse_index `{Countable K} (key : K) (removed : nat)
    (index : gmap K (list nat)) : gmap K (list nat) :=
  match index !! key with
  | Some indices =>
      let indices := filter (λ i, i ≠ removed) indices in
      if decide (indices = []) then delete key index else <[key := indices]> index
  | None => index
  end.

(** [entry(key).or_default().push(i)]. *)
Definition push_index `{Countable K} (key : K) (i : nat) (index : gmap K (list nat)) :
    gmap K (list nat) :=
  entry_or_default [] (λ indices, indices ++ [i]) key index.

(** [normalize_tokens]: this one does not fail on few tokens. *)
Definition sorted_tokens (tokens : list Address) : list Address :=
  dedup (stable_sort address_le tokens).

Definition decode_balancer_cash (word : U256) (high_field : bool) : U256 :=
  let mask := (Z.shiftl 1 BALANCER_CASH_BITS - 1)%Z in
  if high_field then Z.land (Z.shiftr word BALANCER_CASH_BITS) mask
  else Z.land word mask.

(** ** Transfer logs *)

(** The parts of a log the parser reads; topics are 32-byte words. *)
Record TransferLog := {
  log_address : Address;
  log_topics : list Z;
  log_data : list Z;
}.

Record TokenTransfer := {
  tr_token : Address;
  tr_from : Address;
  tr_to : Address;
  tr_value : U256;
}.

(** [Address::from_word] drops the 12 high bytes; [U256::from_be_slice]. *)
Definition address_from_word (w : Z) : Address := (w mod 2 ^ 160)%Z.
Definition u256_from_be_slice (bytes : list Z) : U256 :=
  foldl (λ acc byte, acc * 256 + byte)%Z 0%Z bytes.

Definition parse_transfer (signature : Z) (log : TransferLog) : option TokenTransfer :=
  match log_topics log with
  | t0 :: t1 :: t2 :: _ =>
      if decide (t0 = signature) then
        if length (log_data log) <? 32 then None
        else Some {| tr_token := log_address log; tr_from := address_from_word t1;
                     tr_to := address_from_word t2;
                     tr_value := u256_from_be_slice (take 32 (log_data log)) |}
      else None
  | _ => None
  end.

Inductive SlotDelta : Type := DeltaAdd (value : U256) | DeltaSub (value : U256).

(** The state updates the index reads or writes. *)
Inductive StateUpdate : Type :=
  | UpdateSlot (address : Address) (slot value : U256)
  | UpdateSlotDelta (address : Address) (slot : U256) (delta : SlotDelta)
  | UpdateOther.

(** What the index reads of the external diff of applied updates. *)
Record StateDiff := {
  diff_skipped : list (Address * U256);
  diff_skipped_masks : nat;
  has_skipped : bool;
}.

(** ** Reports *)

Record PoolLiquidityBuildReport := {
  tracked_balances : nat;
  build_unknown_balances : nat;
}.

Record PoolLiquidityMutationReport := {
  added_targets : nat;
  removed_targets : nat;
  preserved_fresh_targets : nat;
  unknown_targets : nat;
}.
Definition PoolLiquidityMutationReport_default : PoolLiquidityMutationReport :=
  Build_PoolLiquidityMutationReport 0 0 0 0.

Record PoolLiquidityRefreshFailure := { fail_target : Address; fail_reason : string }.

Record PoolLiquidityRefreshReport := {
  storage_reads : nat;
  refreshed_balances : nat;
  unknown_balances : nat;
  stale_balances : nat;
  failures : list PoolLiquidityRefreshFailure;
}.
Definition PoolLiquidityRefreshReport_default : PoolLiquidityRefreshReport :=
  Build_PoolLiquidityRefreshReport 0 0 0 0 [].

Record TransferApplyReport := {
  matched : bool;
  updated_balances : nat;
  transfer_stale_balances : nat;
  cache_updates : nat;
  skipped_cache_updates : nat;
}.
Definition TransferApplyReport_default : TransferApplyReport :=
  Build_TransferApplyReport false 0 0 0 0.

Record TransferEventSource := { es_token : Address; es_holders : list Address }.

Inductive RefreshMode : Type := RefreshAll | RefreshStaleOnly.

Definition mode_includes (m : RefreshMode) (b : BalanceState) : bool :=
  match m with
  | RefreshAll => true
  | RefreshStaleOnly => match b with BalanceStale => true | _ => false end
  end.

(** The fields of the external storage-sync specification and snapshot. *)
Record StorageSyncSpec := { spec_target : Address; spec_slots : list U256 }.
Record StorageSnapshot := { snap_target : Address; snap_entries : list (U256 * U256) }.

Definition add_refreshed (n : nat) (r : PoolLiquidityRefreshReport) :=
  Build_PoolLiquidityRefreshReport (storage_reads r) (refreshed_balances r + n)
    (unknown_balances r) (stale_balances r) (failures r).
Definition add_unknown (n : nat) (r : PoolLiquidityRefreshReport) :=
  Build_PoolLiquidityRefreshReport (storage_reads r) (refreshed_balances r)
    (unknown_balances r + n) (stale_balances r) (failures r).
Definition add_stale (n : nat) (r : PoolLiquidityRefreshReport) :=
  Build_PoolLiquidityRefreshReport (storage_reads r) (refreshed_balances r)
    (unknown_balances r) (stale_balances r + n) (failures r).
Definition add_failure (f : PoolLiquidityRefreshFailure) (r : PoolLiquidityRefreshReport) :=
  Build_PoolLiquidityRefreshReport (storage_reads r) (refreshed_balances r)
    (unknown_balances r) (stale_balances r) (failures r ++ [f]).

Section index.
Context `{!AmmTypes}.

Inductive PoolLiquidityError : Type := UnknownPoolToken (pool : PoolKey) (token : Address).

(** [free_targets]: the top of the stack first. *)
Record PoolLiquidityIndex := {
  targets : list PoolLiquidityTarget;
  by_pool_token : gmap (PoolKey * Address) nat;
  by_token_holder : gmap (Address * Address) (list nat);
  by_storage_slot : gmap (Address * U256) (list nat);
  by_pool : gmap PoolKey (list nat);
  pool_token_counts : gmap PoolKey nat;
  free_targets : list nat;
}.

Definition PoolLiquidityIndex_default : PoolLiquidityIndex :=
  Build_PoolLiquidityIndex [] ∅ ∅ ∅ ∅ ∅ [].

Implicit Types (ix : PoolLiquidityIndex) (i : nat) (pool : PoolKey) (token holder : Address).

Definition set_targets (ts : list PoolLiquidityTarget) ix : PoolLiquidityIndex :=
  Build_PoolLiquidityIndex ts (by_pool_token ix) (by_token_holder ix) (by_storage_slot ix)
    (by_pool ix) (pool_token_counts ix) (free_targets ix).
Definition set_storage_index (m : gmap (Address * U256) (list nat)) ix : PoolLiquidityIndex :=
  Build_PoolLiquidityIndex (targets ix) (by_pool_token ix) (by_token_holder ix) m
    (by_pool ix) (pool_token_counts ix) (free_targets ix).
Definition set_token_counts (m : gmap PoolKey nat) ix : PoolLiquidityIndex :=
  Build_PoolLiquidityIndex (targets ix) (by_pool_token ix) (by_token_holder ix)
    (by_storage_slot ix) (by_pool ix) m (free_targets ix).
Definition set_by_pool (m : gmap PoolKey (list nat)) ix : PoolLiquidityIndex :=
  Build_PoolLiquidityIndex (targets ix) (by_pool_token ix) (by_token_holder ix)
    (by_storage_slot ix) m (pool_token_counts ix) (free_targets ix).

(** [self.targets[i] = f(self.targets[i])]. *)
Definition update_target i (f : PoolLiquidityTarget → PoolLiquidityTarget) ix :
    option PoolLiquidityIndex :=
  t ← targets ix !! i; Some (set_targets (<[i := f t]> (targets ix)) ix).

(** *** Queries *)

Definition index_len ix : nat := size (by_pool_token ix).
Definition index_is_empty ix : bool := bool_decide (by_pool_token ix = ∅).
Definition target_index ix pool token : option nat := by_pool_token ix !! (pool, token).

Definition balance_state ix pool token : BalanceState :=
  match by_pool_token ix !! (pool, token) with
  | Some i => match targets ix !! i with Some t => lt_balance t | None => BalanceUnknown end
  | None => BalanceUnknown
  end.
Definition fresh_balance ix pool token : option U256 := fresh_of (balance_state ix pool token).
Definition is_two_token_pool ix pool : bool :=
  bool_decide (pool_token_counts ix !! pool = Some 2).

(** *** Targets *)

Definition push_target_with_balance ix pool token (source : LiquiditySource)
    (balance : BalanceState) : option PoolLiquidityIndex :=
  let '(i, free) :=
    match free_targets ix with
    | i :: free => (i, free)
    | [] => (length (targets ix), [])
    end in
  let target := {| lt_token := token; lt_source := source; lt_balance := balance;
                   lt_active := true |} in
  let holders :=
    match source with
    | Erc20Balance holder _ => push_index (token, holder) i (by_token_holder ix)
    | _ => by_token_holder ix
    end in
  ts ← (if decide (i = length (targets ix)) then Some (targets ix ++ [target])
        else if decide (i < length (targets ix)) then Some (<[i := target]> (targets ix))
        else None);
  let slots :=
    match storage_slot target with
    | Some key => push_index key i (by_storage_slot ix)
    | None => by_storage_slot ix
    end in
  Some (Build_PoolLiquidityIndex ts (<[(pool, token) := i]> (by_pool_token ix)) holders slots
          (push_index pool i (by_pool ix)) (pool_token_counts ix) free).

Definition push_target ix pool token (source : LiquiditySource) : option PoolLiquidityIndex :=
  push_target_with_balance ix pool token source BalanceUnknown.

(** One index of the loop of [remove_pool_targets]. *)
Definition remove_target pool ix i : PoolLiquidityIndex :=
  match targets ix !! i with
  | None => ix
  | Some t =>
      if lt_active t then
        Build_PoolLiquidityIndex (<[i := deactivate t]> (targets ix))
          (delete (pool, lt_token t) (by_pool_token ix))
          (match erc20_holder t with
           | Some holder => remove_reverse_index (lt_token t, holder) i (by_token_holder ix)
           | None => by_token_holder ix
           end)
          (match storage_slot t with
           | Some key => remove_reverse_index key i (by_storage_slot ix)
           | None => by_storage_slot ix
           end)
          (by_pool ix) (pool_token_counts ix) (i :: free_targets ix)
      else ix
  end.

Definition remove_pool_targets pool ix : PoolLiquidityIndex :=
  let ix' :=
    match by_pool ix !! pool with
    | None => ix
    | Some indices => foldl (remove_target pool) (set_by_pool (delete pool (by_pool ix)) ix) indices
    end in
  set_token_counts (delete pool (pool_token_counts ix')) ix'.

(** *** Single balances *)

Definition set_balance ix pool token (balance : U256) :
    option (result PoolLiquidityError PoolLiquidityIndex) :=
  match target_index ix pool token with
  | None => Some (Err (UnknownPoolToken pool token))
  | Some i => ix ← update_target i (set_lt_balance (BalanceFresh balance)) ix; Some (Ok ix)
  end.

Definition mark_stale ix pool token : option (result PoolLiquidityError PoolLiquidityIndex) :=
  match target_index ix pool token with
  | None => Some (Err (UnknownPoolToken pool token))
  | Some i => ix ← update_target i (set_lt_balance BalanceStale) ix; Some (Ok ix)
  end.

(** One index of the loop of [set_erc20_slot]. *)
Definition set_target_slot token (slot : U256) ix i : option PoolLiquidityIndex :=
  t ← targets ix !! i;
  match lt_source t with
  | Erc20Balance source_holder _ =>
      let ix := set_targets
        (<[i := set_lt_source (Erc20Balance source_holder (Some slot)) t]> (targets ix)) ix in
      let indices := default [] (by_storage_slot ix !! (token, slot)) in
      Some (set_storage_index
        (<[(token, slot) := if decide (i ∈ indices) then indices else indices ++ [i]]>
           (by_storage_slot ix)) ix)
  | _ => Some ix
  end.

Definition set_erc20_slot token holder (slot : U256) ix : option PoolLiquidityIndex :=
  match by_token_holder ix !! (token, holder) with
  | None => Some ix
  | Some indices => try_fold (set_target_slot token slot) indices ix
  end.

(** Also returned: how many targets the slot gained. *)
Definition set_erc20_balance_slot token holder (slot : U256) ix :
    option (nat * PoolLiquidityIndex) :=
  let count ix := length (default [] (by_storage_slot ix !! (token, slot))) in
  ix' ← set_erc20_slot token holder slot ix; Some (count ix' - count ix, ix').

Definition mark_token_holder_unknown_or_stale token holder (stale : bool) ix :
    option (nat * PoolLiquidityIndex) :=
  match by_token_holder ix !! (token, holder) with
  | None => Some (0, ix)
  | Some indices =>
      ix ← try_fold (λ ix i, update_target i
             (set_lt_balance (if stale then BalanceStale else BalanceUnknown)) ix) indices ix;
      Some (length indices, ix)
  end.

(** What a storage word says about a target's balance. *)
Definition source_balance (source : LiquiditySource) (value : U256) : option U256 :=
  match source with
  | Erc20Balance _ _ => Some value
  | BalancerV2VaultCash _ _ high_field => Some (decode_balancer_cash value high_field)
  | SourceUnknown => None
  end.

Definition update_slot_value (address : Address) (slot value : U256) ix :
    option (nat * PoolLiquidityIndex) :=
  match by_storage_slot ix !! (address, slot) with
  | None => Some (0, ix)
  | Some indices =>
      try_fold (λ '(updated, ix) i,
        t ← targets ix !! i;
        match source_balance (lt_source t) value with
        | None => Some (updated, ix)
        | Some balance =>
            ix ← update_target i (set_lt_balance (BalanceFresh balance)) ix;
            Some (S updated, ix)
        end) indices (0, ix)
  end.

Definition mark_storage_spec_stale (spec : StorageSyncSpec) ix :
    option (nat * PoolLiquidityIndex) :=
  try_fold (λ '(stale, ix) slot,
    match by_storage_slot ix !! (spec_target spec, slot) with
    | None => Some (stale, ix)
    | Some indices =>
        ix ← try_fold (λ ix i, update_target i (set_lt_balance BalanceStale) ix) indices ix;
        Some (stale + length indices, ix)
    end) (spec_slots spec) (0, ix).

(** *** Events *)

Section events.
Context (transfer_event_signature : Z) (delta_apply : SlotDelta → U256 → U256)
  (apply_updates : AdapterCache → list StateUpdate → StateDiff * AdapterCache).

(** The updates, the touched targets and the slots already updated. *)
Definition Collected : Type :=
  list StateUpdate * list (nat * Address * U256 * SlotDelta) * gset U256.

(** One index of the loop of [collect_transfer_updates]. *)
Definition collect_target ix token (delta : SlotDelta) (acc : Collected) i : option Collected :=
  let '(updates, touched, pushed_slots) := acc in
  match targets ix !! i with
  | None => None
  | Some t =>
      match lt_source t with
      | Erc20Balance _ (Some slot) =>
          let touched := touched ++ [(i, token, slot, delta)] in
          if decide (slot ∈ pushed_slots) then Some (updates, touched, pushed_slots)
          else Some (updates ++ [UpdateSlotDelta token slot delta], touched,
                     {[slot]} ∪ pushed_slots)
      | _ => Some acc
      end
  end.

(** [collect_transfer_updates]: the updates of a holder's slots, one per slot,
    and every target they touch.  [self.targets[i]] may panic. *)
Definition collect_transfer_updates ix token holder (delta : SlotDelta)
    (acc : list StateUpdate * list (nat * Address * U256 * SlotDelta)) :
    option (list StateUpdate * list (nat * Address * U256 * SlotDelta)) :=
  if decide (holder = 0%Z) then Some acc
  else
    match by_token_holder ix !! (token, holder) with
    | None => Some acc
    | Some indices =>
        fst <$> try_fold (collect_target ix token delta) indices (acc, ∅)
    end.

(** One touched target: stale when its slot was skipped or its balance is not
    fresh, else moved by the delta.  The counters are updated and stale. *)
Definition apply_touched (skipped : list (Address * U256))
    (acc : nat * nat * PoolLiquidityIndex) (touch : nat * Address * U256 * SlotDelta) :
    option (nat * nat * PoolLiquidityIndex) :=
  let '(updated, stale, ix) := acc in
  let '(i, address, slot, delta) := touch in
  if decide ((address, slot) ∈ skipped) then
    ix ← update_target i (set_lt_balance BalanceStale) ix; Some (updated, S stale, ix)
  else
    t ← targets ix !! i;
    match fresh_of (lt_balance t) with
    | Some current =>
        ix ← update_target i (set_lt_balance (BalanceFresh (delta_apply delta current))) ix;
        Some (S updated, stale, ix)
    | None =>
        ix ← update_target i (set_lt_balance BalanceStale) ix; Some (updated, S stale, ix)
    end.

Definition apply_transfer_log (cache : AdapterCache) (log : TransferLog) ix :
    option (TransferApplyReport * AdapterCache * PoolLiquidityIndex) :=
  match parse_transfer transfer_event_signature log with
  | None => Some (TransferApplyReport_default, cache, ix)
  | Some transfer =>
      acc ← collect_transfer_updates ix (tr_token transfer) (tr_from transfer)
              (DeltaSub (tr_value transfer)) ([], []);
      '(updates, touched) ← collect_transfer_updates ix (tr_token transfer) (tr_to transfer)
              (DeltaAdd (tr_value transfer)) acc;
      if decide (length updates = 0) then Some (TransferApplyReport_default, cache, ix)
      else
        let '(diff, cache) := apply_updates cache updates in
        let skipped := if has_skipped diff then diff_skipped diff else [] in
        '(updated, stale, ix) ← try_fold (apply_touched skipped) touched (0, 0, ix);
        Some ({| matched := true; updated_balances := updated;
                 transfer_stale_balances := stale; cache_updates := length updates;
                 skipped_cache_updates :=
                   length (diff_skipped diff) + diff_skipped_masks diff |}, cache, ix)
  end.

Definition mark_holder_stale token (acc : nat * PoolLiquidityIndex) holder :
    option (nat * PoolLiquidityIndex) :=
  let '(stale, ix) := acc in
  if decide (holder = 0%Z) then Some (stale, ix)
  else
    match by_token_holder ix !! (token, holder) with
    | None => Some (stale, ix)
    | Some indices =>
        ix ← try_fold (λ ix i, update_target i (set_lt_balance BalanceStale) ix) indices ix;
        Some (stale + length indices, ix)
    end.

Definition mark_transfer_log_stale (log : TransferLog) ix :
    option (TransferApplyReport * PoolLiquidityIndex) :=
  match parse_transfer transfer_event_signature log with
  | None => Some (TransferApplyReport_default, ix)
  | Some transfer =>
      '(stale, ix) ← try_fold (mark_holder_stale (tr_token transfer))
                       [tr_from transfer; tr_to transfer] (0, ix);
      Some ({| matched := true; updated_balances := 0; transfer_stale_balances := stale;
               cache_updates := 0; skipped_cache_updates := 0 |}, ix)
  end.
End events.

Definition apply_storage_updates (updates : list StateUpdate) ix :
    option (nat * PoolLiquidityIndex) :=
  try_fold (λ '(updated, ix) update,
    match update with
    | UpdateSlot address slot value =>
        '(n, ix) ← update_slot_value address slot value ix; Some (updated + n, ix)
    | _ => Some (updated, ix)
    end) updates (0, ix).

(** *** Subscriptions *)

Definition address_lt_sort : list Address → list Address := stable_sort address_le.

(** The holders of every ERC-20 token with an active target. *)
Definition holders_by_token (keep : PoolLiquidityTarget → bool) ix : gmap Address (gset Address) :=
  foldl (λ m t,
    if lt_active t && keep t then
      match erc20_holder t with
      | Some holder => entry_or_default ∅ (λ holders, {[holder]} ∪ holders) (lt_token t) m
      | None => m
      end
    else m) ∅ (targets ix).

Definition transfer_event_sources ix : list TransferEventSource :=
  stable_sort (λ x y, address_le (es_token x) (es_token y))
    ((λ '(token, holders),
        {| es_token := token; es_holders := address_lt_sort (elements holders) |})
     <$> map_to_list (holders_by_token (λ _, true) ix)).

(** *** Refreshing *)

(** [refresh_from_snapshot] on one target. *)
Definition refresh_target (storage_value : Address → U256 → option U256)
    (t : PoolLiquidityTarget) (r : PoolLiquidityRefreshReport) :
    PoolLiquidityTarget * PoolLiquidityRefreshReport :=
  if negb (lt_active t) then (t, r)
  else
    match storage_slot t with
    | None => (set_lt_balance BalanceUnknown t, add_unknown 1 r)
    | Some (address, slot) =>
        match storage_value address slot with
        | None => (set_lt_balance BalanceUnknown t, add_unknown 1 r)
        | Some value =>
            match source_balance (lt_source t) value with
            | None => (t, add_unknown 1 r)
            | Some balance => (set_lt_balance (BalanceFresh balance) t, add_refreshed 1 r)
            end
        end
    end.

Fixpoint refresh_targets (storage_value : Address → U256 → option U256)
    (ts : list PoolLiquidityTarget) (r : PoolLiquidityRefreshReport) :
    list PoolLiquidityTarget * PoolLiquidityRefreshReport :=
  match ts with
  | [] => ([], r)
  | t :: ts =>
      let '(t, r) := refresh_target storage_value t r in
      let '(ts, r) := refresh_targets storage_value ts r in
      (t :: ts, r)
  end.

Definition refresh_from_snapshot (storage_value : Address → U256 → option U256) ix :
    PoolLiquidityRefreshReport * PoolLiquidityIndex :=
  let '(ts, r) := refresh_targets storage_value (targets ix) PoolLiquidityRefreshReport_default in
  (r, set_targets ts ix).

(** [refresh] reads through the provider.  [Cache] is the EVM cache;
    [track_erc20_balances] discovers the balance slots of holders;
    [run_storage_syncs] reads the words of the specifications, one answer
    each; [iter_tokens] and [iter_slots] are the iteration orders of the two
    hash maps. *)
Section refresh.
Context {Cache : Type}
  (track_erc20_balances : Cache → Address → list Address →
     result string (option (list (Address * U256))) * Cache)
  (run_storage_syncs : list StorageSyncSpec → list (result string StorageSnapshot))
  (inject_fresh : StorageSnapshot → Cache → Cache)
  (iter_tokens : gmap Address (gset Address) → list (Address * gset Address))
  (iter_slots : gmap Address (list U256) → list (Address * list U256)).

Definition RefreshState : Type := PoolLiquidityRefreshReport * Cache * PoolLiquidityIndex.

Definition undiscovered (t : PoolLiquidityTarget) : bool :=
  match lt_source t with Erc20Balance _ None => true | _ => false end.

(** The holders of one token left without a slot. *)
Definition mark_holders token (stale : bool) (holders : list Address) (st : RefreshState) :
    option RefreshState :=
  try_fold (λ '(r, cache, ix) holder,
    '(n, ix) ← mark_token_holder_unknown_or_stale token holder stale ix;
    Some (if stale then add_stale n r else add_unknown n r, cache, ix)) holders st.

Definition discover_token (st : RefreshState) (entry : Address * gset Address) :
    option RefreshState :=
  let '(r, cache, ix) := st in
  let '(token, holders) := entry in
  let holders := elements holders in
  match track_erc20_balances cache token holders with
  | (Ok (Some pairs), cache) =>
      ix ← try_fold (λ ix '(holder, slot), set_erc20_slot token holder slot ix) pairs ix;
      Some (r, cache, ix)
  | (Ok None, cache) => mark_holders token false holders (r, cache, ix)
  | (Err error, cache) =>
      '(r, cache, ix) ← mark_holders token true holders (r, cache, ix);
      Some (add_failure {| fail_target := token; fail_reason := error |} r, cache, ix)
  end.

Definition discover_erc20_slots (mode : RefreshMode) (st : RefreshState) : option RefreshState :=
  let '(_, _, ix) := st in
  try_fold discover_token
    (iter_tokens (holders_by_token (λ t, mode_includes mode (lt_balance t) && undiscovered t) ix))
    st.

(** The slots to read per contract, and the targets without one. *)
Definition collect_slots (mode : RefreshMode)
    (acc : gmap Address (list U256) * PoolLiquidityRefreshReport) (t : PoolLiquidityTarget) :=
  let '(m, r) := acc in
  if lt_active t && mode_includes mode (lt_balance t) then
    match storage_slot t with
    | Some (address, slot) => (entry_or_default [] (λ slots, slots ++ [slot]) address m, r)
    | None =>
        (m, match lt_balance t with BalanceUnknown => add_unknown 1 r | _ => r end)
    end
  else acc.

Definition storage_specs (m : gmap Address (list U256)) : list StorageSyncSpec :=
  stable_sort (λ x y, address_le (spec_target x) (spec_target y))
    (filter (λ spec, spec_slots spec ≠ [])
       ((λ '(target, slots),
           {| spec_target := target; spec_slots := dedup (stable_sort address_le slots) |})
        <$> iter_slots m)).

Definition apply_sync (st : RefreshState)
    (answer : StorageSyncSpec * result string StorageSnapshot) : option RefreshState :=
  let '(r, cache, ix) := st in
  match answer with
  | (_, Ok snapshot) =>
      '(r, ix) ← try_fold (λ '(r, ix) '(slot, value),
          '(n, ix) ← update_slot_value (snap_target snapshot) slot value ix;
          Some (add_refreshed n r, ix)) (snap_entries snapshot) (r, ix);
      Some (r, inject_fresh snapshot cache, ix)
  | (spec, Err error) =>
      '(n, ix) ← mark_storage_spec_stale spec ix;
      Some (add_failure {| fail_target := spec_target spec; fail_reason := error |}
              (add_stale n r), cache, ix)
  end.

Definition refresh (mode : RefreshMode) (cache : Cache) ix : option RefreshState :=
  '(r, cache, ix) ← discover_erc20_slots mode (PoolLiquidityRefreshReport_default, cache, ix);
  let '(slots_by_target, r) := foldl (collect_slots mode) (∅, r) (targets ix) in
  let specs := storage_specs slots_by_target in
  let r := Build_PoolLiquidityRefreshReport (foldr Nat.add 0 ((length ∘ spec_slots) <$> specs))
             (refreshed_balances r) (unknown_balances r) (stale_balances r) (failures r) in
  if decide (specs = []) then Some (r, cache, ix)
  else try_fold apply_sync (zip specs (run_storage_syncs specs)) (r, cache, ix).

Definition refresh_all := refresh RefreshAll.
Definition refresh_stale := refresh RefreshStaleOnly.
End refresh.

(** ** What to track *)

(** [registration.tokens()] belongs to the adapter crate. *)
Section build.
Context `{!Petgraph Address EdgeData} (registration_tokens : PoolRegistration → option (list Address)).

(** The token pair and the pool of an edge reference. *)
Definition edge_tokens (g : AmmGraph) (e : EdgeIndex) : option (Address * Address * PoolKey) :=
  '(a, b, w) ← pg_edge (graph g) e;
  token_in ← node_token g a;
  token_out ← node_token g b;
  Some (token_in, token_out, ed_pool w).

Definition parallel_output_tokens_by_pool (g : AmmGraph) : gmap PoolKey (gset Address) :=
  let groups := foldl (λ m '(token_in, token_out, pool),
      entry_or_default [] (λ pools, pools ++ [pool]) (token_in, token_out) m)
    (∅ : gmap (Address * Address) (list PoolKey))
    (omap (edge_tokens g) (pg_edge_indices (graph g))) in
  foldl (λ m '((_, token_out), pools),
    if length pools <? PARALLEL_EDGE_THRESHOLD then m
    else foldl (λ m pool, entry_or_default ∅ (λ ts, {[token_out]} ∪ ts) pool m) m pools)
    ∅ (map_to_list groups).

Definition all_directed_edge_tokens_by_pool (g : AmmGraph) : gmap PoolKey (gset Address) :=
  foldl (λ m '(token_in, token_out, pool),
    entry_or_default ∅ (λ ts, {[token_in; token_out]} ∪ ts) pool m)
    ∅ (omap (edge_tokens g) (pg_edge_indices (graph g))).

Definition tracked_tokens_by_pool (g : AmmGraph) (scope : LiquidityIndexScope) :
    gmap PoolKey (gset Address) :=
  match scope with
  | ParallelEdgeOutputs => parallel_output_tokens_by_pool g
  | AllDirectedEdgeInputsAndOutputs => all_directed_edge_tokens_by_pool g
  end.

(** [iter().map(|cash| (cash.token, *cash)).collect()]: the last one wins. *)
Definition token_cash_map (l : list BalancerCash) : gmap Address BalancerCash :=
  foldl (λ m cash, <[cash_token cash := cash]> m) ∅ l.

(** [metadata.vault.zip(token_cash.get(&token))]. *)
Definition balancer_source (vault : option Address) (cash : list BalancerCash) token :
    LiquiditySource :=
  match vault, token_cash_map cash !! token with
  | Some vault, Some c => BalancerV2VaultCash vault (cash_slot c) (cash_high_field c)
  | _, _ => SourceUnknown
  end.

Definition erc20_source pool : LiquiditySource :=
  match pool_address pool with
  | Some holder => Erc20Balance holder None
  | None => SourceUnknown
  end.

(** The source of a token's balance by the kind of metadata; [None] for the
    kinds without tracked balances. *)
Definition metadata_source (r : PoolRegistration) : option (Address → LiquiditySource) :=
  match reg_metadata r with
  | ProtocolMetadata.UniswapV2 _ _ _ | ProtocolMetadata.UniswapV3 _ _ _
  | ProtocolMetadata.PancakeV3 _ _ _ | ProtocolMetadata.Slipstream _ _ _
  | ProtocolMetadata.SolidlyV2 _ _ | ProtocolMetadata.Curve _ _ =>
      Some (λ _, erc20_source (reg_key r))
  | ProtocolMetadata.BalancerV2 _ vault cash => Some (balancer_source vault cash)
  | ProtocolMetadata.Unknown | ProtocolMetadata.Custom _ => None
  end.

Definition desired_targets (r : PoolRegistration) (needed : gset Address) :
    list (Address * LiquiditySource) :=
  match registration_tokens r with
  | None => []
  | Some tokens =>
      match metadata_source r with
      | Some source =>
          (λ token, (token, source token)) <$>
            filter (λ token, token ∈ needed) (sorted_tokens tokens)
      | None => []
      end
  end.

(** ** Building *)

Definition count_unknown (source : LiquiditySource) : nat :=
  match source with SourceUnknown => 1 | _ => 0 end.

(** One pool of the loop of [from_registry_with_scope]. *)
Definition index_registration (tracked : gmap PoolKey (gset Address))
    (acc : nat * PoolLiquidityIndex) (r : PoolRegistration) : option (nat * PoolLiquidityIndex) :=
  let '(unknown, ix) := acc in
  match tracked !! reg_key r, registration_tokens r with
  | Some needed, Some tokens =>
      let tokens := sorted_tokens tokens in
      if length tokens <? 2 then Some acc
      else
        let ix := set_token_counts (<[reg_key r := length tokens]> (pool_token_counts ix)) ix in
        match metadata_source r with
        | None => Some (unknown, ix)
        | Some source =>
            try_fold (λ '(unknown, ix) token,
              ix ← push_target ix (reg_key r) token (source token);
              Some (unknown + count_unknown (source token), ix))
              (filter (λ token, token ∈ needed) tokens) (unknown, ix)
        end
  | _, _ => Some acc
  end.

Definition registration_order (x y : PoolRegistration) : bool :=
  String.leb (pool_debug (reg_key x)) (pool_debug (reg_key y)).

Definition from_registry_with_scope (registry : AdapterRegistry) (g : AmmGraph)
    (scope : LiquidityIndexScope) : option (PoolLiquidityIndex * PoolLiquidityBuildReport) :=
  '(unknown, ix) ← try_fold (index_registration (tracked_tokens_by_pool g scope))
    (stable_sort registration_order (registry_pools registry)) (0, PoolLiquidityIndex_default);
  Some (ix, {| tracked_balances := size (by_pool_token ix);
               build_unknown_balances := unknown |}).

Definition liquidity_from_registry (registry : AdapterRegistry) (g : AmmGraph) :=
  from_registry_with_scope registry g ParallelEdgeOutputs.

(** ** Reconciling *)

(** The active targets of a pool, by token. *)
Definition previous_targets ix pool : gmap Address (LiquiditySource * BalanceState) :=
  foldl (λ m i,
    match targets ix !! i with
    | Some t => if lt_active t then <[lt_token t := (lt_source t, lt_balance t)]> m else m
    | None => m
    end) ∅ (default [] (by_pool ix !! pool)).

Definition desired_for (registry : AdapterRegistry) (needed : gset Address)
    (previous : gmap Address (LiquiditySource * BalanceState)) pool :
    list (Address * LiquiditySource) :=
  match registry_pool registry pool with
  | Some r =>
      if decide (needed = ∅) then []
      else
        (λ '(token, source),
           (token, match previous !! token with
                   | Some (previous_source, _) => preserve_discovered_source previous_source source
                   | None => source
                   end)) <$> desired_targets r needed
  | None => []
  end.

(** One desired target against the previous ones; also the tokens matched. *)
Definition count_desired (previous : gmap Address (LiquiditySource * BalanceState))
    (acc : PoolLiquidityMutationReport * gset Address) (d : Address * LiquiditySource) :
    PoolLiquidityMutationReport * gset Address :=
  let '(Build_PoolLiquidityMutationReport added removed preserved unknown, matched) := acc in
  let '(token, source) := d in
  let unknown := unknown + count_unknown source in
  match previous !! token with
  | Some (previous_source, balance) =>
      if decide (previous_source = source) then
        match balance with
        | BalanceFresh _ =>
            (Build_PoolLiquidityMutationReport added removed (S preserved) unknown,
             {[token]} ∪ matched)
        | _ => (Build_PoolLiquidityMutationReport added removed preserved unknown,
                {[token]} ∪ matched)
        end
      else (Build_PoolLiquidityMutationReport (S added) (S removed) preserved unknown, matched)
  | None => (Build_PoolLiquidityMutationReport (S added) removed preserved unknown, matched)
  end.

Definition reconcile_report (previous : gmap Address (LiquiditySource * BalanceState))
    (desired : list (Address * LiquiditySource)) (report : PoolLiquidityMutationReport) :
    PoolLiquidityMutationReport :=
  let '(report, matched) := foldl (count_desired previous) (report, ∅) desired in
  let gone := filter (λ token, token ∉ matched ∧ token ∉ desired.*1)
                ((map_to_list previous).*1) in
  Build_PoolLiquidityMutationReport (added_targets report) (removed_targets report + length gone)
    (preserved_fresh_targets report) (unknown_targets report).

(** The new targets of a pool: an unchanged source keeps its balance. *)
Definition push_desired (previous : gmap Address (LiquiditySource * BalanceState)) pool ix
    (d : Address * LiquiditySource) : option PoolLiquidityIndex :=
  let '(token, source) := d in
  push_target_with_balance ix pool token source
    (match previous !! token with
     | Some (previous_source, balance) =>
         if decide (previous_source = source) then balance else BalanceUnknown
     | None => BalanceUnknown
     end).

(** The token count a registered pool with targets gets. *)
Definition desired_count (registry : AdapterRegistry)
    (desired : list (Address * LiquiditySource)) pool : option nat :=
  match registry_pool registry pool with
  | Some r =>
      let count := match registration_tokens r with
                   | Some tokens => length (sorted_tokens tokens)
                   | None => 0
                   end in
      if (2 <=? count) && bool_decide (desired ≠ []) then Some count else None
  | None => None
  end.

Definition reconcile_pool (registry : AdapterRegistry) (g : AmmGraph)
    (scope : LiquidityIndexScope) (acc : PoolLiquidityMutationReport * PoolLiquidityIndex) pool :
    option (PoolLiquidityMutationReport * PoolLiquidityIndex) :=
  let '(report, ix) := acc in
  let previous := previous_targets ix pool in
  let needed := tracked_tokens_for_pool g pool
    (match scope with ParallelEdgeOutputs => true | _ => false end) in
  let desired := desired_for registry needed previous pool in
  let ix := remove_pool_targets pool ix in
  let ix := match desired_count registry desired pool with
            | Some count => set_token_counts (<[pool := count]> (pool_token_counts ix)) ix
            | None => ix
            end in
  ix ← try_fold (push_desired previous pool) desired ix;
  Some (reconcile_report previous desired report, ix).

Definition reconcile_pools (registry : AdapterRegistry) (g : AmmGraph)
    (scope : LiquidityIndexScope) (pools : list PoolKey) ix :
    option (PoolLiquidityMutationReport * PoolLiquidityIndex) :=
  let pools := dedup (stable_sort (λ p q, String.leb (pool_debug p) (pool_debug q)) pools) in
  try_fold (reconcile_pool registry g scope) pools (PoolLiquidityMutationReport_default, ix).
End build.
End index.
