(* ===== verification/LiquidityProps.v ===== *)
(** * The representation invariant of the liquidity index

    [index_wf]: the four reverse indexes list exactly the live targets, every
    live target belongs to one pool, and the free list holds exactly the other
    slots.  [layout token holder] is the storage slot of a holder's balance in
    an ERC-20 contract, which is what slot discovery finds; it does not change. *)

From S2P Require Import Prelude AmmState Petgraph Graph Config Liquidity.

(** Reverse indexes: lists of positions by key. *)
Section reverse.
Context `{Countable K}.
Implicit Types (m : gmap K (list nat)) (k : K) (i j : nat).

Definition listed m k : list nat := default [] (m !! k).

Lemma listed_empty k : listed ∅ k = [].
Proof. unfold listed. by rewrite lookup_empty. Qed.

Lemma listed_push m k k' i :
  listed (push_index k i m) k' = if decide (k = k') then listed m k' ++ [i] else listed m k'.
Proof. unfold listed, push_index. by rewrite default_entry. Qed.

Lemma listed_remove m k k' i :
  listed (remove_reverse_index k i m) k' =
  if decide (k = k') then filter (λ j, j ≠ i) (listed m k') else listed m k'.
Proof.
  unfold listed, remove_reverse_index. destruct (m !! k) as [is'|] eqn:Hk.
  - case_decide as Hnil; case_decide as Hkk; subst.
    + by rewrite lookup_delete_eq, Hk.
    + by rewrite lookup_delete_ne.
    + by rewrite lookup_insert_eq, Hk.
    + by rewrite lookup_insert_ne.
  - case_decide; subst; [by rewrite Hk|done].
Qed.

Lemma elem_of_listed_push m k k' i j :
  j ∈ listed (push_index k i m) k' ↔ (k = k' ∧ j = i) ∨ j ∈ listed m k'.
Proof. rewrite listed_push. case_decide; set_solver. Qed.

Lemma elem_of_listed_remove m k k' i j :
  j ∈ listed (remove_reverse_index k i m) k' ↔ j ∈ listed m k' ∧ (k = k' → j ≠ i).
Proof.
  rewrite listed_remove. case_decide; [rewrite list_elem_of_filter|]; naive_solver.
Qed.

Lemma NoDup_listed_push m k k' i :
  NoDup (listed m k') → (k = k' → i ∉ listed m k') → NoDup (listed (push_index k i m) k').
Proof.
  intros Hn Hi. rewrite listed_push. case_decide; [|done].
  apply NoDup_app. split_and!; [done| |apply NoDup_singleton]. set_solver.
Qed.

Lemma NoDup_listed_remove m k k' i :
  NoDup (listed m k') → NoDup (listed (remove_reverse_index k i m) k').
Proof. intros Hn. rewrite listed_remove. case_decide; [by apply NoDup_filter|done]. Qed.

Lemma listed_delete m k k' : listed (delete k m) k' = if decide (k = k') then [] else listed m k'.
Proof.
  unfold listed. case_decide; subst; [by rewrite lookup_delete_eq|by rewrite lookup_delete_ne].
Qed.
End reverse.

(** Applying an idempotent function at the positions of a list. *)
Lemma decide_cons_idem {A} (f : A → A) (i j : nat) (l : list nat) (o : option A) :
  (∀ a, f (f a) = f a) →
  (if decide (j ∈ l) then f <$> (if decide (j = i) then f <$> o else o)
   else if decide (j = i) then f <$> o else o) =
  if decide (j ∈ i :: l) then f <$> o else o.
Proof.
  intros Hf. destruct (decide (j ∈ i :: l)) as [Hj|Hj]; rewrite elem_of_cons in Hj;
    destruct (decide (j = i)) as [He|He], (decide (j ∈ l)) as [Hl|Hl]; try done; try tauto.
  destruct o; simpl; [by rewrite Hf|done].
Qed.

(** The storage of the chain, by contract and slot. *)
Abbreviation Storage := (Address → U256 → U256) (only parsing).

Section inv.
Context `{!AmmTypes} (layout : Address → Address → U256).
Implicit Types (ix : PoolLiquidityIndex) (i j : nat) (pool : PoolKey) (token holder : Address)
  (source : LiquiditySource) (t : PoolLiquidityTarget).

Definition source_slot token source : option (Address * U256) :=
  match source with
  | Erc20Balance _ (Some slot) => Some (token, slot)
  | BalancerV2VaultCash vault slot _ => Some (vault, slot)
  | _ => None
  end.

Lemma storage_slot_source t : storage_slot t = source_slot (lt_token t) (lt_source t).
Proof. unfold storage_slot. by destruct (lt_source t) as [? []| |]. Qed.

(** A live target at a position of the vector. *)
Definition live (ts : list PoolLiquidityTarget) i token source : Prop :=
  ∃ t, ts !! i = Some t ∧ lt_active t = true ∧ lt_token t = token ∧ lt_source t = source.

Record index_wf ix : Prop := {
  wf_pool_nodup p : NoDup (listed (by_pool ix) p);
  wf_pool_live p i : i ∈ listed (by_pool ix) p → ∃ tk s, live (targets ix) i tk s;
  wf_live_pool i tk s : live (targets ix) i tk s → ∃ p, i ∈ listed (by_pool ix) p;
  wf_pool_disjoint p q i : i ∈ listed (by_pool ix) p → i ∈ listed (by_pool ix) q → p = q;
  wf_pool_token p tk i :
    by_pool_token ix !! (p, tk) = Some i ↔
    i ∈ listed (by_pool ix) p ∧ ∃ s, live (targets ix) i tk s;
  wf_holders k i :
    i ∈ listed (by_token_holder ix) k ↔ ∃ slot, live (targets ix) i k.1 (Erc20Balance k.2 slot);
  wf_holders_nodup k : NoDup (listed (by_token_holder ix) k);
  wf_storage k i :
    i ∈ listed (by_storage_slot ix) k ↔
    ∃ tk s, live (targets ix) i tk s ∧ source_slot tk s = Some k;
  wf_storage_nodup k : NoDup (listed (by_storage_slot ix) k);
  wf_free_nodup : NoDup (free_targets ix);
  wf_free i : i ∈ free_targets ix ↔
    i < length (targets ix) ∧ ∀ tk s, ¬ live (targets ix) i tk s;
  wf_layout i tk h s : live (targets ix) i tk (Erc20Balance h (Some s)) → s = layout tk h;
}.

Lemma live_lt ts i tk s : live ts i tk s → i < length ts.
Proof. intros (t & Ht & _). by eapply lookup_lt_Some. Qed.

Lemma live_fun ts i tk s tk' s' : live ts i tk s → live ts i tk' s' → tk = tk' ∧ s = s'.
Proof. intros (t & ? & ? & ? & ?) (t' & ? & ? & ? & ?). naive_solver. Qed.

Lemma index_wf_default : index_wf PoolLiquidityIndex_default.
Proof.
  assert (∀ i tk s, ¬ live [] i tk s) as Hno by (intros i tk s (t & Ht & _); by rewrite lookup_nil in Ht).
  assert (∀ (A : Type) (x : A), x ∉ []) as Hnil by (intros A x; apply not_elem_of_nil).
  constructor; simpl; intros; rewrite ?listed_empty, ?lookup_empty in *; simpl in *.
  all: try apply NoDup_nil_2; try naive_solver lia.
Qed.

(** ** Only tokens, sources and activity matter *)

Definition same_live (ts ts' : list PoolLiquidityTarget) : Prop :=
  length ts = length ts' ∧ ∀ i tk s, live ts i tk s ↔ live ts' i tk s.

#[export] Instance same_live_equiv : Equivalence same_live.
Proof.
  split; unfold same_live.
  - done.
  - intros ts ts' [? ?]. split; [done|]. naive_solver.
  - intros ts1 ts2 ts3 [? ?] [? ?]. split; [congruence|]. naive_solver.
Qed.

Lemma set_targets_wf ts ix : same_live (targets ix) ts → index_wf ix → index_wf (set_targets ts ix).
Proof.
  intros [Hlen Hlive] [H1 H2 H3 H4 H5 H6 H7 H8 H9 H10 H11 H12].
  constructor; simpl; repeat setoid_rewrite <-Hlive; try rewrite <-Hlen; done.
Qed.

Lemma set_token_counts_wf m ix : index_wf ix → index_wf (set_token_counts m ix).
Proof. intros []. by constructor. Qed.

Lemma same_live_balance ts i t b :
  ts !! i = Some t → same_live ts (<[i := set_lt_balance b t]> ts).
Proof.
  intros Hi. split; [by rewrite length_insert|]. intros j tk s. unfold live.
  destruct (decide (j = i)) as [->|]; [|by rewrite list_lookup_insert_ne].
  rewrite list_lookup_insert_eq by (by eapply lookup_lt_Some).
  rewrite Hi. split; intros (t' & [= <-] & ?); eexists; by split.
Qed.

(** ** The abstract view: source and balance per pool and token *)

Definition view ix (k : PoolKey * Address) : option (LiquiditySource * BalanceState) :=
  i ← by_pool_token ix !! k; t ← targets ix !! i; Some (lt_source t, lt_balance t).

Lemma view_Some ix p tk s b :
  index_wf ix →
  view ix (p, tk) = Some (s, b) ↔
  ∃ i, i ∈ listed (by_pool ix) p ∧
    targets ix !! i = Some {| lt_token := tk; lt_source := s; lt_balance := b; lt_active := true |}.
Proof.
  intros Hwf. unfold view. split.
  - destruct (by_pool_token ix !! (p, tk)) as [i|] eqn:Hi; [|done]. simpl.
    apply (wf_pool_token _ Hwf) in Hi as (Hp & s' & t & Ht & Ha & Htk & Hs). rewrite Ht. simpl.
    intros [= <- <-]. exists i. split; [done|]. rewrite Ht. f_equal. destruct t. simpl in *. by subst.
  - intros (i & Hp & Ht).
    assert (by_pool_token ix !! (p, tk) = Some i) as ->.
    { apply (wf_pool_token _ Hwf). split; [done|]. exists s. eexists. by split. }
    simpl. by rewrite Ht.
Qed.

Lemma balance_state_view ix p tk :
  balance_state ix p tk = match view ix (p, tk) with Some (_, b) => b | None => BalanceUnknown end.
Proof.
  unfold balance_state, view. destruct (by_pool_token ix !! (p, tk)) as [i|]; [|done]. simpl.
  by destruct (targets ix !! i).
Qed.

(** ** Pushing a target *)

Definition place (ts : list PoolLiquidityTarget) i t : list PoolLiquidityTarget :=
  if decide (i = length ts) then ts ++ [t] else <[i := t]> ts.

Lemma lookup_place_eq ts i t : i ≤ length ts → place ts i t !! i = Some t.
Proof.
  intros Hi. unfold place. case_decide as Hl; [subst; by rewrite lookup_app_r, Nat.sub_diag by lia|].
  apply list_lookup_insert_eq. lia.
Qed.

Lemma lookup_place_ne ts i j t : i ≤ length ts → j ≠ i → place ts i t !! j = ts !! j.
Proof.
  intros Hi Hj. unfold place. case_decide as Hl; [|by apply list_lookup_insert_ne].
  subst. destruct (decide (j < length ts)); [by apply lookup_app_l|].
  rewrite lookup_ge_None_2 by (rewrite length_app; simpl; lia).
  symmetry. apply lookup_ge_None_2. lia.
Qed.

Lemma length_place ts i t :
  i ≤ length ts → length (place ts i t) = if decide (i = length ts) then S (length ts) else length ts.
Proof.
  intros Hi. unfold place. case_decide; [rewrite length_app; simpl; lia|by rewrite length_insert].
Qed.

Lemma live_place ts i t j tk s :
  i ≤ length ts → lt_active t = true →
  live (place ts i t) j tk s ↔
  (j = i ∧ tk = lt_token t ∧ s = lt_source t) ∨ (j ≠ i ∧ live ts j tk s).
Proof.
  intros Hi Ha. unfold live. destruct (decide (j = i)) as [->|Hj].
  - rewrite lookup_place_eq by done. naive_solver.
  - rewrite lookup_place_ne by done. naive_solver.
Qed.

(** The position a push takes, and what is free afterwards. *)
Definition next_slot ix : nat * list nat :=
  match free_targets ix with i :: free => (i, free) | [] => (length (targets ix), []) end.

Lemma next_slot_spec ix :
  index_wf ix →
  let '(i, free) := next_slot ix in
  i ≤ length (targets ix) ∧ (∀ tk s, ¬ live (targets ix) i tk s) ∧ NoDup free ∧
  (∀ j, j ∈ free ↔ (j < length (targets ix) ∧ ∀ tk s, ¬ live (targets ix) j tk s) ∧ j ≠ i).
Proof.
  intros Hwf. unfold next_slot. pose proof (wf_free_nodup _ Hwf) as Hnd.
  pose proof (wf_free _ Hwf) as Hfree. destruct (free_targets ix) as [|i free].
  - split_and!; [done| |done|].
    + intros tk s Hl%live_lt. lia.
    + intros j. rewrite <-Hfree. split; [set_solver|]. set_solver.
  - apply NoDup_cons in Hnd as [Hi Hnd]. destruct (proj1 (Hfree i)) as [Hlt Hno]; [set_solver|].
    split_and!; [lia|done|done|]. intros j. rewrite <-Hfree. set_solver.
Qed.

Lemma push_unfold ix p tk source b :
  index_wf ix →
  let '(i, free) := next_slot ix in
  push_target_with_balance ix p tk source b =
  Some (Build_PoolLiquidityIndex
    (place (targets ix) i {| lt_token := tk; lt_source := source; lt_balance := b; lt_active := true |})
    (<[(p, tk) := i]> (by_pool_token ix))
    (match source with
     | Erc20Balance holder _ => push_index (tk, holder) i (by_token_holder ix)
     | _ => by_token_holder ix
     end)
    (match source_slot tk source with
     | Some key => push_index key i (by_storage_slot ix)
     | None => by_storage_slot ix
     end)
    (push_index p i (by_pool ix)) (pool_token_counts ix) free).
Proof.
  intros Hwf. pose proof (next_slot_spec ix Hwf) as Hs. unfold push_target_with_balance, next_slot in *.
  destruct (free_targets ix) as [|i free]; unfold place, storage_slot; simpl.
  - rewrite !decide_True by done. simpl. by destruct source as [? []| |].
  - destruct Hs as (Hi & _ & _ & Hf). case_decide; simpl; [by destruct source as [? []| |]|].
    rewrite decide_True by lia. simpl. by destruct source as [? []| |].
Qed.

Definition source_ok tk source : Prop :=
  ∀ h s, source = Erc20Balance h (Some s) → s = layout tk h.

Lemma push_spec ix p tk source b :
  index_wf ix → by_pool_token ix !! (p, tk) = None → source_ok tk source →
  ∃ ix', push_target_with_balance ix p tk source b = Some ix' ∧ index_wf ix' ∧
    (∀ k, view ix' k = if decide (k = (p, tk)) then Some (source, b) else view ix k) ∧
    pool_token_counts ix' = pool_token_counts ix.
Proof.
  intros Hwf Hnone Hok. pose proof (next_slot_spec ix Hwf) as Hs.
  pose proof (push_unfold ix p tk source b Hwf) as Hpush.
  destruct (next_slot ix) as [i free]. destruct Hs as (Hi & Hdead & Hnd & Hfree). rewrite Hpush.
  set (t := {| lt_token := tk; lt_source := source; lt_balance := b; lt_active := true |}).
  assert (∀ j tk' s, live (place (targets ix) i t) j tk' s ↔
    (j = i ∧ tk' = tk ∧ s = source) ∨ live (targets ix) j tk' s) as Hlive.
  { intros j tk' s. rewrite live_place by done. simpl. split; [naive_solver|].
    intros [?|Hl]; [by left|right]. split; [|done]. intros ->. by apply Hdead in Hl. }
  assert (∀ p', i ∉ listed (by_pool ix) p') as Hnp.
  { intros p' Hin. apply (wf_pool_live _ Hwf) in Hin as (?&?&Hl). by apply Hdead in Hl. }
  eexists. split; [done|]. split; [|split; [|done]].
  - destruct Hwf as [H1 H2 H3 H4 H5 H6 H7 H8 H9 H10 H11 H12]. constructor; simpl.
    + intros q. apply NoDup_listed_push; [done|]. intros _. apply Hnp.
    + intros q j. rewrite elem_of_listed_push. intros [[-> ->]|Hj].
      * exists tk, source. apply Hlive. by left.
      * apply H2 in Hj as (tk'&s&Hj). exists tk', s. apply Hlive. by right.
    + intros j tk' s. rewrite Hlive. intros [(->&_&_)|Hl].
      * exists p. apply elem_of_listed_push. by left.
      * apply H3 in Hl as [q Hq]. exists q. apply elem_of_listed_push. by right.
    + intros q q' j. rewrite !elem_of_listed_push. specialize (Hnp q) as Hq. specialize (Hnp q') as Hq'.
      intros [[? ->]|?] [[? ?]|?]; [congruence|done|by subst|by eapply H4].
    + intros q tk' j. rewrite elem_of_listed_push. setoid_rewrite Hlive.
      destruct (decide ((p, tk) = (q, tk'))) as [[= <- <-]|Hne].
      * rewrite lookup_insert_eq. split.
        { intros [= <-]. split; [by left|]. exists source. by left. }
        intros [[[_ ->]|Hj] [s [Hs|Hs]]]; [done|done|by destruct Hs as [-> _]|].
        assert (by_pool_token ix !! (p, tk) = Some j) by (apply H5; eauto). congruence.
      * rewrite lookup_insert_ne by done. rewrite H5. split; [naive_solver|].
        intros [[[Hp Hji]|Hj] [s [(Hji'&Htk&Hs)|Hs]]]; [congruence| | |eauto].
        { subst j. by apply Hdead in Hs. }
        subst j. by apply Hnp in Hj.
    + intros k j. setoid_rewrite Hlive.
      assert (j ∈ listed (by_token_holder ix) k ↔ ∃ slot, live (targets ix) j k.1 (Erc20Balance k.2 slot))
        as Hk by apply H6.
      destruct source as [h sl| |]; [rewrite elem_of_listed_push|..]; rewrite Hk; destruct k as [k1 k2];
        simpl; naive_solver.
    + intros k. destruct source as [h sl| |]; try done. apply NoDup_listed_push; [done|].
      intros _ Hin. apply H6 in Hin as [? Hl]. by apply Hdead in Hl.
    + intros k j. setoid_rewrite Hlive. destruct (source_slot tk source) as [key|] eqn:Hkey.
      * rewrite elem_of_listed_push, H8. naive_solver.
      * rewrite H8. naive_solver.
    + intros k. destruct (source_slot tk source) as [key|]; [|done].
      apply NoDup_listed_push; [done|]. intros _ Hin. apply H8 in Hin as (?&?&Hl&_). by apply Hdead in Hl.
    + done.
    + intros j. setoid_rewrite Hlive. rewrite Hfree, length_place by done.
      assert (∀ tk' s, live (targets ix) j tk' s → j < length (targets ix)) by (intros; by eapply live_lt).
      case_decide as Hlen; split.
      * intros [[Hlt Hno] Hne]. split; [lia|]. naive_solver.
      * intros [Hlt Hno]. destruct (decide (j = i)) as [->|Hne]; [by destruct (Hno tk source); left|].
        split; [split; [lia|]|done]. intros tk' s Hl. destruct (Hno tk' s). by right.
      * intros [[Hlt Hno] Hne]. split; [lia|]. naive_solver.
      * intros [Hlt Hno]. destruct (decide (j = i)) as [->|Hne]; [by destruct (Hno tk source); left|].
        split; [split; [lia|]|done]. intros tk' s Hl. destruct (Hno tk' s). by right.
    + intros j tk' h s. rewrite Hlive. intros [(_&->&Heq)|Hl]; [|by eapply H12]. by apply Hok.
  - intros [q tk']. unfold view. simpl. destruct (decide ((q, tk') = (p, tk))) as [[= -> ->]|Hne].
    + rewrite lookup_insert_eq. simpl. by rewrite lookup_place_eq.
    + rewrite lookup_insert_ne by done. destruct (by_pool_token ix !! (q, tk')) as [j|] eqn:Hj; [|done].
      simpl. rewrite lookup_place_ne; [done|done|]. intros ->.
      apply (wf_pool_token _ Hwf) in Hj as [_ [s Hl]]. by apply Hdead in Hl.
Qed.


(** ** Removing the targets of a pool *)

Lemma live_deactivate ts i t j tk s :
  ts !! i = Some t → live (<[i := deactivate t]> ts) j tk s ↔ live ts j tk s ∧ j ≠ i.
Proof.
  intros Hi. unfold live. destruct (decide (j = i)) as [->|Hj].
  - rewrite list_lookup_insert_eq by (by eapply lookup_lt_Some). split; [|naive_solver].
    intros (t' & [= <-] & ? & _). done.
  - rewrite list_lookup_insert_ne by done. naive_solver.
Qed.

Lemma live_listed_holder t i ts tk s h :
  ts !! i = Some t → lt_active t = true → live ts i tk s → s = lt_source t ∧
  (erc20_holder t = Some h ↔ ∃ slot, s = Erc20Balance h slot).
Proof.
  intros Ht Ha (t' & Ht' & _ & <- & <-). assert (t' = t) as -> by congruence. split; [done|].
  unfold erc20_holder. destruct (lt_source t); naive_solver.
Qed.

Lemma set_by_pool_remove m p ix i :
  set_by_pool m (remove_target p ix i) = remove_target p (set_by_pool m ix) i.
Proof.
  unfold remove_target. simpl. destruct (targets ix !! i) as [t|]; [|done].
  by destruct (lt_active t).
Qed.

Lemma set_by_pool_fold m p ix l :
  set_by_pool m (foldl (remove_target p) ix l) = foldl (remove_target p) (set_by_pool m ix) l.
Proof. revert ix. induction l as [|i l IH]; intros ix; simpl; [done|]. by rewrite IH, set_by_pool_remove. Qed.

Lemma by_pool_remove p ix i : by_pool (remove_target p ix i) = by_pool ix.
Proof. unfold remove_target. destruct (targets ix !! i) as [t|]; [|done]. by destruct (lt_active t). Qed.

Lemma listed_insert_eq `{Countable K} (m : gmap K (list nat)) k l : listed (<[k := l]> m) k = l.
Proof. unfold listed. by rewrite lookup_insert_eq. Qed.
Lemma listed_insert_ne `{Countable K} (m : gmap K (list nat)) k k' l :
  k ≠ k' → listed (<[k := l]> m) k' = listed m k'.
Proof. intros Hk. unfold listed. by rewrite lookup_insert_ne. Qed.

Lemma remove_target_spec p ix i rem :
  index_wf ix → listed (by_pool ix) p = i :: rem →
  let ix' := set_by_pool (<[p := rem]> (by_pool ix)) (remove_target p ix i) in
  index_wf ix' ∧ (∀ q tk, q ≠ p → view ix' (q, tk) = view ix (q, tk)).
Proof.
  intros Hwf Hp. pose proof (wf_pool_nodup _ Hwf p) as Hnd. rewrite Hp in Hnd.
  apply NoDup_cons in Hnd as [Hrem Hnd].
  destruct (wf_pool_live _ Hwf p i) as (tk0 & s0 & Hi); [rewrite Hp; set_solver|].
  pose proof Hi as (t & Ht & Ha & Htk & Hs). unfold remove_target. rewrite Ht, Ha.
  assert (∀ q j, j ∈ listed (<[p := rem]> (by_pool ix)) q ↔ j ∈ listed (by_pool ix) q ∧ j ≠ i) as Hlist.
  { intros q j. destruct (decide (p = q)) as [<-|Hq].
    - rewrite listed_insert_eq, Hp. set_solver.
    - rewrite listed_insert_ne by done. split; [|naive_solver]. intros Hj. split; [done|]. intros ->.
      apply Hq. eapply (wf_pool_disjoint _ Hwf); [|done]. rewrite Hp. set_solver. }
  assert (∀ j tk s, live (<[i := deactivate t]> (targets ix)) j tk s ↔
    live (targets ix) j tk s ∧ j ≠ i) as Hlive by (intros; by apply live_deactivate).
  assert (by_pool_token ix !! (p, lt_token t) = Some i) as Hpt.
  { apply (wf_pool_token _ Hwf). rewrite Hp. split; [set_solver|]. exists s0. by rewrite Htk. }
  split.
  - destruct Hwf as [H1 H2 H3 H4 H5 H6 H7 H8 H9 H10 H11 H12]. constructor; simpl.
    + intros q. destruct (decide (p = q)) as [<-|]; [by rewrite listed_insert_eq|by rewrite listed_insert_ne].
    + intros q j. rewrite Hlist. intros [(tk & s & Hl)%H2 Hne]. exists tk, s. by apply Hlive.
    + intros j tk s. rewrite Hlive. intros [[q Hq]%H3 Hne]. exists q. by apply Hlist.
    + intros q q' j. rewrite !Hlist. intros [Hq _] [Hq' _]. by eapply H4.
    + intros q tk j. rewrite Hlist. setoid_rewrite Hlive.
      destruct (decide ((p, lt_token t) = (q, tk))) as [[= <- <-]|Hne].
      * rewrite lookup_delete_eq. split; [done|]. intros [[Hj Hji] [s [Hl _]]].
        assert (by_pool_token ix !! (p, lt_token t) = Some j) by (apply H5; eauto). congruence.
      * rewrite lookup_delete_ne, H5 by done. split; [|naive_solver].
        intros [Hj [s Hl]]. assert (j ≠ i); [|naive_solver]. intros ->. apply Hne.
        destruct (live_fun _ _ _ _ _ _ Hl Hi) as [-> _]. rewrite Htk. f_equal.
        eapply H4; [|done]. rewrite Hp. set_solver.
    + intros k j. setoid_rewrite Hlive. destruct (erc20_holder t) as [h|] eqn:Hh.
      * rewrite elem_of_listed_remove, H6. split; cycle 1.
        { intros (slot & Hl & Hne). split; [by exists slot|done]. }
        intros [[slot Hl] Hne]. exists slot. split; [done|]. intros ->. apply Hne; [|done].
        destruct (live_fun _ _ _ _ _ _ Hl Hi) as [Hk1 Hk2]. unfold erc20_holder in Hh.
        destruct k as [k1 k2]. simpl in *. rewrite Hs, <-Hk2 in Hh. congruence.
      * rewrite H6. split; cycle 1.
        { intros (slot & Hl & Hne). by exists slot. }
        intros [slot Hl]. exists slot. split; [done|]. intros ->.
        destruct (live_fun _ _ _ _ _ _ Hl Hi) as [_ Hs']. unfold erc20_holder in Hh.
        rewrite Hs, <-Hs' in Hh. done.
    + intros k. destruct (erc20_holder t); [by apply NoDup_listed_remove|done].
    + intros k j. setoid_rewrite Hlive. rewrite storage_slot_source, Htk, Hs.
      destruct (source_slot tk0 s0) as [key|] eqn:Hkey.
      * rewrite elem_of_listed_remove, H8. split; cycle 1.
        { intros (tk & s & [Hl Hne] & Hk). split; [by exists tk, s|done]. }
        intros [(tk & s & Hl & Hk) Hne]. exists tk, s. split; [|done]. split; [done|]. intros ->.
        destruct (live_fun _ _ _ _ _ _ Hl Hi) as [-> ->]. apply Hne; congruence.
      * rewrite H8. split; cycle 1.
        { intros (tk & s & [Hl Hne] & Hk). by exists tk, s. }
        intros (tk & s & Hl & Hk). exists tk, s.
        split; [|done]. split; [done|]. intros ->.
        destruct (live_fun _ _ _ _ _ _ Hl Hi) as [-> ->]. congruence.
    + intros k. destruct (storage_slot t); [by apply NoDup_listed_remove|done].
    + apply NoDup_cons. split; [|done]. rewrite H11. intros [_ Hno]. by apply Hno in Hi.
    + intros j. setoid_rewrite Hlive. rewrite elem_of_cons, H11, length_insert.
      pose proof (live_lt _ _ _ _ Hi). split; [naive_solver|].
      intros [Hlt Hno]. destruct (decide (j = i)) as [->|]; [by left|right]. naive_solver.
    + intros j tk h s. rewrite Hlive. naive_solver.
  - intros q tk Hq. unfold view. simpl. rewrite lookup_delete_ne by congruence.
    destruct (by_pool_token ix !! (q, tk)) as [j|] eqn:Hj; [|done]. simpl.
    rewrite list_lookup_insert_ne; [done|]. intros <-.
    apply (wf_pool_token _ Hwf) in Hj as [Hj _]. apply Hq.
    eapply (wf_pool_disjoint _ Hwf); [done|]. rewrite Hp. set_solver.
Qed.

Lemma remove_targets_spec p ix rem :
  index_wf ix → listed (by_pool ix) p = rem →
  let ix' := set_by_pool (<[p := []]> (by_pool ix)) (foldl (remove_target p) ix rem) in
  index_wf ix' ∧ (∀ q tk, q ≠ p → view ix' (q, tk) = view ix (q, tk)).
Proof.
  revert ix. induction rem as [|i rem IH]; intros ix Hwf Hp; simpl.
  - split; [|done].
    assert (∀ q, listed (<[p := []]> (by_pool ix)) q = listed (by_pool ix) q) as Hl.
    { intros q. destruct (decide (p = q)) as [<-|]; [by rewrite listed_insert_eq|by rewrite listed_insert_ne]. }
    destruct Hwf. constructor; simpl; repeat setoid_rewrite Hl; done.
  - destruct (remove_target_spec p ix i rem Hwf Hp) as [Hwf' Hview].
    destruct (IH _ Hwf') as [Hwf'' Hview'].
    { simpl. apply listed_insert_eq. }
    simpl in Hwf'', Hview'. rewrite insert_insert_eq, <-set_by_pool_fold in Hwf'', Hview'.
    split; [exact Hwf''|]. intros q tk Hq. rewrite <-(Hview q tk Hq). by apply Hview'.
Qed.

Lemma remove_pool_targets_spec p ix :
  index_wf ix →
  index_wf (remove_pool_targets p ix) ∧
  (∀ k, view (remove_pool_targets p ix) k = if decide (k.1 = p) then None else view ix k) ∧
  pool_token_counts (remove_pool_targets p ix) = delete p (pool_token_counts ix).
Proof.
  intros Hwf.
  assert (index_wf (remove_pool_targets p ix) ∧
    (∀ q tk, q ≠ p → view (remove_pool_targets p ix) (q, tk) = view ix (q, tk)) ∧
    listed (by_pool (remove_pool_targets p ix)) p = [] ∧
    pool_token_counts (remove_pool_targets p ix) = delete p (pool_token_counts ix))
    as (Hwf' & Hview & Hnil & Hcounts).
  { unfold remove_pool_targets. destruct (by_pool ix !! p) as [indices|] eqn:Hp; cycle 1.
    { split_and!; [by apply set_token_counts_wf|done| |done]. unfold listed. simpl. by rewrite Hp. }
    assert (listed (by_pool ix) p = indices) as Hl by (unfold listed; by rewrite Hp).
    destruct (remove_targets_spec p ix indices Hwf Hl) as [Hwf' Hview].
    rewrite set_by_pool_fold in Hwf', Hview.
    assert (∀ l ix0 m m', pool_token_counts (foldl (remove_target p) (set_by_pool m ix0) l) =
      pool_token_counts (foldl (remove_target p) (set_by_pool m' ix0) l)) as Hc.
    { induction l as [|i l IH]; intros ix0 m m'; simpl; [done|].
      rewrite <-!set_by_pool_remove. apply IH. }
    assert (∀ l ix0, pool_token_counts (foldl (remove_target p) ix0 l) = pool_token_counts ix0) as Hc'.
    { induction l as [|i l IH]; intros ix0; simpl; [done|]. rewrite IH. unfold remove_target.
      destruct (targets ix0 !! i) as [t|]; [|done]. by destruct (lt_active t). }
    assert (∀ m, by_pool (foldl (remove_target p) (set_by_pool m ix) indices) = m) as Hb.
    { intros m. by rewrite <-set_by_pool_fold. }
    split_and!.
    - apply set_token_counts_wf.
      assert (∀ q, listed (delete p (by_pool ix)) q = listed (<[p := []]> (by_pool ix)) q) as Hq.
      { intros q. rewrite listed_delete. destruct (decide (p = q)) as [<-|];
          [by rewrite listed_insert_eq|by rewrite listed_insert_ne]. }
      rewrite <-set_by_pool_fold in Hwf'. rewrite <-set_by_pool_fold.
      destruct Hwf'. constructor; simpl in *; repeat setoid_rewrite Hq; done.
    - intros q tk Hq. rewrite <-(Hview q tk Hq). rewrite <-!set_by_pool_fold. done.
    - simpl. rewrite Hb, listed_delete. by rewrite decide_True.
    - simpl. by rewrite Hc'. }
  split_and!; [done| |done]. intros [q tk]. simpl. case_decide; [|by apply Hview]. subst.
  unfold view. destruct (by_pool_token _ !! (p, tk)) as [i|] eqn:Hi; [|done].
  apply (wf_pool_token _ Hwf') in Hi as [Hi _]. rewrite Hnil in Hi. set_solver.
Qed.


(** ** Changing balances *)

(** [update_target] with a new balance: the invariant and the view. *)
Lemma update_balance_spec i b ix tk s :
  index_wf ix → live (targets ix) i tk s →
  ∃ ix', update_target i (set_lt_balance b) ix = Some ix' ∧ index_wf ix' ∧
    (∀ j, targets ix' !! j =
       if decide (j = i) then set_lt_balance b <$> targets ix !! j else targets ix !! j) ∧
    by_pool_token ix' = by_pool_token ix ∧ same_live (targets ix) (targets ix') ∧
    by_token_holder ix' = by_token_holder ix ∧ by_storage_slot ix' = by_storage_slot ix ∧
    pool_token_counts ix' = pool_token_counts ix.
Proof.
  intros Hwf (t & Ht & _). unfold update_target. rewrite Ht. simpl. eexists. split; [done|].
  pose proof (same_live_balance _ _ _ b Ht) as Hs. simpl.
  split; [by apply set_targets_wf|]. split_and!; try done. intros j. case_decide as Hj.
  - subst. rewrite list_lookup_insert_eq by (by eapply lookup_lt_Some). by rewrite Ht.
  - by apply list_lookup_insert_ne.
Qed.

(** What every loop over balances keeps: everything but the balances. *)
Record rebalanced ix ix' : Prop := {
  rb_wf : index_wf ix';
  rb_live : same_live (targets ix) (targets ix');
  rb_pool_token : by_pool_token ix' = by_pool_token ix;
  rb_holder : by_token_holder ix' = by_token_holder ix;
  rb_slot : by_storage_slot ix' = by_storage_slot ix;
  rb_counts : pool_token_counts ix' = pool_token_counts ix;
}.

Lemma rebalanced_refl ix : index_wf ix → rebalanced ix ix.
Proof. by constructor. Qed.

Lemma rebalanced_trans ix1 ix2 ix3 : rebalanced ix1 ix2 → rebalanced ix2 ix3 → rebalanced ix1 ix3.
Proof. intros [] []. constructor; [done|by etrans|congruence..]. Qed.

Lemma update_balance_rebalanced i b ix tk s :
  index_wf ix → live (targets ix) i tk s →
  ∃ ix', update_target i (set_lt_balance b) ix = Some ix' ∧ rebalanced ix ix' ∧
    (∀ j, targets ix' !! j =
       if decide (j = i) then set_lt_balance b <$> targets ix !! j else targets ix !! j).
Proof.
  intros Hwf Hi. destruct (update_balance_spec i b ix tk s Hwf Hi)
    as (ix' & Heq & ? & ? & ? & ? & ? & ? & ?). exists ix'. split_and!; [done|by constructor|done].
Qed.

(** Setting one balance at a list of live positions. *)
Lemma update_all_spec b l ix :
  index_wf ix → (∀ i, i ∈ l → ∃ tk s, live (targets ix) i tk s) →
  ∃ ix', try_fold (λ ix i, update_target i (set_lt_balance b) ix) l ix = Some ix' ∧
    rebalanced ix ix' ∧
    (∀ j, targets ix' !! j =
       if decide (j ∈ l) then set_lt_balance b <$> targets ix !! j else targets ix !! j).
Proof.
  revert ix. induction l as [|i l IH]; intros ix Hwf Hl; simpl.
  - exists ix. split_and!; [done|by apply rebalanced_refl|]. intros j. done.
  - destruct (Hl i) as (tk & s & Hi); [set_solver|].
    destruct (update_balance_rebalanced i b ix tk s Hwf Hi) as (ix1 & -> & Hreb & Hix1). simpl.
    destruct (IH ix1) as (ix2 & Heq & Hreb2 & Hix2); [by apply Hreb| |].
    { intros j Hj. destruct (Hl j) as (tk' & s' & Hlj); [set_solver|].
      exists tk', s'. by apply (rb_live _ _ Hreb). }
    exists ix2. split_and!; [done|by eapply rebalanced_trans|]. intros j. rewrite Hix2, !Hix1.
    by apply decide_cons_idem.
Qed.

(** A target of a reverse index is live. *)
Lemma holder_live ix k i :
  index_wf ix → i ∈ listed (by_token_holder ix) k →
  ∃ slot, live (targets ix) i k.1 (Erc20Balance k.2 slot).
Proof. intros Hwf. apply (wf_holders _ Hwf). Qed.

Lemma target_index_live ix p tk i :
  index_wf ix → target_index ix p tk = Some i → ∃ s, live (targets ix) i tk s.
Proof. intros Hwf Hi. by apply (wf_pool_token _ Hwf) in Hi as [_ ?]. Qed.

(** The view after one balance changed. *)
Lemma view_update_balance ix ix' i b p tk :
  index_wf ix → target_index ix p tk = Some i → rebalanced ix ix' →
  (∀ j, targets ix' !! j =
     if decide (j = i) then set_lt_balance b <$> targets ix !! j else targets ix !! j) →
  ∀ k, view ix' k = if decide (k = (p, tk)) then (λ '(s, _), (s, b)) <$> view ix k else view ix k.
Proof.
  intros Hwf Hi Hreb Hts k. unfold view. rewrite (rb_pool_token _ _ Hreb).
  destruct (by_pool_token ix !! k) as [j|] eqn:Hj; simpl; [|by case_decide].
  rewrite Hts. unfold target_index in Hi. destruct (decide (k = (p, tk))) as [Hk|Hk].
  - subst. rewrite Hi in Hj. injection Hj as ->. rewrite decide_True by done.
    by destruct (targets ix !! j) as [[]|].
  - rewrite decide_False; [done|]. intros ->. apply Hk. destruct k as [q tk'].
    apply (wf_pool_token _ Hwf) in Hi as [Hp [s Hl]], Hj as [Hq [s' Hl']].
    destruct (live_fun _ _ _ _ _ _ Hl Hl') as [-> _]. f_equal. by eapply (wf_pool_disjoint _ Hwf).
Qed.

(** [set_balance] and [mark_stale]. *)
Lemma set_one_balance_spec ix p tk b :
  index_wf ix →
  match target_index ix p tk with
  | None => view ix (p, tk) = None
  | Some i =>
      ∃ ix', update_target i (set_lt_balance b) ix = Some ix' ∧ rebalanced ix ix' ∧
        ∀ k, view ix' k =
          if decide (k = (p, tk)) then (λ '(s, _), (s, b)) <$> view ix k else view ix k
  end.
Proof.
  intros Hwf. destruct (target_index ix p tk) as [i|] eqn:Hi.
  - destruct (target_index_live ix p tk i Hwf Hi) as [s Hl].
    destruct (update_balance_rebalanced i b ix tk s Hwf Hl) as (ix' & Heq & Hreb & Hts).
    exists ix'. split_and!; [done|done|]. by apply (view_update_balance ix ix' i b p tk).
  - unfold view, target_index in *. by rewrite Hi.
Qed.

(** ** Discovering slots *)

Lemma set_target_slot_spec ix token holder slot i :
  index_wf ix → slot = layout token holder →
  i ∈ listed (by_token_holder ix) (token, holder) →
  ∃ ix' sl, set_target_slot token slot ix i = Some ix' ∧ index_wf ix' ∧
    live (targets ix) i token (Erc20Balance holder sl) ∧
    (∀ j, targets ix' !! j =
       if decide (j = i) then set_lt_source (Erc20Balance holder (Some slot)) <$> targets ix !! j
       else targets ix !! j) ∧
    by_pool_token ix' = by_pool_token ix ∧ by_token_holder ix' = by_token_holder ix ∧
    pool_token_counts ix' = pool_token_counts ix.
Proof.
  intros Hwf Hslot Hin. destruct (holder_live _ _ _ Hwf Hin) as [sl Hlive]. simpl in Hlive.
  pose proof Hlive as (t & Ht & Ha & Htk & Hs). unfold set_target_slot. rewrite Ht. simpl. rewrite Hs.
  do 2 eexists. split; [done|]. split; [|split; [exact Hlive|]]; cycle 1.
  { split; [|done]. intros j. simpl. case_decide as Hj; [|by apply list_lookup_insert_ne]. subst j.
    rewrite list_lookup_insert_eq by (by eapply lookup_lt_Some). by rewrite Ht. }
  set (ts := <[i := _]> (targets ix)).
  assert (∀ j tk s, live ts j tk s ↔
    (j = i ∧ tk = token ∧ s = Erc20Balance holder (Some slot)) ∨ (j ≠ i ∧ live (targets ix) j tk s))
    as Hlv.
  { intros j tk s. unfold live, ts. destruct (decide (j = i)) as [->|Hj].
    - rewrite list_lookup_insert_eq by (by eapply lookup_lt_Some). split.
      + intros (t' & [= <-] & _ & <- & <-). by left.
      + intros [(_ & -> & ->)|[? _]]; [|done]. eexists. by split.
    - rewrite list_lookup_insert_ne by done. naive_solver. }
  assert (∀ j, (∃ tk s, live ts j tk s) ↔ ∃ tk s, live (targets ix) j tk s) as Hex.
  { intros j. setoid_rewrite Hlv. destruct (decide (j = i)) as [->|]; [|naive_solver].
    split; [intros _; eauto|]. intros _. exists token, (Erc20Balance holder (Some slot)). by left. }
  assert (∀ j tk, (∃ s, live ts j tk s) ↔ ∃ s, live (targets ix) j tk s) as Htok.
  { intros j tk. setoid_rewrite Hlv. destruct (decide (j = i)) as [->|]; [|naive_solver]. split.
    - intros [s [(_ & -> & _)|[? _]]]; [eauto|done].
    - intros [s Hl]. destruct (live_fun _ _ _ _ _ _ Hl Hlive) as [-> _]. eauto. }
  destruct Hwf as [H1 H2 H3 H4 H5 H6 H7 H8 H9 H10 H11 H12]. constructor; simpl; fold ts.
  - done.
  - intros p j Hj. apply Hex. by eapply H2.
  - intros j tk s Hl. destruct (proj1 (Hex j)) as (tk' & s' & Hl'); [eauto|]. by eapply H3.
  - done.
  - intros p tk j. rewrite Htok. apply H5.
  - intros [k1 k2] j. rewrite H6. simpl. setoid_rewrite Hlv. destruct (decide (j = i)) as [->|].
    + split.
      * intros [sl' Hl]. destruct (live_fun _ _ _ _ _ _ Hl Hlive) as [-> [= -> ->]].
        exists (Some slot). by left.
      * intros [sl' [(_ & -> & [= -> ->])|[? _]]]; [|done]. by exists sl.
    + split; intros [sl' Hl]; exists sl'; [by right|]. by destruct Hl as [[? _]|[_ ?]].
  - done.
  - intros k j. destruct (decide (k = (token, slot))) as [->|Hk].
    + rewrite listed_insert_eq. fold (listed (by_storage_slot ix) (token, slot)).
      assert (j ∈ (if decide (i ∈ listed (by_storage_slot ix) (token, slot))
                   then listed (by_storage_slot ix) (token, slot)
                   else listed (by_storage_slot ix) (token, slot) ++ [i]) ↔
              j = i ∨ j ∈ listed (by_storage_slot ix) (token, slot)) as ->.
      { case_decide; set_solver. }
      rewrite H8. setoid_rewrite Hlv. destruct (decide (j = i)) as [->|].
      * split; [|by left]. intros _. exists token, (Erc20Balance holder (Some slot)). split; [by left|done].
      * naive_solver.
    + rewrite listed_insert_ne by congruence. rewrite H8. setoid_rewrite Hlv.
      destruct (decide (j = i)) as [->|]; [|naive_solver]. split.
      * intros (tk & s & Hl & Hkey). destruct (live_fun _ _ _ _ _ _ Hl Hlive) as [-> ->].
        simpl in Hkey. destruct sl as [sl|]; [|done]. injection Hkey as <-.
        destruct Hk. f_equal. rewrite Hslot. by eapply H12.
      * intros (tk & s & [(_ & -> & ->)|[? _]] & Hkey); [|done]. simpl in Hkey. congruence.
  - intros k. destruct (decide (k = (token, slot))) as [->|Hk].
    + rewrite listed_insert_eq. fold (listed (by_storage_slot ix) (token, slot)).
      case_decide; [done|]. apply NoDup_app. split_and!; [done|set_solver|apply NoDup_singleton].
    + by rewrite listed_insert_ne by congruence.
  - done.
  - intros j. rewrite H11. unfold ts. rewrite length_insert. fold ts.
    specialize (Hex j). naive_solver.
  - intros j tk h s. rewrite Hlv. intros [(_ & -> & [= -> ->])|[_ Hl]]; [done|by eapply H12].
Qed.

(** All targets of a holder take its slot. *)
Definition set_slot (k : Address * Address) (slot : U256) t : PoolLiquidityTarget :=
  if decide (lt_active t = true ∧ lt_token t = k.1 ∧ erc20_holder t = Some k.2)
  then set_lt_source (Erc20Balance k.2 (Some slot)) t else t.

Lemma set_erc20_slot_spec ix token holder slot :
  index_wf ix → slot = layout token holder →
  ∃ ix', set_erc20_slot token holder slot ix = Some ix' ∧ index_wf ix' ∧
    targets ix' = set_slot (token, holder) slot <$> targets ix ∧
    by_pool_token ix' = by_pool_token ix ∧ pool_token_counts ix' = pool_token_counts ix.
Proof.
  intros Hwf Hslot. unfold set_erc20_slot.
  assert (∀ j t, targets ix !! j = Some t → j ∉ listed (by_token_holder ix) (token, holder) →
    set_slot (token, holder) slot t = t) as Hother.
  { intros j t Ht Hj. unfold set_slot. apply decide_False. intros (Ha & Htk & Hh). apply Hj.
    apply (wf_holders _ Hwf). simpl. unfold erc20_holder in Hh.
    destruct (lt_source t) as [h sl| |] eqn:Hs; simplify_eq/=. exists sl, t. done. }
  assert (∀ l, l ⊆ listed (by_token_holder ix) (token, holder) → ∀ ix0, index_wf ix0 →
    by_token_holder ix0 = by_token_holder ix →
    ∃ ix', try_fold (set_target_slot token slot) l ix0 = Some ix' ∧ index_wf ix' ∧
      (∀ j, targets ix' !! j = (if decide (j ∈ l)
         then set_lt_source (Erc20Balance holder (Some slot)) <$> targets ix0 !! j
         else targets ix0 !! j)) ∧
      by_pool_token ix' = by_pool_token ix0 ∧ pool_token_counts ix' = pool_token_counts ix0) as Hloop.
  { induction l as [|i l IH]; intros Hl ix0 Hwf0 Hh0; simpl.
    - exists ix0. split_and!; done.
    - destruct (set_target_slot_spec ix0 token holder slot i Hwf0 Hslot) as
        (ix1 & sl & -> & Hwf1 & _ & Hts1 & Hpt1 & Hth1 & Hc1); [rewrite Hh0; set_solver|]. simpl.
      destruct (IH ltac:(set_solver) ix1 Hwf1 ltac:(congruence)) as (ix2 & -> & Hwf2 & Hts2 & Hpt2 & Hc2).
      exists ix2. split_and!; [done|done| |congruence..]. intros j. rewrite Hts2, !Hts1.
      by apply decide_cons_idem. }
  destruct (by_token_holder ix !! (token, holder)) as [indices|] eqn:Hk.
  - assert (listed (by_token_holder ix) (token, holder) = indices) as Hl by (unfold listed; by rewrite Hk).
    destruct (Hloop indices) with ix as (ix' & Heq & Hwf' & Hts & Hpt & Hc); [by rewrite Hl|done|done|].
    exists ix'. split_and!; [done|done| |done|done]. apply list_eq. intros j. rewrite Hts, list_lookup_fmap.
    rewrite Hl in Hother. destruct (targets ix !! j) as [t|] eqn:Ht; simpl; [|by case_decide].
    case_decide as Hj; simpl; [|by rewrite (Hother j)]. f_equal. unfold set_slot.
    assert (j ∈ listed (by_token_holder ix) (token, holder)) as Hj' by (by rewrite Hl).
    apply (wf_holders _ Hwf) in Hj' as (sl & t' & Ht' & Ha & Htk & Hs). simpl in *.
    assert (t' = t) as -> by congruence. rewrite decide_True; [done|].
    split_and!; [done|done|]. unfold erc20_holder. by rewrite Hs.
  - exists ix. split_and!; try done. apply list_eq. intros j. rewrite list_lookup_fmap.
    destruct (targets ix !! j) as [t|] eqn:Ht; simpl; [|done]. f_equal. symmetry.
    apply (Hother j t Ht). unfold listed. rewrite Hk. set_solver.
Qed.


(** ** Words and freshness *)

Definition write_word (σ : Storage) (address : Address) (slot value : U256) : Storage :=
  λ a s, if decide ((a, s) = (address, slot)) then value else σ a s.

(** Every fresh balance with a known slot is what the slot's word says. *)
Definition fresh_sound (σ : Storage) ix : Prop :=
  ∀ i t v key, targets ix !! i = Some t → lt_active t = true → lt_balance t = BalanceFresh v →
    storage_slot t = Some key → source_balance (lt_source t) (σ key.1 key.2) = Some v.

Lemma slot_source_balance t key w :
  storage_slot t = Some key → ∃ v, source_balance (lt_source t) w = Some v.
Proof. unfold storage_slot. destruct (lt_source t) as [? []| |]; simpl; try done; eauto. Qed.

(** The balance a word gives to a target. *)
Definition from_word (w : U256) t : PoolLiquidityTarget :=
  match source_balance (lt_source t) w with
  | Some v => set_lt_balance (BalanceFresh v) t
  | None => t
  end.

Lemma from_word_idem w t : from_word w (from_word w t) = from_word w t.
Proof. unfold from_word. destruct (source_balance (lt_source t) w) eqn:E; simpl; by rewrite E. Qed.

Lemma storage_live ix k i :
  index_wf ix → i ∈ listed (by_storage_slot ix) k →
  ∃ t, targets ix !! i = Some t ∧ lt_active t = true ∧ storage_slot t = Some k.
Proof.
  intros Hwf (tk & s & (t & Ht & Ha & <- & <-) & Hk)%(wf_storage _ Hwf).
  exists t. split_and!; [done..|]. by rewrite storage_slot_source.
Qed.

Lemma live_intro ts i t :
  ts !! i = Some t → lt_active t = true → live ts i (lt_token t) (lt_source t).
Proof. intros. by exists t. Qed.

Lemma update_slot_value_spec ix address slot value :
  index_wf ix →
  ∃ n ix', update_slot_value address slot value ix = Some (n, ix') ∧ rebalanced ix ix' ∧
    n = length (listed (by_storage_slot ix) (address, slot)) ∧
    (∀ j, targets ix' !! j =
       if decide (j ∈ listed (by_storage_slot ix) (address, slot))
       then from_word value <$> targets ix !! j else targets ix !! j).
Proof.
  intros Hwf. unfold update_slot_value.
  assert (∀ l, l ⊆ listed (by_storage_slot ix) (address, slot) → ∀ ix0 n0, rebalanced ix ix0 →
    ∃ ix', try_fold (λ '(updated, ix) i,
        t ← targets ix !! i;
        match source_balance (lt_source t) value with
        | None => Some (updated, ix)
        | Some balance =>
            ix ← update_target i (set_lt_balance (BalanceFresh balance)) ix;
            Some (S updated, ix)
        end) l (n0, ix0) = Some (n0 + length l, ix') ∧ rebalanced ix ix' ∧
      (∀ j, targets ix' !! j =
         if decide (j ∈ l) then from_word value <$> targets ix0 !! j else targets ix0 !! j)) as Hloop.
  { induction l as [|i l IH]; intros Hl ix0 n0 Hreb; simpl.
    - exists ix0. rewrite Nat.add_0_r. done.
    - assert (i ∈ listed (by_storage_slot ix0) (address, slot)) as Hi
        by (rewrite (rb_slot _ _ Hreb); set_solver).
      destruct (storage_live ix0 _ i (rb_wf _ _ Hreb) Hi) as (t & Ht & Ha & Hk). rewrite Ht. simpl.
      destruct (slot_source_balance t _ value Hk) as [v Hv]. rewrite Hv.
      destruct (update_balance_rebalanced i (BalanceFresh v) ix0 _ _ (rb_wf _ _ Hreb)
        (live_intro _ _ _ Ht Ha)) as (ix1 & -> & Hreb1 & Hts1). simpl.
      destruct (IH ltac:(set_solver) ix1 (S n0)) as (ix2 & -> & Hreb2 & Hts2);
        [by eapply rebalanced_trans|].
      exists ix2. split; [do 2 f_equal; lia|]. split; [done|]. intros j. rewrite Hts2, !Hts1.
      rewrite <-(decide_cons_idem (from_word value)) by apply from_word_idem.
      assert (∀ o, o = targets ix0 !! j → (if decide (j = i) then set_lt_balance (BalanceFresh v) <$> o else o) =
        if decide (j = i) then from_word value <$> o else o) as Hj.
      { intros o ->. case_decide; [|done]. subst. rewrite Ht. simpl. unfold from_word. by rewrite Hv. }
      by rewrite Hj. }
  destruct (by_storage_slot ix !! (address, slot)) as [indices|] eqn:Hk.
  - assert (listed (by_storage_slot ix) (address, slot) = indices) as Hl by (unfold listed; by rewrite Hk).
    destruct (Hloop indices) with ix 0 as (ix' & -> & Hreb & Hts); [by rewrite Hl|by apply rebalanced_refl|].
    exists (length indices), ix'. rewrite Hl. done.
  - exists 0, ix. unfold listed. rewrite Hk. simpl. split_and!; [done|by apply rebalanced_refl|done|done].
Qed.

(** Writing a word into the index keeps it sound for the storage with the word
    written. *)
Lemma update_slot_value_sound σ ix address slot value n ix' :
  index_wf ix → fresh_sound σ ix → update_slot_value address slot value ix = Some (n, ix') →
  fresh_sound (write_word σ address slot value) ix'.
Proof.
  intros Hwf Hs Hup. destruct (update_slot_value_spec ix address slot value Hwf)
    as (n' & ix2 & Heq & Hreb & _ & Hts). rewrite Hup in Heq. injection Heq as <- <-.
  intros i t v key Ht Ha Hb Hk. rewrite Hts in Ht. case_decide as Hin.
  - destruct (targets ix !! i) as [t0|] eqn:Ht0; simplify_eq/=.
    destruct (storage_live ix _ i Hwf Hin) as (t1 & Ht1 & _ & Hk1). assert (t1 = t0) as -> by congruence.
    destruct (slot_source_balance t0 _ value Hk1) as [v0 Hv0]. revert Ha Hb Hk. unfold from_word.
    rewrite Hv0. simpl. unfold storage_slot. simpl. fold (storage_slot t0). rewrite Hk1.
    intros _ [= <-] [= <-]. simpl. unfold write_word. by rewrite decide_True.
  - rewrite <-(Hs i t v key Ht Ha Hb Hk). f_equal. unfold write_word. apply decide_False.
    intros Heq. apply Hin. apply (wf_storage _ Hwf). exists (lt_token t), (lt_source t).
    split; [by apply live_intro|]. rewrite <-storage_slot_source, Hk. destruct key. simpl in *. congruence.
Qed.

(** Balances made stale or unknown keep the index sound. *)
Lemma fresh_sound_lost σ ix ix' :
  fresh_sound σ ix →
  (∀ j t, targets ix' !! j = Some t → ∃ t0, targets ix !! j = Some t0 ∧
     (t = t0 ∨ ∃ b, t = set_lt_balance b t0 ∧ fresh_of b = None)) →
  fresh_sound σ ix'.
Proof.
  intros Hs Hts i t v key Ht Ha Hb Hk. destruct (Hts i t Ht) as (t0 & Ht0 & [->|(b & -> & Hf)]).
  - by eapply Hs.
  - simpl in Hb. by rewrite Hb in Hf.
Qed.

Lemma lost_at_list (l : list nat) b ix ix' :
  fresh_of b = None →
  (∀ j, targets ix' !! j =
     if decide (j ∈ l) then set_lt_balance b <$> targets ix !! j else targets ix !! j) →
  ∀ j t, targets ix' !! j = Some t → ∃ t0, targets ix !! j = Some t0 ∧
     (t = t0 ∨ ∃ b, t = set_lt_balance b t0 ∧ fresh_of b = None).
Proof.
  intros Hb Hts j t. rewrite Hts. case_decide; [|by eauto].
  destruct (targets ix !! j) as [t0|]; simpl; [|done]. intros [= <-].
  exists t0. split; [done|]. right. by exists b.
Qed.

(** What loops that only lose freshness keep. *)
Record loses ix ix' : Prop := {
  lo_rebalanced : rebalanced ix ix';
  lo_targets j t : targets ix' !! j = Some t → ∃ t0, targets ix !! j = Some t0 ∧
    (t = t0 ∨ ∃ b, t = set_lt_balance b t0 ∧ fresh_of b = None);
}.

Lemma loses_refl ix : index_wf ix → loses ix ix.
Proof. intros. split; [by apply rebalanced_refl|eauto]. Qed.

Lemma loses_trans ix1 ix2 ix3 : loses ix1 ix2 → loses ix2 ix3 → loses ix1 ix3.
Proof.
  intros [H1 H2] [H3 H4]. split; [by eapply rebalanced_trans|]. intros j t Ht.
  destruct (H4 j t Ht) as (t0 & Ht0 & Hor). destruct (H2 j t0 Ht0) as (t1 & Ht1 & Hor1).
  exists t1. split; [done|]. destruct Hor as [->|(b & -> & Hb)]; [done|]. right.
  exists b. split; [|done]. by destruct Hor1 as [->|(b' & -> & _)].
Qed.

Lemma update_all_loses b l ix :
  index_wf ix → (∀ i, i ∈ l → ∃ tk s, live (targets ix) i tk s) → fresh_of b = None →
  ∃ ix', try_fold (λ ix i, update_target i (set_lt_balance b) ix) l ix = Some ix' ∧ loses ix ix'.
Proof.
  intros Hwf Hl Hb. destruct (update_all_spec b l ix Hwf Hl) as (ix' & -> & Hreb & Hts).
  exists ix'. split; [done|]. split; [done|]. by apply (lost_at_list l b).
Qed.

Lemma mark_token_holder_spec token holder stale ix :
  index_wf ix →
  ∃ n ix', mark_token_holder_unknown_or_stale token holder stale ix = Some (n, ix') ∧ loses ix ix'.
Proof.
  intros Hwf. unfold mark_token_holder_unknown_or_stale.
  destruct (by_token_holder ix !! (token, holder)) as [indices|] eqn:Hk; [|eauto using loses_refl].
  destruct (update_all_loses (if stale then BalanceStale else BalanceUnknown) indices ix Hwf)
    as (ix' & -> & Hlo).
  - intros i Hi. destruct (holder_live ix (token, holder) i Hwf) as [slot Hl]; [|eauto].
    unfold listed. by rewrite Hk.
  - by destruct stale.
  - simpl. eauto.
Qed.

Lemma mark_storage_spec_spec spec ix :
  index_wf ix → ∃ n ix', mark_storage_spec_stale spec ix = Some (n, ix') ∧ loses ix ix'.
Proof.
  intros Hwf. unfold mark_storage_spec_stale.
  destruct (try_fold_inv (λ st : nat * PoolLiquidityIndex, loses ix st.2)
    (λ '(stale, ix) slot,
       match by_storage_slot ix !! (spec_target spec, slot) with
       | None => Some (stale, ix)
       | Some indices =>
           ix ← try_fold (λ ix i, update_target i (set_lt_balance BalanceStale) ix) indices ix;
           Some (stale + length indices, ix)
       end) (spec_slots spec) (0, ix)) as ([n ix'] & Heq & Hlo).
  - by apply loses_refl.
  - intros [n ix0] slot _ Hlo. simpl in Hlo.
    destruct (by_storage_slot ix0 !! (spec_target spec, slot)) as [indices|] eqn:Hk; [|eauto].
    pose proof (rb_wf _ _ (lo_rebalanced _ _ Hlo)) as Hwf0.
    destruct (update_all_loses BalanceStale indices ix0 Hwf0) as (ix1 & -> & Hlo1); [|done|].
    + intros i Hi. destruct (storage_live ix0 (spec_target spec, slot) i Hwf0) as (t & Ht & Ha & _).
      * unfold listed. by rewrite Hk.
      * do 2 eexists. by apply live_intro.
    + simpl. eexists. split; [done|]. by eapply loses_trans.
  - exists n, ix'. done.
Qed.

Lemma mark_holder_stale_spec token acc holder :
  index_wf acc.2 → ∃ acc', mark_holder_stale token acc holder = Some acc' ∧ loses acc.2 acc'.2.
Proof.
  destruct acc as [stale ix]. simpl. intros Hwf.
  case_decide; [eauto using loses_refl|].
  destruct (by_token_holder ix !! (token, holder)) as [indices|] eqn:Hk; [|eauto using loses_refl].
  destruct (update_all_loses BalanceStale indices ix Hwf) as (ix' & -> & Hlo); [|done|simpl; eauto].
  intros i Hi. destruct (holder_live ix (token, holder) i Hwf) as [slot Hl]; [|eauto].
  unfold listed. by rewrite Hk.
Qed.


(** ** Transfers *)

Section transfers.
Context (delta_apply : SlotDelta → U256 → U256).

(** What a transfer does to the word of one side; the zero address stands for
    minting and burning. *)
Definition move_word token holder (delta : SlotDelta) (σ : Storage) : Storage :=
  if decide (holder = 0%Z) then σ
  else write_word σ token (layout token holder) (delta_apply delta (σ token (layout token holder))).

Definition slotted ix i : Prop :=
  match targets ix !! i with
  | Some t => match lt_source t with Erc20Balance _ (Some _) => True | _ => False end
  | None => False
  end.
#[global] Instance slotted_dec ix i : Decision (slotted ix i).
Proof.
  unfold slotted. destruct (targets ix !! i) as [t|]; [|apply _].
  destruct (lt_source t) as [? []| |]; apply _.
Defined.

(** The positions a transfer touches on one side. *)
Definition touched_positions ix token holder : list nat :=
  if decide (holder = 0%Z) then []
  else filter (slotted ix) (listed (by_token_holder ix) (token, holder)).

Definition touches ix token holder (delta : SlotDelta) : list (nat * Address * U256 * SlotDelta) :=
  (λ i, (i, token, layout token holder, delta)) <$> touched_positions ix token holder.

Definition slot_updates ix token holder (delta : SlotDelta) : list StateUpdate :=
  match touched_positions ix token holder with
  | [] => []
  | _ => [UpdateSlotDelta token (layout token holder) delta]
  end.

#[local] Arguments collect_target : simpl never.

Lemma collect_target_source ix token delta i t us ts (ps : gset U256) :
  targets ix !! i = Some t →
  collect_target ix token delta (us, ts, ps) i =
  match lt_source t with
  | Erc20Balance _ (Some slot) =>
      if decide (slot ∈ ps) then Some (us, ts ++ [(i, token, slot, delta)], ps)
      else Some (us ++ [UpdateSlotDelta token slot delta], ts ++ [(i, token, slot, delta)],
                 {[slot]} ∪ ps)
  | _ => Some (us, ts, ps)
  end.
Proof. intros Ht. unfold collect_target. by rewrite Ht. Qed.

Lemma collect_transfer_spec ix token holder delta updates touched :
  index_wf ix →
  collect_transfer_updates ix token holder delta (updates, touched) =
  Some (updates ++ slot_updates ix token holder delta, touched ++ touches ix token holder delta).
Proof.
  intros Hwf. unfold collect_transfer_updates, slot_updates, touches, touched_positions.
  case_decide; [by rewrite !app_nil_r|].
  assert (∀ l, l ⊆ listed (by_token_holder ix) (token, holder) →
    ∀ us ts (ps : gset U256), (ps = ∅ ∨ ps = {[layout token holder]}) →
    ∃ ps', try_fold (collect_target ix token delta) l (us, ts, ps) =
    Some (us ++ (if decide (ps = ∅) then
                   match filter (slotted ix) l with
                   | [] => [] | _ => [UpdateSlotDelta token (layout token holder) delta] end
                 else []),
          ts ++ ((λ i, (i, token, layout token holder, delta)) <$> filter (slotted ix) l), ps')) as Hloop.
  { induction l as [|i l IH]; intros Hl us ts ps Hps; simpl.
    { exists ps. repeat f_equal; [|by rewrite app_nil_r]. case_decide; by rewrite app_nil_r. }
    destruct (holder_live ix (token, holder) i Hwf) as [sl (t & Ht & Ha & Htk & Hs)]; [set_solver|].
    simpl in Htk, Hs. rewrite filter_cons. rewrite (collect_target_source ix token delta i t us ts ps Ht), Hs.
    destruct sl as [slot|].
    - assert (slot = layout token holder) as ->.
      { eapply (wf_layout _ Hwf i). exists t. split_and!; [done|done|by rewrite Htk|done]. }
      rewrite (decide_True (P := slotted ix i)) by (unfold slotted; by rewrite Ht, Hs).
      destruct Hps as [->| ->].
      + rewrite (decide_False (P := layout token holder ∈ (∅ : gset U256))) by set_solver. simpl.
        destruct (IH ltac:(set_solver) (us ++ [UpdateSlotDelta token (layout token holder) delta])
          (ts ++ [(i, token, layout token holder, delta)]) ({[layout token holder]} ∪ ∅)) as [ps' ->].
        { right. set_solver. }
        exists ps'. rewrite (decide_False (P := _ ∪ _ = ∅)) by set_solver.
        rewrite (decide_True (P := ∅ = ∅)) by done. by rewrite app_nil_r, <-app_assoc.
      + rewrite (decide_True (P := layout token holder ∈ {[layout token holder]})) by set_solver. simpl.
        destruct (IH ltac:(set_solver) us (ts ++ [(i, token, layout token holder, delta)])
          {[layout token holder]}) as [ps' ->]; [by right|].
        exists ps'. rewrite !(decide_False (P := _ = ∅)) by set_solver. by rewrite <-app_assoc.
    - rewrite (decide_False (P := slotted ix i)) by (unfold slotted; rewrite Ht, Hs; tauto). simpl.
      destruct (IH ltac:(set_solver) us ts ps Hps) as [ps' ->]. by exists ps'. }
  destruct (by_token_holder ix !! (token, holder)) as [indices|] eqn:Hk.
  - assert (listed (by_token_holder ix) (token, holder) = indices) as Hl by (unfold listed; by rewrite Hk).
    rewrite Hl in *. destruct (Hloop indices ltac:(done) updates touched ∅ ltac:(by left)) as [ps' Hf].
    unfold Collected in *. rewrite Hf. simpl. by rewrite decide_True.
  - unfold listed. rewrite Hk. simpl. by rewrite !app_nil_r.
Qed.

(** The new balance of a touched target. *)
Definition touch (skipped : bool) (delta : SlotDelta) t : PoolLiquidityTarget :=
  set_lt_balance
    (if skipped then BalanceStale
     else match fresh_of (lt_balance t) with
          | Some current => BalanceFresh (delta_apply delta current)
          | None => BalanceStale
          end) t.

Lemma apply_touched_spec skipped updated stale ix i token slot delta tk s :
  index_wf ix → live (targets ix) i tk s →
  ∃ u' s' ix', apply_touched delta_apply skipped (updated, stale, ix) (i, token, slot, delta) =
      Some (u', s', ix') ∧ rebalanced ix ix' ∧ u' + s' = S (updated + stale) ∧
    (∀ j, targets ix' !! j =
       if decide (j = i) then touch (bool_decide ((token, slot) ∈ skipped)) delta <$> targets ix !! j
       else targets ix !! j).
Proof.
  intros Hwf Hl. pose proof Hl as (t & Ht & _). unfold apply_touched, touch.
  assert (∀ b u1 s1 (f : PoolLiquidityTarget → PoolLiquidityTarget), f t = set_lt_balance b t →
    u1 + s1 = S (updated + stale) →
    ∃ u' s' ix', (ix ← update_target i (set_lt_balance b) ix; Some (u1, s1, ix)) = Some (u', s', ix') ∧
    rebalanced ix ix' ∧ u' + s' = S (updated + stale) ∧
    (∀ j, targets ix' !! j = if decide (j = i) then f <$> targets ix !! j else targets ix !! j))
    as Hup.
  { intros b u1 s1 f Hf Hsum.
    destruct (update_balance_rebalanced i b ix tk s Hwf Hl) as (ix' & -> & Hreb & Hts).
    exists u1, s1, ix'. split_and!; [done..|]. intros j. rewrite Hts. case_decide; [|done].
    subst. rewrite Ht. simpl. by rewrite Hf. }
  case_decide as Hsk.
  - rewrite bool_decide_true by done. apply Hup; [done|lia].
  - rewrite bool_decide_false by done. rewrite Ht. simpl.
    destruct (fresh_of (lt_balance t)) as [c|] eqn:Hc; apply Hup; try lia; by rewrite Hc.
Qed.

#[local] Arguments apply_touched : simpl never.

Lemma apply_touches_spec skipped delta token slot l ix :
  NoDup l → index_wf ix → (∀ i, i ∈ l → ∃ tk s, live (targets ix) i tk s) → ∀ u0 s0,
  ∃ u' s' ix', try_fold (apply_touched delta_apply skipped)
      ((λ i, (i, token, slot, delta)) <$> l) (u0, s0, ix) = Some (u', s', ix') ∧
    rebalanced ix ix' ∧ u' + s' = u0 + s0 + length l ∧
    (∀ j, targets ix' !! j =
       if decide (j ∈ l) then touch (bool_decide ((token, slot) ∈ skipped)) delta <$> targets ix !! j
       else targets ix !! j).
Proof.
  intros Hnd. revert ix. induction Hnd as [|i l Hi Hnd IH]; intros ix Hwf Hl u0 s0; csimpl.
  - exists u0, s0, ix. split_and!; [done|by apply rebalanced_refl|lia|done].
  - destruct (Hl i) as (tk & s & Hlv); [set_solver|].
    destruct (apply_touched_spec skipped u0 s0 ix i token slot delta tk s Hwf Hlv)
      as (u1 & s1 & ix1 & -> & Hreb & Hsum & Hts). csimpl.
    destruct (IH ix1 (rb_wf _ _ Hreb)) with u1 s1 as (u2 & s2 & ix2 & -> & Hreb2 & Hsum2 & Hts2).
    { intros j Hj. destruct (Hl j) as (tk' & s' & Hlj); [set_solver|].
      exists tk', s'. by apply (rb_live _ _ Hreb). }
    exists u2, s2, ix2. split_and!; [done|by eapply rebalanced_trans|lia|]. intros j.
    rewrite Hts2, Hts. destruct (decide (j = i)) as [->|Hj].
    + rewrite decide_False by done. by rewrite decide_True by set_solver.
    + destruct (decide (j ∈ l)); [rewrite decide_True by set_solver|rewrite decide_False by set_solver]; done.
Qed.

(** No other balance shares the word of a holder. *)
Definition word_owned ix token holder : Prop :=
  ∀ j t, targets ix !! j = Some t → lt_active t = true →
    storage_slot t = Some (token, layout token holder) → erc20_holder t = Some holder.

Lemma rebalanced_lookup ix ix' j t' :
  rebalanced ix ix' → targets ix' !! j = Some t' → lt_active t' = true →
  ∃ t, targets ix !! j = Some t ∧ lt_active t = true ∧ lt_token t = lt_token t' ∧
    lt_source t = lt_source t'.
Proof. intros Hreb Ht Ha. by apply (rb_live _ _ Hreb), live_intro. Qed.

Lemma rebalanced_owned ix ix' token holder :
  rebalanced ix ix' → word_owned ix token holder → word_owned ix' token holder.
Proof.
  intros Hreb Ho j t' Ht Ha Hk.
  destruct (rebalanced_lookup _ _ _ _ Hreb Ht Ha) as (t & Ht0 & Ha0 & Htk & Hs).
  unfold erc20_holder. rewrite <-Hs. apply (Ho j t Ht0 Ha0).
  rewrite storage_slot_source in *. congruence.
Qed.

Lemma touched_live ix token holder i :
  index_wf ix → i ∈ touched_positions ix token holder → ∃ tk s, live (targets ix) i tk s.
Proof.
  intros Hwf. unfold touched_positions. case_decide; [set_solver|].
  rewrite list_elem_of_filter. intros [_ [sl Hl]%(holder_live ix (token, holder) i Hwf)]. eauto.
Qed.

Lemma touched_nodup ix token holder : index_wf ix → NoDup (touched_positions ix token holder).
Proof.
  intros Hwf. unfold touched_positions. case_decide; [apply NoDup_nil_2|].
  by apply NoDup_filter, wf_holders_nodup.
Qed.

(** One side of a transfer keeps the index sound for the moved word. *)
Lemma touches_sound σ ix ix' token holder delta (skip : bool) :
  index_wf ix → fresh_sound σ ix → word_owned ix token holder →
  (∀ j, targets ix' !! j =
     if decide (j ∈ touched_positions ix token holder) then touch skip delta <$> targets ix !! j
     else targets ix !! j) →
  fresh_sound (move_word token holder delta σ) ix'.
Proof.
  intros Hwf Hs Ho Hts. unfold move_word, touched_positions in *.
  destruct (decide (holder = 0%Z)) as [|Hz].
  { intros i t v key Ht. rewrite Hts, decide_False in Ht by set_solver. by apply (Hs i t v key). }
  intros i t v key Ht Ha Hb Hk. rewrite Hts in Ht. case_decide as Hin.
  - destruct (targets ix !! i) as [t0|] eqn:Ht0; simplify_eq/=.
    apply list_elem_of_filter in Hin as [Hsl Hin]. unfold slotted in Hsl. rewrite Ht0 in Hsl.
    apply (wf_holders _ Hwf) in Hin as (slo & t1 & Ht1 & _ & Htk & Hsrc). simpl in Htk, Hsrc.
    assert (t1 = t0) as -> by congruence. rewrite Hsrc in Hsl. destruct slo as [slot|]; [|done].
    assert (slot = layout token holder) as ->.
    { eapply (wf_layout _ Hwf i). exists t0. split_and!; [done|done|by rewrite Htk|done]. }
    assert (storage_slot t0 = Some (token, layout token holder)) as Hk0
      by (unfold storage_slot; by rewrite Hsrc, Htk).
    unfold storage_slot in Hk. simpl in Hk. fold (storage_slot t0) in Hk. rewrite Hk0 in Hk.
    injection Hk as <-. simpl. rewrite Hsrc. simpl. unfold write_word. rewrite decide_True by done.
    destruct skip; simpl in Hb; [done|]. destruct (fresh_of (lt_balance t0)) as [c|] eqn:Hc; [|done].
    injection Hb as <-. f_equal. f_equal. destruct (lt_balance t0) as [| |c'] eqn:Hb0; simplify_eq/=.
    pose proof (Hs i t0 c _ Ht1 Ha Hb0 Hk0) as Hw. rewrite Hsrc in Hw. simpl in Hw. congruence.
  - rewrite <-(Hs i t v key Ht Ha Hb Hk). f_equal. unfold write_word. apply decide_False.
    intros Heq. destruct key as [k1 k2]. simpl in Heq. injection Heq as -> ->.
    apply Hin. pose proof (Ho i t Ht Ha Hk) as Hh. unfold erc20_holder in Hh. unfold storage_slot in Hk.
    destruct (lt_source t) as [h [sl|]| |] eqn:Hsrc; simplify_eq/=.
    apply list_elem_of_filter. unfold slotted. rewrite Ht, Hsrc. split; [done|].
    apply (wf_holders _ Hwf). eexists. simpl. exists t. done.
Qed.

Lemma touched_rebalanced ix ix' token holder :
  rebalanced ix ix' → index_wf ix →
  touched_positions ix' token holder = touched_positions ix token holder.
Proof.
  intros Hreb Hwf. unfold touched_positions. case_decide; [done|]. rewrite (rb_holder _ _ Hreb).
  apply filter_ext_in. intros i Hi.
  apply (wf_holders _ Hwf) in Hi as (slo & Hl). pose proof Hl as (t & Ht & _ & _ & Hs).
  apply (rb_live _ _ Hreb) in Hl as (t' & Ht' & _ & _ & Hs'). unfold slotted.
  by rewrite Ht, Ht', Hs, Hs'.
Qed.
End transfers.

End inv.
