(* ===== verification/LiquidityBuild.v ===== *)
(** * Building and reconciling the liquidity index

    What [from_registry_with_scope] and [reconcile_pools] leave, in terms of
    [view], and the tokens a graph asks to track. *)

From S2P Require Import Prelude AmmState Petgraph Graph GraphPairs GraphInv GraphProps GraphTheorems.
From S2P Require Import Config Liquidity LiquidityProps.

Lemma NoDup_sorted_tokens tokens : NoDup (sorted_tokens tokens).
Proof. apply sorted_lt_nodup, normalized_sorted. Qed.
Lemma elem_of_sorted_tokens t tokens : t ∈ sorted_tokens tokens ↔ t ∈ tokens.
Proof. apply elem_of_normalized. Qed.

(** ** The tokens to track *)

(** Two hash maps of lists and of sets built by a loop. *)
Lemma groups_lookup {K V} `{Countable K} (l : list (K * V)) (m : gmap K (list V)) k :
  default [] (foldl (λ m '(k, v), entry_or_default [] (λ vs, vs ++ [v]) k m) m l !! k) =
  default [] (m !! k) ++ (filter (λ x, x.1 = k) l).*2.
Proof.
  revert m. induction l as [|[k' v] l IH]; intros m; simpl; [by rewrite app_nil_r|].
  rewrite IH, default_entry, filter_cons. simpl.
  destruct (decide (k' = k)); csimpl; by rewrite <-?app_assoc.
Qed.

Lemma elem_of_set_groups {A K} `{Countable K} (key : A → K) (f : A → gset Address) (l : list A)
    (m : gmap K (gset Address)) k t :
  t ∈ default ∅ (foldl (λ m x, entry_or_default ∅ (λ ts, f x ∪ ts) (key x) m) m l !! k) ↔
  t ∈ default ∅ (m !! k) ∨ ∃ x, x ∈ l ∧ key x = k ∧ t ∈ f x.
Proof.
  revert m. induction l as [|x l IH]; intros m; simpl; [set_solver|].
  rewrite IH, default_entry. case_decide; set_solver.
Qed.

Section tracked.
Context `{!AmmTypes} `{!Petgraph Address EdgeData} `{!PetgraphLaws Address EdgeData}.
Implicit Types (g : AmmGraph) (p q : PoolKey) (t a b : Address).

Definition edge_triples g : list (Address * Address * PoolKey) :=
  omap (edge_tokens g) (pg_edge_indices (graph g)).

Lemma edge_tokens_view g e : edge_tokens g e = edge_view g e.
Proof.
  unfold edge_tokens, edge_view, cached_of, node_token.
  destruct (pg_edge (graph g) e) as [[[x y] w]|]; simpl; [|done].
  destruct (pg_node_weight (graph g) x), (pg_node_weight (graph g) y); done.
Qed.

Lemma elem_of_edge_triples g a b p :
  graph_wf g →
  (a, b, p) ∈ edge_triples g ↔ ∃ ts, pool_tokens g !! p = Some ts ∧ a ∈ ts ∧ b ∈ ts ∧ a ≠ b.
Proof.
  intros Hwf. rewrite <-edges_of_pools by done. unfold edge_triples. rewrite list_elem_of_omap.
  split.
  - intros (e & _ & He). rewrite edge_tokens_view in He. unfold edge_view in He.
    destruct (cached_of g e) as [c|] eqn:Hc; simplify_eq/=. by exists e, c.
  - intros (e & c & Hc & <- & <- & <-). exists e. split.
    + apply (pg_edge_indices_spec _ _ (wf_pg _ (wf_core _ Hwf))).
      apply cached_of_Some in Hc as (x & Hx & _); [by eexists|apply Hwf].
    + rewrite edge_tokens_view. unfold edge_view. by rewrite Hc.
Qed.

Lemma NoDup_edge_triples g : graph_wf g → NoDup (edge_triples g).
Proof.
  intros Hwf. apply NoDup_omap_inj; [by apply pg_edge_indices_nodup, Hwf|].
  intros e1 e2 v _ _. rewrite !edge_tokens_view. by apply edge_view_inj.
Qed.

Lemma all_tokens_spec g p t :
  graph_wf g →
  t ∈ default ∅ (all_directed_edge_tokens_by_pool g !! p) ↔
  ∃ ts, pool_tokens g !! p = Some ts ∧ t ∈ ts.
Proof.
  intros Hwf. unfold all_directed_edge_tokens_by_pool. fold (edge_triples g).
  rewrite (foldl_ext_fun _ (λ m x, entry_or_default ∅ (λ ts, {[x.1.1; x.1.2]} ∪ ts) x.2 m))
    by (by intros ? [[]]).
  rewrite elem_of_set_groups, lookup_empty. split.
  - intros [?|([[a b] q] & Hin & Hq & Ht)]; [set_solver|]. simpl in *. subst q.
    apply elem_of_edge_triples in Hin as (ts & Hp & Ha & Hb & _); [|done].
    exists ts. set_solver.
  - intros (ts & Hp & Ht). right. pose proof (wf_topology _ Hwf p) as Htop. rewrite Hp in Htop.
    destruct Htop as (Hnd & Hlen & _).
    assert (∃ u, u ∈ ts ∧ t ≠ u) as (u & Hu & Hne).
    { destruct ts as [|x [|y ts]]; simpl in Hlen; [lia..|].
      apply NoDup_cons in Hnd as [Hx _]. destruct (decide (t = x)) as [->|]; [|set_solver].
      exists y. split; [set_solver|]. intros ->. set_solver. }
    exists (t, u, p). split; [|set_solver]. apply elem_of_edge_triples; [done|]. eauto.
Qed.

Definition pair_group g a b : list PoolKey := (filter (λ x, x.1 = (a, b)) (edge_triples g)).*2.

Lemma elem_of_pair_group g a b p : p ∈ pair_group g a b ↔ (a, b, p) ∈ edge_triples g.
Proof.
  unfold pair_group. rewrite list_elem_of_fmap. setoid_rewrite list_elem_of_filter. split.
  - intros ([[a' b'] p'] & -> & Hx & Hin). simpl in *. congruence.
  - intros Hin. by exists (a, b, p).
Qed.

Lemma NoDup_pair_group g a b : graph_wf g → NoDup (pair_group g a b).
Proof.
  intros Hwf. unfold pair_group.
  apply NoDup_fmap_2_strong; [|by apply NoDup_filter, NoDup_edge_triples].
  intros [x p] [y q] [Hx _]%list_elem_of_filter [Hy _]%list_elem_of_filter. simpl in *. congruence.
Qed.

(** Two edges of a group belong to two pools. *)
Lemma pair_group_parallel g a b p :
  graph_wf g → p ∈ pair_group g a b →
  2 ≤ length (pair_group g a b) ↔ ∃ q, q ≠ p ∧ q ∈ pair_group g a b.
Proof.
  intros Hwf Hp. pose proof (NoDup_pair_group g a b Hwf) as Hnd.
  destruct (pair_group g a b) as [|x [|y l]]; simpl; [set_solver|..].
  - split; [lia|]. set_solver.
  - split; [|lia]. intros _. apply NoDup_cons in Hnd as [Hx _].
    destruct (decide (x = p)) as [->|]; [exists y|exists x]; set_solver.
Qed.

Definition pair_groups g : gmap (Address * Address) (list PoolKey) :=
  foldl (λ m '(k, v), entry_or_default [] (λ vs, vs ++ [v]) k m) ∅ (edge_triples g).

Lemma pair_groups_lookup g a b ps :
  pair_groups g !! (a, b) = Some ps → ps = pair_group g a b.
Proof.
  intros Hps. unfold pair_group. pose proof (groups_lookup (edge_triples g) ∅ (a, b)) as Hl.
  unfold pair_groups in Hps. rewrite Hps, lookup_empty in Hl. exact Hl.
Qed.

Lemma pair_groups_elem g a b p :
  p ∈ pair_group g a b → pair_groups g !! (a, b) = Some (pair_group g a b).
Proof.
  intros Hp. pose proof (groups_lookup (edge_triples g) ∅ (a, b)) as Hl.
  fold (pair_groups g) in Hl. destruct (pair_groups g !! (a, b)) as [ps|] eqn:Hps.
  - f_equal. by apply pair_groups_lookup.
  - rewrite lookup_empty in Hl. simpl in Hl. fold (pair_group g a b) in Hl.
    rewrite <-Hl in Hp. set_solver.
Qed.

Definition group_outputs (x : Address * Address * list PoolKey) : list (Address * PoolKey) :=
  if length x.2 <? PARALLEL_EDGE_THRESHOLD then [] else (λ p, (x.1.2, p)) <$> x.2.

Lemma parallel_outputs_unfold g :
  parallel_output_tokens_by_pool g =
  foldl (λ m x, entry_or_default ∅ (λ ts, {[x.1]} ∪ ts) x.2 m) ∅
    (map_to_list (pair_groups g) ≫= group_outputs).
Proof.
  unfold parallel_output_tokens_by_pool. fold (edge_triples g).
  rewrite (foldl_ext_fun (λ m '(_, _, _), _)
    (λ (m : gmap (Address * Address) (list PoolKey)) '(k, v), entry_or_default [] (λ vs, vs ++ [v]) k m))
    by (by intros ? [[]]).
  fold (pair_groups g). rewrite foldl_bind. apply foldl_ext_fun. intros m [[a b] ps].
  unfold group_outputs. simpl. destruct (length ps <? PARALLEL_EDGE_THRESHOLD); [done|].
  by rewrite foldl_fmap_list.
Qed.

Lemma parallel_tokens_spec g p t :
  graph_wf g →
  t ∈ default ∅ (parallel_output_tokens_by_pool g !! p) ↔ ∃ q t', q ≠ p ∧ share_pair g p q t t'.
Proof.
  intros Hwf. rewrite parallel_outputs_unfold, elem_of_set_groups, lookup_empty.
  setoid_rewrite list_elem_of_bind. unfold share_pair. split.
  - intros [?|([b p'] & ([[a b'] ps] & Hx & Hin) & Hp & Ht)]; [set_solver|]. simpl in *. subst p'.
    apply elem_of_map_to_list, pair_groups_lookup in Hin. subst ps.
    apply elem_of_singleton in Ht as ->. unfold group_outputs in Hx. simpl in Hx.
    destruct (length (pair_group g a b') <? PARALLEL_EDGE_THRESHOLD) eqn:Hlen; [set_solver|].
    apply Nat.ltb_ge in Hlen. apply list_elem_of_fmap in Hx as (p' & [= -> <-] & Hp).
    apply pair_group_parallel with (p := p) in Hlen as (q & Hq & Hin); [|done|done].
    apply elem_of_pair_group, elem_of_edge_triples in Hp as (ts & Hp & Ha & Hb & Hne); [|done].
    apply elem_of_pair_group, elem_of_edge_triples in Hin as (us & Hus & Ha' & Hb' & _); [|done].
    exists q, a. split; [done|]. split; [done|]. exists ts, us. done.
  - intros (q & a & Hq & Hne & ts & us & Hp & Hus & Ht & Ha & Ht' & Ha'). right.
    assert (p ∈ pair_group g a t) as Hpg by (apply elem_of_pair_group, elem_of_edge_triples; eauto).
    exists (t, p). simpl. split; [|set_solver].
    exists ((a, t), pair_group g a t). split.
    + unfold group_outputs. simpl.
      destruct (length (pair_group g a t) <? PARALLEL_EDGE_THRESHOLD) eqn:Hlen.
      * apply Nat.ltb_lt in Hlen. unfold PARALLEL_EDGE_THRESHOLD in Hlen.
        assert (2 ≤ length (pair_group g a t)); [|lia]. apply (pair_group_parallel g a t p); [done..|].
        exists q. split; [done|]. apply elem_of_pair_group, elem_of_edge_triples; eauto.
      * apply list_elem_of_fmap. by exists p.
    + apply elem_of_map_to_list. by eapply pair_groups_elem.
Qed.

(** The tokens tracked for a pool in the scan of the whole graph are those
    computed for the pool alone. *)
Lemma tracked_by_pool_spec g scope p :
  graph_wf g → tokens_sorted g →
  default ∅ (tracked_tokens_by_pool g scope !! p) =
  tracked_tokens_for_pool g p (match scope with ParallelEdgeOutputs => true | _ => false end).
Proof.
  intros Hwf Hs. apply set_eq. intros t. rewrite tracked_tokens_spec by done.
  destruct scope; simpl; [by apply parallel_tokens_spec|by apply all_tokens_spec].
Qed.
End tracked.

Section build.
Context `{!AmmTypes} (layout : Address → Address → U256).
Context (registration_tokens : PoolRegistration → option (list Address)).
Implicit Types (ix : PoolLiquidityIndex) (p q : PoolKey) (tk : Address)
  (s : LiquiditySource) (b : BalanceState) (r : PoolRegistration) (needed : gset Address).

Abbreviation index_wf := (index_wf layout).

(** ** The previous targets of a pool *)

Lemma previous_targets_view ix p tk :
  index_wf ix → previous_targets ix p !! tk = view ix (p, tk).
Proof.
  intros Hwf. unfold previous_targets. fold (listed (by_pool ix) p).
  set (f := λ (m : gmap Address (LiquiditySource * BalanceState)) i, _).
  assert (∀ l, l ⊆ listed (by_pool ix) p → ∀ m,
    foldl f m l !! tk =
    match by_pool_token ix !! (p, tk) with
    | Some i => if decide (i ∈ l) then view ix (p, tk) else m !! tk
    | None => m !! tk
    end) as Hfold.
  { induction l as [|i l IH]; intros Hl m; cbn [foldl].
    { destruct (by_pool_token ix !! (p, tk)); [|done]. by rewrite decide_False by set_solver. }
    rewrite IH by set_solver.
    destruct (wf_pool_live _ _ Hwf p i) as (tk' & s' & t & Ht & Ha & Htk & Hs); [set_solver|].
    assert (by_pool_token ix !! (p, tk') = Some i) as Hpt.
    { apply (wf_pool_token _ _ Hwf). split; [set_solver|]. exists s', t. done. }
    assert (f m i = <[tk' := (s', lt_balance t)]> m) as Hf by (unfold f; rewrite Ht, Ha; by subst).
    rewrite Hf. destruct (decide (tk' = tk)) as [->|Hne].
    - rewrite Hpt, lookup_insert_eq. rewrite (decide_True (P := i ∈ i :: l)) by set_solver.
      case_decide; [done|]. unfold view. rewrite Hpt. simpl. rewrite Ht. simpl. by rewrite Hs.
    - rewrite lookup_insert_ne by done. destruct (by_pool_token ix !! (p, tk)) as [j|] eqn:Hj; [|done].
      apply decide_ext. rewrite elem_of_cons. split; [by right|]. intros [->|]; [|done].
      apply (wf_pool_token _ _ Hwf) in Hj as [_ (s2 & Hl2)], Hpt as [_ (s3 & Hl3)].
      by destruct (live_fun layout _ _ _ _ _ _ Hl2 Hl3) as [-> _]. }
  rewrite Hfold, lookup_empty by done. unfold view.
  destruct (by_pool_token ix !! (p, tk)) as [i|] eqn:Hi; [|done]. rewrite decide_True; [done|].
  by apply (wf_pool_token _ _ Hwf) in Hi as [? _].
Qed.

Lemma view_source_ok ix p tk s b :
  index_wf ix → view ix (p, tk) = Some (s, b) → source_ok layout tk s.
Proof.
  intros Hwf (i & Hi & Ht)%(view_Some layout); [|done]. intros h sl ->.
  eapply (wf_layout _ _ Hwf i). eexists. split_and!; [exact Ht|done..].
Qed.

(** ** The desired targets *)

(** The source of a token of a registered pool. *)
Definition desired_source (registry : AdapterRegistry) needed p tk : option LiquiditySource :=
  r ← registry_pool registry p;
  tokens ← registration_tokens r;
  source ← metadata_source r;
  if decide (tk ∈ needed ∧ tk ∈ tokens) then Some (source tk) else None.

Lemma metadata_source_slot r source tk h sl :
  metadata_source r = Some source → source tk = Erc20Balance h sl → sl = None.
Proof.
  unfold metadata_source, balancer_source, erc20_source. destruct (reg_metadata r); try done.
  all: intros [= <-]; repeat case_match; congruence.
Qed.

Lemma elem_of_desired_targets r needed tk s :
  (tk, s) ∈ desired_targets registration_tokens r needed ↔
  ∃ tokens source, registration_tokens r = Some tokens ∧ metadata_source r = Some source ∧
    tk ∈ needed ∧ tk ∈ tokens ∧ s = source tk.
Proof.
  unfold desired_targets. destruct (registration_tokens r) as [tokens|]; [|set_solver].
  destruct (metadata_source r) as [source|]; [|set_solver].
  rewrite list_elem_of_fmap. setoid_rewrite list_elem_of_filter.
  setoid_rewrite elem_of_sorted_tokens. naive_solver.
Qed.

Lemma NoDup_desired_targets r needed :
  NoDup ((desired_targets registration_tokens r needed).*1).
Proof.
  unfold desired_targets. destruct (registration_tokens r); [|constructor].
  destruct (metadata_source r); [|constructor]. rewrite <-list_fmap_compose.
  rewrite (list_fmap_ext _ id) by done. rewrite list_fmap_id.
  apply NoDup_filter, NoDup_sorted_tokens.
Qed.

(** What a reconciliation makes of one token: the source, kept with its slot
    when the holder is the same, and the balance, kept when the source is. *)
Definition keep_source (previous : option (LiquiditySource * BalanceState)) s : LiquiditySource :=
  match previous with Some (s0, _) => preserve_discovered_source s0 s | None => s end.
Definition keep_balance (previous : option (LiquiditySource * BalanceState)) s : BalanceState :=
  match previous with
  | Some (s0, b) => if decide (s0 = s) then b else BalanceUnknown
  | None => BalanceUnknown
  end.
Definition reconciled (previous : option (LiquiditySource * BalanceState)) s :
    LiquiditySource * BalanceState :=
  (keep_source previous s, keep_balance previous (keep_source previous s)).

Lemma elem_of_desired_for registry needed
    (previous : gmap Address (LiquiditySource * BalanceState)) p tk s :
  (tk, s) ∈ desired_for registration_tokens registry needed previous p ↔
  keep_source (previous !! tk) <$> desired_source registry needed p tk = Some s.
Proof.
  unfold desired_for, desired_source. destruct (registry_pool registry p) as [r|]; simpl; [|set_solver].
  assert ((tk, s) ∈ (if decide (needed = ∅) then [] else
     (λ '(token, source), (token, keep_source (previous !! token) source)) <$>
       desired_targets registration_tokens r needed) ↔
    ∃ s0, (tk, s0) ∈ desired_targets registration_tokens r needed ∧ s = keep_source (previous !! tk) s0)
    as Hl.
  { case_decide as Hn.
    - split; [set_solver|]. intros (s0 & (?&?&?&?&?&?)%elem_of_desired_targets & _). set_solver.
    - rewrite list_elem_of_fmap. split; [|intros (s0 & ? & ->); by exists (tk, s0)].
      intros ([tk' s0] & [= -> ->] & ?). by exists s0. }
  unfold keep_source in *. rewrite Hl. setoid_rewrite elem_of_desired_targets.
  destruct (registration_tokens r) as [tokens|]; cbn [mbind option_bind]; [|naive_solver].
  destruct (metadata_source r) as [source|]; cbn [mbind option_bind]; [|naive_solver].
  destruct (decide (tk ∈ needed ∧ tk ∈ tokens)); simpl; naive_solver.
Qed.

Lemma NoDup_desired_for registry needed previous p :
  NoDup ((desired_for registration_tokens registry needed previous p).*1).
Proof.
  unfold desired_for. destruct (registry_pool registry p) as [r|]; [|constructor].
  case_decide; [constructor|]. rewrite <-list_fmap_compose.
  rewrite (list_fmap_ext _ fst) by (by intros ? [] ?). apply NoDup_desired_targets.
Qed.

Lemma desired_source_ok registry needed p tk s ix :
  index_wf ix → desired_source registry needed p tk = Some s →
  source_ok layout tk (keep_source (view ix (p, tk)) s).
Proof.
  intros Hwf Hs. assert (∀ h sl, s = Erc20Balance h sl → sl = None) as Hnone.
  { unfold desired_source in Hs. destruct (registry_pool registry p) as [r|]; simplify_eq/=.
    destruct (registration_tokens r); simplify_eq/=.
    destruct (metadata_source r) as [source|] eqn:Hm; simplify_eq/=. case_decide; simplify_eq.
    intros h sl. by eapply metadata_source_slot. }
  destruct (view ix (p, tk)) as [[s0 b]|] eqn:Hv; simpl.
  - pose proof (view_source_ok _ _ _ _ _ Hwf Hv) as Hok. unfold preserve_discovered_source.
    intros h sl Heq. destruct s0 as [h0 [sl0|]| |]; [|by apply Hnone in Heq..].
    destruct s as [h1 sl1| |]; try done.
    destruct (decide (h0 = h1)); [by apply Hok|by apply Hnone in Heq].
  - by intros h sl Heq%Hnone.
Qed.

(** ** One pool *)

Lemma push_desired_spec (previous : gmap Address (LiquiditySource * BalanceState)) p l ix :
  index_wf ix → NoDup l.*1 → (∀ tk s, (tk, s) ∈ l → source_ok layout tk s) →
  (∀ tk, tk ∈ l.*1 → view ix (p, tk) = None) →
  ∃ ix', try_fold (push_desired previous p) l ix = Some ix' ∧ index_wf ix' ∧
    pool_token_counts ix' = pool_token_counts ix ∧
    (∀ q tk, q ≠ p → view ix' (q, tk) = view ix (q, tk)) ∧
    (∀ tk s, (tk, s) ∈ l → view ix' (p, tk) = Some (s, keep_balance (previous !! tk) s)) ∧
    (∀ tk, tk ∉ l.*1 → view ix' (p, tk) = view ix (p, tk)).
Proof.
  revert ix. induction l as [|[tk s] l IH]; intros ix Hwf Hnd Hok Hnone.
  { exists ix. split_and!; try done. set_solver. }
  rewrite fmap_cons in Hnd. apply NoDup_cons in Hnd as [Hin Hnd]. cbn [try_fold push_desired].
  destruct (push_spec layout ix p tk s (keep_balance (previous !! tk) s) Hwf) as
    (ix1 & Heq & Hwf1 & Hv1 & Hc1); [|by apply Hok; left|].
  { specialize (Hnone tk ltac:(left)). unfold view in Hnone.
    destruct (by_pool_token ix !! (p, tk)) as [i|] eqn:Hi; [|done]. simpl in Hnone.
    apply (wf_pool_token _ _ Hwf) in Hi as [_ (s' & t & Ht & _)]. by rewrite Ht in Hnone. }
  unfold keep_balance in Heq. rewrite Heq. simpl.
  destruct (IH ix1 Hwf1 Hnd) as (ix2 & Heq2 & Hwf2 & Hc2 & Hq2 & Hp2 & Ho2).
  { intros; apply Hok; by right. }
  { intros tk' Htk'. rewrite Hv1, decide_False by (intros [= ->]; done).
    apply Hnone. by right. }
  exists ix2. split_and!; [done|done|congruence|..].
  - intros q tk' Hq. by rewrite Hq2, Hv1, decide_False by congruence.
  - intros tk' s' [[= -> ->]|?]%elem_of_cons; [|by apply Hp2].
    by rewrite Ho2, Hv1, decide_True.
  - intros tk' [Hne Htk']%not_elem_of_cons. rewrite Ho2 by done.
    rewrite Hv1, decide_False; [done|]. by intros [= ->].
Qed.

(** ** Building *)

Lemma build_fold p (source : Address → LiquiditySource) l u ix :
  try_fold (λ '(unknown, ix) token,
    ix ← push_target ix p token (source token);
    Some (unknown + count_unknown (source token), ix)) l (u, ix) =
  (λ ix, (u + foldr Nat.add 0 ((count_unknown ∘ source) <$> l), ix)) <$>
  try_fold (push_desired ∅ p) ((λ token, (token, source token)) <$> l) ix.
Proof.
  revert u ix. induction l as [|tk l IH]; intros u ix; csimpl.
  { do 2 f_equal. lia. }
  rewrite lookup_empty. unfold push_target.
  destruct (push_target_with_balance ix p tk (source tk) BalanceUnknown) as [ix1|]; simpl; [|done].
  rewrite IH. destruct (try_fold _ _ ix1); simpl; [|done]. do 2 f_equal. lia.
Qed.

(** The source [from_registry_with_scope] gives to a token of a registration. *)
Definition built_source (tracked : gmap PoolKey (gset Address)) r tk : option LiquiditySource :=
  needed ← tracked !! reg_key r;
  tokens ← registration_tokens r;
  if length (sorted_tokens tokens) <? 2 then None
  else
    source ← metadata_source r;
    if decide (tk ∈ (needed : gset Address) ∧ tk ∈ tokens) then Some (source tk) else None.

(** The token count it records. *)
Definition built_count (tracked : gmap PoolKey (gset Address)) r : option nat :=
  _ ← tracked !! reg_key r;
  tokens ← registration_tokens r;
  if length (sorted_tokens tokens) <? 2 then None else Some (length (sorted_tokens tokens)).

Lemma index_registration_spec tracked u ix r :
  index_wf ix → (∀ tk, view ix (reg_key r, tk) = None) → pool_token_counts ix !! reg_key r = None →
  ∃ u' ix', index_registration registration_tokens tracked (u, ix) r = Some (u', ix') ∧
    index_wf ix' ∧
    (∀ q tk, view ix' (q, tk) =
       if decide (q = reg_key r) then (λ s, (s, BalanceUnknown)) <$> built_source tracked r tk
       else view ix (q, tk)) ∧
    (∀ q, pool_token_counts ix' !! q =
       if decide (q = reg_key r) then built_count tracked r else pool_token_counts ix !! q).
Proof.
  intros Hwf Hnone Hcount. unfold index_registration, built_source, built_count.
  assert (∀ (P : Address → option LiquiditySource), (∀ tk, P tk = None) →
    ∀ q tk, view ix (q, tk) =
      if decide (q = reg_key r) then (λ s, (s, BalanceUnknown)) <$> P tk else view ix (q, tk)) as Hsame.
  { intros P HP q tk. case_decide; [|done]. subst. by rewrite Hnone, HP. }
  assert (∀ q, pool_token_counts ix !! q = if decide (q = reg_key r) then None else pool_token_counts ix !! q)
    as Hsamec by (intros q; case_decide; by subst).
  destruct (tracked !! reg_key r) as [needed|]; cbn [mbind option_bind].
  2: { exists u, ix. split_and!; [done|done|by apply Hsame|done]. }
  destruct (registration_tokens r) as [tokens|]; cbn [mbind option_bind].
  2: { exists u, ix. split_and!; [done|done|by apply Hsame|done]. }
  destruct (length (sorted_tokens tokens) <? 2) eqn:Hlen.
  { exists u, ix. split_and!; [done|done|by apply Hsame|done]. }
  set (ix1 := set_token_counts _ ix).
  assert (index_wf ix1) as Hwf1 by (by apply set_token_counts_wf).
  assert (∀ q, pool_token_counts ix1 !! q = if decide (q = reg_key r)
    then Some (length (sorted_tokens tokens)) else pool_token_counts ix !! q) as Hc1.
  { intros q. simpl. case_decide; [subst; by rewrite lookup_insert_eq|by rewrite lookup_insert_ne]. }
  destruct (metadata_source r) as [source|] eqn:Hsource; cbn [mbind option_bind].
  2: { exists u, ix1. split_and!; [done|done|by apply Hsame|done]. }
  rewrite build_fold.
  set (l := filter (λ token, token ∈ needed) (sorted_tokens tokens)).
  assert (∀ tk, tk ∈ l ↔ tk ∈ needed ∧ tk ∈ tokens) as Hl.
  { intros tk. unfold l. by rewrite list_elem_of_filter, elem_of_sorted_tokens. }
  assert (((λ token, (token, source token)) <$> l).*1 = l) as Hfst.
  { rewrite <-list_fmap_compose. apply list_fmap_id. }
  destruct (push_desired_spec ∅ (reg_key r) ((λ token, (token, source token)) <$> l) ix1 Hwf1)
    as (ix2 & -> & Hwf2 & Hc2 & Hq & Hp & Ho).
  - rewrite Hfst. apply NoDup_filter, NoDup_sorted_tokens.
  - intros tk s (tk' & [= -> ->] & _)%list_elem_of_fmap. intros h sl Hs.
    by pose proof (metadata_source_slot r source tk' h _ Hsource Hs).
  - intros tk _. apply Hnone.
  - do 2 eexists. split; [reflexivity|]. split; [done|]. split; [|intros q; by rewrite Hc2, Hc1].
    intros q tk. case_decide as Hqr; [|by apply Hq]. subst q.
        destruct (decide (tk ∈ needed ∧ tk ∈ tokens)) as [Hin|Hin]; cbn [fmap option_fmap option_map].
    + rewrite (Hp tk (source tk)).
      * unfold keep_balance. by rewrite lookup_empty.
      * apply list_elem_of_fmap. exists tk. split; [done|]. apply Hl. exact Hin.
    + rewrite Ho by (rewrite Hfst, Hl; done). apply Hnone.
Qed.

Lemma from_registry_fold tracked l u ix :
  NoDup (reg_key <$> l) → index_wf ix →
  (∀ r tk, r ∈ l → view ix (reg_key r, tk) = None) →
  (∀ r, r ∈ l → pool_token_counts ix !! reg_key r = None) →
  ∃ u' ix', try_fold (index_registration registration_tokens tracked) l (u, ix) = Some (u', ix') ∧
    index_wf ix' ∧
    (∀ r, r ∈ l → (∀ tk, view ix' (reg_key r, tk) = (λ s, (s, BalanceUnknown)) <$> built_source tracked r tk) ∧
       pool_token_counts ix' !! reg_key r = built_count tracked r) ∧
    (∀ q, q ∉ reg_key <$> l → (∀ tk, view ix' (q, tk) = view ix (q, tk)) ∧
       pool_token_counts ix' !! q = pool_token_counts ix !! q).
Proof.
  revert u ix. induction l as [|r l IH]; intros u ix Hnd Hwf Hnone Hcount; cbn [try_fold].
  { exists u, ix. split_and!; [done|done|set_solver|done]. }
  rewrite fmap_cons in Hnd. apply NoDup_cons in Hnd as [Hr Hnd].
  destruct (index_registration_spec tracked u ix r Hwf) as (u1 & ix1 & -> & Hwf1 & Hv1 & Hc1);
    [intros; apply Hnone; left|apply Hcount; left|]. cbn [mbind option_bind].
  assert (∀ r', r' ∈ l → reg_key r' ≠ reg_key r) as Hne.
  { intros r' Hr' Heq. apply Hr. rewrite <-Heq. apply list_elem_of_fmap. by exists r'. }
  destruct (IH u1 ix1 Hnd Hwf1) as (u2 & ix2 & -> & Hwf2 & Hin2 & Hout2).
  { intros r' tk Hr'. rewrite Hv1, decide_False by auto. apply Hnone. by right. }
  { intros r' Hr'. rewrite Hc1, decide_False by auto. apply Hcount. by right. }
  exists u2, ix2. split_and!; [done|done|..].
  - intros r' [->|Hr']%elem_of_cons; [|by apply Hin2]. destruct (Hout2 (reg_key r) Hr) as [Hv2 Hc2].
    split; [intros tk; by rewrite Hv2, Hv1, decide_True|by rewrite Hc2, Hc1, decide_True].
  - intros q Hq. rewrite fmap_cons, not_elem_of_cons in Hq. destruct Hq as [Hq1 Hq2].
    destruct (Hout2 q Hq2) as [Hv2 Hc2].
    split; [intros tk; by rewrite Hv2, Hv1, decide_False|by rewrite Hc2, Hc1, decide_False].
Qed.

Context `{!Petgraph Address EdgeData}.

Definition needed_for (g : AmmGraph) (scope : LiquidityIndexScope) p : gset Address :=
  tracked_tokens_for_pool g p (match scope with ParallelEdgeOutputs => true | _ => false end).

(** The token count a reconciliation records. *)
Definition count_for (registry : AdapterRegistry) needed p : option nat :=
  r ← registry_pool registry p;
  tokens ← registration_tokens r;
  if decide (2 ≤ length (sorted_tokens tokens) ∧ desired_targets registration_tokens r needed ≠ [])
  then Some (length (sorted_tokens tokens)) else None.

Lemma desired_count_for registry needed previous p :
  desired_count registration_tokens registry
    (desired_for registration_tokens registry needed previous p) p = count_for registry needed p.
Proof.
  unfold desired_count, count_for. destruct (registry_pool registry p) as [r|] eqn:Hr; [|done].
  cbn [mbind option_bind].
  assert (desired_for registration_tokens registry needed previous p = [] ↔
    desired_targets registration_tokens r needed = []) as Hnil.
  { unfold desired_for. rewrite Hr. case_decide as Hn; [|by destruct (desired_targets registration_tokens r needed)].
    split; [|done]. intros _. apply elem_of_nil_inv. intros [tk s].
    rewrite elem_of_desired_targets. set_solver. }
  unfold desired_targets in *. destruct (registration_tokens r) as [tokens|]; [|done].
  cbn [mbind option_bind]. destruct (2 <=? length (sorted_tokens tokens)) eqn:Hlen; simpl.
  - apply Nat.leb_le in Hlen. case_bool_decide as Hd.
    + rewrite decide_True; [done|]. split; [done|]. by rewrite <-Hnil.
    + rewrite decide_False; [done|]. rewrite <-Hnil. tauto.
  - apply Nat.leb_gt in Hlen. rewrite decide_False; [done|]. lia.
Qed.

Lemma reconcile_pool_spec registry g scope report ix p :
  index_wf ix →
  ∃ report' ix', reconcile_pool registration_tokens registry g scope (report, ix) p =
      Some (report', ix') ∧ index_wf ix' ∧
    (∀ q tk, view ix' (q, tk) =
       if decide (q = p)
       then reconciled (view ix (p, tk)) <$> desired_source registry (needed_for g scope p) p tk
       else view ix (q, tk)) ∧
    (∀ q, pool_token_counts ix' !! q =
       if decide (q = p) then count_for registry (needed_for g scope p) p
       else pool_token_counts ix !! q).
Proof.
  intros Hwf. unfold reconcile_pool. fold (needed_for g scope p).
  set (previous := previous_targets ix p). set (needed := needed_for g scope p).
  set (desired := desired_for registration_tokens registry needed previous p).
  assert (∀ tk, previous !! tk = view ix (p, tk)) as Hprev by (intros; by apply previous_targets_view).
  destruct (remove_pool_targets_spec layout p ix Hwf) as (Hwf1 & Hv1 & Hc1).
  set (ix1 := match desired_count registration_tokens registry desired p with Some c => _ | None => _ end).
  assert (index_wf ix1 ∧ (∀ k, view ix1 k = if decide (k.1 = p) then None else view ix k) ∧
    ∀ q, pool_token_counts ix1 !! q =
      if decide (q = p) then count_for registry needed p else pool_token_counts ix !! q)
    as (Hwf2 & Hv2 & Hc2).
  { subst ix1. unfold desired. rewrite desired_count_for.
    destruct (count_for registry needed p).
    - split_and!; [by apply set_token_counts_wf|done|]. intros q. cbn [set_token_counts pool_token_counts].
      rewrite Hc1. case_decide; [subst; by rewrite lookup_insert_eq|].
      by rewrite lookup_insert_ne, lookup_delete_ne.
    - split_and!; [done|done|]. intros q. rewrite Hc1.
      case_decide; [subst; by rewrite lookup_delete_eq|by rewrite lookup_delete_ne]. }
  destruct (push_desired_spec previous p desired ix1 Hwf2) as (ix2 & -> & Hwf3 & Hc3 & Hq & Hp & Ho).
  - apply NoDup_desired_for.
  - intros tk s Hin. apply elem_of_desired_for in Hin. rewrite Hprev in Hin.
    apply fmap_Some in Hin as (s0 & Hs0 & ->). by eapply desired_source_ok.
  - intros tk _. by rewrite Hv2, decide_True.
  - do 2 eexists. split; [reflexivity|]. split; [done|]. split; [|intros q; by rewrite Hc3, Hc2].
    intros q tk. case_decide as Hqp.
    + subst q. unfold reconciled.
      destruct (desired_source registry needed p tk) as [s|] eqn:Hs; simpl.
      * rewrite <-Hprev. apply Hp, elem_of_desired_for. by rewrite Hs.
      * rewrite Ho; [by rewrite Hv2, decide_True|]. intros ([tk' s] & -> & Hin)%list_elem_of_fmap.
        apply elem_of_desired_for in Hin. simpl in Hs. by rewrite Hs in Hin.
    + rewrite Hq by done. by rewrite Hv2, decide_False.
Qed.

(** Reconciling a pool twice is reconciling it once. *)
Lemma reconciled_idem v s : reconciled (Some (reconciled v s)) s = reconciled v s.
Proof.
  unfold reconciled. simpl. assert (keep_source (Some (keep_source v s, keep_balance v (keep_source v s))) s = keep_source v s) as Hk.
  { destruct v as [[s0 b]|]; simpl; unfold preserve_discovered_source;
      repeat (case_match; simplify_eq/=; try case_decide; simplify_eq/=); congruence. }
  simpl in Hk. rewrite Hk. f_equal. by rewrite decide_True.
Qed.

Lemma reconcile_pools_spec registry g scope pools ix :
  index_wf ix →
  ∃ report ix', reconcile_pools registration_tokens registry g scope pools ix = Some (report, ix') ∧
    index_wf ix' ∧
    (∀ p tk, view ix' (p, tk) =
       if decide (p ∈ pools)
       then reconciled (view ix (p, tk)) <$> desired_source registry (needed_for g scope p) p tk
       else view ix (p, tk)) ∧
    (∀ p, pool_token_counts ix' !! p =
       if decide (p ∈ pools) then count_for registry (needed_for g scope p) p
       else pool_token_counts ix !! p).
Proof.
  intros Hwf. unfold reconcile_pools. set (l := dedup _).
  assert (∀ p, p ∈ l ↔ p ∈ pools) as Hl.
  { intros p. unfold l. by rewrite elem_of_dedup, elem_of_stable_sort. }
  set (after := λ (seen : list PoolKey) ix', index_wf ix' ∧
    (∀ p tk, view ix' (p, tk) = if decide (p ∈ seen)
       then reconciled (view ix (p, tk)) <$> desired_source registry (needed_for g scope p) p tk
       else view ix (p, tk)) ∧
    (∀ p, pool_token_counts ix' !! p =
       if decide (p ∈ seen) then count_for registry (needed_for g scope p) p
       else pool_token_counts ix !! p)).
  assert (∀ k seen report ix1, after seen ix1 →
    ∃ report' ix', try_fold (reconcile_pool registration_tokens registry g scope) k (report, ix1) =
       Some (report', ix') ∧ after (seen ++ k) ix') as Hloop.
  { induction k as [|p k IH]; intros seen report ix1 (Hwf1 & Hv1 & Hc1); cbn [try_fold].
    { exists report, ix1. by rewrite app_nil_r. }
    destruct (reconcile_pool_spec registry g scope report ix1 p Hwf1)
      as (rp2 & ix2 & -> & Hwf2 & Hv2 & Hc2).
    cbn [mbind option_bind]. destruct (IH (seen ++ [p]) rp2 ix2) as (rp3 & ix3 & -> & Haf).
    - split_and!; [done|..].
      + intros q tk. rewrite Hv2. destruct (decide (q = p)) as [->|Hq].
        * rewrite (decide_True (P := p ∈ seen ++ [p])) by set_solver. rewrite Hv1.
          case_decide; [|done]. destruct (desired_source _ _ p tk) as [s|]; simpl; [|done].
          f_equal. apply reconciled_idem.
        * rewrite Hv1. apply decide_ext. set_solver.
      + intros q. rewrite Hc2. destruct (decide (q = p)) as [->|Hq].
        * by rewrite (decide_True (P := p ∈ seen ++ [p])) by set_solver.
        * rewrite Hc1. apply decide_ext. set_solver.
    - exists rp3, ix3. by rewrite <-app_assoc in Haf. }
  destruct (Hloop l [] PoolLiquidityMutationReport_default ix) as (rp & ix' & Heq & Hwf' & Hv' & Hc').
  { split_and!; [done|..]; intros; by rewrite decide_False by set_solver. }
  exists rp, ix'. split_and!; [done|done|..].
  - intros p tk. rewrite Hv'. apply decide_ext. by rewrite Hl.
  - intros p. rewrite Hc'. apply decide_ext. by rewrite Hl.
Qed.

(** ** Building against reconciling *)

Lemma from_registry_view registry g scope :
  registry_wf registry →
  ∃ ix report,
    from_registry_with_scope registration_tokens registry g scope = Some (ix, report) ∧
    index_wf ix ∧ tracked_balances report = index_len ix ∧
    (∀ p tk, view ix (p, tk) =
       r ← registry_pool registry p; s ← built_source (tracked_tokens_by_pool g scope) r tk;
       Some (s, BalanceUnknown)) ∧
    (∀ p, pool_token_counts ix !! p =
       registry_pool registry p ≫= built_count (tracked_tokens_by_pool g scope)).
Proof.
  intros HR. unfold from_registry_with_scope. set (l := stable_sort _ _).
  assert (l ≡ₚ registry_pools registry) as Hl by apply stable_sort_perm.
  destruct (from_registry_fold (tracked_tokens_by_pool g scope) l 0 PoolLiquidityIndex_default)
    as (u & ix & -> & Hwf & Hin & Hout).
  - rewrite Hl. apply HR.
  - apply index_wf_default.
  - done.
  - intros r _. apply lookup_empty.
  - do 2 eexists. split; [reflexivity|]. split; [done|]. split; [done|].
    assert (∀ p, match registry_pool registry p with
      | Some r => r ∈ l ∧ reg_key r = p
      | None => p ∉ reg_key <$> l end) as Hreg.
    { intros p. destruct (registry_pool registry p) as [r|] eqn:Hr.
      - apply (registry_pool_spec _ HR) in Hr. by rewrite Hl.
      - rewrite Hl. intros (r & -> & Hr')%list_elem_of_fmap.
        assert (registry_pool registry (reg_key r) = Some r) by (by apply (registry_pool_spec _ HR)).
        congruence. }
    split.
    + intros p tk. specialize (Hreg p). destruct (registry_pool registry p) as [r|].
      * destruct Hreg as [Hr <-]. rewrite (proj1 (Hin r Hr)). cbn [mbind option_bind].
        by destruct (built_source _ r tk).
      * by rewrite (proj1 (Hout p Hreg)).
    + intros p. specialize (Hreg p). destruct (registry_pool registry p) as [r|].
      * destruct Hreg as [Hr <-]. apply (Hin r Hr).
      * rewrite (proj2 (Hout p Hreg)). apply lookup_empty.
Qed.

(** The tokens the adapter crate reports are those the graph indexed. *)
Definition tokens_agree (registry : AdapterRegistry) (g : AmmGraph) : Prop :=
  ∀ p ts, pool_tokens g !! p = Some ts →
    ∃ r tokens, registry_pool registry p = Some r ∧ registration_tokens r = Some tokens ∧
      sorted_tokens tokens = ts.

Context `{!PetgraphLaws Address EdgeData}.

Lemma needed_empty g scope p : pool_tokens g !! p = None → needed_for g scope p = ∅.
Proof. intros Hp. unfold needed_for, tracked_tokens_for_pool. by rewrite Hp. Qed.

(** What a reconciliation wants is what a build makes. *)
Lemma desired_is_built registry g scope p tk :
  graph_wf g → tokens_sorted g → registry_wf registry → tokens_agree registry g →
  desired_source registry (needed_for g scope p) p tk =
  (r ← registry_pool registry p; built_source (tracked_tokens_by_pool g scope) r tk).
Proof.
  intros Hwf Hs HR Hag. unfold desired_source, built_source.
  destruct (registry_pool registry p) as [r|] eqn:Hr; cbn [mbind option_bind]; [|done].
  pose proof (registry_pool_spec _ HR) as Hspec. pose proof Hr as Hr'. apply Hspec in Hr' as [_ Hk].
  rewrite Hk. pose proof (tracked_by_pool_spec g scope p Hwf Hs) as Htr.
  fold (needed_for g scope p) in Htr.
  destruct (registration_tokens r) as [tokens|] eqn:Ht; cbn [mbind option_bind].
  2: { by destruct (tracked_tokens_by_pool g scope !! p). }
  destruct (pool_tokens g !! p) as [ts|] eqn:Hp.
  - destruct (Hag p ts Hp) as (r' & tokens' & Hr2 & Ht2 & Hts). simplify_eq.
    pose proof (wf_topology _ Hwf (reg_key r)) as Htop. rewrite Hp in Htop. destruct Htop as (_ & Hlen & _).
    assert (length (sorted_tokens tokens) <? 2 = false) as -> by (apply Nat.ltb_ge; exact Hlen).
    destruct (metadata_source r) as [source|]; cbn [mbind option_bind].
    2: { by destruct (tracked_tokens_by_pool g scope !! reg_key r). }
    destruct (tracked_tokens_by_pool g scope !! reg_key r) as [needed|]; cbn [mbind option_bind default] in *.
    + simpl in Htr. by rewrite <-Htr.
    + rewrite <-Htr. apply decide_False. set_solver.
  - pose proof (needed_empty g scope p Hp) as He. rewrite He in *.
    assert (∀ (o : option (Address → LiquiditySource)) (n : gset Address), n = ∅ →
      (source ← o; if decide (tk ∈ n ∧ tk ∈ tokens) then Some (source tk) else None) = None) as Hno.
    { intros [source|] n ->; [|done]. cbn [mbind option_bind]. apply decide_False. set_solver. }
    rewrite Hno by done. destruct (tracked_tokens_by_pool g scope !! p) as [needed|];
      cbn [mbind option_bind]; [|done].
    simpl in Htr. rewrite Hno by done. by destruct (length (sorted_tokens tokens) <? 2).
Qed.
End build.
