(* ===== verification/LiquidityTheorems.v ===== *)
(** * Theorems about the liquidity index

    Transfer logs, storage updates and refreshes keep fresh balances equal to
    the words of the chain's storage; every public operation keeps the
    representation invariant; reconciling a few pools agrees with rebuilding
    the index. *)

From S2P Require Import Prelude AmmState Petgraph Graph GraphPairs GraphInv GraphProps GraphTheorems.
From S2P Require Import Config Liquidity LiquidityProps LiquidityBuild.

#[local] Arguments apply_touched : simpl never.
#[local] Arguments collect_transfer_updates : simpl never.

(** ** Words of the vault *)

(** A vault packs two 112-bit balances and a block number into a word. *)
Definition pack_cash (block high low : Z) : U256 := (block * 2 ^ 224 + high * 2 ^ 112 + low)%Z.

(** [decode_balancer_cash] recovers either packed balance, and on every
    word gives a 112-bit balance. *)
Theorem decode_balancer_cash_roundtrip :
  (∀ block high low, 0 <= high < 2 ^ 112 → 0 <= low < 2 ^ 112 →
     decode_balancer_cash (pack_cash block high low) false = low ∧
     decode_balancer_cash (pack_cash block high low) true = high)%Z ∧
  (∀ word field, 0 <= decode_balancer_cash word field < 2 ^ 112)%Z.
Proof.
  assert (Z.shiftl 1 BALANCER_CASH_BITS - 1 = Z.ones 112)%Z as Hmask by done.
  assert (∀ word field, decode_balancer_cash word field =
    (if field then word / 2 ^ 112 else word) mod 2 ^ 112)%Z as Hdec.
  { intros word field. unfold decode_balancer_cash. rewrite Hmask. unfold BALANCER_CASH_BITS.
    destruct field; rewrite Z.land_ones by lia; [by rewrite Z.shiftr_div_pow2|done]. }
  split.
  - intros block high low Hh Hl. rewrite !Hdec. unfold pack_cash.
    replace (block * 2 ^ 224 + high * 2 ^ 112 + low)%Z
      with (low + (high + block * 2 ^ 112) * 2 ^ 112)%Z by (change (2 ^ 224)%Z with (2 ^ 112 * 2 ^ 112)%Z; lia).
    rewrite Z_mod_plus_full, Z.div_add, (Z.div_small low) by lia.
    rewrite Z.add_0_l, Z_mod_plus_full, !Z.mod_small by lia. done.
  - intros word field. rewrite Hdec. apply Z.mod_pos_bound. lia.
Qed.

Section theorems.
Context `{!AmmTypes} (layout : Address → Address → U256).
Implicit Types (ix : PoolLiquidityIndex) (p q : PoolKey) (tk token holder : Address)
  (σ : Storage).

Abbreviation index_wf := (index_wf layout).

(** Distinct holders have distinct words. *)
Definition layout_injective : Prop := ∀ token h h', layout token h = layout token h' → h = h'.

(** A live target: a fresh balance is what the storage word says, a balance
    without a known word is not fresh, and a word of a vault is not the word of
    a balance. *)
Record target_ok (σ : Storage) (t : PoolLiquidityTarget) : Prop := {
  ok_word v key : lt_balance t = BalanceFresh v → storage_slot t = Some key →
    source_balance (lt_source t) (σ key.1 key.2) = Some v;
  ok_undiscovered : undiscovered t = true → fresh_of (lt_balance t) = None;
  ok_separate vault slot high h :
    lt_source t = BalancerV2VaultCash vault slot high → slot ≠ layout vault h;
}.

Definition entries_ok (σ : Storage) ix : Prop :=
  ∀ i t, targets ix !! i = Some t → lt_active t = true → target_ok σ t.

Lemma entries_fresh σ ix : entries_ok σ ix → fresh_sound σ ix.
Proof. intros Hok i t v key Ht Ha. by apply (Hok i t). Qed.

Lemma entries_owned σ ix token holder :
  layout_injective → index_wf ix → entries_ok σ ix → word_owned layout ix token holder.
Proof.
  intros Hinj Hwf Hok j t Ht Ha Hk. unfold storage_slot in Hk. unfold erc20_holder.
  destruct (lt_source t) as [h [sl|]|vault sl hi|] eqn:Hs; simplify_eq/=.
  - f_equal. apply (Hinj (lt_token t)). symmetry.
    eapply (wf_layout _ _ Hwf j). by exists t.
  - by destruct (ok_separate _ _ (Hok j t Ht Ha) token (layout token holder) hi holder Hs).
Qed.

(** Only balances changed: the words are all there is to show. *)
Lemma entries_rebalanced σ σ' ix ix' :
  entries_ok σ ix → rebalanced layout ix ix' → fresh_sound σ' ix' →
  (∀ i t t', targets ix !! i = Some t → targets ix' !! i = Some t' → undiscovered t = true →
     fresh_of (lt_balance t) = None → fresh_of (lt_balance t') = None) →
  entries_ok σ' ix'.
Proof.
  intros Hok Hreb Hfr Hund i t' Ht' Ha'.
  destruct (rebalanced_lookup _ _ _ _ _ Hreb Ht' Ha') as (t & Ht & Ha & Htk & Hs).
  pose proof (Hok i t Ht Ha) as [Hw Hu Hv]. constructor.
  - intros v key. by apply (Hfr i t').
  - intros Hun. assert (undiscovered t = true) as Hun0 by (unfold undiscovered in *; by rewrite Hs).
    by apply (Hund i t t'); [..|apply Hu].
  - intros vault slot high h Hs'. apply (Hv vault slot high h). congruence.
Qed.

Lemma entries_loses σ ix ix' : entries_ok σ ix → loses layout ix ix' → entries_ok σ ix'.
Proof.
  intros Hok [Hreb Hts]. apply (entries_rebalanced σ σ ix ix' Hok Hreb).
  - apply (fresh_sound_lost σ ix ix' (entries_fresh _ _ Hok) Hts).
  - intros i t t' Ht Ht' _ Hf. destruct (Hts i t' Ht') as (t0 & Ht0 & [->|(b & -> & Hb)]);
      [by simplify_eq|done].
Qed.

(** ** Transfer logs *)

Section transfers.
Context (signature : Z) (delta_apply : SlotDelta → U256 → U256)
  (apply_updates : AdapterCache → list StateUpdate → StateDiff * AdapterCache).
Implicit Types (tr : TokenTransfer) (cache : AdapterCache).

(** The chain's storage after a transfer. *)
Definition transfer_storage tr (σ : Storage) : Storage :=
  move_word layout delta_apply (tr_token tr) (tr_to tr) (DeltaAdd (tr_value tr))
    (move_word layout delta_apply (tr_token tr) (tr_from tr) (DeltaSub (tr_value tr)) σ).

Definition log_updates ix tr : list StateUpdate :=
  slot_updates layout ix (tr_token tr) (tr_from tr) (DeltaSub (tr_value tr)) ++
  slot_updates layout ix (tr_token tr) (tr_to tr) (DeltaAdd (tr_value tr)).

Definition log_skipped cache ix tr : list (Address * U256) :=
  let diff := (apply_updates cache (log_updates ix tr)).1 in
  if has_skipped diff then diff_skipped diff else [].

(** What one side of a transfer does to the target at a position. *)
Definition side cache ix tr holder (delta : SlotDelta) (j : nat) :
    PoolLiquidityTarget → PoolLiquidityTarget :=
  if decide (j ∈ touched_positions ix (tr_token tr) holder)
  then touch delta_apply
         (bool_decide ((tr_token tr, layout (tr_token tr) holder) ∈ log_skipped cache ix tr)) delta
  else id.

Lemma touched_updates ix tr :
  log_updates ix tr = [] →
  touched_positions ix (tr_token tr) (tr_from tr) = [] ∧
  touched_positions ix (tr_token tr) (tr_to tr) = [].
Proof.
  unfold log_updates, slot_updates. intros [Hf Ht]%app_eq_nil.
  by destruct (touched_positions ix (tr_token tr) (tr_from tr)),
    (touched_positions ix (tr_token tr) (tr_to tr)).
Qed.

Lemma decide_fmap_id {A} (P : Prop) `{!Decision P} (f : A → A) (o : option A) :
  (if decide P then f <$> o else o) = (if decide P then f else id) <$> o.
Proof. case_decide; [done|]. by destruct o. Qed.

(** A transfer log never makes the index panic.  A log that is not a
    transfer, or touches no discovered slot, changes nothing.  Otherwise the
    adapter gets one update per touched word, each touched target's balance is
    moved by the transferred value (or made stale when the adapter skipped the
    word or the balance was not fresh), and the report counts them. *)
Lemma apply_transfer_log_spec cache log ix :
  index_wf ix →
  match parse_transfer signature log with
  | None =>
      apply_transfer_log signature delta_apply apply_updates cache log ix =
      Some (TransferApplyReport_default, cache, ix)
  | Some tr =>
      ∃ report cache' ix',
        apply_transfer_log signature delta_apply apply_updates cache log ix =
          Some (report, cache', ix') ∧
        rebalanced layout ix ix' ∧
        (∀ j, targets ix' !! j =
           side cache ix tr (tr_to tr) (DeltaAdd (tr_value tr)) j ∘
           side cache ix tr (tr_from tr) (DeltaSub (tr_value tr)) j <$> targets ix !! j) ∧
        matched report = bool_decide (log_updates ix tr ≠ []) ∧
        cache' = (if decide (log_updates ix tr = []) then cache
                  else (apply_updates cache (log_updates ix tr)).2) ∧
        updated_balances report + transfer_stale_balances report =
          length (touched_positions ix (tr_token tr) (tr_from tr)) +
          length (touched_positions ix (tr_token tr) (tr_to tr)) ∧
        cache_updates report = length (log_updates ix tr)
  end.
Proof.
  intros Hwf. unfold apply_transfer_log. destruct (parse_transfer signature log) as [tr|]; [|done].
  rewrite (collect_transfer_spec layout delta_apply) by done. cbn [mbind option_bind].
  rewrite (collect_transfer_spec layout delta_apply) by done. cbn [mbind option_bind app].
  fold (log_updates ix tr). case_decide as Hlen.
  { apply nil_length_inv in Hlen. destruct (touched_updates ix tr Hlen) as [Hf Ht].
    do 3 eexists. split; [reflexivity|]. unfold side. rewrite Hf, Ht, Hlen. simpl.
    split_and!; try done.
    intros j. by destruct (targets ix !! j). }
  assert (log_updates ix tr ≠ []) as Hne by (intros Hnil; rewrite Hnil in Hlen; done).
  destruct (apply_updates cache (log_updates ix tr)) as [diff cache'] eqn:Happ.
  set (skipped := if has_skipped diff then diff_skipped diff else []).
  assert (log_skipped cache ix tr = skipped) as Hsk by (unfold log_skipped; by rewrite Happ).
  rewrite try_fold_app. unfold touches.
  destruct (apply_touches_spec layout delta_apply skipped (DeltaSub (tr_value tr)) (tr_token tr)
    (layout (tr_token tr) (tr_from tr)) (touched_positions ix (tr_token tr) (tr_from tr)) ix)
    with 0 0 as (u1 & s1 & ix1 & -> & Hreb1 & Hsum1 & Hts1); [by apply (touched_nodup layout)|done| |].
  { intros i. by apply (touched_live layout). }
  cbn [mbind option_bind].
  destruct (apply_touches_spec layout delta_apply skipped (DeltaAdd (tr_value tr)) (tr_token tr)
    (layout (tr_token tr) (tr_to tr)) (touched_positions ix (tr_token tr) (tr_to tr)) ix1)
    with u1 s1 as (u2 & s2 & ix2 & -> & Hreb2 & Hsum2 & Hts2);
    [by apply (touched_nodup layout)|by apply (rb_wf _ _ _ Hreb1)| |].
  { intros i Hi. destruct (touched_live layout ix _ _ i Hwf Hi) as (tk & s & Hl).
    exists tk, s. by apply (rb_live _ _ _ Hreb1). }
  do 3 eexists. split; [reflexivity|]. cbn [matched updated_balances transfer_stale_balances cache_updates].
  split_and!.
  - by eapply rebalanced_trans.
  - intros j. rewrite Hts2, Hts1, !decide_fmap_id. unfold side. rewrite Hsk.
    by rewrite option_fmap_compose.
  - by rewrite bool_decide_true.
  - by rewrite decide_False.
  - lia.
  - done.
Qed.

Lemma touched_discovered ix token holder i t :
  i ∈ touched_positions ix token holder → targets ix !! i = Some t → undiscovered t = false.
Proof.
  unfold touched_positions. case_decide; [set_solver|]. rewrite list_elem_of_filter.
  intros [Hs _] Ht. unfold slotted in Hs. rewrite Ht in Hs. unfold undiscovered.
  by destruct (lt_source t) as [? []| |].
Qed.

(** One side of a transfer as a step of [targets]. *)
Lemma side_sound σ ix ix1 ix2 tr holder delta (f : nat → PoolLiquidityTarget → PoolLiquidityTarget) skip :
  index_wf ix → rebalanced layout ix ix1 → fresh_sound σ ix1 →
  word_owned layout ix1 (tr_token tr) holder →
  (∀ j, f j = if decide (j ∈ touched_positions ix (tr_token tr) holder)
              then touch delta_apply skip delta else id) →
  (∀ j, targets ix2 !! j = f j <$> targets ix1 !! j) →
  fresh_sound (move_word layout delta_apply (tr_token tr) holder delta σ) ix2.
Proof.
  intros Hwf Hreb Hfr Ho Hf Hts.
  apply (touches_sound layout delta_apply σ ix1 ix2 (tr_token tr) holder delta skip
    (rb_wf _ _ _ Hreb) Hfr Ho).
  intros j. rewrite Hts, Hf, (touched_rebalanced layout ix ix1) by done.
  by rewrite decide_fmap_id.
Qed.

(** Balances that were what the storage says are what it says after. *)
Lemma transfer_sides_sound cache ix ix' tr σ :
  layout_injective → index_wf ix → rebalanced layout ix ix' →
  (∀ j, targets ix' !! j =
     side cache ix tr (tr_to tr) (DeltaAdd (tr_value tr)) j ∘
     side cache ix tr (tr_from tr) (DeltaSub (tr_value tr)) j <$> targets ix !! j) →
  entries_ok σ ix → entries_ok (transfer_storage tr σ) ix'.
Proof.
  intros Hinj Hwf Hreb Hts Hok. set (from := side cache ix tr (tr_from tr) (DeltaSub (tr_value tr))).
  set (skip := λ holder, bool_decide ((tr_token tr, layout (tr_token tr) holder) ∈ log_skipped cache ix tr)).
  set (ix1 := set_targets (imap from (targets ix)) ix).
  assert (∀ j, targets ix1 !! j = from j <$> targets ix !! j) as Hts1
    by (intros j; apply list_lookup_imap).
  assert (∀ j t, targets ix !! j = Some t → ∃ b, from j t = set_lt_balance b t) as Hfrom.
  { intros j t _. unfold from, side, touch. destruct (decide (j ∈ touched_positions ix (tr_token tr) (tr_from tr))); [eexists; reflexivity|].
    exists (lt_balance t). by destruct t. }
  assert (same_live (targets ix) (targets ix1)) as Hsame.
  { split; [simpl; by rewrite length_imap|]. intros j tk s. unfold live. rewrite Hts1.
    destruct (targets ix !! j) as [t|] eqn:Ht; simpl; [|naive_solver].
    destruct (Hfrom j t Ht) as [b ->]. split; intros (t' & [= <-] & ?); by eexists. }
  assert (rebalanced layout ix ix1) as Hreb1
    by (constructor; try done; by apply set_targets_wf).
  assert (fresh_sound (move_word layout delta_apply (tr_token tr) (tr_from tr) (DeltaSub (tr_value tr)) σ)
    ix1) as Hfr1.
  { apply (side_sound σ ix ix ix1 tr (tr_from tr) (DeltaSub (tr_value tr)) from (skip (tr_from tr)));
      [done|by apply rebalanced_refl|by apply entries_fresh|by eapply entries_owned|done|done]. }
  apply (entries_rebalanced σ _ ix ix' Hok Hreb).
  - apply (side_sound _ ix ix1 ix' tr (tr_to tr) (DeltaAdd (tr_value tr))
      (side cache ix tr (tr_to tr) (DeltaAdd (tr_value tr))) (skip (tr_to tr)));
      [done|done|done| |done|].
    + by eapply rebalanced_owned, entries_owned.
    + intros j. rewrite Hts, Hts1. apply option_fmap_compose.
  - intros i t t' Ht Ht' Hun Hf. rewrite Hts, Ht in Ht'. injection Ht' as <-. simpl.
    assert (∀ holder delta, side cache ix tr holder delta i = id) as Hid.
    { intros holder delta. unfold side. apply decide_False. intros Hin.
      by rewrite (touched_discovered _ _ _ _ _ Hin Ht) in Hun. }
    unfold from. by rewrite !Hid.
Qed.

End transfers.
(** ** The other operations *)

(** [set_balance] and [mark_stale]: sound when the balance is what the word
    says, or is no balance. *)
Lemma set_one_balance_ok σ ix p tk b :
  index_wf ix → entries_ok σ ix →
  (∀ t, lt_token t = tk → view ix (p, tk) = Some (lt_source t, lt_balance t) →
     target_ok σ t → target_ok σ (set_lt_balance b t)) →
  match target_index ix p tk with
  | None => view ix (p, tk) = None
  | Some i =>
      ∃ ix', update_target i (set_lt_balance b) ix = Some ix' ∧ index_wf ix' ∧ entries_ok σ ix' ∧
        ∀ k, view ix' k =
          if decide (k = (p, tk)) then (λ '(s, _), (s, b)) <$> view ix k else view ix k
  end.
Proof.
  intros Hwf Hok Hb. pose proof (set_one_balance_spec layout ix p tk b Hwf) as Hspec.
  destruct (target_index ix p tk) as [i|] eqn:Hi; [|done].
  destruct Hspec as (ix' & Heq & Hreb & Hview). exists ix'. split_and!; [done|apply Hreb| |done].
  intros j t' Ht' Ha'. destruct (target_index_live layout ix p tk i Hwf Hi) as [s Hl].
  destruct (update_balance_rebalanced layout i b ix tk s Hwf Hl) as (ix2 & Heq2 & _ & Hts).
  assert (ix2 = ix') as -> by congruence. rewrite Hts in Ht'. case_decide; [|by apply (Hok j)].
  subst j. destruct (targets ix !! i) as [t|] eqn:Ht; simplify_eq/=.
  destruct Hl as (t0 & Ht0 & Ha & Htk & Hs). assert (t0 = t) as -> by congruence.
  apply Hb; [done| |by apply (Hok i)]. unfold target_index in Hi. unfold view. rewrite Hi. simpl.
  by rewrite Ht.
Qed.

Lemma target_ok_lost σ b t : fresh_of b = None → target_ok σ t → target_ok σ (set_lt_balance b t).
Proof.
  intros Hb [Hw Hu Hv]. constructor; [|done|done]. intros v key Heq. simpl in Heq. by subst.
Qed.

Lemma target_ok_ext σ σ' t : (∀ a s, σ a s = σ' a s) → target_ok σ t → target_ok σ' t.
Proof. intros He [Hw Hu Hv]. constructor; [|done|done]. intros v key. rewrite <-He. apply Hw. Qed.

Lemma entries_ok_ext σ σ' ix : (∀ a s, σ a s = σ' a s) → entries_ok σ ix → entries_ok σ' ix.
Proof. intros He Hok i t Ht Ha. by apply (target_ok_ext σ), (Hok i). Qed.

(** Seeding the slot of a holder. *)
Lemma set_erc20_slot_ok σ ix token holder :
  index_wf ix → entries_ok σ ix →
  ∃ ix', set_erc20_slot token holder (layout token holder) ix = Some ix' ∧
    index_wf ix' ∧ entries_ok σ ix'.
Proof.
  intros Hwf Hok. destruct (set_erc20_slot_spec layout ix token holder _ Hwf eq_refl)
    as (ix' & Heq & Hwf' & Hts & _ & _). exists ix'. split_and!; [done|done|].
  intros i t' Ht' Ha'. rewrite Hts, list_lookup_fmap in Ht'.
  destruct (targets ix !! i) as [t|] eqn:Ht; simplify_eq/=.
  unfold set_slot in *. case_decide as Hd; [|by apply (Hok i)].
  destruct Hd as (Ha & Htk & Hh). simpl in *. pose proof (Hok i t Ht Ha) as [Hw Hu Hv].
  unfold erc20_holder in Hh. destruct (lt_source t) as [h [sl|]| |] eqn:Hs; simplify_eq/=.
  - assert (sl = layout (lt_token t) holder) as ->.
    { eapply (wf_layout _ _ Hwf i). by exists t. }
    assert (set_lt_source (Erc20Balance holder (Some (layout (lt_token t) holder))) t = t) as ->.
    { unfold set_lt_source. rewrite <-Hs. by destruct t. }
    by apply (Hok i).
  - constructor; [|done|done]. intros v key Hb. simpl in Hb. rewrite Hb in Hu.
    unfold undiscovered in Hu. rewrite Hs in Hu. by specialize (Hu eq_refl).
Qed.

(** Storage words written. *)
Lemma from_word_undiscovered w t : undiscovered (from_word w t) = undiscovered t.
Proof. unfold from_word. by destruct (source_balance (lt_source t) w). Qed.

Lemma update_slot_value_ok σ ix address slot value :
  index_wf ix → entries_ok σ ix →
  ∃ n ix', update_slot_value address slot value ix = Some (n, ix') ∧ index_wf ix' ∧
    entries_ok (write_word σ address slot value) ix'.
Proof.
  intros Hwf Hok. destruct (update_slot_value_spec layout ix address slot value Hwf)
    as (n & ix' & Heq & Hreb & _ & Hts). exists n, ix'. split_and!; [done|apply Hreb|].
  apply (entries_rebalanced σ _ ix ix' Hok Hreb).
  - by apply (update_slot_value_sound layout σ ix address slot value n ix' Hwf (entries_fresh _ _ Hok)).
  - intros i t t' Ht Ht' Hun Hf. rewrite Hts, Ht in Ht'. case_decide as Hin; simplify_eq/=; [|done].
    destruct (storage_live layout ix _ i Hwf Hin) as (t0 & Ht0 & _ & Hk). simplify_eq.
    unfold undiscovered in Hun. unfold storage_slot in Hk.
    by destruct (lt_source t) as [? []| |].
Qed.

Definition write_updates (us : list StateUpdate) (σ : Storage) : Storage :=
  foldl (λ σ u, match u with
                | UpdateSlot address slot value => write_word σ address slot value
                | _ => σ
                end) σ us.

Lemma apply_storage_updates_ok us : ∀ σ ix n,
  index_wf ix → entries_ok σ ix →
  ∃ n' ix', try_fold (λ '(updated, ix) update,
      match update with
      | UpdateSlot address slot value =>
          '(n, ix) ← update_slot_value address slot value ix; Some (updated + n, ix)
      | _ => Some (updated, ix)
      end) us (n, ix) = Some (n', ix') ∧ index_wf ix' ∧ entries_ok (write_updates us σ) ix'.
Proof.
  induction us as [|u us IH]; intros σ ix n Hwf Hok; simpl; [by exists n, ix|].
  destruct u as [address slot value| |]; [|by apply IH..].
  destruct (update_slot_value_ok σ ix address slot value Hwf Hok) as (n1 & ix1 & -> & Hwf1 & Hok1).
  simpl. by apply IH.
Qed.

(** Removed logs: the two balances are stale, whatever their words are now. *)
Definition agree_off (keys : list (Address * U256)) (σ σ' : Storage) : Prop :=
  ∀ a s, (a, s) ∉ keys → σ' a s = σ a s.

Lemma mark_holder_stale_ok σ token holder n ix :
  layout_injective → index_wf ix → entries_ok σ ix →
  ∃ n' ix', mark_holder_stale token (n, ix) holder = Some (n', ix') ∧ index_wf ix' ∧
    ∀ σ', agree_off [(token, layout token holder)] σ σ' → holder ≠ 0%Z → entries_ok σ' ix'.
Proof.
  intros Hinj Hwf Hok. unfold mark_holder_stale. case_decide; [exists n, ix; done|].
  assert (∃ n' ix', match by_token_holder ix !! (token, holder) with
    | None => Some (n, ix)
    | Some indices =>
        ix ← try_fold (λ ix i, update_target i (set_lt_balance BalanceStale) ix) indices ix;
        Some (n + length indices, ix)
    end = Some (n', ix') ∧ rebalanced layout ix ix' ∧
    ∀ j, targets ix' !! j = if decide (j ∈ listed (by_token_holder ix) (token, holder))
      then set_lt_balance BalanceStale <$> targets ix !! j else targets ix !! j)
    as (n' & ix' & -> & Hreb & Hts).
  { unfold listed. destruct (by_token_holder ix !! (token, holder)) as [indices|] eqn:Hk; simpl.
    - destruct (update_all_spec layout BalanceStale indices ix Hwf) as (ix' & -> & Hreb & Hts).
      + intros i Hi. destruct (holder_live layout ix (token, holder) i Hwf) as [slot Hl]; [|eauto].
        unfold listed. by rewrite Hk.
      + simpl. by do 2 eexists.
    - exists n, ix. split_and!; [done|by apply rebalanced_refl|done]. }
  exists n', ix'. split_and!; [done|apply Hreb|]. intros σ' Hag _.
  apply (entries_rebalanced σ σ' ix ix' Hok Hreb).
  - intros i t v key Ht Ha Hb Hk. rewrite Hts in Ht. case_decide as Hin.
    + destruct (targets ix !! i); simplify_eq/=.
    + rewrite Hag; [by apply (entries_fresh _ _ Hok i t)|]. intros Heq%list_elem_of_singleton.
      assert (key = (token, layout token holder)) as -> by (by destruct key).
      pose proof (entries_owned σ ix token holder Hinj Hwf Hok i t Ht Ha Hk) as Hh.
      apply Hin, (wf_holders _ _ Hwf). simpl. unfold erc20_holder in Hh. unfold storage_slot in Hk.
      destruct (lt_source t) as [h [sl|]| |] eqn:Hs; simplify_eq/=. eexists. by exists t.
  - intros i t t' Ht Ht' _ Hf. rewrite Hts, Ht in Ht'. by case_decide; simplify_eq/=.
Qed.

Lemma agree_off_trans k1 k2 σ σ' :
  agree_off (k1 ++ k2) σ σ' → ∃ σ1, agree_off k1 σ σ1 ∧ agree_off k2 σ1 σ'.
Proof.
  intros Hag. exists (λ a s, if decide ((a, s) ∈ k1) then σ' a s else σ a s). split; intros a s Hn.
  - by rewrite decide_False.
  - case_decide; [done|]. apply Hag. set_solver.
Qed.

Definition holder_keys token holder : list (Address * U256) :=
  if decide (holder = 0%Z) then [] else [(token, layout token holder)].

Lemma mark_holder_stale_keys σ σ' token holder n ix :
  layout_injective → index_wf ix → entries_ok σ ix → agree_off (holder_keys token holder) σ σ' →
  ∃ n' ix', mark_holder_stale token (n, ix) holder = Some (n', ix') ∧ index_wf ix' ∧ entries_ok σ' ix'.
Proof.
  unfold holder_keys. intros Hinj Hwf Hok Hag. destruct (decide (holder = 0%Z)) as [->|Hz].
  - exists n, ix. unfold mark_holder_stale. rewrite decide_True by done. split_and!; [done|done|].
    apply (entries_ok_ext σ); [|done]. intros a s. symmetry. apply Hag. set_solver.
  - destruct (mark_holder_stale_ok σ token holder n ix Hinj Hwf Hok) as (n' & ix' & Heq & Hwf' & Hok').
    exists n', ix'. split_and!; [done|done|]. by apply Hok'.
Qed.

Lemma mark_transfer_log_stale_ok signature log σ ix :
  layout_injective → index_wf ix → entries_ok σ ix →
  match parse_transfer signature log with
  | None => mark_transfer_log_stale signature log ix = Some (TransferApplyReport_default, ix)
  | Some tr =>
      ∀ σ', agree_off (holder_keys (tr_token tr) (tr_from tr) ++ holder_keys (tr_token tr) (tr_to tr)) σ σ' →
      ∃ report ix', mark_transfer_log_stale signature log ix = Some (report, ix') ∧
        index_wf ix' ∧ entries_ok σ' ix'
  end.
Proof.
  intros Hinj Hwf Hok. unfold mark_transfer_log_stale.
  destruct (parse_transfer signature log) as [tr|]; [|done]. intros σ' Hag.
  apply agree_off_trans in Hag as (σ1 & Hag1 & Hag2). cbn [try_fold].
  destruct (mark_holder_stale_keys σ σ1 (tr_token tr) (tr_from tr) 0 ix Hinj Hwf Hok Hag1)
    as (n1 & ix1 & -> & Hwf1 & Hok1). cbn [mbind option_bind].
  destruct (mark_holder_stale_keys σ1 σ' (tr_token tr) (tr_to tr) n1 ix1 Hinj Hwf1 Hok1 Hag2)
    as (n2 & ix2 & -> & Hwf2 & Hok2). cbn [mbind option_bind]. by do 2 eexists.
Qed.

(** ** Refreshing from a snapshot *)

(** The balance a snapshot gives to a target. *)
Definition word_of (storage_value : Address → U256 → option U256) (t : PoolLiquidityTarget) : option U256 :=
  '(address, slot) ← storage_slot t; w ← storage_value address slot; source_balance (lt_source t) w.

Definition has_word storage_value (t : PoolLiquidityTarget) : bool :=
  match word_of storage_value t with Some _ => true | None => false end.

Definition refreshed storage_value (t : PoolLiquidityTarget) : PoolLiquidityTarget :=
  if lt_active t then
    set_lt_balance (match word_of storage_value t with
                    | Some v => BalanceFresh v
                    | None => BalanceUnknown
                    end) t
  else t.

Definition live_count (P : PoolLiquidityTarget → bool) ix : nat :=
  length (filter (λ t, lt_active t && P t = true) (targets ix)).

Lemma refresh_target_spec sv t r :
  refresh_target sv t r =
  (refreshed sv t,
   if lt_active t then
     match word_of sv t with Some _ => add_refreshed 1 r | None => add_unknown 1 r end
   else r).
Proof.
  unfold refresh_target, refreshed, word_of. destruct (lt_active t); simpl; [|done].
  destruct (storage_slot t) as [[a s]|] eqn:Hk; simpl; [|done].
  destruct (sv a s) as [w|]; simpl; [|done].
  by destruct (slot_source_balance t _ w Hk) as [v ->].
Qed.

Lemma refresh_targets_spec sv ts r :
  ∃ u k, refresh_targets sv ts r = (refreshed sv <$> ts, add_unknown u (add_refreshed k r)) ∧
    k = length (filter (λ t, lt_active t && has_word sv t = true) ts) ∧
    u = length (filter (λ t, lt_active t && negb (has_word sv t) = true) ts).
Proof.
  revert r. induction ts as [|t ts IH]; intros r; csimpl.
  { exists 0, 0. unfold add_unknown, add_refreshed. simpl. rewrite !Nat.add_0_r. by destruct r. }
  rewrite refresh_target_spec.
  destruct (IH (if lt_active t then match word_of sv t with
    Some _ => add_refreshed 1 r | None => add_unknown 1 r end else r)) as (u & k & -> & Hk & Hu).
  rewrite !filter_cons. unfold has_word, add_refreshed, add_unknown in *.
  destruct (lt_active t) eqn:Ha; simpl; [|by exists u, k].
  destruct (word_of sv t) as [v|] eqn:Hw; simpl.
  - exists u, (S k). split_and!; [|congruence|done]. f_equal. f_equal. lia.
  - exists (S u), k. split_and!; [|done|congruence]. f_equal. f_equal. lia.
Qed.

Lemma refreshed_live sv ts : same_live ts (refreshed sv <$> ts).
Proof.
  split; [by rewrite length_fmap|]. intros i tk s. unfold live. rewrite list_lookup_fmap.
  destruct (ts !! i) as [t|]; simpl; [|naive_solver]. unfold refreshed.
  destruct (lt_active t) eqn:Ha; [|naive_solver]. split; intros (t' & [= <-] & ?); eexists; by split.
Qed.

Lemma refresh_from_snapshot_ok σ σ' sv ix :
  index_wf ix → entries_ok σ ix → (∀ a s w, sv a s = Some w → σ' a s = w) →
  index_wf (refresh_from_snapshot sv ix).2 ∧ entries_ok σ' (refresh_from_snapshot sv ix).2.
Proof.
  intros Hwf Hok Hsv. unfold refresh_from_snapshot.
  destruct (refresh_targets_spec sv (targets ix) PoolLiquidityRefreshReport_default)
    as (u & k & -> & _ & _). simpl.
  split; [apply set_targets_wf; [apply refreshed_live|done]|].
  intros i t' Ht' Ha'. simpl in Ht'. rewrite list_lookup_fmap in Ht'.
  destruct (targets ix !! i) as [t|] eqn:Ht; simplify_eq/=. unfold refreshed in *.
  destruct (lt_active t) eqn:Ha; [|simpl in Ha'; congruence].
  pose proof (Hok i t Ht Ha) as [_ Hu Hv]. constructor; [..|done].
  - intros v key Hb Hk. simpl in Hb. destruct (word_of sv t) as [v'|] eqn:Hw; simplify_eq.
    unfold storage_slot in Hk. simpl in Hk. fold (storage_slot t) in Hk. unfold word_of in Hw.
    rewrite Hk in Hw. destruct key as [a s]. simpl in *. destruct (sv a s) as [w|] eqn:Hsvw; [|done].
    by rewrite (Hsv a s w Hsvw).
  - intros Hun. simpl. unfold undiscovered in Hun. simpl in Hun. unfold word_of, storage_slot.
    by destruct (lt_source t) as [? []| |].
Qed.

(** Refreshing from an immutable snapshot gives every live target the
    balance its storage word decodes to, and [Unknown] where it has no known
    slot or the snapshot no word; nothing else changes, and the report counts
    the two kinds.  Whatever the balances were, they are afterwards what the
    storage behind the snapshot says. *)
Theorem refresh_from_snapshot_correct sv ix :
  let '(report, ix') := refresh_from_snapshot sv ix in
  ix' = set_targets (refreshed sv <$> targets ix) ix ∧
  refreshed_balances report = live_count (λ t, has_word sv t) ix ∧
  unknown_balances report = live_count (λ t, negb (has_word sv t)) ix ∧
  storage_reads report = 0 ∧ stale_balances report = 0 ∧ failures report = [] ∧
  ∀ σ σ', index_wf ix → entries_ok σ ix → (∀ a s w, sv a s = Some w → σ' a s = w) →
    index_wf ix' ∧ entries_ok σ' ix'.
Proof.
  pose proof (λ σ σ', refresh_from_snapshot_ok σ σ' sv ix) as Hok. revert Hok.
  unfold refresh_from_snapshot.
  destruct (refresh_targets_spec sv (targets ix) PoolLiquidityRefreshReport_default)
    as (u & k & -> & -> & ->). simpl. intros Hok. done.
Qed.

(** ** Refreshing through the provider *)

Section refresh.
Context {Cache : Type}
  (track_erc20_balances : Cache → Address → list Address →
     result string (option (list (Address * U256))) * Cache)
  (run_storage_syncs : list StorageSyncSpec → list (result string StorageSnapshot))
  (inject_fresh : StorageSnapshot → Cache → Cache)
  (iter_tokens : gmap Address (gset Address) → list (Address * gset Address))
  (iter_slots : gmap Address (list U256) → list (Address * list U256)).
Implicit Types (r : PoolLiquidityRefreshReport) (cache : Cache).

(** Slot discovery finds the slots of balances; the provider answers every
    specification once, with the words of [σ] at all its slots or an error; the
    iteration of a map visits its entries. *)
Record provider_ok (σ : Storage) : Prop := {
  track_layout cache token holders pairs cache' :
    track_erc20_balances cache token holders = (Ok (Some pairs), cache') →
    Forall (λ x, x.2 = layout token x.1) pairs;
  run_length specs : length (run_storage_syncs specs) = length specs;
  run_words specs i spec snap :
    specs !! i = Some spec → run_storage_syncs specs !! i = Some (Ok snap) →
    snap_target snap = spec_target spec ∧
    (∀ slot v, (slot, v) ∈ snap_entries snap → σ (spec_target spec) slot = v) ∧
    (∀ slot, slot ∈ spec_slots spec → slot ∈ (snap_entries snap).*1);
  iter_slots_perm m : iter_slots m ≡ₚ map_to_list m;
}.

Context (σ0 σ : Storage).
Hypothesis (Hprov : provider_ok σ).

(** Discovery keeps what the index knew. *)
Definition discovered ix' : Prop := index_wf ix' ∧ entries_ok σ0 ix'.

Lemma mark_holders_ok token stale holders r cache ix :
  discovered ix →
  ∃ r' ix', mark_holders token stale holders (r, cache, ix) = Some (r', cache, ix') ∧ discovered ix'.
Proof.
  intros Hd. unfold mark_holders.
  destruct (try_fold_inv (λ st : PoolLiquidityRefreshReport * Cache * PoolLiquidityIndex,
    st.1.2 = cache ∧ discovered st.2)
    (λ '(r, cache, ix) holder,
      '(n, ix) ← mark_token_holder_unknown_or_stale token holder stale ix;
      Some (if stale then add_stale n r else add_unknown n r, cache, ix)) holders (r, cache, ix))
    as ([[r' cache'] ix'] & Heq & Hc & Hd'); [done| |by simpl in Hc; subst; eauto].
  intros [[r1 c1] ix1] holder _ [Hc [Hwf1 Hok1]]. simpl in *.
  destruct (mark_token_holder_spec layout token holder stale ix1 Hwf1) as (n & ix2 & -> & Hlo).
  simpl. eexists. split; [done|]. split; [done|].
  split; [apply Hlo|by eapply entries_loses].
Qed.

Lemma discover_token_ok r cache ix entry :
  discovered ix →
  ∃ r' cache' ix', discover_token track_erc20_balances (r, cache, ix) entry = Some (r', cache', ix') ∧
    discovered ix'.
Proof.
  intros Hd. destruct entry as [token holders]. unfold discover_token.
  destruct (track_erc20_balances cache token (elements holders)) as [[[pairs|]|error] cache'] eqn:Htr.
  - apply (track_layout _ Hprov) in Htr. rewrite Forall_forall in Htr.
    destruct (try_fold_inv discovered (λ ix '(holder, slot), set_erc20_slot token holder slot ix) pairs ix)
      as (ix' & -> & Hd'); [done| |simpl; eauto].
    intros ix1 [holder slot] Hin [Hwf1 Hok1]. specialize (Htr _ Hin). simpl in Htr. subst slot.
    destruct (set_erc20_slot_ok σ0 ix1 token holder Hwf1 Hok1) as (ix2 & Heq & ?). by exists ix2.
  - destruct (mark_holders_ok token false (elements holders) r cache' ix Hd) as (r' & ix' & -> & ?). eauto.
  - destruct (mark_holders_ok token true (elements holders) r cache' ix Hd) as (r' & ix' & -> & ?).
    simpl. eauto.
Qed.

Lemma discover_ok mode r cache ix :
  discovered ix →
  ∃ r' cache' ix', discover_erc20_slots track_erc20_balances iter_tokens mode (r, cache, ix) =
      Some (r', cache', ix') ∧ discovered ix'.
Proof.
  intros Hd. unfold discover_erc20_slots.
  destruct (try_fold_inv (λ st : PoolLiquidityRefreshReport * Cache * PoolLiquidityIndex, discovered st.2)
    (discover_token track_erc20_balances)
    (iter_tokens (holders_by_token (λ t, mode_includes mode (lt_balance t) && undiscovered t) ix))
    (r, cache, ix)) as ([[r' cache'] ix'] & Heq & Hd'); [done| |eauto 6].
  intros [[r1 c1] ix1] entry _ Hd1. destruct (discover_token_ok r1 c1 ix1 entry Hd1)
    as (r2 & c2 & ix2 & -> & Hd2). by eexists.
Qed.
(** *** Synchronising words

    [settling K D]: fresh balances whose key is not in [K] are what [σ] says,
    and balances with a key in [D] are fresh. *)
Definition spec_keys (specs : list StorageSyncSpec) (key : Address * U256) : Prop :=
  ∃ spec, spec ∈ specs ∧ spec_target spec = key.1 ∧ key.2 ∈ spec_slots spec.

Record settling ix0 (K D : Address * U256 → Prop) ix : Prop := {
  st_rebalanced : rebalanced layout ix0 ix;
  st_words i t v key : targets ix !! i = Some t → lt_active t = true →
    lt_balance t = BalanceFresh v → storage_slot t = Some key → ¬ K key →
    source_balance (lt_source t) (σ key.1 key.2) = Some v;
  st_fresh i t key : targets ix !! i = Some t → lt_active t = true →
    storage_slot t = Some key → D key → fresh_of (lt_balance t) ≠ None;
  st_undiscovered i t : targets ix !! i = Some t → lt_active t = true →
    undiscovered t = true → fresh_of (lt_balance t) = None;
}.

Lemma settling_weaken ix0 K D K' D' ix :
  settling ix0 K D ix → (∀ k, K k → K' k) → (∀ k, D' k → D k) → settling ix0 K' D' ix.
Proof.
  intros [H1 H2 H3 H4] HK HD. constructor; [done|..|done].
  - intros i t v key ?????. apply (H2 i t v key); auto.
  - intros i t key ????. apply (H3 i t key); auto.
Qed.

(** All balances of one key set by a function of their targets. *)
Lemma settling_key ix0 K D D' ix ix' key f :
  settling ix0 K D ix → rebalanced layout ix ix' →
  (∀ j, targets ix' !! j = if decide (j ∈ listed (by_storage_slot ix) key)
     then f <$> targets ix !! j else targets ix !! j) →
  (∀ t, lt_active (f t) = lt_active t) → (∀ t, storage_slot (f t) = storage_slot t) →
  (∀ t v, storage_slot t = Some key → lt_balance (f t) = BalanceFresh v →
     source_balance (lt_source (f t)) (σ key.1 key.2) = Some v) →
  (∀ k, D' k → (D k ∧ k ≠ key) ∨ (k = key ∧ ∀ t, storage_slot t = Some key → fresh_of (lt_balance (f t)) ≠ None)) →
  settling ix0 (λ k, K k ∧ k ≠ key) D' ix'.
Proof.
  intros [H1 H2 H3 H4] Hreb Hts Hfa Hfk Hfw HD. pose proof (rb_wf _ _ _ H1) as Hwf.
  assert (∀ i t, targets ix !! i = Some t → lt_active t = true → storage_slot t = Some key →
    i ∈ listed (by_storage_slot ix) key) as Hin.
  { intros i t Ht Ha Hk. apply (wf_storage _ _ Hwf). exists (lt_token t), (lt_source t).
    split; [by apply live_intro|]. by rewrite <-storage_slot_source. }
  assert (∀ i t', targets ix' !! i = Some t' → ∃ t, targets ix !! i = Some t ∧
    ((storage_slot t = Some key ∧ t' = f t) ∨
     (t' = t ∧ (lt_active t = true → storage_slot t ≠ Some key)))) as Hinv.
  { intros i t' Ht'. rewrite Hts in Ht'. case_decide as Hd.
    - destruct (targets ix !! i) as [t|] eqn:Ht; simplify_eq/=. exists t. split; [done|]. left.
      destruct (storage_live layout ix key i Hwf Hd) as (t0 & ? & _ & ?). naive_solver.
    - exists t'. split; [done|]. right. split; [done|]. intros Ha Hk. apply Hd. by eapply Hin. }
  constructor.
  - by eapply rebalanced_trans.
  - intros i t' v k Ht' Ha Hb Hk HK. destruct (Hinv i t' Ht') as (t & Ht & [[Hkey ->]|[-> Hne]]).
    + rewrite Hfk in Hk. assert (k = key) as -> by congruence. by apply Hfw.
    + apply (H2 i t v k); try done. intros HKk. apply HK. split; [done|]. intros ->. by apply (Hne Ha).
  - intros i t' k Ht' Ha Hk HDk. destruct (Hinv i t' Ht') as (t & Ht & [[Hkey ->]|[-> Hne]]).
    + rewrite Hfk in Hk. assert (k = key) as -> by congruence.
      destruct (HD key HDk) as [[_ ?]|[_ Hf]]; [done|by apply Hf].
    + destruct (HD k HDk) as [[HDk' _]|[-> _]]; [by apply (H3 i t k)|by destruct (Hne Ha)].
  - intros i t' Ht' Ha Hu. destruct (Hinv i t' Ht') as (t & Ht & [[Hkey ->]|[-> Hne]]).
    + exfalso. rewrite <-(Hfk t) in Hkey. unfold undiscovered in Hu. unfold storage_slot in Hkey.
      by destruct (lt_source (f t)) as [? []| |].
    + by apply (H4 i t).
Qed.

(** One word of a snapshot. *)
Lemma settling_entry ix0 K D ix a s v :
  settling ix0 K D ix → σ a s = v →
  ∃ n ix', update_slot_value a s v ix = Some (n, ix') ∧
    settling ix0 (λ k, K k ∧ k ≠ (a, s)) (λ k, D k ∨ k = (a, s)) ix'.
Proof.
  intros Hst Hv. destruct (update_slot_value_spec layout ix a s v (rb_wf _ _ _ (st_rebalanced _ _ _ _ Hst)))
    as (n & ix' & Heq & Hreb & _ & Hts). exists n, ix'. split; [done|].
  assert (∀ t, storage_slot t = Some (a, s) → ∃ b, source_balance (lt_source t) v = Some b) as Hsome
    by (intros t; apply slot_source_balance).
  apply (settling_key ix0 K D _ ix ix' (a, s) (from_word v) Hst Hreb Hts).
  - intros t. unfold from_word. by destruct (source_balance (lt_source t) v).
  - intros t. unfold from_word. by destruct (source_balance (lt_source t) v).
  - intros t b Hk. destruct (Hsome t Hk) as [b' Hb']. unfold from_word. rewrite Hb'. simpl.
    intros [= <-]. by rewrite Hv.
  - intros k [Hk|Hk].
    + destruct (decide (k = (a, s))); [right|by left]. split; [done|].
      intros t Hkt. destruct (Hsome t Hkt) as [b' Hb']. unfold from_word. by rewrite Hb'.
    + right. split; [done|]. intros t Hkt. destruct (Hsome t Hkt) as [b' Hb']. unfold from_word. by rewrite Hb'.
Qed.

(** The words of one snapshot. *)
Lemma settling_entries ix0 a entries : ∀ K D ix r,
  settling ix0 K D ix → (∀ s v, (s, v) ∈ entries → σ a s = v) →
  ∃ r' ix', try_fold (λ '(r, ix) '(slot, value),
      '(n, ix) ← update_slot_value a slot value ix; Some (add_refreshed n r, ix)) entries (r, ix) =
      Some (r', ix') ∧
    settling ix0 (λ k, K k ∧ ¬ (k.1 = a ∧ k.2 ∈ entries.*1))
      (λ k, D k ∨ (k.1 = a ∧ k.2 ∈ entries.*1)) ix'.
Proof.
  induction entries as [|[s v] entries IH]; intros K D ix r Hst Hw; cbn [try_fold].
  - exists r, ix. split; [done|]. eapply settling_weaken; [done|..]; set_solver.
  - destruct (settling_entry ix0 K D ix a s v Hst) as (n & ix1 & -> & Hst1); [apply Hw; left|].
    cbn [mbind option_bind].
    destruct (IH _ _ ix1 (add_refreshed n r) Hst1) as (r' & ix' & -> & Hst'); [intros; apply Hw; by right|].
    exists r', ix'. split; [done|]. eapply settling_weaken; [exact Hst'|..]; intros [k1 k2]; csimpl; set_solver.
Qed.

(** A specification that failed. *)
Lemma settling_stale ix0 spec : ∀ slots K D ix n,
  settling ix0 K D ix →
  ∃ n' ix', try_fold (λ '(stale, ix) slot,
      match by_storage_slot ix !! (spec_target spec, slot) with
      | None => Some (stale, ix)
      | Some indices =>
          ix ← try_fold (λ ix i, update_target i (set_lt_balance BalanceStale) ix) indices ix;
          Some (stale + length indices, ix)
      end) slots (n, ix) = Some (n', ix') ∧
    settling ix0 (λ k, K k ∧ ¬ (k.1 = spec_target spec ∧ k.2 ∈ slots)) (λ _, False) ix'.
Proof.
  induction slots as [|s slots IH]; intros K D ix n Hst; cbn [try_fold].
  - exists n, ix. split; [done|]. eapply settling_weaken; [done|set_solver|done].
  - pose proof (rb_wf _ _ _ (st_rebalanced _ _ _ _ Hst)) as Hwf.
    assert (∃ n1 ix1, match by_storage_slot ix !! (spec_target spec, s) with
      | None => Some (n, ix)
      | Some indices =>
          ix ← try_fold (λ ix i, update_target i (set_lt_balance BalanceStale) ix) indices ix;
          Some (n + length indices, ix)
      end = Some (n1, ix1) ∧ settling ix0 (λ k, K k ∧ k ≠ (spec_target spec, s)) (λ _, False) ix1)
      as (n1 & ix1 & -> & Hst1).
    { assert (∀ ix1, rebalanced layout ix ix1 →
        (∀ j, targets ix1 !! j = if decide (j ∈ listed (by_storage_slot ix) (spec_target spec, s))
           then set_lt_balance BalanceStale <$> targets ix !! j else targets ix !! j) →
        settling ix0 (λ k, K k ∧ k ≠ (spec_target spec, s)) (λ _, False) ix1) as Hkey.
      { intros ix1 Hreb Hts.
        by apply (settling_key ix0 K D _ ix ix1 (spec_target spec, s) (set_lt_balance BalanceStale) Hst Hreb Hts). }
      unfold listed in Hkey. destruct (by_storage_slot ix !! (spec_target spec, s)) as [indices|] eqn:Hk.
      - destruct (update_all_spec layout BalanceStale indices ix Hwf) as (ix1 & -> & Hreb & Hts).
        + intros i Hi. destruct (storage_live layout ix (spec_target spec, s) i Hwf) as (t & Ht & Ha & _).
          * unfold listed. by rewrite Hk.
          * do 2 eexists. by apply live_intro.
        + simpl. do 2 eexists. split; [done|]. by apply Hkey.
      - exists n, ix. split; [done|]. apply Hkey; [by apply rebalanced_refl|done]. }
    cbn [mbind option_bind]. destruct (IH _ _ ix1 n1 Hst1) as (n' & ix' & -> & Hst').
    exists n', ix'. split; [done|]. eapply settling_weaken; [exact Hst'| |done].
    intros [k1 k2]; simpl; set_solver.
Qed.

Definition all_ok (answers : list (result string StorageSnapshot)) : Prop :=
  ∀ a, a ∈ answers → ∃ snap, a = Ok snap.

Lemma settling_answers ix0 answers : ∀ specs K D ix r cache,
  length answers = length specs →
  (∀ i spec snap, specs !! i = Some spec → answers !! i = Some (Ok snap) →
    snap_target snap = spec_target spec ∧
    (∀ slot v, (slot, v) ∈ snap_entries snap → σ (spec_target spec) slot = v) ∧
    (∀ slot, slot ∈ spec_slots spec → slot ∈ (snap_entries snap).*1)) →
  settling ix0 K D ix →
  ∃ r' cache' ix', try_fold (apply_sync inject_fresh) (zip specs answers) (r, cache, ix) =
      Some (r', cache', ix') ∧
    settling ix0 (λ k, K k ∧ ¬ spec_keys specs k)
      (λ k, all_ok answers ∧ (D k ∨ spec_keys specs k)) ix'.
Proof.
  induction answers as [|answer answers IH]; intros [|spec specs] K D ix r cache Hlen Hans Hst;
    simpl in Hlen; try lia; cbn [zip zip_with try_fold].
  { exists r, cache, ix. split; [done|]. eapply settling_weaken; [done|..].
    - intros k Hk. split; [done|]. intros (?&?&_). set_solver.
    - intros k [_ [?|(?&?&_)]]; [done|set_solver]. }
  assert (∃ r1 cache1 ix1, apply_sync inject_fresh (r, cache, ix) (spec, answer) = Some (r1, cache1, ix1) ∧
    settling ix0 (λ k, K k ∧ ¬ spec_keys [spec] k)
      (λ k, all_ok [answer] ∧ (D k ∨ spec_keys [spec] k)) ix1) as (r1 & cache1 & ix1 & -> & Hst1).
  { unfold apply_sync. destruct answer as [snap|error].
    - destruct (Hans 0 spec snap) as (Htgt & Hw & Hall); [done|done|]. rewrite Htgt.
      destruct (settling_entries ix0 (spec_target spec) (snap_entries snap) K D ix r Hst Hw)
        as (r1 & ix1 & -> & Hst1). cbn [mbind option_bind]. do 3 eexists. split; [reflexivity|].
      eapply settling_weaken; [exact Hst1|..].
      + intros k [Hk Hn]. split; [done|]. intros (sp & ->%list_elem_of_singleton & Hk1 & Hk2).
        apply Hn. split; [done|by apply Hall].
      + intros k [_ [?|(sp & ->%list_elem_of_singleton & Hk1 & Hk2)]]; [by left|right].
        split; [done|by apply Hall].
    - unfold mark_storage_spec_stale.
      destruct (settling_stale ix0 spec (spec_slots spec) K D ix 0 Hst) as (n & ix1 & -> & Hst1).
      cbn [mbind option_bind]. do 3 eexists. split; [reflexivity|]. eapply settling_weaken; [exact Hst1|..].
      + intros k [Hk Hn]. split; [done|]. intros (sp & ->%list_elem_of_singleton & Hk1 & Hk2).
        by apply Hn.
      + intros k [Hok _]. destruct (Hok (Err error)) as [? ?]; [left|done]. }
  cbn [mbind option_bind].
  destruct (IH specs _ _ ix1 r1 cache1 ltac:(lia) (λ i, Hans (S i)) Hst1)
    as (r' & cache' & ix' & -> & Hst').
  exists r', cache', ix'. split; [done|]. eapply settling_weaken; [exact Hst'|..].
  - intros k [[Hk Hn] Hn']. split; [done|]. intros (sp & [->|Hsp]%elem_of_cons & Hk1 & Hk2).
    + apply Hn. exists spec. set_solver.
    + apply Hn'. by exists sp.
  - intros k [Hok Hk]. split; [intros a Ha; apply Hok; by right|].
    destruct Hk as [Hk|(sp & [->|Hsp]%elem_of_cons & Hk1 & Hk2)].
    + left. split; [|by left]. intros a ->%list_elem_of_singleton. apply Hok. left.
    + left. split; [intros a ->%list_elem_of_singleton; apply Hok; left|]. right. exists spec. set_solver.
    + right. by exists sp.
Qed.
(** *** The whole refresh *)

Lemma collect_slots_covers mode ts : ∀ m r t key,
  t ∈ ts → lt_active t = true → mode_includes mode (lt_balance t) = true →
  storage_slot t = Some key →
  key.2 ∈ default [] ((foldl (collect_slots mode) (m, r) ts).1 !! key.1).
Proof.
  assert (∀ ts m r key, key.2 ∈ default [] (m !! key.1) →
    key.2 ∈ default [] ((foldl (collect_slots mode) (m, r) ts).1 !! key.1)) as Hkeep.
  { induction ts0 as [|t ts0 IH]; intros m r key Hk; simpl; [done|].
    destruct (lt_active t && mode_includes mode (lt_balance t)); [|by apply IH].
    destruct (storage_slot t) as [[a s]|]; [|by apply IH].
    apply IH. rewrite default_entry. case_decide; [subst; set_solver|done]. }
  induction ts as [|t0 ts IH]; intros m r t key Hin Ha Hm Hk; [set_solver|]. cbn [foldl].
  apply elem_of_cons in Hin as [->|Hin].
  - unfold collect_slots at 2. rewrite Ha, Hm, Hk. simpl. destruct key as [a s].
    apply Hkeep. rewrite default_entry, decide_True by done. set_solver.
  - destruct (collect_slots mode (m, r) t0) as [m1 r1]. by apply (IH m1 r1 t key).
Qed.

Lemma storage_specs_covers m key :
  key.2 ∈ default [] (m !! key.1) → spec_keys (storage_specs iter_slots m) key.
Proof.
  destruct key as [a s]. simpl. intros Hs. destruct (m !! a) as [slots|] eqn:Hm; [|set_solver].
  exists {| spec_target := a; spec_slots := dedup (stable_sort address_le slots) |}. simpl.
  split_and!; [|done|by apply elem_of_normalized].
  unfold storage_specs. rewrite elem_of_stable_sort, list_elem_of_filter. simpl. split.
  - intros Hnil. apply (elem_of_normalized slots s) in Hs. rewrite Hnil in Hs. set_solver.
  - apply list_elem_of_fmap. exists (a, slots). split; [done|].
    rewrite (iter_slots_perm _ Hprov). by apply elem_of_map_to_list.
Qed.

Lemma refresh_spec mode cache ix :
  index_wf ix → entries_ok σ0 ix →
  (mode = RefreshAll ∨ ∀ a s, σ0 a s = σ a s) →
  ∃ r cache' ix',
    refresh track_erc20_balances run_storage_syncs inject_fresh iter_tokens iter_slots mode cache ix =
      Some (r, cache', ix') ∧
    index_wf ix' ∧ entries_ok σ ix' ∧
    (mode = RefreshAll → (∀ specs, all_ok (run_storage_syncs specs)) →
     ∀ i t key, targets ix' !! i = Some t → lt_active t = true → storage_slot t = Some key →
       fresh_of (lt_balance t) ≠ None).
Proof.
  intros Hwf Hok Hmode. unfold refresh.
  destruct (discover_ok mode PoolLiquidityRefreshReport_default cache ix (conj Hwf Hok))
    as (r1 & cache1 & ix1 & -> & Hwf1 & Hok1). cbn [mbind option_bind].
  destruct (foldl (collect_slots mode) (∅, r1) (targets ix1)) as [m r2] eqn:Hm.
  set (specs := storage_specs iter_slots m).
  assert (∀ i t key, targets ix1 !! i = Some t → lt_active t = true → storage_slot t = Some key →
    mode = RefreshAll → spec_keys specs key) as Hcover.
  { intros i t key Ht Ha Hk ->. apply storage_specs_covers.
    pose proof (collect_slots_covers RefreshAll (targets ix1) ∅ r1 t key) as Hc.
    rewrite Hm in Hc. apply Hc; [by eapply list_elem_of_lookup_2|done..]. }
  assert (settling ix1 (spec_keys specs) (λ _, False) ix1) as Hst.
  { constructor; [by apply rebalanced_refl| |done|].
    - intros i t v key Ht Ha Hb Hk Hn. destruct Hmode as [Hall|Heq].
      + destruct Hn. by apply (Hcover i t key).
      + rewrite <-Heq. by apply (Hok1 i t).
    - intros i t Ht Ha Hu. by apply (Hok1 i t). }
  set (r3 := Build_PoolLiquidityRefreshReport _ _ _ _ _).
  assert (∃ r' cache' ix', (if decide (specs = []) then Some (r3, cache1, ix1)
      else try_fold (apply_sync inject_fresh) (zip specs (run_storage_syncs specs)) (r3, cache1, ix1)) =
      Some (r', cache', ix') ∧
    settling ix1 (λ k, spec_keys specs k ∧ ¬ spec_keys specs k)
      (λ k, all_ok (run_storage_syncs specs) ∧ (False ∨ spec_keys specs k)) ix')
    as (r' & cache' & ix' & -> & Hst').
  { case_decide as Hnil.
    - exists r3, cache1, ix1. split; [done|]. eapply settling_weaken; [exact Hst|..].
      + intros k (sp & Hsp & _). rewrite Hnil in Hsp. set_solver.
      + intros k [_ [[]|(sp & Hsp & _)]]. rewrite Hnil in Hsp. set_solver.
    - apply settling_answers; [by apply (run_length _ Hprov)| |done].
      intros i spec snap. by apply (run_words _ Hprov). }
  exists r', cache', ix'. pose proof (st_rebalanced _ _ _ _ Hst') as Hreb.
  split_and!; [done|apply Hreb|..].
  - intros i t Ht Ha. destruct (rebalanced_lookup _ _ _ _ _ Hreb Ht Ha) as (t1 & Ht1 & Ha1 & _ & Hs1).
    constructor.
    + intros v key Hb Hk. apply (st_words _ _ _ _ Hst' i t v key); tauto.
    + intros Hu. by apply (st_undiscovered _ _ _ _ Hst' i t).
    + intros vault slot high h Hs. apply (ok_separate _ _ (Hok1 i t1 Ht1 Ha1) vault slot high h).
      congruence.
  - intros Hall Hans i t key Ht Ha Hk.
    destruct (rebalanced_lookup _ _ _ _ _ Hreb Ht Ha) as (t1 & Ht1 & Ha1 & Htk1 & Hs1).
    apply (st_fresh _ _ _ _ Hst' i t key); try done. split; [apply Hans|right].
    apply (Hcover i t1 key); try done. rewrite storage_slot_source in *. congruence.
Qed.

(** C33: A refresh through the provider returns, keeps the representation
    invariant, and leaves every fresh balance equal to what its storage word
    says: [refresh_all] whatever the balances were before, [refresh_stale] when
    the fresh ones were right.  When no read fails, [refresh_all] leaves every
    balance with a known slot fresh. *)
Theorem refresh_correct mode cache ix :
  index_wf ix → entries_ok σ0 ix →
  (mode = RefreshAll ∨ ∀ a s, σ0 a s = σ a s) →
  ∃ r cache' ix',
    refresh track_erc20_balances run_storage_syncs inject_fresh iter_tokens iter_slots mode cache ix =
      Some (r, cache', ix') ∧
    index_wf ix' ∧ entries_ok σ ix' ∧
    (mode = RefreshAll → (∀ specs, all_ok (run_storage_syncs specs)) →
     ∀ i t key, targets ix' !! i = Some t → lt_active t = true → storage_slot t = Some key →
       fresh_of (lt_balance t) ≠ None).
Proof. apply refresh_spec. Qed.
End refresh.

(** ** Every public operation *)

Definition as_target tk (x : LiquiditySource * BalanceState) : PoolLiquidityTarget :=
  {| lt_token := tk; lt_source := x.1; lt_balance := x.2; lt_active := true |}.

Lemma entries_ok_view σ ix :
  index_wf ix →
  entries_ok σ ix ↔ ∀ p tk x, view ix (p, tk) = Some x → target_ok σ (as_target tk x).
Proof.
  intros Hwf. split.
  - intros Hok p tk [s b] (i & _ & Ht)%(view_Some layout); [|done]. by apply (Hok i).
  - intros Hok i t Ht Ha.
    destruct (wf_live_pool _ _ Hwf i _ _ (live_intro _ _ _ Ht Ha)) as [p Hp].
    assert (as_target (lt_token t) (lt_source t, lt_balance t) = t) as <- by (destruct t; simpl in *; by subst).
    apply (Hok p), (view_Some layout); [done|]. exists i. split; [done|]. rewrite Ht.
    destruct t; simpl in *; by subst.
Qed.

(** The vaults of a registry keep their words apart from balances. *)
Definition registry_separate (registry : AdapterRegistry) : Prop :=
  ∀ r source tk vault slot high h, r ∈ registry_pools registry → metadata_source r = Some source →
    source tk = BalancerV2VaultCash vault slot high → slot ≠ layout vault h.

Section reachable.
Context `{!Petgraph Address EdgeData} `{!PetgraphLaws Address EdgeData}.
Context (registration_tokens : PoolRegistration → option (list Address)).
Context (signature : Z) (delta_apply : SlotDelta → U256 → U256)
  (apply_updates : AdapterCache → list StateUpdate → StateDiff * AdapterCache).

Lemma reconciled_ok σ registry needed ix p tk s :
  registry_wf registry → registry_separate registry → index_wf ix → entries_ok σ ix →
  desired_source registration_tokens registry needed p tk = Some s →
  target_ok σ (as_target tk (reconciled (view ix (p, tk)) s)).
Proof.
  intros HR Hsep Hwf Hok Hs.
  assert (∀ vault slot high h, s = BalancerV2VaultCash vault slot high → slot ≠ layout vault h) as Hv.
  { unfold desired_source in Hs. destruct (registry_pool registry p) as [r|] eqn:Hr; simplify_eq/=.
    apply (registry_pool_spec _ HR) in Hr as [Hr _].
    destruct (registration_tokens r); simplify_eq/=.
    destruct (metadata_source r) as [source|] eqn:Hm; simplify_eq/=. case_decide; simplify_eq.
    intros vault slot high h. by apply (Hsep r source tk). }
  assert (∀ vault slot high h, keep_source (view ix (p, tk)) s = BalancerV2VaultCash vault slot high →
    slot ≠ layout vault h) as Hkv.
  { intros vault slot high h. unfold keep_source. destruct (view ix (p, tk)) as [[s0 b]|]; [|by apply Hv].
    unfold preserve_discovered_source. destruct s0 as [h0 [sl0|]| |]; try by apply Hv.
    destruct s as [h1 sl1| |]; try by apply Hv. destruct (decide (h0 = h1)); [done|by apply Hv]. }
  unfold reconciled. set (s' := keep_source (view ix (p, tk)) s) in *. unfold keep_balance.
  destruct (view ix (p, tk)) as [[s0 b]|] eqn:Hview; [|by constructor].
  destruct (decide (s0 = s')) as [<-|]; [|by constructor].
  by apply (proj1 (entries_ok_view σ ix Hwf) Hok p tk (s0, b)).
Qed.

Lemma reconcile_pools_ok σ registry g scope pools ix :
  registry_wf registry → registry_separate registry → index_wf ix → entries_ok σ ix →
  ∃ report ix', reconcile_pools registration_tokens registry g scope pools ix = Some (report, ix') ∧
    index_wf ix' ∧ entries_ok σ ix'.
Proof.
  intros HR Hsep Hwf Hok.
  destruct (reconcile_pools_spec layout registration_tokens registry g scope pools ix Hwf)
    as (report & ix' & Heq & Hwf' & Hview & _).
  exists report, ix'. split_and!; [done|done|]. apply entries_ok_view; [done|]. intros p tk x.
  rewrite Hview. case_decide; [|by apply entries_ok_view].
  intros (s & Hs & ->)%fmap_Some. by eapply reconciled_ok.
Qed.

Lemma from_registry_ok σ registry g scope :
  registry_wf registry → registry_separate registry →
  ∃ ix report, from_registry_with_scope registration_tokens registry g scope = Some (ix, report) ∧
    index_wf ix ∧ entries_ok σ ix.
Proof.
  intros HR Hsep. destruct (from_registry_view layout registration_tokens registry g scope HR)
    as (ix & report & Heq & Hwf & _ & Hview & _).
  exists ix, report. split_and!; [done|done|]. apply entries_ok_view; [done|]. intros p tk x.
  rewrite Hview. destruct (registry_pool registry p) as [r|] eqn:Hr; [|done]. cbn [mbind option_bind].
  destruct (built_source registration_tokens _ r tk) as [s|] eqn:Hs; simpl; [|done]. intros [= <-].
  constructor; [done|done|]. simpl. apply (registry_pool_spec _ HR) in Hr as [Hr _].
  unfold built_source in Hs. destruct (tracked_tokens_by_pool g scope !! reg_key r); simplify_eq/=.
  destruct (registration_tokens r) as [tokens|]; simplify_eq/=.
  destruct (length (sorted_tokens tokens)) as [|[]]; simplify_eq/=.
  destruct (metadata_source r) as [source|] eqn:Hm; simplify_eq/=. case_decide; simplify_eq.
  intros vault slot high h. by apply (Hsep r source tk).
Qed.

(** The chain's storage and the index.  Each rule is a public operation with
    what its caller knows about the storage, [step_chain] a change of words no
    fresh balance stands for. *)
Inductive index_step : (Storage * PoolLiquidityIndex) → (Storage * PoolLiquidityIndex) → Prop :=
  | step_chain σ σ' ix :
      (∀ i t v key, targets ix !! i = Some t → lt_active t = true → lt_balance t = BalanceFresh v →
         storage_slot t = Some key → σ' key.1 key.2 = σ key.1 key.2) →
      index_step (σ, ix) (σ', ix)
  | step_set_balance σ ix p tk v ix' :
      set_balance ix p tk v = Some (Ok ix') →
      (∀ t, lt_token t = tk → view ix (p, tk) = Some (lt_source t, lt_balance t) →
         undiscovered t = false ∧
         ∀ key, storage_slot t = Some key → source_balance (lt_source t) (σ key.1 key.2) = Some v) →
      index_step (σ, ix) (σ, ix')
  | step_mark_stale σ ix p tk ix' :
      mark_stale ix p tk = Some (Ok ix') → index_step (σ, ix) (σ, ix')
  | step_seed_slot σ ix token holder n ix' :
      set_erc20_balance_slot token holder (layout token holder) ix = Some (n, ix') →
      index_step (σ, ix) (σ, ix')
  | step_transfer σ ix cache log tr report cache' ix' :
      parse_transfer signature log = Some tr →
      apply_transfer_log signature delta_apply apply_updates cache log ix = Some (report, cache', ix') →
      index_step (σ, ix) (transfer_storage delta_apply tr σ, ix')
  | step_removed_log σ σ' ix log tr report ix' :
      parse_transfer signature log = Some tr →
      mark_transfer_log_stale signature log ix = Some (report, ix') →
      agree_off (holder_keys (tr_token tr) (tr_from tr) ++ holder_keys (tr_token tr) (tr_to tr)) σ σ' →
      index_step (σ, ix) (σ', ix')
  | step_updates σ ix us n ix' :
      apply_storage_updates us ix = Some (n, ix') →
      index_step (σ, ix) (write_updates us σ, ix')
  | step_snapshot σ σ' ix sv :
      (∀ a s w, sv a s = Some w → σ' a s = w) →
      index_step (σ, ix) (σ', (refresh_from_snapshot sv ix).2)
  | step_refresh σ σ' ix Cache track run inject iter_tokens iter_slots mode (cache : Cache) r cache' ix' :
      provider_ok track run iter_slots σ' → (mode = RefreshAll ∨ ∀ a s, σ a s = σ' a s) →
      refresh track run inject iter_tokens iter_slots mode cache ix = Some (r, cache', ix') →
      index_step (σ, ix) (σ', ix')
  | step_reconcile σ ix registry g scope pools report ix' :
      registry_wf registry → registry_separate registry →
      reconcile_pools registration_tokens registry g scope pools ix = Some (report, ix') →
      index_step (σ, ix) (σ, ix').

(** No public operation panics. *)
Record never_panics ix : Prop := {
  np_set_balance p tk v : is_Some (set_balance ix p tk v);
  np_mark_stale p tk : is_Some (mark_stale ix p tk);
  np_seed token holder : is_Some (set_erc20_balance_slot token holder (layout token holder) ix);
  np_transfer cache log : is_Some (apply_transfer_log signature delta_apply apply_updates cache log ix);
  np_removed log : is_Some (mark_transfer_log_stale signature log ix);
  np_updates us : is_Some (apply_storage_updates us ix);
  np_reconcile registry g scope pools :
    is_Some (reconcile_pools registration_tokens registry g scope pools ix);
}.

Definition index_ok (st : Storage * PoolLiquidityIndex) : Prop := index_wf st.2 ∧ entries_ok st.1 st.2.

Lemma index_step_ok st st' :
  layout_injective → index_step st st' → index_ok st → index_ok st'.
Proof.
  unfold index_ok. intros Hinj. destruct 1 as [σ σ' ix Hsame|σ ix p tk v ix' Heq Hv|σ ix p tk ix' Heq
    |σ ix token holder n ix' Heq|σ ix cache log tr report cache' ix' Hp Heq
    |σ σ' ix log tr report ix' Hp Heq Hag|σ ix us n ix' Heq|σ σ' ix sv Hsv
    |σ σ' ix Cache track run inject iter_tokens iter_slots mode cache r cache' ix' Hprov Hm Heq
    |σ ix registry g scope pools report ix' HR Hsep Heq]; simpl; intros [Hwf Hok].
  - split; [done|]. intros i t Ht Ha. pose proof (Hok i t Ht Ha) as [Hw Hu Hs].
    constructor; [|done|done]. intros v key Hb Hk. rewrite (Hsame i t v key Ht Ha Hb Hk). by apply Hw.
  - unfold set_balance in Heq. pose proof (set_one_balance_ok σ ix p tk (BalanceFresh v) Hwf Hok) as Hone.
    destruct (target_index ix p tk) as [i|]; [|done]. destruct Hone as (ix2 & Hup & Hwf2 & Hok2 & _).
    + intros t Htk Hview [Hw Hu Hs]. destruct (Hv t Htk Hview) as [Hun Hword].
      constructor; [|by unfold undiscovered in *; simpl; rewrite Hun|done].
      intros v' key [= <-]. by apply Hword.
    + rewrite Hup in Heq. by simplify_eq/=.
  - unfold mark_stale in Heq. pose proof (set_one_balance_ok σ ix p tk BalanceStale Hwf Hok) as Hone.
    destruct (target_index ix p tk) as [i|]; [|done]. destruct Hone as (ix2 & Hup & Hwf2 & Hok2 & _).
    + intros t _ _. by apply target_ok_lost.
    + rewrite Hup in Heq. by simplify_eq/=.
  - unfold set_erc20_balance_slot in Heq.
    destruct (set_erc20_slot_ok σ ix token holder Hwf Hok) as (ix2 & Hset & ? & ?).
    rewrite Hset in Heq. by simplify_eq/=.
  - pose proof (apply_transfer_log_spec signature delta_apply apply_updates cache log ix Hwf) as Hspec.
    rewrite Hp in Hspec. destruct Hspec as (? & ? & ix2 & Heq2 & Hreb & Hts & _). simplify_eq.
    split; [apply Hreb|]. by apply (transfer_sides_sound delta_apply apply_updates cache ix).
  - pose proof (mark_transfer_log_stale_ok signature log σ ix Hinj Hwf Hok) as Hspec. rewrite Hp in Hspec.
    destruct (Hspec σ' Hag) as (? & ix2 & Heq2 & ? & ?). by simplify_eq.
  - destruct (apply_storage_updates_ok us σ ix 0 Hwf Hok) as (n' & ix2 & Heq2 & ? & ?).
    unfold apply_storage_updates in Heq. by simplify_eq.
  - by apply (refresh_from_snapshot_ok σ).
  - destruct (refresh_spec track run inject iter_tokens iter_slots σ σ' Hprov mode cache ix Hwf Hok Hm)
      as (? & ? & ix2 & Heq2 & ? & ? & _). by simplify_eq.
  - destruct (reconcile_pools_ok σ registry g scope pools ix HR Hsep Hwf Hok) as (? & ix2 & Heq2 & ? & ?).
    by simplify_eq.
Qed.

Lemma wf_never_panics ix : index_wf ix → never_panics ix.
Proof.
  intros Hwf. constructor.
  - intros p tk v. unfold set_balance.
    pose proof (set_one_balance_spec layout ix p tk (BalanceFresh v) Hwf) as Hone.
    destruct (target_index ix p tk); [|by eexists]. destruct Hone as (? & -> & _). by eexists.
  - intros p tk. unfold mark_stale.
    pose proof (set_one_balance_spec layout ix p tk BalanceStale Hwf) as Hone.
    destruct (target_index ix p tk); [|by eexists]. destruct Hone as (? & -> & _). by eexists.
  - intros token holder. unfold set_erc20_balance_slot.
    destruct (set_erc20_slot_spec layout ix token holder _ Hwf eq_refl) as (? & -> & _). by eexists.
  - intros cache log.
    pose proof (apply_transfer_log_spec signature delta_apply apply_updates cache log ix Hwf) as Hspec.
    destruct (parse_transfer signature log); [destruct Hspec as (? & ? & ? & -> & _)|rewrite Hspec]; by eexists.
  - intros log. unfold mark_transfer_log_stale.
    destruct (parse_transfer signature log) as [tr|]; [|by eexists]. cbn [try_fold].
    destruct (mark_holder_stale_spec layout (tr_token tr) (0, ix) (tr_from tr) Hwf) as ([n1 ix1] & -> & [Hr1 _]).
    cbn [mbind option_bind].
    destruct (mark_holder_stale_spec layout (tr_token tr) (n1, ix1) (tr_to tr) (rb_wf _ _ _ Hr1))
      as ([n2 ix2] & -> & _). by eexists.
  - intros us. unfold apply_storage_updates.
    destruct (try_fold_inv (λ st : nat * PoolLiquidityIndex, index_wf st.2)
      (λ '(updated, ix) update,
        match update with
        | UpdateSlot address slot value =>
            '(n, ix) ← update_slot_value address slot value ix; Some (updated + n, ix)
        | _ => Some (updated, ix)
        end) us (0, ix)) as (? & -> & _); [done| |by eexists].
    intros [n ix0] [a s v| |] _ Hwf0; simpl in *; [|by eexists..].
    destruct (update_slot_value_spec layout ix0 a s v Hwf0) as (k & ix1 & -> & Hreb & _).
    simpl. eexists. split; [done|]. apply Hreb.
  - intros registry g scope pools.
    destruct (reconcile_pools_spec layout registration_tokens registry g scope pools ix Hwf)
      as (? & ? & -> & _). by eexists.
Qed.


(** ** Reconciling agrees with rebuilding *)

(** A source up to the slot discovery has found. *)
Definition erase_slot (s : LiquiditySource) : LiquiditySource :=
  match s with Erc20Balance h _ => Erc20Balance h None | _ => s end.

Definition tracked ix (k : PoolKey * Address) : option LiquiditySource := erase_slot ∘ fst <$> view ix k.

Lemma erase_keep_source v s : erase_slot (keep_source v s) = erase_slot s.
Proof.
 
  destruct v as [[s0 b]|]; [|done]. simpl. unfold preserve_discovered_source.
  destruct s0 as [h0 [sl0|]| |]; [|done..]. destruct s as [h1 sl1| |]; [|done..].
  destruct (decide (h0 = h1)); [by subst|done].
Qed.

(** C31: When the graph changed only around some pools, reconciling those pools
    tracks exactly what rebuilding the index from the registry tracks.  A
    target whose source did not change keeps its discovered slot and its
    balance, every other target of the pools starts unknown, targets of other
    pools are untouched, and pools with a target have the token count of a
    rebuilt index. *)
Theorem reconcile_agrees_with_rebuild registry g scope pools ix fresh report :
  graph_wf g → tokens_sorted g → registry_wf registry → tokens_agree registration_tokens registry g →
  index_wf ix → from_registry_with_scope registration_tokens registry g scope = Some (fresh, report) →
  (∀ p, p ∉ pools → (∀ tk, tracked ix (p, tk) = tracked fresh (p, tk)) ∧
     pool_token_counts ix !! p = pool_token_counts fresh !! p) →
  ∃ report' ix',
    reconcile_pools registration_tokens registry g scope pools ix = Some (report', ix') ∧
    index_wf ix' ∧
    (∀ k, tracked ix' k = tracked fresh k) ∧
    (∀ p tk s, p ∈ pools → tracked ix' (p, tk) = Some s →
       ∃ s', view ix' (p, tk) = Some (reconciled (view ix (p, tk)) s') ∧ erase_slot s' = s) ∧
    (∀ p tk, p ∉ pools → view ix' (p, tk) = view ix (p, tk)) ∧
    (∀ p tk, is_Some (view ix' (p, tk)) → is_two_token_pool ix' p = is_two_token_pool fresh p).
Proof.
  intros Hg Hs HR Hag Hwf Hfresh Hother.
  destruct (from_registry_view layout registration_tokens registry g scope HR)
    as (ix1 & rep1 & Heq1 & _ & _ & Hview1 & Hcount1). simplify_eq.
  destruct (reconcile_pools_spec layout registration_tokens registry g scope pools ix Hwf)
    as (rep2 & ix2 & Heq2 & Hwf2 & Hview2 & Hcount2).
  exists rep2, ix2.
  assert (∀ p tk, p ∈ pools → view ix2 (p, tk) = reconciled (view ix (p, tk)) <$>
    (r ← registry_pool registry p; built_source registration_tokens (tracked_tokens_by_pool g scope) r tk))
    as Hpool.
  { intros p tk Hp. rewrite Hview2, decide_True by done. by rewrite (desired_is_built registration_tokens registry g scope p tk). }
  split_and!; [done|done|..].
  - intros [p tk]. unfold tracked. destruct (decide (p ∈ pools)) as [Hp|Hp].
    + rewrite Hpool, Hview1 by done. destruct (registry_pool registry p) as [r|]; simpl; [|done].
      destruct (built_source registration_tokens _ r tk) as [s|]; simpl; [|done].
      by rewrite erase_keep_source.
    + rewrite Hview2, decide_False by done. apply (Hother p Hp).
  - intros p tk s Hp. unfold tracked. rewrite Hpool by done.
    destruct (_ ≫= _) as [s'|]; simpl; [|done]. intros [= <-]. exists s'.
    by rewrite erase_keep_source.
  - intros p tk Hp. by rewrite Hview2, decide_False.
  - intros p tk [x Hx]. unfold is_two_token_pool. destruct (decide (p ∈ pools)) as [Hp|Hp].
    + assert (pool_token_counts ix2 !! p = pool_token_counts fresh !! p) as ->; [|done].
      rewrite Hcount2, decide_True, Hcount1 by done. rewrite Hview2, decide_True in Hx by done.
      apply fmap_Some in Hx as (s & Hs1 & _). pose proof Hs1 as Hs2.
      rewrite (desired_is_built registration_tokens registry g scope p tk) in Hs2 by done. unfold count_for, built_count, built_source in *.
      destruct (registry_pool registry p) as [r|] eqn:Hr; [|done]. cbn [mbind option_bind] in *.
      destruct (tracked_tokens_by_pool g scope !! reg_key r); [|done]. cbn [mbind option_bind] in *.
      unfold desired_source in Hs1. rewrite Hr in Hs1. cbn [mbind option_bind] in Hs1.
      destruct (registration_tokens r) as [tokens|] eqn:Ht; [|done]. cbn [mbind option_bind] in *.
      destruct (length (sorted_tokens tokens) <? 2) eqn:Hlen; [done|]. apply Nat.ltb_ge in Hlen.
      destruct (metadata_source r) as [source|] eqn:Hm; [|done]. cbn [mbind option_bind] in *.
      destruct (decide (tk ∈ needed_for g scope p ∧ tk ∈ tokens)) as [Hin|]; [|done].
      rewrite decide_True; [done|]. split; [exact Hlen|]. intros Hnil.
      assert ((tk, source tk) ∈ desired_targets registration_tokens r (needed_for g scope p)) as Hel.
      { apply (elem_of_desired_targets layout). exists tokens, source. tauto. }
      rewrite Hnil in Hel. set_solver.
    + assert (pool_token_counts ix2 !! p = pool_token_counts fresh !! p) as ->; [|done].
      rewrite Hcount2, decide_False by done. apply (Hother p Hp).
Qed.
End reachable.

(** ** Seeding a second slot *)

(** [set_target_slot] on one target. *)
Definition reslot (slot : U256) (t : PoolLiquidityTarget) : PoolLiquidityTarget :=
  match lt_source t with
  | Erc20Balance holder _ => set_lt_source (Erc20Balance holder (Some slot)) t
  | _ => t
  end.

Lemma reslot_idem slot t : reslot slot (reslot slot t) = reslot slot t.
Proof. unfold reslot. by destruct (lt_source t) eqn:Hs; simpl; rewrite ?Hs. Qed.

Lemma reslot_fold token slot l ix :
  (∀ i, i ∈ l → is_Some (targets ix !! i)) →
  ∃ ix', try_fold (set_target_slot token slot) l ix = Some ix' ∧
    (∀ j, targets ix' !! j = if decide (j ∈ l) then reslot slot <$> targets ix !! j
                              else targets ix !! j) ∧
    (∀ k, k ≠ (token, slot) → by_storage_slot ix' !! k = by_storage_slot ix !! k).
Proof.
  revert ix. induction l as [|i l IH]; intros ix Hl; cbn [try_fold]; [by exists ix|].
  destruct (Hl i) as [t Ht]; [left|].
  assert (∃ ix1, set_target_slot token slot ix i = Some ix1 ∧
    (∀ j, targets ix1 !! j = if decide (j = i) then reslot slot <$> targets ix !! j else targets ix !! j) ∧
    (∀ k, k ≠ (token, slot) → by_storage_slot ix1 !! k = by_storage_slot ix !! k))
    as (ix1 & -> & Hts1 & Hk1).
  { unfold set_target_slot. rewrite Ht. cbn [mbind option_bind].
    destruct (lt_source t) as [h sl| |] eqn:Hs; eexists; (split; [done|split]);
      try (intros k Hk; simpl; by rewrite ?lookup_insert_ne).
    - intros j. cbn [set_storage_index set_targets targets]. case_decide as Hj.
      + subst j. rewrite list_lookup_insert_eq by (by eapply lookup_lt_Some). rewrite Ht. simpl.
        unfold reslot. by rewrite Hs.
      + by rewrite list_lookup_insert_ne.
    - intros j. destruct (decide (j = i)) as [->|]; [|done]. rewrite Ht. simpl. unfold reslot. by rewrite Hs.
    - intros j. destruct (decide (j = i)) as [->|]; [|done]. rewrite Ht. simpl. unfold reslot. by rewrite Hs. }
  cbn [mbind option_bind]. destruct (IH ix1) as (ix2 & -> & Hts2 & Hk2).
  { intros j Hj. rewrite Hts1. destruct (Hl j) as [tj Htj]; [by right|]. rewrite Htj.
    case_decide; by eexists. }
  exists ix2. split_and!; [done| |intros k Hk; by rewrite Hk2, Hk1].
  intros j. rewrite Hts2, !Hts1. apply decide_cons_idem, reslot_idem.
Qed.

Lemma write_fold value l : ∀ ix n,
  (∀ i, i ∈ l → is_Some (targets ix !! i)) →
  ∃ n' ix', try_fold (λ '(updated, ix) i,
      t ← targets ix !! i;
      match source_balance (lt_source t) value with
      | None => Some (updated, ix)
      | Some balance =>
          ix ← update_target i (set_lt_balance (BalanceFresh balance)) ix; Some (S updated, ix)
      end) l (n, ix) = Some (n', ix') ∧
    ∀ j, targets ix' !! j = if decide (j ∈ l) then from_word value <$> targets ix !! j
                             else targets ix !! j.
Proof.
  induction l as [|i l IH]; intros ix n Hl; cbn [try_fold]; [by exists n, ix|].
  destruct (Hl i) as [t Ht]; [left|]. rewrite Ht. cbn [mbind option_bind].
  assert (∃ n1 ix1, match source_balance (lt_source t) value with
    | None => Some (n, ix)
    | Some balance =>
        ix ← update_target i (set_lt_balance (BalanceFresh balance)) ix; Some (S n, ix)
    end = Some (n1, ix1) ∧ ∀ j, targets ix1 !! j =
      if decide (j = i) then from_word value <$> targets ix !! j else targets ix !! j)
    as (n1 & ix1 & -> & Hts1).
  { unfold update_target. rewrite Ht. destruct (source_balance (lt_source t) value) as [b|] eqn:Hb;
      cbn [mbind option_bind]; do 2 eexists; (split; [done|]); intros j.
    - cbn [set_targets targets]. case_decide as Hj; [|by rewrite list_lookup_insert_ne]. subst j.
      rewrite list_lookup_insert_eq by (by eapply lookup_lt_Some). rewrite Ht. simpl.
      unfold from_word. by rewrite Hb.
    - case_decide; [|done]. subst. rewrite Ht. simpl. unfold from_word. by rewrite Hb. }
  cbn [mbind option_bind]. destruct (IH ix1 n1) as (n2 & ix2 & -> & Hts2).
  { intros j Hj. rewrite Hts1. destruct (Hl j) as [tj Htj]; [by right|]. rewrite Htj.
    case_decide; by eexists. }
  exists n2, ix2. split; [done|]. intros j. rewrite Hts2, !Hts1. apply decide_cons_idem, from_word_idem.
Qed.

(** Seeding a second slot for a balance leaves its old slot in the index:
    a later write to the old slot, or a failed read of it, is still taken for
    the balance of the new one. *)
Theorem reseeded_slot_still_written ix token holder slot slot' i value :
  index_wf ix → live (targets ix) i token (Erc20Balance holder (Some slot)) → slot ≠ slot' →
  ∃ n ix1 k ix2 t,
    set_erc20_balance_slot token holder slot' ix = Some (n, ix1) ∧
    apply_storage_updates [UpdateSlot token slot value] ix1 = Some (k, ix2) ∧
    targets ix2 !! i = Some t ∧
    lt_source t = Erc20Balance holder (Some slot') ∧ lt_balance t = BalanceFresh value.
Proof.
  intros Hwf Hl Hne. pose proof Hl as (t & Ht & Ha & Htk & Hs).
  assert (i ∈ listed (by_token_holder ix) (token, holder)) as Hh
    by (apply (wf_holders _ _ Hwf); simpl; eauto).
  assert (i ∈ listed (by_storage_slot ix) (token, slot)) as Hk
    by (apply (wf_storage _ _ Hwf); exists token, (Erc20Balance holder (Some slot)); done).
  unfold set_erc20_balance_slot, set_erc20_slot. unfold listed in Hh.
  destruct (by_token_holder ix !! (token, holder)) as [indices|] eqn:Hth; [|set_solver]. simpl in Hh.
  destruct (reslot_fold token slot' indices ix) as (ix1 & -> & Hts1 & Hk1).
  { intros j Hj. destruct (holder_live layout ix (token, holder) j Hwf) as (sl & tj & Htj & _); [|by exists tj].
    unfold listed. by rewrite Hth. }
  assert (targets ix1 !! i = Some (reslot slot' t)) as Ht1 by (by rewrite Hts1, Ht, decide_True).
  assert (∃ k ix2, update_slot_value token slot value ix1 = Some (k, ix2) ∧
    targets ix2 !! i = Some (from_word value (reslot slot' t))) as (k & ix2 & Hup & Ht2).
  { unfold update_slot_value. rewrite Hk1 by congruence. unfold listed in Hk.
    destruct (by_storage_slot ix !! (token, slot)) as [written|] eqn:Hst; [|set_solver]. simpl in Hk.
    destruct (write_fold value written ix1 0) as (n2 & ix2 & Heq & Hts2).
    - intros j Hj. rewrite Hts1. destruct (storage_live layout ix (token, slot) j Hwf) as (tj & Htj & _).
      + unfold listed. by rewrite Hst.
      + rewrite Htj. case_decide; by eexists.
    - exists n2, ix2. split; [exact Heq|]. by rewrite Hts2, Ht1, decide_True. }
  cbn [mbind option_bind]. do 2 eexists. exists (0 + k), ix2. eexists. split; [reflexivity|].
  split; [unfold apply_storage_updates; cbn [try_fold]; by rewrite Hup|]. split; [exact Ht2|].
  unfold reslot, from_word. rewrite Hs. done.
Qed.
End theorems.
