(* ===== verification/SearchTypes.v ===== *)
(** * Requests, paths, quotes and errors ([src/search.rs])

    The data the searcher consumes and produces, the counters it reports, and
    the rendering of its errors. *)

From stdpp Require Import pretty.
From S2P Require Import Prelude AmmState Config.

(** ** Counters *)

(** Counters of the exact-hop quote cache ([AtomicUsize]: they wrap). *)
Record QuoteCacheStats := {
  hits : Z;
  misses : Z;
  waits : Z;
  executed : Z;
  failed : Z;
}.

Definition QuoteCacheStats_default : QuoteCacheStats :=
  {| hits := 0; misses := 0; waits := 0; executed := 0; failed := 0 |}.

Record LiquidityPruneStats := {
  ordered_groups : nat;
  pruned_edges : nat;
  stale_or_unknown_skipped_for_pruning : nat;
  balance_reads : nat;
  refresh_failures : nat;
  target_first_groups : nat;
  prefix_dominated_states : nat;
  liquidity_ranked_branch_groups : nat;
  liquidity_unknown_branch_groups : nat;
  fast_lane_routes : nat;
  fast_lane_quotes : nat;
  shortlist_initial_edges : nat;
  shortlist_refinement_edges : nat;
  shortlist_deferred_edges : nat;
  protocol_ranked_edges : nat;
  upper_bound_pruned_prefixes : nat;
  upper_bound_unknown_prefixes : nat;
}.

Definition LiquidityPruneStats_default : LiquidityPruneStats :=
  Build_LiquidityPruneStats 0 0 0 0 0 0 0 0 0 0 0 0 0 0 0 0 0.

Definition LiquidityPruneStats_merge (s o : LiquidityPruneStats) : LiquidityPruneStats :=
  {| ordered_groups := ordered_groups s + ordered_groups o;
     pruned_edges := pruned_edges s + pruned_edges o;
     stale_or_unknown_skipped_for_pruning :=
       stale_or_unknown_skipped_for_pruning s + stale_or_unknown_skipped_for_pruning o;
     balance_reads := balance_reads s + balance_reads o;
     refresh_failures := refresh_failures s + refresh_failures o;
     target_first_groups := target_first_groups s + target_first_groups o;
     prefix_dominated_states := prefix_dominated_states s + prefix_dominated_states o;
     liquidity_ranked_branch_groups :=
       liquidity_ranked_branch_groups s + liquidity_ranked_branch_groups o;
     liquidity_unknown_branch_groups :=
       liquidity_unknown_branch_groups s + liquidity_unknown_branch_groups o;
     fast_lane_routes := fast_lane_routes s + fast_lane_routes o;
     fast_lane_quotes := fast_lane_quotes s + fast_lane_quotes o;
     shortlist_initial_edges := shortlist_initial_edges s + shortlist_initial_edges o;
     shortlist_refinement_edges := shortlist_refinement_edges s + shortlist_refinement_edges o;
     shortlist_deferred_edges := shortlist_deferred_edges s + shortlist_deferred_edges o;
     protocol_ranked_edges := protocol_ranked_edges s + protocol_ranked_edges o;
     upper_bound_pruned_prefixes := upper_bound_pruned_prefixes s + upper_bound_pruned_prefixes o;
     upper_bound_unknown_prefixes :=
       upper_bound_unknown_prefixes s + upper_bound_unknown_prefixes o |}.

#[export] Instance LiquidityPruneStats_eq_dec : EqDecision LiquidityPruneStats.
Proof. solve_decision. Defined.

Section types.
Context `{!AmmTypes}.

(** ** Paths *)

Record Hop := {
  hop_pool : PoolKey;
  hop_token_in : Address;
  hop_token_out : Address;
}.

#[export] Instance Hop_eq_dec : EqDecision Hop.
Proof. solve_decision. Defined.

Definition Hop_tuple (h : Hop) : PoolKey * Address * Address :=
  (hop_pool h, hop_token_in h, hop_token_out h).
#[export] Instance Hop_tuple_inj : Inj (=) (=) Hop_tuple.
Proof. intros [] []. unfold Hop_tuple. simpl. congruence. Qed.
#[export] Instance Hop_countable : Countable Hop :=
  inj_countable' Hop_tuple (λ '(p, i, o), Build_Hop p i o) (λ '(Build_Hop _ _ _), eq_refl).

(** [RoutePath { hops }]: the struct is its list of hops; [new] is the empty
    path, [push] appends at the end. *)
Definition RoutePath : Type := list Hop.
Definition path_push (p : RoutePath) (h : Hop) : RoutePath := p ++ [h].

(** ** Requests *)

Record RouteRequest := {
  token_in : Address;
  token_out : Address;
  rr_amount_in : U256;
  rr_config : SearchConfig;
  rr_sim_config : SimConfig;
}.

Definition RouteRequest_new (i o : Address) (amount : U256) : RouteRequest :=
  {| token_in := i; token_out := o; rr_amount_in := amount;
     rr_config := SearchConfig_default; rr_sim_config := SimConfig_default |}.
Definition rr_with_config (c : SearchConfig) (r : RouteRequest) : RouteRequest :=
  let '(Build_RouteRequest i o a _ s) := r in Build_RouteRequest i o a c s.
Definition rr_with_sim_config (s : SimConfig) (r : RouteRequest) : RouteRequest :=
  let '(Build_RouteRequest i o a c _) := r in Build_RouteRequest i o a c s.

Record CycleRequest := {
  base_token : Address;
  cr_amount_in : U256;
  cr_config : SearchConfig;
  cr_sim_config : SimConfig;
}.

Definition CycleRequest_new (base : Address) (amount : U256) : CycleRequest :=
  {| base_token := base; cr_amount_in := amount;
     cr_config := with_hops 2 3 SearchConfig_default; cr_sim_config := SimConfig_default |}.
Definition cr_with_config (c : SearchConfig) (r : CycleRequest) : CycleRequest :=
  let '(Build_CycleRequest b a _ s) := r in Build_CycleRequest b a c s.
Definition cr_with_sim_config (s : SimConfig) (r : CycleRequest) : CycleRequest :=
  let '(Build_CycleRequest b a c _) := r in Build_CycleRequest b a c s.

(** ** Quotes *)

Record HopQuote := {
  hq_hop : Hop;
  hq_amount_in : U256;
  hq_amount_out : U256;
}.

Record RouteQuote := {
  rq_path : RoutePath;
  rq_amount_in : U256;
  rq_amount_out : U256;
  rq_hops : list HopQuote;
}.

Record CycleQuote := {
  cq_route : RouteQuote;
  profit : option U256;
}.

Definition is_profitable (q : CycleQuote) : bool := bool_decide (is_Some (profit q)).

#[export] Instance HopQuote_eq_dec : EqDecision HopQuote.
Proof. solve_decision. Defined.
#[export] Instance RouteQuote_eq_dec : EqDecision RouteQuote.
Proof. solve_decision. Defined.

Record PathFailure := {
  pf_path : RoutePath;
  pf_reason : string;
}.

(** ** Errors *)

Inductive SearchError : Type :=
  | ErrInvalidConfig (reason : string)
  | ErrTokenNotFound (token : Address)
  | ErrNoPath (from to : Address)
  | ErrEmptyPath
  | ErrMissingPool (pool : PoolKey)
  | ErrMissingAdapter (protocol : ProtocolId.t)
  | ErrMissingPoolRevision (instance : PoolInstanceId)
  | ErrSnapshotGraphMismatch
  | ErrSnapshotRequired
  | ErrQuoteFailed (hop : Hop) (source : SimError)
  | ErrNoViableRoute (candidates : nat) (failures : list PathFailure)
  | ErrWorkerPanic.

(** [config.validate()?] inside a search. *)
Definition search_validated (v : validated) : result SearchError unit :=
  match v with
  | Ok _ => Ok ()
  | Err e => Err (ErrInvalidConfig (invalid_reason e))
  end.

(** The derived [Debug] of [Hop]. *)
Definition hop_debug (h : Hop) : string :=
  "Hop { pool: " +:+ pool_debug (hop_pool h) +:+ ", token_in: " +:+
  address_debug (hop_token_in h) +:+ ", token_out: " +:+
  address_debug (hop_token_out h) +:+ " }".

(** The [Display] of [SearchError] ([thiserror]). *)
Definition search_error_display (e : SearchError) : string :=
  match e with
  | ErrInvalidConfig reason => "invalid search config: " +:+ reason
  | ErrTokenNotFound token => "token not found in graph: " +:+ address_debug token
  | ErrNoPath from to =>
      "no graph path from " +:+ address_debug from +:+ " to " +:+ address_debug to
  | ErrEmptyPath => "cannot quote an empty path"
  | ErrMissingPool pool => "pool not found in registry: " +:+ pool_debug pool
  | ErrMissingAdapter protocol =>
      "adapter not found for protocol: " +:+ protocol_debug protocol
  | ErrMissingPoolRevision instance =>
      "active pool has no published quote-state revision: " +:+ instance_debug instance
  | ErrSnapshotGraphMismatch =>
      "live graph does not represent the supplied AMM runtime snapshot"
  | ErrSnapshotRequired => "snapshot-only search requires AmmSearcher::from_snapshot"
  | ErrQuoteFailed hop source =>
      "quote failed for hop " +:+ hop_debug hop +:+ ": " +:+ sim_error_display source
  | ErrNoViableRoute candidates _ =>
      "no viable route among " +:+ pretty (N.of_nat candidates) +:+ " candidates"
  | ErrWorkerPanic => "parallel search worker panicked"
  end.

(** ** Sort keys *)

(** [format!("{:?}:{:?}:{:?}", pool, token_in, token_out)]. *)
Definition hop_sort_key (h : Hop) : string :=
  pool_debug (hop_pool h) +:+ ":" +:+ address_debug (hop_token_in h) +:+ ":" +:+
  address_debug (hop_token_out h).

(** [join("|")]. *)
Definition route_path_sort_key (p : RoutePath) : string :=
  String.concat "|" (hop_sort_key <$> p).

Definition string_le (x y : string) : bool := String.leb x y.

(** [sorted_paths]: the paths of a hash set in the order of their keys.  The
    argument is the set's (unspecified) iteration order. *)
Definition sorted_paths (paths : list RoutePath) : list RoutePath :=
  stable_sort (λ p q, string_le (route_path_sort_key p) (route_path_sort_key q)) paths.

(** [PoolFee] and protocol rank of a registration. *)
Definition protocol_bonus (p : ProtocolId.t) : Z :=
  match p with
  | ProtocolId.UniswapV3 | ProtocolId.PancakeV3 | ProtocolId.Slipstream => 30
  | ProtocolId.Curve => 25
  | ProtocolId.BalancerV2 => 22
  | ProtocolId.UniswapV2 | ProtocolId.SolidlyV2 => 10
  | ProtocolId.Custom _ => 0
  | ProtocolId.BalancerV3 | ProtocolId.Erc4626 | ProtocolId.UniswapV4 => 0
  end.

Definition pool_fee_sort (r : PoolRegistration) : Z :=
  match reg_metadata r with
  | ProtocolMetadata.UniswapV2 _ _ fee_bps => default u64_max fee_bps
  | ProtocolMetadata.UniswapV3 _ _ fee
  | ProtocolMetadata.PancakeV3 _ _ fee
  | ProtocolMetadata.Slipstream _ _ fee => default u64_max fee
  | _ => u64_max
  end.
End types.

(** [u256_log2]: the loop counts the bits; [fuel] bounds the 256 iterations. *)
Fixpoint count_bits (fuel : nat) (value : Z) (bits : Z) : Z :=
  match fuel with
  | 0 => bits
  | S fuel => if (0 <? value)%Z then count_bits fuel (Z.shiftr value 1) (bits + 1) else bits
  end.

Definition u256_log2 (value : U256) : Z :=
  if (value =? 0)%Z then 0 else Z.max 0 (count_bits 256 value 0 - 1).
