(* ===== verification/Enumerate.v ===== *)
(** * Exhaustive route enumeration ([enumerate_routes_filtered], [src/search.rs])

    Breadth-first search over the token graph.  The queue, the accumulated
    paths, the duplicate counter and the two flags of the function are the
    record [EnumState]; the optional [should_continue] closure is an oracle
    indexed by the number of calls made so far, which the state counts.  The
    loop takes fuel; [enumerate_fuel] bounds the number of states the search
    can ever pop. *)

From S2P Require Import Prelude AmmState Petgraph Graph Config SearchTypes.

Section enumerate.
Context `{!AmmTypes} `{!Petgraph Address EdgeData}.

Record SearchState := {
  ss_node : NodeIndex;
  ss_path : RoutePath;
  ss_visited_tokens : gset Address;
  ss_used_pools : gset PoolKey;
}.

Record RouteEnumeration := {
  re_paths : list RoutePath;
  re_duplicates_skipped : Z;
  re_stopped : bool;
}.

Definition RouteEnumeration_default : RouteEnumeration :=
  {| re_paths := []; re_duplicates_skipped := 0; re_stopped := false |}.

(** The local variables of the function. *)
Record EnumState := {
  en_queue : list SearchState;
  en_paths : list RoutePath;
  en_duplicates_skipped : Z;
  en_found_path : bool;
  en_stopped : bool;
  en_polls : nat;
}.

(** What the body of the inner loop decides for one edge. *)
Inductive EdgeOutcome : Type :=
  | EdgeSkip
  | EdgeComplete (path : RoutePath)
  | EdgeExtend (state : SearchState).

(** [should_continue.is_some_and(|f| !f())]: the answer and the call count. *)
Definition poll_stop (should_continue : option (nat → bool)) (polls : nat) : bool * nat :=
  match should_continue with
  | None => (false, polls)
  | Some f => (negb (f polls), S polls)
  end.

Definition limit_reached (max_new_paths : option nat) (count : nat) : bool :=
  match max_new_paths with Some limit => limit <=? count | None => false end.

Section search.
Context (g : AmmGraph) (token_in token_out : Address) (source target : NodeIndex)
  (config : SearchConfig) (allow_final_source_revisit : bool)
  (excluded : gset RoutePath) (max_new_paths : option nat)
  (should_continue : option (nat → bool)).

Definition edge_outcome (state : SearchState) (edge : CachedOutgoingEdge) : EdgeOutcome :=
  let next_node := ce_target edge in
  let next_token := ce_token_out edge in
  let current_token := ce_token_in edge in
  let pool := ce_pool edge in
  if decide (pool ∈ ss_used_pools state) then EdgeSkip
  else
    let closes_target := bool_decide (next_node = target) in
    let closes_source_cycle :=
      allow_final_source_revisit && bool_decide (source = target)
      && bool_decide (next_node = source) in
    if bool_decide (next_token ∈ ss_visited_tokens state) && negb closes_source_cycle
    then EdgeSkip
    else if negb closes_target
            && negb (connector_allowed next_token token_in token_out config)
    then EdgeSkip
    else
      let path := path_push (ss_path state)
        {| hop_pool := pool; hop_token_in := current_token; hop_token_out := next_token |} in
      if closes_target then
        if min_hops config <=? length path then EdgeComplete path else EdgeSkip
      else if length path <? max_hops config then
        EdgeExtend {| ss_node := next_node; ss_path := path;
                      ss_visited_tokens := {[next_token]} ∪ ss_visited_tokens state;
                      ss_used_pools := {[pool]} ∪ ss_used_pools state |}
      else EdgeSkip.

(** A completed path: counted when excluded, kept otherwise. *)
Definition record_path (path : RoutePath) (s : EnumState) : EnumState :=
  if decide (path ∈ excluded) then
    {| en_queue := en_queue s; en_paths := en_paths s;
       en_duplicates_skipped := usize_saturating_add (en_duplicates_skipped s) 1;
       en_found_path := true; en_stopped := en_stopped s; en_polls := en_polls s |}
  else
    {| en_queue := en_queue s; en_paths := en_paths s ++ [path];
       en_duplicates_skipped := en_duplicates_skipped s;
       en_found_path := true; en_stopped := en_stopped s; en_polls := en_polls s |}.

Definition push_back (state : SearchState) (s : EnumState) : EnumState :=
  {| en_queue := en_queue s ++ [state]; en_paths := en_paths s;
     en_duplicates_skipped := en_duplicates_skipped s;
     en_found_path := en_found_path s; en_stopped := en_stopped s;
     en_polls := en_polls s |}.

Definition set_polls (stopped : bool) (polls : nat) (s : EnumState) : EnumState :=
  {| en_queue := en_queue s; en_paths := en_paths s;
     en_duplicates_skipped := en_duplicates_skipped s;
     en_found_path := en_found_path s; en_stopped := stopped || en_stopped s;
     en_polls := polls |}.

Definition set_queue (queue : list SearchState) (s : EnumState) : EnumState :=
  {| en_queue := queue; en_paths := en_paths s;
     en_duplicates_skipped := en_duplicates_skipped s;
     en_found_path := en_found_path s; en_stopped := en_stopped s;
     en_polls := en_polls s |}.

(** The loop over the outgoing edges; [true] is [break 'search]. *)
Fixpoint expand_edges (state : SearchState) (edges : list CachedOutgoingEdge)
    (s : EnumState) : EnumState * bool :=
  match edges with
  | [] => (s, false)
  | edge :: edges =>
      let '(stop, polls) := poll_stop should_continue (en_polls s) in
      let s := set_polls stop polls s in
      if stop then (s, true)
      else
        match edge_outcome state edge with
        | EdgeSkip => expand_edges state edges s
        | EdgeComplete path =>
            let s := record_path path s in
            if limit_reached max_new_paths (length (en_paths s)) then (s, true)
            else expand_edges state edges s
        | EdgeExtend next => expand_edges state edges (push_back next s)
        end
  end.

(** [while let Some(state) = queue.pop_front()]; [None] is out of fuel. *)
Fixpoint search_loop (fuel : nat) (s : EnumState) : option EnumState :=
  match en_queue s with
  | [] => Some s
  | state :: queue =>
      match fuel with
      | 0 => None
      | S fuel =>
          let s := set_queue queue s in
          let '(stop, polls) := poll_stop should_continue (en_polls s) in
          let s := set_polls stop polls s in
          if stop then Some s
          else if max_hops config <=? length (ss_path state) then search_loop fuel s
          else
            let '(s, break) := expand_edges state (outgoing_edges g (ss_node state)) s in
            if break then Some s else search_loop fuel s
      end
  end.

Definition initial_state : SearchState :=
  {| ss_node := source; ss_path := []; ss_visited_tokens := {[token_in]};
     ss_used_pools := ∅ |}.

Definition initial_enum : EnumState :=
  {| en_queue := [initial_state]; en_paths := []; en_duplicates_skipped := 0;
     en_found_path := false; en_stopped := false; en_polls := 0 |}.

(** The tail of the function, after the loop. *)
Definition finish_enumeration (s : EnumState) : result SearchError RouteEnumeration :=
  if negb (en_found_path s) && negb (en_stopped s) then
    Err (ErrNoPath token_in token_out)
  else Ok {| re_paths := en_paths s; re_duplicates_skipped := en_duplicates_skipped s;
             re_stopped := en_stopped s |}.
End search.

(** ** Fuel: with at most [b] outgoing edges per node, [search_weight b d]
    bounds the states below one with [d] hops left. *)
Fixpoint search_weight (b d : nat) : nat :=
  match d with 0 => 1 | S d => 1 + b * search_weight b d end.

Definition max_out_degree (g : AmmGraph) : nat :=
  foldr Nat.max 0 ((λ p, length p.2) <$> map_to_list (outgoing_map g)).

Definition enumerate_fuel (g : AmmGraph) (config : SearchConfig) : nat :=
  search_weight (max_out_degree g) (max_hops config).

(** [enumerate_routes_filtered]; [None] is out of fuel. *)
Definition enumerate_routes_filtered (g : AmmGraph) (token_in token_out : Address)
    (config : SearchConfig) (allow_final_source_revisit : bool)
    (excluded : gset RoutePath) (max_new_paths : option nat)
    (should_continue : option (nat → bool)) :
    option (result SearchError RouteEnumeration) :=
  match search_validated (SearchConfig_validate config) with
  | Err e => Some (Err e)
  | Ok _ =>
      match node_index g token_in with
      | None => Some (Err (ErrTokenNotFound token_in))
      | Some source =>
          match node_index g token_out with
          | None => Some (Err (ErrTokenNotFound token_out))
          | Some target =>
              if decide (max_new_paths = Some 0) then Some (Ok RouteEnumeration_default)
              else
                s ← search_loop g token_in token_out source target config
                      allow_final_source_revisit excluded max_new_paths should_continue
                      (enumerate_fuel g config) (initial_enum token_in source);
                Some (finish_enumeration token_in token_out s)
          end
      end
  end.

(** [enumerate_routes]. *)
Definition enumerate_routes (g : AmmGraph) (token_in token_out : Address)
    (config : SearchConfig) (allow_final_source_revisit : bool) :
    option (result SearchError (list RoutePath)) :=
  r ← enumerate_routes_filtered g token_in token_out config allow_final_source_revisit
        ∅ (max_candidates config) None;
  Some (match r with Ok e => Ok (re_paths e) | Err e => Err e end).
End enumerate.
