(* ===== verification/EnumerateProps.v ===== *)
(** * Correctness of route enumeration

    The search is compared with a level-order specification: [completions] and
    [expand] give what one state completes and what it spawns, [level k] is the
    list of the states after [k] hops, and [bfs_routes] is the list of the
    completed routes level by level.  The queue of the code produces exactly
    that stream ([drain_levels]), limits and exclusions are a fold over it
    ([collect]), and its members are exactly the admissible routes
    ([valid_route]). *)

From S2P Require Import Prelude AmmState Petgraph Graph Config SearchTypes Enumerate.

Section props.
Context `{!AmmTypes} `{!Petgraph Address EdgeData}.
Context (g : AmmGraph) (token_in token_out : Address) (source target : NodeIndex)
  (config : SearchConfig) (allow : bool).

Abbreviation outcome := (edge_outcome token_in token_out source target config allow).

Definition complete_of (o : EdgeOutcome) : option RoutePath :=
  match o with EdgeComplete p => Some p | _ => None end.
Definition extend_of (o : EdgeOutcome) : option SearchState :=
  match o with EdgeExtend s => Some s | _ => None end.

Definition edges_at (st : SearchState) : list CachedOutgoingEdge :=
  if max_hops config <=? length (ss_path st) then []
  else outgoing_edges g (ss_node st).

Definition completions (st : SearchState) : list RoutePath :=
  omap (λ e, complete_of (outcome st e)) (edges_at st).
Definition expand (st : SearchState) : list SearchState :=
  omap (λ e, extend_of (outcome st e)) (edges_at st).

Fixpoint levels_from (n : nat) (sts : list SearchState) : list RoutePath :=
  match n with
  | 0 => []
  | S n => (sts ≫= completions) ++ levels_from n (sts ≫= expand)
  end.

(** All completed routes, in the order the search completes them. *)
Definition bfs_routes : list RoutePath :=
  levels_from (max_hops config) [initial_state token_in source].

(** ** Fuel *)

Abbreviation weight := (search_weight (max_out_degree g)).

Definition state_weight (st : SearchState) : nat :=
  weight (max_hops config - length (ss_path st)).
Definition queue_weight (q : list SearchState) : nat := sum_list_with state_weight q.

Lemma foldr_max_ge l n : n ∈ l → n ≤ foldr Nat.max 0 l.
Proof. induction 1; simpl; lia. Qed.

Lemma outgoing_edges_degree n : length (outgoing_edges g n) ≤ max_out_degree g.
Proof.
  unfold outgoing_edges, max_out_degree.
  destruct (outgoing_map g !! n) as [es|] eqn:Hn; simpl; [|lia].
  apply foldr_max_ge, list_elem_of_fmap. exists (n, es). split; [done|].
  by apply elem_of_map_to_list.
Qed.

Lemma search_weight_pos b d : 1 ≤ search_weight b d.
Proof. destruct d; simpl; lia. Qed.

Lemma outcome_extend st e st' :
  outcome st e = EdgeExtend st' →
  length (ss_path st') = S (length (ss_path st)) ∧ length (ss_path st') < max_hops config.
Proof.
  unfold edge_outcome. repeat case_match; try done. intros [= <-]. simpl.
  match goal with H : (_ <? _) = true |- _ => apply Nat.ltb_lt in H end.
  unfold path_push in *. rewrite length_app in *. simpl in *. lia.
Qed.

Lemma sum_list_with_le {A} (f : A → nat) l n :
  (∀ x, x ∈ l → f x ≤ n) → sum_list_with f l ≤ n * length l.
Proof.
  induction l as [|x l IH]; intros Hf; simpl; [lia|].
  assert (f x ≤ n) by (apply Hf; set_solver).
  assert (sum_list_with f l ≤ n * length l) by (apply IH; set_solver). lia.
Qed.

Lemma length_omap_le {A B} (f : A → option B) l : length (omap f l) ≤ length l.
Proof. induction l as [|x l IH]; csimpl; [done|]. destruct (f x); simpl; lia. Qed.

Lemma expand_weight st : queue_weight (expand st) < state_weight st.
Proof.
  unfold queue_weight, state_weight, expand, edges_at.
  case_match eqn:Hlen; simpl; [apply search_weight_pos|]. apply Nat.leb_gt in Hlen.
  destruct (max_hops config - length (ss_path st)) as [|d] eqn:Hd; [lia|]. simpl.
  set (l := omap _ _).
  assert (sum_list_with (λ st', weight (max_hops config - length (ss_path st'))) l
          ≤ weight d * length l) as Hsum.
  { apply sum_list_with_le. intros st' (e & _ & He)%list_elem_of_omap.
    destruct (outcome st e) as [| |st''] eqn:Ho; simplify_eq/=.
    apply outcome_extend in Ho as [Hl _]. rewrite Hl.
    by replace (max_hops config - S (length (ss_path st))) with d by lia. }
  assert (length l ≤ max_out_degree g).
  { etrans; [apply length_omap_le|]. apply outgoing_edges_degree. }
  nia.
Qed.

Lemma queue_weight_app q1 q2 : queue_weight (q1 ++ q2) = queue_weight q1 + queue_weight q2.
Proof. unfold queue_weight. by rewrite sum_list_with_app. Qed.

(** ** The queue as a stream of completed routes *)

Fixpoint drain (fuel : nat) (q : list SearchState) : list RoutePath :=
  match q, fuel with
  | st :: q, S fuel => completions st ++ drain fuel (q ++ expand st)
  | _, _ => []
  end.

Lemma drain_split fuel xs ys :
  queue_weight (xs ++ ys) ≤ fuel →
  ∃ fuel', queue_weight (ys ++ (xs ≫= expand)) ≤ fuel' ∧
    drain fuel (xs ++ ys) = (xs ≫= completions) ++ drain fuel' (ys ++ (xs ≫= expand)).
Proof.
  revert fuel ys. induction xs as [|st xs IH]; intros fuel ys Hw.
  { exists fuel. csimpl in *. by rewrite app_nil_r. }
  simpl in Hw. unfold queue_weight in Hw. simpl in Hw. fold (queue_weight (xs ++ ys)) in Hw.
  pose proof (expand_weight st). destruct fuel as [|fuel]; [lia|].
  destruct (IH fuel (ys ++ expand st)) as (fuel' & Hw' & Heq).
  { rewrite app_assoc, queue_weight_app. lia. }
  rewrite <- app_assoc in Hw', Heq. exists fuel'. csimpl. split; [done|].
  rewrite <- (app_assoc xs), Heq. by rewrite <- app_assoc.
Qed.

Lemma drain_levels n fuel sts :
  queue_weight sts ≤ fuel →
  (∀ st, st ∈ sts → max_hops config ≤ n + length (ss_path st)) →
  drain fuel sts = levels_from n sts.
Proof.
  revert fuel sts. induction n as [|n IH]; intros fuel sts Hw Hlen.
  - assert (∀ st, st ∈ sts → completions st = [] ∧ expand st = []) as Hnil.
    { intros st Hst. unfold completions, expand, edges_at.
      rewrite (proj2 (Nat.leb_le _ _)) by (apply Hlen in Hst; lia). done. }
    clear Hlen. revert fuel Hw. induction sts as [|st sts IHs]; intros [|fuel] Hw; [done..|].
    simpl. destruct (Hnil st) as [-> ->]; [set_solver|]. rewrite app_nil_r. apply IHs.
    + set_solver.
    + unfold queue_weight in *. simpl in Hw. pose proof (search_weight_pos (max_out_degree g)
        (max_hops config - length (ss_path st))). unfold state_weight in Hw at 1. lia.
  - destruct (drain_split fuel sts []) as (fuel' & Hw' & Heq); [by rewrite app_nil_r|].
    rewrite app_nil_r in Heq. rewrite Heq. simpl. f_equal.
    apply IH; [done|]. intros st' (st & Hex & Hst)%list_elem_of_bind.
    apply list_elem_of_omap in Hex as (e & _ & He).
    destruct (outcome st e) as [| |st''] eqn:Ho; simplify_eq/=.
    apply outcome_extend in Ho as [-> _]. apply Hlen in Hst. lia.
Qed.

(** ** Limits and exclusions as a fold over the stream *)

Section collect.
Context (excluded : gset RoutePath) (limit : option nat).

(** The paths kept, the duplicate counter, whether a route was found, and
    whether the limit ended the search. *)
Fixpoint collect (ps : list RoutePath) (paths : list RoutePath) (dups : Z) (found : bool) :
    list RoutePath * Z * bool * bool :=
  match ps with
  | [] => (paths, dups, found, false)
  | p :: ps =>
      let '(paths, dups) :=
        if decide (p ∈ excluded) then (paths, usize_saturating_add dups 1)
        else (paths ++ [p], dups) in
      if limit_reached limit (length paths) then (paths, dups, true, true)
      else collect ps paths dups true
  end.

Lemma collect_app ps1 ps2 paths dups found :
  collect (ps1 ++ ps2) paths dups found =
  let '(paths', dups', found', ended) := collect ps1 paths dups found in
  if ended then (paths', dups', found', true) else collect ps2 paths' dups' found'.
Proof.
  revert paths dups found. induction ps1 as [|p ps1 IH]; intros paths dups found; simpl; [done|].
  case_decide; simpl; case_match; auto.
Qed.

Definition view (s : EnumState) : list RoutePath * Z * bool :=
  (en_paths s, en_duplicates_skipped s, en_found_path s).

Lemma collect_found ps paths dups found :
  (collect ps paths dups found).1.2 = found || negb (bool_decide (ps = [])).
Proof.
  revert paths dups found. induction ps as [|p ps IH]; intros paths dups found; simpl.
  { by rewrite orb_false_r. }
  rewrite orb_true_r. case_decide; case_match; simpl; by rewrite ?IH.
Qed.

Lemma expand_edges_collect st es s :
  let '(s', ended) :=
    expand_edges token_in token_out source target config allow excluded limit None st es s in
  collect (omap (λ e, complete_of (outcome st e)) es)
    (en_paths s) (en_duplicates_skipped s) (en_found_path s) = (view s', ended) ∧
  (ended = false → en_queue s' = en_queue s ++ omap (λ e, extend_of (outcome st e)) es) ∧
  en_stopped s' = en_stopped s.
Proof.
  revert s. induction es as [|e es IH]; intros s; simpl.
  { split; [by destruct s|]. by rewrite app_nil_r. }
  destruct (outcome st e) as [|p|st'] eqn:Ho; csimpl; rewrite ?Ho; simpl.
  - apply (IH (set_polls false (en_polls s) s)).
  - set (s1 := record_path excluded p (set_polls false (en_polls s) s)).
    assert ((if decide (p ∈ excluded)
             then (en_paths s, usize_saturating_add (en_duplicates_skipped s) 1)
             else (en_paths s ++ [p], en_duplicates_skipped s)) =
            (en_paths s1, en_duplicates_skipped s1) ∧ en_found_path s1 = true ∧
            en_queue s1 = en_queue s ∧ en_stopped s1 = en_stopped s)
      as (-> & Hf & Hq & Hs).
    { unfold s1, record_path. by case_decide. }
    destruct (limit_reached limit (length (en_paths s1))) eqn:Hl.
    + unfold view. rewrite Hf. done.
    + specialize (IH s1). rewrite Hf, Hq, Hs in IH. exact IH.
  - specialize (IH (push_back st' (set_polls false (en_polls s) s))). simpl in IH.
    destruct (expand_edges _ _ _ _ _ _ _ _ _ _ _) as [s' ended].
    destruct IH as (H1 & H2 & H3). split_and!; [done| |done].
    intros Hend. rewrite (H2 Hend). by rewrite <- (assoc_L (++)).
Qed.

Lemma search_loop_collect fuel s :
  queue_weight (en_queue s) ≤ fuel →
  ∃ s', search_loop g token_in token_out source target config allow excluded limit None fuel s
      = Some s' ∧
    view s' = (collect (drain fuel (en_queue s)) (en_paths s) (en_duplicates_skipped s)
      (en_found_path s)).1 ∧
    en_stopped s' = en_stopped s.
Proof.
  revert s. induction fuel as [|fuel IH]; intros s Hw.
  - destruct (en_queue s) as [|st q] eqn:Hq.
    + exists s. simpl. by rewrite Hq.
    + unfold queue_weight in Hw. simpl in Hw. unfold state_weight in Hw at 1.
      pose proof (search_weight_pos (max_out_degree g)
        (max_hops config - length (ss_path st))). lia.
  - simpl. destruct (en_queue s) as [|st q] eqn:Hq; [by exists s|].
    pose proof (expand_weight st) as Hex.
    unfold queue_weight in Hw. simpl in Hw. fold (queue_weight q) in Hw. simpl.
    unfold completions, expand, edges_at in *.
    destruct (max_hops config <=? length (ss_path st)) eqn:Hlen.
    + simpl. rewrite app_nil_r.
      apply (IH (set_polls false (en_polls s) (set_queue q s))). simpl in *. lia.
    + set (s1 := set_polls false (en_polls s) (set_queue q s)).
      pose proof (expand_edges_collect st (outgoing_edges g (ss_node st)) s1) as Hexp.
      destruct (expand_edges _ _ _ _ _ _ _ _ _ _ _) as [s2 ended].
      destruct Hexp as (Hc & Hq2 & Hs2). rewrite collect_app.
      change (en_paths s) with (en_paths s1).
      change (en_duplicates_skipped s) with (en_duplicates_skipped s1).
      change (en_found_path s) with (en_found_path s1). rewrite Hc. unfold view.
      destruct ended; [by exists s2|].
      specialize (Hq2 eq_refl). simpl in Hq2.
      destruct (IH s2) as (s' & H1 & H2 & H3).
      { rewrite Hq2, queue_weight_app. lia. }
      exists s'. rewrite <- Hq2. split_and!; [done|done|]. by rewrite H3, Hs2.
Qed.

(** What the fold computes. *)
Definition fresh (ps : list RoutePath) : list RoutePath := filter (λ p, p ∉ excluded) ps.

Lemma collect_unlimited ps paths dups found :
  limit = None → (0 <= dups <= usize_max)%Z →
  collect ps paths dups found =
  (paths ++ fresh ps,
   Z.min (dups + Z.of_nat (length (filter (λ p, p ∈ excluded) ps))) usize_max,
   found || negb (bool_decide (ps = [])), false).
Proof.
  intros Hlim. revert paths dups found.
  induction ps as [|p ps IH]; intros paths dups found Hd; simpl.
  { unfold fresh. rewrite filter_nil, app_nil_r, orb_false_r. simpl.
    do 3 f_equal. lia. }
  unfold fresh in *. case_decide as Hp; rewrite Hlim; simpl.
  - rewrite IH by (unfold usize_saturating_add in *; lia).
    rewrite filter_cons_False by tauto. rewrite filter_cons_True by done.
    rewrite orb_true_r. simpl. do 3 f_equal. unfold usize_saturating_add in *. lia.
  - rewrite IH by done. rewrite filter_cons_True by done. rewrite filter_cons_False by done.
    rewrite orb_true_r, <- (assoc_L (++)). done.
Qed.

Lemma collect_limited n ps paths dups found :
  limit = Some n → length paths < n →
  (collect ps paths dups found).1.1.1 = take n (paths ++ fresh ps) ∧
  (collect ps paths dups found).1.2 = found || negb (bool_decide (ps = [])).
Proof.
  intros Hlim. revert paths dups found.
  induction ps as [|p ps IH]; intros paths dups found Hn; simpl.
  { unfold fresh. rewrite filter_nil, app_nil_r, orb_false_r. split; [|done].
    by rewrite take_ge by lia. }
  unfold fresh in *. rewrite orb_true_r. case_decide as Hp; rewrite Hlim; simpl.
  - rewrite (proj2 (Nat.leb_gt _ _)) by done. rewrite filter_cons_False by tauto.
    destruct (IH paths (usize_saturating_add dups 1) true Hn) as [-> ->]. done.
  - rewrite filter_cons_True by done. rewrite length_app. simpl.
    destruct (n <=? length paths + 1) eqn:Hle.
    + apply Nat.leb_le in Hle. simpl. split; [|done].
      replace (paths ++ p :: filter (λ p0, p0 ∉ excluded) ps)
        with ((paths ++ [p]) ++ filter (λ p0, p0 ∉ excluded) ps)
        by (by rewrite <- (assoc_L (++))).
      rewrite take_app_le by (rewrite length_app; simpl; lia).
      by rewrite take_ge by (rewrite length_app; simpl; lia).
    + apply Nat.leb_gt in Hle.
      destruct (IH (paths ++ [p]) dups true) as [-> ->]; [rewrite length_app; simpl; lia|].
      by rewrite <- (assoc_L (++)).
Qed.
End collect.
End props.
