(* ===== verification/EnumerateTheorems.v ===== *)
(** * Theorems about route enumeration

    Soundness and completeness of the enumeration with respect to the
    admissible routes of the indexed pools, absence of duplicates, the order of
    the results, limits and exclusions, error cases and cancellation. *)

From S2P Require Import Prelude AmmState Petgraph Graph GraphPairs GraphInv GraphProps.
From S2P Require Import GraphTheorems Config SearchTypes Enumerate EnumerateProps.

(** ** Admissible routes, in terms of the indexed pools *)

Section routes.
Context `{!AmmTypes} `{!Petgraph Address EdgeData}.
Implicit Types (g : AmmGraph) (path : RoutePath) (h : Hop).

(** A hop swaps two distinct tokens of an indexed pool. *)
Definition swap_of g h : Prop :=
  ∃ ts, pool_tokens g !! hop_pool h = Some ts ∧
    hop_token_in h ∈ ts ∧ hop_token_out h ∈ ts ∧ hop_token_in h ≠ hop_token_out h.

(** The hops lead from [a] to [b]. *)
Fixpoint chained (a : Address) path (b : Address) : Prop :=
  match path with
  | [] => a = b
  | h :: path => hop_token_in h = a ∧ chained (hop_token_out h) path b
  end.

(** A proper prefix of a route: never through the target, no token or pool
    twice, connectors only. *)
Record route_prefix g (ti to : Address) (config : SearchConfig) path (cur : Address) : Prop := {
  rp_chained : chained ti path cur;
  rp_swaps : Forall (swap_of g) path;
  rp_pools : NoDup (hop_pool <$> path);
  rp_tokens : NoDup (ti :: (hop_token_out <$> path));
  rp_target : to ∉ hop_token_out <$> path;
  rp_connectors t : t ∈ hop_token_out <$> path → connector_allowed t ti to config = true;
}.

(** An admissible route: a prefix of at most [max_hops - 1] hops and a final
    hop into the target on another pool. *)
Definition valid_route g (ti to : Address) (config : SearchConfig) (cycle : bool) path : Prop :=
  ∃ prefix cur h, path = prefix ++ [h] ∧
    route_prefix g ti to config prefix cur ∧
    hop_token_in h = cur ∧ hop_token_out h = to ∧ swap_of g h ∧
    hop_pool h ∉ hop_pool <$> prefix ∧
    (ti = to → cycle = true) ∧
    min_hops config ≤ length path ≤ max_hops config.

Lemma chained_app a p b q c : chained a p b → chained b q c → chained a (p ++ q) c.
Proof. revert a. induction p as [|h p IH]; intros a; simpl; [by intros ->|naive_solver]. Qed.

Lemma chained_snoc a p h c :
  chained a (p ++ [h]) c ↔ chained a p (hop_token_in h) ∧ hop_token_out h = c.
Proof.
  revert a. induction p as [|h' p IH]; intros a; simpl; [naive_solver|].
  rewrite IH. naive_solver.
Qed.

Lemma chained_last a p b : chained a p b → b = a ∨ b ∈ hop_token_out <$> p.
Proof.
  revert a. induction p as [|h p IH]; intros a; csimpl; [auto|].
  intros [_ Hc]. apply IH in Hc. set_solver.
Qed.

Lemma chained_fun a p b c : chained a p b → chained a p c → b = c.
Proof. revert a. induction p as [|h p IH]; intros a; simpl; [congruence|naive_solver]. Qed.

(** Extending a prefix by one hop. *)
Lemma route_prefix_snoc g ti to config p h cur :
  route_prefix g ti to config (p ++ [h]) cur ↔
  route_prefix g ti to config p (hop_token_in h) ∧ hop_token_out h = cur ∧
  swap_of g h ∧ hop_pool h ∉ hop_pool <$> p ∧
  hop_token_out h ∉ ti :: (hop_token_out <$> p) ∧ hop_token_out h ≠ to ∧
  connector_allowed (hop_token_out h) ti to config = true.
Proof.
  split.
  - intros [Hc Hs Hp Ht Hto Hcon].
    apply chained_snoc in Hc as [Hc Hcur]. apply Forall_app in Hs as [Hs Hh].
    rewrite Forall_singleton in Hh. rewrite fmap_app in Hp; rewrite fmap_app in Ht; rewrite fmap_app in Hto.
    setoid_rewrite fmap_app in Hcon. simpl in *.
    rewrite app_comm_cons in Ht.
    apply NoDup_app in Hp as (Hp & Hp' & _), Ht as (Ht & Ht' & _).
    assert (hop_pool h ∉ hop_pool <$> p) by (intros Hin; apply (Hp' _ Hin); set_solver).
    assert (hop_token_out h ∉ ti :: (hop_token_out <$> p))
      by (intros Hin; apply (Ht' _ Hin); set_solver).
    split_and!; try done; [constructor; try done| |]; [set_solver|set_solver|set_solver|].
    apply Hcon. set_solver.
  - intros ([Hc Hs Hp Ht Hto Hcon] & Hcur & Hh & Hpool & Htok & Hne & Hok). constructor.
    + by apply chained_snoc.
    + apply Forall_app. by rewrite Forall_singleton.
    + rewrite fmap_app. apply NoDup_app. split_and!; [done| |apply NoDup_singleton].
      simpl. intros x Hx. rewrite list_elem_of_singleton. by intros ->.
    + rewrite fmap_app, app_comm_cons. apply NoDup_app.
      split_and!; [done| |apply NoDup_singleton].
      simpl. intros x Hx. rewrite list_elem_of_singleton. by intros ->.
    + rewrite fmap_app. simpl. set_solver.
    + intros t. rewrite fmap_app, elem_of_app. simpl. rewrite list_elem_of_singleton.
      naive_solver.
Qed.
End routes.

Section theorems.
Context `{!AmmTypes} `{!Petgraph Address EdgeData} `{!PetgraphLaws Address EdgeData}.
Implicit Types (g : AmmGraph) (st : SearchState).

(** ** Distinct outgoing edges *)

Lemma outgoing_edges_nodup g n : graph_wf g → NoDup (outgoing_edges g n).
Proof.
  intros Hwf. pose proof (wf_core _ Hwf) as Hc. rewrite (wf_outgoing _ Hc).
  apply NoDup_omap_inj; [by apply pg_outgoing_nodup, (wf_pg _ Hc)|].
  intros e1 e2 c _ _ H1 H2.
  apply (edge_view_inj g e1 e2 (ce_token_in c, ce_token_out c, ce_pool c) Hwf); unfold edge_view;
    by rewrite ?H1, ?H2.
Qed.

(** ** States of the search and the prefixes they stand for *)

Context (g : AmmGraph) (ti to : Address) (source target : NodeIndex)
  (config : SearchConfig) (allow : bool).
Hypothesis (Hwf : graph_wf g).
Hypothesis (Hsource : node_index g ti = Some source).
Hypothesis (Htarget : node_index g to = Some target).

Abbreviation outcome := (edge_outcome ti to source target config allow).
Abbreviation completions_ := (completions g ti to source target config allow).
Abbreviation expand_ := (expand g ti to source target config allow).

Record state_ok st : Prop := {
  so_prefix : ∃ cur, route_prefix g ti to config (ss_path st) cur ∧
                     node_index g cur = Some (ss_node st);
  so_visited t : t ∈ ss_visited_tokens st ↔ t ∈ ti :: (hop_token_out <$> ss_path st);
  so_used p : p ∈ ss_used_pools st ↔ p ∈ hop_pool <$> ss_path st;
}.

Definition hop_of (e : CachedOutgoingEdge) : Hop :=
  {| hop_pool := ce_pool e; hop_token_in := ce_token_in e; hop_token_out := ce_token_out e |}.

Lemma node_index_inj t t' n : node_index g t = Some n → node_index g t' = Some n → t = t'.
Proof. intros Ht Ht'. apply (wf_nodes _ (wf_core _ Hwf)) in Ht, Ht'. congruence. Qed.

(** The outgoing edges of a node are the swaps out of its token. *)
Lemma outgoing_swaps cur n h :
  node_index g cur = Some n →
  (∃ e, e ∈ outgoing_edges g n ∧ hop_of e = h) ↔ swap_of g h ∧ hop_token_in h = cur.
Proof.
  intros Hn. pose proof (wf_core _ Hwf) as Hc. unfold swap_of.
  assert (∀ e, e ∈ outgoing_edges g n → ce_token_in e = cur) as Hcur.
  { intros e (?&_&Hi&_)%(outgoing_edges_spec _ _ _ Hc). by eapply node_index_inj. }
  rewrite <- (edges_of_pools g (hop_pool h) (hop_token_in h) (hop_token_out h) Hwf). split.
  - intros (e & He & <-). pose proof He as He'. simpl. split; [|by apply Hcur].
    apply (outgoing_edges_spec _ _ _ Hc) in He as (i & Hi & H1 & H2).
    exists i, e. split_and!; try done. apply cached_of_Some; [done|].
    exists n. split; [done|]. split; by apply (wf_nodes _ Hc).
  - intros [(i & e & He & H1 & H2 & H3) Hin]. exists e. split.
    + apply (outgoing_edges_spec _ _ _ Hc). apply cached_of_Some in He as (a & Ha & Ht & Hb); [|done].
      apply (wf_nodes _ Hc) in Ht, Hb. exists i. rewrite H1, Hin in Ht.
      assert (a = n) as -> by (unfold node_index in Hn; congruence). rewrite H1, Hin. done.
    + unfold hop_of. rewrite H1, H2, H3. by destruct h.
Qed.

Lemma closes_target_token e n :
  e ∈ outgoing_edges g n → ce_target e = target ↔ ce_token_out e = to.
Proof.
  intros (?&_&_&Ho)%(outgoing_edges_spec _ _ _ (wf_core _ Hwf)). split.
  - intros Heq. rewrite Heq in Ho. by eapply node_index_inj.
  - intros Heq. rewrite Heq in Ho. unfold node_index in Htarget; congruence.
Qed.

Lemma source_target_token : source = target ↔ ti = to.
Proof.
  split; [|intros Heq; rewrite Heq in Hsource; congruence].
  intros Heq. rewrite Heq in Hsource. by eapply node_index_inj.
Qed.

Lemma initial_state_ok : state_ok (initial_state ti source).
Proof.
  constructor; simpl; [|set_solver..].
  exists ti. split; [|done]. constructor; simpl; try done.
  - constructor.
  - apply NoDup_singleton.
  - set_solver.
  - set_solver.
Qed.

(** One edge of a good state. *)
Lemma outcome_complete st e p :
  state_ok st → e ∈ outgoing_edges g (ss_node st) → length (ss_path st) < max_hops config →
  outcome st e = EdgeComplete p ↔
  p = ss_path st ++ [hop_of e] ∧ valid_route g ti to config allow p.
Proof.
  intros [(cur & Hpre & Hcur) Hvis Hused] He Hlen.
  destruct (proj1 (outgoing_swaps cur _ (hop_of e) Hcur) (ex_intro _ e (conj He eq_refl)))
    as [Hswap Hin].
  pose proof (closes_target_token _ _ He) as Hct. pose proof source_target_token as Hst.
  assert (valid_route g ti to config allow (ss_path st ++ [hop_of e]) ↔
    ce_token_out e = to ∧ ce_pool e ∉ hop_pool <$> ss_path st ∧ (ti = to → allow = true) ∧
    min_hops config ≤ S (length (ss_path st))) as Hvalid.
  { split.
    - intros (pre & cur' & h & [Hp Hh]%app_inj_tail & _ & _ & Hout & _ & Hnp & Hal & Hl). subst.
      rewrite length_app in Hl. simpl in *. split_and!; [done..|lia].
    - intros (Hout & Hnp & Hal & Hl). exists (ss_path st), cur, (hop_of e).
      rewrite length_app. simpl. split_and!; try done; lia. }
  assert (ce_token_out e ∈ ss_visited_tokens st → ce_token_out e = to → ti = to) as Hvto.
  { rewrite Hvis, elem_of_cons. intros [->|Hin'] Heq; [done|].
    destruct (rp_target _ _ _ _ _ _ Hpre). by rewrite <- Heq. }
  unfold edge_outcome, path_push.
  change {| hop_pool := ce_pool e; hop_token_in := ce_token_in e;
            hop_token_out := ce_token_out e |} with (hop_of e).
  destruct (decide (ce_pool e ∈ ss_used_pools st)) as [Hu|Hu].
  { split; [done|]. intros [-> (?&Hnp&_)%Hvalid]. by apply Hused in Hu. }
  destruct (bool_decide_reflect (ce_target e = target)) as [Ht|Ht].
  - cbn [negb andb]. apply Hct in Ht as Hto. rewrite length_app. simpl.
    assert (bool_decide (ce_token_out e ∈ ss_visited_tokens st)
            && negb (allow && bool_decide (source = target) && bool_decide (ce_target e = source))
            = true ↔ ti = to ∧ allow = false) as Hb.
    { rewrite andb_true_iff, negb_true_iff, !andb_false_iff, !bool_decide_eq_false,
        bool_decide_eq_true. split.
      - intros [Hv Hc]. apply Hvto in Hv; [|done]. apply Hst in Hv as Hst'. split; [done|].
        destruct Hc as [[?|?]|?]; [done|done|congruence].
      - intros [-> ->]. split; [|by auto]. apply Hvis. rewrite Hto. set_solver. }
    destruct (bool_decide _ && _) eqn:Hbeq.
    { split; [done|]. intros [-> (_&_&Hal&_)%Hvalid]. destruct (proj1 Hb eq_refl) as [? Ha].
      rewrite Hal in Ha; done. }
    assert (ti = to → allow = true).
    { intros Heq. destruct allow; [done|]. exfalso. by apply (diff_false_true), Hb. }
    destruct (_ <=? _) eqn:Hl.
    + apply Nat.leb_le in Hl. split; [|by intros [-> _]]. intros [= <-]. split; [done|].
      apply Hvalid. split_and!; [done|by rewrite <- Hused|done|lia].
    + apply Nat.leb_gt in Hl. split; [done|]. intros [-> (_&_&_&?)%Hvalid]. lia.
  - split.
    + repeat case_match; done.
    + intros [-> (Hto&_)%Hvalid]. by apply Hct in Hto.
Qed.

Lemma outcome_extends st e st' :
  state_ok st → e ∈ outgoing_edges g (ss_node st) →
  outcome st e = EdgeExtend st' →
  state_ok st' ∧ ss_path st' = ss_path st ++ [hop_of e].
Proof.
  intros [(cur & Hpre & Hcur) Hvis Hused] He.
  destruct (proj1 (outgoing_swaps cur _ (hop_of e) Hcur) (ex_intro _ e (conj He eq_refl)))
    as [Hswap Hin].
  pose proof (closes_target_token _ _ He) as Hct.
  pose proof He as He'. apply (outgoing_edges_spec _ _ _ (wf_core _ Hwf)) in He' as (i&_&_&Ho).
  unfold edge_outcome, path_push.
  destruct (decide (ce_pool e ∈ ss_used_pools st)) as [Hu|Hu]; [done|].
  destruct (bool_decide_reflect (ce_target e = target)) as [Ht|Ht].
  { repeat case_match; done. }
  destruct (bool_decide _ && _) eqn:Hb; [done|]. simpl.
  destruct (connector_allowed _ _ _ _) eqn:Hcon; [|done]. simpl.
  destruct (_ <? _); [|done]. intros [= <-]. simpl. split; [|done].
  assert (ce_token_out e ≠ to) by (by rewrite <- Hct).
  assert (ce_token_out e ∉ ti :: (hop_token_out <$> ss_path st)) as Hnv.
  { rewrite <- Hvis. apply andb_false_iff in Hb as [Hb|Hb].
    - by apply bool_decide_eq_false in Hb.
    - apply negb_false_iff in Hb. rewrite !andb_true_iff, !bool_decide_eq_true in Hb.
      destruct Hb as [[_ Hb1] Hb2]. congruence. }
  constructor; simpl.
  - exists (ce_token_out e). split; [|done]. apply route_prefix_snoc. simpl.
    simpl in Hin. subst cur. split_and!; try done. by rewrite <- Hused.
  - intros t. rewrite elem_of_union, elem_of_singleton, Hvis, fmap_app. simpl. set_solver.
  - intros p. rewrite elem_of_union, elem_of_singleton, Hused, fmap_app. simpl. set_solver.
Qed.

(** Every admissible extension of a good state is spawned. *)
Lemma outcome_extends_complete st h cur :
  state_ok st → S (length (ss_path st)) < max_hops config →
  route_prefix g ti to config (ss_path st ++ [h]) cur →
  ∃ e st', e ∈ outgoing_edges g (ss_node st) ∧ outcome st e = EdgeExtend st' ∧
    ss_path st' = ss_path st ++ [h].
Proof.
  intros [(cur' & Hpre' & Hcur) Hvis Hused] Hlen Hpre.
  apply route_prefix_snoc in Hpre as (Hpre & Hout & Hswap & Hnp & Hnt & Hne & Hcon).
  assert (cur' = hop_token_in h) as -> by (eapply chained_fun; [apply Hpre'|apply Hpre]).
  destruct (proj2 (outgoing_swaps _ _ h Hcur) (conj Hswap eq_refl)) as (e & He & Heh).
  exists e. assert (ce_pool e = hop_pool h ∧ ce_token_out e = hop_token_out h) as [Hp Ho]
    by (by rewrite <- Heh).
  pose proof (closes_target_token _ _ He) as Hct.
  assert (ce_target e ≠ target) by (rewrite Hct; congruence).
  eexists. split; [done|]. unfold edge_outcome, path_push.
  rewrite decide_False by (rewrite Hused; congruence).
  rewrite (bool_decide_eq_false_2 (ce_target e = target)) by done.
  rewrite (bool_decide_eq_false_2 (ce_token_out e ∈ _)) by (rewrite Hvis; congruence).
  rewrite Ho, Hcon. simpl. rewrite <- Ho.
  change {| hop_pool := ce_pool e; hop_token_in := ce_token_in e;
            hop_token_out := ce_token_out e |} with (hop_of e). rewrite Heh.
  rewrite (proj2 (Nat.ltb_lt _ _)); [by split|]. rewrite length_app. simpl. lia.
Qed.
(** ** Levels *)

Abbreviation levels := (levels_from g ti to source target config allow).

Definition children (sts : list SearchState) : list SearchState := sts ≫= expand_.

Definition iter_expand (k : nat) (sts : list SearchState) : list SearchState :=
  Nat.iter k children sts.

Lemma iter_expand_swap k sts : iter_expand k (children sts) = children (iter_expand k sts).
Proof. symmetry. apply Nat.iter_succ_r. Qed.

Lemma elem_of_levels n sts p :
  p ∈ levels n sts ↔ ∃ k st, k < n ∧ st ∈ iter_expand k sts ∧ p ∈ completions_ st.
Proof.
  revert sts. induction n as [|n IH]; intros sts; simpl.
  { split; [set_solver|]. intros (k & st & ? & _). lia. }
  rewrite elem_of_app, list_elem_of_bind, IH. split.
  - intros [(st & Hp & Hst)|(k & st & Hk & Hst & Hp)].
    + exists 0, st. split_and!; [lia|done|done].
    + exists (S k), st. split_and!; [lia| |done].
      fold (children sts) in Hst. by rewrite iter_expand_swap in Hst.
  - intros ([|k] & st & Hk & Hst & Hp); [left; eauto|right].
    exists k, st. split_and!; [lia| |done].
    fold (children sts). by rewrite iter_expand_swap.
Qed.

Lemma elem_of_completions st p :
  p ∈ completions_ st ↔ length (ss_path st) < max_hops config ∧
    ∃ e, e ∈ outgoing_edges g (ss_node st) ∧ outcome st e = EdgeComplete p.
Proof.
  unfold completions, edges_at. rewrite list_elem_of_omap.
  destruct (max_hops config <=? length (ss_path st)) eqn:Hl.
  - apply Nat.leb_le in Hl. split; [set_solver|]. intros [? _]. lia.
  - apply Nat.leb_gt in Hl. split.
    + intros (e & He & Hc). split; [done|]. exists e. split; [done|].
      by destruct (outcome st e); simplify_eq/=.
    + intros (_ & e & He & Hc). exists e. by rewrite Hc.
Qed.

Lemma elem_of_expand st st' :
  st' ∈ expand_ st ↔ length (ss_path st) < max_hops config ∧
    ∃ e, e ∈ outgoing_edges g (ss_node st) ∧ outcome st e = EdgeExtend st'.
Proof.
  unfold expand, edges_at. rewrite list_elem_of_omap.
  destruct (max_hops config <=? length (ss_path st)) eqn:Hl.
  - apply Nat.leb_le in Hl. split; [set_solver|]. intros [? _]. lia.
  - apply Nat.leb_gt in Hl. split.
    + intros (e & He & Hc). split; [done|]. exists e. split; [done|].
      by destruct (outcome st e); simplify_eq/=.
    + intros (_ & e & He & Hc). exists e. by rewrite Hc.
Qed.

(** Good states of one level: they stand for distinct prefixes of one length. *)
Record level_ok (len : nat) (sts : list SearchState) : Prop := {
  lv_ok st : st ∈ sts → state_ok st;
  lv_length st : st ∈ sts → length (ss_path st) = len;
  lv_nodup : NoDup (ss_path <$> sts);
}.

Lemma hop_of_inj n e e' :
  e ∈ outgoing_edges g n → e' ∈ outgoing_edges g n → hop_of e = hop_of e' → e = e'.
Proof.
  intros (?&_&_&H1)%(outgoing_edges_spec _ _ _ (wf_core _ Hwf))
         (?&_&_&H2)%(outgoing_edges_spec _ _ _ (wf_core _ Hwf)).
  destruct e, e'. unfold hop_of. simpl in *. intros [= -> -> ->]. f_equal. congruence.
Qed.

Lemma completion_path st p :
  state_ok st → p ∈ completions_ st →
  valid_route g ti to config allow p ∧ ∃ h, p = ss_path st ++ [h].
Proof.
  intros Hst (Hl & e & He & Hp)%elem_of_completions.
  apply outcome_complete in Hp as [-> ?]; [|done..]. eauto.
Qed.

Lemma expand_path st st' :
  state_ok st → st' ∈ expand_ st → state_ok st' ∧ ∃ h, ss_path st' = ss_path st ++ [h].
Proof.
  intros Hst (Hl & e & He & Hp)%elem_of_expand.
  apply outcome_extends in Hp as [? ->]; [|done..]. eauto.
Qed.

Lemma completions_nodup st : state_ok st → NoDup (completions_ st).
Proof.
  intros Hst. unfold completions. apply NoDup_omap_inj.
  - unfold edges_at. case_match; [constructor|]. by apply outgoing_edges_nodup.
  - intros e e' p He He' Hp Hp'. unfold edges_at in *.
    destruct (max_hops config <=? _) eqn:Hl; [set_solver|]. apply Nat.leb_gt in Hl.
    destruct (outcome st e) eqn:H1, (outcome st e') eqn:H2; simplify_eq/=.
    apply outcome_complete in H1 as [Heq _]; [|done..].
    apply outcome_complete in H2 as [Heq' _]; [|done..].
    rewrite Heq in Heq'. apply app_inj_tail in Heq' as [_ ?]. by eapply hop_of_inj.
Qed.

Lemma expand_paths_nodup st : state_ok st → NoDup (ss_path <$> expand_ st).
Proof.
  intros Hst. unfold expand.
  assert (∀ l : list CachedOutgoingEdge,
    ss_path <$> omap (λ e, extend_of (outcome st e)) l =
    omap (λ e, ss_path <$> extend_of (outcome st e)) l) as ->.
  { induction l as [|e l IH]; csimpl; [done|]. destruct (extend_of _); csimpl; by rewrite IH. }
  apply NoDup_omap_inj.
  - unfold edges_at. case_match; [constructor|]. by apply outgoing_edges_nodup.
  - intros e e' p He He' Hp Hp'. unfold edges_at in *.
    destruct (max_hops config <=? _) eqn:Hl; [set_solver|].
    destruct (outcome st e) eqn:H1, (outcome st e') eqn:H2; simplify_eq/=.
    apply outcome_extends in H1 as [_ Heq]; [|done..].
    apply outcome_extends in H2 as [_ Heq']; [|done..].
    rewrite Heq in *. assert (ss_path st ++ [hop_of e] = ss_path st ++ [hop_of e']) as Hh
      by congruence.
    apply app_inj_tail in Hh as [_ ?]. by eapply hop_of_inj.
Qed.

(** A concatenation over states with distinct paths of lists whose elements
    remember the path. *)
Lemma NoDup_bind_paths {A} (f : SearchState → list A) (path : A → RoutePath) sts :
  NoDup (ss_path <$> sts) → (∀ st, st ∈ sts → NoDup (f st)) →
  (∀ st a, st ∈ sts → a ∈ f st → ∃ h, path a = ss_path st ++ [h]) → NoDup (sts ≫= f).
Proof.
  intros Hnd Hf Hp. apply NoDup_bind; [|done|by eapply NoDup_fmap_1].
  intros st st' a Hst Hst' Ha Ha'.
  destruct (Hp st a Hst Ha) as [h Hh], (Hp st' a Hst' Ha') as [h' Hh'].
  rewrite Hh in Hh'. apply app_inj_tail in Hh' as [Heq _].
  apply list_elem_of_lookup in Hst as [i Hi], Hst' as [j Hj].
  assert (i = j) as ->; [|congruence].
  eapply (NoDup_lookup _ _ _ (ss_path st) Hnd); rewrite list_lookup_fmap, ?Hi, ?Hj; simpl;
    congruence.
Qed.

Lemma children_level_ok len sts : level_ok len sts → level_ok (S len) (children sts).
Proof.
  intros [Hok Hlen Hnd]. constructor.
  - intros st' (st & Hex & Hst)%list_elem_of_bind. eapply expand_path; [by apply Hok|done].
  - intros st' (st & Hex & Hst)%list_elem_of_bind.
    apply expand_path in Hex as [_ [h ->]]; [|by apply Hok].
    rewrite length_app, (Hlen st Hst). simpl. lia.
  - unfold children. rewrite fmap_bind_list.
    apply (NoDup_bind_paths _ id); [done|by intros; apply expand_paths_nodup, Hok|].
    intros st p Hst (st' & -> & Hex)%list_elem_of_fmap.
    by apply (expand_path st st' (Hok st Hst) Hex).
Qed.

Definition shorter (p q : RoutePath) : Prop := length p ≤ length q.

Lemma levels_ok n len sts :
  level_ok len sts →
  NoDup (levels n sts) ∧ StronglySorted shorter (levels n sts) ∧
  ∀ p, p ∈ levels n sts → valid_route g ti to config allow p ∧ len < length p.
Proof.
  revert len sts. induction n as [|n IH]; intros len sts Hlv; simpl.
  { split_and!; [constructor|constructor|set_solver]. }
  destruct (IH (S len) (children sts) (children_level_ok _ _ Hlv)) as (Hnd & Hs & Hp).
  fold (children sts). destruct Hlv as [Hok Hlen Hnd0].
  assert (∀ p, p ∈ sts ≫= completions_ →
    valid_route g ti to config allow p ∧ length p = S len) as Hc.
  { intros p (st & Hex & Hst)%list_elem_of_bind.
    apply completion_path in Hex as [Hv [h ->]]; [|by apply Hok]. split; [done|].
    rewrite length_app, (Hlen st Hst). simpl. lia. }
  assert (StronglySorted shorter (sts ≫= completions_)) as Hs0.
  { assert (∀ l : list RoutePath, (∀ p, p ∈ l → length p = S len) → StronglySorted shorter l)
      as Hconst.
    { induction l as [|p l IHl]; intros Hl; constructor; [apply IHl; set_solver|].
      apply Forall_forall. intros q Hq. unfold shorter. rewrite !Hl; [done|set_solver..]. }
    apply Hconst. intros p Hin. by apply Hc. }
  split_and!.
  - apply NoDup_app. split_and!; [|intros p Hin Hin'|done].
    + apply (NoDup_bind_paths _ id); [done|by intros; apply completions_nodup, Hok|].
      intros st p Hst Hin. by apply (completion_path st p (Hok st Hst)).
    + apply Hc in Hin as [_ Hl]. apply Hp in Hin' as [_ Hl']. lia.
  - clear -Hs Hs0 Hc Hp. induction Hs0 as [|p l Hl IHl Hall]; simpl; [done|].
    constructor; [apply IHl; set_solver|]. apply Forall_app. split; [done|].
    apply Forall_forall. intros q Hq. apply Hp in Hq as [_ Hq].
    destruct (Hc p) as [_ Hpl]; [set_solver|]. unfold shorter. lia.
  - intros p [Hin|Hin]%elem_of_app; [|apply Hp in Hin as [? ?]; split; [done|lia]].
    apply Hc in Hin as [? ?]. split; [done|lia].
Qed.

Lemma initial_level_ok : level_ok 0 [initial_state ti source].
Proof.
  constructor.
  - intros st ->%list_elem_of_singleton. apply initial_state_ok.
  - by intros st ->%list_elem_of_singleton.
  - apply NoDup_singleton.
Qed.

Lemma iter_level_ok k : level_ok k (iter_expand k [initial_state ti source]).
Proof.
  induction k as [|k IH]; [apply initial_level_ok|]. by apply (children_level_ok k).
Qed.

Lemma prefix_reached p cur :
  route_prefix g ti to config p cur → (p = [] ∨ length p < max_hops config) →
  ∃ st, st ∈ iter_expand (length p) [initial_state ti source] ∧ ss_path st = p.
Proof.
  revert cur. induction p as [|h p IH] using rev_ind; intros cur Hpre Hl.
  { exists (initial_state ti source). split; [set_solver|done]. }
  pose proof Hpre as (Hpre' & _)%route_prefix_snoc. rewrite length_app in *. simpl in *.
  destruct Hl as [Hl|Hl]; [by destruct p|].
  destruct (IH _ Hpre') as (st & Hst & <-); [right; lia|].
  destruct (outcome_extends_complete st h cur) as (e & st' & He & Ho & Hp').
  - by apply (lv_ok _ _ (iter_level_ok _)) in Hst.
  - lia.
  - done.
  - exists st'. split; [|done]. rewrite Nat.add_1_r. simpl. unfold children at 1.
    apply list_elem_of_bind. exists st. split; [|done]. apply elem_of_expand. split; [lia|eauto].
Qed.

Abbreviation bfs := (bfs_routes g ti to source target config allow).

Lemma bfs_complete p : valid_route g ti to config allow p → p ∈ bfs.
Proof.
  intros Hv. pose proof Hv as (pre & cur & h & -> & Hpre & Hin & Hout & Hsw & Hnp & Hal & Hl).
  rewrite length_app in Hl. simpl in Hl.
  destruct (prefix_reached pre cur Hpre) as (st & Hst & <-); [right; lia|].
  apply elem_of_levels. exists (length (ss_path st)), st.
  pose proof (lv_ok _ _ (iter_level_ok _) _ Hst) as Hok.
  split_and!; [lia|done|]. apply elem_of_completions. split; [lia|].
  destruct (so_prefix _ Hok) as (cur' & Hpre' & Hcur).
  assert (cur' = cur) as -> by (eapply chained_fun; [apply Hpre'|apply Hpre]).
  destruct (proj2 (outgoing_swaps _ _ h Hcur) (conj Hsw Hin)) as (e & He & Heh).
  exists e. split; [done|]. apply outcome_complete; [done|done|lia|]. by rewrite Heh.
Qed.

Lemma bfs_spec :
  NoDup bfs ∧ StronglySorted shorter bfs ∧
  ∀ p, p ∈ bfs ↔ valid_route g ti to config allow p.
Proof.
  destruct (levels_ok (max_hops config) 0 _ initial_level_ok) as (Hnd & Hs & Hp).
  split_and!; [done|done|]. intros p. split; [|apply bfs_complete]. intros Hin. by apply Hp.
Qed.

(** ** The whole function without cancellation *)

Lemma enumerate_uncancelled excluded limit :
  SearchConfig_validate config = Ok () → limit ≠ Some 0 →
  enumerate_routes_filtered g ti to config allow excluded limit None =
  Some (if decide (bfs = []) then Err (ErrNoPath ti to)
        else let '(paths, dups, _, _) := collect excluded limit bfs [] 0 false in
             Ok {| re_paths := paths; re_duplicates_skipped := dups; re_stopped := false |}).
Proof.
  intros Hval Hlim. unfold enumerate_routes_filtered.
  rewrite Hval. simpl. rewrite Hsource, Htarget, decide_False by done.
  destruct (search_loop_collect g ti to source target config allow excluded limit
    (enumerate_fuel g config) (initial_enum ti source)) as (s & -> & Hview & Hst).
  { unfold queue_weight, state_weight, enumerate_fuel. simpl. rewrite Nat.sub_0_r. lia. }
  simpl in Hview, Hst |- *.
  rewrite (drain_levels _ _ _ _ _ _ _ (max_hops config)) in Hview.
  2: { unfold queue_weight, state_weight, enumerate_fuel. simpl. rewrite Nat.sub_0_r. lia. }
  2: { intros st _. lia. }
  fold bfs in Hview. unfold finish_enumeration. rewrite Hst.
  assert (en_found_path s = negb (bool_decide (bfs = []))) as ->.
  { apply (f_equal snd) in Hview. simpl in Hview. rewrite Hview.
    destruct limit as [n|].
    - destruct n as [|n]; [done|].
      rewrite (proj2 (collect_limited excluded (Some (S n)) (S n) bfs [] 0 false eq_refl
        ltac:(simpl; lia))). done.
    - by rewrite collect_unlimited by (try done; unfold usize_max; lia). }
  unfold view in Hview.
  destruct (decide (bfs = [])) as [Hb|Hb].
  - rewrite bool_decide_eq_true_2 by done. done.
  - rewrite bool_decide_eq_false_2 by done. simpl.
    destruct (collect _ _ _ _ _ _) as [[[paths dups] ?] ?]. simpl in Hview.
    by injection Hview as -> -> _.
Qed.
End theorems.

(** ** Cancellation *)

Section cancel.
Context `{!AmmTypes} `{!Petgraph Address EdgeData}.
Context (g : AmmGraph) (ti to : Address) (source target : NodeIndex)
  (config : SearchConfig) (allow : bool) (excluded : gset RoutePath) (limit : option nat).

Abbreviation expand_run sc :=
  (expand_edges ti to source target config allow excluded limit sc).
Abbreviation loop_run sc :=
  (search_loop g ti to source target config allow excluded limit sc).

(** The two runs agree on everything but the number of calls made. *)
Record same_progress (s s' : EnumState) : Prop := {
  sp_queue : en_queue s = en_queue s';
  sp_view : view s = view s';
  sp_running : en_stopped s = false ∧ en_stopped s' = false;
}.

(** The cancelled run [s] is a prefix of the other one. *)
Record prefix_progress (s s' : EnumState) : Prop := {
  pp_stopped : en_stopped s = true;
  pp_paths : en_paths s `prefix_of` en_paths s';
  pp_found : en_found_path s = true → en_found_path s' = true;
}.

(** Without cancellation the run only adds paths. *)
Record grows (s s' : EnumState) : Prop := {
  gr_paths : en_paths s `prefix_of` en_paths s';
  gr_found : en_found_path s = true → en_found_path s' = true;
}.

#[local] Instance grows_po : PreOrder grows.
Proof.
  split; [by constructor|]. intros s1 s2 s3 [H1 H2] [H3 H4].
  constructor; [by etrans|auto].
Qed.

Lemma record_path_grows p s : grows s (record_path excluded p s).
Proof. unfold record_path. case_decide; constructor; simpl; try done. by apply prefix_app_r. Qed.

Lemma set_polls_grows b n s : grows s (set_polls b n s).
Proof. by constructor. Qed.
Lemma set_queue_grows q s : grows s (set_queue q s).
Proof. by constructor. Qed.
Lemma push_back_grows st s : grows s (push_back st s).
Proof. by constructor. Qed.

Lemma expand_run_grows st es s : grows s (expand_run None st es s).1.
Proof.
  revert s. induction es as [|e es IH]; intros s; simpl; [done|].
  pose proof (set_polls_grows false (en_polls s) s) as H1.
  destruct (edge_outcome _ _ _ _ _ _ _ _) as [|p|st'].
  - etrans; [exact H1|apply IH].
  - etrans; [exact H1|]. etrans; [apply (record_path_grows p)|]. case_match; [done|apply IH].
  - etrans; [exact H1|]. etrans; [apply (push_back_grows st')|apply IH].
Qed.

Lemma loop_run_grows fuel s s' : loop_run None fuel s = Some s' → grows s s'.
Proof.
  revert s. induction fuel as [|fuel IH]; intros s; simpl.
  { case_match; [by intros [= <-]|done]. }
  destruct (en_queue s) as [|st q]; [by intros [= <-]|].
  set (s1 := set_polls false _ (set_queue q s)).
  assert (grows s s1) as H1 by by constructor.
  case_match; [by intros ?%IH; etrans|].
  pose proof (expand_run_grows st (outgoing_edges g (ss_node st)) s1) as H2.
  destruct (expand_run _ _ _ _) as [s2 []]; simpl in H2.
  - intros [= <-]. by etrans.
  - intros ?%IH. etrans; [exact H1|]. by etrans.
Qed.

Lemma set_polls_progress n n' s s' :
  same_progress s s' → same_progress (set_polls false n s) (set_polls false n' s').
Proof. by intros [? ? ?]; constructor. Qed.

Lemma record_path_progress p s s' :
  same_progress s s' → same_progress (record_path excluded p s) (record_path excluded p s').
Proof.
  destruct s, s'. intros [H1 H2 H3]. unfold view in H2. simpl in *. simplify_eq.
  unfold record_path. by case_decide; constructor.
Qed.

Lemma push_back_progress st s s' :
  same_progress s s' → same_progress (push_back st s) (push_back st s').
Proof.
  destruct s, s'. intros [H1 H2 H3]. unfold view in H2. simpl in *. simplify_eq. by constructor.
Qed.

Lemma expand_run_cancel sc st es s s' :
  same_progress s s' →
  let '(r, b) := expand_run sc st es s in
  let '(r', b') := expand_run None st es s' in
  (same_progress r r' ∧ b = b') ∨ (prefix_progress r r' ∧ b = true).
Proof.
  revert s s'. induction es as [|e es IH]; intros s s' Hp; simpl; [by left|].
  destruct (poll_stop sc (en_polls s)) as [[] polls].
  - pose proof (expand_run_grows st (e :: es) s') as [Hg Hf]. simpl in Hg, Hf.
    destruct s as [q ps d f b n], s' as [q' ps' d' f' b' n'], Hp as [H1 H2 H3].
    unfold view in H2. simpl in *. simplify_eq.
    destruct (match edge_outcome ti to source target config allow st e with
              | EdgeSkip => _ | EdgeComplete _ => _ | EdgeExtend _ => _ end) as [r' b''].
    right. split; [|done]. by constructor.
  - pose proof (set_polls_progress polls (en_polls s') _ _ Hp) as Hp1.
    destruct (edge_outcome _ _ _ _ _ _ _ _) as [|p|st'].
    + by apply IH.
    + apply (record_path_progress p) in Hp1 as Hp2.
      assert (en_paths (record_path excluded p (set_polls false polls s)) =
              en_paths (record_path excluded p (set_polls false (en_polls s') s'))) as ->.
      { destruct Hp2 as [_ Hv _]. unfold view in Hv. congruence. }
      destruct (limit_reached _ _); [by left|]. by apply IH.
    + apply IH. by apply push_back_progress.
Qed.

Lemma loop_run_cancel sc fuel s s' r' :
  same_progress s s' → loop_run None fuel s' = Some r' →
  ∃ r, loop_run sc fuel s = Some r ∧ (same_progress r r' ∨ prefix_progress r r').
Proof.
  revert s s'. induction fuel as [|fuel IH]; intros s s' Hp.
  { simpl. rewrite (sp_queue _ _ Hp). case_match; [|done]. intros [= <-]. eauto. }
  intros Hr'. pose proof (loop_run_grows _ _ _ Hr') as [Hg Hf]. revert Hr'. simpl.
  rewrite (sp_queue _ _ Hp). destruct (en_queue s') as [|st q]; [intros [= <-]; eauto|].
  destruct (poll_stop sc (en_polls s)) as [[] polls].
  - intros _. eexists. split; [done|]. right.
    destruct s, s', Hp as [H1 H2 H3]. unfold view in H2. simpl in *. simplify_eq.
    by constructor.
  - assert (same_progress (set_polls false polls (set_queue q s))
      (set_polls false (en_polls s') (set_queue q s'))) as Hp1.
    { apply set_polls_progress. destruct s, s', Hp as [H1 H2 H3]. by constructor. }
    case_match; [by apply IH|].
    pose proof (expand_run_cancel sc st (outgoing_edges g (ss_node st)) _ _ Hp1) as Hx.
    destruct (expand_run sc _ _ _) as [r b], (expand_run None _ _ _) as [r1 b1].
    destruct Hx as [[Hsame ->]|[Hpre ->]].
    + destruct b1; [intros [= <-]; eauto|]. by apply IH.
    + intros Hr. exists r. split; [done|]. right. destruct Hpre as [H1 H2 H3].
      destruct b1; [by simplify_eq; constructor|].
      apply loop_run_grows in Hr as [H4 H5]. constructor; [done|by etrans|auto].
Qed.
(** A callback that never asks to stop leaves no trace of a stop. *)
Lemma expand_run_unstopped sc st es s :
  (∀ n, (poll_stop sc n).1 = false) → en_stopped s = false →
  en_stopped (expand_run sc st es s).1 = false.
Proof.
  intros Hsc. revert s. induction es as [|e es IH]; intros s Hs; simpl; [done|].
  pose proof (Hsc (en_polls s)) as Hp. destruct (poll_stop sc (en_polls s)) as [stop polls].
  simpl in Hp. subst stop.
  destruct (edge_outcome _ _ _ _ _ _ _ _) as [|p|st']; [by apply IH| |by apply IH].
  assert (en_stopped (record_path excluded p (set_polls false polls s)) = false) as Hr.
  { unfold record_path. by case_decide. }
  destruct (limit_reached _ _); [done|by apply IH].
Qed.

Lemma loop_run_unstopped sc fuel s s' :
  (∀ n, (poll_stop sc n).1 = false) → en_stopped s = false →
  loop_run sc fuel s = Some s' → en_stopped s' = false.
Proof.
  intros Hsc. revert s. induction fuel as [|fuel IH]; intros s Hs; simpl.
  { case_match; [by intros [= <-]|done]. }
  destruct (en_queue s) as [|st q]; [by intros [= <-]|].
  pose proof (Hsc (en_polls s)) as Hp. destruct (poll_stop sc (en_polls s)) as [stop polls].
  simpl in Hp. subst stop. case_match; [by apply IH|].
  pose proof (expand_run_unstopped sc st (outgoing_edges g (ss_node st))
    (set_polls false polls (set_queue q s)) Hsc Hs) as Hx.
  destruct (expand_run _ _ _ _) as [s2 []]; simpl in Hx; [by intros [= <-]|by apply IH].
Qed.
End cancel.

(** ** The claims *)

Section claims.
Context `{!AmmTypes} `{!Petgraph Address EdgeData} `{!PetgraphLaws Address EdgeData}.
Implicit Types (g : AmmGraph).

(** The enumeration never runs out of fuel. *)
Lemma enumerate_total g ti to config allow excluded limit :
  is_Some (enumerate_routes_filtered g ti to config allow excluded limit None).
Proof.
  unfold enumerate_routes_filtered.
  destruct (search_validated _) as [[]|]; [|by eexists].
  destruct (node_index g ti) as [source|]; [|by eexists].
  destruct (node_index g to) as [target|]; [|by eexists]. case_decide; [by eexists|].
  destruct (search_loop_collect g ti to source target config allow excluded limit
    (enumerate_fuel g config) (initial_enum ti source)) as (s & -> & _); [|by eexists].
  unfold queue_weight, state_weight, enumerate_fuel. simpl. rewrite Nat.sub_0_r. lia.
Qed.

(** Nor does a search whose callback never asks to stop. *)
Lemma enumerate_unstopped g ti to config allow excluded limit sc e :
  (∀ n, (poll_stop sc n).1 = false) →
  enumerate_routes_filtered g ti to config allow excluded limit sc = Some (Ok e) →
  re_stopped e = false.
Proof.
  intros Hsc. unfold enumerate_routes_filtered.
  destruct (search_validated _) as [[]|]; [|done].
  destruct (node_index g ti) as [source|]; [|done].
  destruct (node_index g to) as [target|]; [|done]. case_decide; [by intros [= <-]|].
  destruct (search_loop _ _ _ _ _ _ _ _ _ _ _ _) as [s|] eqn:Hs; [|done].
  apply loop_run_unstopped in Hs; [|done..]. simpl. unfold finish_enumeration.
  destruct (_ && _); [done|]. by intros [= <-].
Qed.

(** C2: Exhaustive enumeration is sound and complete.  On a well-formed graph
    with both tokens indexed and a valid configuration the search terminates
    within its fuel; it returns exactly the admissible routes (simple in tokens
    and pools, through allowed connectors, never through the target, within
    the hop range, and cyclic only if requested), each once, shortest first;
    and it fails with [NoPath] exactly when there is no admissible route. *)
Theorem enumeration_sound_complete g ti to source target config allow :
  graph_wf g → node_index g ti = Some source → node_index g to = Some target →
  SearchConfig_validate config = Ok () →
  ∃ r, enumerate_routes_filtered g ti to config allow ∅ None None = Some r ∧
    match r with
    | Ok e =>
        (∀ p, p ∈ re_paths e ↔ valid_route g ti to config allow p) ∧
        NoDup (re_paths e) ∧ StronglySorted shorter (re_paths e) ∧ re_paths e ≠ [] ∧
        re_duplicates_skipped e = 0%Z ∧ re_stopped e = false
    | Err err => err = ErrNoPath ti to ∧ ∀ p, ¬ valid_route g ti to config allow p
    end.
Proof.
  intros Hwf Hs Ht Hval. eexists. split; [by apply enumerate_uncancelled|].
  destruct (bfs_spec g ti to source target config allow Hwf Hs Ht) as (Hnd & Hsort & Hin).
  case_decide as Hb.
  - split; [done|]. intros p Hp. apply Hin in Hp. rewrite Hb in Hp. set_solver.
  - rewrite collect_unlimited by (try done; unfold usize_max; lia). simpl.
    assert (fresh ∅ (bfs_routes g ti to source target config allow) =
            bfs_routes g ti to source target config allow) as ->.
    { apply filter_all. set_solver. }
    split_and!; try done.
    rewrite filter_none by set_solver. done.
Qed.

(** A limit and an exclusion set select from the full enumeration: the
    paths returned are the first [limit] members, in order, of the full
    enumeration without the excluded paths; the error case is the same, so
    excluding every route still reports success; and without a limit the
    duplicate counter is the (saturating) number of excluded routes. *)
Theorem enumeration_limit_and_exclusion g ti to source target config allow excluded limit :
  graph_wf g → node_index g ti = Some source → node_index g to = Some target →
  SearchConfig_validate config = Ok () → limit ≠ Some 0 →
  ∃ full r, enumerate_routes_filtered g ti to config allow ∅ None None = Some full ∧
    enumerate_routes_filtered g ti to config allow excluded limit None = Some r ∧
    match full, r with
    | Ok e0, Ok e =>
        let fresh := filter (λ p, p ∉ excluded) (re_paths e0) in
        re_paths e = match limit with Some n => take n fresh | None => fresh end ∧
        re_stopped e = false ∧
        (limit = None → re_duplicates_skipped e =
          Z.min (Z.of_nat (length (filter (λ p, p ∈ excluded) (re_paths e0)))) usize_max)
    | Err err0, Err err => err = err0
    | _, _ => False
    end.
Proof.
  intros Hwf Hs Ht Hval Hlim.
  do 2 eexists. split; [by apply enumerate_uncancelled|].
  split; [by apply enumerate_uncancelled|]. case_decide as Hb; [done|].
  rewrite (collect_unlimited ∅ None) by (try done; unfold usize_max; lia). simpl.
  assert (fresh ∅ (bfs_routes g ti to source target config allow) =
          bfs_routes g ti to source target config allow) as ->.
  { apply filter_all. set_solver. }
  destruct limit as [[|n]|]; [done| |].
  - pose proof (collect_limited excluded (Some (S n)) (S n)
      (bfs_routes g ti to source target config allow) [] 0 false eq_refl
      ltac:(simpl; lia)) as [Hc _].
    destruct (collect _ _ _ _ _ _) as [[[paths dups] ?] ?]. simpl in *. by subst.
  - rewrite collect_unlimited by (try done; unfold usize_max; lia). done.
Qed.

(** The errors of the enumeration are exactly these, in the order the code
    checks them: an invalid configuration, an unknown input token, an unknown
    output token, and, unless the limit is zero, [NoPath] when there is no
    admissible route at all (excluded routes count as found). *)
Theorem enumeration_error_cases g ti to config allow excluded limit err :
  graph_wf g →
  enumerate_routes_filtered g ti to config allow excluded limit None = Some (Err err) ↔
  match SearchConfig_validate config, node_index g ti, node_index g to with
  | Err e, _, _ => err = ErrInvalidConfig (invalid_reason e)
  | Ok _, None, _ => err = ErrTokenNotFound ti
  | Ok _, Some _, None => err = ErrTokenNotFound to
  | Ok _, Some _, Some _ =>
      limit ≠ Some 0 ∧ err = ErrNoPath ti to ∧ ∀ p, ¬ valid_route g ti to config allow p
  end.
Proof.
  intros Hwf. destruct (SearchConfig_validate config) as [[]|e] eqn:Hval.
  2: { unfold enumerate_routes_filtered. rewrite Hval. simpl. split; congruence. }
  destruct (node_index g ti) as [source|] eqn:Hs.
  2: { unfold enumerate_routes_filtered. rewrite Hval, Hs. simpl. split; congruence. }
  destruct (node_index g to) as [target|] eqn:Ht.
  2: { unfold enumerate_routes_filtered. rewrite Hval, Hs, Ht. simpl. split; congruence. }
  destruct (decide (limit = Some 0)) as [->|Hlim].
  { unfold enumerate_routes_filtered. rewrite Hval, Hs, Ht. simpl. naive_solver. }
  rewrite (enumerate_uncancelled g ti to source target) by done.
  destruct (bfs_spec g ti to source target config allow Hwf Hs Ht) as (_ & _ & Hin).
  case_decide as Hb.
  - split; [|by intros (_ & -> & _)]. intros [= <-]. split_and!; [done..|].
    intros p Hp%Hin. rewrite Hb in Hp. set_solver.
  - destruct (collect _ _ _ _ _ _) as [[[? ?] ?] ?]. split; [done|].
    intros (_ & _ & Hno). destruct (bfs_routes _ _ _ _ _ _ _) as [|p ps]; [done|].
    destruct (Hno p). apply Hin. set_solver.
Qed.

(** Cancellation is safe: whatever the callback answers and whenever it
    stops the search, the search terminates within its fuel and returns a
    prefix of the paths of the uncancelled search; if it was not stopped it
    returns exactly that result, and a stopped search never reports [NoPath]. *)
Theorem enumeration_cancellation g ti to source target config allow excluded limit sc :
  node_index g ti = Some source → node_index g to = Some target →
  SearchConfig_validate config = Ok () →
  ∃ r r0, enumerate_routes_filtered g ti to config allow excluded limit sc = Some r ∧
    enumerate_routes_filtered g ti to config allow excluded limit None = Some r0 ∧
    match r with
    | Ok e =>
        if re_stopped e
        then re_paths e `prefix_of` match r0 with Ok e0 => re_paths e0 | Err _ => [] end
        else r0 = r
    | Err _ => r0 = r
    end.
Proof.
  intros Hs Ht Hval. unfold enumerate_routes_filtered. rewrite Hval, Hs, Ht. simpl.
  case_decide; [by do 2 eexists|].
  destruct (search_loop_collect g ti to source target config allow excluded limit
    (enumerate_fuel g config) (initial_enum ti source)) as (s0 & Hs0 & Hv0 & Hst0).
  { unfold queue_weight, state_weight, enumerate_fuel. simpl. rewrite Nat.sub_0_r. lia. }
  destruct (loop_run_cancel g ti to source target config allow excluded limit sc
    (enumerate_fuel g config) (initial_enum ti source) (initial_enum ti source) s0)
    as (s & Hsc & Hp); [by constructor|done|].
  rewrite Hs0, Hsc. simpl. do 2 eexists. split; [done|]. split; [done|].
  unfold finish_enumeration.
  destruct Hp as [[_ Hv [H1 H2]]|[H1 H2 H3]].
  - destruct s as [q ps d f b n], s0 as [q' ps' d' f' b' n']. unfold view in Hv.
    simpl in *. simplify_eq. by destruct f'.
  - rewrite H1, Hst0. rewrite andb_false_r. simpl.
    destruct (en_found_path s0) eqn:Hf; simpl; [done|].
    pose proof (f_equal snd Hv0) as Hf0. simpl in Hf0.
    rewrite Hf, collect_found in Hf0. simpl in Hf0.
    symmetry in Hf0. apply negb_false_iff, bool_decide_eq_true in Hf0.
    simpl in Hv0. rewrite Hf0 in Hv0. simpl in Hv0. apply (f_equal (fst ∘ fst)) in Hv0. simpl in Hv0.
    by rewrite Hv0 in H2.
Qed.
End claims.
