(* ===== verification/QuoteCache.v ===== *)
(** * The shared quote cache ([SharedQuoteCache], [src/search.rs])

    The cache maps an exact hop quote key to a state: in flight (some worker is
    simulating it) or ready.  A second map indexes the keys by pool for
    invalidation.  Each definition below is one critical section of the code
    (both mutexes are held together wherever both maps change); [get_or_quote]
    composes them for one thread, and [cache_step] interleaves them for any
    number of threads, panicking workers and invalidations included. *)

From S2P Require Import Prelude AmmState Config SearchTypes.

(** [fetch_add(1)] on an [AtomicUsize] wraps. *)
Definition fetch_add_1 (x : Z) : Z := ((x + 1) mod (usize_max + 1))%Z.

Section keys.
Context `{!AmmTypes}.

Record SimConfigKey := {
  key_v3_quoter : Address;
  key_v2_router : Address;
  key_from : Address;
}.

Definition SimConfigKey_from (c : SimConfig) : SimConfigKey :=
  {| key_v3_quoter := sim_v3_quoter c; key_v2_router := sim_v2_router c;
     key_from := sim_from c |}.

Inductive QuotePoolScope : Type :=
  | ScopeStatic (pool : PoolKey)
  | ScopeVersioned (state : PoolStateRef).

Record HopQuoteKey := {
  key_pool : QuotePoolScope;
  key_token_in : Address;
  key_token_out : Address;
  key_amount_in : U256;
  key_sim_config : SimConfigKey;
}.

#[export] Instance SimConfigKey_eq_dec : EqDecision SimConfigKey.
Proof. solve_decision. Defined.
#[export] Instance QuotePoolScope_eq_dec : EqDecision QuotePoolScope.
Proof. solve_decision. Defined.
#[export] Instance HopQuoteKey_eq_dec : EqDecision HopQuoteKey.
Proof. solve_decision. Defined.

#[export] Instance SimConfigKey_countable : Countable SimConfigKey :=
  inj_countable' (λ '(Build_SimConfigKey a b c), (a, b, c))
    (λ '(a, b, c), Build_SimConfigKey a b c) (λ '(Build_SimConfigKey _ _ _), eq_refl).
#[export] Instance QuotePoolScope_countable : Countable QuotePoolScope :=
  inj_countable' (λ s, match s with ScopeStatic p => inl p | ScopeVersioned r => inr r end)
    (λ s, match s with inl p => ScopeStatic p | inr r => ScopeVersioned r end)
    (λ s, match s with ScopeStatic _ | ScopeVersioned _ => eq_refl end).
#[export] Instance HopQuoteKey_countable : Countable HopQuoteKey :=
  inj_countable' (λ '(Build_HopQuoteKey p i o a s), (p, i, o, a, s))
    (λ '(p, i, o, a, s), Build_HopQuoteKey p i o a s)
    (λ '(Build_HopQuoteKey _ _ _ _ _), eq_refl).

Definition logical_pool (k : HopQuoteKey) : PoolKey :=
  match key_pool k with
  | ScopeStatic pool => pool
  | ScopeVersioned state => instance_key (state_ref_pool state)
  end.

(** [QuoteKeyContext]; the registry snapshot and the revision map of a live
    context are the two lookups the code performs on them. *)
Inductive QuoteKeyContext : Type :=
  | ContextStatic
  | ContextLive (point : AmmStatePoint)
      (pool_instance : PoolKey → option PoolInstanceId)
      (revisions : PoolInstanceId → option PoolRevision).

Definition context_point (c : QuoteKeyContext) : option AmmStatePoint :=
  match c with
  | ContextStatic => None
  | ContextLive point _ _ => Some point
  end.

Definition pool_scope (c : QuoteKeyContext) (pool : PoolKey) : result string QuotePoolScope :=
  match c with
  | ContextStatic => Ok (ScopeStatic pool)
  | ContextLive point pool_instance revisions =>
      ok_or (instance ← pool_instance pool;
             revision ← revisions instance;
             Some (ScopeVersioned (PoolStateRef_new instance revision point)))
        ("live quote context is missing pool state ref: " +:+ pool_debug pool)
  end.

(** [SharedQuoteCache::key]. *)
Definition quote_key (c : QuoteKeyContext) (h : Hop) (amount_in : U256) (cfg : SimConfig) :
    result string HopQuoteKey :=
  match pool_scope c (hop_pool h) with
  | Err reason => Err reason
  | Ok scope =>
      Ok {| key_pool := scope; key_token_in := hop_token_in h;
            key_token_out := hop_token_out h; key_amount_in := amount_in;
            key_sim_config := SimConfigKey_from cfg |}
  end.

(** ** The cache *)

Inductive QuoteCacheEntry : Type :=
  | Success (amount_out : U256)
  | Failure (reason : string).

Inductive QuoteCacheState : Type :=
  | InFlight
  | Ready (entry : QuoteCacheEntry).

Definition entry_of (r : result string U256) : QuoteCacheEntry :=
  match r with Ok amount_out => Success amount_out | Err reason => Failure reason end.

Definition into_result (e : QuoteCacheEntry) : result string U256 :=
  match e with Success amount_out => Ok amount_out | Failure reason => Err reason end.

Record SharedQuoteCache := {
  entries : gmap HopQuoteKey QuoteCacheState;
  keys_by_pool : gmap PoolKey (gset HopQuoteKey);
  qc_stats : QuoteCacheStats;
  qc_liquidity_pruning : LiquidityPruneStats;
  qc_context : QuoteKeyContext;
}.

Definition with_context (ctx : QuoteKeyContext) : SharedQuoteCache :=
  {| entries := ∅; keys_by_pool := ∅; qc_stats := QuoteCacheStats_default;
     qc_liquidity_pruning := LiquidityPruneStats_default; qc_context := ctx |}.

Definition set_context (ctx : QuoteKeyContext) (c : SharedQuoteCache) : SharedQuoteCache :=
  {| entries := entries c; keys_by_pool := keys_by_pool c; qc_stats := qc_stats c;
     qc_liquidity_pruning := qc_liquidity_pruning c; qc_context := ctx |}.

Definition set_stats (f : QuoteCacheStats → QuoteCacheStats) (c : SharedQuoteCache) :
    SharedQuoteCache :=
  {| entries := entries c; keys_by_pool := keys_by_pool c; qc_stats := f (qc_stats c);
     qc_liquidity_pruning := qc_liquidity_pruning c; qc_context := qc_context c |}.

Definition set_maps (es : gmap HopQuoteKey QuoteCacheState)
    (idx : gmap PoolKey (gset HopQuoteKey)) (c : SharedQuoteCache) : SharedQuoteCache :=
  {| entries := es; keys_by_pool := idx; qc_stats := qc_stats c;
     qc_liquidity_pruning := qc_liquidity_pruning c; qc_context := qc_context c |}.

Definition count_hit (s : QuoteCacheStats) : QuoteCacheStats :=
  {| hits := fetch_add_1 (hits s); misses := misses s; waits := waits s;
     executed := executed s; failed := failed s |}.
Definition count_wait (s : QuoteCacheStats) : QuoteCacheStats :=
  {| hits := hits s; misses := misses s; waits := fetch_add_1 (waits s);
     executed := executed s; failed := failed s |}.
Definition count_miss (s : QuoteCacheStats) : QuoteCacheStats :=
  {| hits := hits s; misses := fetch_add_1 (misses s); waits := waits s;
     executed := executed s; failed := failed s |}.
Definition count_executed (e : QuoteCacheEntry) (s : QuoteCacheStats) : QuoteCacheStats :=
  {| hits := hits s; misses := misses s; waits := waits s;
     executed := fetch_add_1 (executed s);
     failed := match e with Failure _ => fetch_add_1 (failed s) | Success _ => failed s end |}.

(** [record_liquidity_prune_stats]. *)
Definition record_liquidity_prune_stats (s : LiquidityPruneStats) (c : SharedQuoteCache) :
    SharedQuoteCache :=
  if decide (s = LiquidityPruneStats_default) then c
  else {| entries := entries c; keys_by_pool := keys_by_pool c; qc_stats := qc_stats c;
          qc_liquidity_pruning := LiquidityPruneStats_merge (qc_liquidity_pruning c) s;
          qc_context := qc_context c |}.

(** ** The critical sections *)

Inductive Lookup : Type :=
  | LookupHit (entry : QuoteCacheEntry)
  | LookupWait
  | LookupMiss.

(** One turn of the loop of [get_or_quote] under the lock. *)
Definition cache_lookup (k : HopQuoteKey) (c : SharedQuoteCache) : Lookup * SharedQuoteCache :=
  match entries c !! k with
  | Some (Ready entry) => (LookupHit entry, set_stats count_hit c)
  | Some InFlight => (LookupWait, set_stats count_wait c)
  | None =>
      let c := set_stats count_miss c in
      (LookupMiss,
       set_maps (<[k := InFlight]> (entries c))
         (entry_or_default ∅ (λ keys, {[k]} ∪ keys) (logical_pool k) (keys_by_pool c)) c)
  end.

(** After the simulation: the counters, then the critical section that
    publishes the entry if the key is still in flight. *)
Definition cache_executed (e : QuoteCacheEntry) (c : SharedQuoteCache) : SharedQuoteCache :=
  set_stats (count_executed e) c.

Definition cache_publish (k : HopQuoteKey) (e : QuoteCacheEntry) (c : SharedQuoteCache) :
    SharedQuoteCache :=
  match entries c !! k with
  | Some InFlight => set_maps (<[k := Ready e]> (entries c)) (keys_by_pool c) c
  | _ => c
  end.

(** [remove_quote_key_from_pool_index]. *)
Definition remove_quote_key_from_pool_index (k : HopQuoteKey)
    (idx : gmap PoolKey (gset HopQuoteKey)) : gmap PoolKey (gset HopQuoteKey) :=
  match idx !! logical_pool k with
  | Some keys =>
      let keys := keys ∖ {[k]} in
      if decide (keys = ∅) then delete (logical_pool k) idx
      else <[logical_pool k := keys]> idx
  | None => idx
  end.

(** The guard's [drop] when the simulation unwound. *)
Definition cache_abandon (k : HopQuoteKey) (c : SharedQuoteCache) : SharedQuoteCache :=
  set_maps (delete k (entries c)) (remove_quote_key_from_pool_index k (keys_by_pool c)) c.

(** [invalidate_pools]: one pool, then the loop over the set. *)
Definition invalidate_pool (c : SharedQuoteCache) (pool : PoolKey) : SharedQuoteCache :=
  match keys_by_pool c !! pool with
  | Some keys =>
      set_maps (foldl (λ es k, delete k es) (entries c) (elements keys))
        (delete pool (keys_by_pool c)) c
  | None => c
  end.

Definition invalidate_pools (pools : gset PoolKey) (c : SharedQuoteCache) : SharedQuoteCache :=
  foldl invalidate_pool c (elements pools).

(** ** One thread: [get_or_quote] around a simulation that may write a state.
    [None] is a key in flight: alone, the thread would wait for ever. *)
Definition get_or_quote {S} (k : HopQuoteKey) (quote : S → result string U256 * S)
    (c : SharedQuoteCache) (s : S) : option (result string U256 * SharedQuoteCache * S) :=
  match cache_lookup k c with
  | (LookupHit entry, c) => Some (into_result entry, c, s)
  | (LookupWait, _) => None
  | (LookupMiss, c) =>
      let '(r, s) := quote s in
      let entry := entry_of r in
      Some (into_result entry, cache_publish k entry (cache_executed entry c), s)
  end.

(** ** Many threads *)

Inductive Thread : Type :=
  | Looking (k : HopQuoteKey)
  | Waiting (k : HopQuoteKey)
  | Executing (k : HopQuoteKey)
  | Publishing (k : HopQuoteKey) (e : QuoteCacheEntry)
  | Returned (k : HopQuoteKey) (r : result string U256)
  | Panicked (k : HopQuoteKey).

(** [notify_all] on the condition variable. *)
Definition wake (t : Thread) : Thread :=
  match t with Waiting k => Looking k | t => t end.

Record CacheSystem := {
  sys_cache : SharedQuoteCache;
  sys_threads : gmap nat Thread;
}.

Inductive CacheEvent : Type :=
  | EvSpawn | EvLookup | EvWakeup | EvExecute | EvPublish | EvPanic | EvInvalidate.

#[export] Instance CacheEvent_eq_dec : EqDecision CacheEvent.
Proof. solve_decision. Defined.

(** [quote]: what simulating a key returns, the same at every time: the state
    the adapters answer from does not change while threads simulate, as the
    callers of [invalidate_pools] see to.  Spurious wake-ups of the condition
    variable are steps of their own. *)
Inductive cache_step (quote : HopQuoteKey → result string U256) :
    CacheEvent → CacheSystem → CacheSystem → Prop :=
  | step_spawn c ts i k :
      ts !! i = None →
      cache_step quote EvSpawn {| sys_cache := c; sys_threads := ts |}
        {| sys_cache := c; sys_threads := <[i := Looking k]> ts |}
  | step_lookup c c' ts i k out :
      ts !! i = Some (Looking k) → cache_lookup k c = (out, c') →
      cache_step quote EvLookup {| sys_cache := c; sys_threads := ts |}
        {| sys_cache := c';
           sys_threads := <[i := match out with
                                 | LookupHit e => Returned k (into_result e)
                                 | LookupWait => Waiting k
                                 | LookupMiss => Executing k
                                 end]> ts |}
  | step_spurious_wakeup c ts i k :
      ts !! i = Some (Waiting k) →
      cache_step quote EvWakeup {| sys_cache := c; sys_threads := ts |}
        {| sys_cache := c; sys_threads := <[i := Looking k]> ts |}
  | step_execute c ts i k :
      ts !! i = Some (Executing k) →
      cache_step quote EvExecute {| sys_cache := c; sys_threads := ts |}
        {| sys_cache := cache_executed (entry_of (quote k)) c;
           sys_threads := <[i := Publishing k (entry_of (quote k))]> ts |}
  | step_publish c ts i k e :
      ts !! i = Some (Publishing k e) →
      cache_step quote EvPublish {| sys_cache := c; sys_threads := ts |}
        {| sys_cache := cache_publish k e c;
           sys_threads := wake <$> <[i := Returned k (into_result e)]> ts |}
  | step_panic c ts i k :
      ts !! i = Some (Executing k) →
      cache_step quote EvPanic {| sys_cache := c; sys_threads := ts |}
        {| sys_cache := cache_abandon k c;
           sys_threads := wake <$> <[i := Panicked k]> ts |}
  | step_invalidate c ts pools :
      cache_step quote EvInvalidate {| sys_cache := c; sys_threads := ts |}
        {| sys_cache := invalidate_pools pools c; sys_threads := wake <$> ts |}.

Definition initial_system (ctx : QuoteKeyContext) : CacheSystem :=
  {| sys_cache := with_context ctx; sys_threads := ∅ |}.
End keys.
