(* ===== verification/QuoteCacheProps.v ===== *)
(** * Theorems about the shared quote cache

    Consistency of the pool index, correctness of the values any interleaving
    of workers returns, freedom from deadlock, single flight, and the
    sequential behaviour of [get_or_quote] the quoting functions build on. *)

From S2P Require Import Prelude AmmState Config SearchTypes QuoteCache.

Section props.
Context `{!AmmTypes}.
Implicit Types (c : SharedQuoteCache) (k : HopQuoteKey) (e : QuoteCacheEntry).

Lemma into_entry_of (r : result string U256) : into_result (entry_of r) = r.
Proof. by destruct r. Qed.

(** ** The pool index *)

(** The index lists, per pool, exactly the keys with an entry. *)
Definition index_ok c : Prop :=
  ∀ p, keys_by_pool c !! p ≠ Some ∅ ∧
    ∀ k, k ∈ default ∅ (keys_by_pool c !! p) ↔
      is_Some (entries c !! k) ∧ logical_pool k = p.

Lemma index_ok_empty ctx : index_ok (with_context ctx).
Proof.
  intros p. simpl. rewrite lookup_empty. split; [done|]. intros k.
  rewrite lookup_empty. simpl. split; [set_solver|]. by intros [[? ?] _].
Qed.

Lemma cache_lookup_index k c : index_ok c → index_ok (cache_lookup k c).2.
Proof.
  intros Hc. unfold cache_lookup. destruct (entries c !! k) as [[|e]|] eqn:Hk; simpl; [done..|].
  intros p. destruct (Hc p) as [Hne Hin]. simpl.
  destruct (decide (logical_pool k = p)) as [<-|Hp].
  - rewrite lookup_entry_eq. split; [intros [=]; set_solver|].
    intros k'. simpl. rewrite elem_of_union, elem_of_singleton, Hin.
    destruct (decide (k' = k)) as [->|Hk'].
    + rewrite lookup_insert_eq. naive_solver.
    + rewrite lookup_insert_ne by done. naive_solver.
  - rewrite lookup_entry_ne by done. split; [done|]. intros k'. rewrite Hin.
    destruct (decide (k' = k)) as [->|Hk'].
    + rewrite lookup_insert_eq, Hk. split; [by intros [[? ?] _]|]. by intros [_ ?].
    + by rewrite lookup_insert_ne by done.
Qed.

Lemma cache_publish_index k e c : index_ok c → index_ok (cache_publish k e c).
Proof.
  intros Hc. unfold cache_publish. destruct (entries c !! k) as [[|]|] eqn:Hk; [|done..].
  intros p. destruct (Hc p) as [Hne Hin]. split; [done|]. intros k'. simpl. rewrite Hin.
  destruct (decide (k' = k)) as [->|Hk'].
  - by rewrite lookup_insert_eq, Hk, !is_Some_alt.
  - by rewrite lookup_insert_ne.
Qed.

Lemma cache_abandon_index k c : index_ok c → index_ok (cache_abandon k c).
Proof.
  intros Hc p. destruct (Hc p) as [Hne Hin]. simpl. unfold remove_quote_key_from_pool_index.
  assert (∀ k', is_Some (delete k (entries c) !! k') ↔ is_Some (entries c !! k') ∧ k' ≠ k) as Hd.
  { intros k'. destruct (decide (k' = k)) as [->|?].
    - rewrite lookup_delete_eq. split; [by intros []|naive_solver].
    - rewrite lookup_delete_ne by done. naive_solver. }
  setoid_rewrite Hd. destruct (decide (logical_pool k = p)) as [<-|Hp].
  - destruct (keys_by_pool c !! logical_pool k) as [keys|] eqn:Hkeys; simpl in *.
    + case_decide as Hempty.
      * rewrite lookup_delete_eq. split; [done|]. intros k'. simpl.
        split; [set_solver|]. intros [[Hs Hne'] Hl].
        assert (k' ∈ keys) by (by apply Hin). set_solver.
      * rewrite lookup_insert_eq. split; [congruence|]. intros k'. simpl.
        rewrite elem_of_difference, elem_of_singleton, Hin. tauto.
    + rewrite Hkeys. simpl. split; [done|]. intros k'. rewrite Hin. split.
      * intros [Hs Hl]. split; [|done]. split; [done|]. intros ->.
        specialize (Hin k). set_solver.
      * naive_solver.
  - assert (∀ idx : gmap PoolKey (gset HopQuoteKey),
      match idx !! logical_pool k with
      | Some keys =>
          if decide (keys ∖ {[k]} = ∅) then delete (logical_pool k) idx
          else <[logical_pool k := keys ∖ {[k]}]> idx
      | None => idx
      end !! p = idx !! p) as Hother.
    { intros idx. destruct (idx !! logical_pool k); [|done]. case_decide.
      - by rewrite lookup_delete_ne.
      - by rewrite lookup_insert_ne. }
    rewrite Hother. split; [done|]. intros k'. rewrite Hin. naive_solver.
Qed.

Lemma foldl_delete_lookup (ks : list HopQuoteKey) (es : gmap HopQuoteKey QuoteCacheState) k :
  foldl (λ es k, delete k es) es ks !! k = if decide (k ∈ ks) then None else es !! k.
Proof.
  revert es. induction ks as [|k' ks IH]; intros es; cbn [foldl].
  { case_decide; [set_solver|done]. }
  rewrite IH. destruct (decide (k = k')) as [->|Hk].
  - rewrite lookup_delete_eq. repeat case_decide; set_solver.
  - rewrite lookup_delete_ne by done. destruct (decide (k ∈ ks)).
    + by rewrite decide_True by set_solver.
    + by rewrite decide_False by set_solver.
Qed.

Lemma invalidate_pool_spec c p :
  index_ok c →
  index_ok (invalidate_pool c p) ∧
  (∀ k, entries (invalidate_pool c p) !! k =
    if decide (logical_pool k = p) then None else entries c !! k) ∧
  qc_stats (invalidate_pool c p) = qc_stats c ∧ qc_context (invalidate_pool c p) = qc_context c.
Proof.
  intros Hc. destruct (Hc p) as [Hne Hin].
  assert (∀ k, entries (invalidate_pool c p) !! k =
    if decide (logical_pool k = p) then None else entries c !! k) as He.
  { intros k. specialize (Hin k). unfold invalidate_pool.
    destruct (keys_by_pool c !! p) as [keys|] eqn:Hp; simpl in *.
    - rewrite foldl_delete_lookup.
      destruct (decide (k ∈ elements keys)) as [Hk|Hk]; rewrite elem_of_elements in Hk.
      + rewrite decide_True; [done|]. by apply Hin.
      + case_decide as Hl; [|done]. destruct (entries c !! k) eqn:Hek; [|done].
        destruct Hk. apply Hin. eauto.
    - case_decide as Hl; [|done]. destruct (entries c !! k) eqn:Hek; [|done].
      exfalso. assert (k ∈ (∅ : gset HopQuoteKey)) by (apply Hin; eauto). set_solver. }
  split; [|split; [done|unfold invalidate_pool; by case_match]].
  intros q. setoid_rewrite He. destruct (Hc q) as [Hne' Hin'].
  assert (keys_by_pool (invalidate_pool c p) !! q =
    if decide (q = p) then None else keys_by_pool c !! q) as ->.
  { unfold invalidate_pool. destruct (keys_by_pool c !! p) as [keys|] eqn:Hp; simpl.
    - case_decide; subst; [by rewrite lookup_delete_eq|by rewrite lookup_delete_ne].
    - case_decide; by subst. }
  case_decide as Hq.
  - split; [done|]. intros k. simpl. split; [set_solver|].
    case_decide; [by intros [[] _]|]. intros [_ ?]. congruence.
  - split; [done|]. intros k. rewrite Hin'. case_decide; [|done]. split; [naive_solver|].
    by intros [[] _].
Qed.

Lemma invalidate_pools_spec pools c :
  index_ok c →
  index_ok (invalidate_pools pools c) ∧
  (∀ k, entries (invalidate_pools pools c) !! k =
    if decide (logical_pool k ∈ pools) then None else entries c !! k) ∧
  qc_stats (invalidate_pools pools c) = qc_stats c ∧
  qc_context (invalidate_pools pools c) = qc_context c.
Proof.
  unfold invalidate_pools.
  assert (∀ ps c, index_ok c →
    index_ok (foldl invalidate_pool c ps) ∧
    (∀ k, entries (foldl invalidate_pool c ps) !! k =
      if decide (logical_pool k ∈ ps) then None else entries c !! k) ∧
    qc_stats (foldl invalidate_pool c ps) = qc_stats c ∧
    qc_context (foldl invalidate_pool c ps) = qc_context c) as Hfold.
  { clear. induction ps as [|p ps IH]; intros c Hc; cbn [foldl].
    - done.
    - destruct (invalidate_pool_spec c p Hc) as (H1 & H2 & H3 & H4).
      destruct (IH _ H1) as (H5 & H6 & H7 & H8). split_and!; [done| |congruence..].
      intros k. rewrite H6, H2. destruct (decide (logical_pool k ∈ ps)).
      + case_decide; set_solver.
      + repeat case_decide; set_solver. }
  intros Hc. destruct (Hfold (elements pools) c Hc) as (H1 & H2 & H3 & H4).
  split_and!; [done| |done..]. intros k. rewrite H2.
  destruct (decide (logical_pool k ∈ pools)).
  - rewrite decide_True by (by apply elem_of_elements). done.
  - rewrite decide_False by (by rewrite elem_of_elements). done.
Qed.

(** ** The invariant of every interleaving *)

Section system.
Context (quote : HopQuoteKey → result string U256).

(** A thread that holds the obligation to settle its key. *)
Definition runs (t : Thread) k : Prop :=
  t = Executing k ∨ ∃ e, t = Publishing k e.

Record sys_inv (s : CacheSystem) : Prop := {
  si_index : index_ok (sys_cache s);
  si_ready k e : entries (sys_cache s) !! k = Some (Ready e) → into_result e = quote k;
  si_flight k : entries (sys_cache s) !! k = Some InFlight →
    ∃ i t, sys_threads s !! i = Some t ∧ runs t k;
  si_publishing i k e : sys_threads s !! i = Some (Publishing k e) → into_result e = quote k;
  si_returned i k r : sys_threads s !! i = Some (Returned k r) → r = quote k;
  si_waiting i k : sys_threads s !! i = Some (Waiting k) →
    entries (sys_cache s) !! k = Some InFlight;
}.

Lemma runs_wake t k : runs (wake t) k ↔ runs t k.
Proof. unfold runs. destruct t; simpl; naive_solver. Qed.

Lemma lookup_wake (ts : gmap nat Thread) i t :
  (wake <$> ts) !! i = Some t ↔ ∃ t', ts !! i = Some t' ∧ t = wake t'.
Proof. rewrite lookup_fmap, fmap_Some. done. Qed.

(** Waking every thread: no thread is waiting afterwards. *)
Lemma sys_inv_wake c ts :
  index_ok c →
  (∀ k e, entries c !! k = Some (Ready e) → into_result e = quote k) →
  (∀ k, entries c !! k = Some InFlight → ∃ i t, ts !! i = Some t ∧ runs t k) →
  (∀ i k e, ts !! i = Some (Publishing k e) → into_result e = quote k) →
  (∀ i k r, ts !! i = Some (Returned k r) → r = quote k) →
  sys_inv {| sys_cache := c; sys_threads := wake <$> ts |}.
Proof.
  intros H1 H2 H3 H4 H5. constructor; simpl; try done.
  - intros k Hk. destruct (H3 k Hk) as (i & t & Ht & Hr). exists i, (wake t).
    rewrite lookup_fmap, Ht. split; [done|]. by apply runs_wake.
  - intros i k e (t & Ht & Heq)%lookup_wake. destruct t; simplify_eq/=. eauto.
  - intros i k e (t & Ht & Heq)%lookup_wake. destruct t; simplify_eq/=. eauto.
  - intros i k (t & Ht & Heq)%lookup_wake. by destruct t.
Qed.

Lemma sys_inv_init ctx : sys_inv (initial_system ctx).
Proof.
  constructor; simpl; try (intros *; by rewrite lookup_empty). apply index_ok_empty.
Qed.

(** A thread that runs a key keeps doing so when another thread moves. *)
Lemma runs_insert (ts : gmap nat Thread) i t t' k :
  ts !! i = Some t → (runs t k → runs t' k) →
  (∃ j u, ts !! j = Some u ∧ runs u k) → ∃ j u, <[i := t']> ts !! j = Some u ∧ runs u k.
Proof.
  intros Ht Hr (j & u & Hj & Hu). destruct (decide (i = j)) as [->|Hij].
  - exists j, t'. rewrite lookup_insert_eq. split; [done|]. simplify_eq. auto.
  - exists j, u. by rewrite lookup_insert_ne.
Qed.

Lemma sys_inv_step ev s s' : sys_inv s → cache_step quote ev s s' → sys_inv s'.
Proof.
  intros [Hix Hready Hfl Hpub Hret Hwait] Hstep. destruct Hstep as
    [c ts i k Hi|c c' ts i k out Hi Hl|c ts i k Hi|c ts i k Hi|c ts i k e Hi|c ts i k Hi|c ts pools];
    simpl in *.
  - constructor; simpl; try done.
    + intros k' Hk'. destruct (Hfl k' Hk') as (j & t & Hj & Ht). exists j, t.
      rewrite lookup_insert_ne by congruence. done.
    + intros j k' e'. rewrite lookup_insert_Some. naive_solver.
    + intros j k' r'. rewrite lookup_insert_Some. naive_solver.
    + intros j k'. rewrite lookup_insert_Some. naive_solver.
  - pose proof (cache_lookup_index k c Hix) as Hix'. rewrite Hl in Hix'. simpl in Hix'.
    unfold cache_lookup in Hl. destruct (entries c !! k) as [[|e]|] eqn:Hk; simplify_eq.
    + constructor; simpl; try done.
      * intros k' Hk'. eapply runs_insert; [done| |by apply Hfl]. intros [?|[??]]; done.
      * intros j k' e'. rewrite lookup_insert_Some. naive_solver.
      * intros j k' r'. rewrite lookup_insert_Some. naive_solver.
      * intros j k'. rewrite lookup_insert_Some. naive_solver.
    + constructor; simpl; try done.
      * intros k' Hk'. eapply runs_insert; [done| |by apply Hfl]. intros [?|[??]]; done.
      * intros j k' e'. rewrite lookup_insert_Some. naive_solver.
      * intros j k' r'. rewrite lookup_insert_Some. naive_solver.
      * intros j k'. rewrite lookup_insert_Some. naive_solver.
    + constructor; simpl; try done.
      * intros k' e'. rewrite lookup_insert_Some. naive_solver.
      * intros k'. rewrite lookup_insert_Some. intros [[<- _]|[_ Hk']].
        -- exists i, (Executing k). rewrite lookup_insert_eq. split; [done|by left].
        -- eapply runs_insert; [done| |by apply Hfl]. intros [?|[??]]; done.
      * intros j k' e'. rewrite lookup_insert_Some. naive_solver.
      * intros j k' r'. rewrite lookup_insert_Some. naive_solver.
      * intros j k'. rewrite lookup_insert_Some. intros [[_ ?]|[_ Hj]]; [done|].
        apply Hwait in Hj. rewrite lookup_insert_ne by congruence. done.
  - constructor; simpl; try done.
    + intros k' Hk'. eapply runs_insert; [done| |by apply Hfl]. intros [?|[??]]; done.
    + intros j k' e'. rewrite lookup_insert_Some. naive_solver.
    + intros j k' r'. rewrite lookup_insert_Some. naive_solver.
    + intros j k'. rewrite lookup_insert_Some. naive_solver.
  - constructor; simpl; try done.
    + intros k' Hk'. eapply runs_insert; [done| |by apply Hfl].
      intros [[= ->]|[??]]; [|done]. right. eauto.
    + intros j k' e'. rewrite lookup_insert_Some. intros [[_ [= -> <-]]|[_ ?]]; [|eauto].
      apply into_entry_of.
    + intros j k' r'. rewrite lookup_insert_Some. naive_solver.
    + intros j k'. rewrite lookup_insert_Some. naive_solver.
  - pose proof (Hpub i k e Hi) as He. apply sys_inv_wake.
    + by apply cache_publish_index.
    + intros k' e'. unfold cache_publish. destruct (entries c !! k) as [[|]|] eqn:Hk; eauto.
      simpl. rewrite lookup_insert_Some. naive_solver.
    + intros k' Hk'. assert (k' ≠ k ∧ entries c !! k' = Some InFlight) as [Hne Hfk].
      { unfold cache_publish in Hk'. destruct (entries c !! k) as [[|]|] eqn:Hk; simpl in *.
        - apply lookup_insert_Some in Hk'. naive_solver.
        - split; [congruence|done].
        - split; [congruence|done]. }
      eapply runs_insert; [done| |by apply Hfl]. intros [?|[? [= -> ->]]]; done.
    + intros j k' e'. rewrite lookup_insert_Some. naive_solver.
    + intros j k' r'. rewrite lookup_insert_Some. naive_solver.
  - apply sys_inv_wake.
    + by apply cache_abandon_index.
    + intros k' e'. simpl. rewrite lookup_delete_Some. naive_solver.
    + intros k'. simpl. rewrite lookup_delete_Some. intros [Hne Hk'].
      eapply runs_insert; [done| |by apply Hfl]. intros [[= ->]|[??]]; done.
    + intros j k' e'. rewrite lookup_insert_Some. naive_solver.
    + intros j k' r'. rewrite lookup_insert_Some. naive_solver.
  - destruct (invalidate_pools_spec pools c Hix) as (H1 & H2 & _).
    apply sys_inv_wake; [done| | |done|done].
    + intros k e. rewrite H2. case_decide; naive_solver.
    + intros k. rewrite H2. case_decide; naive_solver.
Qed.

Definition any_step (s s' : CacheSystem) : Prop := ∃ ev, cache_step quote ev s s'.

Lemma sys_inv_reachable ctx s : rtc any_step (initial_system ctx) s → sys_inv s.
Proof.
  assert (∀ s0, rtc any_step s0 s → sys_inv s0 → sys_inv s) as Hall.
  { induction 1 as [|s1 s2 s3 [ev Hstep] _ IH]; [done|].
    intros Hs1. by eapply IH, sys_inv_step. }
  intros Hr. by eapply Hall, sys_inv_init.
Qed.

(** ** Single flight *)

(** Without invalidation: a key with a runner is in flight and has one. *)
Record single_inv (s : CacheSystem) : Prop := {
  sg_inv : sys_inv s;
  sg_flight i t k : sys_threads s !! i = Some t → runs t k →
    entries (sys_cache s) !! k = Some InFlight;
  sg_unique i j t u k : sys_threads s !! i = Some t → sys_threads s !! j = Some u →
    runs t k → runs u k → i = j;
}.

Definition quiet_step (s s' : CacheSystem) : Prop :=
  ∃ ev, ev ≠ EvInvalidate ∧ cache_step quote ev s s'.

Lemma runs_fun t k k' : runs t k → runs t k' → k = k'.
Proof. unfold runs. naive_solver. Qed.

Lemma single_inv_wake c ts :
  sys_inv {| sys_cache := c; sys_threads := wake <$> ts |} →
  (∀ i t k, ts !! i = Some t → runs t k → entries c !! k = Some InFlight) →
  (∀ i j t u k, ts !! i = Some t → ts !! j = Some u → runs t k → runs u k → i = j) →
  single_inv {| sys_cache := c; sys_threads := wake <$> ts |}.
Proof.
  intros H1 H2 H3. constructor; [done|..]; simpl.
  - intros i t k (t' & Ht & ->)%lookup_wake Hr. rewrite runs_wake in Hr. exact (H2 i t' k Ht Hr).
  - intros i j t u k (t' & Ht & ->)%lookup_wake (u' & Hu & ->)%lookup_wake
      Hr Hr'. rewrite runs_wake in Hr; rewrite runs_wake in Hr'. exact (H3 i j t' u' k Ht Hu Hr Hr').
Qed.

(** Thread [i] moves to [t'], which runs nothing new. *)
Lemma runs_insert_old (ts : gmap nat Thread) i j t t' u k :
  ts !! i = Some t → (∀ k, runs t' k → runs t k) →
  <[i := t']> ts !! j = Some u → runs u k → ∃ u', ts !! j = Some u' ∧ runs u' k.
Proof. rewrite lookup_insert_Some. naive_solver. Qed.

(** Thread [i] moves without taking up a key; keys in flight stay so. *)
Lemma single_inv_move c c' ts i t t' :
  single_inv {| sys_cache := c; sys_threads := ts |} →
  sys_inv {| sys_cache := c'; sys_threads := <[i := t']> ts |} →
  ts !! i = Some t → (∀ k, runs t' k → runs t k) →
  (∀ k, entries c !! k = Some InFlight → entries c' !! k = Some InFlight) →
  single_inv {| sys_cache := c'; sys_threads := <[i := t']> ts |}.
Proof.
  intros [_ Hfl Huniq] Hinv Hi Hr Hc. simpl in *. constructor; simpl; [done|..].
  - intros j u k Hj Hu. destruct (runs_insert_old ts i j t t' u k Hi Hr Hj Hu) as (u' & ? & ?).
    eauto.
  - intros j j' u u' k Hj Hj' Hu Hu'.
    destruct (runs_insert_old ts i j t t' u k Hi Hr Hj Hu) as (v & ? & ?).
    destruct (runs_insert_old ts i j' t t' u' k Hi Hr Hj' Hu') as (v' & ? & ?).
    by apply (Huniq j j' v v' k).
Qed.

Lemma single_inv_step ev s s' :
  ev ≠ EvInvalidate → single_inv s → cache_step quote ev s s' → single_inv s'.
Proof.
  intros Hev Hs Hstep. pose proof (sys_inv_step _ _ _ (sg_inv _ Hs) Hstep) as Hinv'.
  pose proof (sg_flight _ Hs) as Hfl. pose proof (sg_unique _ Hs) as Huniq.
  destruct Hstep as
    [c ts i k Hi|c c' ts i k out Hi Hl|c ts i k Hi|c ts i k Hi|c ts i k e Hi|c ts i k Hi|c ts pools];
    simpl in *; [..|done].
  - assert (∀ j u k', <[i := Looking k]> ts !! j = Some u → runs u k' → ts !! j = Some u) as Hold.
    { intros j u k'. rewrite lookup_insert_Some. intros [[_ <-]|[_ ?]]; [|done].
      intros [?|[??]]; done. }
    constructor; simpl; [done|by eauto|].
    intros j j' u u' k' Hj Hj' Hr Hr'. apply (Huniq j j' u u' k'); eauto.
  - unfold cache_lookup in Hl. destruct (entries c !! k) as [[|e]|] eqn:Hk; simplify_eq.
    { eapply single_inv_move; [exact Hs|done|done| |done]. intros ? [?|[??]]; done. }
    { eapply single_inv_move; [exact Hs|done|done| |done]. intros ? [?|[??]]; done. }
    assert (∀ j u k', <[i := Executing k]> ts !! j = Some u → runs u k' →
      (i = j ∧ k' = k) ∨ (i ≠ j ∧ ts !! j = Some u ∧ k' ≠ k)) as Hold.
    { intros j u k' [[<- <-]|[Hne Hj]]%lookup_insert_Some Hr.
      - left. split; [done|]. destruct Hr as [?|[??]]; naive_solver.
      - right. split_and!; [done..|]. intros ->. specialize (Hfl j u k Hj Hr). congruence. }
    constructor; simpl; [done|..].
    + intros j u k' Hj Hr. destruct (Hold j u k' Hj Hr) as [[_ ->]|(_ & Hj' & Hne)].
      * by rewrite lookup_insert_eq.
      * rewrite lookup_insert_ne by done. eauto.
    + intros j j' u u' k' Hj Hj' Hr Hr'.
      destruct (Hold j u k' Hj Hr) as [[<- ->]|(_ & ? & ?)],
        (Hold j' u' _ Hj' Hr') as [[<- ?]|(_ & ? & ?)]; naive_solver.
  - eapply single_inv_move; [exact Hs|done|done| |done]. intros ? [?|[??]]; done.
  - eapply single_inv_move; [exact Hs|done|done| |done].
    intros k' [?|[? [= -> _]]]; [done|by left].
  - assert (∀ j u k', <[i := Returned k (into_result e)]> ts !! j = Some u → runs u k' →
      ts !! j = Some u ∧ k' ≠ k) as Hold.
    { intros j u k' [[<- <-]|[Hne Hj]]%lookup_insert_Some Hr.
      - destruct Hr as [?|[??]]; done.
      - split; [done|]. intros ->. destruct Hne.
        apply (Huniq i j _ _ k Hi Hj); [right; eauto|done]. }
    apply single_inv_wake; [done|..].
    + intros j u k' Hj Hr. destruct (Hold j u k' Hj Hr) as [Hj' Hne].
      unfold cache_publish. destruct (entries c !! k) as [[|]|]; [|by eauto..].
      simpl. rewrite lookup_insert_ne by done. eauto.
    + intros j j' u u' k' Hj Hj' Hr Hr'.
      destruct (Hold j u k' Hj Hr), (Hold j' u' k' Hj' Hr'). eauto.
  - assert (∀ j u k', <[i := Panicked k]> ts !! j = Some u → runs u k' →
      ts !! j = Some u ∧ k' ≠ k) as Hold.
    { intros j u k' [[<- <-]|[Hne Hj]]%lookup_insert_Some Hr.
      - destruct Hr as [?|[??]]; done.
      - split; [done|]. intros ->. destruct Hne.
        apply (Huniq i j _ _ k Hi Hj); [by left|done]. }
    apply single_inv_wake; [done|..].
    + intros j u k' Hj Hr. destruct (Hold j u k' Hj Hr) as [Hj' Hne].
      simpl. rewrite lookup_delete_ne by done. eauto.
    + intros j j' u u' k' Hj Hj' Hr Hr'.
      destruct (Hold j u k' Hj Hr), (Hold j' u' k' Hj' Hr'). eauto.
Qed.

Lemma single_inv_reachable ctx s : rtc quiet_step (initial_system ctx) s → single_inv s.
Proof.
  assert (∀ s0, rtc quiet_step s0 s → single_inv s0 → single_inv s) as Hall.
  { induction 1 as [|s1 s2 s3 [ev [Hev Hstep]] _ IH]; [done|].
    intros Hs1. by eapply IH, single_inv_step. }
  intros Hr. eapply Hall; [exact Hr|].
  constructor; simpl; [apply sys_inv_init|intros *; by rewrite lookup_empty..].
Qed.
End system.

(** ** The claims *)

(** C27: Whatever the interleaving of workers, waiters, panicking workers and
    invalidations, the quote cache returns to every caller the value of
    simulating its own key, every ready entry holds that value, and the pool
    index lists exactly the keys that have an entry. *)
Theorem cache_interleavings_correct quote ctx s :
  rtc (any_step quote) (initial_system ctx) s →
  index_ok (sys_cache s) ∧
  (∀ k e, entries (sys_cache s) !! k = Some (Ready e) → into_result e = quote k) ∧
  (∀ i k r, sys_threads s !! i = Some (Returned k r) → r = quote k).
Proof. intros [H1 H2 _ _ H5 _]%sys_inv_reachable. eauto. Qed.

(** No deadlock: in every reachable state (panics and invalidations
    included) in which some worker has not finished, some worker can take a
    lookup, execute or publish step; in particular a waiter always has a
    running worker to wake it. *)
Theorem cache_no_deadlock quote ctx s i t :
  rtc (any_step quote) (initial_system ctx) s →
  sys_threads s !! i = Some t → (∀ k r, t ≠ Returned k r) → (∀ k, t ≠ Panicked k) →
  ∃ ev s', ev ∈ [EvLookup; EvExecute; EvPublish] ∧ cache_step quote ev s s'.
Proof.
  intros Hr%sys_inv_reachable Hi Hnr Hnp.
  assert (∀ j u k, sys_threads s !! j = Some u → runs u k →
    ∃ ev s', ev ∈ [EvLookup; EvExecute; EvPublish] ∧ cache_step quote ev s s') as Hrun.
  { destruct s as [c ts]. intros j u k Hj [->|[e ->]].
    - exists EvExecute. eexists. split; [set_solver|by apply step_execute].
    - exists EvPublish. eexists. split; [set_solver|by apply step_publish]. }
  destruct t as [k|k|k|k e|k r|k]; [| | | |naive_solver..].
  - destruct s as [c ts]. destruct (cache_lookup k c) as [out c'] eqn:Hl.
    exists EvLookup. eexists. split; [set_solver|by eapply step_lookup].
  - apply (si_waiting _ _ Hr), (si_flight _ _ Hr) in Hi as (j & u & Hj & Hu). eauto.
  - eapply Hrun; [done|by left].
  - eapply Hrun; [done|right; eauto].
Qed.

(** Single flight: as long as nothing is invalidated, at most one worker is
    simulating (or about to publish) a given key, and the key is in flight
    exactly while such a worker exists, so every other caller waits or reuses
    the published result. *)
Theorem cache_single_flight quote ctx s :
  rtc (quiet_step quote) (initial_system ctx) s →
  (∀ i j t u k, sys_threads s !! i = Some t → sys_threads s !! j = Some u →
    runs t k → runs u k → i = j) ∧
  (∀ k, entries (sys_cache s) !! k = Some InFlight ↔
    ∃ i t, sys_threads s !! i = Some t ∧ runs t k).
Proof.
  intros [Hinv Hfl Hu]%single_inv_reachable. split; [done|]. intros k. split.
  - apply (si_flight _ _ Hinv).
  - intros (i & t & Ht & Hr). eauto.
Qed.

(** [invalidate_pools] on a consistent cache removes exactly the entries
    whose key belongs to one of the pools, keeps every other entry and the
    counters, and leaves the pool index consistent. *)
Theorem invalidate_pools_correct pools c :
  index_ok c →
  index_ok (invalidate_pools pools c) ∧
  (∀ k, entries (invalidate_pools pools c) !! k =
    if decide (logical_pool k ∈ pools) then None else entries c !! k) ∧
  qc_stats (invalidate_pools pools c) = qc_stats c ∧
  qc_context (invalidate_pools pools c) = qc_context c.
Proof. apply invalidate_pools_spec. Qed.
End props.
