(* ===== verification/Quote.v ===== *)
(** * Quoting paths ([src/search.rs])

    [quote_path_with_registry] quotes one path hop by hop.  The candidate paths
    of a search are quoted together: [QuoteDag] is the prefix tree of the paths
    and [evaluate] walks it, simulating each shared prefix once and every hop
    through the quote cache.  The adapter cache, the quote cache and the state
    captured by the two callbacks are threaded; [None] is a key in flight (the
    evaluating thread would wait). *)

From S2P Require Import Prelude AmmState Config SearchTypes QuoteCache.

Section quote.
Context `{!AmmTypes}.

(** ** One path *)

(** The hop loop of [quote_path_with_registry]. *)
Fixpoint quote_hops (registry : AdapterRegistry) (hops : list Hop) (amount : U256)
    (quoted : list HopQuote) (cache : AdapterCache) (sim_config : SimConfig) :
    result SearchError (U256 * list HopQuote) * AdapterCache :=
  match hops with
  | [] => (Ok (amount, quoted), cache)
  | hop :: hops =>
      match registry_pool registry (hop_pool hop) with
      | None => (Err (ErrMissingPool (hop_pool hop)), cache)
      | Some pool =>
          match registry_adapter registry (pool_protocol (hop_pool hop)) with
          | None => (Err (ErrMissingAdapter (pool_protocol (hop_pool hop))), cache)
          | Some simulate_swap =>
              match simulate_swap pool cache (hop_token_in hop) (hop_token_out hop)
                      amount sim_config with
              | (Err source, cache) => (Err (ErrQuoteFailed hop source), cache)
              | (Ok amount_out, cache) =>
                  quote_hops registry hops amount_out
                    (quoted ++ [{| hq_hop := hop; hq_amount_in := amount;
                                   hq_amount_out := amount_out |}])
                    cache sim_config
              end
          end
      end
  end.

Definition quote_path_with_registry (registry : AdapterRegistry) (path : RoutePath)
    (amount_in : U256) (cache : AdapterCache) (sim_config : SimConfig) :
    result SearchError RouteQuote * AdapterCache :=
  match path with
  | [] => (Err ErrEmptyPath, cache)
  | _ =>
      match quote_hops registry path amount_in [] cache sim_config with
      | (Err e, cache) => (Err e, cache)
      | (Ok (amount, hops), cache) =>
          (Ok {| rq_path := path; rq_amount_in := amount_in;
                 rq_amount_out := amount; rq_hops := hops |}, cache)
      end
  end.

(** [quote_hop_uncached]. *)
Definition quote_hop_uncached (registry : AdapterRegistry) (hop : Hop) (amount_in : U256)
    (sim_config : SimConfig) (cache : AdapterCache) : result string U256 * AdapterCache :=
  match registry_pool registry (hop_pool hop) with
  | None => (Err (search_error_display (ErrMissingPool (hop_pool hop))), cache)
  | Some pool =>
      match registry_adapter registry (pool_protocol (hop_pool hop)) with
      | None =>
          (Err (search_error_display (ErrMissingAdapter (pool_protocol (hop_pool hop)))), cache)
      | Some simulate_swap =>
          match simulate_swap pool cache (hop_token_in hop) (hop_token_out hop)
                  amount_in sim_config with
          | (Err source, cache) =>
              (Err (search_error_display (ErrQuoteFailed hop source)), cache)
          | (Ok amount_out, cache) => (Ok amount_out, cache)
          end
      end
  end.

(** [quote_hop_with_cache] (and the evaluator's own [quote_hop]). *)
Definition quote_hop_with_cache (registry : AdapterRegistry) (hop : Hop) (amount_in : U256)
    (sim_config : SimConfig) (quote_cache : SharedQuoteCache) (cache : AdapterCache) :
    option (result string U256 * SharedQuoteCache * AdapterCache) :=
  match quote_key (qc_context quote_cache) hop amount_in sim_config with
  | Err reason => Some (Err reason, quote_cache, cache)
  | Ok key =>
      get_or_quote key (quote_hop_uncached registry hop amount_in sim_config) quote_cache cache
  end.

(** ** The prefix tree *)

Inductive QuoteDagNode : Type :=
  | DagNode (children : list (Hop * QuoteDagNode)) (terminals : list RoutePath).

Definition QuoteDag_default : QuoteDagNode := DagNode [] [].

(** [child_for_hop]: the first child with the hop, or a new one at the end. *)
Fixpoint update_child (hop : Hop) (f : QuoteDagNode → QuoteDagNode)
    (children : list (Hop * QuoteDagNode)) : list (Hop * QuoteDagNode) :=
  match children with
  | [] => [(hop, f QuoteDag_default)]
  | (hop', node) :: children =>
      if decide (hop' = hop) then (hop', f node) :: children
      else (hop', node) :: update_child hop f children
  end.

(** [QuoteDag::insert]: descend along the remaining hops, then record the path. *)
Fixpoint dag_insert_at (hops : list Hop) (path : RoutePath) (node : QuoteDagNode) :
    QuoteDagNode :=
  match node with
  | DagNode children terminals =>
      match hops with
      | [] => DagNode children (terminals ++ [path])
      | hop :: hops => DagNode (update_child hop (dag_insert_at hops path) children) terminals
      end
  end.

Definition dag_insert (path : RoutePath) (root : QuoteDagNode) : QuoteDagNode :=
  dag_insert_at path path root.

Fixpoint collect_failures (reason : string) (node : QuoteDagNode) : list PathFailure :=
  match node with
  | DagNode children terminals =>
      ((λ path, {| pf_path := path; pf_reason := reason |}) <$> terminals) ++
      (fix go (children : list (Hop * QuoteDagNode)) : list PathFailure :=
         match children with
         | [] => []
         | (_, node) :: children => collect_failures reason node ++ go children
         end) children
  end.

(** ** The evaluator *)

Section evaluator.
Context {S : Type} (registry : AdapterRegistry) (sim_config : SimConfig) (amount_in : U256)
  (on_quote : option (RouteQuote → S → bool * S))
  (on_failure : option (PathFailure → S → bool * S)).

Record Evaluator := {
  ev_cache : AdapterCache;
  ev_quote_cache : SharedQuoteCache;
  ev_quotes : list RouteQuote;
  ev_failures : list PathFailure;
  ev_captured : S;
  ev_stopped : bool;
}.

(** [callback.is_none_or(|f| f(&x))]. *)
Definition observe {A} (f : option (A → S → bool * S)) (a : A) (s : S) : bool * S :=
  match f with None => (true, s) | Some f => f a s end.

(** Push a quote after showing it to the observer. *)
Definition push_quote (q : RouteQuote) (e : Evaluator) : Evaluator :=
  let '(keep_searching, s) := observe on_quote q (ev_captured e) in
  {| ev_cache := ev_cache e; ev_quote_cache := ev_quote_cache e;
     ev_quotes := ev_quotes e ++ [q]; ev_failures := ev_failures e;
     ev_captured := s; ev_stopped := negb keep_searching || ev_stopped e |}.

(** [push_failure]. *)
Definition push_failure (f : PathFailure) (e : Evaluator) : Evaluator :=
  let '(keep_searching, s) := observe on_failure f (ev_captured e) in
  {| ev_cache := ev_cache e; ev_quote_cache := ev_quote_cache e;
     ev_quotes := ev_quotes e; ev_failures := ev_failures e ++ [f];
     ev_captured := s; ev_stopped := negb keep_searching || ev_stopped e |}.

Definition set_caches (qc : SharedQuoteCache) (c : AdapterCache) (e : Evaluator) : Evaluator :=
  {| ev_cache := c; ev_quote_cache := qc; ev_quotes := ev_quotes e;
     ev_failures := ev_failures e; ev_captured := ev_captured e;
     ev_stopped := ev_stopped e |}.

(** The loop over the terminals of a node. *)
Fixpoint evaluate_terminals (paths : list RoutePath) (amount : U256)
    (hop_quotes : list HopQuote) (e : Evaluator) : Evaluator :=
  match paths with
  | [] => e
  | path :: paths =>
      if ev_stopped e then e
      else
        evaluate_terminals paths amount hop_quotes
          (push_quote {| rq_path := path; rq_amount_in := amount_in;
                         rq_amount_out := amount; rq_hops := hop_quotes |} e)
  end.

(** The failures of a subtree, until the observer stops the evaluation. *)
Fixpoint push_failures (fs : list PathFailure) (e : Evaluator) : Evaluator :=
  match fs with
  | [] => e
  | f :: fs =>
      let e := push_failure f e in
      if ev_stopped e then e else push_failures fs e
  end.

(** [evaluate]; the hop quotes of the prefix are passed down, which is what
    the push before and the pop after the recursive call amount to. *)
Fixpoint evaluate (node : QuoteDagNode) (amount : U256) (hop_quotes : list HopQuote)
    (e : Evaluator) : option Evaluator :=
  match node with
  | DagNode children terminals =>
      (fix go (children : list (Hop * QuoteDagNode)) (e : Evaluator) : option Evaluator :=
         match children with
         | [] => Some e
         | (hop, node) :: children =>
             if ev_stopped e then Some e
             else
               '(r, qc, c) ← quote_hop_with_cache registry hop amount sim_config
                               (ev_quote_cache e) (ev_cache e);
               let e := set_caches qc c e in
               match r with
               | Ok amount_out =>
                   e ← evaluate node amount_out
                         (hop_quotes ++ [{| hq_hop := hop; hq_amount_in := amount;
                                            hq_amount_out := amount_out |}]) e;
                   go children e
               | Err reason => go children (push_failures (collect_failures reason node) e)
               end
         end) children (evaluate_terminals terminals amount hop_quotes e)
  end.

(** The first loop of [quote_paths_with_registry_observed]: empty paths fail
    at once, the others enter the tree. *)
Fixpoint build_dag (paths : list RoutePath) (dag : QuoteDagNode) (e : Evaluator) :
    QuoteDagNode * Evaluator :=
  match paths with
  | [] => (dag, e)
  | path :: paths =>
      match path with
      | [] =>
          let e := push_failure {| pf_path := path;
                                   pf_reason := search_error_display ErrEmptyPath |} e in
          if ev_stopped e then (dag, e) else build_dag paths dag e
      | _ => build_dag paths (dag_insert path dag) e
      end
  end.

Definition quote_paths_with_registry_observed (paths : list RoutePath) (cache : AdapterCache)
    (quote_cache : SharedQuoteCache) (captured : S) : option Evaluator :=
  let '(dag, e) := build_dag paths QuoteDag_default
    {| ev_cache := cache; ev_quote_cache := quote_cache; ev_quotes := [];
       ev_failures := []; ev_captured := captured; ev_stopped := false |} in
  if ev_stopped e then Some e else evaluate dag amount_in [] e.
End evaluator.
Arguments Evaluator : clear implicits.

(** [quote_paths_with_registry]: no observers. *)
Definition quote_paths_with_registry (registry : AdapterRegistry) (paths : list RoutePath)
    (amount_in : U256) (sim_config : SimConfig) (cache : AdapterCache)
    (quote_cache : SharedQuoteCache) :
    option (list RouteQuote * list PathFailure * SharedQuoteCache * AdapterCache) :=
  e ← quote_paths_with_registry_observed registry sim_config amount_in None None
        paths cache quote_cache ();
  Some (ev_quotes e, ev_failures e, ev_quote_cache e, ev_cache e).

(** ** Ranking *)

(** [rank_or_no_viable]: stable sort by descending output. *)
Definition rank_or_no_viable (candidates : nat) (quotes : list RouteQuote)
    (failures : list PathFailure) : result SearchError (list RouteQuote) :=
  let quotes := stable_sort (desc_by rq_amount_out) quotes in
  match quotes with
  | [] => Err (ErrNoViableRoute candidates failures)
  | _ => Ok quotes
  end.

(** [split_paths]: deal the paths to the workers in turn. *)
Definition split_paths (paths : list RoutePath) (workers : nat) : list (list RoutePath) :=
  filter (λ chunk, 0 < length chunk)
    (foldl (λ chunks '(index, path),
       alter (λ chunk, chunk ++ [path]) (index mod workers) chunks)
      (replicate workers []) (enumerate paths)).

Definition split_indexed_items {A} (items : list A) (workers : nat) :
    list (list (nat * A)) :=
  filter (λ chunk, 0 < length chunk)
    (foldl (λ chunks '(index, item),
       alter (λ chunk, chunk ++ [(index, item)]) (index mod workers) chunks)
      (replicate workers []) (enumerate items)).

(** [collect_ordered_results]. *)
Definition collect_ordered_results {A} (results : list (nat * A)) : list A :=
  snd <$> stable_sort (λ x y, x.1 <=? y.1) results.

(** The profit of a cycle quote in [find_cycles_with_quote_cache]. *)
Definition cycle_quote (q : RouteQuote) : CycleQuote :=
  {| cq_route := q;
     profit := if (rq_amount_in q <? rq_amount_out q)%Z
               then Some (u256_sub (rq_amount_out q) (rq_amount_in q)) else None |}.
End quote.
