(* ===== verification/QuoteProps.v ===== *)
(** * Correctness of path quoting

    The adapters are external; what the searcher relies on is that during one
    evaluation a swap simulation answers the same question the same way and
    only changes the adapter cache in ways that do not affect later answers.
    That is [simulates]: an invariant of the cache and a function [sim] the
    adapters agree with.  Under it, quoting many paths through the prefix tree
    and the quote cache gives the same quotes and failures as quoting each path
    on its own. *)

From S2P Require Import Prelude AmmState Config SearchTypes QuoteCache QuoteCacheProps Quote.

(** Induction over the prefix tree, with the hypothesis for every child. *)
Section dag_ind.
Context `{!AmmTypes} (P : QuoteDagNode → Prop).
Hypothesis (Hnode : ∀ ch ts, Forall (λ c, P c.2) ch → P (DagNode ch ts)).

Fixpoint QuoteDagNode_ind' (n : QuoteDagNode) : P n :=
  match n with
  | DagNode ch ts =>
      Hnode ch ts
        ((fix go ch : Forall (λ c : Hop * QuoteDagNode, P c.2) ch :=
            match ch with
            | [] => Forall_nil_2 _
            | (h, n) :: ch => Forall_cons_2 _ (h, n) ch (QuoteDagNode_ind' n) (go ch)
            end) ch)
  end.
End dag_ind.

Section props.
Context `{!AmmTypes} (R : AdapterRegistry).
Context (Inv : AdapterCache → Prop) (sim : SimConfig → Hop → U256 → result SimError U256).

(** The adapters of [R], as seen from any cache satisfying [Inv]; of the
    configuration only the part the quote cache keys on matters. *)
Record simulates : Prop := {
  sm_swap cfg c h amount pool swap :
    Inv c → registry_pool R (hop_pool h) = Some pool →
    registry_adapter R (pool_protocol (hop_pool h)) = Some swap →
    let '(r, c') := swap pool c (hop_token_in h) (hop_token_out h) amount cfg in
    r = sim cfg h amount ∧ Inv c';
  sm_config cfg cfg' h amount :
    SimConfigKey_from cfg = SimConfigKey_from cfg' → sim cfg h amount = sim cfg' h amount;
}.

(** The result of one hop, and of a list of hops, on their own. *)
Definition hop_result (cfg : SimConfig) (h : Hop) (amount : U256) : result SearchError U256 :=
  match registry_pool R (hop_pool h) with
  | None => Err (ErrMissingPool (hop_pool h))
  | Some _ =>
      match registry_adapter R (pool_protocol (hop_pool h)) with
      | None => Err (ErrMissingAdapter (pool_protocol (hop_pool h)))
      | Some _ =>
          match sim cfg h amount with
          | Ok amount_out => Ok amount_out
          | Err source => Err (ErrQuoteFailed h source)
          end
      end
  end.

Fixpoint fold_hops {E} (hop_quote : Hop → U256 → result E U256) (hops : list Hop)
    (amount : U256) (quoted : list HopQuote) : result E (U256 * list HopQuote) :=
  match hops with
  | [] => Ok (amount, quoted)
  | h :: hops =>
      match hop_quote h amount with
      | Ok amount_out =>
          fold_hops hop_quote hops amount_out
            (quoted ++ [{| hq_hop := h; hq_amount_in := amount; hq_amount_out := amount_out |}])
      | Err e => Err e
      end
  end.

Definition fold_path {E} (hop_quote : Hop → U256 → result E U256) (empty : E)
    (path : RoutePath) (amount_in : U256) : result E RouteQuote :=
  match path with
  | [] => Err empty
  | _ =>
      match fold_hops hop_quote path amount_in [] with
      | Ok (amount, hops) =>
          Ok {| rq_path := path; rq_amount_in := amount_in; rq_amount_out := amount;
                rq_hops := hops |}
      | Err e => Err e
      end
  end.

(** Distinct pools have distinct scopes; always so without a live context. *)
Definition scope_inj (ctx : QuoteKeyContext) : Prop :=
  ∀ p p' s, pool_scope ctx p = Ok s → pool_scope ctx p' = Ok s → p = p'.
Definition scoped (ctx : QuoteKeyContext) (h : Hop) : Prop :=
  ∃ s, pool_scope ctx (hop_pool h) = Ok s.

Lemma scope_inj_static : scope_inj ContextStatic.
Proof. intros p p' s. simpl. congruence. Qed.
Lemma scoped_static h : scoped ContextStatic h.
Proof. by eexists. Qed.

Definition with_reason {A} (r : result SearchError A) : result string A :=
  match r with Ok a => Ok a | Err e => Err (search_error_display e) end.

(** What every entry of the cache says is what the simulation says now,
    nothing is in flight, and the pool index is consistent. *)
Record coherent (ctx : QuoteKeyContext) (qc : SharedQuoteCache) : Prop := {
  ch_context : qc_context qc = ctx;
  ch_index : index_ok qc;
  ch_entry cfg h amount k : quote_key ctx h amount cfg = Ok k →
    match entries qc !! k with
    | None => True
    | Some InFlight => False
    | Some (Ready e) => into_result e = with_reason (hop_result cfg h amount)
    end;
}.

Lemma coherent_empty ctx : coherent ctx (with_context ctx).
Proof.
  constructor; [done|apply index_ok_empty|]. intros cfg h amount k _. simpl.
  by rewrite lookup_empty.
Qed.

Lemma quote_key_inj ctx cfg cfg' h h' amount amount' k :
  scope_inj ctx → quote_key ctx h amount cfg = Ok k → quote_key ctx h' amount' cfg' = Ok k →
  h = h' ∧ amount = amount' ∧ SimConfigKey_from cfg = SimConfigKey_from cfg'.
Proof.
  intros Hinj. unfold quote_key.
  destruct (pool_scope ctx (hop_pool h)) as [s|] eqn:Hs; [|done].
  destruct (pool_scope ctx (hop_pool h')) as [s'|] eqn:Hs'; [|done].
  intros Hk Hk'. injection Hk as Hk. injection Hk' as Hk'. rewrite <- Hk in Hk'.
  pose proof (f_equal key_pool Hk') as Hp. pose proof (f_equal key_token_in Hk') as Hi.
  pose proof (f_equal key_token_out Hk') as Ho. pose proof (f_equal key_amount_in Hk') as Ha.
  pose proof (f_equal key_sim_config Hk') as Hc. clear Hk Hk'. cbn in Hp, Hi, Ho, Ha.
  split; [|by split]. rewrite Hp in Hs'. pose proof (Hinj _ _ _ Hs Hs').
  destruct h, h'. simpl in *. by subst.
Qed.

Section config.
Context (cfg : SimConfig).

(** Quoting a path on its own. *)
Definition path_result : RoutePath → U256 → result SearchError RouteQuote :=
  fold_path (hop_result cfg) ErrEmptyPath.

(** The same with rendered errors and the failure of a live context to name
    the pool's state, as the evaluator reports them. *)
Definition hop_quote (ctx : QuoteKeyContext) (h : Hop) (amount : U256) : result string U256 :=
  match quote_key ctx h amount cfg with
  | Err reason => Err reason
  | Ok _ => with_reason (hop_result cfg h amount)
  end.

Definition path_quote (ctx : QuoteKeyContext) : RoutePath → U256 → result string RouteQuote :=
  fold_path (hop_quote ctx) (search_error_display ErrEmptyPath).

Definition quote_of (ctx : QuoteKeyContext) (amount_in : U256) (path : RoutePath) :
    option RouteQuote := result_ok (path_quote ctx path amount_in).
Definition failure_of (ctx : QuoteKeyContext) (amount_in : U256) (path : RoutePath) :
    option PathFailure :=
  match path_quote ctx path amount_in with
  | Ok _ => None
  | Err reason => Some {| pf_path := path; pf_reason := reason |}
  end.

Lemma fold_hops_scoped ctx hops amount quoted :
  Forall (scoped ctx) hops →
  fold_hops (hop_quote ctx) hops amount quoted =
  with_reason (fold_hops (hop_result cfg) hops amount quoted).
Proof.
  intros Hs. revert amount quoted.
  induction Hs as [|h hops [s Hs] _ IH]; intros amount quoted; simpl; [done|].
  unfold hop_quote at 1, quote_key. rewrite Hs. by destruct (hop_result cfg h amount); simpl.
Qed.

Lemma path_quote_scoped ctx path amount_in :
  Forall (scoped ctx) path →
  path_quote ctx path amount_in = with_reason (path_result path amount_in).
Proof.
  intros Hs. unfold path_quote, path_result, fold_path. destruct path as [|h path]; [done|].
  rewrite fold_hops_scoped by done. by destruct (fold_hops (hop_result cfg) _ _ _) as [[? ?]|].
Qed.

Hypothesis (Hsim : simulates).

(** ** One path *)

Lemma quote_hops_result hops amount quoted c :
  Inv c →
  ∃ c', quote_hops R hops amount quoted c cfg = (fold_hops (hop_result cfg) hops amount quoted, c') ∧ Inv c'.
Proof.
  revert amount quoted c. induction hops as [|h hops IH]; intros amount quoted c Hc; simpl.
  { eauto. }
  unfold hop_result. destruct (registry_pool R (hop_pool h)) as [pool|] eqn:Hp; [|eauto].
  destruct (registry_adapter R (pool_protocol (hop_pool h))) as [swap|] eqn:Ha; [|eauto].
  pose proof (sm_swap Hsim cfg c h amount pool swap Hc Hp Ha) as Hs.
  destruct (swap _ _ _ _ _ _) as [r c']. destruct Hs as [-> Hc'].
  destruct (sim cfg h amount); [by apply IH|eauto].
Qed.

Lemma quote_path_result path amount_in c :
  Inv c →
  ∃ c', quote_path_with_registry R path amount_in c cfg = (path_result path amount_in, c') ∧
    Inv c'.
Proof.
  intros Hc. unfold quote_path_with_registry, path_result, fold_path. destruct path as [|h p]; [eauto|].
  destruct (quote_hops_result (h :: p) amount_in [] c Hc) as (c' & -> & Hc').
  destruct (fold_hops _ _ _ _) as [[a hs]|e]; eauto.
Qed.

Lemma quote_hop_uncached_result h amount c :
  Inv c →
  ∃ c', quote_hop_uncached R h amount cfg c = (with_reason (hop_result cfg h amount), c') ∧ Inv c'.
Proof.
  intros Hc. unfold quote_hop_uncached, hop_result.
  destruct (registry_pool R (hop_pool h)) as [pool|] eqn:Hp; [|eauto].
  destruct (registry_adapter R (pool_protocol (hop_pool h))) as [swap|] eqn:Ha; [|eauto].
  pose proof (sm_swap Hsim cfg c h amount pool swap Hc Hp Ha) as Hs.
  destruct (swap _ _ _ _ _ _) as [r c']. destruct Hs as [-> Hc'].
  destruct (sim cfg h amount); simpl; eauto.
Qed.

(** ** The quote cache *)

Lemma quote_hop_result ctx h amount qc c :
  scope_inj ctx → coherent ctx qc → Inv c →
  ∃ qc' c', quote_hop_with_cache R h amount cfg qc c = Some (hop_quote ctx h amount, qc', c') ∧
    coherent ctx qc' ∧ Inv c'.
Proof.
  intros Hinj Hqc Hc. unfold quote_hop_with_cache, hop_quote. rewrite (ch_context _ _ Hqc).
  destruct (quote_key ctx h amount cfg) as [k|] eqn:Hk; [|by eauto].
  pose proof (ch_entry _ _ Hqc cfg h amount k Hk) as He.
  unfold get_or_quote, cache_lookup.
  destruct (entries qc !! k) as [[|e]|] eqn:Hek; [done| |].
  - rewrite He. do 2 eexists. split; [done|]. split; [|done].
    destruct Hqc as [H1 Hidx H2]. by constructor.
  - destruct (quote_hop_uncached_result h amount c Hc) as (c' & -> & Hc').
    assert (∀ r : result string U256, into_result (entry_of r) = r) as Hr by by intros [].
    rewrite Hr. do 2 eexists. split; [done|]. split; [|done].
    pose proof (cache_lookup_index k qc (ch_index _ _ Hqc)) as Hidx.
    unfold cache_lookup in Hidx. rewrite Hek in Hidx.
    apply (cache_publish_index k (entry_of (with_reason (hop_result cfg h amount)))) in Hidx.
    unfold cache_publish in *. simpl in *. rewrite lookup_insert_eq in *.
    destruct Hqc as [H1 _ H2]. constructor; [done|done|]. intros cfg' h' amount' k' Hk'. simpl. rewrite insert_insert_eq.
    destruct (decide (k' = k)) as [->|Hne].
    + rewrite lookup_insert_eq, Hr.
      destruct (quote_key_inj ctx cfg cfg' h h' amount amount' k Hinj Hk Hk') as (<- & <- & Hcfg).
      unfold hop_result. by rewrite (sm_config Hsim cfg cfg').
    + rewrite lookup_insert_ne by done. by apply H2.
Qed.

(** ** The prefix tree *)

(** The paths of a subtree with their remaining hops, in evaluation order. *)
Fixpoint dag_paths (n : QuoteDagNode) : list (list Hop * RoutePath) :=
  match n with
  | DagNode ch ts =>
      ((λ p, ([], p)) <$> ts) ++
      (fix go (ch : list (Hop * QuoteDagNode)) : list (list Hop * RoutePath) :=
         match ch with
         | [] => []
         | (h, n) :: ch => (prod_map (cons h) id <$> dag_paths n) ++ go ch
         end) ch
  end.

Fixpoint child_paths (ch : list (Hop * QuoteDagNode)) : list (list Hop * RoutePath) :=
  match ch with
  | [] => []
  | (h, n) :: ch => (prod_map (cons h) id <$> dag_paths n) ++ child_paths ch
  end.

Lemma dag_paths_node ch ts : dag_paths (DagNode ch ts) = ((λ p, ([], p)) <$> ts) ++ child_paths ch.
Proof. reflexivity. Qed.

Lemma update_child_paths h f hops path ch :
  (∀ n, dag_paths (f n) ≡ₚ (hops, path) :: dag_paths n) →
  child_paths (update_child h f ch) ≡ₚ (h :: hops, path) :: child_paths ch.
Proof.
  intros Hf. induction ch as [|[h' n] ch IH]; simpl.
  - by rewrite Hf.
  - case_decide as Hh; simpl.
    + subst. by rewrite Hf.
    + rewrite IH. by rewrite Permutation_middle.
Qed.

Lemma dag_insert_paths hops path n :
  dag_paths (dag_insert_at hops path n) ≡ₚ (hops, path) :: dag_paths n.
Proof.
  revert n. induction hops as [|h hops IH]; intros [ch ts]; cbn [dag_insert_at];
    rewrite !dag_paths_node.
  - rewrite fmap_app, <- (assoc_L (++)). simpl. by rewrite Permutation_middle.
  - rewrite (update_child_paths h _ hops path) by done. by rewrite Permutation_middle.
Qed.

Lemma collect_failures_paths reason n :
  collect_failures reason n =
  (λ p, {| pf_path := p.2; pf_reason := reason |}) <$> dag_paths n.
Proof.
  induction n as [ch ts Hch] using QuoteDagNode_ind'.
  rewrite dag_paths_node, fmap_app, <- list_fmap_compose. simpl. f_equal.
  induction Hch as [|[h n] ch Hn _ IH]; simpl; [done|].
  simpl in Hn. by rewrite fmap_app, <- list_fmap_compose, IH, Hn.
Qed.

(** ** Evaluation *)

Section evaluate.
Context {S : Type} (ctx : QuoteKeyContext) (amount_in : U256).
Context (on_quote : option (RouteQuote → S → bool * S))
  (on_failure : option (PathFailure → S → bool * S)).
Hypothesis (Hinj : scope_inj ctx).

Abbreviation eval := (evaluate (S := S) R cfg amount_in on_quote on_failure).
Abbreviation Ev := (Evaluator (S := S)).

(** What a path contributes below a prefix. *)
Definition rest_result (amount : U256) (quoted : list HopQuote)
    (p : list Hop * RoutePath) : result PathFailure RouteQuote :=
  match fold_hops (hop_quote ctx) p.1 amount quoted with
  | Ok (amount_out, hops) =>
      Ok {| rq_path := p.2; rq_amount_in := amount_in; rq_amount_out := amount_out;
            rq_hops := hops |}
  | Err reason => Err {| pf_path := p.2; pf_reason := reason |}
  end.

(** Handing results to the observers one by one until one of them stops. *)
Definition consume_one (e : Ev) (r : result PathFailure RouteQuote) : Ev :=
  if ev_stopped e then e
  else match r with
       | Ok q => push_quote on_quote q e
       | Err f => push_failure on_failure f e
       end.
Definition consume (rs : list (result PathFailure RouteQuote)) (e : Ev) : Ev :=
  foldl consume_one e rs.

Definition ev_view (e : Ev) : list RouteQuote * list PathFailure * S * bool :=
  (ev_quotes e, ev_failures e, ev_captured e, ev_stopped e).

Definition usable (e : Ev) : Prop := Inv (ev_cache e) ∧ coherent ctx (ev_quote_cache e).

(** [e'] is [e] after the results [rs], up to the caches. *)
Record after (rs : list (result PathFailure RouteQuote)) (e e' : Ev) : Prop := {
  af_view : ev_view e' = ev_view (consume rs e);
  af_usable : usable e';
}.

Lemma consume_one_view e e' r :
  ev_view e = ev_view e' → ev_view (consume_one e r) = ev_view (consume_one e' r).
Proof.
  destruct e as [c qc q f s b], e' as [c' qc' q' f' s' b'].
  unfold ev_view, consume_one. simpl. intros [= -> -> -> ->].
  destruct b'; [done|]. destruct r; unfold push_quote, push_failure; simpl;
    by destruct (observe _ _ _).
Qed.

Lemma consume_view rs e e' : ev_view e = ev_view e' → ev_view (consume rs e) = ev_view (consume rs e').
Proof.
  unfold consume. revert e e'.
  induction rs as [|r rs IH]; intros e e' He; simpl; [done|]. by apply IH, consume_one_view.
Qed.

Lemma consume_stopped rs e : ev_stopped e = true → consume rs e = e.
Proof.
  intros He. unfold consume. induction rs as [|r rs IH]; simpl; [done|].
  unfold consume_one at 2. by rewrite He.
Qed.

Lemma consume_one_usable e r : usable e → usable (consume_one e r).
Proof.
  unfold usable, consume_one. destruct (ev_stopped e); [done|].
  destruct r; unfold push_quote, push_failure; by destruct (observe _ _ _).
Qed.

Lemma after_nil e : usable e → after [] e e.
Proof. by constructor. Qed.

Lemma after_app rs1 rs2 e1 e2 e3 :
  after rs1 e1 e2 → after rs2 e2 e3 → after (rs1 ++ rs2) e1 e3.
Proof.
  intros [H1 H2] [H3 H4]. constructor; [|done]. rewrite H3. unfold consume.
  rewrite foldl_app. by apply consume_view.
Qed.

Lemma after_stopped rs e : usable e → ev_stopped e = true → after rs e e.
Proof. intros Hu He. constructor; [|done]. by rewrite consume_stopped. Qed.

Lemma evaluate_terminals_spec ts amount quoted (e : Ev) :
  usable e →
  after (rest_result amount quoted <$> ((λ p, ([], p)) <$> ts)) e
    (evaluate_terminals amount_in on_quote ts amount quoted e).
Proof.
  revert e. induction ts as [|p ts IH]; intros e He; [by apply after_nil|].
  cbn [evaluate_terminals]. destruct (ev_stopped e) eqn:Hs; [by apply after_stopped|].
  eapply (after_app [_] _ e (consume_one e (rest_result amount quoted ([], p)))).
  - constructor; [done|by apply consume_one_usable].
  - unfold consume_one. rewrite Hs. unfold rest_result at 2. simpl. apply IH.
    pose proof (consume_one_usable e (rest_result amount quoted ([], p)) He) as Hu.
    unfold consume_one in Hu. by rewrite Hs in Hu.
Qed.

Lemma push_failures_spec fs (e : Ev) :
  usable e → ev_stopped e = false → after (Err <$> fs) e (push_failures on_failure fs e).
Proof.
  revert e. induction fs as [|f fs IH]; intros e He Hs; [by apply after_nil|].
  cbn [push_failures]. eapply (after_app [_] _ e (consume_one e (Err f))).
  - constructor; [done|by apply consume_one_usable].
  - pose proof (consume_one_usable e (Err f) He) as Hu.
    unfold consume_one in *. rewrite Hs in *.
    destruct (ev_stopped (push_failure on_failure f e)) eqn:Hs'.
    + by apply after_stopped.
    + by apply IH.
Qed.

(** The loop over the children, as a function of its own. *)
Fixpoint evaluate_children (ch : list (Hop * QuoteDagNode)) (amount : U256)
    (quoted : list HopQuote) (e : Ev) : option Ev :=
  match ch with
  | [] => Some e
  | (h, n) :: ch =>
      if ev_stopped e then Some e
      else
        '(r, qc, c) ← quote_hop_with_cache R h amount cfg (ev_quote_cache e) (ev_cache e);
        let e := set_caches qc c e in
        match r with
        | Ok amount_out =>
            e ← eval n amount_out
                  (quoted ++ [{| hq_hop := h; hq_amount_in := amount;
                                 hq_amount_out := amount_out |}]) e;
            evaluate_children ch amount quoted e
        | Err reason =>
            evaluate_children ch amount quoted
              (push_failures on_failure (collect_failures reason n) e)
        end
  end.

Lemma evaluate_node ch ts amount quoted e :
  eval (DagNode ch ts) amount quoted e =
  evaluate_children ch amount quoted (evaluate_terminals amount_in on_quote ts amount quoted e).
Proof.
  cbn [evaluate]. generalize (evaluate_terminals amount_in on_quote ts amount quoted e).
  induction ch as [|[h n] ch IH]; intros e1; cbn [evaluate_children]; [done|].
  destruct (ev_stopped e1); [done|].
  destruct (quote_hop_with_cache _ _ _ _ _ _) as [[[[a|r] qc] c]|]; simpl; [|apply IH|done].
  destruct (eval _ _ _ _); simpl; [apply IH|done].
Qed.

Lemma rest_result_cons_Ok h n amount quoted amount_out :
  hop_quote ctx h amount = Ok amount_out →
  rest_result amount quoted <$> (prod_map (cons h) id <$> dag_paths n) =
  rest_result amount_out
    (quoted ++ [{| hq_hop := h; hq_amount_in := amount; hq_amount_out := amount_out |}])
    <$> dag_paths n.
Proof.
  intros Hh. rewrite <- list_fmap_compose. apply list_fmap_ext. intros _ [hs p] _.
  unfold rest_result. simpl. by rewrite Hh.
Qed.

Lemma rest_result_cons_Err h n amount quoted reason :
  hop_quote ctx h amount = Err reason →
  rest_result amount quoted <$> (prod_map (cons h) id <$> dag_paths n) =
  Err <$> collect_failures reason n.
Proof.
  intros Hh. rewrite collect_failures_paths, <- !list_fmap_compose.
  apply list_fmap_ext. intros _ [hs p] _. unfold rest_result. simpl. by rewrite Hh.
Qed.

Lemma after_set_caches rs qc c e e' : after rs (set_caches qc c e) e' → after rs e e'.
Proof. intros [H1 H2]. constructor; [|done]. rewrite H1. by apply consume_view. Qed.

Lemma evaluate_spec n amount quoted (e : Ev) :
  usable e →
  ∃ e', eval n amount quoted e = Some e' ∧
    after (rest_result amount quoted <$> dag_paths n) e e'.
Proof.
  revert amount quoted e.
  induction n as [ch ts Hch] using QuoteDagNode_ind'; intros amount quoted e He.
  rewrite dag_paths_node, fmap_app, evaluate_node.
  pose proof (evaluate_terminals_spec ts amount quoted e He) as Ht.
  set (e1 := evaluate_terminals _ _ _ _ _ _) in *. clearbody e1.
  pose proof (af_usable _ _ _ Ht) as He1.
  assert (∃ e', evaluate_children ch amount quoted e1 = Some e' ∧
    after (rest_result amount quoted <$> child_paths ch) e1 e') as (e' & Hgo & Hx).
  2: { exists e'. split; [done|]. by eapply after_app. }
  clear Ht He. revert e1 He1. induction Hch as [|[h n] ch Hn _ IH]; intros e1 He1.
  { exists e1. split; [done|]. by apply after_nil. }
  cbn [evaluate_children child_paths].
  destruct (ev_stopped e1) eqn:Hst; [exists e1; split; [done|by apply after_stopped]|].
  destruct (quote_hop_result ctx h amount _ _ Hinj (proj2 He1) (proj1 He1))
    as (qc & c & -> & Hqc & Hc).
  simpl. assert (usable (set_caches qc c e1)) as He2 by done.
  rewrite fmap_app. destruct (hop_quote ctx h amount) as [amount_out|reason] eqn:Hh.
  - rewrite (rest_result_cons_Ok _ _ _ _ _ Hh). simpl in Hn.
    destruct (Hn amount_out (quoted ++ [{| hq_hop := h; hq_amount_in := amount;
      hq_amount_out := amount_out |}]) _ He2) as (e3 & -> & Hx3). simpl.
    apply after_set_caches in Hx3.
    destruct (IH e3 (af_usable _ _ _ Hx3)) as (e4 & -> & Hx4).
    exists e4. split; [done|]. by eapply after_app.
  - rewrite (rest_result_cons_Err _ _ _ _ _ Hh).
    pose proof (push_failures_spec (collect_failures reason n) _ He2 Hst) as Hx3.
    apply after_set_caches in Hx3.
    destruct (IH _ (af_usable _ _ _ Hx3)) as (e4 & -> & Hx4).
    exists e4. split; [done|]. by eapply after_app.
Qed.

(** The tree holds the non-empty paths; the empty ones fail beforehand. *)
Definition empty_failure : result PathFailure RouteQuote :=
  Err {| pf_path := []; pf_reason := search_error_display ErrEmptyPath |}.

Definition insert_all (paths : list RoutePath) (dag : QuoteDagNode) : QuoteDagNode :=
  foldl (λ dag p, dag_insert p dag) dag (filter (λ p, p ≠ []) paths).

Lemma build_dag_spec paths dag (e : Ev) :
  usable e → ev_stopped e = false →
  let '(dag', e') := build_dag on_failure paths dag e in
  (ev_stopped e' = false → dag' = insert_all paths dag) ∧
  after ((λ _, empty_failure) <$> filter (λ p, p = []) paths) e e'.
Proof.
  revert dag e. induction paths as [|p paths IH]; intros dag e He Hs.
  { simpl. split; [done|]. by apply after_nil. }
  cbn [build_dag]. unfold insert_all. destruct p as [|h p].
  - rewrite filter_cons_False by (by intros []). rewrite filter_cons_True by done.
    set (f := {| pf_path := []; pf_reason := _ |}).
    assert (after [Err f] e (push_failure on_failure f e)) as He1.
    { constructor.
      - simpl. unfold consume_one. by rewrite Hs.
      - pose proof (consume_one_usable e (Err f) He) as Hu.
        unfold consume_one in Hu. by rewrite Hs in Hu. }
    destruct (ev_stopped (push_failure on_failure f e)) eqn:Hs'.
    { split; [by rewrite Hs'|]. eapply (after_app [_]); [exact He1|].
      apply after_stopped; [apply He1|done]. }
    specialize (IH dag _ (af_usable _ _ _ He1) Hs').
    destruct (build_dag _ _ _ _) as [dag' e']. destruct IH as [H1 H2].
    split; [done|]. exact (after_app [_] _ _ _ _ He1 H2).
  - specialize (IH (dag_insert (h :: p) dag) e He Hs).
    rewrite filter_cons_True by done. rewrite filter_cons_False by done.
    destruct (build_dag _ _ _ _) as [dag' e']. exact IH.
Qed.

Lemma insert_all_paths paths dag :
  dag_paths (insert_all paths dag) ≡ₚ
  dag_paths dag ++ ((λ p, (p, p)) <$> filter (λ p, p ≠ []) paths).
Proof.
  unfold insert_all.
  match goal with |- context [filter ?P paths] => generalize (filter P paths) end. clear.
  intros l. revert dag. induction l as [|p l IH]; intros dag; csimpl; [by rewrite app_nil_r|].
  rewrite IH. unfold dag_insert. rewrite dag_insert_paths. simpl.
  by rewrite Permutation_middle.
Qed.

(** The results of all the paths of a call, in the order they are reported. *)
Definition results_of (paths : list RoutePath) : list (result PathFailure RouteQuote) :=
  ((λ _, empty_failure) <$> filter (λ p, p = []) paths) ++
  (rest_result amount_in [] <$> dag_paths (insert_all paths QuoteDag_default)).

Definition result_of (p : RoutePath) : result PathFailure RouteQuote :=
  match path_quote ctx p amount_in with
  | Ok q => Ok q
  | Err reason => Err {| pf_path := p; pf_reason := reason |}
  end.

Lemma rest_result_path p : p ≠ [] → rest_result amount_in [] (p, p) = result_of p.
Proof.
  intros Hp. unfold rest_result, result_of, path_quote, fold_path. destruct p as [|h p]; [done|].
  by destruct (fold_hops _ _ _ _) as [[? ?]|].
Qed.

Lemma results_of_perm paths : results_of paths ≡ₚ result_of <$> paths.
Proof.
  unfold results_of. rewrite insert_all_paths. simpl. rewrite <- list_fmap_compose.
  induction paths as [|p paths IH]; [done|]. destruct p as [|h p].
  - rewrite filter_cons_True by done. rewrite filter_cons_False by (by intros []).
    simpl. by rewrite IH.
  - rewrite filter_cons_False by done. rewrite filter_cons_True by done.
    rewrite !fmap_cons. rewrite <- Permutation_middle, IH.
    apply Permutation_cons_eq; [|done]. by apply rest_result_path.
Qed.

Lemma quote_paths_observed_spec paths c qc s :
  Inv c → coherent ctx qc →
  ∃ e', quote_paths_with_registry_observed R cfg amount_in on_quote on_failure paths c qc s
      = Some e' ∧
    after (results_of paths)
      {| ev_cache := c; ev_quote_cache := qc; ev_quotes := []; ev_failures := [];
         ev_captured := s; ev_stopped := false |} e'.
Proof.
  intros Hc Hqc. unfold quote_paths_with_registry_observed.
  set (e0 := {| ev_cache := c |}).
  pose proof (build_dag_spec paths QuoteDag_default e0 ltac:(done) eq_refl) as Hb.
  destruct (build_dag _ _ _ _) as [dag e1]. destruct Hb as [Hdag Hx1].
  destruct (ev_stopped e1) eqn:Hs.
  - exists e1. split; [done|]. eapply after_app; [exact Hx1|].
    apply after_stopped; [apply Hx1|done].
  - rewrite (Hdag eq_refl).
    destruct (evaluate_spec (insert_all paths QuoteDag_default) amount_in [] e1
      (af_usable _ _ _ Hx1)) as (e2 & -> & Hx2).
    exists e2. split; [done|]. by eapply after_app.
Qed.
End evaluate.

(** Without observers every result is recorded. *)
Definition result_err {E A} (r : result E A) : option E :=
  match r with Ok _ => None | Err e => Some e end.

Lemma consume_unobserved {S} rs (e : Evaluator (S := S)) :
  ev_stopped e = false →
  ev_view (consume None None rs e) =
  (ev_quotes e ++ omap result_ok rs, ev_failures e ++ omap result_err rs, ev_captured e, false).
Proof.
  unfold consume. revert e. induction rs as [|r rs IH]; intros e He; csimpl.
  { unfold ev_view. by rewrite !app_nil_r, He. }
  unfold consume_one at 2. rewrite He.
  destruct r as [q|f]; rewrite IH by done; simpl; by rewrite <- (assoc_L (++)).
Qed.

(** With observers: a prefix of the results is recorded, up to and including
    the one on which an observer stopped. *)
Lemma consume_prefix {S} on_quote on_failure rs (e : Evaluator (S := S)) :
  ev_stopped e = false →
  ∃ k, k ≤ length rs ∧
    ev_quotes (consume on_quote on_failure rs e) = ev_quotes e ++ omap result_ok (take k rs) ∧
    ev_failures (consume on_quote on_failure rs e) = ev_failures e ++ omap result_err (take k rs) ∧
    (ev_stopped (consume on_quote on_failure rs e) = false → k = length rs).
Proof.
  revert e. induction rs as [|r rs IH]; intros e He.
  { exists 0. simpl. rewrite !app_nil_r. done. }
  change (consume on_quote on_failure (r :: rs) e) with
    (consume on_quote on_failure rs (consume_one on_quote on_failure e r)).
  assert (ev_quotes (consume_one on_quote on_failure e r) =
            ev_quotes e ++ omap result_ok [r] ∧
          ev_failures (consume_one on_quote on_failure e r) =
            ev_failures e ++ omap result_err [r]) as [Hq Hf].
  { unfold consume_one. rewrite He. destruct r; unfold push_quote, push_failure; simpl;
      destruct (observe _ _ _); simpl; by rewrite ?app_nil_r. }
  destruct (ev_stopped (consume_one on_quote on_failure e r)) eqn:Hs.
  - exists 1. rewrite consume_stopped by done. rewrite Hq, Hf, Hs. simpl.
    split_and!; [lia|by destruct rs|by destruct rs|done].
  - destruct (IH _ Hs) as (k & Hk & H1 & H2 & H3). exists (Datatypes.S k).
    rewrite H1, H2, Hq, Hf, <- !(assoc_L (++)), <- !omap_app. simpl.
    split_and!; [lia|done|done|]. intros Hst. f_equal. by apply H3.
Qed.

(** Observers that never stop the evaluation see every result; one that always
    refuses a quote sees at most one. *)
Lemma consume_accepting {S} (f : RouteQuote → S → bool * S) rs (e : Evaluator (S := S)) :
  (∀ q st, (f q st).1 = true) → ev_stopped e = false →
  ev_stopped (consume (Some f) None rs e) = false.
Proof.
  intros Hf. unfold consume. revert e. induction rs as [|r rs IH]; intros e He; [done|].
  simpl. apply IH. unfold consume_one. rewrite He. destruct r as [q|fl].
  - unfold push_quote, observe. specialize (Hf q (ev_captured e)).
    destruct (f q (ev_captured e)) as [b st]. simpl in *. by subst.
  - done.
Qed.

Lemma consume_refusing {S} (f : RouteQuote → S → bool * S) rs (e : Evaluator (S := S)) :
  (∀ q st, (f q st).1 = false) → ev_stopped e = false →
  length (ev_quotes (consume (Some f) None rs e)) ≤ 1 + length (ev_quotes e).
Proof.
  intros Hf. revert e. induction rs as [|r rs IH]; intros e He; [simpl; lia|].
  change (consume (Some f) None (r :: rs) e) with
    (consume (Some f) None rs (consume_one (Some f) None e r)).
  unfold consume_one. rewrite He. destruct r as [q|fl].
  - assert (ev_stopped (push_quote (Some f) q e) = true ∧
      length (ev_quotes (push_quote (Some f) q e)) = 1 + length (ev_quotes e)) as [Hs Hl].
    { unfold push_quote, observe. specialize (Hf q (ev_captured e)).
      destruct (f q (ev_captured e)) as [b st]. simpl in *. subst. rewrite length_app.
      simpl. split; [done|lia]. }
    rewrite consume_stopped by done. lia.
  - etrans; [apply IH; done|]. done.
Qed.

Lemma quote_paths_spec ctx paths amount_in c qc :
  scope_inj ctx → Inv c → coherent ctx qc →
  ∃ qc' c',
    quote_paths_with_registry R paths amount_in cfg c qc =
      Some (omap result_ok (results_of ctx amount_in paths),
            omap result_err (results_of ctx amount_in paths), qc', c') ∧
    Inv c' ∧ coherent ctx qc'.
Proof.
  intros Hinj Hc Hqc. unfold quote_paths_with_registry.
  destruct (quote_paths_observed_spec ctx amount_in None None Hinj paths c qc () Hc Hqc)
    as (e & -> & Hv & Hc' & Hqc').
  rewrite consume_unobserved in Hv by done. injection Hv as Hq Hf _.
  simpl. rewrite Hq, Hf. eauto.
Qed.

Lemma quotes_of_paths ctx amount_in paths :
  omap result_ok (results_of ctx amount_in paths) ≡ₚ omap (quote_of ctx amount_in) paths.
Proof.
  rewrite (results_of_perm ctx amount_in paths), omap_fmap_list.
  erewrite omap_ext_in; [done|]. intros p _. unfold quote_of, compose, result_of.
  by destruct (path_quote ctx p amount_in).
Qed.

Lemma failures_of_paths ctx amount_in paths :
  omap result_err (results_of ctx amount_in paths) ≡ₚ omap (failure_of ctx amount_in) paths.
Proof.
  rewrite (results_of_perm ctx amount_in paths), omap_fmap_list.
  erewrite omap_ext_in; [done|]. intros p _. unfold failure_of, compose, result_of.
  by destruct (path_quote ctx p amount_in).
Qed.
End config.

End props.

(** ** Two simulations that agree on the hops of a path *)

Lemma hop_quote_agrees `{!AmmTypes} R R' sim sim' cfg ctx h amount :
  hop_result R sim cfg h amount = hop_result R' sim' cfg h amount →
  hop_quote R sim cfg ctx h amount = hop_quote R' sim' cfg ctx h amount.
Proof. unfold hop_quote. by intros ->. Qed.

Lemma path_quote_agrees `{!AmmTypes} R R' sim sim' cfg ctx path amount :
  (∀ h amount, h ∈ path → hop_result R sim cfg h amount = hop_result R' sim' cfg h amount) →
  path_quote R sim cfg ctx path amount = path_quote R' sim' cfg ctx path amount.
Proof.
  intros Hagree. unfold path_quote, fold_path. destruct path as [|h path]; [done|].
  assert (∀ hops amount quoted, (∀ h, h ∈ hops → h ∈ h :: path) → hops ⊆ h :: path →
    fold_hops (hop_quote R sim cfg ctx) hops amount quoted =
    fold_hops (hop_quote R' sim' cfg ctx) hops amount quoted) as Hfold.
  { induction hops as [|h' hops IH]; intros amount' quoted Hin Hsub; [done|]. simpl.
    rewrite (hop_quote_agrees R R' sim sim') by (apply Hagree; set_solver).
    destruct (hop_quote R' sim' cfg ctx h' amount'); [|done]. apply IH; set_solver. }
  rewrite Hfold by set_solver. done.
Qed.
