(* ===== verification/Workers.v ===== *)
(** * Worker threads ([src/search.rs])

    The parallel searches split their candidates over threads that quote their
    chunk with [quote_paths_with_registry_observed] over one shared quote cache;
    the streamed search also has them send every quote over a channel.  Here the
    threads interleave: a thread's program is a [Script] that stops at every
    point where it touches what is shared (a critical section of the quote cache,
    the [cancelled] flag, the channel), and a turn runs it to the next such
    point.  The coordinator receives the messages, shows them to its observer and
    joins the threads.  A [Move] also lets a waiting thread wake up spuriously and
    an adapter panic.

    Without an observer ([observed] is [false], [quote_and_rank_parallel]) nothing
    is sent and the coordinator only joins.  A read of the flag sees its last
    write. *)

From S2P Require Import Prelude AmmState Config SearchTypes QuoteCache Quote.

Section workers.
Context `{!AmmTypes}.

Record QuotePathsReport := {
  qp_quotes : list RouteQuote;
  qp_failures : list PathFailure;
  qp_stopped : bool;
}.

Definition empty_report : QuotePathsReport :=
  {| qp_quotes := []; qp_failures := []; qp_stopped := false |}.
(** Push a quote after the callback has answered [keep_searching]. *)
Definition report_quote (keep_searching : bool) (quote : RouteQuote) (report : QuotePathsReport) :
    QuotePathsReport :=
  {| qp_quotes := qp_quotes report ++ [quote]; qp_failures := qp_failures report;
     qp_stopped := negb keep_searching || qp_stopped report |}.
(** [push_failure] without a callback. *)
Definition report_failure (failure : PathFailure) (report : QuotePathsReport) : QuotePathsReport :=
  {| qp_quotes := qp_quotes report; qp_failures := qp_failures report ++ [failure];
     qp_stopped := qp_stopped report |}.

(** ** A thread's program *)

Inductive Script : Type :=
  | ScriptDone (report : QuotePathsReport)
  | QuoteHop (key : HopQuoteKey) (hop : Hop) (amount : U256) (k : result string U256 → Script)
  | Emit (quote : RouteQuote) (k : bool → Script).

Section script.
Context (ctx : QuoteKeyContext) (sim_config : SimConfig) (amount_in : U256) (observed : bool).

(** [quote_hop]: without a key there is nothing to ask the cache. *)
Definition quote_hop_script (hop : Hop) (amount : U256) (k : result string U256 → Script) : Script :=
  match quote_key ctx hop amount sim_config with
  | Err reason => k (Err reason)
  | Ok key => QuoteHop key hop amount k
  end.

(** [on_quote], if there is one. *)
Definition emit_script (quote : RouteQuote) (k : bool → Script) : Script :=
  if observed then Emit quote k else k true.

(** The loop over the terminals of a node. *)
Fixpoint terminals_script (paths : list RoutePath) (amount : U256) (hop_quotes : list HopQuote)
    (report : QuotePathsReport) (k : QuotePathsReport → Script) : Script :=
  match paths with
  | [] => k report
  | path :: paths =>
      if qp_stopped report then k report
      else
        let quote := {| rq_path := path; rq_amount_in := amount_in; rq_amount_out := amount;
                        rq_hops := hop_quotes |} in
        emit_script quote (λ keep_searching,
          terminals_script paths amount hop_quotes (report_quote keep_searching quote report) k)
  end.

(** [QuoteDagEvaluator::evaluate]. *)
Fixpoint evaluate_script (node : QuoteDagNode) (amount : U256) (hop_quotes : list HopQuote)
    (report : QuotePathsReport) (k : QuotePathsReport → Script) : Script :=
  match node with
  | DagNode children terminals =>
      terminals_script terminals amount hop_quotes report (λ report,
        (fix go (children : list (Hop * QuoteDagNode)) (report : QuotePathsReport) : Script :=
           match children with
           | [] => k report
           | (hop, node) :: children =>
               if qp_stopped report then k report
               else
                 quote_hop_script hop amount (λ r,
                   match r with
                   | Ok amount_out =>
                       evaluate_script node amount_out
                         (hop_quotes ++ [{| hq_hop := hop; hq_amount_in := amount;
                                            hq_amount_out := amount_out |}])
                         report (go children)
                   | Err reason =>
                       go children
                         (foldl (λ report f, report_failure f report) report
                            (collect_failures reason node))
                   end)
           end) children report)
  end.

(** The first loop of [quote_paths_with_registry_observed]. *)
Fixpoint chunk_dag (paths : list RoutePath) (dag : QuoteDagNode) (report : QuotePathsReport) :
    QuoteDagNode * QuotePathsReport :=
  match paths with
  | [] => (dag, report)
  | path :: paths =>
      match path with
      | [] =>
          chunk_dag paths dag
            (report_failure {| pf_path := path; pf_reason := search_error_display ErrEmptyPath |}
               report)
      | _ => chunk_dag paths (dag_insert path dag) report
      end
  end.

Definition chunk_script (paths : list RoutePath) : Script :=
  let '(dag, report) := chunk_dag paths QuoteDag_default empty_report in
  evaluate_script dag amount_in [] report ScriptDone.
End script.

(** ** Threads *)

(** Where a thread is: about to go on, inside [get_or_quote] (waiting for the
    condition variable, simulating, about to publish), inside its callback
    (about to send, about to read the flag again), or ended. *)
Inductive WorkerPhase : Type :=
  | WorkerRunning (script : Script)
  | WorkerWaiting (key : HopQuoteKey) (hop : Hop) (amount : U256) (k : result string U256 → Script)
  | WorkerSimulating (key : HopQuoteKey) (hop : Hop) (amount : U256) (k : result string U256 → Script)
  | WorkerPublishing (key : HopQuoteKey) (entry : QuoteCacheEntry) (k : result string U256 → Script)
  | WorkerSending (quote : RouteQuote) (k : bool → Script)
  | WorkerSent (k : bool → Script)
  | WorkerFinished (report : QuotePathsReport)
  | WorkerPanicked.

Record WorkerThread := {
  wt_overlay : AdapterCache;
  wt_phase : WorkerPhase;
}.

(** The coordinator receives, has just set the flag, or has dropped its end of
    the channel and joins the threads. *)
Inductive Coordinator : Type := Receiving | Refused | Joining.

Record WorkerSystem {O : Type} := {
  ws_cache : SharedQuoteCache;
  ws_threads : list WorkerThread;
  ws_cancelled : bool;
  ws_channel : list RouteQuote;
  ws_coordinator : Coordinator;
  ws_observer : O;
}.
Arguments WorkerSystem : clear implicits.

(** [notify_all]. *)
Definition wake_phase (phase : WorkerPhase) : WorkerPhase :=
  match phase with WorkerWaiting key hop amount k => WorkerRunning (QuoteHop key hop amount k) | _ => phase end.
Definition wake_thread (t : WorkerThread) : WorkerThread :=
  {| wt_overlay := wt_overlay t; wt_phase := wake_phase (wt_phase t) |}.

Definition thread_ended (t : WorkerThread) : bool :=
  match wt_phase t with WorkerFinished _ | WorkerPanicked => true | _ => false end.

Section system.
Context {O : Type} (registry : AdapterRegistry) (sim_config : SimConfig)
  (on_quote : RouteQuote → O → bool * O).
Abbreviation System := (WorkerSystem O).

Definition set_thread (i : nat) (overlay : AdapterCache) (phase : WorkerPhase) (sys : System) : System :=
  {| ws_cache := ws_cache sys;
     ws_threads := <[i := {| wt_overlay := overlay; wt_phase := phase |}]> (ws_threads sys);
     ws_cancelled := ws_cancelled sys; ws_channel := ws_channel sys;
     ws_coordinator := ws_coordinator sys; ws_observer := ws_observer sys |}.
Definition set_cache (cache : SharedQuoteCache) (sys : System) : System :=
  {| ws_cache := cache; ws_threads := ws_threads sys; ws_cancelled := ws_cancelled sys;
     ws_channel := ws_channel sys; ws_coordinator := ws_coordinator sys;
     ws_observer := ws_observer sys |}.
Definition wake_all (sys : System) : System :=
  {| ws_cache := ws_cache sys; ws_threads := wake_thread <$> ws_threads sys;
     ws_cancelled := ws_cancelled sys; ws_channel := ws_channel sys;
     ws_coordinator := ws_coordinator sys; ws_observer := ws_observer sys |}.
Definition push_message (quote : RouteQuote) (sys : System) : System :=
  {| ws_cache := ws_cache sys; ws_threads := ws_threads sys; ws_cancelled := ws_cancelled sys;
     ws_channel := ws_channel sys ++ [quote]; ws_coordinator := ws_coordinator sys;
     ws_observer := ws_observer sys |}.
Definition set_coordinator (cancelled : bool) (channel : list RouteQuote) (coordinator : Coordinator)
    (observer : O) (sys : System) : System :=
  {| ws_cache := ws_cache sys; ws_threads := ws_threads sys; ws_cancelled := cancelled;
     ws_channel := channel; ws_coordinator := coordinator; ws_observer := observer |}.

(** A turn of thread [i]; [None] when it waits or has ended. *)
Definition worker_turn (i : nat) (sys : System) : option System :=
  t ← ws_threads sys !! i;
  let overlay := wt_overlay t in
  match wt_phase t with
  | WorkerRunning (ScriptDone report) => Some (set_thread i overlay (WorkerFinished report) sys)
  | WorkerRunning (QuoteHop key hop amount k) =>
      let '(out, cache) := cache_lookup key (ws_cache sys) in
      let phase := match out with
                   | LookupHit entry => WorkerRunning (k (into_result entry))
                   | LookupWait => WorkerWaiting key hop amount k
                   | LookupMiss => WorkerSimulating key hop amount k
                   end in
      Some (set_cache cache (set_thread i overlay phase sys))
  | WorkerRunning (Emit quote k) =>
      Some (set_thread i overlay
              (if ws_cancelled sys then WorkerRunning (k false) else WorkerSending quote k) sys)
  | WorkerSimulating key hop amount k =>
      let '(r, overlay) := quote_hop_uncached registry hop amount sim_config overlay in
      Some (set_cache (cache_executed (entry_of r) (ws_cache sys))
              (set_thread i overlay (WorkerPublishing key (entry_of r) k) sys))
  | WorkerPublishing key entry k =>
      Some (wake_all (set_cache (cache_publish key entry (ws_cache sys))
              (set_thread i overlay (WorkerRunning (k (into_result entry))) sys)))
  | WorkerSending quote k =>
      match ws_coordinator sys with
      | Joining => Some (set_thread i overlay (WorkerRunning (k false)) sys)
      | _ => Some (push_message quote (set_thread i overlay (WorkerSent k) sys))
      end
  | WorkerSent k => Some (set_thread i overlay (WorkerRunning (k (negb (ws_cancelled sys)))) sys)
  | WorkerWaiting _ _ _ _ | WorkerFinished _ | WorkerPanicked => None
  end.

(** The coordinator's loop over [rx], which ends when every sender is dropped or
    the observer refuses a quote. *)
Definition coordinator_turn (sys : System) : option System :=
  match ws_coordinator sys, ws_channel sys with
  | Receiving, quote :: channel =>
      let '(keep_searching, ob) := on_quote quote (ws_observer sys) in
      Some (if keep_searching : bool then set_coordinator (ws_cancelled sys) channel Receiving ob sys
            else set_coordinator true channel Refused ob sys)
  | Receiving, [] =>
      if forallb thread_ended (ws_threads sys)
      then Some (set_coordinator (ws_cancelled sys) [] Joining (ws_observer sys) sys)
      else None
  | Refused, _ => Some (set_coordinator (ws_cancelled sys) [] Joining (ws_observer sys) sys)
  | Joining, _ => None
  end.

(** An adapter panics: the guard of [get_or_quote] gives the key up. *)
Definition worker_panics (i : nat) (sys : System) : option System :=
  t ← ws_threads sys !! i;
  match wt_phase t with
  | WorkerSimulating key _ _ _ =>
      Some (wake_all (set_cache (cache_abandon key (ws_cache sys))
              (set_thread i (wt_overlay t) WorkerPanicked sys)))
  | _ => None
  end.

Definition spurious_wakeup (i : nat) (sys : System) : option System :=
  t ← ws_threads sys !! i;
  match wt_phase t with
  | WorkerWaiting _ _ _ _ => Some (set_thread i (wt_overlay t) (wake_phase (wt_phase t)) sys)
  | _ => None
  end.

(** ** Schedules *)

Inductive Move : Type :=
  | WorkerTurn (i : nat)
  | CoordinatorTurn
  | SpuriousWakeup (i : nat)
  | AdapterPanic (i : nat).

Definition make_move (m : Move) (sys : System) : option System :=
  match m with
  | WorkerTurn i => worker_turn i sys
  | CoordinatorTurn => coordinator_turn sys
  | SpuriousWakeup i => spurious_wakeup i sys
  | AdapterPanic i => worker_panics i sys
  end.

(** Moves that are not possible do nothing. *)
Definition run_moves (moves : list Move) (sys : System) : System :=
  foldl (λ sys m, default sys (make_move m sys)) sys moves.

Definition system_ended (sys : System) : bool :=
  forallb thread_ended (ws_threads sys) &&
  match ws_coordinator sys with Joining => true | _ => false end.

Definition every_turn (threads : nat) : list Move := CoordinatorTurn :: (WorkerTurn <$> seq 0 threads).

(** After the moves of the schedule everyone goes on in turn until the end. *)
Fixpoint finish_in_turn (fuel : nat) (sys : System) : option System :=
  if system_ended sys then Some sys
  else match fuel with
       | 0 => None
       | S fuel => finish_in_turn fuel (run_moves (every_turn (length (ws_threads sys))) sys)
       end.
End system.

(** ** The whole run *)

Definition spawn_workers {O} (ctx : QuoteKeyContext) (sim_config : SimConfig) (amount_in : U256)
    (observed : bool) (overlay : AdapterCache) (chunks : list (list RoutePath))
    (cache : SharedQuoteCache) (ob : O) : WorkerSystem O :=
  {| ws_cache := cache;
     ws_threads := (λ chunk, {| wt_overlay := overlay;
       wt_phase := WorkerRunning (chunk_script ctx sim_config amount_in observed chunk) |}) <$> chunks;
     ws_cancelled := false; ws_channel := []; ws_coordinator := Receiving; ws_observer := ob |}.

(** Turns a subtree needs at most: three for a quote, three for a hop. *)
Fixpoint dag_turns (node : QuoteDagNode) : nat :=
  match node with
  | DagNode children terminals =>
      3 * length terminals +
      (fix go (children : list (Hop * QuoteDagNode)) : nat :=
         match children with
         | [] => 0
         | (_, node) :: children => 3 + dag_turns node + go children
         end) children
  end.
Definition chunk_turns (chunk : list RoutePath) : nat :=
  dag_turns (chunk_dag chunk QuoteDag_default empty_report).1 + 1.

Definition worker_fuel (chunks : list (list RoutePath)) (schedule : list Move) : nat :=
  (2 + length chunks) * sum_list_with chunk_turns chunks + length chunks + 2 + length schedule.

Definition run_threads {O} (registry : AdapterRegistry) (sim_config : SimConfig) (amount_in : U256)
    (observed : bool) (overlay : AdapterCache) (chunks : list (list RoutePath))
    (schedule : list Move) (on_quote : RouteQuote → O → bool * O) (cache : SharedQuoteCache) (ob : O) :
    option (WorkerSystem O) :=
  finish_in_turn registry sim_config on_quote (worker_fuel chunks schedule)
    (run_moves registry sim_config on_quote schedule
       (spawn_workers (qc_context cache) sim_config amount_in observed overlay chunks cache ob)).

(** The join: the reports in the order of the threads, unless one panicked. *)
Fixpoint join_workers (threads : list WorkerThread) : result SearchError (list QuotePathsReport) :=
  match threads with
  | [] => Ok []
  | t :: threads =>
      match wt_phase t with
      | WorkerFinished report => reports ← join_workers threads; Ok (report :: reports)
      | _ => Err ErrWorkerPanic
      end
  end.
End workers.
Arguments WorkerSystem {_} O.
