(* ===== verification/Ranking.v ===== *)
(** * Ranked quotes

    The ranking of a search ([rank_or_no_viable]): best output first, and what
    stays the same when the candidates arrive in another order. *)

From S2P Require Import Prelude AmmState Config SearchTypes QuoteCache Quote QuoteProps.

Section ranking.
Context `{!AmmTypes}.
Implicit Types (q : RouteQuote).

Definition better (q q' : RouteQuote) : Prop := (rq_amount_out q' <= rq_amount_out q)%Z.

Lemma ranked_sorted quotes : StronglySorted better (stable_sort (desc_by rq_amount_out) quotes).
Proof.
  eapply StronglySorted_weaken.
  - apply stable_sort_sorted; [apply desc_by_total|apply desc_by_trans].
  - intros x y. unfold desc_by, better. by rewrite bool_decide_eq_true.
Qed.

Lemma rank_Ok candidates quotes failures :
  quotes ≠ [] →
  rank_or_no_viable candidates quotes failures =
  Ok (stable_sort (desc_by rq_amount_out) quotes).
Proof.
  intros Hq. unfold rank_or_no_viable.
  destruct (stable_sort (desc_by rq_amount_out) quotes) eqn:Hs; [|done].
  destruct Hq. apply Permutation_nil_r. rewrite <- (stable_sort_perm (desc_by rq_amount_out)).
  by rewrite Hs.
Qed.

(** Two rankings of the same quotes list the same amounts. *)
Lemma sorted_perm_amounts quotes quotes' :
  StronglySorted better quotes → StronglySorted better quotes' → quotes ≡ₚ quotes' →
  rq_amount_out <$> quotes = rq_amount_out <$> quotes'.
Proof.
  intros Hs Hs' Hp.
  assert (∀ l : list RouteQuote, StronglySorted better l → StronglySorted Z.ge (rq_amount_out <$> l))
    as Hmap.
  { induction 1 as [|x l _ IH Hx]; csimpl; constructor; [done|].
    apply Forall_fmap. eapply Forall_impl; [exact Hx|]. unfold better. simpl. lia. }
  apply (StronglySorted_unique_strong Z.ge); [|by apply Hmap..|by rewrite Hp].
  intros x1 x2 _ _ ? ?. lia.
Qed.

Lemma ranked_perm_amounts quotes quotes' :
  quotes ≡ₚ quotes' →
  rq_amount_out <$> stable_sort (desc_by rq_amount_out) quotes =
  rq_amount_out <$> stable_sort (desc_by rq_amount_out) quotes'.
Proof.
  intros Hp. apply sorted_perm_amounts; [apply ranked_sorted..|]. by rewrite !stable_sort_perm.
Qed.

Lemma NoDup_omap_path {A} (f : RoutePath → option A) (path : A → RoutePath) (l : list RoutePath) :
  NoDup l → (∀ p a, f p = Some a → path a = p) → NoDup (path <$> omap f l).
Proof.
  intros Hl Hf. induction Hl as [|p l Hp Hl IH]; csimpl; [constructor|].
  destruct (f p) as [a|] eqn:Ha; csimpl; [|done]. constructor; [|done].
  rewrite (Hf p a Ha). intros (b & Hb & Hin)%list_elem_of_fmap.
  apply list_elem_of_omap in Hin as (p' & Hin & Hb').
  apply Hp. rewrite Hb. by rewrite (Hf p' b Hb').
Qed.


(** Two results of a search agree: the same error, or the same quotes in an
    order that lists the same amounts. *)
Definition agree (res res' : result SearchError (list RouteQuote)) : Prop :=
  match res, res' with
  | Ok quotes, Ok quotes' =>
      quotes ≡ₚ quotes' ∧ rq_amount_out <$> quotes = rq_amount_out <$> quotes'
  | Err (ErrNoViableRoute n failures), Err (ErrNoViableRoute n' failures') =>
      n = n' ∧ failures ≡ₚ failures'
  | Err e, Err e' => e = e'
  | _, _ => False
  end.

Lemma agree_refl res : agree res res.
Proof. destruct res as [|[]]; simpl; done. Qed.

Lemma rank_agree n quotes quotes' failures failures' :
  quotes ≡ₚ quotes' → failures ≡ₚ failures' →
  agree (rank_or_no_viable n quotes failures) (rank_or_no_viable n quotes' failures').
Proof.
  intros Hq Hf. destruct (decide (quotes = [])) as [->|Hne].
  - apply Permutation_nil_l in Hq as <-. done.
  - assert (quotes' ≠ []) by (intros ->; by apply Hne, Permutation_nil_r).
    rewrite !rank_Ok by done. simpl. split; [by rewrite !stable_sort_perm|].
    by apply ranked_perm_amounts.
Qed.

End ranking.
