(* ===== verification/Heuristic.v ===== *)
(** * Building blocks of the heuristic search ([src/search.rs])

    The heuristic search walks the token graph level by level and quotes as it
    goes.  This file models what one step needs: which connectors are worth
    visiting, which hops leave a state and in which order, the pruning rules
    (liquidity, balance cap, prefix dominance) and the static reachability
    check; [HeuristicSearch] composes them.  The liquidity index is optional, as
    in the searcher.  The code memoises token degrees and connector scores in
    a [HeuristicRunCache]; both are pure, [run_cache_ok] and its lemmas show
    that a memoised answer is the recomputed one, and the callers below
    recompute. *)

From S2P Require Import Prelude Ordering AmmState Petgraph Graph Config SearchTypes.
From S2P Require Import Enumerate Liquidity QuoteCache Quote.

(** ** Data *)

(** [usize::MAX] as an edge limit is no limit. *)
Definition take_limit {A} (limit : option nat) (l : list A) : list A :=
  match limit with Some n => take n l | None => l end.

Inductive HeuristicPassMode : Type := PassInitial | PassRefinement.

#[export] Instance HeuristicPassMode_eq_dec : EqDecision HeuristicPassMode.
Proof. solve_decision. Defined.

Definition edge_limit (m : HeuristicPassMode) (h : HeuristicSearchConfig) : option nat :=
  if negb (es_enabled (edge_shortlist h)) then None
  else match m with
       | PassInitial => Some (es_initial_edges_per_pair (edge_shortlist h))
       | PassRefinement => Some (es_refinement_edges_per_pair (edge_shortlist h))
       end.

Definition heuristic_pass_modes (h : HeuristicSearchConfig) : list HeuristicPassMode :=
  let es := edge_shortlist h in
  if es_enabled es && es_refine_parallel_edges es
     && (es_initial_edges_per_pair es <? es_refinement_edges_per_pair es)
  then [PassInitial; PassRefinement] else [PassInitial].

Inductive HeuristicRunLimit : Type := FastLaneOnly | FullRun.

#[export] Instance HeuristicRunLimit_eq_dec : EqDecision HeuristicRunLimit.
Proof. solve_decision. Defined.

Inductive UpperBoundCap : Type := CapKnown (cap : U256) | CapUnknown.

Record BranchLiquidityScore := {
  max_input_balance : option U256;
  sum_input_balance : option U256;
}.
Definition BranchLiquidityScore_default : BranchLiquidityScore :=
  {| max_input_balance := None; sum_input_balance := None |}.
Definition score_is_known (s : BranchLiquidityScore) : bool :=
  bool_decide (is_Some (max_input_balance s)).

Record ConnectorScore := {
  known_balances : nat;
  cs_degree : nat;
  log_sum : Z;
}.

Section types.
Context `{!AmmTypes}.

Record HeuristicState := {
  hs_node : NodeIndex;
  hs_path : RoutePath;
  hs_hop_quotes : list HopQuote;
  hs_amount : U256;
  hs_visited_tokens : gset Address;
  hs_used_pools : gset PoolKey;
}.

Record HeuristicHopGroup := {
  hg_next_token : Address;
  hg_hops : list Hop;
  hg_closes_target : bool;
}.

(** A group with its sort keys. *)
Record ScoredGroup := {
  sg_group : HeuristicHopGroup;
  sg_liquidity : BranchLiquidityScore;
  sg_connector : nat;
  sg_degree : nat;
}.

Record QuotedHeuristicHop := { qh_hop : Hop; qh_amount_out : U256 }.

Record LiquidityRankedHop := {
  lr_hop : Hop;
  lr_input_balance : BalanceState;
  lr_output_balance : BalanceState;
  lr_liquidity_active : bool;
  lr_rank_known : bool;
  lr_rank_score : Z;
  lr_protocol_bonus : Z;
  lr_fee_sort : Z;
}.

(** ** Prefix dominance *)

Record PrefixLabel := {
  pl_amount : U256;
  pl_visited_tokens : gset Address;
  pl_used_pools : gset PoolKey;
}.

Record PrefixDominanceIndex := { pd_labels : gmap Address (list PrefixLabel) }.
Definition PrefixDominanceIndex_default : PrefixDominanceIndex := {| pd_labels := ∅ |}.

(** [label] is at least as good: no smaller amount, nothing more blocked. *)
Definition label_dominates (label : PrefixLabel) (l : PrefixLabel) : bool :=
  bool_decide (pl_amount l <= pl_amount label)%Z
  && bool_decide (pl_visited_tokens label ⊆ pl_visited_tokens l)
  && bool_decide (pl_used_pools label ⊆ pl_used_pools l).

Definition label_strictly_dominates (label : PrefixLabel) (l : PrefixLabel) : bool :=
  label_dominates label l
  && (bool_decide (pl_amount l < pl_amount label)%Z
      || (size (pl_visited_tokens label) <? size (pl_visited_tokens l))
      || (size (pl_used_pools label) <? size (pl_used_pools l))).

Definition insert_or_dominated (token : Address) (l : PrefixLabel)
    (index : PrefixDominanceIndex) : bool * PrefixDominanceIndex :=
  let labels := default [] (pd_labels index !! token) in
  if existsb (λ label, label_dominates label l) labels
  then (true, {| pd_labels := <[token := labels]> (pd_labels index) |})
  else
    (false,
     {| pd_labels :=
          <[token := filter (λ label, label_dominates l label = false) labels ++ [l]]>
            (pd_labels index) |}).

Definition is_strictly_dominated (token : Address) (l : PrefixLabel)
    (index : PrefixDominanceIndex) : bool :=
  match pd_labels index !! token with
  | None => false
  | Some labels => existsb (λ label, label_strictly_dominates label l) labels
  end.

(** ** Counters: the fields one site records, the others at their default *)

Definition stats_fast_lane_routes (n : nat) : LiquidityPruneStats :=
  Build_LiquidityPruneStats 0 0 0 0 0 0 0 0 0 n 0 0 0 0 0 0 0.
Definition stats_fast_lane_quotes (n : nat) : LiquidityPruneStats :=
  Build_LiquidityPruneStats 0 0 0 0 0 0 0 0 0 0 n 0 0 0 0 0 0.
Definition stats_prefix_dominated (n : nat) : LiquidityPruneStats :=
  Build_LiquidityPruneStats 0 0 0 0 0 0 n 0 0 0 0 0 0 0 0 0 0.
Definition stats_pruned_edges (n : nat) : LiquidityPruneStats :=
  Build_LiquidityPruneStats 0 n 0 0 0 0 0 0 0 0 0 0 0 0 0 0 0.
Definition stats_upper_bound_pruned (n : nat) : LiquidityPruneStats :=
  Build_LiquidityPruneStats 0 0 0 0 0 0 0 0 0 0 0 0 0 0 0 n 0.
Definition stats_upper_bound_unknown (n : nat) : LiquidityPruneStats :=
  Build_LiquidityPruneStats 0 0 0 0 0 0 0 0 0 0 0 0 0 0 0 0 n.
Definition stats_shortlist (initial refinement deferred : nat) : LiquidityPruneStats :=
  Build_LiquidityPruneStats 0 0 0 0 0 0 0 0 0 0 0 initial refinement deferred 0 0 0.
Definition stats_ranking (ordered stale reads protocol : nat) : LiquidityPruneStats :=
  Build_LiquidityPruneStats ordered 0 stale reads 0 0 0 0 0 0 0 0 0 0 protocol 0 0.
Definition stats_branch (stale reads first ranked unknown : nat) : LiquidityPruneStats :=
  Build_LiquidityPruneStats 0 0 stale reads 0 first 0 ranked unknown 0 0 0 0 0 0 0 0.
End types.

Section heuristic.
Context `{!AmmTypes} `{!Petgraph Address EdgeData}.
Context (registry : AdapterRegistry) (g : AmmGraph)
  (liquidity_index : option PoolLiquidityIndex).

(** ** Connectors *)

Definition token_degree (node : NodeIndex) : nat :=
  length (pg_incoming (graph g) node) + length (pg_outgoing (graph g) node).

(** Descending degree, then ascending token. *)
Definition degree_cmp (left right : nat * Address) : comparison :=
  then_with (Nat.compare right.1 left.1) (Z.compare left.2 right.2).

Definition connector_candidate (token_in token_out : Address) (h : HeuristicSearchConfig)
    (node : NodeIndex) : option (nat * Address) :=
  token ← node_token g node;
  if decide (token = token_in ∨ token = token_out) then None
  else
    let degree := token_degree node in
    if min_auto_connector_degree h <=? degree then Some (degree, token) else None.

Definition auto_connector_tokens (token_in token_out : Address) (h : HeuristicSearchConfig) :
    gset Address :=
  if max_auto_connectors h =? 0 then ∅
  else
    let ranked := omap (connector_candidate token_in token_out h) (pg_node_indices (graph g)) in
    list_to_set (snd <$> take (max_auto_connectors h)
                           (stable_sort (not_greater degree_cmp) ranked)).

Definition connector_tokens_for_heuristic (token_in token_out : Address)
    (config : SearchConfig) (h : HeuristicSearchConfig) : option (gset Address) :=
  match connector_tokens config with
  | Some tokens => Some tokens
  | None => Some (auto_connector_tokens token_in token_out h)
  end.

(** The loop over the pools at the token, each counted once. *)
Definition score_pool (index : PoolLiquidityIndex) (token : Address)
    (acc : gset PoolKey * ConnectorScore) (pool : PoolKey) : gset PoolKey * ConnectorScore :=
  let '(seen, score) := acc in
  if decide (pool ∈ (seen : gset PoolKey)) then (seen, score)
  else
    ({[pool]} ∪ seen,
     match fresh_of (balance_state index pool token) with
     | Some balance =>
         {| known_balances := S (known_balances score); cs_degree := cs_degree score;
            log_sum := log_sum score + u256_log2 balance |}
     | None => score
     end).

Definition connector_liquidity_score (token : Address) : ConnectorScore :=
  match node_index g token with
  | None => {| known_balances := 0; cs_degree := 0; log_sum := 0 |}
  | Some node =>
      let score := {| known_balances := 0; cs_degree := token_degree node; log_sum := 0 |} in
      match liquidity_index with
      | None => score
      | Some index =>
          let pools := omap (λ e, (λ '(_, _, w), ed_pool w) <$> pg_edge (graph g) e)
            (pg_incoming (graph g) node ++ pg_outgoing (graph g) node) in
          (foldl (score_pool index token) (∅, score) pools).2
      end
  end.

(** The key of [sort_by_cached_key], component by component. *)
Definition connector_cmp (left right : Address) : comparison :=
  let sl := connector_liquidity_score left in
  let sr := connector_liquidity_score right in
  then_with (Nat.compare (known_balances sr) (known_balances sl)) $
  then_with (Nat.compare (cs_degree sr) (cs_degree sl)) $
  then_with (Z.compare (log_sum sr) (log_sum sl)) (Z.compare left right).

Definition ranked_central_connectors (token_in token_out : Address)
    (connectors : option (gset Address)) : list Address :=
  let candidates :=
    elements (default (auto_connector_tokens token_in token_out HeuristicSearchConfig_default)
                connectors) in
  let candidates := filter (λ token, token ≠ token_in ∧ token ≠ token_out) candidates in
  dedup (stable_sort (not_greater connector_cmp) candidates).

(** ** [HeuristicRunCache]: the memo tables *)

Record HeuristicRunCache := {
  token_degrees : gmap NodeIndex nat;
  connector_scores : gmap Address ConnectorScore;
}.
Definition HeuristicRunCache_default : HeuristicRunCache :=
  {| token_degrees := ∅; connector_scores := ∅ |}.

Definition token_degree_cached (node : NodeIndex) (rc : HeuristicRunCache) :
    nat * HeuristicRunCache :=
  match token_degrees rc !! node with
  | Some degree => (degree, rc)
  | None =>
      (token_degree node,
       {| token_degrees := <[node := token_degree node]> (token_degrees rc);
          connector_scores := connector_scores rc |})
  end.

(** Computing a score asks for the token's degree, through the memo. *)
Definition connector_liquidity_score_cached (token : Address) (rc : HeuristicRunCache) :
    ConnectorScore * HeuristicRunCache :=
  match connector_scores rc !! token with
  | Some score => (score, rc)
  | None =>
      let rc := match node_index g token with
                | Some node => (token_degree_cached node rc).2
                | None => rc
                end in
      (connector_liquidity_score token,
       {| token_degrees := token_degrees rc;
          connector_scores := <[token := connector_liquidity_score token]> (connector_scores rc) |})
  end.

(** ** Ranking the hops of one token pair *)

Definition fee_sort (pool : PoolKey) : Z :=
  match registry_pool registry pool with Some r => pool_fee_sort r | None => u64_max end.

Definition u16_saturating_add (x y : Z) : Z := Z.min (x + y) u16_max.
Definition u16_saturating_mul (x y : Z) : Z := Z.min (x * y) u16_max.

Definition hop_balance (active : bool) (pool : PoolKey) (token : Address) : BalanceState :=
  match liquidity_index with
  | Some index => if active then balance_state index pool token else BalanceUnknown
  | None => BalanceUnknown
  end.

Definition rank_hop (active protocol_ordering : bool) (hop : Hop) : LiquidityRankedHop :=
  let input_balance := hop_balance active (hop_pool hop) (hop_token_in hop) in
  let output_balance := hop_balance active (hop_pool hop) (hop_token_out hop) in
  let bonus := protocol_bonus (pool_protocol (hop_pool hop)) in
  let liquidity_bucket :=
    match fresh_of input_balance, fresh_of output_balance with
    | Some input, Some output => u256_log2 (Z.min input output)
    | _, _ => 0
    end%Z in
  {| lr_hop := hop; lr_input_balance := input_balance; lr_output_balance := output_balance;
     lr_liquidity_active := active;
     lr_rank_known := bool_decide (is_Some (fresh_of input_balance))
                      && bool_decide (is_Some (fresh_of output_balance));
     lr_rank_score := u16_saturating_add (u16_saturating_mul liquidity_bucket 100)
                        (if protocol_ordering then bonus else 0);
     lr_protocol_bonus := bonus;
     lr_fee_sort := fee_sort (hop_pool hop) |}.

(** Protocol, fee, key: the order of the hops whose balances say nothing. *)
Definition unranked_cmp (left right : LiquidityRankedHop) : comparison :=
  then_with (Z.compare (lr_protocol_bonus right) (lr_protocol_bonus left)) $
  then_with (Z.compare (lr_fee_sort left) (lr_fee_sort right))
    (String.compare (hop_sort_key (lr_hop left)) (hop_sort_key (lr_hop right))).

Definition liquidity_cmp (left right : LiquidityRankedHop) : comparison :=
  then_with (Z.compare (lr_rank_score right) (lr_rank_score left)) $
  then_with (option_cmp Z.compare (fresh_of (lr_output_balance right))
               (fresh_of (lr_output_balance left))) $
  then_with (option_cmp Z.compare (fresh_of (lr_input_balance right))
               (fresh_of (lr_input_balance left))) $
  then_with (Z.compare (lr_fee_sort left) (lr_fee_sort right))
    (String.compare (hop_sort_key (lr_hop left)) (hop_sort_key (lr_hop right))).

Definition ranked_hop_cmp (left right : LiquidityRankedHop) : comparison :=
  match lr_rank_known left, lr_rank_known right with
  | true, false => Lt
  | false, true => Gt
  | true, true => then_with (liquidity_cmp left right) (unranked_cmp left right)
  | false, false => unranked_cmp left right
  end.

(** The pass mode is not looked at. *)
Definition liquidity_ranked_hops (hops : list Hop) (es : AdaptiveEdgeShortlistConfig)
    (config : LiquidityPruningConfig) (pass_mode : HeuristicPassMode)
    (quote_cache : SharedQuoteCache) : list LiquidityRankedHop * SharedQuoteCache :=
  let active := lp_enabled config && bool_decide (is_Some liquidity_index)
                && (2 <=? length hops) in
  let protocol_ordering := es_protocol_ordering es && (2 <=? length hops) in
  let ranked := rank_hop active protocol_ordering <$> hops in
  let stale := length (filter (λ r, active && negb (lr_rank_known r) = true) ranked) in
  let stats := stats_ranking
    (if active && lp_order_by_output_balance config then 1 else 0) stale
    (if active then length hops * 2 else 0)
    (if protocol_ordering then length hops else 0) in
  let ranked :=
    if protocol_ordering || (active && lp_order_by_output_balance config)
    then stable_sort (not_greater ranked_hop_cmp) ranked else ranked in
  (ranked, record_liquidity_prune_stats stats quote_cache).

Definition shortlisted_ranked_hops (ranked_hops : list LiquidityRankedHop)
    (h : HeuristicSearchConfig) (pass_mode : HeuristicPassMode)
    (quote_cache : SharedQuoteCache) : list LiquidityRankedHop * SharedQuoteCache :=
  if negb (es_enabled (edge_shortlist h)) || (length ranked_hops <=? 1)
  then (ranked_hops, quote_cache)
  else
    let limit := edge_limit pass_mode h in
    let considered := length (take_limit limit ranked_hops) in
    let deferred := length ranked_hops - considered in
    let stats := match pass_mode with
                 | PassInitial => stats_shortlist considered 0 deferred
                 | PassRefinement => stats_shortlist 0 considered 0
                 end in
    (take_limit limit ranked_hops, record_liquidity_prune_stats stats quote_cache).

(** ** Pruning a hop by the balance of its output token *)

Definition should_prune_liquidity_hop (ranked : LiquidityRankedHop)
    (best_quoted_output : option U256) (config : LiquidityPruningConfig)
    (closes_target : bool) (quote_cache : SharedQuoteCache) : bool * SharedQuoteCache :=
  if negb (lr_liquidity_active ranked) || negb (lp_enabled config)
     || negb (lp_prune_balance_dominated config) then (false, quote_cache)
  else
    match best_quoted_output with
    | None => (false, quote_cache)
    | Some best_quoted_output =>
        match fresh_of (lr_output_balance ranked) with
        | None => (false, quote_cache)
        | Some balance =>
            let can_apply_hard_prune :=
              closes_target ||
              match liquidity_index with
              | Some index => is_two_token_pool index (hop_pool (lr_hop ranked))
              | None => false
              end in
            if negb can_apply_hard_prune || (best_quoted_output <? balance)%Z
            then (false, quote_cache)
            else (true, record_liquidity_prune_stats (stats_pruned_edges 1) quote_cache)
        end
    end.

(** ** The balance cap: what the pools into the target hold *)

(** One outgoing edge; [None] is the early return of [Unknown]. *)
Fixpoint cap_edges (index : PoolLiquidityIndex) (target : NodeIndex) (target_token : Address)
    (max_hops next_depth : nat) (edges : list CachedOutgoingEdge)
    (cap : option U256) (queue : list (NodeIndex * nat)) :
    option (option U256 * list (NodeIndex * nat)) :=
  match edges with
  | [] => Some (cap, queue)
  | edge :: edges =>
      let continue := cap_edges index target target_token max_hops next_depth edges in
      if max_hops <? next_depth then continue cap queue
      else if decide (ce_target edge = target) then
        match fresh_of (balance_state index (ce_pool edge) target_token) with
        | Some balance =>
            continue (Some (match cap with Some current => Z.max current balance
                                         | None => balance end)) queue
        | None => None
        end
      else if next_depth <? max_hops then continue cap (queue ++ [(ce_target edge, next_depth)])
      else continue cap queue
  end.

(** [while let Some((node, depth)) = queue.pop_front()]; [None] is out of fuel. *)
Fixpoint cap_loop (index : PoolLiquidityIndex) (target : NodeIndex) (target_token : Address)
    (max_hops : nat) (fuel : nat) (queue : list (NodeIndex * nat))
    (seen : gset (NodeIndex * nat)) (cap : option U256) : option UpperBoundCap :=
  match queue with
  | [] => Some (match cap with Some cap => CapKnown cap | None => CapUnknown end)
  | (node, depth) :: queue =>
      match fuel with
      | 0 => None
      | S fuel =>
          if (max_hops <=? depth) || bool_decide ((node, depth) ∈ (seen : gset (NodeIndex * nat)))
          then cap_loop index target target_token max_hops fuel queue seen cap
          else
            match cap_edges index target target_token max_hops (S depth)
                    (outgoing_edges g node) cap queue with
            | None => Some CapUnknown
            | Some (cap, queue) =>
                cap_loop index target target_token max_hops fuel queue
                  ({[(node, depth)]} ∪ seen) cap
            end
      end
  end.

Definition target_balance_cap (start target : NodeIndex) (target_token : Address)
    (max_hops : nat) : option UpperBoundCap :=
  match liquidity_index with
  | None => Some CapUnknown
  | Some index =>
      if max_hops =? 0 then Some CapUnknown
      else cap_loop index target target_token max_hops
             (search_weight (max_out_degree g) max_hops) [(start, 0)] ∅ None
  end.

(** ** The search between two tokens *)

Section endpoints.
Context (token_in token_out : Address) (source target : NodeIndex)
  (connectors : option (gset Address)) (allow_final_source_revisit : bool).

Definition closes_source_cycle (next_node : NodeIndex) : bool :=
  allow_final_source_revisit && bool_decide (source = target) && bool_decide (next_node = source).

(** The two guards every edge passes after the used-pool test. *)
Definition edge_allowed (visited_tokens : gset Address) (edge : CachedOutgoingEdge) : bool :=
  negb (bool_decide (ce_token_out edge ∈ (visited_tokens : gset Address))
        && negb (closes_source_cycle (ce_target edge)))
  && (bool_decide (ce_target edge = target)
      || connector_allowed_with_tokens (ce_token_out edge) token_in token_out connectors).

(** [should_prune_upper_bound_prefix]. *)
Definition should_prune_upper_bound_prefix (state : HeuristicState) (max_hops : nat)
    (incumbent_amount : option U256) (config : UpperBoundPruningConfig)
    (quote_cache : SharedQuoteCache) : option (bool * SharedQuoteCache) :=
  match incumbent_amount with
  | None => Some (false, quote_cache)
  | Some incumbent_amount =>
      if allow_final_source_revisit || negb (ub_enabled config)
         || negb (ub_balance_cap_pruning config)
         || bool_decide (hs_node state = target) || (max_hops <=? length (hs_path state))
      then Some (false, quote_cache)
      else
        cap ← target_balance_cap (hs_node state) target token_out
                (max_hops - length (hs_path state));
        Some (match cap with
              | CapKnown cap =>
                  if (cap <=? incumbent_amount)%Z
                  then (true, record_liquidity_prune_stats (stats_upper_bound_pruned 1) quote_cache)
                  else (false, quote_cache)
              | CapUnknown =>
                  if ub_fail_open_on_unknown config
                  then (false, record_liquidity_prune_stats (stats_upper_bound_unknown 1) quote_cache)
                  else (false, quote_cache)
              end)
  end.

(** [future_blocked_pools]: the used pools that still matter at the node. *)
Definition future_blocked_pools (node : NodeIndex) (visited_tokens : gset Address)
    (used_pools : gset PoolKey) : gset PoolKey :=
  foldl (λ (blocked : gset PoolKey) edge,
    if negb (bool_decide (ce_pool edge ∈ (used_pools : gset PoolKey))) then blocked
    else if edge_allowed visited_tokens edge then {[ce_pool edge]} ∪ blocked
    else blocked) ∅ (outgoing_edges g node).

(** ** Reachability: is there any way on to the target? *)

(** [has_static_route_to_target_dfs]; what the code inserts before the
    recursive call it removes after it, so the sets go down by value. *)
Fixpoint has_static_route_dfs (remaining_hops : nat) (node : NodeIndex)
    (visited_tokens : gset Address) (used_pools : gset PoolKey) : bool :=
  existsb (λ edge,
    if bool_decide (ce_pool edge ∈ (used_pools : gset PoolKey)) then false
    else if negb (edge_allowed visited_tokens edge) then false
    else if bool_decide (ce_target edge = target) then true
    else match remaining_hops with
         | S (S _ as remaining_hops) =>
             has_static_route_dfs remaining_hops (ce_target edge)
               ({[ce_token_out edge]} ∪ visited_tokens) ({[ce_pool edge]} ∪ used_pools)
         | _ => false
         end) (outgoing_edges g node).

Definition has_static_route_to_target (start : NodeIndex) (visited_tokens : gset Address)
    (used_pools : gset PoolKey) (max_hops : nat) : bool :=
  if decide (start = target) then true
  else if max_hops =? 0 then false
  else has_static_route_dfs max_hops start visited_tokens used_pools.

(** ** The hop groups that leave a state *)

(** [branch_liquidity_score]: the loop over the hops of one group. *)
Fixpoint branch_balances (index : PoolLiquidityIndex) (hops : list Hop)
    (score : BranchLiquidityScore) (skipped : nat) : BranchLiquidityScore * nat :=
  match hops with
  | [] => (score, skipped)
  | hop :: hops =>
      match fresh_of (balance_state index (hop_pool hop) (hop_token_in hop)) with
      | Some balance =>
          branch_balances index hops
            {| max_input_balance :=
                 Some (match max_input_balance score with
                       | Some m => Z.max m balance | None => balance end);
               sum_input_balance :=
                 Some (u256_add (default 0%Z (sum_input_balance score)) balance) |} skipped
      | None => branch_balances index hops score (S skipped)
      end
  end.

Definition branch_liquidity_score (hops : list Hop) (closes_target : bool)
    (config : LiquidityPruningConfig) : BranchLiquidityScore * LiquidityPruneStats :=
  if closes_target || negb (lp_enabled config) || negb (lp_rank_branches_by_liquidity config)
  then (BranchLiquidityScore_default, LiquidityPruneStats_default)
  else
    match liquidity_index with
    | None => (BranchLiquidityScore_default, LiquidityPruneStats_default)
    | Some index =>
        let '(score, skipped) := branch_balances index hops BranchLiquidityScore_default 0 in
        (score, stats_branch skipped (length hops) 0
                  (if score_is_known score then 1 else 0)
                  (if score_is_known score then 0 else 1))
    end.

(** The comparator of [sorted_heuristic_hop_groups]. *)
Definition group_cmp (h : HeuristicSearchConfig) (config : LiquidityPruningConfig)
    (left right : ScoredGroup) : comparison :=
  let left_closes := hg_closes_target (sg_group left) in
  let right_closes := hg_closes_target (sg_group right) in
  let ll := sg_liquidity left in
  let rl := sg_liquidity right in
  let rest :=
    then_with (Nat.compare (sg_connector right) (sg_connector left)) $
    then_with (Nat.compare (sg_degree right) (sg_degree left))
      (Z.compare (hg_next_token (sg_group left)) (hg_next_token (sg_group right))) in
  if target_first h && negb (bool_decide (left_closes = right_closes))
  then bool_cmp right_closes left_closes
  else if lp_enabled config && lp_rank_branches_by_liquidity config
          && negb left_closes && negb right_closes
  then match score_is_known ll, score_is_known rl with
       | true, true =>
           then_with (option_cmp Z.compare (max_input_balance rl) (max_input_balance ll)) $
           then_with (option_cmp Z.compare (sum_input_balance rl) (sum_input_balance ll)) rest
       | true, false => Lt
       | false, true => Gt
       | false, false => rest
       end
  else rest.

(** One entry of the map with its keys and the counters it adds. *)
Definition score_group (h : HeuristicSearchConfig) (config : LiquidityPruningConfig)
    (entry : Address * list Hop) : ScoredGroup * LiquidityPruneStats :=
  let '(next_token, hops) := entry in
  let closes_target := bool_decide (node_index g next_token = Some target) in
  let first := stats_branch 0 0 (if closes_target && target_first h then 1 else 0) 0 0 in
  let '(score, stats) := branch_liquidity_score hops closes_target config in
  ({| sg_group := {| hg_next_token := next_token; hg_hops := hops;
                     hg_closes_target := closes_target |};
      sg_liquidity := score;
      sg_connector := match connectors with
                      | Some tokens => if decide (next_token ∈ (tokens : gset Address)) then 1 else 0
                      | None => 0
                      end;
      sg_degree := match node_index g next_token with
                   | Some node => token_degree node | None => 0 end |},
   LiquidityPruneStats_merge first stats).

(** [grouped] is the map in its iteration order. *)
Definition sorted_heuristic_hop_groups (grouped : list (Address * list Hop))
    (h : HeuristicSearchConfig) (config : LiquidityPruningConfig)
    (quote_cache : SharedQuoteCache) : option (list HeuristicHopGroup * SharedQuoteCache) :=
  let scored : list (ScoredGroup * LiquidityPruneStats) := score_group h config <$> grouped in
  let stats :=
    foldl (λ stats s, LiquidityPruneStats_merge stats s.2) LiquidityPruneStats_default scored in
  match sort_by (group_cmp h config) (fst <$> scored) with
  | None => None
  | Some groups => Some (sg_group <$> groups, record_liquidity_prune_stats stats quote_cache)
  end.

(** What the loop of [group_heuristic_hops] keeps of an edge. *)
Definition expandable (state : HeuristicState) (max_hops : nat) (edge : CachedOutgoingEdge) : bool :=
  let remaining_after_hop := max_hops - (length (hs_path state) + 1) in
  if bool_decide (ce_pool edge ∈ hs_used_pools state) then false
  else if negb (edge_allowed (hs_visited_tokens state) edge) then false
  else if bool_decide (ce_target edge = target) then true
  else if remaining_after_hop =? 0 then false
  else has_static_route_to_target (ce_target edge)
         ({[ce_token_out edge]} ∪ hs_visited_tokens state)
         ({[ce_pool edge]} ∪ hs_used_pools state) remaining_after_hop.

Definition edge_hop (edge : CachedOutgoingEdge) : Hop :=
  {| hop_pool := ce_pool edge; hop_token_in := ce_token_in edge;
     hop_token_out := ce_token_out edge |}.

Definition group_edges (state : HeuristicState) (max_hops : nat) : gmap Address (list Hop) :=
  foldl (λ grouped edge,
    if expandable state max_hops edge
    then entry_or_default [] (λ hops, hops ++ [edge_hop edge]) (ce_token_out edge) grouped
    else grouped) ∅ (outgoing_edges g (hs_node state)).

Definition group_heuristic_hops (state : HeuristicState) (max_hops : nat)
    (h : HeuristicSearchConfig) (config : LiquidityPruningConfig)
    (quote_cache : SharedQuoteCache) : option (list HeuristicHopGroup * SharedQuoteCache) :=
  sorted_heuristic_hop_groups (map_to_list (group_edges state max_hops)) h config quote_cache.

(** ** The fast lane: direct and two-hop routes through central connectors *)

Definition ranked_hops_between (from to : Address) (es : AdaptiveEdgeShortlistConfig)
    (config : LiquidityPruningConfig) (pass_mode : HeuristicPassMode)
    (quote_cache : SharedQuoteCache) : list LiquidityRankedHop * SharedQuoteCache :=
  match node_index g from with
  | None => ([], quote_cache)
  | Some node =>
      liquidity_ranked_hops
        (edge_hop <$> filter (λ edge, ce_token_out edge = to) (outgoing_edges g node))
        es config pass_mode quote_cache
  end.

(** [if seen.insert(path.clone()) { paths.push(path) }]. *)
Definition push_unseen (acc : list RoutePath * gset RoutePath) (path : RoutePath) :
    list RoutePath * gset RoutePath :=
  let '(paths, seen) := acc in
  if decide (path ∈ (seen : gset RoutePath)) then acc else (paths ++ [path], {[path]} ∪ seen).

Definition direct_paths (ranked : list LiquidityRankedHop) : list RoutePath :=
  (λ r, [lr_hop r]) <$> ranked.

Definition connector_paths (first_hops second_hops : list LiquidityRankedHop) : list RoutePath :=
  first_hops ≫= λ first, omap (λ second,
    if decide (hop_pool (lr_hop first) = hop_pool (lr_hop second)) then None
    else Some [lr_hop first; lr_hop second]) second_hops.

(** The loop over the connectors. *)
Fixpoint fast_lane_connectors (connector_list : list Address) (h : HeuristicSearchConfig)
    (config : SearchConfig) (acc : list RoutePath * gset RoutePath)
    (quote_cache : SharedQuoteCache) : list RoutePath * gset RoutePath * SharedQuoteCache :=
  match connector_list with
  | [] => (acc, quote_cache)
  | connector :: connector_list =>
      let n := fl_connector_edges_per_pair (fast_lane h) in
      let '(first_hops, quote_cache) :=
        ranked_hops_between token_in connector (edge_shortlist h) (liquidity_pruning config)
          PassInitial quote_cache in
      let '(second_hops, quote_cache) :=
        ranked_hops_between connector token_out (edge_shortlist h) (liquidity_pruning config)
          PassInitial quote_cache in
      fast_lane_connectors connector_list h config
        (foldl push_unseen acc (connector_paths (take n first_hops) (take n second_hops)))
        quote_cache
  end.

Definition fast_lane_paths (config : SearchConfig) (h : HeuristicSearchConfig)
    (quote_cache : SharedQuoteCache) : list RoutePath * SharedQuoteCache :=
  if max_hops config =? 0 then ([], quote_cache)
  else
    let '(acc, quote_cache) :=
      if fl_evaluate_direct_best_first (fast_lane h) && (min_hops config <=? 1) then
        let '(ranked, quote_cache) :=
          ranked_hops_between token_in token_out (edge_shortlist h) (liquidity_pruning config)
            PassInitial quote_cache in
        (foldl push_unseen ([], ∅)
           (direct_paths (take (fl_direct_edges_per_pair (fast_lane h)) ranked)), quote_cache)
      else (([], ∅), quote_cache) in
    let '(acc, quote_cache) :=
      if (2 <=? max_hops config) && (min_hops config <=? 2) then
        fast_lane_connectors
          (take (fl_max_connectors (fast_lane h))
             (ranked_central_connectors token_in token_out connectors))
          h config acc quote_cache
      else (acc, quote_cache) in
    (acc.1, quote_cache).
End endpoints.
End heuristic.
