(* ===== verification/HeuristicSearch.v ===== *)
(** * The heuristic search ([find_routes_heuristic_with_cache_observed])

    A fast lane of direct and two-hop routes, then one or two passes over the
    graph, level by level: every state of the frontier is pruned or expanded,
    the hops of each group are ranked, shortlisted, quoted through the quote
    cache and the best of them kept.  The local variables of the function are
    the record [Run]; loops that a [break 'search] leaves return a flag.  The
    outer [option] is [None] when a hop quote is in flight, a group comparator
    is no order, a hop's token is not indexed ([expect]) or fuel runs out. *)

From S2P Require Import Prelude Ordering AmmState Petgraph Graph Config SearchTypes.
From S2P Require Import Enumerate Liquidity QuoteCache Quote Heuristic.

Section report.
Context `{!AmmTypes}.

Record HeuristicRoutesReport := {
  hr_quotes : list RouteQuote;
  hr_stopped : bool;
  hr_failed_candidates : nat;
}.

(** [incumbent.map_or(amount, |best| best.max(amount))]. *)
Definition best_of (incumbent : option U256) (amount : U256) : option U256 :=
  Some (match incumbent with Some best => Z.max best amount | None => amount end).

(** The local variables of the search that outlive a state. *)
Record Run (S : Type) := {
  run_cache : AdapterCache;
  run_quote_cache : SharedQuoteCache;
  run_captured : S;
  run_quotes : list RouteQuote;
  run_failures : list PathFailure;
  run_stopped : bool;
  run_evaluated : gset RoutePath;
  run_incumbent : option U256;
  run_dominance : PrefixDominanceIndex;
  run_deferred : bool;
}.
Arguments Build_Run {S}.
Arguments run_cache {S}.
Arguments run_quote_cache {S}.
Arguments run_captured {S}.
Arguments run_quotes {S}.
Arguments run_failures {S}.
Arguments run_stopped {S}.
Arguments run_evaluated {S}.
Arguments run_incumbent {S}.
Arguments run_dominance {S}.
Arguments run_deferred {S}.

Section setters.
Context {S : Type}.
Implicit Types (r : Run S).

Definition set_run_caches (qc : SharedQuoteCache) (c : AdapterCache) r : Run S :=
  Build_Run c qc (run_captured r) (run_quotes r) (run_failures r) (run_stopped r)
    (run_evaluated r) (run_incumbent r) (run_dominance r) (run_deferred r).
Definition set_run_quote_cache (qc : SharedQuoteCache) r : Run S :=
  set_run_caches qc (run_cache r) r.
Definition record_stats (s : LiquidityPruneStats) r : Run S :=
  set_run_quote_cache (record_liquidity_prune_stats s (run_quote_cache r)) r.
Definition add_failure (f : PathFailure) r : Run S :=
  Build_Run (run_cache r) (run_quote_cache r) (run_captured r) (run_quotes r)
    (run_failures r ++ [f]) (run_stopped r) (run_evaluated r) (run_incumbent r)
    (run_dominance r) (run_deferred r).
Definition set_dominance (d : PrefixDominanceIndex) r : Run S :=
  Build_Run (run_cache r) (run_quote_cache r) (run_captured r) (run_quotes r)
    (run_failures r) (run_stopped r) (run_evaluated r) (run_incumbent r) d (run_deferred r).
Definition set_deferred (b : bool) r : Run S :=
  Build_Run (run_cache r) (run_quote_cache r) (run_captured r) (run_quotes r)
    (run_failures r) (run_stopped r) (run_evaluated r) (run_incumbent r) (run_dominance r) b.
Definition set_stopped (b : bool) r : Run S :=
  Build_Run (run_cache r) (run_quote_cache r) (run_captured r) (run_quotes r)
    (run_failures r) b (run_evaluated r) (run_incumbent r) (run_dominance r) (run_deferred r).
(** A new quote: the incumbent, the evaluated paths, the quotes. *)
Definition add_quote (q : RouteQuote) (captured : S) r : Run S :=
  Build_Run (run_cache r) (run_quote_cache r) captured (run_quotes r ++ [q])
    (run_failures r) (run_stopped r) ({[rq_path q]} ∪ run_evaluated r)
    (best_of (run_incumbent r) (rq_amount_out q)) (run_dominance r) (run_deferred r).
End setters.

(** [apply_beam_width]. *)
Definition state_cmp (left right : HeuristicState) : comparison :=
  then_with (Z.compare (hs_amount right) (hs_amount left))
    (String.compare (route_path_sort_key (hs_path left)) (route_path_sort_key (hs_path right))).

Definition apply_beam_width (frontier : list HeuristicState) (beam_width : option nat)
    (sort_without_truncation : bool) : list HeuristicState :=
  let too_wide := match beam_width with Some w => w <? length frontier | None => false end in
  let frontier :=
    if sort_without_truncation || too_wide then stable_sort (not_greater state_cmp) frontier
    else frontier in
  match beam_width with Some w => take w frontier | None => frontier end.
End report.
Arguments Build_Run {_ S}.
Arguments run_cache {_ S}.
Arguments run_quote_cache {_ S}.
Arguments run_captured {_ S}.
Arguments run_quotes {_ S}.
Arguments run_failures {_ S}.
Arguments run_stopped {_ S}.
Arguments run_evaluated {_ S}.
Arguments run_incumbent {_ S}.
Arguments run_dominance {_ S}.
Arguments run_deferred {_ S}.

Section search.
Context `{!AmmTypes} `{!Petgraph Address EdgeData} {S : Type}.
Context (registry : AdapterRegistry) (g : AmmGraph)
  (liquidity_index : option PoolLiquidityIndex).
Context (token_in token_out : Address) (source target : NodeIndex) (amount_in : U256)
  (config : SearchConfig) (h : HeuristicSearchConfig) (sim_config : SimConfig)
  (connectors : option (gset Address)) (allow_final_source_revisit : bool)
  (on_quote : option (RouteQuote → S → bool * S)).
Implicit Types (r : Run S).

Definition blocked_pools (node : NodeIndex) (visited_tokens : gset Address)
    (used_pools : gset PoolKey) : gset PoolKey :=
  future_blocked_pools g token_in token_out source target connectors
    allow_final_source_revisit node visited_tokens used_pools.

Definition state_label (state : HeuristicState) : PrefixLabel :=
  {| pl_amount := hs_amount state; pl_visited_tokens := hs_visited_tokens state;
     pl_used_pools :=
       blocked_pools (hs_node state) (hs_visited_tokens state) (hs_used_pools state) |}.

(** ** One group of hops *)

(** The loop that quotes the shortlisted hops. *)
Fixpoint quote_group (state : HeuristicState) (closes_target : bool)
    (ranked : list LiquidityRankedHop) (best : option U256)
    (quoted : list QuotedHeuristicHop) r : option (list QuotedHeuristicHop * Run S) :=
  match ranked with
  | [] => Some (quoted, r)
  | ranked_hop :: ranked =>
      let '(prune, qc) := should_prune_liquidity_hop liquidity_index ranked_hop best
        (liquidity_pruning config) closes_target (run_quote_cache r) in
      let r := set_run_quote_cache qc r in
      if prune then quote_group state closes_target ranked best quoted r
      else
        let hop := lr_hop ranked_hop in
        match quote_hop_with_cache registry hop (hs_amount state) sim_config
                (run_quote_cache r) (run_cache r) with
        | None => None
        | Some (Ok amount_out, qc, c) =>
            quote_group state closes_target ranked (best_of best amount_out)
              (quoted ++ [{| qh_hop := hop; qh_amount_out := amount_out |}])
              (set_run_caches qc c r)
        | Some (Err reason, qc, c) =>
            quote_group state closes_target ranked best quoted
              (add_failure {| pf_path := path_push (hs_path state) hop; pf_reason := reason |}
                 (set_run_caches qc c r))
        end
  end.

(** Sort the quoted hops and keep the best. *)
Definition retain_limit (pass_mode : HeuristicPassMode) : option nat :=
  if es_enabled (edge_shortlist h) then edge_limit pass_mode h
  else Some (parallel_edge_limit h).

Definition retained (pass_mode : HeuristicPassMode) (quoted : list QuotedHeuristicHop) :
    list QuotedHeuristicHop :=
  take_limit (retain_limit pass_mode) (stable_sort (desc_by qh_amount_out) quoted).

Definition next_path (state : HeuristicState) (quoted : QuotedHeuristicHop) : RoutePath :=
  path_push (hs_path state) (qh_hop quoted).
Definition next_hop_quotes (state : HeuristicState) (quoted : QuotedHeuristicHop) :
    list HopQuote :=
  hs_hop_quotes state ++
    [{| hq_hop := qh_hop quoted; hq_amount_in := hs_amount state;
        hq_amount_out := qh_amount_out quoted |}].

Definition next_state (state : HeuristicState) (next_node : NodeIndex)
    (quoted : QuotedHeuristicHop) : HeuristicState :=
  {| hs_node := next_node; hs_path := next_path state quoted;
     hs_hop_quotes := next_hop_quotes state quoted; hs_amount := qh_amount_out quoted;
     hs_visited_tokens := {[hop_token_out (qh_hop quoted)]} ∪ hs_visited_tokens state;
     hs_used_pools := {[hop_pool (qh_hop quoted)]} ∪ hs_used_pools state |}.

(** A hop into the target; the flag is [break 'search]. *)
Definition complete_route (state : HeuristicState) (quoted : QuotedHeuristicHop) r :
    Run S * bool :=
  let path := next_path state quoted in
  if length path <? min_hops config then (r, false)
  else if decide (path ∈ run_evaluated r) then (r, false)
  else
    let quote := {| rq_path := path; rq_amount_in := amount_in;
                    rq_amount_out := qh_amount_out quoted;
                    rq_hops := next_hop_quotes state quoted |} in
    let '(keep_searching, captured) := observe on_quote quote (run_captured r) in
    let r := add_quote quote captured r in
    if negb keep_searching then (set_stopped true r, true)
    else (r, max_candidates_reached (length (run_quotes r)) config).

(** A hop elsewhere: a state of the next frontier unless it is dominated. *)
Definition extend_route (state : HeuristicState) (next_node : NodeIndex)
    (quoted : QuotedHeuristicHop) (next : list HeuristicState) r :
    list HeuristicState * Run S :=
  if length (next_path state quoted) <? max_hops config then
    let new := next_state state next_node quoted in
    if prefix_dominance h then
      let '(dominated, d) :=
        insert_or_dominated (hop_token_out (qh_hop quoted)) (state_label new) (run_dominance r) in
      let r := set_dominance d r in
      if dominated then (next, record_stats (stats_prefix_dominated 1) r)
      else (next ++ [new], r)
    else (next ++ [new], r)
  else (next, r).

Fixpoint extend_quoted (state : HeuristicState) (qs : list QuotedHeuristicHop)
    (next : list HeuristicState) r : option (list HeuristicState * Run S * bool) :=
  match qs with
  | [] => Some (next, r, false)
  | quoted :: qs =>
      match node_index g (hop_token_out (qh_hop quoted)) with
      | None => None
      | Some next_node =>
          if decide (next_node = target) then
            let '(r, stop) := complete_route state quoted r in
            if stop then Some (next, r, true) else extend_quoted state qs next r
          else
            let '(next, r) := extend_route state next_node quoted next r in
            extend_quoted state qs next r
      end
  end.

Definition expand_group (pass_mode : HeuristicPassMode) (has_refinement_pass : bool)
    (state : HeuristicState) (group : HeuristicHopGroup) (next : list HeuristicState) r :
    option (list HeuristicState * Run S * bool) :=
  let '(ranked_hops, qc) := liquidity_ranked_hops registry liquidity_index (hg_hops group)
    (edge_shortlist h) (liquidity_pruning config) pass_mode (run_quote_cache r) in
  let over_limit := match edge_limit pass_mode h with
                    | Some n => n <? length ranked_hops | None => false end in
  let r := set_run_quote_cache qc r in
  let r := if bool_decide (pass_mode = PassInitial) && has_refinement_pass
              && es_enabled (edge_shortlist h) && over_limit
           then set_deferred true r else r in
  let '(ranked_hops, qc) := shortlisted_ranked_hops ranked_hops h pass_mode (run_quote_cache r) in
  let r := set_run_quote_cache qc r in
  match quote_group state (hg_closes_target group) ranked_hops None [] r with
  | None => None
  | Some (quoted, r) => extend_quoted state (retained pass_mode quoted) next r
  end.

Fixpoint expand_groups (pass_mode : HeuristicPassMode) (has_refinement_pass : bool)
    (state : HeuristicState) (groups : list HeuristicHopGroup) (next : list HeuristicState) r :
    option (list HeuristicState * Run S * bool) :=
  match groups with
  | [] => Some (next, r, false)
  | group :: groups =>
      match expand_group pass_mode has_refinement_pass state group next r with
      | None => None
      | Some (next, r, true) => Some (next, r, true)
      | Some (next, r, false) => expand_groups pass_mode has_refinement_pass state groups next r
      end
  end.

(** ** One state of the frontier *)

(** The dominance test on entry: [true] skips the state. *)
Definition dominated_on_entry (state : HeuristicState) r : bool * Run S :=
  if prefix_dominance h then
    match node_token g (hs_node state) with
    | None => (true, r)
    | Some token =>
        if is_strictly_dominated token (state_label state) (run_dominance r)
        then (true, record_stats (stats_prefix_dominated 1) r) else (false, r)
    end
  else (false, r).

Definition expand_state (pass_mode : HeuristicPassMode) (has_refinement_pass : bool)
    (state : HeuristicState) (next : list HeuristicState) r :
    option (list HeuristicState * Run S * bool) :=
  if max_hops config <=? length (hs_path state) then Some (next, r, false)
  else
    '(prune, qc) ← should_prune_upper_bound_prefix g liquidity_index token_out target
       allow_final_source_revisit state (max_hops config) (run_incumbent r)
       (upper_bound_pruning h) (run_quote_cache r);
    let r := set_run_quote_cache qc r in
    if (prune : bool) then Some (next, r, false)
    else
      let '(skip, r) := dominated_on_entry state r in
      if skip then Some (next, r, false)
      else
        '(groups, qc) ← group_heuristic_hops g liquidity_index token_in token_out source target
           connectors allow_final_source_revisit state (max_hops config) h
           (liquidity_pruning config) (run_quote_cache r);
        expand_groups pass_mode has_refinement_pass state groups next (set_run_quote_cache qc r).

Fixpoint expand_states (pass_mode : HeuristicPassMode) (has_refinement_pass : bool)
    (frontier : list HeuristicState) (next : list HeuristicState) r :
    option (list HeuristicState * Run S * bool) :=
  match frontier with
  | [] => Some (next, r, false)
  | state :: frontier =>
      match expand_state pass_mode has_refinement_pass state next r with
      | None => None
      | Some (next, r, true) => Some (next, r, true)
      | Some (next, r, false) => expand_states pass_mode has_refinement_pass frontier next r
      end
  end.

(** ** Levels and passes *)

(** The states that a later, better label dominates leave the next frontier. *)
Definition undominated r (state : HeuristicState) : bool :=
  match node_token g (hs_node state) with
  | None => true
  | Some token => negb (is_strictly_dominated token (state_label state) (run_dominance r))
  end.

Definition retain_undominated (next : list HeuristicState) r : list HeuristicState * Run S :=
  if prefix_dominance h then
    let kept := filter (λ state, undominated r state = true) next in
    let removed := length next - length kept in
    (kept, if 0 <? removed then record_stats (stats_prefix_dominated removed) r else r)
  else (next, r).

Definition preserve_liquidity_branch_order : bool :=
  lp_enabled (liquidity_pruning config)
  && lp_rank_branches_by_liquidity (liquidity_pruning config)
  && bool_decide (is_Some liquidity_index).

(** [while !frontier.is_empty()]; [None] is out of fuel. *)
Fixpoint search_levels (fuel : nat) (pass_mode : HeuristicPassMode) (has_refinement_pass : bool)
    (frontier : list HeuristicState) r : option (Run S) :=
  match frontier with
  | [] => Some r
  | _ =>
      match fuel with
      | 0 => None
      | Datatypes.S fuel =>
          match expand_states pass_mode has_refinement_pass frontier [] r with
          | None => None
          | Some (_, r, true) => Some r
          | Some (next, r, false) =>
              let '(next, r) := retain_undominated next r in
              search_levels fuel pass_mode has_refinement_pass
                (apply_beam_width next (beam_width h) (negb preserve_liquidity_branch_order)) r
          end
      end
  end.

Definition initial_heuristic_state : HeuristicState :=
  {| hs_node := source; hs_path := []; hs_hop_quotes := []; hs_amount := amount_in;
     hs_visited_tokens := {[token_in]}; hs_used_pools := ∅ |}.

(** The loop over the pass modes. *)
Fixpoint search_passes (passes : list HeuristicPassMode) (has_refinement_pass : bool) r :
    option (Run S) :=
  match passes with
  | [] => Some r
  | pass_mode :: passes =>
      match search_levels (max_hops config) pass_mode has_refinement_pass
              [initial_heuristic_state] (set_deferred false r) with
      | None => None
      | Some r =>
          if run_stopped r then Some r
          else if bool_decide (pass_mode = PassInitial) && has_refinement_pass
                  && negb (run_deferred r) then Some r
          else search_passes passes has_refinement_pass r
      end
  end.

(** ** The fast lane *)

(** The quotes of the fast lane enter the run one by one; reaching the
    candidate limit stops the search. *)
Fixpoint take_fast_lane (quotes : list RouteQuote) r : Run S :=
  match quotes with
  | [] => r
  | quote :: quotes =>
      let r := Build_Run (run_cache r) (run_quote_cache r) (run_captured r)
                 (run_quotes r ++ [quote]) (run_failures r) (run_stopped r) (run_evaluated r)
                 (best_of (run_incumbent r) (rq_amount_out quote)) (run_dominance r)
                 (run_deferred r) in
      if max_candidates_reached (length (run_quotes r)) config then set_stopped true r
      else take_fast_lane quotes r
  end.

Definition run_fast_lane r : option (Run S) :=
  if allow_final_source_revisit || negb (fl_enabled (fast_lane h)) then Some r
  else
    let '(paths, qc) := fast_lane_paths registry g liquidity_index token_in token_out connectors
      config h (run_quote_cache r) in
    let r := set_run_quote_cache qc r in
    match paths with
    | [] => Some r
    | _ =>
        let r := record_stats (stats_fast_lane_routes (length paths)) r in
        let r := Build_Run (run_cache r) (run_quote_cache r) (run_captured r) (run_quotes r)
                   (run_failures r) (run_stopped r) (list_to_set paths ∪ run_evaluated r)
                   (run_incumbent r) (run_dominance r) (run_deferred r) in
        match quote_paths_with_registry_observed registry sim_config amount_in on_quote None
                paths (run_cache r) (run_quote_cache r) (run_captured r) with
        | None => None
        | Some e =>
            let r := Build_Run (ev_cache e) (ev_quote_cache e) (ev_captured e) (run_quotes r)
                       (run_failures r ++ ev_failures e) (ev_stopped e) (run_evaluated r)
                       (run_incumbent r) (run_dominance r) (run_deferred r) in
            Some (take_fast_lane (ev_quotes e)
                    (record_stats (stats_fast_lane_quotes (length (ev_quotes e))) r))
        end
    end.

(** ** The result *)

Definition finalists r : list RouteQuote :=
  take (max_finalists h) (stable_sort (desc_by rq_amount_out) (run_quotes r)).

Definition report_of (quotes : list RouteQuote) (stopped : bool) (failed : nat) :
    HeuristicRoutesReport :=
  {| hr_quotes := quotes; hr_stopped := stopped; hr_failed_candidates := failed |}.

(** The early return after the fast lane. *)
Definition finish_fast_lane r : result SearchError HeuristicRoutesReport :=
  if bool_decide (finalists r = []) && negb (bool_decide (run_failures r = [])) && run_stopped r
  then Err (ErrNoViableRoute (length (run_failures r)) (run_failures r))
  else Ok (report_of (finalists r) (run_stopped r) (length (run_failures r))).

(** The tail of the function: stop, no route, finalists as found or simulated
    again. *)
Definition finish_search r :
    option (result SearchError HeuristicRoutesReport * Run S) :=
  if run_stopped r then
    Some (Ok (report_of (finalists r) true (length (run_failures r))), r)
  else if decide (run_quotes r = []) then
    Some (match run_failures r with
          | [] => Err (ErrNoPath token_in token_out)
          | _ => Err (ErrNoViableRoute (length (run_failures r)) (run_failures r))
          end, r)
  else if negb (simulate_finalists h) then
    Some (Ok (report_of (finalists r) false (length (run_failures r))), r)
  else
    match quote_paths_with_registry registry (rq_path <$> finalists r) amount_in sim_config
            (run_cache r) (run_quote_cache r) with
    | None => None
    | Some (finalist_quotes, finalist_failures, qc, c) =>
        let failed := length (run_failures r) + length finalist_failures in
        Some (match rank_or_no_viable (length (finalists r)) finalist_quotes
                      (run_failures r ++ finalist_failures) with
              | Ok quotes => Ok (report_of quotes false failed)
              | Err e => Err e
              end, set_run_caches qc c r)
    end.
End search.

(** ** The whole search *)

Section entry.
Context `{!AmmTypes} `{!Petgraph Address EdgeData} {S : Type}.

Definition initial_run (cache : AdapterCache) (quote_cache : SharedQuoteCache) (captured : S) :
    Run S :=
  {| run_cache := cache; run_quote_cache := quote_cache; run_captured := captured;
     run_quotes := []; run_failures := []; run_stopped := false; run_evaluated := ∅;
     run_incumbent := None; run_dominance := PrefixDominanceIndex_default; run_deferred := false |}.

(** [find_routes_heuristic_with_cache_observed], after its validation and the
    lookup of its endpoints. *)
Definition heuristic_search (registry : AdapterRegistry) (g : AmmGraph)
    (liquidity_index : option PoolLiquidityIndex) (token_in token_out : Address)
    (source target : NodeIndex) (amount_in : U256) (config : SearchConfig)
    (h : HeuristicSearchConfig) (sim_config : SimConfig) (allow_final_source_revisit : bool)
    (run_limit : HeuristicRunLimit) (on_quote : option (RouteQuote → S → bool * S))
    (r : Run S) : option (result SearchError HeuristicRoutesReport * Run S) :=
  let connectors := connector_tokens_for_heuristic g token_in token_out config h in
  match run_fast_lane registry g liquidity_index token_in token_out amount_in config h
          sim_config connectors allow_final_source_revisit on_quote r with
  | None => None
  | Some r =>
      if run_stopped r || bool_decide (run_limit = FastLaneOnly)
      then Some (finish_fast_lane h r, r)
      else
        let passes := heuristic_pass_modes h in
        let has_refinement_pass := bool_decide (PassRefinement ∈ passes) in
        match search_passes registry g liquidity_index token_in token_out source target amount_in
                config h sim_config connectors allow_final_source_revisit on_quote
                passes has_refinement_pass r with
        | None => None
        | Some r => finish_search registry token_in token_out amount_in h sim_config r
        end
  end.

Definition find_routes_heuristic_with_cache_observed (registry : AdapterRegistry) (g : AmmGraph)
    (liquidity_index : option PoolLiquidityIndex) (token_in token_out : Address)
    (amount_in : U256) (config : SearchConfig) (h : HeuristicSearchConfig)
    (sim_config : SimConfig) (cache : AdapterCache) (quote_cache : SharedQuoteCache)
    (allow_final_source_revisit : bool) (run_limit : HeuristicRunLimit)
    (on_quote : option (RouteQuote → S → bool * S)) (captured : S) :
    option (result SearchError HeuristicRoutesReport * Run S) :=
  let r := initial_run cache quote_cache captured in
  match search_validated (SearchConfig_validate config) with
  | Err e => Some (Err e, r)
  | Ok _ =>
      match node_index g token_in with
      | None => Some (Err (ErrTokenNotFound token_in), r)
      | Some source =>
          match node_index g token_out with
          | None => Some (Err (ErrTokenNotFound token_out), r)
          | Some target =>
              heuristic_search registry g liquidity_index token_in token_out source target
                amount_in config h sim_config allow_final_source_revisit run_limit on_quote r
          end
      end
  end.
End entry.

Section routes.
Context `{!AmmTypes} `{!Petgraph Address EdgeData}.

(** [find_routes_heuristic_with_cache]: the full run, no observer. *)
Definition find_routes_heuristic_with_cache (registry : AdapterRegistry) (g : AmmGraph)
    (liquidity_index : option PoolLiquidityIndex) (token_in token_out : Address)
    (amount_in : U256) (config : SearchConfig) (h : HeuristicSearchConfig)
    (sim_config : SimConfig) (cache : AdapterCache) (quote_cache : SharedQuoteCache)
    (allow_final_source_revisit : bool) :
    option (result SearchError (list RouteQuote) * SharedQuoteCache * AdapterCache) :=
  match find_routes_heuristic_with_cache_observed registry g liquidity_index token_in token_out
          amount_in config h sim_config cache quote_cache allow_final_source_revisit FullRun
          None () with
  | None => None
  | Some (Ok report, r) => Some (Ok (hr_quotes report), run_quote_cache r, run_cache r)
  | Some (Err e, r) => Some (Err e, run_quote_cache r, run_cache r)
  end.
End routes.
