(* ===== verification/HeuristicProps.v ===== *)
(** * Properties of the building blocks of the heuristic search

    The dominance index is the Pareto front of what was inserted; the
    comparators are total preorders; memoised answers are recomputed ones; the
    reachability check is exact; the balance cap terminates and bounds every
    way into the target. *)

From S2P Require Import Prelude Ordering AmmState Petgraph Graph GraphPairs GraphInv GraphProps.
From S2P Require Import GraphTheorems Config SearchTypes Enumerate EnumerateProps.
From S2P Require Import EnumerateTheorems Liquidity QuoteCache Quote QuoteProps Heuristic.

(** ** The dominance index *)

Section dominance.
Context `{!AmmTypes}.
Implicit Types (l : PrefixLabel) (index : PrefixDominanceIndex) (t : Address).

Lemma label_dominates_spec l l' :
  label_dominates l l' = true ↔
  (pl_amount l' <= pl_amount l)%Z ∧ pl_visited_tokens l ⊆ pl_visited_tokens l' ∧
  pl_used_pools l ⊆ pl_used_pools l'.
Proof. unfold label_dominates. rewrite !andb_true_iff, !bool_decide_eq_true. tauto. Qed.

Lemma label_dominates_refl l : label_dominates l l = true.
Proof. by apply label_dominates_spec. Qed.

Lemma label_dominates_trans l1 l2 l3 :
  label_dominates l1 l2 = true → label_dominates l2 l3 = true → label_dominates l1 l3 = true.
Proof. rewrite !label_dominates_spec. intros (?&?&?) (?&?&?). split_and!; [lia|set_solver..]. Qed.

(** Strict domination is domination that is not mutual. *)
Lemma label_strictly_dominates_spec l l' :
  label_strictly_dominates l l' = true ↔
  label_dominates l l' = true ∧ label_dominates l' l = false.
Proof.
  unfold label_strictly_dominates. rewrite andb_true_iff, !orb_true_iff, bool_decide_eq_true,
    !Nat.ltb_lt, <- not_true_iff_false, (label_dominates_spec l l'), (label_dominates_spec l' l).
  split.
  - intros [(Ha & Hv & Hu) Hs]. split; [done|]. intros (Ha' & Hv' & Hu').
    apply subseteq_size in Hv', Hu'. lia.
  - intros [(Ha & Hv & Hu) Hn]. split; [done|].
    destruct (decide (pl_amount l' < pl_amount l)%Z); [by auto|].
    destruct (decide (pl_visited_tokens l' ⊆ pl_visited_tokens l)) as [Hv'|Hv'].
    + right. apply subset_size. split; [done|]. intros Hu'. apply Hn. split_and!; [lia|done..].
    + left. right. apply subset_size. by split.
Qed.

Lemma existsb_elem {A} (f : A → bool) (xs : list A) :
  existsb f xs = true ↔ ∃ x, x ∈ xs ∧ f x = true.
Proof. rewrite existsb_exists. setoid_rewrite list_elem_of_In. done. Qed.

(** What a sequence of insertions leaves. *)
Definition insert_labels (hist : list (Address * PrefixLabel)) : PrefixDominanceIndex :=
  foldl (λ index '(t, l), (insert_or_dominated t l index).2)
    PrefixDominanceIndex_default hist.

Definition labels_of index t : list PrefixLabel := default [] (pd_labels index !! t).

(** The labels of a token are the Pareto front of those inserted for it. *)
Record pareto (hist : list (Address * PrefixLabel)) index : Prop := {
  pf_inserted t l : l ∈ labels_of index t → (t, l) ∈ hist;
  pf_covers t l : (t, l) ∈ hist → ∃ l', l' ∈ labels_of index t ∧ label_dominates l' l = true;
  pf_antichain t i j l l' : labels_of index t !! i = Some l → labels_of index t !! j = Some l' →
    label_dominates l l' = true → i = j;
}.

Lemma insert_or_dominated_labels t l index t' :
  labels_of (insert_or_dominated t l index).2 t' =
  if decide (t = t') then
    if existsb (λ label, label_dominates label l) (labels_of index t) then labels_of index t
    else filter (λ label, label_dominates l label = false) (labels_of index t) ++ [l]
  else labels_of index t'.
Proof.
  unfold insert_or_dominated, labels_of.
  destruct (decide (t = t')) as [<-|Hne], (existsb _ _); cbn [snd pd_labels];
    rewrite ?lookup_insert_eq, ?lookup_insert_ne by done; done.
Qed.

Lemma insert_or_dominated_fst t l index :
  (insert_or_dominated t l index).1 = existsb (λ label, label_dominates label l) (labels_of index t).
Proof. unfold insert_or_dominated, labels_of. by destruct (existsb _ _). Qed.

Lemma filter_lookup_antichain l (ls : list PrefixLabel) :
  (∀ i j a b, ls !! i = Some a → ls !! j = Some b → label_dominates a b = true → i = j) →
  ∀ i j a b, filter (λ x, label_dominates l x = false) ls !! i = Some a →
    filter (λ x, label_dominates l x = false) ls !! j = Some b →
    label_dominates a b = true → i = j.
Proof.
  induction ls as [|x ls IH]; intros Hls i j a b; [done|].
  assert (∀ i j a b, filter (λ x, label_dominates l x = false) ls !! i = Some a →
    filter (λ x, label_dominates l x = false) ls !! j = Some b →
    label_dominates a b = true → i = j) as IH'.
  { apply IH. intros i' j' a' b' Ha Hb Hd. by apply (inj S), (Hls (S i') (S j') a' b'). }
  assert (∀ a, a ∈ filter (λ x, label_dominates l x = false) ls →
    label_dominates a x = false ∧ label_dominates x a = false) as Hx.
  { intros a' [_ (k & Hk)%list_elem_of_lookup]%list_elem_of_filter.
    split; apply not_true_iff_false; intros Hd.
    - by specialize (Hls (S k) 0 a' x Hk eq_refl Hd).
    - by specialize (Hls 0 (S k) x a' eq_refl Hk Hd). }
  rewrite filter_cons. destruct (decide (label_dominates l x = false)); [|apply IH'].
  destruct i as [|i], j as [|j]; simpl; [done| | |].
  - intros [= <-] Hb Hd. apply list_elem_of_lookup_2, Hx in Hb as [_ Hb]. congruence.
  - intros Ha [= <-] Hd. apply list_elem_of_lookup_2, Hx in Ha as [Ha _]. congruence.
  - intros Ha Hb Hd. f_equal. by eapply IH'.
Qed.

Lemma insert_pareto hist index t l :
  pareto hist index → pareto (hist ++ [(t, l)]) (insert_or_dominated t l index).2.
Proof.
  intros [Hi Hc Ha].
  destruct (existsb (λ label, label_dominates label l) (labels_of index t)) eqn:He.
  - apply existsb_elem in He as He'. destruct He' as (d & Hd & Hdl).
    assert (∀ t', labels_of (insert_or_dominated t l index).2 t' = labels_of index t') as Hsame.
    { intros t'. rewrite insert_or_dominated_labels, He. by destruct (decide (t = t')) as [<-|]. }
    constructor; setoid_rewrite Hsame.
    + intros t' l' Hl'. apply elem_of_app. left. by apply Hi.
    + intros t' l' [Hl'|Heq]%elem_of_app; [by apply Hc|].
      apply list_elem_of_singleton in Heq as [= -> ->]. eauto.
    + done.
  - assert (∀ d, d ∈ labels_of index t → label_dominates d l = false) as Hno.
    { intros d Hd. apply not_true_iff_false. intros Hdl. apply not_true_iff_false in He.
      apply He, existsb_elem. eauto. }
    constructor; intros t'; rewrite insert_or_dominated_labels, He;
      destruct (decide (t = t')) as [<-|Hne].
    + intros l' [[_ Hl']%list_elem_of_filter|Hl']%elem_of_app; [set_solver|].
      apply list_elem_of_singleton in Hl' as ->. set_solver.
    + intros l' Hl'. apply elem_of_app. left. by apply Hi.
    + intros l' [Hl'|Hl']%elem_of_app.
      * destruct (Hc t l' Hl') as (d & Hd & Hdl').
        destruct (label_dominates l d) eqn:Hld.
        -- exists l. split; [set_solver|]. by eapply label_dominates_trans.
        -- exists d. split; [|done]. apply elem_of_app. left. by apply list_elem_of_filter.
      * apply list_elem_of_singleton in Hl' as [= ->]. exists l.
        split; [set_solver|apply label_dominates_refl].
    + intros l' [Hl'|Hl']%elem_of_app; [by apply Hc|]. by apply list_elem_of_singleton in Hl' as [= ->].
    + intros i j a b. rewrite !lookup_app_Some, !list_lookup_singleton_Some.
      intros [Hia|(Hia & Hi0 & <-)] [Hjb|(Hjb & Hj0 & <-)] Hd.
      * eapply (filter_lookup_antichain l (labels_of index t)); [|done..]. eauto.
      * apply list_elem_of_lookup_2, list_elem_of_filter in Hia as [_ Hia].
        rewrite Hno in Hd; done.
      * apply list_elem_of_lookup_2, list_elem_of_filter in Hjb as [Hjb _]. congruence.
      * lia.
    + by apply Ha.
Qed.

Lemma insert_labels_pareto hist : pareto hist (insert_labels hist).
Proof.
  unfold insert_labels. induction hist as [|[t l] hist IH] using rev_ind.
  - constructor; intros t; unfold labels_of; cbn [foldl PrefixDominanceIndex_default pd_labels];
      rewrite lookup_empty; simpl; set_solver.
  - rewrite foldl_snoc. by apply insert_pareto.
Qed.

Lemma is_strictly_dominated_labels t l index :
  is_strictly_dominated t l index =
  existsb (λ label, label_strictly_dominates label l) (labels_of index t).
Proof. unfold is_strictly_dominated, labels_of. by destruct (pd_labels index !! t). Qed.

End dominance.

(** ** Comparators *)

Section comparators.
Context `{!AmmTypes} `{!Petgraph Address EdgeData}.
Context (g : AmmGraph) (liquidity_index : option PoolLiquidityIndex).

Lemma connector_cmp_preorder : total_preorder (connector_cmp g liquidity_index).
Proof. unfold connector_cmp. solve_preorder. Qed.

Lemma degree_cmp_preorder : total_preorder degree_cmp.
Proof. unfold degree_cmp. solve_preorder. Qed.

Lemma unranked_cmp_preorder : total_preorder unranked_cmp.
Proof. unfold unranked_cmp. solve_preorder. Qed.

(** The hops whose balances are known come first; the others all compare equal
    on the liquidity keys. *)
Definition known_key {A} (d : A) (key : LiquidityRankedHop → A) (r : LiquidityRankedHop) : A :=
  if lr_rank_known r then key r else d.

Lemma ranked_hop_cmp_preorder : total_preorder ranked_hop_cmp.
Proof.
  apply (preorder_ext (λ left right,
    then_with (bool_cmp (lr_rank_known right) (lr_rank_known left)) $
    then_with (Z.compare (known_key 0%Z lr_rank_score right) (known_key 0%Z lr_rank_score left)) $
    then_with (option_cmp Z.compare (known_key None (λ r, fresh_of (lr_output_balance r)) right)
                 (known_key None (λ r, fresh_of (lr_output_balance r)) left)) $
    then_with (option_cmp Z.compare (known_key None (λ r, fresh_of (lr_input_balance r)) right)
                 (known_key None (λ r, fresh_of (lr_input_balance r)) left)) $
    then_with (Z.compare (known_key 0%Z lr_fee_sort left) (known_key 0%Z lr_fee_sort right)) $
    then_with (String.compare (known_key ""%string (λ r, hop_sort_key (lr_hop r)) left)
                 (known_key ""%string (λ r, hop_sort_key (lr_hop r)) right))
      (unranked_cmp left right))).
  - do 6 (apply then_with_preorder; [solve_preorder|]). apply unranked_cmp_preorder.
  - intros x y. unfold ranked_hop_cmp, liquidity_cmp, known_key.
    destruct (lr_rank_known x), (lr_rank_known y); try done.
    cbn [bool_cmp then_with].
    repeat match goal with
    | |- context [then_with (then_with ?a ?b) ?c] =>
        replace (then_with (then_with a b) c) with (then_with a (then_with b c))
          by (by destruct a)
    end. done.
Qed.

(** The group comparator orders any set of groups as soon as the target's group
    is always put first, or liquidity does not rank. *)
Definition ranks_branches (config : LiquidityPruningConfig) : bool :=
  lp_enabled config && lp_rank_branches_by_liquidity config.

Lemma group_cmp_preorder h config :
  target_first h = true ∨ ranks_branches config = false → total_preorder (group_cmp h config).
Proof.
  unfold ranks_branches. intros Hcase.
  set (rest := λ left right : ScoredGroup,
    then_with (Nat.compare (sg_connector right) (sg_connector left)) $
    then_with (Nat.compare (sg_degree right) (sg_degree left))
      (Z.compare (hg_next_token (sg_group left)) (hg_next_token (sg_group right)))).
  assert (total_preorder rest) as Hrest by (unfold rest; solve_preorder).
  set (closes := λ x, hg_closes_target (sg_group x)).
  set (ranked := λ x, lp_enabled config && lp_rank_branches_by_liquidity config &&
                      negb (closes x)).
  set (known := λ x, ranked x && score_is_known (sg_liquidity x)).
  apply (preorder_ext (λ left right,
    then_with (if target_first h then bool_cmp (closes right) (closes left) else Eq) $
    then_with (bool_cmp (known right) (known left)) $
    then_with (option_cmp Z.compare
      (if known right then max_input_balance (sg_liquidity right) else None)
      (if known left then max_input_balance (sg_liquidity left) else None)) $
    then_with (option_cmp Z.compare
      (if known right then sum_input_balance (sg_liquidity right) else None)
      (if known left then sum_input_balance (sg_liquidity left) else None))
      (rest left right))).
  - apply then_with_preorder; [|apply then_with_preorder; [|apply then_with_preorder;
      [|apply then_with_preorder; [|exact Hrest]]]].
    + destruct (target_first h); [solve_preorder|]. constructor; [done|]. by intros ? ? ? ?.
    + solve_preorder.
    + apply (flip_preorder (λ x y, option_cmp Z.compare
        (if known x then max_input_balance (sg_liquidity x) else None)
        (if known y then max_input_balance (sg_liquidity y) else None))).
      apply (key_preorder (option_cmp Z.compare)
        (λ x, if known x then max_input_balance (sg_liquidity x) else None)); auto with amm.
    + apply (flip_preorder (λ x y, option_cmp Z.compare
        (if known x then sum_input_balance (sg_liquidity x) else None)
        (if known y then sum_input_balance (sg_liquidity y) else None))).
      apply (key_preorder (option_cmp Z.compare)
        (λ x, if known x then sum_input_balance (sg_liquidity x) else None)); auto with amm.
  - intros x y. unfold group_cmp. fold (rest x y). unfold known, ranked, closes.
    destruct Hcase as [-> | ->].
    + destruct (hg_closes_target (sg_group x)), (hg_closes_target (sg_group y)); simpl;
        rewrite ?andb_false_r, ?andb_true_r; simpl; try done.
      destruct (_ && _); simpl; [|done].
      by destruct (score_is_known (sg_liquidity x)), (score_is_known (sg_liquidity y)).
    + simpl. destruct (target_first h), (hg_closes_target (sg_group x)),
        (hg_closes_target (sg_group y)); done.
Qed.
End comparators.

(** ** The memo tables *)

Section run_cache.
Context `{!AmmTypes} `{!Petgraph Address EdgeData}.
Context (g : AmmGraph) (liquidity_index : option PoolLiquidityIndex).

(** Every memoised answer is the recomputed one. *)
Record run_cache_ok (rc : HeuristicRunCache) : Prop := {
  rc_degree node d : token_degrees rc !! node = Some d → d = token_degree g node;
  rc_score token s : connector_scores rc !! token = Some s →
    s = connector_liquidity_score g liquidity_index token;
}.

Lemma run_cache_ok_default : run_cache_ok HeuristicRunCache_default.
Proof. constructor; intros ? ?; unfold HeuristicRunCache_default; simpl; by rewrite lookup_empty. Qed.

Lemma token_degree_cached_ok node rc :
  run_cache_ok rc →
  (token_degree_cached g node rc).1 = token_degree g node ∧
  run_cache_ok (token_degree_cached g node rc).2.
Proof.
  intros Hrc. unfold token_degree_cached. destruct (token_degrees rc !! node) as [d|] eqn:Hd.
  - split; [by eapply rc_degree|done].
  - split; [done|]. destruct Hrc as [H1 H2]. constructor; [|done].
    intros node' d. simpl. rewrite lookup_insert_Some. naive_solver.
Qed.

Lemma connector_score_cached_ok token rc :
  run_cache_ok rc →
  (connector_liquidity_score_cached g liquidity_index token rc).1 =
    connector_liquidity_score g liquidity_index token ∧
  run_cache_ok (connector_liquidity_score_cached g liquidity_index token rc).2.
Proof.
  intros Hrc. unfold connector_liquidity_score_cached.
  destruct (connector_scores rc !! token) as [s|] eqn:Hs.
  - split; [by eapply rc_score|done].
  - split; [done|].
    set (rc' := match node_index g token with Some _ => _ | None => _ end).
    assert (run_cache_ok rc') as [H1 H2].
    { unfold rc'. destruct (node_index g token); [by apply token_degree_cached_ok|done]. }
    constructor; [done|]. intros token' s. cbn [snd connector_scores].
    assert (connector_scores rc' = connector_scores rc) as Hsame.
    { unfold rc', token_degree_cached. destruct (node_index g token) as [n|]; [|done].
      by destruct (token_degrees rc !! n). }
    rewrite lookup_insert_Some. intros [[<- <-]|[_ Hl]]; [done|].
    apply (rc_score _ Hrc). by rewrite <- Hsame.
Qed.
End run_cache.

(** ** Reachability *)

Section reach.
Context `{!AmmTypes} `{!Petgraph Address EdgeData} `{!PetgraphLaws Address EdgeData}.
Context (g : AmmGraph) (ti to : Address) (source target : NodeIndex)
  (config : SearchConfig) (allow : bool).

(** An admissible route without the bounds on its length. *)
Definition open_route (path : RoutePath) : Prop :=
  ∃ prefix cur h, path = prefix ++ [h] ∧
    route_prefix g ti to config prefix cur ∧
    hop_token_in h = cur ∧ hop_token_out h = to ∧ swap_of g h ∧
    hop_pool h ∉ hop_pool <$> prefix ∧ (ti = to → allow = true).

Lemma valid_route_open path :
  valid_route g ti to config allow path ↔
  open_route path ∧ min_hops config ≤ length path ≤ max_hops config.
Proof. unfold valid_route, open_route. naive_solver. Qed.

Hypothesis (Hwf : graph_wf g).
Hypothesis (Hsource : node_index g ti = Some source).
Hypothesis (Htarget : node_index g to = Some target).
Implicit Types (st : SearchState) (e : CachedOutgoingEdge).

Abbreviation allowed :=
  (edge_allowed ti to source target (connector_tokens config) allow).
Abbreviation ok := (state_ok g ti to config).

(** An edge into the target completes the prefix. *)
Lemma target_edge_completes st e :
  ok st → e ∈ outgoing_edges g (ss_node st) → ce_target e = target →
  ce_pool e ∉ ss_used_pools st ∧ allowed (ss_visited_tokens st) e = true ↔
  open_route (ss_path st ++ [edge_hop e]).
Proof.
  intros [(cur & Hpre & Hcur) Hvis Hused] He Ht.
  destruct (proj1 (outgoing_swaps g Hwf cur _ (edge_hop e) Hcur)
    (ex_intro _ e (conj He eq_refl))) as [Hswap Hin].
  pose proof (proj1 (closes_target_token g to target Hwf Htarget _ _ He) Ht) as Hto.
  pose proof (source_target_token g ti to source target Hwf Hsource Htarget) as Hst.
  assert (allowed (ss_visited_tokens st) e = true ↔ (ti = to → allow = true)) as ->.
  { unfold edge_allowed, closes_source_cycle. rewrite (bool_decide_eq_true_2 _ Ht). simpl.
    rewrite andb_true_r, negb_true_iff, andb_false_iff, negb_false_iff, !andb_true_iff,
      !bool_decide_eq_true, bool_decide_eq_false, Hvis, Hto, Ht. split.
    - intros [Hn|[[Ha _] _]] Heq; [|done]. destruct Hn. rewrite Heq. set_solver.
    - intros Ha. destruct (decide (ti = to)) as [Heq|Hne].
      + right. apply Hst in Heq as Heq'. split_and!; [by apply Ha|done|done].
      + left. intros [?|Hin']%elem_of_cons; [congruence|]. by apply (rp_target _ _ _ _ _ _ Hpre). }
  rewrite Hused. split.
  - intros [Hnp Ha]. exists (ss_path st), cur, (edge_hop e). done.
  - intros (pre & cur' & h & [Hp Hh]%app_inj_tail & _ & _ & _ & _ & Hnp & Ha). by subst.
Qed.

(** The state after one more hop. *)
Definition step_state st e : SearchState :=
  {| ss_node := ce_target e; ss_path := ss_path st ++ [edge_hop e];
     ss_visited_tokens := {[ce_token_out e]} ∪ ss_visited_tokens st;
     ss_used_pools := {[ce_pool e]} ∪ ss_used_pools st |}.

Lemma step_edge_extends st e :
  ok st → e ∈ outgoing_edges g (ss_node st) → ce_target e ≠ target →
  ce_pool e ∉ ss_used_pools st → allowed (ss_visited_tokens st) e = true →
  ok (step_state st e).
Proof.
  intros [(cur & Hpre & Hcur) Hvis Hused] He Hne Hnp Hal.
  destruct (proj1 (outgoing_swaps g Hwf cur _ (edge_hop e) Hcur)
    (ex_intro _ e (conj He eq_refl))) as [Hswap Hin].
  assert (ce_token_out e ≠ to) as Hto
    by (by rewrite <- (closes_target_token g to target Hwf Htarget _ _ He)).
  unfold edge_allowed, closes_source_cycle in Hal.
  rewrite (bool_decide_eq_false_2 _ Hne), andb_true_iff, negb_true_iff, andb_false_iff,
    negb_false_iff, !andb_true_iff, !bool_decide_eq_true, bool_decide_eq_false in Hal.
  destruct Hal as [Hnv Hcon]. simpl in Hcon.
  assert (ce_token_out e ∉ ti :: (hop_token_out <$> ss_path st)) as Hfresh.
  { rewrite <- Hvis. destruct Hnv as [?|[[_ Hst] Hs]]; [done|congruence]. }
  apply (outgoing_edges_spec _ _ _ (wf_core _ Hwf)) in He as (i & _ & _ & Ho).
  constructor; simpl.
  - exists (ce_token_out e). split; [|done]. apply route_prefix_snoc. simpl in *. subst cur.
    split_and!; try done. by rewrite <- Hused.
  - intros t. rewrite elem_of_union, elem_of_singleton, Hvis, fmap_app. simpl. set_solver.
  - intros p. rewrite elem_of_union, elem_of_singleton, Hused, fmap_app. simpl. set_solver.
Qed.

(** Conversely, the next hop of a longer prefix or route is an allowed edge. *)
Lemma prefix_edge st h cur :
  ok st → route_prefix g ti to config (ss_path st ++ [h]) cur →
  ∃ e, e ∈ outgoing_edges g (ss_node st) ∧ edge_hop e = h ∧ ce_target e ≠ target ∧
    ce_pool e ∉ ss_used_pools st ∧ allowed (ss_visited_tokens st) e = true.
Proof.
  intros [(cur' & Hpre' & Hcur) Hvis Hused] Hpre.
  apply route_prefix_snoc in Hpre as (Hpre & Hout & Hswap & Hnp & Hnt & Hne & Hcon).
  assert (cur' = hop_token_in h) as -> by (eapply chained_fun; [apply Hpre'|apply Hpre]).
  destruct (proj2 (outgoing_swaps g Hwf _ _ h Hcur) (conj Hswap eq_refl)) as (e & He & Heh).
  exists e. assert (ce_pool e = hop_pool h ∧ ce_token_out e = hop_token_out h) as [Hp Ho]
    by (by rewrite <- Heh).
  split_and!; [done|done| | |].
  - rewrite (closes_target_token g to target Hwf Htarget _ _ He). congruence.
  - rewrite Hused. congruence.
  - unfold edge_allowed. rewrite Ho, (bool_decide_eq_false_2 (hop_token_out h ∈ _))
      by (rewrite Hvis; done). simpl.
    unfold connector_allowed in Hcon. rewrite Hcon. apply orb_true_r.
Qed.

Lemma completing_edge st h :
  ok st → open_route (ss_path st ++ [h]) →
  ∃ e, e ∈ outgoing_edges g (ss_node st) ∧ edge_hop e = h ∧ ce_target e = target ∧
    ce_pool e ∉ ss_used_pools st ∧ allowed (ss_visited_tokens st) e = true.
Proof.
  intros Hok Hr. pose proof Hok as [(cur' & Hpre' & Hcur) Hvis Hused].
  destruct Hr as (pre & cur & h' & [Hp Hh]%app_inj_tail & Hpre & Hin & Hout & Hswap & Hnp & Hal).
  subst pre h'. assert (cur' = cur) as -> by (eapply chained_fun; [apply Hpre'|apply Hpre]).
  destruct (proj2 (outgoing_swaps g Hwf _ _ h Hcur) (conj Hswap Hin)) as (e & He & Heh).
  exists e. assert (ce_target e = target) as Ht.
  { apply (closes_target_token g to target Hwf Htarget _ _ He).
    change (ce_token_out e) with (hop_token_out (hop_of e)). by rewrite Heh. }
  split_and!; [done|done|done|..]; apply (target_edge_completes st e Hok He Ht);
    change (edge_hop e) with (hop_of e); rewrite Heh;
    exists (ss_path st), cur, h; done.
Qed.

(** A proper prefix of an open route is a prefix. *)
Lemma open_route_prefix p h q :
  q ≠ [] → open_route (p ++ h :: q) → ∃ cur, route_prefix g ti to config (p ++ [h]) cur.
Proof.
  intros Hq (pre & cur & h' & Heq & Hpre & _).
  destruct q as [|x q _] using rev_ind; [done|].
  rewrite app_comm_cons, (assoc_L (++)) in Heq. apply app_inj_tail in Heq as [<- _].
  clear -Hpre. revert Hpre. replace (p ++ h :: q) with ((p ++ [h]) ++ q)
    by (by rewrite <- (assoc_L (++))). generalize (p ++ [h]). intros p'. clear p h.
  revert cur. induction q as [|y q IH] using rev_ind; intros cur; [rewrite app_nil_r; eauto|].
  rewrite (assoc_L (++)). intros [Hpre _]%route_prefix_snoc. by eapply IH.
Qed.

(** The depth-first check finds a way on exactly when there is one. *)
Lemma has_static_route_dfs_spec n st :
  ok st → 1 ≤ n →
  has_static_route_dfs g ti to source target (connector_tokens config) allow n (ss_node st)
    (ss_visited_tokens st) (ss_used_pools st) = true ↔
  ∃ q, q ≠ [] ∧ length q ≤ n ∧ open_route (ss_path st ++ q).
Proof.
  intros Hok Hn. revert st Hok. destruct n as [|n]; [lia|]. clear Hn.
  induction n as [|n IH]; intros st Hok.
  all: cbn [has_static_route_dfs]; rewrite existsb_elem; split.
  1, 3: intros (e & He & Hb);
    destruct (bool_decide_reflect (ce_pool e ∈ ss_used_pools st)) as [|Hnp]; [done|];
    destruct (allowed (ss_visited_tokens st) e) eqn:Hal; [simpl in Hb|done];
    destruct (bool_decide_reflect (ce_target e = target)) as [Ht|Ht];
    [exists [edge_hop e]; split_and!; [done|simpl; lia|];
     by apply (target_edge_completes st e)|].
  - done.
  - apply (IH (step_state st e)) in Hb as (q & Hq & Hl & Hr); [|by apply step_edge_extends].
    exists (edge_hop e :: q). split_and!; [done|simpl; lia|].
    simpl in Hr. by rewrite <- (assoc_L (++)) in Hr.
  - intros (q & Hq & Hl & Hr). destruct q as [|h [|]]; [done| |simpl in Hl; lia].
    destruct (completing_edge st h Hok Hr) as (e & He & Heh & Ht & Hnp & Hal).
    exists e. split; [done|]. by rewrite (bool_decide_eq_false_2 _ Hnp), Hal, bool_decide_eq_true_2.
  - intros (q & Hq & Hl & Hr). destruct q as [|h q]; [done|].
    destruct (decide (q = [])) as [->|Hq'].
    + destruct (completing_edge st h Hok Hr) as (e & He & Heh & Ht & Hnp & Hal).
      exists e. split; [done|].
      by rewrite (bool_decide_eq_false_2 _ Hnp), Hal, bool_decide_eq_true_2.
    + destruct (open_route_prefix _ _ _ Hq' Hr) as [cur Hpre].
      destruct (prefix_edge st h cur Hok Hpre) as (e & He & Heh & Ht & Hnp & Hal).
      exists e. split; [done|].
      rewrite (bool_decide_eq_false_2 _ Hnp), Hal, (bool_decide_eq_false_2 _ Ht). simpl.
      apply (IH (step_state st e)); [by apply step_edge_extends|].
      exists q. split_and!; [done|simpl in Hl; lia|]. simpl.
      rewrite Heh, <- (assoc_L (++)). done.
Qed.
End reach.

(** ** The balance cap *)

Section cap.
Context `{!AmmTypes} `{!Petgraph Address EdgeData}.
Context (g : AmmGraph) (index : PoolLiquidityIndex) (target : NodeIndex) (target_token : Address)
  (max_hops : nat).

(** [e] is the last edge of a walk of [n] edges that enters the target only
    with it. *)
Inductive final_edge : nat → NodeIndex → CachedOutgoingEdge → Prop :=
  | final_here node e :
      e ∈ outgoing_edges g node → ce_target e = target → final_edge 1 node e
  | final_later n node e' e :
      e' ∈ outgoing_edges g node → ce_target e' ≠ target →
      final_edge n (ce_target e') e → final_edge (S n) node e.

Definition target_balance (e : CachedOutgoingEdge) : option U256 :=
  fresh_of (balance_state index (ce_pool e) target_token).

Definition capped (cap : option U256) (e : CachedOutgoingEdge) : Prop :=
  ∃ b c, target_balance e = Some b ∧ cap = Some c ∧ (b <= c)%Z.

Definition cap_le (cap cap' : option U256) : Prop :=
  ∀ c, cap = Some c → ∃ c', cap' = Some c' ∧ (c <= c')%Z.

Lemma capped_le cap cap' e : cap_le cap cap' → capped cap e → capped cap' e.
Proof. intros Hle (b & c & Hb & Hc & ?). destruct (Hle c Hc) as (c' & ? & ?). exists b, c'. split_and!; [done..|lia]. Qed.

(** What one node's edges add: every edge is accounted for, in the cap or in
    the queue. *)
Lemma cap_edges_spec depth edges cap queue :
  depth < max_hops →
  match cap_edges index target target_token max_hops (S depth) edges cap queue with
  | None => ∃ e, e ∈ edges ∧ ce_target e = target ∧ target_balance e = None
  | Some (cap', queue') =>
      cap_le cap cap' ∧
      (∃ added, queue' = queue ++ added ∧ length added ≤ length edges ∧
        ∀ x, x ∈ added → x.2 = S depth ∧ S depth < max_hops) ∧
      ∀ e, e ∈ edges →
        if decide (ce_target e = target) then capped cap' e
        else S depth < max_hops → (ce_target e, S depth) ∈ queue'
  end.
Proof.
  intros Hd. revert cap queue. induction edges as [|e edges IH]; intros cap queue;
    cbn [cap_edges length].
  { split_and!; [intros c ->; eauto with lia| |set_solver].
    exists []. rewrite app_nil_r. split_and!; [done|done|set_solver]. }
  rewrite (proj2 (Nat.ltb_ge _ _)) by lia.
  destruct (decide (ce_target e = target)) as [Ht|Ht].
  - destruct (fresh_of (balance_state index (ce_pool e) target_token)) as [b|] eqn:Hb.
    + set (cap1 := Some _). specialize (IH cap1 queue).
      assert (cap_le cap cap1) as Hle1.
      { intros c ->. eexists. split; [done|]. lia. }
      assert (capped cap1 e) as Hcap1.
      { exists b. eexists. split_and!; [done|done|]. destruct cap; lia. }
      destruct (cap_edges _ _ _ _ _ edges cap1 queue) as [[cap' queue']|].
      * destruct IH as (Hle & (added & -> & Hl & Ha) & He). split_and!.
        -- intros c Hc. destruct (Hle1 c Hc) as (c1 & Hc1 & ?).
           destruct (Hle c1 Hc1) as (c2 & ? & ?). exists c2. split; [done|lia].
        -- exists added. split_and!; [done|lia|done].
        -- intros e' [->|He']%elem_of_cons; [|by apply He].
           rewrite decide_True by done. by eapply capped_le.
      * destruct IH as (e' & ? & ?). exists e'. split; [set_solver|done].
    + exists e. split_and!; [set_solver|done|done].
  - destruct (S depth <? max_hops) eqn:Hlt.
    + apply Nat.ltb_lt in Hlt. specialize (IH cap (queue ++ [(ce_target e, S depth)])).
      destruct (cap_edges _ _ _ _ _ edges cap _) as [[cap' queue']|].
      * destruct IH as (Hle & (added & -> & Hl & Ha) & He). split_and!; [done| |].
        -- exists ((ce_target e, S depth) :: added). rewrite <- (assoc_L (++)). simpl.
           split_and!; [done|lia|]. intros x [->|Hx]%elem_of_cons; [done|by apply Ha].
        -- intros e' [->|He']%elem_of_cons; [|by apply He].
           rewrite decide_False by done. set_solver.
      * destruct IH as (e' & ? & ?). exists e'. split; [set_solver|done].
    + apply Nat.ltb_ge in Hlt. specialize (IH cap queue).
      destruct (cap_edges _ _ _ _ _ edges cap queue) as [[cap' queue']|].
      * destruct IH as (Hle & (added & -> & Hl & Ha) & He). split_and!; [done| |].
        -- exists added. split_and!; [done|lia|done].
        -- intros e' [->|He']%elem_of_cons; [|by apply He].
           rewrite decide_False by done. lia.
      * destruct IH as (e' & ? & ?). exists e'. split; [set_solver|done].
Qed.

(** A state of the queue stands for at most so many steps. *)
Definition cap_weight (x : NodeIndex * nat) : nat :=
  search_weight (max_out_degree g) (max_hops - x.2).

(** Everything seen is accounted for, in the cap, the queue or what was seen. *)
Definition accounted (queue : list (NodeIndex * nat)) (seen : gset (NodeIndex * nat))
    (cap : option U256) : Prop :=
  ∀ node depth, (node, depth) ∈ seen → depth < max_hops ∧
    ∀ e, e ∈ outgoing_edges g node →
      if decide (ce_target e = target) then capped cap e
      else S depth < max_hops →
           (ce_target e, S depth) ∈ queue ∨ (ce_target e, S depth) ∈ seen.

Lemma cap_loop_spec fuel queue seen cap :
  sum_list_with cap_weight queue ≤ fuel →
  (∀ x, x ∈ queue → x.2 < max_hops) → accounted queue seen cap →
  ∃ res, cap_loop g index target target_token max_hops fuel queue seen cap = Some res ∧
    match res with
    | CapKnown c => ∃ seen', accounted [] seen' (Some c) ∧ seen ⊆ seen' ∧
        ∀ x, x ∈ queue → x ∈ seen'
    | CapUnknown => True
    end.
Proof.
  revert queue seen cap. induction fuel as [|fuel IH]; intros queue seen cap Hw Hq Hacc.
  { destruct queue as [|x queue]; simpl in *.
    - eexists. split; [done|]. destruct cap as [c|]; [|done].
      exists seen. split_and!; [done|done|set_solver].
    - pose proof (search_weight_pos (max_out_degree g) (max_hops - x.2)).
      unfold cap_weight in Hw at 1. lia. }
  destruct queue as [|[node depth] queue]; simpl.
  { eexists. split; [done|]. destruct cap as [c|]; [|done].
    exists seen. split_and!; [done|done|set_solver]. }
  simpl in Hw. assert (depth < max_hops) as Hd by (apply (Hq (node, depth)); set_solver).
  pose proof (search_weight_pos (max_out_degree g) (max_hops - depth)) as Hpos.
  unfold cap_weight in Hw at 1. simpl in Hw.
  rewrite (proj2 (Nat.leb_gt _ _)) by lia. simpl.
  destruct (bool_decide_reflect ((node, depth) ∈ seen)) as [Hin|Hnin].
  - destruct (IH queue seen cap) as (res & Hres & Hspec); [lia|set_solver| |].
    + intros n d Hnd. destruct (Hacc n d Hnd) as [? He]. split; [done|]. intros e Hout.
      specialize (He e Hout). destruct (decide (ce_target e = target)); [done|].
      intros Hlt. destruct (He Hlt) as [[[= -> ->]|?]%elem_of_cons|?]; auto.
    + exists res. split; [done|]. destruct res as [c|]; [|done].
      destruct Hspec as (seen' & ? & ? & ?). exists seen'. split_and!; [done|done|].
      intros x [->|?]%elem_of_cons; [set_solver|auto].
  - pose proof (cap_edges_spec depth (outgoing_edges g node) cap queue Hd) as Hedges.
    destruct (cap_edges _ _ _ _ _ _ cap queue) as [[cap' queue']|]; [|by eexists].
    destruct Hedges as (Hle & (added & -> & Hl & Ha) & He).
    destruct (IH (queue ++ added) ({[(node, depth)]} ∪ seen) cap')
      as (res & Hres & Hspec).
    + rewrite sum_list_with_app.
      assert (sum_list_with cap_weight added ≤
        search_weight (max_out_degree g) (max_hops - S depth) * length added).
      { apply sum_list_with_le. intros x Hx. unfold cap_weight. by destruct (Ha x Hx) as [-> _]. }
      pose proof (outgoing_edges_degree g node).
      destruct (max_hops - depth) as [|d] eqn:Hdd; [lia|]. simpl in Hw.
      replace (max_hops - S depth) with d in * by lia. nia.
    + intros x [?|Hx]%elem_of_app; [by apply Hq; set_solver|]. destruct (Ha x Hx). lia.
    + intros n d [Hnd%elem_of_singleton|Hnd]%elem_of_union.
      * injection Hnd as -> ->. split; [done|]. intros e Hout. specialize (He e Hout).
        destruct (decide (ce_target e = target)); [done|]. auto.
      * destruct (Hacc n d Hnd) as [? He']. split; [done|]. intros e Hout.
        specialize (He' e Hout). destruct (decide (ce_target e = target)).
        -- by eapply capped_le.
        -- intros Hlt. destruct (He' Hlt) as [[[= -> ->]|?]%elem_of_cons|?]; set_solver.
    + exists res. split; [done|]. destruct res as [c|]; [|done].
      destruct Hspec as (seen' & ? & ? & Hx). exists seen'. split_and!; [done|set_solver|].
      intros x [->|?]%elem_of_cons; [set_solver|]. apply Hx. set_solver.
Qed.

Lemma accounted_final seen c n node depth e :
  accounted [] seen (Some c) → (node, depth) ∈ seen → depth + n ≤ max_hops →
  final_edge n node e → capped (Some c) e.
Proof.
  intros Hacc Hin Hn Hf. revert depth Hin Hn.
  induction Hf as [node e He Ht|n node e' e He' Ht Hf IH]; intros depth Hin Hn.
  - destruct (Hacc node depth Hin) as [_ Hall]. specialize (Hall e He).
    by rewrite decide_True in Hall.
  - destruct (Hacc node depth Hin) as [_ Hall]. specialize (Hall e' He').
    rewrite decide_False in Hall by done.
    assert (S depth < max_hops) as Hlt by (destruct Hf; lia).
    destruct (Hall Hlt) as [?|Hin']; [set_solver|]. apply (IH (S depth)); [done|lia].
Qed.
End cap.

Lemma target_balance_cap_spec `{!AmmTypes} `{!Petgraph Address EdgeData} g liquidity_index
    start target target_token max_hops :
  ∃ res, target_balance_cap g liquidity_index start target target_token max_hops = Some res ∧
    ∀ cap n e, res = CapKnown cap → n ≤ max_hops → final_edge g target n start e →
      ∃ index b, liquidity_index = Some index ∧
        fresh_of (balance_state index (ce_pool e) target_token) = Some b ∧ (b <= cap)%Z.
Proof.
  unfold target_balance_cap. destruct liquidity_index as [index|]; [|by eexists].
  destruct (Nat.eqb_spec max_hops 0) as [|Hn]; [by eexists|].
  destruct (cap_loop_spec g index target target_token max_hops
    (search_weight (max_out_degree g) max_hops) [(start, 0)] ∅ None) as (res & Hres & Hspec).
  - simpl. unfold cap_weight. simpl. rewrite Nat.sub_0_r. lia.
  - intros x ->%list_elem_of_singleton. simpl. lia.
  - intros n d. set_solver.
  - exists res. split; [done|]. intros cap n e -> Hle Hf.
    destruct Hspec as (seen & Hacc & _ & Hin).
    destruct (accounted_final g index target target_token max_hops seen cap n start 0 e Hacc)
      as (b & c & Hb & [= <-] & ?); [apply Hin; set_solver|lia|done|eauto].
Qed.
