(* ===== verification/HeuristicSteps.v ===== *)
(** * What one step of the heuristic search may do

    The ranking, grouping and pruning operations only count in the quote cache,
    their answers do not depend on it; groups hold exactly the expandable
    edges; the fast lane's candidates are admissible routes; a prefix that the
    balance cap prunes has no continuation above the incumbent. *)

From S2P Require Import Prelude Ordering AmmState Petgraph Graph GraphPairs GraphInv GraphProps.
From S2P Require Import GraphTheorems Config SearchTypes Enumerate EnumerateProps.
From S2P Require Import EnumerateTheorems Liquidity QuoteCache QuoteCacheProps Quote QuoteProps.
From S2P Require Import Heuristic HeuristicProps HeuristicSearch.

(** ** Counting in the quote cache *)

Section recorded.
Context `{!AmmTypes}.

(** [qc'] is [qc] with more liquidity counters recorded. *)
Definition recorded (qc qc' : SharedQuoteCache) : Prop :=
  ∃ stats, qc' = foldl (λ qc s, record_liquidity_prune_stats s qc) qc stats.

Lemma recorded_refl qc : recorded qc qc.
Proof. by exists []. Qed.

Lemma recorded_one s qc : recorded qc (record_liquidity_prune_stats s qc).
Proof. by exists [s]. Qed.

Lemma recorded_trans qc1 qc2 qc3 : recorded qc1 qc2 → recorded qc2 qc3 → recorded qc1 qc3.
Proof. intros [l1 ->] [l2 ->]. exists (l1 ++ l2). by rewrite foldl_app. Qed.

Lemma recorded_coherent R sim ctx qc qc' :
  recorded qc qc' → coherent R sim ctx qc → coherent R sim ctx qc'.
Proof.
  intros [stats ->]. revert qc. induction stats as [|s stats IH]; intros qc Hqc; [done|].
  simpl. apply IH. destruct Hqc as [H1 H2 H3]. unfold record_liquidity_prune_stats.
  destruct (decide _); [done|]. by constructor.
Qed.

(** An operation whose answer is [a] whatever the cache, and that only counts. *)
Definition counts {A} (f : SharedQuoteCache → A * SharedQuoteCache) (a : A) : Prop :=
  ∀ qc, ∃ qc', f qc = (a, qc') ∧ recorded qc qc'.
Definition counts_some {A} (f : SharedQuoteCache → option (A * SharedQuoteCache)) (a : A) : Prop :=
  ∀ qc, ∃ qc', f qc = Some (a, qc') ∧ recorded qc qc'.

Lemma counts_nothing {A} (a : A) : counts (λ qc, (a, qc)) a.
Proof. intros qc. eexists. split; [done|apply recorded_refl]. Qed.
Lemma counts_stats {A} (a : A) s : counts (λ qc, (a, record_liquidity_prune_stats s qc)) a.
Proof. intros qc. eexists. split; [done|apply recorded_one]. Qed.
Lemma counts_some_nothing {A} (a : A) : counts_some (λ qc, Some (a, qc)) a.
Proof. intros qc. eexists. split; [done|apply recorded_refl]. Qed.
Lemma counts_some_stats {A} (a : A) s :
  counts_some (λ qc, Some (a, record_liquidity_prune_stats s qc)) a.
Proof. intros qc. eexists. split; [done|apply recorded_one]. Qed.

Lemma counts_bind {A B} (f : SharedQuoteCache → A * SharedQuoteCache)
    (k : A → SharedQuoteCache → B * SharedQuoteCache) a b :
  counts f a → counts (k a) b → counts (λ qc, let '(x, qc) := f qc in k x qc) b.
Proof.
  intros Hf Hk qc. destruct (Hf qc) as (qc1 & -> & H1). destruct (Hk qc1) as (qc2 & -> & H2).
  exists qc2. split; [done|by eapply recorded_trans].
Qed.
End recorded.
#[export] Hint Resolve counts_nothing counts_stats counts_some_nothing counts_some_stats : amm.

Section steps.
Context `{!AmmTypes} `{!Petgraph Address EdgeData}.
Context (registry : AdapterRegistry) (g : AmmGraph)
  (liquidity_index : option PoolLiquidityIndex).

(** ** Ranking and shortlisting *)

Lemma rank_hop_hop active protocol hop :
  lr_hop (rank_hop registry liquidity_index active protocol hop) = hop.
Proof. done. Qed.

Lemma liquidity_ranked_hops_spec hops es config pass_mode :
  ∃ ranked, counts (liquidity_ranked_hops registry liquidity_index hops es config pass_mode) ranked ∧
    lr_hop <$> ranked ≡ₚ hops.
Proof.
  unfold liquidity_ranked_hops. eexists. split; [apply counts_stats|].
  set (active := lp_enabled config && _ && _). set (protocol := es_protocol_ordering es && _).
  assert (lr_hop <$> (rank_hop registry liquidity_index active protocol <$> hops) = hops) as Hid.
  { rewrite <- list_fmap_compose. rewrite <- (list_fmap_id hops) at 2.
    apply list_fmap_ext. done. }
  destruct (protocol || _); [rewrite stable_sort_perm|]; by rewrite Hid.
Qed.

Lemma shortlisted_ranked_hops_spec ranked h pass_mode :
  ∃ short, counts (shortlisted_ranked_hops ranked h pass_mode) short ∧
    (∀ r, r ∈ short → r ∈ ranked) ∧
    (es_enabled (edge_shortlist h) = false → short = ranked).
Proof.
  unfold shortlisted_ranked_hops. destruct (es_enabled (edge_shortlist h)) eqn:Hes; simpl.
  - destruct (length ranked <=? 1).
    + exists ranked. split_and!; [apply counts_nothing|done..].
    + eexists. split_and!; [apply counts_stats| |done].
      intros r. unfold take_limit. destruct (edge_limit pass_mode h) as [n|]; [|done].
      intros (i & Hi & _)%elem_of_take. by eapply list_elem_of_lookup_2.
  - exists ranked. split_and!; [apply counts_nothing|done..].
Qed.

Lemma should_prune_liquidity_hop_spec ranked best config closes_target :
  ∃ b, counts (should_prune_liquidity_hop liquidity_index ranked best config closes_target) b ∧
    (b = true → lp_enabled config = true ∧ lr_liquidity_active ranked = true ∧
      ∃ balance amount, best = Some amount ∧
        fresh_of (lr_output_balance ranked) = Some balance ∧ (balance <= amount)%Z).
Proof.
  unfold should_prune_liquidity_hop.
  destruct (lr_liquidity_active ranked), (lp_enabled config), (lp_prune_balance_dominated config),
    best as [amount|]; simpl; try (by exists false; split; [apply counts_nothing|]).
  destruct (fresh_of (lr_output_balance ranked)) as [balance|] eqn:Hb;
    [|by exists false; split; [apply counts_nothing|]].
  destruct (negb _ || (amount <? balance)%Z) eqn:Hc.
  - exists false. split; [apply counts_nothing|done].
  - exists true. split; [apply counts_stats|].
    apply orb_false_iff in Hc as [_ Hc%Z.ltb_ge]. intros _. eauto 10.
Qed.
End steps.

(** ** Expandable edges and their groups *)

(** The prefix a state stands for, as the enumeration's state. *)
Definition search_state `{!AmmTypes} (st : HeuristicState) : SearchState :=
  {| ss_node := hs_node st; ss_path := hs_path st;
     ss_visited_tokens := hs_visited_tokens st; ss_used_pools := hs_used_pools st |}.

(** The configuration with the connectors the search settled on. *)
Definition effective_config (connectors : option (gset Address)) (c : SearchConfig) : SearchConfig :=
  {| min_hops := min_hops c; max_hops := max_hops c; max_candidates := max_candidates c;
     connector_tokens := connectors; mode := mode c; liquidity_pruning := liquidity_pruning c |}.

Section groups.
Context `{!AmmTypes} `{!Petgraph Address EdgeData} `{!PetgraphLaws Address EdgeData}.
Context (g : AmmGraph) (liquidity_index : option PoolLiquidityIndex)
  (ti to : Address) (source target : NodeIndex) (config : SearchConfig) (allow : bool).
Hypothesis (Hwf : graph_wf g).
Hypothesis (Hsource : node_index g ti = Some source).
Hypothesis (Htarget : node_index g to = Some target).
Implicit Types (st : HeuristicState) (e : CachedOutgoingEdge).

Abbreviation ok st := (state_ok g ti to config (search_state st)).
Abbreviation allowed :=
  (edge_allowed ti to source target (connector_tokens config) allow).
Abbreviation open := (open_route g ti to config allow).
Abbreviation expandable_ :=
  (expandable g ti to source target (connector_tokens config) allow).

(** An edge is expandable when it completes the route, or leads to a state
    from which a way on of admissible length exists. *)
Lemma expandable_spec st max_hops e :
  ok st → e ∈ outgoing_edges g (hs_node st) →
  expandable_ st max_hops e = true ↔
  (ce_target e = target ∧ open (hs_path st ++ [edge_hop e])) ∨
  (ce_target e ≠ target ∧ ce_pool e ∉ hs_used_pools st ∧
   allowed (hs_visited_tokens st) e = true ∧
   ∃ q, q ≠ [] ∧ length (hs_path st) + 1 + length q ≤ max_hops ∧
     open (hs_path st ++ edge_hop e :: q)).
Proof.
  intros Hok He. unfold expandable.
  pose proof (target_edge_completes g ti to source target config allow Hwf Hsource Htarget
    (search_state st) e Hok He) as Hcomp.
  cbn [search_state ss_path ss_visited_tokens ss_used_pools ss_node] in Hcomp.
  destruct (bool_decide_reflect (ce_pool e ∈ hs_used_pools st)) as [Hp|Hp].
  { split; [done|]. intros [[Ht Hr]|(_&?&_)]; [|done]. apply Hcomp in Hr; [|done]. tauto. }
  destruct (allowed (hs_visited_tokens st) e) eqn:Hal; cbn [negb].
  2: { split; [done|]. intros [[Ht Hr]|(_&_&?&_)]; [|done]. apply Hcomp in Hr; [|done].
       destruct Hr as [_ Hr]. congruence. }
  destruct (bool_decide_reflect (ce_target e = target)) as [Ht|Ht].
  { split; [|done]. intros _. left. split; [done|]. by apply Hcomp. }
  destruct (Nat.eqb_spec (max_hops - (length (hs_path st) + 1)) 0) as [Hz|Hz].
  { split; [done|]. intros [[? _]|(_&_&_&q&Hq&Hl&_)]; [done|]. destruct q; [done|simpl in Hl; lia]. }
  unfold has_static_route_to_target. rewrite decide_False by done.
  rewrite (proj2 (Nat.eqb_neq _ _)) by done.
  assert (state_ok g ti to config (step_state (search_state st) e)) as Hstep
    by (eapply step_edge_extends; eauto).
  pose proof (has_static_route_dfs_spec g ti to source target config allow Hwf Hsource Htarget
    (max_hops - (length (hs_path st) + 1)) _ Hstep) as Hdfs.
  cbn [step_state search_state ss_path ss_visited_tokens ss_used_pools ss_node] in Hdfs.
  rewrite Hdfs by lia. split.
  - intros (q & Hq & Hl & Hr). right. split_and!; [done..|]. exists q.
    rewrite <- (assoc_L (++)) in Hr. split_and!; [done|lia|done].
  - intros [[? _]|(_&_&_&q&Hq&Hl&Hr)]; [done|]. exists q. rewrite <- (assoc_L (++)).
    split_and!; [done|lia|done].
Qed.

(** The map groups the hops of the expandable edges by output token. *)
Lemma group_edges_lookup st max_hops t :
  default [] (group_edges g ti to source target (connector_tokens config) allow st max_hops !! t) =
  edge_hop <$> filter (λ e, expandable_ st max_hops e = true ∧ ce_token_out e = t)
    (outgoing_edges g (hs_node st)).
Proof.
  unfold group_edges. induction (outgoing_edges g (hs_node st)) as [|e es IH] using rev_ind; [done|].
  rewrite foldl_snoc, filter_app, fmap_app, <- IH.
  destruct (expandable_ st max_hops e) eqn:He.
  - rewrite default_entry. destruct (decide (ce_token_out e = t)) as [Ht|Ht].
    + by rewrite filter_cons_True.
    + rewrite filter_cons_False by tauto. simpl. by rewrite app_nil_r.
  - rewrite filter_cons_False by (rewrite He; naive_solver). simpl. by rewrite app_nil_r.
Qed.

Lemma group_edges_hops st max_hops t hops :
  group_edges g ti to source target (connector_tokens config) allow st max_hops !! t = Some hops →
  hops = edge_hop <$> filter (λ e, expandable_ st max_hops e = true ∧ ce_token_out e = t)
    (outgoing_edges g (hs_node st)).
Proof. intros Ht. rewrite <- group_edges_lookup, Ht. done. Qed.

(** The groups of a state: exactly the hops of its expandable edges, whatever
    the iteration order of the map, as soon as the comparator is an order. *)
Lemma group_heuristic_hops_spec st max_hops h lconfig :
  target_first h = true ∨ ranks_branches lconfig = false →
  ∃ groups,
    counts_some (group_heuristic_hops g liquidity_index ti to source target
      (connector_tokens config) allow st max_hops h lconfig) groups ∧
    (∀ hop grp, grp ∈ groups → hop ∈ hg_hops grp →
      ∃ e, e ∈ outgoing_edges g (hs_node st) ∧ expandable_ st max_hops e = true ∧
        edge_hop e = hop) ∧
    (∀ e, e ∈ outgoing_edges g (hs_node st) → expandable_ st max_hops e = true →
      ∃ grp, grp ∈ groups ∧ edge_hop e ∈ hg_hops grp) ∧
    (∀ grp, grp ∈ groups → length (hg_hops grp) ≤ max_out_degree g).
Proof.
  intros Hcase. unfold group_heuristic_hops, sorted_heuristic_hop_groups.
  set (grouped := map_to_list _). set (scored := score_group _ _ _ _ _ _ <$> grouped).
  rewrite sort_by_preorder by (by apply group_cmp_preorder).
  eexists. split; [apply counts_some_stats|].
  assert (∀ grp, grp ∈ sg_group <$> stable_sort (not_greater (group_cmp h lconfig)) (fst <$> scored) ↔
    ∃ t hops, (t, hops) ∈ grouped ∧
      grp = {| hg_next_token := t; hg_hops := hops;
               hg_closes_target := bool_decide (node_index g t = Some target) |}) as Hin.
  { intros grp. rewrite (stable_sort_perm (not_greater (group_cmp h lconfig))).
    unfold scored. rewrite <- !list_fmap_compose, list_elem_of_fmap. split.
    - intros ([t hops] & -> & Hin). exists t, hops. split; [done|]. simpl.
      by destruct (branch_liquidity_score _ _ _ _).
    - intros (t & hops & Hin & ->). exists (t, hops). split; [|done]. simpl.
      by destruct (branch_liquidity_score _ _ _ _). }
  split_and!.
  - intros hop grp (t & hops & Hg & ->)%Hin Hh. apply elem_of_map_to_list, group_edges_hops in Hg.
    simpl in Hh. rewrite Hg in Hh. apply list_elem_of_fmap in Hh as (e & -> & He).
    apply list_elem_of_filter in He as [[? _] ?]. eauto.
  - intros e He Hex. pose proof (group_edges_lookup st max_hops (ce_token_out e)) as Hl.
    assert (edge_hop e ∈ edge_hop <$>
      filter (λ e', expandable_ st max_hops e' = true ∧ ce_token_out e' = ce_token_out e)
        (outgoing_edges g (hs_node st))) as Hmem.
    { apply list_elem_of_fmap. exists e. split; [done|]. by apply list_elem_of_filter. }
    rewrite <- Hl in Hmem. destruct (group_edges _ _ _ _ _ _ _ _ _ !! ce_token_out e) as [hops|] eqn:Hg;
      simpl in Hmem; [|set_solver].
    eexists. split; [apply Hin; exists (ce_token_out e), hops; split; [by apply elem_of_map_to_list|done]|].
    done.
  - intros grp (t & hops & Hg & ->)%Hin. apply elem_of_map_to_list, group_edges_hops in Hg.
    simpl. rewrite Hg, length_fmap. etrans; [apply length_filter|]. apply outgoing_edges_degree.
Qed.

(** ** The balance cap of a prefix *)

(** The last hop of a continuation is an edge the cap looked at. *)
Lemma open_final_edge (st : SearchState) q :
  state_ok g ti to config st → q ≠ [] → open (ss_path st ++ q) →
  ∃ e, last q = Some (edge_hop e) ∧ final_edge g target (length q) (ss_node st) e.
Proof.
  revert st. induction q as [|h q IH]; intros st Hok Hq Hr; [done|].
  destruct (decide (q = [])) as [->|Hq'].
  - destruct (completing_edge g ti to source target config allow Hwf Hsource Htarget st h Hok Hr)
      as (e & He & Heh & Ht & _). exists e. rewrite Heh. split; [done|]. by constructor.
  - destruct (open_route_prefix g ti to config allow _ _ _ Hq' Hr) as [cur Hpre].
    destruct (prefix_edge g ti to source target config allow Hwf Htarget st h cur Hok Hpre)
      as (e & He & Heh & Ht & Hnp & Hal).
    destruct (IH (step_state st e)) as (e' & Hlast & Hf).
    + by eapply step_edge_extends.
    + done.
    + simpl. rewrite Heh, <- (assoc_L (++)). done.
    + exists e'. split; [|by econstructor]. destruct q; [done|]. by simpl in *.
Qed.

Lemma should_prune_upper_bound_prefix_spec st max_hops incumbent uconfig :
  ok st →
  ∃ b, counts_some (should_prune_upper_bound_prefix g liquidity_index to target allow st
         max_hops incumbent uconfig) b ∧
    (b = true →
      ub_enabled uconfig = true ∧ ub_balance_cap_pruning uconfig = true ∧
      ∃ inc, incumbent = Some inc ∧
      ∀ q, q ≠ [] → length (hs_path st) + length q ≤ max_hops → open (hs_path st ++ q) →
        ∃ index h b, liquidity_index = Some index ∧ last q = Some h ∧ hop_token_out h = to ∧
          fresh_of (balance_state index (hop_pool h) (hop_token_out h)) = Some b ∧ (b <= inc)%Z).
Proof.
  intros Hok. unfold should_prune_upper_bound_prefix.
  destruct incumbent as [inc|]; [|by exists false; split; [apply counts_some_nothing|]].
  destruct (allow || negb (ub_enabled uconfig) || negb (ub_balance_cap_pruning uconfig)
    || bool_decide (hs_node st = target) || (max_hops <=? length (hs_path st))) eqn:Hg;
    [by exists false; split; [apply counts_some_nothing|]|].
  rewrite !orb_false_iff, !negb_false_iff in Hg. destruct Hg as [[[[_ Hub] Hcap] _] _].
  destruct (target_balance_cap_spec g liquidity_index (hs_node st) target to
    (max_hops - length (hs_path st))) as (res & -> & Hres). cbn [mbind option_bind].
  destruct res as [cap|].
  - destruct (Z.leb_spec cap inc) as [Hle|Hgt].
    + exists true. split; [apply counts_some_stats|]. intros _. split_and!; [done..|].
      exists inc. split; [done|]. intros q Hq Hl Hr.
      destruct (open_final_edge (search_state st) q Hok Hq Hr) as (e & Hlast & Hf).
      destruct (Hres cap (length q) e eq_refl) as (index & b & Hix & Hb & ?); [lia|done|].
      assert (ce_token_out e = to) as Hto.
      { clear -Hf Htarget Hwf. simpl in Hf. induction Hf as [node e He Ht|]; [|done].
        by apply (closes_target_token g to target Hwf Htarget _ _ He). }
      exists index, (edge_hop e), b. simpl. rewrite Hto. split_and!; [done..|lia].
    + exists false. split; [apply counts_some_nothing|done].
  - destruct (ub_fail_open_on_unknown uconfig);
      exists false; (split; [|done]); [apply counts_some_stats|apply counts_some_nothing].
Qed.

End groups.

(** ** The fast lane *)

Section fast_lane.
Context `{!AmmTypes} `{!Petgraph Address EdgeData} `{!PetgraphLaws Address EdgeData}.
Context (registry : AdapterRegistry) (g : AmmGraph) (liquidity_index : option PoolLiquidityIndex)
  (ti to : Address) (config : SearchConfig) (h : HeuristicSearchConfig) (tokens : gset Address)
  (allow : bool).
Hypothesis (Hwf : graph_wf g).
Hypothesis (Hne : ti ≠ to).
Let cfg := effective_config (Some tokens) config.
Let valid := valid_route g ti to cfg allow.

Abbreviation between := (ranked_hops_between registry g liquidity_index).

Definition hop_between (from to' : Address) (h : Hop) : Prop :=
  swap_of g h ∧ hop_token_in h = from ∧ hop_token_out h = to'.

Lemma ranked_hops_between_spec from to' es lconfig pass_mode :
  ∃ ranked, counts (between from to' es lconfig pass_mode) ranked ∧
    ∀ r, r ∈ ranked → hop_between from to' (lr_hop r).
Proof.
  unfold ranked_hops_between. destruct (node_index g from) as [node|] eqn:Hn.
  2: { exists []. split; [apply counts_nothing|set_solver]. }
  destruct (liquidity_ranked_hops_spec registry liquidity_index
    (edge_hop <$> filter (λ e, ce_token_out e = to') (outgoing_edges g node)) es lconfig pass_mode)
    as (ranked & Hc & Hp).
  exists ranked. split; [done|]. intros r Hr.
  assert (lr_hop r ∈ lr_hop <$> ranked) as Hin by (by apply list_elem_of_fmap_2).
  rewrite Hp in Hin. apply list_elem_of_fmap in Hin as (e & -> & He).
  apply list_elem_of_filter in He as [Ho He].
  destruct (proj1 (outgoing_swaps g Hwf from node (edge_hop e) Hn) (ex_intro _ e (conj He eq_refl))).
  done.
Qed.

(** The routes gathered so far. *)
Definition gathered (P : RoutePath → Prop) (acc : list RoutePath * gset RoutePath) : Prop :=
  NoDup acc.1 ∧ (∀ p, p ∈ acc.1 ↔ p ∈ acc.2) ∧ ∀ p, p ∈ acc.1 → P p.

Lemma push_unseen_gathered P acc paths :
  gathered P acc → (∀ p, p ∈ paths → P p) → gathered P (foldl push_unseen acc paths).
Proof.
  revert acc. induction paths as [|p paths IH]; intros acc Hacc HP; [done|]. simpl.
  apply IH; [|set_solver]. destruct acc as [ps seen], Hacc as (Hnd & Hs & Hps). unfold push_unseen.
  simpl in *. destruct (decide (p ∈ seen)) as [Hin|Hin]; [done|]. split_and!; simpl.
  - apply NoDup_app. split_and!; [done| |apply NoDup_singleton].
    intros x Hx. rewrite list_elem_of_singleton. intros ->. by apply Hin, Hs.
  - intros x. rewrite elem_of_app, list_elem_of_singleton, elem_of_union, elem_of_singleton, Hs. tauto.
  - intros x [?| ->%list_elem_of_singleton]%elem_of_app; [by apply Hps|apply HP; set_solver].
Qed.

Lemma direct_route hop :
  hop_between ti to hop → min_hops config ≤ 1 ≤ max_hops config →
  valid_route g ti to cfg allow [hop].
Proof.
  intros (Hs & Hi & Ho) Hl. exists [], ti, hop. split_and!; simpl; try done; try lia; [|set_solver].
  constructor; simpl; [done|constructor|constructor|apply NoDup_singleton|set_solver|set_solver].
Qed.

Lemma two_hop_route c h1 h2 :
  hop_between ti c h1 → hop_between c to h2 → hop_pool h1 ≠ hop_pool h2 →
  c ≠ ti → c ≠ to → connector_allowed c ti to cfg = true →
  min_hops config ≤ 2 ≤ max_hops config → valid_route g ti to cfg allow [h1; h2].
Proof.
  intros (Hs1 & Hi1 & Ho1) (Hs2 & Hi2 & Ho2) Hp Hct Hcto Hcon Hl.
  exists [h1], c, h2. simpl. split_and!; try done; try lia; [|set_solver].
  constructor; csimpl.
  - done.
  - by apply Forall_singleton.
  - apply NoDup_singleton.
  - apply NoDup_cons. split; [rewrite Ho1; set_solver|apply NoDup_singleton].
  - rewrite Ho1. set_solver.
  - intros t ->%list_elem_of_singleton. by rewrite Ho1.
Qed.

Lemma connector_paths_valid c first second :
  (∀ r, r ∈ first → hop_between ti c (lr_hop r)) →
  (∀ r, r ∈ second → hop_between c to (lr_hop r)) →
  c ≠ ti → c ≠ to → connector_allowed c ti to cfg = true →
  min_hops config ≤ 2 ≤ max_hops config →
  ∀ p, p ∈ connector_paths first second → valid_route g ti to cfg allow p.
Proof.
  intros H1 H2 ? ? ? ? p (r1 & Hp & Hr1)%list_elem_of_bind.
  apply list_elem_of_omap in Hp as (r2 & Hr2 & Hp).
  destruct (decide (hop_pool (lr_hop r1) = hop_pool (lr_hop r2))) as [|Hpool]; [done|].
  injection Hp as <-. eapply two_hop_route; eauto.
Qed.

(** Central connectors are connectors, and neither endpoint. *)
Lemma dedup_subset {A} `{EqDecision A} (l : list A) x : x ∈ dedup l → x ∈ l.
Proof.
  induction l as [|y l IH]; [done|]. cbn [dedup]. destruct l as [|z l]; [done|].
  destruct (decide (y = z)); [|]; set_solver.
Qed.

Lemma central_connectors_spec c :
  c ∈ ranked_central_connectors g liquidity_index ti to (Some tokens) →
  c ≠ ti ∧ c ≠ to ∧ connector_allowed c ti to cfg = true.
Proof.
  unfold ranked_central_connectors. intros Hc%dedup_subset.
  rewrite elem_of_stable_sort, list_elem_of_filter in Hc. simpl in Hc.
  rewrite elem_of_elements in Hc. destruct Hc as [[? ?] Hin]. split_and!; [done..|].
  unfold connector_allowed, connector_allowed_with_tokens.
  rewrite !bool_decide_eq_false_2 by done. simpl. by apply bool_decide_eq_true.
Qed.

Lemma fast_lane_connectors_spec cs acc :
  (∀ c, c ∈ cs → c ≠ ti ∧ c ≠ to ∧ connector_allowed c ti to cfg = true) →
  min_hops config ≤ 2 ≤ max_hops config → gathered valid acc →
  ∃ acc', counts (fast_lane_connectors registry g liquidity_index ti to cs h config acc) acc' ∧
    gathered valid acc'.
Proof.
  intros Hcs Hl. revert acc. induction cs as [|c cs IH]; intros acc Hacc.
  { exists acc. split; [apply counts_nothing|done]. }
  destruct (ranked_hops_between_spec ti c (edge_shortlist h)
    (liquidity_pruning config) PassInitial) as (r1 & Hc1 & H1).
  destruct (ranked_hops_between_spec c to (edge_shortlist h)
    (liquidity_pruning config) PassInitial) as (r2 & Hc2 & H2).
  set (n := fl_connector_edges_per_pair (fast_lane h)).
  destruct (IH ltac:(set_solver)
    (foldl push_unseen acc (connector_paths (take n r1) (take n r2)))) as (acc' & Hc & Hacc').
  { apply push_unseen_gathered; [done|]. destruct (Hcs c) as (? & ? & ?); [set_solver|].
    apply (connector_paths_valid c); try done.
    - intros r (i & Hi & _)%elem_of_take. apply H1. by eapply list_elem_of_lookup_2.
    - intros r (i & Hi & _)%elem_of_take. apply H2. by eapply list_elem_of_lookup_2. }
  exists acc'. split; [|done]. cbn [fast_lane_connectors].
  eapply counts_bind; [exact Hc1|]. eapply counts_bind; [exact Hc2|]. exact Hc.
Qed.

(** The candidates of the fast lane are distinct admissible routes. *)
Lemma fast_lane_paths_spec :
  ∃ paths, counts (fast_lane_paths registry g liquidity_index ti to (Some tokens) config h) paths ∧
    NoDup paths ∧ ∀ p, p ∈ paths → valid p.
Proof.
  unfold fast_lane_paths. destruct (Nat.eqb_spec (max_hops config) 0) as [|Hmax].
  { exists []. split_and!; [apply counts_nothing|constructor|set_solver]. }
  assert (∃ acc, counts (λ qc,
    if fl_evaluate_direct_best_first (fast_lane h) && (min_hops config <=? 1) then
      let '(ranked, qc) := ranked_hops_between registry g liquidity_index ti to (edge_shortlist h)
        (liquidity_pruning config) PassInitial qc in
      (foldl push_unseen ([], ∅)
        (direct_paths (take (fl_direct_edges_per_pair (fast_lane h)) ranked)), qc)
    else (([], ∅), qc)) acc ∧ gathered valid acc) as (acc & Hc & Hacc).
  { assert (gathered valid ([], ∅)) as H0.
    { split_and!; simpl; [constructor|set_solver|set_solver]. }
    destruct (fl_evaluate_direct_best_first _ && _) eqn:Hdir.
    - apply andb_prop in Hdir as [_ Hmin%Nat.leb_le].
      destruct (ranked_hops_between_spec ti to (edge_shortlist h)
        (liquidity_pruning config) PassInitial) as (r & Hcr & Hr).
      eexists. split; [eapply counts_bind; [exact Hcr|apply counts_nothing]|].
      apply push_unseen_gathered; [done|]. unfold direct_paths.
      intros p (x & -> & (i & Hi & _)%elem_of_take)%list_elem_of_fmap.
      apply direct_route; [|simpl; lia].
      apply Hr. by eapply list_elem_of_lookup_2.
    - exists ([], ∅). split; [apply counts_nothing|done]. }
  assert (∃ acc', counts (λ qc,
    if (2 <=? max_hops config) && (min_hops config <=? 2) then
      fast_lane_connectors registry g liquidity_index ti to
        (take (fl_max_connectors (fast_lane h))
           (ranked_central_connectors g liquidity_index ti to (Some tokens))) h config acc qc
    else (acc, qc)) acc' ∧ gathered valid acc') as (acc' & Hc' & Hacc').
  { destruct ((2 <=? _) && _) eqn:Htwo; [|by exists acc; split; [apply counts_nothing|]].
    apply andb_prop in Htwo as [H2%Nat.leb_le Hmin%Nat.leb_le].
    apply fast_lane_connectors_spec; [|lia|done].
    intros c (i & Hi & _)%elem_of_take. apply list_elem_of_lookup_2 in Hi.
    by apply central_connectors_spec. }
  exists acc'.1. split.
  - eapply counts_bind; [exact Hc|]. eapply counts_bind; [exact Hc'|apply counts_nothing].
  - destruct Hacc' as (? & ? & ?). done.
Qed.
End fast_lane.
