(* ===== verification/HeuristicRun.v ===== *)
(** * Runs of the heuristic search

    A specification logic for the functions that thread a [Run]: [runs f r k]
    says that from any usable caches [f] returns, with an outcome that does not
    depend on them.  On top of it, the invariant of a run ([run_ok]: every quote
    is the quote of an admissible route, each once), what a step may change
    ([grows]) and, when nothing is pruned, that no admissible route is lost
    ([settled], [pending]); lifted from one hop group to states, levels and
    passes. *)

From S2P Require Import Prelude Ordering AmmState Petgraph Graph GraphPairs GraphInv GraphProps.
From S2P Require Import GraphTheorems Config SearchTypes Enumerate EnumerateProps.
From S2P Require Import EnumerateTheorems Liquidity QuoteCache QuoteCacheProps Quote QuoteProps.
From S2P Require Import Heuristic HeuristicProps HeuristicSearch HeuristicSteps.

(** ** Quotes of extended paths *)

Section paths.
Context `{!AmmTypes} {E : Type} (q : Hop → U256 → result E U256) (empty : E).

Lemma fold_hops_app p p' a quoted :
  fold_hops q (p ++ p') a quoted =
  match fold_hops q p a quoted with
  | Ok (a', quoted') => fold_hops q p' a' quoted'
  | Err e => Err e
  end.
Proof.
  revert a quoted. induction p as [|hop p IH]; intros a quoted; simpl; [done|].
  destruct (q hop a); [apply IH|done].
Qed.

Lemma fold_path_snoc p hop a :
  fold_path q empty (p ++ [hop]) a =
  match fold_hops q p a [] with
  | Ok (a', quoted) =>
      match q hop a' with
      | Ok out =>
          Ok {| rq_path := p ++ [hop]; rq_amount_in := a; rq_amount_out := out;
                rq_hops := quoted ++ [{| hq_hop := hop; hq_amount_in := a'; hq_amount_out := out |}] |}
      | Err e => Err e
      end
  | Err e => Err e
  end.
Proof.
  unfold fold_path. rewrite fold_hops_app. destruct (p ++ [hop]) eqn:Hp; [by destruct p|].
  destruct (fold_hops q p a []) as [[a' quoted]|]; [|done]. simpl. by destruct (q hop a').
Qed.

Lemma fold_path_prefix_Err p p' a e :
  fold_hops q p a [] = Err e → fold_path q empty (p ++ p') a = Err e.
Proof.
  intros Hf. unfold fold_path. rewrite fold_hops_app, Hf. by destruct p.
Qed.

Lemma fold_path_path p a r : fold_path q empty p a = Ok r → rq_path r = p ∧ rq_amount_in r = a.
Proof.
  unfold fold_path. destruct p as [|hop p]; [done|].
  destruct (fold_hops q (hop :: p) a []) as [[out hs]|]; [|done]. by intros [= <-].
Qed.
End paths.

Section run.
Context `{!AmmTypes} `{!Petgraph Address EdgeData} `{!PetgraphLaws Address EdgeData} {S : Type}.
Context (registry : AdapterRegistry) (g : AmmGraph)
  (liquidity_index : option PoolLiquidityIndex).
Context (ti to : Address) (source target : NodeIndex) (amount_in : U256)
  (config : SearchConfig) (h : HeuristicSearchConfig) (sim_config : SimConfig)
  (connectors : option (gset Address)) (allow : bool)
  (on_quote : option (RouteQuote → S → bool * S)).
Context (Inv : AdapterCache → Prop) (sim : SimConfig → Hop → U256 → result SimError U256)
  (ctx : QuoteKeyContext).
Implicit Types (r : Run S) (st : HeuristicState).

(** The admissible routes of this search, and their quotes. *)
Definition cfg : SearchConfig := effective_config connectors config.
Abbreviation valid := (valid_route g ti to cfg allow).
Abbreviation open := (open_route g ti to cfg allow).
Abbreviation hopq := (hop_quote registry sim sim_config ctx).
Abbreviation pathq p := (path_quote registry sim sim_config ctx p amount_in).

(** ** The logic *)

Definition usable_caches (qc : SharedQuoteCache) (c : AdapterCache) : Prop :=
  coherent registry sim ctx qc ∧ Inv c.

Definition runs {B} (f : Run S → option B) r (k : SharedQuoteCache → AdapterCache → B) : Prop :=
  ∀ qc c, usable_caches qc c →
    ∃ qc' c', f (set_run_caches qc c r) = Some (k qc' c') ∧ usable_caches qc' c'.

Lemma usable_recorded qc qc' c : recorded qc qc' → usable_caches qc c → usable_caches qc' c.
Proof. intros Hr [Hqc Hc]. split; [by eapply recorded_coherent|done]. Qed.

Lemma runs_return {B} (f : Run S → option B) r k :
  (∀ qc c, f (set_run_caches qc c r) = Some (k qc c)) → runs f r k.
Proof. intros Hf qc c Hu. exists qc, c. by rewrite Hf. Qed.

(** Continue after an operation that only counts. *)
Lemma runs_counts {A B} (f : SharedQuoteCache → A * SharedQuoteCache) a
    (rest : A → SharedQuoteCache → Run S → option B) (F : Run S → option B) r k :
  counts f a →
  (∀ qc c, F (set_run_caches qc c r) =
           let '(x, qc) := f qc in rest x qc (set_run_caches qc c r)) →
  runs (λ r, rest a (run_quote_cache r) r) r k → runs F r k.
Proof.
  intros Hf HF Hk qc c Hu. rewrite HF. destruct (Hf qc) as (qc1 & -> & Hrec).
  apply Hk. by eapply usable_recorded.
Qed.

(** ** States, quotes and routes *)

Record hstate_ok st : Prop := {
  ho_state : state_ok g ti to cfg (search_state st);
  ho_quote : fold_hops hopq (hs_path st) amount_in [] = Ok (hs_amount st, hs_hop_quotes st);
}.

Lemma pathq_snoc st hop :
  hstate_ok st →
  pathq (hs_path st ++ [hop]) =
  match hopq hop (hs_amount st) with
  | Ok out =>
      Ok {| rq_path := hs_path st ++ [hop]; rq_amount_in := amount_in; rq_amount_out := out;
            rq_hops := hs_hop_quotes st ++
              [{| hq_hop := hop; hq_amount_in := hs_amount st; hq_amount_out := out |}] |}
  | Err e => Err e
  end.
Proof. intros [_ Hq]. unfold path_quote. by rewrite fold_path_snoc, Hq. Qed.

(** A hop that fails makes every continuation fail. *)
Lemma pathq_hop_Err st hop q e :
  hstate_ok st → hopq hop (hs_amount st) = Err e → pathq (hs_path st ++ hop :: q) = Err e.
Proof.
  intros [_ Hq] He. unfold path_quote.
  replace (hs_path st ++ hop :: q) with ((hs_path st ++ [hop]) ++ q)
    by (by rewrite <- (assoc_L (++))).
  apply fold_path_prefix_Err. rewrite fold_hops_app, Hq. simpl. by rewrite He.
Qed.

(** ** The invariant of a run *)

Record run_ok r : Prop := {
  ro_quotes q : q ∈ run_quotes r → valid (rq_path q) ∧ pathq (rq_path q) = Ok q;
  ro_nodup : NoDup (rq_path <$> run_quotes r);
  ro_evaluated q : q ∈ run_quotes r → rq_path q ∈ run_evaluated r;
  ro_resolved p : p ∈ run_evaluated r → run_stopped r = false →
    match pathq p with Ok q => q ∈ run_quotes r | Err _ => run_failures r ≠ [] end;
  ro_incumbent inc : run_incumbent r = Some inc →
    ∃ q, q ∈ run_quotes r ∧ rq_amount_out q = inc;
  ro_failures f : f ∈ run_failures r → pathq (pf_path f) = Err (pf_reason f);
  ro_stopped : run_stopped r = true → run_quotes r ≠ [];
}.

Record grows r r' : Prop := {
  gr_quotes q : q ∈ run_quotes r → q ∈ run_quotes r';
  gr_failures : run_failures r ≠ [] → run_failures r' ≠ [];
  gr_incumbent inc : run_incumbent r = Some inc →
    ∃ inc', run_incumbent r' = Some inc' ∧ (inc <= inc')%Z;
}.

Lemma grows_refl r : grows r r.
Proof. constructor; [done..|]. intros inc. eauto with lia. Qed.

Lemma grows_trans r1 r2 r3 : grows r1 r2 → grows r2 r3 → grows r1 r3.
Proof.
  intros [H1 H2 H3] [H4 H5 H6]. constructor; [auto..|]. intros inc Hinc.
  destruct (H3 inc Hinc) as (inc2 & Hinc2 & ?). destruct (H6 inc2 Hinc2) as (inc3 & ? & ?).
  exists inc3. split; [done|lia].
Qed.

(** ** Nothing pruned *)

(** The balance cap prunes prefixes that cannot beat the incumbent. *)
Definition caps_active : bool :=
  ub_enabled (upper_bound_pruning h) && ub_balance_cap_pruning (upper_bound_pruning h).

(** No pool pays out more than its known balance. *)
Definition pays_from_balance : Prop :=
  ∀ index hop amount out b, liquidity_index = Some index → hopq hop amount = Ok out →
    fresh_of (balance_state index (hop_pool hop) (hop_token_out hop)) = Some b → (out <= b)%Z.

Record unpruned : Prop := {
  up_dominance : prefix_dominance h = false;
  up_beam : beam_width h = None;
  up_shortlist : es_enabled (edge_shortlist h) = false;
  up_parallel : max_out_degree g ≤ parallel_edge_limit h;
  up_liquidity : lp_enabled (liquidity_pruning config) = false;
  up_candidates : max_candidates config = None;
  up_observer q s : (observe on_quote q s).1 = true;
  up_caps : caps_active = true → pays_from_balance;
}.

(** A quote the run has, or need not have. *)
Definition covered r (q : RouteQuote) : Prop :=
  q ∈ run_quotes r ∨
  (caps_active = true ∧ ∃ inc, run_incumbent r = Some inc ∧ (rq_amount_out q <= inc)%Z).

(** A path the run has dealt with. *)
Definition settled r (p : RoutePath) : Prop :=
  match pathq p with
  | Ok q => covered r q
  | Err _ => run_failures r ≠ [] ∨ run_quotes r ≠ []
  end.

(** A path that continues a state still to be expanded. *)
Definition pending (sts : list HeuristicState) (p : RoutePath) : Prop :=
  ∃ st q, st ∈ sts ∧ q ≠ [] ∧ p = hs_path st ++ q.

Lemma settled_grows r r' p : grows r r' → settled r p → settled r' p.
Proof.
  intros [H1 H2 H3]. unfold settled, covered. destruct (pathq p) as [q|e].
  - intros [?|(? & inc & Hinc & ?)]; [by left; auto|right]. split; [done|].
    destruct (H3 inc Hinc) as (inc' & ? & ?). exists inc'. split; [done|lia].
  - intros [?|Hq]; [by left; auto|right]. destruct (run_quotes r) as [|q qs] eqn:Hr; [done|].
    intros Hnil. specialize (H1 q). rewrite Hnil in H1. set_solver.
Qed.

Lemma pending_mono sts sts' p :
  (∀ st, st ∈ sts → st ∈ sts') → pending sts p → pending sts' p.
Proof. intros Hs (st & q & ? & ? & ?). exists st, q. auto. Qed.

(** What a step of the search leaves, for the next frontier [next'] of states
    with [k] hops and room for one more. *)
Definition good_next (k : nat) (next : list HeuristicState) : Prop :=
  ∀ st, st ∈ next → hstate_ok st ∧ length (hs_path st) = k ∧ k < max_hops config.

Record step_result (k : nat) (next next' : list HeuristicState) r r' (stop : bool) : Prop := {
  sr_ok : run_ok r';
  sr_grows : grows r r';
  sr_next : good_next k next → good_next k next';
  sr_mono st : st ∈ next → st ∈ next';
  sr_running : stop = false → run_stopped r' = false;
  sr_complete : unpruned → stop = false;
}.

Lemma step_result_refl k next r :
  run_ok r → run_stopped r = false → step_result k next next r r false.
Proof. intros. constructor; auto using grows_refl. Qed.

Lemma step_result_trans k n1 n2 n3 r1 r2 r3 stop :
  step_result k n1 n2 r1 r2 false → step_result k n2 n3 r2 r3 stop →
  step_result k n1 n3 r1 r3 stop.
Proof.
  intros [_ ? ? ? _ _] [? ? ? ? ? ?]. constructor; eauto using grows_trans.
Qed.

(** ** One group: quoting the shortlisted hops *)

Hypothesis (Hsim : simulates registry Inv sim).
Hypothesis (Hinj : scope_inj ctx).

Lemma quote_hop_runs hop amount qc c :
  usable_caches qc c →
  ∃ qc' c', quote_hop_with_cache registry hop amount sim_config qc c =
      Some (hopq hop amount, qc', c') ∧ usable_caches qc' c'.
Proof.
  intros [Hqc Hc]. destruct (quote_hop_result registry Inv sim sim_config Hsim ctx hop amount qc c
    Hinj Hqc Hc) as (qc' & c' & Heq & ? & ?). by exists qc', c'.
Qed.

Lemma add_failure_ok f r :
  pathq (pf_path f) = Err (pf_reason f) → run_ok r → run_ok (add_failure f r).
Proof.
  intros Hf [H1 H2 H3 H4 H5 H6 H7]. constructor; simpl; [done..| |done| |done].
  - intros p Hp Hs. specialize (H4 p Hp Hs). destruct (pathq p); [done|].
    by destruct (run_failures r).
  - intros f' [Hf'|Hf']%elem_of_app; [by apply H6|]. by apply list_elem_of_singleton in Hf' as ->.
Qed.

Lemma add_failure_grows f r : grows r (add_failure f r) ∧ run_failures (add_failure f r) ≠ [].
Proof.
  split; [constructor; simpl; [done| |]|].
  - by destruct (run_failures r).
  - intros inc. eauto with lia.
  - simpl. by destruct (run_failures r).
Qed.

Lemma quote_group_spec st closes ranked best quoted r :
  hstate_ok st → run_ok r →
  ∃ quoted' r',
    runs (quote_group registry liquidity_index config sim_config st closes ranked best quoted) r
      (λ qc c, (quoted', set_run_caches qc c r')) ∧
    run_ok r' ∧ grows r r' ∧ run_stopped r' = run_stopped r ∧
    (∀ x, x ∈ quoted → x ∈ quoted') ∧
    (∀ x, x ∈ quoted' → x ∈ quoted ∨
       qh_hop x ∈ lr_hop <$> ranked ∧ hopq (qh_hop x) (hs_amount st) = Ok (qh_amount_out x)) ∧
    length quoted' ≤ length quoted + length ranked ∧
    (lp_enabled (liquidity_pruning config) = false → ∀ hop, hop ∈ lr_hop <$> ranked →
       match hopq hop (hs_amount st) with
       | Ok out => {| qh_hop := hop; qh_amount_out := out |} ∈ quoted'
       | Err _ => run_failures r' ≠ []
       end).
Proof.
  intros Hst. revert best quoted r. induction ranked as [|rh ranked IH]; intros best quoted r Hr.
  { exists quoted, r. split_and!; [by apply runs_return|done|apply grows_refl|done|done|auto|simpl; lia|].
    intros _ hop. set_solver. }
  destruct (should_prune_liquidity_hop_spec liquidity_index rh best (liquidity_pruning config) closes)
    as (prune & Hcount & Hprune). destruct prune.
  - destruct (IH best quoted r Hr) as (quoted' & r' & Hrun & Hok & Hg & Hs & H1 & H2 & H3 & H4).
    exists quoted', r'. split_and!; [|done|done|done|done| |simpl; lia|].
    + intros qc c Hu. cbn [quote_group]. destruct (Hcount qc) as (qc1 & Heq & Hrec).
      change (run_quote_cache (set_run_caches qc c r)) with qc. rewrite Heq.
      apply Hrun. by eapply usable_recorded.
    + intros x Hx. destruct (H2 x Hx) as [?|[? ?]]; [by left|right]. csimpl. set_solver.
    + intros Hl. destruct (Hprune eq_refl) as [Hl' _]. congruence.
  - set (hop := lr_hop rh). destruct (hopq hop (hs_amount st)) as [out|reason] eqn:Hq.
    + destruct (IH (best_of best out) (quoted ++ [{| qh_hop := hop; qh_amount_out := out |}]) r Hr)
        as (quoted' & r' & Hrun & Hok & Hg & Hs & H1 & H2 & H3 & H4).
      exists quoted', r'. split_and!; [|done|done|done|set_solver| | |].
      * intros qc c Hu. cbn [quote_group]. destruct (Hcount qc) as (qc1 & Heq & Hrec).
        change (run_quote_cache (set_run_caches qc c r)) with qc. rewrite Heq.
        destruct (quote_hop_runs hop (hs_amount st) qc1 c) as (qc2 & c2 & Heq2 & Hu2);
          [by eapply usable_recorded|].
        change (run_quote_cache (set_run_quote_cache qc1 (set_run_caches qc c r))) with qc1.
        change (run_cache (set_run_quote_cache qc1 (set_run_caches qc c r))) with c.
        fold hop. rewrite Heq2, Hq. by apply Hrun.
      * intros x Hx. destruct (H2 x Hx) as [[?|Hx']%elem_of_app|[? ?]]; [by left| |].
        -- apply list_elem_of_singleton in Hx' as ->. right. csimpl. split; [set_solver|done].
        -- right. csimpl. split; [set_solver|done].
      * rewrite length_app in H3. simpl in *. lia.
      * intros Hl hop'. csimpl. intros [->|Hin]%elem_of_cons; [|by apply H4].
        fold hop. rewrite Hq. apply H1. set_solver.
    + set (f := {| pf_path := path_push (hs_path st) hop; pf_reason := reason |}).
      assert (pathq (pf_path f) = Err (pf_reason f)) as Hf.
      { simpl. unfold path_push. rewrite pathq_snoc by done. by rewrite Hq. }
      destruct (IH best quoted (add_failure f r) (add_failure_ok f r Hf Hr))
        as (quoted' & r' & Hrun & Hok & Hg & Hs & H1 & H2 & H3 & H4).
      destruct (add_failure_grows f r) as [Hgf Hne].
      exists quoted', r'. split_and!; [|done|by eapply grows_trans|done|done| |simpl; lia|].
      * intros qc c Hu. cbn [quote_group]. destruct (Hcount qc) as (qc1 & Heq & Hrec).
        change (run_quote_cache (set_run_caches qc c r)) with qc. rewrite Heq.
        destruct (quote_hop_runs hop (hs_amount st) qc1 c) as (qc2 & c2 & Heq2 & Hu2);
          [by eapply usable_recorded|].
        change (run_quote_cache (set_run_quote_cache qc1 (set_run_caches qc c r))) with qc1.
        change (run_cache (set_run_quote_cache qc1 (set_run_caches qc c r))) with c.
        fold hop. rewrite Heq2, Hq. by apply Hrun.
      * intros x Hx. destruct (H2 x Hx) as [?|[? ?]]; [by left|right]. csimpl. set_solver.
      * intros Hl hop'. csimpl. intros [->|Hin]%elem_of_cons; [|by apply H4].
        fold hop. rewrite Hq. by apply (gr_failures _ _ Hg).
Qed.

(** ** One group: completing and extending routes *)

Hypothesis (Hwf : graph_wf g).
Hypothesis (Hsource : node_index g ti = Some source).
Hypothesis (Htarget : node_index g to = Some target).

Abbreviation expandable_ st e :=
  (expandable g ti to source target connectors allow st (max_hops config) e = true).

(** A quoted hop over an edge the state may take. *)
Definition quoted_edge st (x : QuotedHeuristicHop) e : Prop :=
  e ∈ outgoing_edges g (hs_node st) ∧ expandable_ st e ∧ qh_hop x = edge_hop e ∧
  hopq (qh_hop x) (hs_amount st) = Ok (qh_amount_out x).

Lemma quoted_edge_target st x e :
  quoted_edge st x e → node_index g (hop_token_out (qh_hop x)) = Some (ce_target e).
Proof.
  intros (He & _ & -> & _).
  by apply (outgoing_edges_spec _ _ _ (wf_core _ Hwf)) in He as (i & _ & _ & Ho).
Qed.

Lemma add_quote_ok q s r :
  run_ok r → valid (rq_path q) → pathq (rq_path q) = Ok q → rq_path q ∉ run_evaluated r →
  run_ok (add_quote q s r) ∧ grows r (add_quote q s r).
Proof.
  intros [H1 H2 H3 H4 H5 H6 _] Hv Hq Hne. split; constructor; simpl.
  - intros q' [?|Hq']%elem_of_app; [by apply H1|]. by apply list_elem_of_singleton in Hq' as ->.
  - rewrite fmap_app. apply NoDup_app. split_and!; [done| |apply NoDup_singleton].
    intros p (q' & -> & Hq')%list_elem_of_fmap. simpl. rewrite list_elem_of_singleton.
    intros Heq. apply Hne. rewrite <- Heq. by apply H3.
  - intros q' [?|Hq']%elem_of_app; [apply elem_of_union; right; by apply H3|].
    apply list_elem_of_singleton in Hq' as ->. set_solver.
  - intros p [->%elem_of_singleton|Hp]%elem_of_union Hs.
    + rewrite Hq. set_solver.
    + specialize (H4 p Hp Hs). destruct (pathq p); [set_solver|done].
  - unfold best_of. intros inc [= <-]. destruct (run_incumbent r) as [best|].
    + destruct (Z.max_spec best (rq_amount_out q)) as [[_ ->]|[_ ->]].
      * exists q. split; [set_solver|done].
      * destruct (H5 best eq_refl) as (q' & ? & ?). exists q'. split; [set_solver|done].
    + exists q. split; [set_solver|done].
  - done.
  - intros _. by destruct (run_quotes r).
  - set_solver.
  - done.
  - unfold best_of. intros inc ->. eexists. split; [done|lia].
Qed.

Lemma set_stopped_ok r : run_ok r → run_quotes r ≠ [] → run_ok (set_stopped true r).
Proof. intros [? ? ? ? ? ? ?] ?. by constructor. Qed.

Lemma grows_stopped r r' : grows r r' → grows r (set_stopped true r').
Proof. intros [? ? ?]. by constructor. Qed.

Lemma complete_route_spec k next st x e r :
  hstate_ok st → length (hs_path st) < max_hops config →
  run_ok r → run_stopped r = false → quoted_edge st x e → ce_target e = target →
  ∃ r' stop,
    (∀ qc c, complete_route amount_in config on_quote st x (set_run_caches qc c r) =
             (set_run_caches qc c r', stop)) ∧
    step_result k next next r r' stop ∧
    (unpruned → valid (next_path st x) → settled r' (next_path st x)).
Proof.
  intros Hst Hlen Hr Hs (He & Hex & Hhop & Hq) Ht.
  assert (open (next_path st x)) as Hopen.
  { apply (expandable_spec g ti to source target cfg allow Hwf Hsource Htarget st _ e
      (ho_state _ Hst) He) in Hex as [[_ Hr']|[? _]]; [|done]. unfold next_path, path_push.
    by rewrite Hhop. }
  set (q := {| rq_path := next_path st x; rq_amount_in := amount_in;
               rq_amount_out := qh_amount_out x; rq_hops := next_hop_quotes st x |}).
  assert (pathq (next_path st x) = Ok q) as Hpq.
  { unfold next_path, path_push. rewrite pathq_snoc by done. by rewrite Hq. }
  unfold complete_route. cbv zeta. destruct (Nat.ltb_spec (length (next_path st x)) (min_hops config)) as [Hl|Hl].
  { exists r, false. split_and!; [done|by apply step_result_refl|].
    intros _ Hv. apply valid_route_open in Hv as [_ Hv]. simpl in Hv. lia. }
  destruct (decide (next_path st x ∈ run_evaluated r)) as [Hin|Hnin].
  { exists r, false. split_and!.
    - intros qc c. by rewrite decide_True.
    - by apply step_result_refl.
    - intros _ _. unfold settled. rewrite Hpq. left.
      pose proof (ro_resolved _ Hr _ Hin Hs) as Hres. by rewrite Hpq in Hres. }
  assert (valid (next_path st x)) as Hv.
  { apply valid_route_open. split; [done|]. simpl. unfold next_path, path_push in *.
    rewrite length_app in *. simpl in *. lia. }
  destruct (observe on_quote q (run_captured r)) as [keep s'] eqn:Ho.
  destruct (add_quote_ok q s' r Hr Hv Hpq Hnin) as [Hok Hg].
  assert (settled (add_quote q s' r) (next_path st x)) as Hset.
  { unfold settled. rewrite Hpq. left. simpl. set_solver. }
  destruct keep; simpl in *.
  - exists (add_quote q s' r), (max_candidates_reached (length (run_quotes r ++ [q])) config).
    split_and!; [|constructor; try done|done].
    + intros qc c. rewrite decide_False by done. fold q.
      change (run_captured (set_run_caches qc c r)) with (run_captured r). by rewrite Ho.
    + intros [_ _ _ _ _ Hmax _ _]. unfold max_candidates_reached. by rewrite Hmax.
  - exists (set_stopped true (add_quote q s' r)), true. split_and!.
    + intros qc c. rewrite decide_False by done. fold q.
      change (run_captured (set_run_caches qc c r)) with (run_captured r). by rewrite Ho.
    + constructor; try done; [|by apply grows_stopped|].
      { apply set_stopped_ok; [done|]. simpl. by destruct (run_quotes r). }
      intros [_ _ _ _ _ _ Hobs _]. specialize (Hobs q (run_captured r)). by rewrite Ho in Hobs.
    + intros [_ _ _ _ _ _ Hobs _]. specialize (Hobs q (run_captured r)). by rewrite Ho in Hobs.
Qed.

(** The state after one more hop. *)
Lemma next_state_ok st x e :
  hstate_ok st → quoted_edge st x e → ce_target e ≠ target →
  hstate_ok (next_state st (ce_target e) x).
Proof.
  intros Hst (He & Hex & Hhop & Hq) Ht.
  apply (expandable_spec g ti to source target cfg allow Hwf Hsource Htarget st _ e
    (ho_state _ Hst) He) in Hex as [[? _]|(_ & Hnp & Hal & _)]; [done|].
  constructor.
  - pose proof (step_edge_extends g ti to source target cfg allow Hwf Hsource Htarget
      (search_state st) e (ho_state _ Hst) He Ht Hnp Hal) as Hstep.
    unfold next_state, search_state, next_path, path_push. simpl. rewrite Hhop. exact Hstep.
  - simpl. unfold next_path, path_push. rewrite fold_hops_app, (ho_quote _ Hst). simpl. by rewrite Hq.
Qed.

Lemma set_dominance_ok d r : run_ok r → run_ok (set_dominance d r).
Proof. intros [? ? ? ? ? ? ?]. by constructor. Qed.
Lemma grows_dominance d r : grows r (set_dominance d r).
Proof. constructor; [done..|]. simpl. intros inc. eauto with lia. Qed.

Lemma extend_route_spec k next st x e r :
  hstate_ok st → length (hs_path st) = k → k < max_hops config →
  run_ok r → run_stopped r = false → quoted_edge st x e → ce_target e ≠ target →
  ∃ next' r',
    (∀ qc c, ∃ qc', recorded qc qc' ∧
       extend_route g ti to source target config h connectors allow st (ce_target e) x next
         (set_run_caches qc c r) = (next', set_run_caches qc' c r')) ∧
    step_result (Datatypes.S k) next next' r r' false ∧
    (unpruned → ∀ q, q ≠ [] → Datatypes.S k < max_hops config → pending next' (next_path st x ++ q)).
Proof.
  intros Hst Hk Hlen Hr Hs Hx Ht. pose proof (next_state_ok st x e Hst Hx Ht) as Hnext.
  set (new := next_state st (ce_target e) x) in *.
  assert (length (next_path st x) = Datatypes.S k) as Hl.
  { unfold next_path, path_push. rewrite length_app. simpl. lia. }
  assert (∀ r', Datatypes.S k < max_hops config → run_ok r' → grows r r' → run_stopped r' = false →
    step_result (Datatypes.S k) next (next ++ [new]) r r' false) as Hpush.
  { intros r' ? ? ? ?. constructor; try done; [|set_solver].
    intros Hgood st' [?|Hst']%elem_of_app; [by apply Hgood|].
    apply list_elem_of_singleton in Hst' as ->. done. }
  assert (∀ q, q ≠ [] → pending (next ++ [new]) (next_path st x ++ q)) as Hpend.
  { intros q Hq. exists new, q. split_and!; [set_solver|done|done]. }
  unfold extend_route. destruct (Nat.ltb_spec (length (next_path st x)) (max_hops config)) as [Hlt|Hge].
  - destruct (prefix_dominance h) eqn:Hdom.
    + destruct (insert_or_dominated (hop_token_out (qh_hop x))
        (state_label g ti to source target connectors allow new) (run_dominance r))
        as [dominated d] eqn:Hins.
      exists (if dominated then next else next ++ [new]), (set_dominance d r). split_and!.
      * intros qc c. change (run_dominance (set_run_caches qc c r)) with (run_dominance r).
        fold new. rewrite Hins. destruct dominated; eexists; split.
        -- apply recorded_one.
        -- done.
        -- apply recorded_refl.
        -- done.
      * destruct dominated.
        -- constructor; try done; [by apply set_dominance_ok|apply grows_dominance].
        -- apply Hpush; [lia|by apply set_dominance_ok|apply grows_dominance|done].
      * intros [Hnd _ _ _ _ _ _ _]. congruence.
    + exists (next ++ [new]), r. split_and!.
      * intros qc c. exists qc. split; [apply recorded_refl|done].
      * apply Hpush; [lia|done|apply grows_refl|done].
      * intros _ q Hq _. by apply Hpend.
  - exists next, r. split_and!.
    + intros qc c. exists qc. split; [apply recorded_refl|done].
    + by apply step_result_refl.
    + intros _ q _ ?. lia.
Qed.

(** A route through a quoted hop ends there when the hop enters the target, and
    goes on otherwise. *)
Lemma valid_continues k st x e q :
  length (hs_path st) = k → quoted_edge st x e → valid (next_path st x ++ q) →
  if decide (ce_target e = target) then q = [] else q ≠ [] ∧ Datatypes.S k < max_hops config.
Proof.
  intros Hk (He & _ & Hhop & _) [Hopen Hlen]%valid_route_open.
  pose proof (closes_target_token g to target Hwf Htarget _ _ He) as Hct.
  unfold next_path, path_push in *. rewrite Hhop in *. rewrite !length_app in Hlen. simpl in Hlen.
  destruct (decide (ce_target e = target)) as [Ht|Ht].
  - destruct (decide (q = [])) as [|Hq]; [done|]. rewrite <- (assoc_L (++)) in Hopen.
    destruct (open_route_prefix g ti to cfg allow _ _ _ Hq Hopen) as [cur Hpre].
    destruct (rp_target _ _ _ _ _ _ Hpre). rewrite fmap_app. apply elem_of_app. right. simpl.
    rewrite (proj1 Hct Ht). set_solver.
  - assert (q ≠ []) as Hq.
    { intros ->. rewrite app_nil_r in Hopen.
      destruct Hopen as (pre & cur & h' & [_ <-]%app_inj_tail & _ & _ & Hout & _).
      by apply Ht, Hct. }
    split; [done|]. destruct q; [done|]. simpl in *. lia.
Qed.

Abbreviation extend_quoted_ := (extend_quoted g ti to source target amount_in config h connectors
  allow on_quote).

Lemma extend_quoted_spec k st qs next r :
  hstate_ok st → length (hs_path st) = k → k < max_hops config →
  run_ok r → run_stopped r = false → (∀ x, x ∈ qs → ∃ e, quoted_edge st x e) →
  ∃ next' r' stop,
    runs (extend_quoted_ st qs next) r (λ qc c, (next', set_run_caches qc c r', stop)) ∧
    step_result (Datatypes.S k) next next' r r' stop ∧
    (unpruned → ∀ x q, x ∈ qs → valid (next_path st x ++ q) →
       settled r' (next_path st x ++ q) ∨ pending next' (next_path st x ++ q)).
Proof.
  intros Hst Hk Hlen. revert next r. induction qs as [|x qs IH]; intros next r Hr Hs Hqs.
  { exists next, r, false. split_and!; [by apply runs_return|by apply step_result_refl|set_solver]. }
  destruct (Hqs x) as [e Hx]; [set_solver|].
  pose proof (quoted_edge_target st x e Hx) as Hnode.
  destruct (decide (ce_target e = target)) as [Ht|Ht].
  - destruct (complete_route_spec (Datatypes.S k) next st x e r) as (r1 & stop & Heq & Hstep & Hset);
      try done; [lia|].
    assert (unpruned → ∀ q, valid (next_path st x ++ q) → settled r1 (next_path st x ++ q)) as Hset1.
    { intros Hu q Hv. pose proof (valid_continues k st x e q Hk Hx Hv) as Hq.
      rewrite decide_True in Hq by done. subst q. rewrite app_nil_r in *. auto. }
    destruct stop.
    + exists next, r1, true. split_and!.
      * apply runs_return. intros qc c. cbn [extend_quoted]. rewrite Hnode, decide_True by done.
        by rewrite Heq.
      * done.
      * intros Hu. pose proof (sr_complete _ _ _ _ _ _ Hstep Hu). done.
    + destruct (IH next r1) as (next' & r' & stop & Hrun & Hstep' & Hset');
        [apply Hstep|by apply Hstep|set_solver|].
      exists next', r', stop. split_and!.
      * intros qc c Hu. cbn [extend_quoted]. rewrite Hnode, decide_True by done. rewrite Heq.
        by apply Hrun.
      * by eapply step_result_trans.
      * intros Hu y q [->|Hy]%elem_of_cons Hv; [|by apply Hset'].
        left. eapply settled_grows; [apply Hstep'|auto].
  - destruct (extend_route_spec k next st x e r) as (next1 & r1 & Heq & Hstep & Hpend); try done.
    destruct (IH next1 r1) as (next' & r' & stop & Hrun & Hstep' & Hset');
      [apply Hstep|by apply Hstep|set_solver|].
    exists next', r', stop. split_and!.
    + intros qc c Hu. cbn [extend_quoted]. rewrite Hnode, decide_False by done.
      destruct (Heq qc c) as (qc1 & Hrec & ->). apply Hrun. by eapply usable_recorded.
    + by eapply step_result_trans.
    + intros Hu y q [->|Hy]%elem_of_cons Hv; [|by apply Hset'].
      pose proof (valid_continues k st x e q Hk Hx Hv) as Hq. rewrite decide_False in Hq by done.
      right. eapply pending_mono; [apply Hstep'|]. destruct Hq. by apply Hpend.
Qed.

(** ** One group, all groups, one state *)

(** The hops a group may hold. *)
Definition group_ok st (grp : HeuristicHopGroup) : Prop :=
  length (hg_hops grp) ≤ max_out_degree g ∧
  ∀ hop, hop ∈ hg_hops grp → ∃ e, e ∈ outgoing_edges g (hs_node st) ∧ expandable_ st e ∧ edge_hop e = hop.

Abbreviation expand_group_ := (expand_group registry g liquidity_index ti to source target amount_in
  config h sim_config connectors allow on_quote).

Lemma set_deferred_ok b r : run_ok r → run_ok (set_deferred b r) ∧ grows r (set_deferred b r).
Proof. intros [? ? ? ? ? ? ?]. split; [by constructor|]. constructor; [done..|]. simpl. intros inc. eauto with lia. Qed.

Lemma elem_of_retained pass_mode quoted x : x ∈ retained h pass_mode quoted → x ∈ quoted.
Proof.
  unfold retained, take_limit. destruct (retain_limit h pass_mode) as [n|].
  - intros (i & Hi & _)%elem_of_take. apply list_elem_of_lookup_2 in Hi.
    by rewrite elem_of_stable_sort in Hi.
  - by rewrite elem_of_stable_sort.
Qed.

Lemma retained_all pass_mode quoted x :
  es_enabled (edge_shortlist h) = false → length quoted ≤ parallel_edge_limit h →
  x ∈ quoted → x ∈ retained h pass_mode quoted.
Proof.
  intros Hes Hl Hx. unfold retained, retain_limit. rewrite Hes. simpl.
  rewrite take_ge; [by rewrite elem_of_stable_sort|]. by rewrite length_stable_sort.
Qed.

(** Expanding one group: a hop of the group that fails is a failure, one that
    quotes leads on. *)
Lemma expand_group_spec k pass_mode has_ref st grp next r :
  hstate_ok st → length (hs_path st) = k → k < max_hops config → group_ok st grp →
  run_ok r → run_stopped r = false →
  ∃ next' r' stop,
    runs (expand_group_ pass_mode has_ref st grp next) r
      (λ qc c, (next', set_run_caches qc c r', stop)) ∧
    step_result (Datatypes.S k) next next' r r' stop ∧
    (unpruned → ∀ hop q, hop ∈ hg_hops grp → valid (hs_path st ++ hop :: q) →
       settled r' (hs_path st ++ hop :: q) ∨ pending next' (hs_path st ++ hop :: q)).
Proof.
  intros Hst Hk Hlen [Hdeg Hhops] Hr Hs.
  destruct (liquidity_ranked_hops_spec registry liquidity_index (hg_hops grp) (edge_shortlist h)
    (liquidity_pruning config) pass_mode) as (ranked & Hc1 & Hranked).
  destruct (shortlisted_ranked_hops_spec ranked h pass_mode) as (short & Hc2 & Hsub & Hall).
  set (deferred := bool_decide (pass_mode = PassInitial) && has_ref && es_enabled (edge_shortlist h) &&
    match edge_limit pass_mode h with Some n => n <? length ranked | None => false end).
  set (r1 := if deferred then set_deferred true r else r).
  assert (run_ok r1 ∧ grows r r1 ∧ run_stopped r1 = false) as (Hr1 & Hg1 & Hs1).
  { unfold r1. destruct deferred; [|by auto using grows_refl].
    destruct (set_deferred_ok true r Hr). done. }
  destruct (quote_group_spec st (hg_closes_target grp) short None [] r1 Hst Hr1)
    as (quoted & r2 & Hrun2 & Hr2 & Hg2 & Hs2 & _ & Hin & Hlen2 & Hcomp).
  assert (∀ hop, hop ∈ lr_hop <$> short → hop ∈ hg_hops grp) as Hshort.
  { intros hop (rh & -> & Hrh)%list_elem_of_fmap. rewrite <- Hranked.
    apply list_elem_of_fmap_2. auto. }
  destruct (extend_quoted_spec k st (retained h pass_mode quoted) next r2)
    as (next' & r' & stop & Hrun3 & Hstep & Hset); try done; [congruence| |].
  { intros x Hx%elem_of_retained. destruct (Hin x Hx) as [?|[Hx' Hq]]; [set_solver|].
    destruct (Hhops (qh_hop x)) as (e & He & Hex & Heq); [auto|]. exists e. by split_and!. }
  exists next', r', stop. split_and!.
  - intros qc c Hu. unfold expand_group. destruct (Hc1 qc) as (qc1 & Heq1 & Hrec1).
    change (run_quote_cache (set_run_caches qc c r)) with qc. rewrite Heq1.
    fold deferred. destruct (Hc2 qc1) as (qc2 & Heq2 & Hrec2).
    match goal with |- context [if deferred then ?a else ?b] =>
      assert ((if deferred then a else b) = set_run_caches qc1 c r1) as -> end.
    { unfold r1. by destruct deferred. }
    change (run_quote_cache (set_run_caches qc1 c r1)) with qc1. rewrite Heq2.
    change (set_run_quote_cache qc2 (set_run_caches qc1 c r1)) with (set_run_caches qc2 c r1).
    destruct (Hrun2 qc2 c) as (qc3 & c3 & -> & Hu3).
    { eapply usable_recorded; [|exact Hu]. by eapply recorded_trans. }
    by apply Hrun3.
  - destruct Hstep as [? ? ? ? ? ?]. constructor; try done.
    eapply grows_trans; [exact Hg1|]. by eapply grows_trans.
  - intros Hup hop q Hhop Hv. pose proof Hup as [_ _ Hes Hpar Hliq _ _ _].
    assert (hop ∈ lr_hop <$> short) as Hhs.
    { rewrite (Hall Hes). by rewrite Hranked. }
    specialize (Hcomp Hliq hop Hhs). destruct (hopq hop (hs_amount st)) as [out|reason] eqn:Hq.
    + assert ({| qh_hop := hop; qh_amount_out := out |} ∈ retained h pass_mode quoted) as Hret.
      { apply retained_all; [done| |done]. rewrite (Hall Hes) in Hlen2. simpl in Hlen2.
        apply Permutation_length in Hranked. rewrite length_fmap in Hranked. lia. }
      specialize (Hset Hup _ q Hret). unfold next_path, path_push in Hset. simpl in Hset.
      rewrite <- (assoc_L (++)) in Hset. by apply Hset.
    + left. unfold settled. rewrite (pathq_hop_Err st hop q reason) by done. left.
      by apply (gr_failures _ _ (sr_grows _ _ _ _ _ _ Hstep)).
Qed.

Abbreviation expand_groups_ := (expand_groups registry g liquidity_index ti to source target
  amount_in config h sim_config connectors allow on_quote).

Lemma expand_groups_spec k pass_mode has_ref st groups next r :
  hstate_ok st → length (hs_path st) = k → k < max_hops config →
  (∀ grp, grp ∈ groups → group_ok st grp) → run_ok r → run_stopped r = false →
  ∃ next' r' stop,
    runs (expand_groups_ pass_mode has_ref st groups next) r
      (λ qc c, (next', set_run_caches qc c r', stop)) ∧
    step_result (Datatypes.S k) next next' r r' stop ∧
    (unpruned → ∀ grp hop q, grp ∈ groups → hop ∈ hg_hops grp → valid (hs_path st ++ hop :: q) →
       settled r' (hs_path st ++ hop :: q) ∨ pending next' (hs_path st ++ hop :: q)).
Proof.
  intros Hst Hk Hlen. revert next r. induction groups as [|grp groups IH]; intros next r Hgs Hr Hs.
  { exists next, r, false. split_and!; [by apply runs_return|by apply step_result_refl|set_solver]. }
  destruct (expand_group_spec k pass_mode has_ref st grp next r)
    as (next1 & r1 & stop1 & Hrun1 & Hstep1 & Hset1); try done; [apply Hgs; set_solver|].
  destruct stop1.
  - exists next1, r1, true. split_and!; [|done|].
    + intros qc c Hu. cbn [expand_groups]. destruct (Hrun1 qc c Hu) as (qc1 & c1 & -> & Hu1).
      by exists qc1, c1.
    + intros Hu. pose proof (sr_complete _ _ _ _ _ _ Hstep1 Hu). done.
  - destruct (IH next1 r1) as (next' & r' & stop & Hrun & Hstep & Hset);
      [set_solver|apply Hstep1|by apply Hstep1|].
    exists next', r', stop. split_and!.
    + intros qc c Hu. cbn [expand_groups]. destruct (Hrun1 qc c Hu) as (qc1 & c1 & -> & Hu1).
      by apply Hrun.
    + by eapply step_result_trans.
    + intros Hu grp' hop q [->|Hg]%elem_of_cons Hhop Hv; [|by eapply Hset].
      destruct (Hset1 Hu hop q Hhop Hv) as [?|?].
      * left. by eapply settled_grows; [apply Hstep|].
      * right. by eapply pending_mono; [apply Hstep|].
Qed.

Hypothesis (Hcase : target_first h = true ∨ ranks_branches (liquidity_pruning config) = false).

Lemma dominated_on_entry_spec st r :
  ∃ skip, (∀ qc c, ∃ qc', recorded qc qc' ∧
      dominated_on_entry g ti to source target h connectors allow st (set_run_caches qc c r) =
      (skip, set_run_caches qc' c r)) ∧
    (unpruned → skip = false).
Proof.
  unfold dominated_on_entry. destruct (prefix_dominance h) eqn:Hd.
  - destruct (node_token g (hs_node st)) as [token|].
    + exists (is_strictly_dominated token
        (state_label g ti to source target connectors allow st) (run_dominance r)). split.
      * intros qc c. change (run_dominance (set_run_caches qc c r)) with (run_dominance r).
        destruct (is_strictly_dominated _ _ _); eexists;
          [split; [apply recorded_one|done]|split; [apply recorded_refl|done]].
      * intros [? _ _ _ _ _ _ _]. congruence.
    + exists true. split.
      * intros qc c. exists qc. split; [apply recorded_refl|done].
      * intros [? _ _ _ _ _ _ _]. congruence.
  - exists false. split; [|done]. intros qc c. exists qc. split; [apply recorded_refl|done].
Qed.

(** A route through a prefix that the cap prunes does not beat the incumbent. *)
Lemma upper_bound_settled st r q :
  run_ok r → (caps_active = true → pays_from_balance) → caps_active = true →
  (∃ inc, run_incumbent r = Some inc ∧
     ∃ index hop b, liquidity_index = Some index ∧ last q = Some hop ∧ hop_token_out hop = to ∧
       fresh_of (balance_state index (hop_pool hop) (hop_token_out hop)) = Some b ∧ (b <= inc)%Z) →
  settled r (hs_path st ++ q).
Proof.
  intros Hr Hpays Hcaps (inc & Hinc & index & hop & b & Hix & Hlast & Hto & Hb & Hle).
  apply last_Some in Hlast as [q' ->]. rewrite (assoc_L (++)). unfold settled.
  destruct (pathq _) as [rq|e] eqn:Hp.
  - right. split; [done|]. exists inc. split; [done|].
    unfold path_quote in Hp. rewrite fold_path_snoc in Hp.
    destruct (fold_hops _ _ _ _) as [[a quoted]|]; [|done].
    destruct (hopq hop a) as [out|] eqn:Hq; [|done]. injection Hp as <-. simpl.
    pose proof (Hpays Hcaps index hop a out b Hix Hq Hb). lia.
  - right. destruct (ro_incumbent _ Hr inc Hinc) as (rq & Hrq & _). intros Hnil.
    rewrite Hnil in Hrq. set_solver.
Qed.

(** A continuation of a state starts with an expandable edge. *)
Lemma continuation_edge st hop q :
  hstate_ok st → valid (hs_path st ++ hop :: q) →
  ∃ e, e ∈ outgoing_edges g (hs_node st) ∧ expandable_ st e ∧ edge_hop e = hop.
Proof.
  intros Hst [Hopen Hlen]%valid_route_open. rewrite length_app in Hlen. simpl in Hlen.
  pose proof (expandable_spec g ti to source target cfg allow Hwf Hsource Htarget st
    (max_hops config)) as Hspec.
  destruct (decide (q = [])) as [->|Hq].
  - destruct (completing_edge g ti to source target cfg allow Hwf Hsource Htarget
      (search_state st) hop (ho_state _ Hst) Hopen) as (e & He & Heh & Ht & _).
    exists e. split_and!; [done| |done]. apply (Hspec e (ho_state _ Hst) He). left.
    rewrite Heh. done.
  - destruct (open_route_prefix g ti to cfg allow _ _ _ Hq Hopen) as [cur Hpre].
    destruct (prefix_edge g ti to source target cfg allow Hwf Htarget (search_state st) hop
      cur (ho_state _ Hst) Hpre) as (e & He & Heh & Ht & Hnp & Hal).
    exists e. split_and!; [done| |done]. apply (Hspec e (ho_state _ Hst) He). right.
    split_and!; [done..|]. exists q. rewrite Heh. split_and!; [done|lia|done].
Qed.

Abbreviation expand_state_ := (expand_state registry g liquidity_index ti to source target
  amount_in config h sim_config connectors allow on_quote).

Lemma expand_state_spec k pass_mode has_ref st next r :
  hstate_ok st → length (hs_path st) = k → run_ok r → run_stopped r = false →
  ∃ next' r' stop,
    runs (expand_state_ pass_mode has_ref st next) r
      (λ qc c, (next', set_run_caches qc c r', stop)) ∧
    step_result (Datatypes.S k) next next' r r' stop ∧
    (unpruned → ∀ p, valid p → pending [st] p → settled r' p ∨ pending next' p).
Proof.
  intros Hst Hk Hr Hs.
  assert (∀ p, valid p → pending [st] p → ∃ hop q, p = hs_path st ++ hop :: q) as Hpend.
  { intros p _ (st' & q & ->%list_elem_of_singleton & Hq & ->). destruct q; [done|]. eauto. }
  unfold expand_state. destruct (Nat.leb_spec (max_hops config) (length (hs_path st))) as [Hmax|Hmax].
  { exists next, r, false. split_and!; [by apply runs_return|by apply step_result_refl|].
    intros _ p Hv Hp. destruct (Hpend p Hv Hp) as (hop & q & ->).
    apply valid_route_open in Hv as [_ Hv]. rewrite length_app in Hv. simpl in Hv. lia. }
  destruct (should_prune_upper_bound_prefix_spec g liquidity_index ti to source target cfg allow
    Hwf Hsource Htarget st (max_hops config) (run_incumbent r) (upper_bound_pruning h)
    (ho_state _ Hst)) as (prune & Hc1 & Hprune). destruct prune.
  { exists next, r, false. split_and!; [|by apply step_result_refl|].
    - intros qc c Hu. destruct (Hc1 qc) as (qc1 & Heq & Hrec).
      change (run_quote_cache (set_run_caches qc c r)) with qc.
      change (run_incumbent (set_run_caches qc c r)) with (run_incumbent r).
      rewrite Heq. exists qc1, c. split; [done|]. by eapply usable_recorded.
    - intros [_ _ _ _ _ _ _ Hpays] p Hv Hp. left.
      destruct Hp as (st' & q & ->%list_elem_of_singleton & Hq & ->).
      destruct (Hprune eq_refl) as (Hub & Hcap & inc & Hinc & Hall).
      apply upper_bound_settled; [done|done|unfold caps_active; by rewrite Hub, Hcap|].
      exists inc. split; [done|]. apply valid_route_open in Hv as [Hv Hl]. simpl in Hl.
      rewrite length_app in Hl. apply Hall; [done|lia|done]. }
  destruct (dominated_on_entry_spec st r) as (skip & Hc2 & Hskip). destruct skip.
  { exists next, r, false. split_and!; [|by apply step_result_refl|].
    - intros qc c Hu. destruct (Hc1 qc) as (qc1 & Heq & Hrec).
      change (run_quote_cache (set_run_caches qc c r)) with qc.
      change (run_incumbent (set_run_caches qc c r)) with (run_incumbent r). rewrite Heq.
      cbn [mbind option_bind].
      change (set_run_quote_cache qc1 (set_run_caches qc c r)) with (set_run_caches qc1 c r).
      destruct (Hc2 qc1 c) as (qc2 & Hrec2 & ->). exists qc2, c. split; [done|].
      eapply usable_recorded; [|exact Hu]. by eapply recorded_trans.
    - intros Hup. by specialize (Hskip Hup). }
  destruct (group_heuristic_hops_spec g liquidity_index ti to source target cfg allow Hwf Hsource
    Htarget st (max_hops config) h (liquidity_pruning config) Hcase)
    as (groups & Hc3 & Hg1 & Hg2 & Hg3).
  destruct (expand_groups_spec k pass_mode has_ref st groups next r)
    as (next' & r' & stop & Hrun & Hstep & Hset); try done; [lia| |].
  { intros grp Hgrp. split; [by apply Hg3|]. intros hop Hhop. by eapply Hg1. }
  exists next', r', stop. split_and!; [|done|].
  - intros qc c Hu. destruct (Hc1 qc) as (qc1 & Heq & Hrec).
    change (run_quote_cache (set_run_caches qc c r)) with qc.
    change (run_incumbent (set_run_caches qc c r)) with (run_incumbent r). rewrite Heq.
    cbn [mbind option_bind].
    change (set_run_quote_cache qc1 (set_run_caches qc c r)) with (set_run_caches qc1 c r).
    destruct (Hc2 qc1 c) as (qc2 & Hrec2 & ->).
    change (run_quote_cache (set_run_caches qc2 c r)) with qc2.
    destruct (Hc3 qc2) as (qc3 & Heq3 & Hrec3). cbn [cfg effective_config connector_tokens] in Heq3.
    rewrite Heq3. cbn [mbind option_bind].
    change (set_run_quote_cache qc3 (set_run_caches qc2 c r)) with (set_run_caches qc3 c r).
    apply Hrun. eapply usable_recorded; [|exact Hu]. by do 2 (eapply recorded_trans; [eassumption|]).
  - intros Hup p Hv Hp. destruct (Hpend p Hv Hp) as (hop & q & ->).
    destruct (continuation_edge st hop q Hst Hv) as (e & He & Hex & <-).
    destruct (Hg2 e He Hex) as (grp & Hgrp & Hhop). by eapply Hset.
Qed.

(** ** Frontiers, levels and passes *)

Abbreviation expand_states_ := (expand_states registry g liquidity_index ti to source target
  amount_in config h sim_config connectors allow on_quote).

Lemma expand_states_spec k pass_mode has_ref sts next r :
  good_next k sts → run_ok r → run_stopped r = false →
  ∃ next' r' stop,
    runs (expand_states_ pass_mode has_ref sts next) r
      (λ qc c, (next', set_run_caches qc c r', stop)) ∧
    step_result (Datatypes.S k) next next' r r' stop ∧
    (unpruned → ∀ p, valid p → pending sts p → settled r' p ∨ pending next' p).
Proof.
  revert next r. induction sts as [|st sts IH]; intros next r Hgood Hr Hs.
  { exists next, r, false. split_and!; [by apply runs_return|by apply step_result_refl|].
    intros _ p _ (st & q & ? & _). set_solver. }
  destruct (Hgood st) as (Hst & Hk & _); [set_solver|].
  destruct (expand_state_spec k pass_mode has_ref st next r)
    as (next1 & r1 & stop1 & Hrun1 & Hstep1 & Hset1); try done.
  destruct stop1.
  - exists next1, r1, true. split_and!; [|done|].
    + intros qc c Hu. cbn [expand_states]. destruct (Hrun1 qc c Hu) as (qc1 & c1 & -> & Hu1).
      by exists qc1, c1.
    + intros Hu. pose proof (sr_complete _ _ _ _ _ _ Hstep1 Hu). done.
  - destruct (IH next1 r1) as (next' & r' & stop & Hrun & Hstep & Hset);
      [intros st' Hst'; apply Hgood; set_solver|apply Hstep1|by apply Hstep1|].
    exists next', r', stop. split_and!.
    + intros qc c Hu. cbn [expand_states]. destruct (Hrun1 qc c Hu) as (qc1 & c1 & -> & Hu1).
      by apply Hrun.
    + by eapply step_result_trans.
    + intros Hu p Hv (st' & q & [->|Hst']%elem_of_cons & Hq & ->).
      * destruct (Hset1 Hu (hs_path st ++ q) Hv) as [?|?].
        -- exists st, q. split_and!; [set_solver|done|done].
        -- left. by eapply settled_grows; [apply Hstep|].
        -- right. by eapply pending_mono; [apply Hstep|].
      * apply (Hset Hu _ Hv). by exists st', q.
Qed.

Lemma retain_undominated_spec next r :
  ∃ kept, (∀ qc c, ∃ qc', recorded qc qc' ∧
      retain_undominated g ti to source target h connectors allow next (set_run_caches qc c r) =
      (kept, set_run_caches qc' c r)) ∧
    (∀ st, st ∈ kept → st ∈ next) ∧ (unpruned → kept = next).
Proof.
  unfold retain_undominated. destruct (prefix_dominance h) eqn:Hd.
  - exists (filter (λ st, undominated g ti to source target connectors allow r st = true) next).
    split_and!.
    + intros qc c. cbv zeta.
      change (undominated g ti to source target connectors allow (set_run_caches qc c r)) with
        (undominated g ti to source target connectors allow r).
      destruct (0 <? _); eexists; [split; [apply recorded_one|done]|split; [apply recorded_refl|done]].
    + intros st [_ ?]%list_elem_of_filter. done.
    + intros [? _ _ _ _ _ _ _]. congruence.
  - exists next. split_and!; [|done|done]. intros qc c. exists qc. split; [apply recorded_refl|done].
Qed.

Lemma apply_beam_width_spec (next : list HeuristicState) w sort :
  (∀ st, st ∈ apply_beam_width next w sort → st ∈ next) ∧
  (w = None → ∀ st, st ∈ next → st ∈ apply_beam_width next w sort) ∧
  (∀ n, w = Some n → length (apply_beam_width next w sort) ≤ n).
Proof.
  unfold apply_beam_width.
  set (sorted := if sort || _ then stable_sort (not_greater state_cmp) next else next).
  assert (∀ st, st ∈ sorted ↔ st ∈ next) as Hs.
  { intros st. unfold sorted. destruct (_ || _); [|done]. by rewrite elem_of_stable_sort. }
  split_and!.
  - intros st. destruct w as [n|]; [|apply Hs].
    intros (i & Hi & _)%elem_of_take. apply Hs. by eapply list_elem_of_lookup_2.
  - intros -> st. apply Hs.
  - intros n ->. rewrite length_take. lia.
Qed.

Abbreviation search_levels_ := (search_levels registry g liquidity_index ti to source target
  amount_in config h sim_config connectors allow on_quote).

(** The levels end: every state of the frontier has room for a hop, and each
    level uses one. *)
Lemma search_levels_spec fuel k pass_mode has_ref sts r :
  max_hops config ≤ k + fuel → good_next k sts → run_ok r → run_stopped r = false →
  ∃ r', runs (search_levels_ fuel pass_mode has_ref sts) r (λ qc c, set_run_caches qc c r') ∧
    run_ok r' ∧ grows r r' ∧
    (unpruned → run_stopped r' = false ∧ ∀ p, valid p → pending sts p → settled r' p).
Proof.
  revert k sts r. induction fuel as [|fuel IH]; intros k sts r Hfuel Hgood Hr Hs.
  all: destruct sts as [|st0 sts0];
    [exists r; split_and!; [by apply runs_return|done|apply grows_refl|];
     intros _; split; [done|]; intros p _ (st & q & ? & _); set_solver|].
  { destruct (Hgood st0) as (_ & _ & ?); [set_solver|lia]. }
  set (sts := st0 :: sts0) in *.
  destruct (expand_states_spec k pass_mode has_ref sts [] r Hgood Hr Hs)
    as (next & r1 & stop & Hrun & Hstep & Hset).
  destruct stop.
  { exists r1. split_and!; [|apply Hstep|apply Hstep|].
    - intros qc c Hu. cbn [search_levels]. unfold sts in *.
      destruct (Hrun qc c Hu) as (qc1 & c1 & -> & Hu1). by exists qc1, c1.
    - intros Hup. pose proof (sr_complete _ _ _ _ _ _ Hstep Hup). done. }
  destruct (retain_undominated_spec next r1) as (kept & Hret & Hsub & Hkept).
  set (beam := apply_beam_width kept (beam_width h)
    (negb (preserve_liquidity_branch_order liquidity_index config))).
  destruct (apply_beam_width_spec kept (beam_width h)
    (negb (preserve_liquidity_branch_order liquidity_index config))) as (Hb1 & Hb2 & _).
  fold beam in Hb1, Hb2.
  assert (good_next (Datatypes.S k) next) as Hgood1.
  { apply (sr_next _ _ _ _ _ _ Hstep). intros ?; set_solver. }
  assert (good_next (Datatypes.S k) beam) as Hgood' by (intros st Hst; apply Hgood1; auto).
  destruct (IH (Datatypes.S k) beam r1) as (r' & Hrun' & Hok & Hg & Hcomp);
    [lia|done|apply Hstep|by apply Hstep|].
  exists r'. split_and!; [|done|by eapply grows_trans; [apply Hstep|]|].
  - intros qc c Hu. cbn [search_levels]. unfold sts in *.
    destruct (Hrun qc c Hu) as (qc1 & c1 & -> & Hu1).
    destruct (Hret qc1 c1) as (qc2 & Hrec & ->). apply Hrun'. by eapply usable_recorded.
  - intros Hup. destruct (Hcomp Hup) as [Hs' Hset']. split; [done|]. intros p Hv Hp.
    destruct (Hset Hup p Hv Hp) as [?|Hp'].
    + by eapply settled_grows.
    + apply Hset'; [done|]. eapply pending_mono; [|exact Hp'].
      rewrite <- (Hkept Hup). apply Hb2. by destruct Hup.
Qed.

Lemma initial_state_good : 1 ≤ max_hops config → good_next 0 [initial_heuristic_state ti source amount_in].
Proof.
  intros Hm st ->%list_elem_of_singleton. split_and!; [|done|lia]. constructor; [|done].
  apply (initial_state_ok g ti to source target cfg Hwf Hsource Htarget).
Qed.

Lemma valid_pending p : valid p → pending [initial_heuristic_state ti source amount_in] p.
Proof.
  intros (pre & cur & hop & -> & _). exists (initial_heuristic_state ti source amount_in), (pre ++ [hop]).
  split_and!; [set_solver| |done]. by destruct pre.
Qed.

Abbreviation search_passes_ := (search_passes registry g liquidity_index ti to source target
  amount_in config h sim_config connectors allow on_quote).

Lemma search_passes_spec passes has_ref r :
  1 ≤ max_hops config → run_ok r → run_stopped r = false →
  ∃ r', runs (search_passes_ passes has_ref) r (λ qc c, set_run_caches qc c r') ∧
    run_ok r' ∧ grows r r' ∧
    (unpruned → run_stopped r' = false ∧ (passes ≠ [] → ∀ p, valid p → settled r' p)).
Proof.
  intros Hmax. revert r. induction passes as [|m passes IH]; intros r Hr Hs.
  { exists r. split_and!; [by apply runs_return|done|apply grows_refl|done]. }
  destruct (set_deferred_ok false r Hr) as [Hr0 Hg0].
  destruct (search_levels_spec (max_hops config) 0 m has_ref
    [initial_heuristic_state ti source amount_in] (set_deferred false r))
    as (r1 & Hrun & Hr1 & Hg1 & Hcomp); [lia|by apply initial_state_good|done|done|].
  assert (unpruned → ∀ p, valid p → settled r1 p) as Hset.
  { intros Hup p Hv. apply (proj2 (Hcomp Hup) p Hv). by apply valid_pending. }
  assert (grows r r1) as Hg by (by eapply grows_trans).
  destruct (run_stopped r1) eqn:Hs1;
    [|destruct (bool_decide (m = PassInitial) && has_ref && negb (run_deferred r1)) eqn:Hb].
  - exists r1. split_and!; [|done|done|intros Hup; destruct (Hcomp Hup); congruence].
    intros qc c Hu. cbn [search_passes]. destruct (Hrun qc c Hu) as (qc1 & c1 & Heq & Hu1).
    change (set_deferred false (set_run_caches qc c r)) with
      (set_run_caches qc c (set_deferred false r)). rewrite Heq.
    change (run_stopped (set_run_caches qc1 c1 r1)) with (run_stopped r1). rewrite Hs1.
    by exists qc1, c1.
  - exists r1. split_and!; [|done|done|intros Hup; split; [done|auto]].
    intros qc c Hu. cbn [search_passes]. destruct (Hrun qc c Hu) as (qc1 & c1 & Heq & Hu1).
    change (set_deferred false (set_run_caches qc c r)) with
      (set_run_caches qc c (set_deferred false r)). rewrite Heq.
    change (run_stopped (set_run_caches qc1 c1 r1)) with (run_stopped r1).
    change (run_deferred (set_run_caches qc1 c1 r1)) with (run_deferred r1). rewrite Hs1, Hb.
    by exists qc1, c1.
  - destruct (IH r1 Hr1 Hs1) as (r' & Hrun' & Hr' & Hg' & Hcomp').
    exists r'. split_and!; [|done|by eapply grows_trans|].
    + intros qc c Hu. cbn [search_passes]. destruct (Hrun qc c Hu) as (qc1 & c1 & Heq & Hu1).
      change (set_deferred false (set_run_caches qc c r)) with
        (set_run_caches qc c (set_deferred false r)). rewrite Heq.
      change (run_stopped (set_run_caches qc1 c1 r1)) with (run_stopped r1).
      change (run_deferred (set_run_caches qc1 c1 r1)) with (run_deferred r1). rewrite Hs1, Hb.
      by apply Hrun'.
    + intros Hup. split; [apply Hcomp'; done|]. intros _ p Hv.
      eapply settled_grows; [exact Hg'|]. by apply Hset.
Qed.
End run.
