(* ===== verification/HeuristicWatch.v ===== *)
(** * What the observer of a search has seen

    [watched] relates the quotes an observer was shown to its state and its last
    answer: it accepted all of them but possibly the last.  The passes of the
    heuristic search show the observer every quote they add to the run. *)

From S2P Require Import Prelude Ordering AmmState Petgraph Graph Config SearchTypes.
From S2P Require Import Enumerate Liquidity QuoteCache Quote QuoteProps Heuristic HeuristicSearch.

Section watched.
Context `{!AmmTypes} {S : Type} (f : RouteQuote → S → bool * S).

(** [watched s0 obs b s]: from [s0] the observer saw [obs], answered [true] to all
    but the last, [b] to the last, and is now [s]. *)
Inductive watched (s0 : S) : list RouteQuote → bool → S → Prop :=
  | watched_nil : watched s0 [] true s0
  | watched_snoc obs s q b s' :
      watched s0 obs true s → f q s = (b, s') → watched s0 (obs ++ [q]) b s'.

Lemma watched_trans s0 obs s obs' b s' :
  watched s0 obs true s → watched s obs' b s' → watched s0 (obs ++ obs') b s'.
Proof.
  intros Hobs Hobs'. induction Hobs' as [|obs' s1 q b s2 _ IH Hq]; [by rewrite app_nil_r|].
  rewrite (assoc_L (++)). by eapply watched_snoc.
Qed.

Lemma watched_cons s0 q b s1 obs b' s' :
  f q s0 = (b, s1) → (if b then watched s1 obs b' s' else obs = [] ∧ b' = false ∧ s' = s1) →
  watched s0 (q :: obs) b' s'.
Proof.
  intros Hq Hobs. pose proof (watched_snoc s0 [] s0 q b s1 (watched_nil _) Hq) as Hw.
  destruct b; [by apply (watched_trans _ [q] s1)|]. by destruct Hobs as (-> & -> & ->).
Qed.

(** An observer that never refuses has accepted everything. *)
Lemma watched_accepting s0 obs b s :
  (∀ q s, (f q s).1 = true) → watched s0 obs b s → b = true.
Proof. intros Hf [|? s1 q ? ? _ Hq]; [done|]. specialize (Hf q s1). by rewrite Hq in Hf. Qed.

(** A property of the observer's state along what it sees. *)
Lemma watched_ind_state s0 obs b s (P : list RouteQuote → S → Prop) :
  P [] s0 → (∀ obs s q, P obs s → P (obs ++ [q]) (f q s).2) → watched s0 obs b s → P obs s.
Proof.
  intros H0 Hstep Hobs. induction Hobs as [|obs s1 q b s2 _ IH Hq]; [done|].
  specialize (Hstep _ _ q IH). by rewrite Hq in Hstep.
Qed.

Definition ev_watched (s0 : S) (e : Evaluator (S := S)) : Prop :=
  watched s0 (ev_quotes e) (negb (ev_stopped e)) (ev_captured e).
End watched.

(** ** The evaluator *)

Section evaluator.
Context `{!AmmTypes} {S : Type} (on_quote : option (RouteQuote → S → bool * S)).

Lemma consume_watched s0 rs (e : Evaluator (S := S)) :
  ev_watched (observe on_quote) s0 e → ev_watched (observe on_quote) s0 (consume on_quote None rs e).
Proof.
  unfold consume. revert e. induction rs as [|r rs IH]; intros e He; [done|]. simpl. apply IH.
  unfold consume_one. destruct (ev_stopped e) eqn:Hst; [done|]. unfold ev_watched in *.
  rewrite Hst in He. destruct r as [q|fl]; [|simpl; by rewrite Hst].
  unfold push_quote. destruct (observe on_quote q (ev_captured e)) as [b s'] eqn:Hq. simpl.
  rewrite Hst, orb_false_r, negb_involutive. by eapply watched_snoc.
Qed.

Lemma ev_watched_view s0 (e e' : Evaluator (S := S)) :
  ev_view e = ev_view e' → ev_watched (observe on_quote) s0 e → ev_watched (observe on_quote) s0 e'.
Proof. unfold ev_view, ev_watched. by intros [= -> _ -> ->]. Qed.
End evaluator.

(** ** The passes *)

Section passes.
Context `{!AmmTypes} `{!Petgraph Address EdgeData} {S : Type}.
Context (registry : AdapterRegistry) (g : AmmGraph)
  (liquidity_index : option PoolLiquidityIndex).
Context (ti to : Address) (source target : NodeIndex) (amount_in : U256)
  (config : SearchConfig) (h : HeuristicSearchConfig) (sim_config : SimConfig)
  (connectors : option (gset Address)) (allow : bool)
  (on_quote : option (RouteQuote → S → bool * S)) (s0 : S).
Implicit Types (r : Run S).

Definition run_watched r : Prop :=
  watched (observe on_quote) s0 (run_quotes r) (negb (run_stopped r)) (run_captured r).

(** The part of a run the observer is concerned with. *)
Definition run_view r : list RouteQuote * S * bool := (run_quotes r, run_captured r, run_stopped r).

Definition going r : Prop := run_watched r ∧ run_stopped r = false.

(** After a step that may break out of the search. *)
Definition stepped_run r (stop : bool) : Prop :=
  run_watched r ∧ (stop = false → run_stopped r = false).

Lemma going_view r r' : run_view r' = run_view r → going r → going r'.
Proof. unfold run_view, going, run_watched. by intros [= -> -> ->]. Qed.

Lemma going_step r stop : going r → stepped_run r stop.
Proof. by intros [? ?]. Qed.

Lemma quote_group_view st closes ranked best quoted r quoted' r' :
  quote_group registry liquidity_index config sim_config st closes ranked best quoted r =
    Some (quoted', r') → run_view r' = run_view r.
Proof.
  revert best quoted r. induction ranked as [|rh ranked IH]; intros best quoted r; simpl.
  { by intros [= _ <-]. }
  destruct (should_prune_liquidity_hop _ _ _ _ _ _) as [[] qc]; [by intros ->%IH|].
  destruct (quote_hop_with_cache _ _ _ _ _ _) as [[[[out|e] qc'] c]|]; [| |done];
    by intros ->%IH.
Qed.

Lemma complete_route_watched st quoted r r' stop :
  complete_route amount_in config on_quote st quoted r = (r', stop) → going r → stepped_run r' stop.
Proof.
  unfold complete_route. intros Heq Hr. pose proof Hr as [Hw Hs].
  destruct (_ <? _); [injection Heq as <- <-; by apply going_step|].
  case_decide; [injection Heq as <- <-; by apply going_step|].
  match type of Heq with context [observe on_quote ?q _] => set (quote := q) in Heq end.
  destruct (observe on_quote quote (run_captured r)) as [keep s'] eqn:Ho.
  unfold run_watched in Hw. rewrite Hs in Hw.
  destruct keep; cbn [negb] in Heq; injection Heq as <- <-; unfold stepped_run, run_watched; simpl;
    rewrite ?Hs; (split; [|done]); by eapply watched_snoc.
Qed.

Lemma extend_route_view st next_node quoted next r next' r' :
  extend_route g ti to source target config h connectors allow st next_node quoted next r =
    (next', r') → run_view r' = run_view r.
Proof.
  unfold extend_route. destruct (_ <? _); [|by intros [= _ <-]].
  destruct (prefix_dominance h); [|by intros [= _ <-]].
  destruct (insert_or_dominated _ _ _) as [[] d]; by intros [= _ <-].
Qed.

Lemma extend_quoted_watched st qs next r next' r' stop :
  extend_quoted g ti to source target amount_in config h connectors allow on_quote st qs next r =
    Some (next', r', stop) → going r → stepped_run r' stop.
Proof.
  revert next r. induction qs as [|quoted qs IH]; intros next r; simpl.
  { intros [= _ <- <-]. apply going_step. }
  destruct (node_index g _) as [node|]; [|done]. case_decide.
  - destruct (complete_route _ _ _ _ _ _) as [r1 stop1] eqn:Hc. intros Heq Hr.
    apply (complete_route_watched _ _ _ _ _ Hc) in Hr. destruct stop1.
    + by injection Heq as _ <- <-.
    + eapply IH; [exact Heq|]. split; [apply Hr|by apply Hr].
  - destruct (extend_route _ _ _ _ _ _ _ _ _ _ _ _ _ _) as [next1 r1] eqn:He. intros Heq Hr.
    eapply IH; [exact Heq|]. by eapply going_view; [eapply extend_route_view|].
Qed.

Lemma expand_group_watched pass_mode refine st group next r next' r' stop :
  expand_group registry g liquidity_index ti to source target amount_in config h sim_config
    connectors allow on_quote pass_mode refine st group next r = Some (next', r', stop) →
  going r → stepped_run r' stop.
Proof.
  unfold expand_group.
  destruct (liquidity_ranked_hops _ _ _ _ _ _ _) as [ranked qc]. cbv zeta.
  match goal with |- context [shortlisted_ranked_hops ranked h pass_mode (run_quote_cache ?r0)] =>
    assert (run_view r0 = run_view r) as Hv by (by destruct (_ && _)); generalize dependent r0 end.
  intros r0 Hv. destruct (shortlisted_ranked_hops _ _ _ _) as [ranked' qc'].
  destruct (quote_group _ _ _ _ _ _ _ _ _ _) as [[quoted r1]|] eqn:Hq; [|done].
  apply quote_group_view in Hq. intros He Hr. eapply extend_quoted_watched; [exact He|].
  eapply going_view; [|exact Hr]. rewrite Hq. done.
Qed.

Lemma expand_groups_watched pass_mode refine st groups next r next' r' stop :
  expand_groups registry g liquidity_index ti to source target amount_in config h sim_config
    connectors allow on_quote pass_mode refine st groups next r = Some (next', r', stop) →
  going r → stepped_run r' stop.
Proof.
  revert next r. induction groups as [|group groups IH]; intros next r; simpl.
  { intros [= _ <- <-]. apply going_step. }
  destruct (expand_group _ _ _ _ _ _ _ _ _ _ _ _ _ _ _ _ _ _ _ _) as [[[next1 r1] stop1]|] eqn:Hg;
    [|done].
  intros Heq Hr. apply (expand_group_watched _ _ _ _ _ _ _ _ _ Hg) in Hr. destruct stop1.
  - by injection Heq as _ <- <-.
  - eapply IH; [exact Heq|]. split; [apply Hr|by apply Hr].
Qed.

Lemma dominated_on_entry_view st r skip r' :
  dominated_on_entry g ti to source target h connectors allow st r = (skip, r') →
  run_view r' = run_view r.
Proof.
  unfold dominated_on_entry. destruct (prefix_dominance h); [|by intros [= _ <-]].
  destruct (node_token _ _); [|by intros [= _ <-]].
  destruct (is_strictly_dominated _ _ _); by intros [= _ <-].
Qed.

Lemma expand_state_watched pass_mode refine st next r next' r' stop :
  expand_state registry g liquidity_index ti to source target amount_in config h sim_config
    connectors allow on_quote pass_mode refine st next r = Some (next', r', stop) →
  going r → stepped_run r' stop.
Proof.
  unfold expand_state. destruct (_ <=? _); [intros [= _ <- <-]; apply going_step|].
  destruct (should_prune_upper_bound_prefix _ _ _ _ _ _ _ _ _ _) as [[[] qc]|]; cbn; [| |done].
  { intros [= _ <- <-] Hr. by apply going_step, (going_view r). }
  destruct (dominated_on_entry _ _ _ _ _ _ _ _ _ _) as [skip r1] eqn:Hd.
  apply dominated_on_entry_view in Hd. intros Heq Hr.
  assert (going r1) as Hr1 by (eapply going_view; [rewrite Hd; reflexivity|exact Hr]).
  destruct skip; [injection Heq as _ <- <-; by apply going_step|].
  destruct (group_heuristic_hops _ _ _ _ _ _ _ _ _ _ _ _ _) as [[groups qc1]|]; [|done].
  eapply expand_groups_watched; [exact Heq|]. by eapply going_view; [|exact Hr1].
Qed.

Lemma expand_states_watched pass_mode refine frontier next r next' r' stop :
  expand_states registry g liquidity_index ti to source target amount_in config h sim_config
    connectors allow on_quote pass_mode refine frontier next r = Some (next', r', stop) →
  going r → stepped_run r' stop.
Proof.
  revert next r. induction frontier as [|st frontier IH]; intros next r; simpl.
  { intros [= _ <- <-]. apply going_step. }
  destruct (expand_state _ _ _ _ _ _ _ _ _ _ _ _ _ _ _ _ _ _ _) as [[[next1 r1] stop1]|] eqn:Hg;
    [|done].
  intros Heq Hr. apply (expand_state_watched _ _ _ _ _ _ _ _ Hg) in Hr. destruct stop1.
  - by injection Heq as _ <- <-.
  - eapply IH; [exact Heq|]. split; [apply Hr|by apply Hr].
Qed.

Lemma search_levels_watched fuel pass_mode refine frontier r r' :
  search_levels registry g liquidity_index ti to source target amount_in config h sim_config
    connectors allow on_quote fuel pass_mode refine frontier r = Some r' →
  going r → run_watched r'.
Proof.
  revert frontier r. induction fuel as [|fuel IH]; intros [|st frontier] r;
    cbn [search_levels]; try done.
  1, 2: by intros [= <-] [? _].
  destruct (expand_states _ _ _ _ _ _ _ _ _ _ _ _ _ _ _ _ _ _ _) as [[[next1 r1] stop1]|] eqn:Hg;
    [|done].
  intros Heq Hr. apply (expand_states_watched _ _ (st :: frontier) [] r) in Hg; [|done].
  destruct stop1; [injection Heq as <-; apply Hg|].
  assert (going r1) as Hr1 by (split; [apply Hg|by apply Hg]). unfold retain_undominated in Heq.
  destruct (prefix_dominance h); [|by eapply IH].
  eapply IH; [exact Heq|]. by destruct (_ <? _); [eapply going_view; [|exact Hr1]|].
Qed.

Lemma search_passes_watched passes refine r r' :
  search_passes registry g liquidity_index ti to source target amount_in config h sim_config
    connectors allow on_quote passes refine r = Some r' →
  going r → run_watched r'.
Proof.
  revert r. induction passes as [|pass_mode passes IH]; intros r; simpl; [by intros [= <-] [? _]|].
  destruct (search_levels _ _ _ _ _ _ _ _ _ _ _ _ _ _ _ _ _ _ _) as [r1|] eqn:Hl; [|done].
  intros Heq Hr. apply search_levels_watched in Hl; [|by eapply going_view; [|exact Hr]].
  destruct (run_stopped r1) eqn:Hs; [by injection Heq as <-|].
  destruct (_ && _ && _); [by injection Heq as <-|]. by apply (IH r1).
Qed.

Lemma finish_search_view r out r' :
  finish_search registry ti to amount_in h sim_config r = Some (out, r') → run_view r' = run_view r.
Proof.
  unfold finish_search. destruct (run_stopped r); [by intros [= _ <-]|].
  case_decide; [by intros [= _ <-]|]. destruct (simulate_finalists h); [|by intros [= _ <-]].
  simpl. destruct (quote_paths_with_registry _ _ _ _ _ _) as [[[[? ?] ?] ?]|]; [|done].
  by intros [= _ <-].
Qed.
End passes.
