(* ===== verification/WorkerScripts.v ===== *)
(** * What a worker thread's program does

    [follows], a weakest precondition over [Script]: with every hop answered
    rightly and the callback answering anything, a thread handles the results of
    its chunk; and how many turns its program takes. *)

From S2P Require Import Prelude AmmState Config SearchTypes QuoteCache QuoteCacheProps Quote QuoteProps.
From S2P Require Import Workers.

(** ** Programs *)

Section scripts.
Context `{!AmmTypes} (R : AdapterRegistry) (sim : SimConfig → Hop → U256 → result SimError U256).
Context (ctx : QuoteKeyContext) (cfg : SimConfig) (amount_in : U256) (observed : bool).

Abbreviation hop_answer := (hop_quote R sim cfg ctx).
Abbreviation rest := (rest_result R sim cfg ctx amount_in).
Abbreviation results := (results_of R sim cfg ctx amount_in).

(** A report, the quotes sent and whether the callback has refused one. *)
Abbreviation Progress := (QuotePathsReport * list RouteQuote * bool)%type.

(** From here the program ends in [Q], when hops are answered rightly and the
    callback answers anything. *)
Fixpoint follows (Q : Progress → Prop) (sent : list RouteQuote) (refused : bool) (p : Script) : Prop :=
  match p with
  | ScriptDone report => Q (report, sent, refused)
  | QuoteHop key hop amount k =>
      quote_key ctx hop amount cfg = Ok key ∧ follows Q sent refused (k (hop_answer hop amount))
  | Emit quote k =>
      follows Q (sent ++ [quote]) refused (k true) ∧
      ∀ sent', (sent' = sent ∨ sent' = sent ++ [quote]) → follows Q sent' true (k false)
  end.

(** Whatever happens, the program can be brought to its end with what it has
    sent. *)
Lemma follows_end Q sent refused p :
  follows Q sent refused p → ∃ report refused', Q (report, sent, refused').
Proof.
  revert sent refused. induction p as [report|key hop amount k IH|quote k IH]; intros sent refused; simpl.
  - eauto.
  - intros [_ Hk]. by eapply IH.
  - intros [_ Hk]. eapply IH. apply Hk. by left.
Qed.

(** ** What a program does with the results of its paths *)

Definition sending (quote : RouteQuote) (sent : list RouteQuote) : list RouteQuote :=
  if observed then sent ++ [quote] else sent.

Inductive handled : list (result PathFailure RouteQuote) → Progress → Progress → Prop :=
  | handled_nil st : handled [] st st
  | handled_stopped rs report sent refused :
      qp_stopped report = true → handled rs (report, sent, refused) (report, sent, refused)
  | handled_failure f rs report sent refused st :
      qp_stopped report = false → handled rs (report_failure f report, sent, refused) st →
      handled (Err f :: rs) (report, sent, refused) st
  | handled_quote q rs report sent refused st :
      qp_stopped report = false →
      handled rs (report_quote true q report, sending q sent, refused) st →
      handled (Ok q :: rs) (report, sent, refused) st
  | handled_refused q rs report sent sent' refused st :
      qp_stopped report = false → observed = true → sent' = sent ∨ sent' = sent ++ [q] →
      handled rs (report_quote false q report, sent', true) st →
      handled (Ok q :: rs) (report, sent, refused) st.

Lemma handled_stuck rs st st' : handled rs st st' → qp_stopped st.1.1 = true → st' = st.
Proof. destruct 1; simpl; intros; congruence. Qed.

Lemma handled_app rs rs' st st1 st2 :
  handled rs st st1 → handled rs' st1 st2 → handled (rs ++ rs') st st2.
Proof.
  induction 1 as [|rs rep sent refused Hs|f rs rep sent refused st Hs _ IH|q rs rep sent refused st Hs _ IH
    |q rs rep sent sent' refused st Hs Ho Hsent _ IH]; intros H2; simpl.
  - done.
  - rewrite (handled_stuck _ _ _ H2 Hs). by apply handled_stopped.
  - apply handled_failure; [done|by apply IH].
  - apply handled_quote; [done|by apply IH].
  - eapply handled_refused; [done..|by apply IH].
Qed.

(** Without a callback nothing is sent or refused. *)
Lemma handled_unobserved rs st st' :
  handled rs st st' → observed = false → st'.1.2 = st.1.2 ∧ st'.2 = st.2.
Proof.
  intros Hx Ho. induction Hx as [st|rs rep sent refused Hs|f rs rep sent refused st Hs _ IH
    |q rs rep sent refused st Hs _ IH|q rs rep sent sent' refused st Hs Ho' Hsent _ IH]; simpl in *.
  - done.
  - done.
  - done.
  - unfold sending in IH. by rewrite Ho in IH.
  - congruence.
Qed.

(** What is sent are quotes of the results, in order. *)
Lemma handled_sent rs st st' :
  handled rs st st' → qp_stopped st.1.1 = false →
  ∃ l, l `prefix_of` omap result_ok rs ∧ st'.1.2 = st.1.2 ++ l.
Proof.
  intros Hx. destruct observed eqn:Ho.
  2: { intros _. exists []. rewrite app_nil_r. split; [apply prefix_nil|]. by apply (handled_unobserved rs). }
  induction Hx as [st|rs rep sent refused Hs|f rs rep sent refused st Hs _ IH
    |q rs rep sent refused st Hs _ IH|q rs rep sent sent' refused st Hs _ Hsent Hh IH]; simpl in *;
    intros Hstop; try congruence.
  - exists []. by rewrite app_nil_r.
  - by apply IH.
  - destruct (IH Hstop) as (l & Hl & ->). exists (q :: l). split; [by apply prefix_cons|].
    unfold sending. by rewrite Ho, <- (assoc_L (++)).
  - rewrite (handled_stuck _ _ _ Hh eq_refl). simpl. destruct Hsent as [->| ->].
    + exists []. rewrite app_nil_r. split; [apply prefix_nil|done].
    + exists [q]. split; [apply prefix_cons, prefix_nil|done].
Qed.

(** Unless a quote was refused everything is reported and sent. *)
Lemma handled_all rs st st' :
  handled rs st st' → qp_stopped st.1.1 = false → st'.2 = false →
  st.2 = false ∧ qp_stopped st'.1.1 = false ∧
  qp_quotes st'.1.1 = qp_quotes st.1.1 ++ omap result_ok rs ∧
  qp_failures st'.1.1 = qp_failures st.1.1 ++ omap result_err rs ∧
  st'.1.2 = if observed then st.1.2 ++ omap result_ok rs else st.1.2.
Proof.
  induction 1 as [st|rs rep sent refused Hs|f rs rep sent refused st Hs _ IH
    |q rs rep sent refused st Hs _ IH|q rs rep sent sent' refused st Hs _ Hsent Hh IH]; simpl in *;
    intros Hstop Hr; try congruence.
  - rewrite !app_nil_r. by destruct observed.
  - destruct (IH Hstop Hr) as (-> & -> & -> & -> & ->). by rewrite <- (assoc_L (++)).
  - destruct (IH Hstop Hr) as (-> & -> & -> & -> & ->). unfold sending.
    destruct observed; by rewrite <- !(assoc_L (++)).
  - rewrite (handled_stuck _ _ _ Hh eq_refl) in Hr. done.
Qed.

(** ** The programs of the code *)

Lemma quote_hop_follows Q sent refused hop amount k :
  follows Q sent refused (k (hop_answer hop amount)) →
  follows Q sent refused (quote_hop_script ctx cfg hop amount k).
Proof.
  unfold quote_hop_script, hop_quote. destruct (quote_key ctx hop amount cfg) eqn:Hk; simpl; [|done].
  unfold hop_quote. by rewrite Hk.
Qed.

Lemma emit_follows Q sent refused q k :
  follows Q (sending q sent) refused (k true) →
  (observed = true → ∀ sent', (sent' = sent ∨ sent' = sent ++ [q]) → follows Q sent' true (k false)) →
  follows Q sent refused (emit_script observed q k).
Proof. unfold emit_script, sending. destruct observed; simpl; auto. Qed.

(** The shape of the rules: a continuation that is right after the results. *)
Definition continues (rs : list (result PathFailure RouteQuote)) (Q : Progress → Prop) (st : Progress)
    (k : QuotePathsReport → Script) : Prop :=
  ∀ st', handled rs st st' → follows Q st'.1.2 st'.2 (k st'.1.1).

Lemma terminals_follow Q paths amount quoted report sent refused k :
  continues (rest amount quoted <$> ((λ p, ([], p)) <$> paths)) Q (report, sent, refused) k →
  follows Q sent refused (terminals_script amount_in observed paths amount quoted report k).
Proof.
  revert report sent refused. induction paths as [|p paths IH]; intros report sent refused Hk;
    cbn [terminals_script].
  { apply (Hk (report, sent, refused)). apply handled_nil. }
  destruct (qp_stopped report) eqn:Hs; [apply (Hk (report, sent, refused)), handled_stopped, Hs|].
  apply emit_follows.
  - apply IH. intros st' Hh. apply Hk. by apply handled_quote.
  - intros Ho sent' Hsent. apply IH. intros st' Hh. apply Hk. by eapply handled_refused.
Qed.

Lemma failures_handled fs report sent refused :
  qp_stopped report = false →
  handled (Err <$> fs) (report, sent, refused)
    (foldl (λ report f, report_failure f report) report fs, sent, refused).
Proof.
  revert report. induction fs as [|f fs IH]; intros report Hs; [apply handled_nil|].
  apply handled_failure; [done|]. by apply IH.
Qed.

Lemma evaluate_follows Q node amount quoted report sent refused k :
  continues (rest amount quoted <$> dag_paths node) Q (report, sent, refused) k →
  follows Q sent refused (evaluate_script ctx cfg amount_in observed node amount quoted report k).
Proof.
  revert amount quoted report sent refused k.
  induction node as [ch ts Hch] using QuoteDagNode_ind'; intros amount quoted report sent refused k Hk.
  rewrite dag_paths_node, fmap_app in Hk. cbn [evaluate_script]. apply terminals_follow.
  intros [[report1 sent1] refused1] H1. cbn [fst snd].
  assert (continues (rest amount quoted <$> child_paths ch) Q (report1, sent1, refused1) k) as Hk1.
  { intros st' H2. apply Hk. by eapply handled_app. }
  clear Hk H1. revert report1 sent1 refused1 Hk1.
  induction Hch as [|[h n] ch Hn _ IH]; intros report1 sent1 refused1 Hk1.
  { apply (Hk1 (report1, sent1, refused1)), handled_nil. }
  destruct (qp_stopped report1) eqn:Hs; [apply (Hk1 (report1, sent1, refused1)), handled_stopped, Hs|].
  cbn [child_paths] in Hk1. rewrite fmap_app in Hk1. apply quote_hop_follows.
  destruct (hop_answer h amount) as [out|reason] eqn:Hh.
  - rewrite (rest_result_cons_Ok _ _ _ _ _ _ _ _ _ _ Hh) in Hk1. simpl in Hn. apply Hn.
    intros [[report2 sent2] refused2] H2. cbn [fst snd]. apply IH. intros st' H3. apply Hk1.
    by eapply handled_app.
  - rewrite (rest_result_cons_Err _ _ _ _ _ _ _ _ _ _ Hh) in Hk1. apply IH. intros st' H3. apply Hk1.
    eapply handled_app; [by apply failures_handled|done].
Qed.

Lemma chunk_dag_spec paths dag report :
  qp_stopped report = false →
  (chunk_dag paths dag report).1 = insert_all paths dag ∧
  handled ((λ _, empty_failure) <$> filter (λ p, p = []) paths) (report, [], false)
    ((chunk_dag paths dag report).2, [], false).
Proof.
  revert dag report. induction paths as [|p paths IH]; intros dag report Hs.
  { split; [done|apply handled_nil]. }
  cbn [chunk_dag]. unfold insert_all. destruct p as [|h p].
  - rewrite filter_cons_False by (by intros []). rewrite filter_cons_True by done.
    destruct (IH dag (report_failure {| pf_path := []; pf_reason := search_error_display ErrEmptyPath |} report)
      Hs) as [H1 H2]. split; [exact H1|]. by apply handled_failure.
  - rewrite filter_cons_True by done. rewrite filter_cons_False by done. by apply IH.
Qed.

(** A thread ends with the results of its chunk handled. *)
Definition chunk_done (chunk : list RoutePath) (st : Progress) : Prop :=
  handled (results chunk) (empty_report, [], false) st.

Lemma chunk_follows chunk :
  follows (chunk_done chunk) [] false (chunk_script ctx cfg amount_in observed chunk).
Proof.
  unfold chunk_script. pose proof (chunk_dag_spec chunk QuoteDag_default empty_report eq_refl) as [H1 H2].
  destruct (chunk_dag _ _ _) as [dag report]. simpl in H1, H2. subst dag. apply evaluate_follows.
  intros [[report' sent] refused] H3. by eapply handled_app.
Qed.

(** ** How many turns a program takes *)

Fixpoint takes (n : nat) (p : Script) : Prop :=
  match p with
  | ScriptDone _ => 1 ≤ n
  | QuoteHop _ _ _ k => ∃ m, n = 3 + m ∧ ∀ r, takes m (k r)
  | Emit _ k => ∃ m, n = 3 + m ∧ ∀ b, takes m (k b)
  end.

Lemma takes_le n m p : takes n p → n ≤ m → takes m p.
Proof.
  revert n m. induction p as [report|key hop amount k IH|quote k IH]; intros n m; simpl.
  - lia.
  - intros (n' & -> & Hk) Hle. exists (m - 3). split; [lia|]. intros r. eapply IH; [apply Hk|lia].
  - intros (n' & -> & Hk) Hle. exists (m - 3). split; [lia|]. intros r. eapply IH; [apply Hk|lia].
Qed.

Lemma terminals_take n paths amount quoted report k :
  (∀ report, takes n (k report)) →
  takes (3 * length paths + n) (terminals_script amount_in observed paths amount quoted report k).
Proof.
  intros Hk. revert report. induction paths as [|p paths IH]; intros report; cbn [terminals_script length].
  { eapply takes_le; [apply Hk|lia]. }
  destruct (qp_stopped report); [eapply takes_le; [apply Hk|lia]|].
  unfold emit_script. destruct observed; [|eapply takes_le; [apply IH|lia]].
  exists (3 * length paths + n). split; [lia|]. intros b. apply IH.
Qed.

Lemma quote_hop_takes n hop amount k :
  (∀ r, takes n (k r)) → takes (3 + n) (quote_hop_script ctx cfg hop amount k).
Proof.
  intros Hk. unfold quote_hop_script. destruct (quote_key _ _ _ _).
  - exists n. split; [done|exact Hk].
  - eapply takes_le; [apply Hk|lia].
Qed.

Lemma evaluate_takes n node amount quoted report k :
  (∀ report, takes n (k report)) →
  takes (dag_turns node + n) (evaluate_script ctx cfg amount_in observed node amount quoted report k).
Proof.
  revert n amount quoted report k.
  induction node as [ch ts Hch] using QuoteDagNode_ind'; intros n amount quoted report k Hk.
  cbn [evaluate_script dag_turns]. rewrite <- Nat.add_assoc. apply terminals_take. clear report.
  induction Hch as [|[h node] ch Hn _ IH]; intros report; [apply Hk|].
  match goal with |- takes (3 + ?a + ?b + n) _ => replace (3 + a + b + n) with (3 + (a + (b + n))) by lia end.
  destruct (qp_stopped report); [eapply takes_le; [apply Hk|lia]|].
  apply quote_hop_takes. intros [out|reason].
  - apply Hn. intros report'. apply IH.
  - eapply takes_le; [apply IH|lia].
Qed.

Lemma chunk_takes chunk : takes (chunk_turns chunk) (chunk_script ctx cfg amount_in observed chunk).
Proof.
  unfold chunk_script, chunk_turns. destruct (chunk_dag _ _ _) as [dag report]. simpl.
  apply evaluate_takes. intros. simpl. lia.
Qed.
End scripts.
