(* ===== verification/WorkersProps.v ===== *)
(** * Lemmas on the worker threads

    An invariant of the threads, the cache and the coordinator under every move;
    someone can always go on; and a measure every move but a spurious wake-up
    decreases, so that a system always comes to its end. *)

From S2P Require Import Prelude AmmState Config SearchTypes QuoteCache QuoteCacheProps Quote QuoteProps.
From S2P Require Import Heuristic HeuristicSearch HeuristicWatch Workers WorkerScripts.

(** ** The invariant of the threads *)

Section system.
Context `{!AmmTypes} (R : AdapterRegistry) (Inv : AdapterCache → Prop)
  (sim : SimConfig → Hop → U256 → result SimError U256).
Context (ctx : QuoteKeyContext) (cfg : SimConfig) (amount_in : U256) (observed : bool).
Context (Hsim : simulates R Inv sim) (Hinj : scope_inj ctx).
Context {O : Type} (on_quote : RouteQuote → O → bool * O) (ob0 : O) (chunks : list (list RoutePath)).

Abbreviation hop_answer := (hop_quote R sim cfg ctx).
Abbreviation follows_ := (follows R sim ctx cfg).
Abbreviation ended_as := (chunk_done R sim ctx cfg amount_in observed).
Abbreviation System := (WorkerSystem O).
(** What a thread has sent, and whether its callback has refused a quote. *)
Abbreviation Ghost := (list RouteQuote * bool)%type.
Implicit Types (sys : System) (ts : list WorkerThread) (gs : list Ghost) (g : Ghost)
  (t : WorkerThread) (key : HopQuoteKey) (cache : SharedQuoteCache).

Definition phase_follows (Q : QuotePathsReport * list RouteQuote * bool → Prop) g (ph : WorkerPhase) : Prop :=
  match ph with
  | WorkerRunning p => follows_ Q g.1 g.2 p
  | WorkerWaiting key hop amount k | WorkerSimulating key hop amount k =>
      quote_key ctx hop amount cfg = Ok key ∧ follows_ Q g.1 g.2 (k (hop_answer hop amount))
  | WorkerPublishing key entry k =>
      (∃ hop amount, quote_key ctx hop amount cfg = Ok key ∧ into_result entry = hop_answer hop amount) ∧
      follows_ Q g.1 g.2 (k (into_result entry))
  | WorkerSending quote k =>
      follows_ Q (g.1 ++ [quote]) g.2 (k true) ∧
      ∀ sent', (sent' = g.1 ∨ sent' = g.1 ++ [quote]) → follows_ Q sent' true (k false)
  | WorkerSent k => follows_ Q g.1 g.2 (k true) ∧ follows_ Q g.1 true (k false)
  | WorkerFinished report => Q (report, g.1, g.2)
  | WorkerPanicked => ∃ report refused, Q (report, g.1, refused)
  end.

Definition thread_good (chunk : list RoutePath) g t : Prop :=
  Inv (wt_overlay t) ∧ phase_follows (ended_as chunk) g (wt_phase t).

Record threads_good gs ts : Prop := {
  tg_ghosts : length gs = length chunks;
  tg_threads : length ts = length chunks;
  tg_good i chunk g t :
    chunks !! i = Some chunk → gs !! i = Some g → ts !! i = Some t → thread_good chunk g t;
}.

(** The thread that settles a key in flight. *)
Definition settles key t : Prop :=
  match wt_phase t with
  | WorkerSimulating key' _ _ _ | WorkerPublishing key' _ _ => key' = key
  | _ => False
  end.
Definition waits_for key t : Prop :=
  match wt_phase t with WorkerWaiting key' _ _ _ => key' = key | _ => False end.

(** Every ready entry is right. *)
Record ready_good cache : Prop := {
  rg_context : qc_context cache = ctx;
  rg_index : index_ok cache;
  rg_ready cfg' hop amount key entry :
    quote_key ctx hop amount cfg' = Ok key → entries cache !! key = Some (Ready entry) →
    into_result entry = with_reason (hop_result R sim cfg' hop amount);
}.

Definition asked key : Prop := ∃ cfg' hop amount, quote_key ctx hop amount cfg' = Ok key.

(** Keys in flight have a thread that settles them, keys waited for are in
    flight. *)
Record cache_good cache ts : Prop := {
  cg_ready : ready_good cache;
  cg_flight key :
    asked key → entries cache !! key = Some InFlight → ∃ i t, ts !! i = Some t ∧ settles key t;
  cg_waits i t key : ts !! i = Some t → waits_for key t → entries cache !! key = Some InFlight;
}.

(** The channel, the flag and the observer. *)
Record flow_good sys gs (obs : list RouteQuote) (b : bool) : Prop := {
  fl_watched : watched on_quote ob0 obs b (ws_observer sys);
  fl_flag : ws_cancelled sys = negb b;
  fl_coordinator :
    match ws_coordinator sys with
    | Receiving => b = true
    | Refused => b = false
    | Joining => ws_channel sys = [] ∧ (b = true → forallb thread_ended (ws_threads sys) = true)
    end;
  fl_sent : obs ++ ws_channel sys ⊆+ mjoin gs.*1;
  fl_all : b = true → obs ++ ws_channel sys ≡ₚ mjoin gs.*1;
  fl_refused i g : gs !! i = Some g → g.2 = true → b = false;
}.

Definition state_good sys : Prop :=
  ∃ gs obs b, threads_good gs (ws_threads sys) ∧ flow_good sys gs obs b.

Record sys_good sys : Prop := {
  sg_state : state_good sys;
  sg_cache : cache_good (ws_cache sys) (ws_threads sys);
}.

(** ** Moving one thread *)

Lemma thread_ghost gs ts i t :
  threads_good gs ts → ts !! i = Some t →
  ∃ chunk g, chunks !! i = Some chunk ∧ gs !! i = Some g ∧ thread_good chunk g t.
Proof.
  intros [Hg Ht Hgood] Hi. pose proof (lookup_lt_Some _ _ _ Hi) as Hlt.
  destruct (lookup_lt_is_Some_2 chunks i) as [chunk Hc]; [lia|].
  destruct (lookup_lt_is_Some_2 gs i) as [g Hgi]; [lia|]. eauto 10.
Qed.

Lemma threads_good_move gs ts i t chunk g' t' :
  threads_good gs ts → ts !! i = Some t → chunks !! i = Some chunk → thread_good chunk g' t' →
  threads_good (<[i := g']> gs) (<[i := t']> ts).
Proof.
  intros [Hg Ht Hgood] Hi Hc Hnew. split; [by rewrite length_insert..|].
  intros j chunk' g u Hc' Hgj Htj. destruct (decide (i = j)) as [<-|Hne].
  - rewrite Hc in Hc'. injection Hc' as <-.
    rewrite list_lookup_insert_eq in Hgj by (apply lookup_lt_Some in Hi; lia).
    rewrite list_lookup_insert_eq in Htj by (by eapply lookup_lt_Some). by simplify_eq.
  - rewrite list_lookup_insert_ne in Hgj by done. rewrite list_lookup_insert_ne in Htj by done.
    by eapply Hgood.
Qed.

Lemma wake_good chunk g t : thread_good chunk g t → thread_good chunk g (wake_thread t).
Proof. intros [Hi Hp]. split; [done|]. unfold wake_thread. simpl. by destruct (wt_phase t). Qed.

Lemma threads_good_wake gs ts : threads_good gs ts → threads_good gs (wake_thread <$> ts).
Proof.
  intros [Hg Ht Hgood]. split; [done|by rewrite length_fmap|].
  intros i chunk g t Hc Hgi (u & -> & Hu)%list_lookup_fmap_Some_1. apply wake_good. by eapply Hgood.
Qed.

Lemma settles_fun key key' t : settles key t → settles key' t → key = key'.
Proof. unfold settles. destruct (wt_phase t); try done; by intros -> ->. Qed.

(** A thread that settles nothing new and waits for nothing moves. *)
Lemma cache_good_move cache ts i t t' :
  cache_good cache ts → ts !! i = Some t →
  (∀ key, settles key t → settles key t') → (∀ key, ¬ waits_for key t') →
  cache_good cache (<[i := t']> ts).
Proof.
  intros [Hr Hf Hw] Hi Hs Hn. split; [done| |].
  - intros key Hq (j & u & Hj & Hu)%Hf; [|done]. destruct (decide (i = j)) as [<-|Hne].
    + exists i, t'. rewrite list_lookup_insert_eq by (by eapply lookup_lt_Some).
      split; [done|]. apply Hs. by simplify_eq.
    + exists j, u. by rewrite list_lookup_insert_ne.
  - intros j u key. destruct (decide (i = j)) as [<-|Hne].
    + rewrite list_lookup_insert_eq by (by eapply lookup_lt_Some). intros [= <-] Hu. by destruct (Hn key).
    + rewrite list_lookup_insert_ne by done. apply Hw.
Qed.

Lemma settles_wake key t : settles key (wake_thread t) ↔ settles key t.
Proof. unfold settles, wake_thread. simpl. by destruct (wt_phase t). Qed.
Lemma waits_wake key t : ¬ waits_for key (wake_thread t).
Proof. unfold waits_for, wake_thread. simpl. destruct (wt_phase t); simpl; tauto. Qed.

(** Thread [i] has settled [key]: its entry changed and everyone is woken. *)
Lemma cache_good_settled cache cache' ts i t t' key :
  cache_good cache ts → ts !! i = Some t → settles key t → ready_good cache' →
  (∀ key', key' ≠ key → entries cache' !! key' = Some InFlight → entries cache !! key' = Some InFlight) →
  entries cache' !! key ≠ Some InFlight →
  cache_good cache' (wake_thread <$> <[i := t']> ts).
Proof.
  intros [Hr Hf Hw] Hi Hs Hr' Hother Hkey. split; [done| |].
  - intros key' Hq Hin. destruct (decide (key' = key)) as [->|Hne]; [done|].
    destruct (Hf key' Hq (Hother _ Hne Hin)) as (j & u & Hj & Hu).
    assert (i ≠ j).
    { intros <-. rewrite Hi in Hj. injection Hj as <-. apply Hne. by eapply settles_fun. }
    exists j, (wake_thread u). rewrite list_lookup_fmap, list_lookup_insert_ne, Hj by done.
    split; [done|]. by apply settles_wake.
  - intros j u key' Hj Hu. apply list_lookup_fmap_Some_1 in Hj as (u' & -> & _).
    by apply waits_wake in Hu.
Qed.

(** ** Entries of the cache *)

Lemma ready_good_lookup key cache : ready_good cache → ready_good (cache_lookup key cache).2.
Proof.
  intros [Hc Hi Hr]. pose proof (cache_lookup_index key cache Hi) as Hi'.
  unfold cache_lookup in *. destruct (entries cache !! key) as [[|e]|] eqn:Hk; simpl in *.
  1,2: by split.
  split; [done|done|]. intros cfg' hop amount key' entry Hq. simpl.
  destruct (decide (key' = key)) as [->|Hne]; [by rewrite lookup_insert_eq|].
  rewrite lookup_insert_ne by done. by apply Hr.
Qed.

Lemma ready_good_publish key entry cache hop amount :
  ready_good cache → quote_key ctx hop amount cfg = Ok key → into_result entry = hop_answer hop amount →
  ready_good (cache_publish key entry cache).
Proof.
  intros [Hc Hi Hr] Hq He. pose proof (cache_publish_index key entry cache Hi) as Hi'.
  unfold cache_publish in *. destruct (entries cache !! key) as [[|e]|] eqn:Hk; [|by split..].
  split; [done|done|]. intros cfg' hop' amount' key' entry' Hq'. simpl.
  destruct (decide (key' = key)) as [->|Hne].
  - rewrite lookup_insert_eq. intros [= <-]. rewrite He. unfold hop_quote. rewrite Hq.
    destruct (quote_key_inj ctx cfg cfg' hop hop' amount amount' key Hinj Hq Hq') as (<- & <- & Hcfg).
    unfold hop_result. by rewrite (sm_config _ _ _ Hsim cfg cfg').
  - rewrite lookup_insert_ne by done. by apply Hr.
Qed.

Lemma ready_good_abandon key cache : ready_good cache → ready_good (cache_abandon key cache).
Proof.
  intros [Hc Hi Hr]. split; [done|by apply cache_abandon_index|].
  intros cfg' hop amount key' entry Hq. simpl. rewrite lookup_delete_Some. intros [_ ?]. by eapply Hr.
Qed.

Lemma ready_good_coherent cache :
  ready_good cache → (∀ key, asked key → entries cache !! key ≠ Some InFlight) → coherent R sim ctx cache.
Proof.
  intros [Hc Hi Hr] Hn. split; [done|done|]. intros cfg' hop amount key Hq.
  destruct (entries cache !! key) as [[|e]|] eqn:Hk; [|by eapply Hr|done].
  apply (Hn key); [|done]. by exists cfg', hop, amount.
Qed.

Lemma coherent_ready_good cache : coherent R sim ctx cache → ready_good cache.
Proof.
  intros [Hc Hi He]. split; [done|done|]. intros cfg' hop amount key entry Hq Hk.
  specialize (He cfg' hop amount key Hq). by rewrite Hk in He.
Qed.

(** ** The flow of quotes *)

Lemma mjoin_same gs i g r :
  gs !! i = Some g → mjoin (<[i := (g.1, r)]> gs).*1 = mjoin gs.*1.
Proof.
  intros Hi. rewrite list_fmap_insert. simpl. rewrite list_insert_id; [done|].
  by rewrite list_lookup_fmap, Hi.
Qed.

Lemma mjoin_snoc gs i g q r :
  gs !! i = Some g → mjoin (<[i := (g.1 ++ [q], r)]> gs).*1 ≡ₚ mjoin gs.*1 ++ [q].
Proof.
  revert i. induction gs as [|g0 gs IH]; intros [|i] Hi; simpl in *; [done..| |].
  - injection Hi as ->. rewrite <- !(assoc_L (++)). apply Permutation_app_head. simpl.
    apply Permutation_cons_append.
  - rewrite IH by done. by rewrite (assoc_L (++)).
Qed.

(** A thread that has not ended: the coordinator joins only after a refusal. *)
Lemma joining_refused sys gs obs b i t :
  flow_good sys gs obs b → ws_threads sys !! i = Some t → thread_ended t = false →
  ws_coordinator sys = Joining → b = false.
Proof.
  intros Hf Hi Ht Hj. pose proof (fl_coordinator _ _ _ _ Hf) as Hc. rewrite Hj in Hc.
  destruct b; [|done]. destruct Hc as [_ Hc]. specialize (Hc eq_refl).
  rewrite forallb_forall in Hc. apply list_elem_of_lookup_2, list_elem_of_In in Hi.
  apply Hc in Hi. congruence.
Qed.

Lemma flow_good_thread sys sys' gs obs b i g r :
  flow_good sys gs obs b → gs !! i = Some g → (r = true → g.2 = true ∨ b = false) →
  (ws_coordinator sys = Joining → b = false) →
  (ws_observer sys', ws_cancelled sys', ws_coordinator sys', ws_channel sys') =
    (ws_observer sys, ws_cancelled sys, ws_coordinator sys, ws_channel sys) →
  flow_good sys' (<[i := (g.1, r)]> gs) obs b.
Proof.
  intros [H1 H2 H3 H4 H5 H6] Hi Hr Hj Heq. injection Heq as E1 E2 E3 E4.
  split; rewrite ?E1, ?E2, ?E3, ?E4, ?(mjoin_same gs i g r Hi); try done.
  - destruct (ws_coordinator sys); [done..|]. split; [apply H3|]. by rewrite (Hj eq_refl).
  - intros j g'. rewrite list_lookup_insert_Some. intros [(<- & <- & _)|(Hne & Hg')].
    + intros Ht. destruct (Hr Ht) as [Hg|]; [|done]. by eapply H6.
    + by eapply H6.
Qed.

Lemma flow_good_push sys sys' gs obs b i g q :
  flow_good sys gs obs b → gs !! i = Some g → ws_coordinator sys ≠ Joining →
  (ws_observer sys', ws_cancelled sys', ws_coordinator sys', ws_channel sys') =
    (ws_observer sys, ws_cancelled sys, ws_coordinator sys, ws_channel sys ++ [q]) →
  flow_good sys' (<[i := (g.1 ++ [q], g.2)]> gs) obs b.
Proof.
  intros [H1 H2 H3 H4 H5 H6] Hi Hj Heq. injection Heq as E1 E2 E3 E4.
  split; rewrite ?E1, ?E2, ?E3, ?E4, ?(mjoin_snoc gs i g q _ Hi), ?(assoc_L (++)); try done.
  - by destruct (ws_coordinator sys).
  - by apply submseteq_app.
  - intros Hb. by rewrite (H5 Hb).
  - intros j g'. rewrite list_lookup_insert_Some. intros [(<- & <- & _)|(Hne & Hg')].
    + simpl. by eapply H6.
    + by eapply H6.
Qed.

(** ** Every move keeps the invariant *)

Lemma ready_good_stats f cache : ready_good cache → ready_good (set_stats f cache).
Proof. by intros [H1 H2 H3]. Qed.

Lemma cache_good_stats f cache ts : cache_good cache ts → cache_good (set_stats f cache) ts.
Proof. intros [H1 H2 H3]. split; [by apply ready_good_stats|done..]. Qed.

(** The threads after a private move. *)
Lemma state_good_thread sys sys' gs obs b i t chunk g r t' :
  threads_good gs (ws_threads sys) → flow_good sys gs obs b →
  ws_threads sys !! i = Some t → chunks !! i = Some chunk → gs !! i = Some g →
  thread_ended t = false → (r = true → g.2 = true ∨ b = false) →
  thread_good chunk (g.1, r) t' →
  ws_threads sys' = <[i := t']> (ws_threads sys) →
  (ws_observer sys', ws_cancelled sys', ws_coordinator sys', ws_channel sys') =
    (ws_observer sys, ws_cancelled sys, ws_coordinator sys, ws_channel sys) →
  state_good sys'.
Proof.
  intros Hth Hfl Hi Hc Hg Hend Hr Hgood Hts Heq.
  exists (<[i := (g.1, r)]> gs), obs, b. rewrite Hts. split.
  - by eapply threads_good_move.
  - eapply flow_good_thread; [done..| |done]. by eapply joining_refused.
Qed.

Lemma state_good_wake sys : state_good sys → state_good (wake_all sys).
Proof.
  intros (gs & obs & b & Hth & [H1 H2 H3 H4 H5 H6]).
  exists gs, obs, b. split; [by apply threads_good_wake|]. split; try done. simpl.
  destruct (ws_coordinator sys); [done..|]. split; [apply H3|]. intros Hb. apply H3 in Hb.
  rewrite forallb_forall in Hb |- *. intros t (u & -> & Hu)%list_elem_of_In%list_elem_of_fmap.
  apply list_elem_of_In, Hb in Hu. unfold thread_ended, wake_thread in *. simpl.
  by destruct (wt_phase u).
Qed.

(** A thread starts to wait, or to simulate. *)
Lemma cache_good_wait cache ts i t t' key :
  cache_good cache ts → ts !! i = Some t → (∀ key, ¬ settles key t) →
  entries cache !! key = Some InFlight → (∀ key', waits_for key' t' → key' = key) →
  cache_good cache (<[i := t']> ts).
Proof.
  intros [Hr Hf Hw] Hi Hs Hk Hwait. split; [done| |].
  - intros key' Hq (j & u & Hj & Hu)%Hf; [|done]. exists j, u. split; [|done].
    rewrite list_lookup_insert_ne; [done|]. intros <-. simplify_eq. by destruct (Hs key').
  - intros j u key' [(<- & <- & _)|(_ & Hj)]%list_lookup_insert_Some Hu; [|by eapply Hw].
    by rewrite (Hwait _ Hu).
Qed.

Lemma cache_good_miss cache ts i t t' key :
  cache_good cache ts → ts !! i = Some t → (∀ key, ¬ settles key t) →
  entries cache !! key = None → settles key t' → (∀ key, ¬ waits_for key t') →
  cache_good (cache_lookup key cache).2 (<[i := t']> ts).
Proof.
  intros [Hr Hf Hw] Hi Hs Hk Hs' Hn. split; [by apply ready_good_lookup| |];
    unfold cache_lookup; rewrite Hk; simpl.
  - intros key' Hq [[<- _]|[Hne Hin]]%lookup_insert_Some.
    + exists i, t'. by rewrite list_lookup_insert_eq by (by eapply lookup_lt_Some).
    + apply Hf in Hin as (j & u & Hj & Hu); [|done]. exists j, u. split; [|done].
      rewrite list_lookup_insert_ne; [done|]. intros <-. simplify_eq. by destruct (Hs key').
  - intros j u key' [(<- & <- & _)|(_ & Hj)]%list_lookup_insert_Some Hu; [by destruct (Hn key')|].
    pose proof (Hw j u key' Hj Hu) as Hin. rewrite lookup_insert_ne; [done|]. intros <-. congruence.
Qed.

(** What the cache answers. *)
Lemma cache_lookup_cases cache key :
  (∃ entry, entries cache !! key = Some (Ready entry) ∧
     cache_lookup key cache = (LookupHit entry, set_stats count_hit cache)) ∨
  (entries cache !! key = Some InFlight ∧
     cache_lookup key cache = (LookupWait, set_stats count_wait cache)) ∨
  (entries cache !! key = None ∧
     cache_lookup key cache = (LookupMiss, (cache_lookup key cache).2)).
Proof. unfold cache_lookup. destruct (entries cache !! key) as [[|entry]|]; simpl; eauto 10. Qed.

Lemma hit_answer cache key entry hop amount :
  ready_good cache → quote_key ctx hop amount cfg = Ok key → entries cache !! key = Some (Ready entry) →
  into_result entry = hop_answer hop amount.
Proof. intros Hr Hq He. rewrite (rg_ready _ Hr _ _ _ _ _ Hq He). unfold hop_quote. by rewrite Hq. Qed.

Lemma entry_of_result r : into_result (entry_of r) = r.
Proof. by destruct r. Qed.

(** ** Every move keeps the invariant, continued *)

Abbreviation turn := (worker_turn R cfg).

(** A move of thread [i] that leaves everything else as it is. *)
Lemma private_good sys i t overlay ph :
  sys_good sys → ws_threads sys !! i = Some t → thread_ended t = false → Inv overlay →
  (∀ Q gs obs b, flow_good sys gs obs b → ∀ g, phase_follows Q g (wt_phase t) →
     phase_follows Q g ph ∨ (b = false ∧ phase_follows Q (g.1, true) ph)) →
  (∀ key, settles key t → settles key {| wt_overlay := overlay; wt_phase := ph |}) →
  (∀ key, ¬ waits_for key {| wt_overlay := overlay; wt_phase := ph |}) →
  sys_good (set_thread i overlay ph sys).
Proof.
  intros [(gs & obs & b & Hth & Hfl) Hcache] Hi Hend Hov Hph Hs Hn.
  destruct (thread_ghost _ _ _ _ Hth Hi) as (chunk & g & Hc & Hg & _ & Hp).
  split; [|by eapply cache_good_move].
  destruct (Hph _ _ _ _ Hfl _ Hp) as [Hp'|[-> Hp']].
  - eapply (state_good_thread sys _ gs obs b i t chunk g g.2); try done; [auto|].
    split; [done|]. by destruct g.
  - by eapply (state_good_thread sys _ gs obs false i t chunk g true); auto.
Qed.

(** The same for a phase whose program does not depend on the flag. *)
Lemma state_good_same sys sys' i t overlay ph :
  ws_threads sys' = <[i := {| wt_overlay := overlay; wt_phase := ph |}]> (ws_threads sys) →
  (ws_observer sys', ws_cancelled sys', ws_coordinator sys', ws_channel sys') =
    (ws_observer sys, ws_cancelled sys, ws_coordinator sys, ws_channel sys) →
  ws_threads sys !! i = Some t → state_good sys → thread_ended t = false → Inv overlay →
  (∀ Q g, phase_follows Q g (wt_phase t) → phase_follows Q g ph) →
  state_good sys'.
Proof.
  intros Hts Heq Hi (gs & obs & b & Hth & Hfl) Hend Hov Hph.
  destruct (thread_ghost _ _ _ _ Hth Hi) as (chunk & g & Hc & Hg & _ & Hp).
  eapply (state_good_thread sys _ gs obs b i t chunk g g.2); try done; [auto|].
  split; [done|]. apply Hph. by destruct g.
Qed.

Lemma thread_overlay sys i t : sys_good sys → ws_threads sys !! i = Some t → Inv (wt_overlay t).
Proof.
  intros [(gs & obs & b & Hth & Hfl) _] Hi.
  destruct (thread_ghost _ _ _ _ Hth Hi) as (? & ? & _ & _ & Ho & _). done.
Qed.

(** What the phase of a thread says whatever its chunk is. *)
Lemma thread_phase sys i t : sys_good sys → ws_threads sys !! i = Some t →
  ∃ Q g, phase_follows Q g (wt_phase t).
Proof.
  intros [(gs & obs & b & Hth & Hfl) _] Hi.
  destruct (thread_ghost _ _ _ _ Hth Hi) as (? & ? & _ & _ & _ & Hp). eauto.
Qed.

Lemma quote_hop_turn_good sys sys' i t key hop amount k :
  sys_good sys → ws_threads sys !! i = Some t →
  wt_phase t = WorkerRunning (QuoteHop key hop amount k) → turn i sys = Some sys' → sys_good sys'.
Proof.
  intros Hgood Hi Hp Hturn. pose proof (thread_overlay _ _ _ Hgood Hi) as Hov.
  destruct (thread_phase _ _ _ Hgood Hi) as (Q0 & g0 & Hq). rewrite Hp in Hq. destruct Hq as [Hq _].
  pose proof Hgood as [Hst Hcache]. unfold worker_turn in Hturn. rewrite Hi in Hturn. simpl in Hturn.
  rewrite Hp in Hturn.
  assert (Hend : thread_ended t = false) by (unfold thread_ended; by rewrite Hp).
  assert (Hns : ∀ key, ¬ settles key t) by (intros ?; unfold settles; rewrite Hp; intros []).
  destruct (cache_lookup_cases (ws_cache sys) key) as [(entry & He & Hl)|[[He Hl]|[He Hl]]];
    rewrite Hl in Hturn; injection Hturn as <-; (split; [eapply state_good_same; [done..|]; rewrite Hp|]); simpl.
  - intros Q g [_ Hk]. by rewrite (hit_answer _ _ _ _ _ (cg_ready _ _ Hcache) Hq He).
  - apply cache_good_stats. eapply cache_good_move; [done..| |]; [|by intros ? ?]. intros key' Hk. by destruct (Hns key').
  - done.
  - apply cache_good_stats. eapply cache_good_wait; [done..|]. by intros key' <-.
  - done.
  - eapply cache_good_miss; [done..|]. by intros key' [].
Qed.

Lemma publish_turn_good sys sys' i t key entry k :
  sys_good sys → ws_threads sys !! i = Some t →
  wt_phase t = WorkerPublishing key entry k → turn i sys = Some sys' → sys_good sys'.
Proof.
  intros Hgood Hi Hp Hturn. pose proof (thread_overlay _ _ _ Hgood Hi) as Hov.
  destruct (thread_phase _ _ _ Hgood Hi) as (Q0 & g0 & Hq). rewrite Hp in Hq.
  destruct Hq as [(hop & amount & Hq & He) _].
  pose proof Hgood as [Hst Hcache]. unfold worker_turn in Hturn. rewrite Hi in Hturn. simpl in Hturn.
  rewrite Hp in Hturn. injection Hturn as <-.
  assert (Hend : thread_ended t = false) by (unfold thread_ended; by rewrite Hp).
  split; simpl.
  - apply state_good_wake. eapply state_good_same; [done..|]. rewrite Hp. by intros Q g [_ Hk].
  - eapply (cache_good_settled _ _ _ _ t _ key); [done..| | | |].
    + unfold settles. by rewrite Hp.
    + by eapply ready_good_publish; [apply Hcache|..].
    + intros key' Hne. unfold cache_publish. destruct (entries (ws_cache sys) !! key) as [[|]|]; simpl; try done.
      by rewrite lookup_insert_ne.
    + unfold cache_publish. destruct (entries (ws_cache sys) !! key) as [[|]|] eqn:E; simpl; [|congruence..].
      by rewrite lookup_insert_eq.
Qed.

Lemma panic_good sys sys' i : sys_good sys → worker_panics i sys = Some sys' → sys_good sys'.
Proof.
  intros Hgood Hturn. unfold worker_panics in Hturn.
  destruct (ws_threads sys !! i) as [t|] eqn:Hi; [|done]. simpl in Hturn.
  destruct (wt_phase t) as [| |key hop amount k| | | | |] eqn:Hp; try done. injection Hturn as <-.
  pose proof (thread_overlay _ _ _ Hgood Hi) as Hov. pose proof Hgood as [Hst Hcache].
  assert (Hend : thread_ended t = false) by (unfold thread_ended; by rewrite Hp).
  split; simpl.
  - apply state_good_wake. eapply state_good_same; [done..|]. rewrite Hp. intros Q g [_ Hk].
    by eapply follows_end.
  - eapply (cache_good_settled _ _ _ _ t _ key); [done..| | | |].
    + unfold settles. by rewrite Hp.
    + apply ready_good_abandon, Hcache.
    + intros key' Hne. simpl. by rewrite lookup_delete_ne.
    + simpl. by rewrite lookup_delete_eq.
Qed.

Lemma wakeup_good sys sys' i : sys_good sys → spurious_wakeup i sys = Some sys' → sys_good sys'.
Proof.
  intros Hgood Hturn. unfold spurious_wakeup in Hturn.
  destruct (ws_threads sys !! i) as [t|] eqn:Hi; [|done]. simpl in Hturn.
  destruct (wt_phase t) as [|key hop amount k| | | | | |] eqn:Hp; try done. injection Hturn as <-.
  eapply private_good; [exact Hgood|exact Hi|..].
  - unfold thread_ended. by rewrite Hp.
  - by eapply thread_overlay.
  - rewrite Hp. intros. by left.
  - unfold settles. by rewrite Hp.
  - by intros ? ?.
Qed.

Lemma send_turn_good sys sys' i t quote k :
  sys_good sys → ws_threads sys !! i = Some t → wt_phase t = WorkerSending quote k →
  turn i sys = Some sys' → sys_good sys'.
Proof.
  intros Hgood Hi Hp Hturn. pose proof (thread_overlay _ _ _ Hgood Hi) as Hov.
  assert (Hend : thread_ended t = false) by (unfold thread_ended; by rewrite Hp).
  assert (Hns : ∀ key t', settles key t → settles key t') by (intros ??; unfold settles at 1; rewrite Hp; intros []).
  unfold worker_turn in Hturn. rewrite Hi in Hturn. simpl in Hturn. rewrite Hp in Hturn.
  assert (ws_coordinator sys = Joining ∨ ws_coordinator sys ≠ Joining) as [Hj|Hj]
    by (destruct (ws_coordinator sys); auto).
  - rewrite Hj in Hturn. injection Hturn as <-.
    eapply private_good; [exact Hgood|exact Hi|done|done| |auto|by intros ? ?].
    rewrite Hp. intros Q gs obs b Hfl g [_ Hk]. right. split; [by eapply joining_refused|].
    apply Hk. by left.
  - assert (sys' = push_message quote (set_thread i (wt_overlay t) (WorkerSent k) sys)) as ->.
    { destruct (ws_coordinator sys); [by injection Hturn..|done]. }
    destruct Hgood as [(gs & obs & b & Hth & Hfl) Hcache].
    destruct (thread_ghost _ _ _ _ Hth Hi) as (chunk & g & Hc & Hg & _ & Hq). rewrite Hp in Hq.
    split; [|by eapply cache_good_move; [done..|auto|intros ? ?]].
    exists (<[i := (g.1 ++ [quote], g.2)]> gs), obs, b. split.
    + eapply threads_good_move; [done..|]. split; [done|]. simpl. split; [apply Hq|].
      apply Hq. by right.
    + by eapply flow_good_push.
Qed.

Lemma worker_turn_good sys sys' i : sys_good sys → turn i sys = Some sys' → sys_good sys'.
Proof.
  intros Hgood Hturn. destruct (ws_threads sys !! i) as [t|] eqn:Hi.
  2: { unfold worker_turn in Hturn. by rewrite Hi in Hturn. }
  destruct (wt_phase t) as [[report|key hop amount k|quote k]|?|key hop amount k| | |k| |] eqn:Hp.
  2: by eapply quote_hop_turn_good.
  5: by eapply publish_turn_good.
  5: by eapply send_turn_good.
  all: pose proof (thread_overlay _ _ _ Hgood Hi) as Hov.
  all: unfold worker_turn in Hturn; rewrite Hi in Hturn; simpl in Hturn; rewrite Hp in Hturn; try done.
  all: assert (Hend : thread_ended t = false) by (unfold thread_ended; by rewrite Hp).
  - injection Hturn as <-. eapply private_good; [exact Hgood|exact Hi|done|done| | |by intros ? ?].
    + rewrite Hp. intros. by left.
    + unfold settles. by rewrite Hp.
  - injection Hturn as <-. eapply private_good; [exact Hgood|exact Hi|done|done| | |].
    + rewrite Hp. intros Q gs obs b Hfl g Hk. rewrite (fl_flag _ _ _ _ Hfl).
      destruct b; [by left|]. right. split; [done|]. apply Hk. by left.
    + unfold settles. by rewrite Hp.
    + by destruct (ws_cancelled sys); intros ? ?.
  - destruct (quote_hop_uncached R hop amount cfg (wt_overlay t)) as [r overlay] eqn:Hr.
    destruct (quote_hop_uncached_result R Inv sim cfg Hsim hop amount _ Hov) as (c' & Heq & Hc').
    rewrite Heq in Hr. injection Hr as <- <-. injection Hturn as <-.
    destruct Hgood as [Hst Hcache]. split.
    + eapply state_good_same; [done..|]. rewrite Hp. intros Q g [Hq Hk]. simpl.
      assert (into_result (entry_of (with_reason (hop_result R sim cfg hop amount))) = hop_answer hop amount)
        as Hans. { rewrite entry_of_result. unfold hop_quote. by rewrite Hq. }
      rewrite Hans. eauto.
    + simpl. apply cache_good_stats. eapply cache_good_move; [done..| |by intros ? ?].
      unfold settles. by rewrite Hp.
  - injection Hturn as <-. eapply private_good; [exact Hgood|exact Hi|done|done| | |by intros ? ?].
    + rewrite Hp. intros Q gs obs b Hfl g [Hk1 Hk2]. rewrite (fl_flag _ _ _ _ Hfl), negb_involutive.
      destruct b; [by left|by right].
    + unfold settles. by rewrite Hp.
Qed.

Lemma flow_good_coordinator sys gs obs b cancelled channel coordinator ob obs' b' :
  flow_good sys gs obs b → watched on_quote ob0 obs' b' ob → cancelled = negb b' →
  match coordinator with
  | Receiving => b' = true
  | Refused => b' = false
  | Joining => channel = [] ∧ (b' = true → forallb thread_ended (ws_threads sys) = true)
  end →
  (∃ dropped, obs ++ ws_channel sys = obs' ++ channel ++ dropped ∧ (b' = true → dropped = [])) →
  (b' = true → b = true) →
  flow_good (set_coordinator cancelled channel coordinator ob sys) gs obs' b'.
Proof.
  intros [H1 H2 H3 H4 H5 H6] Hw Hflag Hco (dropped & Hq & Hd) Hb. split; simpl; try done.
  - rewrite Hq, (assoc_L (++)) in H4. etrans; [|exact H4]. by apply submseteq_inserts_r.
  - intros Hb'. rewrite <- (H5 (Hb Hb')), Hq, (Hd Hb'). by rewrite app_nil_r.
  - intros i g Hg Hr. destruct b'; [|done]. rewrite <- (Hb eq_refl). by eapply H6.
Qed.

Lemma coordinator_good sys sys' :
  sys_good sys → coordinator_turn on_quote sys = Some sys' → sys_good sys'.
Proof.
  intros [(gs & obs & b & Hth & Hfl) Hcache] Hturn.
  enough (∃ obs' b' cancelled channel coordinator ob,
    sys' = set_coordinator cancelled channel coordinator ob sys ∧ flow_good sys' gs obs' b')
    as (obs' & b' & cancelled & channel & coordinator & ob & -> & Hfl').
  { split; [|done]. by exists gs, obs', b'. }
  pose proof (fl_coordinator _ _ _ _ Hfl) as Hco. unfold coordinator_turn in Hturn.
  destruct (ws_coordinator sys) eqn:Hc; [| |done].
  - subst b. destruct (ws_channel sys) as [|q channel] eqn:Hch.
    + destruct (forallb _ _) eqn:Hall; [|done]. injection Hturn as <-. exists obs, true. do 4 eexists; (split; [done|]).
      eapply flow_good_coordinator; [exact Hfl|apply Hfl|apply Hfl|done| |done].
      exists []. by rewrite Hch.
    + destruct (on_quote q (ws_observer sys)) as [keep ob] eqn:Hq.
      pose proof (watched_snoc on_quote ob0 obs _ q keep ob (fl_watched _ _ _ _ Hfl) Hq) as Hw.
      exists (obs ++ [q]), keep. destruct keep; injection Hturn as <-; do 4 eexists; (split; [done|]);
        (eapply flow_good_coordinator; [exact Hfl|exact Hw| |done| |done]); try done.
      * apply Hfl.
      * exists []. rewrite Hch, app_nil_r, <- (assoc_L (++)). done.
      * exists []. rewrite Hch, app_nil_r, <- (assoc_L (++)). done.
  - subst b. injection Hturn as <-. exists obs, false. do 4 eexists; (split; [done|]).
    eapply flow_good_coordinator; [exact Hfl|apply Hfl|apply Hfl|done| |done].
    by exists (ws_channel sys).
Qed.

Abbreviation move := (make_move R cfg on_quote).
Abbreviation run_moves_ := (run_moves R cfg on_quote).

Lemma move_good sys sys' m : sys_good sys → move m sys = Some sys' → sys_good sys'.
Proof.
  destruct m as [i| |i|i]; simpl.
  - apply worker_turn_good.
  - apply coordinator_good.
  - apply wakeup_good.
  - apply panic_good.
Qed.

Lemma moves_good moves sys : sys_good sys → sys_good (run_moves_ moves sys).
Proof.
  revert sys. induction moves as [|m moves IH]; intros sys Hgood; [done|]. simpl. apply IH.
  destruct (move m sys) as [sys'|] eqn:Hm; [|done]. by eapply move_good.
Qed.

(** ** Someone can always go on *)

Definition waiting t : Prop := match wt_phase t with WorkerWaiting _ _ _ _ => True | _ => False end.

Lemma worker_turn_possible sys i t :
  ws_threads sys !! i = Some t → thread_ended t = false → ¬ waiting t → is_Some (turn i sys).
Proof.
  intros Hi Hend Hw. unfold worker_turn, thread_ended, waiting in *. rewrite Hi. simpl.
  destruct (wt_phase t) as [[| |]| | | |quote k| | |]; try done; try by eexists.
  - by destruct (cache_lookup _ _).
  - by destruct (quote_hop_uncached _ _ _ _ _).
  - by destruct (ws_coordinator sys).
Qed.

Lemma turns_possible sys :
  sys_good sys → system_ended sys = false →
  ∃ m, m ∈ every_turn (length (ws_threads sys)) ∧ is_Some (move m sys).
Proof.
  intros Hgood Hend. pose proof (sg_cache _ Hgood) as Hcache.
  assert (∀ i t, ws_threads sys !! i = Some t → thread_ended t = false → ¬ waiting t →
    ∃ m, m ∈ every_turn (length (ws_threads sys)) ∧ is_Some (move m sys)) as Hturn.
  { intros i t Hi Ht Hw. exists (WorkerTurn i). split; [|by eapply worker_turn_possible].
    apply list_elem_of_further, list_elem_of_fmap. exists i. split; [done|]. apply elem_of_seq.
    apply lookup_lt_Some in Hi. lia. }
  destruct (forallb thread_ended (ws_threads sys)) eqn:Hall.
  { exists CoordinatorTurn. split; [by apply list_elem_of_here|]. unfold system_ended in Hend.
    rewrite Hall in Hend. simpl. unfold coordinator_turn.
    destruct (ws_coordinator sys), (ws_channel sys); try done; rewrite ?Hall; try by eexists.
    by destruct (on_quote _ _) as [[] ?]; eexists. }
  assert (∃ i t, ws_threads sys !! i = Some t ∧ thread_ended t = false) as (i & t & Hi & Ht).
  { clear -Hall. induction (ws_threads sys) as [|t ts IH]; [done|]. simpl in Hall.
    destruct (thread_ended t) eqn:Ht; [|by exists 0, t].
    destruct (IH Hall) as (i & u & Hu & Hend). by exists (S i), u. }
  destruct (wt_phase t) as [|key hop amount k| | | | | |] eqn:Hp;
    try (apply (Hturn i t Hi Ht); unfold waiting; rewrite Hp; by intros []).
  assert (waits_for key t) as Hw by (unfold waits_for; by rewrite Hp).
  assert (asked key) as Hq.
  { destruct (thread_phase _ _ _ Hgood Hi) as (Q & g & Hq). rewrite Hp in Hq. destruct Hq as [Hq _].
    by exists cfg, hop, amount. }
  destruct (cg_flight _ _ Hcache key Hq (cg_waits _ _ Hcache i t key Hi Hw)) as (j & u & Hj & Hu).
  apply (Hturn j u Hj); unfold settles, thread_ended, waiting in *;
    destruct (wt_phase u); simpl in *; tauto.
Qed.

(** ** Every move but a spurious wake-up comes closer to the end *)

(** Turns a thread has left. *)
Definition turns_left (n : nat) t : Prop :=
  match wt_phase t with
  | WorkerRunning p => takes n p
  | WorkerWaiting _ _ _ k => ∃ m, n = 3 + m ∧ ∀ r, takes m (k r)
  | WorkerSimulating _ _ _ k => ∃ m, n = 2 + m ∧ ∀ r, takes m (k r)
  | WorkerPublishing _ _ k => ∃ m, n = 1 + m ∧ ∀ r, takes m (k r)
  | WorkerSending _ k => ∃ m, n = 2 + m ∧ ∀ b, takes m (k b)
  | WorkerSent k => ∃ m, n = 1 + m ∧ ∀ b, takes m (k b)
  | WorkerFinished _ | WorkerPanicked => True
  end.

Definition awake t : nat := match wt_phase t with WorkerWaiting _ _ _ _ => 0 | _ => 1 end.

(** A turn counts for more than waking every thread. *)
Definition thread_weight (W w : nat) t : Prop := ∃ n, turns_left n t ∧ (2 + W) * n + awake t ≤ w.

Definition coordinator_weight (c : Coordinator) : nat :=
  match c with Receiving => 2 | Refused => 1 | Joining => 0 end.

Definition bounded (n : nat) sys : Prop :=
  ∃ ws, Forall2 (thread_weight (length (ws_threads sys))) ws (ws_threads sys) ∧
    sum_list ws + length (ws_channel sys) + coordinator_weight (ws_coordinator sys) ≤ n.

Lemma weights_insert ws i w w' : ws !! i = Some w → sum_list (<[i := w']> ws) + w = sum_list ws + w'.
Proof.
  revert i. induction ws as [|w0 ws IH]; intros [|i] Hi; simpl in *; [done..| |].
  - injection Hi as ->. lia.
  - specialize (IH i Hi). lia.
Qed.

Lemma sum_list_succ ws : sum_list (S <$> ws) = length ws + sum_list ws.
Proof. induction ws as [|w ws IH]; [done|]. rewrite fmap_cons. simpl. rewrite IH. lia. Qed.

Lemma weight_wake W w t : thread_weight W w t → thread_weight W (S w) (wake_thread t).
Proof.
  intros (n & Hn & Hw). exists n. unfold turns_left, awake, wake_thread in *. cbn [wt_phase] in *.
  destruct (wt_phase t); cbn [wake_phase] in *; (split; [done|lia]).
Qed.

(** Thread [i] moves, and may send [d] messages. *)
Lemma bounded_thread n sys sys' i t t' d e s :
  bounded n sys → ws_threads sys !! i = Some t →
  ws_threads sys' = <[i := t']> (ws_threads sys) → ws_coordinator sys' = ws_coordinator sys →
  length (ws_channel sys') = length (ws_channel sys) + d →
  (∀ w, thread_weight (length (ws_threads sys)) w t →
     ∃ w', thread_weight (length (ws_threads sys)) w' t' ∧ w' + d + e ≤ w + s) →
  ∃ n', n' + e ≤ n + s ∧ bounded n' sys'.
Proof.
  intros (ws & Hws & Hn) Hi Hts Hco Hch Hw.
  destruct (Forall2_lookup_r _ _ _ _ _ Hws Hi) as (w & Hwi & Hwt).
  destruct (Hw w Hwt) as (w' & Hwt' & Hle).
  pose proof (weights_insert ws i w w' Hwi) as Hsum.
  exists (sum_list (<[i := w']> ws) + length (ws_channel sys') + coordinator_weight (ws_coordinator sys')).
  split; [rewrite Hco, Hch; lia|]. exists (<[i := w']> ws). split; [|done].
  rewrite Hts, length_insert. by apply Forall2_insert.
Qed.

Lemma bounded_wake n sys : bounded n sys → bounded (length (ws_threads sys) + n) (wake_all sys).
Proof.
  intros (ws & Hws & Hn). exists (S <$> ws). simpl. rewrite length_fmap. split.
  - apply Forall2_fmap. eapply Forall2_impl; [exact Hws|]. intros w t. apply weight_wake.
  - rewrite sum_list_succ. apply Forall2_length in Hws. lia.
Qed.

(** A thread goes on for [k] turns of its own. *)
Lemma weight_step W w t t' (k d : nat) :
  (∀ n, turns_left n t → ∃ n', turns_left n' t' ∧ n' + k ≤ n) →
  awake t' ≤ awake t → d ≤ (2 + W) * k →
  thread_weight W w t → ∃ w', thread_weight W w' t' ∧ w' + d ≤ w.
Proof.
  intros Hn Ha Hd (n & Hl & Hw). destruct (Hn n Hl) as (n' & Hl' & Hle).
  exists ((2 + W) * n' + awake t'). split; [by exists n'|].
  assert ((2 + W) * (n' + k) ≤ (2 + W) * n) as Hm by (by apply Nat.mul_le_mono_l).
  rewrite Nat.mul_add_distr_l in Hm. lia.
Qed.

Lemma awake_le t : awake t ≤ 1.
Proof. unfold awake. destruct (wt_phase t); lia. Qed.
Lemma awake_running t : ¬ waiting t → awake t = 1.
Proof. unfold awake, waiting. by destruct (wt_phase t). Qed.

(** A turn that is not a wait. *)
Lemma step_decreases n sys sys' i t t' d :
  bounded n sys → ws_threads sys !! i = Some t → ¬ waiting t →
  (∀ m, turns_left m t → ∃ m', turns_left m' t' ∧ m' + 1 ≤ m) →
  ws_threads sys' = <[i := t']> (ws_threads sys) → ws_coordinator sys' = ws_coordinator sys →
  length (ws_channel sys') = length (ws_channel sys) + d → d ≤ 1 →
  ∃ n', n' + (2 + length (ws_threads sys) - d) ≤ n ∧ bounded n' sys'.
Proof.
  intros Hb Hi Hwait Hstep Hts Hco Hch Hd.
  destruct (bounded_thread n sys sys' i t t' d (2 + length (ws_threads sys) - d) 0 Hb Hi Hts Hco Hch)
    as (n' & Hle & Hb').
  - intros w Hw. destruct (weight_step (length (ws_threads sys)) w t t' 1 (2 + length (ws_threads sys)))
      as (w' & Hw' & Hle); [done| |lia|done|].
    + rewrite (awake_running t Hwait). apply awake_le.
    + exists w'. split; [done|lia].
  - exists n'. split; [lia|done].
Qed.

Lemma wait_decreases n sys cache i t key hop amount k :
  bounded n sys → ws_threads sys !! i = Some t → wt_phase t = WorkerRunning (QuoteHop key hop amount k) →
  ∃ n', n' < n ∧
    bounded n' (set_cache cache (set_thread i (wt_overlay t) (WorkerWaiting key hop amount k) sys)).
Proof.
  intros Hb Hi Hp.
  destruct (bounded_thread n sys
    (set_cache cache (set_thread i (wt_overlay t) (WorkerWaiting key hop amount k) sys)) i t _ 0 1 0
    Hb Hi eq_refl eq_refl (eq_sym (Nat.add_0_r _))) as (n' & Hle & Hb').
  - intros w (m & Hm & Hw). unfold turns_left, awake in Hm, Hw. rewrite Hp in Hm, Hw.
    exists ((2 + length (ws_threads sys)) * m). split; [|lia]. exists m. split; [done|].
    unfold awake. simpl. lia.
  - exists n'. split; [lia|done].
Qed.

(** A settled key wakes everyone. *)
Lemma settle_decreases n sys cache i t ph :
  bounded n sys → ws_threads sys !! i = Some t → ¬ waiting t →
  (∀ m, turns_left m t → ∃ m', turns_left m' {| wt_overlay := wt_overlay t; wt_phase := ph |} ∧ m' + 1 ≤ m) →
  ∃ n', n' < n ∧ bounded n' (wake_all (set_cache cache (set_thread i (wt_overlay t) ph sys))).
Proof.
  intros Hb Hi Hw Hstep.
  destruct (step_decreases n sys (set_cache cache (set_thread i (wt_overlay t) ph sys)) i t _ 0
    Hb Hi Hw Hstep eq_refl eq_refl (eq_sym (Nat.add_0_r _))) as (n' & Hle & Hb'); [lia|].
  apply bounded_wake in Hb'. simpl in Hb'. rewrite length_insert in Hb'. eexists.
  split; [|exact Hb']. lia.
Qed.

(** Any other turn. *)
Lemma private_decreases n sys sys' i t overlay ph d :
  bounded n sys → ws_threads sys !! i = Some t → ¬ waiting t →
  (∀ m, turns_left m t → ∃ m', turns_left m' {| wt_overlay := overlay; wt_phase := ph |} ∧ m' + 1 ≤ m) →
  ws_threads sys' = ws_threads (set_thread i overlay ph sys) → ws_coordinator sys' = ws_coordinator sys →
  length (ws_channel sys') = length (ws_channel sys) + d → d ≤ 1 →
  ∃ n', n' < n ∧ bounded n' sys'.
Proof.
  intros Hb Hi Hw Hstep Hts Hco Hch Hd.
  destruct (step_decreases n sys sys' i t _ d Hb Hi Hw Hstep Hts Hco Hch Hd) as (n' & Hle & Hb').
  exists n'. split; [lia|done].
Qed.

Lemma worker_turn_decreases n sys sys' i :
  bounded n sys → turn i sys = Some sys' → ∃ n', n' < n ∧ bounded n' sys'.
Proof.
  intros Hb Hturn. unfold worker_turn in Hturn. destruct (ws_threads sys !! i) as [t|] eqn:Hi; [|done].
  simpl in Hturn.
  destruct (wt_phase t) as [[report|key hop amount k|quote k]|?|key hop amount k|key entry k|quote k|k| |] eqn:Hp;
    try done.
  all: assert (Hnw : ¬ waiting t) by (unfold waiting; rewrite Hp; intros []).
  2: destruct (cache_lookup_cases (ws_cache sys) key) as [(entry & He & Hl)|[[He Hl]|[He Hl]]];
       rewrite Hl in Hturn; clear Hl.
  3: by injection Hturn as <-; eapply wait_decreases.
  all: try (destruct (quote_hop_uncached _ _ _ _ _) as [r overlay]).
  6: { injection Hturn as <-. eapply settle_decreases; [done..|]. intros m. unfold turns_left. rewrite Hp.
       intros (m' & -> & Hm'). exists m'. split; [apply Hm'|lia]. }
  6: assert (∃ ph (d : bool), sys' = set_thread i (wt_overlay t) ph (if d then push_message quote sys else sys) ∧
       (∀ m, turns_left m t → ∃ m', turns_left m' {| wt_overlay := wt_overlay t; wt_phase := ph |} ∧ m' + 1 ≤ m))
       as (ph & d & -> & Hstep).
  6: { destruct (ws_coordinator sys); injection Hturn as <-.
       1,2: exists (WorkerSent k), true. 3: exists (WorkerRunning (k false)), false.
       all: split; [done|]; intros m; unfold turns_left; rewrite Hp; intros (m' & -> & Hm').
       1,2: exists (1 + m'); split; [by exists m'|lia].
       exists m'. split; [apply Hm'|lia]. }
  6: { eapply (private_decreases n sys _ i t _ ph (if d then 1 else 0)); [done..| | | |]; destruct d; try done.
       all: simpl; rewrite ?length_app; simpl; lia. }
  all: injection Hturn as <-; eapply (private_decreases n sys _ i t _ _ 0 Hb Hi Hnw);
    [|reflexivity|reflexivity|simpl; lia|lia]; intros m; unfold turns_left; rewrite Hp; simpl.
  - intros Hm. exists 0. split; [done|lia].
  - intros (m' & -> & Hm'). exists m'. split; [apply Hm'|lia].
  - intros (m' & -> & Hm'). exists (2 + m'). split; [by exists m'|lia].
  - intros (m' & -> & Hm'). destruct (ws_cancelled sys).
    + exists m'. split; [apply Hm'|lia].
    + exists (2 + m'). split; [by exists m'|lia].
  - intros (m' & -> & Hm'). exists (1 + m'). split; [by exists m'|lia].
  - intros (m' & -> & Hm'). exists m'. split; [apply Hm'|lia].
Qed.

Lemma coordinator_decreases n sys sys' :
  bounded n sys → coordinator_turn on_quote sys = Some sys' → ∃ n', n' < n ∧ bounded n' sys'.
Proof.
  intros (ws & Hws & Hn) Hturn.
  enough (ws_threads sys' = ws_threads sys ∧
    length (ws_channel sys') + coordinator_weight (ws_coordinator sys') <
    length (ws_channel sys) + coordinator_weight (ws_coordinator sys)) as [Hts Hlt].
  { exists (n - 1). split; [lia|]. exists ws. rewrite Hts. split; [done|lia]. }
  unfold coordinator_turn in Hturn. destruct (ws_coordinator sys); [| |done].
  - destruct (ws_channel sys) as [|q channel].
    + destruct (forallb _ _); [|done]. injection Hturn as <-. split; simpl; [done|lia].
    + destruct (on_quote _ _) as [[] ob]; injection Hturn as <-; (split; simpl; [done|lia]).
  - injection Hturn as <-. split; simpl; [done|lia].
Qed.

Lemma panic_decreases n sys sys' i :
  bounded n sys → worker_panics i sys = Some sys' → ∃ n', n' < n ∧ bounded n' sys'.
Proof.
  intros Hb Hturn. unfold worker_panics in Hturn. destruct (ws_threads sys !! i) as [t|] eqn:Hi; [|done].
  simpl in Hturn. destruct (wt_phase t) as [| |key hop amount k| | | | |] eqn:Hp; try done.
  injection Hturn as <-. eapply settle_decreases; [done..| |].
  - unfold waiting. rewrite Hp. intros [].
  - intros m. unfold turns_left. rewrite Hp. intros (m' & -> & _). exists 0. split; [done|lia].
Qed.

Lemma wakeup_bounded n sys sys' i :
  bounded n sys → spurious_wakeup i sys = Some sys' → bounded (S n) sys'.
Proof.
  intros Hb Hturn. unfold spurious_wakeup in Hturn. destruct (ws_threads sys !! i) as [t|] eqn:Hi; [|done].
  simpl in Hturn. destruct (wt_phase t) as [|key hop amount k| | | | | |] eqn:Hp; try done.
  injection Hturn as <-.
  destruct (bounded_thread n sys (set_thread i (wt_overlay t) (WorkerRunning (QuoteHop key hop amount k)) sys)
    i t _ 0 0 1 Hb Hi eq_refl eq_refl (eq_sym (Nat.add_0_r _))) as (n' & Hle & ws & Hws & Hn).
  - intros w (m & Hm & Hw). unfold turns_left, awake in Hm, Hw. rewrite Hp in Hm, Hw.
    exists (S w). split; [|lia]. exists m. split; [done|]. unfold awake. simpl. lia.
  - exists ws. split; [done|lia].
Qed.

(** ** Running to the end *)

Definition is_turn (m : Move) : Prop :=
  match m with WorkerTurn _ | CoordinatorTurn => True | _ => False end.

Lemma move_decreases n sys sys' m :
  (∀ i, m ≠ SpuriousWakeup i) → bounded n sys → move m sys = Some sys' → ∃ n', n' < n ∧ bounded n' sys'.
Proof.
  intros Hm. destruct m as [i| |i|i]; simpl.
  - apply worker_turn_decreases.
  - apply coordinator_decreases.
  - by destruct (Hm i).
  - apply panic_decreases.
Qed.

Lemma bounded_le n n' sys : bounded n sys → n ≤ n' → bounded n' sys.
Proof. intros (ws & Hws & Hn) Hle. exists ws. split; [done|lia]. Qed.

Lemma schedule_bounded schedule n sys :
  bounded n sys → bounded (n + length schedule) (run_moves_ schedule sys).
Proof.
  revert n sys. induction schedule as [|m schedule IH]; intros n sys Hb.
  { eapply bounded_le; [done|simpl; lia]. }
  cbn [run_moves foldl length]. eapply bounded_le; [apply (IH (S n))|lia].
  destruct (move m sys) as [sys'|] eqn:Hm; simpl; [|eapply bounded_le; [done|lia]].
  destruct m as [i| |i|i]; [| |by eapply wakeup_bounded|];
    (eapply move_decreases in Hm as (n' & Hlt & Hb'); [|done..]; eapply bounded_le; [done|lia]).
Qed.

Lemma turns_decrease ms n sys :
  Forall is_turn ms → bounded n sys →
  ∃ n', n' ≤ n ∧ bounded n' (run_moves_ ms sys) ∧ ((∃ m, m ∈ ms ∧ is_Some (move m sys)) → n' < n).
Proof.
  intros Hms. revert n sys. induction Hms as [|m ms Hm _ IH]; intros n sys Hb.
  { exists n. split_and!; [done|done|]. intros (m & Hin & _). by apply elem_of_nil in Hin. }
  cbn [run_moves foldl]. destruct (move m sys) as [sys'|] eqn:Hmove; simpl.
  - eapply move_decreases in Hmove as (n1 & Hlt & Hb1); [|by intros i ->|done].
    destruct (IH n1 sys' Hb1) as (n' & Hle & Hb' & _). exists n'. split_and!; [lia|done|lia].
  - destruct (IH n sys Hb) as (n' & Hle & Hb' & Hdec). exists n'. split_and!; [done|done|].
    intros (m' & [->|Hin]%elem_of_cons & Hsome); [rewrite Hmove in Hsome; by destruct Hsome|]. eauto.
Qed.

Lemma every_turn_turns n : Forall is_turn (every_turn n).
Proof. constructor; [done|]. apply Forall_fmap, Forall_true. done. Qed.

Abbreviation finish := (finish_in_turn R cfg on_quote).

Lemma finish_spec (P : System → Prop) fuel n sys :
  (∀ m sys sys', is_turn m → P sys → move m sys = Some sys' → P sys') →
  P sys → sys_good sys → bounded n sys → n ≤ fuel →
  ∃ sys', finish fuel sys = Some sys' ∧ P sys' ∧ sys_good sys' ∧ system_ended sys' = true.
Proof.
  intros HP. revert n sys. induction fuel as [|fuel IH]; intros n sys Hsys Hgood Hb Hle;
    (destruct (system_ended sys) eqn:Hend; [exists sys; simpl; by rewrite Hend|]).
  all: pose proof (turns_possible sys Hgood Hend) as Hposs.
  all: destruct (turns_decrease _ n sys (every_turn_turns (length (ws_threads sys))) Hb) as (n' & _ & Hb' & Hlt).
  all: specialize (Hlt Hposs).
  - lia.
  - cbn [finish_in_turn]. rewrite Hend. apply (IH n'); [|by apply moves_good|done|lia].
    pose proof (every_turn_turns (length (ws_threads sys))) as Hms.
    revert Hms. generalize (every_turn (length (ws_threads sys))). clear -HP Hsys. intros ms Hms. revert sys Hsys.
    induction Hms as [|m ms Hm _ IHms]; intros sys Hsys; [done|]. cbn [run_moves foldl].
    apply IHms. destruct (move m sys) as [sys'|] eqn:Hmove; [|done]. by eapply HP.
Qed.

(** ** Threads panic only when an adapter does *)

Definition unpanicked sys : Prop := ∀ i t, ws_threads sys !! i = Some t → wt_phase t ≠ WorkerPanicked.

Lemma unpanicked_set sys i overlay ph :
  unpanicked sys → ph ≠ WorkerPanicked → unpanicked (set_thread i overlay ph sys).
Proof.
  intros Hu Hp j t. simpl. intros [(<- & <- & _)|(_ & Hj)]%list_lookup_insert_Some; [done|by eapply Hu].
Qed.

Lemma unpanicked_wake sys : unpanicked sys → unpanicked (wake_all sys).
Proof.
  intros Hu j t Hj. apply list_lookup_fmap_Some_1 in Hj as (u & -> & Hj). specialize (Hu _ _ Hj).
  unfold wake_thread. simpl. by destruct (wt_phase u).
Qed.

Lemma move_unpanicked m sys sys' :
  (∀ i, m ≠ AdapterPanic i) → unpanicked sys → move m sys = Some sys' → unpanicked sys'.
Proof.
  intros Hm Hu. destruct m as [i| |i|i]; simpl.
  - unfold worker_turn. destruct (ws_threads sys !! i) as [t|]; [|done]. simpl.
    destruct (wt_phase t) as [[report|key hop amount k|quote k]|?|key hop amount k|key entry k|quote k|k| |];
      try done.
    + intros [= <-]. by apply unpanicked_set.
    + destruct (cache_lookup _ _) as [[] cache]; intros [= <-]; by apply (unpanicked_set sys i).
    + intros [= <-]. apply unpanicked_set; [done|]. by destruct (ws_cancelled sys).
    + destruct (quote_hop_uncached _ _ _ _ _). intros [= <-]. by apply (unpanicked_set sys i).
    + intros [= <-]. by apply unpanicked_wake, (unpanicked_set sys i).
    + destruct (ws_coordinator sys); intros [= <-]; by apply (unpanicked_set sys i).
    + intros [= <-]. by apply unpanicked_set.
  - unfold coordinator_turn. destruct (ws_coordinator sys), (ws_channel sys);
      repeat case_match; try done; by intros [= <-].
  - unfold spurious_wakeup. destruct (ws_threads sys !! i) as [t|]; [|done]. simpl.
    destruct (wt_phase t); try done. intros [= <-]. by apply unpanicked_set.
  - by destruct (Hm i).
Qed.

Definition panics (schedule : list Move) : Prop := ∃ i, AdapterPanic i ∈ schedule.

Lemma schedule_unpanicked schedule sys :
  unpanicked sys → unpanicked (run_moves_ schedule sys) ∨ panics schedule.
Proof.
  revert sys. induction schedule as [|m schedule IH]; intros sys Hu; [by left|].
  assert ((∀ i, m ≠ AdapterPanic i) ∨ ∃ i, m = AdapterPanic i) as [Hm|[i ->]].
  { destruct m; eauto; by left. }
  - destruct (IH (default sys (move m sys))) as [?|[i Hi]]; [|by left|right; exists i; by constructor].
    destruct (move m sys) as [sys'|] eqn:Hmove; [by eapply move_unpanicked|done].
  - right. exists i. constructor.
Qed.

(** ** The whole run *)

Abbreviation results := (results_of R sim cfg ctx amount_in).
Abbreviation quotes_of_chunk chunk := (omap result_ok (results chunk)).

Lemma mjoin_nils {A B} (l : list A) : mjoin ((λ _, ([] : list B)) <$> l) = [].
Proof. by induction l. Qed.

Lemma spawn_good overlay cache :
  coherent R sim ctx cache → Inv overlay →
  sys_good (spawn_workers ctx cfg amount_in observed overlay chunks cache ob0).
Proof.
  intros Hc Ho. split.
  - exists ((λ _, ([], false)) <$> chunks), [], true. split.
    + split; [by rewrite length_fmap|simpl; by rewrite length_fmap|].
      intros i chunk g t Hi (? & -> & _)%list_lookup_fmap_Some_1. simpl.
      rewrite list_lookup_fmap, Hi. intros [= <-]. split; [done|]. apply chunk_follows.
    + assert (mjoin ((λ _, ([] : list RouteQuote, false)) <$> chunks).*1 = []) as Hnil.
      { rewrite <- list_fmap_compose. apply mjoin_nils. }
      split; simpl; rewrite ?Hnil; try done.
      * constructor.
      * by intros i g (? & -> & _)%list_lookup_fmap_Some_1.
  - split; simpl.
    + by apply coherent_ready_good.
    + intros key (cfg' & hop & amount & Hq) Hin. pose proof (ch_entry _ _ _ _ Hc cfg' hop amount key Hq) as He.
      by rewrite Hin in He.
    + intros i t key (? & -> & _)%list_lookup_fmap_Some_1. done.
Qed.

Lemma sum_list_weights W (l : list (list RoutePath)) :
  sum_list ((λ chunk, W * chunk_turns chunk + 1) <$> l) = W * sum_list_with chunk_turns l + length l.
Proof. induction l as [|chunk l IH]; csimpl; [lia|]. rewrite IH. simpl. lia. Qed.

Lemma spawn_bounded overlay cache :
  bounded ((2 + length chunks) * sum_list_with chunk_turns chunks + length chunks + 2)
    (spawn_workers (O := O) ctx cfg amount_in observed overlay chunks cache ob0).
Proof.
  exists ((λ chunk, (2 + length chunks) * chunk_turns chunk + 1) <$> chunks).
  cbn [ws_threads ws_channel ws_coordinator spawn_workers coordinator_weight]. rewrite length_fmap. split.
  - apply Forall2_fmap, Forall_Forall2_diag, Forall_true. intros chunk. exists (chunk_turns chunk).
    split; [apply chunk_takes|]. unfold awake. cbn [wt_phase]. lia.
  - rewrite sum_list_weights. simpl. lia.
Qed.

Lemma spawn_unpanicked overlay cache :
  unpanicked (spawn_workers (O := O) ctx cfg amount_in observed overlay chunks cache ob0).
Proof. intros i t (? & -> & _)%list_lookup_fmap_Some_1. done. Qed.

(** What an ended thread has sent and reports. *)
Definition thread_final (b : bool) (chunk : list RoutePath) g t : Prop :=
  g.1 `prefix_of` quotes_of_chunk chunk ∧
  match wt_phase t with
  | WorkerFinished report =>
      b = true →
      qp_stopped report = false ∧ qp_quotes report = quotes_of_chunk chunk ∧
      qp_failures report = omap result_err (results chunk) ∧
      (observed = true → g.1 = quotes_of_chunk chunk)
  | WorkerPanicked => True
  | _ => False
  end.

Lemma chunk_done_sent chunk report sent refused :
  ended_as chunk (report, sent, refused) → sent `prefix_of` quotes_of_chunk chunk.
Proof. intros Hx. apply handled_sent in Hx as (l & Hl & Heq); [|done]. simpl in Heq. by rewrite Heq. Qed.

Lemma ended_final b chunk g t :
  thread_good chunk g t → thread_ended t = true → (g.2 = true → b = false) → thread_final b chunk g t.
Proof.
  intros [_ Hp] Hend Hb. unfold thread_ended, thread_final in *.
  destruct (wt_phase t) as [| | | | | |report|]; try done; simpl in Hp.
  - split; [by eapply chunk_done_sent|]. intros ->.
    apply handled_all in Hp as (_ & Hst & Hq & Hf & Hs); [|done|].
    2: { simpl. destruct (g.2); [|done]. by discriminate (Hb eq_refl). }
    simpl in *. split_and!; [done..|]. intros Ho. by rewrite Ho in Hs.
  - destruct Hp as (report & refused & Hp). split; [by eapply chunk_done_sent|done].
Qed.

Lemma all_final b sys gs obs :
  threads_good gs (ws_threads sys) → flow_good sys gs obs b → system_ended sys = true →
  Forall2 (λ chunk gt, thread_final b chunk gt.1 gt.2) chunks (zip gs (ws_threads sys)).
Proof.
  intros [Hg Ht Hgood] Hfl [Hend _]%andb_true_iff. rewrite forallb_forall in Hend.
  apply Forall2_same_length_lookup_2.
  { rewrite length_zip. lia. }
  intros i chunk [g t] Hc [Hgi Hti]%lookup_zip_Some. simpl. apply ended_final.
  - by eapply Hgood.
  - apply Hend, list_elem_of_In. by eapply list_elem_of_lookup_2.
  - by eapply fl_refused.
Qed.

Definition report_all (chunk : list RoutePath) (report : QuotePathsReport) : Prop :=
  qp_stopped report = false ∧ qp_quotes report = quotes_of_chunk chunk ∧
  qp_failures report = omap result_err (results chunk).

(** What the threads have sent together. *)
Lemma finals_sent b cs gs ts :
  Forall2 (λ chunk gt, thread_final b chunk gt.1 gt.2) cs (zip gs ts) → length gs = length ts →
  mjoin gs.*1 ⊆+ mjoin ((λ chunk, quotes_of_chunk chunk) <$> cs).
Proof.
  revert cs ts. induction gs as [|g gs IH]; intros cs [|t ts] Hall Hl; simpl in *; try done.
  { apply submseteq_nil_l. }
  inversion Hall as [|chunk ? cs' ? [Hg _] Hall']; subst. csimpl.
  apply submseteq_app; [destruct Hg as [l ->]; by apply submseteq_inserts_r|]. apply (IH cs' ts); [done|lia].
Qed.

(** What the join makes of them. *)
Lemma finals_joined cs gs ts b :
  Forall2 (λ chunk gt, thread_final b chunk gt.1 gt.2) cs (zip gs ts) → length gs = length ts →
  match join_workers ts with
  | Ok reports =>
      b = true → Forall2 report_all cs reports ∧
      (observed = true → mjoin gs.*1 = mjoin ((λ chunk, quotes_of_chunk chunk) <$> cs))
  | Err e => e = ErrWorkerPanic ∧ ∃ i t, ts !! i = Some t ∧ wt_phase t = WorkerPanicked
  end.
Proof.
  revert cs ts. induction gs as [|g gs IH]; intros cs [|t ts] Hall Hl; simpl in *; try done.
  { inversion Hall. intros _. split; [constructor|done]. }
  inversion Hall as [|chunk ? cs' ? [Hg Ht] Hall']; subst. simpl in Ht.
  specialize (IH cs' ts Hall' ltac:(lia)).
  destruct (wt_phase t) as [| | | | | |report|] eqn:Hp; try done.
  - destruct (join_workers ts) as [reports|e]; simpl.
    + intros Hb. destruct (IH Hb) as [IH1 IH2]. destruct (Ht Hb) as (H1 & H2 & H3 & H4).
      split; [by constructor|]. intros Ho. rewrite (H4 Ho). f_equal. by apply IH2.
    + destruct IH as (-> & i & u & Hi & Hu). split; [done|]. by exists (S i), u.
  - split; [done|]. by exists 0, t.
Qed.

(** The threads ran to their end. *)
Record threads_done (schedule : list Move) sys : Prop := {
  td_coherent : coherent R sim ctx (ws_cache sys);
  td_observed : ∃ obs b,
    watched on_quote ob0 obs b (ws_observer sys) ∧ ws_cancelled sys = negb b ∧
    obs ⊆+ mjoin ((λ chunk, quotes_of_chunk chunk) <$> chunks) ∧
    match join_workers (ws_threads sys) with
    | Ok reports =>
        b = true → Forall2 report_all chunks reports ∧
        (observed = true → obs ≡ₚ mjoin ((λ chunk, quotes_of_chunk chunk) <$> chunks))
    | Err e => e = ErrWorkerPanic ∧ panics schedule
    end;
}.

Lemma ended_done schedule sys :
  sys_good sys → system_ended sys = true → unpanicked sys ∨ panics schedule → threads_done schedule sys.
Proof.
  intros [(gs & obs & b & Hth & Hfl) Hcache] Hend Hu.
  pose proof (all_final b sys gs obs Hth Hfl Hend) as Hfinal.
  assert (length gs = length (ws_threads sys)) as Hl by (destruct Hth; lia).
  assert (ws_channel sys = []) as Hch.
  { pose proof (fl_coordinator _ _ _ _ Hfl) as Hco. unfold system_ended in Hend.
    destruct (ws_coordinator sys); [by rewrite andb_false_r in Hend..|]. apply Hco. }
  pose proof (fl_sent _ _ _ _ Hfl) as Hsent. pose proof (fl_all _ _ _ _ Hfl) as Hall.
  rewrite Hch, app_nil_r in Hsent, Hall. split.
  - apply ready_good_coherent; [apply Hcache|]. intros key Hq Hin.
    destruct (cg_flight _ _ Hcache key Hq Hin) as (i & t & Hi & Ht).
    apply andb_true_iff in Hend as [Hend _]. rewrite forallb_forall in Hend.
    apply list_elem_of_lookup_2, list_elem_of_In, Hend in Hi.
    unfold settles, thread_ended in *. by destruct (wt_phase t).
  - exists obs, b. split_and!; [apply Hfl|apply Hfl|etrans; [exact Hsent|by eapply finals_sent]|].
    pose proof (finals_joined chunks gs (ws_threads sys) b Hfinal Hl) as Hjoin.
    destruct (join_workers (ws_threads sys)) as [reports|e].
    + intros Hb. destruct (Hjoin Hb) as [H1 H2]. split; [done|]. intros Ho. by rewrite (Hall Hb), (H2 Ho).
    + destruct Hjoin as (-> & i & t & Hi & Ht). split; [done|]. destruct Hu as [Hu|]; [|done].
      by destruct (Hu i t Hi).
Qed.

(** The threads always come to their end. *)
Lemma run_threads_spec overlay schedule cache :
  coherent R sim ctx cache → Inv overlay →
  ∃ sys, run_threads R cfg amount_in observed overlay chunks schedule on_quote cache ob0 = Some sys ∧
    threads_done schedule sys.
Proof.
  intros Hc Ho. unfold run_threads, worker_fuel. rewrite (ch_context _ _ _ _ Hc).
  set (sys0 := spawn_workers _ _ _ _ _ _ _ _).
  pose proof (moves_good schedule sys0 (spawn_good overlay cache Hc Ho)) as Hgood.
  pose proof (schedule_bounded schedule _ sys0 (spawn_bounded overlay cache)) as Hb.
  pose proof (schedule_unpanicked schedule sys0 (spawn_unpanicked overlay cache)) as Hu0.
  edestruct (finish_spec (λ sys, unpanicked sys ∨ panics schedule)) as (sys & Hrun & Hu & Hgood' & Hend);
    [|exact Hu0|exact Hgood|exact Hb|reflexivity|].
  { intros m sys sys' Hm [Hu|Hp] Hmove; [|by right]. left. eapply move_unpanicked; [|done..]. by intros i ->. }
  exists sys. split; [exact Hrun|]. by apply ended_done.
Qed.
End system.
