(* ===== verification/WorkersTheorems.v ===== *)
(** * The worker threads always finish

    Along every execution of the threads: none of them waits for ever, the
    execution is bounded, and at its end the quote cache, the observer and the
    reports are right. *)

From S2P Require Import Prelude AmmState Config SearchTypes QuoteCache QuoteCacheProps Quote QuoteProps.
From S2P Require Import Heuristic HeuristicSearch HeuristicWatch Workers WorkersProps.

Section executions.
Context `{!AmmTypes} {O : Type} (R : AdapterRegistry) (cfg : SimConfig)
  (on_quote : RouteQuote → O → bool * O).

(** An execution: every move is possible where it is made. *)
Fixpoint execution (moves : list Move) (sys : WorkerSystem O) : option (WorkerSystem O) :=
  match moves with
  | [] => Some sys
  | m :: moves => sys ← make_move R cfg on_quote m sys; execution moves sys
  end.

Definition wakeups (moves : list Move) : nat :=
  sum_list_with (λ m, match m with SpuriousWakeup _ => 1 | _ => 0 end) moves.

Lemma execution_run moves sys sys' :
  execution moves sys = Some sys' → run_moves R cfg on_quote moves sys = sys'.
Proof.
  revert sys. induction moves as [|m moves IH]; intros sys; [by intros [= ->]|]. cbn [execution].
  destruct (make_move R cfg on_quote m sys) as [sys1|] eqn:Hm; [|done]. intros Hrun.
  cbn [run_moves foldl]. rewrite Hm. by apply IH.
Qed.

(** Every move but a spurious wake-up uses up some of the bound. *)
Lemma execution_bounded n moves sys sys' :
  bounded n sys → execution moves sys = Some sys' → length moves ≤ n + 2 * wakeups moves.
Proof.
  revert n sys. induction moves as [|m moves IH]; intros n sys Hb; [simpl; lia|]. cbn [execution].
  destruct (make_move R cfg on_quote m sys) as [sys1|] eqn:Hm; [|done]. intros Hrun.
  unfold wakeups in *. cbn [sum_list_with length]. destruct m as [i| |i|i].
  3: { eapply wakeup_bounded in Hm; [|done].
       specialize (IH _ _ Hm Hrun). simpl. lia. }
  all: eapply move_decreases in Hm as (n' & Hlt & Hb'); [|done..].
  all: specialize (IH _ _ Hb' Hrun); simpl; lia.
Qed.
End executions.

Section claims.
Context `{!AmmTypes} {O : Type}.

(** C38: The worker threads of a search never stall and always finish.  From any
    coherent quote cache, along every execution of the threads and their
    coordinator (turns in any order, spurious wake-ups, panics of adapters): the
    number of moves is at most [worker_fuel] and twice the spurious wake-ups; as
    long as the search has not ended some thread or the coordinator has a turn;
    and once it has ended the cache is coherent, the observer saw quotes of the
    candidates, each at most once, and the join answers the reports or, only
    after a panic, [WorkerPanic]; without a refusal the observer saw every quote
    and the reports are those of the chunks. *)
Theorem workers_finish R Inv sim ctx cfg amount_in observed (on_quote : RouteQuote → O → bool * O) ob
    chunks overlay cache moves sys :
  simulates R Inv sim → scope_inj ctx → coherent R sim ctx cache → Inv overlay →
  execution R cfg on_quote moves (spawn_workers ctx cfg amount_in observed overlay chunks cache ob) =
    Some sys →
  length moves ≤ worker_fuel chunks [] + 2 * wakeups moves ∧
  (system_ended sys = false →
   ∃ m, m ∈ every_turn (length chunks) ∧ is_Some (make_move R cfg on_quote m sys)) ∧
  (system_ended sys = true →
   threads_done R sim ctx cfg amount_in observed on_quote ob chunks moves sys).
Proof.
  intros Hsim Hinj Hc Ho Hrun. set (sys0 := spawn_workers _ _ _ _ _ _ _ _) in *.
  pose proof (spawn_good R Inv sim ctx cfg amount_in observed on_quote ob chunks overlay cache Hc Ho) as Hgood.
  pose proof (spawn_bounded ctx cfg amount_in observed ob chunks overlay cache) as Hb.
  apply (moves_good R Inv sim ctx cfg amount_in observed Hsim Hinj on_quote ob chunks moves) in Hgood.
  destruct (schedule_unpanicked R cfg on_quote moves sys0) as [Hu|Hp]; [apply spawn_unpanicked|..].
  all: fold sys0 in Hgood; rewrite (execution_run R cfg on_quote moves sys0 sys Hrun) in *.
  all: split_and!.
  all: try (intros Hend; by eapply ended_done; eauto).
  all: try (eapply execution_bounded in Hrun; [|exact Hb]; unfold worker_fuel; simpl in *; lia).
  all: intros Hend; destruct (turns_possible R Inv sim ctx cfg amount_in observed on_quote ob chunks sys Hgood Hend)
    as (m & Hm & Hs); exists m; split; [|done].
  all: destruct Hgood as [(gs & obs & b & Hth & _) _]; by rewrite <- (tg_threads _ _ _ _ _ _ _ _ _ _ Hth).
Qed.
End claims.
