(* ===== verification/HeuristicTheorems.v ===== *)
(** * Theorems about the heuristic search

    The fast lane and the end of the search complete the picture of
    [HeuristicRun]; then the claims: the search returns, its routes are
    admissible, distinct, correctly quoted and ranked whatever the caches; when
    nothing is pruned it returns the best of all admissible routes; the
    reachability check, the dominance index, the balance cap and the rankings
    do what they promise. *)

From S2P Require Import Prelude Ordering AmmState Petgraph Graph GraphPairs GraphInv GraphProps.
From S2P Require Import GraphTheorems Config SearchTypes Enumerate EnumerateProps.
From S2P Require Import EnumerateTheorems Liquidity QuoteCache QuoteCacheProps Quote QuoteProps.
From S2P Require Import Ranking Heuristic HeuristicProps HeuristicSearch HeuristicSteps HeuristicRun.
From S2P Require Import HeuristicWatch.

(** ** The fast lane *)

Section take.
Context `{!AmmTypes} {S : Type} (config : SearchConfig).
Implicit Types (r : Run S).

(** The fast lane takes a prefix of the quotes, all of them unless the
    candidate limit stops it. *)
Lemma take_fast_lane_spec quotes r :
  let r' := take_fast_lane config quotes r in
  ∃ j, run_quotes r' = run_quotes r ++ take j quotes ∧
    run_failures r' = run_failures r ∧ run_evaluated r' = run_evaluated r ∧
    (run_stopped r' = false → run_stopped r = false ∧ take j quotes = quotes) ∧
    (run_stopped r = false → run_stopped r' = true → run_quotes r' ≠ []) ∧
    (max_candidates config = None → run_stopped r' = run_stopped r) ∧
    (quotes ≠ [] → run_quotes r' ≠ []) ∧
    (∀ inc, run_incumbent r' = Some inc →
       run_incumbent r = Some inc ∨ ∃ q, q ∈ take j quotes ∧ rq_amount_out q = inc).
Proof.
  revert r. induction quotes as [|q quotes IH]; intros r; cbn [take_fast_lane].
  { exists 0. rewrite take_0, app_nil_r. split_and!; try done; [congruence|auto]. }
  set (r1 := Build_Run _ _ _ _ _ _ _ _ _ _).
  assert (∀ inc, run_incumbent r1 = Some inc →
    run_incumbent r = Some inc ∨ rq_amount_out q = inc) as Hinc.
  { unfold r1, best_of. simpl. intros inc [= <-]. destruct (run_incumbent r) as [a|]; [|by right].
    destruct (Z.max_spec a (rq_amount_out q)) as [[_ ->]|[_ ->]]; auto. }
  destruct (max_candidates_reached (length (run_quotes r1)) config) eqn:Hmax.
  - exists 1. simpl. rewrite take_0. split_and!; try done.
    + by destruct (run_quotes r).
    + unfold max_candidates_reached in Hmax. intros Hn. by rewrite Hn in Hmax.
    + by destruct (run_quotes r).
    + intros inc Hi. destruct (Hinc inc Hi); [by left|right]. exists q. split; [set_solver|done].
  - destruct (IH r1) as (j & H1 & H2 & H3 & H4 & H5 & H6 & _ & H7).
    exists (Datatypes.S j). cbn [take]. split_and!; try done.
    + rewrite H1. unfold r1. simpl. by rewrite <- (assoc_L (++)).
    + intros Hs. destruct (H4 Hs) as [? ->]. done.
    + intros _. rewrite H1. unfold r1. simpl. by destruct (run_quotes r).
    + intros inc Hi. destruct (H7 inc Hi) as [Hi'|(q' & ? & ?)].
      * destruct (Hinc inc Hi'); [by left|right]. exists q. split; [set_solver|done].
      * right. exists q'. split; [set_solver|done].
Qed.

Lemma take_fast_lane_captured quotes r :
  run_captured (take_fast_lane config quotes r) = run_captured r.
Proof.
  revert r. induction quotes as [|q quotes IH]; intros r; cbn [take_fast_lane]; [done|].
  destruct (max_candidates_reached _ config); [done|]. by rewrite IH.
Qed.

Lemma take_fast_lane_caches quotes qc c r :
  take_fast_lane config quotes (set_run_caches qc c r) =
  set_run_caches qc c (take_fast_lane config quotes r).
Proof.
  revert r. induction quotes as [|q quotes IH]; intros r; [done|].
  set (r1 := Build_Run (run_cache r) (run_quote_cache r) (run_captured r) (run_quotes r ++ [q])
    (run_failures r) (run_stopped r) (run_evaluated r)
    (best_of (run_incumbent r) (rq_amount_out q)) (run_dominance r) (run_deferred r)).
  change ((if max_candidates_reached (length (run_quotes r1)) config
           then set_stopped true (set_run_caches qc c r1)
           else take_fast_lane config quotes (set_run_caches qc c r1)) =
          set_run_caches qc c (if max_candidates_reached (length (run_quotes r1)) config
           then set_stopped true r1 else take_fast_lane config quotes r1)).
  destruct (max_candidates_reached _ config); [done|apply IH].
Qed.
End take.

Lemma consume_stopped_quotes `{!AmmTypes} {S} (f : option (RouteQuote → S → bool * S)) rs
    (e : Evaluator (S := S)) :
  ev_stopped e = false → ev_stopped (consume f None rs e) = true →
  ev_quotes (consume f None rs e) ≠ [].
Proof.
  revert e. induction rs as [|r rs IH]; intros e He; [simpl; congruence|].
  change (consume f None (r :: rs) e) with (consume f None rs (consume_one f None e r)).
  destruct (ev_stopped (consume_one f None e r)) eqn:Hs; [|by apply IH].
  intros _. rewrite consume_stopped by done. revert Hs. unfold consume_one. rewrite He.
  destruct r as [q|fl]; [|simpl; congruence]. unfold push_quote. destruct (observe f q _).
  simpl. intros _. by destruct (ev_quotes e).
Qed.

Lemma consume_unstopped `{!AmmTypes} {S} (f : option (RouteQuote → S → bool * S)) rs
    (e : Evaluator (S := S)) :
  (∀ q s, (observe f q s).1 = true) → ev_stopped e = false → ev_stopped (consume f None rs e) = false.
Proof.
  intros Hobs. unfold consume. revert e. induction rs as [|x xs IH]; intros e He; [done|].
  simpl. apply IH. unfold consume_one. rewrite He. destruct x as [q|fl]; [|done].
  unfold push_quote. specialize (Hobs q (ev_captured e)). destruct (observe f q _).
  simpl in *. by subst.
Qed.

(** ** Finalists and reports *)

Section finalists.
Context `{!AmmTypes} `{!Petgraph Address EdgeData} {S : Type} (h : HeuristicSearchConfig).
Implicit Types (r : Run S) (report : HeuristicRoutesReport).

Lemma finalists_nonempty r : 1 ≤ max_finalists h → run_quotes r ≠ [] → finalists h r ≠ [].
Proof.
  intros Hm Hq. unfold finalists.
  destruct (stable_sort (desc_by rq_amount_out) (run_quotes r)) as [|q qs] eqn:Hs.
  - destruct Hq. apply Permutation_nil_r. rewrite <- (stable_sort_perm (desc_by rq_amount_out)).
    by rewrite Hs.
  - by destruct (max_finalists h); [lia|].
Qed.

(** A quote that is no finalist is not better than any of them. *)
Lemma finalists_top r q :
  q ∈ run_quotes r →
  q ∈ finalists h r ∨
  (length (finalists h r) = max_finalists h ∧ ∀ q', q' ∈ finalists h r → better q' q).
Proof.
  unfold finalists. rewrite <- (elem_of_stable_sort (desc_by rq_amount_out)).
  pose proof (ranked_sorted (run_quotes r)) as Hs. revert Hs.
  generalize (stable_sort (desc_by rq_amount_out) (run_quotes r)). intros sorted Hs Hq.
  rewrite <- (take_drop (max_finalists h) sorted) in Hs, Hq.
  apply elem_of_app in Hq as [Hq|Hq]; [by left|right]. split.
  - rewrite length_take. assert (length (drop (max_finalists h) sorted) ≠ 0).
    { by destruct (drop (max_finalists h) sorted); [set_solver|]. }
    rewrite length_drop in *. lia.
  - intros q' Hq'. by eapply StronglySorted_app_1_elem_of.
Qed.

(** What the report of a run lists. *)
Record reports r (report : HeuristicRoutesReport) : Prop := {
  rep_quotes : hr_quotes report ≡ₚ finalists h r;
  rep_sorted : StronglySorted better (hr_quotes report);
  rep_stopped : hr_stopped report = run_stopped r;
  rep_failed : hr_failed_candidates report = length (run_failures r);
}.

(** Every quote of the run is listed, or is no better than what is listed. *)
Lemma report_top r report q :
  reports r report → q ∈ run_quotes r →
  q ∈ hr_quotes report ∨
  (length (hr_quotes report) = max_finalists h ∧ ∀ q', q' ∈ hr_quotes report → better q' q).
Proof.
  intros [Hperm _ _ _] Hq. setoid_rewrite Hperm. by apply finalists_top.
Qed.

Lemma report_best r report q :
  1 ≤ max_finalists h → reports r report → q ∈ run_quotes r →
  ∃ best, head (hr_quotes report) = Some best ∧ better best q.
Proof.
  intros Hm Hrep Hq. destruct (report_top r report q Hrep Hq) as [Hin|[Hlen Hall]];
    pose proof (rep_sorted _ _ Hrep) as Hs.
  - destruct Hs as [|best quotes _ Hbest]; [set_solver|]. exists best. split; [done|].
    rewrite Forall_forall in Hbest. unfold better in *.
    apply elem_of_cons in Hin as [->|Hin]; [lia|by apply Hbest].
  - destruct (hr_quotes report) as [|best quotes]; [simpl in *; lia|].
    exists best. split; [done|]. apply Hall. set_solver.
Qed.

Lemma covered_best registry g ti to amount_in config sim_config connectors allow sim ctx r
    report q :
  1 ≤ max_finalists h →
  run_ok registry g ti to amount_in config sim_config connectors allow sim ctx r →
  reports r report → covered h r q →
  ∃ best, head (hr_quotes report) = Some best ∧ better best q.
Proof.
  intros Hm Hr Hrep [Hq|(_ & inc & Hinc & Hle)]; [by eapply report_best|].
  destruct (ro_incumbent _ _ _ _ _ _ _ _ _ _ _ _ Hr inc Hinc) as (q' & Hq' & <-).
  destruct (report_best r report q' Hm Hrep Hq') as (best & ? & ?). exists best.
  unfold better in *. split; [done|lia].
Qed.
End finalists.

(** ** A whole search *)

Section search.
Context `{!AmmTypes} `{!Petgraph Address EdgeData} `{!PetgraphLaws Address EdgeData} {S : Type}.
Context (registry : AdapterRegistry) (g : AmmGraph)
  (liquidity_index : option PoolLiquidityIndex).
Context (ti to : Address) (source target : NodeIndex) (amount_in : U256)
  (config : SearchConfig) (h : HeuristicSearchConfig) (sim_config : SimConfig)
  (tokens : gset Address) (allow : bool)
  (on_quote : option (RouteQuote → S → bool * S)).
Context (Inv : AdapterCache → Prop) (sim : SimConfig → Hop → U256 → result SimError U256)
  (ctx : QuoteKeyContext).
Hypothesis (Hsim : simulates registry Inv sim).
Hypothesis (Hinj : scope_inj ctx).
Hypothesis (Hwf : graph_wf g).
Hypothesis (Hcycle : ti = to → allow = true).
Implicit Types (r : Run S).

Abbreviation valid := (valid_route g ti to (cfg config (Some tokens)) allow).
Abbreviation pathq p := (path_quote registry sim sim_config ctx p amount_in).
Abbreviation ok_run :=
  (run_ok registry g ti to amount_in config sim_config (Some tokens) allow sim ctx).
Abbreviation runs_ := (runs registry Inv sim ctx).
Abbreviation all_results := (results_of registry sim sim_config ctx amount_in).

Lemma fresh_run_ok r :
  run_quotes r = [] → run_failures r = [] → run_evaluated r = ∅ → run_incumbent r = None →
  run_stopped r = false → ok_run r.
Proof.
  intros H1 H2 H3 H4 H5. constructor; rewrite ?H1, ?H2, ?H3, ?H4, ?H5; try done; try set_solver.
  constructor.
Qed.

(** Quoting a list of paths with the observer, from any usable caches. *)
Lemma observed_quotes paths (r : Run S) :
  ∃ k quotes failures captured stopped,
    quotes = omap result_ok (take k (all_results paths)) ∧
    failures = omap result_err (take k (all_results paths)) ∧
    (stopped = false → k = length (all_results paths)) ∧
    (stopped = true → quotes ≠ []) ∧
    ((∀ q s, (observe on_quote q s).1 = true) → stopped = false) ∧
    watched (observe on_quote) (run_captured r) quotes (negb stopped) captured ∧
    ∀ qc c, usable_caches registry Inv sim ctx qc c →
      ∃ e, quote_paths_with_registry_observed registry sim_config amount_in on_quote None
             paths c qc (run_captured r) = Some e ∧
        ev_view e = (quotes, failures, captured, stopped) ∧
        usable_caches registry Inv sim ctx (ev_quote_cache e) (ev_cache e).
Proof.
  set (e0 c qc := {| ev_cache := c; ev_quote_cache := qc; ev_quotes := []; ev_failures := [];
    ev_captured := run_captured r; ev_stopped := false |} : Evaluator (S := S)).
  set (final := consume on_quote None (all_results paths) (e0 (run_cache r) (run_quote_cache r))).
  destruct (consume_prefix on_quote None (all_results paths) (e0 (run_cache r) (run_quote_cache r))
    eq_refl) as (k & _ & Hq & Hf & Hs).
  exists k, (ev_quotes final), (ev_failures final), (ev_captured final), (ev_stopped final).
  split_and!; [exact Hq|exact Hf|exact Hs| | | |].
  - intros Hst. by apply consume_stopped_quotes.
  - intros Hobs. by apply consume_unstopped.
  - apply (consume_watched on_quote (run_captured r)). constructor.
  - intros qc c [Hqc Hc].
    destruct (quote_paths_observed_spec registry Inv sim sim_config Hsim ctx amount_in on_quote None
      Hinj paths c qc (run_captured r) Hc Hqc) as (e & Heq & Hv & Hc' & Hqc').
    exists e. split_and!; [done| |by split].
    rewrite Hv. apply (consume_view on_quote None (all_results paths)). done.
Qed.
Abbreviation unpruned_ := (unpruned registry g liquidity_index config h sim_config on_quote sim ctx).

Lemma result_of_Ok p q : result_of registry sim sim_config ctx amount_in p = Ok q → pathq p = Ok q.
Proof. unfold result_of. destruct (pathq p); [by intros [= ->]|done]. Qed.
Lemma result_of_Err p f :
  result_of registry sim sim_config ctx amount_in p = Err f → f = {| pf_path := p; pf_reason := pf_reason f |} ∧ pathq p = Err (pf_reason f).
Proof. unfold result_of. destruct (pathq p); [done|]. by intros [= <-]. Qed.

Lemma elem_of_results x paths :
  x ∈ all_results paths ↔
  ∃ p, p ∈ paths ∧ result_of registry sim sim_config ctx amount_in p = x.
Proof.
  rewrite results_of_perm, list_elem_of_fmap. split; intros (p & ? & ?); exists p; done.
Qed.

Lemma quotes_genuine paths k q :
  q ∈ omap result_ok (take k (all_results paths)) → rq_path q ∈ paths ∧ pathq (rq_path q) = Ok q.
Proof.
  intros (x & (i & Hi & _)%elem_of_take & Hx)%list_elem_of_omap.
  destruct x as [q'|]; [|done]. injection Hx as ->.
  apply list_elem_of_lookup_2, elem_of_results in Hi as (p & Hp & Hq%result_of_Ok).
  by destruct (fold_path_path _ _ _ _ _ Hq) as [-> _].
Qed.

Lemma failures_genuine paths k f :
  f ∈ omap result_err (take k (all_results paths)) → pathq (pf_path f) = Err (pf_reason f).
Proof.
  intros (x & (i & Hi & _)%elem_of_take & Hx)%list_elem_of_omap.
  destruct x as [|f']; [done|]. injection Hx as ->.
  apply list_elem_of_lookup_2, elem_of_results in Hi as (p & Hp & Hf).
  by apply result_of_Err in Hf as [-> Hf].
Qed.

(** When all paths are quoted, each is a quote or a failure. *)
Lemma results_complete paths p :
  p ∈ paths →
  match pathq p with
  | Ok q => q ∈ omap result_ok (all_results paths)
  | Err e => {| pf_path := p; pf_reason := e |} ∈ omap result_err (all_results paths)
  end.
Proof.
  intros Hp. assert (result_of registry sim sim_config ctx amount_in p ∈ all_results paths) as Hin.
  { apply elem_of_results. by exists p. }
  unfold result_of in *. destruct (pathq p); apply list_elem_of_omap; by eexists.
Qed.

(** Quoted paths keep their identity: distinct paths have distinct quotes. *)
Lemma results_paths_nodup paths k :
  NoDup paths → NoDup (rq_path <$> omap result_ok (take k (all_results paths))).
Proof.
  intros Hnd. assert (NoDup (rq_path <$> omap result_ok (all_results paths))) as Hall.
  { rewrite quotes_of_paths. apply NoDup_omap_path; [done|]. intros p q. unfold quote_of.
    destruct (pathq p) as [q'|] eqn:Hq; [|done]. intros [= ->].
    by apply (fold_path_path _ _ _ _ _ Hq). }
  rewrite <- (take_drop k (all_results paths)), omap_app, fmap_app in Hall.
  by apply NoDup_app in Hall as (? & _ & _).
Qed.

Abbreviation run_fast_lane_ := (run_fast_lane registry g liquidity_index ti to amount_in config h
  sim_config (Some tokens) allow on_quote).

(** [obs] is what the observer has seen of a run that it started in state [s]:
    the quotes of distinct admissible routes, all accepted unless the run
    stopped.  Only a fast lane cut short by the candidate limit has shown more
    than the run keeps. *)
Record run_seen (s : S) r (obs : list RouteQuote) : Prop := {
  sn_watched : ∃ b, watched (observe on_quote) s obs b (run_captured r) ∧
    (run_stopped r = false → b = true) ∧
    (run_stopped r = true → max_candidates config = None → b = false);
  sn_all : run_stopped r = false → run_quotes r = obs;
  sn_quotes q : q ∈ run_quotes r → q ∈ obs;
  sn_genuine q : q ∈ obs → valid (rq_path q) ∧ pathq (rq_path q) = Ok q;
  sn_nodup : NoDup (rq_path <$> obs);
}.

Lemma watched_run_seen s r : ok_run r → run_watched on_quote s r → run_seen s r (run_quotes r).
Proof.
  intros Hr Hw. constructor; [|done|done|apply Hr..]. eexists. split; [exact Hw|].
  by destruct (run_stopped r).
Qed.

(** The fast lane starts the run with quotes of admissible routes. *)
Lemma run_fast_lane_spec c0 qc0 s :
  ∃ r obs, runs_ (run_fast_lane_) (initial_run c0 qc0 s) (λ qc c, set_run_caches qc c r) ∧
    ok_run r ∧ run_seen s r obs ∧ (unpruned_ → run_stopped r = false).
Proof.
  set (r0 := initial_run c0 qc0 s).
  assert (ok_run r0) as Hr0 by (by apply fresh_run_ok).
  assert (run_seen s r0 []) as Hseen0 by (by apply watched_run_seen; [|constructor]).
  unfold run_fast_lane. destruct (allow || negb (fl_enabled (fast_lane h))) eqn:Hallow.
  { exists r0, []. split_and!; [by apply runs_return|done|apply Hseen0|done]. }
  apply orb_false_iff in Hallow as [Hallow _].
  assert (ti ≠ to) as Hne by (intros ?; rewrite Hcycle in Hallow by done; done).
  destruct (fast_lane_paths_spec registry g liquidity_index ti to config h tokens allow Hwf Hne)
    as (paths & Hc & Hnd & Hv).
  destruct (decide (paths = [])) as [->|Hpaths].
  { exists r0, []. split_and!; [|done|done|done]. intros qc c Hu. destruct (Hc qc) as (qc1 & Heq & Hrec).
    change (run_quote_cache (set_run_caches qc c r0)) with qc. rewrite Heq.
    exists qc1, c. split; [done|]. by eapply usable_recorded. }
  destruct (observed_quotes paths r0)
    as (k & quotes & failures & captured & stopped & Hq & Hf & Hk & Hs & Hobs & Hwatch & Hrun).
  set (r1 := Build_Run c0 qc0 captured [] failures stopped (list_to_set paths ∪ ∅) None
    PrefixDominanceIndex_default false).
  destruct (take_fast_lane_spec config quotes r1)
    as (j & T1 & T2 & T3 & T4 & T5 & T6 & T7 & T8).
  assert (run_captured (take_fast_lane config quotes r1) = captured) as Hcap
    by (by rewrite take_fast_lane_captured).
  exists (take_fast_lane config quotes r1), quotes. split_and!.
  - intros qc c Hu. destruct (Hc qc) as (qc1 & Heq & Hrec).
    change (run_quote_cache (set_run_caches qc c r0)) with qc. rewrite Heq.
    destruct paths as [|p0 paths0]; [done|]. set (paths := p0 :: paths0) in *. cbv zeta.
    match goal with |- context [record_stats ?s (set_run_quote_cache qc1 ?r)] =>
      set (qc2 := record_liquidity_prune_stats s qc1) end.
    destruct (Hrun qc2 c) as (e & He & Hview & Hu').
    { eapply usable_recorded; [|exact Hu]. eapply recorded_trans; [exact Hrec|apply recorded_one]. }
    unfold r0, initial_run in *. cbn in *. fold qc2. rewrite He.
    injection Hview as <- <- <- <-.
    eexists (record_liquidity_prune_stats _ (ev_quote_cache e)), (ev_cache e). split.
    + f_equal. rewrite <- take_fast_lane_caches. done.
    + eapply usable_recorded; [apply recorded_one|done].
  - assert (∀ q, q ∈ take j quotes → rq_path q ∈ paths ∧ pathq (rq_path q) = Ok q) as Hgen.
    { intros q (i & Hi & _)%elem_of_take. apply list_elem_of_lookup_2 in Hi. rewrite Hq in Hi.
      by apply quotes_genuine in Hi. }
    constructor; rewrite ?T1, ?T2, ?T3; unfold r1; cbn [run_quotes run_failures run_evaluated app].
    + intros q Hin. destruct (Hgen q Hin). auto.
    + pose proof (results_paths_nodup paths k Hnd) as Hall. rewrite <- Hq in Hall.
      rewrite <- (take_drop j quotes), fmap_app in Hall. by apply NoDup_app in Hall as (? & _ & _).
    + intros q Hin. destruct (Hgen q Hin). apply elem_of_union_l. by apply elem_of_list_to_set.
    + intros p [Hin%elem_of_list_to_set|?]%elem_of_union Hst; [|set_solver].
      destruct (T4 Hst) as [Hst1 ->]. rewrite (Hk Hst1), take_ge in Hq, Hf by done.
      pose proof (results_complete paths p Hin) as Hres. rewrite Hq, Hf.
      destruct (pathq p); [done|]. intros Hnil. rewrite Hnil in Hres. set_solver.
    + intros inc Hinc. destruct (T8 inc Hinc) as [|(q & ? & ?)]; [done|]. by exists q.
    + intros f Hin. rewrite Hf in Hin. by apply failures_genuine in Hin.
    + intros Hst. assert (run_quotes (take_fast_lane config quotes r1) ≠ []) as Hne';
        [|by rewrite T1 in Hne'].
      destruct (run_stopped r1) eqn:Hst1; [apply T7, Hs, Hst1|by apply T5].
  - constructor.
    + exists (negb stopped). rewrite Hcap. split_and!; [done| |].
      * intros Hst. destruct (T4 Hst) as [Hst1 _]. unfold r1 in Hst1. simpl in Hst1. by rewrite Hst1.
      * intros Hst Hmax. rewrite T6 in Hst by done. unfold r1 in Hst. simpl in Hst. by rewrite Hst.
    + intros Hst. rewrite T1. by destruct (T4 Hst) as [_ ->].
    + intros q. rewrite T1. unfold r1. cbn [run_quotes app]. intros (i & Hi & _)%elem_of_take.
      by eapply list_elem_of_lookup_2.
    + intros q Hin. rewrite Hq in Hin. apply quotes_genuine in Hin as [? ?]. auto.
    + rewrite Hq. by apply results_paths_nodup.
  - intros Hup. rewrite T6 by apply Hup. apply Hobs. apply Hup.
Qed.

(** ** The end of the search *)

Lemma finalists_ok r : ok_run r →
  StronglySorted better (finalists h r) ∧ NoDup (rq_path <$> finalists h r) ∧
  ∀ q, q ∈ finalists h r → q ∈ run_quotes r.
Proof.
  intros Hr. unfold finalists. set (sorted := stable_sort (desc_by rq_amount_out) (run_quotes r)).
  split_and!.
  - eapply StronglySorted_app_1_l. rewrite take_drop. apply ranked_sorted.
  - assert (NoDup (rq_path <$> sorted)) as Hnd.
    { unfold sorted. rewrite stable_sort_perm. apply Hr. }
    rewrite <- (take_drop (max_finalists h) sorted), fmap_app in Hnd.
    by apply NoDup_app in Hnd as (? & _ & _).
  - intros q (i & Hi & _)%elem_of_take. apply list_elem_of_lookup_2 in Hi.
    unfold sorted in Hi. by rewrite elem_of_stable_sort in Hi.
Qed.

(** Simulating the finalists again returns them, up to ties. *)
Lemma requoted_finalists r :
  ok_run r →
  omap result_ok (all_results (rq_path <$> finalists h r)) ≡ₚ finalists h r ∧
  omap result_err (all_results (rq_path <$> finalists h r)) = [].
Proof.
  intros Hr. assert (∀ q, q ∈ finalists h r → pathq (rq_path q) = Ok q) as Hq.
  { intros q Hin. apply finalists_ok in Hin; [|done]. by apply Hr. }
  split.
  - rewrite quotes_of_paths, omap_fmap_list. apply reflexive_eq.
    rewrite (omap_ext_in _ Some).
    + induction (finalists h r) as [|q qs IH]; csimpl; [done|].
      f_equal. apply IH. intros ? ?. apply Hq. set_solver.
    + intros q Hin. unfold compose, quote_of. by rewrite Hq.
  - destruct (omap result_err _) as [|f fs] eqn:Hf; [done|]. exfalso.
    assert (f ∈ omap result_err (all_results (rq_path <$> finalists h r))) as Hin
      by (rewrite Hf; set_solver).
    rewrite failures_of_paths, omap_fmap_list in Hin.
    apply list_elem_of_omap in Hin as (q & Hin & Hf'). unfold compose, failure_of in Hf'.
    by rewrite Hq in Hf'.
Qed.

Abbreviation finish_search_ := (finish_search registry ti to amount_in h sim_config).

Lemma finish_search_spec r :
  1 ≤ max_finalists h → ok_run r →
  ∃ out, runs_ finish_search_ r (λ qc c, (out, set_run_caches qc c r)) ∧
    match out with
    | Ok report => reports h r report ∧ run_quotes r ≠ []
    | Err (ErrNoPath a b) => a = ti ∧ b = to ∧ run_quotes r = [] ∧ run_failures r = []
    | Err (ErrNoViableRoute n failures) =>
        failures = run_failures r ∧ n = length failures ∧ failures ≠ [] ∧ run_quotes r = []
    | Err _ => False
    end.
Proof.
  intros Hm Hr. pose proof (finalists_ok r Hr) as (Hsorted & _ & _).
  assert (∀ qc c, finish_search_ (set_run_caches qc c r) =
    if run_stopped r then
      Some (Ok (report_of (finalists h r) true (length (run_failures r))), set_run_caches qc c r)
    else if decide (run_quotes r = []) then
      Some (match run_failures r with
            | [] => Err (ErrNoPath ti to)
            | _ => Err (ErrNoViableRoute (length (run_failures r)) (run_failures r))
            end, set_run_caches qc c r)
    else if negb (simulate_finalists h) then
      Some (Ok (report_of (finalists h r) false (length (run_failures r))), set_run_caches qc c r)
    else
      match quote_paths_with_registry registry (rq_path <$> finalists h r) amount_in sim_config
              c qc with
      | None => None
      | Some (finalist_quotes, finalist_failures, qc, c) =>
          Some (match rank_or_no_viable (length (finalists h r)) finalist_quotes
                        (run_failures r ++ finalist_failures) with
                | Ok quotes => Ok (report_of quotes false
                    (length (run_failures r) + length finalist_failures))
                | Err e => Err e
                end, set_run_caches qc c r)
      end) as Hdef by done.
  destruct (run_stopped r) eqn:Hst.
  { eexists. split; [by apply runs_return|].
    split; [by constructor|]. by apply (ro_stopped _ _ _ _ _ _ _ _ _ _ _ _ Hr). }
  destruct (decide (run_quotes r = [])) as [Hq|Hq].
  { eexists. split; [apply runs_return; intros qc c; rewrite Hdef; reflexivity|].
    destruct (run_failures r) eqn:Hf; by split_and!. }
  destruct (simulate_finalists h) eqn:Hsf; cbn [negb] in Hdef.
  2: { eexists. split; [apply runs_return; intros qc c; rewrite Hdef; reflexivity|]. split; [by constructor|done]. }
  destruct (requoted_finalists r Hr) as [Hperm Herr].
  set (quotes := omap result_ok (all_results (rq_path <$> finalists h r))) in *.
  exists (Ok (report_of (stable_sort (desc_by rq_amount_out) quotes) false
    (length (run_failures r)))). split.
  - intros qc c [Hqc Hc]. rewrite Hdef.
    destruct (quote_paths_spec registry Inv sim sim_config Hsim ctx (rq_path <$> finalists h r)
      amount_in c qc Hinj Hc Hqc) as (qc' & c' & -> & ? & ?).
    fold quotes. rewrite Herr, app_nil_r, rank_Ok, Nat.add_0_r.
    + exists qc', c'. done.
    + intros Hnil. rewrite Hnil in Hperm. apply Permutation_nil_l in Hperm.
      by apply (finalists_nonempty h r Hm Hq).
  - split; [|done]. constructor; [|apply ranked_sorted|done|done].
    simpl. by rewrite stable_sort_perm.
Qed.

(** ** From the fast lane to the report *)

Context (run_limit : HeuristicRunLimit).
Hypothesis (Hsource : node_index g ti = Some source).
Hypothesis (Htarget : node_index g to = Some target).
Hypothesis (Hcase : target_first h = true ∨ ranks_branches (liquidity_pruning config) = false).
Hypothesis (Htokens : connector_tokens_for_heuristic g ti to config h = Some tokens).

Abbreviation heuristic_search_ := (heuristic_search registry g liquidity_index ti to source target
  amount_in config h sim_config allow run_limit on_quote).

Definition outcome_of r (out : result SearchError HeuristicRoutesReport) : Prop :=
  match out with
  | Ok report => reports h r report ∧ (run_limit = FullRun → run_quotes r ≠ [])
  | Err (ErrNoPath a b) => a = ti ∧ b = to ∧ run_quotes r = [] ∧ run_failures r = []
  | Err (ErrNoViableRoute n failures) =>
      failures = run_failures r ∧ n = length failures ∧ failures ≠ [] ∧ run_quotes r = []
  | Err _ => False
  end.

Lemma heuristic_search_spec c0 qc0 s :
  1 ≤ max_hops config → 1 ≤ max_finalists h →
  ∃ r out, runs_ heuristic_search_ (initial_run c0 qc0 s) (λ qc c, (out, set_run_caches qc c r)) ∧
    ok_run r ∧ outcome_of r out ∧ ((∃ c, Inv c) → ∃ obs, run_seen s r obs) ∧
    (unpruned_ → run_stopped r = false ∧
      (run_limit = FullRun → ∀ p, valid p →
         settled registry amount_in h sim_config sim ctx r p)).
Proof.
  intros Hhops Hfin.
  destruct (run_fast_lane_spec c0 qc0 s) as (r1 & obs1 & Hrun1 & Hr1 & Hseen1 & Hup1).
  destruct (run_stopped r1 || bool_decide (run_limit = FastLaneOnly)) eqn:Hend.
  - assert (finish_fast_lane h r1 =
      Ok (report_of (finalists h r1) (run_stopped r1) (length (run_failures r1)))) as Hfl.
    { unfold finish_fast_lane. destruct (run_stopped r1) eqn:Hst; [|by rewrite andb_false_r].
      rewrite (bool_decide_eq_false_2 (finalists h r1 = [])); [done|].
      apply finalists_nonempty; [done|]. by apply (ro_stopped _ _ _ _ _ _ _ _ _ _ _ _ Hr1). }
    exists r1, (finish_fast_lane h r1). split_and!; [|done| |by exists obs1|].
    + intros qc c Hu. unfold heuristic_search. rewrite Htokens.
      destruct (Hrun1 qc c Hu) as (qc1 & c1 & -> & Hu1).
      change (run_stopped (set_run_caches qc1 c1 r1)) with (run_stopped r1). rewrite Hend.
      by exists qc1, c1.
    + rewrite Hfl. pose proof (finalists_ok r1 Hr1) as (? & _ & _). split; [by constructor|].
      intros ->. rewrite orb_false_r in Hend. by apply (ro_stopped _ _ _ _ _ _ _ _ _ _ _ _ Hr1).
    + intros Hup. rewrite (Hup1 Hup) in Hend |- *. split; [done|]. by intros ->.
  - apply orb_false_iff in Hend as Hend'. destruct Hend' as [Hst1 _].
    destruct (search_passes_spec registry g liquidity_index ti to source target amount_in config h
      sim_config (Some tokens) allow on_quote Inv sim ctx Hsim Hinj Hwf Hsource Htarget Hcase
      (heuristic_pass_modes h) (bool_decide (PassRefinement ∈ heuristic_pass_modes h)) r1)
      as (r2 & Hrun2 & Hr2 & _ & Hup2); [done..|].
    destruct (finish_search_spec r2 Hfin Hr2) as (out & Hrun3 & Hout).
    exists r2, out. split_and!; [|done| | |].
    + intros qc c Hu. unfold heuristic_search. rewrite Htokens.
      destruct (Hrun1 qc c Hu) as (qc1 & c1 & -> & Hu1).
      change (run_stopped (set_run_caches qc1 c1 r1)) with (run_stopped r1). rewrite Hend.
      destruct (Hrun2 qc1 c1 Hu1) as (qc2 & c2 & -> & Hu2). by apply Hrun3.
    + destruct out as [report|e]; [|by destruct e]. destruct Hout. by split.
    + intros [c Hc]. exists (run_quotes r2). apply watched_run_seen; [done|].
      destruct (Hrun2 (with_context ctx) c) as (qc' & c' & Heq & _);
        [by split; [apply coherent_empty|]|].
      eapply (search_passes_watched _ _ _ _ _ _ _ _ _ _ _ _ _ _ s) in Heq; [exact Heq|].
      destruct Hseen1 as [(b & Hw & Hb & _) Hall _ _ _].
      split; [|done]. unfold run_watched. simpl. rewrite (Hb Hst1) in Hw. by rewrite Hst1, Hall.
    + intros Hup. destruct (Hup2 Hup) as [? Hset]. split; [done|]. intros _. apply Hset.
      unfold heuristic_pass_modes. by destruct (_ && _).
Qed.

(** What the report promises, from what the run promises. *)
Lemma report_sound r out :
  ok_run r → outcome_of r out →
  match out with
  | Ok report =>
      StronglySorted better (hr_quotes report) ∧ NoDup (rq_path <$> hr_quotes report) ∧
      length (hr_quotes report) ≤ max_finalists h ∧
      ∀ q, q ∈ hr_quotes report → valid (rq_path q) ∧ pathq (rq_path q) = Ok q
  | Err (ErrNoPath a b) => a = ti ∧ b = to
  | Err (ErrNoViableRoute n failures) =>
      n = length failures ∧ failures ≠ [] ∧
      ∀ f, f ∈ failures → pathq (pf_path f) = Err (pf_reason f)
  | Err _ => False
  end.
Proof.
  intros Hr Hout. destruct out as [report|[]]; simpl in Hout; try done.
  - destruct Hout as [[Hperm Hs _ _] _]. pose proof (finalists_ok r Hr) as (_ & Hnd & Hin).
    split_and!; [done|by rewrite Hperm| |].
    + rewrite Hperm. unfold finalists. rewrite length_take. lia.
    + intros q Hq. rewrite Hperm in Hq. by apply Hr, Hin.
  - by destruct Hout as (? & ? & _).
  - destruct Hout as (-> & ? & ? & _). split_and!; [done..|]. by apply Hr.
Qed.

End search.

(** ** The claims about a search *)

Section claims.
Context `{!AmmTypes} `{!Petgraph Address EdgeData} `{!PetgraphLaws Address EdgeData}.

(** A heuristic search that can run: adapters that answer consistently, a valid
    configuration, revisits when the endpoints coincide, and a group order
    (branches ranked by liquidity need the target group first). *)
Record heuristic_env (registry : AdapterRegistry) (g : AmmGraph) (Inv : AdapterCache → Prop)
    (sim : SimConfig → Hop → U256 → result SimError U256) (ctx : QuoteKeyContext)
    (ti to : Address) (config : SearchConfig) (h : HeuristicSearchConfig) (allow : bool) :
    Prop := {
  he_simulates : simulates registry Inv sim;
  he_scopes : scope_inj ctx;
  he_graph : graph_wf g;
  he_mode : mode config = ModeHeuristic h;
  he_valid : SearchConfig_validate config = Ok ();
  he_cycle : ti = to → allow = true;
  he_order : target_first h = true ∨ ranks_branches (liquidity_pruning config) = false;
}.

(** The routes a heuristic search considers: the connectors of the
    configuration, or else the automatic ones. *)
Definition heuristic_valid (g : AmmGraph) (ti to : Address) (config : SearchConfig)
    (h : HeuristicSearchConfig) (allow : bool) : RoutePath → Prop :=
  valid_route g ti to
    (effective_config (connector_tokens_for_heuristic g ti to config h) config) allow.

Lemma heuristic_env_bounds registry g Inv sim ctx ti to config h allow :
  heuristic_env registry g Inv sim ctx ti to config h allow →
  1 ≤ max_hops config ∧ 1 ≤ max_finalists h ∧
  ∃ tokens, connector_tokens_for_heuristic g ti to config h = Some tokens.
Proof.
  intros [_ _ _ Hmode Hval _ _]. apply search_config_validate_Ok in Hval as (? & _ & Hh).
  destruct (Hh h Hmode) as (_ & ? & _). split_and!; [lia|lia|].
  unfold connector_tokens_for_heuristic. destruct (connector_tokens config); eauto.
Qed.

(** The search from any caches. *)
Lemma heuristic_observed_spec {S} registry g liquidity_index Inv sim ctx ti to source target
    amount_in config h sim_config allow run_limit
    (on_quote : option (RouteQuote → S → bool * S)) s tokens (c0 : AdapterCache) :
  heuristic_env registry g Inv sim ctx ti to config h allow →
  node_index g ti = Some source → node_index g to = Some target →
  connector_tokens_for_heuristic g ti to config h = Some tokens →
  ∃ (r : Run S) out,
    (∀ c qc, usable_caches registry Inv sim ctx qc c →
       ∃ c' qc', find_routes_heuristic_with_cache_observed registry g liquidity_index ti to
           amount_in config h sim_config c qc allow run_limit on_quote s =
           Some (out, set_run_caches qc' c' r) ∧ usable_caches registry Inv sim ctx qc' c') ∧
    run_ok registry g ti to amount_in config sim_config (Some tokens) allow sim ctx r ∧
    outcome_of ti to h run_limit r out ∧
    ((∃ c, Inv c) → ∃ obs, run_seen registry g ti to amount_in config sim_config tokens allow
       on_quote sim ctx s r obs) ∧
    (unpruned registry g liquidity_index config h sim_config on_quote sim ctx →
     run_stopped r = false ∧ (run_limit = FullRun → ∀ p,
       heuristic_valid g ti to config h allow p →
       settled registry amount_in h sim_config sim ctx r p)).
Proof.
  intros Henv Hs Ht Htok.
  destruct (heuristic_env_bounds _ _ _ _ _ _ _ _ _ _ Henv) as (Hh & Hf & _).
  destruct Henv as [Hsim Hinj Hwf _ Hval Hcyc Hord]. unfold heuristic_valid. rewrite Htok.
  destruct (heuristic_search_spec registry g liquidity_index ti to source target amount_in config h
    sim_config tokens allow on_quote Inv sim ctx Hsim Hinj Hwf Hcyc run_limit Hs Ht Hord Htok
    c0 (with_context ctx) s Hh Hf) as (r & out & Hrun & ? & ? & ? & ?).
  exists r, out. split_and!; try done. intros c qc Hu.
  unfold find_routes_heuristic_with_cache_observed. rewrite Hval. cbn [search_validated].
  rewrite Hs, Ht. destruct (Hrun qc c Hu) as (qc' & c' & Heq & Hu'). by exists c', qc'.
Qed.

(** C6: The heuristic search returns (no loop runs out of fuel, no comparator is
    inconsistent) and its answer does not depend on the caches it starts from.
    A report lists at most [max_finalists] quotes, best output first, each the
    quote of an admissible route and no route twice, at least one on a full run;
    [NoPath] names the endpoints; every failure that [NoViableRoute] reports is
    the failure of the path it names. *)
Theorem heuristic_search_sound {S} registry g liquidity_index Inv sim ctx ti to source target
    amount_in config h sim_config allow run_limit
    (on_quote : option (RouteQuote → S → bool * S)) s c qc :
  heuristic_env registry g Inv sim ctx ti to config h allow →
  node_index g ti = Some source → node_index g to = Some target →
  usable_caches registry Inv sim ctx qc c →
  let search c qc := find_routes_heuristic_with_cache_observed registry g liquidity_index ti to
    amount_in config h sim_config c qc allow run_limit on_quote s in
  let quoted p := path_quote registry sim sim_config ctx p amount_in in
  ∃ out,
    (∀ c qc, usable_caches registry Inv sim ctx qc c →
       ∃ r, search c qc = Some (out, r) ∧
         usable_caches registry Inv sim ctx (run_quote_cache r) (run_cache r)) ∧
    match out with
    | Ok report =>
        StronglySorted better (hr_quotes report) ∧ NoDup (rq_path <$> hr_quotes report) ∧
        length (hr_quotes report) ≤ max_finalists h ∧
        (run_limit = FullRun → hr_quotes report ≠ []) ∧
        ∀ q, q ∈ hr_quotes report →
          heuristic_valid g ti to config h allow (rq_path q) ∧ quoted (rq_path q) = Ok q
    | Err (ErrNoPath a b) => a = ti ∧ b = to
    | Err (ErrNoViableRoute n failures) =>
        n = length failures ∧ failures ≠ [] ∧
        ∀ f, f ∈ failures → quoted (pf_path f) = Err (pf_reason f)
    | Err _ => False
    end.
Proof.
  intros Henv Hs Ht _ search quoted.
  destruct (heuristic_env_bounds _ _ _ _ _ _ _ _ _ _ Henv) as (_ & Hf & tokens & Htok).
  destruct (heuristic_observed_spec registry g liquidity_index Inv sim ctx ti to source target
    amount_in config h sim_config allow run_limit on_quote s tokens c Henv Hs Ht Htok)
    as (r & out & Hrun & Hr & Hout & _).
  exists out. split.
  - intros c1 qc1 Hu. destruct (Hrun c1 qc1 Hu) as (c' & qc' & Heq & Hu'). eexists. split; [exact Heq|].
    done.
  - eapply report_sound in Hout as Hsound; [|exact Hr].
    unfold heuristic_valid. rewrite Htok. destruct out as [report|e]; [|by destruct e].
    destruct Hsound as (? & ? & ? & ?), Hout as [Hrep Hne]. split_and!; try done.
    intros Hfull Hnil. pose proof (rep_quotes _ _ _ Hrep) as Hp. rewrite Hnil in Hp.
    apply Permutation_nil_l in Hp.
    by apply (finalists_nonempty h r Hf (Hne Hfull)).
Qed.

(** C5: A heuristic search that prunes nothing (no beam, no dominance, no
    shortlist, no candidate limit, no liquidity pruning, room for every parallel
    edge; the balance cap only over pools that pay from their balance) is
    optimal: its best quote is at least as good as that of every admissible
    route; without the balance cap its report is exactly the best
    [max_finalists] routes; it reports [NoPath] only when there is no admissible
    route and [NoViableRoute] only when every admissible route fails. *)
Theorem heuristic_search_optimal {S} registry g liquidity_index Inv sim ctx ti to source target
    amount_in config h sim_config allow
    (on_quote : option (RouteQuote → S → bool * S)) s c qc :
  heuristic_env registry g Inv sim ctx ti to config h allow →
  unpruned registry g liquidity_index config h sim_config on_quote sim ctx →
  node_index g ti = Some source → node_index g to = Some target →
  usable_caches registry Inv sim ctx qc c →
  let valid := heuristic_valid g ti to config h allow in
  let quoted p := path_quote registry sim sim_config ctx p amount_in in
  ∃ out r,
    find_routes_heuristic_with_cache_observed registry g liquidity_index ti to amount_in config h
      sim_config c qc allow FullRun on_quote s = Some (out, r) ∧
    match out with
    | Ok report =>
        hr_stopped report = false ∧
        (∃ best, head (hr_quotes report) = Some best ∧
           ∀ p q, valid p → quoted p = Ok q → better best q) ∧
        (caps_active h = false → ∀ p q, valid p → quoted p = Ok q →
           q ∈ hr_quotes report ∨
           (length (hr_quotes report) = max_finalists h ∧
            ∀ q', q' ∈ hr_quotes report → better q' q))
    | Err (ErrNoPath _ _) => ∀ p, ¬ valid p
    | Err (ErrNoViableRoute _ _) => ∀ p, valid p → ∃ e, quoted p = Err e
    | Err _ => False
    end.
Proof.
  intros Henv Hup Hs Ht Hu valid quoted.
  destruct (heuristic_env_bounds _ _ _ _ _ _ _ _ _ _ Henv) as (_ & Hf & tokens & Htok).
  destruct (heuristic_observed_spec registry g liquidity_index Inv sim ctx ti to source target
    amount_in config h sim_config allow FullRun on_quote s tokens c Henv Hs Ht Htok)
    as (r & out & Hrun & Hr & Hout & _ & Hcomp).
  destruct (Hrun c qc Hu) as (c' & qc' & Heq & _). exists out, (set_run_caches qc' c' r).
  split; [exact Heq|]. destruct (Hcomp Hup) as [Hst Hset]. specialize (Hset eq_refl).
  assert (∀ p, valid p → run_quotes r = [] → ∃ e, quoted p = Err e ∧ run_failures r ≠ []) as Hnone.
  { intros p Hv Hnil. specialize (Hset p Hv). unfold settled, covered in Hset. unfold quoted.
    destruct (path_quote registry sim sim_config ctx p amount_in) as [q|e].
    - exfalso. destruct Hset as [Hq|(_ & inc & Hinc & _)]; [rewrite Hnil in Hq; set_solver|].
      destruct (ro_incumbent _ _ _ _ _ _ _ _ _ _ _ _ Hr inc Hinc) as (q' & Hq' & _).
      rewrite Hnil in Hq'. set_solver.
    - exists e. split; [done|]. by destruct Hset. }
  destruct out as [report|[]]; simpl in Hout; try done.
  - destruct Hout as [Hrep Hne]. specialize (Hne eq_refl). split_and!.
    + by rewrite (rep_stopped _ _ _ Hrep).
    + assert (∃ q0, q0 ∈ run_quotes r) as [q0 Hq0].
      { destruct (run_quotes r) as [|q0 qs]; [done|]. exists q0. by left. }
      destruct (report_best h r report q0 Hf Hrep Hq0) as (best & Hbest & _).
      exists best. split; [done|]. intros p q Hv Hq. specialize (Hset p Hv). unfold settled in Hset.
      unfold quoted in Hq. rewrite Hq in Hset.
      destruct (covered_best h _ _ _ _ _ _ _ _ _ _ _ r report q Hf Hr Hrep Hset)
        as (best' & Hbest' & ?). congruence.
    + intros Hcap p q Hv Hq. specialize (Hset p Hv). unfold settled in Hset.
      unfold quoted in Hq. rewrite Hq in Hset. destruct Hset as [Hin|[? _]]; [|congruence].
      by apply (report_top h r).
  - destruct Hout as (_ & _ & Hnil & Hfail). intros p Hv. destruct (Hnone p Hv Hnil) as (_ & _ & ?).
    done.
  - destruct Hout as (_ & _ & _ & Hnil). intros p Hv.
    destruct (Hnone p Hv Hnil) as (e & ? & _). by exists e.
Qed.
End claims.
