(* ===== verification/HeuristicPruning.v ===== *)
(** * What the prunings of the heuristic search may drop

    Claims about the three checks that cut branches off: the dominance index is
    the Pareto front of the labels it was given, the reachability check is
    exact, and the balance cap only drops routes that cannot beat the
    incumbent. *)

From S2P Require Import Prelude Ordering AmmState Petgraph Graph GraphPairs GraphInv GraphProps.
From S2P Require Import GraphTheorems Config SearchTypes Enumerate EnumerateProps.
From S2P Require Import EnumerateTheorems Liquidity QuoteCache QuoteCacheProps Quote QuoteProps.
From S2P Require Import Ranking Heuristic HeuristicProps HeuristicSearch HeuristicSteps HeuristicRun.

(** ** The dominance index *)

Section dominance.
Context `{!AmmTypes}.
Implicit Types (l : PrefixLabel) (t : Address) (hist : list (Address * PrefixLabel)).

Lemma pareto_dominated hist index t l :
  pareto hist index →
  existsb (λ label, label_dominates label l) (labels_of index t) = true ↔
  ∃ l', (t, l') ∈ hist ∧ label_dominates l' l = true.
Proof.
  intros [Hi Hc _]. rewrite existsb_elem. split.
  - intros (l' & Hl' & Hd). exists l'. auto.
  - intros (l' & Hl' & Hd). destruct (Hc t l' Hl') as (l'' & ? & Hd'). exists l''.
    split; [done|]. by eapply label_dominates_trans.
Qed.

Lemma pareto_strictly_dominated hist index t l :
  pareto hist index →
  existsb (λ label, label_strictly_dominates label l) (labels_of index t) = true ↔
  ∃ l', (t, l') ∈ hist ∧ label_strictly_dominates l' l = true.
Proof.
  intros [Hi Hc _]. rewrite existsb_elem. split.
  - intros (l' & Hl' & Hd). exists l'. auto.
  - intros (l' & Hl' & Hd). destruct (Hc t l' Hl') as (l'' & ? & Hd'). exists l''.
    split; [done|]. apply label_strictly_dominates_spec in Hd as [Hd Hn].
    apply label_strictly_dominates_spec. split; [by eapply label_dominates_trans|].
    destruct (label_dominates l l'') eqn:Hl; [|done].
    rewrite <- Hn. symmetry. by eapply label_dominates_trans.
Qed.

(** C36: The dominance index answers for the whole history of its insertions
    although it forgets dominated labels: its labels are the Pareto front of the
    labels inserted for the token, an insertion reports a label dominated exactly
    when some label inserted before dominates it (so inserting a label again is
    always dominated), and the strict test holds exactly when some inserted
    label is strictly better. *)
Theorem dominance_index_pareto hist t l :
  pareto hist (insert_labels hist) ∧
  ((insert_or_dominated t l (insert_labels hist)).1 = true ↔
   ∃ l', (t, l') ∈ hist ∧ label_dominates l' l = true) ∧
  (is_strictly_dominated t l (insert_labels hist) = true ↔
   ∃ l', (t, l') ∈ hist ∧ label_strictly_dominates l' l = true) ∧
  ((t, l) ∈ hist → (insert_or_dominated t l (insert_labels hist)).1 = true).
Proof.
  pose proof (insert_labels_pareto hist) as Hp.
  pose proof (pareto_dominated hist _ t l Hp) as Hd.
  rewrite insert_or_dominated_fst, is_strictly_dominated_labels. split_and!; [done|done| |].
  - by apply pareto_strictly_dominated.
  - intros Hin. apply Hd. exists l. split; [done|]. apply label_dominates_refl.
Qed.
End dominance.

(** ** Reachability and the balance cap *)

Section pruning.
Context `{!AmmTypes} `{!Petgraph Address EdgeData} `{!PetgraphLaws Address EdgeData}.

(** The static reachability check never drops a viable branch and never
    keeps a dead one: at a node other than the target it answers [true] exactly
    when the path that led there extends, with at most [n] more hops, to a route
    that visits no token twice, uses no pool twice and respects the connectors. *)
Theorem static_route_check_exact g ti to source target config allow n st :
  graph_wf g → node_index g ti = Some source → node_index g to = Some target →
  state_ok g ti to config st → ss_node st ≠ target →
  has_static_route_to_target g ti to source target (connector_tokens config) allow (ss_node st)
    (ss_visited_tokens st) (ss_used_pools st) n = true ↔
  ∃ q, q ≠ [] ∧ length q ≤ n ∧ open_route g ti to config allow (ss_path st ++ q).
Proof.
  intros Hwf Hs Ht Hok Hne. unfold has_static_route_to_target. rewrite decide_False by done.
  destruct (Nat.eqb_spec n 0) as [->|Hn].
  - split; [done|]. intros (q & Hq & Hl & _). destruct q; [done|simpl in Hl; lia].
  - apply (has_static_route_dfs_spec g ti to source target config allow Hwf Hs Ht); [done|lia].
Qed.

(** C35: Upper-bound pruning is safe: whenever the balance cap drops a state, an
    incumbent exists and every admissible continuation of the state that quotes
    returns at most the incumbent, provided pools pay out of the balances the
    liquidity index knows. *)
Theorem upper_bound_pruning_safe registry g liquidity_index ti to source target amount_in config
    sim_config connectors allow sim ctx st incumbent uconfig qc qc' :
  graph_wf g → node_index g ti = Some source → node_index g to = Some target →
  hstate_ok registry g ti to amount_in config sim_config connectors sim ctx st →
  pays_from_balance registry liquidity_index sim_config sim ctx →
  should_prune_upper_bound_prefix g liquidity_index to target allow st (max_hops config)
    incumbent uconfig qc = Some (true, qc') →
  ∃ inc, incumbent = Some inc ∧
    ∀ q rq, q ≠ [] →
      valid_route g ti to (cfg config connectors) allow (hs_path st ++ q) →
      path_quote registry sim sim_config ctx (hs_path st ++ q) amount_in = Ok rq →
      (rq_amount_out rq <= inc)%Z.
Proof.
  intros Hwf Hs Ht Hst Hpays Hprune.
  destruct (should_prune_upper_bound_prefix_spec g liquidity_index ti to source target
    (cfg config connectors) allow Hwf Hs Ht st (max_hops config) incumbent uconfig
    (ho_state _ _ _ _ _ _ _ _ _ _ _ Hst)) as (b & Hb & Hspec).
  destruct (Hb qc) as (qc1 & Heq & _). rewrite Hprune in Heq. injection Heq as <- _.
  destruct (Hspec eq_refl) as (_ & _ & inc & Hinc & Hall). exists inc. split; [done|].
  intros q rq Hq [Hopen Hlen]%valid_route_open Hrq. rewrite length_app in Hlen.
  cbn [cfg effective_config max_hops] in Hlen.
  destruct (Hall q Hq ltac:(lia) Hopen) as (index & hop & bal & Hix & Hlast & Hto & Hbal & Hle).
  apply last_Some in Hlast as [q' ->]. rewrite (assoc_L (++)) in Hrq.
  unfold path_quote in Hrq. rewrite fold_path_snoc in Hrq.
  destruct (fold_hops _ _ _ _) as [[a quoted]|]; [|done].
  destruct (hop_quote registry sim sim_config ctx hop a) as [out|] eqn:Hout; [|done].
  injection Hrq as <-. simpl. pose proof (Hpays index hop a out bal Hix Hout Hbal). lia.
Qed.
End pruning.
