(* ===== verification/Searcher.v ===== *)
(** * The searcher ([AmmSearcher], [src/search.rs])

    The entry points of [AmmSearcher]: route and cycle search in either mode,
    the parallel evaluation of the candidates and the batch searches.  The outer
    [option] of a result is [None] when a search runs out of fuel, a hop quote is
    in flight or a comparator is no order; theorems show when none happens.

    The worker threads of a parallel search interleave as [Workers] says, along a
    schedule of moves.  The workers of a batch, whose jobs are whole searches,
    run one after the other in any order over the shared quote cache
    ([run_workers]). *)

From S2P Require Import Prelude AmmState Petgraph Graph Config SearchTypes Enumerate.
From S2P Require Import Liquidity QuoteCache Quote Heuristic HeuristicSearch Workers.

Section searcher.
Context `{!AmmTypes} `{!Petgraph Address EdgeData}.

(** [as_snapshot] is a fresh overlay of the immutable snapshot of a live
    searcher. *)
Record AmmSearcher := {
  as_registry : AdapterRegistry;
  as_graph : AmmGraph;
  as_liquidity_index : option PoolLiquidityIndex;
  as_quote_context : QuoteKeyContext;
  as_snapshot_cache : option AdapterCache;
}.

Definition AmmSearcher_new (registry : AdapterRegistry) (g : AmmGraph) : AmmSearcher :=
  {| as_registry := registry; as_graph := g; as_liquidity_index := None;
     as_quote_context := ContextStatic; as_snapshot_cache := None |}.

Definition with_liquidity_index (index : PoolLiquidityIndex) (s : AmmSearcher) : AmmSearcher :=
  {| as_registry := as_registry s; as_graph := as_graph s; as_liquidity_index := Some index;
     as_quote_context := as_quote_context s; as_snapshot_cache := as_snapshot_cache s |}.

Definition state_point (s : AmmSearcher) : option AmmStatePoint :=
  context_point (as_quote_context s).
Definition new_quote_cache (s : AmmSearcher) : SharedQuoteCache :=
  with_context (as_quote_context s).
(** [mock_overlay]: the overlay the [EvmCache] hands out. *)
Definition new_overlay_cache (s : AmmSearcher) (mock_overlay : AdapterCache) : AdapterCache :=
  default mock_overlay (as_snapshot_cache s).

(** ** Quoting candidates *)

Definition quote_and_rank_with_cache (s : AmmSearcher) (paths : list RoutePath)
    (amount_in : U256) (sim_config : SimConfig) (cache : AdapterCache)
    (quote_cache : SharedQuoteCache) :
    option (result SearchError (list RouteQuote) * SharedQuoteCache * AdapterCache) :=
  '(quotes, failures, qc, cache) ←
     quote_paths_with_registry (as_registry s) paths amount_in sim_config cache quote_cache;
  Some (rank_or_no_viable (length paths) quotes failures, qc, cache).

(** The [Exhaustive] branch of [find_routes_with_quote_cache] and of
    [find_cycles_with_quote_cache]: enumerate, quote, rank. *)
Definition search_exhaustive (s : AmmSearcher) (token_in token_out : Address)
    (amount_in : U256) (config : SearchConfig) (sim_config : SimConfig)
    (allow_final_source_revisit : bool) (cache : AdapterCache)
    (quote_cache : SharedQuoteCache) :
    option (result SearchError (list RouteQuote) * SharedQuoteCache * AdapterCache) :=
  r ← enumerate_routes (as_graph s) token_in token_out config allow_final_source_revisit;
  match r with
  | Err e => Some (Err e, quote_cache, cache)
  | Ok paths => quote_and_rank_with_cache s paths amount_in sim_config cache quote_cache
  end.

(** Both modes, for routes and for cycles. *)
Definition search_with_quote_cache (s : AmmSearcher) (token_in token_out : Address)
    (amount_in : U256) (config : SearchConfig) (sim_config : SimConfig)
    (allow_final_source_revisit : bool) (cache : AdapterCache)
    (quote_cache : SharedQuoteCache) :
    option (result SearchError (list RouteQuote) * SharedQuoteCache * AdapterCache) :=
  match mode config with
  | ModeExhaustive =>
      search_exhaustive s token_in token_out amount_in config sim_config
        allow_final_source_revisit cache quote_cache
  | ModeHeuristic heuristic =>
      find_routes_heuristic_with_cache (as_registry s) (as_graph s) (as_liquidity_index s)
        token_in token_out amount_in config heuristic sim_config cache quote_cache
        allow_final_source_revisit
  end.

Definition find_routes_with_quote_cache (s : AmmSearcher) (r : RouteRequest)
    (cache : AdapterCache) (quote_cache : SharedQuoteCache) :
    option (result SearchError (list RouteQuote) * SharedQuoteCache * AdapterCache) :=
  search_with_quote_cache s (token_in r) (token_out r) (rr_amount_in r) (rr_config r)
    (rr_sim_config r) false cache quote_cache.

(** [routes.into_iter().map(..).collect()] on a successful search. *)
Definition cycle_quotes (routes : result SearchError (list RouteQuote)) :
    result SearchError (list CycleQuote) :=
  match routes with Ok routes => Ok (cycle_quote <$> routes) | Err e => Err e end.

Definition find_cycles_with_quote_cache (s : AmmSearcher) (r : CycleRequest)
    (cache : AdapterCache) (quote_cache : SharedQuoteCache) :
    option (result SearchError (list CycleQuote) * SharedQuoteCache * AdapterCache) :=
  '(routes, qc, cache) ←
     search_with_quote_cache s (base_token r) (base_token r) (cr_amount_in r) (cr_config r)
       (cr_sim_config r) true cache quote_cache;
  Some (cycle_quotes routes, qc, cache).

(** ** Entry points *)

(** A snapshot searcher quotes on its own overlay and leaves the caller's
    cache alone. *)
Definition on_search_cache {A} (s : AmmSearcher) (cache : AdapterCache)
    (run : AdapterCache → option (A * SharedQuoteCache * AdapterCache)) :
    option (A * AdapterCache) :=
  match as_snapshot_cache s with
  | Some overlay => '(r, _, _) ← run overlay; Some (r, cache)
  | None => '(r, _, cache) ← run cache; Some (r, cache)
  end.

Definition find_routes (s : AmmSearcher) (r : RouteRequest) (cache : AdapterCache) :
    option (result SearchError (list RouteQuote) * AdapterCache) :=
  on_search_cache s cache (λ cache, find_routes_with_quote_cache s r cache (new_quote_cache s)).

Definition find_cycles (s : AmmSearcher) (r : CycleRequest) (cache : AdapterCache) :
    option (result SearchError (list CycleQuote) * AdapterCache) :=
  on_search_cache s cache (λ cache, find_cycles_with_quote_cache s r cache (new_quote_cache s)).

(** [.next().ok_or(NoPath)]. *)
Definition first_route (r : RouteRequest) (routes : result SearchError (list RouteQuote)) :
    result SearchError RouteQuote :=
  match routes with
  | Err e => Err e
  | Ok routes => ok_or (head routes) (ErrNoPath (token_in r) (token_out r))
  end.

Definition find_best_route (s : AmmSearcher) (r : RouteRequest) (cache : AdapterCache) :
    option (result SearchError RouteQuote * AdapterCache) :=
  '(routes, cache) ← find_routes s r cache; Some (first_route r routes, cache).

Definition quote_path (s : AmmSearcher) (path : RoutePath) (amount_in : U256)
    (cache : AdapterCache) (sim_config : SimConfig) :
    result SearchError RouteQuote * AdapterCache :=
  match as_snapshot_cache s with
  | Some overlay =>
      ((quote_path_with_registry (as_registry s) path amount_in overlay sim_config).1, cache)
  | None => quote_path_with_registry (as_registry s) path amount_in cache sim_config
  end.

(** The snapshot-only variants. *)
Definition find_routes_snapshot (s : AmmSearcher) (r : RouteRequest) :
    option (result SearchError (list RouteQuote)) :=
  match as_snapshot_cache s with
  | None => Some (Err ErrSnapshotRequired)
  | Some overlay => '(r, _, _) ← find_routes_with_quote_cache s r overlay (new_quote_cache s); Some r
  end.
Definition find_best_route_snapshot (s : AmmSearcher) (r : RouteRequest) :
    option (result SearchError RouteQuote) :=
  routes ← find_routes_snapshot s r; Some (first_route r routes).
Definition quote_path_snapshot (s : AmmSearcher) (path : RoutePath) (amount_in : U256)
    (sim_config : SimConfig) : result SearchError RouteQuote :=
  match as_snapshot_cache s with
  | None => Err ErrSnapshotRequired
  | Some overlay =>
      (quote_path_with_registry (as_registry s) path amount_in overlay sim_config).1
  end.

(** ** Parallel searches *)

(** [quote_and_rank_parallel]; with one worker there is no thread. *)
Definition quote_and_rank_parallel (s : AmmSearcher) (paths : list RoutePath)
    (amount_in : U256) (sim_config : SimConfig) (mock_overlay : AdapterCache)
    (parallel_config : ParallelSearchConfig) (schedule : list Move) :
    option (result SearchError (list RouteQuote)) :=
  match search_validated (ParallelSearchConfig_validate parallel_config) with
  | Err e => Some (Err e)
  | Ok _ =>
      let candidates := length paths in
      let worker_count := Nat.min (workers parallel_config) (Nat.max candidates 1) in
      let chunks := split_paths paths worker_count in
      let overlay := new_overlay_cache s mock_overlay in
      if decide (worker_count = 1) then
        '(quotes, failures, _, _) ←
           quote_paths_with_registry (as_registry s) (default [] (head chunks)) amount_in sim_config
             overlay (new_quote_cache s);
        Some (rank_or_no_viable candidates quotes failures)
      else
        sys ← run_threads (as_registry s) sim_config amount_in false overlay chunks schedule
                (λ _ ob, (true, ob)) (new_quote_cache s) ();
        Some (match join_workers (ws_threads sys) with
              | Err e => Err e
              | Ok reports =>
                  rank_or_no_viable candidates (reports ≫= qp_quotes) (reports ≫= qp_failures)
              end)
  end.

(** In heuristic mode one search runs on one overlay. *)
Definition heuristic_on_overlay {A} (s : AmmSearcher) (mock_overlay : AdapterCache)
    (parallel_config : ParallelSearchConfig)
    (find : AdapterCache → SharedQuoteCache →
            option (result SearchError A * SharedQuoteCache * AdapterCache)) :
    option (result SearchError A) :=
  match search_validated (ParallelSearchConfig_validate parallel_config) with
  | Err e => Some (Err e)
  | Ok _ =>
      '(r, _, _) ← find (new_overlay_cache s mock_overlay) (new_quote_cache s); Some r
  end.

Definition is_heuristic (mode : SearchMode) : bool :=
  match mode with ModeHeuristic _ => true | ModeExhaustive => false end.

Definition find_routes_parallel (s : AmmSearcher) (r : RouteRequest)
    (mock_overlay : AdapterCache) (parallel_config : ParallelSearchConfig) (schedule : list Move) :
    option (result SearchError (list RouteQuote)) :=
  if is_heuristic (mode (rr_config r)) then
    heuristic_on_overlay s mock_overlay parallel_config (find_routes_with_quote_cache s r)
  else
  paths ← enumerate_routes (as_graph s) (token_in r) (token_out r) (rr_config r) false;
  match paths with
  | Err e => Some (Err e)
  | Ok paths =>
      quote_and_rank_parallel s paths (rr_amount_in r) (rr_sim_config r) mock_overlay
        parallel_config schedule
  end.

Definition find_best_route_parallel (s : AmmSearcher) (r : RouteRequest)
    (mock_overlay : AdapterCache) (parallel_config : ParallelSearchConfig) (schedule : list Move) :
    option (result SearchError RouteQuote) :=
  routes ← find_routes_parallel s r mock_overlay parallel_config schedule;
  Some (first_route r routes).

Definition find_cycles_parallel (s : AmmSearcher) (r : CycleRequest)
    (mock_overlay : AdapterCache) (parallel_config : ParallelSearchConfig) (schedule : list Move) :
    option (result SearchError (list CycleQuote)) :=
  if is_heuristic (mode (cr_config r)) then
    heuristic_on_overlay s mock_overlay parallel_config (find_cycles_with_quote_cache s r)
  else
  paths ← enumerate_routes (as_graph s) (base_token r) (base_token r) (cr_config r) true;
  match paths with
  | Err e => Some (Err e)
  | Ok paths =>
      routes ← quote_and_rank_parallel s paths (cr_amount_in r) (cr_sim_config r)
                 mock_overlay parallel_config schedule;
      Some (cycle_quotes routes)
  end.

(** ** Batches *)

(** The workers of a batch: they run to completion in the order [order] (their indices), each
    on its own overlay and all on the shared quote cache; the results are
    joined in index order.  [job] is a worker's body. *)
Definition run_worker {C A : Type} (chunks : list C)
    (job : C → SharedQuoteCache → option (A * SharedQuoteCache))
    (acc : option (gmap nat A * SharedQuoteCache)) (i : nat) :
    option (gmap nat A * SharedQuoteCache) :=
  match acc, chunks !! i with
  | Some (joined, qc), Some chunk =>
      match job chunk qc with
      | Some (a, qc) => Some (<[i := a]> joined, qc)
      | None => None
      end
  | _, _ => acc
  end.

Definition run_workers {C A : Type} (order : list nat) (chunks : list C)
    (job : C → SharedQuoteCache → option (A * SharedQuoteCache))
    (quote_cache : SharedQuoteCache) : option (list A * SharedQuoteCache) :=
  match foldl (run_worker chunks job) (Some (∅, quote_cache)) order with
  | Some (joined, qc) => Some (omap (λ i, joined !! i) (seq 0 (length chunks)), qc)
  | None => None
  end.

Record BatchSearchReport (T : Type) := {
  batch_results : list (result SearchError (list T));
  batch_quote_cache : QuoteCacheStats;
  batch_liquidity_pruning : LiquidityPruneStats;
}.
Arguments Build_BatchSearchReport {T}.
Arguments batch_results {T}.

(** [find_*_request_chunk]: one worker's requests, serially over its overlay.
    The worker builds its own searcher with [AmmSearcher::new] and the liquidity
    index of the caller. *)
Definition worker_searcher (s : AmmSearcher) : AmmSearcher :=
  let searcher := AmmSearcher_new (as_registry s) (as_graph s) in
  match as_liquidity_index s with
  | Some index => with_liquidity_index index searcher
  | None => searcher
  end.

Fixpoint request_chunk {Req T}
    (find : AmmSearcher → Req → AdapterCache → SharedQuoteCache →
            option (result SearchError (list T) * SharedQuoteCache * AdapterCache))
    (s : AmmSearcher) (chunk : list (nat * Req)) (cache : AdapterCache)
    (quote_cache : SharedQuoteCache) :
    option (list (nat * result SearchError (list T)) * SharedQuoteCache) :=
  match chunk with
  | [] => Some ([], quote_cache)
  | (index, request) :: chunk =>
      '(r, qc, cache) ← find (worker_searcher s) request cache quote_cache;
      '(rs, qc) ← request_chunk find s chunk cache qc;
      Some ((index, r) :: rs, qc)
  end.

Definition batch_parallel_with_stats {Req T}
    (find : AmmSearcher → Req → AdapterCache → SharedQuoteCache →
            option (result SearchError (list T) * SharedQuoteCache * AdapterCache))
    (s : AmmSearcher) (requests : list Req) (mock_overlay : AdapterCache)
    (parallel_config : ParallelSearchConfig) (order : list nat) :
    option (result SearchError (BatchSearchReport T)) :=
  match search_validated (ParallelSearchConfig_validate parallel_config) with
  | Err e => Some (Err e)
  | Ok _ =>
      match requests with
      | [] => Some (Ok (Build_BatchSearchReport [] QuoteCacheStats_default
                          LiquidityPruneStats_default))
      | _ =>
          let worker_count := Nat.min (workers parallel_config) (length requests) in
          let chunks := split_indexed_items requests worker_count in
          let overlay := new_overlay_cache s mock_overlay in
          let job chunk qc := request_chunk find s chunk overlay qc in
          let order := if decide (worker_count = 1) then [0] else order in
          '(results, qc) ← run_workers order chunks job (new_quote_cache s);
          Some (Ok (Build_BatchSearchReport (collect_ordered_results (mjoin results))
                      (qc_stats qc) (qc_liquidity_pruning qc)))
      end
  end.
End searcher.
Arguments Build_BatchSearchReport {_ T}.
Arguments batch_results {_ T}.
Arguments batch_quote_cache {_ T}.
Arguments batch_liquidity_pruning {_ T}.
