(* ===== verification/SearchTheorems.v ===== *)
(** * Theorems about route and cycle search

    The end-to-end behaviour of the searcher: in exhaustive mode the ranking is
    complete and optimal over the admissible routes and cycle profits are exact;
    a heuristic search that prunes nothing agrees with the exhaustive one; in
    both modes the parallel and batch variants agree with the sequential
    search. *)

From S2P Require Import Prelude AmmState Petgraph Graph GraphPairs GraphInv GraphProps.
From S2P Require Import GraphTheorems Config SearchTypes Enumerate EnumerateProps.
From S2P Require Import EnumerateTheorems Liquidity QuoteCache Quote QuoteProps Ranking.
From S2P Require Import Heuristic HeuristicProps HeuristicSearch HeuristicRun HeuristicWatch.
From S2P Require Import HeuristicTheorems Workers WorkersProps Searcher.

(** ** Dealing items to workers *)

Section deal.
Context {A B : Type} (f : nat * A → B).

Definition deal (n : nat) (chunks : list (list B)) (items : list (nat * A)) : list (list B) :=
  foldl (λ chunks '(i, a), alter (λ chunk, chunk ++ [f (i, a)]) (i mod n) chunks) chunks items.

Lemma mjoin_alter_app (chunks : list (list B)) i b :
  i < length chunks → mjoin (alter (λ c, c ++ [b]) i chunks) ≡ₚ b :: mjoin chunks.
Proof.
  revert i. induction chunks as [|c chunks IH]; intros [|i] Hi; simpl in *; [lia..| |].
  - rewrite <- (assoc_L (++)). simpl. by rewrite Permutation_middle.
  - unfold alter in IH. rewrite IH by lia. by rewrite Permutation_middle.
Qed.

Lemma deal_perm n chunks items :
  n ≠ 0 → length chunks = n → mjoin (deal n chunks items) ≡ₚ mjoin chunks ++ (f <$> items).
Proof.
  intros Hn. revert chunks. induction items as [|[i a] items IH]; intros chunks Hl; csimpl.
  { by rewrite app_nil_r. }
  rewrite IH by (by rewrite length_alter).
  rewrite mjoin_alter_app by (rewrite Hl; by apply Nat.mod_upper_bound).
  by rewrite <- Permutation_middle.
Qed.

Lemma length_deal n chunks items : length (deal n chunks items) = length chunks.
Proof.
  revert chunks. induction items as [|[i a] items IH]; intros chunks; simpl; [done|].
  by rewrite IH, length_alter.
Qed.

Lemma mjoin_filter_nonempty (chunks : list (list B)) :
  mjoin (filter (λ c, 0 < length c) chunks) = mjoin chunks.
Proof.
  induction chunks as [|c chunks IH]; [done|]. rewrite filter_cons.
  case_decide as Hc; simpl; [by rewrite IH|]. destruct c; [done|simpl in Hc; lia].
Qed.

Lemma mjoin_replicate_nil n : mjoin (replicate n ([] : list B)) = [].
Proof. by induction n. Qed.
End deal.

Lemma snd_enumerate {A} (l : list A) : snd <$> enumerate l = l.
Proof.
  unfold enumerate. rewrite fmap_imap. rewrite <- (list_fmap_id l) at 2.
  apply list_eq. intros i. rewrite list_lookup_imap, list_lookup_fmap. by destruct (l !! i).
Qed.

Section split.
Context `{!AmmTypes}.

Lemma split_paths_perm (paths : list RoutePath) n :
  n ≠ 0 → mjoin (split_paths paths n) ≡ₚ paths.
Proof.
  intros Hn. unfold split_paths. rewrite mjoin_filter_nonempty.
  etrans; [apply (deal_perm snd n (replicate n []) (enumerate paths) Hn)|].
  - apply length_replicate.
  - by rewrite mjoin_replicate_nil, snd_enumerate.
Qed.

Lemma length_split_paths (paths : list RoutePath) n : length (split_paths paths n) ≤ n.
Proof.
  unfold split_paths. etrans; [apply length_filter|].
  etrans; [|apply Nat.eq_le_incl, (length_replicate n ([] : list RoutePath))].
  apply Nat.eq_le_incl. apply (length_deal snd).
Qed.

Lemma split_indexed_perm {A} (items : list A) n :
  n ≠ 0 → mjoin (split_indexed_items items n) ≡ₚ enumerate items.
Proof.
  intros Hn. unfold split_indexed_items. rewrite mjoin_filter_nonempty.
  etrans; [apply (deal_perm id n (replicate n []) (enumerate items) Hn)|].
  - apply length_replicate.
  - rewrite mjoin_replicate_nil. simpl.
    by rewrite list_fmap_id.
Qed.

Lemma length_split_indexed {A} (items : list A) n : length (split_indexed_items items n) ≤ n.
Proof.
  unfold split_indexed_items. etrans; [apply length_filter|].
  etrans; [|apply Nat.eq_le_incl, (length_replicate n ([] : list (nat * A)))].
  apply Nat.eq_le_incl. apply (length_deal id).
Qed.
End split.

(** ** Workers *)

Section workers.
Context `{!AmmTypes} {C A : Type} (chunks : list C)
  (job : C → SharedQuoteCache → option (A * SharedQuoteCache))
  (P : SharedQuoteCache → Prop) (res : C → A).
Hypothesis (Hjob : ∀ chunk qc, chunk ∈ chunks → P qc →
  ∃ qc', job chunk qc = Some (res chunk, qc') ∧ P qc').

Lemma run_workers_fold order joined qc :
  P qc → (∀ i a, joined !! i = Some a → ∃ c, chunks !! i = Some c ∧ a = res c) →
  ∃ joined' qc', foldl (run_worker chunks job) (Some (joined, qc)) order = Some (joined', qc') ∧
    P qc' ∧ (∀ i a, joined' !! i = Some a → ∃ c, chunks !! i = Some c ∧ a = res c) ∧
    ∀ i, is_Some (joined !! i) ∨ (i ∈ order ∧ i < length chunks) → is_Some (joined' !! i).
Proof.
  revert joined qc. induction order as [|j order IH]; intros joined qc Hqc Hjoined.
  { exists joined, qc. split_and!; [done..|]. intros i [?|[? _]]; [done|set_solver]. }
  cbn [foldl]. unfold run_worker at 2. destruct (chunks !! j) as [c|] eqn:Hj.
  - destruct (Hjob c qc (list_elem_of_lookup_2 _ _ _ Hj) Hqc) as (qc1 & -> & Hqc1).
    destruct (IH (<[j := res c]> joined) qc1 Hqc1) as (joined' & qc' & -> & H1 & H2 & H3).
    { intros i a. rewrite lookup_insert_Some. naive_solver. }
    exists joined', qc'. split_and!; [done..|]. intros i Hi. apply H3.
    rewrite lookup_insert_is_Some'. set_solver.
  - destruct (IH joined qc Hqc Hjoined) as (joined' & qc' & -> & H1 & H2 & H3).
    exists joined', qc'. split_and!; [done..|]. intros i Hi. apply H3.
    destruct Hi as [?|[[->|Hin]%elem_of_cons Hlt]]; [by left| |by right].
    apply lookup_ge_None in Hj. lia.
Qed.

Lemma run_workers_spec order qc :
  P qc → (∀ i, i < length chunks → i ∈ order) →
  ∃ qc', run_workers order chunks job qc = Some (res <$> chunks, qc') ∧ P qc'.
Proof.
  intros Hqc Hall. unfold run_workers.
  destruct (run_workers_fold order ∅ qc Hqc) as (joined & qc' & -> & H1 & H2 & H3).
  { intros i a. by rewrite lookup_empty. }
  exists qc'. split; [|done]. do 2 f_equal.
  assert (∀ (l : list C) k, (∀ i c, l !! i = Some c → joined !! (k + i) = Some (res c)) →
    omap (λ i, joined !! i) (seq k (length l)) = res <$> l) as Hgen.
  { induction l as [|c l IH]; intros k Hl; csimpl; [done|].
    pose proof (Hl 0 c eq_refl) as H0. rewrite Nat.add_0_r in H0. rewrite H0.
    f_equal. apply IH. intros i c' Hi. rewrite <- (Hl (S i) c') by done. f_equal. lia. }
  apply Hgen. intros i c Hi. simpl.
  destruct (H3 i) as [a Ha]; [right; split; [apply Hall|]; by eapply lookup_lt_Some|].
  destruct (H2 i a Ha) as (c' & Hc' & ->). congruence.
Qed.
End workers.

(** ** Ranking *)

Section search.
Context `{!AmmTypes} `{!Petgraph Address EdgeData} `{!PetgraphLaws Address EdgeData}.
Implicit Types (s : AmmSearcher) (q : RouteQuote).

(** ** Sequential search *)

Section sequential.
Context (s : AmmSearcher) (Inv : AdapterCache → Prop)
  (sim : SimConfig → Hop → U256 → result SimError U256).
Let R := as_registry s.
Let ctx := as_quote_context s.
Hypothesis (Hsim : simulates R Inv sim).
Hypothesis (Hinj : scope_inj ctx).

(** The ranking of a list of candidates. *)
Definition ranked (cfg : SimConfig) (amount : U256) (paths : list RoutePath) :
    result SearchError (list RouteQuote) :=
  rank_or_no_viable (length paths) (omap result_ok (results_of R sim cfg ctx amount paths))
    (omap result_err (results_of R sim cfg ctx amount paths)).

Lemma quote_and_rank_spec paths amount cfg c qc :
  Inv c → coherent R sim ctx qc →
  ∃ qc' c', quote_and_rank_with_cache s paths amount cfg c qc =
      Some (ranked cfg amount paths, qc', c') ∧ Inv c' ∧ coherent R sim ctx qc'.
Proof.
  intros Hc Hqc. unfold quote_and_rank_with_cache.
  destruct (quote_paths_spec R Inv sim cfg Hsim ctx paths amount c qc Hinj Hc Hqc)
    as (qc' & c' & Heq & ? & ?).
  unfold R in Heq. rewrite Heq. simpl. eauto.
Qed.

(** What a search for the given endpoints returns. *)
Definition searched (ti to : Address) (amount : U256) (config : SearchConfig)
    (cfg : SimConfig) (allow : bool) : option (result SearchError (list RouteQuote)) :=
  r ← enumerate_routes (as_graph s) ti to config allow;
  Some (match r with Err e => Err e | Ok paths => ranked cfg amount paths end).

Lemma search_exhaustive_spec ti to amount config cfg allow c qc res :
  Inv c → coherent R sim ctx qc → searched ti to amount config cfg allow = Some res →
  ∃ qc' c', search_exhaustive s ti to amount config cfg allow c qc = Some (res, qc', c') ∧
    Inv c' ∧ coherent R sim ctx qc'.
Proof.
  intros Hc Hqc. unfold searched, search_exhaustive.
  destruct (enumerate_routes _ _ _ _ _) as [[paths|e]|]; simpl; [|by intros [= <-]; eauto|done].
  intros [= <-]. by apply quote_and_rank_spec.
Qed.

(** A full enumeration ranked: every admissible route that quotes, best first. *)
Definition optimal (ti to : Address) (amount : U256) (config : SearchConfig)
    (cfg : SimConfig) (allow : bool) (res : result SearchError (list RouteQuote)) : Prop :=
  let valid := valid_route (as_graph s) ti to config allow in
  let quoted p := path_quote R sim cfg ctx p amount in
  match res with
  | Ok quotes =>
      quotes ≠ [] ∧ StronglySorted better quotes ∧ NoDup (rq_path <$> quotes) ∧
      ∀ q, q ∈ quotes ↔ ∃ p, valid p ∧ quoted p = Ok q
  | Err (ErrNoPath from to') => from = ti ∧ to' = to ∧ ∀ p, ¬ valid p
  | Err (ErrNoViableRoute n failures) =>
      n = length failures ∧ n ≠ 0 ∧ NoDup (pf_path <$> failures) ∧
      (∀ p, valid p ↔ p ∈ pf_path <$> failures) ∧
      ∀ f, f ∈ failures → quoted (pf_path f) = Err (pf_reason f)
  | Err _ => False
  end.

Lemma path_quote_path cfg p amount q :
  path_quote R sim cfg ctx p amount = Ok q → rq_path q = p ∧ rq_amount_in q = amount.
Proof.
  unfold path_quote, fold_path. destruct p as [|h p]; [done|].
  destruct (fold_hops _ _ _ _) as [[a hs]|e]; [|done]. by intros [= <-].
Qed.

Lemma ranked_optimal ti to amount config cfg allow paths :
  (∀ p, p ∈ paths ↔ valid_route (as_graph s) ti to config allow p) →
  NoDup paths → paths ≠ [] → optimal ti to amount config cfg allow (ranked cfg amount paths).
Proof.
  intros Hin Hnd Hne. unfold ranked.
  pose proof (quotes_of_paths R sim cfg ctx amount paths) as Hq.
  pose proof (failures_of_paths R sim cfg ctx amount paths) as Hf.
  set (quotes := omap result_ok _) in *. set (failures := omap result_err _) in *.
  clearbody quotes failures. destruct (decide (quotes = [])) as [->|Hquotes].
  - unfold rank_or_no_viable. simpl.
    assert (∀ p, p ∈ paths → ∃ e, path_quote R sim cfg ctx p amount = Err e) as Hfail.
    { intros p Hp. destruct (path_quote R sim cfg ctx p amount) as [q|e] eqn:Hpq; [|eauto].
      assert (q ∈ ([] : list RouteQuote)); [|set_solver]. rewrite Hq.
      apply list_elem_of_omap. exists p. split; [done|]. unfold quote_of. by rewrite Hpq. }
    assert (pf_path <$> omap (failure_of R sim cfg ctx amount) paths = paths) as Hpaths.
    { clear -Hfail. induction paths as [|p paths IH]; csimpl; [done|]. unfold failure_of at 1.
      destruct (Hfail p) as [e ->]; [set_solver|]. csimpl. f_equal. apply IH. set_solver. }
    assert (length failures = length paths) as Hlen.
    { rewrite Hf. rewrite <- Hpaths at 2. by rewrite length_fmap. }
    assert (pf_path <$> failures ≡ₚ paths) as Hperm by (rewrite Hf; by rewrite Hpaths).
    split_and!.
    + done.
    + by destruct paths.
    + by rewrite Hperm.
    + intros p. by rewrite Hperm, Hin.
    + intros f. rewrite Hf. intros (p & Hp & Hfp)%list_elem_of_omap.
      unfold failure_of in Hfp. destruct (path_quote _ _ _ _ p amount) eqn:Hpq; [done|].
      injection Hfp as <-. done.
  - rewrite rank_Ok by done. split_and!.
    + intros Hnil. apply Hquotes. apply Permutation_nil_r.
      rewrite <- (stable_sort_perm (desc_by rq_amount_out)). by rewrite Hnil.
    + apply ranked_sorted.
    + rewrite stable_sort_perm, Hq. apply NoDup_omap_path; [done|].
      unfold quote_of. intros p q Hpq.
      destruct (path_quote _ _ _ _ p amount) eqn:Heq; simplify_eq/=.
      by apply path_quote_path in Heq as [? _].
    + intros q. rewrite elem_of_stable_sort, Hq, list_elem_of_omap. unfold quote_of. split.
      * intros (p & Hp & Hpq). exists p. split; [by apply Hin|].
        by destruct (path_quote _ _ _ _ p amount); simplify_eq/=.
      * intros (p & Hp & Hpq). exists p. split; [by apply Hin|]. by rewrite Hpq.
Qed.

(** With the endpoints indexed and no candidate limit a search is optimal. *)
Lemma searched_optimal ti to amount config cfg allow source target :
  graph_wf (as_graph s) →
  node_index (as_graph s) ti = Some source → node_index (as_graph s) to = Some target →
  SearchConfig_validate config = Ok () → max_candidates config = None →
  ∃ res, searched ti to amount config cfg allow = Some res ∧
    optimal ti to amount config cfg allow res.
Proof.
  intros Hwf Hti Hto Hval Hmax. unfold searched, enumerate_routes. rewrite Hmax.
  rewrite (enumerate_uncancelled _ ti to source target) by done.
  destruct (bfs_spec (as_graph s) ti to source target config allow Hwf Hti Hto)
    as (Hnd & _ & Hin).
  case_decide as Hb; simpl.
  - eexists. split; [done|]. simpl. split_and!; [done..|]. intros p Hp%Hin.
    rewrite Hb in Hp. set_solver.
  - rewrite collect_unlimited by (try done; unfold usize_max; lia). simpl.
    assert (fresh ∅ (bfs_routes (as_graph s) ti to source target config allow) =
            bfs_routes (as_graph s) ti to source target config allow) as ->.
    { apply filter_all. set_solver. }
    eexists. split; [done|]. by apply ranked_optimal.
Qed.
End sequential.

(** What the callers of a search rely on: adapters that answer consistently,
    distinct scopes for distinct pools, a well-formed graph, and caches (the
    caller's and the snapshot's overlay) the adapters answer from. *)
Record search_env s (Inv : AdapterCache → Prop)
    (sim : SimConfig → Hop → U256 → result SimError U256) (cache : AdapterCache) : Prop := {
  en_simulates : simulates (as_registry s) Inv sim;
  en_scopes : scope_inj (as_quote_context s);
  en_graph : graph_wf (as_graph s);
  en_cache : Inv cache;
  en_snapshot o : as_snapshot_cache s = Some o → Inv o;
}.

(** A search that can run: exhaustive mode, valid, without a candidate limit. *)
Record complete_search (config : SearchConfig) : Prop := {
  cs_mode : mode config = ModeExhaustive;
  cs_valid : SearchConfig_validate config = Ok ();
  cs_unlimited : max_candidates config = None;
}.

Lemma searched_optimal_env s Inv sim cache ti to amount config cfg allow source target :
  search_env s Inv sim cache → complete_search config →
  node_index (as_graph s) ti = Some source → node_index (as_graph s) to = Some target →
  ∃ res, searched s sim ti to amount config cfg allow = Some res ∧
    optimal s sim ti to amount config cfg allow res.
Proof.
  intros [Hsim Hinj Hwf _ _] [_ Hval Hmax] Hs Ht.
  by apply (searched_optimal s Inv sim Hsim Hinj _ _ _ _ _ _ source target).
Qed.

Lemma on_search_cache_spec {A} s Inv sim cache (a : A)
    (run : AdapterCache → option (A * SharedQuoteCache * AdapterCache)) :
  search_env s Inv sim cache →
  (∀ c, Inv c → ∃ qc' c', run c = Some (a, qc', c') ∧ Inv c') →
  ∃ cache', on_search_cache s cache run = Some (a, cache') ∧ Inv cache' ∧
    (as_snapshot_cache s ≠ None → cache' = cache).
Proof.
  intros Henv Hrun. unfold on_search_cache.
  destruct (as_snapshot_cache s) as [o|] eqn:Ho.
  - destruct (Hrun o) as (qc & c & -> & _); [by eapply en_snapshot|]. simpl.
    exists cache. split_and!; [done|by eapply en_cache|done].
  - destruct (Hrun cache) as (qc & c & -> & Hc); [by eapply en_cache|]. simpl. by exists c.
Qed.

(** A search whose answer does not depend on the caches it starts from. *)
Definition answers s (Inv : AdapterCache → Prop)
    (sim : SimConfig → Hop → U256 → result SimError U256) ti to amount config cfg allow
    (res : result SearchError (list RouteQuote)) : Prop :=
  ∀ c qc, Inv c → coherent (as_registry s) sim (as_quote_context s) qc →
    ∃ qc' c', search_with_quote_cache s ti to amount config cfg allow c qc = Some (res, qc', c') ∧
      Inv c' ∧ coherent (as_registry s) sim (as_quote_context s) qc'.

(** What a heuristic search needs to answer: revisits when the endpoints
    coincide, and a group order. *)
Definition search_ok (ti to : Address) (config : SearchConfig) (allow : bool) : Prop :=
  ∀ h, mode config = ModeHeuristic h →
    (ti = to → allow = true) ∧
    (target_first h = true ∨ ranks_branches (liquidity_pruning config) = false).

Lemma searched_total s sim ti to amount config cfg allow :
  is_Some (searched s sim ti to amount config cfg allow).
Proof.
  unfold searched, enumerate_routes.
  destruct (enumerate_total (as_graph s) ti to config allow ∅ (max_candidates config))
    as [r ->]. by eexists.
Qed.

Lemma searched_answers s Inv sim cache ti to amount config cfg allow res :
  search_env s Inv sim cache → mode config = ModeExhaustive →
  searched s sim ti to amount config cfg allow = Some res →
  answers s Inv sim ti to amount config cfg allow res.
Proof.
  intros Henv Hmode Hres c qc Hc Hqc. unfold search_with_quote_cache. rewrite Hmode.
  apply (search_exhaustive_spec s Inv sim); [apply Henv|apply Henv|done..].
Qed.

Lemma search_answers s Inv sim cache ti to amount config cfg allow :
  search_env s Inv sim cache → search_ok ti to config allow →
  ∃ res, answers s Inv sim ti to amount config cfg allow res.
Proof.
  intros Henv Hok. destruct (mode config) as [|h] eqn:Hmode.
  { destruct (searched_total s sim ti to amount config cfg allow) as [res Hres].
    exists res. by eapply searched_answers. }
  assert (∀ e c qc, Inv c → coherent (as_registry s) sim (as_quote_context s) qc →
    ∃ qc' c', Some (Err e : result SearchError (list RouteQuote), qc, c) = Some (Err e, qc', c') ∧ Inv c' ∧
      coherent (as_registry s) sim (as_quote_context s) qc') as Herr by eauto.
  unfold answers, search_with_quote_cache. rewrite Hmode.
  unfold find_routes_heuristic_with_cache, find_routes_heuristic_with_cache_observed.
  destruct (SearchConfig_validate config) as [[]|e] eqn:Hval; cbn [search_validated];
    [|eexists; apply Herr].
  destruct (node_index (as_graph s) ti) as [source|] eqn:Hs; [|eexists; apply Herr].
  destruct (node_index (as_graph s) to) as [target|] eqn:Ht; [|eexists; apply Herr].
  destruct (Hok h Hmode) as [Hcyc Hord].
  assert (heuristic_env (as_registry s) (as_graph s) Inv sim (as_quote_context s) ti to config h
    allow) as Hhenv by (constructor; [apply Henv..|done|done|done|done]).
  destruct (heuristic_env_bounds _ _ _ _ _ _ _ _ _ _ Hhenv) as (_ & _ & tokens & Htok).
  destruct (heuristic_observed_spec (as_registry s) (as_graph s) (as_liquidity_index s) Inv sim
    (as_quote_context s) ti to source target amount config h cfg allow FullRun None () tokens
    cache Hhenv Hs Ht Htok) as (r & out & Hrun & _).
  unfold find_routes_heuristic_with_cache_observed in Hrun. rewrite Hval, Hs, Ht in Hrun.
  cbn [search_validated] in Hrun.
  exists (match out with Ok report => Ok (hr_quotes report) | Err e => Err e end).
  intros c qc Hc Hqc. destruct (Hrun c qc) as (c' & qc' & -> & [Hqc' Hc']); [done|].
  exists qc', c'. by destruct out.
Qed.

Abbreviation route_answers s Inv sim r :=
  (answers s Inv sim (token_in r) (token_out r) (rr_amount_in r) (rr_config r) (rr_sim_config r)
    false).

Lemma find_routes_answers s Inv sim cache r res :
  search_env s Inv sim cache → route_answers s Inv sim r res →
  ∃ cache', find_routes s r cache = Some (res, cache') ∧ Inv cache' ∧
    (as_snapshot_cache s ≠ None → cache' = cache).
Proof.
  intros Henv Hres. apply (on_search_cache_spec s Inv sim); [done|]. intros c Hc.
  destruct (Hres c (new_quote_cache s) Hc (coherent_empty _ _ _)) as (qc & c' & Heq & ? & _).
  eauto.
Qed.

(** C1: Exhaustive route search is complete and optimal.  For indexed tokens, a
    valid configuration without a candidate limit and adapters that answer
    consistently, [find_routes] returns: the quotes of all admissible routes
    that quote, each once, best output first (ties in an unspecified order); or
    [NoPath] exactly when no admissible route exists; or [NoViableRoute] with one
    failure per admissible route when all of them fail.  A snapshot search leaves
    the caller's cache untouched. *)
Theorem find_routes_optimal s Inv sim cache r source target :
  search_env s Inv sim cache → complete_search (rr_config r) →
  node_index (as_graph s) (token_in r) = Some source →
  node_index (as_graph s) (token_out r) = Some target →
  ∃ res cache', find_routes s r cache = Some (res, cache') ∧
    optimal s sim (token_in r) (token_out r) (rr_amount_in r) (rr_config r) (rr_sim_config r)
      false res ∧
    Inv cache' ∧ (as_snapshot_cache s ≠ None → cache' = cache).
Proof.
  intros Henv Hconf Hs Ht.
  destruct (searched_optimal_env s Inv sim cache _ _ (rr_amount_in r) _ (rr_sim_config r) false
    source target Henv Hconf Hs Ht) as (res & Hres & Hopt).
  destruct (find_routes_answers s Inv sim cache r res Henv) as (cache' & ? & ? & ?);
    [by eapply searched_answers; [|apply Hconf|]|].
  exists res, cache'. done.
Qed.

(** [find_best_route] returns a quote of an admissible route whose output
    is at least that of every admissible route that quotes; when it fails, no
    admissible route quotes. *)
Theorem find_best_route_optimal s Inv sim cache r source target :
  search_env s Inv sim cache → complete_search (rr_config r) →
  node_index (as_graph s) (token_in r) = Some source →
  node_index (as_graph s) (token_out r) = Some target →
  let valid := valid_route (as_graph s) (token_in r) (token_out r) (rr_config r) false in
  let quoted p := path_quote (as_registry s) sim (rr_sim_config r) (as_quote_context s) p
                    (rr_amount_in r) in
  ∃ res cache', find_best_route s r cache = Some (res, cache') ∧
    match res with
    | Ok q => valid (rq_path q) ∧ quoted (rq_path q) = Ok q ∧
        ∀ p q', valid p → quoted p = Ok q' → (rq_amount_out q' <= rq_amount_out q)%Z
    | Err _ => ∀ p q', valid p → quoted p ≠ Ok q'
    end.
Proof.
  intros Henv Hconf Hs Ht.
  destruct (searched_optimal_env s Inv sim cache _ _ (rr_amount_in r) _ (rr_sim_config r) false
    source target Henv Hconf Hs Ht) as (res & Hres & Hopt).
  destruct (find_routes_answers s Inv sim cache r res Henv) as (cache' & Hfind & _);
    [by eapply searched_answers; [|apply Hconf|]|].
  unfold find_best_route. rewrite Hfind. simpl. do 2 eexists. split; [done|].
  destruct res as [quotes|e]; simpl in *.
  - destruct Hopt as (Hne & Hsort & _ & Hin). destruct quotes as [|q quotes]; [done|]. simpl.
    destruct (proj1 (Hin q)) as (p & Hp & Hpq); [set_solver|].
    destruct (path_quote_path _ _ _ _ _ _ Hpq) as [-> _]. split_and!; [done..|].
    intros p' q' Hp' Hq'. assert (q' ∈ q :: quotes) as Hq by (apply Hin; eauto).
    apply StronglySorted_inv in Hsort as [_ Hall]. rewrite Forall_forall in Hall.
    apply elem_of_cons in Hq as [->|Hq]; [done|by apply Hall].
  - intros p q' Hp. destruct e; try done.
    + destruct Hopt as (_ & _ & Hno). by destruct (Hno p).
    + destruct Hopt as (_ & _ & _ & Hall & Hfail). apply Hall in Hp.
      apply list_elem_of_fmap in Hp as (f & -> & Hf). by rewrite (Hfail f Hf).
Qed.

(** C34: Cycle search: [find_cycles] ranks all admissible cycles through the
    base token as [find_routes] ranks routes, and the profit it attaches is
    exact: present exactly when the cycle returns more than it takes, and then
    the difference (no 256-bit subtraction wraps). *)
Theorem find_cycles_correct s Inv sim cache r base :
  search_env s Inv sim cache → complete_search (cr_config r) →
  node_index (as_graph s) (base_token r) = Some base →
  is_u256 (cr_amount_in r) → (∀ cfg h a out, sim cfg h a = Ok out → is_u256 out) →
  ∃ res cache', find_cycles s r cache = Some (cycle_quotes res, cache') ∧
    optimal s sim (base_token r) (base_token r) (cr_amount_in r) (cr_config r)
      (cr_sim_config r) true res ∧
    ∀ cycles c, cycle_quotes res = Ok cycles → c ∈ cycles →
      ∀ x, profit c = Some x ↔
        (rq_amount_in (cq_route c) < rq_amount_out (cq_route c))%Z ∧
        x = (rq_amount_out (cq_route c) - rq_amount_in (cq_route c))%Z.
Proof.
  intros Henv Hconf Hb Hin256 Hout256.
  destruct (searched_optimal_env s Inv sim cache _ _ (cr_amount_in r) _ (cr_sim_config r) true
    base base Henv Hconf Hb Hb) as (res & Hres & Hopt).
  destruct (on_search_cache_spec s Inv sim cache (cycle_quotes res)
    (λ c, find_cycles_with_quote_cache s r c (new_quote_cache s)) Henv) as (cache' & Hfind & _).
  { intros c Hc. unfold find_cycles_with_quote_cache.
    destruct (searched_answers s Inv sim cache _ _ _ _ _ _ res Henv (cs_mode _ Hconf) Hres c
      (new_quote_cache s) Hc (coherent_empty _ _ _)) as (qc & c' & -> & ? & _). simpl. eauto. }
  exists res, cache'. split_and!; [done|done|]. intros cycles c Hcyc Hc x.
  destruct res as [quotes|]; [|done]. injection Hcyc as <-.
  apply list_elem_of_fmap in Hc as (q & -> & Hq). simpl.
  destruct Hopt as (_ & _ & _ & Hall). apply Hall in Hq as (p & _ & Hpq).
  assert (rq_amount_in q = cr_amount_in r) as Ha by (by apply path_quote_path in Hpq as [_ ?]).
  assert (is_u256 (rq_amount_out q)) as Ho.
  { revert Hpq. unfold path_quote, fold_path. destruct p as [|h p]; [done|].
    destruct (fold_hops _ _ _ _) as [[a hs]|] eqn:Hf; [|done]. intros [= <-]. simpl.
    assert (∀ hops amt quoted a hs,
      fold_hops (hop_quote (as_registry s) sim (cr_sim_config r) (as_quote_context s)) hops amt
        quoted = Ok (a, hs) → is_u256 amt → is_u256 a) as Hgen.
    { clear -Hout256. induction hops as [|h hops IH]; intros amt quoted a hs; simpl; [congruence|].
      destruct (hop_quote _ _ _ _ h amt) as [out|] eqn:Hh; [|done]. intros Hf _.
      apply (IH out _ a hs Hf). revert Hh. unfold hop_quote, hop_result.
      destruct (quote_key _ _ _ _); [|done]. destruct (registry_pool _ _); [|done].
      destruct (registry_adapter _ _); [|done].
      destruct (sim _ h amt) eqn:Hs; [|done]. intros [= <-]. by eapply Hout256. }
    by eapply Hgen. }
  destruct (Z.ltb_spec (rq_amount_in q) (rq_amount_out q)) as [Hlt|Hge].
  - unfold u256_sub, u256_wrap, is_u256 in *. rewrite Z.mod_small by lia. naive_solver.
  - split; [done|]. lia.
Qed.

Lemma omap_mjoin {A B} (f : A → option B) (ls : list (list A)) :
  omap f (mjoin ls) = mjoin (omap f <$> ls).
Proof. induction ls as [|l ls IH]; csimpl; [done|]. by rewrite omap_app, IH. Qed.

(** The reports of all threads together. *)
Lemma reports_joined R sim ctx cfg amount chunks reports paths :
  Forall2 (report_all R sim ctx cfg amount) chunks reports → mjoin chunks ≡ₚ paths →
  reports ≫= qp_quotes ≡ₚ omap result_ok (results_of R sim cfg ctx amount paths) ∧
  reports ≫= qp_failures ≡ₚ omap result_err (results_of R sim cfg ctx amount paths) ∧
  existsb qp_stopped reports = false.
Proof.
  intros Hrep Hp.
  assert (results_of R sim cfg ctx amount paths ≡ₚ mjoin (results_of R sim cfg ctx amount <$> chunks)) as ->.
  { rewrite results_of_perm, <- Hp. clear. induction chunks as [|c chunks IH]; csimpl; [done|].
    by rewrite results_of_perm, fmap_app, IH. }
  rewrite !omap_mjoin. clear Hp. induction Hrep as [|c rep cs reps (Hst & Hq & Hf) _ (IH1 & IH2 & IH3)];
    [done|]. csimpl. rewrite Hst, Hq, Hf. split_and!; [by f_equiv|by f_equiv|done].
Qed.

(** The threads of [quote_and_rank_parallel] at any schedule. *)
Lemma ranked_in_parallel s Inv sim cache paths amount cfg overlay config schedule :
  search_env s Inv sim cache → Inv overlay → ParallelSearchConfig_validate config = Ok () →
  ∃ res', quote_and_rank_parallel s paths amount cfg overlay config schedule = Some res' ∧
    (agree (ranked s sim cfg amount paths) res' ∨
     res' = Err ErrWorkerPanic ∧ ∃ i, AdapterPanic i ∈ schedule).
Proof.
  intros Henv Hov Hval.
  assert (Inv (new_overlay_cache s overlay)) as Ho.
  { unfold new_overlay_cache. destruct (as_snapshot_cache s) eqn:Hsnap; [|done].
    by eapply en_snapshot. }
  assert (1 ≤ workers config) as Hw.
  { revert Hval. unfold ParallelSearchConfig_validate. rewrite reject_if_Ok, eqb_0. tauto. }
  unfold quote_and_rank_parallel, ranked. rewrite Hval. cbn [search_validated].
  set (n := Nat.min _ _). assert (n ≠ 0) as Hn by lia.
  set (o := new_overlay_cache s overlay) in *.
  pose proof (split_paths_perm paths n Hn) as Hsplit. case_decide as Hone.
  - destruct (quote_paths_spec (as_registry s) Inv sim cfg (en_simulates _ _ _ _ Henv)
      (as_quote_context s) (default [] (head (split_paths paths n))) amount o (new_quote_cache s)
      (en_scopes _ _ _ _ Henv) Ho (coherent_empty _ _ _)) as (qc' & c1 & Heq & _). rewrite Heq. simpl.
    eexists. split; [done|]. left.
    assert (default [] (head (split_paths paths n)) ≡ₚ paths) as Hhead.
    { rewrite <- Hsplit at 2. pose proof (length_split_paths paths n) as Hl.
      destruct (split_paths paths n) as [|c [|c2 l]]; simpl in *; [done|by rewrite app_nil_r|lia]. }
    assert (results_of (as_registry s) sim cfg (as_quote_context s) amount
      (default [] (head (split_paths paths n))) ≡ₚ
      results_of (as_registry s) sim cfg (as_quote_context s) amount paths) as Hr
      by (by rewrite !results_of_perm, Hhead).
    apply rank_agree; by rewrite Hr.
  - destruct (run_threads_spec (as_registry s) Inv sim (as_quote_context s) cfg amount false
      (en_simulates _ _ _ _ Henv) (en_scopes _ _ _ _ Henv) (λ _ ob, (true, ob)) () (split_paths paths n)
      o schedule (new_quote_cache s) (coherent_empty _ _ _) Ho) as (sys & -> & Hdone).
    simpl. eexists. split; [done|].
    destruct (td_observed _ _ _ _ _ _ _ _ _ _ _ Hdone) as (obs & b & Hwatched & _ & _ & Hjoin).
    apply watched_accepting in Hwatched as ->; [|done].
    destruct (join_workers (ws_threads sys)) as [reports|e]; [left|right; destruct Hjoin as [-> ?]; done].
    destruct (Hjoin eq_refl) as [Hreports _].
    destruct (reports_joined _ _ _ _ _ _ _ paths Hreports Hsplit) as (Hq & Hf & _).
    by apply rank_agree.
Qed.

(** C28: Parallel evaluation agrees with the sequential search: for any number
    of workers and any interleaving of their threads (every access to the shared
    quote cache is a step of its own, threads wait for keys in flight, wake up
    spuriously), [find_routes_parallel] returns, and it returns the same error
    or the same quotes, ranked by the same outputs (only ties may be ordered
    differently); or [WorkerPanic], and then only when an adapter panicked. *)
Theorem find_routes_parallel_agrees s Inv sim cache overlay r config schedule res cache' :
  search_env s Inv sim cache → search_ok (token_in r) (token_out r) (rr_config r) false →
  Inv overlay →
  ParallelSearchConfig_validate config = Ok () →
  find_routes s r cache = Some (res, cache') →
  ∃ res', find_routes_parallel s r overlay config schedule = Some res' ∧
    (agree res res' ∨ res' = Err ErrWorkerPanic ∧ ∃ i, AdapterPanic i ∈ schedule).
Proof.
  intros Henv Hok Hov Hval Hfind.
  unfold find_routes_parallel. destruct (mode (rr_config r)) as [|h] eqn:Hmode; simpl.
  2: { assert (Inv (new_overlay_cache s overlay)) as Ho.
       { unfold new_overlay_cache. destruct (as_snapshot_cache s) eqn:Hsnap; [|done].
         by eapply en_snapshot. }
       destruct (search_answers s Inv sim cache _ _ (rr_amount_in r) _ (rr_sim_config r) _ Henv Hok)
         as [res1 Hres1].
       destruct (find_routes_answers s Inv sim cache r res1 Henv Hres1) as (c & Hf & _).
       rewrite Hfind in Hf. injection Hf as <- <-.
       unfold heuristic_on_overlay. rewrite Hval. simpl.
       destruct (Hres1 _ (new_quote_cache s) Ho (coherent_empty _ _ _)) as (qc & c1 & Heq & _).
       unfold find_routes_with_quote_cache. rewrite Heq. exists res. split; [done|left; apply agree_refl]. }
  assert (searched s sim (token_in r) (token_out r) (rr_amount_in r) (rr_config r)
    (rr_sim_config r) false = Some res) as Hres.
  { destruct (searched_total s sim (token_in r) (token_out r) (rr_amount_in r) (rr_config r)
      (rr_sim_config r) false) as [res1 Hres1]. rewrite Hres1.
    destruct (find_routes_answers s Inv sim cache r res1 Henv) as (c & Hf & _);
      [by eapply searched_answers|congruence]. }
  unfold searched in Hres.
  destruct (enumerate_routes _ _ _ _ _) as [[paths|e]|]; simpl in *; [| |done].
  2: { injection Hres as <-. eexists. split; [done|left; apply agree_refl]. }
  injection Hres as <-. by eapply ranked_in_parallel.
Qed.

(** ** Batches *)

(** What a request answers on its own. *)
Definition request_result s cache (r : RouteRequest) : result SearchError (list RouteQuote) :=
  match find_routes_with_quote_cache s r cache (new_quote_cache s) with
  | Some (res, _, _) => res
  | None => Err ErrEmptyPath
  end.

Definition request_ok (r : RouteRequest) : Prop :=
  search_ok (token_in r) (token_out r) (rr_config r) false.

Lemma request_answers s Inv sim cache r :
  search_env s Inv sim cache → request_ok r →
  route_answers s Inv sim r (request_result s cache r).
Proof.
  intros Henv Hok.
  destruct (search_answers s Inv sim cache _ _ (rr_amount_in r) _ (rr_sim_config r) _ Henv Hok)
    as [res Hres].
  destruct (Hres cache (new_quote_cache s) (en_cache _ _ _ _ Henv) (coherent_empty _ _ _))
    as (qc & c & Heq & _).
  unfold request_result, find_routes_with_quote_cache. by rewrite Heq.
Qed.

Lemma request_chunk_spec s Inv sim cache chunk c qc :
  search_env s Inv sim cache → (∀ i r, (i, r) ∈ chunk → request_ok r) → Inv c →
  coherent (as_registry s) sim (as_quote_context s) qc →
  ∃ qc', request_chunk find_routes_with_quote_cache s chunk c qc =
      Some (prod_map id (request_result s cache) <$> chunk, qc') ∧
    coherent (as_registry s) sim (as_quote_context s) qc'.
Proof.
  intros Henv. revert c qc. induction chunk as [|[i r] chunk IH]; intros c qc Hok Hc Hqc; simpl.
  { eauto. }
  destruct (request_answers s Inv sim cache r Henv (Hok i r ltac:(by left)) c qc Hc Hqc)
    as (qc1 & c1 & Heq & Hc1 & Hqc1).
  assert (find_routes_with_quote_cache (worker_searcher s) r c qc =
    Some (request_result s cache r, qc1, c1)) as ->.
  { rewrite <- Heq. unfold worker_searcher. by destruct s as [R g [index|] ctx o]. }
  simpl. destruct (IH c1 qc1 ltac:(intros j r' ?; apply (Hok j); by right) Hc1 Hqc1)
    as (qc2 & -> & Hqc2). simpl. by exists qc2.
Qed.

Lemma enumerate_sorted {A} (l : list A) :
  StronglySorted (λ x y : nat * A, x.1 ≤ y.1) (enumerate l).
Proof.
  unfold enumerate. assert (∀ k (l : list A),
    StronglySorted (λ x y : nat * A, x.1 ≤ y.1) (imap (λ i a, (k + i, a)) l)) as Hgen.
  { clear. intros k l. revert k. induction l as [|a l IH]; intros k; csimpl; [constructor|].
    constructor.
    - assert (imap ((λ i b, (k + i, b)) ∘ S) l = imap (λ i b, (S k + i, b)) l) as ->
        by (apply imap_ext; intros; simpl; f_equal; lia). apply IH.
    - apply Forall_forall. intros x (i & b & -> & _)%elem_of_lookup_imap. simpl. lia. }
  apply (Hgen 0 l).
Qed.

Lemma collect_ordered_spec {A} (rs : list (nat * A)) (l : list A) :
  rs ≡ₚ enumerate l → collect_ordered_results rs = l.
Proof.
  intros Hp. unfold collect_ordered_results. rewrite <- (snd_enumerate l). f_equal.
  apply (StronglySorted_unique_strong (λ x y : nat * A, x.1 ≤ y.1)).
  - intros [i a] [j b] Ha Hb Hij Hji. simpl in *. assert (i = j) as -> by lia.
    rewrite elem_of_stable_sort, Hp in Ha. apply elem_of_enumerate in Ha, Hb. congruence.
  - eapply StronglySorted_weaken.
    + apply stable_sort_sorted.
      * intros x y. rewrite !Nat.leb_le. lia.
      * intros x y z. rewrite !Nat.leb_le. lia.
    + intros x y. by rewrite Nat.leb_le.
  - apply enumerate_sorted.
  - by rewrite stable_sort_perm.
Qed.

Lemma enumerate_fmap_prod {A B} (f : A → B) (l : list A) :
  enumerate (f <$> l) = prod_map id f <$> enumerate l.
Proof. unfold enumerate. rewrite imap_fmap, fmap_imap. done. Qed.

(** Batch search preserves the request order and does not mix requests:
    with any number of workers run in any order, sharing one quote cache, the
    result at each index is the result [find_routes] gives for that request
    alone. *)
Theorem batch_agrees_with_single s Inv sim cache requests overlay config order :
  search_env s Inv sim cache → (∀ r, r ∈ requests → request_ok r) → Inv overlay →
  ParallelSearchConfig_validate config = Ok () →
  (∀ i, i < workers config → i ∈ order) →
  ∃ report, batch_parallel_with_stats find_routes_with_quote_cache s requests overlay config order =
      Some (Ok report) ∧
    length (batch_results report) = length requests ∧
    ∀ i r, requests !! i = Some r →
      ∃ res cache', find_routes s r cache = Some (res, cache') ∧
        batch_results report !! i = Some res.
Proof.
  intros Henv Hok Hov Hval Horder. unfold batch_parallel_with_stats. rewrite Hval. cbn [search_validated].
  assert (1 ≤ workers config) as Hw.
  { revert Hval. unfold ParallelSearchConfig_validate. rewrite reject_if_Ok, eqb_0. tauto. }
  destruct requests as [|r0 rs]; [by eexists|]. set (requests := r0 :: rs).
  set (n := Nat.min _ _). assert (n ≠ 0 ∧ n ≤ workers config) as [Hn Hnw].
  { unfold n. simpl. lia. }
  set (o := new_overlay_cache s overlay).
  assert (Inv o) as Ho.
  { unfold o, new_overlay_cache. destruct (as_snapshot_cache s) eqn:Hsnap; [|done].
    by eapply en_snapshot. }
  pose proof (split_indexed_perm requests n Hn) as Hsplit.
  assert (∀ chunk, chunk ∈ split_indexed_items requests n → ∀ i r, (i, r) ∈ chunk → request_ok r)
    as Hchunks.
  { intros chunk Hchunk i r Hr. apply Hok.
    assert ((i, r) ∈ enumerate requests) as Hin.
    { rewrite <- Hsplit. apply list_elem_of_join. by exists chunk. }
    apply elem_of_enumerate in Hin. by eapply list_elem_of_lookup_2. }
  destruct (run_workers_spec (split_indexed_items requests n)
    (λ chunk qc, request_chunk find_routes_with_quote_cache s chunk o qc)
    (coherent (as_registry s) sim (as_quote_context s))
    (fmap (prod_map id (request_result s cache)))
    (λ chunk qc Hchunk, request_chunk_spec s Inv sim cache chunk o qc Henv (Hchunks chunk Hchunk) Ho)
    (if decide (n = 1) then [0] else order) (new_quote_cache s) (coherent_empty _ _ _))
    as (qc & Heq & _).
  { intros i Hi. pose proof (length_split_indexed requests n). case_decide.
    - assert (i = 0) as -> by lia. set_solver.
    - apply Horder. lia. }
  rewrite Heq. simpl. eexists. split; [done|]. simpl.
  assert (collect_ordered_results (mjoin
    (fmap (prod_map id (request_result s cache)) <$> split_indexed_items requests n)) =
    request_result s cache <$> requests) as Hcollect.
  { apply collect_ordered_spec. rewrite enumerate_fmap_prod, <- (split_indexed_perm requests n Hn).
    clear. induction (split_indexed_items requests n) as [|c l IH]; csimpl; [done|].
    by rewrite IH, fmap_app. }
  rewrite Hcollect. split; [by rewrite length_fmap|]. intros i r Hr.
  destruct (find_routes_answers s Inv sim cache r (request_result s cache r) Henv)
    as (cache' & Hf & _).
  { apply request_answers; [done|]. apply Hok. by eapply list_elem_of_lookup_2. }
  exists (request_result s cache r), cache'. split; [done|]. by rewrite list_lookup_fmap, Hr.
Qed.

(** ** Quoting many paths and quoting one *)

(** C26: Quoting paths together through the shared prefix tree and the quote
    cache is equivalent to quoting each path on its own: the quotes are exactly
    those [quote_path] returns, and every path it rejects is reported once with
    the rendering of its error. *)
Theorem dag_quoting_agrees R Inv sim ctx cfg paths amount c qc :
  simulates R Inv sim → scope_inj ctx → Inv c → coherent R sim ctx qc →
  Forall (Forall (scoped ctx)) paths →
  ∃ quotes failures qc' c',
    quote_paths_with_registry R paths amount cfg c qc = Some (quotes, failures, qc', c') ∧
    quotes ≡ₚ omap (λ p, result_ok (quote_path_with_registry R p amount c cfg).1) paths ∧
    failures ≡ₚ omap (λ p,
      match (quote_path_with_registry R p amount c cfg).1 with
      | Ok _ => None
      | Err e => Some {| pf_path := p; pf_reason := search_error_display e |}
      end) paths ∧
    Inv c' ∧ coherent R sim ctx qc'.
Proof.
  intros Hsim Hinj Hc Hqc Hscoped. rewrite Forall_forall in Hscoped.
  destruct (quote_paths_spec R Inv sim cfg Hsim ctx paths amount c qc Hinj Hc Hqc)
    as (qc' & c' & -> & ? & ?).
  assert (∀ p, p ∈ paths → path_quote R sim cfg ctx p amount =
    with_reason (quote_path_with_registry R p amount c cfg).1) as Hpath.
  { intros p Hp. destruct (quote_path_result R Inv sim cfg Hsim p amount c Hc) as (c1 & -> & _).
    simpl. by apply path_quote_scoped, Hscoped. }
  do 4 eexists. split; [done|]. split_and!; [| |done|done].
  - rewrite quotes_of_paths. erewrite omap_ext_in; [done|]. intros p Hp. unfold quote_of.
    rewrite (Hpath p Hp). by destruct (quote_path_with_registry _ _ _ _ _).1.
  - rewrite failures_of_paths. erewrite omap_ext_in; [done|]. intros p Hp. unfold failure_of.
    rewrite (Hpath p Hp). by destruct (quote_path_with_registry _ _ _ _ _).1.
Qed.

(** With observers the evaluation reports a prefix of the per-path results:
    everything up to and including the result on which an observer stopped it,
    and everything when none did. *)
Theorem observed_quoting_prefix {S} R Inv sim ctx cfg paths amount c qc
    (on_quote : option (RouteQuote → S → bool * S))
    (on_failure : option (PathFailure → S → bool * S)) (st : S) :
  simulates R Inv sim → scope_inj ctx → Inv c → coherent R sim ctx qc →
  ∃ e results k,
    quote_paths_with_registry_observed R cfg amount on_quote on_failure paths c qc st = Some e ∧
    results ≡ₚ result_of R sim cfg ctx amount <$> paths ∧
    ev_quotes e = omap result_ok (take k results) ∧
    ev_failures e = omap result_err (take k results) ∧
    (ev_stopped e = false → k = length paths).
Proof.
  intros Hsim Hinj Hc Hqc.
  destruct (quote_paths_observed_spec R Inv sim cfg Hsim ctx amount on_quote on_failure Hinj
    paths c qc st Hc Hqc) as (e & Heq & [Hv _]).
  set (results := results_of R sim cfg ctx amount paths) in *.
  match type of Hv with _ = ev_view (consume _ _ _ ?e0) => set (e0' := e0) in * end.
  destruct (consume_prefix on_quote on_failure results e0' eq_refl) as (k & Hk & Hq & Hf & Hs).
  unfold ev_view in Hv. injection Hv as Hq' Hf' _ Hs'.
  exists e, results, k. rewrite Hq', Hf', Hs', Hq, Hf. split_and!; [done| |done|done|].
  - apply results_of_perm.
  - intros Hst. rewrite (Hs Hst). unfold results. rewrite results_of_perm. by rewrite length_fmap.
Qed.
End search.
