(* ===== verification/ModeTheorems.v ===== *)
(** * The two search modes compared

    A heuristic search that prunes nothing answers like the exhaustive search of
    the same request, up to the number of finalists it keeps. *)

From S2P Require Import Prelude AmmState Petgraph Graph GraphPairs GraphInv GraphProps.
From S2P Require Import GraphTheorems Config SearchTypes Enumerate EnumerateProps.
From S2P Require Import EnumerateTheorems Liquidity QuoteCache Quote QuoteProps Ranking.
From S2P Require Import Heuristic HeuristicProps HeuristicSearch HeuristicSteps HeuristicRun.
From S2P Require Import HeuristicTheorems Searcher SearchTheorems.

Section modes.
Context `{!AmmTypes} `{!Petgraph Address EdgeData} `{!PetgraphLaws Address EdgeData}.
Implicit Types (s : AmmSearcher).

(** Only the hop bounds and the connectors of a configuration decide which
    routes are admissible. *)
Lemma valid_route_effective g ti to tokens config allow p :
  connector_tokens config = Some tokens →
  valid_route g ti to (effective_config (Some tokens) config) allow p ↔
  valid_route g ti to (exhaustive config) allow p.
Proof.
  intros Htok. assert (∀ prefix cur,
    route_prefix g ti to (effective_config (Some tokens) config) prefix cur ↔
    route_prefix g ti to (exhaustive config) prefix cur) as Hpre.
  { destruct config. simpl in Htok. subst. split; intros []; by constructor. }
  unfold valid_route. setoid_rewrite Hpre. by destruct config.
Qed.

Lemma exhaustive_complete config :
  SearchConfig_validate config = Ok () → max_candidates config = None →
  complete_search (exhaustive config).
Proof.
  intros Hval Hmax. constructor; [by destruct config| |by destruct config].
  apply search_config_validate_Ok in Hval as (? & ? & _). apply search_config_validate_Ok.
  destruct config. unfold search_config_ok in *. simpl in *. split_and!; by try lia.
Qed.

(** The quotes of a run that settled every admissible route are those of the
    exhaustive search. *)
Lemma run_quotes_exhaustive s sim ti to amount config h cfg tokens allow quotes
    (r : Run ()) :
  run_ok (as_registry s) (as_graph s) ti to amount config cfg (Some tokens) allow sim
    (as_quote_context s) r →
  connector_tokens config = Some tokens → caps_active h = false →
  (∀ p, valid_route (as_graph s) ti to (effective_config (Some tokens) config) allow p →
     settled (as_registry s) amount h cfg sim (as_quote_context s) r p) →
  optimal s sim ti to amount (exhaustive config) cfg allow (Ok quotes) →
  run_quotes r ≡ₚ quotes.
Proof.
  intros Hr Htok Hcap Hset (_ & _ & Hnd & Hin). apply NoDup_Permutation.
  - eapply NoDup_fmap_1, (ro_nodup _ _ _ _ _ _ _ _ _ _ _ _ Hr).
  - by eapply NoDup_fmap_1.
  - intros q. rewrite Hin. split.
    + intros Hq. destruct (ro_quotes _ _ _ _ _ _ _ _ _ _ _ _ Hr q Hq) as [Hv Hpq].
      exists (rq_path q). split; [|done]. by apply (valid_route_effective _ _ _ tokens).
    + intros (p & Hv & Hpq). apply (valid_route_effective _ _ _ tokens) in Hv; [|done].
      specialize (Hset p Hv). unfold settled in Hset. rewrite Hpq in Hset.
      destruct Hset as [|[? _]]; [done|congruence].
Qed.

(** How the answer [res] of the heuristic search compares with the answer [res'] of
    the exhaustive one: the best [k] of its quotes, or the same error (a route
    too short for [min_hops] may fail in the heuristic search only). *)
Definition truncates (k : nat) (res res' : result SearchError (list RouteQuote)) : Prop :=
  match res, res' with
  | Ok quotes, Ok quotes' =>
      rq_amount_out <$> quotes = take k (rq_amount_out <$> quotes') ∧
      NoDup quotes ∧ ∀ q, q ∈ quotes → q ∈ quotes'
  | Err (ErrNoPath a b), Err (ErrNoPath a' b') => a = a' ∧ b = b'
  | Err (ErrNoViableRoute _ _), Err (ErrNoViableRoute _ _ | ErrNoPath _ _) => True
  | _, _ => False
  end.

Lemma report_truncates (h : HeuristicSearchConfig) (r : Run ()) report quotes :
  reports h r report → run_quotes r ≡ₚ quotes → StronglySorted better quotes → NoDup quotes →
  truncates (max_finalists h) (Ok (hr_quotes report)) (Ok quotes).
Proof.
  intros [Hperm Hsorted _ _] Hquotes Hs Hnd.
  assert (finalists h r ⊆+ quotes) as Hsub.
  { rewrite <- Hquotes, <- (stable_sort_perm (desc_by rq_amount_out) (run_quotes r)).
    apply sublist_submseteq, sublist_take. }
  assert (StronglySorted better (finalists h r)) as Hfs.
  { unfold finalists. eapply StronglySorted_app_1_l. rewrite take_drop. apply ranked_sorted. }
  split_and!.
  - rewrite (sorted_perm_amounts _ (finalists h r)) by done. unfold finalists.
    rewrite fmap_take. f_equal. apply sorted_perm_amounts; [apply ranked_sorted|done|].
    by rewrite stable_sort_perm.
  - rewrite Hperm. apply submseteq_Permutation in Hsub as [rest Hrest].
    rewrite Hrest in Hnd. by apply NoDup_app in Hnd as (? & _ & _).
  - intros q. rewrite Hperm. intros Hq. by eapply elem_of_submseteq.
Qed.

(** C4: The heuristic search refines the exhaustive one: when it prunes nothing
    and has its connectors from the configuration, [find_routes] in heuristic
    mode returns the [max_finalists] best of the quotes that [find_routes]
    returns for the same request in exhaustive mode (the same outputs in the
    same order), and fails exactly when that fails. *)
Theorem heuristic_refines_exhaustive s Inv sim cache r h tokens source target :
  search_env s Inv sim cache →
  mode (rr_config r) = ModeHeuristic h → SearchConfig_validate (rr_config r) = Ok () →
  connector_tokens (rr_config r) = Some tokens →
  search_ok (token_in r) (token_out r) (rr_config r) false →
  unpruned (S := ()) (as_registry s) (as_graph s) (as_liquidity_index s) (rr_config r) h
    (rr_sim_config r) None sim (as_quote_context s) →
  caps_active h = false →
  node_index (as_graph s) (token_in r) = Some source →
  node_index (as_graph s) (token_out r) = Some target →
  ∃ res cache' res' cache'',
    find_routes s r cache = Some (res, cache') ∧
    find_routes s (rr_with_config (exhaustive (rr_config r)) r) cache = Some (res', cache'') ∧
    truncates (max_finalists h) res res'.
Proof.
  intros Henv Hmode Hval Htok Hok Hup Hcap Hs Ht. destruct (Hok h Hmode) as [Hcyc Hord].
  destruct r as [ti to amount config cfg]. cbn [token_in token_out rr_config rr_sim_config
    rr_amount_in rr_with_config] in *.
  assert (heuristic_env (as_registry s) (as_graph s) Inv sim (as_quote_context s) ti to config h
    false) as Hhenv by (constructor; [apply Henv..|done|done|done|done]).
  assert (connector_tokens_for_heuristic (as_graph s) ti to config h = Some tokens) as Hct
    by (unfold connector_tokens_for_heuristic; by rewrite Htok).
  destruct (heuristic_observed_spec (as_registry s) (as_graph s) (as_liquidity_index s) Inv sim
    (as_quote_context s) ti to source target amount config h cfg false FullRun None () tokens
    cache Hhenv Hs Ht Hct) as (run & out & Hrun & Hr & Hout & _ & Hcomp).
  destruct (Hcomp Hup) as [_ Hset]. specialize (Hset eq_refl). unfold heuristic_valid in Hset.
  rewrite Hct in Hset.
  destruct (searched_optimal_env s Inv sim cache ti to amount (exhaustive config) cfg false source
    target Henv (exhaustive_complete config Hval (up_candidates _ _ _ _ _ _ _ _ _ Hup)) Hs Ht)
    as (res' & Hres' & Hopt).
  set (res := match out with Ok report => Ok (hr_quotes report) | Err e => Err e end).
  destruct (find_routes_answers s Inv sim cache (Build_RouteRequest ti to amount config cfg) res
    Henv) as (cache' & Hfind & _).
  { intros c qc Hc Hqc. cbn [token_in token_out rr_config rr_sim_config rr_amount_in].
    unfold search_with_quote_cache, find_routes_heuristic_with_cache. rewrite Hmode.
    destruct (Hrun c qc) as (c' & qc' & -> & [Hqc' Hc']); [done|]. exists qc', c'.
    unfold res. by destruct out. }
  destruct (find_routes_answers s Inv sim cache
    (Build_RouteRequest ti to amount (exhaustive config) cfg) res' Henv) as (cache'' & Hfind' & _).
  { apply (searched_answers s Inv sim cache); [done|by destruct config|done]. }
  exists res, cache', res', cache''. split_and!; [done..|]. unfold res.
  destruct res' as [quotes|e'].
  - pose proof (run_quotes_exhaustive s sim ti to amount config h cfg tokens false quotes run Hr
      Htok Hcap Hset Hopt) as Hperm.
    assert (run_quotes run ≠ []) as Hne.
    { destruct Hopt as (Hne & _). intros Hnil. rewrite Hnil in Hperm.
      by apply Permutation_nil_l in Hperm. }
    destruct out as [report|e]; [|destruct e; simpl in Hout; naive_solver].
    destruct Hout as [Hrep _], Hopt as (_ & Hsort & Hnd & _).
    eapply report_truncates; [done..|]. by eapply NoDup_fmap_1.
  - assert (∀ q, q ∉ run_quotes run) as Hnone.
    { intros q Hq. destruct (ro_quotes _ _ _ _ _ _ _ _ _ _ _ _ Hr q Hq) as [Hv Hpq].
      apply (valid_route_effective _ _ _ tokens) in Hv; [|done].
      destruct e'; try done; simpl in Hopt.
      - destruct Hopt as (_ & _ & Hno). by apply (Hno _ Hv).
      - destruct Hopt as (_ & _ & _ & Hall & Hfail). apply Hall in Hv.
        apply list_elem_of_fmap in Hv as (f & Hf & Hin). rewrite Hf in Hpq.
        by rewrite (Hfail f Hin) in Hpq. }
    destruct out as [report|e].
    { destruct Hout as [_ Hne]. specialize (Hne eq_refl).
      destruct (run_quotes run) as [|q qs]; [done|]. exfalso. apply (Hnone q). by left. }
    destruct e; simpl in Hout; try done.
    + destruct Hout as (-> & -> & Hnil & Hfail). destruct e'; try done; simpl in Hopt.
      * destruct Hopt as (-> & -> & _). done.
      * destruct Hopt as (Hn & Hn0 & _ & Hall & _). destruct failures as [|f fs]; [done|].
        assert (valid_route (as_graph s) ti to (exhaustive config) false (pf_path f)) as Hv
          by (apply Hall; by left).
        apply (valid_route_effective _ _ _ tokens) in Hv; [|done]. specialize (Hset _ Hv).
        unfold settled, covered in Hset. rewrite Hnil, Hfail in Hset.
        destruct (path_quote _ _ _ _ _ _); [|naive_solver].
        destruct Hset as [?|[? _]]; [set_solver|congruence].
    + destruct e'; done.
Qed.
End modes.
