(* ===== verification/Streaming.v ===== *)
(** * Streaming state ([StreamingRouteState], [src/search.rs])

    The state of a streaming search: the best and the top routes observed so
    far, the progress counters, the gate on the first quote-bearing events and
    the stop policy.  The caller's callback is a function of the events it has
    received so far: that is what a closure with captured state can compute, so
    the trace of the events stands for that state. *)

From S2P Require Import Prelude AmmState Config SearchTypes.

(** ** Phases, finality, control *)

Inductive RouteSearchPhase : Type := PhaseHeuristic | PhaseExhaustive.
Inductive StreamedRouteStatus : Type := Provisional | FinalWithinConfiguredSearch.
Inductive SearchFinality : Type :=
  | FastLaneOnly | HeuristicOnly | FinalityExhaustive | StopPolicySatisfied | Stopped.
Inductive SearchControl : Type := Continue | Stop.

#[export] Instance RouteSearchPhase_eq_dec : EqDecision RouteSearchPhase.
Proof. solve_decision. Defined.
#[export] Instance SearchFinality_eq_dec : EqDecision SearchFinality.
Proof. solve_decision. Defined.
#[export] Instance SearchControl_eq_dec : EqDecision SearchControl.
Proof. solve_decision. Defined.

Record StreamingPhaseStats := {
  ps_routes_observed : Z;
  ps_duplicate_paths_skipped : Z;
  ps_quote_cache : QuoteCacheStats;
  ps_liquidity_pruning : LiquidityPruneStats;
}.

Record RouteSearchProgress := {
  pr_phase : option RouteSearchPhase;
  pr_candidates_evaluated : Z;
  pr_viable_routes_observed : Z;
  pr_failed_candidates : Z;
  pr_duplicate_paths_skipped : Z;
  pr_total_candidates : option Z;
  pr_exhaustive_fraction_bps : option Z;
  pr_confidence_bps : Z;
  pr_best_amount_out : option U256;
}.

(** [StreamingThresholdPolicy::is_satisfied]. *)
Definition is_satisfied (p : StreamingThresholdPolicy) (progress : RouteSearchProgress) : bool :=
  let confidence_satisfied :=
    (λ threshold, threshold <=? pr_confidence_bps progress)%Z <$> min_confidence_bps p in
  let exhaustive_satisfied :=
    (λ threshold,
       match pr_exhaustive_fraction_bps progress with
       | Some fraction => (threshold <=? fraction)%Z
       | None => false
       end) <$> min_exhaustive_fraction_bps p in
  match threshold_mode p with
  | All => default true confidence_satisfied && default true exhaustive_satisfied
  | Any => default false confidence_satisfied || default false exhaustive_satisfied
  end.

Section streaming.
Context `{!AmmTypes}.

Record StreamingSearchReport := {
  rep_best : option RouteQuote;
  rep_top_routes : list RouteQuote;
  rep_heuristic_best : option RouteQuote;
  rep_finality : SearchFinality;
  rep_heuristic_was_final_best : option bool;
  rep_improvements_after_heuristic : Z;
  rep_routes_observed : Z;
  rep_duplicate_paths_skipped : Z;
  rep_quote_cache : QuoteCacheStats;
  rep_liquidity_pruning : LiquidityPruneStats;
  rep_progress : RouteSearchProgress;
  rep_initial_results_released : bool;
}.

Inductive RouteSearchEvent : Type :=
  | EvStarted (completion : StreamingCompletion)
  | EvRouteFound (phase : RouteSearchPhase) (rank : option nat) (quote : RouteQuote)
  | EvBestUpdated (phase : RouteSearchPhase) (quote : RouteQuote)
      (previous_best : option RouteQuote) (status : StreamedRouteStatus)
  | EvProgress (progress : RouteSearchProgress)
  | EvInitialResultsReady (progress : RouteSearchProgress) (best : RouteQuote)
      (top_routes : list RouteQuote)
  | EvPhaseCompleted (phase : RouteSearchPhase) (stats : StreamingPhaseStats)
  | EvCompleted (report : StreamingSearchReport).

(** The counters are [usize] values counted up by one per evaluated candidate;
    they are written as unbounded integers. *)
Record StreamingRouteState := {
  ss_config : StreamingSearchConfig;
  ss_best : option RouteQuote;
  ss_heuristic_best : option RouteQuote;
  ss_top_routes : list RouteQuote;
  ss_routes_observed : Z;
  ss_failed_candidates : Z;
  ss_duplicate_paths_skipped : Z;
  ss_improvements_after_heuristic : Z;
  ss_heuristic_phase_completed : bool;
  ss_progress_phase : option RouteSearchPhase;
  ss_total_candidates : option Z;
  ss_initial_results_released : bool;
  ss_stop_finality : option SearchFinality;
}.

Definition StreamingRouteState_new (config : StreamingSearchConfig) : StreamingRouteState :=
  {| ss_config := config; ss_best := None; ss_heuristic_best := None; ss_top_routes := [];
     ss_routes_observed := 0; ss_failed_candidates := 0; ss_duplicate_paths_skipped := 0;
     ss_improvements_after_heuristic := 0; ss_heuristic_phase_completed := false;
     ss_progress_phase := None; ss_total_candidates := None;
     ss_initial_results_released := bool_decide (initial_result_policy config = None);
     ss_stop_finality := None |}.

(** ** Field updates *)

Definition set_progress_phase (x : RouteSearchPhase) (s : StreamingRouteState) :=
  let '(Build_StreamingRouteState c b h t r f d i p _ n g e) := s in
  Build_StreamingRouteState c b h t r f d i p (Some x) n g e.
Definition set_stop_finality (x : SearchFinality) (s : StreamingRouteState) :=
  let '(Build_StreamingRouteState c b h t r f d i p ph n g _) := s in
  Build_StreamingRouteState c b h t r f d i p ph n g (Some x).
Definition set_best (x : RouteQuote) (s : StreamingRouteState) :=
  let '(Build_StreamingRouteState c _ h t r f d i p ph n g e) := s in
  Build_StreamingRouteState c (Some x) h t r f d i p ph n g e.
Definition set_top_routes (x : list RouteQuote) (s : StreamingRouteState) :=
  let '(Build_StreamingRouteState c b h _ r f d i p ph n g e) := s in
  Build_StreamingRouteState c b h x r f d i p ph n g e.
Definition set_released (s : StreamingRouteState) :=
  let '(Build_StreamingRouteState c b h t r f d i p ph n _ e) := s in
  Build_StreamingRouteState c b h t r f d i p ph n true e.
Definition add_routes_observed (x : Z) (s : StreamingRouteState) :=
  let '(Build_StreamingRouteState c b h t r f d i p ph n g e) := s in
  Build_StreamingRouteState c b h t (r + x) f d i p ph n g e.
Definition add_failed_candidates (x : Z) (s : StreamingRouteState) :=
  let '(Build_StreamingRouteState c b h t r f d i p ph n g e) := s in
  Build_StreamingRouteState c b h t r (f + x) d i p ph n g e.
Definition add_duplicates_skipped (x : Z) (s : StreamingRouteState) :=
  let '(Build_StreamingRouteState c b h t r f d i p ph n g e) := s in
  Build_StreamingRouteState c b h t r f (usize_saturating_add d x) i p ph n g e.
Definition add_improvements (x : Z) (s : StreamingRouteState) :=
  let '(Build_StreamingRouteState c b h t r f d i p ph n g e) := s in
  Build_StreamingRouteState c b h t r f d (i + x) p ph n g e.
Definition complete_heuristic (s : StreamingRouteState) :=
  let '(Build_StreamingRouteState c b _ t r f d i _ ph n g e) := s in
  Build_StreamingRouteState c b b t r f d i true ph n g e.
Definition set_total (x : Z) (s : StreamingRouteState) :=
  let '(Build_StreamingRouteState c b h t r f d i p ph _ g e) := s in
  Build_StreamingRouteState c b h t r f d i p ph (Some x) g e.

(** ** Progress *)

Definition candidates_evaluated (s : StreamingRouteState) : Z :=
  ss_routes_observed s + ss_failed_candidates s.

Definition exhaustive_fraction_bps (s : StreamingRouteState) : option Z :=
  total ← ss_total_candidates s;
  if decide (total = 0%Z) then Some 10000%Z
  else
    let capped := Z.min (candidates_evaluated s) total in
    let bps := (usize_saturating_mul capped 10000 `div` total)%Z in
    Some (Z.min bps 10000).

Definition confidence_bps (s : StreamingRouteState) (fraction_bps : option Z) : Z :=
  match ss_best s with
  | None => 0
  | Some _ =>
      if match ss_total_candidates s with
         | Some total => (0 <? total)%Z && (total <=? candidates_evaluated s)%Z
         | None => false
         end
      then 9999
      else
        match fraction_bps with
        | Some fraction => Z.min (9000 + fraction `div` 10) 9999
        | None => if ss_heuristic_phase_completed s then 9000 else 7000
        end
  end.

Definition progress (s : StreamingRouteState) : RouteSearchProgress :=
  {| pr_phase := ss_progress_phase s;
     pr_candidates_evaluated := candidates_evaluated s;
     pr_viable_routes_observed := ss_routes_observed s;
     pr_failed_candidates := ss_failed_candidates s;
     pr_duplicate_paths_skipped := ss_duplicate_paths_skipped s;
     pr_total_candidates := ss_total_candidates s;
     pr_exhaustive_fraction_bps := exhaustive_fraction_bps s;
     pr_confidence_bps := confidence_bps s (exhaustive_fraction_bps s);
     pr_best_amount_out := rq_amount_out <$> ss_best s |}.

Definition final_progress (s : StreamingRouteState) (finality : SearchFinality) :
    RouteSearchProgress :=
  let p := progress s in
  if decide (finality = FinalityExhaustive) then
    {| pr_phase := pr_phase p; pr_candidates_evaluated := pr_candidates_evaluated p;
       pr_viable_routes_observed := pr_viable_routes_observed p;
       pr_failed_candidates := pr_failed_candidates p;
       pr_duplicate_paths_skipped := pr_duplicate_paths_skipped p;
       pr_total_candidates := pr_total_candidates p;
       pr_exhaustive_fraction_bps := Some 10000%Z;
       pr_confidence_bps := if ss_best s then 10000 else 0;
       pr_best_amount_out := pr_best_amount_out p |}
  else p.

(** ** The retained routes *)

(** [iter().position(..).map(|index| index + 1)]. *)
Definition route_position (path : RoutePath) (routes : list RouteQuote) : option nat :=
  (λ '(index, _), index + 1) <$> list_find (λ q, rq_path q = path) routes.

Definition record_top_route (quote : RouteQuote) (s : StreamingRouteState) :
    option nat * StreamingRouteState :=
  if decide (Exists (λ existing, rq_path existing = rq_path quote) (ss_top_routes s))
  then (None, s)
  else
    let sorted := stable_sort (desc_by rq_amount_out) (ss_top_routes s ++ [quote]) in
    let rank := route_position (rq_path quote) sorted in
    (match rank with
     | Some rank => if rank <=? top_k (ss_config s) then Some rank else None
     | None => None
     end,
     set_top_routes (take (top_k (ss_config s)) sorted) s).

(** ** Events

    A run of a streaming operation: the state of the stream and the trace of
    the events the callback has received, oldest first. *)

Definition Stream : Type := StreamingRouteState * list RouteSearchEvent.
Definition Callback : Type := list RouteSearchEvent → RouteSearchEvent → SearchControl.

(** A streaming operation answers whether the search goes on. *)
Definition StreamOp : Type := Stream → bool * Stream.

Section events.
Context (on_event : Callback).

(** [emit_search_event]. *)
Definition emit_search_event (event : RouteSearchEvent) (st : Stream) : bool * Stream :=
  let '(s, trace) := st in
  (bool_decide (on_event trace event = Continue), (s, trace ++ [event])).

(** The callers' pattern: on a stop, record [Stopped] and return. *)
Definition emit_or_stop (event : RouteSearchEvent) (st : Stream) : bool * Stream :=
  match emit_search_event event st with
  | (true, st) => (true, st)
  | (false, (s, trace)) => (false, (set_stop_finality Stopped s, trace))
  end.

Definition release_initial_results (p : RouteSearchProgress) : StreamOp := λ '(s, trace),
  match ss_best s with
  | None => (true, (s, trace))
  | Some best =>
      emit_or_stop (EvInitialResultsReady p best (ss_top_routes s)) (set_released s, trace)
  end.

Definition policy_satisfied (policy : option StreamingThresholdPolicy)
    (p : RouteSearchProgress) : bool :=
  match policy with Some policy => is_satisfied policy p | None => false end.

(** The gate and the stop policy, after the progress event. *)
Definition apply_policies (p : RouteSearchProgress) : StreamOp := λ '(s, trace),
  let '(go_on, (s, trace)) :=
    if negb (ss_initial_results_released s) && bool_decide (is_Some (ss_best s)) &&
       policy_satisfied (initial_result_policy (ss_config s)) p
    then release_initial_results p (s, trace) else (true, (s, trace)) in
  if negb go_on then (false, (s, trace))
  else if bool_decide (is_Some (ss_best s)) && policy_satisfied (stop_policy (ss_config s)) p
  then (false, (set_stop_finality StopPolicySatisfied s, trace))
  else (true, (s, trace)).

Definition emit_progress_and_apply_policies (phase : RouteSearchPhase) : StreamOp :=
  λ '(s, trace),
  let s := set_progress_phase phase s in
  match emit_or_stop (EvProgress (progress s)) (s, trace) with
  | (false, st) => (false, st)
  | (true, st) => apply_policies (progress s) st
  end.

Definition just_released_initial_results (released_before : bool) (s : StreamingRouteState) :=
  negb released_before && ss_initial_results_released s.

(** The [RouteFound] event at the end of [observe_quote]. *)
Definition emit_route_found (phase : RouteSearchPhase) (top_rank : option nat)
    (quote : RouteQuote) : StreamOp := λ '(s, trace),
  if emit_all_viable (ss_config s) || bool_decide (is_Some top_rank)
  then emit_or_stop (EvRouteFound phase top_rank quote) (s, trace)
  else (true, (s, trace)).

Definition observe_quote (phase : RouteSearchPhase) (quote : RouteQuote) : StreamOp :=
  λ '(s, trace),
  let results_were_released := ss_initial_results_released s in
  let s := add_routes_observed 1 (set_progress_phase phase s) in
  let '(top_rank, s) := record_top_route quote s in
  let improves_best :=
    match ss_best s with
    | None => true
    | Some best => (rq_amount_out best <? rq_amount_out quote)%Z
    end in
  if improves_best then
    let s := if bool_decide (phase = PhaseExhaustive) &&
                bool_decide (is_Some (ss_heuristic_best s))
             then add_improvements 1 s else s in
    let previous_best := ss_best s in
    match emit_progress_and_apply_policies phase (set_best quote s, trace) with
    | (false, st) => (false, st)
    | (true, (s, trace)) =>
        if negb results_were_released || just_released_initial_results results_were_released s
        then (true, (s, trace))
        else
          match emit_or_stop (EvBestUpdated phase quote previous_best Provisional) (s, trace) with
          | (false, st) => (false, st)
          | (true, st) => emit_route_found phase top_rank quote st
          end
    end
  else
    match emit_progress_and_apply_policies phase (s, trace) with
    | (false, st) => (false, st)
    | (true, (s, trace)) =>
        if negb results_were_released || just_released_initial_results results_were_released s
        then (true, (s, trace))
        else emit_route_found phase top_rank quote (s, trace)
    end.

Definition observe_failed_candidates (phase : RouteSearchPhase) (count : Z) : StreamOp :=
  λ '(s, trace),
  if (count =? 0)%Z then (true, (s, trace))
  else
    emit_progress_and_apply_policies phase
      (add_failed_candidates count (set_progress_phase phase s), trace).

Definition finish_heuristic_phase : StreamOp := λ '(s, trace),
  emit_progress_and_apply_policies PhaseHeuristic
    (set_progress_phase PhaseHeuristic (complete_heuristic s), trace).

Definition set_total_candidates (total_candidates : Z) : StreamOp := λ '(s, trace),
  emit_progress_and_apply_policies PhaseExhaustive
    (set_progress_phase PhaseExhaustive
       (set_total (Z.max total_candidates (candidates_evaluated s)) s), trace).

Definition mark_exhaustive_complete (s : StreamingRouteState) : StreamingRouteState :=
  set_progress_phase PhaseExhaustive s.

(** ** Completion *)

(** The method [stop_finality]. *)
Definition final_stop_finality (s : StreamingRouteState) : SearchFinality :=
  default Stopped (ss_stop_finality s).
Definition should_emit_completion_for_stop (s : StreamingRouteState) : bool :=
  bool_decide (ss_stop_finality s = Some StopPolicySatisfied).

Definition release_initial_results_at_completion (finality : SearchFinality) : StreamOp :=
  λ '(s, trace),
  if ss_initial_results_released s || bool_decide (initial_result_policy (ss_config s) = None)
  then (true, (s, trace))
  else release_initial_results (final_progress s finality) (s, trace).

Definition phase_stats (s : StreamingRouteState) (qc : QuoteCacheStats)
    (pruning : LiquidityPruneStats) : StreamingPhaseStats :=
  {| ps_routes_observed := ss_routes_observed s;
     ps_duplicate_paths_skipped := ss_duplicate_paths_skipped s;
     ps_quote_cache := qc; ps_liquidity_pruning := pruning |}.

Definition report (s : StreamingRouteState) (finality : SearchFinality) (qc : QuoteCacheStats)
    (pruning : LiquidityPruneStats) : StreamingSearchReport :=
  {| rep_best := ss_best s;
     rep_top_routes := ss_top_routes s;
     rep_heuristic_best := ss_heuristic_best s;
     rep_finality := finality;
     rep_heuristic_was_final_best :=
       if decide (finality = FinalityExhaustive) then
         (λ best, bool_decide (ss_heuristic_best s = Some best)) <$> ss_best s
       else None;
     rep_improvements_after_heuristic := ss_improvements_after_heuristic s;
     rep_routes_observed := ss_routes_observed s;
     rep_duplicate_paths_skipped := ss_duplicate_paths_skipped s;
     rep_quote_cache := qc;
     rep_liquidity_pruning := pruning;
     rep_progress := final_progress s finality;
     rep_initial_results_released := ss_initial_results_released s |}.

(** [finish_stream_report]; what the callback answers to [Completed] is
    ignored. *)
Definition finish_stream_report (finality : SearchFinality) (qc : QuoteCacheStats)
    (pruning : LiquidityPruneStats) (emit_completed : bool) (st : Stream) :
    StreamingSearchReport * Stream :=
  let '(released, (s, trace)) := release_initial_results_at_completion finality st in
  let finality := if released then finality else Stopped in
  let r := report s finality qc pruning in
  (r, if emit_completed then (emit_search_event (EvCompleted r) (s, trace)).2 else (s, trace)).
End events.
End streaming.
