(* ===== verification/StreamingProps.v ===== *)
(** * Lemmas on the streaming state

    The calls a search makes on the streaming state, what each appends to the
    trace and the part of the state ([core]) the callback cannot influence. *)

From S2P Require Import Prelude AmmState Config SearchTypes Streaming.

(** The calls a search driver makes. *)
Inductive StreamInput `{!AmmTypes} : Type :=
  | InQuote (phase : RouteSearchPhase) (quote : RouteQuote)
  | InFailed (phase : RouteSearchPhase) (count : Z)
  | InHeuristicDone
  | InTotal (total : Z).

#[local] Arguments emit_progress_and_apply_policies : simpl never.
#[local] Arguments emit_or_stop : simpl never.
#[local] Arguments emit_route_found : simpl never.

Section streaming.
Context `{!AmmTypes} (on_event : Callback).
Implicit Types (s : StreamingRouteState) (tr : list RouteSearchEvent) (q : RouteQuote).

Definition stream_step (i : StreamInput) : StreamOp :=
  match i with
  | InQuote phase quote => observe_quote on_event phase quote
  | InFailed phase count => observe_failed_candidates on_event phase count
  | InHeuristicDone => finish_heuristic_phase on_event
  | InTotal total => set_total_candidates on_event total
  end.

(** The driver stops at the first call that answers [false]. *)
Fixpoint stream_run (ins : list StreamInput) (st : Stream) : bool * Stream :=
  match ins with
  | [] => (true, st)
  | i :: ins =>
      match stream_step i st with
      | (true, st) => stream_run ins st
      | (false, st) => (false, st)
      end
  end.

(** The streams reached by some calls, whatever they answered. *)
Inductive streamed (config : StreamingSearchConfig) : list StreamInput → Stream → Prop :=
  | streamed_new : streamed config [] (StreamingRouteState_new config,
                                       [EvStarted (completion config)])
  | streamed_step ins st i :
      streamed config ins st → streamed config (ins ++ [i]) (stream_step i st).2.

(** ** The part of the state the callback has no influence on *)

Definition core s :=
  (ss_config s, ss_best s, ss_heuristic_best s, ss_top_routes s,
   (ss_routes_observed s, ss_failed_candidates s, ss_duplicate_paths_skipped s,
    ss_improvements_after_heuristic s),
   ss_heuristic_phase_completed s, ss_total_candidates s).

Lemma progress_core s s' :
  core s = core s' → ss_progress_phase s = ss_progress_phase s' → progress s = progress s'.
Proof. destruct s, s'. unfold core. simpl. intros [= -> -> -> -> -> -> -> -> -> ->] ->. done. Qed.

(** The state a call has when it emits its progress event. *)
Definition quote_state (phase : RouteSearchPhase) q s : option nat * StreamingRouteState :=
  let s := add_routes_observed 1 (set_progress_phase phase s) in
  let '(rank, s) := record_top_route q s in
  (rank,
   if match ss_best s with
      | None => true
      | Some best => (rq_amount_out best <? rq_amount_out q)%Z
      end
   then set_best q (if bool_decide (phase = PhaseExhaustive) &&
                       bool_decide (is_Some (ss_heuristic_best s))
                    then add_improvements 1 s else s)
   else s).

Definition input_state (i : StreamInput) s : StreamingRouteState :=
  match i with
  | InQuote phase quote => (quote_state phase quote s).2
  | InFailed phase count => add_failed_candidates count (set_progress_phase phase s)
  | InHeuristicDone => set_progress_phase PhaseHeuristic (complete_heuristic s)
  | InTotal total =>
      set_progress_phase PhaseExhaustive
        (set_total (Z.max total (candidates_evaluated s)) s)
  end.

Definition quiet (i : StreamInput) : Prop :=
  match i with InFailed _ count => count = 0%Z | _ => False end.

(** ** What the callback answered *)

Fixpoint accepted tr (evs : list RouteSearchEvent) : Prop :=
  match evs with
  | [] => True
  | e :: evs => on_event tr e = Continue ∧ accepted (tr ++ [e]) evs
  end.

Lemma accepted_app tr evs evs' :
  accepted tr (evs ++ evs') ↔ accepted tr evs ∧ accepted (tr ++ evs) evs'.
Proof.
  revert tr. induction evs as [|e evs IH]; intros tr; simpl.
  - rewrite app_nil_r. naive_solver.
  - rewrite IH, <-app_assoc. naive_solver.
Qed.

(** The verdict of a call that appended [evs]: it continues when every event
    was accepted and the stop policy is not met; it stops on the first refused
    event, or because of the policy. *)
Definition stop_policy_met s : Prop :=
  is_Some (ss_best s) ∧ policy_satisfied (stop_policy (ss_config s)) (progress s) = true.

Definition verdict (ok : bool) s' tr (evs : list RouteSearchEvent) : Prop :=
  if ok then accepted tr evs ∧ ¬ stop_policy_met s'
  else
    (ss_stop_finality s' = Some Stopped ∧
     ∃ evs0 e, evs = evs0 ++ [e] ∧ accepted tr evs0 ∧ on_event (tr ++ evs0) e = Stop) ∨
    (ss_stop_finality s' = Some StopPolicySatisfied ∧ accepted tr evs ∧ stop_policy_met s').

Definition gate_met s : Prop :=
  is_Some (ss_best s) ∧
  policy_satisfied (initial_result_policy (ss_config s)) (progress s) = true.

(** The release event of a call, if the gate opened in it. *)
Definition released_by s s' (ready : list RouteSearchEvent) : Prop :=
  (ready = [] ∧ ss_initial_results_released s' = ss_initial_results_released s) ∨
  (∃ best, ready = [EvInitialResultsReady (progress s) best (ss_top_routes s)] ∧
     ss_best s = Some best ∧ ss_initial_results_released s = false ∧
     ss_initial_results_released s' = true ∧ gate_met s).

Definition quote_event (e : RouteSearchEvent) : Prop :=
  match e with EvRouteFound _ _ _ | EvBestUpdated _ _ _ _ => True | _ => False end.

(** Emitting progress from [s]. *)
Definition emitted s tr (ok : bool) s' tr' : Prop :=
  ∃ ready, tr' = tr ++ EvProgress (progress s) :: ready ∧
    core s' = core s ∧ ss_progress_phase s' = ss_progress_phase s ∧
    released_by s s' ready ∧
    (ok = true → gate_met s → ss_initial_results_released s' = true) ∧
    verdict ok s' tr (EvProgress (progress s) :: ready).

Lemma emit_or_stop_cases e s tr :
  (on_event tr e = Continue ∧ emit_or_stop on_event e (s, tr) = (true, (s, tr ++ [e]))) ∨
  (on_event tr e = Stop ∧
   emit_or_stop on_event e (s, tr) = (false, (set_stop_finality Stopped s, tr ++ [e]))).
Proof.
  unfold emit_or_stop, emit_search_event.
  destruct (on_event tr e) eqn:He; [left|right]; (split; [done|]).
  - by rewrite bool_decide_true.
  - by rewrite bool_decide_false.
Qed.

Lemma core_set_stop f s : core (set_stop_finality f s) = core s.
Proof. by destruct s. Qed.
Lemma core_set_released s : core (set_released s) = core s.
Proof. by destruct s. Qed.
Lemma core_set_phase ph s : core (set_progress_phase ph s) = core s.
Proof. by destruct s. Qed.
Lemma progress_set_stop f s : progress (set_stop_finality f s) = progress s.
Proof. by destruct s. Qed.
Lemma progress_set_released s : progress (set_released s) = progress s.
Proof. by destruct s. Qed.
Lemma stop_met_set_stop f s : stop_policy_met (set_stop_finality f s) ↔ stop_policy_met s.
Proof. by destruct s. Qed.
Lemma stop_met_set_released s : stop_policy_met (set_released s) ↔ stop_policy_met s.
Proof. by destruct s. Qed.

(** The second half of [apply_policies]. *)
Lemma stop_policy_step s tr evs ok s' tr' :
  accepted tr evs →
  (if bool_decide (is_Some (ss_best s)) &&
      policy_satisfied (stop_policy (ss_config s)) (progress s)
   then (false, (set_stop_finality StopPolicySatisfied s, tr ++ evs))
   else (true, (s, tr ++ evs))) = (ok, (s', tr')) →
  core s' = core s ∧ ss_progress_phase s' = ss_progress_phase s ∧
  ss_initial_results_released s' = ss_initial_results_released s ∧
  tr' = tr ++ evs ∧ verdict ok s' tr evs.
Proof.
  intros Hacc.
  destruct (bool_decide (is_Some (ss_best s))) eqn:Hb,
    (policy_satisfied (stop_policy (ss_config s)) (progress s)) eqn:Hp; simpl;
    intros [= <- <- <-]; split_and?; try done; try (by destruct s).
  - right. split; [by destruct s|]. split; [done|]. rewrite stop_met_set_stop. split; [|done].
    by apply bool_decide_eq_true in Hb.
  - split; [done|]. intros [_ Hq]. congruence.
  - split; [done|]. apply bool_decide_eq_false in Hb. by intros [??].
  - split; [done|]. intros [_ Hq]. congruence.
Qed.

Lemma released_by_flag s s1 s2 ready :
  ss_initial_results_released s1 = ss_initial_results_released s2 →
  released_by s s1 ready → released_by s s2 ready.
Proof. unfold released_by. intros ->. done. Qed.

Lemma apply_policies_spec s tr ok s' tr' :
  on_event tr (EvProgress (progress s)) = Continue →
  apply_policies on_event (progress s) (s, tr ++ [EvProgress (progress s)]) = (ok, (s', tr')) →
  emitted s tr ok s' tr'.
Proof.
  intros Hc. unfold apply_policies. set (e0 := EvProgress (progress s)) in *.
  destruct (negb (ss_initial_results_released s) && bool_decide (is_Some (ss_best s)) &&
            policy_satisfied (initial_result_policy (ss_config s)) (progress s)) eqn:Hg.
  - apply andb_prop in Hg as [Hg Hp]. apply andb_prop in Hg as [Hr Hb].
    apply negb_true_iff in Hr. apply bool_decide_eq_true in Hb as [best Hb].
    unfold release_initial_results. rewrite Hb.
    set (e1 := EvInitialResultsReady (progress s) best (ss_top_routes s)).
    assert (released_by s (set_released s) [e1]) as Hrel.
    { right. exists best. unfold gate_met. rewrite Hb. split_and!; try done. by destruct s. }
    destruct (emit_or_stop_cases e1 (set_released s) (tr ++ [e0])) as [[He ->]|[He ->]].
    + cbn [negb]. rewrite <-app_assoc. change ([e0] ++ [e1]) with [e0; e1].
      rewrite <-(progress_set_released s) at 1. intros Hstep.
      apply stop_policy_step in Hstep as (?&?&?&->&?); [|by simpl]. exists [e1].
      rewrite core_set_released in *. split_and!; try done.
      * destruct s; simpl in *; congruence.
      * by eapply released_by_flag.
      * intros _ _. destruct s; simpl in *; congruence.
    + intros [= <- <- <-]. exists [e1]. rewrite <-app_assoc. split; [done|].
      rewrite core_set_stop, core_set_released. split; [done|]. split; [by destruct s|].
      split; [eapply released_by_flag; [|exact Hrel]; by destruct s|].
      split; [done|]. left. split; [by destruct s|]. exists [e0], e1. done.
  - cbn [negb]. intros Hstep.
    apply stop_policy_step in Hstep as (?&?&?&->&?); [|by simpl].
    exists []. split_and!; try done.
    + by left.
    + intros -> [Hb Hp]. rewrite Hp, (bool_decide_true _ Hb) in Hg.
      destruct (ss_initial_results_released s); [congruence|done].
Qed.

Lemma emit_progress_spec ph s tr ok s' tr' :
  emit_progress_and_apply_policies on_event ph (s, tr) = (ok, (s', tr')) →
  emitted (set_progress_phase ph s) tr ok s' tr'.
Proof.
  unfold emit_progress_and_apply_policies.
  destruct (emit_or_stop_cases (EvProgress (progress (set_progress_phase ph s)))
              (set_progress_phase ph s) tr) as [[He ->]|[He ->]].
  - by apply apply_policies_spec.
  - intros [= <- <- <-]. exists []. rewrite core_set_stop. split_and!; try done.
    + by destruct s.
    + left. by destruct s.
    + left. split; [by destruct s|]. exists [], (EvProgress (progress (set_progress_phase ph s))).
      by rewrite app_nil_r.
Qed.

(** ** One call *)

(** A call that is not quiet emits progress from [input_state], then, when the
    results were released before it, the events of the quote. *)
Definition stepped (i : StreamInput) s tr (ok : bool) s' tr' : Prop :=
  ∃ ready quotes,
    let s1 := input_state i s in
    let evs := EvProgress (progress s1) :: ready ++ quotes in
    tr' = tr ++ evs ∧ core s' = core s1 ∧ ss_progress_phase s' = ss_progress_phase s1 ∧
    released_by s1 s' ready ∧ Forall quote_event quotes ∧
    (quotes ≠ [] → ss_initial_results_released s = true) ∧
    (ok = true → gate_met s1 → ss_initial_results_released s' = true) ∧
    verdict ok s' tr evs.

Lemma emitted_stepped i s tr ok s' tr' :
  emitted (input_state i s) tr ok s' tr' → stepped i s tr ok s' tr'.
Proof.
  intros (ready & -> & ? & ? & ? & ? & ?). exists ready, []. cbv zeta. rewrite app_nil_r.
  split_and!; done.
Qed.

(** One more event after [evs]. *)
Lemma emit_more s tr evs e ok s' tr' :
  emit_or_stop on_event e (s, tr ++ evs) = (ok, (s', tr')) → verdict true s tr evs →
  tr' = tr ++ evs ++ [e] ∧ core s' = core s ∧ ss_progress_phase s' = ss_progress_phase s ∧
  ss_initial_results_released s' = ss_initial_results_released s ∧
  verdict ok s' tr (evs ++ [e]).
Proof.
  intros He [Hacc Hpol].
  destruct (emit_or_stop_cases e s (tr ++ evs)) as [[Hc Heq]|[Hc Heq]];
    rewrite Heq in He; injection He as <- <- <-; rewrite <-app_assoc; split_and?; try done.
  - split; [|done]. apply accepted_app. by split; [|split].
  - by destruct s.
  - by destruct s.
  - by destruct s.
  - left. split; [by destruct s|]. by exists evs, e.
Qed.

Lemma emit_route_found_spec ph rank q s tr evs ok s' tr' :
  emit_route_found on_event ph rank q (s, tr ++ evs) = (ok, (s', tr')) →
  verdict true s tr evs →
  ∃ quotes, tr' = tr ++ evs ++ quotes ∧
    quotes = (if emit_all_viable (ss_config s) || bool_decide (is_Some rank)
              then [EvRouteFound ph rank q] else []) ∧
    core s' = core s ∧ ss_progress_phase s' = ss_progress_phase s ∧
    ss_initial_results_released s' = ss_initial_results_released s ∧
    verdict ok s' tr (evs ++ quotes).
Proof.
  unfold emit_route_found. intros Heq Hv. case_match_goal.
  - eapply emit_more in Heq as (-> & ? & ? & ? & ?); [|done]. eexists. by split_and!.
  - injection Heq as <- <- <-. exists []. by rewrite !app_nil_r.
Qed.

Definition improves q s : bool :=
  match ss_best s with
  | None => true
  | Some best => (rq_amount_out best <? rq_amount_out q)%Z
  end.

(** The events an observed quote is due once the results are released. *)
Definition quote_events (ph : RouteSearchPhase) q s : list RouteSearchEvent :=
  let rank := (quote_state ph q s).1 in
  (if improves q s then [EvBestUpdated ph q (ss_best s) Provisional] else []) ++
  (if emit_all_viable (ss_config s) || bool_decide (is_Some rank)
   then [EvRouteFound ph rank q] else []).

Lemma record_top_route_frame q s rank s' :
  record_top_route q s = (rank, s') →
  ∃ top, s' = set_top_routes top s.
Proof.
  unfold record_top_route. case_decide; intros [= <- <-]; [|by eexists].
  exists (ss_top_routes s). by destruct s.
Qed.

Lemma set_phase_idem ph s : ss_progress_phase s = Some ph → set_progress_phase ph s = s.
Proof. destruct s. simpl. by intros ->. Qed.

Lemma core_config s s' : core s = core s' → ss_config s = ss_config s'.
Proof. unfold core. congruence. Qed.
Lemma core_best s s' : core s = core s' → ss_best s = ss_best s'.
Proof. unfold core. congruence. Qed.

(** [observe_quote] is the progress step, then the events of the quote unless
    the results are gated or were released in this very call. *)
Lemma observe_quote_unfold ph q s tr :
  observe_quote on_event ph q (s, tr) =
  let '(rank, s1) := quote_state ph q s in
  match emit_progress_and_apply_policies on_event ph (s1, tr) with
  | (false, st) => (false, st)
  | (true, (s2, tr2)) =>
      if ss_initial_results_released s then
        if improves q s then
          match emit_or_stop on_event (EvBestUpdated ph q (ss_best s) Provisional) (s2, tr2) with
          | (false, st) => (false, st)
          | (true, st) => emit_route_found on_event ph rank q st
          end
        else emit_route_found on_event ph rank q (s2, tr2)
      else (true, (s2, tr2))
  end.
Proof.
  unfold observe_quote, quote_state, improves.
  destruct (record_top_route q _) as [rank s1] eqn:Hrec.
  apply record_top_route_frame in Hrec as [top ->].
  unfold just_released_initial_results. destruct s as [c b h t r f d i p pn n g e]; simpl.
  destruct (bool_decide (ph = PhaseExhaustive) && bool_decide (is_Some h)); simpl;
    destruct (match b with Some _ => _ | None => _ end); simpl; destruct g; simpl;
    repeat case_match_goal; done.
Qed.

Lemma quote_state_frame ph q s :
  ss_progress_phase (quote_state ph q s).2 = Some ph ∧
  ss_config (quote_state ph q s).2 = ss_config s ∧
  ss_initial_results_released (quote_state ph q s).2 = ss_initial_results_released s ∧
  ss_best (quote_state ph q s).2 = (if improves q s then Some q else ss_best s).
Proof.
  unfold quote_state, improves. destruct (record_top_route q _) as [rank s1] eqn:Hrec.
  apply record_top_route_frame in Hrec as [top ->].
  destruct s; simpl. repeat case_match_goal; done.
Qed.

Lemma observe_quote_spec ph q s tr ok s' tr' :
  observe_quote on_event ph q (s, tr) = (ok, (s', tr')) →
  ∃ ready quotes,
    let s1 := (quote_state ph q s).2 in
    let evs := EvProgress (progress s1) :: ready ++ quotes in
    tr' = tr ++ evs ∧ core s' = core s1 ∧ ss_progress_phase s' = ss_progress_phase s1 ∧
    released_by s1 s' ready ∧
    quotes `prefix_of` quote_events ph q s ∧
    (quotes ≠ [] → ss_initial_results_released s = true) ∧
    (ok = true → ss_initial_results_released s = true → quotes = quote_events ph q s) ∧
    (ok = true → gate_met s1 → ss_initial_results_released s' = true) ∧
    verdict ok s' tr evs.
Proof.
  rewrite observe_quote_unfold. unfold quote_events.
  destruct (quote_state_frame ph q s) as (Hph & Hcfg & Hrel & Hbest).
  destruct (quote_state ph q s) as [rank s1]. simpl in *.
  destruct (emit_progress_and_apply_policies on_event ph (s1, tr)) as [ok1 [s2 tr2]] eqn:He.
  apply emit_progress_spec in He. rewrite set_phase_idem in He by done.
  destruct He as (ready & -> & Hcore & Hph2 & Hready & Hgate & Hv).
  assert (ss_config s2 = ss_config s) as Hcfg2 by (by rewrite (core_config _ _ Hcore)).
  destruct ok1; cycle 1.
  { intros [= <- <- <-]. exists ready, []. rewrite app_nil_r. split_and!; try done.
    apply prefix_nil. }
  destruct (ss_initial_results_released s) eqn:Hr0; cycle 1.
  { intros [= <- <- <-]. exists ready, []. rewrite app_nil_r. split_and!; try done.
    apply prefix_nil. }
  assert (released_by s1 s2 ready → ss_initial_results_released s2 = true) as Hr2.
  { intros [[_ ->]|(?&_&_&?&_)]; congruence. }
  specialize (Hr2 Hready).
  destruct (improves q s); [destruct (emit_or_stop on_event _ _) as [ok3 [s3 tr3]] eqn:He3|].
  - apply emit_more in He3 as (-> & Hc3 & Hp3 & Hr3 & Hv3); [|done].
    destruct ok3; cycle 1.
    + intros [= <- <- <-]. exists ready, [EvBestUpdated ph q (ss_best s) Provisional].
      split_and!; try done; try congruence.
      * eapply released_by_flag; [|done]. congruence.
      * by apply prefix_app_r.
    + intros He4. apply emit_route_found_spec in He4 as (quotes & -> & Hq & Hc4 & Hp4 & Hr4 & Hv4);
        [|done].
      assert (ss_config s3 = ss_config s) as Hcfg3 by (by rewrite (core_config _ _ Hc3)).
      exists ready, (EvBestUpdated ph q (ss_best s) Provisional :: quotes).
      rewrite Hcfg3 in Hq. rewrite Hq in *.
      rewrite <-app_assoc in Hv4. simpl in Hv4. rewrite <-!app_assoc. 
      split_and!; try done; try congruence.
      eapply released_by_flag; [|done]. congruence.
  - intros He4. apply emit_route_found_spec in He4 as (quotes & -> & Hq & Hc4 & Hp4 & Hr4 & Hv4);
      [|done].
    exists ready, quotes. rewrite Hcfg2 in Hq. rewrite Hq in *.
    split_and!; try done; try congruence.
    eapply released_by_flag; [|done]. congruence.
Qed.

Lemma quote_events_quote ph q s : Forall quote_event (quote_events ph q s).
Proof. unfold quote_events. repeat case_match_goal; repeat constructor. Qed.

Lemma stream_step_spec i s tr ok s' tr' :
  stream_step i (s, tr) = (ok, (s', tr')) →
  (quiet i ∧ ok = true ∧ s' = s ∧ tr' = tr) ∨ (¬ quiet i ∧ stepped i s tr ok s' tr').
Proof.
  destruct i as [ph q|ph n| |n]; simpl; intros Hs.
  - right. split; [tauto|].
    apply observe_quote_spec in Hs as (ready & quotes & ? & ? & ? & ? & Hq & ? & ? & ? & ?).
    exists ready, quotes. split_and!; try done.
    destruct Hq as [k Hk]. pose proof (quote_events_quote ph q s) as Hall.
    rewrite Hk in Hall. by apply Forall_app in Hall as [? _].
  - unfold observe_failed_candidates in Hs. destruct (n =? 0)%Z eqn:Hn.
    + left. injection Hs as <- <- <-. apply Z.eqb_eq in Hn. done.
    + right. apply Z.eqb_neq in Hn. split; [done|]. apply emitted_stepped.
      apply emit_progress_spec in Hs. rewrite set_phase_idem in Hs by (by destruct s).
      done.
  - right. split; [tauto|]. apply emitted_stepped. apply emit_progress_spec in Hs.
    rewrite set_phase_idem in Hs by (by destruct s). done.
  - right. split; [tauto|]. apply emitted_stepped. apply emit_progress_spec in Hs.
    rewrite set_phase_idem in Hs by (by destruct s). done.
Qed.

Lemma step_core i s tr ok s' tr' :
  stream_step i (s, tr) = (ok, (s', tr')) → core s' = core (input_state i s).
Proof.
  intros Hs. apply stream_step_spec in Hs as [(Hq & _ & -> & _)|(_ & ? & ? & _ & ? & _)].
  - destruct i; simpl in *; try done. subst. destruct s. unfold core. simpl.
    by rewrite Z.add_0_r.
  - done.
Qed.

(** Every stream is reached by a step from a stream. *)
Lemma streamed_run config ins ins0 st :
  streamed config ins0 st →
  ∃ done_, done_ `prefix_of` ins ∧ streamed config (ins0 ++ done_) (stream_run ins st).2 ∧
    ((stream_run ins st).1 = true → done_ = ins).
Proof.
  revert ins0 st. induction ins as [|i ins IH]; intros ins0 st Hst; simpl.
  - exists []. rewrite app_nil_r. done.
  - pose proof (streamed_step _ _ _ i Hst) as Hst'.
    destruct (stream_step i st) as [[] st'].
    + destruct (IH _ _ Hst') as (d & Hd & Hr & Hok). exists (i :: d).
      rewrite <-app_assoc in Hr. split_and!; [by apply prefix_cons|done|].
      intros Hr'. f_equal. auto.
    + exists [i]. split_and!; [by apply prefix_cons, prefix_nil|done|done].
Qed.
End streaming.
