(* ===== verification/StreamingTheorems.v ===== *)
(** * Correctness of the streaming state

    What a streaming search reports: the ranking it retains, the events a quote
    produces, the gate on the first results, the stop policy and the callback's
    answers, the progress figures and the final report. *)

From S2P Require Import Prelude AmmState Config SearchTypes Streaming StreamingProps.

#[local] Arguments emit_progress_and_apply_policies : simpl never.
#[local] Arguments emit_or_stop : simpl never.

Section streaming.
Context `{!AmmTypes} (on_event : Callback).
Implicit Types (s : StreamingRouteState) (tr : list RouteSearchEvent) (q : RouteQuote).
Implicit Types (ins : list StreamInput) (config : StreamingSearchConfig).

Notation streamed := (streamed on_event).

(** ** The quotes and failures of a run *)

Definition input_quote (i : StreamInput) : option RouteQuote :=
  match i with InQuote _ q => Some q | _ => None end.
Definition input_failed (i : StreamInput) : Z :=
  match i with InFailed _ n => n | _ => 0 end.
Definition quotes_of ins : list RouteQuote := omap input_quote ins.
Definition failed_of ins : Z := foldr Z.add 0%Z (input_failed <$> ins).

(** The full ranking of the quotes: by output, ties in order of arrival. *)
Definition ranking (qs : list RouteQuote) : list RouteQuote :=
  stable_sort (desc_by rq_amount_out) qs.

Lemma quotes_of_app ins ins' : quotes_of (ins ++ ins') = quotes_of ins ++ quotes_of ins'.
Proof. unfold quotes_of. induction ins as [|[] ins IH]; csimpl; by rewrite ?IH. Qed.

Lemma failed_of_snoc ins i : failed_of (ins ++ [i]) = (failed_of ins + input_failed i)%Z.
Proof.
  unfold failed_of. rewrite fmap_app, foldr_app. simpl.
  induction ins as [|j ins IH]; csimpl; [lia|]. rewrite IH. lia.
Qed.

Lemma streamed_snoc config ins (P : list StreamInput → StreamingRouteState → Prop) st :
  (∀ ins s s', core s = core s' → P ins s → P ins s') →
  P [] (StreamingRouteState_new config) →
  (∀ ins s i, P ins s → P (ins ++ [i]) (input_state i s)) →
  streamed config ins st → P ins st.1.
Proof.
  intros Hcore Hnew Hstep. induction 1 as [|ins [s tr] i Hst IH]; [done|].
  destruct (stream_step on_event i (s, tr)) as [ok [s' tr']] eqn:Hs. simpl in *.
  apply step_core in Hs. eapply Hcore; [by symmetry|]. auto.
Qed.

Lemma head_insert_last q m :
  head (insert_last (desc_by rq_amount_out) q m) =
  match head m with
  | None => Some q
  | Some best => if (rq_amount_out best <? rq_amount_out q)%Z then Some q else Some best
  end.
Proof.
  destruct m as [|b m]; simpl; [done|]. unfold desc_by.
  destruct (Z.ltb_spec (rq_amount_out b) (rq_amount_out q)).
  - by rewrite bool_decide_false by lia.
  - by rewrite bool_decide_true by lia.
Qed.

Lemma ranking_snoc qs q : ranking (qs ++ [q]) = insert_last (desc_by rq_amount_out) q (ranking qs).
Proof. apply stable_sort_snoc; eauto with amm. Qed.

Lemma take_ranking_snoc n qs q :
  take n (ranking (take n (ranking qs) ++ [q])) = take n (ranking (qs ++ [q])).
Proof. apply take_stable_sort_snoc; eauto with amm. Qed.

Lemma elem_of_ranking q qs : q ∈ ranking qs ↔ q ∈ qs.
Proof. apply elem_of_stable_sort. Qed.

(** [record_top_route] on a new path. *)
Lemma record_top_route_new q s qs :
  ss_top_routes s = take (top_k (ss_config s)) (ranking qs) →
  NoDup (rq_path <$> qs ++ [q]) →
  (record_top_route q s).2 =
    set_top_routes (take (top_k (ss_config s)) (ranking (qs ++ [q]))) s ∧
  ∀ r, (record_top_route q s).1 = Some (S r) ↔
       r < top_k (ss_config s) ∧ ranking (qs ++ [q]) !! r = Some q.
Proof.
  intros Htop Hnd. pose proof Hnd as Hnd'. rewrite fmap_app in Hnd. apply NoDup_app in Hnd as (Hnd & Hq & _).
  unfold record_top_route. rewrite Htop, decide_False; cycle 1.
  { rewrite Exists_exists. intros (e & He & Hp).
    assert (e ∈ ranking qs) as Her.
    { rewrite <-(take_drop (top_k (ss_config s)) (ranking qs)). set_solver. }
    rewrite elem_of_ranking in Her. apply (Hq (rq_path e)); [apply list_elem_of_fmap; by exists e|].
    rewrite Hp. set_solver. }
  rewrite <-(take_ranking_snoc _ qs q).
  set (k := top_k (ss_config s)) in *.
  set (sorted := ranking (take k (ranking qs) ++ [q])). simpl.
  split; [done|]. intros r.
  assert (∀ e, e ∈ sorted → rq_path e = rq_path q → e = q) as Huniq.
  { intros e He Hp. unfold sorted in He. rewrite elem_of_ranking, elem_of_app in He.
    destruct He as [He|He]; [|set_solver].
    assert (e ∈ ranking qs) as Her by (rewrite <-(take_drop k (ranking qs)); set_solver).
    rewrite elem_of_ranking in Her. exfalso.
    apply (Hq (rq_path e)); [apply list_elem_of_fmap; by exists e|]. rewrite Hp. set_solver. }
  assert (∀ i, i < k → sorted !! i = ranking (qs ++ [q]) !! i) as Hlook.
  { intros i Hi. rewrite <-(lookup_take_lt sorted k i Hi).
    unfold sorted. by rewrite take_ranking_snoc, lookup_take_lt. }
  unfold route_position.
  change (stable_sort (desc_by rq_amount_out) (take k (ranking qs) ++ [q])) with sorted.
  split.
  - destruct (list_find (λ e, rq_path e = rq_path q) sorted) as [[i e]|] eqn:Hfind; simpl; [|done].
    apply list_find_Some in Hfind as (Hi & Hp & _).
    destruct (Nat.leb_spec (i + 1) k); [|done]. intros [= ?]. assert (i = r) as -> by lia.
    split; [lia|]. rewrite <-Hlook by lia. rewrite Hi. f_equal.
    apply Huniq; [by eapply list_elem_of_lookup_2|done].
  - intros [Hr Hrank]. rewrite <-Hlook in Hrank by done.
    assert (is_Some (list_find (λ e, rq_path e = rq_path q) sorted)) as [[i e] Hfind].
    { eapply list_find_elem_of; [by eapply list_elem_of_lookup_2|done]. }
    rewrite Hfind. simpl. apply list_find_Some in Hfind as (Hi & Hp & Hfirst).
    assert (i ≤ r) as Hir.
    { destruct (decide (i ≤ r)); [done|]. exfalso. eapply (Hfirst r); [done|lia|done]. }
    assert (i = r) as ->.
    { apply (NoDup_lookup (rq_path <$> ranking (qs ++ [q])) i r (rq_path q)).
      - unfold ranking. rewrite stable_sort_perm. exact Hnd'.
      - rewrite list_lookup_fmap, <-Hlook, Hi by lia. simpl. by rewrite Hp.
      - by rewrite list_lookup_fmap, <-Hlook, Hrank by lia. }
    destruct (Nat.leb_spec (r + 1) k); [|lia]. f_equal. lia.
Qed.

(** ** The retained ranking *)

Definition observed_ok config ins s : Prop :=
  ss_config s = config ∧
  ss_best s = head (ranking (quotes_of ins)) ∧
  ss_routes_observed s = Z.of_nat (length (quotes_of ins)) ∧
  ss_failed_candidates s = failed_of ins ∧
  (NoDup (rq_path <$> quotes_of ins) →
   ss_top_routes s = take (top_k config) (ranking (quotes_of ins))).

Lemma observed_ok_core config ins s s' :
  core s = core s' → observed_ok config ins s → observed_ok config ins s'.
Proof. unfold core, observed_ok. intros [= -> -> _ -> -> -> _ _ _ _]. done. Qed.

Lemma quote_state_observed ph q s :
  ss_routes_observed (quote_state ph q s).2 = (ss_routes_observed s + 1)%Z ∧
  ss_failed_candidates (quote_state ph q s).2 = ss_failed_candidates s ∧
  ss_top_routes (quote_state ph q s).2 = ss_top_routes (record_top_route q s).2 ∧
  (quote_state ph q s).1 = (record_top_route q s).1.
Proof.
  unfold quote_state, record_top_route. destruct s; simpl. case_decide; simpl;
    repeat case_match_goal; done.
Qed.

Lemma NoDup_paths_snoc qs q :
  NoDup (rq_path <$> qs ++ [q]) → NoDup (rq_path <$> qs).
Proof. rewrite fmap_app. by intros [? _]%NoDup_app. Qed.

(** The head of a ranking is the highest quote. *)
Lemma head_ranking_max qs b q :
  head (ranking qs) = Some b → q ∈ qs → (rq_amount_out q <= rq_amount_out b)%Z.
Proof.
  intros Hh Hq. rewrite <-elem_of_ranking in Hq. unfold ranking in *.
  pose proof (stable_sort_sorted (desc_by rq_amount_out) (desc_by_total _) (desc_by_trans _) qs)
    as Hs.
  destruct (stable_sort _ qs) as [|x l]; [done|]. injection Hh as ->.
  apply StronglySorted_inv in Hs as [_ Hall]. apply elem_of_cons in Hq as [->|Hq]; [lia|].
  rewrite Forall_forall in Hall. apply Hall in Hq. unfold desc_by in Hq.
  by rewrite bool_decide_eq_true in Hq.
Qed.

Lemma head_ranking_elem qs b : head (ranking qs) = Some b → b ∈ qs.
Proof.
  intros Hh. apply elem_of_ranking. destruct (ranking qs); [done|].
  injection Hh as ->. set_solver.
Qed.

Lemma head_ranking_None qs : head (ranking qs) = None → qs = [].
Proof.
  intros Hh. destruct qs as [|q qs]; [done|].
  assert (q ∈ ranking (q :: qs)) as Hq by (rewrite elem_of_ranking; set_solver).
  destruct (ranking (q :: qs)); [set_solver|done].
Qed.

Lemma improves_spec qs q s :
  ss_best s = head (ranking qs) →
  improves q s =
  bool_decide (Forall (λ q', (rq_amount_out q' < rq_amount_out q)%Z) qs).
Proof.
  intros Hb. unfold improves. rewrite Hb. symmetry.
  destruct (head (ranking qs)) as [b|] eqn:Hh.
  - destruct (Z.ltb_spec (rq_amount_out b) (rq_amount_out q)).
    + apply bool_decide_true, Forall_forall. intros q' Hq'. pose proof (head_ranking_max _ _ _ Hh Hq'). lia.
    + apply bool_decide_false. rewrite Forall_forall. intros Hall. apply head_ranking_elem, Hall in Hh. lia.
  - apply bool_decide_true. by apply head_ranking_None in Hh as ->.
Qed.

Lemma observed_ok_quote config ins s ph q :
  observed_ok config ins s →
  observed_ok config (ins ++ [InQuote ph q]) (quote_state ph q s).2.
Proof.
  intros (Hcfg & Hbest & Hobs & Hfail & Htop).
  destruct (quote_state_frame ph q s) as (_ & Hc & _ & Hb).
  destruct (quote_state_observed ph q s) as (Ho & Hf & Ht & _).
  unfold observed_ok. rewrite Hc, Hb, Ho, Hf, Ht, quotes_of_app, failed_of_snoc. simpl.
  rewrite ranking_snoc, head_insert_last, length_app. simpl.
  split_and!; [done| |lia|lia|].
  - unfold improves. rewrite Hbest. destruct (head (ranking (quotes_of ins))); [|done].
    by destruct (_ <? _)%Z.
  - intros Hnd. subst config. apply NoDup_paths_snoc in Hnd as Hnd'.
    rewrite (proj1 (record_top_route_new q s (quotes_of ins) (Htop Hnd') Hnd)).
    destruct s. simpl. by rewrite ranking_snoc.
Qed.

Lemma observed_ok_new config : observed_ok config [] (StreamingRouteState_new config).
Proof.
  unfold observed_ok. simpl. split_and!; [done..|]. intros _. by destruct (top_k config).
Qed.

Lemma observed_ok_input config ins s i :
  observed_ok config ins s → observed_ok config (ins ++ [i]) (input_state i s).
Proof.
  intros Hok. destruct i as [ph q|ph n| |n]; [by apply observed_ok_quote|..];
    destruct s; destruct Hok as (?&?&?&?&?); simpl in *; unfold observed_ok;
    rewrite quotes_of_app, failed_of_snoc, app_nil_r; simpl; split_and!; try done; lia.
Qed.

Lemma streamed_observed config ins s tr :
  streamed config ins (s, tr) → observed_ok config ins s.
Proof.
  apply (streamed_snoc config ins (observed_ok config) (s, tr)).
  - intros ???. apply observed_ok_core.
  - apply observed_ok_new.
  - intros ???. apply observed_ok_input.
Qed.

(** C29: whatever calls a streaming search makes and whatever the callback
    answers, the state's best route is the first of the highest quotes observed
    so far, the counters count the quotes and the failed candidates, and, when
    no path is quoted twice, the retained routes are the first [top_k] of the
    ranking of all quotes by output (ties in order of arrival), although each
    step only re-sorts the routes retained before it. *)
Theorem streaming_ranking_correct config ins s tr :
  streamed config ins (s, tr) →
  ss_best s = head (ranking (quotes_of ins)) ∧
  ss_routes_observed s = Z.of_nat (length (quotes_of ins)) ∧
  ss_failed_candidates s = failed_of ins ∧
  (NoDup (rq_path <$> quotes_of ins) →
   ss_top_routes s = take (top_k config) (ranking (quotes_of ins))).
Proof. intros Hst. by apply streamed_observed in Hst as (_ & ?). Qed.

(** the events of an accepted quote once the initial results are out: one
    [Progress]; [BestUpdated] with the previous best exactly when the quote is
    strictly higher than every earlier one; [RouteFound] exactly when every
    viable route is to be emitted or the quote enters the retained set, with
    its rank in the ranking of all quotes. *)
Theorem observe_quote_events config ins s tr ph q s' tr' :
  streamed config ins (s, tr) →
  NoDup (rq_path <$> quotes_of ins ++ [q]) →
  ss_initial_results_released s = true →
  observe_quote on_event ph q (s, tr) = (true, (s', tr')) →
  ∃ rank,
    tr' = tr ++ EvProgress (progress s') ::
      (if decide (Forall (λ q', (rq_amount_out q' < rq_amount_out q)%Z) (quotes_of ins))
       then [EvBestUpdated ph q (head (ranking (quotes_of ins))) Provisional] else []) ++
      (if emit_all_viable config || bool_decide (is_Some rank)
       then [EvRouteFound ph rank q] else []) ∧
    (∀ r, rank = Some (S r) ↔
          r < top_k config ∧ ranking (quotes_of ins ++ [q]) !! r = Some q) ∧
    rank ≠ Some 0.
Proof.
  intros Hst Hnd Hrel Hq. apply streamed_observed in Hst as (Hcfg & Hbest & _ & _ & Htop).
  apply observe_quote_spec in Hq as
    (ready & quotes & -> & Hcore & Hph & Hready & _ & _ & Hquotes & _ & _).
  exists (quote_state ph q s).1. destruct (quote_state_observed ph q s) as (_ & _ & _ & Hrank).
  destruct (quote_state_frame ph q s) as (_ & _ & Hr1 & _).
  assert (ready = []) as ->.
  { destruct Hready as [[-> _]|(?&_&_&?&_)]; [done|congruence]. }
  rewrite (Hquotes eq_refl Hrel). unfold quote_events. rewrite Hbest, Hcfg.
  rewrite (progress_core s' _ Hcore Hph). split_and!.
  - simpl. rewrite (improves_spec _ q s Hbest). by case_bool_decide; case_decide.
  - rewrite Hrank. subst config. apply record_top_route_new; [|done].
    by apply Htop, (NoDup_paths_snoc _ q).
  - rewrite Hrank. unfold record_top_route. case_decide; simpl; [done|].
    unfold route_position. destruct (list_find (λ e, rq_path e = rq_path q) _) as [[]|];
      simpl; [|done].
    case_match_goal; [|done]. intros [=]. lia.
Qed.

(** ** The gate on the initial results *)

Definition ready_event (e : RouteSearchEvent) : Prop :=
  match e with EvInitialResultsReady _ _ _ => True | _ => False end.
Definition held_back (e : RouteSearchEvent) : Prop := ¬ quote_event e ∧ ¬ ready_event e.

(** The shape of a trace under the gate [policy]: nothing that bears a quote,
    or one release that met the policy before everything that does. *)
Definition gated (policy : StreamingThresholdPolicy) (released : bool) tr : Prop :=
  if released then
    ∃ pre p best top post,
      tr = pre ++ EvInitialResultsReady p best top :: post ∧
      Forall held_back pre ∧ Forall (λ e, ¬ ready_event e) post ∧
      is_satisfied policy p = true ∧ pr_best_amount_out p = Some (rq_amount_out best)
  else Forall held_back tr.

Definition gate_ok config s tr : Prop :=
  match initial_result_policy config with
  | None => ss_initial_results_released s = true ∧ Forall (λ e, ¬ ready_event e) tr
  | Some policy => gated policy (ss_initial_results_released s) tr
  end.

Lemma quote_not_ready quotes :
  Forall quote_event quotes → Forall (λ e, ¬ ready_event e) quotes.
Proof. intros Hq. eapply Forall_impl; [exact Hq|]. intros []; simpl; tauto. Qed.

Lemma held_progress p : held_back (EvProgress p).
Proof. split; by intros []. Qed.

Lemma input_state_frame i s :
  ss_config (input_state i s) = ss_config s ∧
  ss_initial_results_released (input_state i s) = ss_initial_results_released s.
Proof.
  destruct i as [ph q|ph n| |n]; [|by destruct s..].
  destruct (quote_state_frame ph q s) as (_ & ? & ? & _). done.
Qed.

Lemma gate_ok_step config i s tr ok s' tr' :
  ss_config s = config → gate_ok config s tr →
  stepped on_event i s tr ok s' tr' → gate_ok config s' tr'.
Proof.
  intros Hcfg Hok (ready & quotes & -> & _ & _ & Hready & Hq & Hqr & _ & _).
  destruct (input_state_frame i s) as [Hc Hr]. unfold gate_ok in *.
  destruct (initial_result_policy config) as [policy|] eqn:Hpol.
  - destruct Hready as [[-> Hr']|(b & -> & Hb & Hr0 & Hr' & Hmet)]; rewrite ?Hr in *.
    + rewrite Hr'. destruct (ss_initial_results_released s).
      * destruct Hok as (pre & p & b & top & post & -> & Hpre & Hpost & Hsat & Hbest).
        exists pre, p, b, top, (post ++ EvProgress (progress (input_state i s)) :: quotes).
        split_and!; [by rewrite <-app_assoc|done| |done|done].
        apply Forall_app. split; [done|]. constructor; [by intros []|]. by apply quote_not_ready.
      * assert (quotes = []) as -> by (destruct quotes; [done|by discriminate Hqr]).
        simpl. apply Forall_app. split; [done|]. apply Forall_singleton, held_progress.
    + rewrite Hr0 in Hok. rewrite Hr'.
      assert (quotes = []) as ->
        by (destruct quotes; [done|rewrite Hqr in Hr0; done]).
      exists (tr ++ [EvProgress (progress (input_state i s))]), (progress (input_state i s)), b,
        (ss_top_routes (input_state i s)), [].
      split_and!; [by rewrite <-app_assoc| |done|..].
      * apply Forall_app. split; [done|]. apply Forall_singleton, held_progress.
      * destruct Hmet as [_ Hmet]. rewrite Hc, Hcfg, Hpol in Hmet. done.
      * simpl. by rewrite Hb.
  - destruct Hok as [Hrel Hall].
    destruct Hready as [[-> Hr']|(b & -> & Hb & Hr0 & Hr' & Hmet)]; [|congruence].
    split; [congruence|]. apply Forall_app. split; [done|]. constructor; [by intros []|].
    by apply quote_not_ready.
Qed.

Lemma streamed_gate config ins s tr : streamed config ins (s, tr) → gate_ok config s tr.
Proof.
  remember (s, tr) as st eqn:Hst. intros Hs. revert s tr Hst.
  induction Hs as [|ins [s0 tr0] i Hs IH]; intros s tr Hst.
  - injection Hst as <- <-. unfold gate_ok. simpl.
    destruct (initial_result_policy config); simpl; [|split; [done|]]; repeat constructor;
      by intros [].
  - specialize (IH _ _ eq_refl). apply streamed_observed in Hs as [Hcfg _].
    destruct (stream_step on_event i (s0, tr0)) as [ok [s' tr']] eqn:Hstep.
    simpl in Hst. injection Hst as -> ->.
    apply stream_step_spec in Hstep as [(_ & _ & -> & ->)|[_ Hstep]]; [done|].
    by eapply gate_ok_step.
Qed.

(** the gate on the initial results.  Without a policy no
    [InitialResultsReady] is ever emitted.  With one, either no event of the
    trace bears a quote, or there is exactly one [InitialResultsReady], its
    progress satisfies the policy and reports the best it carries, and every
    [RouteFound] and [BestUpdated] comes after it. *)
Theorem initial_results_gated config ins s tr :
  streamed config ins (s, tr) →
  match initial_result_policy config with
  | None => Forall (λ e, ¬ ready_event e) tr
  | Some policy =>
      gated policy (ss_initial_results_released s) tr
  end.
Proof.
  intros Hs. apply streamed_gate in Hs. unfold gate_ok in Hs.
  destruct (initial_result_policy config); [done|]. by destruct Hs.
Qed.

(** ** Continuing and stopping *)

Lemma run_verdict config ins0 s tr ins ok s' tr' evs0 :
  streamed config ins0 (s, tr) →
  tr = [EvStarted (completion config)] ++ evs0 →
  verdict on_event true s [EvStarted (completion config)] evs0 →
  (gate_met s → ss_initial_results_released s = true) →
  stream_run on_event ins (s, tr) = (ok, (s', tr')) →
  ∃ evs, tr' = [EvStarted (completion config)] ++ evs ∧
    verdict on_event ok s' [EvStarted (completion config)] evs ∧
    (ok = true → gate_met s' → ss_initial_results_released s' = true).
Proof.
  revert ins0 s tr evs0. induction ins as [|i ins IH]; intros ins0 s tr evs0 Hs Htr Hv Hg Hrun.
  - simpl in Hrun. injection Hrun as <- <- <-. exists evs0. done.
  - simpl in Hrun. pose proof (streamed_step _ _ _ _ i Hs) as Hs'.
    destruct (stream_step on_event i (s, tr)) as [ok1 [s1 tr1]] eqn:Hstep. simpl in Hs'.
    apply stream_step_spec in Hstep as [(_ & -> & -> & ->)|[_ Hstep]]; [by eapply IH|].
    destruct Hstep as (ready & quotes & Htr1 & Hcore & Hph & Hready & _ & _ & Hgate & Hv1).
    set (evs1 := EvProgress _ :: _) in *.
    destruct Hv as [Hacc _]. rewrite Htr in Htr1. rewrite <-app_assoc in Htr1.
    assert (verdict on_event ok1 s1 [EvStarted (completion config)] (evs0 ++ evs1)) as Hv'.
    { destruct ok1.
      - destruct Hv1 as [Hacc1 ?]. split; [|done]. apply accepted_app. by rewrite <-Htr.
      - destruct Hv1 as [(?&evs2&e&He&Ha&Hstop)|(?&Ha&?)].
        + left. split; [done|]. exists (evs0 ++ evs2), e. rewrite He, app_assoc.
          split; [done|]. rewrite app_assoc, <-Htr. split; [|done].
          apply accepted_app. by rewrite <-Htr.
        + right. split; [done|]. split; [|done]. apply accepted_app. by rewrite <-Htr. }
    destruct ok1.
    + eapply IH; [done|done|done| |done]. intros Hm. apply Hgate; [done|].
      unfold gate_met in *. by rewrite <-(progress_core s1 _ Hcore Hph),
        <-(core_config _ _ Hcore), <-(core_best _ _ Hcore).
    + injection Hrun as <- <- <-. exists (evs0 ++ evs1). done.
Qed.

(** A streaming search continues exactly as long as the callback accepts
    every event and the stop policy is not met, and it opens the gate as soon as
    its policy is met.  When it stops, either the last event delivered is the
    first one the callback refused and the finality is [Stopped], or every event
    was accepted, the progress satisfies the stop policy with a best route at
    hand and the finality is [StopPolicySatisfied]. *)
Theorem stream_run_verdict config ins ok s tr :
  stream_run on_event ins (StreamingRouteState_new config, [EvStarted (completion config)]) =
    (ok, (s, tr)) →
  ∃ evs, tr = EvStarted (completion config) :: evs ∧
    verdict on_event ok s [EvStarted (completion config)] evs ∧
    (ok = true → gate_met s → ss_initial_results_released s = true).
Proof.
  intros Hrun. eapply (run_verdict config [] _ _ _ _ _ _ []) in Hrun; [done| |done|..].
  - constructor.
  - split; [done|]. intros [[??] _]. done.
  - intros [[??] _]. done.
Qed.

(** ** Progress figures *)

Definition input_ok (i : StreamInput) : Prop :=
  match i with InFailed _ n => (0 <= n)%Z | InTotal n => (0 <= n)%Z | _ => True end.

Definition counts_ok s : Prop :=
  (0 <= ss_routes_observed s)%Z ∧ (0 <= ss_failed_candidates s)%Z ∧
  (∀ t, ss_total_candidates s = Some t → (0 <= t)%Z).

Lemma counts_ok_input i s : input_ok i → counts_ok s → counts_ok (input_state i s).
Proof.
  intros Hi (Ho & Hf & Ht). destruct i as [ph q|ph n| |n].
  - destruct (quote_state_observed ph q s) as (Hobs & Hfail & _).
    unfold counts_ok, input_state. rewrite Hobs, Hfail. split_and!; [lia|done|].
    intros t. unfold quote_state, record_top_route. destruct s; simpl in *.
    case_decide; simpl; repeat case_match_goal; simpl; auto.
  - destruct s; unfold counts_ok; simpl in *. split_and!; [done|lia|done].
  - by destruct s.
  - destruct s; unfold counts_ok, candidates_evaluated; simpl in *.
    split_and!; [done..|]. intros t [= <-]. lia.
Qed.

(** A property of the states a call can emit progress from. *)
Lemma streamed_progress config ins s tr (P : StreamingRouteState → Prop) :
  (∀ s s', core s = core s' → P s → P s') →
  P (StreamingRouteState_new config) →
  (∀ i s, i ∈ ins → P s → P (input_state i s)) →
  streamed config ins (s, tr) →
  P s ∧ ∀ p, EvProgress p ∈ tr → ∃ s0, P s0 ∧ p = progress s0.
Proof.
  intros Hcore Hnew Hstep Hs. remember (s, tr) as st eqn:Hst. revert s tr Hst.
  induction Hs as [|ins [s0 tr0] i Hs IH]; intros s tr Hst.
  - injection Hst as <- <-. split; [done|]. intros p Hp. set_solver.
  - destruct (IH ltac:(intros; apply Hstep; set_solver) s0 tr0 eq_refl) as [HP Htr].
    destruct (stream_step on_event i (s0, tr0)) as [ok [s' tr']] eqn:Hq.
    simpl in Hst. injection Hst as -> ->.
    assert (P (input_state i s0)) as HP' by (apply Hstep; [set_solver|done]).
    split; [by eapply Hcore; [symmetry; eapply step_core|]|].
    apply stream_step_spec in Hq as [(_ & _ & -> & ->)|[_ Hq]]; [done|].
    destruct Hq as (ready & quotes & -> & _ & _ & Hready & Hquotes & _).
    intros p. rewrite elem_of_app, elem_of_cons, elem_of_app. intros [Hp|[Hp|[Hp|Hp]]].
    + by apply Htr.
    + injection Hp as ->. eauto.
    + destruct Hready as [[-> _]|(b & -> & _)]; set_solver.
    + rewrite Forall_forall in Hquotes. by apply Hquotes in Hp.
Qed.

Lemma fraction_bounds s f :
  counts_ok s → exhaustive_fraction_bps s = Some f → (0 <= f <= 10000)%Z.
Proof.
  intros (Ho & Hf & Ht) Hfr. unfold exhaustive_fraction_bps in Hfr.
  destruct (ss_total_candidates s) as [t|] eqn:Htot; simpl in Hfr; [|done].
  specialize (Ht t eq_refl). case_decide; [by injection Hfr as <-|].
  injection Hfr as <-. split; [|lia]. apply Z.min_glb; [|lia].
  apply Z.div_pos; [|lia]. unfold usize_saturating_mul, usize_max, candidates_evaluated. lia.
Qed.

Lemma fraction_complete s t :
  counts_ok s → ss_total_candidates s = Some t → (t * 10000 <= usize_max)%Z →
  exhaustive_fraction_bps s = Some 10000%Z ↔ (t <= candidates_evaluated s)%Z.
Proof.
  intros (Ho & Hf & Ht) Htot Hmax. specialize (Ht t Htot).
  unfold exhaustive_fraction_bps. rewrite Htot. simpl.
  assert (0 <= candidates_evaluated s)%Z by (unfold candidates_evaluated; lia).
  case_decide as Hz; [split; intros; [lia|done]|].
  unfold usize_saturating_mul. rewrite (Z.min_l (_ * _)) by lia.
  destruct (Z.le_gt_cases t (candidates_evaluated s)) as [Hle|Hgt].
  - rewrite (Z.min_r (candidates_evaluated s)) by lia. rewrite Z.mul_comm, Z.div_mul by lia. by split.
  - rewrite (Z.min_l (candidates_evaluated s)) by lia. split; [|lia]. intros [= Heq].
    assert ((candidates_evaluated s * 10000) `div` t < 10000)%Z; [|lia].
    apply Z.div_lt_upper_bound; lia.
Qed.

Lemma confidence_bounds s :
  counts_ok s →
  match ss_best s with
  | None => pr_confidence_bps (progress s) = 0%Z
  | Some _ => (7000 <= pr_confidence_bps (progress s) <= 9999)%Z
  end.
Proof.
  intros Hok. simpl. unfold confidence_bps. destruct (ss_best s); [|done].
  pose proof (fraction_bounds s) as Hfr.
  case_match_goal; [lia|]. destruct (exhaustive_fraction_bps s) as [f|].
  - specialize (Hfr f Hok eq_refl). pose proof (Z.div_pos f 10). lia.
  - case_match_goal; lia.
Qed.

(** The figures of every [Progress] event.  The candidates evaluated are the
    viable and the failed ones; the fraction is between 0 and 10000 bps and,
    when the total is known and times 10000 does not overflow, reaches 10000
    exactly when every candidate was evaluated; the confidence is 0 without a
    best route and otherwise between 7000 and 9999, so a policy that requires a
    confidence of 10000 bps is never met while the search runs. *)
Theorem progress_bounds config ins s tr p :
  Forall input_ok ins → streamed config ins (s, tr) → EvProgress p ∈ tr →
  pr_candidates_evaluated p = (pr_viable_routes_observed p + pr_failed_candidates p)%Z ∧
  (∀ f, pr_exhaustive_fraction_bps p = Some f → (0 <= f <= 10000)%Z) ∧
  (∀ t, pr_total_candidates p = Some t → (t * 10000 <= usize_max)%Z →
     pr_exhaustive_fraction_bps p = Some 10000%Z ↔ (t <= pr_candidates_evaluated p)%Z) ∧
  match pr_best_amount_out p with
  | None => pr_confidence_bps p = 0%Z
  | Some _ => (7000 <= pr_confidence_bps p <= 9999)%Z
  end ∧
  (∀ policy, threshold_mode policy = All → min_confidence_bps policy = Some 10000%Z →
     is_satisfied policy p = false).
Proof.
  intros Hins Hs Hp.
  eapply (streamed_progress _ _ _ _ counts_ok) in Hs as [_ Htr].
  - apply Htr in Hp as (s0 & Hok & ->). pose proof (confidence_bounds s0 Hok) as Hconf.
    split_and!.
    + done.
    + intros f. by apply fraction_bounds.
    + intros t. by apply fraction_complete.
    + simpl in *. by destruct (ss_best s0).
    + intros policy Hm Hc. unfold is_satisfied. rewrite Hm, Hc. cbn [fmap option_fmap option_map default].
      destruct (Z.leb_spec 10000 (pr_confidence_bps (progress s0))); [|done].
      destruct (ss_best s0); lia.
  - unfold core, counts_ok. by intros ?? [= _ _ _ _ -> -> _ _ _ ->].
  - by unfold counts_ok.
  - intros i s0 Hi. rewrite Forall_forall in Hins. by apply counts_ok_input, Hins.
Qed.

(** ** Progress only advances *)

Definition option_le (x y : option Z) : Prop :=
  match x, y with None, _ => True | Some _, None => False | Some x, Some y => (x <= y)%Z end.

Definition progress_le (p p' : RouteSearchProgress) : Prop :=
  (pr_viable_routes_observed p <= pr_viable_routes_observed p')%Z ∧
  (pr_failed_candidates p <= pr_failed_candidates p')%Z ∧
  (pr_candidates_evaluated p <= pr_candidates_evaluated p')%Z ∧
  option_le (pr_best_amount_out p) (pr_best_amount_out p').

#[export] Instance progress_le_preorder : PreOrder progress_le.
Proof.
  unfold progress_le, option_le. split.
  - intros p. split_and!; [lia..|]. destruct (pr_best_amount_out p); [lia|done].
  - intros p1 p2 p3 (?&?&?&?) (?&?&?&?). split_and!; [lia..|].
    destruct (pr_best_amount_out p1), (pr_best_amount_out p2), (pr_best_amount_out p3);
      try done; lia.
Qed.

Lemma progress_le_input i s : input_ok i → progress_le (progress s) (progress (input_state i s)).
Proof.
  intros Hi. destruct i as [ph q|ph n| |n].
  - destruct (quote_state_observed ph q s) as (Ho & Hf & _).
    destruct (quote_state_frame ph q s) as (_ & _ & _ & Hb).
    unfold progress_le, candidates_evaluated, option_le. simpl.
    unfold candidates_evaluated. rewrite Ho, Hf, Hb. split_and!; [lia..|].
    unfold improves. destruct (ss_best s) as [b|]; [|done]. simpl.
    destruct (Z.ltb_spec (rq_amount_out b) (rq_amount_out q)); simpl; lia.
  - destruct s; unfold progress_le, option_le; simpl in *. unfold candidates_evaluated; simpl.
    split_and!; [lia..|]. destruct ss_best; simpl; [lia|done].
  - destruct s. unfold progress_le, option_le. simpl. split_and!; [done..|].
    destruct ss_best; simpl; [lia|done].
  - destruct s. unfold progress_le, option_le. simpl. split_and!; [done..|].
    destruct ss_best; simpl; [lia|done].
Qed.

Definition event_progress (e : RouteSearchEvent) : option RouteSearchProgress :=
  match e with EvProgress p => Some p | _ => None end.

(** progress only advances: along the trace of a search the counts of
    evaluated, viable and failed candidates and the best output never go down. *)
Theorem progress_monotone config ins s tr :
  Forall input_ok ins → streamed config ins (s, tr) →
  StronglySorted progress_le (omap event_progress tr).
Proof.
  intros Hins Hs. cut (StronglySorted progress_le (omap event_progress tr) ∧
    Forall (λ p, progress_le p (progress s)) (omap event_progress tr)); [by intros [? _]|].
  remember (s, tr) as st eqn:Hst. revert s tr Hst.
  induction Hs as [|ins [s0 tr0] i Hs IH]; intros s tr Hst.
  - injection Hst as <- <-. split; constructor.
  - apply Forall_app in Hins as [Hins Hi]. rewrite Forall_singleton in Hi.
    destruct (IH Hins s0 tr0 eq_refl) as [Hsort Hall].
    destruct (stream_step on_event i (s0, tr0)) as [ok [s' tr']] eqn:Hq.
    simpl in Hst. injection Hst as -> ->.
    apply stream_step_spec in Hq as [(_ & _ & -> & ->)|[_ Hq]]; [done|].
    destruct Hq as (ready & quotes & -> & Hcore & Hph & Hready & Hquotes & _).
    rewrite (progress_core s _ Hcore Hph).
    assert (omap event_progress (EvProgress (progress (input_state i s0)) :: ready ++ quotes) =
      [progress (input_state i s0)]) as Heq.
    { csimpl. f_equal. rewrite omap_app.
      assert (omap event_progress quotes = []) as ->
        by (induction Hquotes as [|[]]; csimpl in *; done).
      by destruct Hready as [[-> _]|(b & -> & _)]. }
    rewrite omap_app, Heq.
    assert (Forall (λ p, progress_le p (progress (input_state i s0))) (omap event_progress tr0))
      as Hall'.
    { eapply Forall_impl; [exact Hall|]. intros p Hp. etrans; [exact Hp|].
      by apply progress_le_input. }
    split.
    + apply StronglySorted_app; split_and!; [|done|by repeat constructor].
      rewrite Forall_forall in Hall'. intros p p' Hp Hp'. set_solver.
    + apply Forall_app. split; [done|]. by apply Forall_singleton.
Qed.

(** ** The final report *)

Lemma streamed_snoc_inv config ins i st :
  streamed config (ins ++ [i]) st →
  ∃ st0, streamed config ins st0 ∧ st = (stream_step on_event i st0).2.
Proof.
  inversion 1 as [Heq|ins' st0 i' Hs Heq Hst]; [by destruct ins|].
  apply app_inj_tail in Heq as [-> ->]. by exists st0.
Qed.

Lemma streamed_snoc_core config ins i s tr :
  streamed config (ins ++ [i]) (s, tr) →
  ∃ s0 tr0, streamed config ins (s0, tr0) ∧ core s = core (input_state i s0).
Proof.
  intros ([s0 tr0] & Hs & Heq)%streamed_snoc_inv. exists s0, tr0. split; [done|].
  destruct (stream_step on_event i (s0, tr0)) as [ok [s' tr']] eqn:Hq.
  injection Heq as -> ->. by eapply step_core.
Qed.

(** The calls of the heuristic phase, and those after it. *)
Definition heuristic_input (i : StreamInput) : Prop :=
  match i with
  | InQuote ph _ => ph = PhaseHeuristic | InFailed _ _ => True | _ => False end.
Definition exhaustive_input (i : StreamInput) : Prop :=
  match i with
  | InQuote ph _ => ph = PhaseExhaustive | InHeuristicDone => False | _ => True end.

Lemma quote_state_heuristic ph q s :
  ss_heuristic_best (quote_state ph q s).2 = ss_heuristic_best s ∧
  ss_improvements_after_heuristic (quote_state ph q s).2 =
    (ss_improvements_after_heuristic s +
     if improves q s && bool_decide (ph = PhaseExhaustive) &&
        bool_decide (is_Some (ss_heuristic_best s)) then 1 else 0)%Z.
Proof.
  unfold quote_state, record_top_route, improves. destruct s; simpl. case_decide; simpl;
    repeat case_match_goal; simpl in *; split; try done; try lia; congruence.
Qed.

Lemma heuristic_phase config pre s tr :
  Forall heuristic_input pre → streamed config pre (s, tr) →
  ss_heuristic_best s = None ∧ ss_improvements_after_heuristic s = 0%Z.
Proof.
  revert s tr. induction pre as [|i pre IH] using rev_ind; intros s tr Hpre Hs.
  - inversion Hs as [|ins ? ? ? Heq]; [done|]. by destruct ins.
  - apply Forall_app in Hpre as [Hpre Hi]. rewrite Forall_singleton in Hi.
    apply streamed_snoc_core in Hs as (s0 & tr0 & Hs & Hcore).
    destruct (IH _ _ Hpre Hs) as [Hh Hn].
    assert (ss_heuristic_best s = ss_heuristic_best (input_state i s0) ∧
            ss_improvements_after_heuristic s =
            ss_improvements_after_heuristic (input_state i s0)) as [-> ->]
      by (unfold core in Hcore; split; congruence).
    destruct i as [ph q|ph n| |n]; simpl in Hi; try done; [|by destruct s0].
    destruct (quote_state_heuristic ph q s0) as [H1 H2]. simpl. rewrite H1, H2, Hh, Hn.
    by rewrite andb_false_r.
Qed.

(** After the heuristic phase: the improvements counted are strict. *)
Definition improved (hbest : RouteQuote) s : Prop :=
  ss_heuristic_best s = Some hbest ∧ (0 <= ss_improvements_after_heuristic s)%Z ∧
  ∃ best, ss_best s = Some best ∧
    if decide (ss_improvements_after_heuristic s = 0%Z) then best = hbest
    else (rq_amount_out hbest < rq_amount_out best)%Z.

Lemma exhaustive_phase config pre post s tr :
  Forall heuristic_input pre → Forall exhaustive_input post →
  streamed config (pre ++ InHeuristicDone :: post) (s, tr) →
  match head (ranking (quotes_of pre)) with
  | Some hbest => improved hbest s
  | None => ss_heuristic_best s = None ∧ ss_improvements_after_heuristic s = 0%Z
  end.
Proof.
  intros Hpre. revert s tr. induction post as [|i post IH] using rev_ind; intros s tr Hpost Hs.
  - apply streamed_snoc_core in Hs as (s0 & tr0 & Hs & Hcore).
    destruct (heuristic_phase _ _ _ _ Hpre Hs) as [Hh Hn].
    apply streamed_observed in Hs as (_ & Hbest & _). rewrite <-Hbest.
    unfold core in Hcore. destruct s0, s. simpl in *. simplify_eq.
    destruct (head (ranking (quotes_of pre))) as [b|]; [|done].
    split_and!; try done. by exists b.
  - apply Forall_app in Hpost as [Hpost Hi]. rewrite Forall_singleton in Hi.
    rewrite app_comm_cons, app_assoc in Hs.
    apply streamed_snoc_core in Hs as (s0 & tr0 & Hs & Hcore).
    specialize (IH _ _ Hpost Hs). clear Hs.
    assert (ss_heuristic_best s = ss_heuristic_best (input_state i s0) ∧
            ss_best s = ss_best (input_state i s0) ∧
            ss_improvements_after_heuristic s =
            ss_improvements_after_heuristic (input_state i s0)) as (Hhb & Hb & Him)
      by (unfold core in Hcore; split_and!; congruence).
    unfold improved in *. rewrite Hhb, Hb, Him.
    destruct i as [ph q|ph n| |n]; simpl in Hi; try done; [|by destruct s0..].
    destruct (quote_state_heuristic ph q s0) as [H1 H2].
    destruct (quote_state_frame ph q s0) as (_ & _ & _ & H3). simpl.
    rewrite H1, H2, H3, (bool_decide_true _ Hi).
    destruct (head (ranking (quotes_of pre))) as [hb|].
    + destruct IH as (Hh & Hn & b & Hb0 & Hif). rewrite Hh, andb_true_r.
      rewrite ?andb_true_r.
      split; [done|]. unfold improves. rewrite Hb0.
      destruct (Z.ltb_spec (rq_amount_out b) (rq_amount_out q)); (split; [lia|]); eexists;
        (split; [done|]).
      * rewrite decide_False by lia. case_decide; subst; lia.
      * by rewrite Z.add_0_r.
    + destruct IH as [Hh Hn]. rewrite Hh, Hn. by rewrite andb_false_r.
Qed.

(** the report of a search that ran its heuristic phase and then the
    exhaustive one.  The best is the highest of all quotes, the heuristic best
    the highest of the heuristic phase; [heuristic_was_final_best] is reported
    exactly when there is a best route and is true exactly when the heuristic
    phase had one and no improvement was counted after it; otherwise the final
    best is strictly higher.  At completion the fraction is 10000 bps and the
    confidence 10000 bps exactly when a route was found. *)
Theorem report_correct config pre post s tr qc pruning :
  Forall heuristic_input pre → Forall exhaustive_input post →
  streamed config (pre ++ InHeuristicDone :: post) (s, tr) →
  let r := report s FinalityExhaustive qc pruning in
  let hbest := head (ranking (quotes_of pre)) in
  let best := head (ranking (quotes_of pre ++ quotes_of post)) in
  rep_best r = best ∧
  (rep_heuristic_best r = hbest) ∧
  rep_heuristic_was_final_best r =
    (λ _, bool_decide (is_Some hbest ∧ rep_improvements_after_heuristic r = 0%Z)) <$> best ∧
  (∀ h b, hbest = Some h → best = Some b → rep_improvements_after_heuristic r ≠ 0%Z →
     (rq_amount_out h < rq_amount_out b)%Z) ∧
  pr_exhaustive_fraction_bps (rep_progress r) = Some 10000%Z ∧
  pr_confidence_bps (rep_progress r) = (if best then 10000 else 0)%Z.
Proof.
  intros Hpre Hpost Hs r hbest best.
  pose proof (exhaustive_phase _ _ _ _ _ Hpre Hpost Hs) as Hex.
  apply streamed_observed in Hs as (_ & Hbest & _).
  rewrite quotes_of_app in Hbest. change (quotes_of (InHeuristicDone :: post)) with
    (quotes_of post) in Hbest. fold best in Hbest. fold hbest in Hex.
  subst r. unfold report, final_progress. simpl. rewrite Hbest.
  destruct hbest as [h|].
  - destruct Hex as (Hh & Hn & b & Hb & Hif). rewrite Hb in Hbest. rewrite <-Hbest, Hh.
    split_and!; try done.
    + simpl. f_equal. case_decide as Hi.
      * subst. rewrite !bool_decide_true; done.
      * rewrite !bool_decide_false; [done|naive_solver|]. intros [= ->]. lia.
    + intros h' b' [= <-] [= <-] Hne. by rewrite decide_False in Hif.
  - destruct Hex as [Hh Hn]. rewrite Hh. split_and!; try done.
Qed.

(** [finish_stream_report] reports the state's best and retained routes;
    unless the callback refuses the late release it keeps the finality it is
    given; when there is a best route the initial results have been released by
    the time it returns; and the trace ends with the release (if it was still
    due) and then [Completed] with the very report returned. *)
Theorem finish_stream_report_correct config ins s tr finality qc pruning emit r s' tr' :
  streamed config ins (s, tr) →
  finish_stream_report on_event finality qc pruning emit (s, tr) = (r, (s', tr')) →
  rep_best r = head (ranking (quotes_of ins)) ∧
  rep_top_routes r = ss_top_routes s ∧
  (is_Some (rep_best r) → rep_initial_results_released r = true) ∧
  ∃ ready, tr' = tr ++ ready ++ (if emit then [EvCompleted r] else []) ∧
    (rep_finality r = finality ∨
     rep_finality r = Stopped ∧ ∃ e, ready = [e] ∧ on_event tr e = Stop) ∧
    (ready = [] ∨
     ∃ best, ss_initial_results_released s = false ∧ ss_best s = Some best ∧
       ready = [EvInitialResultsReady (final_progress s finality) best (ss_top_routes s)]).
Proof.
  intros Hs. pose proof (streamed_gate _ _ _ _ Hs) as Hg.
  apply streamed_observed in Hs as (Hcfg & Hbest & _). rewrite <-Hbest.
  unfold finish_stream_report, release_initial_results_at_completion.
  destruct (ss_initial_results_released s) eqn:Hrel; simpl.
  - intros Heq. injection Heq as <- Hst. split_and!; try done.
    exists []. split_and!; [|by left|by left].
    destruct emit; injection Hst as <- <-; by rewrite ?app_nil_r.
  - unfold gate_ok in Hg. rewrite Hrel, <-Hcfg in Hg.
    case_bool_decide as Hpol; [rewrite Hpol in Hg; by destruct Hg|].
    unfold release_initial_results. destruct (ss_best s) as [b|] eqn:Hb.
    + set (e := EvInitialResultsReady _ _ _).
      destruct (emit_or_stop_cases on_event e (set_released s) tr) as [[He Heq]|[He Heq]];
        rewrite Heq; intros Hr; injection Hr as <- Hst.
      all: split_and!; [by destruct s|by destruct s|by destruct s|].
      all: exists [e]; split_and!;
        [|first [by left | right; split; [done|by exists e]]|right; by exists b].
      all: destruct emit; injection Hst as <- <-; by rewrite ?app_nil_r, <-?app_assoc.
    + intros Hr. injection Hr as <- Hst. simpl. rewrite Hb.
      split_and!; [done|done|by intros []|].
      exists []. split_and!; [|by left|by left].
      destruct emit; injection Hst as <- <-; by rewrite ?app_nil_r.
Qed.
End streaming.
