(* ===== verification/Session.v ===== *)
(** * Incremental route sessions ([RouteSearchSession], [src/search.rs])

    A session keeps the routes a streamed search evaluated, indexes them (and
    the one-pool replacements of each) by pool, and after live events re-quotes
    only the affected ones.

    Hash sets and maps are finite sets and maps; where the code iterates over
    one, the order is an argument ([iter_pools], [iter_paths], [iter_table]). *)

From S2P Require Import Prelude AmmState Petgraph Graph Config SearchTypes QuoteCache Quote.
From S2P Require Import Searcher Streaming.

Section session.
Context `{!AmmTypes} `{!Petgraph Address EdgeData}.

(** ** Affected pools *)

Record AffectedPools := {
  affected_pools : gset PoolKey;
  unknown_logs : Z;
  removed_logs : Z;
}.

Definition AffectedPools_default : AffectedPools :=
  {| affected_pools := ∅; unknown_logs := 0; removed_logs := 0 |}.

Definition from_pool_keys (keys : list PoolKey) : AffectedPools :=
  {| affected_pools := list_to_set keys; unknown_logs := 0; removed_logs := 0 |}.

(** One log of [from_logs]; [route_log] is the registry's routing of a log to
    a registered pool. *)
Definition observe_log {Log} (route_log : Log → option PoolRegistration)
    (a : AffectedPools) (log : Log) : AffectedPools :=
  match route_log log with
  | Some pool =>
      {| affected_pools := {[reg_key pool]} ∪ affected_pools a;
         unknown_logs := unknown_logs a; removed_logs := removed_logs a |}
  | None =>
      {| affected_pools := affected_pools a; unknown_logs := unknown_logs a + 1;
         removed_logs := removed_logs a |}
  end.

Definition from_logs {Log} (route_log : Log → option PoolRegistration) (logs : list Log) :
    AffectedPools := foldl (observe_log route_log) AffectedPools_default logs.

(** An RPC log carries the [removed] flag of a reorganised block. *)
Record RpcLog (Log : Type) := { rpc_inner : Log; rpc_removed : bool }.
Arguments rpc_inner {Log}.
Arguments rpc_removed {Log}.

Definition observe_rpc_log {Log} (route_log : Log → option PoolRegistration)
    (a : AffectedPools) (log : RpcLog Log) : AffectedPools :=
  if rpc_removed log then
    {| affected_pools := affected_pools a; unknown_logs := unknown_logs a;
       removed_logs := removed_logs a + 1 |}
  else observe_log route_log a (rpc_inner log).

Definition from_rpc_logs {Log} (route_log : Log → option PoolRegistration)
    (logs : list (RpcLog Log)) : AffectedPools :=
  foldl (observe_rpc_log route_log) AffectedPools_default logs.

Definition affected_is_empty (a : AffectedPools) : bool :=
  bool_decide (affected_pools a = ∅) && (unknown_logs a =? 0)%Z && (removed_logs a =? 0)%Z.

(** ** Reports and events *)

Inductive IncrementalRouteUpdateStatus : Type := Unchanged | Updated | RecomputeRequired.

Inductive RecomputeReason : Type :=
  | RemovedLogs (count : Z)
  | UnknownLogs (count : Z)
  | TopologyChanged
  | StatePointChanged (previous current : AmmStatePoint)
  | StateScopeChanged
  | UnknownAffectedPool (pool : PoolKey)
  | DegradedAffectedPool (pool : PoolKey)
  | ProbeBudgetExceeded (requested limit : nat).

Record IncrementalRouteUpdateReport := {
  ir_previous_best : option RouteQuote;
  ir_best : option RouteQuote;
  ir_status : IncrementalRouteUpdateStatus;
  ir_affected_pools : gset PoolKey;
  ir_routes_requoted : nat;
  ir_probe_routes_quoted : nat;
  ir_quote_cache : QuoteCacheStats;
  ir_recompute_reason : option RecomputeReason;
}.

Inductive RouteUpdateEvent : Type :=
  | UpStarted (affected : gset PoolKey)
  | UpRouteRequoted (quote : RouteQuote)
  | UpProbeRouteFound (quote : RouteQuote)
  | UpBestChanged (previous_best best : option RouteQuote)
  | UpRecomputeRequired (reason : RecomputeReason)
  | UpCompleted (report : IncrementalRouteUpdateReport).

(** ** The session *)

Inductive RouteSessionEntry : Type := Quoted (quote : RouteQuote) | Failed.

Definition entry_quote (e : RouteSessionEntry) : option RouteQuote :=
  match e with Quoted quote => Some quote | Failed => None end.

Definition DEFAULT_INCREMENTAL_PROBE_LIMIT : nat := 256.

Record RouteSearchSession := {
  se_request : RouteRequest;
  se_streaming_config : StreamingSearchConfig;
  se_finality : SearchFinality;
  se_route_table : gmap RoutePath RouteSessionEntry;
  se_pool_to_routes : gmap PoolKey (gset RoutePath);
  se_parallel_probe_index : gmap PoolKey (gset RoutePath);
  se_best : option RouteQuote;
  se_quote_cache : SharedQuoteCache;
  se_graph_version : GraphVersion;
  se_state_point : option AmmStatePoint;
  se_max_probe_paths_per_refresh : nat;
}.

Definition set_table (t : gmap RoutePath RouteSessionEntry) (s : RouteSearchSession) :=
  let '(Build_RouteSearchSession r c f _ p i b q g o m) := s in
  Build_RouteSearchSession r c f t p i b q g o m.
Definition set_indexes (p i : gmap PoolKey (gset RoutePath)) (s : RouteSearchSession) :=
  let '(Build_RouteSearchSession r c f t _ _ b q g o m) := s in
  Build_RouteSearchSession r c f t p i b q g o m.
Definition set_session_best (b : option RouteQuote) (s : RouteSearchSession) :=
  let '(Build_RouteSearchSession r c f t p i _ q g o m) := s in
  Build_RouteSearchSession r c f t p i b q g o m.
Definition set_quote_cache (q : SharedQuoteCache) (s : RouteSearchSession) :=
  let '(Build_RouteSearchSession r c f t p i b _ g o m) := s in
  Build_RouteSearchSession r c f t p i b q g o m.

Definition materialized_route_count (s : RouteSearchSession) : nat := size (se_route_table s).
Definition parallel_probe_count (s : RouteSearchSession) : nat :=
  map_fold (λ _ paths n, size paths + n) 0 (se_parallel_probe_index s).

(** ** Indexing *)

(** [map.entry(pool).or_default().insert(path)]. *)
Definition index_path (path : RoutePath) (pool : PoolKey)
    (m : gmap PoolKey (gset RoutePath)) : gmap PoolKey (gset RoutePath) :=
  entry_or_default ∅ (λ paths, {[path]} ∪ paths) pool m.

Definition index_route_path (path : RoutePath) (pool_to_routes : gmap PoolKey (gset RoutePath)) :
    gmap PoolKey (gset RoutePath) :=
  foldl (λ m hop, index_path path (hop_pool hop) m) pool_to_routes path.

(** One edge of the inner loop of [index_probe_paths_for_route]: the path with
    the hop's pool replaced by the edge's. *)
Definition probe_for_edge (path : RoutePath) (hop_index : nat) (hop : Hop)
    (edge : CachedOutgoingEdge) : option RoutePath :=
  let replacement_pool := ce_pool edge in
  if bool_decide (ce_token_out edge ≠ hop_token_out hop) then None
  else if bool_decide (replacement_pool = hop_pool hop) then None
  else if bool_decide (Exists (λ '(index, existing),
            index ≠ hop_index ∧ hop_pool existing = replacement_pool) (enumerate path)) then None
  else Some (<[hop_index := {| hop_pool := replacement_pool; hop_token_in := hop_token_in hop;
                               hop_token_out := hop_token_out hop |}]> path).

Definition index_probe_edge (path : RoutePath) (hop_index : nat) (hop : Hop)
    (m : gmap PoolKey (gset RoutePath)) (edge : CachedOutgoingEdge) :
    gmap PoolKey (gset RoutePath) :=
  match probe_for_edge path hop_index hop edge with
  | None => m
  | Some probe => index_path probe (ce_pool edge) (index_path probe (hop_pool hop) m)
  end.

Definition index_probe_paths_for_route (s : AmmSearcher) (path : RoutePath)
    (parallel_probe_index : gmap PoolKey (gset RoutePath)) : gmap PoolKey (gset RoutePath) :=
  foldl (λ m '(hop_index, hop),
    match node_index (as_graph s) (hop_token_in hop) with
    | None => m
    | Some node => foldl (index_probe_edge path hop_index hop) m (outgoing_edges (as_graph s) node)
    end) parallel_probe_index (enumerate path).

Definition insert_quote (searcher : AmmSearcher) (s : RouteSearchSession) (quote : RouteQuote) :
    RouteSearchSession :=
  let path := rq_path quote in
  set_indexes (index_route_path path (se_pool_to_routes s))
    (index_probe_paths_for_route searcher path (se_parallel_probe_index s))
    (set_table (<[path := Quoted quote]> (se_route_table s)) s).

(** [Iterator::max_by_key]: the last of the maximal elements. *)
Definition max_by_output (best : option RouteQuote) (q : RouteQuote) : option RouteQuote :=
  match best with
  | None => Some q
  | Some b => if (rq_amount_out b <=? rq_amount_out q)%Z then Some q else Some b
  end.

(** ** Refreshing *)

Section refresh.
Context (on_event : list RouteUpdateEvent → RouteUpdateEvent → SearchControl).
Context (iter_pools : gset PoolKey → list PoolKey).
Context (iter_paths : gset RoutePath → list RoutePath).
Context (iter_table : gmap RoutePath RouteSessionEntry → list RouteSessionEntry).

Definition emit_route_update_event (event : RouteUpdateEvent) (trace : list RouteUpdateEvent) :
    bool * list RouteUpdateEvent :=
  (bool_decide (on_event trace event = Continue), trace ++ [event]).

Definition best_from_table (s : RouteSearchSession) : option RouteQuote :=
  foldl max_by_output None (omap entry_quote (iter_table (se_route_table s))).

Definition incremental_report (s : RouteSearchSession) (previous_best : option RouteQuote)
    (status : IncrementalRouteUpdateStatus) (affected : gset PoolKey)
    (routes_requoted probe_routes_quoted : nat) (reason : option RecomputeReason) :
    IncrementalRouteUpdateReport :=
  {| ir_previous_best := previous_best; ir_best := se_best s; ir_status := status;
     ir_affected_pools := affected; ir_routes_requoted := routes_requoted;
     ir_probe_routes_quoted := probe_routes_quoted;
     ir_quote_cache := qc_stats (se_quote_cache s); ir_recompute_reason := reason |}.

(** A call's outcome: the report, the session and the trace of events. *)
Definition Refresh : Type :=
  IncrementalRouteUpdateReport * RouteSearchSession * list RouteUpdateEvent.

(** Emit [Completed] (its answer is ignored) and return the report. *)
Definition completed (r : IncrementalRouteUpdateReport) (s : RouteSearchSession)
    (trace : list RouteUpdateEvent) : Refresh :=
  (r, s, (emit_route_update_event (UpCompleted r) trace).2).

Definition recompute_required (s : RouteSearchSession) (previous_best : option RouteQuote)
    (affected : gset PoolKey) (reason : RecomputeReason) (trace : list RouteUpdateEvent) :
    Refresh :=
  let trace := (emit_route_update_event (UpRecomputeRequired reason) trace).2 in
  completed (incremental_report s previous_best RecomputeRequired affected 0 0 (Some reason))
    s trace.

Definition unchanged (s : RouteSearchSession) (previous_best : option RouteQuote)
    (affected : gset PoolKey) (trace : list RouteUpdateEvent) : Refresh :=
  completed (incremental_report s previous_best Unchanged affected 0 0 None) s trace.

(** The reasons decided before any event is emitted. *)
Definition early_recompute_reason (s : RouteSearchSession) (searcher : AmmSearcher)
    (affected : AffectedPools) : option RecomputeReason :=
  if (0 <? removed_logs affected)%Z then Some (RemovedLogs (removed_logs affected))
  else if (0 <? unknown_logs affected)%Z then Some (UnknownLogs (unknown_logs affected))
  else
    let topology :=
      if decide (se_graph_version s = version (as_graph searcher)) then None
      else Some TopologyChanged in
    match se_state_point s, state_point searcher with
    | Some previous, Some current =>
        if decide (previous = current) then topology
        else Some (StatePointChanged previous current)
    | Some _, None | None, Some _ => Some StateScopeChanged
    | None, None => topology
    end.

(** The loop over the affected pools: the first unknown or degraded one. *)
Fixpoint affected_pool_reason (registry : AdapterRegistry) (pools : list PoolKey) :
    option RecomputeReason :=
  match pools with
  | [] => None
  | pool :: pools =>
      match registry_pool registry pool with
      | None => Some (UnknownAffectedPool pool)
      | Some registration =>
          if decide (reg_status registration = PoolStatus.Degraded)
          then Some (DegradedAffectedPool pool)
          else affected_pool_reason registry pools
      end
  end.

(** The paths an index lists under some pools. *)
Definition indexed_paths (pools : list PoolKey) (index : gmap PoolKey (gset RoutePath)) :
    gset RoutePath :=
  foldl (λ paths pool, paths ∪ default ∅ (index !! pool)) ∅ pools.

(** Quote paths, showing each quote to the callback as [event]. *)
Definition quote_observed (searcher : AmmSearcher) (s : RouteSearchSession)
    (event : RouteQuote → RouteUpdateEvent) (paths : list RoutePath) (cache : AdapterCache)
    (trace : list RouteUpdateEvent) : option (Evaluator (S := list RouteUpdateEvent)) :=
  quote_paths_with_registry_observed (as_registry searcher) (rr_sim_config (se_request s))
    (rr_amount_in (se_request s))
    (Some (λ quote trace, emit_route_update_event (event quote) trace)) None
    paths cache (se_quote_cache s) trace.

(** The update of the table after the materialized paths were quoted. *)
Definition requoted (searcher : AmmSearcher) (materialized : list RoutePath)
    (quotes : list RouteQuote) (failures : list PathFailure) (s : RouteSearchSession) :
    RouteSearchSession :=
  let table := foldl (λ t path, <[path := Failed]> t) (se_route_table s) materialized in
  let table := foldl (λ t failure, <[pf_path failure := Failed]> t) table failures in
  foldl (insert_quote searcher) (set_table table s) quotes.

(** Phase one: the materialized paths.  Also returned: the number of quotes and
    the overlay. *)
Definition requote_materialized (searcher : AmmSearcher) (materialized : list RoutePath)
    (cache : AdapterCache) (s : RouteSearchSession) (trace : list RouteUpdateEvent) :
    option (nat * AdapterCache * RouteSearchSession * list RouteUpdateEvent) :=
  if decide (materialized = []) then Some (0, cache, s, trace)
  else
    e ← quote_observed searcher s UpRouteRequoted materialized cache trace;
    Some (length (ev_quotes e), ev_cache e,
          requoted searcher materialized (ev_quotes e) (ev_failures e)
            (set_quote_cache (ev_quote_cache e) s), ev_captured e).

(** Phase two: the probes. *)
Definition quote_probes (searcher : AmmSearcher) (probes : list RoutePath)
    (cache : AdapterCache) (s : RouteSearchSession) (trace : list RouteUpdateEvent) :
    option (nat * RouteSearchSession * list RouteUpdateEvent) :=
  if decide (probes = []) then Some (0, s, trace)
  else
    e ← quote_observed searcher s UpProbeRouteFound probes cache trace;
    Some (length (ev_quotes e),
          foldl (insert_quote searcher) (set_quote_cache (ev_quote_cache e) s) (ev_quotes e),
          ev_captured e).

(** The end of a refresh that quoted something. *)
Definition finish_refresh (previous_best : option RouteQuote) (affected : gset PoolKey)
    (routes_requoted probe_routes_quoted : nat) (s : RouteSearchSession)
    (trace : list RouteUpdateEvent) : Refresh :=
  let s := set_session_best (best_from_table s) s in
  let best_changed := bool_decide (se_best s ≠ previous_best) in
  let trace :=
    if best_changed
    then (emit_route_update_event (UpBestChanged previous_best (se_best s)) trace).2
    else trace in
  let status :=
    if (routes_requoted =? 0) && (probe_routes_quoted =? 0) && negb best_changed
    then Unchanged else Updated in
  completed (incremental_report s previous_best status affected routes_requoted
               probe_routes_quoted None) s trace.

(** The paths one refresh re-quotes and probes. *)
Definition materialized_paths (s : RouteSearchSession) (affected : gset PoolKey) :
    gset RoutePath := indexed_paths (iter_pools affected) (se_pool_to_routes s).
Definition probe_paths (s : RouteSearchSession) (affected : gset PoolKey) : gset RoutePath :=
  indexed_paths (iter_pools affected) (se_parallel_probe_index s) ∖ materialized_paths s affected.

(** [refresh_affected]; [mock_overlay] is the overlay of the caller's cache. *)
Definition refresh_affected (searcher : AmmSearcher) (mock_overlay : AdapterCache)
    (affected : AffectedPools) (s : RouteSearchSession) (trace : list RouteUpdateEvent) :
    option Refresh :=
  let previous_best := se_best s in
  let pools := affected_pools affected in
  let early := early_recompute_reason s searcher affected in
  let '(go_on, trace) := emit_route_update_event (UpStarted pools) trace in
  if negb go_on then
    Some (incremental_report s previous_best
            (match early with Some _ => RecomputeRequired | None => Unchanged end)
            pools 0 0 early, s, trace)
  else
    match early with
    | Some reason => Some (recompute_required s previous_best pools reason trace)
    | None =>
        if decide (pools = ∅) then Some (unchanged s previous_best pools trace)
        else
          match affected_pool_reason (as_registry searcher) (iter_pools pools) with
          | Some reason => Some (recompute_required s previous_best pools reason trace)
          | None =>
              let s := set_quote_cache (set_context (as_quote_context searcher)
                         (se_quote_cache s)) s in
              let materialized := materialized_paths s pools in
              let probes := probe_paths s pools in
              if decide (materialized = ∅ ∧ probes = ∅) then
                Some (unchanged s previous_best pools trace)
              else if decide (se_max_probe_paths_per_refresh s < size probes) then
                Some (recompute_required s previous_best pools
                        (ProbeBudgetExceeded (size probes) (se_max_probe_paths_per_refresh s))
                        trace)
              else
                let s := set_quote_cache (invalidate_pools pools (se_quote_cache s)) s in
                '(routes_requoted, cache, s, trace) ←
                  requote_materialized searcher (sorted_paths (iter_paths materialized))
                    (new_overlay_cache searcher mock_overlay) s trace;
                '(probe_routes_quoted, s, trace) ←
                  quote_probes searcher (sorted_paths (iter_paths probes)) cache s trace;
                Some (finish_refresh previous_best pools routes_requoted probe_routes_quoted
                        s trace)
          end
    end.
End refresh.

(** ** Starting a session

    [start_route_session] after its streamed search, which reported [best],
    [finality] and the [quotes] in the order it observed them, and filled
    [quote_cache]. *)
Definition session_from_run (searcher : AmmSearcher) (request : RouteRequest)
    (streaming_config : StreamingSearchConfig) (best : option RouteQuote)
    (finality : SearchFinality) (quotes : list RouteQuote) (quote_cache : SharedQuoteCache) :
    RouteSearchSession :=
  let session :=
    {| se_request := request; se_streaming_config := streaming_config;
       se_finality := finality; se_route_table := ∅; se_pool_to_routes := ∅;
       se_parallel_probe_index := ∅; se_best := best; se_quote_cache := quote_cache;
       se_graph_version := version (as_graph searcher);
       se_state_point := state_point searcher;
       se_max_probe_paths_per_refresh := DEFAULT_INCREMENTAL_PROBE_LIMIT |} in
  let session := foldl (insert_quote searcher) session quotes in
  match best with
  | Some best =>
      match se_route_table session !! rq_path best with
      | Some _ => session
      | None => insert_quote searcher session best
      end
  | None => session
  end.
End session.
Arguments rpc_inner {Log}.
Arguments rpc_removed {Log}.
