(* ===== verification/SessionProps.v ===== *)
(** * Lemmas on route sessions

    The indexes of a session as sets of routes, and what the two phases of a
    refresh do to its route table. *)

From S2P Require Import Prelude AmmState Petgraph Graph Config SearchTypes QuoteCache.
From S2P Require Import QuoteCacheProps Quote QuoteProps Searcher Streaming Session.

Section session.
Context `{!AmmTypes} `{!Petgraph Address EdgeData}.
Implicit Types (s : RouteSearchSession) (path : RoutePath) (q : RouteQuote).

(** ** Indexes *)

Definition listed (m : gmap PoolKey (gset RoutePath)) (pool : PoolKey) : gset RoutePath :=
  default ∅ (m !! pool).

Definition uses_pool (pool : PoolKey) path : Prop := pool ∈ hop_pool <$> path.

Lemma listed_index_path path pool m pool' :
  listed (index_path path pool m) pool' =
  if decide (pool = pool') then {[path]} ∪ listed m pool' else listed m pool'.
Proof. apply default_entry. Qed.

Lemma elem_of_index_path path pool m pool' path' :
  path' ∈ listed (index_path path pool m) pool' ↔
  path' ∈ listed m pool' ∨ path' = path ∧ pool' = pool.
Proof. rewrite listed_index_path. case_decide; set_solver. Qed.

Lemma elem_of_index_route path m pool path' :
  path' ∈ listed (index_route_path path m) pool ↔
  path' ∈ listed m pool ∨ path' = path ∧ uses_pool pool path.
Proof.
  unfold index_route_path, uses_pool.
  assert (∀ hops m, path' ∈ listed (foldl (λ m hop, index_path path (hop_pool hop) m) m hops) pool
    ↔ path' ∈ listed m pool ∨ path' = path ∧ pool ∈ hop_pool <$> hops) as Hfold; [|apply Hfold].
  clear m. induction hops as [|h hops IH]; intros m; csimpl; [set_solver|].
  rewrite IH, elem_of_index_path. set_solver.
Qed.

(** [probe] replaces the pool of the hop at [i] of [path] by that of an edge
    between the same tokens that the path does not use elsewhere. *)
Definition replacement (g : AmmGraph) path (i : nat) (hop : Hop) (pool : PoolKey)
    (probe : RoutePath) : Prop :=
  path !! i = Some hop ∧ pool ≠ hop_pool hop ∧
  (∃ node edge, node_index g (hop_token_in hop) = Some node ∧
     edge ∈ outgoing_edges g node ∧ ce_token_out edge = hop_token_out hop ∧
     ce_pool edge = pool) ∧
  (∀ j hop', path !! j = Some hop' → j ≠ i → hop_pool hop' ≠ pool) ∧
  probe = <[i := {| hop_pool := pool; hop_token_in := hop_token_in hop;
                    hop_token_out := hop_token_out hop |}]> path.

Lemma probe_for_edge_spec path i hop edge probe :
  probe_for_edge path i hop edge = Some probe ↔
  ce_token_out edge = hop_token_out hop ∧ ce_pool edge ≠ hop_pool hop ∧
  (∀ j hop', path !! j = Some hop' → j ≠ i → hop_pool hop' ≠ ce_pool edge) ∧
  probe = <[i := {| hop_pool := ce_pool edge; hop_token_in := hop_token_in hop;
                    hop_token_out := hop_token_out hop |}]> path.
Proof.
  unfold probe_for_edge.
  case_bool_decide as H1; [naive_solver|].
  case_bool_decide as H2; [naive_solver|].
  case_bool_decide as H3.
  - split; [done|]. intros (_ & _ & Hno & _). apply Exists_exists in H3 as ([j h'] & Hj & Hji & Hp).
    apply elem_of_enumerate in Hj. exfalso. by apply (Hno j h').
  - split; [|by intros (_ & _ & _ & ->)]. intros [= <-]. split_and!; try done.
    intros j h' Hj Hji Hp. apply H3, Exists_exists. exists (j, h').
    by rewrite elem_of_enumerate.
Qed.

Lemma elem_of_index_probe_edge path i hop edges m pool probe :
  probe ∈ listed (foldl (index_probe_edge path i hop) m edges) pool ↔
  probe ∈ listed m pool ∨
  ∃ edge, edge ∈ edges ∧ probe_for_edge path i hop edge = Some probe ∧
    (pool = hop_pool hop ∨ pool = ce_pool edge).
Proof.
  revert m. induction edges as [|edge edges IH]; intros m; simpl; [set_solver|].
  rewrite IH. unfold index_probe_edge at 1.
  destruct (probe_for_edge path i hop edge) as [p|] eqn:Hp.
  - rewrite !elem_of_index_path. set_solver.
  - set_solver.
Qed.

Lemma elem_of_index_probe_hops searcher path hops m pool probe :
  probe ∈ listed (foldl (λ m '(hop_index, hop),
    match node_index (as_graph searcher) (hop_token_in hop) with
    | None => m
    | Some node =>
        foldl (index_probe_edge path hop_index hop) m (outgoing_edges (as_graph searcher) node)
    end) m hops) pool ↔
  probe ∈ listed m pool ∨
  ∃ i hop node edge, (i, hop) ∈ hops ∧
    node_index (as_graph searcher) (hop_token_in hop) = Some node ∧
    edge ∈ outgoing_edges (as_graph searcher) node ∧
    probe_for_edge path i hop edge = Some probe ∧ (pool = hop_pool hop ∨ pool = ce_pool edge).
Proof.
  revert m. induction hops as [|[i hop] hops IH]; intros m; simpl; [set_solver|].
  rewrite IH. destruct (node_index (as_graph searcher) (hop_token_in hop)) as [node|] eqn:Hn.
  - rewrite elem_of_index_probe_edge. split.
    + intros [[?|(edge & ? & ? & ?)]|(j & h & n & e & ? & ?)]; [by left|right..].
      * exists i, hop, node, edge. rewrite elem_of_cons. naive_solver.
      * exists j, h, n, e. rewrite elem_of_cons. naive_solver.
    + intros [?|(j & h & n & e & Hj & Hnn & ? & ? & ?)]; [by left; left|].
      apply elem_of_cons in Hj as [[= -> ->]|Hj].
      * left. right. exists e. rewrite Hn in Hnn. injection Hnn as <-. done.
      * right. exists j, h, n, e. done.
  - split.
    + intros [?|(j & h & n & e & ? & ?)]; [by left|right]. exists j, h, n, e.
      rewrite elem_of_cons. naive_solver.
    + intros [?|(j & h & n & e & Hj & Hnn & ?)]; [by left|right].
      apply elem_of_cons in Hj as [[= -> ->]|Hj]; [congruence|]. by exists j, h, n, e.
Qed.

Lemma elem_of_index_probes searcher path m pool probe :
  probe ∈ listed (index_probe_paths_for_route searcher path m) pool ↔
  probe ∈ listed m pool ∨
  ∃ i hop pool', replacement (as_graph searcher) path i hop pool' probe ∧
    (pool = hop_pool hop ∨ pool = pool').
Proof.
  unfold index_probe_paths_for_route. rewrite elem_of_index_probe_hops.
  setoid_rewrite elem_of_enumerate. setoid_rewrite probe_for_edge_spec. unfold replacement.
  split; (intros [?|Hex]; [by left|right]).
  - destruct Hex as (i & hop & node & edge & ? & ? & ? & (? & ? & ? & ?) & ?).
    exists i, hop, (ce_pool edge). split_and!; try done. by exists node, edge.
  - destruct Hex as (i & hop & pool' & (? & ? & (node & edge & ? & ? & ? & <-) & ? & ?) & ?).
    exists i, hop, node, edge. split_and!; done.
Qed.

(** ** The invariant of a session *)

Record session_ok s : Prop := {
  so_table path q : se_route_table s !! path = Some (Quoted q) → rq_path q = path;
  so_routes pool path : path ∈ listed (se_pool_to_routes s) pool ↔
    is_Some (se_route_table s !! path) ∧ uses_pool pool path;
}.

Lemma insert_quote_ok searcher s q : session_ok s → session_ok (insert_quote searcher s q).
Proof.
  intros [Ht Hr]. unfold insert_quote. destruct s; simpl in *. constructor; simpl.
  - intros path q'. destruct (decide (path = rq_path q)) as [->|Hne].
    + rewrite lookup_insert_eq. by intros [= <-].
    + rewrite lookup_insert_ne by done. apply Ht.
  - intros pool path. rewrite elem_of_index_route, Hr.
    destruct (decide (path = rq_path q)) as [->|Hne].
    + rewrite lookup_insert_eq. split; [|naive_solver]. intros [[_ ?]|[_ ?]]; eauto.
    + rewrite lookup_insert_ne by done. naive_solver.
Qed.

Lemma insert_quotes_ok searcher s qs :
  session_ok s → session_ok (foldl (insert_quote searcher) s qs).
Proof. revert s. induction qs; intros s Hs; simpl; [done|]. by apply IHqs, insert_quote_ok. Qed.

(** Entries for tracked routes may change freely. *)
Lemma set_table_ok s t :
  session_ok s → (∀ path, is_Some (t !! path) ↔ is_Some (se_route_table s !! path)) →
  (∀ path q, t !! path = Some (Quoted q) → rq_path q = path) →
  session_ok (set_table t s).
Proof.
  intros [Ht Hr] Hdom Hq. destruct s; simpl in *. constructor; simpl; [done|].
  intros pool path. by rewrite Hr, Hdom.
Qed.

Lemma set_quote_cache_ok s qc : session_ok s → session_ok (set_quote_cache qc s).
Proof. destruct s; intros [??]; by constructor. Qed.
Lemma set_session_best_ok s b : session_ok s → session_ok (set_session_best b s).
Proof. destruct s; intros [??]; by constructor. Qed.

(** ** The route table after a refresh *)

Lemma table_insert_quote searcher s q :
  se_route_table (insert_quote searcher s q) = <[rq_path q := Quoted q]> (se_route_table s).
Proof. by destruct s. Qed.

Definition fail_all (paths : list RoutePath) (t : gmap RoutePath RouteSessionEntry) :=
  foldl (λ t path, <[path := Failed]> t) t paths.

Lemma lookup_fail_all paths t path :
  fail_all paths t !! path = if decide (path ∈ paths) then Some Failed else t !! path.
Proof.
  unfold fail_all. revert t. induction paths as [|p paths IH]; intros t; cbn [foldl].
  { by rewrite decide_False by set_solver. }
  rewrite IH. destruct (decide (path ∈ paths)).
  - by rewrite decide_True by set_solver.
  - destruct (decide (path = p)) as [->|Hne].
    + by rewrite decide_True, lookup_insert_eq by set_solver.
    + by rewrite decide_False, lookup_insert_ne by set_solver.
Qed.

Lemma requoted_table searcher materialized quotes failures s :
  requoted searcher materialized quotes failures s =
  foldl (insert_quote searcher)
    (set_table (fail_all (materialized ++ (pf_path <$> failures)) (se_route_table s)) s) quotes.
Proof.
  unfold requoted, fail_all. by rewrite foldl_app, foldl_fmap_list.
Qed.

(** What inserting quotes does to the table when each path has at most one
    quote, [cur]. *)
Lemma table_insert_quotes searcher (cur : RoutePath → option RouteQuote) qs s path :
  (∀ q, q ∈ qs → cur (rq_path q) = Some q) →
  se_route_table (foldl (insert_quote searcher) s qs) !! path =
  if decide (path ∈ rq_path <$> qs) then Quoted <$> cur path else se_route_table s !! path.
Proof.
  revert s. induction qs as [|q qs IH]; intros s Hcur; cbn [foldl]; rewrite ?fmap_cons.
  { by rewrite decide_False by set_solver. }
  rewrite IH by set_solver. rewrite table_insert_quote.
  destruct (decide (path ∈ rq_path <$> qs)).
  - by rewrite decide_True by set_solver.
  - destruct (decide (path = rq_path q)) as [->|Hne].
    + rewrite decide_True, lookup_insert_eq by set_solver. rewrite Hcur by set_solver. done.
    + by rewrite decide_False, lookup_insert_ne by set_solver.
Qed.

Lemma requoted_ok searcher materialized quotes failures s :
  session_ok s →
  (∀ path, path ∈ materialized → is_Some (se_route_table s !! path)) →
  (∀ f, f ∈ failures → pf_path f ∈ materialized) →
  session_ok (requoted searcher materialized quotes failures s).
Proof.
  intros Hs Hm Hf. rewrite requoted_table. apply insert_quotes_ok, set_table_ok; [done|..].
  - intros path. rewrite lookup_fail_all. case_decide as Hin; [|done].
    split; [intros _|by eexists]. apply elem_of_app in Hin as [Hin|Hin]; [auto|].
    apply list_elem_of_fmap in Hin as (f & -> & Hin). auto.
  - intros path q. rewrite lookup_fail_all. case_decide; [done|]. apply (so_table _ Hs).
Qed.

(** Fields a refresh does not touch. *)
Definition frame s :=
  (se_request s, se_streaming_config s, se_finality s, se_graph_version s, se_state_point s,
   se_max_probe_paths_per_refresh s).

Lemma insert_quotes_frame searcher s qs :
  frame (foldl (insert_quote searcher) s qs) = frame s ∧
  se_best (foldl (insert_quote searcher) s qs) = se_best s ∧
  se_quote_cache (foldl (insert_quote searcher) s qs) = se_quote_cache s.
Proof.
  revert s. induction qs as [|q qs IH]; intros s; simpl; [done|].
  destruct (IH (insert_quote searcher s q)) as (-> & -> & ->). by destruct s.
Qed.

Lemma requoted_frame searcher materialized quotes failures s :
  frame (requoted searcher materialized quotes failures s) = frame s ∧
  se_best (requoted searcher materialized quotes failures s) = se_best s ∧
  se_quote_cache (requoted searcher materialized quotes failures s) = se_quote_cache s.
Proof.
  rewrite requoted_table.
  destruct (insert_quotes_frame searcher
    (set_table (fail_all (materialized ++ (pf_path <$> failures)) (se_route_table s)) s) quotes)
    as (-> & -> & ->). by destruct s.
Qed.

Lemma elem_of_indexed_paths pools m path :
  path ∈ indexed_paths pools m ↔ ∃ pool, pool ∈ pools ∧ path ∈ listed m pool.
Proof.
  unfold indexed_paths.
  assert (∀ X, path ∈ foldl (λ paths pool, paths ∪ default ∅ (m !! pool)) X pools ↔
    path ∈ X ∨ ∃ pool, pool ∈ pools ∧ path ∈ listed m pool) as Hf; [|rewrite Hf; set_solver].
  induction pools as [|p pools IH]; intros X; cbn [foldl]; [set_solver|].
  rewrite IH. unfold listed. setoid_rewrite elem_of_cons. set_solver.
Qed.

Lemma elem_of_sorted_paths paths path : path ∈ sorted_paths paths ↔ path ∈ paths.
Proof. apply elem_of_stable_sort. Qed.

(** ** The best entry of the table *)

Definition best_ok s : Prop :=
  match se_best s with
  | Some b =>
      se_route_table s !! rq_path b = Some (Quoted b) ∧
      ∀ path q, se_route_table s !! path = Some (Quoted q) →
        (rq_amount_out q <= rq_amount_out b)%Z
  | None => ∀ path q, se_route_table s !! path ≠ Some (Quoted q)
  end.

Lemma max_by_output_spec qs b0 :
  match foldl max_by_output b0 qs with
  | Some b => (b ∈ qs ∨ b0 = Some b) ∧ (∀ q, q ∈ qs ∨ b0 = Some q →
      (rq_amount_out q <= rq_amount_out b)%Z)
  | None => qs = [] ∧ b0 = None
  end.
Proof.
  revert b0. induction qs as [|q qs IH]; intros b0; simpl.
  { destruct b0 as [b|]; [|done]. split; [by right|]. intros q [?|[= ->]]; [set_solver|lia]. }
  specialize (IH (max_by_output b0 q)). destruct (foldl max_by_output _ qs) as [b|].
  - destruct IH as [Hin Hmax].
    assert (∃ b1, max_by_output b0 q = Some b1 ∧ (b1 = q ∨ b0 = Some b1) ∧
      (rq_amount_out q <= rq_amount_out b1)%Z ∧
      (∀ b2, b0 = Some b2 → (rq_amount_out b2 <= rq_amount_out b1)%Z)) as (b1 & Hb1 & Hor & Hq & Hb0).
    { unfold max_by_output. destruct b0 as [b'|].
      - destruct (Z.leb_spec (rq_amount_out b') (rq_amount_out q)).
        + exists q. split_and!; [done|by left|lia|]. intros b2 [= <-]. lia.
        + exists b'. split_and!; [done|by right|lia|]. intros b2 [= <-]. lia.
      - exists q. split_and!; [done|by left|lia|done]. }
    assert (rq_amount_out b1 <= rq_amount_out b)%Z by (apply Hmax; by right).
    split.
    + destruct Hin as [?|Hin]; [left; set_solver|]. rewrite Hb1 in Hin. injection Hin as <-.
      destruct Hor as [->|?]; [left; set_solver|by right].
    + intros q' [Hq'|Hq']; [apply elem_of_cons in Hq' as [->|Hq']|].
      * lia.
      * apply Hmax. by left.
      * apply Hb0 in Hq'. lia.
  - destruct IH as [_ IH]. unfold max_by_output in IH. destruct b0; [|done].
    by destruct (_ <=? _)%Z.
Qed.

Lemma best_from_table_ok iter_table s :
  (∀ t, iter_table t ≡ₚ (map_to_list t).*2) → session_ok s →
  best_ok (set_session_best (best_from_table iter_table s) s).
Proof.
  intros Hiter Hs.
  assert (∀ q, q ∈ omap entry_quote (iter_table (se_route_table s)) ↔
    se_route_table s !! rq_path q = Some (Quoted q)) as Hin.
  { intros q. rewrite list_elem_of_omap. setoid_rewrite Hiter.
    split.
    - intros ([q'|] & Hq & [= ->]). apply list_elem_of_fmap in Hq as ([path e] & He & Hq).
      simpl in He. subst e. apply elem_of_map_to_list in Hq.
      pose proof (so_table _ Hs _ _ Hq) as ->. done.
    - intros Hq. exists (Quoted q). split; [|done]. apply list_elem_of_fmap.
      exists (rq_path q, Quoted q). split; [done|]. by apply elem_of_map_to_list. }
  unfold best_ok, best_from_table.
  pose proof (max_by_output_spec (omap entry_quote (iter_table (se_route_table s))) None) as Hmax.
  destruct (foldl max_by_output None _) as [b|]; destruct s; simpl in *.
  - destruct Hmax as [[Hb|?] Hmax]; [|done]. split; [by apply Hin|].
    intros path q Hq. apply Hmax. left. apply Hin. by rewrite (so_table _ Hs _ _ Hq).
  - destruct Hmax as [Hnil _]. intros path q Hq.
    assert (q ∈ omap entry_quote (iter_table se_route_table)) as Hq'
      by (apply Hin; by rewrite (so_table _ Hs _ _ Hq)).
    rewrite Hnil in Hq'. set_solver.
Qed.
End session.
