(* ===== verification/SessionTheorems.v ===== *)
(** * Correctness of incremental sessions

    The indexes of a session are exact, a refresh asks for a recomputation
    exactly when an incremental answer would be unsound, and otherwise leaves
    the session as if every tracked route had been quoted again.  What a
    callback that stops a refresh leaves behind is stated as well. *)

From S2P Require Import Prelude AmmState Petgraph Graph GraphInv GraphProps GraphTheorems.
From S2P Require Import Config SearchTypes QuoteCache QuoteCacheProps Quote QuoteProps.
From S2P Require Import Searcher SearchTheorems Streaming StreamingProps StreamingTheorems.
From S2P Require Import Session SessionProps.

Section session.
Context `{!AmmTypes} `{!Petgraph Address EdgeData}.
Implicit Types (s : RouteSearchSession) (path : RoutePath) (q : RouteQuote).
Implicit Types (searcher : AmmSearcher) (tr : list RouteUpdateEvent).

(** Quote keys name the pool of their hop; so without a live context. *)
Definition scope_logical (ctx : QuoteKeyContext) : Prop :=
  ∀ cfg h amount k, quote_key ctx h amount cfg = Ok k → logical_pool k = hop_pool h.

Lemma scope_logical_static : scope_logical ContextStatic.
Proof. intros cfg h amount k. by intros [= <-]. Qed.

Lemma scope_logical_inj ctx : scope_logical ctx → scope_inj ctx.
Proof.
  intros Hl p p' sc Hp Hp'.
  assert (∀ p0, pool_scope ctx p0 = Ok sc →
    logical_pool {| key_pool := sc; key_token_in := 0%Z; key_token_out := 0%Z;
      key_amount_in := 0%Z; key_sim_config := SimConfigKey_from SimConfig_default |} = p0) as H1.
  { intros p0 H0. apply (Hl SimConfig_default
      {| hop_pool := p0; hop_token_in := 0%Z; hop_token_out := 0%Z |} 0%Z).
    unfold quote_key. simpl. by rewrite H0. }
  by rewrite <-(H1 p), <-(H1 p').
Qed.

(** The environment of a refresh: consistent adapters, keys that name pools,
    and an overlay the adapters answer from. *)
Record refresh_env searcher (Inv : AdapterCache → Prop)
    (sim : SimConfig → Hop → U256 → result SimError U256) (overlay : AdapterCache) : Prop := {
  re_simulates : simulates (as_registry searcher) Inv sim;
  re_scopes : scope_logical (as_quote_context searcher);
  re_overlay : Inv (new_overlay_cache searcher overlay);
}.

Section refresh.
Context (on_event : list RouteUpdateEvent → RouteUpdateEvent → SearchControl).
Context (searcher : AmmSearcher) (Inv : AdapterCache → Prop)
  (sim : SimConfig → Hop → U256 → result SimError U256).
Let R := as_registry searcher.
Let ctx := as_quote_context searcher.
Hypothesis (Hsim : simulates R Inv sim).
Hypothesis (Hlog : scope_logical ctx).

(** The quote of a path for the session's request, and the table entry it
    should have. *)
Definition session_quote s path : option RouteQuote :=
  quote_of R sim (rr_sim_config (se_request s)) ctx (rr_amount_in (se_request s)) path.
Definition current_entry s path : RouteSessionEntry :=
  match session_quote s path with Some q => Quoted q | None => Failed end.

Lemma session_quote_path s path q : session_quote s path = Some q → rq_path q = path.
Proof.
  unfold session_quote, quote_of. destruct (path_quote _ _ _ _ _ _) eqn:Hq; [|done].
  intros [= <-]. by apply path_quote_path in Hq as [? _].
Qed.

Lemma quote_observed_spec s event paths c tr :
  Inv c → coherent R sim ctx (se_quote_cache s) →
  ∃ e, quote_observed on_event searcher s event paths c tr = Some e ∧
    Inv (ev_cache e) ∧ coherent R sim ctx (ev_quote_cache e) ∧
    (∀ q, q ∈ ev_quotes e → rq_path q ∈ paths ∧ session_quote s (rq_path q) = Some q) ∧
    (∀ f, f ∈ ev_failures e → pf_path f ∈ paths ∧ session_quote s (pf_path f) = None) ∧
    ((∀ tr q, on_event tr (event q) = Continue) →
     ∀ path q, path ∈ paths → session_quote s path = Some q → q ∈ ev_quotes e) ∧
    ((∀ tr q, on_event tr (event q) = Stop) → length (ev_quotes e) ≤ 1).
Proof.
  intros Hc Hqc. unfold quote_observed.
  set (cfg := rr_sim_config (se_request s)). set (amount := rr_amount_in (se_request s)).
  set (f := λ (quote : RouteQuote) trace, emit_route_update_event on_event (event quote) trace).
  destruct (quote_paths_observed_spec R Inv sim cfg Hsim ctx amount (Some f) None
    (scope_logical_inj _ Hlog) paths c (se_quote_cache s) tr Hc Hqc) as (e & Heq & [Hv [Hc' Hqc']]).
  exists e. split; [done|]. split; [done|]. split; [done|].
  set (results := results_of R sim cfg ctx amount paths) in *.
  match type of Hv with _ = ev_view (consume _ _ _ ?e0) => set (e0' := e0) in * end.
  destruct (consume_prefix (Some f) None results e0' eq_refl) as (k & Hk & Hq & Hf & Hs).
  unfold ev_view in Hv. injection Hv as Hq' Hf' _ Hs'. simpl in Hq, Hf.
  assert (∀ r, r ∈ results ↔ ∃ p, p ∈ paths ∧ r = result_of R sim cfg ctx amount p) as Hres.
  { intros r. unfold results. rewrite results_of_perm, list_elem_of_fmap. naive_solver. }
  assert (∀ r, r ∈ take k results → r ∈ results) as Htake.
  { intros r Hr. rewrite <-(take_drop k results). set_solver. }
  split_and!.
  - intros q. rewrite Hq', Hq, list_elem_of_omap. intros ([q'|] & Hr & [= ->]).
    apply Htake, Hres in Hr as (p & Hp & Hr). unfold result_of in Hr.
    destruct (path_quote R sim cfg ctx p amount) as [q'|] eqn:Hpq; [|done]. injection Hr as ->.
    assert (session_quote s p = Some q') as Hsq by (unfold session_quote, quote_of; fold cfg amount; by rewrite Hpq).
    by rewrite (session_quote_path _ _ _ Hsq).
  - intros fl. rewrite Hf', Hf, list_elem_of_omap. intros ([|f'] & Hr & [= ->]).
    apply Htake, Hres in Hr as (p & Hp & Hr). unfold result_of in Hr.
    destruct (path_quote R sim cfg ctx p amount) as [q'|] eqn:Hpq; [done|]. injection Hr as ->.
    simpl. split; [done|]. unfold session_quote, quote_of. fold cfg amount. by rewrite Hpq.
  - intros Hacc path q Hp Hsq. rewrite Hq', Hq, Hs; [|apply consume_accepting; [|done]].
    + rewrite take_ge by done. apply list_elem_of_omap. exists (Ok q). split; [|done].
      apply Hres. exists path. split; [done|]. unfold result_of, session_quote, quote_of in *.
      fold cfg amount in Hsq. by destruct (path_quote _ _ _ _ _ _); [injection Hsq as ->|].
    + intros q0 st. unfold f, emit_route_update_event. by rewrite Hacc.
  - intros Hstop. rewrite Hq'. apply (consume_refusing f results e0'); [|done].
    intros q0 st. unfold f, emit_route_update_event. by rewrite Hstop.
Qed.

(** ** Phase one *)

Lemma requote_materialized_spec M c s tr :
  session_ok s → (∀ path, path ∈ M → is_Some (se_route_table s !! path)) →
  Inv c → coherent R sim ctx (se_quote_cache s) →
  ∃ n c' s' tr',
    requote_materialized on_event searcher M c s tr = Some (n, c', s', tr') ∧
    Inv c' ∧ coherent R sim ctx (se_quote_cache s') ∧ session_ok s' ∧
    frame s' = frame s ∧ se_best s' = se_best s ∧
    (∀ path, path ∉ M → se_route_table s' !! path = se_route_table s !! path) ∧
    ((∀ tr q, on_event tr (UpRouteRequoted q) = Continue) →
     ∀ path, path ∈ M → se_route_table s' !! path = Some (current_entry s path)) ∧
    ((∀ tr q, on_event tr (UpRouteRequoted q) = Stop) →
     ∃ kept, length kept ≤ 1 ∧
       ∀ path, path ∈ M → path ∉ kept → se_route_table s' !! path = Some Failed).
Proof.
  intros Hok HM Hc Hqc. unfold requote_materialized. case_decide as Hnil.
  { subst M. do 4 eexists. split; [done|]. split_and!; try done; try set_solver.
    intros _. exists []. simpl. split; [lia|set_solver]. }
  destruct (quote_observed_spec s UpRouteRequoted M c tr Hc Hqc)
    as (e & -> & Hc' & Hqc' & Hq & Hf & Hacc & Hstop).
  simpl. do 4 eexists. split; [done|].
  set (s1 := set_quote_cache (ev_quote_cache e) s).
  assert (se_route_table s1 = se_route_table s) as Ht1 by (by destruct s).
  destruct (requoted_frame searcher M (ev_quotes e) (ev_failures e) s1) as (Hfr & Hb & Hcache).
  assert (∀ path, se_route_table (requoted searcher M (ev_quotes e) (ev_failures e) s1) !! path =
    if decide (path ∈ rq_path <$> ev_quotes e) then Quoted <$> session_quote s path
    else if decide (path ∈ M ++ (pf_path <$> ev_failures e)) then Some Failed
    else se_route_table s !! path) as Htab.
  { intros path. rewrite requoted_table, (table_insert_quotes searcher (session_quote s)).
    - case_decide; [done|].
      assert (∀ t, se_route_table (set_table t s1) = t) as -> by (by destruct s).
      by rewrite lookup_fail_all, Ht1.
    - intros q0 Hq0. by apply Hq. }
  assert (∀ path, path ∈ rq_path <$> ev_quotes e →
    path ∈ M ∧ ∃ q, q ∈ ev_quotes e ∧ session_quote s path = Some q) as Hquoted.
  { intros path (q & -> & Hin)%list_elem_of_fmap. apply Hq in Hin as Hin'.
    destruct Hin'. split; [done|]. eauto. }
  split_and!.
  - done.
  - rewrite Hcache. by destruct s.
  - apply requoted_ok; [by apply set_quote_cache_ok| |].
    + intros path Hp. rewrite Ht1. auto.
    + intros f0 Hf0. by apply Hf.
  - rewrite Hfr. by destruct s.
  - rewrite Hb. by destruct s.
  - intros path Hp. rewrite Htab, decide_False by (intros Hin; by apply Hquoted in Hin as [? _]).
    rewrite decide_False; [done|]. rewrite elem_of_app. intros [?|Hin]; [done|].
    apply list_elem_of_fmap in Hin as (f0 & -> & Hin). by apply Hf in Hin as [? _].
  - intros Hall path Hp. rewrite Htab. unfold current_entry. case_decide as Hin.
    + apply Hquoted in Hin as (_ & q0 & _ & ->). done.
    + rewrite decide_True by set_solver. destruct (session_quote s path) as [q0|] eqn:Hsq; [|done].
      exfalso. apply Hin, list_elem_of_fmap. exists q0.
      split; [by rewrite (session_quote_path _ _ _ Hsq)|]. by eapply Hacc.
  - intros Hall. exists (rq_path <$> ev_quotes e). rewrite length_fmap. split; [by apply Hstop|].
    intros path Hp Hin. rewrite Htab, decide_False, decide_True by set_solver. done.
Qed.

(** ** Phase two *)

Lemma quote_probes_spec P c s tr :
  session_ok s → Inv c → coherent R sim ctx (se_quote_cache s) →
  ∃ n s' tr',
    quote_probes on_event searcher P c s tr = Some (n, s', tr') ∧
    coherent R sim ctx (se_quote_cache s') ∧ session_ok s' ∧
    frame s' = frame s ∧ se_best s' = se_best s ∧
    (∀ path, se_route_table s' !! path = se_route_table s !! path ∨
       path ∈ P ∧ se_route_table s' !! path = Some (current_entry s path)) ∧
    ((∀ tr q, on_event tr (UpProbeRouteFound q) = Continue) →
     ∀ path q, path ∈ P → session_quote s path = Some q →
       se_route_table s' !! path = Some (Quoted q)).
Proof.
  intros Hok Hc Hqc. unfold quote_probes. case_decide as Hnil.
  { subst P. do 3 eexists. split; [done|]. split_and!; try done; [by left|set_solver]. }
  destruct (quote_observed_spec s UpProbeRouteFound P c tr Hc Hqc)
    as (e & -> & Hc' & Hqc' & Hq & _ & Hacc & _).
  simpl. do 3 eexists. split; [done|].
  set (s1 := set_quote_cache (ev_quote_cache e) s).
  destruct (insert_quotes_frame searcher s1 (ev_quotes e)) as (Hfr & Hb & Hcache).
  assert (∀ path, se_route_table (foldl (insert_quote searcher) s1 (ev_quotes e)) !! path =
    if decide (path ∈ rq_path <$> ev_quotes e) then Quoted <$> session_quote s path
    else se_route_table s !! path) as Htab.
  { intros path. rewrite (table_insert_quotes searcher (session_quote s)).
    - case_decide; [done|]. by destruct s.
    - intros q0 Hq0. by apply Hq. }
  split_and!.
  - rewrite Hcache. by destruct s.
  - apply insert_quotes_ok. by apply set_quote_cache_ok.
  - rewrite Hfr. by destruct s.
  - rewrite Hb. by destruct s.
  - intros path. rewrite Htab. case_decide as Hin; [|by left]. right.
    apply list_elem_of_fmap in Hin as (q0 & -> & Hin). apply Hq in Hin as [? Hsq].
    split; [done|]. unfold current_entry. by rewrite Hsq.
  - intros Hall path q Hp Hsq. rewrite Htab, decide_True; [by rewrite Hsq|].
    apply list_elem_of_fmap. exists q. rewrite (session_quote_path _ _ _ Hsq).
    split; [done|]. by eapply Hacc.
Qed.
End refresh.

(** ** The whole refresh *)

(** The iteration orders of the hash sets and maps. *)
Record iteration_orders (iter_pools : gset PoolKey → list PoolKey)
    (iter_paths : gset RoutePath → list RoutePath)
    (iter_table : gmap RoutePath RouteSessionEntry → list RouteSessionEntry) : Prop := {
  io_pools X : iter_pools X ≡ₚ elements X;
  io_paths X : iter_paths X ≡ₚ elements X;
  io_table t : iter_table t ≡ₚ (map_to_list t).*2;
}.

(** A session whose table says of each tracked route what quoting it says. *)
Definition table_current searcher sim s : Prop :=
  ∀ path e, se_route_table s !! path = Some e → e = current_entry searcher sim s path.

Definition session_current searcher sim s : Prop :=
  session_ok s ∧ best_ok s ∧ table_current searcher sim s ∧
  coherent (as_registry searcher) sim (as_quote_context searcher) (se_quote_cache s).

Lemma coherent_invalidate R0 sim0 R sim ctx qc pools :
  scope_logical ctx → coherent R0 sim0 ctx qc →
  (∀ cfg h amount, hop_pool h ∉ pools →
     hop_result R0 sim0 cfg h amount = hop_result R sim cfg h amount) →
  coherent R sim ctx (invalidate_pools pools qc).
Proof.
  intros Hlog [Hctx Hidx Hent] Hagree.
  destruct (invalidate_pools_spec pools qc Hidx) as (Hidx' & Hent' & _ & Hctx').
  constructor; [congruence|done|]. intros cfg h amount k Hk. rewrite Hent'.
  pose proof (Hlog _ _ _ _ Hk) as Hpool. case_decide as Hin; [done|].
  specialize (Hent _ _ _ _ Hk). rewrite Hpool in Hin.
  destruct (entries qc !! k) as [[|e]|]; [done| |done]. by rewrite <-Hagree.
Qed.

Lemma coherent_agrees R0 sim0 R sim ctx qc :
  coherent R0 sim0 ctx qc →
  (∀ cfg h amount, hop_result R0 sim0 cfg h amount = hop_result R sim cfg h amount) →
  coherent R sim ctx qc.
Proof.
  intros [Hctx Hidx Hent] Hagree. constructor; [done|done|]. intros cfg h amount k Hk.
  specialize (Hent _ _ _ _ Hk). destruct (entries qc !! k) as [[|e]|]; [done| |done].
  by rewrite <-Hagree.
Qed.

Lemma current_entry_agrees searcher0 sim0 searcher sim s path :
  as_quote_context searcher0 = as_quote_context searcher →
  (∀ h, h ∈ path → ∀ cfg amount, hop_result (as_registry searcher0) sim0 cfg h amount =
     hop_result (as_registry searcher) sim cfg h amount) →
  current_entry searcher0 sim0 s path = current_entry searcher sim s path.
Proof.
  intros Hctx Hagree. unfold current_entry, session_quote, quote_of. rewrite Hctx.
  by rewrite (path_quote_agrees _ (as_registry searcher) _ sim) by auto.
Qed.

Lemma current_entry_frame searcher sim s s' path :
  frame s = frame s' → current_entry searcher sim s path = current_entry searcher sim s' path.
Proof.
  intros Hf. assert (se_request s = se_request s') as Hr by (unfold frame in Hf; congruence).
  unfold current_entry, session_quote. by rewrite Hr.
Qed.

Section whole.
Context (on_event : list RouteUpdateEvent → RouteUpdateEvent → SearchControl).
Context (iter_pools : gset PoolKey → list PoolKey)
  (iter_paths : gset RoutePath → list RoutePath)
  (iter_table : gmap RoutePath RouteSessionEntry → list RouteSessionEntry).
Hypothesis (Hiter : iteration_orders iter_pools iter_paths iter_table).

Abbreviation refresh := (refresh_affected on_event iter_pools iter_paths iter_table).

Lemma elem_of_materialized s pools path :
  session_ok s →
  path ∈ materialized_paths iter_pools s pools ↔
  is_Some (se_route_table s !! path) ∧ ∃ pool, pool ∈ pools ∧ uses_pool pool path.
Proof.
  intros Hs. unfold materialized_paths. rewrite elem_of_indexed_paths.
  setoid_rewrite (io_pools _ _ _ Hiter). setoid_rewrite elem_of_elements.
  setoid_rewrite (so_routes _ Hs). naive_solver.
Qed.

Lemma affected_pool_reason_spec registry pools :
  (affected_pool_reason registry pools = None ↔
   ∀ pool, pool ∈ pools → ∃ reg, registry_pool registry pool = Some reg ∧
     reg_status reg ≠ PoolStatus.Degraded).
Proof.
  induction pools as [|p pools IH]; simpl; [set_solver|].
  destruct (registry_pool registry p) as [reg|] eqn:Hp.
  - case_decide as Hd.
    + split; [done|]. intros Hall. destruct (Hall p) as (r & Hr & Hn); [set_solver|]. congruence.
    + rewrite IH. split.
      * intros Hall pool [->|?]%elem_of_cons; [by exists reg|auto].
      * intros Hall pool ?. apply Hall. set_solver.
  - split; [done|]. intros Hall. destruct (Hall p) as (r & Hr & _); [set_solver|]. congruence.
Qed.

(** The conditions under which an incremental answer would be unsound. *)
Definition must_recompute searcher (affected : AffectedPools) s : Prop :=
  (0 < removed_logs affected)%Z ∨ (0 < unknown_logs affected)%Z ∨
  se_state_point s ≠ state_point searcher ∨
  se_graph_version s ≠ version (as_graph searcher) ∨
  (∃ pool, pool ∈ affected_pools affected ∧
     ∀ reg, registry_pool (as_registry searcher) pool = Some reg →
       reg_status reg = PoolStatus.Degraded) ∨
  se_max_probe_paths_per_refresh s < size (probe_paths iter_pools s (affected_pools affected)).

Lemma early_reason_spec s searcher affected :
  early_recompute_reason s searcher affected = None ↔
  ¬ (0 < removed_logs affected)%Z ∧ ¬ (0 < unknown_logs affected)%Z ∧
  se_state_point s = state_point searcher ∧
  se_graph_version s = version (as_graph searcher).
Proof.
  unfold early_recompute_reason.
  destruct (Z.ltb_spec 0 (removed_logs affected)); [naive_solver lia|].
  destruct (Z.ltb_spec 0 (unknown_logs affected)); [naive_solver lia|].
  destruct (se_state_point s) as [p|], (state_point searcher) as [p'|]; simpl;
    repeat case_decide; split; intros; destruct_all; try done; try congruence;
    split_and!; try lia; congruence.
Qed.

Definition with_search_context searcher s : RouteSearchSession :=
  set_quote_cache (set_context (as_quote_context searcher) (se_quote_cache s)) s.
Definition invalidated searcher (pools : gset PoolKey) s : RouteSearchSession :=
  set_quote_cache (invalidate_pools pools
    (set_context (as_quote_context searcher) (se_quote_cache s))) s.

(** The two phases and the end of a refresh. *)
Definition incremental searcher overlay (pools : gset PoolKey) s tr : option Refresh :=
  '(routes_requoted, cache, s1, tr) ←
    requote_materialized on_event searcher
      (sorted_paths (iter_paths (materialized_paths iter_pools s pools)))
      (new_overlay_cache searcher overlay) (invalidated searcher pools s) tr;
  '(probe_routes_quoted, s2, tr) ←
    quote_probes on_event searcher
      (sorted_paths (iter_paths (probe_paths iter_pools s pools))) cache s1 tr;
  Some (finish_refresh on_event iter_table (se_best s) pools routes_requoted
          probe_routes_quoted s2 tr).

Inductive outcome searcher overlay (affected : AffectedPools) s tr : option Refresh → Prop :=
  | outcome_recompute s' reason :
      must_recompute searcher affected s →
      s' = s ∨ s' = with_search_context searcher s →
      outcome searcher overlay affected s tr
        (Some (recompute_required on_event s' (se_best s) (affected_pools affected) reason tr))
  | outcome_none :
      ¬ must_recompute searcher affected s → affected_pools affected = ∅ →
      outcome searcher overlay affected s tr
        (Some (unchanged on_event s (se_best s) (affected_pools affected) tr))
  | outcome_untracked :
      ¬ must_recompute searcher affected s →
      affected_pools affected ≠ ∅ →
      materialized_paths iter_pools s (affected_pools affected) = ∅ →
      probe_paths iter_pools s (affected_pools affected) = ∅ →
      outcome searcher overlay affected s tr
        (Some (unchanged on_event (with_search_context searcher s) (se_best s)
                 (affected_pools affected) tr))
  | outcome_incremental :
      ¬ must_recompute searcher affected s →
      affected_pools affected ≠ ∅ →
      (materialized_paths iter_pools s (affected_pools affected) ≠ ∅ ∨
       probe_paths iter_pools s (affected_pools affected) ≠ ∅) →
      outcome searcher overlay affected s tr
        (incremental searcher overlay (affected_pools affected) s tr).

Lemma probe_paths_empty s : probe_paths iter_pools s ∅ = ∅.
Proof.
  apply set_eq. intros path. unfold probe_paths. rewrite elem_of_difference, elem_of_indexed_paths.
  setoid_rewrite (io_pools _ _ _ Hiter). set_solver.
Qed.

Lemma paths_of_cache s qc pools :
  materialized_paths iter_pools (set_quote_cache qc s) pools =
    materialized_paths iter_pools s pools ∧
  probe_paths iter_pools (set_quote_cache qc s) pools = probe_paths iter_pools s pools ∧
  se_max_probe_paths_per_refresh (set_quote_cache qc s) = se_max_probe_paths_per_refresh s ∧
  se_quote_cache (set_quote_cache qc s) = qc ∧
  (∀ qc', set_quote_cache qc' (set_quote_cache qc s) = set_quote_cache qc' s).
Proof. by destruct s. Qed.

Lemma early_reason_Some s searcher affected reason :
  early_recompute_reason s searcher affected = Some reason → must_recompute searcher affected s.
Proof.
  unfold early_recompute_reason, must_recompute.
  destruct (Z.ltb_spec 0 (removed_logs affected)); [by left|].
  destruct (Z.ltb_spec 0 (unknown_logs affected)); [by right; left|].
  intros Hr. right. right.
  destruct (decide (se_state_point s = state_point searcher)) as [Heq|Hne]; [right|by left].
  left. intros Hv. rewrite Heq, decide_True in Hr by done.
  destruct (state_point searcher); [|done]. by rewrite decide_True in Hr.
Qed.

Lemma affected_reason_Some registry pools reason :
  affected_pool_reason registry pools = Some reason →
  ∃ pool, pool ∈ pools ∧ ∀ reg, registry_pool registry pool = Some reg →
    reg_status reg = PoolStatus.Degraded.
Proof.
  induction pools as [|p pools IH]; simpl; [done|].
  destruct (registry_pool registry p) as [reg|] eqn:Hp; [case_decide|].
  - intros _. exists p. split; [set_solver|]. naive_solver.
  - intros Hr. destruct (IH Hr) as (pool & ? & ?). exists pool. split; [set_solver|done].
  - intros _. exists p. split; [set_solver|]. naive_solver.
Qed.

Lemma no_recompute searcher affected s :
  early_recompute_reason s searcher affected = None →
  affected_pool_reason (as_registry searcher) (iter_pools (affected_pools affected)) = None →
  size (probe_paths iter_pools s (affected_pools affected)) ≤ se_max_probe_paths_per_refresh s →
  ¬ must_recompute searcher affected s.
Proof.
  intros Hearly Hpools Hsize. apply early_reason_spec in Hearly as (H1 & H2 & H3 & H4).
  rewrite affected_pool_reason_spec in Hpools. intros Hmust. unfold must_recompute in Hmust.
  destruct Hmust as [?|[?|[?|[?|[(pool & Hin & Hreg)|?]]]]]; try done; [|lia].
  destruct (Hpools pool) as (reg & Hr & Hn).
  - rewrite (io_pools _ _ _ Hiter). by apply elem_of_elements.
  - by apply Hn, Hreg.
Qed.

Lemma refresh_outcome searcher overlay affected s tr :
  on_event tr (UpStarted (affected_pools affected)) = Continue →
  outcome searcher overlay affected s (tr ++ [UpStarted (affected_pools affected)])
    (refresh searcher overlay affected s tr).
Proof.
  intros Hstart. unfold refresh_affected. simpl. rewrite Hstart, bool_decide_true by done. simpl.
  destruct (early_recompute_reason s searcher affected) as [reason|] eqn:Hearly.
  { constructor; [by eapply early_reason_Some|by left]. }
  destruct (decide (affected_pools affected = ∅)) as [Hnil|Hne].
  { constructor; [|done]. apply no_recompute; [done|..]; rewrite Hnil.
    - apply affected_pool_reason_spec. intros pool. rewrite (io_pools _ _ _ Hiter). set_solver.
    - rewrite probe_paths_empty, size_empty. lia. }
  destruct (affected_pool_reason _ _) as [reason|] eqn:Haff.
  { constructor; [|by left]. apply affected_reason_Some in Haff as (pool & Hin & Hreg).
    unfold must_recompute. do 4 right. left. exists pool. split; [|done].
    rewrite (io_pools _ _ _ Hiter) in Hin. by apply elem_of_elements in Hin. }
  destruct (paths_of_cache s (set_context (as_quote_context searcher) (se_quote_cache s))
    (affected_pools affected)) as (HM & HP & Hlim & Hc & Hset).
  destruct (decide (_ ∧ _)) as [Hnone|Hsome]; rewrite HM, HP in *.
  { destruct Hnone as [Hm Hp]. apply (outcome_untracked searcher overlay); try done.
    apply no_recompute; [done..|]. rewrite Hp, size_empty. lia. }
  destruct (decide (_ < _)) as [Hlt|Hle]; rewrite ?Hlim in *.
  { apply (outcome_recompute searcher overlay); [|by right]. unfold must_recompute. tauto. }
  rewrite Hc, Hset. apply (outcome_incremental searcher overlay).
  - apply no_recompute; [done..|lia].
  - done.
  - destruct (decide (materialized_paths iter_pools s (affected_pools affected) = ∅)); tauto.
Qed.

(** A refresh asks for a recomputation exactly when logs were removed or not
    understood, the state point or the topology is not the session's, an
    affected pool is unknown or degraded, or more probes than the limit are due;
    then it touches nothing but the context of the quote cache and reports the
    reason in exactly two events after [Started]. *)
Theorem refresh_recompute_iff searcher overlay affected s tr r s' tr' :
  on_event tr (UpStarted (affected_pools affected)) = Continue →
  refresh searcher overlay affected s tr = Some (r, s', tr') →
  (ir_status r = RecomputeRequired ↔ must_recompute searcher affected s) ∧
  (must_recompute searcher affected s →
   (s' = s ∨ s' = with_search_context searcher s) ∧
   ir_best r = se_best s ∧
   ∃ reason, ir_recompute_reason r = Some reason ∧
     tr' = tr ++ [UpStarted (affected_pools affected); UpRecomputeRequired reason; UpCompleted r]).
Proof.
  intros Hstart Href. pose proof (refresh_outcome searcher overlay affected s tr Hstart) as Hout.
  rewrite Href in Hout. inversion Hout as [s1 reason Hmust Hs1 Heq|Hno Hnil Heq|Hno _ _ _ Heq|Hno _ _ Heq].
  - split; [done|]. intros _. split; [done|].
    split; [simpl; destruct Hs1 as [->| ->]; by destruct s|].
    exists reason. split; [done|]. by rewrite <-!app_assoc.
  - split; [|done]. split; [by intros|]. done.
  - split; [|done]. split; [by intros|]. done.
  - split; [|done]. split; [|done]. unfold incremental in Heq.
    apply bind_Some in Heq as ([[[n c1] s1] tr1] & _ & Heq).
    apply bind_Some in Heq as ([[n2 s2] tr2] & _ & Heq). injection Heq as <- _ _.
    unfold finish_refresh. simpl. by destruct (_ && _).
Qed.

(** ** Correctness of an incremental refresh *)

Definition accepting : Prop := ∀ tr e, on_event tr e = Continue.

Section incremental.
Context (searcher : AmmSearcher) (Inv : AdapterCache → Prop)
  (sim : SimConfig → Hop → U256 → result SimError U256) (overlay : AdapterCache).
Hypothesis (Henv : refresh_env searcher Inv sim overlay).

Lemma invalidated_frame pools s :
  frame (invalidated searcher pools s) = frame s ∧
  se_best (invalidated searcher pools s) = se_best s ∧
  se_route_table (invalidated searcher pools s) = se_route_table s.
Proof. by destruct s. Qed.

Lemma invalidated_ok pools s : session_ok s → session_ok (invalidated searcher pools s).
Proof. apply set_quote_cache_ok. Qed.

Lemma elem_of_iter_paths X path : path ∈ sorted_paths (iter_paths X) ↔ path ∈ X.
Proof.
  rewrite elem_of_sorted_paths, (io_paths _ _ _ Hiter). apply elem_of_elements.
Qed.

(** What [incremental] leaves, whatever the callback answers. *)
Lemma incremental_spec pools s tr :
  session_ok s →
  coherent (as_registry searcher) sim (as_quote_context searcher)
    (se_quote_cache (invalidated searcher pools s)) →
  let M := materialized_paths iter_pools s pools in
  let P := probe_paths iter_pools s pools in
  ∃ r s' tr',
    incremental searcher overlay pools s tr = Some (r, s', tr') ∧
    session_ok s' ∧ frame s' = frame s ∧ best_ok s' ∧ ir_best r = se_best s' ∧
    coherent (as_registry searcher) sim (as_quote_context searcher) (se_quote_cache s') ∧
    (∀ path, path ∉ M → se_route_table s' !! path = se_route_table s !! path ∨
       path ∈ P ∧ se_route_table s' !! path = Some (current_entry searcher sim s path)) ∧
    (accepting → ∀ path, path ∈ M →
       se_route_table s' !! path = Some (current_entry searcher sim s path)) ∧
    (accepting → ∀ path q, path ∈ P → session_quote searcher sim s path = Some q →
       se_route_table s' !! path = Some (Quoted q)) ∧
    ((∀ tr q, on_event tr (UpRouteRequoted q) = Stop) → ∃ kept, length kept ≤ 1 ∧
       ∀ path, path ∈ M → path ∉ kept → se_route_table s' !! path = Some Failed).
Proof.
  intros Hok Hqc M P. destruct Henv as [Hsim Hlog Hov]. unfold incremental. fold M P.
  destruct (invalidated_frame pools s) as (Hfr0 & Hb0 & Ht0).
  destruct (requote_materialized_spec on_event searcher Inv sim Hsim Hlog
    (sorted_paths (iter_paths M)) (new_overlay_cache searcher overlay) (invalidated searcher pools s) tr (invalidated_ok pools s Hok))
    as (n & c1 & s1 & tr1 & Heq & Hc1 & Hqc1 & Hok1 & Hfr1 & Hb1 & Hout1 & Hacc1 & Hstop1);
    [|done|done|].
  { intros path. rewrite elem_of_iter_paths, Ht0. intros Hp.
    by apply (elem_of_materialized s pools path Hok) in Hp as [? _]. }
  rewrite Heq. cbn [mbind option_bind].
  destruct (quote_probes_spec on_event searcher Inv sim Hsim Hlog (sorted_paths (iter_paths P))
    c1 s1 tr1 Hok1 Hc1 Hqc1) as (n2 & s2 & tr2 & Heq2 & Hqc2 & Hok2 & Hfr2 & Hb2 & Hout2 & Hacc2).
  rewrite Heq2. simpl. unfold finish_refresh, completed.
  assert (∀ path, current_entry searcher sim s1 path = current_entry searcher sim s path) as Hcur1.
  { intros path. apply current_entry_frame. congruence. }
  assert (∀ path, path ∈ M → path ∉ P) as HMP.
  { intros path HM HP. unfold P, probe_paths in HP. set_solver. }
  set (best := best_from_table iter_table s2).
  assert (frame (set_session_best best s2) = frame s2 ∧
    se_route_table (set_session_best best s2) = se_route_table s2 ∧
    se_quote_cache (set_session_best best s2) = se_quote_cache s2) as (Hfr3 & Ht3 & Hqc3)
    by (by destruct s2).
  do 3 eexists. split; [done|]. rewrite Hfr3, Ht3, Hqc3. split_and!.
  - by apply set_session_best_ok.
  - congruence.
  - apply best_from_table_ok; [apply (io_table _ _ _ Hiter)|done].
  - done.
  - done.
  - intros path Hp. destruct (Hout2 path) as [->|[HP ->]].
    + left. rewrite Hout1, Ht0 by (by rewrite elem_of_iter_paths). done.
    + right. rewrite elem_of_iter_paths in HP. by rewrite Hcur1.
  - intros Hacc path Hp. destruct (Hout2 path) as [->|[HP _]].
    + rewrite Hacc1; [|done|by rewrite elem_of_iter_paths].
      f_equal. by apply current_entry_frame.
    + rewrite elem_of_iter_paths in HP. by apply HMP in Hp.
  - intros Hacc path q Hp Hq. apply Hacc2; [done|by rewrite elem_of_iter_paths|].
    unfold session_quote in *. assert (se_request s1 = se_request s) as ->; [|done].
    unfold frame in *. congruence.
  - intros Hall. destruct (Hstop1 Hall) as (kept & Hlen & Hkept). exists kept. split; [done|].
    intros path Hp Hk. destruct (Hout2 path) as [->|[HP _]].
    + apply Hkept; [by rewrite elem_of_iter_paths|done].
    + rewrite elem_of_iter_paths in HP. by apply HMP in Hp.
Qed.

Section from_old.
Context (searcher0 : AmmSearcher) (sim0 : SimConfig → Hop → U256 → result SimError U256).
Hypothesis (Hctx : as_quote_context searcher0 = as_quote_context searcher).

(** The simulations of the old and the new state agree off the affected pools. *)
Definition agree_off (pools : gset PoolKey) : Prop :=
  ∀ cfg h amount, hop_pool h ∉ pools →
    hop_result (as_registry searcher0) sim0 cfg h amount =
    hop_result (as_registry searcher) sim cfg h amount.

Lemma invalidated_coherent pools s :
  coherent (as_registry searcher0) sim0 (as_quote_context searcher0) (se_quote_cache s) →
  agree_off pools →
  coherent (as_registry searcher) sim (as_quote_context searcher)
    (se_quote_cache (invalidated searcher pools s)).
Proof.
  intros [H1 H2 H3] Hagree.
  assert (se_quote_cache (invalidated searcher pools s) = invalidate_pools pools
    (set_context (as_quote_context searcher) (se_quote_cache s))) as -> by (by destruct s).
  apply (coherent_invalidate (as_registry searcher0) sim0); [apply Henv| |done].
  rewrite Hctx in *. by constructor.
Qed.

Lemma table_transfers pools s path e :
  table_current searcher0 sim0 s → agree_off pools →
  (∀ pool, pool ∈ pools → ¬ uses_pool pool path) →
  se_route_table s !! path = Some e → e = current_entry searcher sim s path.
Proof.
  intros Htab Hagree Hno Hpath. rewrite (Htab _ _ Hpath).
  apply current_entry_agrees; [done|]. intros h Hh cfg amount. apply Hagree.
  intros Hin. apply (Hno _ Hin). unfold uses_pool. apply list_elem_of_fmap. by exists h.
Qed.

(** whatever the callback answers, a refresh returns, keeps the session's
    request, limit, graph version and state point, and keeps its route index
    exact: a route is listed under a pool exactly when it is in the table and
    one of its hops uses the pool. *)
Theorem refresh_keeps_indexes affected s tr :
  session_current searcher0 sim0 s → agree_off (affected_pools affected) →
  ∃ r s' tr',
    refresh searcher overlay affected s tr = Some (r, s', tr') ∧
    session_ok s' ∧ frame s' = frame s.
Proof.
  intros (Hok & _ & _ & Hqc) Hagree.
  destruct (on_event tr (UpStarted (affected_pools affected))) eqn:Hstart; cycle 1.
  { unfold refresh_affected. simpl. rewrite Hstart, bool_decide_false by done. by do 3 eexists. }
  pose proof (refresh_outcome searcher overlay affected s tr Hstart) as Hout.
  destruct Hout as [s' reason _ [->| ->]|_ _|_ _ _ _|_ _ _].
  - by do 3 eexists.
  - do 3 eexists. split; [done|]. split; [by apply set_quote_cache_ok|by destruct s].
  - by do 3 eexists.
  - do 3 eexists. split; [done|]. split; [by apply set_quote_cache_ok|by destruct s].
  - destruct (incremental_spec (affected_pools affected) s
      (tr ++ [UpStarted (affected_pools affected)]) Hok) as (r & s' & tr' & -> & ? & ? & _).
    + by apply invalidated_coherent.
    + by do 3 eexists.
Qed.


(** a callback that refuses the re-quoted routes does not leave the session
    as it was: at most one affected route keeps a quote, every other one is
    marked failed although its quote may succeed, and the best is taken among
    what is left. *)
Theorem refresh_refused_marks_failed affected s tr r s' tr' :
  (∀ tr, on_event tr (UpStarted (affected_pools affected)) = Continue) →
  (∀ tr q, on_event tr (UpRouteRequoted q) = Stop) →
  session_current searcher0 sim0 s → agree_off (affected_pools affected) →
  refresh searcher overlay affected s tr = Some (r, s', tr') →
  ir_status r ≠ RecomputeRequired →
  best_ok s' ∧
  ∃ kept, length kept ≤ 1 ∧
    ∀ path, path ∈ materialized_paths iter_pools s (affected_pools affected) → path ∉ kept →
      se_route_table s' !! path = Some Failed.
Proof.
  intros Hstart Hstop (Hok & Hbest & _ & Hqc) Hagree Href Hstatus.
  pose proof (refresh_outcome searcher overlay affected s tr (Hstart _)) as Hout.
  rewrite Href in Hout.
  inversion Hout as [s1 reason Hmust Hs1 Heq|Hno Hnil Heq|Hno Hne HM HP Heq|Hno Hne Hsome Heq].
  - subst r. done.
  - subst s'. split; [done|]. exists []. split; [simpl; lia|]. rewrite Hnil. intros path Hp.
    apply elem_of_materialized in Hp as [_ (pool & ? & _)]; [set_solver|done].
  - split; [by destruct s|]. exists []. split; [simpl; lia|]. rewrite HM.
    intros path Hp. by apply not_elem_of_empty in Hp.
  - destruct (incremental_spec (affected_pools affected) s
      (tr ++ [UpStarted (affected_pools affected)]) Hok) as
      (r1 & s1 & tr1 & Heq1 & Hok1 & Hf1 & Hb1 & Hr1 & Hqc1 & Hout1 & _ & _ & Hst).
    { by apply invalidated_coherent. }
    rewrite Heq1 in Heq. injection Heq as <- <- <-. split; [done|]. by apply Hst.
Qed.
End from_old.
End incremental.
End whole.

(** ** Starting a session *)

Lemma insert_quotes_probes searcher s qs pool probe :
  probe ∈ listed (se_parallel_probe_index (foldl (insert_quote searcher) s qs)) pool ↔
  probe ∈ listed (se_parallel_probe_index s) pool ∨
  ∃ q i hop pool', q ∈ qs ∧ replacement (as_graph searcher) (rq_path q) i hop pool' probe ∧
    (pool = hop_pool hop ∨ pool = pool').
Proof.
  revert s. induction qs as [|q qs IH]; intros s; cbn [foldl].
  { split; [by left|]. intros [?|(q & i & h & p & Hq & _)]; [done|set_solver]. }
  rewrite IH.
  assert (se_parallel_probe_index (insert_quote searcher s q) =
    index_probe_paths_for_route searcher (rq_path q) (se_parallel_probe_index s)) as ->
    by (by destruct s).
  rewrite elem_of_index_probes. setoid_rewrite elem_of_cons. naive_solver.
Qed.

Section start.
Context (searcher : AmmSearcher) (sim : SimConfig → Hop → U256 → result SimError U256).
Context (request : RouteRequest) (config : StreamingSearchConfig) (finality : SearchFinality)
  (qs : list RouteQuote) (qc : SharedQuoteCache).
Let best := head (ranking qs).
Let s := session_from_run searcher request config best finality qs qc.

(** The session before the quotes are inserted. *)
Let s0 := session_from_run searcher request config None finality [] qc.

Lemma session_start_request : se_request s = request.
Proof.
  unfold s, session_from_run. set (s1 := {| se_request := request |}).
  destruct (insert_quotes_frame searcher s1 qs) as (Hf & _). unfold frame in Hf.
  assert (se_request (foldl (insert_quote searcher) s1 qs) = se_request s1) as Hr by congruence.
  simpl in Hr. destruct best; [|done]. destruct (_ !! _); [done|].
  by destruct (foldl (insert_quote searcher) s1 qs).
Qed.

Lemma session_start_frame :
  se_streaming_config s = config ∧ se_finality s = finality.
Proof.
  unfold s, session_from_run. set (s1 := {| se_request := request |}).
  destruct (insert_quotes_frame searcher s1 qs) as (Hf & _). unfold frame in Hf.
  assert (se_streaming_config (foldl (insert_quote searcher) s1 qs) = se_streaming_config s1 ∧
          se_finality (foldl (insert_quote searcher) s1 qs) = se_finality s1) as [H1 H2]
    by (split; congruence).
  simpl in H1, H2. destruct best; [|done]. destruct (_ !! _); [done|].
  by destruct (foldl (insert_quote searcher) s1 qs).
Qed.

Hypothesis (Hq : ∀ q, q ∈ qs → session_quote searcher sim s (rq_path q) = Some q).

(** The best is among the quotes, so only they are inserted. *)
Lemma session_start_inserts :
  se_route_table s = se_route_table (foldl (insert_quote searcher) s0 qs) ∧
  s = set_session_best best (foldl (insert_quote searcher) s0 qs).
Proof.
  assert (s = foldl (insert_quote searcher) (set_session_best best s0) qs) as Heq.
  { unfold s, session_from_run.
    assert (set_session_best best s0 = {| se_request := request; se_streaming_config := config;
      se_finality := finality; se_route_table := ∅; se_pool_to_routes := ∅;
      se_parallel_probe_index := ∅; se_best := best; se_quote_cache := qc;
      se_graph_version := version (as_graph searcher); se_state_point := state_point searcher;
      se_max_probe_paths_per_refresh := DEFAULT_INCREMENTAL_PROBE_LIMIT |}) as <- by done.
    destruct best as [b|] eqn:Hb; [|done]. unfold best in Hb. apply head_ranking_elem in Hb.
    rewrite (table_insert_quotes searcher (session_quote searcher sim s)) by done.
    rewrite decide_True, (Hq b Hb); [done|]. apply list_elem_of_fmap. by exists b. }
  assert (∀ b l s1, foldl (insert_quote searcher) (set_session_best b s1) l =
    set_session_best b (foldl (insert_quote searcher) s1 l)) as Hswap.
  { intros b l. clear. induction l as [|q l IH]; intros s1; cbn [foldl]; [done|].
    rewrite <-IH. f_equal. by destruct s1. }
  rewrite Hswap in Heq. rewrite Heq. split; [|done].
  by destruct (foldl (insert_quote searcher) s0 qs).
Qed.

Lemma session_start_table path :
  se_route_table s !! path =
  if decide (path ∈ rq_path <$> qs) then Quoted <$> session_quote searcher sim s path else None.
Proof.
  rewrite (proj1 session_start_inserts).
  rewrite (table_insert_quotes searcher (session_quote searcher sim s)) by done. done.
Qed.

Lemma session_start_ok : session_ok s.
Proof.
  rewrite (proj2 session_start_inserts). apply set_session_best_ok, insert_quotes_ok.
  constructor; simpl.
  - intros path q. by rewrite lookup_empty.
  - intros pool path. unfold listed. rewrite !lookup_empty. simpl.
    split; [set_solver|]. by intros [[??] _].
Qed.

Lemma session_start_best : best_ok s.
Proof.
  unfold best_ok. assert (se_best s = head (ranking qs)) as ->.
  { rewrite (proj2 session_start_inserts). by destruct (foldl (insert_quote searcher) s0 qs). }
  case_eq (head (ranking qs)); [intros b Hb|intros Hb].
  - apply head_ranking_elem in Hb as Hin. rewrite session_start_table, decide_True, (Hq b Hin);
      [|apply list_elem_of_fmap; by exists b].
    split; [done|]. intros path q. rewrite session_start_table. case_decide as Hp; [|done].
    apply list_elem_of_fmap in Hp as (q' & -> & Hq'). rewrite (Hq q' Hq').
    intros [= <-]. by eapply head_ranking_max.
  - apply head_ranking_None in Hb. intros path q. rewrite session_start_table, Hb.
    by rewrite decide_False by set_solver.
Qed.

Lemma session_start_current :
  coherent (as_registry searcher) sim (as_quote_context searcher) qc →
  session_current searcher sim s.
Proof.
  intros Hqc. split; [apply session_start_ok|]. split; [apply session_start_best|]. split.
  - intros path e. rewrite session_start_table. case_decide as Hp; [|done].
    apply list_elem_of_fmap in Hp as (q' & -> & Hq'). unfold current_entry.
    rewrite (Hq q' Hq'). by intros [= <-].
  - assert (se_quote_cache s = qc) as ->; [|done].
    rewrite (proj2 session_start_inserts).
    destruct (insert_quotes_frame searcher s0 qs) as (_ & _ & Hc).
    destruct (foldl (insert_quote searcher) s0 qs). simpl in *. by subst.
Qed.

(** a session started from a streamed search is right.  When the quotes the
    search observed are those of the current state, its best is the head of
    their ranking and its cache is right, the session's indexes are exact, its
    table holds the current entry of exactly the quoted routes, and its best is
    a maximal entry.  The probe index lists, under a pool, exactly the variants
    of the quoted routes in which one hop's pool is replaced by another pool
    with an edge between the same tokens, not used elsewhere in the route, where
    the pool is the one replaced or the one put in. *)
Theorem session_start_correct :
  coherent (as_registry searcher) sim (as_quote_context searcher) qc →
  session_current searcher sim s ∧
  (∀ path, is_Some (se_route_table s !! path) ↔ path ∈ rq_path <$> qs) ∧
  (∀ pool probe, probe ∈ listed (se_parallel_probe_index s) pool ↔
     ∃ q i hop pool', q ∈ qs ∧ replacement (as_graph searcher) (rq_path q) i hop pool' probe ∧
       (pool = hop_pool hop ∨ pool = pool')).
Proof.
  intros Hqc. split; [by apply session_start_current|]. split.
  - intros path. rewrite session_start_table. case_decide as Hp; [|split; [by intros []|done]].
    split; [done|]. intros _. apply list_elem_of_fmap in Hp as (q' & -> & Hq').
    rewrite (Hq q' Hq'). by eexists.
  - intros pool probe. rewrite (proj2 session_start_inserts).
    assert (se_parallel_probe_index (set_session_best best (foldl (insert_quote searcher) s0 qs)) =
      se_parallel_probe_index (foldl (insert_quote searcher) s0 qs)) as ->
      by (by destruct (foldl (insert_quote searcher) s0 qs)).
    rewrite insert_quotes_probes. simpl. unfold listed. rewrite lookup_empty. set_solver.
Qed.
End start.
End session.
