(* ===== verification/StreamDriver.v ===== *)
(** * The streaming driver ([stream_routes_parallel_with_cache], [src/search.rs])

    A streamed search runs the heuristic search with an observer, then, when
    asked to, quotes the admissible routes the heuristic has not evaluated on
    worker threads, and reports through the state machine of [Streaming].

    Threads.  The worker threads run as [Workers] says: they interleave at every
    access to the quote cache, the [cancelled] flag and the channel, and the
    coordinator receives in between.  The schedule of a run is the list of moves
    made; then everyone goes on in turn to the end.  With one worker the search
    quotes on the caller's own thread, where an adapter's panic is the caller's. *)

From S2P Require Import Prelude Ordering AmmState Petgraph Graph Config SearchTypes Enumerate.
From S2P Require Import Liquidity QuoteCache Quote Heuristic HeuristicSearch Workers Searcher.
From S2P Require Import Streaming Session.

Section driver.
Context `{!AmmTypes} `{!Petgraph Address EdgeData}.

(** ** Overlays *)

Inductive SearchOverlaySource : Type :=
  | SourceCache (mock_overlay : AdapterCache)
  | SourceSnapshot (overlay : AdapterCache).

Definition SearchOverlaySource_new (s : AmmSearcher) (mock_overlay : AdapterCache) :
    SearchOverlaySource :=
  match as_snapshot_cache s with
  | Some overlay => SourceSnapshot overlay
  | None => SourceCache mock_overlay
  end.

Definition source_overlay (overlays : SearchOverlaySource) : AdapterCache :=
  match overlays with SourceCache o => o | SourceSnapshot o => o end.

(** ** Quoting on worker threads *)

(** The join of the worker reports. *)
Definition join_reports (cancelled : bool) (reports : list QuotePathsReport) : QuotePathsReport :=
  {| qp_quotes := reports ≫= qp_quotes;
     qp_failures := reports ≫= qp_failures;
     qp_stopped := cancelled || existsb qp_stopped reports |}.

Definition quote_and_stream_parallel {O} (s : AmmSearcher) (paths : list RoutePath)
    (amount_in : U256) (sim_config : SimConfig) (overlays : SearchOverlaySource)
    (parallel_config : ParallelSearchConfig) (schedule : list Move)
    (on_quote : RouteQuote → O → bool * O) (quote_cache : SharedQuoteCache) (ob : O) :
    option (result SearchError QuotePathsReport * O * SharedQuoteCache) :=
  match search_validated (ParallelSearchConfig_validate parallel_config) with
  | Err e => Some (Err e, ob, quote_cache)
  | Ok _ =>
      let candidates := length paths in
      if candidates =? 0 then
        Some (Ok empty_report, ob, quote_cache)
      else
        let worker_count := Nat.min (workers parallel_config) candidates in
        let chunks := split_paths paths worker_count in
        if worker_count =? 1 then
          e ← quote_paths_with_registry_observed (as_registry s) sim_config amount_in
                (Some on_quote) None (default [] (head chunks)) (source_overlay overlays)
                quote_cache ob;
          Some (Ok {| qp_quotes := ev_quotes e; qp_failures := ev_failures e;
                      qp_stopped := ev_stopped e |}, ev_captured e, ev_quote_cache e)
        else
          sys ← run_threads (as_registry s) sim_config amount_in true (source_overlay overlays)
                  chunks schedule on_quote quote_cache ob;
          Some (match join_workers (ws_threads sys) with
                | Err e => Err e
                | Ok reports => Ok (join_reports (ws_cancelled sys) reports)
                end, ws_observer sys, ws_cache sys)
  end.

(** ** The observers *)

(** What the driver's observers capture. *)
Record Observed := {
  ob_evaluated_paths : gset RoutePath;
  ob_quotes : list RouteQuote;
  ob_stream : Stream;
}.

Definition set_stream (st : Stream) (ob : Observed) : Observed :=
  {| ob_evaluated_paths := ob_evaluated_paths ob; ob_quotes := ob_quotes ob; ob_stream := st |}.
Definition add_evaluated (paths : list RoutePath) (ob : Observed) : Observed :=
  {| ob_evaluated_paths := list_to_set paths ∪ ob_evaluated_paths ob; ob_quotes := ob_quotes ob;
     ob_stream := ob_stream ob |}.
Definition ob_state (ob : Observed) : StreamingRouteState := (ob_stream ob).1.

Record StreamingRunReport := {
  sr_report : StreamingSearchReport;
  sr_quotes : list RouteQuote;
}.

(** A run's outcome: the result, the events the callback received and the
    quote cache. *)
Definition StreamRun : Type :=
  result SearchError StreamingRunReport * list RouteSearchEvent * SharedQuoteCache.

Section run.
Context (s : AmmSearcher) (request : RouteRequest) (overlays : SearchOverlaySource)
  (streaming_config : StreamingSearchConfig) (schedule : list Move) (on_event : Callback)
  (should_continue : option (nat → bool)).

(** An operation on the stream. *)
Definition on_stream (op : StreamOp) (ob : Observed) : bool * Observed :=
  let '(go_on, st) := op (ob_stream ob) in (go_on, set_stream st ob).

Definition observe_heuristic_quote (quote : RouteQuote) (ob : Observed) : bool * Observed :=
  on_stream (observe_quote on_event PhaseHeuristic quote)
    {| ob_evaluated_paths := {[rq_path quote]} ∪ ob_evaluated_paths ob;
       ob_quotes := ob_quotes ob ++ [quote]; ob_stream := ob_stream ob |}.

Definition observe_exhaustive_quote (quote : RouteQuote) (ob : Observed) : bool * Observed :=
  on_stream (observe_quote on_event PhaseExhaustive quote)
    {| ob_evaluated_paths := ob_evaluated_paths ob;
       ob_quotes := ob_quotes ob ++ [quote]; ob_stream := ob_stream ob |}.

(** ** Returning *)

Definition fail_run (e : SearchError) (ob : Observed) (quote_cache : SharedQuoteCache) : StreamRun :=
  (Err e, (ob_stream ob).2, quote_cache).

Definition finish_run (finality : SearchFinality) (emit_completed : bool) (ob : Observed)
    (quote_cache : SharedQuoteCache) : StreamRun :=
  let '(report, (_, trace)) :=
    finish_stream_report on_event finality (qc_stats quote_cache)
      (qc_liquidity_pruning quote_cache) emit_completed (ob_stream ob) in
  (Ok {| sr_report := report; sr_quotes := ob_quotes ob |}, trace, quote_cache).

(** [if stopped]: the finality the stream recorded. *)
Definition finish_stopped (ob : Observed) (quote_cache : SharedQuoteCache) : StreamRun :=
  finish_run (final_stop_finality (ob_state ob)) (should_emit_completion_for_stop (ob_state ob))
    ob quote_cache.

(** Emit [PhaseCompleted] and go on, or return. *)
Definition phase_completed (phase : RouteSearchPhase) (ob : Observed)
    (quote_cache : SharedQuoteCache) (continue : Observed → option StreamRun) :
    option StreamRun :=
  let event := EvPhaseCompleted phase
    (phase_stats (ob_state ob) (qc_stats quote_cache) (qc_liquidity_pruning quote_cache)) in
  match on_stream (emit_search_event on_event event) ob with
  | (false, ob) => Some (finish_run Stopped false ob quote_cache)
  | (true, ob) => continue ob
  end.

(** [err.unwrap_or(..)]. *)
Definition first_error (heuristic_error : option SearchError) (e : SearchError) : SearchError :=
  default e heuristic_error.

(** ** The exhaustive phase *)

(** After the exhaustive candidates have been quoted. *)
Definition finish_exhaustive (heuristic_error : option SearchError) (stopped : bool)
    (failures : list PathFailure) (ob : Observed) (quote_cache : SharedQuoteCache) :
    option StreamRun :=
  if stopped then Some (finish_stopped ob quote_cache)
  else
    let ob := set_stream (mark_exhaustive_complete (ob_state ob), (ob_stream ob).2) ob in
    phase_completed PhaseExhaustive ob quote_cache (λ ob,
      match ss_best (ob_state ob) with
      | None =>
          Some (fail_run (first_error heuristic_error
                  (ErrNoViableRoute (length failures) failures)) ob quote_cache)
      | Some _ => Some (finish_run FinalityExhaustive true ob quote_cache)
      end).

(** Quote the remaining paths and account for their failures. *)
Definition quote_remaining (heuristic_error : option SearchError) (paths : list RoutePath)
    (ob : Observed) (quote_cache : SharedQuoteCache) : option StreamRun :=
  match quote_and_stream_parallel s paths (rr_amount_in request) (rr_sim_config request) overlays
          (parallel streaming_config) schedule observe_exhaustive_quote quote_cache ob with
  | None => None
  | Some (Err e, ob, quote_cache) => Some (fail_run e ob quote_cache)
  | Some (Ok report, ob, quote_cache) =>
      if qp_stopped report then
        finish_exhaustive heuristic_error true (qp_failures report) ob quote_cache
      else
        let '(go_on, ob) :=
          on_stream (observe_failed_candidates on_event PhaseExhaustive
                       (Z.of_nat (length (qp_failures report)))) ob in
        finish_exhaustive heuristic_error (negb go_on) (qp_failures report) ob quote_cache
  end.

Definition stream_enumerated (heuristic_error : option SearchError) (enumeration : RouteEnumeration)
    (ob : Observed) (quote_cache : SharedQuoteCache) : option StreamRun :=
  let ob := set_stream (add_duplicates_skipped (re_duplicates_skipped enumeration) (ob_state ob),
                        (ob_stream ob).2) ob in
  if re_stopped enumeration then Some (finish_run Stopped false ob quote_cache)
  else
    let remaining_paths := re_paths enumeration in
    let total := usize_saturating_add (candidates_evaluated (ob_state ob))
                   (Z.of_nat (length remaining_paths)) in
    let '(go_on, ob) := on_stream (set_total_candidates on_event total) ob in
    if negb go_on then finish_exhaustive heuristic_error true [] ob quote_cache
    else
      match remaining_paths with
      | [] => finish_exhaustive heuristic_error false [] ob quote_cache
      | _ => quote_remaining heuristic_error remaining_paths ob quote_cache
      end.

(** The candidate budget the heuristic phase left. *)
Definition remaining_budget (ob : Observed) : option nat :=
  (λ max_candidates, max_candidates - Z.to_nat (candidates_evaluated (ob_state ob))) <$>
    max_candidates (rr_config request).

(** The driver polled [should_continue] once before the enumeration does. *)
Definition stream_exhaustive (heuristic_error : option SearchError) (ob : Observed)
    (quote_cache : SharedQuoteCache) : option StreamRun :=
  match enumerate_routes_filtered (as_graph s) (token_in request) (token_out request)
          (exhaustive (rr_config request)) false (ob_evaluated_paths ob) (remaining_budget ob)
          ((λ f n, f (S n)) <$> should_continue) with
  | None => None
  | Some (Err e) =>
      match ss_best (ob_state ob) with
      | None => Some (fail_run (first_error heuristic_error e) ob quote_cache)
      | Some _ => Some (finish_run FinalityExhaustive true ob quote_cache)
      end
  | Some (Ok enumeration) => stream_enumerated heuristic_error enumeration ob quote_cache
  end.

(** ** The heuristic phase *)

(** What to do after the heuristic phase: a completion target short of the
    exhaustive one has been reached, or the exhaustive phase follows. *)
Definition after_heuristic (heuristic_error : option SearchError) (ob : Observed)
    (quote_cache : SharedQuoteCache) : option StreamRun :=
  let finish finality :=
    match ss_best (ob_state ob), heuristic_error with
    | None, Some e => Some (fail_run e ob quote_cache)
    | _, _ => Some (finish_run finality true ob quote_cache)
    end in
  match completion streaming_config with
  | FastLaneExhausted => finish Streaming.FastLaneOnly
  | HeuristicExhausted => finish HeuristicOnly
  | CompletionExhaustive => stream_exhaustive heuristic_error ob quote_cache
  end.

Definition finish_heuristic (stopped : bool) (heuristic_error : option SearchError) (ob : Observed)
    (quote_cache : SharedQuoteCache) : option StreamRun :=
  let '(go_on, ob) :=
    if stopped then (false, ob) else on_stream (finish_heuristic_phase on_event) ob in
  if negb go_on || (poll_stop should_continue 0).1 then Some (finish_stopped ob quote_cache)
  else phase_completed PhaseHeuristic ob quote_cache (λ ob,
         after_heuristic heuristic_error ob quote_cache).

Definition request_heuristic : HeuristicSearchConfig :=
  match mode (rr_config request) with
  | ModeExhaustive => HeuristicSearchConfig_default
  | ModeHeuristic heuristic => heuristic
  end.

Definition heuristic_config : SearchConfig :=
  with_mode (ModeHeuristic request_heuristic) (rr_config request).

Definition heuristic_run_limit : HeuristicRunLimit :=
  if decide (completion streaming_config = FastLaneExhausted) then Heuristic.FastLaneOnly
  else FullRun.

Definition stream_heuristic (ob : Observed) (quote_cache : SharedQuoteCache) : option StreamRun :=
  match find_routes_heuristic_with_cache_observed (as_registry s) (as_graph s)
          (as_liquidity_index s) (token_in request) (token_out request) (rr_amount_in request)
          heuristic_config request_heuristic (rr_sim_config request) (source_overlay overlays)
          quote_cache false heuristic_run_limit (Some observe_heuristic_quote) ob with
  | None => None
  | Some (Ok report, r) =>
      let '(go_on, ob) :=
        on_stream (observe_failed_candidates on_event PhaseHeuristic
                     (Z.of_nat (hr_failed_candidates report))) (run_captured r) in
      finish_heuristic (negb go_on || hr_stopped report) None
        (add_evaluated (rq_path <$> hr_quotes report) ob) (run_quote_cache r)
  | Some (Err e, r) =>
      match e with
      | ErrInvalidConfig _ | ErrTokenNotFound _ =>
          Some (fail_run e (run_captured r) (run_quote_cache r))
      | _ => finish_heuristic false (Some e) (run_captured r) (run_quote_cache r)
      end
  end.

(** ** The run *)

Definition stream_routes_parallel_with_cache (quote_cache : SharedQuoteCache) : option StreamRun :=
  let ob := {| ob_evaluated_paths := ∅; ob_quotes := [];
               ob_stream := (StreamingRouteState_new streaming_config, []) |} in
  match search_validated (StreamingSearchConfig_validate streaming_config) with
  | Err e => Some (fail_run e ob quote_cache)
  | Ok _ =>
      match search_validated (SearchConfig_validate (rr_config request)) with
      | Err e => Some (fail_run e ob quote_cache)
      | Ok _ =>
          match on_stream (emit_search_event on_event
                             (EvStarted (completion streaming_config))) ob with
          | (false, ob) =>
              Some (Ok {| sr_report := report (ob_state ob) Stopped (qc_stats quote_cache)
                                         (qc_liquidity_pruning quote_cache);
                          sr_quotes := ob_quotes ob |}, (ob_stream ob).2, quote_cache)
          | (true, ob) => stream_heuristic ob quote_cache
          end
      end
  end.
End run.

(** ** Entry points *)

Definition run_report (run : StreamRun) : result SearchError StreamingSearchReport :=
  match run with (Ok r, _, _) => Ok (sr_report r) | (Err e, _, _) => Err e end.

Definition stream_routes_parallel (s : AmmSearcher) (request : RouteRequest)
    (mock_overlay : AdapterCache) (streaming_config : StreamingSearchConfig)
    (schedule : list Move) (on_event : Callback) :
    option (result SearchError StreamingSearchReport) :=
  run ← stream_routes_parallel_with_cache s request (SearchOverlaySource_new s mock_overlay)
          streaming_config schedule on_event None (new_quote_cache s);
  Some (run_report run).

(** The session keeps the configuration of the caller; the run itself emits
    every viable route. *)
Definition start_route_session (s : AmmSearcher) (request : RouteRequest)
    (mock_overlay : AdapterCache) (streaming_config : StreamingSearchConfig)
    (schedule : list Move) (on_event : Callback) :
    option (result SearchError RouteSearchSession) :=
  '(r, _, quote_cache) ←
     stream_routes_parallel_with_cache s request (SearchOverlaySource_new s mock_overlay)
       (with_emit_all_viable true streaming_config) schedule on_event None (new_quote_cache s);
  Some (match r with
        | Err e => Err e
        | Ok run => Ok (session_from_run s request streaming_config (rep_best (sr_report run))
                          (rep_finality (sr_report run)) (sr_quotes run) quote_cache)
        end).

(** [stream_routes_snapshot] and its cancellable variant. *)
Definition stream_on_snapshot (s : AmmSearcher) (request : RouteRequest)
    (streaming_config : StreamingSearchConfig) (schedule : list Move) (on_event : Callback)
    (should_continue : option (nat → bool)) : option (result SearchError StreamingSearchReport) :=
  match as_snapshot_cache s with
  | None => Some (Err ErrSnapshotRequired)
  | Some overlay =>
      run ← stream_routes_parallel_with_cache s request (SourceSnapshot overlay) streaming_config
              schedule on_event should_continue (new_quote_cache s);
      Some (run_report run)
  end.

Definition stream_routes_snapshot (s : AmmSearcher) (request : RouteRequest)
    (streaming_config : StreamingSearchConfig) (schedule : list Move) (on_event : Callback) :
    option (result SearchError StreamingSearchReport) :=
  stream_on_snapshot s request streaming_config schedule on_event None.

(** [is_cancelled] answers by the number of times it was asked. *)
Definition stream_routes_snapshot_cancellable (s : AmmSearcher) (request : RouteRequest)
    (streaming_config : StreamingSearchConfig) (schedule : list Move)
    (is_cancelled : nat → bool) (on_event : Callback) :
    option (result SearchError StreamingSearchReport) :=
  stream_on_snapshot s request streaming_config schedule on_event
    (Some (λ n, negb (is_cancelled n))).
End driver.
