(* ===== verification/StreamDriverProps.v ===== *)
(** * Lemmas on the streaming driver

    [quote_and_stream_parallel]: at any schedule of its threads it returns; the
    observer was shown quotes of the candidates, each once, and all of them when
    nothing stops; it fails only when an adapter panicked. *)

From S2P Require Import Prelude Ordering AmmState Petgraph Graph GraphPairs GraphInv GraphProps.
From S2P Require Import GraphTheorems Config SearchTypes Enumerate EnumerateProps.
From S2P Require Import EnumerateTheorems Liquidity QuoteCache QuoteCacheProps Quote QuoteProps.
From S2P Require Import Ranking Heuristic HeuristicProps HeuristicSearch HeuristicSteps.
From S2P Require Import HeuristicRun HeuristicWatch HeuristicTheorems Workers WorkersProps.
From S2P Require Import Searcher SearchTheorems.
From S2P Require Import Streaming StreamingProps StreamingTheorems Session StreamDriver.

Section parallel.
Context `{!AmmTypes} `{!Petgraph Address EdgeData}.
Context (s : AmmSearcher) (Inv : AdapterCache → Prop)
  (sim : SimConfig → Hop → U256 → result SimError U256).
Context (amount_in : U256) (sim_config : SimConfig) (parallel_config : ParallelSearchConfig)
  (schedule : list Move) (overlays : SearchOverlaySource).
Hypothesis (Hsim : simulates (as_registry s) Inv sim).
Hypothesis (Hinj : scope_inj (as_quote_context s)).
Hypothesis (Hoverlay : Inv (source_overlay overlays)).
Hypothesis (Hval : ParallelSearchConfig_validate parallel_config = Ok ()).

Abbreviation results :=
  (results_of (as_registry s) sim sim_config (as_quote_context s) amount_in).
Abbreviation coherent_ := (coherent (as_registry s) sim (as_quote_context s)).

Section call.
Context {O : Type} (on_quote : RouteQuote → O → bool * O) (paths : list RoutePath).

Abbreviation call qc ob := (quote_and_stream_parallel s paths amount_in sim_config overlays
  parallel_config schedule on_quote qc ob).

(** What a call answers. *)
Definition streamed_report (ob : O) (res : result SearchError QuotePathsReport * O * SharedQuoteCache) :
    Prop :=
  ∃ out obs b ob' qc', res = (out, ob', qc') ∧ coherent_ qc' ∧
    watched on_quote ob obs b ob' ∧ obs ⊆+ omap result_ok (results paths) ∧
    match out with
    | Ok report =>
        qp_stopped report = negb b ∧
        (b = true → obs ≡ₚ omap result_ok (results paths) ∧
                    qp_failures report ≡ₚ omap result_err (results paths))
    | Err e => e = ErrWorkerPanic ∧ panics schedule
    end.

Lemma single_worker_report chunk qc ob :
  chunk ≡ₚ paths → coherent_ qc →
  ∃ e, quote_paths_with_registry_observed (as_registry s) sim_config amount_in (Some on_quote) None
         chunk (source_overlay overlays) qc ob = Some e ∧
    streamed_report ob (Ok {| qp_quotes := ev_quotes e; qp_failures := ev_failures e;
                              qp_stopped := ev_stopped e |}, ev_captured e, ev_quote_cache e).
Proof.
  intros Hp Hqc.
  destruct (quote_paths_observed_spec (as_registry s) Inv sim sim_config Hsim (as_quote_context s)
    amount_in (Some on_quote) None Hinj chunk _ qc ob Hoverlay Hqc) as (e & Heq & Hv & _ & Hqc').
  exists e. split; [done|].
  match type of Hv with _ = ev_view (consume _ _ _ ?e0) => set (e1 := e0) in Hv end.
  assert (ev_watched on_quote ob e) as Hw.
  { eapply (ev_watched_view (Some on_quote)); [by symmetry|].
    apply (consume_watched (Some on_quote)). constructor. }
  assert (results chunk ≡ₚ results paths) as Hr by (by rewrite !results_of_perm, Hp).
  destruct (consume_prefix (Some on_quote) None (results chunk) e1 eq_refl) as (k & _ & Hq & Hf & Hs).
  unfold ev_view in Hv. injection Hv as Hq' Hf' _ Hs'. rewrite <- Hq' in Hq. rewrite <- Hf' in Hf.
  rewrite <- Hs' in Hs. simpl in Hq, Hf.
  eexists _, (ev_quotes e), _, _, _. split_and!; [done|done|exact Hw| |].
  - rewrite <- Hr, Hq. rewrite <- (take_drop k (results chunk)) at 2. rewrite omap_app.
    by apply submseteq_inserts_r.
  - simpl. rewrite negb_involutive. split; [done|].
    intros Hst%negb_true_iff. rewrite Hq, Hf, (Hs Hst), take_ge by done. by rewrite Hr.
Qed.

(** Splitting the paths over the workers. *)
Lemma split_chunks :
  paths ≠ [] →
  let n := Nat.min (workers parallel_config) (length paths) in
  mjoin (split_paths paths n) ≡ₚ paths ∧
  (n = 1 → default [] (head (split_paths paths n)) ≡ₚ paths).
Proof.
  intros Hne n.
  assert (1 ≤ workers parallel_config) as Hw.
  { revert Hval. unfold ParallelSearchConfig_validate. rewrite reject_if_Ok, eqb_0. tauto. }
  assert (n ≠ 0) as Hn by (destruct paths; [done|simpl in *; lia]).
  pose proof (split_paths_perm paths n Hn) as Hsplit.
  pose proof (length_split_paths paths n) as Hl. split; [done|].
  intros H1. rewrite H1 in *. rewrite <- Hsplit at 2.
  destruct (split_paths paths 1) as [|c [|c' l]]; simpl in *; [done|by rewrite app_nil_r|lia].
Qed.

Lemma joined_quotes chunks :
  mjoin chunks ≡ₚ paths →
  mjoin ((λ chunk, omap result_ok (results chunk)) <$> chunks) ≡ₚ omap result_ok (results paths).
Proof.
  intros Hp. assert (results paths ≡ₚ mjoin (results <$> chunks)) as ->.
  { rewrite results_of_perm, <- Hp. clear. induction chunks as [|c chunks IH]; csimpl; [done|].
    by rewrite results_of_perm, fmap_app, IH. }
  clear. induction chunks as [|c chunks IH]; csimpl; [done|]. by rewrite omap_app, IH.
Qed.

(** Several threads. *)
Lemma threads_report chunks qc ob :
  mjoin chunks ≡ₚ paths → coherent_ qc →
  ∃ sys, run_threads (as_registry s) sim_config amount_in true (source_overlay overlays) chunks schedule
      on_quote qc ob = Some sys ∧
    streamed_report ob (match join_workers (ws_threads sys) with
                        | Err e => Err e
                        | Ok reports => Ok (join_reports (ws_cancelled sys) reports)
                        end, ws_observer sys, ws_cache sys).
Proof.
  intros Hp Hqc.
  destruct (run_threads_spec (as_registry s) Inv sim (as_quote_context s) sim_config amount_in true Hsim
    Hinj on_quote ob chunks (source_overlay overlays) schedule qc Hqc Hoverlay) as (sys & -> & Hdone).
  exists sys. split; [done|].
  destruct Hdone as [Hqc' (obs & b & Hw & Hflag & Hsub & Hjoin)].
  rewrite (joined_quotes chunks Hp) in Hsub. eexists _, obs, b, _, _. split_and!; [done..|].
  destruct (join_workers (ws_threads sys)) as [reports|e]; [|done]. simpl. rewrite Hflag.
  destruct b; [|done]. destruct (Hjoin eq_refl) as [Hrep Hobs].
  destruct (reports_joined _ _ _ _ _ _ _ paths Hrep Hp) as (_ & Hf & Hst).
  rewrite Hst. split; [done|]. intros _. split; [|done]. rewrite (Hobs eq_refl). by apply joined_quotes.
Qed.

Lemma quote_and_stream_parallel_spec qc ob :
  coherent_ qc → ∃ res, call qc ob = Some res ∧ streamed_report ob res.
Proof.
  intros Hqc. unfold quote_and_stream_parallel. rewrite Hval. cbn [search_validated].
  destruct (length paths =? 0) eqn:Hlen.
  { apply Nat.eqb_eq, nil_length_inv in Hlen. eexists. split; [done|].
    eexists _, [], true, _, _. split_and!; [done..|apply watched_nil|apply submseteq_nil_l|].
    split; [done|]. intros _. by rewrite Hlen. }
  apply Nat.eqb_neq in Hlen. assert (paths ≠ []) as Hne by (by intros ->).
  destruct (split_chunks Hne) as (Hsplit & Hone). set (n := Nat.min _ _) in *.
  destruct (n =? 1) eqn:H1.
  - apply Nat.eqb_eq in H1. destruct (single_worker_report _ qc ob (Hone H1) Hqc) as (e & -> & Hrep).
    simpl. by eexists.
  - destruct (threads_report (split_paths paths n) qc ob Hsplit Hqc) as (sys & -> & Hrep).
    simpl. by eexists.
Qed.
End call.
End parallel.
