(* ===== verification/StreamDriverRun.v ===== *)
(** * A run of the streaming driver

    The driver's observer state ([driven]): the stream's best, retained routes
    and counters are those of the quotes observed.  What the enumeration of the
    remaining routes returns, and what the heuristic phase leaves. *)

From S2P Require Import Prelude Ordering AmmState Petgraph Graph GraphPairs GraphInv GraphProps.
From S2P Require Import GraphTheorems Config SearchTypes Enumerate EnumerateProps.
From S2P Require Import EnumerateTheorems Liquidity QuoteCache QuoteCacheProps Quote QuoteProps.
From S2P Require Import Ranking Heuristic HeuristicProps HeuristicSearch HeuristicSteps.
From S2P Require Import HeuristicRun HeuristicWatch HeuristicTheorems Searcher SearchTheorems.
From S2P Require Import Streaming StreamingProps StreamingTheorems Session StreamDriver.
From S2P Require Import StreamDriverProps.

(** ** What can stop a stream *)

Section stops.
Context `{!AmmTypes} (on_event : Callback).
Implicit Types (s : StreamingRouteState) (st : Stream).

(** The finality a stream records when it stops. *)
Definition stop_recorded s : Prop :=
  match ss_stop_finality s with
  | None | Some Stopped | Some StopPolicySatisfied => True
  | _ => False
  end.

(** An operation keeps the recorded finality one of these. *)
Definition records_stops (op : StreamOp) : Prop :=
  ∀ st, stop_recorded st.1 → stop_recorded (op st).2.1.

Lemma records_emit e : records_stops (emit_or_stop on_event e).
Proof.
  intros [s tr] Hs. destruct (emit_or_stop_cases on_event e s tr) as [[_ ->]|[_ ->]]; [done|].
  by destruct s.
Qed.

(** Continue with [op2] when [op1] answers [true]. *)
Lemma records_then (op1 op2 : StreamOp) st :
  records_stops op1 → records_stops op2 → stop_recorded st.1 →
  stop_recorded (match op1 st with (true, st) => op2 st | (false, st) => (false, st) end).2.1.
Proof. intros H1 H2 Hs. specialize (H1 st Hs). destruct (op1 st) as [[] st1]; auto. Qed.

Lemma records_release p : records_stops (release_initial_results on_event p).
Proof.
  intros [s tr] Hs. unfold release_initial_results. destruct (ss_best s); [|done].
  apply records_emit. by destruct s.
Qed.

Lemma records_policies p : records_stops (apply_policies on_event p).
Proof.
  intros [s tr] Hs. unfold apply_policies. destruct (_ && policy_satisfied (initial_result_policy _) _).
  - pose proof (records_release p (s, tr) Hs) as Hr.
    destruct (release_initial_results on_event p (s, tr)) as [[] [s1 tr1]]; cbn [negb]; [|done].
    simpl in Hr. destruct (_ && _); [by destruct s1|done].
  - cbn [negb]. destruct (_ && _); [by destruct s|done].
Qed.

Lemma records_progress ph : records_stops (emit_progress_and_apply_policies on_event ph).
Proof.
  intros [s tr] Hs. unfold emit_progress_and_apply_policies.
  apply (records_then _ (apply_policies on_event _)); [apply records_emit|apply records_policies|].
  by destruct s.
Qed.

Lemma stop_recorded_core_like s s' :
  ss_stop_finality s' = ss_stop_finality s → stop_recorded s → stop_recorded s'.
Proof. unfold stop_recorded. by intros ->. Qed.

Lemma quote_state_stop ph q s :
  ss_stop_finality (quote_state ph q s).2 = ss_stop_finality s.
Proof.
  unfold quote_state, record_top_route. destruct s; simpl. case_decide; simpl;
    repeat case_match_goal; done.
Qed.

Lemma records_found ph rank q : records_stops (emit_route_found on_event ph rank q).
Proof.
  intros [s tr] Hs. unfold emit_route_found. destruct (_ || _); [by apply records_emit|done].
Qed.

Lemma records_quote ph q : records_stops (observe_quote on_event ph q).
Proof.
  intros [s tr] Hs. rewrite observe_quote_unfold.
  pose proof (quote_state_stop ph q s) as Hq. destruct (quote_state ph q s) as [rank s1].
  cbn [fst snd] in Hq, Hs. apply (stop_recorded_core_like s s1 Hq) in Hs.
  pose proof (records_progress ph (s1, tr) Hs) as Hp.
  destruct (emit_progress_and_apply_policies on_event ph (s1, tr)) as [[] [s2 tr2]]; [|exact Hp].
  simpl in Hp. destruct (ss_initial_results_released s); [|exact Hp].
  destruct (improves q s); [|by apply records_found].
  apply (records_then (emit_or_stop on_event _)); [apply records_emit|apply records_found|exact Hp].
Qed.

Lemma records_step i : records_stops (stream_step on_event i).
Proof.
  intros [s tr] Hs. destruct i as [ph q|ph n| |n]; cbn [stream_step].
  - by apply records_quote.
  - unfold observe_failed_candidates. destruct (_ =? _)%Z; [done|].
    apply records_progress. by destruct s.
  - apply records_progress. by destruct s.
  - apply records_progress. by destruct s.
Qed.

(** Nothing stops a stream whose callback accepts everything and that has no
    stop policy. *)
Lemma stream_step_accepting i s tr :
  (∀ tr e, on_event tr e = Continue) → stop_policy (ss_config s) = None →
  (stream_step on_event i (s, tr)).1 = true.
Proof.
  intros Hacc Hpol. destruct (stream_step on_event i (s, tr)) as [[] [s' tr']] eqn:Hs; [done|].
  apply step_core in Hs as Hcore. apply stream_step_spec in Hs as [(_ & ? & _)|[_ Hs]]; [done|].
  destruct Hs as (ready & quotes & _ & _ & _ & _ & _ & _ & _ & Hv).
  destruct Hv as [(_ & evs0 & e & _ & _ & He)|(_ & _ & _ & Hmet)].
  - by rewrite Hacc in He.
  - apply core_config in Hcore. rewrite Hcore in Hmet.
    assert (ss_config (input_state i s) = ss_config s) as Hc.
    { destruct i as [ph q|ph n| |n]; simpl; [apply quote_state_frame|by destruct s..]. }
    by rewrite Hc, Hpol in Hmet.
Qed.
End stops.

(** ** The driver's state *)

Section driven.
Context `{!AmmTypes} `{!Petgraph Address EdgeData} (on_event : Callback)
  (config : StreamingSearchConfig).
Implicit Types (ob : Observed).

(** The stream has been shown exactly [ob_quotes]. *)
Record driven ob : Prop := {
  dr_inputs : ∃ ins, quotes_of ins = ob_quotes ob ∧ observed_ok config ins (ob_state ob);
  dr_stops : stop_recorded (ob_state ob);
}.

Lemma driven_new evaluated tr :
  driven {| ob_evaluated_paths := evaluated; ob_quotes := [];
            ob_stream := (StreamingRouteState_new config, tr) |}.
Proof. split; [exists []; split; [done|apply observed_ok_new]|done]. Qed.

Lemma driven_best ob : driven ob → ss_best (ob_state ob) = head (ranking (ob_quotes ob)).
Proof. by intros [(ins & <- & _ & Hb & _) _]. Qed.

Lemma driven_config ob : driven ob → ss_config (ob_state ob) = config.
Proof. by intros [(ins & _ & Hc & _) _]. Qed.

(** The driver's other updates of the state. *)
Lemma driven_state ob ob' :
  ob_quotes ob' = ob_quotes ob →
  (∀ ins, observed_ok config ins (ob_state ob) → observed_ok config ins (ob_state ob')) →
  ss_stop_finality (ob_state ob') = ss_stop_finality (ob_state ob) →
  driven ob → driven ob'.
Proof.
  intros Hq Hok Hs [(ins & Hins & Hobs) Hst]. split.
  - exists ins. rewrite Hq. split; [done|]. by apply Hok.
  - by eapply stop_recorded_core_like.
Qed.

Lemma driven_evaluated paths ob : driven ob → driven (add_evaluated paths ob).
Proof. by apply driven_state. Qed.

Lemma driven_duplicates n ob tr :
  driven ob → driven (set_stream (add_duplicates_skipped n (ob_state ob), tr) ob).
Proof.
  apply driven_state; [done| |by destruct ob as [? ? [[] ?]]].
  intros ins. unfold ob_state, observed_ok. simpl. by destruct (ob_stream ob).1.
Qed.

Lemma driven_mark ob tr :
  driven ob → driven (set_stream (mark_exhaustive_complete (ob_state ob), tr) ob).
Proof.
  apply driven_state; [done| |by destruct ob as [? ? [[] ?]]].
  intros ins. unfold ob_state, observed_ok. simpl. by destruct (ob_stream ob).1.
Qed.

(** What an event or a step leaves of the driver's state. *)
Record kept ob ob' : Prop := {
  kp_quotes : ob_quotes ob' = ob_quotes ob;
  kp_evaluated : ob_evaluated_paths ob' = ob_evaluated_paths ob;
  kp_driven : driven ob';
}.

(** A step on the stream, its quotes already entered in [ob_quotes]. *)
Lemma driven_step i ob ob1 b ob' :
  on_stream (stream_step on_event i) ob1 = (b, ob') →
  ob_stream ob1 = ob_stream ob → ob_quotes ob1 = ob_quotes ob ++ quotes_of [i] →
  driven ob → driven ob' ∧ ob_quotes ob' = ob_quotes ob1 ∧
    ob_evaluated_paths ob' = ob_evaluated_paths ob1.
Proof.
  unfold on_stream. intros Heq Hst Hq [(ins & Hins & Hobs) Hstop]. rewrite Hst in Heq.
  unfold ob_state in *. destruct (ob_stream ob) as [s tr].
  pose proof (records_step on_event i (s, tr) Hstop) as Hstop'.
  destruct (stream_step on_event i (s, tr)) as [b' [s' tr']] eqn:Hs.
  injection Heq as <- <-. split_and!; [|done..]. split; [|exact Hstop'].
  exists (ins ++ [i]). rewrite quotes_of_app, Hins. split; [done|].
  eapply observed_ok_core; [symmetry; by eapply step_core|]. by apply observed_ok_input.
Qed.

(** Steps without quotes. *)
Lemma driven_other i ob b ob' :
  quotes_of [i] = [] → on_stream (stream_step on_event i) ob = (b, ob') → driven ob → kept ob ob'.
Proof.
  intros Hi Heq Hd. apply (driven_step i ob) in Heq as (? & ? & ?); [by constructor|done| |done].
  by rewrite Hi, app_nil_r.
Qed.

Lemma kept_emit e ob b ob' :
  on_stream (emit_search_event on_event e) ob = (b, ob') → driven ob →
  kept ob ob' ∧ ob_state ob' = ob_state ob.
Proof.
  unfold on_stream, emit_search_event. destruct ob as [ev qs [s tr]]. simpl.
  intros [= <- <-] Hd. split; [|done]. split; [done..|]. by eapply driven_state; [..|exact Hd].
Qed.

(** Without a stop policy an accepting callback lets every step go on. *)
Lemma step_goes_on i ob ob1 b ob' :
  (∀ tr e, on_event tr e = Continue) → stop_policy config = None → driven ob →
  ob_stream ob1 = ob_stream ob → on_stream (stream_step on_event i) ob1 = (b, ob') → b = true.
Proof.
  intros Hacc Hpol Hd Hst Heq. apply driven_config in Hd. unfold ob_state in Hd.
  unfold on_stream in Heq. rewrite Hst in Heq. destruct (ob_stream ob) as [s tr].
  pose proof (stream_step_accepting on_event i s tr Hacc) as Hstep.
  destruct (stream_step on_event i (s, tr)) as [b' st]. injection Heq as <- _.
  apply Hstep. simpl in Hd. by rewrite Hd.
Qed.

(** ** The observers *)

Lemma heuristic_observer_driven ob obs b ob' :
  watched (observe_heuristic_quote on_event) ob obs b ob' → driven ob →
  driven ob' ∧ ob_quotes ob' = ob_quotes ob ++ obs ∧
  ob_evaluated_paths ob' = list_to_set (rq_path <$> obs) ∪ ob_evaluated_paths ob.
Proof.
  intros Hw Hd. eapply (watched_ind_state _ _ _ _ _ (λ obs ob', driven ob' ∧
    ob_quotes ob' = ob_quotes ob ++ obs ∧
    ob_evaluated_paths ob' = list_to_set (rq_path <$> obs) ∪ ob_evaluated_paths ob)); [| |exact Hw].
  - rewrite app_nil_r. split_and!; [done..|]. csimpl. by rewrite (left_id_L ∅ (∪)).
  - clear. intros obs ob1 q (Hd & Hq & He). unfold observe_heuristic_quote.
    destruct (on_stream _ _) as [b ob2] eqn:Heq.
    change (observe_quote on_event PhaseHeuristic q) with
      (stream_step on_event (InQuote PhaseHeuristic q)) in Heq.
    apply (driven_step _ ob1) in Heq as (? & Hq2 & He2); [|done..]. simpl in *.
    split_and!; [done|by rewrite Hq2, Hq, (assoc_L (++))|]. rewrite He2, He, fmap_app.
    set_solver.
Qed.

Lemma exhaustive_observer_driven ob obs b ob' :
  watched (observe_exhaustive_quote on_event) ob obs b ob' → driven ob →
  driven ob' ∧ ob_quotes ob' = ob_quotes ob ++ obs.
Proof.
  intros Hw Hd. eapply (watched_ind_state _ _ _ _ _ (λ obs ob', driven ob' ∧
    ob_quotes ob' = ob_quotes ob ++ obs)); [| |exact Hw].
  - by rewrite app_nil_r.
  - clear. intros obs ob1 q (Hd & Hq). unfold observe_exhaustive_quote.
    destruct (on_stream _ _) as [b ob2] eqn:Heq.
    change (observe_quote on_event PhaseExhaustive q) with
      (stream_step on_event (InQuote PhaseExhaustive q)) in Heq.
    apply (driven_step _ ob1) in Heq as (? & Hq2 & _); [|done..]. simpl in *.
    split; [done|]. by rewrite Hq2, Hq, (assoc_L (++)).
Qed.

(** Both observers accept everything when nothing stops the stream; the state
    must be driven all along. *)
Lemma observer_accepts (f : RouteQuote → Observed → bool * Observed) ob obs b ob' :
  (∀ q ob, driven ob → (f q ob).1 = true) → (∀ q ob, driven ob → driven (f q ob).2) →
  watched f ob obs b ob' → driven ob → b = true.
Proof.
  intros Hf Hf' Hw Hd. assert (driven ob' ∧ b = true) as [_ ?]; [|done].
  induction Hw as [|obs ob1 q b ob2 _ [IH _] Hq]; [done|].
  pose proof (Hf q ob1 IH) as H1. pose proof (Hf' q ob1 IH) as H2. by rewrite Hq in H1, H2.
Qed.

Lemma heuristic_observer_accepts ob obs b ob' :
  (∀ tr e, on_event tr e = Continue) → stop_policy config = None → driven ob →
  watched (observe_heuristic_quote on_event) ob obs b ob' → b = true.
Proof.
  intros Hacc Hpol Hd Hw. eapply (observer_accepts _ ob obs); [..|exact Hw|done].
  - intros q ob1 Hd1. destruct (observe_heuristic_quote on_event q ob1) as [b1 ob2] eqn:Heq.
    unshelve eapply (step_goes_on (InQuote PhaseHeuristic q) ob1 _ b1 ob2 Hacc Hpol Hd1 _ Heq). done.
  - intros q ob1 Hd1. apply (heuristic_observer_driven ob1 [q]
      (observe_heuristic_quote on_event q ob1).1); [|done].
    apply (watched_snoc _ _ [] ob1); [constructor|apply surjective_pairing].
Qed.

Lemma exhaustive_observer_accepts ob obs b ob' :
  (∀ tr e, on_event tr e = Continue) → stop_policy config = None → driven ob →
  watched (observe_exhaustive_quote on_event) ob obs b ob' → b = true.
Proof.
  intros Hacc Hpol Hd Hw. eapply (observer_accepts _ ob obs); [..|exact Hw|done].
  - intros q ob1 Hd1. destruct (observe_exhaustive_quote on_event q ob1) as [b1 ob2] eqn:Heq.
    unshelve eapply (step_goes_on (InQuote PhaseExhaustive q) ob1 _ b1 ob2 Hacc Hpol Hd1 _ Heq). done.
  - intros q ob1 Hd1. apply (exhaustive_observer_driven ob1 [q]
      (observe_exhaustive_quote on_event q ob1).1); [|done].
    apply (watched_snoc _ _ [] ob1); [constructor|apply surjective_pairing].
Qed.

(** ** Reports *)

(** What a report says of the quotes observed. *)
Record report_of_quotes (qs : list RouteQuote) (rep : StreamingSearchReport) : Prop := {
  rq_best : rep_best rep = head (ranking qs);
  rq_top : NoDup (rq_path <$> qs) → rep_top_routes rep = take (top_k config) (ranking qs);
  rq_observed : rep_routes_observed rep = Z.of_nat (length qs);
}.

Lemma report_driven ob finality qc pruning :
  driven ob → report_of_quotes (ob_quotes ob) (report (ob_state ob) finality qc pruning).
Proof. by intros [(ins & <- & _ & ? & ? & _ & ?) _]. Qed.

Lemma finish_run_spec finality emit ob qc :
  driven ob →
  ∃ rep tr, finish_run on_event finality emit ob qc =
      (Ok {| sr_report := rep; sr_quotes := ob_quotes ob |}, tr, qc) ∧
    report_of_quotes (ob_quotes ob) rep ∧
    (rep_finality rep = finality ∨
     rep_finality rep = Stopped ∧ ¬ (∀ tr e, on_event tr e = Continue)).
Proof.
  intros Hd. unfold finish_run, finish_stream_report, release_initial_results_at_completion.
  pose proof (report_driven ob) as Hrep. unfold ob_state in Hrep.
  destruct (ob_stream ob) as [s tr] eqn:Hst. simpl in Hrep.
  assert (∀ rep, rep_best rep = ss_best s → rep_top_routes rep = ss_top_routes s →
    rep_routes_observed rep = ss_routes_observed s → report_of_quotes (ob_quotes ob) rep) as Hsame.
  { intros rep Hb Ht Ho. destruct (Hrep finality (qc_stats qc) (qc_liquidity_pruning qc) Hd)
      as [H1 H2 H3]. simpl in *. by constructor; rewrite ?Hb, ?Ht, ?Ho. }
  destruct (_ || _); [|unfold release_initial_results; destruct (ss_best s) as [best|] eqn:Hb].
  - destruct emit; (do 2 eexists; split_and!; [done|by apply Hsame|by left]).
  - match goal with |- context [emit_or_stop on_event ?e _] =>
      destruct (emit_or_stop_cases on_event e (set_released s) tr) as [[He ->]|[He ->]] end;
      destruct emit; (do 2 eexists; split_and!; [done|by apply Hsame; destruct s|]);
      first [by left | right; split; [done|]; intros Hacc; by rewrite Hacc in He].
  - destruct emit; (do 2 eexists; split_and!; [done|by apply Hsame|by left]).
Qed.
End driven.

(** ** Routes *)

Section routes.
Context `{!AmmTypes} `{!Petgraph Address EdgeData} `{!PetgraphLaws Address EdgeData}.
Implicit Types (g : AmmGraph).

(** Wider connectors admit more routes. *)
Lemma valid_route_connectors g ti to config config' allow p :
  min_hops config = min_hops config' → max_hops config = max_hops config' →
  (∀ t, connector_allowed t ti to config = true → connector_allowed t ti to config' = true) →
  valid_route g ti to config allow p → valid_route g ti to config' allow p.
Proof.
  intros Hmin Hmax Hcon (prefix & cur & h & -> & [H1 H2 H3 H4 H5 H6] & Hrest).
  exists prefix, cur, h. rewrite <- Hmin, <- Hmax. split; [done|]. split; [|done].
  constructor; auto.
Qed.

Lemma valid_route_exhaustive g ti to config allow p :
  valid_route g ti to (exhaustive config) allow p ↔ valid_route g ti to config allow p.
Proof.
  split; (apply valid_route_connectors; [by destruct config|by destruct config|]);
    intros t; by destruct config.
Qed.

(** The connectors the heuristic settles on are allowed ones. *)
Lemma valid_route_heuristic g ti to config h allow p :
  heuristic_valid g ti to (with_mode (ModeHeuristic h) config) h allow p →
  valid_route g ti to config allow p.
Proof.
  unfold heuristic_valid, connector_tokens_for_heuristic.
  apply valid_route_connectors; [by destruct config|by destruct config|].
  intros t. unfold connector_allowed, connector_allowed_with_tokens.
  destruct config as [lo hi mc [k|] m l]; simpl; [done|]. by destruct (_ || _).
Qed.

Lemma heuristic_config_valid config h :
  SearchConfig_validate config = Ok () →
  h = match mode config with ModeExhaustive => HeuristicSearchConfig_default
      | ModeHeuristic h => h end →
  SearchConfig_validate (with_mode (ModeHeuristic h) config) = Ok ().
Proof.
  rewrite !search_config_validate_Ok. intros (Hhops & Hmax & Hmode) ->.
  destruct config as [lo hi mc k m l]. unfold search_config_ok in *. simpl in *.
  split; [done|]. split; [done|]. intros h [= <-]. destruct m as [|h]; [|by apply Hmode].
  apply heuristic_validate_Ok. reflexivity.
Qed.

Lemma exhaustive_config_valid config :
  SearchConfig_validate config = Ok () → SearchConfig_validate (exhaustive config) = Ok ().
Proof.
  rewrite !search_config_validate_Ok. intros (Hhops & Hmax & _).
  destruct config as [lo hi mc k m l]. unfold search_config_ok in *. simpl in *. done.
Qed.

(** The enumeration of the routes not yet evaluated. *)
Lemma enumerate_remaining g ti to source target config excluded limit sc :
  graph_wf g → node_index g ti = Some source → node_index g to = Some target →
  SearchConfig_validate config = Ok () →
  ∃ r, enumerate_routes_filtered g ti to config false excluded limit sc = Some r ∧
    match r with
    | Ok e =>
        (re_stopped e = false →
           NoDup (re_paths e) ∧
           (∀ p, p ∈ re_paths e → valid_route g ti to config false p ∧ p ∉ excluded) ∧
           (limit = None → ∀ p, valid_route g ti to config false p → p ∉ excluded →
              p ∈ re_paths e)) ∧
        ((∀ n, (poll_stop sc n).1 = false) → re_stopped e = false)
    | Err err => err = ErrNoPath ti to ∧ ∀ p, ¬ valid_route g ti to config false p
    end.
Proof.
  intros Hwf Hs Ht Hval.
  destruct (enumeration_cancellation g ti to source target config false excluded limit sc Hs Ht
    Hval) as (r & r0 & Hr & Hr0 & Hrel).
  exists r. split; [done|].
  destruct (decide (limit = Some 0)) as [->|Hlim].
  { unfold enumerate_routes_filtered in Hr. rewrite Hval, Hs, Ht in Hr. cbn in Hr.
    injection Hr as <-. split; [|done]. intros _. simpl. split_and!; [constructor|set_solver|done]. }
  assert (∀ e, r = Ok e → (∀ n, (poll_stop sc n).1 = false) → re_stopped e = false) as Hquiet.
  { intros e -> Hsc. by eapply enumerate_unstopped. }
  destruct (bfs_spec g ti to source target config false Hwf Hs Ht) as (Hnd & _ & Hin).
  destruct (enumeration_limit_and_exclusion g ti to source target config false excluded limit Hwf
    Hs Ht Hval Hlim) as (full & r0' & Hfull & Hr0' & Hfr).
  rewrite Hr0 in Hr0'. injection Hr0' as <-.
  rewrite (enumerate_uncancelled g ti to source target) in Hfull by done.
  case_decide as Hb.
  { injection Hfull as <-. destruct r0 as [e|err]; [done|].
    assert (∀ p, ¬ valid_route g ti to config false p) as Hno.
    { intros p Hp%Hin. rewrite Hb in Hp. set_solver. }
    destruct r as [e|err'].
    - destruct (re_stopped e) eqn:Hst; [|done]. split; [done|]. intros Hsc. by rewrite <- Hst, (Hquiet e).
    - injection Hrel as <-. by rewrite Hfr. }
  rewrite collect_unlimited in Hfull by (try done; unfold usize_max; lia).
  assert (fresh ∅ (bfs_routes g ti to source target config false) =
          bfs_routes g ti to source target config false) as Hfresh.
  { apply filter_all. set_solver. }
  rewrite Hfresh in Hfull. injection Hfull as <-.
  destruct r0 as [e0|err]; [|done]. destruct Hfr as (Hpaths & Hst0 & _). simpl in Hpaths.
  destruct r as [e|err']; [|done]. split; [|by apply Hquiet].
  intros Hst. rewrite Hst in Hrel. injection Hrel as <-.
  set (rest := filter (λ p, p ∉ excluded) (bfs_routes g ti to source target config false)) in *.
  assert (NoDup rest) as Hndr by by apply NoDup_filter.
  assert (∀ p, p ∈ rest ↔ valid_route g ti to config false p ∧ p ∉ excluded) as Hrest.
  { intros p. unfold rest. rewrite list_elem_of_filter, Hin. tauto. }
  rewrite Hpaths. destruct limit as [n|].
  - split_and!; [|intros p (i & Hi & _)%elem_of_take; apply Hrest; by eapply list_elem_of_lookup_2|done].
    rewrite <- (take_drop n rest) in Hndr. by apply NoDup_app in Hndr as (? & _).
  - split_and!; [done|intros p; by apply Hrest|]. intros _ p Hv Hp. by apply Hrest.
Qed.
End routes.
