(* ===== verification/StreamDriverTheorems.v ===== *)
(** * Theorems about the streaming driver

    Whatever the callback, the policies, the cancellation and the schedule of
    the worker threads: a streamed search reports distinct admissible routes,
    correctly quoted, with the best and the top routes of what it observed; a
    report of finality [Exhaustive] certifies that every admissible route that
    quotes was observed; and when nothing stops it, the search returns with the
    finality it was asked for.  A session starts from the routes its search
    observed. *)

From S2P Require Import Prelude Ordering AmmState Petgraph Graph GraphPairs GraphInv GraphProps.
From S2P Require Import GraphTheorems Config SearchTypes Enumerate EnumerateProps.
From S2P Require Import EnumerateTheorems Liquidity QuoteCache QuoteCacheProps Quote QuoteProps.
From S2P Require Import Ranking Heuristic HeuristicProps HeuristicSearch HeuristicSteps.
From S2P Require Import HeuristicRun HeuristicWatch HeuristicTheorems Workers WorkersProps.
From S2P Require Import Searcher SearchTheorems.
From S2P Require Import Streaming StreamingProps StreamingTheorems Session SessionProps.
From S2P Require Import SessionTheorems StreamDriver StreamDriverProps StreamDriverRun.

(** What a streamed search relies on: adapters that answer consistently,
    distinct scopes, a well-formed graph, an overlay the adapters answer from,
    distinct endpoints, and a group order of its heuristic. *)
Record stream_env `{!AmmTypes} `{!Petgraph Address EdgeData} `{!PetgraphLaws Address EdgeData}
    (s : AmmSearcher)
    (Inv : AdapterCache → Prop) (sim : SimConfig → Hop → U256 → result SimError U256)
    (request : RouteRequest) (overlays : SearchOverlaySource) : Prop := {
  st_simulates : simulates (as_registry s) Inv sim;
  st_scopes : scope_inj (as_quote_context s);
  st_graph : graph_wf (as_graph s);
  st_overlay : Inv (source_overlay overlays);
  st_distinct : token_in request ≠ token_out request;
  st_order : target_first (request_heuristic request) = true ∨
    ranks_branches (liquidity_pruning (rr_config request)) = false;
}.

Section run.
Context `{!AmmTypes} `{!Petgraph Address EdgeData} `{!PetgraphLaws Address EdgeData}.
Context (s : AmmSearcher) (Inv : AdapterCache → Prop)
  (sim : SimConfig → Hop → U256 → result SimError U256) (request : RouteRequest)
  (overlays : SearchOverlaySource) (config : StreamingSearchConfig) (schedule : list Move)
  (on_event : Callback) (should_continue : option (nat → bool)).

Abbreviation ti := (token_in request).
Abbreviation to := (token_out request).
Abbreviation valid := (valid_route (as_graph s) ti to (rr_config request) false).
Abbreviation quoted p :=
  (path_quote (as_registry s) sim (rr_sim_config request) (as_quote_context s) p
     (rr_amount_in request)).
Abbreviation results :=
  (results_of (as_registry s) sim (rr_sim_config request) (as_quote_context s)
     (rr_amount_in request)).
Abbreviation coherent_ := (coherent (as_registry s) sim (as_quote_context s)).

(** ** What a run promises *)

(** Quotes of distinct admissible routes. *)
Definition genuine (qs : list RouteQuote) : Prop :=
  NoDup (rq_path <$> qs) ∧ ∀ q, q ∈ qs → valid (rq_path q) ∧ quoted (rq_path q) = Ok q.

(** All of them. *)
Definition complete (qs : list RouteQuote) : Prop :=
  ∀ p q, valid p → quoted p = Ok q → q ∈ qs.

Definition unlimited : Prop := max_candidates (rr_config request) = None.

(** Neither the callback, a policy, a cancellation nor a limit stops the run. *)
Record nothing_stops : Prop := {
  ns_accepts tr e : on_event tr e = Continue;
  ns_policy : stop_policy config = None;
  ns_cancel n : (poll_stop should_continue n).1 = false;
  ns_unlimited : unlimited;
}.

(** The finality the configuration asks for. *)
Definition configured_finality : SearchFinality :=
  match completion config with
  | FastLaneExhausted => Streaming.FastLaneOnly
  | HeuristicExhausted => HeuristicOnly
  | CompletionExhaustive => FinalityExhaustive
  end.

Definition justified (e : SearchError) : Prop :=
  match e with
  | ErrNoPath a b => a = ti ∧ b = to
  | ErrNoViableRoute n failures =>
      n = length failures ∧ ∀ f, f ∈ failures → quoted (pf_path f) = Err (pf_reason f)
  | _ => False
  end.

Definition run_good (run : StreamRun) : Prop :=
  coherent_ run.2 ∧
  match run.1.1 with
  | Ok r =>
      genuine (sr_quotes r) ∧ report_of_quotes config (sr_quotes r) (sr_report r) ∧
      (rep_finality (sr_report r) = FinalityExhaustive → unlimited → complete (sr_quotes r)) ∧
      (nothing_stops → rep_finality (sr_report r) = configured_finality)
  | Err e =>
      justified e ∧ (completion config = CompletionExhaustive → unlimited → complete []) ∨
      e = ErrWorkerPanic ∧ panics schedule
  end.

Definition answers_good (o : option StreamRun) : Prop := ∃ run, o = Some run ∧ run_good run.

Lemma answers_return run : run_good run → answers_good (Some run).
Proof. by exists run. Qed.

(** ** From the end of the run backwards *)

(** Where the driver is between two phases. *)
Record at_phase (ob : Observed) (qc : SharedQuoteCache) : Prop := {
  ap_driven : driven config ob;
  ap_genuine : genuine (ob_quotes ob);
  ap_coherent : coherent_ qc;
}.

Lemma at_phase_kept ob ob' qc : kept config ob ob' → at_phase ob qc → at_phase ob' qc.
Proof. intros [Hq _ Hd] [_ Hg Hc]. split; [done|by rewrite Hq|done]. Qed.

Lemma finish_run_good finality emit ob qc :
  at_phase ob qc →
  (finality = FinalityExhaustive → unlimited → complete (ob_quotes ob)) →
  (nothing_stops → finality = configured_finality) →
  run_good (finish_run on_event finality emit ob qc).
Proof.
  intros [Hd Hg Hc] Hex Hns.
  destruct (finish_run_spec on_event config finality emit ob qc Hd) as (rep & tr & -> & Hrep & Hfin).
  split; [done|]. simpl. split_and!; [exact Hg|exact Hrep| |].
  - destruct Hfin as [->|[-> _]]; [done|]. by intros.
  - intros Hn. destruct Hfin as [->|[_ Hno]]; [auto|]. destruct Hno. apply Hn.
Qed.

Lemma finish_stopped_good ob qc :
  at_phase ob qc → ¬ nothing_stops → run_good (finish_stopped on_event ob qc).
Proof.
  intros Hat Hn. apply finish_run_good; [done| |done].
  pose proof (dr_stops _ _ (ap_driven _ _ Hat)) as Hs. unfold stop_recorded, final_stop_finality in *.
  destruct (ss_stop_finality (ob_state ob)) as [[]|]; done.
Qed.

Lemma fail_run_good e ob qc :
  coherent_ qc → justified e →
  (completion config = CompletionExhaustive → unlimited → complete []) →
  run_good (fail_run e ob qc).
Proof. intros Hc Hj Hn. split; [done|]. by left. Qed.

Lemma phase_completed_good ph ob qc continue :
  at_phase ob qc →
  (∀ ob', kept config ob ob' → ob_state ob' = ob_state ob → answers_good (continue ob')) →
  answers_good (phase_completed on_event ph ob qc continue).
Proof.
  intros Hat Hk. unfold phase_completed. cbv zeta.
  match goal with |- context [emit_search_event on_event ?e] => set (event := e) end.
  destruct (on_stream (emit_search_event on_event event) ob) as [b ob'] eqn:Heq.
  destruct (kept_emit on_event config event ob b ob' Heq (ap_driven _ _ Hat)) as [Hkept Hst].
  destruct b; [by apply Hk|]. apply answers_return, finish_run_good; [by eapply at_phase_kept|done|].
  intros Hn. exfalso. unfold on_stream, emit_search_event in Heq. destruct (ob_stream ob) as [s0 tr].
  injection Heq as Hb _. by rewrite (ns_accepts Hn), bool_decide_true in Hb.
Qed.

(** A step of the stream between phases. *)
Lemma step_at_phase i ob qc b ob' :
  quotes_of [i] = [] → on_stream (stream_step on_event i) ob = (b, ob') → at_phase ob qc →
  kept config ob ob' ∧ (nothing_stops → b = true).
Proof.
  intros Hi Heq Hat. pose proof (ap_driven _ _ Hat) as Hd. split; [by eapply driven_other|].
  intros Hn. eapply (step_goes_on on_event config i ob ob); [apply Hn|apply Hn|done..].
Qed.

Lemma best_none ob : driven config ob → ss_best (ob_state ob) = None → ob_quotes ob = [].
Proof. intros Hd. rewrite (driven_best config ob Hd). apply head_ranking_None. Qed.

(** ** The exhaustive phase *)

Hypothesis (Henv : stream_env s Inv sim request overlays).
Hypothesis (Hval : StreamingSearchConfig_validate config = Ok ()).
Hypothesis (Hcfg : SearchConfig_validate (rr_config request) = Ok ()).

Lemma finish_exhaustive_good err stopped failures ob qc :
  at_phase ob qc → completion config = CompletionExhaustive →
  (stopped = true → ¬ nothing_stops) →
  (stopped = false → unlimited → complete (ob_quotes ob)) →
  (∀ e, err = Some e → justified e) →
  (∀ f, f ∈ failures → quoted (pf_path f) = Err (pf_reason f)) →
  answers_good (finish_exhaustive on_event err stopped failures ob qc).
Proof.
  intros Hat Hcomp Hstop Hall Herr Hf. unfold finish_exhaustive. destruct stopped.
  { apply answers_return, finish_stopped_good; [done|by apply Hstop]. }
  set (ob1 := set_stream _ ob).
  assert (kept config ob ob1) as Hk1 by (split; [done..|by apply driven_mark, Hat]).
  apply phase_completed_good; [by eapply at_phase_kept|]. intros ob' Hk _.
  assert (at_phase ob' qc) as Hat' by (eapply at_phase_kept; [done|by eapply at_phase_kept]).
  assert (ob_quotes ob' = ob_quotes ob) as Hq by (by rewrite (kp_quotes _ _ _ Hk)).
  destruct (ss_best (ob_state ob')) eqn:Hb; apply answers_return.
  - apply finish_run_good; [done| |].
    + intros _. rewrite Hq. by apply Hall.
    + intros _. unfold configured_finality. by rewrite Hcomp.
  - apply fail_run_good; [apply Hat| |].
    + destruct err; simpl; [by apply Herr|done].
    + apply best_none in Hb; [|apply Hat']. intros _ Hu. rewrite <- Hb, Hq. by apply Hall.
Qed.

(** The quotes the exhaustive phase adds. *)
Lemma genuine_app qs obs paths :
  genuine qs → NoDup paths → (∀ p, p ∈ paths → valid p ∧ p ∉ rq_path <$> qs) →
  obs ⊆+ omap result_ok (results paths) → genuine (qs ++ obs).
Proof.
  intros [Hnd Hq] Hndp Hp Hsub.
  assert (∀ q, q ∈ omap result_ok (results paths) → rq_path q ∈ paths ∧ quoted (rq_path q) = Ok q)
    as Hgen.
  { intros q. rewrite quotes_of_paths. intros (p & Hin & Hpq)%list_elem_of_omap.
    unfold quote_of in Hpq. destruct (path_quote _ _ _ _ p _) as [q'|] eqn:Heq; [|done].
    injection Hpq as ->. by destruct (path_quote_path _ _ _ _ _ _ Heq) as [-> _]. }
  assert (∀ q, q ∈ obs → rq_path q ∈ paths ∧ quoted (rq_path q) = Ok q) as Hobs.
  { intros q Hin. apply Hgen. by eapply elem_of_submseteq. }
  split.
  - rewrite fmap_app. apply NoDup_app. split_and!; [done| |].
    + intros p Hin (q & -> & Hqo)%list_elem_of_fmap. apply Hobs in Hqo as [Hqo _].
      by apply Hp in Hqo as [_ ?].
    + assert (NoDup (rq_path <$> omap result_ok (results paths))) as Hall.
      { rewrite quotes_of_paths. apply NoDup_omap_path; [done|]. unfold quote_of. intros p q Hpq.
        destruct (path_quote _ _ _ _ p _) as [q'|] eqn:Heq; [|done]. injection Hpq as ->.
        by apply path_quote_path in Heq as [-> _]. }
      apply (fmap_submseteq rq_path) in Hsub. apply submseteq_Permutation in Hsub as [rest Hrest].
      rewrite Hrest in Hall. by apply NoDup_app in Hall as (? & _).
  - intros q [Hin|Hin]%elem_of_app; [by apply Hq|]. apply Hobs in Hin as [Hin ?].
    split; [|done]. by apply Hp.
Qed.

Lemma complete_app qs obs paths :
  (∀ p, valid p → p ∉ rq_path <$> qs → p ∈ paths) → genuine qs →
  obs ≡ₚ omap result_ok (results paths) → complete (qs ++ obs).
Proof.
  intros Hrest [_ Hq] Hobs p q Hv Hpq. apply elem_of_app.
  destruct (decide (p ∈ rq_path <$> qs)) as [(q' & -> & Hin)%list_elem_of_fmap|Hp].
  - left. apply Hq in Hin as Hg. destruct Hg as [_ Hg]. rewrite Hg in Hpq. by injection Hpq as <-.
  - right. rewrite Hobs, quotes_of_paths, list_elem_of_omap. exists p. split; [by apply Hrest|].
    unfold quote_of. by rewrite Hpq.
Qed.

Lemma parallel_valid : ParallelSearchConfig_validate (parallel config) = Ok ().
Proof.
  apply streaming_validate_Ok in Hval as (Hw & _). unfold ParallelSearchConfig_validate.
  rewrite reject_if_Ok, eqb_0. split; [lia|done].
Qed.

(** The routes still to be quoted. *)
Record remaining (ob : Observed) (paths : list RoutePath) : Prop := {
  rm_nodup : NoDup paths;
  rm_paths p : p ∈ paths → valid p ∧ p ∉ rq_path <$> ob_quotes ob;
  rm_all : unlimited → ∀ p, valid p → p ∉ rq_path <$> ob_quotes ob → p ∈ paths;
}.

Lemma quote_remaining_good err paths ob qc :
  at_phase ob qc → completion config = CompletionExhaustive → remaining ob paths →
  (∀ e, err = Some e → justified e) →
  answers_good (quote_remaining s request overlays config schedule on_event err paths ob qc).
Proof.
  intros Hat Hcomp [Hnd Hpaths Hall] Herr. unfold quote_remaining.
  destruct (quote_and_stream_parallel_spec s Inv sim (rr_amount_in request)
    (rr_sim_config request) (parallel config) schedule overlays (st_simulates _ _ _ _ _ Henv)
    (st_scopes _ _ _ _ _ Henv) (st_overlay _ _ _ _ _ Henv) parallel_valid
    (observe_exhaustive_quote on_event) paths qc ob (ap_coherent _ _ Hat))
    as (res & -> & out & obs & b & ob1 & qc1 & -> & Hqc1 & Hw & Hsub & Hout).
  destruct out as [rep|e]; cycle 1.
  { apply answers_return. split; [done|]. by right. }
  destruct Hout as [Hst Hfull].
  destruct (exhaustive_observer_driven on_event config ob obs b ob1 Hw (ap_driven _ _ Hat))
    as [Hd1 Hq1].
  assert (at_phase ob1 qc1) as Hat1.
  { split; [done| |done]. rewrite Hq1. eapply genuine_app; [apply Hat|..|done]; done. }
  assert (∀ f, f ∈ qp_failures rep → b = true → quoted (pf_path f) = Err (pf_reason f)) as Hfail.
  { intros f Hf Hb. destruct (Hfull Hb) as [_ Hperm]. rewrite Hperm, failures_of_paths in Hf.
    apply list_elem_of_omap in Hf as (p & _ & Hf). unfold failure_of in Hf.
    by destruct (path_quote _ _ _ _ p _) eqn:Heq; simplify_eq. }
  assert (nothing_stops → b = true) as Hgo.
  { intros Hn. eapply (exhaustive_observer_accepts on_event config); [apply Hn|apply Hn| |exact Hw].
    apply Hat. }
  rewrite Hst. destruct b; cbn [negb].
  - destruct (on_stream _ ob1) as [b2 ob2] eqn:Hob2.
    destruct (step_at_phase (InFailed PhaseExhaustive _) ob1 qc1 b2 ob2 eq_refl Hob2 Hat1)
      as [Hk2 Hgo2].
    assert (at_phase ob2 qc1) as Hat2 by (by eapply at_phase_kept).
    apply finish_exhaustive_good; [done|done| | |done|by intros; apply Hfail].
    + intros Hb2 Hn. by rewrite (Hgo2 Hn) in Hb2.
    + intros _ Hu. rewrite (kp_quotes _ _ _ Hk2), Hq1. destruct (Hfull eq_refl) as [Hobs _].
      eapply complete_app; [by apply Hall|apply Hat|done].
  - unfold finish_exhaustive. apply answers_return, finish_stopped_good; [done|].
    intros Hn. by specialize (Hgo Hn).
Qed.

Lemma stream_enumerated_good err e ob qc :
  at_phase ob qc → completion config = CompletionExhaustive →
  (re_stopped e = false → remaining ob (re_paths e)) →
  (nothing_stops → re_stopped e = false) → (∀ e, err = Some e → justified e) →
  answers_good (stream_enumerated s request overlays config schedule on_event err e ob qc).
Proof.
  intros Hat Hcomp Hrem Hns Herr. unfold stream_enumerated. set (ob1 := set_stream _ ob).
  assert (kept config ob ob1) as Hk1 by (split; [done..|by apply driven_duplicates, Hat]).
  assert (at_phase ob1 qc) as Hat1 by (by eapply at_phase_kept).
  destruct (re_stopped e) eqn:Hst.
  { apply answers_return, finish_run_good; [done|done|]. intros Hn. by specialize (Hns Hn). }
  specialize (Hrem eq_refl). destruct (on_stream _ ob1) as [b ob2] eqn:Hob2.
  destruct (step_at_phase (InTotal _) ob1 qc b ob2 eq_refl Hob2 Hat1) as [Hk2 Hgo].
  assert (at_phase ob2 qc) as Hat2 by (by eapply at_phase_kept).
  assert (ob_quotes ob2 = ob_quotes ob) as Hq2 by (by rewrite (kp_quotes _ _ _ Hk2)).
  assert (remaining ob2 (re_paths e)) as Hrem2.
  { destruct Hrem as [H1 H2 H3]. split; [done|by rewrite Hq2..]. }
  destruct b; cbn [negb].
  - destruct (re_paths e) as [|p paths] eqn:Hp; [|by apply quote_remaining_good].
    apply finish_exhaustive_good; [done|done|done| |done|set_solver].
    intros _ Hu p q Hv Hpq. destruct Hrem2 as [_ _ Hall].
    destruct (decide (p ∈ rq_path <$> ob_quotes ob2)) as [(q' & -> & Hin)%list_elem_of_fmap|Hnp].
    + destruct (proj2 (ap_genuine _ _ Hat2) q' Hin) as [_ Hg]. rewrite Hg in Hpq.
      by injection Hpq as <-.
    + specialize (Hall Hu p Hv Hnp). set_solver.
  - apply finish_exhaustive_good; [done|done| |done|done|set_solver].
    intros _ Hn. by specialize (Hgo Hn).
Qed.

Context (source target : NodeIndex).
Hypothesis (Hsource : node_index (as_graph s) ti = Some source).
Hypothesis (Htarget : node_index (as_graph s) to = Some target).

(** The paths marked evaluated are those of the observed quotes. *)
Definition tracked (ob : Observed) : Prop :=
  ob_evaluated_paths ob = list_to_set (rq_path <$> ob_quotes ob).

Lemma stream_exhaustive_good err ob qc :
  at_phase ob qc → tracked ob → completion config = CompletionExhaustive →
  (∀ e, err = Some e → justified e) →
  answers_good (stream_exhaustive s request overlays config schedule on_event should_continue
    err ob qc).
Proof.
  intros Hat Htr Hcomp Herr. unfold stream_exhaustive.
  destruct (enumerate_remaining (as_graph s) ti to source target (exhaustive (rr_config request))
    (ob_evaluated_paths ob) (remaining_budget request ob)
    ((λ (f : nat → bool) n, f (S n)) <$> should_continue) (st_graph _ _ _ _ _ Henv) Hsource Htarget
    (exhaustive_config_valid _ Hcfg)) as (r & -> & Hr).
  destruct r as [e|e].
  - destruct Hr as [Hr Hcan]. apply stream_enumerated_good; [done|done| | |done].
    + intros Hst. destruct (Hr Hst) as (Hnd & Hp & Hall). split; [done| |].
      * intros p Hin. apply Hp in Hin as [Hv Hx]. rewrite valid_route_exhaustive in Hv.
        split; [done|]. rewrite Htr in Hx. by rewrite elem_of_list_to_set in Hx.
      * intros Hu p Hv Hnp. apply Hall.
        -- unfold remaining_budget. by rewrite Hu.
        -- by rewrite valid_route_exhaustive.
        -- by rewrite Htr, elem_of_list_to_set.
    + intros Hn. apply Hcan. pose proof (ns_cancel Hn) as Hc. destruct should_continue; [|done].
      intros n. apply (Hc (S n)).
  - destruct Hr as [-> Hno].
    assert (∀ p, ¬ valid p) as Hno' by (intros p; rewrite <- valid_route_exhaustive; apply Hno).
    destruct (ss_best (ob_state ob)) eqn:Hb; apply answers_return.
    + apply finish_run_good; [done| |].
      * intros _ _ p q Hv. by destruct (Hno' p).
      * intros _. unfold configured_finality. by rewrite Hcomp.
    + apply fail_run_good; [apply Hat| |].
      * destruct err; simpl; [by apply Herr|done].
      * intros _ _ p q Hv. by destruct (Hno' p).
Qed.

(** ** The heuristic phase *)

Lemma after_heuristic_good err ob qc :
  at_phase ob qc → tracked ob → (∀ e, err = Some e → justified e) →
  answers_good (after_heuristic s request overlays config schedule on_event should_continue
    err ob qc).
Proof.
  intros Hat Htr Herr. unfold after_heuristic. cbv zeta.
  assert (∀ finality, finality = configured_finality → finality ≠ FinalityExhaustive →
    completion config ≠ CompletionExhaustive →
    answers_good (match ss_best (ob_state ob), err with
      | None, Some e => Some (fail_run e ob qc)
      | _, _ => Some (finish_run on_event finality true ob qc)
      end)) as Hfin.
  { intros finality Hf Hne Hcomp.
    assert (answers_good (Some (finish_run on_event finality true ob qc))) as Hgood.
    { by apply answers_return, finish_run_good. }
    destruct (ss_best (ob_state ob)); [done|]. destruct err as [e|]; [|done].
    apply answers_return, fail_run_good; [apply Hat|by apply Herr|done]. }
  destruct (completion config) eqn:Hcomp.
  - apply Hfin; [|done..]. unfold configured_finality. by rewrite Hcomp.
  - apply Hfin; [|done..]. unfold configured_finality. by rewrite Hcomp.
  - by apply stream_exhaustive_good.
Qed.

Lemma finish_heuristic_good stopped err ob qc :
  at_phase ob qc → tracked ob → (stopped = true → ¬ nothing_stops) →
  (∀ e, err = Some e → justified e) →
  answers_good (finish_heuristic s request overlays config schedule on_event should_continue
    stopped err ob qc).
Proof.
  intros Hat Htr Hstop Herr. unfold finish_heuristic.
  destruct (if stopped then _ else _) as [b ob1] eqn:Hob1.
  assert (kept config ob ob1 ∧ (nothing_stops → b = true)) as [Hk Hgo].
  { destruct stopped.
    - injection Hob1 as <- <-. split; [by split; [..|apply Hat]|]. intros Hn. by destruct Hstop.
    - by eapply (step_at_phase InHeuristicDone ob qc). }
  assert (at_phase ob1 qc) as Hat1 by (by eapply at_phase_kept).
  assert (tracked ob1) as Htr1.
  { unfold tracked. by rewrite (kp_evaluated _ _ _ Hk), (kp_quotes _ _ _ Hk). }
  destruct (negb b || (poll_stop should_continue 0).1) eqn:Hb.
  { apply answers_return, finish_stopped_good; [done|]. intros Hn.
    by rewrite (Hgo Hn), (ns_cancel Hn) in Hb. }
  apply phase_completed_good; [done|]. intros ob2 Hk2 _.
  apply after_heuristic_good; [by eapply at_phase_kept| |done].
  unfold tracked. by rewrite (kp_evaluated _ _ _ Hk2), (kp_quotes _ _ _ Hk2).
Qed.

Lemma heuristic_env_of :
  heuristic_env (as_registry s) (as_graph s) Inv sim (as_quote_context s) ti to
    (heuristic_config request) (request_heuristic request) false.
Proof.
  destruct Henv as [H1 H2 H3 _ Hne Hord]. unfold heuristic_config.
  constructor; [done..| | |done|].
  - by destruct (rr_config request).
  - by apply heuristic_config_valid.
  - by destruct (rr_config request).
Qed.

Lemma stream_heuristic_good ob qc :
  at_phase ob qc → ob_quotes ob = [] → ob_evaluated_paths ob = ∅ →
  answers_good (stream_heuristic s request overlays config schedule on_event should_continue ob qc).
Proof.
  intros Hat Hq0 He0. unfold stream_heuristic.
  destruct (heuristic_env_bounds _ _ _ _ _ _ _ _ _ _ heuristic_env_of) as (_ & _ & tokens & Htok).
  destruct (heuristic_observed_spec (as_registry s) (as_graph s) (as_liquidity_index s) Inv sim
    (as_quote_context s) ti to source target (rr_amount_in request) (heuristic_config request)
    (request_heuristic request) (rr_sim_config request) false (heuristic_run_limit config)
    (Some (observe_heuristic_quote on_event)) ob tokens (source_overlay overlays) heuristic_env_of
    Hsource Htarget Htok) as (r & out & Hrun & Hok & Hout & Hseen & _).
  destruct (Hrun (source_overlay overlays) qc) as (c' & qc' & -> & Hqc' & _).
  { split; [apply Hat|apply Henv]. }
  destruct Hseen as (obs & [(b & Hw & Hb & Hlim) Hall Hsub Hgen Hnd]).
  { exists (source_overlay overlays). apply Henv. }
  cbn [set_run_caches run_captured run_quote_cache].
  destruct (heuristic_observer_driven on_event config ob obs b (run_captured r) Hw
    (ap_driven _ _ Hat)) as (Hd & Hq & He). rewrite Hq0 in Hq. rewrite He0 in He. simpl in Hq.
  rewrite (right_id_L ∅ (∪)) in He.
  assert (∀ p, valid_route (as_graph s) ti to
    (cfg (heuristic_config request) (Some tokens)) false p → valid p) as Hvalid.
  { intros p Hv. apply (valid_route_heuristic _ _ _ _ (request_heuristic request)).
    unfold heuristic_valid. fold (heuristic_config request). by rewrite Htok. }
  assert (at_phase (run_captured r) qc') as Hat1.
  { split; [done| |done]. rewrite Hq. split; [done|]. intros q Hin.
    apply Hgen in Hin as [? ?]. auto. }
  assert (tracked (run_captured r)) as Htr by (unfold tracked; by rewrite He, Hq).
  assert (nothing_stops → run_stopped r = false) as Hrs.
  { intros Hn. destruct (run_stopped r) eqn:Hst; [|done].
    assert (b = false) as Hbf.
    { apply Hlim; [done|]. pose proof (ns_unlimited Hn) as Hu. unfold unlimited in Hu.
      unfold heuristic_config. by destruct (rr_config request). }
    assert (b = true); [|congruence].
    eapply (heuristic_observer_accepts on_event config); [apply Hn|apply Hn|apply Hat|exact Hw]. }
  destruct out as [report|e].
  - destruct (on_stream _ (run_captured r)) as [b1 ob1] eqn:Hob1.
    destruct (step_at_phase (InFailed PhaseHeuristic _) _ qc' b1 ob1 eq_refl Hob1 Hat1) as [Hk Hgo].
    destruct Hout as [Hrep _]. apply finish_heuristic_good.
    + split; [by apply driven_evaluated, Hk| |done].
      change (ob_quotes (add_evaluated _ ob1)) with (ob_quotes ob1).
      rewrite (kp_quotes _ _ _ Hk). apply Hat1.
    + unfold tracked, add_evaluated. simpl. rewrite (kp_evaluated _ _ _ Hk), (kp_quotes _ _ _ Hk).
      rewrite Htr. apply set_eq. intros p. rewrite elem_of_union, !elem_of_list_to_set.
      split; [|by right]. intros [Hin|?]; [|done]. rewrite Hq.
      apply list_elem_of_fmap in Hin as (q & -> & Hin). apply list_elem_of_fmap_2.
      apply Hsub. rewrite (rep_quotes _ _ _ Hrep) in Hin. by eapply finalists_ok.
    + intros Hst Hn. rewrite (Hgo Hn) in Hst. cbn [negb orb] in Hst.
      rewrite (rep_stopped _ _ _ Hrep), (Hrs Hn) in Hst. done.
    + done.
  - assert (justified e) as Hje.
    { destruct e; simpl in Hout |- *; try done; [naive_solver|].
      destruct Hout as (-> & -> & _ & _). split; [done|]. intros f. apply Hok. }
    destruct e; try done; (apply finish_heuristic_good; [done..|]); intros ? [= <-]; done.
Qed.
End run.

(** ** The whole run *)

Section claims.
Context `{!AmmTypes} `{!Petgraph Address EdgeData} `{!PetgraphLaws Address EdgeData}.
Implicit Types (s : AmmSearcher) (request : RouteRequest) (config : StreamingSearchConfig).

(** The errors of a request that cannot run. *)
Definition rejected s request config (e : SearchError) : Prop :=
  match e with
  | ErrInvalidConfig _ =>
      StreamingSearchConfig_validate config ≠ Ok () ∨
      SearchConfig_validate (rr_config request) ≠ Ok ()
  | ErrTokenNotFound t =>
      node_index (as_graph s) t = None ∧ (t = token_in request ∨ t = token_out request)
  | _ => False
  end.

Lemma stream_run_spec s Inv sim request overlays config schedule on_event should_continue qc :
  stream_env s Inv sim request overlays →
  coherent (as_registry s) sim (as_quote_context s) qc →
  ∃ r, stream_routes_parallel_with_cache s request overlays config schedule on_event
      should_continue qc = Some r ∧
    (run_good s sim request config schedule on_event should_continue r ∨
     ∃ e tr, r = (Err e, tr, qc) ∧ rejected s request config e).
Proof.
  intros Henv Hqc. unfold stream_routes_parallel_with_cache. cbv zeta.
  set (ob := {| ob_quotes := [] |}).
  assert (∀ e ob, rejected s request config e →
    ∃ r, Some (fail_run e ob qc) = Some r ∧
      (run_good s sim request config schedule on_event should_continue r ∨
       ∃ e tr, r = (Err e, tr, qc) ∧ rejected s request config e)) as Hrej.
  { intros e ob0 He. eexists. split; [done|]. right. by do 2 eexists. }
  destruct (StreamingSearchConfig_validate config) as [[]|e] eqn:Hval; cbn [search_validated].
  2: { apply Hrej. left. by rewrite Hval. }
  destruct (SearchConfig_validate (rr_config request)) as [[]|e] eqn:Hcfg; cbn [search_validated].
  2: { apply Hrej. right. by rewrite Hcfg. }
  assert (at_phase s sim request config ob qc) as Hat.
  { split; [apply driven_new| |done]. split; [constructor|set_solver]. }
  destruct (on_stream _ ob) as [b ob1] eqn:Hob1.
  destruct (kept_emit on_event config _ ob b ob1 Hob1 (ap_driven _ _ _ _ _ _ Hat)) as [Hk Hst1].
  assert (at_phase s sim request config ob1 qc) as Hat1 by (by eapply at_phase_kept).
  assert (answers_good s sim request config schedule on_event should_continue
    (if b then stream_heuristic s request overlays config schedule on_event should_continue ob1 qc
     else Some (Ok {| sr_report := report (ob_state ob1) Stopped (qc_stats qc)
                        (qc_liquidity_pruning qc); sr_quotes := ob_quotes ob1 |},
                (ob_stream ob1).2, qc)) ∨
    ∃ e ob2, rejected s request config e ∧ b = true ∧
      stream_heuristic s request overlays config schedule on_event should_continue ob1 qc =
        Some (fail_run e ob2 qc)) as Hcases.
  { assert (SearchConfig_validate (heuristic_config request) = Ok ()) as Hh
      by (by apply heuristic_config_valid).
    destruct b; cycle 1.
    - left. apply answers_return. split; [done|]. simpl.
      split_and!; [apply Hat1|apply report_driven, Hat1|done|]. intros Hn. exfalso.
      unfold on_stream, emit_search_event in Hob1. simpl in Hob1. injection Hob1 as Hb _.
      by rewrite (ns_accepts _ _ _ _ Hn), bool_decide_true in Hb.
    - destruct (node_index (as_graph s) (token_in request)) as [source|] eqn:Hs.
      + destruct (node_index (as_graph s) (token_out request)) as [target|] eqn:Ht.
        * left. eapply stream_heuristic_good; [done..| |].
          -- by rewrite (kp_quotes _ _ _ Hk).
          -- by rewrite (kp_evaluated _ _ _ Hk).
        * right. unfold stream_heuristic, find_routes_heuristic_with_cache_observed.
          rewrite Hh, Hs, Ht. cbn. do 2 eexists. split_and!; [|done..]. by split; [|right].
      + right. unfold stream_heuristic, find_routes_heuristic_with_cache_observed.
        rewrite Hh, Hs. cbn. do 2 eexists. split_and!; [|done..]. by split; [|left]. }
  destruct Hcases as [(r & Hr & Hgood)|(e & ob2 & He & -> & ->)]; [|by apply Hrej].
  destruct b; (exists r; split; [exact Hr|by left]).
Qed.

(** C8: Whatever the callback answers, whatever the policies, the candidate
    limit, the cancellation and the interleaving of the worker threads: the quotes
    a streamed search has observed are those of distinct admissible routes, each
    the quote of its path; the report's best is the first of the highest of
    them, its top routes are the first [top_k] of their ranking and its count is
    their number. *)
Theorem streamed_search_sound s Inv sim request overlays config schedule on_event should_continue
    qc r tr qc' :
  stream_env s Inv sim request overlays →
  coherent (as_registry s) sim (as_quote_context s) qc →
  stream_routes_parallel_with_cache s request overlays config schedule on_event should_continue qc =
    Some (Ok r, tr, qc') →
  NoDup (rq_path <$> sr_quotes r) ∧
  (∀ q, q ∈ sr_quotes r →
     valid_route (as_graph s) (token_in request) (token_out request) (rr_config request) false
       (rq_path q) ∧
     path_quote (as_registry s) sim (rr_sim_config request) (as_quote_context s) (rq_path q)
       (rr_amount_in request) = Ok q) ∧
  rep_best (sr_report r) = head (ranking (sr_quotes r)) ∧
  rep_top_routes (sr_report r) = take (top_k config) (ranking (sr_quotes r)) ∧
  rep_routes_observed (sr_report r) = Z.of_nat (length (sr_quotes r)).
Proof.
  intros Henv Hqc Hrun.
  destruct (stream_run_spec s Inv sim request overlays config schedule on_event should_continue qc
    Henv Hqc) as (run & Hrun' & Hgood). rewrite Hrun in Hrun'. injection Hrun' as <-.
  destruct Hgood as [(_ & [Hnd Hq] & [H1 H2 H3] & _)|(e & tr' & He & _)]; [|done].
  split_and!; auto.
Qed.

(** C3: A streamed search that reports finality [Exhaustive] has observed every
    route: without a candidate limit its quotes are exactly those of the
    admissible routes that quote, those the heuristic phase pruned included, and
    its best is one no admissible route beats; whatever the callback, the
    policies and the schedule of the worker threads. *)
Theorem exhaustive_finality_complete s Inv sim request overlays config schedule on_event
    should_continue qc r tr qc' :
  stream_env s Inv sim request overlays →
  coherent (as_registry s) sim (as_quote_context s) qc →
  max_candidates (rr_config request) = None →
  stream_routes_parallel_with_cache s request overlays config schedule on_event should_continue qc =
    Some (Ok r, tr, qc') →
  rep_finality (sr_report r) = FinalityExhaustive →
  ∀ p q,
    valid_route (as_graph s) (token_in request) (token_out request) (rr_config request) false p →
    path_quote (as_registry s) sim (rr_sim_config request) (as_quote_context s) p
      (rr_amount_in request) = Ok q →
    q ∈ sr_quotes r ∧
    ∃ best, rep_best (sr_report r) = Some best ∧ (rq_amount_out q <= rq_amount_out best)%Z.
Proof.
  intros Henv Hqc Hmax Hrun Hfin p q Hv Hpq.
  destruct (stream_run_spec s Inv sim request overlays config schedule on_event should_continue qc
    Henv Hqc) as (run & Hrun' & Hgood). rewrite Hrun in Hrun'. injection Hrun' as <-.
  destruct Hgood as [(_ & _ & [Hbest _ _] & Hall & _)|(e & tr' & He & _)]; [|done].
  pose proof (Hall Hfin Hmax p q Hv Hpq) as Hin. split; [done|]. simpl in Hin, Hbest.
  rewrite Hbest. destruct (head (ranking (sr_quotes r))) as [best|] eqn:Hh.
  - exists best. split; [done|]. by eapply head_ranking_max.
  - apply head_ranking_None in Hh. rewrite Hh in Hin. set_solver.
Qed.

(** C9: A streamed search returns, at every schedule: whatever the interleaving
    of its worker threads, the order their messages arrive in, the spurious
    wake-ups, the moment a refusal of the callback reaches them and the panics of
    adapters.  Its errors are justified: an invalid configuration, an unknown
    token, a worker panic when an adapter panicked, no path, or candidates that
    all fail; in the last two cases, with the exhaustive completion and without a
    candidate limit, no admissible route quotes.  When nothing stops it (an
    accepting callback, no stop policy, no cancellation, no candidate limit) its
    finality is the configured one. *)
Theorem streamed_search_returns s Inv sim request overlays config schedule on_event should_continue
    qc :
  stream_env s Inv sim request overlays →
  coherent (as_registry s) sim (as_quote_context s) qc →
  ∃ res tr qc',
    stream_routes_parallel_with_cache s request overlays config schedule on_event should_continue
      qc = Some (res, tr, qc') ∧
    coherent (as_registry s) sim (as_quote_context s) qc' ∧
    match res with
    | Ok r =>
        nothing_stops request config on_event should_continue →
        rep_finality (sr_report r) = configured_finality config
    | Err e =>
        rejected s request config e ∨
        (e = ErrWorkerPanic ∧ ∃ i, AdapterPanic i ∈ schedule) ∨
        justified s sim request e ∧
        (completion config = CompletionExhaustive → max_candidates (rr_config request) = None →
         ∀ p, valid_route (as_graph s) (token_in request) (token_out request) (rr_config request)
                false p →
           ∃ reason, path_quote (as_registry s) sim (rr_sim_config request) (as_quote_context s) p
             (rr_amount_in request) = Err reason)
    end.
Proof.
  intros Henv Hqc.
  destruct (stream_run_spec s Inv sim request overlays config schedule on_event should_continue qc
    Henv Hqc) as ([[res tr] qc'] & Hrun & Hgood). exists res, tr, qc'. split; [done|].
  destruct Hgood as [[Hqc' Hres]|(e & tr' & [= -> -> ->] & Hrej)].
  - split; [done|]. cbn [fst snd] in Hres. destruct res as [r|e].
    + apply Hres.
    + right. destruct Hres as [[Hj Hc]|Hpanic]; [|by left]. right. split; [done|]. intros Hcomp Hmax p Hv.
      destruct (path_quote _ _ _ _ p _) as [q|reason] eqn:Hpq; [|by eexists].
      specialize (Hc Hcomp Hmax p q Hv Hpq). set_solver.
  - split; [done|by left].
Qed.

(** ** Sessions *)

End claims.
