(* ===== verification/LiveState.v ===== *)
(** * The interface to the live AMM runtime

    The live graph consumes immutable snapshots and commits of the external
    runtime ([evm-amm-state]).  Their types are records of what the search layer
    reads; [AmmLive] holds the remaining opaque types and operations.
    [snapshot_wf] and [commit_complete] state what the runtime documents: a
    snapshot is coherent and a commit lists every pool it changes. *)

From S2P Require Import Prelude AmmState.

(** [AmmStateVersion] is a newtype of [u64]. *)
Abbreviation AmmStateVersion := Z (only parsing).

(** [pool_key_le] is the order of [PoolKey], which the B-tree maps and sets
    iterate in; [version_next] is [AmmStateVersion::checked_next];
    [registration_tokens] is [PoolRegistration::tokens]; [storage_value] reads a
    word of a cache snapshot. *)
Class AmmLive `{!AmmTypes} := {
  AmmRuntimeId : Type;
  AmmRuntimeId_eq_dec :: EqDecision AmmRuntimeId;
  PoolRevision_eq_dec :: EqDecision PoolRevision;
  pool_key_le : PoolKey → PoolKey → bool;
  version_next : AmmStateVersion → option AmmStateVersion;
  registration_tokens : PoolRegistration → option (list Address);
  storage_value : AdapterCache → Address → U256 → option U256;
}.

Section live.
Context `{!AmmTypes} `{!AmmLive}.

(** [pools] iterates over the active pools; an instance is one generation of a
    pool, with its own registration. *)
Record RegistrySnapshot := {
  rs_registry : AdapterRegistry;
  rs_pools : list (PoolKey * PoolInstanceId);
  rs_pool_instance : PoolKey → option PoolInstanceId;
  rs_pool : PoolInstanceId → option PoolRegistration;
}.

Record AmmStateSnapshot := {
  ss_runtime_id : AmmRuntimeId;
  ss_version : AmmStateVersion;
  ss_point : AmmStatePoint;
  ss_registry : RegistrySnapshot;
  ss_pool_revision : PoolInstanceId → option PoolRevision;
  ss_cache : AdapterCache;
}.

(** The pool of a change is an instance; the graph only reads its key. *)
Record AmmChangeSet := {
  cs_version : AmmStateVersion;
  cs_point : AmmStatePoint;
  cs_pool_changes : list PoolInstanceId;
  cs_requires_full_refresh : bool;
}.

Record AmmStateCommit := {
  commit_snapshot : AmmStateSnapshot;
  commit_changes : AmmChangeSet;
}.

Implicit Types (s : AmmStateSnapshot) (k : PoolKey) (i : PoolInstanceId).

(** A coherent snapshot: one registration and one instance per active pool,
    and a published revision of each. *)
Record snapshot_wf s : Prop := {
  sw_registry : registry_wf (rs_registry (ss_registry s));
  sw_pools k i : (k, i) ∈ rs_pools (ss_registry s) ↔ rs_pool_instance (ss_registry s) k = Some i;
  sw_registered k :
    is_Some (registry_pool (rs_registry (ss_registry s)) k) ↔
    is_Some (rs_pool_instance (ss_registry s) k);
  sw_pool k i : rs_pool_instance (ss_registry s) k = Some i →
    rs_pool (ss_registry s) i = registry_pool (rs_registry (ss_registry s)) k;
  sw_instance k i : rs_pool_instance (ss_registry s) k = Some i → instance_key i = k;
  sw_revision k i : rs_pool_instance (ss_registry s) k = Some i →
    is_Some (ss_pool_revision s i);
}.

(** The active generation of a pool with its registration and revision. *)
Definition active_pool s k : option (PoolInstanceId * PoolRegistration * PoolRevision) :=
  i ← rs_pool_instance (ss_registry s) k;
  r ← rs_pool (ss_registry s) i;
  rev ← ss_pool_revision s i;
  Some (i, r, rev).

Definition changed_pools (c : AmmChangeSet) : list PoolKey := instance_key <$> cs_pool_changes c.

(** A commit over the snapshot [s] lists every pool that it changes. *)
Definition commit_complete s (c : AmmStateCommit) : Prop :=
  ∀ k, k ∉ changed_pools (commit_changes c) → active_pool (commit_snapshot c) k = active_pool s k.

End live.
