(* ===== verification/LiveGraph.v ===== *)
(** * The live graph ([src/live_graph.rs])

    [LiveAmmGraph] keeps the token graph, the liquidity index and the index of
    active pools of one runtime, and moves them from snapshot to snapshot: by
    one contiguous commit at a time, or by a reconciliation with a newer
    snapshot.  A transition runs in the monad [LiveM]: the process-wide lineage
    counter of the graphs, errors as values, and [None] for a panic.  [Arc]s of
    immutable values are the values; [Arc::make_mut] copies before it writes. *)

From S2P Require Import Prelude AmmState Petgraph Graph Liquidity LiveState.

(** ** Impacts *)

Inductive GraphTopologyImpact : Type :=
  | ImpactUnchanged
  | IdentityChanged
  | Localized
  | FullReconciliation.

#[export] Instance GraphTopologyImpact_eq_dec : EqDecision GraphTopologyImpact.
Proof. solve_decision. Defined.

(** The derived order and [max]. *)
Definition impact_rank (i : GraphTopologyImpact) : nat :=
  match i with
  | ImpactUnchanged => 0
  | IdentityChanged => 1
  | Localized => 2
  | FullReconciliation => 3
  end.
Definition impact_max (i j : GraphTopologyImpact) : GraphTopologyImpact :=
  if impact_rank i <=? impact_rank j then j else i.

Section live_graph.
Context `{!AmmTypes} `{!AmmLive} `{!Petgraph Address EdgeData}.

(** ** Data *)

Record IndexedPool := {
  ip_instance : PoolInstanceId;
  ip_revision : PoolRevision;
  ip_tokens : list Address;
}.

#[export] Instance IndexedPool_eq_dec : EqDecision IndexedPool.
Proof. solve_decision. Defined.

Record GraphPoolDelta := {
  delta_pool : PoolKey;
  delta_before : option IndexedPool;
  delta_after : option IndexedPool;
}.

Record GraphDelta := {
  source_state_version : AmmStateVersion;
  source_point : AmmStatePoint;
  from_graph_version : GraphVersion;
  to_graph_version : GraphVersion;
  gd_impact : GraphTopologyImpact;
  pool_changes : list GraphPoolDelta;
  gd_liquidity : PoolLiquidityMutationReport;
}.

Definition delta_topology_changed (d : GraphDelta) : bool :=
  match gd_impact d with ImpactUnchanged => false | _ => true end.

Inductive LiveGraphError : Type :=
  | NonContiguousStateVersion (expected actual : AmmStateVersion)
  | CommitVersionMismatch
  | RuntimeMismatch (expected actual : AmmRuntimeId)
  | StaleSnapshot (current actual : AmmStateVersion)
  | SnapshotStateMismatch (expected_version : AmmStateVersion) (expected_point : AmmStatePoint)
      (actual_version : AmmStateVersion) (actual_point : AmmStatePoint)
  | MissingPoolRevision (instance : PoolInstanceId)
  | MissingPoolRegistration (instance : PoolInstanceId)
  | GraphVersionExhausted.

Record LiveAmmGraph := {
  live_graph : AmmGraph;
  live_runtime_id : AmmRuntimeId;
  live_state_version : AmmStateVersion;
  live_point : AmmStatePoint;
  live_options : GraphBuildOptions;
  live_liquidity_scope : LiquidityIndexScope;
  live_liquidity : PoolLiquidityIndex;
  live_indexed : gmap PoolKey IndexedPool;
}.

Definition set_live_liquidity (ix : PoolLiquidityIndex) (l : LiveAmmGraph) : LiveAmmGraph :=
  {| live_graph := live_graph l; live_runtime_id := live_runtime_id l;
     live_state_version := live_state_version l; live_point := live_point l;
     live_options := live_options l; live_liquidity_scope := live_liquidity_scope l;
     live_liquidity := ix; live_indexed := live_indexed l |}.

(** ** Transitions that may fail *)

Definition LiveM (A : Type) : Type := Z → option (result LiveGraphError A * Z).

#[export] Instance LiveM_ret : MRet LiveM := λ A a lin, Some (Ok a, lin).
#[export] Instance LiveM_bind : MBind LiveM := λ A B f m lin,
  match m lin with
  | Some (Ok a, lin) => f a lin
  | Some (Err e, lin) => Some (Err e, lin)
  | None => None
  end.

Definition throw {A} (e : LiveGraphError) : LiveM A := λ lin, Some (Err e, lin).
(** The [?] operator on a result. *)
Definition question {A} (r : result LiveGraphError A) : LiveM A := λ lin, Some (r, lin).
Definition may_panic {A} (o : option A) : LiveM A := λ lin, a ← o; Some (Ok a, lin).
Definition build_graph (registry : AdapterRegistry) (o : GraphBuildOptions) : LiveM AmmGraph :=
  λ lin, '(report, lin) ← from_registry registry o lin; Some (Ok (report_graph report), lin).

Fixpoint fold_live {A B} (f : B → A → LiveM B) (l : list A) (b : B) : LiveM B :=
  match l with
  | [] => mret b
  | a :: l => b ← f b a; fold_live f l b
  end.

(** The keys of a [BTreeSet], in order. *)
Definition btree_keys (keys : gset PoolKey) : list PoolKey :=
  stable_sort pool_key_le (elements keys).

(** ** Indexing a snapshot *)

(** [indexed_pool]: [None] when the pool is not searchable. *)
Definition indexed_pool (s : AmmStateSnapshot) (instance : PoolInstanceId)
    (o : GraphBuildOptions) : result LiveGraphError (option IndexedPool) :=
  registration ← ok_or (rs_pool (ss_registry s) instance) (MissingPoolRegistration instance);
  if negb (is_indexable_status (reg_status registration) o) then Ok None
  else
    match tokens_for_pool registration with
    | Err _ => Ok None
    | Ok tokens =>
        revision ← ok_or (ss_pool_revision s instance) (MissingPoolRevision instance);
        Ok (Some {| ip_instance := instance; ip_revision := revision; ip_tokens := tokens |})
    end.

(** One iteration of the loop of [indexed_from_snapshot]. *)
Definition index_active_pool (s : AmmStateSnapshot) (o : GraphBuildOptions)
    (indexed : gmap PoolKey IndexedPool) (pool : PoolKey * PoolInstanceId) :
    result LiveGraphError (gmap PoolKey IndexedPool) :=
  let '(key, instance) := pool in
  registration ← ok_or (rs_pool (ss_registry s) instance) (MissingPoolRegistration instance);
  if negb (is_indexable_status (reg_status registration) o) then Ok indexed
  else
    match tokens_for_pool registration with
    | Err _ => Ok indexed
    | Ok tokens =>
        revision ← ok_or (ss_pool_revision s instance) (MissingPoolRevision instance);
        Ok (<[key := {| ip_instance := instance; ip_revision := revision;
                        ip_tokens := tokens |}]> indexed)
    end.

Fixpoint index_active_pools (s : AmmStateSnapshot) (o : GraphBuildOptions)
    (pools : list (PoolKey * PoolInstanceId)) (indexed : gmap PoolKey IndexedPool) :
    result LiveGraphError (gmap PoolKey IndexedPool) :=
  match pools with
  | [] => Ok indexed
  | pool :: pools => indexed ← index_active_pool s o indexed pool; index_active_pools s o pools indexed
  end.

Definition indexed_from_snapshot (s : AmmStateSnapshot) (o : GraphBuildOptions) :
    result LiveGraphError (gmap PoolKey IndexedPool) :=
  index_active_pools s o (rs_pools (ss_registry s)) ∅.

Definition semantic_index_changed (before after : gmap PoolKey IndexedPool) : bool :=
  existsb (λ '(key, pool),
      match after !! key with
      | None => true
      | Some next =>
          bool_decide (ip_instance pool ≠ ip_instance next)
          || bool_decide (ip_tokens pool ≠ ip_tokens next)
      end) (map_to_list before)
  || existsb (λ '(key, _), bool_decide (before !! key = None)) (map_to_list after).

Definition apply_index_deltas (indexed : gmap PoolKey IndexedPool) (deltas : list GraphPoolDelta) :
    gmap PoolKey IndexedPool :=
  foldl (λ indexed delta,
    match delta_after delta with
    | Some after => <[delta_pool delta := after]> indexed
    | None => delete (delta_pool delta) indexed
    end) indexed deltas.

Definition liquidity_affected_pools (before after : AmmGraph) (scope : LiquidityIndexScope)
    (directly_changed : list PoolKey) : gset PoolKey :=
  let affected := list_to_set directly_changed in
  match scope with
  | ParallelEdgeOutputs =>
      foldl (λ affected key, affected ∪ parallel_neighbors before key ∪ parallel_neighbors after key)
        affected (btree_keys affected)
  | AllDirectedEdgeInputsAndOutputs => affected
  end.

(** ** Construction *)

Definition from_snapshot_with_liquidity_scope (s : AmmStateSnapshot) (o : GraphBuildOptions)
    (scope : LiquidityIndexScope) : LiveM LiveAmmGraph :=
  let registry := rs_registry (ss_registry s) in
  g ← build_graph registry o;
  '(liquidity, _) ← may_panic (from_registry_with_scope registration_tokens registry g scope);
  indexed ← question (indexed_from_snapshot s o);
  mret {| live_graph := g; live_runtime_id := ss_runtime_id s;
          live_state_version := ss_version s; live_point := ss_point s; live_options := o;
          live_liquidity_scope := scope; live_liquidity := liquidity; live_indexed := indexed |}.

Definition from_snapshot (s : AmmStateSnapshot) (o : GraphBuildOptions) : LiveM LiveAmmGraph :=
  from_snapshot_with_liquidity_scope s o ParallelEdgeOutputs.

(** ** Queries and checks *)

Definition live_version (l : LiveAmmGraph) : GraphVersion := version (live_graph l).
Definition live_indexed_pool (l : LiveAmmGraph) (key : PoolKey) : option IndexedPool :=
  live_indexed l !! key.

Definition matches_snapshot (l : LiveAmmGraph) (s : AmmStateSnapshot) : bool :=
  bool_decide (live_runtime_id l = ss_runtime_id s)
  && bool_decide (live_state_version l = ss_version s)
  && bool_decide (live_point l = ss_point s).

Definition validate_runtime (l : LiveAmmGraph) (s : AmmStateSnapshot) :
    result LiveGraphError () :=
  if decide (ss_runtime_id s ≠ live_runtime_id l)
  then Err (RuntimeMismatch (live_runtime_id l) (ss_runtime_id s))
  else Ok ().

Definition validate_snapshot (l : LiveAmmGraph) (s : AmmStateSnapshot) :
    result LiveGraphError () :=
  _ ← validate_runtime l s;
  if decide (ss_version s ≠ live_state_version l ∨ ss_point s ≠ live_point l)
  then Err (SnapshotStateMismatch (live_state_version l) (live_point l) (ss_version s) (ss_point s))
  else Ok ().

(** ** Liquidity of the current snapshot *)

Definition set_erc20_liquidity_slot (token holder : Address) (slot : U256) (l : LiveAmmGraph) :
    option (nat * LiveAmmGraph) :=
  '(n, ix) ← set_erc20_balance_slot token holder slot (live_liquidity l);
  Some (n, set_live_liquidity ix l).

Definition mark_liquidity_stale (pool : PoolKey) (token : Address) (l : LiveAmmGraph) :
    option (result PoolLiquidityError LiveAmmGraph) :=
  r ← mark_stale (live_liquidity l) pool token;
  Some (match r with
        | Ok ix => Ok (set_live_liquidity ix l)
        | Err e => Err e
        end).

Definition refresh_liquidity_from_snapshot (s : AmmStateSnapshot) (l : LiveAmmGraph) :
    result LiveGraphError (PoolLiquidityRefreshReport * LiveAmmGraph) :=
  _ ← validate_snapshot l s;
  let '(report, ix) := refresh_from_snapshot (storage_value (ss_cache s)) (live_liquidity l) in
  Ok (report, set_live_liquidity ix l).

(** ** Replacing everything from a snapshot *)

(** The deltas of the keys whose entry changes, in order. *)
Definition changed_entries (before after : PoolKey → option IndexedPool) (keys : list PoolKey) :
    list GraphPoolDelta :=
  omap (λ key,
    if decide (before key = after key) then None
    else Some {| delta_pool := key; delta_before := before key; delta_after := after key |}) keys.

Definition replace_from_snapshot (s : AmmStateSnapshot) (next_indexed : gmap PoolKey IndexedPool)
    (changed_keys : gset PoolKey) (requested_impact : GraphTopologyImpact) (l : LiveAmmGraph) :
    LiveM (GraphDelta * LiveAmmGraph) :=
  let registry := rs_registry (ss_registry s) in
  next_graph ← build_graph registry (live_options l);
  let deltas := changed_entries (λ key, live_indexed l !! key) (λ key, next_indexed !! key)
                  (btree_keys changed_keys) in
  let changed := semantic_index_changed (live_indexed l) next_indexed in
  let from_version := version (live_graph l) in
  to_version ← question
    (if changed then ok_or (GraphVersion_checked_next from_version) GraphVersionExhausted
     else Ok from_version);
  let next_graph := set_version to_version next_graph in
  let pools := liquidity_affected_pools (live_graph l) next_graph (live_liquidity_scope l)
                 (delta_pool <$> deltas) in
  '(report, next_liquidity) ← may_panic
    (reconcile_pools registration_tokens registry next_graph (live_liquidity_scope l)
       (btree_keys pools) (live_liquidity l));
  mret ({| source_state_version := ss_version s; source_point := ss_point s;
           from_graph_version := from_version; to_graph_version := to_version;
           gd_impact := if changed then requested_impact else ImpactUnchanged;
           pool_changes := deltas; gd_liquidity := report |},
        {| live_graph := next_graph; live_runtime_id := live_runtime_id l;
           live_state_version := ss_version s; live_point := ss_point s;
           live_options := live_options l; live_liquidity_scope := live_liquidity_scope l;
           live_liquidity := next_liquidity; live_indexed := next_indexed |}).

Definition reconcile_snapshot (s : AmmStateSnapshot) (l : LiveAmmGraph) :
    LiveM (GraphDelta * LiveAmmGraph) :=
  _ ← question (validate_runtime l s);
  if decide (ss_version s <= live_state_version l)%Z
  then throw (StaleSnapshot (live_state_version l) (ss_version s))
  else
    next_indexed ← question (indexed_from_snapshot s (live_options l));
    replace_from_snapshot s next_indexed (dom (live_indexed l) ∪ dom next_indexed)
      FullReconciliation l.

(** ** Applying a commit *)

(** The impact of one pool's change. *)
Definition change_impact (before after : option IndexedPool) : GraphTopologyImpact :=
  match before, after with
  | Some previous, Some next =>
      if decide (ip_tokens previous = ip_tokens next) then
        if decide (ip_instance previous = ip_instance next) then ImpactUnchanged
        else IdentityChanged
      else Localized
  | None, None => ImpactUnchanged
  | _, _ => Localized
  end.

(** What the snapshot says of a pool now. *)
Definition pool_after (s : AmmStateSnapshot) (o : GraphBuildOptions) (key : PoolKey) :
    result LiveGraphError (option IndexedPool) :=
  match rs_pool_instance (ss_registry s) key with
  | None => Ok None
  | Some instance => indexed_pool s instance o
  end.

(** The loop over the changed keys. *)
Fixpoint classify_changes (s : AmmStateSnapshot) (l : LiveAmmGraph) (keys : list PoolKey)
    (impact : GraphTopologyImpact) (deltas : list GraphPoolDelta) :
    result LiveGraphError (GraphTopologyImpact * list GraphPoolDelta) :=
  match keys with
  | [] => Ok (impact, deltas)
  | key :: keys =>
      let before := live_indexed l !! key in
      after ← pool_after s (live_options l) key;
      classify_changes s l keys (impact_max impact (change_impact before after))
        (if decide (before = after) then deltas
         else deltas ++ [{| delta_pool := key; delta_before := before; delta_after := after |}])
  end.

(** One delta on the graph. *)
Definition apply_delta (s : AmmStateSnapshot) (o : GraphBuildOptions) (g : AmmGraph)
    (delta : GraphPoolDelta) : LiveM AmmGraph :=
  match delta_after delta with
  | Some indexed =>
      registration ← question
        (ok_or (rs_pool (ss_registry s) (ip_instance indexed))
           (MissingPoolRegistration (ip_instance indexed)));
      '(_, g) ← may_panic (apply_pool registration o g);
      mret g
  | None =>
      '(_, g) ← may_panic (remove_pool_compacting (delta_pool delta) g);
      mret g
  end.

Definition apply_snapshot_changes (s : AmmStateSnapshot) (changes : AmmChangeSet)
    (l : LiveAmmGraph) : LiveM (GraphDelta * LiveAmmGraph) :=
  if cs_requires_full_refresh changes then reconcile_snapshot s l
  else
    '(impact, deltas) ← question
      (classify_changes s l (btree_keys (list_to_set (instance_key <$> cs_pool_changes changes)))
         ImpactUnchanged []);
    let from_version := version (live_graph l) in
    let indexed := apply_index_deltas (live_indexed l) deltas in
    if decide (impact = ImpactUnchanged) then
      mret ({| source_state_version := ss_version s; source_point := ss_point s;
               from_graph_version := from_version; to_graph_version := from_version;
               gd_impact := impact; pool_changes := deltas;
               gd_liquidity := PoolLiquidityMutationReport_default |},
            {| live_graph := live_graph l; live_runtime_id := live_runtime_id l;
               live_state_version := ss_version s; live_point := ss_point s;
               live_options := live_options l; live_liquidity_scope := live_liquidity_scope l;
               live_liquidity := live_liquidity l; live_indexed := indexed |})
    else
      next_graph ← fold_live (apply_delta s (live_options l)) deltas (live_graph l);
      to_version ← question (ok_or (GraphVersion_checked_next from_version) GraphVersionExhausted);
      let next_graph := set_version to_version next_graph in
      let pools := liquidity_affected_pools (live_graph l) next_graph (live_liquidity_scope l)
                     (delta_pool <$> deltas) in
      '(report, next_liquidity) ← may_panic
        (reconcile_pools registration_tokens (rs_registry (ss_registry s)) next_graph
           (live_liquidity_scope l) (btree_keys pools) (live_liquidity l));
      mret ({| source_state_version := ss_version s; source_point := ss_point s;
               from_graph_version := from_version; to_graph_version := to_version;
               gd_impact := impact; pool_changes := deltas; gd_liquidity := report |},
            {| live_graph := next_graph; live_runtime_id := live_runtime_id l;
               live_state_version := ss_version s; live_point := ss_point s;
               live_options := live_options l; live_liquidity_scope := live_liquidity_scope l;
               live_liquidity := next_liquidity; live_indexed := indexed |}).

Definition apply_commit (commit : AmmStateCommit) (l : LiveAmmGraph) :
    LiveM (GraphDelta * LiveAmmGraph) :=
  let s := commit_snapshot commit in
  let changes := commit_changes commit in
  _ ← question (validate_runtime l s);
  if decide (ss_version s ≠ cs_version changes ∨ ss_point s ≠ cs_point changes)
  then throw CommitVersionMismatch
  else
    expected ← question
      (ok_or (version_next (live_state_version l))
         (NonContiguousStateVersion (live_state_version l) (ss_version s)));
    if decide (ss_version s ≠ expected)
    then throw (NonContiguousStateVersion expected (ss_version s))
    else apply_snapshot_changes s changes l.
End live_graph.
