(* ===== verification/LiveGraphProps.v ===== *)
(** * The transitions of the live graph

    What the pieces of a transition compute on a coherent snapshot: the index
    of its pools, the deltas of a change set, the graph after them and the
    liquidity targets after a reconciliation of the affected pools. *)

From S2P Require Import Prelude AmmState Petgraph Graph GraphPairs GraphInv GraphProps GraphTheorems.
From S2P Require Import Liquidity LiquidityProps LiquidityBuild LiquidityTheorems LiveState LiveGraph.

(** ** Impacts *)

Lemma impact_max_rank i j : impact_rank (impact_max i j) = Nat.max (impact_rank i) (impact_rank j).
Proof. by destruct i, j. Qed.

Lemma impact_unchanged i : i = ImpactUnchanged ↔ impact_rank i = 0.
Proof. by destruct i. Qed.

(** ** Running a transition *)

Section running.
Context `{!AmmTypes} `{!AmmLive} {A B : Type}.
Implicit Types (m : LiveM A) (f : A → LiveM B) (lin : Z).

Lemma live_bind_ok m f a lin lin' : m lin = Some (Ok a, lin') → (m ≫= f) lin = f a lin'.
Proof. unfold mbind, LiveM_bind. by intros ->. Qed.

Lemma live_bind_err m f e lin lin' : m lin = Some (Err e, lin') → (m ≫= f) lin = Some (Err e, lin').
Proof. unfold mbind, LiveM_bind. by intros ->. Qed.

Lemma live_bind_panic m f lin : m lin = None → (m ≫= f) lin = None.
Proof. unfold mbind, LiveM_bind. by intros ->. Qed.

Lemma may_panic_some (o : option A) a lin : o = Some a → may_panic o lin = Some (Ok a, lin).
Proof. by intros ->. Qed.
End running.

Section indexing.
Context `{!AmmTypes} `{!AmmLive}.
Implicit Types (s : AmmStateSnapshot) (o : GraphBuildOptions) (k : PoolKey).

(** The entry of a pool the snapshot asks for. *)
Definition searchable_pool o s k : option IndexedPool :=
  '(i, r, rev) ← active_pool s k;
  ts ← result_ok (searchable_tokens o r);
  Some {| ip_instance := i; ip_revision := rev; ip_tokens := ts |}.

Lemma active_pool_Some s k i r rev :
  snapshot_wf s →
  active_pool s k = Some (i, r, rev) ↔
  rs_pool_instance (ss_registry s) k = Some i ∧
  registry_pool (rs_registry (ss_registry s)) k = Some r ∧ ss_pool_revision s i = Some rev.
Proof.
  intros Hwf. unfold active_pool. pose proof (sw_pool _ Hwf k) as Hp.
  destruct (rs_pool_instance (ss_registry s) k) as [j|]; simpl; [|naive_solver].
  rewrite (Hp j eq_refl).
  destruct (registry_pool (rs_registry (ss_registry s)) k) as [r'|]; simpl; [|naive_solver].
  destruct (ss_pool_revision s j) as [rev'|] eqn:Hrev; simpl; naive_solver.
Qed.

Lemma active_registered s k :
  snapshot_wf s → active_pool s k = None ↔ registry_pool (rs_registry (ss_registry s)) k = None.
Proof.
  intros Hwf. rewrite !eq_None_not_Some, (sw_registered _ Hwf).
  split; intros Hn [x Hx]; apply Hn.
  - destruct (sw_revision _ Hwf k x Hx) as [rev Hrev].
    destruct (proj2 (sw_registered _ Hwf k) (mk_is_Some _ _ Hx)) as [r Hr].
    exists (x, r, rev). by apply active_pool_Some.
  - destruct x as [[i r] rev]. apply active_pool_Some in Hx as [Hi _]; [by eexists|done].
Qed.

Lemma registry_topology_searchable o s k :
  snapshot_wf s →
  registry_topology o (rs_registry (ss_registry s)) k = ip_tokens <$> searchable_pool o s k.
Proof.
  intros Hwf. unfold registry_topology, searchable_pool.
  destruct (active_pool s k) as [[[i r] rev]|] eqn:Ha.
  - apply active_pool_Some in Ha as (_ & -> & _); [|done]. simpl.
    by destruct (searchable_tokens o r).
  - apply active_registered in Ha; [|done]. by rewrite Ha.
Qed.

Lemma indexed_pool_spec o s k i :
  snapshot_wf s → rs_pool_instance (ss_registry s) k = Some i →
  indexed_pool s i o = Ok (searchable_pool o s k).
Proof.
  intros Hwf Hi. unfold indexed_pool, searchable_pool, active_pool. rewrite Hi. cbn [mbind option_bind].
  destruct (proj2 (sw_registered _ Hwf k) (mk_is_Some _ _ Hi)) as [r Hr].
  destruct (sw_revision _ Hwf k i Hi) as [rev Hrev].
  rewrite (sw_pool _ Hwf k i Hi), Hr, Hrev. cbn [ok_or mbind result_bind option_bind].
  unfold searchable_tokens. destruct (is_indexable_status (reg_status r) o); simpl; [|done].
  by destruct (tokens_for_pool r).
Qed.

Lemma pool_after_spec o s k : snapshot_wf s → pool_after s o k = Ok (searchable_pool o s k).
Proof.
  intros Hwf. unfold pool_after. destruct (rs_pool_instance (ss_registry s) k) as [i|] eqn:Hi.
  - by apply indexed_pool_spec.
  - unfold searchable_pool, active_pool. by rewrite Hi.
Qed.

Lemma index_active_pool_spec o s m k i :
  snapshot_wf s → rs_pool_instance (ss_registry s) k = Some i →
  ∃ m', index_active_pool s o m (k, i) = Ok m' ∧
    m' !! k = (match searchable_pool o s k with Some p => Some p | None => m !! k end) ∧
    ∀ q, q ≠ k → m' !! q = m !! q.
Proof.
  intros Hwf Hi. unfold index_active_pool, searchable_pool, active_pool. rewrite Hi.
  cbn [mbind option_bind].
  destruct (proj2 (sw_registered _ Hwf k) (mk_is_Some _ _ Hi)) as [r Hr].
  destruct (sw_revision _ Hwf k i Hi) as [rev Hrev].
  rewrite (sw_pool _ Hwf k i Hi), Hr, Hrev. cbn [ok_or mbind result_bind option_bind].
  unfold searchable_tokens. destruct (is_indexable_status (reg_status r) o); cbn [negb]; [|by eexists].
  destruct (tokens_for_pool r) as [ts|]; cbn [result_ok mbind option_bind]; [|by eexists].
  eexists. split; [reflexivity|]. split; [apply lookup_insert_eq|].
  intros q Hq. by apply lookup_insert_ne.
Qed.

Lemma index_active_pools_spec o s l m :
  snapshot_wf s → (∀ k i, (k, i) ∈ l → rs_pool_instance (ss_registry s) k = Some i) →
  (∀ k p, m !! k = Some p → searchable_pool o s k = Some p) →
  ∃ m', index_active_pools s o l m = Ok m' ∧
    (∀ k p, m' !! k = Some p → searchable_pool o s k = Some p) ∧
    ∀ k, (k ∈ l.*1 ∨ is_Some (m !! k)) → m' !! k = searchable_pool o s k.
Proof.
  intros Hwf. revert m. induction l as [|[k i] l IH]; intros m Hl Hm; cbn [index_active_pools].
  { exists m. split_and!; [done|done|]. intros k [Hk|[p Hp]]; [set_solver|].
    by rewrite Hp, (Hm k p). }
  destruct (index_active_pool_spec o s m k i Hwf) as (m1 & -> & Hk & Hother); [apply Hl; left|].
  cbn [mbind result_bind]. destruct (IH m1) as (m2 & -> & Hs2 & Hm2).
  { intros; apply Hl; by right. }
  { intros q p Hq. destruct (decide (q = k)) as [->|Hne].
    - rewrite Hk in Hq. destruct (searchable_pool o s k) eqn:Hsk; [done|].
      apply Hm in Hq. congruence.
    - rewrite Hother in Hq by done. by apply Hm. }
  exists m2. split_and!; [done|done|]. intros q Hq. rewrite fmap_cons, elem_of_cons in Hq.
  destruct (decide (q = k)) as [->|Hne]; [|apply Hm2; rewrite Hother by done; naive_solver].
  destruct (searchable_pool o s k) as [p|] eqn:Hsk.
  - rewrite <-Hsk. apply Hm2. right. rewrite Hk. by eexists.
  - destruct (m2 !! k) as [p|] eqn:Hp; [|done]. apply Hs2 in Hp. congruence.
Qed.

(** The index built from a snapshot. *)
Lemma indexed_from_snapshot_spec o s :
  snapshot_wf s →
  ∃ m, indexed_from_snapshot s o = Ok m ∧ ∀ k, m !! k = searchable_pool o s k.
Proof.
  intros Hwf. unfold indexed_from_snapshot.
  destruct (index_active_pools_spec o s (rs_pools (ss_registry s)) ∅ Hwf) as (m & -> & Hs & Hm).
  { intros k i. apply (sw_pools _ Hwf). }
  { intros k p. by rewrite lookup_empty. }
  exists m. split; [done|]. intros k.
  destruct (rs_pool_instance (ss_registry s) k) as [i|] eqn:Hi.
  - apply Hm. left. apply list_elem_of_fmap. exists (k, i). split; [done|]. by apply (sw_pools _ Hwf).
  - assert (searchable_pool o s k = None) as Hn by (unfold searchable_pool, active_pool; by rewrite Hi).
    rewrite Hn. destruct (m !! k) as [p|] eqn:Hp; [|done]. apply Hs in Hp. congruence.
Qed.

(** ** Keys and deltas *)

Lemma elem_of_btree_keys (X : gset PoolKey) k : k ∈ btree_keys X ↔ k ∈ X.
Proof. unfold btree_keys. by rewrite elem_of_stable_sort, elem_of_elements. Qed.

Lemma NoDup_btree_keys (X : gset PoolKey) : NoDup (btree_keys X).
Proof. unfold btree_keys. rewrite stable_sort_perm. apply NoDup_elements. Qed.

Lemma elem_of_changed_entries before after keys d :
  d ∈ changed_entries before after keys ↔
  delta_pool d ∈ keys ∧ delta_before d = before (delta_pool d) ∧
  delta_after d = after (delta_pool d) ∧ delta_before d ≠ delta_after d.
Proof.
  unfold changed_entries. rewrite list_elem_of_omap. split.
  - intros (k & Hk & Hd). case_decide; simplify_eq. done.
  - intros (Hk & Hb & Ha & Hne). exists (delta_pool d). split; [done|].
    rewrite decide_False by congruence. destruct d. simpl in *. by subst.
Qed.

Lemma changed_entries_keys before after keys :
  delta_pool <$> changed_entries before after keys = filter (λ k, before k ≠ after k) keys.
Proof.
  induction keys as [|k keys IH]; [done|]. unfold changed_entries in *. csimpl.
  rewrite filter_cons. destruct (decide (before k = after k)) as [He|He]; csimpl.
  - rewrite decide_False by (intros Hn; by apply Hn). apply IH.
  - rewrite decide_True by done. f_equal. apply IH.
Qed.

Context `{!Petgraph Address EdgeData}.

Lemma classify_changes_spec s (l : LiveAmmGraph) keys impact deltas :
  snapshot_wf s →
  classify_changes s l keys impact deltas =
  Ok (foldl (λ i k, impact_max i (change_impact (live_indexed l !! k)
        (searchable_pool (live_options l) s k))) impact keys,
      deltas ++ changed_entries (λ k, live_indexed l !! k) (searchable_pool (live_options l) s) keys).
Proof.
  intros Hwf. revert impact deltas. induction keys as [|k keys IH]; intros impact deltas;
    cbn [classify_changes foldl].
  { unfold changed_entries. simpl. by rewrite app_nil_r. }
  rewrite pool_after_spec by done. cbn [mbind result_bind]. rewrite IH.
  unfold changed_entries. csimpl. case_decide; [done|]. by rewrite <-app_assoc.
Qed.

(** The impact is that of the worst change. *)
Lemma fold_impact_unchanged (f : PoolKey → GraphTopologyImpact) keys impact :
  foldl (λ i k, impact_max i (f k)) impact keys = ImpactUnchanged ↔
  impact = ImpactUnchanged ∧ ∀ k, k ∈ keys → f k = ImpactUnchanged.
Proof.
  revert impact. induction keys as [|k keys IH]; intros impact; simpl; [set_solver|].
  rewrite IH, !impact_unchanged, impact_max_rank. setoid_rewrite elem_of_cons.
  split; [intros [Hm Hk]; split; [lia|]|intros [Hi Hk]; split].
  - intros q [->|Hq]; [apply impact_unchanged; lia|by apply Hk].
  - rewrite (proj1 (impact_unchanged (f k))) by auto. lia.
  - auto.
Qed.

(** What matters to the topology of an entry. *)
Definition topology_of (p : option IndexedPool) : option (PoolInstanceId * list Address) :=
  (λ p, (ip_instance p, ip_tokens p)) <$> p.

Lemma change_impact_unchanged before after :
  change_impact before after = ImpactUnchanged ↔ topology_of before = topology_of after.
Proof.
  unfold topology_of. destruct before as [p|], after as [q|]; simpl; [|naive_solver..].
  repeat case_decide; split; try done; intros Heq; simplify_eq; congruence.
Qed.

Lemma semantic_index_changed_spec before after :
  semantic_index_changed before after = true ↔
  ∃ k, topology_of (before !! k) ≠ topology_of (after !! k).
Proof.
  unfold semantic_index_changed. rewrite orb_true_iff, !existsb_exists. split.
  - intros [([k p] & Hin & Hc)|([k p] & Hin & Hc)]; apply list_elem_of_In, elem_of_map_to_list in Hin;
      exists k; rewrite Hin.
    + destruct (after !! k) as [q|]; simpl; [|done].
      apply orb_true_iff in Hc as [Hc|Hc]; apply bool_decide_eq_true in Hc; congruence.
    + apply bool_decide_eq_true in Hc. by rewrite Hc.
  - intros [k Hk]. destruct (before !! k) as [p|] eqn:Hp.
    + left. exists (k, p). split; [by apply list_elem_of_In, elem_of_map_to_list|].
      destruct (after !! k) as [q|] eqn:Hq; [|done]. simpl in Hk.
      apply orb_true_iff. rewrite !bool_decide_eq_true.
      destruct (decide (ip_instance p = ip_instance q)); [right|by left]. congruence.
    + right. destruct (after !! k) as [q|] eqn:Hq; [|done].
      exists (k, q). split; [by apply list_elem_of_In, elem_of_map_to_list|].
      by apply bool_decide_eq_true.
Qed.

(** Applying the deltas of a list of keys moves their entries. *)
Lemma apply_index_deltas_spec m after keys :
  NoDup keys → ∀ k,
  apply_index_deltas m (changed_entries (λ k, m !! k) after keys) !! k =
  if decide (k ∈ keys) then after k else m !! k.
Proof.
  intros Hnd k. unfold apply_index_deltas.
  assert (∀ l (m' : gmap PoolKey IndexedPool), NoDup l → (∀ q, q ∈ l → m' !! q = m !! q) →
    foldl (λ indexed delta, match delta_after delta with
      | Some after => <[delta_pool delta := after]> indexed
      | None => delete (delta_pool delta) indexed end) m'
      (changed_entries (λ k, m !! k) after l) !! k =
    if decide (k ∈ l) then after k else m' !! k) as Hfold; [|by apply Hfold].
  induction l as [|q l IH]; intros m' Hl Hm; [done|]. apply NoDup_cons in Hl as [Hq Hl].
  unfold changed_entries in *. csimpl. destruct (decide (m !! q = after q)) as [Heq|Hne]; simpl.
  - rewrite IH; [|done|intros; apply Hm; set_solver].
    destruct (decide (k = q)) as [->|].
    + rewrite decide_False, decide_True by set_solver. rewrite Hm; [done|set_solver].
    + apply decide_ext. set_solver.
  - rewrite IH; [|done|].
    + destruct (decide (k = q)) as [->|].
      * rewrite decide_False, decide_True by set_solver.
        destruct (after q); [apply lookup_insert_eq|apply lookup_delete_eq].
      * assert ((if after q is Some p then <[q:=p]> m' else delete q m') !! k = m' !! k) as Hk
          by (destruct (after q); [by apply lookup_insert_ne|by apply lookup_delete_ne]).
        rewrite Hk. apply decide_ext. set_solver.
    + intros q' Hq'. assert (q' ≠ q) by (by intros ->).
      destruct (after q); [rewrite lookup_insert_ne by done|rewrite lookup_delete_ne by done];
        apply Hm; set_solver.
Qed.
End indexing.

Section graph.
Context `{!AmmTypes} `{!AmmLive} `{!Petgraph Address EdgeData} `{!PetgraphLaws Address EdgeData}.
Implicit Types (s : AmmStateSnapshot) (o : GraphBuildOptions) (g : AmmGraph) (d : GraphPoolDelta)
  (k p q : PoolKey).

(** ** The graph after the deltas *)

Lemma GraphVersion_next_bounded v :
  (revision v < u64_max)%Z →
  GraphVersion_checked_next v = Some {| lineage := lineage v; revision := revision v + 1 |}.
Proof.
  intros Hv. unfold GraphVersion_checked_next, u64_checked_add. by rewrite decide_True by lia.
Qed.

(** A graph after one delta; [n] bounds how often its version moved. *)
Record graph_after (g g' : AmmGraph) (n : nat) : Prop := {
  ga_wf : graph_wf g';
  ga_orphans : no_orphans g';
  ga_lineage : lineage (version g') = lineage (version g);
  ga_revision : (revision (version g) <= revision (version g') <= revision (version g) + Z.of_nat n)%Z;
}.

Lemma remove_compacting_after p g :
  graph_wf g → no_orphans g → (revision (version g) < u64_max)%Z →
  ∃ m g', remove_pool_compacting p g = Some (m, g') ∧ graph_after g g' 1 ∧
    pool_tokens g' = delete p (pool_tokens g).
Proof.
  intros Hwf Hno Hr. pose proof (remove_pool_compacting_spec p g Hwf) as Hspec.
  destruct (pool_tokens g !! p) as [ts|] eqn:Hp.
  - destruct Hspec as (g1 & -> & Hwf1 & Htok & Hv & Hn). unfold GraphVersion_next.
    rewrite GraphVersion_next_bounded by done. cbn [mbind option_bind].
    do 2 eexists. split; [reflexivity|]. split; [|done].
    constructor; cbn [set_version version lineage revision]; [by apply graph_wf_set_version| |done|lia].
    intros t. cbn [set_version node_map pool_tokens]. rewrite Hn, (Hno t), Htok. split.
    + intros [(q & us & Hq & Hin) Hts]. destruct (decide (q = p)) as [->|Hne].
      * simplify_eq. destruct (Hts Hin) as (q & us' & Hne & Hq' & Hin').
        exists q, us'. by rewrite lookup_delete_ne.
      * exists q, us. by rewrite lookup_delete_ne.
    + intros (q & us & Hq & Hin). apply lookup_delete_Some in Hq as [Hne Hq].
      split; [by exists q, us|]. intros _. by exists q, us.
  - exists MutUnchanged, g. split; [done|]. split; [|by rewrite delete_id].
    constructor; [done..|lia].
Qed.

Lemma apply_pool_after r o g ts :
  graph_wf g → no_orphans g → (revision (version g) < u64_max)%Z → searchable_tokens o r = Ok ts →
  ∃ m g', apply_pool r o g = Some (m, g') ∧ graph_after g g' 1 ∧
    pool_tokens g' = <[reg_key r := ts]> (pool_tokens g).
Proof.
  intros Hwf Hno Hr Hts. destruct (apply_pool_refines r o g Hwf) as (g1 & Heq & _).
  assert (is_Some (apply_pool r o g)) as [[m g'] Happ].
  { rewrite Heq. simpl. unfold version_after, GraphVersion_next.
    destruct (topology_changed _); [|by eexists].
    rewrite GraphVersion_next_bounded by done. by eexists. }
  destruct (apply_pool_step r o g m g' Hwf Happ) as ([Hwf' _] & Hspec & [Hl Hrev] & Hno').
  exists m, g'. split; [done|]. split.
  - constructor; [done|by apply Hno'|done|]. destruct (topology_changed m); lia.
  - apply (f_equal snd) in Hspec. simpl in Hspec. rewrite Hspec. unfold apply_spec. rewrite Hts.
    destruct (pool_tokens g !! reg_key r) as [old|] eqn:Hold; [|done].
    case_decide; [|done]. subst. by rewrite insert_id.
Qed.

Lemma apply_delta_after s o g d :
  snapshot_wf s → graph_wf g → no_orphans g → (revision (version g) < u64_max)%Z →
  delta_after d = searchable_pool o s (delta_pool d) →
  ∃ g', (∀ lin, apply_delta s o g d lin = Some (Ok g', lin)) ∧ graph_after g g' 1 ∧
    pool_tokens g' =
      partial_alter (λ _, ip_tokens <$> delta_after d) (delta_pool d) (pool_tokens g).
Proof.
  intros Hs Hwf Hno Hr Hd. unfold apply_delta. destruct (delta_after d) as [x|].
  - symmetry in Hd. unfold searchable_pool in Hd.
    destruct (active_pool s (delta_pool d)) as [[[i r] rev]|] eqn:Ha; [|done].
    apply active_pool_Some in Ha as (Hi & Hreg & _); [|done]. cbn [mbind option_bind] in Hd.
    destruct (searchable_tokens o r) as [ts|] eqn:Hts; [|done]. simplify_eq/=.
    pose proof Hreg as Hkey. apply (registry_pool_spec _ (sw_registry _ Hs)) in Hkey as [_ Hkey].
    destruct (apply_pool_after r o g ts Hwf Hno Hr Hts) as (m & g' & Happ & Haf & Htok).
    exists g'. split_and!; [|done|by rewrite Htok, Hkey].
    intros lin. rewrite (sw_pool _ Hs _ _ Hi), Hreg. rewrite (live_bind_ok _ _ r lin lin) by done.
    by rewrite (live_bind_ok _ _ (m, g') lin lin) by (by apply may_panic_some).
  - destruct (remove_compacting_after (delta_pool d) g Hwf Hno Hr) as (m & g' & Happ & Haf & Htok).
    exists g'. split_and!; [|done|by rewrite Htok].
    intros lin. by rewrite (live_bind_ok _ _ (m, g') lin lin) by (by apply may_panic_some).
Qed.

Lemma fold_deltas_after s o deltas g :
  snapshot_wf s → graph_wf g → no_orphans g →
  (revision (version g) + Z.of_nat (length deltas) <= u64_max)%Z →
  (∀ d, d ∈ deltas → delta_after d = searchable_pool o s (delta_pool d)) →
  ∃ g', (∀ lin, fold_live (apply_delta s o) deltas g lin = Some (Ok g', lin)) ∧
    graph_after g g' (length deltas) ∧
    (∀ p, p ∉ delta_pool <$> deltas → pool_tokens g' !! p = pool_tokens g !! p) ∧
    (∀ p, p ∈ delta_pool <$> deltas → pool_tokens g' !! p = ip_tokens <$> searchable_pool o s p).
Proof.
  intros Hs. revert g. induction deltas as [|d ds IH]; intros g Hwf Hno Hr Hd; cbn [fold_live].
  { exists g. split_and!; [done| |done|set_solver]. constructor; [done..|simpl; lia]. }
  simpl length in Hr.
  destruct (apply_delta_after s o g d Hs Hwf Hno) as (g1 & Heq1 & [Hwf1 Hno1 Hl1 Hr1] & Htok1);
    [lia|apply Hd; left|].
  destruct (IH g1 Hwf1 Hno1) as (g2 & Heq2 & [Hwf2 Hno2 Hl2 Hr2] & Hout & Hin); [lia|..].
  { intros d' Hd'. apply Hd. by right. }
  exists g2. split_and!.
  - intros lin. by rewrite (live_bind_ok _ _ g1 lin lin) by done.
  - constructor; [done|done|congruence|simpl length; lia].
  - intros p Hp. rewrite fmap_cons, not_elem_of_cons in Hp. destruct Hp as [Hp1 Hp2].
    rewrite Hout, Htok1 by done. by rewrite lookup_partial_alter_ne.
  - intros p Hp. destruct (decide (p ∈ delta_pool <$> ds)) as [Hp'|Hp']; [by apply Hin|].
    rewrite fmap_cons, elem_of_cons in Hp. destruct Hp as [->|?]; [|done].
    rewrite Hout, Htok1 by done. rewrite lookup_partial_alter_eq. f_equal. apply Hd. left.
Qed.
End graph.

Section liquidity.
Context `{!AmmTypes} `{!AmmLive} `{!Petgraph Address EdgeData} `{!PetgraphLaws Address EdgeData}.
Context (layout : Address → Address → U256).
Implicit Types (g : AmmGraph) (R : AdapterRegistry) (p q : PoolKey) (tk : Address)
  (scope : LiquidityIndexScope) (ix : PoolLiquidityIndex) (keys : list PoolKey).

(** ** The liquidity targets *)

Abbreviation desired R g scope p tk :=
  (desired_source registration_tokens R (needed_for g scope p) p tk).

(** An index that tracks what the registry and the graph ask for. *)
Record liquidity_agrees scope R g ix : Prop := {
  la_wf : index_wf layout ix;
  la_tracked p tk : tracked ix (p, tk) = erase_slot <$> desired R g scope p tk;
  la_counts p tk : is_Some (view ix (p, tk)) →
    pool_token_counts ix !! p = count_for registration_tokens R (needed_for g scope p) p;
}.

Lemma desired_needed R g scope p tk :
  is_Some (desired R g scope p tk) → is_Some (pool_tokens g !! p).
Proof.
  intros [x Hx]. destruct (pool_tokens g !! p) as [ts|] eqn:Hp; [by eexists|].
  pose proof (needed_empty g scope p Hp) as Hempty.
  unfold desired_source in Hx. rewrite Hempty in Hx.
  destruct (registry_pool R p) as [r|]; [|done]. cbn [mbind option_bind] in Hx.
  destruct (registration_tokens r); [|done]. cbn [mbind option_bind] in Hx.
  destruct (metadata_source r); [|done]. cbn [mbind option_bind] in Hx. case_decide; set_solver.
Qed.

Lemma view_tracked ix p tk : is_Some (view ix (p, tk)) ↔ is_Some (tracked ix (p, tk)).
Proof. unfold tracked. by rewrite fmap_is_Some. Qed.

(** The index built from a registry. *)
Lemma built_agrees scope R g ix report :
  graph_wf g → tokens_sorted g → registry_wf R → tokens_agree registration_tokens R g →
  from_registry_with_scope registration_tokens R g scope = Some (ix, report) →
  liquidity_agrees scope R g ix.
Proof.
  intros Hg Hs HR Hag Hbuild.
  destruct (from_registry_view layout registration_tokens R g scope HR)
    as (ix1 & rep1 & Heq1 & Hwf & _ & Hview & Hcount). simplify_eq.
  assert (∀ p tk, view ix (p, tk) = (λ s, (s, BalanceUnknown)) <$> desired R g scope p tk) as Hv.
  { intros p tk. rewrite Hview, (desired_is_built registration_tokens R g scope p tk) by done.
    destruct (registry_pool R p) as [r|]; simpl; [|done]. by destruct (built_source _ _ r tk). }
  constructor; [done|..].
  - intros p tk. unfold tracked. rewrite Hv. by destruct (desired R g scope p tk).
  - intros p tk Hsome. rewrite Hv, fmap_is_Some in Hsome. rewrite Hcount.
    destruct Hsome as [s Hd]. pose proof Hd as Hd'. rewrite (desired_is_built registration_tokens R g scope p tk) in Hd' by done.
    unfold count_for, built_count. unfold built_source, desired_source in *.
    destruct (registry_pool R p) as [r|]; [|done]. cbn [mbind option_bind] in *.
    destruct (tracked_tokens_by_pool g scope !! reg_key r); [|done]. cbn [mbind option_bind] in *.
    destruct (registration_tokens r) as [tokens|] eqn:Htok; [|done]. cbn [mbind option_bind] in *.
    destruct (length (sorted_tokens tokens) <? 2) eqn:Hlen; [done|]. apply Nat.ltb_ge in Hlen.
    destruct (metadata_source r) as [source|] eqn:Hm; [|done]. cbn [mbind option_bind] in *.
    destruct (decide (tk ∈ needed_for g scope p ∧ tk ∈ tokens)) as [[Hn Hin]|]; [|done].
    rewrite decide_True; [done|]. split; [done|]. intros Hnil.
    assert ((tk, source tk) ∈ desired_targets registration_tokens r (needed_for g scope p)) as Hd2
      by (apply elem_of_desired_targets; eauto 10). rewrite Hnil in Hd2. set_solver.
Qed.

Lemma agrees_unique scope R g ix ix' :
  liquidity_agrees scope R g ix → liquidity_agrees scope R g ix' →
  (∀ k, tracked ix k = tracked ix' k) ∧
  ∀ p tk, is_Some (view ix (p, tk)) → is_two_token_pool ix p = is_two_token_pool ix' p.
Proof.
  intros [_ Ht Hc] [_ Ht' Hc']. split; [intros [p tk]; by rewrite Ht, Ht'|].
  intros p tk Hv. unfold is_two_token_pool. rewrite (Hc p tk Hv), (Hc' p tk); [done|].
  rewrite view_tracked, Ht'. by rewrite view_tracked, Ht in Hv.
Qed.

(** Only the pools and tokens of the graph matter. *)
Lemma agrees_same_tokens scope R g g' ix :
  graph_wf g → graph_wf g' → tokens_sorted g → tokens_sorted g' →
  pool_tokens g' = pool_tokens g →
  liquidity_agrees scope R g ix → liquidity_agrees scope R g' ix.
Proof.
  intros Hg Hg' Hs Hs' Htok [Hwf Ht Hc].
  assert (∀ p, needed_for g' scope p = needed_for g scope p) as Hn.
  { intros p. apply set_eq. intros t. unfold needed_for. rewrite !tracked_tokens_spec by done.
    unfold share_pair. by rewrite Htok. }
  constructor; [done|..]; intros p tk; rewrite Hn; [apply Ht|apply Hc].
Qed.

(** The balances of [p] have the same sources in both registries. *)
Definition same_sources R R' p : Prop :=
  ∀ needed, (∀ tk, desired_source registration_tokens R' needed p tk =
                   desired_source registration_tokens R needed p tk) ∧
    count_for registration_tokens R' needed p = count_for registration_tokens R needed p.

Lemma agrees_registry scope R R' g ix :
  (∀ p, is_Some (pool_tokens g !! p) → same_sources R R' p) →
  liquidity_agrees scope R g ix → liquidity_agrees scope R' g ix.
Proof.
  intros Hsame [Hwf Ht Hc]. constructor; [done|..].
  - intros p tk. rewrite Ht. f_equal. destruct (pool_tokens g !! p) as [ts|] eqn:Hp.
    + symmetry. apply Hsame. by eexists.
    + destruct (desired R g scope p tk) eqn:H1; [by destruct (desired_needed R g scope p tk); simplify_eq|].
      by destruct (desired R' g scope p tk) eqn:H2; [destruct (desired_needed R' g scope p tk); simplify_eq|].
  - intros p tk Hv. rewrite (Hc p tk Hv). symmetry. apply Hsame.
    rewrite view_tracked, Ht, fmap_is_Some in Hv. by eapply desired_needed.
Qed.

(** ** Which pools are affected *)

Lemma elem_of_affected before after scope keys p :
  p ∈ liquidity_affected_pools before after scope keys ↔
  p ∈ keys ∨ scope = ParallelEdgeOutputs ∧
    ∃ q, q ∈ keys ∧ (p ∈ parallel_neighbors before q ∨ p ∈ parallel_neighbors after q).
Proof.
  unfold liquidity_affected_pools. destruct scope; [|set_solver].
  rewrite (foldl_ext_fun _ (λ X q, X ∪ (parallel_neighbors before q ∪ parallel_neighbors after q)))
    by (intros; by rewrite (assoc_L (∪))).
  rewrite elem_of_foldl_union, elem_of_list_to_set. setoid_rewrite elem_of_btree_keys.
  setoid_rewrite elem_of_list_to_set. set_solver.
Qed.

Lemma needed_unaffected g g' scope keys p :
  graph_wf g → graph_wf g' → tokens_sorted g → tokens_sorted g' →
  (∀ q, q ∉ keys → pool_tokens g' !! q = pool_tokens g !! q) →
  p ∉ liquidity_affected_pools g g' scope keys →
  needed_for g' scope p = needed_for g scope p.
Proof.
  intros Hg Hg' Hs Hs' Hsame Hp. rewrite elem_of_affected in Hp.
  apply set_eq. intros t. unfold needed_for. rewrite !tracked_tokens_spec by done.
  assert (pool_tokens g' !! p = pool_tokens g !! p) as Hpp by (apply Hsame; naive_solver).
  destruct scope; [|by rewrite Hpp].
  apply exist_proper. intros q. apply exist_proper. intros t'. apply and_iff_compat_l.
  destruct (decide (q ∈ keys)) as [Hq|Hq].
  - split; intros Hsh; exfalso; apply Hp; right; split; try done; exists q; split; try done;
      [right|left]; (apply parallel_neighbors_spec; [done..|]); exists t, t';
      (destruct Hsh as (Hne & ts & us & H1 & H2 & ?&?&?&?); split; [done|]; exists us, ts; done).
  - unfold share_pair. by rewrite Hpp, (Hsame q Hq).
Qed.

(** Reconciling the affected pools moves the index to the new registry and
    graph. *)
Lemma reconcile_affected scope R R' g g' keys ix :
  graph_wf g → graph_wf g' → tokens_sorted g → tokens_sorted g' →
  (∀ q, q ∉ keys → pool_tokens g' !! q = pool_tokens g !! q) →
  (∀ p, p ∉ keys → is_Some (pool_tokens g !! p) → same_sources R R' p) →
  liquidity_agrees scope R g ix →
  ∃ report ix', reconcile_pools registration_tokens R' g' scope
      (btree_keys (liquidity_affected_pools g g' scope keys)) ix = Some (report, ix') ∧
    liquidity_agrees scope R' g' ix'.
Proof.
  intros Hg Hg' Hs Hs' Hsame Hsrc Hag. pose proof (la_wf _ _ _ _ Hag) as Hwf.
  destruct (reconcile_pools_spec layout registration_tokens R' g' scope
    (btree_keys (liquidity_affected_pools g g' scope keys)) ix Hwf)
    as (report & ix' & Heq & Hwf' & Hv & Hc).
  exists report, ix'. split; [done|].
  assert (∀ p, p ∉ liquidity_affected_pools g g' scope keys →
    (∀ tk, tracked ix (p, tk) = erase_slot <$> desired R' g' scope p tk) ∧
    ∀ tk, is_Some (view ix (p, tk)) → pool_token_counts ix !! p =
      count_for registration_tokens R' (needed_for g' scope p) p) as Hout.
  { intros p Hp. assert (p ∉ keys) as Hk by (rewrite elem_of_affected in Hp; tauto).
    rewrite (needed_unaffected g g' scope keys p) by done.
    destruct (pool_tokens g !! p) as [ts|] eqn:Hpt.
    - destruct (Hsrc p Hk) with (needed := needed_for g scope p) as [Hd Hcf]; [by eexists|].
      split; intros tk; [by rewrite (la_tracked _ _ _ _ Hag), Hd|].
      intros Hview. by rewrite (la_counts _ _ _ _ Hag p tk Hview), Hcf.
    - assert (∀ R tk, desired R g scope p tk = None) as Hnone.
      { intros R0 tk. destruct (desired R0 g scope p tk) eqn:H1; [|done].
        destruct (desired_needed R0 g scope p tk); simplify_eq; by rewrite H1. }
      split; intros tk; [by rewrite (la_tracked _ _ _ _ Hag), !Hnone|].
      rewrite view_tracked, (la_tracked _ _ _ _ Hag), Hnone. by intros []. }
  constructor; [done|..].
  - intros p tk. unfold tracked. rewrite Hv, (decide_ext _ _ _ _ (elem_of_btree_keys _ p)).
    case_decide as Hp; [|by apply Hout].
    destruct (desired R' g' scope p tk); simpl; [|done]. by rewrite erase_keep_source.
  - intros p tk Hview. rewrite Hv, (decide_ext _ _ _ _ (elem_of_btree_keys _ p)) in Hview.
    rewrite Hc, (decide_ext _ _ _ _ (elem_of_btree_keys _ p)). case_decide; [done|]. by eapply Hout.
Qed.

(** ** Operations on single balances *)

(** Only the slots and the balances of an index changed. *)
Record same_targets ix ix' : Prop := {
  st_wf : index_wf layout ix';
  st_tracked k : tracked ix' k = tracked ix k;
  st_counts : pool_token_counts ix' = pool_token_counts ix;
}.

Lemma agrees_same_targets scope R g ix ix' :
  liquidity_agrees scope R g ix → same_targets ix ix' → liquidity_agrees scope R g ix'.
Proof.
  intros [_ Ht Hc] [Hwf Ht' Hc']. constructor; [done|intros; by rewrite Ht'|].
  intros p tk Hv. rewrite Hc'. apply (Hc p tk). by rewrite view_tracked, <-Ht', <-view_tracked.
Qed.

Lemma rebalanced_same_targets ix ix' :
  index_wf layout ix → rebalanced layout ix ix' → same_targets ix ix'.
Proof.
  intros Hwf Hreb. constructor; [apply Hreb| |apply Hreb]. intros [p tk]. unfold tracked, view.
  rewrite (rb_pool_token _ _ _ Hreb).
  destruct (by_pool_token ix !! (p, tk)) as [i|] eqn:Hi; [|done]. simpl.
  apply (wf_pool_token _ _ Hwf) in Hi as [_ (s & Hl)]. pose proof Hl as Hl'.
  apply (rb_live _ _ _ Hreb) in Hl'. destruct Hl as (t & -> & _ & _ & <-).
  destruct Hl' as (t' & -> & _ & _ & Hs). simpl. by rewrite Hs.
Qed.

Lemma seeded_same_targets ix token holder n ix' :
  index_wf layout ix →
  set_erc20_balance_slot token holder (layout token holder) ix = Some (n, ix') → same_targets ix ix'.
Proof.
  intros Hwf Hset. unfold set_erc20_balance_slot in Hset.
  destruct (set_erc20_slot_spec layout ix token holder _ Hwf eq_refl)
    as (ix1 & Heq & Hwf1 & Hts & Hpt & Hc). rewrite Heq in Hset. simplify_eq/=.
  constructor; [done| |done]. intros k. unfold tracked, view. rewrite Hpt, Hts.
  destruct (by_pool_token ix !! k) as [i|]; [|done]. simpl. rewrite list_lookup_fmap.
  destruct (targets ix !! i) as [t|]; [|done]. simpl. f_equal. unfold set_slot.
  case_decide as Hd; [|done]. destruct Hd as (_ & _ & Hh). unfold erc20_holder in Hh.
  by destruct (lt_source t); simplify_eq/=.
Qed.

Lemma marked_same_targets ix p tk ix' :
  index_wf layout ix → mark_stale ix p tk = Some (Ok ix') → same_targets ix ix'.
Proof.
  intros Hwf Hmark. unfold mark_stale in Hmark.
  pose proof (set_one_balance_spec layout ix p tk BalanceStale Hwf) as Hone.
  destruct (target_index ix p tk); [|done]. destruct Hone as (ix1 & Heq & Hreb & _).
  rewrite Heq in Hmark. simplify_eq/=. by apply rebalanced_same_targets.
Qed.

Lemma refreshed_same_targets ix sv :
  index_wf layout ix → same_targets ix (refresh_from_snapshot sv ix).2.
Proof.
  intros Hwf. unfold refresh_from_snapshot.
  destruct (refresh_targets_spec sv (targets ix) PoolLiquidityRefreshReport_default)
    as (u & k & -> & _ & _). apply rebalanced_same_targets; [done|].
  assert (same_live (targets ix) (refreshed sv <$> targets ix)) as Hsame by apply (refreshed_live layout).
  constructor; try done. by apply set_targets_wf.
Qed.
End liquidity.
