(* ===== verification/LiveGraphTheorems.v ===== *)
(** * Theorems about the live graph

    A live graph that follows the commits of its runtime is at every point what
    a rebuild from the current snapshot would give; a commit yields exactly the
    delta between the two snapshots and moves the graph version at most once,
    and is rejected exactly when it does not follow the current state. *)

From S2P Require Import Prelude AmmState Petgraph Graph GraphPairs GraphInv GraphProps GraphTheorems.
From S2P Require Import Liquidity LiquidityProps LiquidityBuild LiquidityTheorems LiveState LiveGraph.
From S2P Require Import LiveGraphProps.

Section theorems.
Context `{!AmmTypes} `{!AmmLive} `{!Petgraph Address EdgeData} `{!PetgraphLaws Address EdgeData}.
Context (layout : Address → Address → U256).
Implicit Types (s : AmmStateSnapshot) (o : GraphBuildOptions) (l : LiveAmmGraph)
  (p k : PoolKey) (c : AmmStateCommit) (d : GraphDelta) (lin : Z) (scope : LiquidityIndexScope).

(** ** What the runtime documents *)

(** [PoolRegistration::tokens] returns the tokens of the metadata. *)
Definition tokens_documented : Prop :=
  ∀ r ts, tokens_for_pool r = Ok ts →
    ∃ tokens, registration_tokens r = Some tokens ∧ sorted_tokens tokens = ts.

(** While a generation of a pool keeps its tokens, its balances stay where
    they are. *)
Definition sources_kept s s' : Prop :=
  ∀ k i r r' rev rev', active_pool s k = Some (i, r, rev) → active_pool s' k = Some (i, r', rev') →
    tokens_for_pool r' = tokens_for_pool r →
    registration_tokens r' = registration_tokens r ∧ metadata_source r' = metadata_source r.

(** ** A live graph that represents a snapshot *)

Record live_ok s l : Prop := {
  lo_snapshot : matches_snapshot l s = true;
  lo_graph : graph_wf (live_graph l);
  lo_orphans : no_orphans (live_graph l);
  lo_tokens p : pool_tokens (live_graph l) !! p = ip_tokens <$> searchable_pool (live_options l) s p;
  lo_indexed p : live_indexed l !! p = searchable_pool (live_options l) s p;
  lo_liquidity : liquidity_agrees layout (live_liquidity_scope l) (rs_registry (ss_registry s))
    (live_graph l) (live_liquidity l);
}.

Lemma matches_snapshot_spec l s :
  matches_snapshot l s = true ↔
  live_runtime_id l = ss_runtime_id s ∧ live_state_version l = ss_version s ∧
  live_point l = ss_point s.
Proof. unfold matches_snapshot. rewrite !andb_true_iff, !bool_decide_eq_true. tauto. Qed.

Lemma searchable_Some o s k x :
  searchable_pool o s k = Some x ↔
  ∃ i r rev ts, active_pool s k = Some (i, r, rev) ∧ searchable_tokens o r = Ok ts ∧
    x = {| ip_instance := i; ip_revision := rev; ip_tokens := ts |}.
Proof.
  unfold searchable_pool. split.
  - destruct (active_pool s k) as [[[i r] rev]|]; [|done]. cbn [mbind option_bind].
    destruct (searchable_tokens o r) as [ts|] eqn:Hts; [|done]. intros [= <-]. by exists i, r, rev, ts.
  - intros (i & r & rev & ts & -> & Hts & ->). cbn [mbind option_bind]. by rewrite Hts.
Qed.

Lemma searchable_tokens_Ok o r ts : searchable_tokens o r = Ok ts → tokens_for_pool r = Ok ts.
Proof. unfold searchable_tokens. by destruct (is_indexable_status _ _). Qed.

Lemma tokens_sorted_of o s (g : AmmGraph) :
  (∀ p, pool_tokens g !! p = ip_tokens <$> searchable_pool o s p) → tokens_sorted g.
Proof.
  intros Hg p ts Hp. rewrite Hg in Hp. apply fmap_Some in Hp as (x & Hx & ->).
  apply searchable_Some in Hx as (i & r & rev & ts & _ & Hts & ->).
  by eapply searchable_tokens_sorted.
Qed.

Lemma tokens_agree_of o s (g : AmmGraph) :
  tokens_documented → snapshot_wf s →
  (∀ p, pool_tokens g !! p = ip_tokens <$> searchable_pool o s p) →
  tokens_agree registration_tokens (rs_registry (ss_registry s)) g.
Proof.
  intros Hdoc Hs Hg p ts Hp. rewrite Hg in Hp. apply fmap_Some in Hp as (x & Hx & ->).
  apply searchable_Some in Hx as (i & r & rev & ts & Ha & Hts & ->).
  apply active_pool_Some in Ha as (_ & Hr & _); [|done].
  destruct (Hdoc r ts (searchable_tokens_Ok _ _ _ Hts)) as (tokens & Ht & Hsort).
  exists r, tokens. done.
Qed.

(** A pool whose topology stays keeps the sources of its balances. *)
Lemma kept_same_sources o s s' p :
  snapshot_wf s → snapshot_wf s' → sources_kept s s' →
  is_Some (searchable_pool o s p) →
  topology_of (searchable_pool o s p) = topology_of (searchable_pool o s' p) →
  same_sources (rs_registry (ss_registry s)) (rs_registry (ss_registry s')) p.
Proof.
  intros Hs Hs' Hkept [x Hx] Htop. rewrite Hx in Htop.
  destruct (searchable_pool o s' p) as [x'|] eqn:Hx'; [|done].
  apply searchable_Some in Hx as (i & r & rev & ts & Ha & Hts & ->).
  apply searchable_Some in Hx' as (i' & r' & rev' & ts' & Ha' & Hts' & ->).
  simpl in Htop. simplify_eq.
  destruct (Hkept p i' r r' rev rev' Ha Ha') as [Htok Hm].
  { by rewrite (searchable_tokens_Ok _ _ _ Hts), (searchable_tokens_Ok _ _ _ Hts'). }
  apply active_pool_Some in Ha as (_ & Hr & _); [|done].
  apply active_pool_Some in Ha' as (_ & Hr' & _); [|done].
  intros needed. unfold desired_source, count_for, desired_targets. rewrite Hr, Hr'.
  cbn [mbind option_bind]. by rewrite Htok, Hm.
Qed.

(** ** Construction *)

Lemma build_graph_ok o s lin :
  snapshot_wf s → (lin < u64_max)%Z →
  ∃ g, build_graph (rs_registry (ss_registry s)) o lin = Some (Ok g, lin + 1)%Z ∧
    graph_wf g ∧ no_orphans g ∧
    (∀ p, pool_tokens g !! p = ip_tokens <$> searchable_pool o s p) ∧
    version g = {| lineage := lin; revision := 0 |}.
Proof.
  intros Hs Hlin. unfold build_graph.
  destruct (from_registry (rs_registry (ss_registry s)) o lin) as [[rep lin']|] eqn:Hf.
  - destruct (from_registry_spec _ _ _ _ _ (sw_registry _ Hs) Hf) as (Hwf & Hno & Hv & Htok & _).
    assert (lin' = (lin + 1)%Z) as ->.
    { revert Hf. unfold from_registry, AmmGraph_new, GraphVersion_initial, u64_checked_add.
      case_decide; [|done]. simpl. destruct (foldl _ _ _) as [[? ?] ?]. by intros [= _ <-]. }
    exists (report_graph rep). split_and!; try done.
    intros p. by rewrite Htok, registry_topology_searchable.
  - exfalso. revert Hf. unfold from_registry, AmmGraph_new, GraphVersion_initial, u64_checked_add.
    rewrite decide_True by lia. simpl. by destruct (foldl _ _ _) as [[? ?] ?].
Qed.

Lemma from_snapshot_ok o scope s lin :
  tokens_documented → snapshot_wf s → (lin < u64_max)%Z →
  ∃ l, from_snapshot_with_liquidity_scope s o scope lin = Some (Ok l, lin + 1)%Z ∧
    live_ok s l ∧ live_options l = o ∧ live_liquidity_scope l = scope ∧
    live_version l = {| lineage := lin; revision := 0 |}.
Proof.
  intros Hdoc Hs Hlin. unfold from_snapshot_with_liquidity_scope.
  destruct (build_graph_ok o s lin Hs Hlin) as (g & Hg & Hwf & Hno & Htok & Hv).
  rewrite (live_bind_ok _ _ g lin (lin + 1)) by done.
  destruct (from_registry_view layout registration_tokens (rs_registry (ss_registry s)) g scope
    (sw_registry _ Hs)) as (ix & rep & Hix & _).
  rewrite (live_bind_ok _ _ (ix, rep) (lin + 1) (lin + 1)) by (by apply may_panic_some).
  destruct (indexed_from_snapshot_spec o s Hs) as (m & Hm & Hspec).
  rewrite (live_bind_ok _ _ m (lin + 1) (lin + 1)) by (unfold question; by rewrite Hm).
  eexists. split; [reflexivity|].
  split_and!; [|done..]. constructor; simpl; try done.
  - by apply matches_snapshot_spec.
  - eapply built_agrees; [done|by eapply tokens_sorted_of|apply Hs|by eapply tokens_agree_of|done].
Qed.

Lemma from_snapshot_inv o scope s lin l lin' :
  tokens_documented → snapshot_wf s →
  from_snapshot_with_liquidity_scope s o scope lin = Some (Ok l, lin') →
  live_ok s l ∧ live_options l = o ∧ live_liquidity_scope l = scope ∧
  live_version l = {| lineage := lin; revision := 0 |}.
Proof.
  intros Hdoc Hs Hl. destruct (decide (lin < u64_max)%Z) as [Hlin|Hlin].
  - destruct (from_snapshot_ok o scope s lin Hdoc Hs Hlin) as (l1 & Heq & ?). by simplify_eq.
  - unfold from_snapshot_with_liquidity_scope in Hl. rewrite live_bind_panic in Hl; [done|].
    unfold build_graph, from_registry, AmmGraph_new, GraphVersion_initial, u64_checked_add.
    by rewrite decide_False by lia.
Qed.

(** The version of the graph is no part of what a live graph represents. *)
Definition with_version (v : GraphVersion) l : LiveAmmGraph :=
  {| live_graph := set_version v (live_graph l); live_runtime_id := live_runtime_id l;
     live_state_version := live_state_version l; live_point := live_point l;
     live_options := live_options l; live_liquidity_scope := live_liquidity_scope l;
     live_liquidity := live_liquidity l; live_indexed := live_indexed l |}.

Lemma live_ok_version s l v : live_ok s l → live_ok s (with_version v l).
Proof.
  intros [H1 H2 H3 H4 H5 H6]. constructor; simpl; try done; [by apply graph_wf_set_version|].
  eapply agrees_same_tokens; [..|exact H6]; try done; [by apply graph_wf_set_version|..];
    by eapply tokens_sorted_of.
Qed.

(** ** One transition *)

(** The delta between two snapshots. *)
Record delta_between o s s' d : Prop := {
  db_version : source_state_version d = ss_version s';
  db_point : source_point d = ss_point s';
  db_changes x : x ∈ pool_changes d ↔
    delta_before x = searchable_pool o s (delta_pool x) ∧
    delta_after x = searchable_pool o s' (delta_pool x) ∧ delta_before x ≠ delta_after x;
  db_nodup : NoDup (delta_pool <$> pool_changes d);
  db_impact : gd_impact d = ImpactUnchanged ↔
    ∀ k, topology_of (searchable_pool o s k) = topology_of (searchable_pool o s' k);
  db_graph_version : to_graph_version d =
    if decide (gd_impact d = ImpactUnchanged) then from_graph_version d
    else {| lineage := lineage (from_graph_version d);
            revision := revision (from_graph_version d) + 1 |};
}.

(** A transition from [s] to [s'] with its delta. *)
Record moved s s' l d l' : Prop := {
  mv_ok : live_ok s' l';
  mv_options : live_options l' = live_options l;
  mv_scope : live_liquidity_scope l' = live_liquidity_scope l;
  mv_runtime : live_runtime_id l' = live_runtime_id l;
  mv_delta : delta_between (live_options l) s s' d;
  mv_from : from_graph_version d = live_version l;
  mv_to : to_graph_version d = live_version l';
}.

Lemma changed_entries_between o s s' l (next : PoolKey → option IndexedPool) keys :
  (∀ p, live_indexed l !! p = searchable_pool o s p) →
  (∀ p, next p = searchable_pool o s' p) → NoDup keys →
  (∀ p, p ∉ keys → searchable_pool o s p = searchable_pool o s' p) →
  (∀ x, x ∈ changed_entries (λ k, live_indexed l !! k) next keys ↔
    delta_before x = searchable_pool o s (delta_pool x) ∧
    delta_after x = searchable_pool o s' (delta_pool x) ∧ delta_before x ≠ delta_after x) ∧
  NoDup (delta_pool <$> changed_entries (λ k, live_indexed l !! k) next keys).
Proof.
  intros Hb Ha Hnd Hout. split.
  - intros x. rewrite elem_of_changed_entries, Hb, Ha. split; [tauto|].
    intros (H1 & H2 & H3). split_and!; try done.
    destruct (decide (delta_pool x ∈ keys)) as [|Hn]; [done|]. destruct H3. rewrite H1, H2. by apply Hout.
  - rewrite changed_entries_keys. by apply NoDup_filter.
Qed.

(** The new liquidity index when the entries of [keys] change. *)
Lemma liquidity_moves o scope s s' (g g' : AmmGraph) ix keys :
  snapshot_wf s → snapshot_wf s' → sources_kept s s' → graph_wf g → graph_wf g' →
  (∀ p, pool_tokens g !! p = ip_tokens <$> searchable_pool o s p) →
  (∀ p, pool_tokens g' !! p = ip_tokens <$> searchable_pool o s' p) →
  (∀ p, p ∉ keys → topology_of (searchable_pool o s p) = topology_of (searchable_pool o s' p)) →
  liquidity_agrees layout scope (rs_registry (ss_registry s)) g ix →
  ∃ report ix', reconcile_pools registration_tokens (rs_registry (ss_registry s')) g' scope
      (btree_keys (liquidity_affected_pools g g' scope keys)) ix = Some (report, ix') ∧
    liquidity_agrees layout scope (rs_registry (ss_registry s')) g' ix'.
Proof.
  intros Hs Hs' Hkept Hg Hg' Htok Htok' Hkeys Hag.
  apply (reconcile_affected layout scope (rs_registry (ss_registry s))); try done.
  - by eapply tokens_sorted_of.
  - by eapply tokens_sorted_of.
  - intros q Hq. rewrite Htok, Htok'. specialize (Hkeys q Hq). unfold topology_of in Hkeys.
    destruct (searchable_pool o s q), (searchable_pool o s' q); simplify_eq/=; congruence.
  - intros p Hp Hsome. rewrite Htok, fmap_is_Some in Hsome.
    by apply (kept_same_sources o); [..|apply Hkeys].
Qed.

(** The keys a change set names, in order. *)
Lemma changed_keys_length (changes : AmmChangeSet) :
  length (btree_keys (list_to_set (instance_key <$> cs_pool_changes changes))) ≤
  length (cs_pool_changes changes).
Proof.
  unfold btree_keys. rewrite length_stable_sort.
  rewrite <-(length_fmap instance_key (cs_pool_changes changes)).
  generalize (instance_key <$> cs_pool_changes changes). intros ks.
  change (size (list_to_set ks : gset PoolKey) ≤ length ks).
  induction ks as [|k ks IH]; [by rewrite list_to_set_nil, size_empty|].
  rewrite list_to_set_cons. simpl length.
  rewrite size_union_alt, size_singleton.
  assert (size ((list_to_set ks : gset PoolKey) ∖ {[k]}) ≤ size (list_to_set ks : gset PoolKey)) as Hle
    by (apply subseteq_size; set_solver). lia.
Qed.

Lemma changed_entries_length before after keys :
  length (changed_entries before after keys) ≤ length keys.
Proof. rewrite <-(length_fmap delta_pool), changed_entries_keys. apply length_filter. Qed.

(** A change set that lists every changed pool moves the graph. *)
Lemma apply_changes_ok s s' l changes lin :
  snapshot_wf s → snapshot_wf s' → sources_kept s s' → live_ok s l →
  ss_runtime_id s' = live_runtime_id l →
  (∀ k, k ∉ changed_pools changes → active_pool s' k = active_pool s k) →
  cs_requires_full_refresh changes = false →
  (revision (live_version l) + Z.of_nat (length (cs_pool_changes changes)) <= u64_max)%Z →
  ∃ d l', apply_snapshot_changes s' changes l lin = Some (Ok (d, l'), lin) ∧ moved s s' l d l'.
Proof.
  intros Hs Hs' Hkept [Hsnap Hwf Hno Htok Hix Hliq] Hrt Hcomplete Hfull Hrev.
  unfold apply_snapshot_changes. rewrite Hfull. set (o := live_options l) in *.
  set (keys := btree_keys (list_to_set (instance_key <$> cs_pool_changes changes))).
  rewrite (classify_changes_spec s' l keys ImpactUnchanged []) by done. fold o.
  cbn [app].
  set (deltas := changed_entries (λ k, live_indexed l !! k) (searchable_pool o s') keys).
  set (impact := foldl _ _ _). rewrite (live_bind_ok _ _ (impact, deltas) lin lin) by done.
  assert (∀ p, p ∈ keys ↔ p ∈ changed_pools changes) as Hkeys.
  { intros p. unfold keys, changed_pools. by rewrite elem_of_btree_keys, elem_of_list_to_set. }
  assert (∀ p, p ∉ keys → searchable_pool o s p = searchable_pool o s' p) as Hout.
  { intros p Hp. unfold searchable_pool. rewrite Hcomplete; [done|]. by rewrite <-Hkeys. }
  assert (NoDup keys) as Hnd by apply NoDup_btree_keys.
  destruct (changed_entries_between o s s' l (searchable_pool o s') keys) as [Hch Hchnd]; try done.
  fold deltas in Hch, Hchnd.
  assert (impact = ImpactUnchanged ↔
    ∀ k, topology_of (searchable_pool o s k) = topology_of (searchable_pool o s' k)) as Himp.
  { unfold impact. rewrite fold_impact_unchanged. setoid_rewrite change_impact_unchanged.
    setoid_rewrite Hix. split; [|naive_solver]. intros [_ Hk] k.
    destruct (decide (k ∈ keys)) as [Hin|Hin]; [by apply Hk|]. by rewrite Hout. }
  assert (∀ p, apply_index_deltas (live_indexed l) deltas !! p = searchable_pool o s' p) as Hix'.
  { intros p. unfold deltas. rewrite apply_index_deltas_spec by done.
    case_decide as Hp; [done|]. rewrite Hix. by apply Hout. }
  apply matches_snapshot_spec in Hsnap as (Hr1 & _ & _).
  destruct (decide (impact = ImpactUnchanged)) as [Hun|Hun].
  - do 2 eexists. split; [reflexivity|]. pose proof (proj1 Himp Hun) as Htop.
    assert (∀ p, pool_tokens (live_graph l) !! p = ip_tokens <$> searchable_pool o s' p) as Htok'.
    { intros p. rewrite Htok. specialize (Htop p). unfold topology_of in Htop.
      destruct (searchable_pool o s p), (searchable_pool o s' p); simplify_eq/=; congruence. }
    constructor; try done.
    + constructor; cbn [live_graph live_options live_indexed live_liquidity live_liquidity_scope]; try done.
      { by apply matches_snapshot_spec. }
      eapply agrees_registry; [|exact Hliq]. intros p Hp. rewrite Htok, fmap_is_Some in Hp.
      by apply (kept_same_sources o).
    + constructor; try done. simpl. by rewrite decide_True.
  - assert (length deltas ≤ length (cs_pool_changes changes)) as Hlen.
    { etrans; [apply changed_entries_length|apply changed_keys_length]. }
    assert (revision (live_version l) < u64_max)%Z as Hlt.
    { assert (cs_pool_changes changes ≠ []) as Hne; [|destruct (cs_pool_changes changes); simpl in Hrev; [done|lia]].
      intros Hnil. apply Hun, Himp. intros k. rewrite Hout; [done|].
      rewrite Hkeys. unfold changed_pools. rewrite Hnil. set_solver. }
    destruct (fold_deltas_after s' o deltas (live_graph l) Hs' Hwf Hno)
      as (g' & Hfold & [Hwf' Hno' Hlin' _] & Houtd & Hind).
    { unfold live_version in Hrev. lia. }
    { intros x Hx. by apply Hch in Hx as (_ & ? & _). }
    rewrite (live_bind_ok _ _ g' lin lin) by done.
    unfold live_version in Hlt. rewrite (GraphVersion_next_bounded _ Hlt). cbn [ok_or].
    set (v := {| lineage := _; revision := _ |}). rewrite (live_bind_ok _ _ v lin lin) by done.
    assert (∀ p, pool_tokens (set_version v g') !! p = ip_tokens <$> searchable_pool o s' p) as Htok'.
    { intros p. simpl. destruct (decide (p ∈ delta_pool <$> deltas)) as [Hp|Hp]; [by apply Hind|].
      rewrite Houtd, Htok by done. f_equal.
      unfold deltas in Hp. rewrite changed_entries_keys, list_elem_of_filter, Hix in Hp.
      destruct (decide (p ∈ keys)); [|by apply Hout].
      destruct (decide (searchable_pool o s p = searchable_pool o s' p)); tauto. }
    destruct (liquidity_moves o (live_liquidity_scope l) s s' (live_graph l) (set_version v g')
      (live_liquidity l) (delta_pool <$> deltas)) as (rep & ix' & Hrec & Hag); try done.
    { by apply graph_wf_set_version. }
    { intros p Hp. f_equal. unfold deltas in Hp.
      rewrite changed_entries_keys, list_elem_of_filter, Hix in Hp.
      destruct (decide (p ∈ keys)); [|by apply Hout].
      destruct (decide (searchable_pool o s p = searchable_pool o s' p)); tauto. }
    rewrite (live_bind_ok _ _ (rep, ix') lin lin) by (by apply may_panic_some).
    do 2 eexists. split; [reflexivity|]. constructor; try done.
    + constructor; cbn [live_graph live_options live_indexed live_liquidity live_liquidity_scope]; try done.
      { by apply matches_snapshot_spec. }
      { by apply graph_wf_set_version. }
    + constructor; try done. simpl. by rewrite decide_False.
Qed.

(** A newer snapshot replaces everything. *)
Lemma reconcile_ok s s' l lin :
  snapshot_wf s → snapshot_wf s' → sources_kept s s' → live_ok s l →
  ss_runtime_id s' = live_runtime_id l → (live_state_version l < ss_version s')%Z →
  (lin < u64_max)%Z → (revision (live_version l) < u64_max)%Z →
  ∃ d l', reconcile_snapshot s' l lin = Some (Ok (d, l'), (lin + 1)%Z) ∧ moved s s' l d l'.
Proof.
  intros Hs Hs' Hkept [Hsnap Hwf Hno Htok Hix Hliq] Hrt Hnew Hlin Hrev.
  unfold reconcile_snapshot. set (o := live_options l) in *.
  rewrite (live_bind_ok _ _ () lin lin)
    by (unfold question, validate_runtime; by rewrite decide_False by (intros Hne; by apply Hne)).
  rewrite decide_False by lia.
  destruct (indexed_from_snapshot_spec o s' Hs') as (m & Hm & Hix').
  rewrite (live_bind_ok _ _ m lin lin) by (unfold question; by rewrite Hm).
  unfold replace_from_snapshot. fold o.
  destruct (build_graph_ok o s' lin Hs' Hlin) as (g' & Hg & Hwf' & Hno' & Htok' & _).
  rewrite (live_bind_ok _ _ g' lin (lin + 1)) by done.
  set (keys := btree_keys _).
  set (deltas := changed_entries _ _ keys). set (changed := semantic_index_changed _ _).
  assert (∀ p, p ∉ keys → searchable_pool o s p = searchable_pool o s' p) as Hout.
  { intros p Hp. unfold keys in Hp. rewrite elem_of_btree_keys, elem_of_union, !elem_of_dom, Hix, Hix' in Hp.
    destruct (searchable_pool o s p), (searchable_pool o s' p); try done; exfalso; apply Hp; eauto. }
  destruct (changed_entries_between o s s' l (λ k, m !! k) keys) as [Hch Hchnd];
    [done|done|apply NoDup_btree_keys|done|]. fold deltas in Hch, Hchnd.
  assert (changed = false ↔
    ∀ k, topology_of (searchable_pool o s k) = topology_of (searchable_pool o s' k)) as Himp.
  { rewrite <-not_true_iff_false. unfold changed. rewrite semantic_index_changed_spec.
    setoid_rewrite Hix. setoid_rewrite Hix'. split; [|naive_solver].
    intros Hn k. apply dec_stable. intros Hk. apply Hn. by exists k. }
  set (to := if changed then {| lineage := lineage (version (live_graph l));
    revision := revision (version (live_graph l)) + 1 |} else version (live_graph l)).
  rewrite (live_bind_ok _ _ to (lin + 1) (lin + 1)).
  2: { unfold question, to. destruct changed; [|done].
       unfold live_version in Hrev. by rewrite (GraphVersion_next_bounded _ Hrev). }
  destruct (liquidity_moves o (live_liquidity_scope l) s s' (live_graph l) (set_version to g')
    (live_liquidity l) (delta_pool <$> deltas)) as (rep & ix' & Hrec & Hag); try done.
  { by apply graph_wf_set_version. }
  { intros p Hp. f_equal. unfold deltas in Hp.
    rewrite changed_entries_keys, list_elem_of_filter, Hix, Hix' in Hp.
    destruct (decide (p ∈ keys)); [|by apply Hout].
    destruct (decide (searchable_pool o s p = searchable_pool o s' p)); tauto. }
  rewrite (live_bind_ok _ _ (rep, ix') (lin + 1) (lin + 1)) by (by apply may_panic_some).
  apply matches_snapshot_spec in Hsnap as (Hr1 & _ & _).
  do 2 eexists. split; [reflexivity|]. constructor; try done.
  - constructor; cbn [live_graph live_options live_indexed live_liquidity live_liquidity_scope]; try done.
    { by apply matches_snapshot_spec. }
    { by apply graph_wf_set_version. }
  - constructor; cbn [source_state_version source_point pool_changes gd_impact to_graph_version
      from_graph_version]; try done.
    + etrans; [|exact Himp]. by destruct changed.
    + unfold to. by destruct changed.
Qed.

(** ** Commits *)

(** Versions of the runtime are counted up. *)
Definition versions_counted : Prop :=
  ∀ v w, version_next v = Some w → (w = v + 1)%Z.

(** What the runtime promises about a commit over the snapshot [s]. *)
Record commit_ok s c : Prop := {
  co_snapshot : snapshot_wf (commit_snapshot c);
  co_complete : commit_complete s c;
  co_sources : sources_kept s (commit_snapshot c);
}.

(** The counters of the graph and of the lineages have room for a commit. *)
Definition version_room l c lin : Prop :=
  (lin < u64_max)%Z ∧
  (revision (live_version l) + Z.max 1 (Z.of_nat (length (cs_pool_changes (commit_changes c)))) <= u64_max)%Z.

Lemma apply_commit_ok s l c lin :
  versions_counted → snapshot_wf s → commit_ok s c → live_ok s l → version_room l c lin →
  ss_runtime_id (commit_snapshot c) = live_runtime_id l →
  ss_version (commit_snapshot c) = cs_version (commit_changes c) →
  ss_point (commit_snapshot c) = cs_point (commit_changes c) →
  version_next (live_state_version l) = Some (ss_version (commit_snapshot c)) →
  ∃ d l' lin', apply_commit c l lin = Some (Ok (d, l'), lin') ∧ moved s (commit_snapshot c) l d l'.
Proof.
  intros Hver Hs [Hs' Hcomplete Hkept] Hok [Hlin Hrev] Hrt Hv Hp Hnext. unfold apply_commit.
  rewrite (live_bind_ok _ _ () lin lin)
    by (unfold question, validate_runtime; by rewrite decide_False by (intros Hne; by apply Hne)).
  rewrite decide_False by tauto.
  rewrite (live_bind_ok _ _ (ss_version (commit_snapshot c)) lin lin)
    by (unfold question; by rewrite Hnext).
  rewrite decide_False by (intros Hne; by apply Hne).
  destruct (cs_requires_full_refresh (commit_changes c)) eqn:Hfull.
  - unfold apply_snapshot_changes. rewrite Hfull. apply Hver in Hnext.
    destruct (reconcile_ok s (commit_snapshot c) l lin) as (d & l' & ? & ?); try done; [lia..|].
    by exists d, l', (lin + 1)%Z.
  - destruct (apply_changes_ok s (commit_snapshot c) l (commit_changes c) lin) as (d & l' & ? & ?);
      try done; [lia|]. by exists d, l', lin.
Qed.

Lemma apply_commit_cases s l c lin :
  versions_counted → snapshot_wf s → commit_ok s c → live_ok s l → version_room l c lin →
  let s' := commit_snapshot c in
  let changes := commit_changes c in
  if decide (ss_runtime_id s' ≠ live_runtime_id l) then
    apply_commit c l lin = Some (Err (RuntimeMismatch (live_runtime_id l) (ss_runtime_id s')), lin)
  else if decide (ss_version s' ≠ cs_version changes ∨ ss_point s' ≠ cs_point changes) then
    apply_commit c l lin = Some (Err CommitVersionMismatch, lin)
  else if decide (version_next (live_state_version l) ≠ Some (ss_version s')) then
    apply_commit c l lin =
      Some (Err (NonContiguousStateVersion
                   (default (live_state_version l) (version_next (live_state_version l)))
                   (ss_version s')), lin)
  else
    ∃ d l' lin', apply_commit c l lin = Some (Ok (d, l'), lin') ∧ moved s s' l d l'.
Proof.
  intros Hver Hs Hc Hok Hroom s' changes. unfold s', changes.
  assert (ss_runtime_id (commit_snapshot c) = live_runtime_id l →
    (question (validate_runtime l (commit_snapshot c)) : LiveM ()) lin = Some (Ok (), lin)) as Hvalid.
  { intros Heq. unfold question, validate_runtime. rewrite decide_False; [done|]. by intros []. }
  case_decide as Hr.
  { apply live_bind_err. unfold question, validate_runtime. by rewrite decide_True. }
  case_decide as Hd.
  { unfold apply_commit. rewrite (live_bind_ok _ _ () lin lin) by auto. by rewrite decide_True. }
  case_decide as Hn.
  - unfold apply_commit. rewrite (live_bind_ok _ _ () lin lin) by auto. rewrite decide_False by done.
    destruct (version_next (live_state_version l)) as [v|]; simpl.
    + rewrite (live_bind_ok _ _ v lin lin) by done. rewrite decide_True by congruence. done.
    + by apply live_bind_err.
  - apply Decidable.not_or in Hd as [Hv Hp].
    apply dec_stable in Hv, Hp. by apply (apply_commit_ok s).
Qed.

(** C25: A commit is rejected exactly when it comes from another runtime, its
    snapshot and its changes disagree, or it does not follow the current
    version, in this order and without an effect.  Otherwise it is applied: the
    live graph represents the commit's snapshot, the delta lists exactly the
    pools whose entry differs between the two snapshots, and the graph version
    moves, by one, exactly when a pool's generation or tokens changed. *)
Theorem apply_commit_correct s l c lin :
  versions_counted → snapshot_wf s → commit_ok s c → live_ok s l → version_room l c lin →
  let s' := commit_snapshot c in
  let changes := commit_changes c in
  if decide (ss_runtime_id s' ≠ live_runtime_id l) then
    apply_commit c l lin = Some (Err (RuntimeMismatch (live_runtime_id l) (ss_runtime_id s')), lin)
  else if decide (ss_version s' ≠ cs_version changes ∨ ss_point s' ≠ cs_point changes) then
    apply_commit c l lin = Some (Err CommitVersionMismatch, lin)
  else if decide (version_next (live_state_version l) ≠ Some (ss_version s')) then
    apply_commit c l lin =
      Some (Err (NonContiguousStateVersion
                   (default (live_state_version l) (version_next (live_state_version l)))
                   (ss_version s')), lin)
  else
    ∃ d l' lin', apply_commit c l lin = Some (Ok (d, l'), lin') ∧ moved s s' l d l'.
Proof. exact (apply_commit_cases s l c lin). Qed.

(** ** Following the runtime *)

Lemma moved_liquidity_only s l ix :
  live_ok s l → same_targets layout (live_liquidity l) ix → live_ok s (set_live_liquidity ix l).
Proof.
  intros [H1 H2 H3 H4 H5 H6] Hst. constructor; try done. by eapply agrees_same_targets.
Qed.

(** The runtime's snapshot and the live graph that follows it: by commits, by
    recovering from a newer snapshot, and with the balances seeded, refreshed
    and marked in between. *)
Inductive live_step : AmmStateSnapshot * LiveAmmGraph → AmmStateSnapshot * LiveAmmGraph → Prop :=
  | live_commit s l c lin d l' lin' :
      commit_ok s c → version_room l c lin → apply_commit c l lin = Some (Ok (d, l'), lin') →
      live_step (s, l) (commit_snapshot c, l')
  | live_recover s l s' lin d l' lin' :
      snapshot_wf s' → sources_kept s s' → (lin < u64_max)%Z → (revision (live_version l) < u64_max)%Z →
      reconcile_snapshot s' l lin = Some (Ok (d, l'), lin') → live_step (s, l) (s', l')
  | live_seed s l token holder n l' :
      set_erc20_liquidity_slot token holder (layout token holder) l = Some (n, l') →
      live_step (s, l) (s, l')
  | live_mark s l p token l' :
      mark_liquidity_stale p token l = Some (Ok l') → live_step (s, l) (s, l')
  | live_refresh s l s' r l' :
      refresh_liquidity_from_snapshot s' l = Ok (r, l') → live_step (s, l) (s, l').

(** Two states of one live graph: its lineage stays, its revision only grows,
    and equal versions have equal graphs. *)
Definition live_newer l l' : Prop :=
  live_options l' = live_options l ∧ live_liquidity_scope l' = live_liquidity_scope l ∧
  live_runtime_id l' = live_runtime_id l ∧
  lineage (live_version l') = lineage (live_version l) ∧
  (revision (live_version l) <= revision (live_version l'))%Z ∧
  (revision (live_version l) = revision (live_version l') →
   ∀ k, topology_of (live_indexed l !! k) = topology_of (live_indexed l' !! k)).

Lemma moved_newer s s' l d l' : live_ok s l → moved s s' l d l' → live_newer l l'.
Proof.
  intros Hok [Hok' Ho Hsc Hrt [_ _ _ _ Himp Hgv] Hfrom Hto]. rewrite Hfrom, Hto in Hgv.
  unfold live_newer. split_and!; try done.
  - rewrite Hgv. by case_decide.
  - rewrite Hgv. case_decide; simpl; lia.
  - intros Hrev k. rewrite (lo_indexed _ _ Hok), (lo_indexed _ _ Hok'), Ho.
    apply Himp. rewrite Hgv in Hrev. case_decide; [done|]. simpl in Hrev. lia.
Qed.

Lemma live_step_ok s l s' l' :
  versions_counted → snapshot_wf s → live_ok s l → live_step (s, l) (s', l') →
  snapshot_wf s' ∧ live_ok s' l' ∧ live_newer l l'.
Proof.
  intros Hver Hs Hok Hstep. inversion Hstep as [s1 l1 c lin d l2 lin' Hc Hroom Happ
    |s1 l1 s2 lin d l2 lin' Hs2 Hkept Hlin Hrev Happ|s1 l1 token holder n l2 Hset
    |s1 l1 p token l2 Hmark|s1 l1 s2 r l2 Href]; simplify_eq.
  - pose proof (apply_commit_cases s l c lin Hver Hs Hc Hok Hroom) as Hcases. simpl in Hcases.
    repeat (case_decide; [rewrite Happ in Hcases; done|]).
    destruct Hcases as (d' & l2 & lin2 & Heq & Hmv). rewrite Happ in Heq. simplify_eq.
    split; [apply Hc|]. split; [apply Hmv|by eapply moved_newer].
  - destruct (decide (ss_runtime_id s' = live_runtime_id l)) as [Hrt|Hrt].
    2: { unfold reconcile_snapshot in Happ. erewrite live_bind_err in Happ; [done|].
         unfold question, validate_runtime. by rewrite decide_True. }
    destruct (decide (ss_version s' <= live_state_version l)%Z) as [Hold|Hnew].
    { unfold reconcile_snapshot in Happ. rewrite (live_bind_ok _ _ () lin lin) in Happ.
      2: { unfold question, validate_runtime. rewrite decide_False; [done|]. by intros []. }
      by rewrite decide_True in Happ. }
    destruct (reconcile_ok s s' l lin) as (d' & l2 & Heq & Hmv); try done; [lia|].
    rewrite Happ in Heq. simplify_eq. split; [done|]. split; [apply Hmv|by eapply moved_newer].
  - unfold set_erc20_liquidity_slot in Hset.
    destruct (set_erc20_balance_slot _ _ _ _) as [[n' ix]|] eqn:Heq; simplify_eq/=.
    split; [done|]. split; [|by unfold live_newer; simpl; split_and!].
    apply moved_liquidity_only; [done|]. eapply seeded_same_targets; [apply Hok|exact Heq].
  - unfold mark_liquidity_stale in Hmark.
    destruct (mark_stale _ _ _) as [[ix|]|] eqn:Heq; simplify_eq/=.
    split; [done|]. split; [|by unfold live_newer; simpl; split_and!].
    apply moved_liquidity_only; [done|]. eapply marked_same_targets; [apply Hok|exact Heq].
  - unfold refresh_liquidity_from_snapshot in Href.
    destruct (validate_snapshot l s2); simplify_eq/=.
    pose proof (refreshed_same_targets layout (live_liquidity l) (storage_value (ss_cache s2))) as Hst.
    destruct (refresh_from_snapshot _ _) as [rep ix]. simplify_eq/=.
    split; [done|]. split; [|by unfold live_newer; simpl; split_and!].
    apply moved_liquidity_only; [done|]. apply Hst, Hok.
Qed.

Lemma live_steps_ok s l s' l' :
  versions_counted → rtc live_step (s, l) (s', l') → snapshot_wf s → live_ok s l →
  snapshot_wf s' ∧ live_ok s' l' ∧ live_newer l l'.
Proof.
  intros Hver Hsteps. remember (s, l) as x eqn:Hx. remember (s', l') as y eqn:Hy.
  revert s l Hx. induction Hsteps as [x|x [s1 l1] z Hstep _ IH]; intros s l -> Hs Hok; simplify_eq.
  { split_and!; [done|done|]. unfold live_newer. split_and!; done || lia. }
  destruct (live_step_ok _ _ _ _ Hver Hs Hok Hstep) as (Hs1 & Hok1 & H1 & H2 & H3 & H4 & H5 & H6).
  destruct (IH eq_refl s1 l1 eq_refl Hs1 Hok1) as (Hs2 & Hok2 & G1 & G2 & G3 & G4 & G5 & G6).
  split_and!; [done|done|]. unfold live_newer. split_and!; [congruence..|lia|].
  intros Hrev k. rewrite H6, G6 by lia. done.
Qed.

(** C13: However a live graph got to a snapshot, by commits, recoveries and
    balance updates, it is what a rebuild from that snapshot gives: the same
    pools with the same tokens and generations, the same token nodes and
    connections, and the same liquidity targets; only the graph version
    differs, which keeps the lineage of the first build. *)
Theorem live_graph_agrees_with_rebuild o scope s0 lin0 l0 lin0' s l lin fresh lin' :
  tokens_documented → versions_counted → snapshot_wf s0 →
  from_snapshot_with_liquidity_scope s0 o scope lin0 = Some (Ok l0, lin0') →
  rtc live_step (s0, l0) (s, l) →
  from_snapshot_with_liquidity_scope s o scope lin = Some (Ok fresh, lin') →
  matches_snapshot l s = true ∧ graph_wf (live_graph l) ∧ lineage (live_version l) = lin0 ∧
  live_indexed l = live_indexed fresh ∧
  pool_tokens (live_graph l) = pool_tokens (live_graph fresh) ∧
  dom (node_map (live_graph l)) = dom (node_map (live_graph fresh)) ∧
  (∀ a b p, connected (live_graph l) a b p ↔ connected (live_graph fresh) a b p) ∧
  (∀ p tk, tracked (live_liquidity l) (p, tk) = tracked (live_liquidity fresh) (p, tk)) ∧
  ∀ p tk, is_Some (view (live_liquidity l) (p, tk)) →
    is_two_token_pool (live_liquidity l) p = is_two_token_pool (live_liquidity fresh) p.
Proof.
  intros Hdoc Hver Hs0 Hl0 Hsteps Hfresh.
  destruct (from_snapshot_inv _ _ _ _ _ _ Hdoc Hs0 Hl0) as (Hok0 & Ho0 & Hsc0 & Hv0).
  destruct (live_steps_ok _ _ _ _ Hver Hsteps Hs0 Hok0) as (Hs & Hok & Ho & Hsc & _ & Hlin & _).
  destruct (from_snapshot_inv _ _ _ _ _ _ Hdoc Hs Hfresh) as (Hokf & Hof & Hscf & _).
  assert (live_options l = live_options fresh) as Hopt by congruence.
  assert (pool_tokens (live_graph l) = pool_tokens (live_graph fresh)) as Htok.
  { apply map_eq. intros p. by rewrite (lo_tokens _ _ Hok), (lo_tokens _ _ Hokf), Hopt. }
  assert (liquidity_agrees layout scope (rs_registry (ss_registry s)) (live_graph l)
    (live_liquidity fresh)) as Hagf.
  { pose proof (lo_liquidity _ _ Hokf) as H1. rewrite Hscf in H1.
    eapply agrees_same_tokens; [apply Hokf|apply Hok|..|exact H1]; [| |done];
      (eapply tokens_sorted_of; [apply Hokf || apply Hok]). }
  pose proof (lo_liquidity _ _ Hok) as Hag. rewrite Hsc, Hsc0 in Hag.
  pose proof (agrees_unique _ _ _ _ _ _ Hag Hagf) as Hliq.
  split_and!; try apply Hok; try done.
  - by rewrite Hlin, Hv0.
  - apply map_eq. intros p. by rewrite (lo_indexed _ _ Hok), (lo_indexed _ _ Hokf), Hopt.
  - symmetry. apply same_tokens; [apply Hok|apply Hokf|done].
  - intros a b p. by apply same_connections; [apply Hok|apply Hokf|].
  - intros p tk. apply Hliq.
  - apply Hliq.
Qed.

(** A recovery is rejected exactly for another runtime or a snapshot that
    is not newer; otherwise the live graph represents the new snapshot, however
    many versions it skipped, and the delta is the one between the two. *)
Theorem reconcile_snapshot_correct s s' l lin :
  snapshot_wf s → snapshot_wf s' → sources_kept s s' → live_ok s l →
  (lin < u64_max)%Z → (revision (live_version l) < u64_max)%Z →
  if decide (ss_runtime_id s' ≠ live_runtime_id l) then
    reconcile_snapshot s' l lin = Some (Err (RuntimeMismatch (live_runtime_id l) (ss_runtime_id s')), lin)
  else if decide (ss_version s' <= live_state_version l)%Z then
    reconcile_snapshot s' l lin = Some (Err (StaleSnapshot (live_state_version l) (ss_version s')), lin)
  else ∃ d l', reconcile_snapshot s' l lin = Some (Ok (d, l'), (lin + 1)%Z) ∧ moved s s' l d l'.
Proof.
  intros Hs Hs' Hkept Hok Hlin Hrev. case_decide as Hrt.
  { apply live_bind_err. unfold question, validate_runtime. by rewrite decide_True. }
  case_decide as Hold; [|by apply reconcile_ok; [..|lia|done|done]].
  unfold reconcile_snapshot. rewrite (live_bind_ok _ _ () lin lin).
  - by rewrite decide_True.
  - unfold question, validate_runtime. rewrite decide_False; [done|]. by intros [].
Qed.

(** ** The last graph version *)

(** At the last version a delta that keeps the tokens of its pool leaves the
    topology; any other one panics. *)
Lemma apply_delta_exhausted s o (g : AmmGraph) x lin :
  snapshot_wf s → graph_wf g → (u64_max <= revision (version g))%Z →
  delta_after x = searchable_pool o s (delta_pool x) →
  if decide (pool_tokens g !! delta_pool x = ip_tokens <$> delta_after x) then
    ∃ g', apply_delta s o g x lin = Some (Ok g', lin) ∧ graph_wf g' ∧ version g' = version g ∧
      pool_tokens g' = pool_tokens g
  else apply_delta s o g x lin = None.
Proof.
  intros Hs Hwf Hr Hx.
  assert (GraphVersion_next (version g) = None) as Hnext.
  { unfold GraphVersion_next, GraphVersion_checked_next, u64_checked_add.
    by rewrite decide_False by lia. }
  unfold apply_delta. destruct (delta_after x) as [y|]; simpl.
  - symmetry in Hx. apply searchable_Some in Hx as (i & r & rev & ts & Ha & Hts & ->).
    apply active_pool_Some in Ha as (Hi & Hreg & _); [|done]. simpl.
    pose proof Hreg as Hkey. apply (registry_pool_spec _ (sw_registry _ Hs)) in Hkey as [_ Hkey].
    rewrite (live_bind_ok _ _ r lin lin) by (unfold question; by rewrite (sw_pool _ Hs _ _ Hi), Hreg).
    destruct (apply_pool_refines r o g Hwf) as (g' & Heq & Hwf' & Htok & Hv & _).
    unfold apply_spec in Heq, Htok. rewrite Hts, Hkey in Heq, Htok.
    unfold version_after in Heq. destruct (pool_tokens g !! delta_pool x) as [old|].
    + destruct (decide (old = ts)) as [->|Hne]; simpl in Heq, Htok.
      * rewrite decide_True by done. exists (set_version (version g) g').
        rewrite (live_bind_ok _ _ (MutUnchanged, set_version (version g) g') lin lin)
          by (by apply may_panic_some).
        split_and!; [done|by apply graph_wf_set_version|done|done].
      * rewrite decide_False by congruence. apply live_bind_panic.
        unfold may_panic. by rewrite Heq, Hnext.
    + rewrite decide_False by done. apply live_bind_panic. unfold may_panic. simpl in Heq.
      by rewrite Heq, Hnext.
  - pose proof (remove_pool_compacting_spec (delta_pool x) g Hwf) as Hspec.
    destruct (pool_tokens g !! delta_pool x) as [ts|].
    + destruct Hspec as (g' & Heq & _). rewrite decide_False by done. apply live_bind_panic.
      unfold may_panic. by rewrite Heq, Hnext.
    + rewrite decide_True by done. exists g.
      rewrite (live_bind_ok _ _ (MutUnchanged, g) lin lin) by (by apply may_panic_some). done.
Qed.

Lemma fold_deltas_exhausted s o deltas (g : AmmGraph) lin :
  snapshot_wf s → graph_wf g → (u64_max <= revision (version g))%Z →
  (∀ x, x ∈ deltas → delta_after x = searchable_pool o s (delta_pool x)) →
  (∃ x, x ∈ deltas ∧ pool_tokens g !! delta_pool x ≠ ip_tokens <$> delta_after x) →
  fold_live (apply_delta s o) deltas g lin = None.
Proof.
  intros Hs. revert g. induction deltas as [|x deltas IH]; intros g Hwf Hr Hd (y & Hy & Hne).
  { set_solver. }
  cbn [fold_live]. pose proof (apply_delta_exhausted s o g x lin Hs Hwf Hr (Hd x ltac:(left))) as Hx.
  case_decide as Heq; [|by apply live_bind_panic].
  destruct Hx as (g' & Happ & Hwf' & Hv & Htok). rewrite (live_bind_ok _ _ g' lin lin) by done.
  apply IH; [done|by rewrite Hv|intros; apply Hd; by right|].
  exists y. apply elem_of_cons in Hy as [->|Hy]; [done|]. by rewrite Htok.
Qed.

(** A full refresh checks the version it moves to. *)
Lemma reconcile_exhausted s s' l lin k :
  snapshot_wf s' → live_ok s l → ss_runtime_id s' = live_runtime_id l →
  (live_state_version l < ss_version s')%Z → (lin < u64_max)%Z →
  (u64_max <= revision (live_version l))%Z →
  ip_tokens <$> searchable_pool (live_options l) s k ≠ ip_tokens <$> searchable_pool (live_options l) s' k →
  reconcile_snapshot s' l lin = Some (Err GraphVersionExhausted, (lin + 1)%Z).
Proof.
  intros Hs' [Hsnap Hwf Hno Htok Hix Hliq] Hrt Hnew Hlin Hrev Hk. unfold reconcile_snapshot.
  rewrite (live_bind_ok _ _ () lin lin)
    by (unfold question, validate_runtime; by rewrite decide_False by (intros Hne; by apply Hne)).
  rewrite decide_False by lia.
  destruct (indexed_from_snapshot_spec (live_options l) s' Hs') as (m & Hm & Hix').
  rewrite (live_bind_ok _ _ m lin lin) by (unfold question; by rewrite Hm).
  unfold replace_from_snapshot.
  destruct (build_graph_ok (live_options l) s' lin Hs' Hlin) as (g' & Hg & _).
  rewrite (live_bind_ok _ _ g' lin (lin + 1)) by done.
  assert (semantic_index_changed (live_indexed l) m = true) as ->.
  { rewrite semantic_index_changed_spec. exists k. rewrite Hix, Hix'. intros Heq. apply Hk.
    unfold topology_of in Heq. destruct (searchable_pool _ s k), (searchable_pool _ s' k); simplify_eq/=; congruence. }
  assert (GraphVersion_checked_next (version (live_graph l)) = None) as ->.
  { unfold GraphVersion_checked_next, u64_checked_add. unfold live_version in Hrev.
    by rewrite decide_False by lia. }
  done.
Qed.

(** C37: At the last graph version a commit that changes the tokens of a pool
    panics inside the graph, before the check that would return
    [GraphVersionExhausted]; only a commit that requires a full refresh, which
    makes that check first, is refused with this error (given that the lineages
    are not used up either and that snapshot versions are counted up). *)
Theorem exhausted_version_panics s l c lin k :
  snapshot_wf s → commit_ok s c → live_ok s l →
  ss_runtime_id (commit_snapshot c) = live_runtime_id l →
  ss_version (commit_snapshot c) = cs_version (commit_changes c) →
  ss_point (commit_snapshot c) = cs_point (commit_changes c) →
  version_next (live_state_version l) = Some (ss_version (commit_snapshot c)) →
  (u64_max <= revision (live_version l))%Z →
  ip_tokens <$> searchable_pool (live_options l) s k ≠
    ip_tokens <$> searchable_pool (live_options l) (commit_snapshot c) k →
  if cs_requires_full_refresh (commit_changes c) then
    versions_counted → (lin < u64_max)%Z →
    apply_commit c l lin = Some (Err GraphVersionExhausted, (lin + 1)%Z)
  else apply_commit c l lin = None.
Proof.
  intros Hs [Hs' Hcomplete Hkept] Hok Hrt Hv Hp Hnext Hrev Hk. pose proof Hok as [Hsnap Hwf Hno Htok Hix Hliq].
  unfold apply_commit. rewrite (live_bind_ok _ _ () lin lin)
    by (unfold question, validate_runtime; by rewrite decide_False by (intros Hne; by apply Hne)).
  rewrite decide_False by tauto.
  rewrite (live_bind_ok _ _ (ss_version (commit_snapshot c)) lin lin)
    by (unfold question; by rewrite Hnext).
  rewrite decide_False by (intros Hne; by apply Hne).
  unfold apply_snapshot_changes. destruct (cs_requires_full_refresh (commit_changes c)).
  { intros Hver Hlin. apply (reconcile_exhausted s _ _ _ k); try done. apply Hver in Hnext. lia. }
  set (keys := btree_keys _). set (o := live_options l) in *.
  rewrite (classify_changes_spec (commit_snapshot c) l keys ImpactUnchanged []) by done. fold o.
  set (impact := foldl _ _ _). cbn [app]. set (deltas := changed_entries _ _ keys).
  rewrite (live_bind_ok _ _ (impact, deltas) lin lin) by done.
  assert (k ∈ keys) as Hkeys.
  { unfold keys. rewrite elem_of_btree_keys, elem_of_list_to_set.
    destruct (decide (k ∈ changed_pools (commit_changes c))) as [|Hn]; [done|].
    destruct Hk. unfold searchable_pool. by rewrite (Hcomplete k Hn). }
  assert (impact ≠ ImpactUnchanged) as Himp.
  { unfold impact. rewrite fold_impact_unchanged. intros [_ Hall]. specialize (Hall k Hkeys).
    rewrite change_impact_unchanged, Hix in Hall. apply Hk. unfold topology_of in Hall.
    destruct (searchable_pool o s k), (searchable_pool o (commit_snapshot c) k); simplify_eq/=; congruence. }
  rewrite decide_False by done. apply live_bind_panic. apply fold_deltas_exhausted; try done.
  - intros x Hx. by apply elem_of_changed_entries in Hx as (_ & _ & ? & _).
  - exists {| delta_pool := k; delta_before := searchable_pool o s k;
              delta_after := searchable_pool o (commit_snapshot c) k |}. simpl. split; [|by rewrite Htok].
    apply elem_of_changed_entries. simpl. rewrite Hix. split_and!; [done..|]. congruence.
Qed.
End theorems.
