(* ===== verification/LiveView.v ===== *)
(** * Searching a live graph ([LiveSearchView], [AmmSearcher::from_snapshot])

    A view captures a snapshot with the live graph that represents it; the
    searcher it gives quotes the snapshot's pools on overlays of its cache.  The
    theorem composes the live graph with the search: a search on a view is a
    search on what the snapshot describes. *)

From S2P Require Import Prelude AmmState Petgraph Graph GraphInv GraphProps GraphTheorems Config.
From S2P Require Import SearchTypes Enumerate EnumerateProps EnumerateTheorems Liquidity QuoteCache.
From S2P Require Import QuoteCacheProps Quote QuoteProps Searcher SearchTheorems LiveState LiveGraph.
From S2P Require Import LiveGraphProps LiveGraphTheorems.

Section view.
Context `{!AmmTypes} `{!AmmLive} `{!Petgraph Address EdgeData}.

Definition live_quote_context (s : AmmStateSnapshot) : QuoteKeyContext :=
  ContextLive (ss_point s) (rs_pool_instance (ss_registry s)) (ss_pool_revision s).

Record LiveSearchView := {
  lv_snapshot : AmmStateSnapshot;
  lv_graph : AmmGraph;
  lv_liquidity : PoolLiquidityIndex;
  lv_quote_context : QuoteKeyContext;
}.

Definition LiveSearchView_new (s : AmmStateSnapshot) (l : LiveAmmGraph) :
    result SearchError LiveSearchView :=
  if negb (matches_snapshot l s) then Err ErrSnapshotGraphMismatch
  else Ok {| lv_snapshot := s; lv_graph := live_graph l; lv_liquidity := live_liquidity l;
             lv_quote_context := live_quote_context s |}.

Definition view_searcher (v : LiveSearchView) : AmmSearcher :=
  {| as_registry := rs_registry (ss_registry (lv_snapshot v)); as_graph := lv_graph v;
     as_liquidity_index := Some (lv_liquidity v); as_quote_context := lv_quote_context v;
     as_snapshot_cache := Some (ss_cache (lv_snapshot v)) |}.

Definition AmmSearcher_from_snapshot (s : AmmStateSnapshot) (l : LiveAmmGraph) :
    result SearchError AmmSearcher :=
  if negb (matches_snapshot l s) then Err ErrSnapshotGraphMismatch
  else Ok {| as_registry := rs_registry (ss_registry s); as_graph := live_graph l;
             as_liquidity_index := None; as_quote_context := live_quote_context s;
             as_snapshot_cache := Some (ss_cache s) |}.
End view.

Section theorems.
Context `{!AmmTypes} `{!AmmLive} `{!Petgraph Address EdgeData} `{!PetgraphLaws Address EdgeData}.
Context (layout : Address → Address → U256).
Implicit Types (s : AmmStateSnapshot) (l : LiveAmmGraph) (g : AmmGraph).

(** A state reference names its pool's instance. *)
Definition state_refs_named : Prop :=
  ∀ i rev point, state_ref_pool (PoolStateRef_new i rev point) = i.

Lemma live_scope_inj s :
  state_refs_named → snapshot_wf s → scope_inj (live_quote_context s).
Proof.
  intros Hnamed Hs p p' r. unfold live_quote_context, pool_scope.
  rewrite !ok_or_Ok. intros Hp Hp'.
  destruct (rs_pool_instance (ss_registry s) p) as [i|] eqn:Hi; [|done].
  destruct (rs_pool_instance (ss_registry s) p') as [i'|] eqn:Hi'; [|done].
  cbn [mbind option_bind] in *. destruct (ss_pool_revision s i); [|done].
  destruct (ss_pool_revision s i'); [|done]. simpl in *. simplify_eq.
  apply (sw_instance _ Hs) in Hi, Hi'.
  match goal with H : PoolStateRef_new _ _ _ = PoolStateRef_new _ _ _ |- _ =>
    apply (f_equal state_ref_pool) in H; rewrite !Hnamed in H end. congruence.
Qed.

(** Routes depend on the pools and tokens of the graph only. *)
Lemma valid_route_tokens g g' ti to config cycle path :
  pool_tokens g = pool_tokens g' →
  valid_route g ti to config cycle path → valid_route g' ti to config cycle path.
Proof.
  intros Htok (prefix & cur & h & -> & [? Hsw ? ? ? ?] & ? & ? & Hh & ? & ? & ?).
  assert (∀ h, swap_of g h → swap_of g' h) as Hswap by (intros ?; unfold swap_of; by rewrite Htok).
  exists prefix, cur, h. split_and!; try tauto; [|by apply Hswap].
  constructor; try done. eapply Forall_impl; [exact Hsw|]. exact Hswap.
Qed.

Lemma optimal_tokens a a' sim ti to amount config cfg cycle res :
  as_registry a = as_registry a' → as_quote_context a = as_quote_context a' →
  pool_tokens (as_graph a) = pool_tokens (as_graph a') →
  optimal a sim ti to amount config cfg cycle res → optimal a' sim ti to amount config cfg cycle res.
Proof.
  intros Hreg Hctx Htok.
  assert (∀ p, valid_route (as_graph a) ti to config cycle p ↔ valid_route (as_graph a') ti to config cycle p)
    as Hv by (intros p; split; apply valid_route_tokens; congruence).
  unfold optimal. rewrite Hreg, Hctx. destruct res as [quotes|[]]; try done.
  - intros (?&?&?&Hq). split_and!; try done. intros q. rewrite Hq. by setoid_rewrite Hv.
  - intros (?&?&Hn). split_and!; try done. intros p. by rewrite <-Hv.
  - intros (?&?&?&Hn&?). split_and!; try done. intros p. by rewrite <-Hv.
Qed.

Lemma node_index_tokens g g' t :
  no_orphans g → no_orphans g' → pool_tokens g = pool_tokens g' →
  is_Some (node_index g' t) → is_Some (node_index g t).
Proof.
  intros Hno Hno' Htok Ht. unfold node_index in *. rewrite <-elem_of_dom in *.
  by rewrite (same_tokens g' g).
Qed.

(** C14: A search on a view of a live graph is a search on a rebuild from the
    current snapshot: a view is refused for any other snapshot, and exhaustive
    search on it returns (the quotes, or the error) exactly what the routes of
    the rebuilt graph and the snapshot's pools demand, without touching the
    caller's cache. *)
Theorem live_search_agrees_with_rebuild o scope s0 lin0 l0 lin0' s l lin fresh lin' v' Inv sim cache
    (r : RouteRequest) :
  tokens_documented → versions_counted → state_refs_named → snapshot_wf s0 →
  from_snapshot_with_liquidity_scope s0 o scope lin0 = Some (Ok l0, lin0') →
  rtc (live_step layout) (s0, l0) (s, l) →
  from_snapshot_with_liquidity_scope s o scope lin = Some (Ok fresh, lin') →
  LiveSearchView_new s fresh = Ok v' →
  simulates (rs_registry (ss_registry s)) Inv sim → Inv cache → Inv (ss_cache s) →
  complete_search (rr_config r) →
  is_Some (node_index (live_graph fresh) (token_in r)) →
  is_Some (node_index (live_graph fresh) (token_out r)) →
  (∀ s', matches_snapshot l s' = false → LiveSearchView_new s' l = Err ErrSnapshotGraphMismatch) ∧
  ∃ v res, LiveSearchView_new s l = Ok v ∧
    find_routes (view_searcher v) r cache = Some (res, cache) ∧
    optimal (view_searcher v') sim (token_in r) (token_out r) (rr_amount_in r) (rr_config r)
      (rr_sim_config r) false res.
Proof.
  intros Hdoc Hver Hnamed Hs0 Hl0 Hsteps Hfresh Hv' Hsim Hc Hsc Hconf Hin Hout.
  destruct (from_snapshot_inv layout _ _ _ _ _ _ Hdoc Hs0 Hl0) as (Hok0 & Ho0 & _).
  destruct (live_steps_ok layout _ _ _ _ Hver Hsteps Hs0 Hok0) as (Hs & Hok & Ho & _).
  destruct (from_snapshot_inv layout _ _ _ _ _ _ Hdoc Hs Hfresh) as (Hokf & Hof & _).
  assert (pool_tokens (live_graph l) = pool_tokens (live_graph fresh)) as Htok.
  { apply map_eq. intros p. rewrite (lo_tokens _ _ _ Hok), (lo_tokens _ _ _ Hokf). congruence. }
  split; [intros s' Hm; unfold LiveSearchView_new; by rewrite Hm|].
  unfold LiveSearchView_new in *. rewrite (lo_snapshot _ _ _ Hokf) in Hv'. simplify_eq/=.
  rewrite (lo_snapshot _ _ _ Hok). cbn [negb].
  set (v := {| lv_snapshot := s; lv_graph := live_graph l; lv_liquidity := live_liquidity l;
               lv_quote_context := live_quote_context s |}). exists v.
  assert (search_env (view_searcher v) Inv sim cache) as Henv.
  { constructor; [exact Hsim|by apply live_scope_inj|apply Hok|done|by intros ? [= <-]]. }
  assert (∀ t, is_Some (node_index (live_graph fresh) t) → is_Some (node_index (live_graph l) t)) as Hnode.
  { intros t. apply node_index_tokens; [apply Hok|apply Hokf|done]. }
  apply Hnode in Hin as [source Hsource]. apply Hnode in Hout as [target Htarget].
  destruct (searched_optimal_env (view_searcher v) Inv sim cache _ _ (rr_amount_in r) _
    (rr_sim_config r) false source target Henv Hconf Hsource Htarget) as (res & Hres & Hopt).
  destruct (find_routes_answers (view_searcher v) Inv sim cache r res Henv) as (c' & Hfind & _ & Hcache);
    [by eapply searched_answers; [|apply Hconf|]|].
  exists res. split_and!; [done| |].
  - rewrite Hfind. by rewrite Hcache.
  - by eapply optimal_tokens; [..|exact Hopt].
Qed.
End theorems.
