(* ===== verification/GraphIndex.v ===== *)
(** * The request-path index of the graph ([sidecar/src/graph_index.rs])

    The HTTP service admits requests by counters and token membership it keeps
    beside the live graph: built once from a graph, then moved by the deltas
    the live runtime publishes, without scanning the graph again.  A delta is
    applied to scratch maps first, so that an error leaves the index as it was. *)

From S2P Require Import Prelude AmmState Petgraph Graph LiveState LiveGraph.

(** ** Machine arithmetic of the counters *)

(** [+= 1] on [usize] in a release build. *)
Definition usize_increment (x : Z) : Z := ((x + 1) mod 2 ^ 64)%Z.
Definition usize_checked_add (x y : Z) : option Z :=
  if decide (x + y <= usize_max)%Z then Some (x + y)%Z else None.
Definition usize_checked_sub (x y : Z) : option Z :=
  if decide (y <= x)%Z then Some (x - y)%Z else None.
Definition usize_checked_mul (x y : Z) : option Z :=
  if decide (x * y <= usize_max)%Z then Some (x * y)%Z else None.
Definition usize_saturating_sub (x y : Z) : Z := Z.max 0 (x - y).

(** ** Data *)

Inductive GraphIndexError : Type :=
  | NonContiguous (expected actual : AmmStateVersion)
  | IncoherentPool (pool : string)
  | VersionExhausted
  | EdgeCountOverflow
  | TokenPoolCountOverflow.

Record GraphStats := {
  gs_tokens : nat;
  gs_edges : Z;
  gs_pools : nat;
  gs_token_present : bool;
  gs_token_pools : Z;
}.

Inductive TokenCountChange : Type := CountAdd | CountRemove.

Definition index_directed_edge_count (tokens : nat) : result GraphIndexError Z :=
  ok_or (usize_checked_mul (Z.of_nat tokens) (usize_saturating_sub (Z.of_nat tokens) 1))
    EdgeCountOverflow.

(** [as_slice().cmp] on addresses is the order of the words. *)
Definition canonical_tokens (tokens : gset Address) : list Address :=
  stable_sort address_le (elements tokens).
Definition canonical_token_slice (tokens : list Address) : list Address :=
  dedup (stable_sort address_le tokens).

Section index.
Context `{!AmmTypes} `{!AmmLive} `{!Petgraph Address EdgeData}.
(** [Display] of an address. *)
Context (address_display : Address → string).

Record GraphIndex := {
  gi_state_version : AmmStateVersion;
  gi_edges : Z;
  gi_pool_tokens : gmap PoolKey (list Address);
  gi_token_pools : gmap Address Z;
}.

(** ** Building *)

(** The body of the loop over [edge_references]. *)
Definition collect_edge_tokens (g : AmmGraph) (tokens_by_pool : gmap PoolKey (gset Address))
    (edge : NodeIndex * NodeIndex * EdgeData) : gmap PoolKey (gset Address) :=
  let '(source, target, weight) := edge in
  entry_or_default ∅ (λ tokens,
    let tokens := match node_token g source with
                  | Some token => {[token]} ∪ tokens
                  | None => tokens
                  end in
    match node_token g target with
    | Some token => {[token]} ∪ tokens
    | None => tokens
    end) (ed_pool weight) tokens_by_pool.

(** The live edges, in the order of their indices. *)
Definition edge_references (g : AmmGraph) : list (NodeIndex * NodeIndex * EdgeData) :=
  omap (pg_edge (graph g)) (pg_edge_indices (graph g)).

Definition token_pool_counts (pool_tokens : gmap PoolKey (list Address)) : gmap Address Z :=
  foldl (λ counts tokens,
    foldl (λ counts token, entry_or_default 0%Z usize_increment token counts) counts tokens)
    ∅ (map_to_list pool_tokens).*2.

Definition from_graph (g : AmmGraph) (state_version : AmmStateVersion) : GraphIndex :=
  let tokens_by_pool := foldl (collect_edge_tokens g) ∅ (edge_references g) in
  let pool_tokens := canonical_tokens <$> tokens_by_pool in
  {| gi_state_version := state_version; gi_edges := Z.of_nat (edge_count g);
     gi_pool_tokens := pool_tokens; gi_token_pools := token_pool_counts pool_tokens |}.

Definition reconcile_graph (g : AmmGraph) (state_version : AmmStateVersion) (_ : GraphIndex) :
    GraphIndex :=
  from_graph g state_version.

(** ** Applying a delta *)

(** [next] holds the counts that changed, [current] the others. *)
Fixpoint update_token_counts (current next : gmap Address Z) (tokens : list Address)
    (change : TokenCountChange) : result GraphIndexError (gmap Address Z) :=
  match tokens with
  | [] => Ok next
  | token :: tokens =>
      let count := default (default 0%Z (current !! token)) (next !! token) in
      count ← match change with
              | CountAdd => ok_or (usize_checked_add count 1) TokenPoolCountOverflow
              | CountRemove => ok_or (usize_checked_sub count 1)
                  (IncoherentPool ("token " +:+ address_display token))
              end;
      update_token_counts current (<[token := count]> next) tokens change
  end.

(** What the loop over the changes has so far: the edge count, the pools and
    the token counts that differ from the index's. *)
Record Scratch := {
  next_edges : Z;
  next_pools : gmap PoolKey (option (list Address));
  next_token_counts : gmap Address Z;
}.

Definition remove_before (ix : GraphIndex) (pool : PoolKey) (before : option (list Address))
    (s : Scratch) : result GraphIndexError Scratch :=
  match before with
  | None => Ok s
  | Some before =>
      count ← index_directed_edge_count (length before);
      edges ← ok_or (usize_checked_sub (next_edges s) count) (IncoherentPool (pool_debug pool));
      counts ← update_token_counts (gi_token_pools ix) (next_token_counts s) before CountRemove;
      Ok {| next_edges := edges; next_pools := next_pools s; next_token_counts := counts |}
  end.

Definition add_after (ix : GraphIndex) (after : option (list Address)) (s : Scratch) :
    result GraphIndexError Scratch :=
  match after with
  | None => Ok s
  | Some after =>
      count ← index_directed_edge_count (length after);
      edges ← ok_or (usize_checked_add (next_edges s) count) EdgeCountOverflow;
      counts ← update_token_counts (gi_token_pools ix) (next_token_counts s) after CountAdd;
      Ok {| next_edges := edges; next_pools := next_pools s; next_token_counts := counts |}
  end.

(** The body of the loop over the changes of a delta. *)
Definition apply_pool_change (ix : GraphIndex) (s : Scratch) (change : GraphPoolDelta) :
    result GraphIndexError Scratch :=
  let pool := delta_pool change in
  let current := default (gi_pool_tokens ix !! pool) (next_pools s !! pool) in
  let before := canonical_token_slice ∘ ip_tokens <$> delta_before change in
  if decide (current ≠ before) then Err (IncoherentPool (pool_debug pool))
  else
    s ← remove_before ix pool before s;
    let after := canonical_token_slice ∘ ip_tokens <$> delta_after change in
    s ← add_after ix after s;
    Ok {| next_edges := next_edges s; next_pools := <[pool := after]> (next_pools s);
          next_token_counts := next_token_counts s |}.

Fixpoint apply_pool_changes (ix : GraphIndex) (s : Scratch) (changes : list GraphPoolDelta) :
    result GraphIndexError Scratch :=
  match changes with
  | [] => Ok s
  | change :: changes => s ← apply_pool_change ix s change; apply_pool_changes ix s changes
  end.

(** The two loops that write the scratch maps into the index. *)
Definition commit_pool (pools : gmap PoolKey (list Address))
    (change : PoolKey * option (list Address)) : gmap PoolKey (list Address) :=
  match change.2 with
  | Some tokens => <[change.1 := tokens]> pools
  | None => delete change.1 pools
  end.
Definition commit_count (counts : gmap Address Z) (change : Address * Z) : gmap Address Z :=
  if decide (change.2 = 0%Z) then delete change.1 counts else <[change.1 := change.2]> counts.

(** [Ok false] is a delta the index already represents. *)
Definition index_apply_delta (delta : GraphDelta) (ix : GraphIndex) :
    result GraphIndexError (bool * GraphIndex) :=
  let actual := source_state_version delta in
  if decide (actual <= gi_state_version ix)%Z then Ok (false, ix)
  else
    expected ← ok_or (u64_checked_add (gi_state_version ix) 1) VersionExhausted;
    if decide (actual ≠ expected) then Err (NonContiguous expected actual)
    else
      s ← apply_pool_changes ix
            {| next_edges := gi_edges ix; next_pools := ∅; next_token_counts := ∅ |}
            (pool_changes delta);
      Ok (true,
        {| gi_state_version := actual; gi_edges := next_edges s;
           gi_pool_tokens := foldl commit_pool (gi_pool_tokens ix) (map_to_list (next_pools s));
           gi_token_pools :=
             foldl commit_count (gi_token_pools ix) (map_to_list (next_token_counts s)) |}).

(** ** Reading *)

Definition stats (token : option Address) (ix : GraphIndex) : GraphStats :=
  {| gs_tokens := size (gi_token_pools ix); gs_edges := gi_edges ix;
     gs_pools := size (gi_pool_tokens ix);
     gs_token_present := match token with
                         | Some token => bool_decide (is_Some (gi_token_pools ix !! token))
                         | None => false
                         end;
     gs_token_pools := default 0%Z (token ≫= λ token, gi_token_pools ix !! token) |}.

(** ** The cache and its updater ([sidecar/src/node.rs])

    One iteration of the updater's loop for a commit event: an index that
    rejects the delta is rebuilt from the current state, [rebuilt] being what
    [graph_index_from_amm] returns then. *)

Record GraphIndexCache := {
  gc_index : GraphIndex;
  gc_versions : AmmStateVersion;
}.

Definition cache_from_index (ix : GraphIndex) : GraphIndexCache :=
  {| gc_index := ix; gc_versions := gi_state_version ix |}.

(** [graph_index_from_amm], from the runtime's latest snapshot. *)
Definition graph_index_from_amm (snapshot : AmmStateSnapshot) : LiveM GraphIndex :=
  live ← from_snapshot snapshot GraphBuildOptions_default;
  mret (from_graph (live_graph live) (ss_version snapshot)).

(** [rebuild_from_amm]: an error leaves the cache as it was. *)
Definition rebuild_from_amm (rebuilt : result LiveGraphError GraphIndex) (c : GraphIndexCache) :
    GraphIndexCache :=
  match rebuilt with
  | Ok next => cache_from_index next
  | Err _ => c
  end.

Definition on_commit_applied (delta : GraphDelta) (rebuilt : result LiveGraphError GraphIndex)
    (c : GraphIndexCache) : GraphIndexCache :=
  match index_apply_delta delta (gc_index c) with
  | Ok (true, ix) => {| gc_index := ix; gc_versions := source_state_version delta |}
  | Ok (false, ix) => {| gc_index := ix; gc_versions := gc_versions c |}
  | Err _ => rebuild_from_amm rebuilt c
  end.

(** What the updater's loop receives; a lagged observer has lost events. *)
Inductive UpdaterEvent : Type :=
  | CommitApplied (delta : GraphDelta) (rebuilt : result LiveGraphError GraphIndex)
  | Lagged (rebuilt : result LiveGraphError GraphIndex).

Definition on_event (c : GraphIndexCache) (event : UpdaterEvent) : GraphIndexCache :=
  match event with
  | CommitApplied delta rebuilt => on_commit_applied delta rebuilt c
  | Lagged rebuilt => rebuild_from_amm rebuilt c
  end.
End index.
