(* ===== verification/GraphIndexProps.v ===== *)
(** * What the request-path index holds

    An index represents a table of pools and their tokens: its counters are
    sums over the table.  Building it from a graph gives the index of the
    graph's table, and applying a delta moves it to the table after the delta. *)

From S2P Require Import Prelude AmmState Petgraph Graph GraphPairs GraphInv GraphProps GraphTheorems.
From S2P Require Import LiveState LiveGraph GraphIndex.

(** ** Sums over a table of pools *)

Section weight.
Context `{Countable K}.
Implicit Types (m : gmap K (list Address)) (f h : list Address → Z).

Definition weight f m : Z := map_fold (λ _ ts n, (f ts + n)%Z) 0%Z m.

Lemma weight_empty f : weight f ∅ = 0%Z.
Proof. apply map_fold_empty. Qed.

Lemma weight_insert f m k ts : m !! k = None → weight f (<[k := ts]> m) = (f ts + weight f m)%Z.
Proof.
  intros Hk. unfold weight. rewrite map_fold_insert_L; [done| |done].
  intros. simpl. lia.
Qed.

Lemma weight_delete f m k ts : m !! k = Some ts → weight f m = (f ts + weight f (delete k m))%Z.
Proof.
  intros Hk. rewrite <-(insert_delete_id m k ts) at 1 by done.
  apply weight_insert, lookup_delete_eq.
Qed.

Lemma weight_nonneg f m : (∀ k ts, m !! k = Some ts → 0 <= f ts)%Z → (0 <= weight f m)%Z.
Proof.
  induction m as [|k ts m Hk IH] using map_ind; intros Hf; [by rewrite weight_empty|].
  rewrite weight_insert by done. assert (0 <= f ts)%Z by (apply (Hf k), lookup_insert_eq).
  assert (0 <= weight f m)%Z; [|lia]. apply IH. intros q us Hq. apply (Hf q).
  rewrite lookup_insert_ne; [done|]. by intros ->; simplify_eq.
Qed.

Lemma weight_le f h m :
  (∀ k ts, m !! k = Some ts → f ts <= h ts)%Z → (weight f m <= weight h m)%Z.
Proof.
  induction m as [|k ts m Hk IH] using map_ind; intros Hf; [by rewrite !weight_empty|].
  rewrite !weight_insert by done. assert (f ts <= h ts)%Z by (apply (Hf k), lookup_insert_eq).
  assert (weight f m <= weight h m)%Z; [|lia]. apply IH. intros q us Hq. apply (Hf q).
  rewrite lookup_insert_ne; [done|]. by intros ->; simplify_eq.
Qed.

Lemma weight_member f m k ts :
  (∀ k ts, m !! k = Some ts → 0 <= f ts)%Z → m !! k = Some ts → (f ts <= weight f m)%Z.
Proof.
  intros Hf Hk. rewrite (weight_delete f m k ts) by done.
  assert (0 <= weight f (delete k m))%Z; [|lia]. apply weight_nonneg.
  intros q us [_ Hq]%lookup_delete_Some. eauto.
Qed.

(** A table that takes every entry from one of two tables weighs no more than both. *)
Lemma weight_mix f m m1 m2 :
  (∀ k ts, m1 !! k = Some ts → 0 <= f ts)%Z → (∀ k ts, m2 !! k = Some ts → 0 <= f ts)%Z →
  (∀ k ts, m !! k = Some ts → m1 !! k = Some ts ∨ m2 !! k = Some ts) →
  (weight f m <= weight f m1 + weight f m2)%Z.
Proof.
  revert m1 m2. induction m as [|k ts m Hk IH] using map_ind; intros m1 m2 H1 H2 Hm.
  { rewrite weight_empty. pose proof (weight_nonneg f m1 H1). pose proof (weight_nonneg f m2 H2). lia. }
  assert (∀ q us, m !! q = Some us → q ≠ k ∧ (m1 !! q = Some us ∨ m2 !! q = Some us)) as Hrest.
  { intros q us Hq. assert (q ≠ k) by (by intros ->; simplify_eq). split; [done|].
    apply Hm. by rewrite lookup_insert_ne. }
  rewrite weight_insert by done.
  destruct (Hm k ts (lookup_insert_eq _ _ _)) as [Hin|Hin];
    [rewrite (weight_delete f m1 k ts) by done|rewrite (weight_delete f m2 k ts) by done].
  - assert (weight f m <= weight f (delete k m1) + weight f m2)%Z; [|lia]. apply IH; [|done|].
    + intros q us [_ Hq]%lookup_delete_Some. eauto.
    + intros q us [Hne Hq]%Hrest. rewrite lookup_delete_ne; naive_solver.
  - assert (weight f m <= weight f m1 + weight f (delete k m2))%Z; [|lia]. apply IH; [done|..].
    + intros q us [_ Hq]%lookup_delete_Some. eauto.
    + intros q us [Hne Hq]%Hrest. rewrite (lookup_delete_ne m2); naive_solver.
Qed.

Lemma weight_sum f m :
  weight f m = foldr (λ ts n, (f ts + n)%Z) 0%Z (map_to_list m).*2.
Proof.
  unfold weight. rewrite map_fold_foldr. generalize (map_to_list m). intros l.
  induction l as [|[k ts] l IH]; [done|]. csimpl. by rewrite IH.
Qed.
End weight.

(** The directed edges of a pool, and whether it has a token. *)
Definition pool_edge_count (ts : list Address) : Z :=
  (Z.of_nat (length ts) * (Z.of_nat (length ts) - 1))%Z.
Definition has_token (t : Address) (ts : list Address) : Z := if decide (t ∈ ts) then 1%Z else 0%Z.

(** A table of pools: sorted lists of at least two tokens. *)
Definition table_ok `{Countable K} (m : gmap K (list Address)) : Prop :=
  ∀ k ts, m !! k = Some ts → StronglySorted Z.lt ts ∧ 2 ≤ length ts.

Section tables.
Context `{Countable K}.
Implicit Types (m : gmap K (list Address)).

Lemma pool_edge_count_pos ts : 2 ≤ length ts → (2 <= pool_edge_count ts)%Z.
Proof. unfold pool_edge_count. nia. Qed.

Lemma table_nonneg m : table_ok m → ∀ k ts, m !! k = Some ts → (0 <= pool_edge_count ts)%Z.
Proof. intros Hm k ts Hk. destruct (Hm k ts Hk) as [_ Hl]. pose proof (pool_edge_count_pos ts Hl). lia. Qed.

Lemma has_token_bounds t ts : (0 <= has_token t ts <= 1)%Z.
Proof. unfold has_token. case_decide; lia. Qed.

Lemma token_weight_le m t :
  table_ok m → (0 <= weight (has_token t) m <= weight pool_edge_count m)%Z.
Proof.
  intros Hm. split.
  - apply weight_nonneg. intros k ts _. apply has_token_bounds.
  - apply weight_le. intros k ts Hk. destruct (Hm k ts Hk) as [_ Hl].
    pose proof (pool_edge_count_pos ts Hl). pose proof (has_token_bounds t ts). lia.
Qed.

(** A token is counted exactly when some pool has it. *)
Lemma token_weight_pos m t :
  (0 < weight (has_token t) m)%Z ↔ ∃ k ts, m !! k = Some ts ∧ t ∈ ts.
Proof.
  split.
  - intros Hpos. destruct (decide (map_Forall (λ _ ts, t ∉ ts) m)) as [Hall|Hex].
    + assert (weight (has_token t) m <= weight (λ _, 0%Z) m)%Z as Hle.
      { apply weight_le. intros k ts Hk. unfold has_token. by rewrite decide_False by by apply (Hall k). }
      assert (weight (λ _, 0%Z) m = 0%Z) as Hz; [|lia]. clear.
      induction m as [|k ts m Hk IH] using map_ind; [by rewrite weight_empty|].
      by rewrite weight_insert, IH by done.
    + apply map_not_Forall in Hex as (k & ts & Hk & Ht); [|apply _]. exists k, ts.
      split; [done|]. by apply dec_stable.
  - intros (k & ts & Hk & Ht). assert (has_token t ts <= weight (has_token t) m)%Z.
    { eapply weight_member; [|done]. intros q us _. apply has_token_bounds. }
    unfold has_token in *. rewrite decide_True in * by done. lia.
Qed.
End tables.

(** ** Canonical token lists *)

Lemma sorted_le_canonical ts : StronglySorted Z.lt ts → stable_sort address_le ts = ts.
Proof.
  induction 1 as [|t ts Hts IH Ht]; [done|]. unfold stable_sort in *. simpl. rewrite IH.
  destruct ts as [|u ts]; [done|]. simpl. apply Forall_cons in Ht as [Ht _].
  unfold address_le. by rewrite bool_decide_eq_true_2 by lia.
Qed.

Lemma dedup_strict ts : StronglySorted Z.lt ts → dedup ts = ts.
Proof.
  induction 1 as [|t ts Hts IH Ht]; [done|]. destruct ts as [|u ts]; [done|].
  cbn [dedup] in *. apply Forall_cons in Ht as [Ht _]. rewrite decide_False by lia. by rewrite IH.
Qed.

Lemma canonical_slice_sorted ts : StronglySorted Z.lt ts → canonical_token_slice ts = ts.
Proof. intros Hts. unfold canonical_token_slice. by rewrite sorted_le_canonical, dedup_strict. Qed.

Lemma canonical_tokens_of ts (X : gset Address) :
  StronglySorted Z.lt ts → (∀ t, t ∈ X ↔ t ∈ ts) → canonical_tokens X = ts.
Proof.
  intros Hts HX. unfold canonical_tokens. apply (StronglySorted_unique_strong Z.le).
  - intros x y _ _. lia.
  - eapply StronglySorted_weaken; [apply stable_sort_sorted|].
    + intros x y. unfold address_le. rewrite !bool_decide_eq_true. lia.
    + intros x y z. unfold address_le. rewrite !bool_decide_eq_true. lia.
    + intros x y. unfold address_le. by rewrite bool_decide_eq_true.
  - eapply StronglySorted_weaken; [done|]. simpl. lia.
  - rewrite stable_sort_perm. apply NoDup_Permutation; [apply NoDup_elements|by apply sorted_lt_nodup|].
    intros t. by rewrite elem_of_elements.
Qed.

(** ** Building from a graph *)

(** The index of a table of pools. *)
Record indexes `{!AmmTypes} (v : AmmStateVersion) (m : gmap PoolKey (list Address))
    (ix : GraphIndex) : Prop := {
  ix_version : gi_state_version ix = v;
  ix_edges : gi_edges ix = weight pool_edge_count m;
  ix_pools : gi_pool_tokens ix = m;
  ix_tokens t : gi_token_pools ix !! t =
    if decide (weight (has_token t) m = 0%Z) then None else Some (weight (has_token t) m);
}.

Lemma indexes_unique `{!AmmTypes} v m ix ix' : indexes v m ix → indexes v m ix' → ix = ix'.
Proof.
  intros [H1 H2 H3 H4] [G1 G2 G3 G4]. destruct ix as [a b c d], ix' as [a' b' c' d']. simpl in *.
  assert (d = d') as -> by (apply map_eq; intros t; by rewrite H4, G4). congruence.
Qed.

(** A map of counters with no zero entry. *)
Definition counters (c : Address → Z) (m : gmap Address Z) : Prop :=
  ∀ t, m !! t = if decide (c t = 0%Z) then None else Some (c t).

Definition occurrences (t : Address) (l : list Address) : Z := Z.of_nat (length (filter (t =.) l)).

Lemma occurrences_nodup t l : NoDup l → occurrences t l = has_token t l.
Proof.
  unfold occurrences, has_token. induction 1 as [|u l Hu _ IH]; [done|].
  rewrite filter_cons. destruct (decide (t = u)) as [->|Hne].
  - rewrite decide_False in IH by done. rewrite (decide_True (P := u ∈ u :: l)) by left.
    simpl. lia.
  - rewrite IH. apply decide_ext. rewrite elem_of_cons. naive_solver.
Qed.

(** Counting a list, as long as the counters hold the result. *)
Lemma count_list l m c :
  (∀ t, 0 <= c t)%Z → (∀ t, occurrences t l + c t <= usize_max)%Z → counters c m →
  counters (λ t, occurrences t l + c t)%Z
    (foldl (λ counts token, entry_or_default 0%Z usize_increment token counts) m l).
Proof.
  revert m c. induction l as [|u l IH]; intros m c Hc Hmax Hm t; simpl.
  { by rewrite Hm. }
  set (c' := λ t, (c t + if decide (t = u) then 1 else 0)%Z).
  assert (∀ t, occurrences t (u :: l) = occurrences t l + if decide (t = u) then 1 else 0)%Z as Hocc.
  { intros x. unfold occurrences. rewrite filter_cons. case_decide; simpl; lia. }
  assert (∀ t, 0 <= occurrences t l)%Z as Hpos by (intros; unfold occurrences; lia).
  rewrite (IH _ c').
  - unfold c'. rewrite Hocc. replace (occurrences t l + (c t + if decide (t = u) then 1 else 0))%Z
      with (occurrences t l + (if decide (t = u) then 1 else 0) + c t)%Z by lia. done.
  - intros x. unfold c'. specialize (Hc x). case_decide; lia.
  - intros x. specialize (Hmax x). rewrite Hocc in Hmax. unfold c'. lia.
  - intros x. unfold c'. destruct (decide (x = u)) as [->|Hx].
    + rewrite lookup_entry_eq, Hm. specialize (Hmax u). specialize (Hc u). specialize (Hpos u).
      rewrite Hocc, decide_True in Hmax by done. rewrite (decide_False (P := (c u + 1 = 0)%Z)) by lia.
      f_equal. unfold usize_increment, usize_max in *.
      case_decide as Hz; simpl; rewrite Z.mod_small by lia; lia.
    + rewrite lookup_entry_ne by done. rewrite Hm. by rewrite Z.add_0_r.
Qed.

Lemma foldl_concat {A B} (f : B → A → B) (ls : list (list A)) b :
  foldl (λ b l, foldl f b l) b ls = foldl f b (concat ls).
Proof. revert b. induction ls as [|l ls IH]; intros b; simpl; [done|]. by rewrite foldl_app, IH. Qed.

Lemma token_pool_counts_spec `{!AmmTypes} (m : gmap PoolKey (list Address)) :
  table_ok m → (weight pool_edge_count m <= usize_max)%Z →
  counters (λ t, weight (has_token t) m) (token_pool_counts m).
Proof.
  intros Hm Hmax. unfold token_pool_counts. rewrite foldl_concat.
  assert (∀ t, occurrences t (concat (map_to_list m).*2) = weight (has_token t) m) as Hocc.
  { intros t. rewrite weight_sum.
    assert (∀ ts, ts ∈ (map_to_list m).*2 → NoDup ts) as Hnd.
    { intros ts ([k us] & -> & Hin)%list_elem_of_fmap. apply elem_of_map_to_list in Hin.
      apply Hm in Hin as [Hs _]. by apply sorted_lt_nodup. }
    revert Hnd. generalize (map_to_list m).*2. intros ls. induction ls as [|l ls IH]; intros Hnd; simpl.
    { done. }
    rewrite <-IH by set_solver. rewrite <-occurrences_nodup by set_solver.
    unfold occurrences. rewrite filter_app, length_app. lia. }
  pose proof (count_list (concat (map_to_list m).*2) ∅ (λ _, 0%Z)) as Hcount. intros t.
  rewrite Hcount.
  - by rewrite Hocc, Z.add_0_r.
  - lia.
  - intros x. rewrite Hocc. pose proof (token_weight_le m x Hm). lia.
  - intros x. apply lookup_empty.
Qed.

Section graph.
Context `{!AmmTypes} `{!Petgraph Address EdgeData} `{!PetgraphLaws Address EdgeData}.
Implicit Types (g : AmmGraph) (p : PoolKey) (t : Address).

Lemma pool_edges_listed g p ts :
  graph_wf g → pool_tokens g !! p = Some ts →
  Z.of_nat (length (default [] (edge_map g !! p))) = pool_edge_count ts.
Proof.
  intros [_ Htop _] Hp. specialize (Htop p). rewrite Hp in Htop. destruct Htop as (_ & Hl & Hv).
  apply (f_equal length) in Hv. unfold pool_view, pool_edges in Hv.
  rewrite !length_fmap, length_directed_pairs in Hv. unfold pool_edge_count. nia.
Qed.

(** The live edges are those listed for the pools. *)
Lemma edge_indices_listed g :
  graph_wf g →
  pg_edge_indices (graph g) ≡ₚ
  (map_to_list (pool_tokens g)).*1 ≫= λ p, default [] (edge_map g !! p).
Proof.
  intros [Hcore Htop _]. pose proof (wf_pg _ Hcore) as Hok. apply NoDup_Permutation.
  - by apply pg_edge_indices_nodup.
  - apply NoDup_bind.
    + intros p q e _ _ (a & b & w & He & <-)%(wf_edge_map _ Hcore) (a' & b' & w' & He' & <-)%(wf_edge_map _ Hcore).
      congruence.
    + intros p _. destruct (edge_map g !! p) as [es|] eqn:Hes; [by eapply wf_edge_list|constructor].
    + apply NoDup_fst_map_to_list.
  - intros e. rewrite pg_edge_indices_spec, list_elem_of_bind by done. split.
    + intros [[[a b] w] He]. exists (ed_pool w). split; [apply (wf_edge_map _ Hcore); eauto|].
      specialize (Htop (ed_pool w)). destruct (pool_tokens g !! ed_pool w) as [ts|] eqn:Hp.
      * apply list_elem_of_fmap. exists (ed_pool w, ts). by rewrite elem_of_map_to_list.
      * assert (e ∈ default [] (edge_map g !! ed_pool w)) as Hin by (apply (wf_edge_map _ Hcore); eauto).
        rewrite Htop in Hin. simpl in Hin. set_solver.
    + intros (p & (a & b & w & He & _)%(wf_edge_map _ Hcore) & _). rewrite He. by eexists.
Qed.

Lemma edge_count_weight g :
  graph_wf g → Z.of_nat (edge_count g) = weight pool_edge_count (pool_tokens g).
Proof.
  intros Hwf. unfold edge_count, pg_edge_count. rewrite (edge_indices_listed g Hwf), weight_sum.
  assert (∀ p ts, (p, ts) ∈ map_to_list (pool_tokens g) →
    Z.of_nat (length (default [] (edge_map g !! p))) = pool_edge_count ts) as Hlen.
  { intros p ts Hin%elem_of_map_to_list. by apply pool_edges_listed. }
  revert Hlen. generalize (map_to_list (pool_tokens g)). intros l.
  induction l as [|[p ts] l IH]; intros Hlen; [done|].
  csimpl. rewrite length_app, Nat2Z.inj_add, IH by (intros; apply Hlen; by right).
  by rewrite (Hlen p ts) by left.
Qed.

Lemma collect_edges_spec g l m p :
  let c := foldl (collect_edge_tokens g) m l in
  (is_Some (c !! p) ↔ is_Some (m !! p) ∨ ∃ a b w, (a, b, w) ∈ l ∧ ed_pool w = p) ∧
  ∀ t, t ∈ default ∅ (c !! p) ↔
    t ∈ default ∅ (m !! p) ∨
    ∃ a b w, (a, b, w) ∈ l ∧ ed_pool w = p ∧ (node_token g a = Some t ∨ node_token g b = Some t).
Proof.
  revert m. induction l as [|[[a b] w] l IH]; intros m; cbn [foldl]; [set_solver|].
  set (m1 := collect_edge_tokens g m (a, b, w)). destruct (IH m1) as [IH1 IH2]. clear IH. split.
  - rewrite IH1. unfold m1, collect_edge_tokens. setoid_rewrite elem_of_cons. destruct (decide (ed_pool w = p)) as [<-|Hne].
    + rewrite lookup_entry_eq. split; [intros _; right; eauto 10|]. intros _. left. by eexists.
    + rewrite lookup_entry_ne by done. naive_solver.
  - intros t. rewrite IH2. setoid_rewrite elem_of_cons. unfold m1, collect_edge_tokens.
    rewrite default_entry.
    destruct (decide (ed_pool w = p)) as [<-|Hne]; [|naive_solver].
    assert (t ∈ (match node_token g b with
      | Some tb => {[tb]} ∪ match node_token g a with
                   | Some ta => {[ta]} ∪ default ∅ (m !! ed_pool w)
                   | None => default ∅ (m !! ed_pool w) end
      | None => match node_token g a with
                | Some ta => {[ta]} ∪ default ∅ (m !! ed_pool w)
                | None => default ∅ (m !! ed_pool w) end end : gset Address) ↔
      t ∈ default ∅ (m !! ed_pool w) ∨ node_token g a = Some t ∨ node_token g b = Some t) as Ht.
    { destruct (node_token g a), (node_token g b); set_solver. }
    rewrite Ht. naive_solver.
Qed.

Lemma elem_of_edge_references g a b w :
  graph_wf g → (a, b, w) ∈ edge_references g ↔ ∃ e, pg_edge (graph g) e = Some (a, b, w).
Proof.
  intros Hwf. pose proof (wf_pg _ (wf_core _ Hwf)) as Hok. unfold edge_references.
  rewrite list_elem_of_omap. setoid_rewrite (pg_edge_indices_spec (graph g)); [|done].
  naive_solver eauto.
Qed.

(** The pools and tokens of the edges are the table of the graph. *)
Lemma collected_tokens g :
  graph_wf g → tokens_sorted g →
  canonical_tokens <$> foldl (collect_edge_tokens g) ∅ (edge_references g) = pool_tokens g.
Proof.
  intros Hwf Hs. apply map_eq. intros p. rewrite lookup_fmap.
  destruct (collect_edges_spec g (edge_references g) ∅ p) as [Hdom Hmem]. revert Hdom Hmem.
  set (c := foldl _ _ _). rewrite lookup_empty. intros Hdom Hmem.
  setoid_rewrite elem_of_edge_references in Hdom; [|done].
  setoid_rewrite elem_of_edge_references in Hmem; [|done].
  pose proof (wf_core _ Hwf) as Hcore.
  assert (∀ t ts, pool_tokens g !! p = Some ts → t ∈ default ∅ (c !! p) ↔ t ∈ ts) as Hts.
  { intros t ts Hp. rewrite Hmem. simpl. split.
    - intros [Hin|(a & b & w & [e He] & Hw & Ht)]; [set_solver|].
      destruct (cached_of_live _ _ _ _ _ Hcore He) as [x Hx].
      pose proof (edges_of_pools g p (ce_token_in x) (ce_token_out x) Hwf) as [Hin _].
      pose proof Hx as (a' & He' & Ha & Hb)%cached_of_Some; [|done]. rewrite He in He'. simplify_eq/=.
      destruct Hin as (us & Hus & Hi & Ho & _); [by exists e, x|]. rewrite Hus in Hp. simplify_eq.
      unfold node_token in Ht. rewrite Ha, Hb in Ht. by destruct Ht as [[= <-]|[= <-]].
    - intros Ht. right. pose proof (wf_topology _ Hwf p) as Htop. rewrite Hp in Htop.
      destruct Htop as (Hnd & Hl & _).
      assert (∃ u, u ∈ ts ∧ t ≠ u) as (u & Hu & Hne).
      { destruct ts as [|x [|y ts]]; simpl in Hl; [lia..|].
        destruct (decide (t = x)) as [->|]; [exists y|exists x]; split; [set_solver| |set_solver|done].
        intros ->. apply NoDup_cons in Hnd as [Hx _]. set_solver. }
      pose proof (edges_of_pools g p t u Hwf) as [_ Hin].
      destruct Hin as (e & x & Hx & <- & <- & <-); [by exists ts|].
      apply cached_of_Some in Hx as (a & He & Ha & Hb); [|done].
      exists a, (ce_target x), {| ed_pool := ce_pool x |}. split_and!; [by exists e|done|by left]. }
  destruct (pool_tokens g !! p) as [ts|] eqn:Hp.
  - assert (is_Some (c !! p)) as [X HX].
    { apply Hdom. right. pose proof (pool_edges_listed g p ts Hwf Hp) as Hlen.
      pose proof (wf_topology _ Hwf p) as Htop. rewrite Hp in Htop. destruct Htop as (_ & Hl & _).
      pose proof (pool_edge_count_pos ts Hl).
      destruct (default [] (edge_map g !! p)) as [|e es] eqn:Hes; [simpl in Hlen; lia|].
      assert (e ∈ default [] (edge_map g !! p)) as (a & b & w & He & Hw)%(wf_edge_map _ Hcore)
        by (rewrite Hes; left). eauto 10. }
    rewrite HX. simpl. f_equal. apply canonical_tokens_of; [by eapply Hs|].
    intros t. rewrite <-(Hts t ts) by done. by rewrite HX.
  - destruct (c !! p) as [X|] eqn:HX; [|done]. exfalso.
    destruct Hdom as [[[? Hn]|(a & b & w & [e He] & Hw)] _]; [by eexists|done|].
    pose proof (wf_topology _ Hwf p) as Htop. rewrite Hp in Htop.
    assert (e ∈ default [] (edge_map g !! p)) as Hin by (apply (wf_edge_map _ Hcore); eauto).
    rewrite Htop in Hin. simpl in Hin. set_solver.
Qed.

Lemma graph_table_ok g : graph_wf g → tokens_sorted g → table_ok (pool_tokens g).
Proof.
  intros Hwf Hs p ts Hp. split; [by eapply Hs|].
  pose proof (wf_topology _ Hwf p) as Htop. rewrite Hp in Htop. by destruct Htop as (_ & ? & _).
Qed.

(** Building gives the index of the graph's table. *)
Lemma from_graph_indexes g v :
  graph_wf g → tokens_sorted g → (Z.of_nat (edge_count g) <= usize_max)%Z →
  indexes v (pool_tokens g) (from_graph g v).
Proof.
  intros Hwf Hs Hmax. pose proof (edge_count_weight g Hwf) as Hw. rewrite Hw in Hmax.
  constructor; simpl; rewrite ?collected_tokens by done; [done..|].
  apply token_pool_counts_spec; [by apply graph_table_ok|done].
Qed.
End graph.

(** ** Applying a delta *)

Section delta.
Context `{!AmmTypes} `{!AmmLive} (address_display : Address → string).
Implicit Types (m : gmap PoolKey (list Address)) (p : PoolKey) (t : Address) (ix : GraphIndex)
  (s : Scratch) (x : GraphPoolDelta).

(** A scratch value is read before the index's own. *)
Definition count_in (cur next : gmap Address Z) t : Z := default (default 0%Z (cur !! t)) (next !! t).

Definition signed (change : TokenCountChange) (n : Z) : Z :=
  match change with CountAdd => n | CountRemove => (- n)%Z end.

Lemma update_token_counts_spec cur next tokens change (c : Address → Z) :
  NoDup tokens → (∀ t, count_in cur next t = c t) →
  (∀ t, t ∈ tokens → match change with
                     | CountAdd => c t + 1 <= usize_max
                     | CountRemove => 1 <= c t
                     end)%Z →
  ∃ next', update_token_counts address_display cur next tokens change = Ok next' ∧
    ∀ t, count_in cur next' t = (c t + signed change (has_token t tokens))%Z.
Proof.
  intros Hnd. revert next c. induction Hnd as [|u tokens Hu _ IH]; intros next c Hc Hb; simpl.
  { exists next. split; [done|]. intros t. rewrite Hc. unfold has_token.
    rewrite decide_False by set_solver. by destruct change; simpl; lia. }
  change (default (default 0%Z (cur !! u)) (next !! u)) with (count_in cur next u). rewrite Hc.
  assert (match change with
    | CountAdd => ok_or (usize_checked_add (c u) 1) TokenPoolCountOverflow
    | CountRemove => ok_or (usize_checked_sub (c u) 1) (IncoherentPool ("token " +:+ address_display u))
    end = Ok (c u + signed change 1)%Z) as ->.
  { specialize (Hb u ltac:(left)). unfold usize_checked_add, usize_checked_sub.
    destruct change; rewrite decide_True by lia; simpl; f_equal; lia. }
  cbn [mbind result_bind].
  destruct (IH (<[u := (c u + signed change 1)%Z]> next)
    (λ t, if decide (t = u) then (c u + signed change 1)%Z else c t)) as (next' & -> & Hnext).
  - intros t. unfold count_in. case_decide as Ht; [subst; by rewrite lookup_insert_eq|].
    rewrite lookup_insert_ne by done. apply Hc.
  - intros t Ht. rewrite decide_False by by intros ->. apply Hb. by right.
  - exists next'. split; [done|]. intros t. rewrite Hnext. unfold has_token.
    case_decide as Htu; [subst; rewrite decide_False, decide_True by set_solver; destruct change; simpl; lia|].
    f_equal. f_equal. apply decide_ext. set_solver.
Qed.

Lemma directed_edge_count_spec (ts : list Address) :
  2 ≤ length ts → (pool_edge_count ts <= usize_max)%Z →
  index_directed_edge_count (length ts) = Ok (pool_edge_count ts).
Proof.
  intros Hl Hmax. unfold index_directed_edge_count, usize_saturating_sub, usize_checked_mul, pool_edge_count in *.
  rewrite Z.max_r by lia. by rewrite decide_True.
Qed.

(** The loop has moved the table of the index to [m]. *)
Record scratch_ok ix m s : Prop := {
  so_edges : next_edges s = weight pool_edge_count m;
  so_pools p : default (gi_pool_tokens ix !! p) (next_pools s !! p) = m !! p;
  so_counts t : count_in (gi_token_pools ix) (next_token_counts s) t = weight (has_token t) m;
}.

(** Removing the tokens a pool has, and adding tokens to a pool that has none. *)
Lemma remove_before_spec ix p m s :
  table_ok m → (weight pool_edge_count m <= usize_max)%Z →
  next_edges s = weight pool_edge_count m →
  (∀ t, count_in (gi_token_pools ix) (next_token_counts s) t = weight (has_token t) m) →
  ∃ s', remove_before address_display ix p (m !! p) s = Ok s' ∧ next_pools s' = next_pools s ∧
    next_edges s' = weight pool_edge_count (delete p m) ∧
    ∀ t, count_in (gi_token_pools ix) (next_token_counts s') t = weight (has_token t) (delete p m).
Proof.
  intros Hm Hmax He Hc. unfold remove_before. destruct (m !! p) as [ts|] eqn:Hp.
  2: { exists s. by rewrite delete_id. }
  destruct (Hm p ts Hp) as [Hs Hl]. pose proof (weight_delete pool_edge_count m p ts Hp) as Hw.
  assert (0 <= weight pool_edge_count (delete p m))%Z as Hpos.
  { apply weight_nonneg. intros q us [_ Hq]%lookup_delete_Some. by eapply table_nonneg. }
  rewrite directed_edge_count_spec by lia. cbn [mbind result_bind].
  unfold usize_checked_sub. rewrite decide_True by lia. cbn [ok_or mbind result_bind].
  destruct (update_token_counts_spec (gi_token_pools ix) (next_token_counts s) ts CountRemove
    (λ t, weight (has_token t) m)) as (next' & -> & Hnext); [by apply sorted_lt_nodup|done|..].
  { intros t Ht. apply (Z.le_succ_l 0), token_weight_pos. eauto. }
  eexists. split; [done|]. split_and!; simpl; [done|lia|].
  intros t. rewrite Hnext, (weight_delete (has_token t) m p ts) by done. simpl. lia.
Qed.

Lemma add_after_spec ix m p (after : option (list Address)) s :
  m !! p = None → (∀ ts, after = Some ts → StronglySorted Z.lt ts ∧ 2 ≤ length ts) →
  table_ok m →
  let m' := match after with Some ts => <[p := ts]> m | None => m end in
  (weight pool_edge_count m' <= usize_max)%Z →
  next_edges s = weight pool_edge_count m →
  (∀ t, count_in (gi_token_pools ix) (next_token_counts s) t = weight (has_token t) m) →
  ∃ s', add_after address_display ix after s = Ok s' ∧ next_pools s' = next_pools s ∧
    next_edges s' = weight pool_edge_count m' ∧
    ∀ t, count_in (gi_token_pools ix) (next_token_counts s') t = weight (has_token t) m'.
Proof.
  intros Hp Hafter Hm m' Hmax He Hc. unfold add_after, m' in *. clear m'.
  destruct after as [ts|]; [|by exists s]. destruct (Hafter ts eq_refl) as [Hs Hl].
  rewrite weight_insert in Hmax |- * by done.
  assert (0 <= weight pool_edge_count m)%Z as Hpos by (apply weight_nonneg, table_nonneg, Hm).
  rewrite directed_edge_count_spec by lia. cbn [mbind result_bind].
  unfold usize_checked_add. rewrite decide_True by lia. cbn [ok_or mbind result_bind].
  destruct (update_token_counts_spec (gi_token_pools ix) (next_token_counts s) ts CountAdd
    (λ t, weight (has_token t) m)) as (next' & -> & Hnext); [by apply sorted_lt_nodup|done|..].
  { intros t Ht. pose proof (token_weight_le m t Hm). pose proof (pool_edge_count_pos ts Hl). lia. }
  eexists. split; [done|]. split_and!; simpl; [done|lia|].
  intros t. rewrite Hnext, weight_insert by done. simpl. lia.
Qed.

(** The table after one change. *)
Definition change_table x m : gmap PoolKey (list Address) :=
  match delta_after x with
  | Some y => <[delta_pool x := ip_tokens y]> m
  | None => delete (delta_pool x) m
  end.

Lemma change_table_lookup x m p :
  change_table x m !! p = if decide (p = delta_pool x) then ip_tokens <$> delta_after x else m !! p.
Proof.
  unfold change_table. case_decide as Hp; [subst|]; destruct (delta_after x); simpl;
    by rewrite ?lookup_insert_eq, ?lookup_delete_eq, ?lookup_insert_ne, ?lookup_delete_ne by done.
Qed.

Lemma apply_pool_change_spec ix x m s :
  scratch_ok ix m s → table_ok m → table_ok (change_table x m) →
  ip_tokens <$> delta_before x = m !! delta_pool x →
  (weight pool_edge_count m <= usize_max)%Z →
  (weight pool_edge_count (change_table x m) <= usize_max)%Z →
  ∃ s', apply_pool_change address_display ix s x = Ok s' ∧ scratch_ok ix (change_table x m) s'.
Proof.
  intros [He Hp Hc] Hm Hm' Hb Hmax Hmax'. unfold apply_pool_change.
  assert (canonical_token_slice ∘ ip_tokens <$> delta_before x = m !! delta_pool x) as ->.
  { rewrite <-Hb. destruct (delta_before x) as [y|]; [|done]. simpl. f_equal.
    apply canonical_slice_sorted. by eapply (Hm (delta_pool x)). }
  assert (canonical_token_slice ∘ ip_tokens <$> delta_after x = ip_tokens <$> delta_after x) as ->.
  { destruct (delta_after x) as [y|] eqn:Hy; [|done]. simpl. f_equal.
    apply canonical_slice_sorted, (Hm' (delta_pool x)).
    by rewrite change_table_lookup, decide_True, Hy. }
  rewrite Hp, decide_False by (intros Hn; by apply Hn).
  destruct (remove_before_spec ix (delta_pool x) m s Hm Hmax He Hc) as (s1 & -> & Hp1 & He1 & Hc1).
  cbn [mbind result_bind].
  assert (change_table x m = match ip_tokens <$> delta_after x with
    | Some ts => <[delta_pool x := ts]> (delete (delta_pool x) m)
    | None => delete (delta_pool x) m end) as Htable.
  { unfold change_table. destruct (delta_after x); simpl; [|done]. by rewrite insert_delete_eq. }
  destruct (add_after_spec ix (delete (delta_pool x) m) (delta_pool x) (ip_tokens <$> delta_after x) s1)
    as (s2 & -> & Hp2 & He2 & Hc2); rewrite <-?Htable; try done.
  - apply lookup_delete_eq.
  - intros ts Hts. apply (Hm' (delta_pool x)). by rewrite change_table_lookup, decide_True.
  - intros q ts [_ Hq]%lookup_delete_Some. by apply (Hm q).
  - cbn [mbind result_bind]. eexists. split; [done|]. rewrite <-Htable in He2, Hc2.
    constructor; simpl; [done| |done]. intros q. rewrite Hp2, Hp1, change_table_lookup.
    case_decide as Hq; [subst; by rewrite lookup_insert_eq|]. by rewrite lookup_insert_ne by done.
Qed.

(** The changes of a delta move a table to the next one. *)
Record table_delta (changes : list GraphPoolDelta) m m' : Prop := {
  td_before x : x ∈ changes → ip_tokens <$> delta_before x = m !! delta_pool x;
  td_after x : x ∈ changes → ip_tokens <$> delta_after x = m' !! delta_pool x;
  td_nodup : NoDup (delta_pool <$> changes);
  td_others p : p ∉ delta_pool <$> changes → m !! p = m' !! p;
}.

Lemma table_delta_cons x changes m m' :
  table_delta (x :: changes) m m' → table_delta changes (change_table x m) m'.
Proof.
  intros [Hb Ha Hnd Ho]. rewrite fmap_cons in *. apply NoDup_cons in Hnd as [Hx Hnd]. constructor.
  - intros y Hy. rewrite change_table_lookup, decide_False; [apply Hb; by right|].
    intros Heq. apply Hx. rewrite <-Heq. by apply list_elem_of_fmap_2.
  - intros y Hy. apply Ha. by right.
  - done.
  - intros p Hp. rewrite change_table_lookup. case_decide as Hq.
    + subst. apply Ha. left.
    + apply Ho. by rewrite not_elem_of_cons.
Qed.

Lemma change_table_mix x changes m m' p ts :
  table_delta (x :: changes) m m' → change_table x m !! p = Some ts →
  m !! p = Some ts ∨ m' !! p = Some ts.
Proof.
  intros Hd. rewrite change_table_lookup. case_decide; [subst|by left].
  rewrite (td_after _ _ _ Hd x) by left. by right.
Qed.

Lemma apply_pool_changes_spec ix base changes m m' s :
  scratch_ok ix m s → table_delta changes m m' → table_ok base → table_ok m' → 
  (∀ p ts, m !! p = Some ts → base !! p = Some ts ∨ m' !! p = Some ts) →
  (weight pool_edge_count base + weight pool_edge_count m' <= usize_max)%Z →
  ∃ s', apply_pool_changes address_display ix s changes = Ok s' ∧ scratch_ok ix m' s'.
Proof.
  intros Hs Hd Hbase Hm' Hmix Hmax. revert m s Hs Hd Hmix.
  assert (∀ m, (∀ p ts, m !! p = Some ts → base !! p = Some ts ∨ m' !! p = Some ts) →
    table_ok m ∧ (weight pool_edge_count m <= usize_max)%Z) as Hok.
  { intros m Hmix. split; [intros p ts [?|?]%Hmix; eauto|].
    pose proof (weight_mix pool_edge_count m base m' (table_nonneg _ Hbase) (table_nonneg _ Hm') Hmix). lia. }
  induction changes as [|x changes IH]; intros m s Hs Hd Hmix.
  - exists s. split; [done|]. destruct Hs as [H1 H2 H3].
    assert (m = m') as <- by (apply map_eq; intros p; apply (td_others _ _ _ Hd); set_solver). done.
  - assert (∀ p ts, change_table x m !! p = Some ts → base !! p = Some ts ∨ m' !! p = Some ts) as Hmix'.
    { intros p ts [Hp|Hp]%(change_table_mix x changes m m' p ts Hd); [by apply Hmix|by right]. }
    destruct (Hok m Hmix), (Hok _ Hmix').
    destruct (apply_pool_change_spec ix x m s) as (s1 & Hs1 & Hok1); try done.
    { apply (td_before _ _ _ Hd). left. }
    cbn [apply_pool_changes]. rewrite Hs1. cbn [mbind result_bind].
    eapply IH; [done|by apply table_delta_cons|done].
Qed.

(** Writing the scratch maps into the index. *)
Lemma commit_pools_lookup (l : list (PoolKey * option (list Address))) m p :
  NoDup l.*1 →
  foldl commit_pool m l !! p = default (m !! p) ((list_to_map l : gmap PoolKey _) !! p).
Proof.
  revert m. induction l as [|[q y] l IH]; intros m Hnd; [done|].
  rewrite fmap_cons in Hnd. apply NoDup_cons in Hnd as [Hq Hnd]. cbn [foldl list_to_map foldr].
  rewrite IH by done. destruct (decide (p = q)) as [->|Hne].
  - rewrite not_elem_of_list_to_map_1 by done. csimpl. rewrite lookup_insert_eq.
    unfold commit_pool. by destruct y; simpl; rewrite ?lookup_insert_eq, ?lookup_delete_eq.
  - csimpl. rewrite lookup_insert_ne by done. f_equal.
    unfold commit_pool. by destruct y; simpl; rewrite ?lookup_insert_ne, ?lookup_delete_ne by done.
Qed.

Lemma commit_counts_counters (l : list (Address * Z)) (counts : gmap Address Z) (c : Address → Z) :
  NoDup l.*1 → counters c counts →
  counters (λ t, default (c t) ((list_to_map l : gmap Address Z) !! t)) (foldl commit_count counts l).
Proof.
  revert counts c. induction l as [|[u n] l IH]; intros counts c Hnd Hc; [done|].
  rewrite fmap_cons in Hnd. apply NoDup_cons in Hnd as [Hu Hnd]. cbn [foldl].
  intros t. rewrite (IH _ (λ t, if decide (t = u) then n else c t)); [|done|].
  - assert (default (if decide (t = u) then n else c t) ((list_to_map l : gmap Address Z) !! t) =
      default (c t) ((list_to_map ((u, n) :: l) : gmap Address Z) !! t)) as ->; [|done].
    csimpl. case_decide as Ht.
    + subst. rewrite not_elem_of_list_to_map_1 by done. by rewrite lookup_insert_eq.
    + by rewrite lookup_insert_ne by done.
  - intros x. unfold commit_count. cbn [fst snd].
    destruct (decide (x = u)) as [->|Hx]; destruct (decide (n = 0%Z)) as [Hn|Hn].
    + by rewrite lookup_delete_eq.
    + by rewrite lookup_insert_eq.
    + rewrite lookup_delete_ne by done. apply Hc.
    + rewrite lookup_insert_ne by done. apply Hc.
Qed.

(** A contiguous delta moves the index of a table to that of the next table. *)
Lemma index_apply_delta_moves ix d v m m' :
  indexes v m ix → table_delta (pool_changes d) m m' → table_ok m → table_ok m' →
  (weight pool_edge_count m + weight pool_edge_count m' <= usize_max)%Z →
  source_state_version d = (v + 1)%Z → (v < u64_max)%Z →
  ∃ ix', index_apply_delta address_display d ix = Ok (true, ix') ∧ indexes (v + 1) m' ix'.
Proof.
  intros [Hv He Hp Ht] Hd Hm Hm' Hmax Hnext Hv64. unfold index_apply_delta. rewrite Hv, Hnext.
  rewrite decide_False by lia. unfold u64_checked_add. rewrite decide_True by lia.
  cbn [ok_or mbind result_bind]. rewrite decide_False by (intros Hn; by apply Hn).
  destruct (apply_pool_changes_spec ix m (pool_changes d) m m'
    {| next_edges := gi_edges ix; next_pools := ∅; next_token_counts := ∅ |})
    as (s & -> & [Hse Hsp Hst]); try done.
  - constructor; simpl; [done|by intros p; rewrite lookup_empty, Hp|].
    intros t. unfold count_in. rewrite lookup_empty, Ht. simpl. by case_decide; simpl.
  - by left.
  - cbn [mbind result_bind]. eexists. split; [done|]. constructor; simpl; [done|done|..].
    + apply map_eq. intros p. rewrite commit_pools_lookup by apply NoDup_fst_map_to_list.
      by rewrite list_to_map_to_list.
    + intros t. rewrite (commit_counts_counters _ _ (λ t, weight (has_token t) m)).
      * cbv beta. rewrite list_to_map_to_list, <-(Hst t).
        assert (count_in (gi_token_pools ix) (next_token_counts s) t =
          default (weight (has_token t) m) (next_token_counts s !! t)) as ->; [|done].
        unfold count_in. rewrite Ht. case_decide as Hz; simpl; [by rewrite Hz|done].
      * apply NoDup_fst_map_to_list.
      * intros x. apply Ht.
Qed.

(** A delta the index represents already leaves it alone, one that leaves a
    gap is refused. *)
Lemma index_apply_delta_stale ix d :
  (source_state_version d <= gi_state_version ix)%Z →
  index_apply_delta address_display d ix = Ok (false, ix).
Proof. intros Hv. unfold index_apply_delta. by rewrite decide_True. Qed.

Lemma index_apply_delta_gap ix d :
  (gi_state_version ix + 1 < source_state_version d <= u64_max)%Z →
  index_apply_delta address_display d ix =
  Err (NonContiguous (gi_state_version ix + 1) (source_state_version d)).
Proof.
  intros Hv. unfold index_apply_delta, u64_checked_add. rewrite decide_False by lia.
  rewrite decide_True by lia. cbn [ok_or mbind result_bind]. by rewrite decide_True by lia.
Qed.
End delta.
