(* ===== verification/GraphIndexTheorems.v ===== *)
(** * The request-path index follows the live graph

    Whatever events the updater receives or misses, the index it serves is the
    one that building it from the live graph of a snapshot would give, and that
    snapshot is no older than the last commit it was told of. *)

From S2P Require Import Prelude AmmState Petgraph Graph GraphPairs GraphInv GraphProps GraphTheorems.
From S2P Require Import Liquidity LiquidityProps LiquidityTheorems LiveState LiveGraph.
From S2P Require Import LiveGraphProps LiveGraphTheorems GraphIndex GraphIndexProps.

Section theorems.
Context `{!AmmTypes} `{!AmmLive} `{!Petgraph Address EdgeData} `{!PetgraphLaws Address EdgeData}.
Context (address_display : Address → string) (layout : Address → Address → U256).
Implicit Types (s : AmmStateSnapshot) (o : GraphBuildOptions) (l : LiveAmmGraph) (g : AmmGraph)
  (d : GraphDelta) (c : GraphIndexCache) (lin : Z) (n k : nat).

(** ** The table of a snapshot *)

Definition searchable_table o s : gmap PoolKey (list Address) :=
  ip_tokens <$> match indexed_from_snapshot s o with Ok m => m | Err _ => ∅ end.

Lemma searchable_table_lookup o s p :
  snapshot_wf s → searchable_table o s !! p = ip_tokens <$> searchable_pool o s p.
Proof.
  intros Hs. unfold searchable_table. destruct (indexed_from_snapshot_spec o s Hs) as (m & -> & Hm).
  by rewrite lookup_fmap, Hm.
Qed.

Lemma graph_searchable_table o s g :
  snapshot_wf s → (∀ p, pool_tokens g !! p = ip_tokens <$> searchable_pool o s p) →
  pool_tokens g = searchable_table o s.
Proof. intros Hs Hg. apply map_eq. intros p. by rewrite Hg, searchable_table_lookup. Qed.

Lemma searchable_table_ok o s : snapshot_wf s → table_ok (searchable_table o s).
Proof.
  intros Hs p ts. rewrite searchable_table_lookup by done. intros (x & Hx & ->)%fmap_Some.
  apply searchable_Some in Hx as (i & r & rev & ts & _ & Hts & ->). simpl. split.
  - by eapply searchable_tokens_sorted.
  - apply searchable_tokens_Ok in Hts. unfold tokens_for_pool in Hts.
    apply result_bind_Ok in Hts as (us & _ & Hus). by apply normalize_tokens_Ok in Hus as [_ ?].
Qed.

Lemma delta_tables o s s' d :
  snapshot_wf s → snapshot_wf s' → delta_between o s s' d →
  table_delta (pool_changes d) (searchable_table o s) (searchable_table o s').
Proof.
  intros Hs Hs' [_ _ Hch Hnd _ _]. constructor; [..|done|].
  - intros x (Hb & _ & _)%Hch. by rewrite searchable_table_lookup, Hb.
  - intros x (_ & Ha & _)%Hch. by rewrite searchable_table_lookup, Ha.
  - intros p Hp. rewrite !searchable_table_lookup by done.
    destruct (decide (searchable_pool o s p = searchable_pool o s' p)) as [->|Hne]; [done|].
    destruct Hp. apply list_elem_of_fmap.
    exists {| delta_pool := p; delta_before := searchable_pool o s p;
              delta_after := searchable_pool o s' p |}. split; [done|]. by apply Hch.
Qed.

(** ** Reading an index *)

Lemma weight_size {K} `{Countable K} (m : gmap K (list Address)) (t : Address) :
  weight (has_token t) m = Z.of_nat (size (filter (λ kv, t ∈ kv.2) m)).
Proof.
  induction m as [|k ts m Hk IH] using map_ind.
  { by rewrite weight_empty, map_filter_empty, map_size_empty. }
  rewrite weight_insert, IH by done. unfold has_token. case_decide as Ht.
  - rewrite map_filter_insert_True by done. rewrite map_size_insert_None; [lia|].
    rewrite map_lookup_filter. by rewrite Hk.
  - rewrite map_filter_insert_False by done. by rewrite delete_id.
Qed.

Lemma node_count_size g : graph_wf g → node_count g = size (node_map g).
Proof.
  intros Hwf. pose proof (wf_core _ Hwf) as Hcore. pose proof (wf_pg _ Hcore) as Hok.
  unfold node_count, pg_node_count. rewrite <-length_map_to_list, <-(length_fmap snd).
  apply Permutation_length, NoDup_Permutation.
  - by apply pg_node_indices_nodup.
  - apply NoDup_fmap_2_strong; [|apply NoDup_map_to_list].
    intros [t a] [u b] Ht%elem_of_map_to_list Hu%elem_of_map_to_list Hab. simpl in Hab. subst b.
    apply (wf_nodes _ Hcore) in Ht, Hu. congruence.
  - intros a. rewrite pg_node_indices_spec, list_elem_of_fmap by done. split.
    + intros [t Ht]. exists (t, a). split; [done|]. by apply elem_of_map_to_list, (wf_nodes _ Hcore).
    + intros ([t b] & -> & Hin%elem_of_map_to_list). simpl. exists t. by apply (wf_nodes _ Hcore).
Qed.

(** What the counters of a graph are. *)
Definition graph_stats g (token : option Address) : GraphStats :=
  {| gs_tokens := node_count g; gs_edges := Z.of_nat (edge_count g); gs_pools := size (pool_tokens g);
     gs_token_present := match token with
                         | Some t => bool_decide (is_Some (node_index g t))
                         | None => false
                         end;
     gs_token_pools := match token with
                       | Some t => Z.of_nat (size (filter (λ kv, t ∈ kv.2) (pool_tokens g)))
                       | None => 0
                       end |}.

Lemma indexes_token_present g v ix t :
  no_orphans g → indexes v (pool_tokens g) ix →
  is_Some (gi_token_pools ix !! t) ↔ is_Some (node_map g !! t).
Proof.
  intros Hno Hix. rewrite (Hno t), (ix_tokens _ _ _ Hix), <-token_weight_pos.
  pose proof (weight_nonneg (has_token t) (pool_tokens g)
    (λ _ ts _, proj1 (has_token_bounds t ts))).
  case_decide; split; intros Hx; try lia; [by destruct Hx|by eexists].
Qed.

Lemma stats_of_graph g v ix token :
  graph_wf g → no_orphans g → indexes v (pool_tokens g) ix → stats token ix = graph_stats g token.
Proof.
  intros Hwf Hno Hix. unfold stats, graph_stats. f_equal.
  - rewrite node_count_size by done. rewrite <-!size_dom. f_equal. apply set_eq. intros t.
    rewrite !elem_of_dom. by eapply indexes_token_present.
  - by rewrite (ix_edges _ _ _ Hix), edge_count_weight.
  - by rewrite (ix_pools _ _ _ Hix).
  - destruct token as [t|]; [|done]. apply bool_decide_ext. by eapply indexes_token_present.
  - destruct token as [t|]; [|done]. simpl. rewrite (ix_tokens _ _ _ Hix), <-weight_size.
    case_decide; simpl; congruence.
Qed.

(** ** The updater *)

(** The directed edges of a snapshot's graph fit twice into a [usize]. *)
Definition graph_fits s : Prop :=
  (2 * weight pool_edge_count (searchable_table GraphBuildOptions_default s) <= usize_max)%Z.

Lemma index_of_live s l :
  snapshot_wf s → live_ok layout s l → live_options l = GraphBuildOptions_default → graph_fits s →
  indexes (ss_version s) (searchable_table GraphBuildOptions_default s)
    (from_graph (live_graph l) (ss_version s)) ∧
  pool_tokens (live_graph l) = searchable_table GraphBuildOptions_default s.
Proof.
  intros Hs Hok Ho Hfit. pose proof (lo_tokens _ _ _ Hok) as Htok. rewrite Ho in Htok.
  pose proof (graph_searchable_table _ _ _ Hs Htok) as Htable. split; [|done]. rewrite <-Htable.
  pose proof (lo_graph _ _ _ Hok) as Hwf. apply from_graph_indexes; [done|by eapply tokens_sorted_of|].
  rewrite edge_count_weight, Htable by done. unfold graph_fits in Hfit.
  pose proof (weight_nonneg pool_edge_count _ (table_nonneg _ (searchable_table_ok GraphBuildOptions_default s Hs))).
  lia.
Qed.

Lemma graph_index_from_amm_ok s lin r lin' :
  tokens_documented → snapshot_wf s → graph_fits s →
  graph_index_from_amm s lin = Some (r, lin') →
  ∃ ix, r = Ok ix ∧ indexes (ss_version s) (searchable_table GraphBuildOptions_default s) ix.
Proof.
  intros Hdoc Hs Hfit Hr. unfold graph_index_from_amm in Hr.
  destruct (decide (lin < u64_max)%Z) as [Hlin|Hlin].
  - destruct (from_snapshot_ok layout GraphBuildOptions_default ParallelEdgeOutputs s lin Hdoc Hs Hlin)
      as (l & Hl & Hok & Ho & _).
    rewrite (live_bind_ok _ _ l lin (lin + 1)) in Hr by done. injection Hr as <- _.
    eexists. split; [done|]. by apply index_of_live.
  - rewrite live_bind_panic in Hr; [done|]. unfold from_snapshot, from_snapshot_with_liquidity_scope.
    rewrite live_bind_panic; [done|].
    unfold build_graph, from_registry, AmmGraph_new, GraphVersion_initial, u64_checked_add.
    by rewrite decide_False by lia.
Qed.

(** The snapshots of a runtime. *)
Record history_ok (hist : nat → AmmStateSnapshot) : Prop := {
  ho_wf n : snapshot_wf (hist n);
  ho_version n : ss_version (hist n) = (ss_version (hist 0%nat) + Z.of_nat n)%Z;
  ho_fits n : graph_fits (hist n);
}.

(** What a live graph publishes for the commit from one snapshot to another. *)
Definition published s s' d : Prop :=
  ∃ l cm l' lin lin', live_ok layout s l ∧ live_options l = GraphBuildOptions_default ∧
    commit_ok s cm ∧ commit_snapshot cm = s' ∧ version_room l cm lin ∧
    apply_commit cm l lin = Some (Ok (d, l'), lin').

Lemma published_between s s' d :
  versions_counted → snapshot_wf s → published s s' d →
  delta_between GraphBuildOptions_default s s' d.
Proof.
  intros Hver Hs (l & cm & l' & lin & lin' & Hok & Ho & Hcm & <- & Hroom & Happ).
  pose proof (apply_commit_cases layout s l cm lin Hver Hs Hcm Hok Hroom) as Hcases. simpl in Hcases.
  repeat (case_decide; [rewrite Happ in Hcases; done|]).
  destruct Hcases as (d' & l2 & lin2 & Heq & Hmv). rewrite Happ in Heq. simplify_eq.
  rewrite <-Ho. apply Hmv.
Qed.

(** The events of an updater when the runtime's latest snapshot is the [n]-th
    at first: commits in any order and number, with gaps, and losses; each
    carries what a rebuild from the latest snapshot gives at that time. *)
Inductive feed (hist : nat → AmmStateSnapshot) : nat → list UpdaterEvent → Prop :=
  | feed_nil n : feed hist n []
  | feed_commit n latest k d lin r lin' events :
      n ≤ latest → S k ≤ latest → (ss_version (hist latest) <= u64_max)%Z →
      published (hist k) (hist (S k)) d →
      graph_index_from_amm (hist latest) lin = Some (r, lin') →
      feed hist latest events → feed hist n (CommitApplied d r :: events)
  | feed_lagged n latest lin r lin' events :
      n ≤ latest → graph_index_from_amm (hist latest) lin = Some (r, lin') →
      feed hist latest events → feed hist n (Lagged r :: events).

(** The cache holds the index of the [n]-th snapshot. *)
Definition cached_at (hist : nat → AmmStateSnapshot) n c : Prop :=
  indexes (ss_version (hist n)) (searchable_table GraphBuildOptions_default (hist n)) (gc_index c) ∧
  gc_versions c = ss_version (hist n).

Lemma rebuild_cached hist latest lin r lin' c :
  tokens_documented → history_ok hist →
  graph_index_from_amm (hist latest) lin = Some (r, lin') →
  cached_at hist latest (rebuild_from_amm r c).
Proof.
  intros Hdoc Hh Hr. destruct (graph_index_from_amm_ok _ _ _ _ Hdoc (ho_wf _ Hh latest) (ho_fits _ Hh latest) Hr)
    as (ix & -> & Hix). split; [done|]. simpl. apply Hix.
Qed.

Lemma commit_cached hist n latest k d lin r lin' c :
  tokens_documented → history_ok hist → cached_at hist n c → n ≤ latest → S k ≤ latest →
  (ss_version (hist latest) <= u64_max)%Z →
  delta_between GraphBuildOptions_default (hist k) (hist (S k)) d →
  graph_index_from_amm (hist latest) lin = Some (r, lin') →
  ∃ n', n ≤ n' ≤ latest ∧ S k ≤ n' ∧ cached_at hist n' (on_commit_applied address_display d r c).
Proof.
  intros Hdoc Hh [Hix Hv] Hn Hk Hmax Hd Hr. pose proof (db_version _ _ _ _ Hd) as Hdv.
  pose proof (ix_version _ _ _ Hix) as Hiv. unfold on_commit_applied.
  pose proof (ho_version _ Hh n) as Hvn. pose proof (ho_version _ Hh (S k)) as Hvk.
  pose proof (ho_version _ Hh latest) as Hvl.
  destruct (decide (S k ≤ n)) as [Hold|Hnew]; [|destruct (decide (k = n)) as [->|Hgap]].
  - rewrite index_apply_delta_stale by lia. exists n. split_and!; [lia..|done].
  - destruct (index_apply_delta_moves address_display (gc_index c) d _ _
      (searchable_table GraphBuildOptions_default (hist (S n))) Hix) as (ix & -> & Hix').
    + apply delta_tables; [apply Hh..|done].
    + apply searchable_table_ok, Hh.
    + apply searchable_table_ok, Hh.
    + pose proof (ho_fits _ Hh n). pose proof (ho_fits _ Hh (S n)). unfold graph_fits in *. lia.
    + rewrite Hdv. lia.
    + lia.
    + exists (S n). split_and!; [lia..|]. split; simpl; [|done].
      by replace (ss_version (hist (S n))) with (ss_version (hist n) + 1)%Z by lia.
  - rewrite index_apply_delta_gap by lia. exists latest. split_and!; [lia..|]. by eapply rebuild_cached.
Qed.

Lemma feed_cached hist n latest events c :
  tokens_documented → versions_counted → history_ok hist → cached_at hist n c → n ≤ latest →
  feed hist latest events →
  ∃ n', n ≤ n' ∧ cached_at hist n' (foldl (on_event address_display) c events) ∧
    ∀ d r, CommitApplied d r ∈ events → (source_state_version d <= ss_version (hist n'))%Z.
Proof.
  intros Hdoc Hver Hh Hc Hn Hfeed. revert n c Hc Hn.
  induction Hfeed as [latest|latest0 latest k d lin r lin' events Hl Hk Hmax Hd Hr _ IH
    |latest0 latest lin r lin' events Hl Hr _ IH]; intros n c Hc Hn; cbn [foldl on_event].
  - exists n. split_and!; [done|done|]. set_solver.
  - apply published_between in Hd; [|done|apply Hh].
    destruct (commit_cached hist n latest k d lin r lin' c Hdoc Hh Hc) as (n1 & [H1 H2] & H3 & Hc1); try done; [lia|].
    destruct (IH n1 _ Hc1 H2) as (n' & Hn' & Hc' & Hd'). exists n'. split_and!; [lia|done|].
    intros d' r' [[= -> ->]|Hin]%elem_of_cons; [|by eapply Hd'].
    rewrite (db_version _ _ _ _ Hd), (ho_version _ Hh (S k)), (ho_version _ Hh n'). lia.
  - destruct (IH latest _ (rebuild_cached hist latest lin r lin' c Hdoc Hh Hr)) as (n' & Hn' & Hc' & Hd'); [done|].
    exists n'. split_and!; [lia|done|]. intros d' r' [?|Hin]%elem_of_cons; [done|]. by eapply Hd'.
Qed.

(** C22: The request-path index follows the live graph: whatever commits its
    updater is told of, in any order, with repetitions, gaps and losses, the
    index it serves is the one that building it from the live graph of some
    snapshot gives, no older than any commit it was told of, and its counters
    are those of that graph. *)
Theorem graph_index_follows hist k lin ix lin' events :
  tokens_documented → versions_counted → history_ok hist →
  graph_index_from_amm (hist k) lin = Some (Ok ix, lin') → feed hist k events →
  let c := foldl (on_event address_display) (cache_from_index ix) events in
  ∃ n, k ≤ n ∧ gc_versions c = ss_version (hist n) ∧
    (∀ d r, CommitApplied d r ∈ events → (source_state_version d <= ss_version (hist n))%Z) ∧
    ∀ l, live_ok layout (hist n) l → live_options l = GraphBuildOptions_default →
      gc_index c = from_graph (live_graph l) (live_state_version l) ∧
      ∀ token, stats token (gc_index c) = graph_stats (live_graph l) token.
Proof.
  intros Hdoc Hver Hh Hix Hfeed c.
  destruct (graph_index_from_amm_ok _ _ _ _ Hdoc (ho_wf _ Hh k) (ho_fits _ Hh k) Hix) as (? & [= <-] & Hok).
  destruct (feed_cached hist k k events (cache_from_index ix) Hdoc Hver Hh) as (n & Hn & [Hc Hv] & Hd);
    [split; [done|]; apply Hok|done|done|].
  exists n. split_and!; [done|done|done|]. intros l Hl Ho.
  destruct (index_of_live (hist n) l (ho_wf _ Hh n) Hl Ho (ho_fits _ Hh n)) as [Hix' Htable]. split.
  - assert (live_state_version l = ss_version (hist n)) as ->
      by (pose proof (lo_snapshot _ _ _ Hl) as Hm; apply matches_snapshot_spec in Hm; apply Hm).
    by eapply indexes_unique.
  - intros token. eapply stats_of_graph; [apply Hl..|]. by rewrite Htable.
Qed.
End theorems.
