(* ===== verification/Bytes.v ===== *)
(** * Byte strings and calldata

    A byte is an integer below 256.  [as_slice] and [to_be_bytes] write an
    integer as a fixed number of bytes, the most significant first; a contract
    reads 32-byte words of its calldata and shifts them. *)

From S2P Require Import Prelude.

Abbreviation Byte := Z (only parsing).
Abbreviation Bytes := (list Z) (only parsing).
Abbreviation B256 := Z (only parsing).

Definition is_byte (b : Byte) : Prop := (0 <= b < 256)%Z.

(** ** Big-endian integers *)

Fixpoint be_bytes (n : nat) (x : Z) : Bytes :=
  match n with
  | 0 => []
  | S n => be_bytes n (x / 256) ++ [(x mod 256)%Z]
  end.

Definition be_word (bytes : Bytes) : Z := foldl (λ word b, word * 256 + b)%Z 0%Z bytes.

Definition is_uint (bytes : nat) (x : Z) : Prop := (0 <= x < 256 ^ Z.of_nat bytes)%Z.

Lemma length_be_bytes n x : length (be_bytes n x) = n.
Proof. revert x. induction n as [|n IH]; intros x; simpl; [done|]. rewrite length_app, IH. simpl. lia. Qed.

Lemma be_bytes_range n x : Forall is_byte (be_bytes n x).
Proof.
  revert x. induction n as [|n IH]; intros x; simpl; [constructor|].
  apply Forall_app. split; [apply IH|]. constructor; [|constructor]. apply Z.mod_pos_bound. lia.
Qed.

Lemma be_word_snoc l b : be_word (l ++ [b]) = (be_word l * 256 + b)%Z.
Proof. unfold be_word. by rewrite foldl_app. Qed.

Lemma be_word_app l k :
  be_word (l ++ k) = (be_word l * 256 ^ Z.of_nat (length k) + be_word k)%Z.
Proof.
  induction k as [|b k IH] using rev_ind.
  - rewrite app_nil_r. change (256 ^ Z.of_nat (length []))%Z with 1%Z. unfold be_word at 3. simpl. lia.
  - rewrite app_assoc, !be_word_snoc, IH, length_app. simpl.
    replace (Z.of_nat (length k + 1)) with (Z.of_nat (length k) + 1)%Z by lia.
    rewrite Z.pow_add_r, Z.pow_1_r by lia. lia.
Qed.

Lemma be_word_range l : Forall is_byte l → is_uint (length l) (be_word l).
Proof.
  unfold is_uint, is_byte. induction l as [|b l IH] using rev_ind; intros Hl; [done|].
  apply Forall_app in Hl as [Hl Hb]. apply Forall_cons in Hb as [Hb _]. specialize (IH Hl).
  rewrite be_word_snoc, length_app. simpl length.
  replace (Z.of_nat (length l + 1)) with (Z.of_nat (length l) + 1)%Z by lia.
  rewrite Z.pow_add_r, Z.pow_1_r by lia. lia.
Qed.

(** Reading back what was written. *)
Lemma be_word_bytes n x : is_uint n x → be_word (be_bytes n x) = x.
Proof.
  unfold is_uint. revert x. induction n as [|n IH]; intros x Hx; cbn [be_bytes].
  - change (256 ^ Z.of_nat 0)%Z with 1%Z in Hx. unfold be_word. simpl. lia.
  - rewrite be_word_snoc, IH; [pose proof (Z.div_mod x 256); lia|].
    rewrite Nat2Z.inj_succ, Z.pow_succ_r in Hx by lia.
    split; [apply Z.div_pos; lia|apply Z.div_lt_upper_bound; lia].
Qed.

Lemma be_bytes_1 b : is_byte b → be_bytes 1 b = [b].
Proof. unfold is_byte. intros Hb. simpl. by rewrite Z.mod_small. Qed.

#[global] Opaque be_bytes.

(** ** Calldata *)

(** A byte string inside the calldata and the bytes that follow it. *)
Record Calldata := {
  cd_data : Bytes;
  cd_rest : Bytes;
}.

(** [calldataload(add(data.offset, offset))]: past the end it reads zeros. *)
Definition calldataload (data : Calldata) (offset : nat) : Z :=
  be_word (resize 32 0%Z (drop offset (cd_data data ++ cd_rest data))).

(** [byte(0, word)] and [shr(bits, word)]. *)
Definition word_top (bytes : nat) (word : Z) : Z := Z.shiftr word (256 - 8 * Z.of_nat bytes).

Definition readUint8 (data : Calldata) (offset : nat) : Z := word_top 1 (calldataload data offset).
Definition readUint16 (data : Calldata) (offset : nat) : Z := word_top 2 (calldataload data offset).
Definition readAddress (data : Calldata) (offset : nat) : Address :=
  word_top 20 (calldataload data offset).
Definition readBytes32 (data : Calldata) (offset : nat) : B256 := calldataload data offset.

Definition calldata_ok (data : Calldata) : Prop :=
  Forall is_byte (cd_data data) ∧ Forall is_byte (cd_rest data).

Lemma resize_bytes n l : Forall is_byte l → Forall is_byte (resize n 0%Z l).
Proof. intros Hl. apply Forall_resize; [|done]. split; lia. Qed.

(** A word that starts with the bytes of an integer. *)
Lemma word_top_resize n l k :
  n ≤ 32 → length l = n → Forall is_byte k →
  word_top n (be_word (resize 32 0%Z (l ++ k))) = be_word l.
Proof.
  intros Hn Hl Hk. unfold word_top.
  rewrite resize_app_ge, Hl by lia.
  rewrite be_word_app, length_resize. set (w := be_word (resize (32 - n) 0%Z k)).
  assert (is_uint (32 - n) w) as Hw.
  { pose proof (be_word_range (resize (32 - n) 0%Z k) (resize_bytes _ _ Hk)) as Hr.
    by rewrite length_resize in Hr. }
  unfold is_uint in Hw. rewrite Z.shiftr_div_pow2 by lia.
  assert (256 ^ Z.of_nat (32 - n) = 2 ^ (256 - 8 * Z.of_nat n))%Z as Hpow.
  { replace 256%Z with (2 ^ 8)%Z at 1 by reflexivity. rewrite <-Z.pow_mul_r by lia. f_equal. lia. }
  rewrite <-Hpow, Z.div_add_l by lia. rewrite (Z.div_small w) by lia. lia.
Qed.

(** Reading an integer where it was written. *)
Lemma read_written n x (data : Calldata) pre post :
  n ≤ 32 → is_uint n x → calldata_ok data → cd_data data = pre ++ be_bytes n x ++ post →
  word_top n (calldataload data (length pre)) = x.
Proof.
  intros Hn Hx [Hd Hr] Heq. unfold calldataload. rewrite Heq, <-app_assoc, drop_app_length, <-app_assoc.
  rewrite word_top_resize; [by apply be_word_bytes|done|apply length_be_bytes|].
  rewrite Heq in Hd. apply Forall_app in Hd as [_ Hd]. apply Forall_app in Hd as [_ Hd].
  by apply Forall_app.
Qed.
