(* ===== verification/ExecutorRouter.v ===== *)
(** * The executor contract ([contracts/ExperimentalExecutorRouter.sol])

    The contract that executes the transactions the sidecar builds: it reads a
    packed route from its calldata and swaps hop by hop.  Other contracts are
    parameters: [Evm] has what their view functions answer and how a call of one
    changes the state, the contract's own storage included, since a call may
    come back through the callbacks.  A step runs in the monad [RouterM]: a
    revert is an error, and [None] is a loop out of fuel. *)

From S2P Require Import Prelude Bytes.

(** ** Constants and data *)

Definition PROTOCOL_UNISWAP_V2 : Z := 0.
Definition PROTOCOL_UNISWAP_V3 : Z := 1.
Definition PROTOCOL_PANCAKE_V3 : Z := 2.
Definition PROTOCOL_SLIPSTREAM : Z := 3.
Definition PROTOCOL_SOLIDLY_V2 : Z := 4.
Definition PROTOCOL_BALANCER_V2 : Z := 5.
Definition PROTOCOL_CURVE_STABLE : Z := 6.
Definition PROTOCOL_CURVE_CRYPTO : Z := 7.
Definition PROTOCOL_CURVE_CRYPTO_NG : Z := 8.
Definition HOP_COMMON_SIZE : nat := 61.
Definition MIN_SQRT_RATIO : Z := 4295128739 + 1.
Definition MAX_SQRT_RATIO : Z := 1461446703485210103287273052203988822378723970342 - 1.

(** The last two are a revert of another contract and Solidity's own panic. *)
Inductive RouterError : Type :=
  | InvalidPackedRoute
  | InvalidRouteToken (expected actual : Address)
  | UnsupportedProtocol (protocol : Z)
  | InsufficientOutput (minimum actual : Z)
  | ZeroRecipient
  | Expired (deadline timestamp : Z)
  | Reentrancy
  | InvalidNativeInput (expectedToken actualToken : Address) (expectedAmount actualAmount : Z)
  | InvalidCallback (caller expected : Address)
  | InvalidCallbackPayment (requested remaining : Z)
  | InvalidCallbackDeltas (amount0Delta amount1Delta : Z)
  | ZeroMinAmountOut
  | ZeroDeploymentDependency
  | InvalidFeeBps (feeBps : Z)
  | InvalidTokenPair (token : Address)
  | InvalidInputAmount (expected received : Z)
  | InvalidRecipientOutput (expected received : Z)
  | IncompleteHopConsumption (token : Address) (expected consumed : Z)
  | UnsafeEndBalance (token : Address) (expected actual : Z)
  | ExternalRevert
  | ArithmeticPanic.

Record ExactInputParams := {
  tokenIn : Address;
  tokenOut : Address;
  amountIn : Z;
  minAmountOut : Z;
  recipient : Address;
  deadline : Z;
  route : Calldata;
}.

Record RouterStorage := {
  unlocked : Z;
  callbackPool : Address;
  callbackToken : Address;
  callbackAmount : Z;
}.

(** The calls the contract makes that change the state. *)
Inductive ExternalCall : Type :=
  | SafeTransferFrom (token from to : Address) (amount : Z)
  | SafeTransfer (token to : Address) (amount : Z)
  | SafeApprove (token spender : Address) (amount : Z)
  | SafeApproveWithRetry (token spender : Address) (amount : Z)
  | Permit (token owner spender : Address) (value deadline v : Z) (r s : B256)
  | PermitTransferFrom (permit2 token : Address) (amount nonce deadline : Z) (to : Address)
      (requested : Z) (owner : Address) (signature : Bytes)
  | WethDeposit (weth : Address) (value : Z)
  | PairSwap (pair : Address) (amount0Out amount1Out : Z)
  | V3Swap (pool : Address) (zeroForOne : bool) (amountIn sqrtPriceLimitX96 : Z)
  | VaultSwap (vault : Address) (poolId : B256) (assetIn assetOut : Address) (amount limit deadline : Z)
  | CurveExchange4 (pool : Address) (selector i j amountIn : Z)
  | CurveExchange5 (pool : Address) (selector i j amountIn : Z).

(** What is not this contract: [self] is its address, the three view
    functions read a word of what another contract answers. *)
Class Evm := {
  World : Type;
  self : Address;
  WETH : Address;
  PERMIT2 : Address;
  ether_balance : World → Z;
  evm_balanceOf : World → Address → Address → option Z;
  evm_getReserves : World → Address → option (Z * Z);
  evm_solidlyAmountOut : World → Address → Z → Address → option Z;
  evm_call : ExternalCall → RouterStorage * World → option (RouterStorage * World);
}.

(** What the constructor keeps: [WETH] and [PERMIT2]. *)
Definition constructor (weth permit2 : Address) : result RouterError (Address * Address) :=
  if decide (weth = 0%Z ∨ permit2 = 0%Z) then Err ZeroDeploymentDependency else Ok (weth, permit2).

(** The transaction: who calls, with how much ether, and when. *)
Record Message := {
  msg_sender : Address;
  msg_value : Z;
  block_timestamp : Z;
}.

Section contract.
Context `{!Evm} (msg : Message).

Abbreviation EvmState := (RouterStorage * World)%type.

Definition RouterM (A : Type) : Type := EvmState → option (result RouterError (A * EvmState)).

#[export] Instance RouterM_ret : MRet RouterM := λ A a st, Some (Ok (a, st)).
#[export] Instance RouterM_bind : MBind RouterM := λ A B f m st,
  match m st with
  | Some (Ok (a, st)) => f a st
  | Some (Err e) => Some (Err e)
  | None => None
  end.

Definition revert {A} (e : RouterError) : RouterM A := λ _, Some (Err e).
Definition out_of_fuel {A} : RouterM A := λ _, None.
Definition lift {A} (r : result RouterError A) : RouterM A := λ st,
  match r with Ok a => Some (Ok (a, st)) | Err e => Some (Err e) end.
(** [if (condition) revert e]. *)
Definition revert_if (condition : bool) (e : RouterError) : RouterM () :=
  if condition then revert e else mret ().

Definition call_external (c : ExternalCall) : RouterM () := λ st,
  match evm_call c st with Some st => Some (Ok ((), st)) | None => Some (Err ExternalRevert) end.
Definition static_view {A} (f : World → option A) : RouterM A := λ st,
  match f st.2 with Some a => Some (Ok (a, st)) | None => Some (Err ExternalRevert) end.
Definition get_storage : RouterM RouterStorage := λ st, Some (Ok (st.1, st)).
Definition put_storage (s : RouterStorage) : RouterM () := λ st, Some (Ok ((), (s, st.2))).
Definition etherBalance : RouterM Z := λ st, Some (Ok (ether_balance st.2, st)).

(** Checked arithmetic on [uint256]. *)
Definition uint_sub (x y : Z) : RouterM Z := if decide (y <= x)%Z then mret (x - y)%Z else revert ArithmeticPanic.
Definition uint_add (x y : Z) : RouterM Z :=
  if decide (x + y < u256_modulus)%Z then mret (x + y)%Z else revert ArithmeticPanic.
Definition uint_mul (x y : Z) : RouterM Z :=
  if decide (x * y < u256_modulus)%Z then mret (x * y)%Z else revert ArithmeticPanic.
Definition uint_div (x y : Z) : RouterM Z := if decide (y = 0)%Z then revert ArithmeticPanic else mret (x / y)%Z.

(** ** Reading other contracts *)

Definition balanceOf (token owner : Address) : RouterM Z := static_view (λ w, evm_balanceOf w token owner).
Definition getReserves (pair : Address) : RouterM (Z * Z) := static_view (λ w, evm_getReserves w pair).
Definition solidlyAmountOut (pool : Address) (amountIn : Z) (tokenIn : Address) : RouterM Z :=
  static_view (λ w, evm_solidlyAmountOut w pool amountIn tokenIn).

(** ** Swaps *)

Definition getAmountOut (amountIn reserveIn reserveOut feeBps : Z) : RouterM Z :=
  rest ← uint_sub 10000 feeBps;
  amountInWithFee ← uint_mul amountIn rest;
  numerator ← uint_mul amountInWithFee reserveOut;
  scaled ← uint_mul reserveIn 10000;
  denominator ← uint_add scaled amountInWithFee;
  uint_div numerator denominator.

Definition swapV2 (pair tokenIn tokenOut : Address) (amountIn feeBps : Z) : RouterM () :=
  _ ← revert_if (10000 <=? feeBps)%Z (InvalidFeeBps feeBps);
  let zeroForOne := (tokenIn <? tokenOut)%Z in
  '(reserve0, reserve1) ← getReserves pair;
  let '(reserveIn, reserveOut) := if zeroForOne then (reserve0, reserve1) else (reserve1, reserve0) in
  amountOut ← getAmountOut amountIn reserveIn reserveOut feeBps;
  _ ← call_external (SafeTransfer tokenIn pair amountIn);
  call_external (PairSwap pair (if zeroForOne then 0 else amountOut) (if zeroForOne then amountOut else 0))%Z.

Definition set_callback (pool token : Address) (amount : Z) : RouterM () :=
  s ← get_storage;
  put_storage {| unlocked := unlocked s; callbackPool := pool; callbackToken := token;
                 callbackAmount := amount |}.

Definition swapV3Family (pool tokenIn tokenOut : Address) (amountIn : Z) : RouterM () :=
  let zeroForOne := (tokenIn <? tokenOut)%Z in
  _ ← set_callback pool tokenIn amountIn;
  _ ← call_external (V3Swap pool zeroForOne amountIn (if zeroForOne then MIN_SQRT_RATIO else MAX_SQRT_RATIO));
  set_callback 0 0 0.

Definition swapSolidlyV2 (pool tokenIn tokenOut : Address) (amountIn : Z) : RouterM () :=
  let zeroForOne := (tokenIn <? tokenOut)%Z in
  amountOut ← solidlyAmountOut pool amountIn tokenIn;
  _ ← call_external (SafeTransfer tokenIn pool amountIn);
  call_external (PairSwap pool (if zeroForOne then 0 else amountOut) (if zeroForOne then amountOut else 0))%Z.

Definition swapBalancerV2 (vault : Address) (poolId : B256) (tokenIn tokenOut : Address) (amountIn : Z) :
    RouterM () :=
  _ ← call_external (SafeApproveWithRetry tokenIn vault amountIn);
  _ ← call_external (VaultSwap vault poolId tokenIn tokenOut amountIn 0 (block_timestamp msg));
  call_external (SafeApprove tokenIn vault 0).

Definition swapCurve (pool tokenIn : Address) (amountIn i j protocol : Z) : RouterM () :=
  _ ← call_external (SafeApproveWithRetry tokenIn pool amountIn);
  _ ← (if decide (protocol = PROTOCOL_CURVE_STABLE) then
         call_external (CurveExchange4 pool 0x3df02124 i j amountIn)
       else if decide (protocol = PROTOCOL_CURVE_CRYPTO) then
         call_external (CurveExchange4 pool 0x5b41b908 i j amountIn)
       else call_external (CurveExchange5 pool 0x394747c5 i j amountIn));
  call_external (SafeApprove tokenIn pool 0).

(** [_v3PayCallback], entered by a pool during a swap: the deltas are signed
    words. *)
Definition v3PayCallback (amount0Delta amount1Delta : Z) : RouterM () :=
  s ← get_storage;
  let expectedPool := callbackPool s in
  _ ← revert_if (bool_decide (msg_sender msg ≠ expectedPool) || bool_decide (expectedPool = 0%Z))
        (InvalidCallback (msg_sender msg) expectedPool);
  let amount0Positive := (0 <? amount0Delta)%Z in
  let amount1Positive := (0 <? amount1Delta)%Z in
  _ ← revert_if (Bool.eqb amount0Positive amount1Positive) (InvalidCallbackDeltas amount0Delta amount1Delta);
  let word0 := (amount0Delta mod u256_modulus)%Z in
  let word1 := (amount1Delta mod u256_modulus)%Z in
  let amountToPay := Z.lxor word0 (Z.lxor word0 word1 * Z.b2z amount1Positive) in
  let remaining := callbackAmount s in
  _ ← revert_if (bool_decide (amountToPay = 0%Z) || (remaining <? amountToPay)%Z)
        (InvalidCallbackPayment amountToPay remaining);
  left ← uint_sub remaining amountToPay;
  _ ← put_storage {| unlocked := unlocked s; callbackPool := callbackPool s;
                     callbackToken := callbackToken s; callbackAmount := left |};
  call_external (SafeTransfer (callbackToken s) (msg_sender msg) amountToPay).

(** ** Reading the packed route *)

Definition requireRoute (data : Calldata) (offset len : nat) : result RouterError () :=
  if decide (length (cd_data data) < offset ∨ length (cd_data data) - offset < len)
  then Err InvalidPackedRoute else Ok ().

(** What a hop asks for, beyond its tokens. *)
Inductive HopAction : Type :=
  | ActV2 (endpoint : Address) (feeBps : Z)
  | ActV3Family (endpoint : Address)
  | ActSolidlyV2 (endpoint : Address)
  | ActBalancerV2 (endpoint : Address) (poolId : B256)
  | ActCurve (endpoint : Address) (i j protocol : Z).

(** The branch of the loop for a protocol reads what follows the common part. *)
Definition read_action (data : Calldata) (protocol : Z) (endpoint : Address) (nextOffset : nat) :
    result RouterError (HopAction * nat) :=
  if decide (protocol = PROTOCOL_UNISWAP_V2) then
    _ ← requireRoute data nextOffset 2;
    Ok (ActV2 endpoint (readUint16 data nextOffset), nextOffset + 2)
  else if decide (protocol = PROTOCOL_UNISWAP_V3 ∨ protocol = PROTOCOL_PANCAKE_V3 ∨
                  protocol = PROTOCOL_SLIPSTREAM) then
    Ok (ActV3Family endpoint, nextOffset)
  else if decide (protocol = PROTOCOL_SOLIDLY_V2) then
    Ok (ActSolidlyV2 endpoint, nextOffset)
  else if decide (protocol = PROTOCOL_BALANCER_V2) then
    _ ← requireRoute data nextOffset 32;
    Ok (ActBalancerV2 endpoint (readBytes32 data nextOffset), nextOffset + 32)
  else if decide (protocol = PROTOCOL_CURVE_STABLE ∨ protocol = PROTOCOL_CURVE_CRYPTO ∨
                  protocol = PROTOCOL_CURVE_CRYPTO_NG) then
    _ ← requireRoute data nextOffset 2;
    Ok (ActCurve endpoint (readUint8 data nextOffset) (readUint8 data (nextOffset + 1)) protocol,
        nextOffset + 2)
  else Err (UnsupportedProtocol protocol).

Definition run_action (action : HopAction) (tokenIn tokenOut : Address) (amount : Z) : RouterM () :=
  match action with
  | ActV2 endpoint feeBps => swapV2 endpoint tokenIn tokenOut amount feeBps
  | ActV3Family endpoint => swapV3Family endpoint tokenIn tokenOut amount
  | ActSolidlyV2 endpoint => swapSolidlyV2 endpoint tokenIn tokenOut amount
  | ActBalancerV2 endpoint poolId => swapBalancerV2 endpoint poolId tokenIn tokenOut amount
  | ActCurve endpoint i j protocol => swapCurve endpoint tokenIn amount i j protocol
  end.

(** The body of the loop after the common part is read: [read] is the branch
    of the hop's protocol. *)
Definition execute_hop {O} (read : result RouterError (HopAction * O))
    (hopIn hopOut currentToken : Address) (currentAmount : Z) : RouterM (Address * Z * O) :=
  _ ← revert_if (bool_decide (hopIn ≠ currentToken)) (InvalidRouteToken currentToken hopIn);
  hopInputBalanceBefore ← balanceOf hopIn self;
  outputBalanceBefore ← balanceOf hopOut self;
  '(action, nextOffset) ← lift read;
  _ ← run_action action hopIn hopOut currentAmount;
  hopInputBalanceAfter ← balanceOf hopIn self;
  consumed ← uint_sub hopInputBalanceBefore hopInputBalanceAfter;
  _ ← revert_if (bool_decide (consumed ≠ currentAmount))
        (IncompleteHopConsumption hopIn currentAmount consumed);
  outputBalanceAfter ← balanceOf hopOut self;
  amount ← uint_sub outputBalanceAfter outputBalanceBefore;
  mret (hopOut, amount, nextOffset).

Fixpoint execute_hops (fuel : nat) (data : Calldata) (offset : nat) (currentToken : Address)
    (currentAmount : Z) : RouterM (Address * Z) :=
  if decide (offset < length (cd_data data)) then
    match fuel with
    | 0 => out_of_fuel
    | S fuel =>
        _ ← lift (requireRoute data offset HOP_COMMON_SIZE);
        let protocol := readUint8 data offset in
        let endpoint := readAddress data (offset + 1) in
        let hopIn := readAddress data (offset + 21) in
        let hopOut := readAddress data (offset + 41) in
        '(token, amount, nextOffset) ←
          execute_hop (read_action data protocol endpoint (offset + HOP_COMMON_SIZE)) hopIn hopOut
            currentToken currentAmount;
        execute_hops fuel data nextOffset token amount
    end
  else mret (currentToken, currentAmount).

(** What follows the loop of [_execute]. *)
Definition settle_output (params : ExactInputParams) (startingInputBalance finalBalanceBefore : Z)
    (currentToken : Address) (amountOut : Z) : RouterM Z :=
  _ ← revert_if (bool_decide (currentToken ≠ tokenOut params))
        (InvalidRouteToken (tokenOut params) currentToken);
  _ ← revert_if (amountOut <? minAmountOut params)%Z (InsufficientOutput (minAmountOut params) amountOut);
  recipientBalanceBefore ← balanceOf (tokenOut params) (recipient params);
  _ ← call_external (SafeTransfer (tokenOut params) (recipient params) amountOut);
  recipientBalanceAfter ← balanceOf (tokenOut params) (recipient params);
  let recipientAmount := if (recipientBalanceBefore <=? recipientBalanceAfter)%Z
                         then (recipientBalanceAfter - recipientBalanceBefore)%Z else 0%Z in
  _ ← revert_if (bool_decide (recipientAmount ≠ amountOut)) (InvalidRecipientOutput amountOut recipientAmount);
  finalBalanceAfter ← balanceOf (tokenOut params) self;
  _ ← revert_if (bool_decide (finalBalanceAfter ≠ finalBalanceBefore))
        (UnsafeEndBalance (tokenOut params) finalBalanceBefore finalBalanceAfter);
  endingInputBalance ← balanceOf (tokenIn params) self;
  _ ← revert_if (bool_decide (endingInputBalance ≠ startingInputBalance))
        (UnsafeEndBalance (tokenIn params) startingInputBalance endingInputBalance);
  mret amountOut.

Definition execute (params : ExactInputParams) (startingInputBalance finalBalanceBefore : Z) : RouterM Z :=
  let data := route params in
  _ ← lift (requireRoute data 0 (20 + HOP_COMMON_SIZE));
  let encodedFinalToken := readAddress data 0 in
  _ ← revert_if (bool_decide (encodedFinalToken ≠ tokenOut params))
        (InvalidRouteToken (tokenOut params) encodedFinalToken);
  '(currentToken, amountOut) ←
    execute_hops (length (cd_data data)) data 20 (tokenIn params) (amountIn params);
  settle_output params startingInputBalance finalBalanceBefore currentToken amountOut.

(** ** Entry points *)

Definition validate (params : ExactInputParams) : result RouterError () :=
  if decide (recipient params = 0%Z) then Err ZeroRecipient
  else if decide (tokenIn params = tokenOut params) then Err (InvalidTokenPair (tokenIn params))
  else if decide (minAmountOut params = 0%Z) then Err ZeroMinAmountOut
  else if decide (deadline params < block_timestamp msg)%Z
  then Err (Expired (deadline params) (block_timestamp msg))
  else Ok ().

Definition set_unlocked (v : Z) : RouterM () :=
  s ← get_storage;
  put_storage {| unlocked := v; callbackPool := callbackPool s; callbackToken := callbackToken s;
                 callbackAmount := callbackAmount s |}.

(** The modifier around a body. *)
Definition nonReentrant {A} (body : RouterM A) : RouterM A :=
  s ← get_storage;
  _ ← revert_if (bool_decide (unlocked s ≠ 1%Z)) Reentrancy;
  _ ← set_unlocked 2;
  a ← body;
  _ ← set_unlocked 1;
  mret a.

Definition requireExactFunding (token : Address) (balanceBefore expected : Z) : RouterM () :=
  balanceAfter ← balanceOf token self;
  let received := if (balanceBefore <=? balanceAfter)%Z then (balanceAfter - balanceBefore)%Z else 0%Z in
  revert_if (bool_decide (received ≠ expected)) (InvalidInputAmount expected received).

(** The entry points differ in how the input is [fund]ed. *)
Definition execute_funded (params : ExactInputParams) (fund : RouterM ()) : RouterM Z :=
  inputBalanceBefore ← balanceOf (tokenIn params) self;
  finalBalanceBefore ← balanceOf (tokenOut params) self;
  _ ← fund;
  _ ← requireExactFunding (tokenIn params) inputBalanceBefore (amountIn params);
  execute params inputBalanceBefore finalBalanceBefore.

Definition executeExactInput (params : ExactInputParams) : RouterM Z :=
  nonReentrant (
    _ ← lift (validate params);
    execute_funded params
      (call_external (SafeTransferFrom (tokenIn params) (msg_sender msg) self (amountIn params)))).

Definition executeExactInputNative (params : ExactInputParams) : RouterM Z :=
  nonReentrant (
    _ ← lift (validate params);
    _ ← revert_if (bool_decide (tokenIn params ≠ WETH) || bool_decide (amountIn params ≠ msg_value msg))
          (InvalidNativeInput WETH (tokenIn params) (amountIn params) (msg_value msg));
    ethBalance ← etherBalance;
    ethBalanceBefore ← uint_sub ethBalance (msg_value msg);
    amountOut ← execute_funded params (call_external (WethDeposit WETH (msg_value msg)));
    ethBalanceAfter ← etherBalance;
    _ ← revert_if (bool_decide (ethBalanceAfter ≠ ethBalanceBefore))
          (UnsafeEndBalance 0 ethBalanceBefore ethBalanceAfter);
    mret amountOut).

Definition executeExactInputWithPermit (params : ExactInputParams) (v : Z) (r s : B256) : RouterM Z :=
  nonReentrant (
    _ ← lift (validate params);
    _ ← call_external (Permit (tokenIn params) (msg_sender msg) self (amountIn params) (deadline params) v r s);
    execute_funded params
      (call_external (SafeTransferFrom (tokenIn params) (msg_sender msg) self (amountIn params)))).

Definition executeExactInputWithPermit2 (params : ExactInputParams) (nonce permit_deadline : Z)
    (signature : Bytes) : RouterM Z :=
  nonReentrant (
    _ ← lift (validate params);
    execute_funded params
      (call_external (PermitTransferFrom PERMIT2 (tokenIn params) (amountIn params) nonce permit_deadline
         self (amountIn params) (msg_sender msg) signature))).
End contract.
