(* ===== verification/Execution.v ===== *)
(** * Executable swaps ([sidecar/src/execution.rs])

    From a quoted route to the transaction that executes it: the quote is
    checked against its own trace, the route is packed for the executor contract
    and the call is chosen by how the input is paid.  An [anyhow] error is its
    [Display], which shows the outermost context. *)

From S2P Require Import Prelude Bytes AmmState SearchTypes.

(** ** Data *)

Record ExecutorDeployment := {
  router : Address;
  weth : Address;
  permit2 : Address;
}.

Inductive InputAuthorization : Type :=
  | Allowance
  | Native
  | Erc2612 (v : Z) (r s : B256)
  | Permit2 (nonce deadline : U256) (signature : Bytes).

Record ExecutionRequest := {
  deployment : ExecutorDeployment;
  er_recipient : Address;
  er_deadline : U256;
  er_min_amount_out : option U256;
  authorization : InputAuthorization;
}.

Record ApprovalRequirement := {
  ap_token : Address;
  ap_spender : Address;
  ap_minimum_amount : U256;
}.

Record ExecutableSwap := {
  es_to : Address;
  es_value : U256;
  es_data : Bytes;
  es_approval : option ApprovalRequirement;
  es_min_amount_out : U256;
  es_deadline : U256;
}.

(** The calls of [router_abi]. *)
Record RouterParams := {
  rp_token_in : Address;
  rp_token_out : Address;
  rp_amount_in : U256;
  rp_min_amount_out : U256;
  rp_recipient : Address;
  rp_deadline : U256;
  rp_route : Bytes;
}.

Inductive RouterCall : Type :=
  | ExecuteExactInputCall (params : RouterParams)
  | ExecuteExactInputNativeCall (params : RouterParams)
  | ExecuteExactInputWithPermitCall (params : RouterParams) (v : Z) (r s : B256)
  | ExecuteExactInputWithPermit2Call (params : RouterParams) (nonce deadline : U256) (signature : Bytes).

(** ** Errors *)

Abbreviation anyhow := (result string) (only parsing).

Definition ensure (condition : bool) (message : string) : anyhow () :=
  if condition then Ok () else Err message.
Definition context {A} (o : option A) (message : string) : anyhow A := ok_or o message.
Definition with_message {A} (r : anyhow A) (message : string) : anyhow A :=
  match r with Ok a => Ok a | Err _ => Err message end.

(** ** The output floor *)

Definition u256_mul (x y : U256) : U256 := u256_wrap (x * y)%Z.

Definition min_amount_out_from_slippage (amount_out : U256) (slippage_bps : Z) : anyhow U256 :=
  _ ← ensure (slippage_bps <? 10000)%Z "slippage_bps must be below 10000";
  let scale := 10000%Z in
  let retained := (10000 - slippage_bps)%Z in
  let minimum := u256_add (u256_mul (amount_out / scale) retained)
                   (u256_mul (amount_out mod scale) retained / scale) in
  _ ← ensure (bool_decide (minimum ≠ 0%Z)) "slippage produces a zero min_amount_out";
  Ok minimum.

(** ** The keys of pools *)

(** The variants of [PoolKey], as the encoders match on them; [Other] stands
    for those they do not name. *)
Module PoolKeyView.
Inductive t : Type :=
  | UniswapV2 (pool : Address)
  | UniswapV3 (pool : Address)
  | PancakeV3 (pool : Address)
  | Slipstream (pool : Address)
  | SolidlyV2 (pool : Address)
  | BalancerV2 (pool_id : B256)
  | Curve (pool : Address)
  | Custom
  | Other (tag : Z).
End PoolKeyView.

Class AmmKeys `{!AmmTypes} := { pool_key_view : PoolKey → PoolKeyView.t }.

(** [iter().position(|coin| coin == token)]. *)
Definition coin_position (coins : list Address) (token : Address) : option nat :=
  fst <$> list_find (λ coin, coin = token) coins.

Definition u8_try_from (x : Z) : option Z := if decide (x < 256)%Z then Some x else None.
Definition u16_try_from (x : Z) : option Z := if decide (x <= u16_max)%Z then Some x else None.

Section execution.
Context `{!AmmTypes} `{!AmmKeys} (abi_encode : RouterCall → Bytes).

(** ** Checking *)

Definition validate_request (request : ExecutionRequest) : anyhow () :=
  _ ← ensure (bool_decide (router (deployment request) ≠ 0%Z)) "router must be non-zero";
  _ ← ensure (bool_decide (weth (deployment request) ≠ 0%Z)) "WETH must be non-zero";
  _ ← ensure (bool_decide (permit2 (deployment request) ≠ 0%Z)) "Permit2 must be non-zero";
  _ ← ensure (bool_decide (er_recipient request ≠ 0%Z)) "recipient must be non-zero";
  _ ← ensure (bool_decide (er_deadline request ≠ 0%Z)) "deadline must be non-zero";
  match authorization request with
  | Permit2 _ deadline _ => ensure (bool_decide (deadline ≠ 0%Z)) "Permit2 deadline must be non-zero"
  | _ => Ok ()
  end.

(** The loop over the hops of the path and of the trace: what it returns is
    the expected amount after the last hop. *)
Fixpoint validate_hops (path : RoutePath) (trace : list HopQuote) (expected_token : option Address)
    (expected_amount : U256) : anyhow U256 :=
  match path, trace with
  | path_hop :: path, quoted_hop :: trace =>
      _ ← ensure (bool_decide (path_hop = hq_hop quoted_hop)) "route path and quote trace hops differ";
      _ ← match expected_token with
          | Some expected_token =>
              ensure (bool_decide (hop_token_in path_hop = expected_token))
                "route token continuity is broken"
          | None => Ok ()
          end;
      _ ← ensure (bool_decide (hq_amount_in quoted_hop = expected_amount))
            "route amount continuity is broken";
      validate_hops path trace (Some (hop_token_out path_hop)) (hq_amount_out quoted_hop)
  | _, _ => Ok expected_amount
  end.

Definition validate_quote (quote : RouteQuote) : anyhow () :=
  _ ← ensure (bool_decide (rq_amount_in quote ≠ 0%Z)) "route amount_in must be non-zero";
  _ ← ensure (bool_decide (length (rq_path quote) = length (rq_hops quote)))
        "route path and quote trace lengths differ";
  expected_amount ← validate_hops (rq_path quote) (rq_hops quote) None (rq_amount_in quote);
  ensure (bool_decide (expected_amount = rq_amount_out quote))
    "route final amount does not match its quote trace".

(** ** Packing the route *)

(** What the match on the key and the metadata gives for a hop. *)
Definition hop_encoding (hop : Hop) (registration : PoolRegistration) :
    anyhow (Z * Address * Bytes) :=
  match pool_key_view (hop_pool hop), reg_metadata registration with
  | PoolKeyView.UniswapV2 pool, ProtocolMetadata.UniswapV2 _ _ fee_bps =>
      fee_bps ← context fee_bps "Uniswap V2 execution requires configured fee_bps";
      _ ← ensure (fee_bps <? 10000)%Z "Uniswap V2 fee_bps must be below 10000";
      fee_bps ← context (u16_try_from fee_bps) "Uniswap V2 fee_bps overflows uint16";
      Ok (0%Z, pool, be_bytes 2 fee_bps)
  | PoolKeyView.UniswapV3 pool, ProtocolMetadata.UniswapV3 _ _ _ => Ok (1%Z, pool, [])
  | PoolKeyView.PancakeV3 pool, ProtocolMetadata.PancakeV3 _ _ _ => Ok (2%Z, pool, [])
  | PoolKeyView.Slipstream pool, ProtocolMetadata.Slipstream _ _ _ => Ok (3%Z, pool, [])
  | PoolKeyView.SolidlyV2 pool, ProtocolMetadata.SolidlyV2 _ _ => Ok (4%Z, pool, [])
  | PoolKeyView.BalancerV2 pool_id, ProtocolMetadata.BalancerV2 _ vault _ =>
      vault ← context (match vault with Some vault => Some vault | None => head (reg_state_addresses registration) end)
        "Balancer V2 execution requires a vault address";
      Ok (5%Z, vault, be_bytes 32 pool_id)
  | PoolKeyView.Curve pool, ProtocolMetadata.Curve coins variant =>
      input_index ← context (coin_position coins (hop_token_in hop))
        "Curve token_in is absent from pool metadata";
      output_index ← context (coin_position coins (hop_token_out hop))
        "Curve token_out is absent from pool metadata";
      _ ← ensure (bool_decide (input_index ≠ output_index)) "Curve hop uses the same coin twice";
      input_index ← context (u8_try_from (Z.of_nat input_index)) "Curve input index overflows uint8";
      output_index ← context (u8_try_from (Z.of_nat output_index)) "Curve output index overflows uint8";
      protocol ← match variant with
                 | CurveVariant.StableSwap => Ok 6%Z
                 | CurveVariant.CryptoSwap => Ok 7%Z
                 | CurveVariant.CryptoSwapNG => Ok 8%Z
                 | CurveVariant.Other _ => Err "unsupported Curve variant for executor router"
                 end;
      Ok (protocol, pool, [input_index; output_index])
  | PoolKeyView.Custom, ProtocolMetadata.Custom _ =>
      Err "custom graph adapters are not supported by the executor router"
  | _, _ => Err ("unsupported or mismatched execution metadata for " +:+ pool_debug (hop_pool hop))
  end.

Definition push_hop (packed : Bytes) (hop : Hop) (encoding : Z * Address * Bytes) : Bytes :=
  let '(protocol, endpoint, extra) := encoding in
  packed ++ [protocol] ++ be_bytes 20 endpoint ++ be_bytes 20 (hop_token_in hop) ++
  be_bytes 20 (hop_token_out hop) ++ extra.

Fixpoint pack_hops (registry : AdapterRegistry) (hops : RoutePath) (packed : Bytes) : anyhow Bytes :=
  match hops with
  | [] => Ok packed
  | hop :: hops =>
      registration ← context (registry_pool registry (hop_pool hop))
        ("missing pool registration for " +:+ pool_debug (hop_pool hop));
      encoding ← hop_encoding hop registration;
      pack_hops registry hops (push_hop packed hop encoding)
  end.

(** ** Building *)

(** The floor: the caller's, or the output of the second route. *)
Definition fallback_min_amount_out (routes : list RouteQuote) (quote : RouteQuote)
    (first_hop final_hop : Hop) : anyhow U256 :=
  fallback ← context (routes !! 1) "min_amount_out is required when no second route is available";
  _ ← with_message (validate_quote fallback) "invalid second route used for min_amount_out";
  _ ← ensure (bool_decide (rq_amount_in fallback = rq_amount_in quote))
        "second route amount_in does not match the best route";
  _ ← ensure (bool_decide (hop_token_in <$> head (rq_path fallback) = Some (hop_token_in first_hop))
              && bool_decide (hop_token_out <$> last (rq_path fallback) = Some (hop_token_out final_hop)))
        "second route token pair does not match the best route";
  _ ← ensure (rq_amount_out fallback <=? rq_amount_out quote)%Z "routes are not ordered best-first";
  Ok (rq_amount_out fallback).

(** The call, its approval and its value, by the authorization. *)
Definition authorized_call (request : ExecutionRequest) (params : RouterParams) (token_in : Address)
    (amount_in : U256) : anyhow (RouterCall * option ApprovalRequirement * U256) :=
  match authorization request with
  | Allowance =>
      Ok (ExecuteExactInputCall params,
          Some {| ap_token := token_in; ap_spender := router (deployment request);
                  ap_minimum_amount := amount_in |}, 0%Z)
  | Erc2612 v r s => Ok (ExecuteExactInputWithPermitCall params v r s, None, 0%Z)
  | Permit2 nonce deadline signature =>
      Ok (ExecuteExactInputWithPermit2Call params nonce deadline signature,
          Some {| ap_token := token_in; ap_spender := permit2 (deployment request);
                  ap_minimum_amount := amount_in |}, 0%Z)
  | Native =>
      _ ← ensure (bool_decide (token_in = weth (deployment request)))
            "native input requires the route token_in to equal configured WETH";
      Ok (ExecuteExactInputNativeCall params, None, amount_in)
  end.

Definition build_executable_swap (registry : AdapterRegistry) (routes : list RouteQuote)
    (request : ExecutionRequest) : anyhow ExecutableSwap :=
  _ ← validate_request request;
  quote ← context (head routes) "cannot execute an empty route set";
  _ ← validate_quote quote;
  first_hop ← context (head (rq_path quote)) "cannot execute an empty route";
  final_hop ← context (last (rq_path quote)) "cannot execute an empty route";
  min_amount_out ← match er_min_amount_out request with
                   | Some minimum => Ok minimum
                   | None => fallback_min_amount_out routes quote first_hop final_hop
                   end;
  _ ← ensure (bool_decide (min_amount_out ≠ 0%Z)) "min_amount_out must be non-zero";
  packed ← pack_hops registry (rq_path quote) (be_bytes 20 (hop_token_out final_hop));
  let params := {| rp_token_in := hop_token_in first_hop; rp_token_out := hop_token_out final_hop;
                   rp_amount_in := rq_amount_in quote; rp_min_amount_out := min_amount_out;
                   rp_recipient := er_recipient request; rp_deadline := er_deadline request;
                   rp_route := packed |} in
  '(call, approval, value) ← authorized_call request params (hop_token_in first_hop) (rq_amount_in quote);
  Ok {| es_to := router (deployment request); es_value := value; es_data := abi_encode call;
        es_approval := approval; es_min_amount_out := min_amount_out;
        es_deadline := er_deadline request |}.
End execution.
