(* ===== verification/ExecutionProps.v ===== *)
(** * The packed route: written by the encoder, read by the contract

    [hop_plan] says what a hop asks the contract to do, from the pool's
    registration and without bytes.  A route packed by [pack_hops] makes the
    contract's loop run the plans of its hops, whatever the state. *)

From S2P Require Import Prelude Bytes AmmState SearchTypes ExecutorRouter Execution.

(** ** Steps of the contract *)

Section steps.
Context `{!Evm}.

Lemma bind_ext {A B} (m : RouterM A) (f h : A → RouterM B) st :
  (∀ a st, f a st = h a st) → (m ≫= f) st = (m ≫= h) st.
Proof. intros Hf. unfold mbind, RouterM_bind. by destruct (m st) as [[[a st']|e]|]. Qed.

Lemma bind_assoc {A B C} (m : RouterM A) (f : A → RouterM B) (h : B → RouterM C) st :
  ((m ≫= f) ≫= h) st = (m ≫= (λ a, f a ≫= h)) st.
Proof. unfold mbind, RouterM_bind. by destruct (m st) as [[[a st']|e]|]. Qed.

Lemma bind_ret_l {A B} (a : A) (f : A → RouterM B) st : (mret a ≫= f) st = f a st.
Proof. done. Qed.

Lemma lift_ok {A B} (a : A) (f : A → RouterM B) st : (lift (Ok a) ≫= f) st = f a st.
Proof. done. Qed.

Lemma bind_ok {A B} (m : RouterM A) (f : A → RouterM B) st b st' :
  (m ≫= f) st = Some (Ok (b, st')) →
  ∃ a st1, m st = Some (Ok (a, st1)) ∧ f a st1 = Some (Ok (b, st')).
Proof. unfold mbind, RouterM_bind. destruct (m st) as [[[a st1]|e]|]; [eauto|done..]. Qed.

(** A step that ends, whatever the state. *)
Definition ends {A} (m : RouterM A) : Prop := ∀ st, m st ≠ None.

Lemma ends_bind {A B} (m : RouterM A) (f : A → RouterM B) :
  ends m → (∀ a, ends (f a)) → ends (m ≫= f).
Proof.
  intros Hm Hf st. unfold mbind, RouterM_bind. specialize (Hm st).
  destruct (m st) as [[[a st']|e]|]; [apply Hf|done..].
Qed.
Lemma ends_ret {A} (a : A) : ends (mret a).
Proof. by intros st. Qed.
Lemma ends_revert {A} e : ends (revert (A := A) e).
Proof. by intros st. Qed.
Lemma ends_revert_if b e : ends (revert_if b e).
Proof. by destruct b. Qed.
Lemma ends_lift {A} (r : result RouterError A) : ends (lift r).
Proof. by destruct r. Qed.
Lemma ends_call c : ends (call_external c).
Proof. intros st. unfold call_external. by destruct (evm_call c st). Qed.
Lemma ends_view {A} (f : World → option A) : ends (static_view f).
Proof. intros st. unfold static_view. by destruct (f st.2). Qed.
Lemma ends_get : ends get_storage.
Proof. by intros st. Qed.
Lemma ends_put s : ends (put_storage s).
Proof. by intros st. Qed.
Lemma ends_ether : ends etherBalance.
Proof. by intros st. Qed.
Lemma ends_sub x y : ends (uint_sub x y).
Proof. unfold uint_sub. by case_decide. Qed.
Lemma ends_add x y : ends (uint_add x y).
Proof. unfold uint_add. by case_decide. Qed.
Lemma ends_mul x y : ends (uint_mul x y).
Proof. unfold uint_mul. by case_decide. Qed.
Lemma ends_div x y : ends (uint_div x y).
Proof. unfold uint_div. by case_decide. Qed.
End steps.

Create HintDb router.
#[export] Hint Resolve ends_ret ends_revert ends_revert_if ends_lift ends_call ends_view ends_get
  ends_put ends_ether ends_sub ends_add ends_mul ends_div : router.

(** Walk down a step. *)
Ltac ends_step :=
  lazymatch goal with
  | |- ends (_ ≫= _) => apply ends_bind; [|intros]
  | |- ends (match ?x with _ => _ end) => destruct x
  | |- ends (let '_ := ?x in _) => destruct x
  | |- ends _ => solve [auto with router]
  end.
Ltac ends_steps := repeat ends_step.

Section contract.
Context `{!Evm} (msg : Message).

Lemma ends_balanceOf token owner : ends (balanceOf token owner).
Proof. apply ends_view. Qed.
#[local] Hint Resolve ends_balanceOf : router.

Lemma ends_set_callback p t a : ends (set_callback p t a).
Proof. unfold set_callback. ends_steps. Qed.
#[local] Hint Resolve ends_set_callback : router.

Lemma ends_getAmountOut a ri ro f : ends (getAmountOut a ri ro f).
Proof. unfold getAmountOut. ends_steps. Qed.
#[local] Hint Resolve ends_getAmountOut : router.

Lemma ends_run_action action i o amount : ends (run_action msg action i o amount).
Proof.
  unfold run_action. destruct action.
  - unfold swapV2, getReserves. ends_steps.
  - unfold swapV3Family. ends_steps.
  - unfold swapSolidlyV2, solidlyAmountOut. ends_steps.
  - unfold swapBalancerV2. ends_steps.
  - unfold swapCurve. ends_steps.
Qed.
#[local] Hint Resolve ends_run_action : router.

Lemma ends_execute_hop {O} (read : result RouterError (HopAction * O)) i o c a :
  ends (execute_hop msg read i o c a).
Proof. unfold execute_hop. ends_steps. Qed.

Lemma ends_settle params b1 b2 c a : ends (settle_output params b1 b2 c a).
Proof. unfold settle_output. ends_steps. Qed.

(** The continuation of a hop decides where the loop goes on. *)
Lemma execute_hop_then {O O' B} action (n : O) (n' : O') i o c a
    (f : Address * Z * O → RouterM B) (h : Address * Z * O' → RouterM B) st :
  (∀ token amount st, f (token, amount, n) st = h (token, amount, n') st) →
  (execute_hop msg (Ok (action, n)) i o c a ≫= f) st =
  (execute_hop msg (Ok (action, n')) i o c a ≫= h) st.
Proof.
  intros Hf. unfold execute_hop.
  repeat (rewrite !bind_assoc; apply bind_ext; clear st; intros ? st).
  rewrite !bind_assoc, !lift_ok. cbn beta iota.
  repeat (rewrite !bind_assoc; apply bind_ext; clear st; intros ? st).
  rewrite !bind_ret_l. apply Hf.
Qed.
End contract.

(** ** Reading a hop *)

Lemma requireRoute_ok data offset n :
  offset + n ≤ length (cd_data data) → requireRoute data offset n = Ok ().
Proof. intros Hl. unfold requireRoute. rewrite decide_False by lia. done. Qed.

Lemma requireRoute_inv data offset n :
  requireRoute data offset n = Ok () → offset + n ≤ length (cd_data data).
Proof. unfold requireRoute. case_decide; [done|]. lia. Qed.

(** The bytes [extra] of a protocol are read back as an action. *)
Definition reads_as (protocol : Z) (endpoint : Address) (extra : Bytes) (action : HopAction) : Prop :=
  is_byte protocol ∧ is_uint 20 endpoint ∧ Forall is_byte extra ∧
  ∀ data pre post, calldata_ok data → cd_data data = pre ++ extra ++ post →
    read_action data protocol endpoint (length pre) = Ok (action, length pre + length extra).

Lemma reads_plain protocol endpoint action :
  is_byte protocol → is_uint 20 endpoint →
  (∀ data offset, read_action data protocol endpoint offset = Ok (action, offset)) →
  reads_as protocol endpoint [] action.
Proof.
  intros Hp He Hr. split_and!; [done|done|constructor|].
  intros data pre post _ _. by rewrite Hr, Nat.add_0_r.
Qed.

Lemma reads_v2 endpoint fee :
  is_uint 20 endpoint → is_uint 2 fee → reads_as 0 endpoint (be_bytes 2 fee) (ActV2 endpoint fee).
Proof.
  intros He Hf. split_and!; [done|done|apply be_bytes_range|]. intros data pre post Hok Heq.
  unfold read_action. rewrite decide_True by done. rewrite requireRoute_ok.
  - cbn [mbind result_bind]. unfold readUint16. by erewrite (read_written 2 fee); [|lia|..].
  - rewrite Heq, !length_app, length_be_bytes. lia.
Qed.

Lemma reads_balancer vault pool_id :
  is_uint 20 vault → is_uint 32 pool_id →
  reads_as 5 vault (be_bytes 32 pool_id) (ActBalancerV2 vault pool_id).
Proof.
  intros He Hf. split_and!; [done|done|apply be_bytes_range|]. intros data pre post Hok Heq.
  unfold read_action. do 3 rewrite decide_False by (unfold PROTOCOL_UNISWAP_V2, PROTOCOL_UNISWAP_V3,
    PROTOCOL_PANCAKE_V3, PROTOCOL_SLIPSTREAM, PROTOCOL_SOLIDLY_V2; lia).
  rewrite decide_True by done. rewrite requireRoute_ok.
  - cbn [mbind result_bind]. rewrite length_be_bytes. unfold readBytes32.
    pose proof (read_written 32 pool_id data pre post ltac:(lia) Hf Hok Heq) as Hw.
    unfold word_top in Hw. change (256 - 8 * Z.of_nat 32)%Z with 0%Z in Hw. rewrite Z.shiftr_0_r in Hw.
    by rewrite Hw.
  - rewrite Heq, !length_app, length_be_bytes. lia.
Qed.

Lemma reads_curve pool i j protocol :
  is_uint 20 pool → is_byte i → is_byte j → (6 <= protocol <= 8)%Z →
  reads_as protocol pool [i; j] (ActCurve pool i j protocol).
Proof.
  intros He Hi Hj Hp. split_and!; [unfold is_byte; lia|done|by rewrite !Forall_cons, Forall_nil|].
  intros data pre post Hok Heq. unfold read_action.
  do 4 rewrite decide_False by (unfold PROTOCOL_UNISWAP_V2, PROTOCOL_UNISWAP_V3,
    PROTOCOL_PANCAKE_V3, PROTOCOL_SLIPSTREAM, PROTOCOL_SOLIDLY_V2, PROTOCOL_BALANCER_V2; lia).
  rewrite decide_True
    by (unfold PROTOCOL_CURVE_STABLE, PROTOCOL_CURVE_CRYPTO, PROTOCOL_CURVE_CRYPTO_NG; lia).
  rewrite requireRoute_ok by (rewrite Heq, !length_app; simpl; lia). cbn [mbind result_bind].
  unfold readUint8.
  rewrite (read_written 1 i data pre ([j] ++ post)); [|lia|done|done|by rewrite Heq, be_bytes_1].
  assert (length pre + 1 = length (pre ++ [i])) as -> by (by rewrite length_app).
  rewrite (read_written 1 j data (pre ++ [i]) post); [|lia|done|done|].
  - done.
  - by rewrite Heq, be_bytes_1, <-app_assoc.
Qed.

Section plans.
Context `{!AmmTypes} `{!AmmKeys}.
Implicit Types (hop : Hop) (registration : PoolRegistration).

(** What a hop asks the contract to do. *)
Definition hop_plan hop registration : option HopAction :=
  match pool_key_view (hop_pool hop), reg_metadata registration with
  | PoolKeyView.UniswapV2 pool, ProtocolMetadata.UniswapV2 _ _ fee_bps => ActV2 pool <$> fee_bps
  | PoolKeyView.UniswapV3 pool, ProtocolMetadata.UniswapV3 _ _ _
  | PoolKeyView.PancakeV3 pool, ProtocolMetadata.PancakeV3 _ _ _
  | PoolKeyView.Slipstream pool, ProtocolMetadata.Slipstream _ _ _ => Some (ActV3Family pool)
  | PoolKeyView.SolidlyV2 pool, ProtocolMetadata.SolidlyV2 _ _ => Some (ActSolidlyV2 pool)
  | PoolKeyView.BalancerV2 pool_id, ProtocolMetadata.BalancerV2 _ vault _ =>
      (λ vault, ActBalancerV2 vault pool_id) <$>
        match vault with Some vault => Some vault | None => head (reg_state_addresses registration) end
  | PoolKeyView.Curve pool, ProtocolMetadata.Curve coins variant =>
      i ← coin_position coins (hop_token_in hop);
      j ← coin_position coins (hop_token_out hop);
      protocol ← match variant with
                 | CurveVariant.StableSwap => Some PROTOCOL_CURVE_STABLE
                 | CurveVariant.CryptoSwap => Some PROTOCOL_CURVE_CRYPTO
                 | CurveVariant.CryptoSwapNG => Some PROTOCOL_CURVE_CRYPTO_NG
                 | CurveVariant.Other _ => None
                 end;
      Some (ActCurve pool (Z.of_nat i) (Z.of_nat j) protocol)
  | _, _ => None
  end.

(** Addresses have 20 bytes, pool ids 32, fees are not negative. *)
Definition key_typed (key : PoolKey) : Prop :=
  match pool_key_view key with
  | PoolKeyView.UniswapV2 pool | PoolKeyView.UniswapV3 pool | PoolKeyView.PancakeV3 pool
  | PoolKeyView.Slipstream pool | PoolKeyView.SolidlyV2 pool | PoolKeyView.Curve pool => is_uint 20 pool
  | PoolKeyView.BalancerV2 pool_id => is_uint 32 pool_id
  | PoolKeyView.Custom | PoolKeyView.Other _ => True
  end.
Definition registration_typed registration : Prop :=
  Forall (is_uint 20) (reg_state_addresses registration) ∧
  match reg_metadata registration with
  | ProtocolMetadata.UniswapV2 _ _ (Some fee_bps) => (0 <= fee_bps)%Z
  | ProtocolMetadata.BalancerV2 _ (Some vault) _ => is_uint 20 vault
  | _ => True
  end.
Definition hop_typed hop : Prop :=
  key_typed (hop_pool hop) ∧ is_uint 20 (hop_token_in hop) ∧ is_uint 20 (hop_token_out hop).

Lemma context_Ok {A} (o : option A) message a : context o message = Ok a ↔ o = Some a.
Proof. apply ok_or_Ok. Qed.
Lemma ensure_Ok b message u : ensure b message = Ok u ↔ b = true.
Proof. destruct b, u; simpl; split; done. Qed.

Lemma hop_encoding_plan hop registration protocol endpoint extra :
  key_typed (hop_pool hop) → registration_typed registration →
  hop_encoding hop registration = Ok (protocol, endpoint, extra) →
  ∃ action, hop_plan hop registration = Some action ∧ reads_as protocol endpoint extra action.
Proof.
  unfold key_typed, registration_typed, hop_encoding, hop_plan.
  destruct (pool_key_view (hop_pool hop)) as [pool|pool|pool|pool|pool|pool_id|pool| |tag],
    (reg_metadata registration) as [? ? fee_bps|? ? ?|? ? ?|? ? ?|? ?|? vault ?|coins variant| |?];
    intros Hk [Hs Hr] Henc; try done; try (injection Henc as <- <- <-).
  - rewrite result_bind_Ok in Henc. destruct Henc as (fee & ->%context_Ok & Henc).
    rewrite result_bind_Ok in Henc. destruct Henc as ([] & Hlt%ensure_Ok & Henc).
    rewrite result_bind_Ok in Henc. destruct Henc as (fee' & Hfee%context_Ok & [= <- <- <-]).
    unfold u16_try_from, u16_max in Hfee. case_decide; [|done]. injection Hfee as <-.
    eexists. split; [done|]. apply reads_v2; [done|]. unfold is_uint. lia.
  - eexists. split; [done|]. by apply reads_plain.
  - eexists. split; [done|]. by apply reads_plain.
  - eexists. split; [done|]. by apply reads_plain.
  - eexists. split; [done|]. by apply reads_plain.
  - rewrite result_bind_Ok in Henc. destruct Henc as (v & Hv%context_Ok & [= <- <- <-]).
    rewrite Hv. eexists. split; [done|]. apply reads_balancer; [|done].
    destruct vault as [vault|]; [by simplify_eq|].
    destruct (reg_state_addresses registration); [done|]. simplify_eq/=. by apply Forall_cons in Hs as [? _].
  - rewrite result_bind_Ok in Henc. destruct Henc as (i & ->%context_Ok & Henc).
    rewrite result_bind_Ok in Henc. destruct Henc as (j & ->%context_Ok & Henc).
    rewrite result_bind_Ok in Henc. destruct Henc as ([] & _ & Henc).
    rewrite result_bind_Ok in Henc. destruct Henc as (i' & Hi%context_Ok & Henc).
    rewrite result_bind_Ok in Henc. destruct Henc as (j' & Hj%context_Ok & Henc).
    unfold u8_try_from in Hi, Hj. repeat case_decide; simplify_eq.
    destruct variant; simpl in Henc; [injection Henc as <- <- <-..|done]; eexists; (split; [done|]);
      apply reads_curve; unfold is_byte; done || lia.
Qed.

(** ** Running a packed route *)

Definition hop_bytes hop (encoding : Z * Address * Bytes) : Bytes := push_hop [] hop encoding.

Lemma push_hop_app packed hop encoding : push_hop packed hop encoding = packed ++ hop_bytes hop encoding.
Proof. by destruct encoding as [[p e] x]. Qed.

Lemma length_hop_bytes hop p e x : length (hop_bytes hop (p, e, x)) = HOP_COMMON_SIZE + length x.
Proof.
  unfold hop_bytes, push_hop, HOP_COMMON_SIZE. rewrite !length_app, !length_be_bytes. cbn [length]. lia.
Qed.

Context `{!Evm} (msg : Message).

(** The hops of a path with their plans, without bytes. *)
Fixpoint run_path (path : list (Hop * HopAction)) (currentToken : Address) (currentAmount : Z) :
    RouterM (Address * Z) :=
  match path with
  | [] => mret (currentToken, currentAmount)
  | (hop, action) :: path =>
      '(token, amount, _) ← execute_hop msg (Ok (action, ())) (hop_token_in hop) (hop_token_out hop)
                              currentToken currentAmount;
      run_path path token amount
  end.

(** Byte strings nested to the right. *)
#[local] Ltac app_norm := repeat first [rewrite <-app_assoc | progress (cbn [app])].

Lemma read_common data pre post hop p e x action :
  calldata_ok data → hop_typed hop → reads_as p e x action →
  cd_data data = pre ++ hop_bytes hop (p, e, x) ++ post →
  requireRoute data (length pre) HOP_COMMON_SIZE = Ok () ∧
  readUint8 data (length pre) = p ∧ readAddress data (length pre + 1) = e ∧
  readAddress data (length pre + 21) = hop_token_in hop ∧
  readAddress data (length pre + 41) = hop_token_out hop ∧
  read_action data p e (length pre + HOP_COMMON_SIZE) =
    Ok (action, length (pre ++ hop_bytes hop (p, e, x))).
Proof.
  intros Hok (_ & Hi & Ho) (Hp & He & Hx & Hread) Heq. split.
  { apply requireRoute_ok. rewrite Heq, !length_app, length_hop_bytes. lia. }
  unfold hop_bytes in *. simpl in Heq.
  set (bi := be_bytes 20 (hop_token_in hop)) in *. set (bo := be_bytes 20 (hop_token_out hop)) in *.
  assert (length bi = 20 ∧ length bo = 20) as [Hli Hlo] by (unfold bi, bo; by rewrite !length_be_bytes).
  assert (length (be_bytes 20 e) = 20) as Hle by apply length_be_bytes. split_and!.
  - unfold readUint8. apply (read_written 1 p data pre (be_bytes 20 e ++ bi ++ bo ++ x ++ post)); [lia|done|done|].
    rewrite be_bytes_1 by done. rewrite Heq. by app_norm.
  - unfold readAddress. replace (length pre + 1) with (length (pre ++ [p])) by (rewrite length_app; simpl; lia).
    apply (read_written 20 e data (pre ++ [p]) (bi ++ bo ++ x ++ post)); [lia|done|done|].
    rewrite Heq. by app_norm.
  - unfold readAddress. replace (length pre + 21) with (length (pre ++ [p] ++ be_bytes 20 e))
      by (rewrite !length_app, Hle; simpl; lia).
    apply (read_written 20 _ data (pre ++ [p] ++ be_bytes 20 e) (bo ++ x ++ post)); [lia|done|done|].
    rewrite Heq. by app_norm.
  - unfold readAddress. replace (length pre + 41) with (length (pre ++ [p] ++ be_bytes 20 e ++ bi))
      by (rewrite !length_app, Hle, Hli; simpl; lia).
    apply (read_written 20 _ data (pre ++ [p] ++ be_bytes 20 e ++ bi) (x ++ post)); [lia|done|done|].
    rewrite Heq. by app_norm.
  - replace (length pre + HOP_COMMON_SIZE) with (length (pre ++ [p] ++ be_bytes 20 e ++ bi ++ bo))
      by (rewrite !length_app, Hle, Hli, Hlo; unfold HOP_COMMON_SIZE; simpl; lia).
    rewrite (Hread data (pre ++ [p] ++ be_bytes 20 e ++ bi ++ bo) post); [|done|].
    + f_equal. f_equal. unfold hop_bytes, push_hop. fold bi bo. rewrite !length_app. cbn [length]. lia.
    + rewrite Heq. by app_norm.
Qed.

(** A hop with its encoding and its plan. *)
Definition planned (h : Hop * (Z * Address * Bytes) * HopAction) : Prop :=
  hop_typed h.1.1 ∧ reads_as h.1.2.1.1 h.1.2.1.2 h.1.2.2 h.2.
Definition planned_bytes (h : Hop * (Z * Address * Bytes) * HopAction) : Bytes := hop_bytes h.1.1 h.1.2.

Lemma execute_hops_packed hops data pre fuel currentToken currentAmount st :
  calldata_ok data → Forall planned hops → cd_data data = pre ++ concat (planned_bytes <$> hops) →
  length hops ≤ fuel →
  execute_hops msg fuel data (length pre) currentToken currentAmount st =
  run_path ((λ h, (h.1.1, h.2)) <$> hops) currentToken currentAmount st.
Proof.
  intros Hok Hhops. revert pre fuel currentToken currentAmount st.
  induction Hhops as [|[[hop [[p e] x]] action] hops [Hty Hreads] _ IH]; intros pre fuel token amount st Heq Hfuel.
  - simpl in Heq. rewrite app_nil_r in Heq. destruct fuel; simpl; rewrite decide_False by (rewrite Heq; lia); done.
  - destruct fuel as [|fuel]; [simpl in Hfuel; lia|]. simpl in Hty, Hreads, Hfuel.
    cbn [fmap list_fmap concat] in Heq. unfold planned_bytes at 1 in Heq. simpl in Heq.
    destruct (read_common data pre _ hop p e x action Hok Hty Hreads Heq) as (Hreq & Hr1 & Hr2 & Hr3 & Hr4 & Hr5).
    cbn [execute_hops]. rewrite decide_True.
    2: { apply requireRoute_inv in Hreq. unfold HOP_COMMON_SIZE in Hreq. lia. }
    rewrite Hreq, lift_ok, Hr1, Hr2, Hr3, Hr4, Hr5.
    cbn [fmap list_fmap run_path fst snd]. apply execute_hop_then. intros token' amount' st'.
    apply IH; [|lia]. by rewrite <-app_assoc.
Qed.

(** The loop ends for every calldata, with the fuel it is given. *)
Lemma read_action_offset data p e offset action next :
  read_action data p e offset = Ok (action, next) → offset ≤ next.
Proof.
  unfold read_action. repeat case_decide; simpl; intros Hr; try (simplify_eq; lia);
    apply result_bind_Ok in Hr as (? & _ & Hr); simplify_eq; lia.
Qed.

Lemma ends_execute_hops fuel data offset currentToken currentAmount :
  length (cd_data data) ≤ offset + fuel → ends (execute_hops msg fuel data offset currentToken currentAmount).
Proof.
  revert offset currentToken currentAmount.
  induction fuel as [|fuel IH]; intros offset token amount Hl; cbn [execute_hops].
  { rewrite decide_False by lia. auto with router. }
  case_decide; [|auto with router]. apply ends_bind; [auto with router|intros _].
  set (p := readUint8 data offset). set (e := readAddress data (offset + 1)).
  destruct (read_action data p e (offset + HOP_COMMON_SIZE)) as [[action next]|err] eqn:Hr.
  - intros st. rewrite (execute_hop_then msg action next (offset + S (next - S offset)) _ _ _ _ _
      (λ '(token, amount, _), execute_hops msg fuel data next token amount)) by done.
    revert st. apply ends_bind; [apply ends_execute_hop|]. intros [[token' amount'] _]. apply IH.
    apply read_action_offset in Hr. unfold HOP_COMMON_SIZE in Hr. lia.
  - unfold execute_hop. intros st. rewrite !bind_assoc. revert st. apply ends_bind; [auto with router|intros _ st].
    rewrite bind_assoc. revert st. apply ends_bind; [apply ends_balanceOf|intros ? st].
    rewrite bind_assoc. revert st. apply ends_bind; [apply ends_balanceOf|intros ? st].
    rewrite bind_assoc. done.
Qed.
End plans.
