(* ===== verification/ExecutionTheorems.v ===== *)
(** * Theorems about executable swaps

    The transaction built for a quoted route makes the contract perform the
    swaps of that route; a call that returns has paid the recipient at least the
    floor and left the contract's balances as they were; every call ends; and
    the routes a search finds are accepted. *)

From S2P Require Import Prelude AmmState Petgraph Graph GraphInv Config SearchTypes Enumerate EnumerateTheorems.
From S2P Require Import QuoteCache Quote QuoteProps Searcher SearchTheorems.
From S2P Require Import Bytes ExecutorRouter Execution ExecutionProps.

(** ** The output floor *)

(** C39: The slippage floor is the exact rounded-down share of the output,
    computed without overflow: for every 256-bit output and every tolerance it
    is amount * (10000 - bps) / 10000, and an error exactly when the tolerance
    is 10000 or more or the floor is zero. *)
Theorem slippage_floor_exact amount bps :
  is_u256 amount → (0 <= bps)%Z →
  let floor := (amount * (10000 - bps) / 10000)%Z in
  (if decide (bps < 10000 ∧ floor ≠ 0)%Z
   then min_amount_out_from_slippage amount bps = Ok floor
   else ∃ e, min_amount_out_from_slippage amount bps = Err e) ∧
  ((bps < 10000)%Z → (0 <= floor <= amount)%Z).
Proof.
  intros [Ha Hmax] Hb floor.
  assert ((bps < 10000)%Z → (0 <= floor <= amount)%Z) as Hbound.
  { intros Hlt. split; [apply Z.div_pos; nia|]. apply Z.div_le_upper_bound; nia. }
  split; [|done]. unfold min_amount_out_from_slippage, ensure.
  destruct (Z.ltb_spec bps 10000) as [Hlt|Hge]; simpl.
  2: { rewrite decide_False by lia. by eexists. }
  specialize (Hbound Hlt).
  set (ret := (10000 - bps)%Z) in *. set (q := (amount / 10000)%Z). set (r := (amount mod 10000)%Z).
  pose proof (Z.div_mod amount 10000 ltac:(lia)) as Hqr. fold q r in Hqr.
  pose proof (Z.mod_pos_bound amount 10000 ltac:(lia)) as Hr. fold r in Hr.
  assert (0 <= q)%Z as Hq by (apply Z.div_pos; lia).
  assert (floor = q * ret + r * ret / 10000)%Z as Hfloor.
  { unfold floor. rewrite Hqr. replace ((10000 * q + r) * ret)%Z with (q * ret * 10000 + r * ret)%Z by lia.
    by rewrite Z.div_add_l by lia. }
  assert (0 <= r * ret / 10000)%Z as Hd by (apply Z.div_pos; nia).
  assert (10000 < u256_modulus)%Z as Hmod by done.
  assert (r * ret < u256_modulus)%Z as Hrr.
  { assert (r * ret < 10000 * 10001)%Z by nia. assert (10000 * 10001 < u256_modulus)%Z by done. lia. }
  assert (u256_add (u256_mul q ret) (u256_mul r ret / 10000) = floor) as ->.
  { unfold u256_add, u256_mul, u256_wrap. rewrite (Z.mod_small (q * ret)) by nia.
    rewrite (Z.mod_small (r * ret)) by nia. rewrite <-Hfloor. apply Z.mod_small. lia. }
  case_decide as Hz.
  - rewrite bool_decide_eq_true_2 by tauto. done.
  - rewrite bool_decide_eq_false_2 by (intros Hn; apply Hz; done). by eexists.
Qed.

(** ** What a call that returns has done *)

Section inversion.
Context `{!Evm} (msg : Message).

Lemma revert_if_ok b e st u st' : revert_if b e st = Some (Ok (u, st')) → b = false ∧ st' = st.
Proof. destruct b; [done|]. by intros [= _ <-]. Qed.
Lemma balanceOf_ok token owner st a st' :
  balanceOf token owner st = Some (Ok (a, st')) → evm_balanceOf st.2 token owner = Some a ∧ st' = st.
Proof. unfold balanceOf, static_view. destruct (evm_balanceOf _ _ _); [|done]. by intros [= -> ->]. Qed.
Lemma call_external_ok c st u st' :
  call_external c st = Some (Ok (u, st')) → evm_call c st = Some st'.
Proof. unfold call_external. destruct (evm_call c st); [|done]. by intros [= _ ->]. Qed.
Lemma lift_ok_inv {A} (r : result RouterError A) st a st' :
  lift r st = Some (Ok (a, st')) → r = Ok a ∧ st' = st.
Proof. destruct r; [|done]. by intros [= -> ->]. Qed.

(** The balances after the payment of [amount]. *)
Record settled (params : ExactInputParams) (b1 b2 amount : Z) (before after : RouterStorage * World) : Prop := {
  st_floor : (minAmountOut params <= amount)%Z;
  st_paid : evm_call (SafeTransfer (tokenOut params) (recipient params) amount) before = Some after;
  st_received : ∃ r r', evm_balanceOf before.2 (tokenOut params) (recipient params) = Some r ∧
    evm_balanceOf after.2 (tokenOut params) (recipient params) = Some r' ∧
    ((r' = r + amount)%Z ∨ (r' < r)%Z ∧ amount = 0%Z);
  st_out : evm_balanceOf after.2 (tokenOut params) self = Some b2;
  st_in : evm_balanceOf after.2 (tokenIn params) self = Some b1;
}.

Lemma settle_output_spec params b1 b2 token amount st out st' :
  settle_output params b1 b2 token amount st = Some (Ok (out, st')) →
  out = amount ∧ token = tokenOut params ∧ settled params b1 b2 amount st st'.
Proof.
  unfold settle_output. intros Hs.
  apply bind_ok in Hs as (? & ? & [Htok ->]%revert_if_ok & Hs).
  apply bind_ok in Hs as (? & ? & [Hmin ->]%revert_if_ok & Hs).
  apply bind_ok in Hs as (r & ? & [Hr ->]%balanceOf_ok & Hs).
  apply bind_ok in Hs as (? & st1 & Hcall%call_external_ok & Hs).
  apply bind_ok in Hs as (r' & ? & [Hr' ->]%balanceOf_ok & Hs).
  apply bind_ok in Hs as (? & ? & [Hrec ->]%revert_if_ok & Hs).
  apply bind_ok in Hs as (fb & ? & [Hfb ->]%balanceOf_ok & Hs).
  apply bind_ok in Hs as (? & ? & [Hb2 ->]%revert_if_ok & Hs).
  apply bind_ok in Hs as (ib & ? & [Hib ->]%balanceOf_ok & Hs).
  apply bind_ok in Hs as (? & ? & [Hb1 ->]%revert_if_ok & Hs).
  injection Hs as <- <-. apply bool_decide_eq_false, dec_stable in Htok, Hb1, Hb2, Hrec.
  apply Z.ltb_ge in Hmin. subst. split_and!; [done|done|]. constructor; try done.
  exists r, r'. split_and!; [done|done|]. destruct (Z.leb_spec r r'); lia.
Qed.

Lemma execute_settled params b1 b2 st out st' :
  execute msg params b1 b2 st = Some (Ok (out, st')) → ∃ st1, settled params b1 b2 out st1 st'.
Proof.
  unfold execute. intros He.
  apply bind_ok in He as (? & ? & _ & He). apply bind_ok in He as (? & ? & _ & He).
  apply bind_ok in He as ([token amount] & st1 & _ & He).
  apply settle_output_spec in He as (-> & _ & Hs). eauto.
Qed.

Lemma execute_funded_settled params fund st out st' :
  execute_funded msg params fund st = Some (Ok (out, st')) →
  ∃ b1 b2 st1, evm_balanceOf st.2 (tokenIn params) self = Some b1 ∧
    evm_balanceOf st.2 (tokenOut params) self = Some b2 ∧ settled params b1 b2 out st1 st'.
Proof.
  unfold execute_funded. intros He.
  apply bind_ok in He as (b1 & ? & [H1 ->]%balanceOf_ok & He).
  apply bind_ok in He as (b2 & ? & [H2 ->]%balanceOf_ok & He).
  apply bind_ok in He as (? & ? & _ & He). apply bind_ok in He as (? & ? & _ & He).
  apply execute_settled in He as (st1 & Hs). eauto 10.
Qed.

(** The storage a body runs on. *)
Definition locked (s : RouterStorage) : RouterStorage :=
  {| unlocked := 2; callbackPool := callbackPool s; callbackToken := callbackToken s;
     callbackAmount := callbackAmount s |}.

Lemma nonReentrant_ok {A} (body : RouterM A) st a st' :
  nonReentrant body st = Some (Ok (a, st')) →
  unlocked st.1 = 1%Z ∧ unlocked st'.1 = 1%Z ∧
  ∃ st1, body (locked st.1, st.2) = Some (Ok (a, st1)) ∧ st'.2 = st1.2.
Proof.
  unfold nonReentrant, set_unlocked. intros Hn.
  apply bind_ok in Hn as (s & ? & [= <- <-] & Hn).
  apply bind_ok in Hn as (? & ? & [Hu ->]%revert_if_ok & Hn).
  apply bind_ok in Hn as (? & ? & Hset & Hn).
  apply bind_ok in Hset as (? & ? & [= <- <-] & [= _ <-]).
  apply bind_ok in Hn as (b & st1 & Hb & Hn).
  apply bind_ok in Hn as (? & ? & Hset & Hn).
  apply bind_ok in Hset as (? & ? & [= <- <-] & [= _ <-]). injection Hn as -> <-.
  apply bool_decide_eq_false, dec_stable in Hu. split_and!; [done|done|]. eexists. split; [exact Hb|done].
Qed.
End inversion.

(** ** Calls of the contract *)

Definition call_params (call : RouterCall) : RouterParams :=
  match call with
  | ExecuteExactInputCall params | ExecuteExactInputNativeCall params
  | ExecuteExactInputWithPermitCall params _ _ _ | ExecuteExactInputWithPermit2Call params _ _ _ => params
  end.

(** The parameters as the contract sees them; [tail] follows the route in the
    calldata. *)
Definition contract_params (tail : Bytes) (p : RouterParams) : ExactInputParams :=
  {| tokenIn := rp_token_in p; tokenOut := rp_token_out p; amountIn := rp_amount_in p;
     minAmountOut := rp_min_amount_out p; recipient := rp_recipient p; deadline := rp_deadline p;
     route := {| cd_data := rp_route p; cd_rest := tail |} |}.

Section calls.
Context `{!Evm}.
Implicit Types (msg : Message) (call : RouterCall) (tail : Bytes).

Definition run_call msg tail call : RouterM Z :=
  let params := contract_params tail (call_params call) in
  match call with
  | ExecuteExactInputCall _ => executeExactInput msg params
  | ExecuteExactInputNativeCall _ => executeExactInputNative msg params
  | ExecuteExactInputWithPermitCall _ v r s => executeExactInputWithPermit msg params v r s
  | ExecuteExactInputWithPermit2Call _ nonce deadline signature =>
      executeExactInputWithPermit2 msg params nonce deadline signature
  end.

Lemma validate_ok msg params u :
  validate msg params = Ok u →
  recipient params ≠ 0%Z ∧ tokenIn params ≠ tokenOut params ∧ minAmountOut params ≠ 0%Z ∧
  (block_timestamp msg <= deadline params)%Z.
Proof. unfold validate. repeat case_decide; try done. intros _. split_and!; [done..|lia]. Qed.

(** The world in which a call takes its input: that of its start, or the one
    the token's [permit] leaves. *)
Definition funding_world msg call (st : RouterStorage * World) (before : World) : Prop :=
  match call with
  | ExecuteExactInputWithPermitCall p v r s =>
      ∃ s1, evm_call (Permit (rp_token_in p) (msg_sender msg) self (rp_amount_in p) (rp_deadline p) v r s)
              (locked st.1, st.2) = Some (s1, before)
  | _ => before = st.2
  end.

(** What a returned call guarantees. *)
Record call_settled msg call tail (st : RouterStorage * World) (out : Z) (st' : RouterStorage * World) : Prop := {
  cs_unlocked : unlocked st.1 = 1%Z ∧ unlocked st'.1 = 1%Z;
  cs_validated : validate msg (contract_params tail (call_params call)) = Ok ();
  cs_settled : ∃ before b1 b2 st1 st2, funding_world msg call st before ∧
    evm_balanceOf before (rp_token_in (call_params call)) self = Some b1 ∧
    evm_balanceOf before (rp_token_out (call_params call)) self = Some b2 ∧
    settled (contract_params tail (call_params call)) b1 b2 out st1 st2 ∧ st2.2 = st'.2;
}.

Lemma run_call_settled msg tail call st out st' :
  run_call msg tail call st = Some (Ok (out, st')) → call_settled msg call tail st out st'.
Proof.
  intros Hrun. unfold run_call in Hrun. set (params := contract_params tail (call_params call)) in *.
  assert (∃ st2 : RouterStorage * World, unlocked st.1 = 1%Z ∧ unlocked st'.1 = 1%Z ∧ st'.2 = st2.2 ∧
    validate msg params = Ok () ∧
    ∃ (fund : RouterM ()) (st0 st3 : RouterStorage * World), funding_world msg call st st0.2 ∧
      execute_funded msg params fund st0 = Some (Ok (out, st3)) ∧ st3.2 = st2.2)
    as (st2 & Hu & Hu' & Hw & Hval & fund & st0 & st3 & H0 & He & Hw').
  { destruct call as [p|p|p v r s|p nonce dl sig]; apply nonReentrant_ok in Hrun as (Hu & Hu' & st2 & Hb & Hw);
      apply bind_ok in Hb as ([] & ? & [Hval ->]%lift_ok_inv & Hb); exists st2; (split_and!; [done..|]).
    - do 3 eexists. split_and!; [|exact Hb|]; done.
    - apply bind_ok in Hb as (? & ? & [_ ->]%revert_if_ok & Hb).
      apply bind_ok in Hb as (? & ? & [= <- <-] & Hb).
      apply bind_ok in Hb as (eb & st4 & Hsub & Hb).
      assert (st4 = (locked st.1, st.2)) as ->.
      { revert Hsub. unfold uint_sub. case_decide; [|done]. by intros [= _ <-]. }
      apply bind_ok in Hb as (amount & st3 & He & Hb). apply bind_ok in Hb as (? & ? & [= <- <-] & Hb).
      apply bind_ok in Hb as (? & ? & [_ ->]%revert_if_ok & Hb). injection Hb as <- <-.
      do 3 eexists. split_and!; [|exact He|]; done.
    - apply bind_ok in Hb as (? & [s1 before] & Hpermit & Hb). do 3 eexists. split_and!; [|exact Hb|done].
      exists s1. revert Hpermit. unfold call_external. destruct (evm_call _ _) as [st1|]; [|done].
      by intros [= _ ->].
    - do 3 eexists. split_and!; [|exact Hb|]; done. }
  apply execute_funded_settled in He as (b1 & b2 & st1 & Hb1 & Hb2 & Hs).
  constructor; [done|done|]. exists st0.2, b1, b2, st1, st3. split_and!; [done..|congruence].
Qed.

Lemma ends_requireExactFunding token b e : ends (requireExactFunding token b e).
Proof. unfold requireExactFunding. apply ends_bind; [apply ends_balanceOf|]. intros. auto with router. Qed.

Lemma ends_execute msg params b1 b2 : ends (execute msg params b1 b2).
Proof.
  unfold execute. apply ends_bind; [auto with router|intros _].
  apply ends_bind; [auto with router|intros _].
  apply ends_bind; [apply ends_execute_hops; lia|]. intros [token amount]. apply ends_settle.
Qed.

Lemma ends_execute_funded msg params fund : ends fund → ends (execute_funded msg params fund).
Proof.
  intros Hf. unfold execute_funded. apply ends_bind; [apply ends_balanceOf|intros b1].
  apply ends_bind; [apply ends_balanceOf|intros b2]. apply ends_bind; [done|intros _].
  apply ends_bind; [apply ends_requireExactFunding|intros _]. apply ends_execute.
Qed.

Lemma ends_nonReentrant {A} (body : RouterM A) : ends body → ends (nonReentrant body).
Proof. intros Hb. unfold nonReentrant, set_unlocked. ends_steps; done. Qed.

(** C40: Every call of the executor contract ends, whatever the calldata, the
    state and the other contracts: the loop over the packed route needs no more
    iterations than the route has bytes. *)
Theorem executor_call_ends msg tail call st : run_call msg tail call st ≠ None.
Proof.
  revert st. change (ends (run_call msg tail call)). unfold run_call.
  destruct call; apply ends_nonReentrant; (apply ends_bind; [auto with router|intros _]).
  - apply ends_execute_funded. auto with router.
  - apply ends_bind; [auto with router|intros _]. apply ends_bind; [auto with router|intros eth].
    apply ends_bind; [auto with router|intros before].
    apply ends_bind; [apply ends_execute_funded; auto with router|intros amount].
    ends_steps.
  - apply ends_bind; [auto with router|intros _]. apply ends_execute_funded. auto with router.
  - apply ends_execute_funded. auto with router.
Qed.
End calls.

(** ** Built transactions *)

Section built.
Context `{!AmmTypes} `{!AmmKeys} `{!Evm} (abi_encode : RouterCall → Bytes).
Implicit Types (registry : AdapterRegistry) (routes : list RouteQuote) (quote : RouteQuote)
  (request : ExecutionRequest) (swap : ExecutableSwap) (hop : Hop) (m : U256).

(** The floor of a request. *)
Definition floor_of routes request : option U256 :=
  match er_min_amount_out request with Some m => Some m | None => rq_amount_out <$> routes !! 1 end.

Lemma authorized_call_inv request params ti amount call approval value :
  authorized_call request params ti amount = Ok (call, approval, value) → call_params call = params.
Proof.
  unfold authorized_call. destruct (authorization request); try (by intros [= <- <- <-]).
  rewrite result_bind_Ok. by intros (? & _ & [= <- <- <-]).
Qed.

(** What a built transaction is made of. *)
Record built registry routes request swap : Prop := {
  bt_request : validate_request request = Ok ();
  bt_call : ∃ quote others first final m packed call approval value,
    routes = quote :: others ∧ validate_quote quote = Ok () ∧
    head (rq_path quote) = Some first ∧ last (rq_path quote) = Some final ∧
    floor_of routes request = Some m ∧ m ≠ 0%Z ∧
    pack_hops registry (rq_path quote) (be_bytes 20 (hop_token_out final)) = Ok packed ∧
    call_params call = {| rp_token_in := hop_token_in first; rp_token_out := hop_token_out final;
      rp_amount_in := rq_amount_in quote; rp_min_amount_out := m;
      rp_recipient := er_recipient request; rp_deadline := er_deadline request; rp_route := packed |} ∧
    authorized_call request (call_params call) (hop_token_in first) (rq_amount_in quote) =
      Ok (call, approval, value) ∧
    swap = {| es_to := router (deployment request); es_value := value; es_data := abi_encode call;
              es_approval := approval; es_min_amount_out := m; es_deadline := er_deadline request |};
}.

Lemma fallback_floor routes quote first final m :
  fallback_min_amount_out routes quote first final = Ok m → rq_amount_out <$> routes !! 1 = Some m.
Proof.
  unfold fallback_min_amount_out. rewrite result_bind_Ok. intros (q & ->%context_Ok & Hq).
  rewrite result_bind_Ok in Hq. destruct Hq as (? & _ & Hq).
  rewrite result_bind_Ok in Hq. destruct Hq as (? & _ & Hq).
  rewrite result_bind_Ok in Hq. destruct Hq as (? & _ & Hq).
  rewrite result_bind_Ok in Hq. by destruct Hq as (? & _ & [= <-]).
Qed.

Lemma build_inv registry routes request swap :
  build_executable_swap abi_encode registry routes request = Ok swap → built registry routes request swap.
Proof.
  unfold build_executable_swap. rewrite result_bind_Ok. intros ([] & Hreq & Hb).
  rewrite result_bind_Ok in Hb. destruct Hb as (quote & Hhead%context_Ok & Hb).
  rewrite result_bind_Ok in Hb. destruct Hb as ([] & Hquote & Hb).
  rewrite result_bind_Ok in Hb. destruct Hb as (first & Hfirst%context_Ok & Hb).
  rewrite result_bind_Ok in Hb. destruct Hb as (final & Hfinal%context_Ok & Hb).
  rewrite result_bind_Ok in Hb. destruct Hb as (m & Hm & Hb).
  rewrite result_bind_Ok in Hb. destruct Hb as ([] & Hmz%ensure_Ok & Hb).
  rewrite result_bind_Ok in Hb. destruct Hb as (packed & Hpack & Hb). cbv zeta in Hb.
  rewrite result_bind_Ok in Hb. destruct Hb as ([[call approval] value] & Hcall & [= <-]).
  constructor; [done|]. apply bool_decide_eq_true in Hmz. destruct routes as [|q others]; [done|].
  injection Hhead as ->. pose proof (authorized_call_inv _ _ _ _ _ _ _ Hcall) as Hparams.
  exists quote, others, first, final, m, packed, call, approval, value. rewrite Hparams.
  split_and!; try done. unfold floor_of. destruct (er_min_amount_out request); [by injection Hm as ->|].
  by eapply fallback_floor.
Qed.

(** Packing a path gives each hop its encoding and its plan. *)
Lemma pack_hops_planned registry hops packed bytes :
  (∀ k r, registry_pool registry k = Some r → registration_typed r) → Forall hop_typed hops →
  pack_hops registry hops packed = Ok bytes →
  ∃ l, (λ h, h.1.1) <$> l = hops ∧ bytes = packed ++ concat (planned_bytes <$> l) ∧
    Forall planned l ∧
    Forall (λ h, ∃ r, registry_pool registry (hop_pool h.1.1) = Some r ∧ hop_plan h.1.1 r = Some h.2) l.
Proof.
  intros Hreg Hhops. revert packed. induction Hhops as [|hop hops Hty _ IH]; intros packed Hpack.
  { injection Hpack as <-. exists []. by rewrite app_nil_r. }
  cbn [pack_hops] in Hpack. rewrite result_bind_Ok in Hpack. destruct Hpack as (r & Hr%context_Ok & Hpack).
  rewrite result_bind_Ok in Hpack. destruct Hpack as ([[p e] x] & Henc & Hpack).
  destruct (hop_encoding_plan hop r p e x (proj1 Hty) (Hreg _ _ Hr) Henc) as (action & Hplan & Hreads).
  destruct (IH _ Hpack) as (l & <- & -> & Hl & Hlp). exists ((hop, (p, e, x), action) :: l).
  split_and!; [done| |by constructor|by constructor; [eauto|]].
  by rewrite push_hop_app, <-app_assoc.
Qed.

Lemma planned_bytes_range h : planned h → Forall is_byte (planned_bytes h).
Proof.
  destruct h as [[hop [[p e] x]] action]. intros [Hty (Hp & He & Hx & _)]. simpl in *.
  unfold planned_bytes, hop_bytes, push_hop. cbn [fst snd app].
  apply Forall_cons. split; [done|]. rewrite !Forall_app. split_and!; [apply be_bytes_range..|done].
Qed.

(** The swaps of a path, then the settlement. *)
Definition execute_path (msg : Message) (path : list (Hop * HopAction)) (params : ExactInputParams)
    (startingInputBalance finalBalanceBefore : Z) : RouterM Z :=
  '(token, amount) ← run_path msg path (tokenIn params) (amountIn params);
  settle_output params startingInputBalance finalBalanceBefore token amount.

(** C19: The contract decodes what the encoder writes: for the transaction built
    for a route the contract's interpreter of packed routes performs, in every
    state and whatever follows the route in the calldata, exactly the swaps
    that the registrations of the route's hops ask for, in order, and then
    settles with the floor, recipient and deadline of the request. *)
Theorem built_swap_executes_quote registry routes request swap :
  (∀ k r, registry_pool registry k = Some r → registration_typed r) →
  (∀ quote hop, quote ∈ routes → hop ∈ rq_path quote → hop_typed hop) →
  build_executable_swap abi_encode registry routes request = Ok swap →
  ∃ quote others call path,
    routes = quote :: others ∧ es_data swap = abi_encode call ∧ path.*1 = rq_path quote ∧
    Forall (λ '(hop, action), ∃ r, registry_pool registry (hop_pool hop) = Some r ∧
      hop_plan hop r = Some action) path ∧
    (∃ m, floor_of routes request = Some m ∧ es_min_amount_out swap = m ∧
      rp_min_amount_out (call_params call) = m) ∧
    rp_recipient (call_params call) = er_recipient request ∧
    rp_deadline (call_params call) = er_deadline request ∧
    rp_amount_in (call_params call) = rq_amount_in quote ∧
    ∀ msg tail b1 b2 st, Forall is_byte tail →
      execute msg (contract_params tail (call_params call)) b1 b2 st =
      execute_path msg path (contract_params tail (call_params call)) b1 b2 st.
Proof.
  intros Hreg Hty Hb. apply build_inv in Hb as [_ (quote & others & first & final & m & packed & call &
    approval & value & -> & _ & Hfirst & Hfinal & Hm & _ & Hpack & Hparams & _ & ->)].
  destruct (pack_hops_planned registry (rq_path quote) _ _ Hreg
    (proj2 (Forall_forall _ _) (λ hop Hin, Hty quote hop ltac:(left) Hin)) Hpack) as (l & Hl & -> & Hpl & Hplans).
  assert (hop_typed final) as (_ & _ & Hfin).
  { apply (Hty quote); [left|]. apply last_Some in Hfinal as [k ->]. set_solver. }
  exists quote, others, call, ((λ h, (h.1.1, h.2)) <$> l). rewrite Hparams.
  split_and!; simpl; try done; [| |by exists m|].
  - rewrite <-Hl, <-list_fmap_compose. done.
  - apply Forall_fmap. eapply Forall_impl; [exact Hplans|]. by intros [[hop enc] action].
  - intros msg tail b1 b2 st Htail. unfold execute, execute_path, contract_params.
    cbn [ExecutorRouter.route tokenIn tokenOut amountIn rp_token_in rp_token_out rp_amount_in rp_route].
    set (data := {| cd_data := _; cd_rest := tail |}).
    assert (calldata_ok data) as Hok.
    { split; [|done]. simpl. apply Forall_app. split; [apply be_bytes_range|].
      apply Forall_concat, Forall_fmap. eapply Forall_impl; [exact Hpl|]. apply planned_bytes_range. }
    assert (l ≠ []) as Hne by (intros ->; simpl in Hl; by rewrite <-Hl in Hfirst).
    assert (∀ l, length l * HOP_COMMON_SIZE ≤ length (concat (planned_bytes <$> l))) as Hlen.
    { clear. induction l as [|[[hop [[p e] x]] action] l IH]; [done|].
      cbn [fmap list_fmap concat length]. rewrite length_app. unfold planned_bytes at 1. cbn [fst snd].
      rewrite length_hop_bytes. cbn [fmap list_fmap] in IH. lia. }
    specialize (Hlen l). rewrite requireRoute_ok.
    2: { simpl. rewrite length_app, length_be_bytes. destruct l as [|h l]; [done|].
         cbn [length] in Hlen. unfold HOP_COMMON_SIZE in *. lia. }
    rewrite lift_ok. unfold readAddress.
    pose proof (read_written 20 (hop_token_out final) data [] (concat (planned_bytes <$> l)) ltac:(lia)
      Hfin Hok eq_refl) as Hread. change (length []) with 0 in Hread. rewrite Hread.
    rewrite bool_decide_eq_false_2 by (intros Hn; by apply Hn).
    assert (execute_hops msg (length (cd_data data)) data 20 (hop_token_in first) (rq_amount_in quote) st =
      run_path msg ((λ h, (h.1.1, h.2)) <$> l) (hop_token_in first) (rq_amount_in quote) st) as Hrun.
    { rewrite <-(length_be_bytes 20 (hop_token_out final)) at 1.
      apply execute_hops_packed; [done|done|done|]. simpl. rewrite length_app. unfold HOP_COMMON_SIZE in Hlen. lia. }
    unfold mbind, RouterM_bind, revert_if, mret, RouterM_ret. by rewrite Hrun.
Qed.

(** C20: A transaction built for a route is safe to settle: when its call
    returns, other contracts behaving in any way, the recipient has received
    exactly the returned amount of the route's final token, at least the floor
    of the request, before its deadline, and the contract holds of both of the
    route's tokens what it held before: at the start of the call or, for an
    ERC-2612 call, right after the token's [permit], which the contract calls
    first on its locked storage. *)
Theorem built_swap_settles registry routes request swap :
  (∀ m, floor_of routes request = Some m → (0 <= m)%Z) →
  build_executable_swap abi_encode registry routes request = Ok swap →
  ∃ quote first final call,
    head routes = Some quote ∧ head (rq_path quote) = Some first ∧ last (rq_path quote) = Some final ∧
    es_data swap = abi_encode call ∧
    ∀ msg tail st out st', run_call msg tail call st = Some (Ok (out, st')) →
      floor_of routes request = Some (es_min_amount_out swap) ∧ (0 < es_min_amount_out swap <= out)%Z ∧
      (block_timestamp msg <= er_deadline request)%Z ∧ hop_token_in first ≠ hop_token_out final ∧
      (∃ s w w' r, evm_call (SafeTransfer (hop_token_out final) (er_recipient request) out) (s, w) = Some w' ∧
        w'.2 = st'.2 ∧ evm_balanceOf w (hop_token_out final) (er_recipient request) = Some r ∧
        evm_balanceOf st'.2 (hop_token_out final) (er_recipient request) = Some (r + out)%Z) ∧
      ∃ before, funding_world msg call st before ∧
        ∀ t, t = hop_token_in first ∨ t = hop_token_out final →
          is_Some (evm_balanceOf before t self) ∧ evm_balanceOf st'.2 t self = evm_balanceOf before t self.
Proof.
  intros Hpos Hb. apply build_inv in Hb as [_ (quote & others & first & final & m & packed & call &
    approval & value & -> & _ & Hfirst & Hfinal & Hm & Hmz & _ & Hparams & _ & ->)].
  exists quote, first, final, call. split_and!; try done.
  intros msg tail st out st' Hrun. apply run_call_settled in Hrun as [_ Hval
    (before & b1 & b2 & [s w] & st2 & Hbefore & Hb1 & Hb2 & [Hfl Hpaid Hrec Hout Hin] & Hw)].
  apply validate_ok in Hval as (_ & Hne & _ & Hdl). unfold contract_params in *. rewrite Hparams in *.
  simpl in *. specialize (Hpos m Hm). rewrite Hw in *. split_and!; try done; try lia.
  - destruct Hrec as (r & r' & Hr & Hr' & [->|[_ Hz]]); [|lia]. exists s, w, st2, r. by split_and!.
  - exists before. split; [done|]. intros t [->| ->]; (split; [by eexists|congruence]).
Qed.

End built.

(** ** From a search to a transaction *)

Section found.
Context `{!AmmTypes} `{!AmmKeys} `{!Petgraph Address EdgeData} `{!PetgraphLaws Address EdgeData}
  (abi_encode : RouterCall → Bytes).
Implicit Types (s : AmmSearcher) (path : RoutePath) (request : ExecutionRequest) (routes : list RouteQuote).

Lemma fold_hops_valid {E} (hq : Hop → U256 → result E U256) path amount quoted out trace a b :
  fold_hops hq path amount quoted = Ok (out, trace) → chained a path b →
  ∃ new, trace = quoted ++ new ∧ length path = length new ∧
    ∀ expected, (expected = None ∨ expected = Some a) →
      validate_hops path new expected amount = Ok out.
Proof.
  revert amount quoted a. induction path as [|h path IH]; intros amount quoted a; simpl.
  - intros [= <- <-] _. exists []. rewrite app_nil_r. split_and!; [done|done|]. done.
  - intros Hf [Ha Hc]. destruct (hq h amount) as [next|]; [|done].
    destruct (IH _ _ _ Hf Hc) as (new & -> & Hl & Hv).
    exists ({| hq_hop := h; hq_amount_in := amount; hq_amount_out := next |} :: new).
    rewrite <-app_assoc. split_and!; [done|by simpl; rewrite Hl|].
    intros expected He. simpl. rewrite bool_decide_eq_true_2 by done. simpl.
    assert (match expected with
      | Some e => ensure (bool_decide (hop_token_in h = e)) "route token continuity is broken"
      | None => Ok () end = Ok ()) as ->.
    { destruct He as [->| ->]; [done|]. by rewrite bool_decide_eq_true_2. }
    simpl. rewrite bool_decide_eq_true_2 by done. simpl. apply Hv. by right.
Qed.

(** The quote of a route is consistent with its trace. *)
Lemma path_quote_valid R sim cfg ctx path amount q a b :
  path_quote R sim cfg ctx path amount = Ok q → chained a path b → amount ≠ 0%Z →
  validate_quote q = Ok ().
Proof.
  unfold path_quote, fold_path. destruct path as [|h path]; [done|]. intros Hq Hc Hz.
  destruct (fold_hops _ _ _ _) as [[out trace]|] eqn:Hf; [|done]. injection Hq as <-.
  destruct (fold_hops_valid _ _ _ _ _ _ _ _ Hf Hc) as (new & -> & Hl & Hv).
  unfold validate_quote. cbn [rq_amount_in rq_path rq_hops rq_amount_out app].
  rewrite bool_decide_eq_true_2 by done. cbn [ensure mbind result_bind].
  rewrite bool_decide_eq_true_2 by done. cbn [ensure mbind result_bind].
  rewrite Hv by by left. cbn [mbind result_bind]. by rewrite bool_decide_eq_true_2.
Qed.

Lemma pack_hops_iff registry path packed :
  (∃ bytes, pack_hops registry path packed = Ok bytes) ↔
  ∀ hop, hop ∈ path → ∃ r enc, registry_pool registry (hop_pool hop) = Some r ∧ hop_encoding hop r = Ok enc.
Proof.
  revert packed. induction path as [|hop path IH]; intros packed; cbn [pack_hops].
  { split; [set_solver|eauto]. }
  setoid_rewrite elem_of_cons. split.
  - intros (bytes & Hb). rewrite result_bind_Ok in Hb. destruct Hb as (r & Hr%context_Ok & Hb).
    rewrite result_bind_Ok in Hb. destruct Hb as (enc & Henc & Hb).
    intros h [->|Hh]; [eauto|]. by eapply IH; eauto.
  - intros Hall. destruct (Hall hop) as (r & enc & Hr & Henc); [by left|]. rewrite Hr. simpl. rewrite Henc. simpl.
    apply IH. eauto.
Qed.

Lemma chained_ends a path b first final :
  chained a path b → head path = Some first → last path = Some final →
  hop_token_in first = a ∧ hop_token_out final = b.
Proof.
  intros Hc Hf Hl. destruct path as [|h path]; [done|]. injection Hf as ->.
  split; [by destruct Hc|]. apply last_Some in Hl as [p Hp]. rewrite Hp in Hc.
  by apply chained_snoc in Hc as [_ ?].
Qed.

Lemma valid_route_chained g ti to config cycle path :
  valid_route g ti to config cycle path → chained ti path to ∧ path ≠ [].
Proof.
  intros (p & cur & h & -> & Hp & Hi & Ho & _). split; [|by destruct p].
  apply chained_snoc. rewrite Hi. split; [by apply Hp|done].
Qed.

(** C21: What a search finds can be executed: for the routes an exhaustive
    search returns and a well-formed request, building the transaction
    succeeds exactly when there is a non-zero floor, the caller's or the output
    of a second route, and every hop of the best route has metadata the
    contract supports; the quotes always pass the builder's own checks. *)
Theorem found_routes_executable s Inv sim cache r source target routes cache' request :
  search_env s Inv sim cache → complete_search (rr_config r) →
  node_index (as_graph s) (token_in r) = Some source →
  node_index (as_graph s) (token_out r) = Some target →
  find_routes s r cache = Some (Ok routes, cache') →
  rr_amount_in r ≠ 0%Z → validate_request request = Ok () →
  (authorization request = Native → token_in r = weth (deployment request)) →
  (∃ swap, build_executable_swap abi_encode (as_registry s) routes request = Ok swap) ↔
  (∃ m, floor_of routes request = Some m ∧ m ≠ 0%Z) ∧
  ∀ quote hop, head routes = Some quote → hop ∈ rq_path quote →
    ∃ reg enc, registry_pool (as_registry s) (hop_pool hop) = Some reg ∧ hop_encoding hop reg = Ok enc.
Proof.
  intros Henv Hconf Hs Ht Hfind Hz Hreq Hnative.
  destruct (searched_optimal_env s Inv sim cache _ _ (rr_amount_in r) _ (rr_sim_config r) false
    source target Henv Hconf Hs Ht) as (res & Hres & Hopt).
  destruct (find_routes_answers s Inv sim cache r res Henv) as (c & Heq & _);
    [by eapply searched_answers; [|apply Hconf|]|].
  rewrite Hfind in Heq. injection Heq as <- <-. destruct Hopt as (Hne & Hsort & _ & Hin).
  assert (∀ q, q ∈ routes → validate_quote q = Ok () ∧ rq_amount_in q = rr_amount_in r ∧
    ∃ first final, head (rq_path q) = Some first ∧ last (rq_path q) = Some final ∧
      hop_token_in first = token_in r ∧ hop_token_out final = token_out r) as Hvalid.
  { intros q (p & Hp & Hq)%Hin. apply valid_route_chained in Hp as [Hc Hp].
    destruct (path_quote_path _ _ _ _ _ _ Hq) as [Hqp Hqa]. split; [by eapply path_quote_valid|].
    split; [done|]. rewrite Hqp. destruct p as [|h p]; [done|].
    destruct (last (h :: p)) as [final|] eqn:Hl; [|by apply last_None in Hl].
    exists h, final. split_and!; [done|done|..]; by eapply chained_ends. }
  destruct routes as [|q others]; [done|]. destruct (Hvalid q) as (Hq & Hqa & first & final & Hf & Hl & Hti & Hto);
    [left|]. split.
  - intros (swap & (_ & quote & others' & first' & final' & m & packed & call & approval & value &
      [= <- <-] & _ & _ & _ & Hm & Hmz & Hpack & _)%build_inv).
    split; [eauto|]. intros quote hop [= <-]. by apply (pack_hops_iff _ _ (be_bytes 20 (hop_token_out final'))); eexists.
  - intros [(m & Hm & Hmz) Henc]. unfold build_executable_swap. rewrite Hreq.
    cbn [mbind result_bind context ok_or head]. rewrite Hq. cbn [mbind result_bind]. rewrite Hf, Hl.
    cbn [mbind result_bind context ok_or].
    assert (match er_min_amount_out request with
      | Some minimum => Ok minimum
      | None => fallback_min_amount_out (q :: others) q first final end = Ok m) as ->.
    { unfold floor_of in Hm. destruct (er_min_amount_out request); [by injection Hm as ->|].
      destruct others as [|q2 others]; [done|]. simpl in Hm. injection Hm as <-.
      destruct (Hvalid q2) as (Hq2 & Hqa2 & f2 & l2 & Hf2 & Hl2 & Hti2 & Hto2); [right; left|].
      unfold fallback_min_amount_out. simpl. rewrite Hq2. simpl. rewrite Hqa2, Hqa, Hf2, Hl2.
      assert (rq_amount_out q2 <= rq_amount_out q)%Z as Hle.
      { apply StronglySorted_inv in Hsort as [_ Hall]. rewrite Forall_forall in Hall. apply Hall. left. }
      apply Z.leb_le in Hle. rewrite Hle.
      rewrite (bool_decide_eq_true_2 (rr_amount_in r = rr_amount_in r)) by done.
      rewrite (bool_decide_eq_true_2 (_ <$> Some f2 = _)) by (simpl; congruence).
      rewrite (bool_decide_eq_true_2 (_ <$> Some l2 = _)) by (simpl; congruence). done. }
    cbn [mbind result_bind]. rewrite bool_decide_eq_true_2 by done. cbn [ensure mbind result_bind].
    destruct (proj2 (pack_hops_iff (as_registry s) (rq_path q) (be_bytes 20 (hop_token_out final))))
      as [packed Hpack]; [by intros; eapply Henc|].
    rewrite Hpack. cbn [mbind result_bind]. cbv zeta. unfold authorized_call.
    destruct (authorization request) eqn:Hauth; try (eexists; reflexivity).
    rewrite bool_decide_eq_true_2 by (rewrite Hti; by apply Hnative). eexists. reflexivity.
Qed.
End found.
