(* ===== verification/LiveRoutes.v ===== *)
(** * Live routes ([src/live_routes.rs]): the coordinator

    The coordinator owns the live graph and the route subscriptions.  Commits
    invalidate every subscription, a deduplicated queue schedules one search at a
    time per subscription on worker threads, and what the workers report passes
    a fence: the stamp of the search must be the subscription's active one, for
    the current state and the current request.

    The state is that of [LiveRouteActor] with what it shares: cancellation
    tokens, the latest-value ([watch]) channel of each subscription, the clean-up
    queue, the workers' job queue, and the sequence of everything published.
    [LiveRuntime] has the worker threads and the interleaving of the parts.

    A cancellation token is a shared cell.  The actor allocates one per
    subscription and one per search, so a cell is named by what it belongs to;
    allocating makes it fresh.  [tokio]'s channels and its runtime are
    external: the observers of the lossy event channel are not modelled. *)

From S2P Require Import Prelude AmmState Petgraph Graph Config SearchTypes Liquidity QuoteCache Quote.
From S2P Require Import Searcher Streaming StreamDriver LiveState LiveGraph LiveView.

(** Newtypes of [u64]. *)
Abbreviation RouteSubscriptionId := Z (only parsing).
Abbreviation RouteSearchJobId := Z (only parsing).

(** ** Configuration *)

Record LiveRouteRuntimeConfig := {
  worker_threads : nat;
  job_queue_capacity : nat;
  command_capacity : nat;
  result_capacity : nat;
  event_capacity : nat;
  max_subscriptions : nat;
}.

Definition LiveRouteRuntimeConfig_default (available_parallelism : option nat) :
    LiveRouteRuntimeConfig :=
  {| worker_threads := default 1 available_parallelism; job_queue_capacity := 64;
     command_capacity := 64; result_capacity := 256; event_capacity := 512;
     max_subscriptions := 1024 |}.

Definition with_worker_threads (n : nat) (c : LiveRouteRuntimeConfig) : LiveRouteRuntimeConfig :=
  {| worker_threads := n; job_queue_capacity := job_queue_capacity c;
     command_capacity := command_capacity c; result_capacity := result_capacity c;
     event_capacity := event_capacity c; max_subscriptions := max_subscriptions c |}.
Definition with_job_queue_capacity (n : nat) (c : LiveRouteRuntimeConfig) :
    LiveRouteRuntimeConfig :=
  {| worker_threads := worker_threads c; job_queue_capacity := n;
     command_capacity := command_capacity c; result_capacity := result_capacity c;
     event_capacity := event_capacity c; max_subscriptions := max_subscriptions c |}.
Definition with_max_subscriptions (n : nat) (c : LiveRouteRuntimeConfig) :
    LiveRouteRuntimeConfig :=
  {| worker_threads := worker_threads c; job_queue_capacity := job_queue_capacity c;
     command_capacity := command_capacity c; result_capacity := result_capacity c;
     event_capacity := event_capacity c; max_subscriptions := n |}.
Definition with_event_capacity (n : nat) (c : LiveRouteRuntimeConfig) : LiveRouteRuntimeConfig :=
  {| worker_threads := worker_threads c; job_queue_capacity := job_queue_capacity c;
     command_capacity := command_capacity c; result_capacity := result_capacity c;
     event_capacity := n; max_subscriptions := max_subscriptions c |}.

Section live_routes.
Context `{!AmmTypes} `{!AmmLive} `{!Petgraph Address EdgeData}.

Inductive LiveRouteRuntimeError : Type :=
  | RouteInvalidConfig
  | RouteAmmSubscription (message : string)
  | RouteLiveGraph (e : LiveGraphError)
  | RouteSearchView (message : string)
  | RouteWorkerSpawn
  | RouteClosed
  | SubscriptionCapacity
  | SubscriptionNotFound (id : RouteSubscriptionId)
  | SequenceExhausted.

Definition LiveRouteRuntimeConfig_validate (c : LiveRouteRuntimeConfig) :
    result LiveRouteRuntimeError LiveRouteRuntimeConfig :=
  if (worker_threads c =? 0) || (job_queue_capacity c =? 0) || (command_capacity c =? 0)
     || (result_capacity c =? 0) || (event_capacity c =? 0) || (max_subscriptions c =? 0)
  then Err RouteInvalidConfig
  else Ok c.

(** ** Provenance and stamps *)

Record RouteProvenance := {
  rp_runtime_id : AmmRuntimeId;
  rp_state_version : AmmStateVersion;
  rp_point : AmmStatePoint;
  rp_graph_version : GraphVersion;
}.
#[export] Instance RouteProvenance_eq_dec : EqDecision RouteProvenance.
Proof. solve_decision. Defined.

Definition RouteProvenance_from_view (v : LiveSearchView) : RouteProvenance :=
  {| rp_runtime_id := ss_runtime_id (lv_snapshot v);
     rp_state_version := ss_version (lv_snapshot v);
     rp_point := ss_point (lv_snapshot v);
     rp_graph_version := version (lv_graph v) |}.

Record RouteJobStamp := {
  stamp_subscription : RouteSubscriptionId;
  stamp_epoch : Z;
  stamp_job : RouteSearchJobId;
  stamp_source : RouteProvenance;
}.
#[export] Instance RouteJobStamp_eq_dec : EqDecision RouteJobStamp.
Proof. solve_decision. Defined.

Record VersionedRouteQuote := {
  vq_source : RouteProvenance;
  vq_quote : RouteQuote;
}.

Record RouteSubscriptionSpec := {
  spec_request : RouteRequest;
  spec_streaming : StreamingSearchConfig;
}.

Record RouteSearchFailure := {
  failure_message : string;
  failure_worker_panicked : bool;
}.

(** ** What is published *)

Inductive RouteSubscriptionState : Type :=
  | StatePending (source : RouteProvenance) (previous : option VersionedRouteQuote)
  | StateSearching (stamp : RouteJobStamp) (provisional previous : option VersionedRouteQuote)
  | StateReady (source : RouteProvenance) (best : option VersionedRouteQuote)
      (report : StreamingSearchReport)
  | StateFailed (source : RouteProvenance) (failure : RouteSearchFailure)
  | StateCancelled
  | StateClosed
  | StateRuntimeFailed (message : string).

(** [RouteSubscriptionState::source]. *)
Definition state_source (st : RouteSubscriptionState) : option RouteProvenance :=
  match st with
  | StatePending source _ | StateReady source _ _ | StateFailed source _ => Some source
  | StateSearching stamp _ _ => Some (stamp_source stamp)
  | StateCancelled | StateClosed | StateRuntimeFailed _ => None
  end.

Record RouteSubscriptionSnapshot := {
  sn_sequence : Z;
  sn_id : RouteSubscriptionId;
  sn_epoch : Z;
  sn_view : LiveSearchView;
  sn_state : RouteSubscriptionState;
}.

Inductive RouteInvalidationReason : Type :=
  | AmmStateAdvanced
  | InvalidatedRequestChanged
  | InvalidatedCancelled
  | InvalidatedRuntimeClosed.

Inductive RouteSearchTrigger : Type :=
  | TriggerInitial
  | TriggerAmmCommit
  | TriggerRequestChanged.

Inductive LiveRouteRuntimeEventKind : Type :=
  | SubscriptionAccepted
  | AmmCommitApplied (changes : AmmChangeSet) (graph_delta : GraphDelta)
  | RouteInvalidated (previous : RouteProvenance) (reason : RouteInvalidationReason)
  | SearchScheduled (trigger : RouteSearchTrigger)
  | SearchEvent (event : RouteSearchEvent)
  | RoutePublished (previous current : option VersionedRouteQuote)
      (report : StreamingSearchReport)
  | StaleResultRejected (produced current : RouteProvenance)
  | SearchFailed (failure : RouteSearchFailure)
  | SubscriptionCancelled
  | RuntimeFailed (message : string)
  | RuntimeClosed.

Record LiveRouteRuntimeEvent := {
  ev_sequence : Z;
  ev_subscription : option RouteSubscriptionId;
  ev_stamp : option RouteJobStamp;
  ev_kind : LiveRouteRuntimeEventKind;
}.

(** ** Cancellation tokens *)

Inductive RouteCancellationToken : Type :=
  | SubscriptionToken (id : RouteSubscriptionId)
  | JobToken (id : RouteSubscriptionId) (job : RouteSearchJobId).
#[export] Instance RouteCancellationToken_eq_dec : EqDecision RouteCancellationToken.
Proof. solve_decision. Defined.
#[export] Instance RouteCancellationToken_countable : Countable RouteCancellationToken.
Proof.
  refine (inj_countable' (λ t, match t with SubscriptionToken i => inl i | JobToken i j => inr (i, j) end)
    (λ t, match t with inl i => SubscriptionToken i | inr (i, j) => JobToken i j end) _).
  by intros [].
Defined.

(** [cleanup]: the subscription to remove, until it is taken. *)
Record RouteCancellationState := {
  rc_cancelled : bool;
  rc_cleanup : option RouteSubscriptionId;
}.

(** ** Worker jobs and messages *)

Record RouteWorkerJob := {
  job_stamp : RouteJobStamp;
  job_view : LiveSearchView;
  job_request : RouteRequest;
  job_streaming : StreamingSearchConfig;
  job_subscription_cancel : RouteCancellationToken;
  job_cancellation : RouteCancellationToken;
}.

Inductive RouteWorkerCommand : Type :=
  | WorkerSearch (job : RouteWorkerJob)
  | WorkerShutdown.

Inductive RouteWorkerMessage : Type :=
  | MessageEvent (stamp : RouteJobStamp) (event : RouteSearchEvent)
  | MessageCompleted (stamp : RouteJobStamp)
      (result : result RouteSearchFailure StreamingSearchReport).

(** ** The actor *)

Record ActiveRouteJob := {
  active_stamp : RouteJobStamp;
  active_cancellation : RouteCancellationToken;
}.

(** The sender of the subscription's watch channel is [watches]'s entry. *)
Record RouteEntry := {
  re_spec : RouteSubscriptionSpec;
  re_epoch : Z;
  re_next_job : Z;
  re_active : option ActiveRouteJob;
  re_dirty : bool;
  re_trigger : RouteSearchTrigger;
  re_last_ready : option VersionedRouteQuote;
  re_cancellation : RouteCancellationToken;
}.

(** What a caller holds; its other fields are ends of channels. *)
Record LiveRouteSubscription := {
  sub_id : RouteSubscriptionId;
  sub_cancellation : RouteCancellationToken;
}.

Inductive RouteCommand : Type :=
  | CommandSubscribe (spec : RouteSubscriptionSpec)
  | CommandCancel (id : RouteSubscriptionId)
  | CommandReplace (id : RouteSubscriptionId) (spec : RouteSubscriptionSpec)
  | CommandShutdown.

(** What is sent to a command's [oneshot] channel. *)
Inductive RouteReply : Type :=
  | ReplySubscribe (r : result LiveRouteRuntimeError LiveRouteSubscription)
  | ReplyCancel (r : result LiveRouteRuntimeError ())
  | ReplyReplace (r : result LiveRouteRuntimeError ())
  | ReplyShutdown.

Inductive RouteOutput : Type :=
  | OutSnapshot (snapshot : RouteSubscriptionSnapshot)
  | OutEvent (event : LiveRouteRuntimeEvent)
  | OutReply (reply : RouteReply).

(** What the actor shares: [tokens] is the heap of cancellation cells,
    [watches] the latest value of each watch channel, [cleanup] the clean-up
    queue, [jobs] the workers' bounded queue, [outputs] everything published, in
    order. *)
Record RouteShared := {
  sh_tokens : gmap RouteCancellationToken RouteCancellationState;
  sh_watches : gmap RouteSubscriptionId RouteSubscriptionSnapshot;
  sh_cleanup : list RouteSubscriptionId;
  sh_jobs : list RouteWorkerCommand;
  sh_outputs : list RouteOutput;
}.

(** The sending end of the bounded job queue and the worker threads. *)
Record RouteWorkerPool := {
  wp_capacity : nat;
  wp_threads : nat;
}.

Record LiveRouteActor := {
  ac_live : LiveAmmGraph;
  ac_view : LiveSearchView;
  ac_entries : gmap RouteSubscriptionId RouteEntry;
  ac_pending : list RouteSubscriptionId;
  ac_pending_set : gset RouteSubscriptionId;
  ac_next_subscription : Z;
  ac_sequence : Z;
  ac_max_subscriptions : nat;
  ac_workers : option RouteWorkerPool;
  ac_shutdown_response : bool;
  ac_terminal_failure : option string;
  ac_shared : RouteShared;
}.

(** ** Updating one part of the state *)

Definition set_tokens (tokens : gmap RouteCancellationToken RouteCancellationState)
    (sh : RouteShared) : RouteShared :=
  {| sh_tokens := tokens; sh_watches := sh_watches sh; sh_cleanup := sh_cleanup sh;
     sh_jobs := sh_jobs sh; sh_outputs := sh_outputs sh |}.
Definition set_cleanup (cleanup : list RouteSubscriptionId) (sh : RouteShared) : RouteShared :=
  {| sh_tokens := sh_tokens sh; sh_watches := sh_watches sh; sh_cleanup := cleanup;
     sh_jobs := sh_jobs sh; sh_outputs := sh_outputs sh |}.
Definition set_jobs (jobs : list RouteWorkerCommand) (sh : RouteShared) : RouteShared :=
  {| sh_tokens := sh_tokens sh; sh_watches := sh_watches sh; sh_cleanup := sh_cleanup sh;
     sh_jobs := jobs; sh_outputs := sh_outputs sh |}.
Definition output (o : RouteOutput) (sh : RouteShared) : RouteShared :=
  {| sh_tokens := sh_tokens sh; sh_watches := sh_watches sh; sh_cleanup := sh_cleanup sh;
     sh_jobs := sh_jobs sh; sh_outputs := sh_outputs sh ++ [o] |}.
(** [watch::Sender::send_replace] of a subscription's channel. *)
Definition send_replace (sn : RouteSubscriptionSnapshot) (sh : RouteShared) : RouteShared :=
  {| sh_tokens := sh_tokens sh; sh_watches := <[sn_id sn := sn]> (sh_watches sh);
     sh_cleanup := sh_cleanup sh; sh_jobs := sh_jobs sh;
     sh_outputs := sh_outputs sh ++ [OutSnapshot sn] |}.

Definition set_shared (sh : RouteShared) (a : LiveRouteActor) : LiveRouteActor :=
  {| ac_live := ac_live a; ac_view := ac_view a; ac_entries := ac_entries a;
     ac_pending := ac_pending a; ac_pending_set := ac_pending_set a;
     ac_next_subscription := ac_next_subscription a; ac_sequence := ac_sequence a;
     ac_max_subscriptions := ac_max_subscriptions a; ac_workers := ac_workers a;
     ac_shutdown_response := ac_shutdown_response a;
     ac_terminal_failure := ac_terminal_failure a; ac_shared := sh |}.
Definition on_shared (f : RouteShared → RouteShared) (a : LiveRouteActor) : LiveRouteActor :=
  set_shared (f (ac_shared a)) a.
Definition set_entries (entries : gmap RouteSubscriptionId RouteEntry) (a : LiveRouteActor) :
    LiveRouteActor :=
  {| ac_live := ac_live a; ac_view := ac_view a; ac_entries := entries;
     ac_pending := ac_pending a; ac_pending_set := ac_pending_set a;
     ac_next_subscription := ac_next_subscription a; ac_sequence := ac_sequence a;
     ac_max_subscriptions := ac_max_subscriptions a; ac_workers := ac_workers a;
     ac_shutdown_response := ac_shutdown_response a;
     ac_terminal_failure := ac_terminal_failure a; ac_shared := ac_shared a |}.
Definition set_pending (pending : list RouteSubscriptionId) (pending_set : gset RouteSubscriptionId)
    (a : LiveRouteActor) : LiveRouteActor :=
  {| ac_live := ac_live a; ac_view := ac_view a; ac_entries := ac_entries a;
     ac_pending := pending; ac_pending_set := pending_set;
     ac_next_subscription := ac_next_subscription a; ac_sequence := ac_sequence a;
     ac_max_subscriptions := ac_max_subscriptions a; ac_workers := ac_workers a;
     ac_shutdown_response := ac_shutdown_response a;
     ac_terminal_failure := ac_terminal_failure a; ac_shared := ac_shared a |}.
Definition set_next_subscription (n : Z) (a : LiveRouteActor) : LiveRouteActor :=
  {| ac_live := ac_live a; ac_view := ac_view a; ac_entries := ac_entries a;
     ac_pending := ac_pending a; ac_pending_set := ac_pending_set a;
     ac_next_subscription := n; ac_sequence := ac_sequence a;
     ac_max_subscriptions := ac_max_subscriptions a; ac_workers := ac_workers a;
     ac_shutdown_response := ac_shutdown_response a;
     ac_terminal_failure := ac_terminal_failure a; ac_shared := ac_shared a |}.
Definition set_sequence (n : Z) (a : LiveRouteActor) : LiveRouteActor :=
  {| ac_live := ac_live a; ac_view := ac_view a; ac_entries := ac_entries a;
     ac_pending := ac_pending a; ac_pending_set := ac_pending_set a;
     ac_next_subscription := ac_next_subscription a; ac_sequence := n;
     ac_max_subscriptions := ac_max_subscriptions a; ac_workers := ac_workers a;
     ac_shutdown_response := ac_shutdown_response a;
     ac_terminal_failure := ac_terminal_failure a; ac_shared := ac_shared a |}.
Definition set_live (l : LiveAmmGraph) (a : LiveRouteActor) : LiveRouteActor :=
  {| ac_live := l; ac_view := ac_view a; ac_entries := ac_entries a;
     ac_pending := ac_pending a; ac_pending_set := ac_pending_set a;
     ac_next_subscription := ac_next_subscription a; ac_sequence := ac_sequence a;
     ac_max_subscriptions := ac_max_subscriptions a; ac_workers := ac_workers a;
     ac_shutdown_response := ac_shutdown_response a;
     ac_terminal_failure := ac_terminal_failure a; ac_shared := ac_shared a |}.
Definition set_view (v : LiveSearchView) (a : LiveRouteActor) : LiveRouteActor :=
  {| ac_live := ac_live a; ac_view := v; ac_entries := ac_entries a;
     ac_pending := ac_pending a; ac_pending_set := ac_pending_set a;
     ac_next_subscription := ac_next_subscription a; ac_sequence := ac_sequence a;
     ac_max_subscriptions := ac_max_subscriptions a; ac_workers := ac_workers a;
     ac_shutdown_response := ac_shutdown_response a;
     ac_terminal_failure := ac_terminal_failure a; ac_shared := ac_shared a |}.
(** [shutdown_response], [terminal_failure] and [workers]: how the actor ends. *)
Definition set_ending (response : bool) (failure : option string) (pool : option RouteWorkerPool)
    (a : LiveRouteActor) : LiveRouteActor :=
  {| ac_live := ac_live a; ac_view := ac_view a; ac_entries := ac_entries a;
     ac_pending := ac_pending a; ac_pending_set := ac_pending_set a;
     ac_next_subscription := ac_next_subscription a; ac_sequence := ac_sequence a;
     ac_max_subscriptions := ac_max_subscriptions a; ac_workers := pool;
     ac_shutdown_response := response; ac_terminal_failure := failure;
     ac_shared := ac_shared a |}.

(** [self.entries.get_mut(&id)] followed by changes to the entry. *)
Definition alter_entry (f : RouteEntry → RouteEntry) (id : RouteSubscriptionId)
    (a : LiveRouteActor) : LiveRouteActor :=
  set_entries (alter f id (ac_entries a)) a.

Definition entry_marked_dirty (trigger : RouteSearchTrigger) (e : RouteEntry) : RouteEntry :=
  {| re_spec := re_spec e; re_epoch := re_epoch e; re_next_job := re_next_job e;
     re_active := re_active e; re_dirty := true; re_trigger := trigger;
     re_last_ready := re_last_ready e; re_cancellation := re_cancellation e |}.
Definition entry_replaced (spec : RouteSubscriptionSpec) (epoch : Z) (e : RouteEntry) :
    RouteEntry :=
  {| re_spec := spec; re_epoch := epoch; re_next_job := re_next_job e;
     re_active := re_active e; re_dirty := true; re_trigger := TriggerRequestChanged;
     re_last_ready := re_last_ready e; re_cancellation := re_cancellation e |}.
Definition entry_started (next_job : Z) (active : ActiveRouteJob) (e : RouteEntry) : RouteEntry :=
  {| re_spec := re_spec e; re_epoch := re_epoch e; re_next_job := next_job;
     re_active := Some active; re_dirty := false; re_trigger := re_trigger e;
     re_last_ready := re_last_ready e; re_cancellation := re_cancellation e |}.
Definition entry_finished (dirty : bool) (e : RouteEntry) : RouteEntry :=
  {| re_spec := re_spec e; re_epoch := re_epoch e; re_next_job := re_next_job e;
     re_active := None; re_dirty := dirty; re_trigger := re_trigger e;
     re_last_ready := re_last_ready e; re_cancellation := re_cancellation e |}.
Definition entry_set_last_ready (best : option VersionedRouteQuote) (e : RouteEntry) : RouteEntry :=
  {| re_spec := re_spec e; re_epoch := re_epoch e; re_next_job := re_next_job e;
     re_active := re_active e; re_dirty := re_dirty e; re_trigger := re_trigger e;
     re_last_ready := best; re_cancellation := re_cancellation e |}.

(** ** Operations of the tokens *)

Definition token_fresh (t : RouteCancellationToken) (cleanup : option RouteSubscriptionId)
    (sh : RouteShared) : RouteShared :=
  set_tokens (<[t := {| rc_cancelled := false; rc_cleanup := cleanup |}]> (sh_tokens sh)) sh.
(** [RouteCancellationToken::default] and [attached]. *)
Definition token_default (t : RouteCancellationToken) : RouteShared → RouteShared :=
  token_fresh t None.
Definition token_attached (t : RouteCancellationToken) (id : RouteSubscriptionId) :
    RouteShared → RouteShared :=
  token_fresh t (Some id).

Definition is_cancelled (sh : RouteShared) (t : RouteCancellationToken) : bool :=
  match sh_tokens sh !! t with Some c => rc_cancelled c | None => false end.

(** [request]: [true] when this call cancelled the token. *)
Definition token_request (t : RouteCancellationToken) (sh : RouteShared) : bool * RouteShared :=
  match sh_tokens sh !! t with
  | Some c =>
      (negb (rc_cancelled c),
       set_tokens (<[t := {| rc_cancelled := true; rc_cleanup := rc_cleanup c |}]>
                     (sh_tokens sh)) sh)
  | None => (false, sh)
  end.

Definition token_cancel (t : RouteCancellationToken) (sh : RouteShared) : RouteShared :=
  let '(first, sh) := token_request t sh in
  if negb first then sh
  else
    match sh_tokens sh !! t with
    | Some c =>
        match rc_cleanup c with
        | Some id =>
            set_cleanup (sh_cleanup sh ++ [id])
              (set_tokens (<[t := {| rc_cancelled := rc_cancelled c; rc_cleanup := None |}]>
                             (sh_tokens sh)) sh)
        | None => sh
        end
    | None => sh
    end.

(** [if let Some(active) = ... { active.cancellation.cancel(); }] *)
Definition cancel_active (active : option ActiveRouteJob) (sh : RouteShared) : RouteShared :=
  match active with Some active => token_cancel (active_cancellation active) sh | None => sh end.

(** ** Publishing *)

Definition next_sequence (a : LiveRouteActor) : Z * LiveRouteActor :=
  (ac_sequence a, set_sequence (Z.min (ac_sequence a + 1) u64_max) a).

Definition publish_snapshot (id : RouteSubscriptionId) (st : RouteSubscriptionState)
    (a : LiveRouteActor) : LiveRouteActor :=
  let '(sequence, a) := next_sequence a in
  match ac_entries a !! id with
  | Some entry =>
      on_shared (send_replace {| sn_sequence := sequence; sn_id := id; sn_epoch := re_epoch entry;
                                 sn_view := ac_view a; sn_state := st |}) a
  | None => a
  end.

Definition publish_event (subscription : option RouteSubscriptionId) (stamp : option RouteJobStamp)
    (kind : LiveRouteRuntimeEventKind) (a : LiveRouteActor) : LiveRouteActor :=
  let '(sequence, a) := next_sequence a in
  on_shared (output (OutEvent {| ev_sequence := sequence; ev_subscription := subscription;
                                 ev_stamp := stamp; ev_kind := kind |})) a.

(** What the subscription last showed: its watch value, or the last quote. *)
Definition entry_published_source (sh : RouteShared) (id : RouteSubscriptionId) (e : RouteEntry) :
    option RouteProvenance :=
  match sn_state <$> sh_watches sh !! id with
  | Some (StateSearching stamp (Some _) _) => Some (stamp_source stamp)
  | Some (StateReady source _ _) => Some source
  | _ => vq_source <$> re_last_ready e
  end.

Definition event_best (event : RouteSearchEvent) : option RouteQuote :=
  match event with
  | EvBestUpdated _ quote _ _ => Some quote
  | EvInitialResultsReady _ best _ => Some best
  | _ => None
  end.

Definition enqueue_pending (id : RouteSubscriptionId) (a : LiveRouteActor) : LiveRouteActor :=
  if decide (id ∈ ac_pending_set a) then a
  else set_pending (ac_pending a ++ [id]) ({[id]} ∪ ac_pending_set a) a.

(** [self.entries.keys()], in order. *)
Definition entry_ids (a : LiveRouteActor) : list RouteSubscriptionId :=
  stable_sort Z.leb (elements (dom (ac_entries a))).

Definition last_ready_of (id : RouteSubscriptionId) (a : LiveRouteActor) :
    option VersionedRouteQuote :=
  ac_entries a !! id ≫= re_last_ready.

(** ** Commits *)

(** The body of the loop over the subscriptions. *)
Definition invalidate_entry (current : RouteProvenance) (a : LiveRouteActor)
    (id : RouteSubscriptionId) : LiveRouteActor :=
  let previous := ac_entries a !! id ≫= entry_published_source (ac_shared a) id in
  let a :=
    match ac_entries a !! id with
    | Some entry =>
        alter_entry (entry_marked_dirty TriggerAmmCommit) id
          (on_shared (cancel_active (re_active entry)) a)
    | None => a
    end in
  let a := publish_snapshot id (StatePending current (last_ready_of id a)) a in
  let a :=
    match previous with
    | Some previous => publish_event (Some id) None (RouteInvalidated previous AmmStateAdvanced) a
    | None => a
    end in
  match ac_entries a !! id with
  | Some entry => match re_active entry with None => enqueue_pending id a | Some _ => a end
  | None => a
  end.

(** [LiveRouteActor::apply_commit]; [None] is a panic inside the graph, and the
    counter is that of the graph lineages. *)
Definition actor_apply_commit (commit : AmmStateCommit) (a : LiveRouteActor) (lineages : Z) :
    option (result LiveRouteRuntimeError () * LiveRouteActor * Z) :=
  '(r, lineages) ← apply_commit commit (ac_live a) lineages;
  match r with
  | Err e => Some (Err (RouteLiveGraph e), a, lineages)
  | Ok (delta, live) =>
      let a := set_live live a in
      match LiveSearchView_new (commit_snapshot commit) live with
      | Err e => Some (Err (RouteSearchView (search_error_display e)), a, lineages)
      | Ok view =>
          let a := set_view view a in
          let a := publish_event None None (AmmCommitApplied (commit_changes commit) delta) a in
          Some (Ok (), foldl (invalidate_entry (RouteProvenance_from_view view)) a (entry_ids a),
                lineages)
      end
  end.

(** ** Subscriptions *)

Definition add_subscription (spec : RouteSubscriptionSpec) (a : LiveRouteActor) :
    result LiveRouteRuntimeError LiveRouteSubscription * LiveRouteActor :=
  if ac_max_subscriptions a <=? size (ac_entries a) then (Err SubscriptionCapacity, a)
  else
    let id := ac_next_subscription a in
    match u64_checked_add id 1 with
    | None => (Err SequenceExhausted, a)
    | Some next =>
        let a := set_next_subscription next a in
        let source := RouteProvenance_from_view (ac_view a) in
        let '(sequence, a) := next_sequence a in
        let initial := {| sn_sequence := sequence; sn_id := id; sn_epoch := 0;
                          sn_view := ac_view a; sn_state := StatePending source None |} in
        let cancellation := SubscriptionToken id in
        let a := on_shared (send_replace initial) a in
        let a := on_shared (token_attached cancellation id) a in
        let a := set_entries
          (<[id := {| re_spec := spec; re_epoch := 0; re_next_job := 0; re_active := None;
                      re_dirty := true; re_trigger := TriggerInitial; re_last_ready := None;
                      re_cancellation := cancellation |}]> (ac_entries a)) a in
        let a := enqueue_pending id a in
        let a := publish_event (Some id) None SubscriptionAccepted a in
        (Ok {| sub_id := id; sub_cancellation := cancellation |}, a)
    end.

(** What [cancel_subscription] and [close] do to an entry they take out. *)
Definition retire_entry (id : RouteSubscriptionId) (entry : RouteEntry)
    (st : RouteSubscriptionState) (a : LiveRouteActor) : LiveRouteActor :=
  let a := set_entries (delete id (ac_entries a)) a in
  let a := on_shared (token_cancel (re_cancellation entry)) a in
  let a := on_shared (cancel_active (re_active entry)) a in
  let '(sequence, a) := next_sequence a in
  on_shared (send_replace {| sn_sequence := sequence; sn_id := id; sn_epoch := re_epoch entry;
                             sn_view := ac_view a; sn_state := st |}) a.

Definition cancel_subscription (id : RouteSubscriptionId) (a : LiveRouteActor) :
    result LiveRouteRuntimeError () * LiveRouteActor :=
  match ac_entries a !! id with
  | None => (Err (SubscriptionNotFound id), a)
  | Some entry =>
      (Ok (), publish_event (Some id) None SubscriptionCancelled
                (retire_entry id entry StateCancelled a))
  end.

Definition replace_subscription (id : RouteSubscriptionId) (spec : RouteSubscriptionSpec)
    (a : LiveRouteActor) : result LiveRouteRuntimeError () * LiveRouteActor :=
  let source := RouteProvenance_from_view (ac_view a) in
  match ac_entries a !! id with
  | None => (Err (SubscriptionNotFound id), a)
  | Some entry =>
      match u64_checked_add (re_epoch entry) 1 with
      | None => (Err SequenceExhausted, a)
      | Some next_epoch =>
          let previous := entry_published_source (ac_shared a) id entry in
          let a := on_shared (cancel_active (re_active entry)) a in
          let a := alter_entry (entry_replaced spec next_epoch) id a in
          let a := publish_snapshot id (StatePending source (re_last_ready entry)) a in
          let a :=
            match previous with
            | Some previous =>
                publish_event (Some id) None (RouteInvalidated previous InvalidatedRequestChanged) a
            | None => a
            end in
          (Ok (), match re_active entry with None => enqueue_pending id a | Some _ => a end)
      end
  end.

(** [handle_command]: [true] ends the loop. *)
Definition handle_command (command : RouteCommand) (a : LiveRouteActor) : bool * LiveRouteActor :=
  match command with
  | CommandSubscribe spec =>
      let '(r, a) := add_subscription spec a in
      (false, on_shared (output (OutReply (ReplySubscribe r))) a)
  | CommandCancel id =>
      let '(r, a) := cancel_subscription id a in
      (false, on_shared (output (OutReply (ReplyCancel r))) a)
  | CommandReplace id spec =>
      let '(r, a) := replace_subscription id spec a in
      (false, on_shared (output (OutReply (ReplyReplace r))) a)
  | CommandShutdown => (true, set_ending true (ac_terminal_failure a) (ac_workers a) a)
  end.

(** ** Scheduling *)

(** [try_submit]: refused when the queue is full. *)
Definition try_submit (pool : RouteWorkerPool) (job : RouteWorkerJob) (sh : RouteShared) :
    option RouteShared :=
  if length (sh_jobs sh) <? wp_capacity pool
  then Some (set_jobs (sh_jobs sh ++ [WorkerSearch job]) sh)
  else None.

(** A search runs on its worker alone. *)
Definition single_worker (c : StreamingSearchConfig) : StreamingSearchConfig :=
  with_parallel (with_workers 1 (parallel c)) c.

(** The body of the loop of [schedule_pending]; [false] leaves the loop. *)
Definition schedule_one (id : RouteSubscriptionId) (a : LiveRouteActor) : bool * LiveRouteActor :=
  match ac_entries a !! id with
  | None => (true, a)
  | Some entry =>
      if negb (re_dirty entry && bool_decide (active_stamp <$> re_active entry = None))
      then (true, a)
      else
        let source := RouteProvenance_from_view (ac_view a) in
        match u64_checked_add (re_next_job entry) 1 with
        | None => (true, a)
        | Some next_job =>
            let stamp := {| stamp_subscription := id; stamp_epoch := re_epoch entry;
                            stamp_job := re_next_job entry; stamp_source := source |} in
            let cancellation := JobToken id (re_next_job entry) in
            let a := on_shared (token_default cancellation) a in
            let job := {| job_stamp := stamp; job_view := ac_view a;
                          job_request := spec_request (re_spec entry);
                          job_streaming := single_worker (spec_streaming (re_spec entry));
                          job_subscription_cancel := re_cancellation entry;
                          job_cancellation := cancellation |} in
            match ac_workers a with
            | None => (false, a)
            | Some workers =>
                match try_submit workers job (ac_shared a) with
                | Some sh =>
                    let a := set_shared sh a in
                    let a := alter_entry (entry_started next_job
                      {| active_stamp := stamp; active_cancellation := cancellation |}) id a in
                    let a := publish_snapshot id (StateSearching stamp None (last_ready_of id a)) a in
                    (true, publish_event (Some id) (Some stamp)
                             (SearchScheduled (re_trigger entry)) a)
                | None => (false, enqueue_pending id a)
                end
            end
        end
  end.

(** The loop takes an element of the queue per round and puts one back only when
    it ends, so the length of the queue bounds its rounds. *)
Fixpoint schedule_loop (fuel : nat) (a : LiveRouteActor) : LiveRouteActor :=
  match ac_pending a, fuel with
  | [], _ | _, 0 => a
  | id :: pending, S fuel =>
      let a := set_pending pending (ac_pending_set a ∖ {[id]}) a in
      let '(go_on, a) := schedule_one id a in
      if go_on then schedule_loop fuel a else a
  end.

Definition schedule_pending (a : LiveRouteActor) : LiveRouteActor :=
  schedule_loop (length (ac_pending a)) a.

(** ** Messages of the workers *)

(** [accepts]: the fence. *)
Definition accepts (stamp : RouteJobStamp) (a : LiveRouteActor) : bool :=
  let current := RouteProvenance_from_view (ac_view a) in
  match ac_entries a !! stamp_subscription stamp with
  | None => false
  | Some entry =>
      bool_decide (stamp_source stamp = current)
      && bool_decide (re_epoch entry = stamp_epoch stamp)
      && negb (is_cancelled (ac_shared a) (re_cancellation entry))
      && match re_active entry with
         | None => false
         | Some active =>
             bool_decide (active_stamp active = stamp)
             && negb (is_cancelled (ac_shared a) (active_cancellation active))
         end
  end.

(** An event of a running search. *)
Definition handle_worker_event (stamp : RouteJobStamp) (event : RouteSearchEvent)
    (a : LiveRouteActor) : LiveRouteActor :=
  if negb (accepts stamp a) then a
  else
    let id := stamp_subscription stamp in
    let a :=
      match event_best event with
      | Some quote =>
          publish_snapshot id
            (StateSearching stamp (Some {| vq_source := stamp_source stamp; vq_quote := quote |})
               (last_ready_of id a)) a
      | None => a
      end in
    publish_event (Some id) (Some stamp) (SearchEvent event) a.

(** The result of the current search. *)
Definition publish_result (stamp : RouteJobStamp)
    (r : result RouteSearchFailure StreamingSearchReport) (a : LiveRouteActor) : LiveRouteActor :=
  let id := stamp_subscription stamp in
  match r with
  | Ok report =>
      let previous := last_ready_of id a in
      let best := (λ quote, {| vq_source := stamp_source stamp; vq_quote := quote |}) <$>
                    rep_best report in
      let a := alter_entry (entry_set_last_ready best) id a in
      let a := publish_snapshot id (StateReady (stamp_source stamp) best report) a in
      publish_event (Some id) (Some stamp) (RoutePublished previous best report) a
  | Err failure =>
      let a := publish_snapshot id (StateFailed (stamp_source stamp) failure) a in
      publish_event (Some id) (Some stamp) (SearchFailed failure) a
  end.

Definition handle_worker_completed (stamp : RouteJobStamp)
    (r : result RouteSearchFailure StreamingSearchReport) (a : LiveRouteActor) : LiveRouteActor :=
  let current := RouteProvenance_from_view (ac_view a) in
  let id := stamp_subscription stamp in
  match ac_entries a !! id with
  | None => a
  | Some entry =>
      if negb (bool_decide (active_stamp <$> re_active entry = Some stamp)) then a
      else
        let cancelled := is_cancelled (ac_shared a) (re_cancellation entry) in
        if negb (bool_decide (stamp_source stamp = current))
           || negb (bool_decide (re_epoch entry = stamp_epoch stamp)) || cancelled
        then
          let a := alter_entry (entry_finished (negb cancelled)) id a in
          let a := publish_event (Some id) (Some stamp)
                     (StaleResultRejected (stamp_source stamp) current) a in
          if negb cancelled then enqueue_pending id a else a
        else
          publish_result stamp r (alter_entry (entry_finished (re_dirty entry)) id a)
  end.

Definition handle_worker_message (m : RouteWorkerMessage) (a : LiveRouteActor) : LiveRouteActor :=
  match m with
  | MessageEvent stamp event => handle_worker_event stamp event a
  | MessageCompleted stamp r => handle_worker_completed stamp r a
  end.

(** ** The end *)

Definition close_entry (a : LiveRouteActor) (id : RouteSubscriptionId) : LiveRouteActor :=
  match ac_entries a !! id with
  | None => a
  | Some entry =>
      let a := retire_entry id entry
        match ac_terminal_failure a with
        | None => StateClosed
        | Some message => StateRuntimeFailed message
        end a in
      match ac_terminal_failure a with
      | None => publish_event (Some id) None RuntimeClosed a
      | Some _ => a
      end
  end.

(** [close], up to the workers' shutdown. *)
Definition actor_close (a : LiveRouteActor) : LiveRouteActor :=
  let a := foldl close_entry a (entry_ids a) in
  match ac_terminal_failure a with
  | Some message => publish_event None None (RuntimeFailed message) a
  | None => a
  end.
End live_routes.
