(* ===== verification/LiveRoutesProps.v ===== *)
(** * Properties of the coordinator's operations

    Every operation on one subscription leaves the others alone ([touches]) and
    numbers what it publishes in increasing order ([extends]).  [entry_ok] says
    when a subscription's entry fits the current view: what its watch channel
    shows, whether its active search is current, and that it waits in the queue
    when it has to. *)

From S2P Require Import Prelude AmmState Petgraph Graph Config SearchTypes Liquidity QuoteCache Quote.
From S2P Require Import Searcher Streaming StreamDriver LiveState LiveGraph LiveView LiveRoutes.

Section props.
Context `{!AmmTypes} `{!AmmLive} `{!Petgraph Address EdgeData}.
Implicit Types (a : LiveRouteActor) (sh : RouteShared) (id : RouteSubscriptionId) (e : RouteEntry)
  (v : LiveSearchView).

Definition current a : RouteProvenance := RouteProvenance_from_view (ac_view a).
Definition view_version v : Z := ss_version (lv_snapshot v).

(** ** Numbered publications *)

Definition out_sequence (o : RouteOutput) : option Z :=
  match o with
  | OutSnapshot sn => Some (sn_sequence sn)
  | OutEvent ev => Some (ev_sequence ev)
  | OutReply _ => None
  end.

(** The numbers of [outs] increase from [n], and [n'] is the next one, unless
    the counter is saturated. *)
Definition numbered (n : Z) (outs : list RouteOutput) (n' : Z) : Prop :=
  (n <= n')%Z ∧
  ((n' < u64_max)%Z →
   StronglySorted Z.lt (omap out_sequence outs) ∧
   Forall (λ k, n <= k < n')%Z (omap out_sequence outs)).

Lemma numbered_nil n : numbered n [] n.
Proof. split; [lia|]. intros _. split; constructor. Qed.

Lemma numbered_app n outs n' outs' n'' :
  numbered n outs n' → numbered n' outs' n'' → numbered n (outs ++ outs') n''.
Proof.
  intros [Hle Ho] [Hle' Ho']. split; [lia|]. intros Hlt.
  destruct Ho as [Hs Hf]; [lia|]. destruct (Ho' Hlt) as [Hs' Hf']. rewrite omap_app. split.
  - apply StronglySorted_app_2; [|done..]. rewrite Forall_forall in Hf, Hf'.
    intros x y Hx%Hf Hy%Hf'. lia.
  - apply Forall_app. split; eapply Forall_impl; eauto; simpl; lia.
Qed.

Lemma numbered_one n o :
  (n <= u64_max)%Z → out_sequence o = Some n → numbered n [o] (Z.min (n + 1) u64_max).
Proof.
  intros Hn Ho. split; [lia|]. intros Hlt. csimpl. rewrite Ho. split.
  - repeat constructor.
  - repeat constructor; lia.
Qed.

Lemma numbered_reply n r : numbered n [OutReply r] n.
Proof. split; [lia|]. intros _. split; constructor. Qed.

(** The last snapshot published for a subscription. *)
Definition latest id (outs : list RouteOutput) : option RouteSubscriptionSnapshot :=
  foldl (λ last o,
    match o with
    | OutSnapshot sn => if decide (sn_id sn = id) then Some sn else last
    | _ => last
    end) None outs.

#[global] Arguments latest : simpl never.

Lemma latest_snoc id outs o :
  latest id (outs ++ [o]) =
  match o with
  | OutSnapshot sn => if decide (sn_id sn = id) then Some sn else latest id outs
  | _ => latest id outs
  end.
Proof. unfold latest. by rewrite foldl_app. Qed.

Record outputs_ok a : Prop := {
  oo_numbered : numbered 0 (sh_outputs (ac_shared a)) (ac_sequence a);
  oo_bound : (ac_sequence a <= u64_max)%Z;
  oo_watch id : sh_watches (ac_shared a) !! id = latest id (sh_outputs (ac_shared a));
}.

(** ** What an operation on one subscription leaves alone *)

Definition token_owner (t : RouteCancellationToken) : RouteSubscriptionId :=
  match t with SubscriptionToken id => id | JobToken id _ => id end.

Definition queue_ok a : Prop :=
  NoDup (ac_pending a) ∧ ∀ id, id ∈ ac_pending_set a ↔ id ∈ ac_pending a.

Record same_global a a' : Prop := {
  sg_live : ac_live a' = ac_live a;
  sg_view : ac_view a' = ac_view a;
  sg_next : ac_next_subscription a' = ac_next_subscription a;
  sg_max : ac_max_subscriptions a' = ac_max_subscriptions a;
  sg_workers : ac_workers a' = ac_workers a;
  sg_failure : ac_terminal_failure a' = ac_terminal_failure a;
  sg_response : ac_shutdown_response a' = ac_shutdown_response a;
}.

Record same_local id a a' : Prop := {
  sl_entry : ac_entries a' !! id = ac_entries a !! id;
  sl_watch : sh_watches (ac_shared a') !! id = sh_watches (ac_shared a) !! id;
  sl_tokens t : token_owner t = id → sh_tokens (ac_shared a') !! t = sh_tokens (ac_shared a) !! t;
  sl_queued : id ∈ ac_pending_set a' ↔ id ∈ ac_pending_set a;
}.

Record touches id a a' : Prop := {
  to_global : same_global a a';
  to_local id' : id' ≠ id → same_local id' a a';
  to_jobs : sh_jobs (ac_shared a') = sh_jobs (ac_shared a);
  to_queue : queue_ok a → queue_ok a';
  to_outputs : outputs_ok a → outputs_ok a';
}.

#[export] Instance same_global_preorder : PreOrder same_global.
Proof.
  split; [done|]. intros a b c [] []. split; congruence.
Qed.
#[export] Instance same_local_preorder id : PreOrder (same_local id).
Proof.
  split; [done|]. intros a b c [H1 H2 H3 H4] [H5 H6 H7 H8]. split; [congruence..| |by rewrite H8].
  intros t Ht. by rewrite H7, H3.
Qed.
#[export] Instance touches_preorder id : PreOrder (touches id).
Proof.
  split; [intros a; split; auto; reflexivity|]. intros a b c [H1 H2 H3 H4 H5] [H6 H7 H8 H9 H10].
  split; [by etrans| |by etrans|auto..]. intros id' Hne. etrans; [by apply H2|by apply H7].
Qed.

(** ** The primitives *)

Lemma outputs_ok_ext a a' :
  ac_sequence a' = ac_sequence a → sh_outputs (ac_shared a') = sh_outputs (ac_shared a) →
  sh_watches (ac_shared a') = sh_watches (ac_shared a) → outputs_ok a → outputs_ok a'.
Proof. intros H1 H2 H3 [Ho1 Ho2 Ho3]. split; rewrite H1 || rewrite H3; rewrite ?H2; auto. Qed.

(** An operation that publishes nothing and leaves the queue alone. *)
Lemma touches_quiet id a a' :
  same_global a a' → (∀ id', id' ≠ id → same_local id' a a') →
  sh_jobs (ac_shared a') = sh_jobs (ac_shared a) → ac_pending a' = ac_pending a →
  ac_pending_set a' = ac_pending_set a → ac_sequence a' = ac_sequence a →
  sh_outputs (ac_shared a') = sh_outputs (ac_shared a) →
  sh_watches (ac_shared a') = sh_watches (ac_shared a) → touches id a a'.
Proof.
  intros ??? Hp Hs ???. split; [done..| |by apply outputs_ok_ext].
  unfold queue_ok. by rewrite Hp, Hs.
Qed.

Lemma touches_alter f id a : touches id a (alter_entry f id a).
Proof. apply touches_quiet; try done. intros id' Hne. split; [|done..]. cbn. by rewrite lookup_alter_ne. Qed.

Lemma touches_delete id a : touches id a (set_entries (delete id (ac_entries a)) a).
Proof. apply touches_quiet; try done. intros id' Hne. split; [|done..]. cbn. by rewrite lookup_delete_ne. Qed.

Lemma touches_insert id e a : touches id a (set_entries (<[id := e]> (ac_entries a)) a).
Proof. apply touches_quiet; try done. intros id' Hne. split; [|done..]. cbn. by rewrite lookup_insert_ne. Qed.

Lemma touches_tokens id a tokens cleanup :
  (∀ t, token_owner t ≠ id → tokens !! t = sh_tokens (ac_shared a) !! t) →
  touches id a (on_shared (λ sh, set_cleanup cleanup (set_tokens tokens sh)) a).
Proof.
  intros Ht. apply touches_quiet; try done. intros id' Hne. split; try done.
  intros t <-. by apply Ht.
Qed.

(** What cancelling a token does to the heap. *)
Lemma token_cancel_shared t sh :
  ∃ tokens cleanup, token_cancel t sh = set_cleanup cleanup (set_tokens tokens sh) ∧
    (∀ t', t' ≠ t → tokens !! t' = sh_tokens sh !! t') ∧
    (is_Some (sh_tokens sh !! t) → rc_cancelled <$> tokens !! t = Some true) ∧
    (sh_tokens sh !! t = None → tokens !! t = None).
Proof.
  destruct sh as [tokens watches cleanup jobs outs].
  unfold token_cancel, token_request. cbn.
  destruct (tokens !! t) as [[[] cl]|] eqn:Ht; cbn.
  - exists (<[t := {| rc_cancelled := true; rc_cleanup := cl |}]> tokens), cleanup.
    split; [done|]. split; [by intros t' Hne; rewrite lookup_insert_ne|].
    rewrite lookup_insert_eq. split; [done|congruence].
  - rewrite lookup_insert_eq. cbn. destruct cl as [i|].
    + eexists _, _. split; [done|]. split; [intros t' Hne; by rewrite !lookup_insert_ne|].
      cbn. rewrite lookup_insert_eq. split; [done|congruence].
    + exists (<[t := {| rc_cancelled := true; rc_cleanup := None |}]> tokens), cleanup.
      split; [done|]. split; [intros t' Hne; by rewrite !lookup_insert_ne|].
      rewrite lookup_insert_eq. split; [done|congruence].
  - exists tokens, cleanup. split; [done|]. split; [done|]. rewrite ?Ht.
    split; [by intros []|done].
Qed.

Lemma touches_cancel t a : touches (token_owner t) a (on_shared (token_cancel t) a).
Proof.
  destruct (token_cancel_shared t (ac_shared a)) as (tokens & cleanup & Heq & Hother & _).
  unfold on_shared. rewrite Heq.
  apply (touches_tokens (token_owner t) a tokens cleanup).
  intros t' Ht. apply Hother. by intros ->.
Qed.

Lemma touches_fresh t cleanup a :
  touches (token_owner t) a (on_shared (token_fresh t cleanup) a).
Proof.
  apply touches_quiet; try done. intros id' Hne. split; try done.
  intros t' Ht. cbn. apply lookup_insert_ne. by intros <-.
Qed.

(** The active job's token belongs to its subscription. *)
Definition active_owned id (active : option ActiveRouteJob) : Prop :=
  ∀ act, active = Some act → token_owner (active_cancellation act) = id.

Lemma touches_cancel_active id active a :
  active_owned id active → touches id a (on_shared (cancel_active active) a).
Proof.
  intros Ho. destruct active as [act|]; cbn; [|by destruct a].
  rewrite <- (Ho act) by done. apply touches_cancel.
Qed.

Lemma outputs_ok_snapshot sn a :
  outputs_ok a → sn_sequence sn = ac_sequence a →
  outputs_ok (on_shared (send_replace sn) (next_sequence a).2).
Proof.
  intros [H1 H2 H3] Hsn. split; cbn.
  - eapply numbered_app; [exact H1|]. by apply numbered_one; [|cbn; f_equal].
  - lia.
  - intros id. rewrite latest_snoc, <- H3. case_decide; subst.
    + by rewrite lookup_insert_eq.
    + by rewrite lookup_insert_ne.
Qed.

Lemma outputs_ok_event ev a :
  outputs_ok a → ev_sequence ev = ac_sequence a →
  outputs_ok (on_shared (output (OutEvent ev)) (next_sequence a).2).
Proof.
  intros [H1 H2 H3] Hev. split; cbn.
  - eapply numbered_app; [exact H1|]. by apply numbered_one; [|cbn; f_equal].
  - lia.
  - intros id. by rewrite latest_snoc.
Qed.

Lemma outputs_ok_skip a : outputs_ok a → outputs_ok (next_sequence a).2.
Proof.
  intros [[Hle Ho] H2 H3]. split; [|cbn; lia|done]. split; [cbn; lia|]. cbn. intros Hlt.
  destruct Ho as [Hs Hf]; [lia|]. split; [done|]. eapply Forall_impl; [exact Hf|]. simpl. lia.
Qed.

Lemma outputs_ok_reply r a : outputs_ok a → outputs_ok (on_shared (output (OutReply r)) a).
Proof.
  intros [H1 H2 H3]. split; [|done|].
  - cbn. eapply numbered_app; [exact H1|]. apply numbered_reply.
  - intros id. cbn. by rewrite latest_snoc.
Qed.

Lemma touches_publish_snapshot id st a : touches id a (publish_snapshot id st a).
Proof.
  unfold publish_snapshot. cbn. destruct (ac_entries a !! id) as [e|].
  - split; [done| |done|done|].
    + intros id' Hne. split; try done. cbn. by rewrite lookup_insert_ne.
    + intros Ho. by apply outputs_ok_snapshot.
  - split; [done..|]. intros Ho. by apply outputs_ok_skip.
Qed.

Lemma touches_publish_event id sub stamp kind a : touches id a (publish_event sub stamp kind a).
Proof. unfold publish_event. cbn. split; [done..|]. intros Ho. by apply outputs_ok_event. Qed.

Lemma touches_send id sn a :
  sn_id sn = id → sn_sequence sn = ac_sequence a →
  touches id a (on_shared (send_replace sn) (next_sequence a).2).
Proof.
  intros <- Hsn. split; [done| |done|done|].
  - intros id' Hne. split; try done. cbn. by rewrite lookup_insert_ne.
  - intros Ho. by apply outputs_ok_snapshot.
Qed.

Lemma touches_enqueue id a : touches id a (enqueue_pending id a).
Proof.
  unfold enqueue_pending. case_decide as Hin; [done|].
  split; [done| |done| |by apply outputs_ok_ext].
  - intros id' Hne. split; try done. cbn. set_solver.
  - intros [Hnd Hset]. split; cbn.
    + apply NoDup_app. split; [done|]. split; [|apply NoDup_singleton].
      intros x Hx ->%list_elem_of_singleton. by apply Hin, Hset.
    + intros id'. rewrite elem_of_union, elem_of_app, elem_of_singleton, list_elem_of_singleton, Hset.
      tauto.
Qed.

Lemma enqueued id a : id ∈ ac_pending_set (enqueue_pending id a).
Proof. unfold enqueue_pending. case_decide; [done|]. cbn. set_solver. Qed.

(** ** The heap *)

Lemma is_cancelled_lookup t sh : is_cancelled sh t = true ↔ rc_cancelled <$> sh_tokens sh !! t = Some true.
Proof. unfold is_cancelled. destruct (sh_tokens sh !! t) as [[]|]; simpl; split; congruence. Qed.

Lemma is_cancelled_cancel t t' sh :
  is_Some (sh_tokens sh !! t) →
  is_cancelled (token_cancel t sh) t' = if decide (t' = t) then true else is_cancelled sh t'.
Proof.
  intros Ht. destruct (token_cancel_shared t sh) as (tokens & cleanup & -> & Hother & Hself & _).
  unfold is_cancelled. cbn. case_decide; subst.
  - specialize (Hself Ht). destruct (tokens !! t); simpl in *; congruence.
  - by rewrite Hother.
Qed.

Lemma is_cancelled_keep t t' sh : is_cancelled sh t' = true → is_cancelled (token_cancel t sh) t' = true.
Proof.
  intros Hc. destruct (sh_tokens sh !! t) as [c|] eqn:Ht.
  - rewrite is_cancelled_cancel by (by rewrite Ht). by case_decide.
  - destruct (token_cancel_shared t sh) as (tokens & cleanup & -> & Hother & _ & Hnone).
    revert Hc. unfold is_cancelled. cbn. destruct (decide (t' = t)) as [->|].
    + by rewrite Ht.
    + by rewrite Hother.
Qed.

Lemma cancel_active_keep act t sh :
  is_cancelled sh t = true → is_cancelled (cancel_active act sh) t = true.
Proof. destruct act; [apply is_cancelled_keep|done]. Qed.

Lemma token_cancel_heap t t' sh :
  is_Some (sh_tokens (token_cancel t sh) !! t') ↔ is_Some (sh_tokens sh !! t').
Proof.
  destruct (token_cancel_shared t sh) as (tokens & cleanup & -> & Hother & Hself & Hnone). cbn.
  destruct (decide (t' = t)) as [->|]; [|by rewrite Hother].
  destruct (sh_tokens sh !! t) as [c|] eqn:Hc.
  - split; [eauto|]. intros _. specialize (Hself ltac:(eauto)).
    destruct (tokens !! t); [eauto|done].
  - by rewrite Hnone.
Qed.

Lemma is_cancelled_ext t sh sh' :
  sh_tokens sh !! t = sh_tokens sh' !! t → is_cancelled sh t = is_cancelled sh' t.
Proof. unfold is_cancelled. by intros ->. Qed.

(** ** What the operations do to the parts of the state *)

Lemma alter_entry_insert f id e a :
  ac_entries a !! id = Some e → alter_entry f id a = set_entries (<[id := f e]> (ac_entries a)) a.
Proof.
  intros He. unfold alter_entry. f_equal. apply map_eq. intros i.
  destruct (decide (i = id)) as [->|].
  - by rewrite lookup_alter_eq, lookup_insert_eq, He.
  - by rewrite lookup_alter_ne, lookup_insert_ne.
Qed.

Lemma entries_enqueue id a : ac_entries (enqueue_pending id a) = ac_entries a.
Proof. unfold enqueue_pending. by case_decide. Qed.
Lemma view_enqueue id a : ac_view (enqueue_pending id a) = ac_view a.
Proof. unfold enqueue_pending. by case_decide. Qed.
Lemma shared_enqueue id a : ac_shared (enqueue_pending id a) = ac_shared a.
Proof. unfold enqueue_pending. by case_decide. Qed.
Lemma entries_event s st k a : ac_entries (publish_event s st k a) = ac_entries a.
Proof. done. Qed.
Lemma view_event s st k a : ac_view (publish_event s st k a) = ac_view a.
Proof. done. Qed.
Lemma tokens_event s st k a :
  sh_tokens (ac_shared (publish_event s st k a)) = sh_tokens (ac_shared a).
Proof. done. Qed.
Lemma watches_event s st k a :
  sh_watches (ac_shared (publish_event s st k a)) = sh_watches (ac_shared a).
Proof. done. Qed.
Lemma queued_event s st k a : ac_pending_set (publish_event s st k a) = ac_pending_set a.
Proof. done. Qed.
Lemma entries_snapshot id st a : ac_entries (publish_snapshot id st a) = ac_entries a.
Proof. unfold publish_snapshot. cbn. by destruct (_ !! _). Qed.
Lemma view_snapshot id st a : ac_view (publish_snapshot id st a) = ac_view a.
Proof. unfold publish_snapshot. cbn. by destruct (_ !! _). Qed.
Lemma tokens_snapshot id st a :
  sh_tokens (ac_shared (publish_snapshot id st a)) = sh_tokens (ac_shared a).
Proof. unfold publish_snapshot. cbn. by destruct (_ !! _). Qed.
Lemma queued_snapshot id st a : ac_pending_set (publish_snapshot id st a) = ac_pending_set a.
Proof. unfold publish_snapshot. cbn. by destruct (_ !! _). Qed.
Lemma watches_snapshot id st a e :
  ac_entries a !! id = Some e →
  sh_watches (ac_shared (publish_snapshot id st a)) !! id =
    Some {| sn_sequence := ac_sequence a; sn_id := id; sn_epoch := re_epoch e;
            sn_view := ac_view a; sn_state := st |}.
Proof. intros He. unfold publish_snapshot. cbn. rewrite He. apply lookup_insert_eq. Qed.
Lemma watches_cancel t sh : sh_watches (token_cancel t sh) = sh_watches sh.
Proof. by destruct (token_cancel_shared t sh) as (? & ? & -> & _). Qed.
Lemma watches_cancel_active act sh : sh_watches (cancel_active act sh) = sh_watches sh.
Proof. destruct act; [apply watches_cancel|done]. Qed.

#[local] Hint Rewrite entries_enqueue view_enqueue shared_enqueue entries_event view_event
  tokens_event watches_event queued_event entries_snapshot view_snapshot tokens_snapshot
  queued_snapshot watches_cancel watches_cancel_active : live_routes.

(** ** An entry that fits the current view *)

(** [answers v spec r]: a search of [spec] on [v] that nobody cancelled may have
    the result [r]; [hears v spec q]: one may report the quote [q] on its way. *)
Context (answers : LiveSearchView → RouteSubscriptionSpec →
                   result RouteSearchFailure StreamingSearchReport → Prop)
  (hears : LiveSearchView → RouteSubscriptionSpec → RouteQuote → Prop).

(** The active search: its stamp, its token, and whether it is still current. *)
Record active_base id e act sh : Prop := {
  ab_subscription : stamp_subscription (active_stamp act) = id;
  ab_token : active_cancellation act = JobToken id (stamp_job (active_stamp act));
  ab_epoch : (stamp_epoch (active_stamp act) <= re_epoch e)%Z;
  ab_job : (stamp_job (active_stamp act) < re_next_job e)%Z;
  ab_heap : is_Some (sh_tokens sh !! active_cancellation act);
}.

Definition fresh v e stamp : Prop :=
  stamp_source stamp = RouteProvenance_from_view v ∧ stamp_epoch stamp = re_epoch e.

Record active_ok v sh id e act : Prop := {
  ak_base : active_base id e act sh;
  ak_version : (rp_state_version (stamp_source (active_stamp act)) <= view_version v)%Z;
  ak_fresh : re_dirty e = false ↔ fresh v e (active_stamp act);
  ak_cancelled : is_cancelled sh (active_cancellation act) = re_dirty e;
}.

Record entry_base sh id e : Prop := {
  eb_token : re_cancellation e = SubscriptionToken id;
  eb_heap : is_Some (sh_tokens sh !! SubscriptionToken id);
  eb_active act : re_active e = Some act → active_base id e act sh;
}.

Definition versioned source quote : VersionedRouteQuote :=
  {| vq_source := source; vq_quote := quote |}.

(** What the watch channel may show. *)
Definition shows v (cancelled : bool) e (st : RouteSubscriptionState) : Prop :=
  let here := RouteProvenance_from_view v in
  match st with
  | StatePending source previous =>
      source = here ∧ previous = re_last_ready e ∧ (re_dirty e = true ∨ cancelled = true)
  | StateSearching stamp provisional previous =>
      fresh v e stamp ∧ previous = re_last_ready e ∧ re_dirty e = false ∧
      (active_stamp <$> re_active e = Some stamp ∨ cancelled = true) ∧
      (∀ q, provisional = Some q → vq_source q = here ∧ hears v (re_spec e) (vq_quote q))
  | StateReady source best report =>
      source = here ∧ re_dirty e = false ∧ re_active e = None ∧ re_last_ready e = best ∧
      best = versioned here <$> rep_best report ∧ answers v (re_spec e) (Ok report)
  | StateFailed source failure =>
      source = here ∧ re_dirty e = false ∧ re_active e = None ∧ answers v (re_spec e) (Err failure)
  | StateCancelled | StateClosed | StateRuntimeFailed _ => False
  end.

Record entry_fit a id e : Prop := {
  ef_base : entry_base (ac_shared a) id e;
  ef_active act : re_active e = Some act → active_ok (ac_view a) (ac_shared a) id e act;
  ef_watch : ∃ sn, sh_watches (ac_shared a) !! id = Some sn ∧ sn_id sn = id ∧
    sn_epoch sn = re_epoch e ∧ sn_view sn = ac_view a ∧
    shows (ac_view a) (is_cancelled (ac_shared a) (SubscriptionToken id)) e (sn_state sn);
}.

(** It waits in the queue when it has to be searched again, unless its job
    numbers are used up. *)
Record entry_ok a id e : Prop := {
  eo_fit : entry_fit a id e;
  eo_queued : re_dirty e = true → re_active e = None →
    id ∈ ac_pending_set a ∨ (u64_max <= re_next_job e)%Z;
}.

Lemma active_token_owned id e sh act :
  active_base id e act sh → token_owner (active_cancellation act) = id.
Proof. intros Hb. by rewrite (ab_token _ _ _ _ Hb). Qed.

Lemma base_owned id e sh : entry_base sh id e → active_owned id (re_active e).
Proof. intros Hb act Hact. eapply active_token_owned. by apply (eb_active _ _ _ Hb). Qed.

(** Entries elsewhere are not disturbed. *)
Lemma entry_fit_local a a' id e :
  sh_watches (ac_shared a') !! id = sh_watches (ac_shared a) !! id →
  (∀ t, t = SubscriptionToken id ∨ token_owner t = id ∧ re_active e ≠ None →
     sh_tokens (ac_shared a') !! t = sh_tokens (ac_shared a) !! t) →
  ac_view a' = ac_view a → entry_fit a id e → entry_fit a' id e.
Proof.
  intros Hw Ht Hv [[Htok Hheap Hact] Hok Hwatch].
  assert (∀ act, re_active e = Some act →
    sh_tokens (ac_shared a') !! active_cancellation act =
    sh_tokens (ac_shared a) !! active_cancellation act) as Hsame.
  { intros act Ha. apply Ht. right. rewrite Ha. split; [|done].
    eapply active_token_owned. by apply Hact. }
  assert (∀ act, re_active e = Some act → active_base id e act (ac_shared a')) as Hbase.
  { intros act Ha. destruct (Hact act Ha) as [? ? ? ? Hh]. split; try done. by rewrite Hsame. }
  split.
  - split; [done| |done]. by rewrite Ht by (by left).
  - intros act Ha. destruct (Hok act Ha) as [? ? ? Hc]. rewrite Hv. split; try done; [by apply Hbase|].
    rewrite <- Hc. by apply is_cancelled_ext, Hsame.
  - rewrite Hw, Hv. rewrite (is_cancelled_ext _ _ (ac_shared a)) by (apply Ht; by left). done.
Qed.

Lemma entry_ok_local a a' id e :
  same_local id a a' → ac_view a' = ac_view a → entry_ok a id e → entry_ok a' id e.
Proof.
  intros [He Hw Ht Hq] Hv [Hfit Hqueue]. split; [|by rewrite Hq].
  eapply entry_fit_local; [done| |done..]. intros t [->|[? _]]; by apply Ht.
Qed.

Lemma entry_base_tokens sh sh' id e :
  sh_tokens sh' = sh_tokens sh → entry_base sh id e → entry_base sh' id e.
Proof.
  intros Ht [H1 H2 H3]. split; rewrite ?Ht; try done. intros act Ha. destruct (H3 act Ha).
  split; by rewrite ?Ht.
Qed.

Lemma active_ok_tokens v sh sh' id e act :
  sh_tokens sh' = sh_tokens sh → active_ok v sh id e act → active_ok v sh' id e act.
Proof.
  intros Ht [[] H2 H3 H4]. split; [split; by rewrite ?Ht|done..|].
  rewrite <- H4. apply is_cancelled_ext. by rewrite Ht.
Qed.

Lemma entry_ok_event s st k a id e : entry_ok a id e → entry_ok (publish_event s st k a) id e.
Proof. by apply entry_ok_local. Qed.

(** Marking an entry dirty cancels its active search. *)
Lemma cancel_active_base sh id e :
  entry_base sh id e → entry_base (cancel_active (re_active e) sh) id e.
Proof.
  intros [Ht Hh Ha]. destruct (re_active e) as [act|] eqn:Hact; [|by split; rewrite ?Hact].
  cbn. split; [done|by apply token_cancel_heap|]. rewrite Hact. intros act' [= <-].
  destruct (Ha act eq_refl). split; try done. by apply token_cancel_heap.
Qed.

Lemma cancel_active_cancelled sh id e act :
  entry_base sh id e → re_active e = Some act →
  is_cancelled (cancel_active (re_active e) sh) (active_cancellation act) = true.
Proof.
  intros Hb Ha. rewrite Ha. cbn. rewrite is_cancelled_cancel by apply (eb_active _ _ _ Hb _ Ha).
  by rewrite decide_True.
Qed.

Lemma cancel_active_subscription sh id e :
  entry_base sh id e →
  is_cancelled (cancel_active (re_active e) sh) (SubscriptionToken id) =
  is_cancelled sh (SubscriptionToken id).
Proof.
  intros Hb. destruct (re_active e) as [act|] eqn:Ha; [|done]. cbn.
  destruct (eb_active _ _ _ Hb _ Ha) as [_ Htok _ _ Hheap].
  rewrite is_cancelled_cancel by done. by rewrite Htok, decide_False.
Qed.

(** ** Invalidation: a commit, or a new request *)

(** [e'] is [e], dirty, with its active search cancelled and stale. *)
Definition spoiled v e e' : Prop :=
  re_dirty e' = true ∧ re_active e' = re_active e ∧ re_next_job e' = re_next_job e ∧
  re_cancellation e' = re_cancellation e ∧ re_last_ready e' = re_last_ready e ∧
  (re_epoch e <= re_epoch e')%Z ∧
  ∀ act, re_active e = Some act →
    (rp_state_version (stamp_source (active_stamp act)) <= view_version v)%Z ∧
    ¬ fresh v e' (active_stamp act).

(** The common end of both: the entry is updated, a pending snapshot and
    perhaps an event are published, and an idle subscription is queued. *)
Definition spoil id e' st (event : LiveRouteActor → LiveRouteActor) e a : LiveRouteActor :=
  let a := set_entries (<[id := e']> (ac_entries a)) (on_shared (cancel_active (re_active e)) a) in
  let a := event (publish_snapshot id st a) in
  match re_active e with None => enqueue_pending id a | Some _ => a end.

Lemma spoil_ok id e e' event a :
  ac_entries a !! id = Some e → entry_base (ac_shared a) id e → spoiled (ac_view a) e e' →
  (event = (λ a, a) ∨ ∃ s st k, event = publish_event s st k) →
  let a' := spoil id e' (StatePending (current a) (re_last_ready e)) event e a in
  touches id a a' ∧ ac_entries a' = <[id := e']> (ac_entries a) ∧ entry_ok a' id e' ∧
  ∀ t, is_cancelled (ac_shared a) t = true → is_cancelled (ac_shared a') t = true.
Proof.
  intros He Hb (Hdirty & Hact & Hjob & Htok & Hlast & Hep & Hstale) Hevent a'.
  set (a1 := set_entries (<[id := e']> (ac_entries a)) (on_shared (cancel_active (re_active e)) a)).
  set (st := StatePending (current a) (re_last_ready e)).
  set (a2 := event (publish_snapshot id st a1)).
  assert (touches id a a1) as Ht1.
  { transitivity (on_shared (cancel_active (re_active e)) a); [|apply (touches_insert id e' (on_shared _ a))].
    by eapply touches_cancel_active, base_owned. }
  assert (touches id (publish_snapshot id st a1) a2) as Ht2.
  { destruct Hevent as [->|(s & st' & k & ->)]; [done|apply touches_publish_event]. }
  assert (touches id a a') as Ht.
  { etrans; [exact Ht1|]. etrans; [apply touches_publish_snapshot|]. etrans; [exact Ht2|].
    change a' with (match re_active e with None => enqueue_pending id a2 | Some _ => a2 end).
    destruct (re_active e); [done|apply touches_enqueue]. }
  assert (ac_entries a2 = <[id := e']> (ac_entries a) ∧ ac_view a2 = ac_view a ∧
    sh_tokens (ac_shared a2) = sh_tokens (cancel_active (re_active e) (ac_shared a)) ∧
    sh_watches (ac_shared a2) !! id =
      Some {| sn_sequence := ac_sequence a1; sn_id := id; sn_epoch := re_epoch e';
              sn_view := ac_view a; sn_state := st |}) as (He2 & Hv2 & Htk2 & Hw2).
  { assert (ac_entries a1 !! id = Some e') as Hx by apply lookup_insert_eq.
    destruct Hevent as [->|(s & st' & k & ->)]; unfold a2;
      autorewrite with live_routes; rewrite (watches_snapshot _ _ _ _ Hx); done. }
  assert (ac_entries a' = <[id := e']> (ac_entries a) ∧ ac_view a' = ac_view a ∧ ac_shared a' = ac_shared a2 ∧
    (re_active e = None → id ∈ ac_pending_set a')) as (He' & Hv' & Hsh' & Hq').
  { change a' with (match re_active e with None => enqueue_pending id a2 | Some _ => a2 end).
    destruct (re_active e); autorewrite with live_routes;
      rewrite He2; split_and!; try done. intros _. apply enqueued. }
  split; [done|]. split; [done|].
  split.
  2: { intros t Hc. rewrite Hsh', (is_cancelled_ext _ _ (cancel_active (re_active e) (ac_shared a)))
         by (by rewrite Htk2). by apply cancel_active_keep. }
  assert (entry_base (ac_shared a') id e') as Hbase.
  { apply cancel_active_base in Hb as [H1 H2 H3]. split; [congruence| |].
    - by rewrite Hsh', Htk2.
    - rewrite Hact. intros act Ha. destruct (H3 act Ha) as [? ? ? ? Hh].
      split; try done; [lia|congruence|]. by rewrite Hsh', Htk2. }
  split; [split; [done| |]|].
  - intros act Ha. split; [by apply Hbase|..].
    + rewrite Hv'. apply Hstale. congruence.
    + rewrite Hdirty, Hv'. split; [done|]. intros Hf. destruct (Hstale act) as [_ []]; [congruence|done].
    + rewrite Hdirty, Hsh'. rewrite (is_cancelled_ext _ _ (cancel_active (re_active e) (ac_shared a))).
      * apply (cancel_active_cancelled _ id); [done|congruence].
      * by rewrite Htk2.
  - eexists. rewrite Hsh', Hw2. split_and!; try done. rewrite Hv'. cbn.
    split_and!; [done|done|by left].
  - intros _ Ha. left. apply Hq'. congruence.
Qed.

Lemma invalidate_entry_eq id e a :
  ac_entries a !! id = Some e →
  ∃ event, (event = (λ a, a) ∨ ∃ s st k, event = publish_event s st k) ∧
  invalidate_entry (current a) a id =
    spoil id (entry_marked_dirty TriggerAmmCommit e) (StatePending (current a) (re_last_ready e))
      event e a.
Proof.
  intros He. unfold invalidate_entry, spoil, last_ready_of. rewrite He.
  rewrite (alter_entry_insert _ _ e) by done. cbn. rewrite lookup_insert_eq. cbn.
  destruct (entry_published_source _ _ _) as [p|].
  - exists (publish_event (Some id) None (RouteInvalidated p AmmStateAdvanced)).
    split; [eauto|]. autorewrite with live_routes. cbn. rewrite lookup_insert_eq. done.
  - exists (λ a, a). split; [eauto|]. autorewrite with live_routes. cbn. rewrite lookup_insert_eq. done.
Qed.

Lemma invalidate_entry_ok id e a :
  ac_entries a !! id = Some e → entry_base (ac_shared a) id e →
  (∀ act, re_active e = Some act →
     (rp_state_version (stamp_source (active_stamp act)) < view_version (ac_view a))%Z) →
  let a' := invalidate_entry (current a) a id in
  touches id a a' ∧ ac_entries a' = <[id := entry_marked_dirty TriggerAmmCommit e]> (ac_entries a) ∧
  entry_ok a' id (entry_marked_dirty TriggerAmmCommit e) ∧
  ∀ t, is_cancelled (ac_shared a) t = true → is_cancelled (ac_shared a') t = true.
Proof.
  intros He Hb Hver a'. unfold a'. destruct (invalidate_entry_eq id e a He) as (event & Hev & ->).
  apply spoil_ok; try done. unfold spoiled. cbn. split_and!; try done.
  intros act Ha. specialize (Hver act Ha). split; [lia|]. intros [Hs _].
  rewrite Hs in Hver. cbn in Hver. unfold view_version in Hver. lia.
Qed.

Lemma replace_subscription_ok id spec e next a :
  ac_entries a !! id = Some e → entry_ok a id e → u64_checked_add (re_epoch e) 1 = Some next →
  let a' := (replace_subscription id spec a).2 in
  (replace_subscription id spec a).1 = Ok () ∧
  touches id a a' ∧ ac_entries a' = <[id := entry_replaced spec next e]> (ac_entries a) ∧
  entry_ok a' id (entry_replaced spec next e) ∧ next = (re_epoch e + 1)%Z ∧
  ∀ t, is_cancelled (ac_shared a) t = true → is_cancelled (ac_shared a') t = true.
Proof.
  intros He Hok Hnext a'.
  assert (next = re_epoch e + 1)%Z as ->.
  { unfold u64_checked_add in Hnext. case_decide; congruence. }
  assert (∃ event, (event = (λ a, a) ∨ ∃ s st k, event = publish_event s st k) ∧
    replace_subscription id spec a =
      (Ok (), spoil id (entry_replaced spec (re_epoch e + 1) e)
                (StatePending (current a) (re_last_ready e)) event e a)) as (event & Hev & Heq).
  { unfold replace_subscription, spoil. rewrite He, Hnext.
    rewrite (alter_entry_insert _ _ e) by done.
    destruct (entry_published_source _ _ _) as [p|].
    - exists (publish_event (Some id) None (RouteInvalidated p InvalidatedRequestChanged)). split; [eauto|done].
    - exists (λ a, a). split; [eauto|done]. }
  unfold a'. rewrite Heq. cbn [fst snd]. split; [done|].
  destruct (spoil_ok id e (entry_replaced spec (re_epoch e + 1) e) event a) as (H1 & H2 & H3 & H4);
    [done|apply Hok| |done|by split_and!].
  unfold spoiled. cbn. split_and!; try done; [lia|]. intros act Ha.
  destruct (ef_active _ _ _ (eo_fit _ _ _ Hok) act Ha) as [[] Hver _ _]. split; [done|]. intros [_ Hep]. cbn in Hep. lia.
Qed.

(** ** Subscribing and retiring *)

Definition new_entry id (spec : RouteSubscriptionSpec) : RouteEntry :=
  {| re_spec := spec; re_epoch := 0; re_next_job := 0; re_active := None; re_dirty := true;
     re_trigger := TriggerInitial; re_last_ready := None;
     re_cancellation := SubscriptionToken id |}.

Lemma add_subscription_ok spec a :
  let id := ac_next_subscription a in
  match add_subscription spec a with
  | (Err e, a') => a' = a ∧ (e = SubscriptionCapacity ∧ ac_max_subscriptions a <= size (ac_entries a) ∨
                             e = SequenceExhausted ∧ (u64_max <= id)%Z)
  | (Ok sub, a') =>
      sub = {| sub_id := id; sub_cancellation := SubscriptionToken id |} ∧
      size (ac_entries a) < ac_max_subscriptions a ∧
      touches id (set_next_subscription (id + 1) a) a' ∧
      ac_entries a' = <[id := new_entry id spec]> (ac_entries a) ∧
      is_cancelled (ac_shared a') (SubscriptionToken id) = false ∧
      entry_ok a' id (new_entry id spec)
  end.
Proof.
  intros id. set (sn := {| sn_sequence := ac_sequence a; sn_id := id; sn_epoch := 0;
    sn_view := ac_view a; sn_state := StatePending (RouteProvenance_from_view (ac_view a)) None |}).
  set (a0 := set_next_subscription (id + 1) a).
  set (a1 := on_shared (send_replace sn) (next_sequence a0).2).
  set (a2 := on_shared (token_fresh (SubscriptionToken id) (Some id)) a1).
  set (a3 := set_entries (<[id := new_entry id spec]> (ac_entries a2)) a2).
  set (a4 := enqueue_pending id a3).
  set (a5 := publish_event (Some id) None SubscriptionAccepted a4).
  assert (add_subscription spec a =
    if ac_max_subscriptions a <=? size (ac_entries a) then (Err SubscriptionCapacity, a)
    else match u64_checked_add id 1 with
         | None => (Err SequenceExhausted, a)
         | Some next => (Ok {| sub_id := id; sub_cancellation := SubscriptionToken id |}, a5)
         end) as ->.
  { unfold add_subscription. destruct (_ <=? _); [done|]. fold id. unfold u64_checked_add.
    by case_decide. }
  destruct (_ <=? _) eqn:Hsize.
  { apply Nat.leb_le in Hsize. split; [done|]. by left. }
  apply Nat.leb_gt in Hsize. unfold u64_checked_add. case_decide as Hnext.
  2: { split; [done|]. right. split; [done|]. lia. }
  assert (sh_tokens (ac_shared a5) !! SubscriptionToken id =
    Some {| rc_cancelled := false; rc_cleanup := Some id |}) as Htok.
  { unfold a5, a4. autorewrite with live_routes. apply lookup_insert_eq. }
  assert (is_cancelled (ac_shared a5) (SubscriptionToken id) = false) as Hc
    by (unfold is_cancelled; by rewrite Htok).
  split_and!; [done|done| | |done|].
  - transitivity a1; [by apply touches_send|]. transitivity a2; [apply (touches_fresh (SubscriptionToken id))|].
    transitivity a3; [apply touches_insert|]. transitivity a4; [apply touches_enqueue|].
    apply touches_publish_event.
  - unfold a5, a4. by autorewrite with live_routes.
  - split; [split|].
    + split; [done|by rewrite Htok|done].
    + done.
    + exists sn. unfold a5, a4. autorewrite with live_routes. split_and!; try done.
      * apply lookup_insert_eq.
      * cbn. split_and!; [done..|by left].
    + intros _ _. left. apply enqueued.
Qed.

Lemma retire_entry_ok id e st a :
  entry_base (ac_shared a) id e →
  let a' := retire_entry id e st a in
  touches id a a' ∧ ac_entries a' = delete id (ac_entries a) ∧
  (∃ sn, sh_watches (ac_shared a') !! id = Some sn ∧ sn_epoch sn = re_epoch e ∧
     sn_view sn = ac_view a ∧ sn_state sn = st) ∧
  is_cancelled (ac_shared a') (SubscriptionToken id) = true ∧
  ∀ t, is_cancelled (ac_shared a) t = true → is_cancelled (ac_shared a') t = true.
Proof.
  intros Hb a'.
  set (a1 := set_entries (delete id (ac_entries a)) a).
  set (a2 := on_shared (token_cancel (re_cancellation e)) a1).
  set (a3 := on_shared (cancel_active (re_active e)) a2).
  set (sn := {| sn_sequence := ac_sequence a; sn_id := id; sn_epoch := re_epoch e;
                sn_view := ac_view a; sn_state := st |}).
  change a' with (on_shared (send_replace sn) (next_sequence a3).2).
  assert (token_owner (re_cancellation e) = id) as Hown by (by rewrite (eb_token _ _ _ Hb)).
  assert (is_cancelled (ac_shared a2) (SubscriptionToken id) = true ∧
    entry_base (ac_shared a2) id e) as [Hc2 Hb2].
  { cbn. rewrite (eb_token _ _ _ Hb), is_cancelled_cancel, decide_True by (done || apply Hb).
    split; [done|]. destruct Hb as [H1 H2 H3]. split; [done|by apply token_cancel_heap|].
    intros act Ha. destruct (H3 act Ha). split; try done. by apply token_cancel_heap. }
  split_and!.
  - transitivity a1; [apply touches_delete|]. transitivity a2.
    { rewrite <- Hown at 1. apply touches_cancel. }
    transitivity a3; [by eapply touches_cancel_active, base_owned|]. by apply touches_send.
  - done.
  - exists sn. split_and!; try done. apply lookup_insert_eq.
  - change (is_cancelled (cancel_active (re_active e) (ac_shared a2)) (SubscriptionToken id) = true).
    by rewrite (cancel_active_subscription _ _ _ Hb2).
  - intros t Ht. apply (cancel_active_keep (re_active e) t (ac_shared a2)).
    by apply (is_cancelled_keep _ t (ac_shared a)).
Qed.

(** ** Scheduling *)

Definition job_of id e v : RouteWorkerJob :=
  {| job_stamp := {| stamp_subscription := id; stamp_epoch := re_epoch e;
                     stamp_job := re_next_job e; stamp_source := RouteProvenance_from_view v |};
     job_view := v; job_request := spec_request (re_spec e);
     job_streaming := single_worker (spec_streaming (re_spec e));
     job_subscription_cancel := re_cancellation e;
     job_cancellation := JobToken id (re_next_job e) |}.

(** The entry after its job was submitted. *)
Definition started id v e : RouteEntry :=
  entry_started (re_next_job e + 1)
    {| active_stamp := job_stamp (job_of id e v); active_cancellation := JobToken id (re_next_job e) |} e.

Definition idle_dirty e : Prop := re_dirty e = true ∧ re_active e = None.

Inductive schedule_result id a : bool * LiveRouteActor → Prop :=
  | schedule_skip :
      (∀ e, ac_entries a !! id = Some e → idle_dirty e → (u64_max <= re_next_job e)%Z) →
      schedule_result id a (true, a)
  | schedule_refused e a' :
      ac_entries a !! id = Some e → idle_dirty e → touches id a a' →
      ac_entries a' = ac_entries a → entry_ok a' id e →
      (∀ pool, ac_workers a = Some pool → wp_capacity pool <= length (sh_jobs (ac_shared a))) →
      schedule_result id a (false, a')
  | schedule_submitted e pool a' :
      ac_entries a !! id = Some e → idle_dirty e → ac_workers a = Some pool →
      length (sh_jobs (ac_shared a)) < wp_capacity pool →
      sh_jobs (ac_shared a') = sh_jobs (ac_shared a) ++ [WorkerSearch (job_of id e (ac_view a))] →
      touches id a (on_shared (set_jobs (sh_jobs (ac_shared a))) a') →
      ac_entries a' = <[id := started id (ac_view a) e]> (ac_entries a) →
      entry_ok a' id (started id (ac_view a) e) →
      is_cancelled (ac_shared a') (JobToken id (re_next_job e)) = false →
      ac_pending a' = ac_pending a →
      schedule_result id a (true, a').

Lemma schedule_one_cases id a :
  is_Some (ac_workers a) →
  (∀ e, ac_entries a !! id = Some e → entry_fit a id e) →
  schedule_result id a (schedule_one id a).
Proof.
  intros [pool Hpool] Hfit. unfold schedule_one.
  destruct (ac_entries a !! id) as [e|] eqn:He; [|apply schedule_skip; congruence].
  specialize (Hfit e eq_refl).
  destruct (negb _) eqn:Hidle.
  { apply schedule_skip. intros e' He' [Hd Ha]. simplify_eq. by rewrite Hd, Ha in Hidle. }
  assert (idle_dirty e) as Hid.
  { apply negb_false_iff, andb_true_iff in Hidle as [Hd Ha]. split; [done|].
    apply bool_decide_eq_true in Ha. by destruct (re_active e). }
  unfold u64_checked_add. case_decide as Hnext.
  2: { apply schedule_skip. intros e' He' _. simplify_eq. lia. }
  set (a0 := on_shared (token_fresh (JobToken id (re_next_job e)) None) a).
  assert (touches id a a0) as Ht0 by apply (touches_fresh (JobToken id (re_next_job e))).
  unfold token_default. fold a0. cbv zeta. change (ac_workers a0) with (ac_workers a).
  rewrite Hpool. unfold try_submit. change (sh_jobs (ac_shared a0)) with (sh_jobs (ac_shared a)).
  destruct (_ <? _) eqn:Hroom.
  - apply Nat.ltb_lt in Hroom.
    set (sh1 := set_jobs (sh_jobs (ac_shared a) ++ [WorkerSearch (job_of id e (ac_view a))]) (ac_shared a0)).
    set (a1 := set_entries (<[id := started id (ac_view a) e]> (ac_entries a)) (set_shared sh1 a0)).
    set (stamp := job_stamp (job_of id e (ac_view a))).
    set (st := StateSearching stamp None (last_ready_of id a1)).
    set (a2 := publish_event (Some id) (Some stamp) (SearchScheduled (re_trigger e))
                 (publish_snapshot id st a1)).
    assert (ac_entries a1 !! id = Some (started id (ac_view a) e)) as He1 by apply lookup_insert_eq.
    rewrite (alter_entry_insert _ _ e) by done.
    change (schedule_result id a (true, a2)).
    assert (st = StateSearching stamp None (re_last_ready e)) as Hst.
    { unfold st, last_ready_of. by rewrite He1. }
    assert (sh_tokens (ac_shared a2) = sh_tokens (ac_shared a0)) as Htk.
    { unfold a2. by autorewrite with live_routes. }
    assert (is_cancelled (ac_shared a2) (JobToken id (re_next_job e)) = false) as Hfresh.
    { unfold is_cancelled. rewrite Htk. cbn. by rewrite lookup_insert_eq. }
    destruct Hfit as [[Htok Hheap _] _ _]. destruct Hid as [Hdirty Hact].
    eapply schedule_submitted; [done..| | | | |done|].
    + unfold a2, publish_snapshot. cbn. by rewrite lookup_insert_eq.
    + set (b1 := set_entries (<[id := started id (ac_view a) e]> (ac_entries a)) a0).
      assert (on_shared (set_jobs (sh_jobs (ac_shared a))) a2 =
        publish_event (Some id) (Some stamp) (SearchScheduled (re_trigger e))
          (publish_snapshot id st b1)) as ->.
      { unfold a2, publish_snapshot. cbn. by rewrite lookup_insert_eq. }
      transitivity a0; [done|]. transitivity b1; [apply (touches_insert id _ a0)|].
      etrans; [apply touches_publish_snapshot|apply touches_publish_event].
    + unfold a2. by autorewrite with live_routes.
    + split; [split|done].
      * split; [done| |].
        -- rewrite Htk. cbn. by rewrite lookup_insert_ne.
        -- intros act [= <-]. split; [done|done|cbn; lia|cbn; lia|].
           rewrite Htk. cbn. by rewrite lookup_insert_eq.
      * intros act [= <-]. split.
        -- split; [done|done|cbn; lia|cbn; lia|]. rewrite Htk. cbn. by rewrite lookup_insert_eq.
        -- assert (ac_view a2 = ac_view a) as -> by (unfold a2; by autorewrite with live_routes). done.
        -- assert (ac_view a2 = ac_view a) as -> by (unfold a2; by autorewrite with live_routes). done.
        -- done.
      * eexists. split; [unfold a2; rewrite watches_event; by apply watches_snapshot|].
        split; [done|]. split; [done|].
        assert (ac_view a2 = ac_view a) as -> by (unfold a2; by autorewrite with live_routes).
        split; [done|]. rewrite Hst. cbn. split_and!; try done. by left.
    + unfold a2, publish_snapshot. cbn. by rewrite lookup_insert_eq.
  - apply Nat.ltb_ge in Hroom. eapply (schedule_refused _ _ e); [done..| | | |].
    + etrans; [exact Ht0|apply touches_enqueue].
    + by autorewrite with live_routes.
    + split; [|intros _ _; left; apply enqueued].
      eapply (entry_fit_local a); [by autorewrite with live_routes| |by autorewrite with live_routes|done].
      intros t [->|[_ Ha]]; [|by destruct Hid]. rewrite shared_enqueue. cbn. by rewrite lookup_insert_ne.
    + intros pool' Hp. by simplify_eq.
Qed.

(** ** Messages of the workers *)

Lemma accepts_spec stamp a :
  accepts stamp a = true ↔
  ∃ e act, ac_entries a !! stamp_subscription stamp = Some e ∧ re_active e = Some act ∧
    active_stamp act = stamp ∧ fresh (ac_view a) e stamp ∧
    is_cancelled (ac_shared a) (re_cancellation e) = false ∧
    is_cancelled (ac_shared a) (active_cancellation act) = false.
Proof.
  unfold accepts, fresh. destruct (ac_entries a !! _) as [e|].
  2: { split; [done|]. by intros (? & ? & ? & _). }
  destruct (re_active e) as [act|] eqn:Hact.
  2: { rewrite andb_false_r. split; [done|]. intros (e' & act & [= <-] & Ha & _). congruence. }
  rewrite !andb_true_iff, !bool_decide_eq_true, !negb_true_iff. split.
  - intros [[[H1 H2] H3] [H4 H5]]. by exists e, act.
  - intros (e' & act' & [= <-] & Ha & H4 & [H1 H2] & H3 & H5). simplify_eq. by split_and!.
Qed.

Lemma handle_worker_event_ok stamp event a e :
  accepts stamp a = true → ac_entries a !! stamp_subscription stamp = Some e →
  entry_ok a (stamp_subscription stamp) e →
  (∀ q, event_best event = Some q → hears (ac_view a) (re_spec e) q) →
  let a' := handle_worker_event stamp event a in
  touches (stamp_subscription stamp) a a' ∧ ac_entries a' = ac_entries a ∧
  sh_tokens (ac_shared a') = sh_tokens (ac_shared a) ∧ entry_ok a' (stamp_subscription stamp) e.
Proof.
  set (id := stamp_subscription stamp). intros Hacc He Hok Hhears a'.
  pose proof Hacc as (e' & act & He' & Hact & Hstamp & Hfresh & _ & _)%accepts_spec.
  fold id in He'. assert (e' = e) as -> by congruence.
  destruct Hok as [[Hb Ha Hw] Hq].
  assert (re_dirty e = false) as Hdirty.
  { apply (ak_fresh _ _ _ _ _ (Ha act Hact)). by rewrite Hstamp. }
  set (prov := versioned (stamp_source stamp) <$> event_best event).
  set (a1 := match prov with
             | Some q => publish_snapshot id (StateSearching stamp (Some q) (re_last_ready e)) a
             | None => a
             end).
  assert (a' = publish_event (Some id) (Some stamp) (SearchEvent event) a1) as ->.
  { unfold a', handle_worker_event. rewrite Hacc. fold id. unfold last_ready_of. rewrite He. cbn.
    unfold a1, prov. by destruct (event_best event). }
  assert (touches id a a1) as Ht1.
  { unfold a1. destruct prov; [apply touches_publish_snapshot|done]. }
  split_and!; [etrans; [exact Ht1|apply touches_publish_event]| | |].
  - unfold a1. by destruct prov; autorewrite with live_routes.
  - unfold a1. by destruct prov; autorewrite with live_routes.
  - apply entry_ok_event. unfold a1. destruct prov as [q|] eqn:Hprov; [|by split].
    set (st := StateSearching stamp (Some q) (re_last_ready e)).
    assert (sh_tokens (ac_shared (publish_snapshot id st a)) = sh_tokens (ac_shared a)) as Htk.
    { by autorewrite with live_routes. }
    split; [split|].
    + by apply (entry_base_tokens (ac_shared a)).
    + intros act' Hact'. autorewrite with live_routes. by apply (active_ok_tokens _ (ac_shared a)), Ha.
    + eexists. rewrite (watches_snapshot _ _ _ e) by done. split; [done|].
      autorewrite with live_routes. cbn. split_and!; try done.
      * left. by rewrite Hact, <- Hstamp.
      * intros q' [= <-]. unfold prov in Hprov. destruct (event_best event) as [quote|]; [|done].
        injection Hprov as <-. split; [apply Hfresh|]. by apply Hhears.
    + by autorewrite with live_routes.
Qed.

(** A completed search: not the active one, a stale one, or the current one. *)
Inductive completed_result stamp (r : result RouteSearchFailure StreamingSearchReport) a :
    LiveRouteActor → Prop :=
  | completed_ignored :
      (∀ e, ac_entries a !! stamp_subscription stamp = Some e →
        active_stamp <$> re_active e ≠ Some stamp) →
      completed_result stamp r a a
  | completed_stale e a' :
      ac_entries a !! stamp_subscription stamp = Some e → active_stamp <$> re_active e = Some stamp →
      (¬ fresh (ac_view a) e stamp ∨
       is_cancelled (ac_shared a) (SubscriptionToken (stamp_subscription stamp)) = true) →
      let cancelled := is_cancelled (ac_shared a) (SubscriptionToken (stamp_subscription stamp)) in
      touches (stamp_subscription stamp) a a' →
      ac_entries a' = <[stamp_subscription stamp := entry_finished (negb cancelled) e]> (ac_entries a) →
      sh_tokens (ac_shared a') = sh_tokens (ac_shared a) →
      entry_ok a' (stamp_subscription stamp) (entry_finished (negb cancelled) e) →
      completed_result stamp r a a'
  | completed_current e e' a' :
      ac_entries a !! stamp_subscription stamp = Some e → active_stamp <$> re_active e = Some stamp →
      fresh (ac_view a) e stamp →
      is_cancelled (ac_shared a) (SubscriptionToken (stamp_subscription stamp)) = false →
      touches (stamp_subscription stamp) a a' →
      ac_entries a' = <[stamp_subscription stamp := e']> (ac_entries a) →
      sh_tokens (ac_shared a') = sh_tokens (ac_shared a) →
      re_spec e' = re_spec e → re_epoch e' = re_epoch e → re_active e' = None →
      re_next_job e' = re_next_job e → re_dirty e' = false →
      (answers (ac_view a) (re_spec e) r → entry_ok a' (stamp_subscription stamp) e') →
      completed_result stamp r a a'.

Lemma fresh_dec v e stamp :
  negb (bool_decide (stamp_source stamp = RouteProvenance_from_view v)) ||
  negb (bool_decide (re_epoch e = stamp_epoch stamp)) = false ↔ fresh v e stamp.
Proof.
  unfold fresh. rewrite orb_false_iff, !negb_false_iff, !bool_decide_eq_true. split; intros []; done.
Qed.

Lemma publish_result_ok stamp r a e :
  ac_entries a !! stamp_subscription stamp = Some e →
  entry_base (ac_shared a) (stamp_subscription stamp) e → re_active e = None → re_dirty e = false →
  stamp_source stamp = current a →
  let a' := publish_result stamp r a in
  ∃ e', touches (stamp_subscription stamp) a a' ∧
    ac_entries a' = <[stamp_subscription stamp := e']> (ac_entries a) ∧
    sh_tokens (ac_shared a') = sh_tokens (ac_shared a) ∧ re_spec e' = re_spec e ∧ re_epoch e' = re_epoch e ∧ re_active e' = None ∧
    re_next_job e' = re_next_job e ∧ re_dirty e' = false ∧
    (answers (ac_view a) (re_spec e) r → entry_ok a' (stamp_subscription stamp) e').
Proof.
  set (id := stamp_subscription stamp). intros He Hb Hact Hdirty Hsrc a'. destruct r as [report|failure].
  - set (best := versioned (stamp_source stamp) <$> rep_best report).
    set (e' := entry_set_last_ready best e). exists e'.
    set (a1 := set_entries (<[id := e']> (ac_entries a)) a).
    set (a2 := publish_snapshot id (StateReady (stamp_source stamp) best report) a1).
    assert (a' = publish_event (Some id) (Some stamp) (RoutePublished (last_ready_of id a) best report) a2)
      as ->.
    { unfold a', publish_result. fold id. by rewrite (alter_entry_insert _ _ e). }
    assert (ac_entries a1 !! id = Some e') as He1 by apply lookup_insert_eq.
    split_and!; try done.
    + transitivity a1; [apply touches_insert|].
      etrans; [apply touches_publish_snapshot|apply touches_publish_event].
    + unfold a2. by autorewrite with live_routes.
    + unfold a2. by autorewrite with live_routes.
    + intros Hans. apply entry_ok_event. split; [split|].
      * apply (entry_base_tokens (ac_shared a)); [unfold a2; by autorewrite with live_routes|].
        destruct Hb as [H1 H2 H3]. split; [done..|]. cbn. congruence.
      * unfold e'. cbn. rewrite Hact. done.
      * eexists. unfold a2. rewrite (watches_snapshot _ _ _ _ He1). split; [done|].
        autorewrite with live_routes. cbn. split_and!; try done. unfold best. by rewrite Hsrc.
      * unfold e'. cbn. by rewrite Hdirty.
  - exists e. set (a2 := publish_snapshot id (StateFailed (stamp_source stamp) failure) a).
    change a' with (publish_event (Some id) (Some stamp) (SearchFailed failure) a2).
    split_and!; try done.
    + etrans; [apply touches_publish_snapshot|apply touches_publish_event].
    + unfold a2. autorewrite with live_routes. by rewrite insert_id.
    + unfold a2. by autorewrite with live_routes.
    + intros Hans. apply entry_ok_event. split; [split|].
      * apply (entry_base_tokens (ac_shared a)); [unfold a2; by autorewrite with live_routes|done].
      * rewrite Hact. done.
      * eexists. unfold a2. rewrite (watches_snapshot _ _ _ _ He). split; [done|].
        autorewrite with live_routes. cbn. by split_and!.
      * by rewrite Hdirty.
Qed.

Lemma handle_worker_completed_cases stamp r a :
  (∀ e, ac_entries a !! stamp_subscription stamp = Some e → entry_ok a (stamp_subscription stamp) e) →
  completed_result stamp r a (handle_worker_completed stamp r a).
Proof.
  set (id := stamp_subscription stamp). intros Hok. unfold handle_worker_completed. fold id.
  destruct (ac_entries a !! id) as [e|] eqn:He.
  2: { apply completed_ignored. intros e' He'. fold id in He'. congruence. }
  specialize (Hok e eq_refl). pose proof Hok as [[Hb Ha Hw] Hq].
  destruct (bool_decide _) eqn:Hact; cbn [negb].
  2: { apply completed_ignored. intros e' He'. fold id in He'. apply bool_decide_eq_false in Hact.
       congruence. }
  apply bool_decide_eq_true in Hact. rewrite (eb_token _ _ _ Hb).
  destruct (re_active e) as [act|] eqn:Hact'; [|done]. injection Hact as Hstamp.
  destruct (Ha act eq_refl) as [_ _ Hfr Hcan]. rewrite Hstamp in Hfr.
  set (cancelled := is_cancelled (ac_shared a) (SubscriptionToken id)).
  destruct (_ || cancelled) eqn:Hstale.
  - assert (¬ fresh (ac_view a) e stamp ∨ cancelled = true) as Hwhy.
    { apply orb_true_iff in Hstale as [Hs|]; [left|by right]. rewrite <- fresh_dec. congruence. }
    set (e1 := entry_finished (negb cancelled) e).
    set (a1 := set_entries (<[id := e1]> (ac_entries a)) a).
    set (a2 := publish_event (Some id) (Some stamp) (StaleResultRejected (stamp_source stamp) (current a)) a1).
    set (a3 := if negb cancelled then enqueue_pending id a2 else a2).
    rewrite (alter_entry_insert _ _ e) by done.
    change (completed_result stamp r a a3).
    assert (ac_entries a3 = <[id := e1]> (ac_entries a) ∧ ac_view a3 = ac_view a ∧
      sh_tokens (ac_shared a3) = sh_tokens (ac_shared a) ∧
      sh_watches (ac_shared a3) = sh_watches (ac_shared a)) as (He3 & Hv3 & Ht3 & Hw3).
    { unfold a3. destruct (negb cancelled); by autorewrite with live_routes. }
    eapply (completed_stale _ _ _ e a3); [done|by rewrite Hact'; cbn; f_equal|done| |done|done|].
    + transitivity a1; [apply touches_insert|]. etrans; [apply (touches_publish_event id)|].
      unfold a3. destruct (negb cancelled); [apply touches_enqueue|done].
    + fold id cancelled. split; [split|].
      * apply (entry_base_tokens (ac_shared a)); [done|]. destruct Hb. split; [done..|]. done.
      * done.
      * destruct Hw as (sn & Hsn & Hid & Hep & Hv & Hshows). exists sn. rewrite Hw3, Hv3.
        split_and!; try done. rewrite (is_cancelled_ext _ _ (ac_shared a)) by (by rewrite Ht3).
        fold cancelled. fold cancelled in Hshows. unfold shows in Hshows |- *.
        destruct (sn_state sn); try done.
        -- destruct Hshows as (-> & -> & _). cbn. split_and!; try done.
           destruct cancelled; [by right|by left].
        -- destruct Hshows as ([H1 H2] & -> & Hd & _ & Hp). cbn. destruct cancelled.
           ++ split_and!; try done. by right.
           ++ exfalso. destruct Hwhy as [Hnf|]; [|done]. by apply Hnf, Hfr.
        -- destruct Hshows as (_ & _ & Hnone & _). congruence.
        -- destruct Hshows as (_ & _ & Hnone & _). congruence.
      * intros Hd _. left. unfold a3. cbn in Hd. rewrite Hd. apply enqueued.
  - apply orb_false_iff in Hstale as [Hf%fresh_dec Hc].
    assert (re_dirty e = false) as Hdirty by by apply Hfr.
    rewrite (alter_entry_insert _ _ e) by done.
    set (e1 := entry_finished (re_dirty e) e).
    set (a1 := set_entries (<[id := e1]> (ac_entries a)) a).
    destruct (publish_result_ok stamp r a1 e1) as (e' & Ht & He' & Htk & H1 & H2 & H3 & H4 & H5 & H6).
    + apply lookup_insert_eq.
    + apply (entry_base_tokens (ac_shared a)); [done|]. destruct Hb. split; [done..|]. done.
    + done.
    + done.
    + apply Hf.
    + eapply (completed_current _ _ _ e e'); try done; [by rewrite Hact'; cbn; f_equal| |].
      * etrans; [apply (touches_insert id e1)|exact Ht].
      * rewrite He'. cbn. by rewrite insert_insert_eq.
Qed.
End props.
