(* ===== verification/LiveRoutesInv.v ===== *)
(** * The invariant of the coordinator

    [actor_ok]: the pending queue is duplicate-free, every subscription's entry
    fits the current view, the view is that of the live graph.  [outstanding_ok]
    ties the active searches to the jobs that are queued, running or about to
    report: each is the active search of its subscription, and the only one. *)

From S2P Require Import Prelude AmmState Petgraph Graph Config SearchTypes Liquidity QuoteCache Quote.
From S2P Require Import Searcher Streaming StreamDriver LiveState LiveGraph LiveGraphProps.
From S2P Require Import LiveGraphTheorems LiveView LiveRoutes LiveRoutesProps.

Section invariant.
Context `{!AmmTypes} `{!AmmLive} `{!Petgraph Address EdgeData}.
Context (answers : LiveSearchView → RouteSubscriptionSpec →
                   result RouteSearchFailure StreamingSearchReport → Prop)
  (hears : LiveSearchView → RouteSubscriptionSpec → RouteQuote → Prop).
Implicit Types (a : LiveRouteActor) (id : RouteSubscriptionId) (e : RouteEntry)
  (out : list RouteJobStamp) (job : RouteWorkerJob).

Abbreviation entry_good := (entry_ok answers hears).

(** A subscription that was removed: its channel shows that it was cancelled,
    and its token is set. *)
Definition gone_ok a id : Prop :=
  ac_entries a !! id = None →
  (∀ sn, sh_watches (ac_shared a) !! id = Some sn → sn_state sn = StateCancelled) ∧
  ((0 <= id < ac_next_subscription a)%Z →
   is_cancelled (ac_shared a) (SubscriptionToken id) = true).

Record actor_ok a : Prop := {
  ao_queue : queue_ok a;
  ao_outputs : outputs_ok a;
  ao_entries id e : ac_entries a !! id = Some e → entry_good a id e;
  ao_ids id e : ac_entries a !! id = Some e → (0 <= id < ac_next_subscription a)%Z;
  ao_version : view_version (ac_view a) = live_state_version (ac_live a);
  ao_size : size (ac_entries a) <= ac_max_subscriptions a;
  ao_next : (0 <= ac_next_subscription a)%Z;
  ao_gone id : gone_ok a id;
}.

Lemma gone_ok_local id a a' :
  same_local id a a' → ac_next_subscription a' = ac_next_subscription a → gone_ok a id → gone_ok a' id.
Proof.
  intros [L1 L2 L3 _] Hn. unfold gone_ok. rewrite L1, L2, Hn.
  by rewrite (is_cancelled_ext (SubscriptionToken id) (ac_shared a') (ac_shared a)) by by apply L3.
Qed.

Lemma gone_ok_live id e a : ac_entries a !! id = Some e → gone_ok a id.
Proof. intros He Hn. congruence. Qed.

Record outstanding_ok a out : Prop := {
  ou_nodup : NoDup out;
  ou_active id e act : ac_entries a !! id = Some e → re_active e = Some act → active_stamp act ∈ out;
  ou_owned stamp e : stamp ∈ out → ac_entries a !! stamp_subscription stamp = Some e →
    active_stamp <$> re_active e = Some stamp;
}.

#[export] Instance outstanding_ok_proper a : Proper ((≡ₚ) ==> iff) (outstanding_ok a).
Proof.
  intros l k Hlk. split; intros [H1 H2 H3]; split.
  - by rewrite <- Hlk.
  - intros. rewrite <- Hlk. eauto.
  - intros stamp e. rewrite <- Hlk. eauto.
  - by rewrite Hlk.
  - intros. rewrite Hlk. eauto.
  - intros stamp e. rewrite Hlk. eauto.
Qed.

(** The state only moves forward: views get newer, subscriptions are not
    reused, and a request changes only with the epoch. *)
Record advances a a' : Prop := {
  ad_next : (ac_next_subscription a <= ac_next_subscription a')%Z;
  ad_view : ac_view a' = ac_view a ∨ (view_version (ac_view a) < view_version (ac_view a'))%Z;
  ad_entries id e' : ac_entries a' !! id = Some e' → (id < ac_next_subscription a)%Z →
    ∃ e, ac_entries a !! id = Some e ∧
      (re_epoch e' = re_epoch e ∧ re_spec e' = re_spec e ∨ (re_epoch e < re_epoch e')%Z);
}.

#[export] Instance advances_preorder : PreOrder advances.
Proof.
  split.
  - intros a. split; [lia|by left|]. intros id e' He _. exists e'. eauto.
  - intros a b c [H1 H2 H3] [H4 H5 H6]. split; [lia| |].
    + destruct H2 as [H2|H2], H5 as [H5|H5]; rewrite ?H5, ?H2 in *; auto; right; lia.
    + intros id e' He Hid. destruct (H6 id e' He) as (e1 & He1 & Hc1); [lia|].
      destruct (H3 id e1 He1 Hid) as (e2 & He2 & Hc2). exists e2. split; [done|].
      destruct Hc1 as [[Ha1 Hb1]|], Hc2 as [[Ha2 Hb2]|]; [left; split; congruence|right; lia..].
Qed.

(** A job on its way: it was made for a view and a request that are current or
    past. *)
Record job_ok a job : Prop := {
  jo_id : (0 <= stamp_subscription (job_stamp job) < ac_next_subscription a)%Z;
  jo_source : stamp_source (job_stamp job) = RouteProvenance_from_view (job_view job);
  jo_version : (view_version (job_view job) <= view_version (ac_view a))%Z;
  jo_view : stamp_source (job_stamp job) = current a → job_view job = ac_view a;
  jo_subscription : job_subscription_cancel job = SubscriptionToken (stamp_subscription (job_stamp job));
  jo_token : job_cancellation job =
    JobToken (stamp_subscription (job_stamp job)) (stamp_job (job_stamp job));
  jo_request e : ac_entries a !! stamp_subscription (job_stamp job) = Some e →
    (stamp_epoch (job_stamp job) <= re_epoch e)%Z ∧
    (stamp_epoch (job_stamp job) = re_epoch e →
     job_request job = spec_request (re_spec e) ∧
     job_streaming job = single_worker (spec_streaming (re_spec e)));
}.

Lemma job_ok_advances a a' job : advances a a' → job_ok a job → job_ok a' job.
Proof.
  intros [Hn Hv He] [H1 H2 H3 H4 H5 H6 H7]. split; try done; [lia|..].
  - destruct Hv as [->|]; [done|lia].
  - intros Hs. destruct Hv as [Hv|Hv]; [rewrite Hv; apply H4; unfold current in *; congruence|].
    rewrite H2 in Hs. apply (f_equal rp_state_version) in Hs. unfold view_version in *. cbn in Hs. lia.
  - intros e' He'. destruct (He _ _ He') as (e & He0 & Hc); [lia|].
    destruct (H7 e He0) as [Hle Heq]. destruct Hc as [[-> ->]|]; [done|]. split; lia.
Qed.

(** Cancelled tokens of the outstanding jobs stay cancelled. *)
Definition keeps_cancelled out a a' : Prop :=
  ∀ stamp t, stamp ∈ out → token_owner t = stamp_subscription stamp →
    is_cancelled (ac_shared a) t = true → is_cancelled (ac_shared a') t = true.

Lemma touches_entries id a a' id' :
  touches id a a' → id' ≠ id → ac_entries a' !! id' = ac_entries a !! id'.
Proof. intros Ht Hne. apply (sl_entry _ _ _ (to_local _ _ _ Ht id' Hne)). Qed.

(** An operation on one subscription keeps the invariant when the entry it
    leaves there fits. *)
Lemma actor_ok_touches id a a' :
  actor_ok a → touches id a a' → (size (ac_entries a') <= size (ac_entries a)) →
  (∀ e, ac_entries a' !! id = Some e → is_Some (ac_entries a !! id) ∧ entry_good a' id e) →
  gone_ok a' id → actor_ok a'.
Proof.
  intros [H1 H2 H3 H4 H5 H6 H7 H8] Ht Hsize Hid Hgone.
  pose proof (to_global _ _ _ Ht) as [G1 G2 G3 G4 _ _ _]. split.
  - by apply (to_queue _ _ _ Ht).
  - by apply (to_outputs _ _ _ Ht).
  - intros id' e He. destruct (decide (id' = id)) as [->|Hne]; [by apply Hid|].
    pose proof (to_local _ _ _ Ht id' Hne) as Hl. rewrite (sl_entry _ _ _ Hl) in He.
    eapply entry_ok_local; [exact Hl|done|auto].
  - intros id' e He. rewrite G3. destruct (decide (id' = id)) as [->|Hne].
    + destruct (Hid e He) as [[e0 He0] _]. eauto.
    + rewrite (touches_entries id a) in He by done. eauto.
  - by rewrite G1, G2.
  - rewrite G4. lia.
  - by rewrite G3.
  - intros i. destruct (decide (i = id)) as [->|Hne]; [done|].
    eapply gone_ok_local; [by apply (to_local _ _ _ Ht)|done|apply H8].
Qed.

Lemma keeps_cancelled_touches id out a a' :
  touches id a a' →
  (∀ stamp t, stamp ∈ out → stamp_subscription stamp = id → token_owner t = id →
     is_cancelled (ac_shared a) t = true → is_cancelled (ac_shared a') t = true) →
  keeps_cancelled out a a'.
Proof.
  intros Ht Hid stamp t Hs Ho Hc. destruct (decide (stamp_subscription stamp = id)) as [Heq|Hne].
  - eapply Hid; eauto. congruence.
  - rewrite <- Hc. apply is_cancelled_ext.
    by apply (sl_tokens _ _ _ (to_local _ _ _ Ht _ Hne)).
Qed.

Lemma advances_touches id a a' :
  touches id a a' →
  (∀ e', ac_entries a' !! id = Some e' → ∃ e, ac_entries a !! id = Some e ∧
     (re_epoch e' = re_epoch e ∧ re_spec e' = re_spec e ∨ (re_epoch e < re_epoch e')%Z)) →
  advances a a'.
Proof.
  intros Ht Hid. pose proof (to_global _ _ _ Ht) as [G1 G2 G3 G4 _ _ _].
  split; [by rewrite G3|by left|]. intros id' e' He' _.
  destruct (decide (id' = id)) as [->|Hne]; [by apply Hid|].
  rewrite (touches_entries id a) in He' by done. eauto.
Qed.

(** Outstanding jobs after an operation on one subscription. *)
Lemma outstanding_touches id a a' out :
  touches id a a' → outstanding_ok a out →
  (∀ e', ac_entries a' !! id = Some e' → ∃ e, ac_entries a !! id = Some e ∧ re_active e' = re_active e) →
  outstanding_ok a' out.
Proof.
  intros Ht [H1 H2 H3] Hid. split; [done|..].
  - intros id' e' act He' Ha. destruct (decide (id' = id)) as [->|Hne].
    + destruct (Hid e' He') as (e & He & Hact). apply (H2 id e); congruence.
    + rewrite (touches_entries id a) in He' by done. eauto.
  - intros stamp e' Hs He'. destruct (decide (stamp_subscription stamp = id)) as [Heq|Hne].
    + rewrite Heq in He'. destruct (Hid e' He') as (e & He & ->). apply H3; [done|]. by rewrite Heq.
    + rewrite (touches_entries id a) in He' by done. eauto.
Qed.

(** ** The inputs of the coordinator *)

(** What handling an input preserves; [still] when it is not a commit. *)
Record handled (still : bool) out a a' : Prop := {
  hd_actor : actor_ok a';
  hd_outstanding : outstanding_ok a' out;
  hd_advances : advances a a';
  hd_cancelled : keeps_cancelled out a a';
  hd_jobs : sh_jobs (ac_shared a') = sh_jobs (ac_shared a);
  hd_workers : ac_workers a' = ac_workers a;
  hd_max : ac_max_subscriptions a' = ac_max_subscriptions a;
  hd_failure : ac_terminal_failure a' = ac_terminal_failure a;
  hd_live : still = true → ac_live a' = ac_live a ∧ ac_view a' = ac_view a;
}.

Lemma handled_refl out a : actor_ok a → outstanding_ok a out → handled true out a a.
Proof. intros H1 H2. split; try done. by intros ?. Qed.

Lemma handled_touches id out a a' :
  actor_ok a → outstanding_ok a out → touches id a a' →
  size (ac_entries a') <= size (ac_entries a) →
  (∀ e', ac_entries a' !! id = Some e' → entry_good a' id e' ∧
     ∃ e, ac_entries a !! id = Some e ∧ re_active e' = re_active e ∧
       (re_epoch e' = re_epoch e ∧ re_spec e' = re_spec e ∨ (re_epoch e < re_epoch e')%Z)) →
  gone_ok a' id →
  (∀ t, is_cancelled (ac_shared a) t = true → is_cancelled (ac_shared a') t = true) →
  handled true out a a'.
Proof.
  intros Ha Ho Ht Hsize Hid Hgone Hc. pose proof (to_global _ _ _ Ht) as [G1 G2 G3 G4 G5 G6 _].
  split; try done.
  - eapply actor_ok_touches; try done. intros e' He'.
    destruct (Hid e' He') as (Hok & e & He & _). by rewrite He.
  - eapply outstanding_touches; try done. intros e' He'.
    destruct (Hid e' He') as (_ & e & He & Hact & _). eauto.
  - eapply advances_touches; try done. intros e' He'.
    destruct (Hid e' He') as (_ & e & He & _ & Hep). eauto.
  - intros stamp t _ _. apply Hc.
  - apply (to_jobs _ _ _ Ht).
Qed.

Lemma cancel_subscription_handled out id a :
  actor_ok a → outstanding_ok a out → handled true out a (cancel_subscription id a).2.
Proof.
  intros Ha Ho. unfold cancel_subscription. destruct (ac_entries a !! id) as [e|] eqn:He; cbn [snd].
  2: by apply handled_refl.
  destruct (retire_entry_ok id e StateCancelled a) as (Ht & He' & (sn & Hsn & _ & _ & Hst) & Hcan & Hc).
  { apply (ao_entries _ Ha id e He). }
  set (a1 := retire_entry id e StateCancelled a) in *.
  apply (handled_touches id); try done.
  - etrans; [exact Ht|apply touches_publish_event].
  - rewrite entries_event, He', map_size_delete, He. lia.
  - intros e'. by rewrite entries_event, He', lookup_delete_eq.
  - intros _. split; [|done]. intros sn'. rewrite watches_event. fold a1. congruence.
Qed.

Lemma replace_subscription_handled out id spec a :
  actor_ok a → outstanding_ok a out → handled true out a (replace_subscription id spec a).2.
Proof.
  intros Ha Ho. destruct (ac_entries a !! id) as [e|] eqn:He.
  2: { unfold replace_subscription. rewrite He. by apply handled_refl. }
  destruct (u64_checked_add (re_epoch e) 1) as [next|] eqn:Hnext.
  2: { unfold replace_subscription. rewrite He, Hnext. by apply handled_refl. }
  destruct (replace_subscription_ok answers hears id spec e next a) as (_ & Ht & He' & Hok & -> & Hc);
    [done|by apply ao_entries|done|].
  apply (handled_touches id); try done.
  - rewrite He', map_size_insert, He. done.
  - intros e'. rewrite He', lookup_insert_eq. intros [= <-]. split; [done|].
    exists e. cbn. split_and!; try done. right. lia.
  - eapply gone_ok_live. by rewrite He', lookup_insert_eq.
Qed.

Lemma handled_reply out a a' r :
  handled true out a a' → handled true out a (on_shared (output (OutReply r)) a').
Proof.
  intros [[H1 H2 H3 H4 H5 H6 H6' H6''] [H7 H8 H9] [H10 H11 H12] H13 H14 H15 H16 H17]. split; try done.
  - split; try done; [by apply outputs_ok_reply|]. intros id e He.
    by apply (entry_ok_local _ _ a'), H3.
Qed.

Lemma add_subscription_handled out spec a :
  actor_ok a → outstanding_ok a out →
  (∀ stamp, stamp ∈ out → (stamp_subscription stamp < ac_next_subscription a)%Z) →
  handled true out a (add_subscription spec a).2.
Proof.
  intros Ha Ho Hids. pose proof (add_subscription_ok answers hears spec a) as Hadd. cbv zeta in Hadd.
  set (id := ac_next_subscription a) in *.
  destruct (add_subscription spec a) as [[sub|err] a']; cbn [snd].
  2: { destruct Hadd as [-> _]. by apply handled_refl. }
  destruct Hadd as (_ & Hsize & Ht & He' & _ & Hok). pose proof (to_global _ _ _ Ht) as [G1 G2 G3 G4 G5 G6 _].
  destruct Ha as [H1 H2 H3 H4 H5 H6 H7 H8], Ho as [O1 O2 O3].
  assert (ac_entries a !! id = None) as Hnone.
  { destruct (ac_entries a !! id) as [e|] eqn:He; [|done]. apply H4 in He. unfold id in He. lia. }
  assert (∀ id' e, ac_entries a' !! id' = Some e → id' = id ∧ e = new_entry id spec ∨
    id' ≠ id ∧ ac_entries a !! id' = Some e) as Hcases.
  { intros id' e. rewrite He'. intros [[<- <-]|[? ?]]%lookup_insert_Some; auto. }
  split; try done.
  - split.
    + by apply (to_queue _ _ _ Ht).
    + apply (to_outputs _ _ _ Ht). by apply (outputs_ok_ext a).
    + intros id' e [[-> ->]|[Hne He]]%Hcases; [done|].
      pose proof (to_local _ _ _ Ht id' Hne) as [L1 L2 L3 L4].
      apply (entry_ok_local _ _ a); [by split|done|auto].
    + intros id' e He. rewrite G3. cbn. apply Hcases in He as [[-> _]|[_ He]]; [lia|].
      apply H4 in He. unfold id. lia.
    + by rewrite G1, G2.
    + rewrite He', map_size_insert, Hnone, G4. cbn. lia.
    + rewrite G3. cbn. unfold id. lia.
    + intros i. destruct (decide (i = id)) as [->|Hne].
      { eapply gone_ok_live. by rewrite He', lookup_insert_eq. }
      pose proof (to_local _ _ _ Ht i Hne) as [L1 L2 L3 _]. intros Hi. rewrite L1 in Hi.
      destruct (H8 i Hi) as [Hw Hc]. rewrite L2, G3. split; [done|]. cbn. intros Hrange.
      rewrite (is_cancelled_ext _ _ (ac_shared a)) by (by rewrite L3). apply Hc. unfold id in *. lia.
  - split; [done| |].
    + intros id' e act [[-> ->]|[_ He]]%Hcases; [done|eauto].
    + intros stamp e Hs [[Heq _]|[_ He]]%Hcases; [|eauto]. apply Hids in Hs. unfold id in Heq. lia.
  - split; [rewrite G3; cbn; unfold id; lia|by left|].
    intros id' e [[-> _]|[_ He]]%Hcases; [lia|eauto].
  - intros stamp t Hs Howner Hc. rewrite <- Hc. apply is_cancelled_ext.
    apply Hids in Hs. rewrite (sl_tokens _ _ _ (to_local _ _ _ Ht (stamp_subscription stamp) ltac:(unfold id; lia)))
      by done. done.
  - apply (to_jobs _ _ _ Ht).
Qed.

Lemma handle_command_handled out command a :
  actor_ok a → outstanding_ok a out →
  (∀ stamp, stamp ∈ out → (stamp_subscription stamp < ac_next_subscription a)%Z) →
  (handle_command command a).1 = false → handled true out a (handle_command command a).2.
Proof.
  intros Ha Ho Hids. destruct command as [spec|id|id spec|]; cbn [handle_command]; [..|done].
  - pose proof (add_subscription_handled out spec a Ha Ho Hids) as Hx.
    destruct (add_subscription spec a). intros _. by apply handled_reply.
  - pose proof (cancel_subscription_handled out id a Ha Ho) as Hx.
    destruct (cancel_subscription id a). intros _. by apply handled_reply.
  - pose proof (replace_subscription_handled out id spec a Ha Ho) as Hx.
    destruct (replace_subscription id spec a). intros _. by apply handled_reply.
Qed.

(** An event: the invariant stays, when the event is one the subscription's
    search may report. *)
Lemma handle_worker_event_handled out stamp event a :
  actor_ok a → outstanding_ok a out →
  (∀ e q, accepts stamp a = true → ac_entries a !! stamp_subscription stamp = Some e →
     event_best event = Some q → hears (ac_view a) (re_spec e) q) →
  handled true out a (handle_worker_event stamp event a).
Proof.
  intros Ha Ho Hhears. destruct (accepts stamp a) eqn:Hacc.
  2: { unfold handle_worker_event. rewrite Hacc. by apply handled_refl. }
  pose proof Hacc as (e & act & He & _)%accepts_spec.
  destruct (handle_worker_event_ok answers hears stamp event a e) as (Ht & He' & Htk & Hok); try done.
  { by apply ao_entries. }
  { intros q. by apply Hhears. }
  apply (handled_touches (stamp_subscription stamp)); try done.
  - by rewrite He'.
  - intros e'. rewrite He'. intros He''. assert (e' = e) as -> by congruence. split; [done|].
    exists e. split_and!; try done. by left.
  - eapply gone_ok_live. by rewrite He'.
  - intros t Hc. rewrite <- Hc. apply is_cancelled_ext. by rewrite Htk.
Qed.

(** A completed search leaves the outstanding ones. *)
Lemma outstanding_pop stamp out a a' :
  actor_ok a → outstanding_ok a (stamp :: out) → touches (stamp_subscription stamp) a a' →
  (∀ e', ac_entries a' !! stamp_subscription stamp = Some e' →
     re_active e' = None ∧ is_Some (ac_entries a !! stamp_subscription stamp)) →
  outstanding_ok a' out.
Proof.
  intros Ha [O1 O2 O3] Ht Hid. apply NoDup_cons in O1 as [Hnot Hnd]. split; [done|..].
  - intros id' e' act He' Hact. destruct (decide (id' = stamp_subscription stamp)) as [->|Hne].
    { destruct (Hid e' He') as [Hn _]. congruence. }
    rewrite (touches_entries (stamp_subscription stamp) a) in He' by done.
    pose proof (O2 id' e' act He' Hact) as [Heq|]%elem_of_cons; [|done].
    pose proof (ab_subscription _ _ _ _ (eb_active _ _ _ (ef_base _ _ _ _ _
      (eo_fit _ _ _ _ _ (ao_entries _ Ha id' e' He'))) act Hact)) as Hsub.
    congruence.
  - intros s e' Hs He'. destruct (decide (stamp_subscription s = stamp_subscription stamp)) as [Heq|Hne].
    + rewrite Heq in He'. destruct (Hid e' He') as [_ [e He]].
      assert (active_stamp <$> re_active e = Some stamp) as H1 by (apply O3; [set_solver|done]).
      assert (active_stamp <$> re_active e = Some s) as H2 by (apply O3; [set_solver|by rewrite Heq]).
      assert (s = stamp) as -> by congruence. done.
    + rewrite (touches_entries (stamp_subscription stamp) a) in He' by done. apply O3; [set_solver|done].
Qed.

Lemma handle_worker_completed_handled out stamp r a :
  actor_ok a → outstanding_ok a (stamp :: out) →
  (∀ e, ac_entries a !! stamp_subscription stamp = Some e → active_stamp <$> re_active e = Some stamp →
     fresh (ac_view a) e stamp →
     is_cancelled (ac_shared a) (SubscriptionToken (stamp_subscription stamp)) = false →
     answers (ac_view a) (re_spec e) r) →
  handled true out a (handle_worker_completed stamp r a).
Proof.
  intros Ha Ho Hans. set (id := stamp_subscription stamp).
  destruct (handle_worker_completed_cases answers hears stamp r a) as
    [Hno|e a' He Hact Hwhy cancelled Ht He' Htk Hok
    |e e' a' He Hact Hf Hc Ht He' Htk H1 H2 H3 H4 H5 Hok].
  { intros e He. by apply ao_entries. }
  - assert (ac_entries a !! id = None) as Hnone.
    { destruct (ac_entries a !! id) as [e|] eqn:He; [|done]. destruct (Hno e He).
      apply (ou_owned _ _ Ho); [set_solver|done]. }
    split; try done; [|by intros ?]. eapply (outstanding_pop stamp); try done.
    fold id. rewrite Hnone. done.
  - fold id in He, He', Ht, Hok. pose proof (to_global _ _ _ Ht) as [_ _ _ G4 G5 G6 _].
    assert (ac_entries a' !! id = Some (entry_finished (negb cancelled) e)) as Hid.
    { by rewrite He', lookup_insert_eq. }
    split; try done.
    + eapply (actor_ok_touches id); try done; [by rewrite He', map_size_insert, He|..].
      { rewrite Hid. intros e' [= <-]. rewrite He. done. }
      by eapply gone_ok_live.
    + eapply (outstanding_pop stamp); try done. fold id. rewrite Hid, He. intros e' [= <-]. done.
    + eapply (advances_touches id); try done. rewrite Hid, He. intros e' [= <-]. exists e.
      split; [done|]. by left.
    + intros s t _ _ Hc. rewrite <- Hc. apply is_cancelled_ext. by rewrite Htk.
    + apply (to_jobs _ _ _ Ht).
    + intros _. split; apply (to_global _ _ _ Ht).
  - fold id in He, He', Ht, Hok. pose proof (to_global _ _ _ Ht) as [_ _ _ G4 G5 G6 _].
    assert (ac_entries a' !! id = Some e') as Hid by (by rewrite He', lookup_insert_eq).
    split; try done.
    + eapply (actor_ok_touches id); try done; [by rewrite He', map_size_insert, He|..].
      { rewrite Hid. intros e1 [= <-]. rewrite He. split; [done|]. by apply Hok, Hans. }
      by eapply gone_ok_live.
    + eapply (outstanding_pop stamp); try done. fold id. rewrite Hid, He. intros e1 [= <-]. done.
    + eapply (advances_touches id); try done. rewrite Hid, He. intros e1 [= <-]. exists e.
      split; [done|]. by left.
    + intros s t _ _ Hcc. rewrite <- Hcc. apply is_cancelled_ext. by rewrite Htk.
    + apply (to_jobs _ _ _ Ht).
    + intros _. split; apply (to_global _ _ _ Ht).
Qed.

(** ** Cancellation from outside *)

(** The heap changed only in cancelled tokens of subscriptions, and the
    clean-up queue. *)
Record tokens_only a a' : Prop := {
  tk_shared : ∃ tokens cleanup, a' = on_shared (λ sh, set_cleanup cleanup (set_tokens tokens sh)) a;
  tk_heap t : is_Some (sh_tokens (ac_shared a) !! t) → is_Some (sh_tokens (ac_shared a') !! t);
  tk_keep t : is_cancelled (ac_shared a) t = true → is_cancelled (ac_shared a') t = true;
  tk_jobs id j : is_cancelled (ac_shared a') (JobToken id j) = is_cancelled (ac_shared a) (JobToken id j);
}.

Lemma shows_cancelled v e st : shows answers hears v false e st → shows answers hears v true e st.
Proof. destruct st; cbn; [|tauto..]. intros (? & ? & ?). auto. Qed.

Lemma tokens_only_entry a a' id e : tokens_only a a' → entry_good a id e → entry_good a' id e.
Proof.
  intros [(tokens & cleanup & ->) Hh Hk Hj] [[[B1 B2 B3] Hact (sn & W1 & W2 & W3 & W4 & W5)] Hq].
  split; [split|done].
  - split; [done|by apply Hh|]. intros act Ha. destruct (B3 act Ha). split; try done. by apply Hh.
  - intros act Ha. destruct (Hact act Ha) as [[] K2 K3 K4]. split; [split; try done; by apply Hh|done|done|].
    destruct act as [stamp t]. cbn in *. subst t. by rewrite Hj.
  - exists sn. split_and!; try done. cbn in W5.
    destruct (is_cancelled (ac_shared a) (SubscriptionToken id)) eqn:Hc.
    + by rewrite (Hk _ Hc).
    + set (c := is_cancelled _ _). destruct c; [by apply shows_cancelled|done].
Qed.

Lemma tokens_only_actor a a' : tokens_only a a' → actor_ok a → actor_ok a'.
Proof.
  intros Ht [H1 H2 H3 H4 H5 H6 H7 H8]. pose proof Ht as [(tokens & cleanup & ->) Hh Hk Hj].
  split; try done.
  - by apply (outputs_ok_ext a).
  - intros id e He. by apply (tokens_only_entry a), H3.
  - intros id Hid. destruct (H8 id Hid) as [Hw Hc]. split; [done|]. intros Hr. by apply Hk, Hc.
Qed.

(** ** Commits *)

Record invalidating (ids : list RouteSubscriptionId) a : Prop := {
  iv_queue : queue_ok a;
  iv_outputs : outputs_ok a;
  iv_done id e : ac_entries a !! id = Some e → id ∉ ids → entry_good a id e;
  iv_todo id e : ac_entries a !! id = Some e → id ∈ ids →
    entry_base (ac_shared a) id e ∧
    ∀ act, re_active e = Some act →
      (rp_state_version (stamp_source (active_stamp act)) < view_version (ac_view a))%Z;
  iv_gone id : gone_ok a id;
}.

Definition marked (ids : list RouteSubscriptionId) id e : RouteEntry :=
  if decide (id ∈ ids) then entry_marked_dirty TriggerAmmCommit e else e.

Record invalidated (ids : list RouteSubscriptionId) a a' : Prop := {
  in_inv : invalidating [] a';
  in_global : same_global a a';
  in_entries id : ac_entries a' !! id = marked ids id <$> ac_entries a !! id;
  in_jobs : sh_jobs (ac_shared a') = sh_jobs (ac_shared a);
  in_cancelled t : is_cancelled (ac_shared a) t = true → is_cancelled (ac_shared a') t = true;
}.

Lemma invalidate_all ids a :
  NoDup ids → (∀ id, id ∈ ids → is_Some (ac_entries a !! id)) → invalidating ids a →
  invalidated ids a (foldl (invalidate_entry (current a)) a ids).
Proof.
  revert a. induction ids as [|id ids IH]; intros a Hnd Hdom Hinv; cbn [foldl].
  { split; try done. intros i. unfold marked. by destruct (ac_entries a !! i). }
  apply NoDup_cons in Hnd as [Hnot Hnd].
  destruct (Hdom id) as [e He]; [set_solver|].
  destruct (iv_todo _ _ Hinv id e He) as [Hbase Hver]; [set_solver|].
  destruct (invalidate_entry_ok answers hears id e a He Hbase Hver) as (Ht & He' & Hok & Hc).
  set (a1 := invalidate_entry (current a) a id) in *.
  pose proof (to_global _ _ _ Ht) as HG.
  assert (current a = current a1) as -> by (unfold current; by rewrite (sg_view _ _ HG)).
  destruct (IH a1) as [I1 I2 I3 I4 I5].
  - done.
  - intros id' Hid'. rewrite He'. destruct (decide (id' = id)) as [->|Hne]; [by rewrite lookup_insert_eq|].
    rewrite lookup_insert_ne by done. apply Hdom. set_solver.
  - split.
    + apply (to_queue _ _ _ Ht), Hinv.
    + apply (to_outputs _ _ _ Ht), Hinv.
    + intros id' e' Hid' Hnin. destruct (decide (id' = id)) as [->|Hne].
      * rewrite He', lookup_insert_eq in Hid'. by injection Hid' as <-.
      * rewrite (touches_entries id a) in Hid' by done.
        eapply entry_ok_local; [by apply (to_local _ _ _ Ht)|by apply HG|].
        apply (iv_done _ _ Hinv); [done|set_solver].
    + intros id' e' Hid' Hin. assert (id' ≠ id) as Hne by (intros ->; done).
      rewrite (touches_entries id a) in Hid' by done.
      destruct (iv_todo _ _ Hinv id' e' Hid') as [[B1 B2 B3] Hv]; [set_solver|].
      pose proof (to_local _ _ _ Ht id' Hne) as [_ _ L3 _]. split.
      * split; [done|by rewrite L3|]. intros act Hact. pose proof (B3 act Hact) as Hb.
        pose proof (active_token_owned _ _ _ _ Hb) as Hown. destruct Hb. split; try done. by rewrite L3.
      * rewrite (sg_view _ _ HG). done.
    + intros i. destruct (decide (i = id)) as [->|Hne].
      * eapply gone_ok_live. by rewrite He', lookup_insert_eq.
      * eapply gone_ok_local; [by apply (to_local _ _ _ Ht)|apply HG|apply Hinv].
  - split; [done|by etrans| |by rewrite I4; apply (to_jobs _ _ _ Ht)|auto].
    intros i. rewrite I3, He'. unfold marked. destruct (decide (i = id)) as [->|Hne].
    + rewrite lookup_insert_eq, He. cbn. rewrite (decide_False (P := id ∈ ids)) by done.
      rewrite decide_True by set_solver. done.
    + rewrite lookup_insert_ne by done. destruct (ac_entries a !! i); [|done]. cbn. f_equal.
      destruct (decide (i ∈ ids)); [rewrite decide_True by set_solver|rewrite decide_False by set_solver]; done.
Qed.

Lemma elem_of_entry_ids id a : id ∈ entry_ids a ↔ is_Some (ac_entries a !! id).
Proof. unfold entry_ids. by rewrite elem_of_stable_sort, elem_of_elements, elem_of_dom. Qed.

Lemma NoDup_entry_ids a : NoDup (entry_ids a).
Proof. unfold entry_ids. rewrite stable_sort_perm. apply NoDup_elements. Qed.

(** A commit the live graph accepts is the next version. *)
Lemma apply_commit_version c l lin d l' lin' :
  apply_commit c l lin = Some (Ok (d, l'), lin') →
  version_next (live_state_version l) = Some (ss_version (commit_snapshot c)).
Proof.
  unfold apply_commit, mbind, LiveM_bind, question.
  destruct (validate_runtime l (commit_snapshot c)); [|done]. case_decide; [done|].
  destruct (version_next (live_state_version l)) as [v|]; cbn; [|done].
  case_decide as Hv; [done|]. by rewrite Hv.
Qed.

Lemma LiveSearchView_new_Ok s l v :
  LiveSearchView_new s l = Ok v ↔
  matches_snapshot l s = true ∧
  v = {| lv_snapshot := s; lv_graph := live_graph l; lv_liquidity := live_liquidity l;
         lv_quote_context := live_quote_context s |}.
Proof.
  unfold LiveSearchView_new. destruct (matches_snapshot l s); cbn.
  - split; [by intros [= <-]|by intros [_ ->]].
  - split; [done|by intros []].
Qed.

Lemma actor_apply_commit_handled out c a lin res a' lin' :
  versions_counted → actor_ok a → outstanding_ok a out →
  actor_apply_commit c a lin = Some (res, a', lin') →
  match res with
  | Ok _ =>
      handled false out a a' ∧
      ∃ d, apply_commit c (ac_live a) lin = Some (Ok (d, ac_live a'), lin') ∧
        LiveSearchView_new (commit_snapshot c) (ac_live a') = Ok (ac_view a') ∧
        ∀ id, ac_entries a' !! id = entry_marked_dirty TriggerAmmCommit <$> ac_entries a !! id
  | Err _ => ∃ l, a' = set_live l a
  end.
Proof.
  intros Hver Ha Ho. unfold actor_apply_commit.
  destruct (apply_commit c (ac_live a) lin) as [[[[d l]|e] lin1]|] eqn:Happ; cbn; [|intros [= <- <- <-]|done].
  2: { exists (ac_live a). by destruct a. }
  destruct (LiveSearchView_new (commit_snapshot c) l) as [v|e] eqn:Hv.
  2: { intros [= <- <- <-]. by exists l. }
  intros Heq.
  set (a0 := set_view v (set_live l a)).
  set (a1 := publish_event None None (AmmCommitApplied (commit_changes c) d) a0).
  assert (res = Ok () ∧ a' = foldl (invalidate_entry (current a1)) a1 (entry_ids a1) ∧
    lin' = lin1) as (-> & Ha' & ->).
  { injection Heq as <- <- <-. done. }
  pose proof (apply_commit_version _ _ _ _ _ _ Happ) as Hnext%Hver.
  pose proof Hv as [Hm%matches_snapshot_spec Hveq]%LiveSearchView_new_Ok.
  destruct Hm as (Hrt & Hsv & Hpt).
  assert (view_version (ac_view a) < view_version (ac_view a1))%Z as Hnewer.
  { rewrite (ao_version _ Ha). change (ac_view a1) with v. rewrite Hveq. unfold view_version. cbn. lia. }
  pose proof Ha as [H1 H2 H3 H4 H5 H6 H7 H8].
  destruct (invalidate_all (entry_ids a1) a1) as [I1 I2 I3 I4 I5].
  { apply NoDup_entry_ids. }
  { intros id. by rewrite elem_of_entry_ids. }
  { split.
    - done.
    - apply outputs_ok_event; [|done]. by apply (outputs_ok_ext a).
    - intros id e He Hnin. destruct Hnin. apply elem_of_entry_ids. by rewrite He.
    - intros id e He _. destruct (H3 id e He) as [[Hb Hact _] _].
      split; [by apply (entry_base_tokens (ac_shared a))|].
      intros act Hac. pose proof (ak_version _ _ _ _ _ (Hact act Hac)). lia.
    - intros i. apply H8. }
  rewrite <- Ha' in *.
  destruct I1 as [J1 J2 J3 _ J5]. destruct I2 as [G1 G2 G3 G4 G5 G6 G7].
  assert (∀ id e', ac_entries a' !! id = Some e' → ∃ e, ac_entries a !! id = Some e ∧
    e' = entry_marked_dirty TriggerAmmCommit e) as Hentries.
  { intros id e'. rewrite I3. intros (e & He & ->)%fmap_Some. exists e. split; [done|].
    unfold marked. rewrite decide_True; [done|]. apply elem_of_entry_ids. by rewrite He. }
  split.
  - split; try done.
    + split; try done.
      * intros id e He. apply J3; [done|set_solver].
      * intros id e' (e & He & ->)%Hentries. rewrite G3. by eapply H4.
      * rewrite G1, G2. change (ac_view a1) with v. change (ac_live a1) with l. by rewrite Hveq, Hsv.
      * rewrite G4. change (ac_max_subscriptions a1) with (ac_max_subscriptions a).
        rewrite <- H6. rewrite <- !size_dom. apply subseteq_size. intros id.
        rewrite !elem_of_dom. intros [e' (e & He & _)%Hentries]. by rewrite He.
      * by rewrite G3.
    + split; [apply Ho|..].
      * intros id e' act (e & He & ->)%Hentries Hac. by apply (ou_active _ _ Ho id e).
      * intros s e' Hs (e & He & ->)%Hentries. cbn. by apply (ou_owned _ _ Ho).
    + split; [rewrite G3; cbn; lia|right; by rewrite G2|].
      intros id e' (e & He & ->)%Hentries _. exists e. split; [done|]. by left.
    + intros s t _ _ Hc. by apply I5.
  - exists d. rewrite G1, G2. split_and!; [done|done|]. intros id. rewrite I3. unfold marked.
    change (ac_entries a1) with (ac_entries a). destruct (ac_entries a !! id) as [e|] eqn:He; [|done].
    cbn. rewrite decide_True; [done|]. apply elem_of_entry_ids. eexists. exact He.
Qed.

(** ** Scheduling *)

(** What the scheduler did: the jobs it submitted. *)
Record scheduled pool out (new : list RouteWorkerJob) a a' : Prop := {
  sd_jobs : sh_jobs (ac_shared a') = sh_jobs (ac_shared a) ++ (WorkerSearch <$> new);
  sd_bound : length (sh_jobs (ac_shared a')) <= wp_capacity pool;
  sd_actor : actor_ok a';
  sd_outstanding : outstanding_ok a' (out ++ (job_stamp <$> new));
  sd_advances : advances a a';
  sd_cancelled : keeps_cancelled out a a';
  sd_new job : job ∈ new → job_ok a' job;
  sd_global : same_global a a';
}.

Lemma scheduled_trans pool out new new' a a' a'' :
  scheduled pool out new a a' → scheduled pool (out ++ (job_stamp <$> new)) new' a' a'' →
  scheduled pool out (new ++ new') a a''.
Proof.
  intros [A1 A2 A3 A4 A5 A6 A7 A8] [B1 B2 B3 B4 B5 B6 B7 B8]. split; try done.
  - by rewrite B1, A1, fmap_app, app_assoc.
  - by rewrite fmap_app, app_assoc.
  - by etrans.
  - intros s t Hs Hown Hc. apply (B6 s); [set_solver|done|]. by apply (A6 s).
  - intros job [Hj|Hj]%elem_of_app; [by eapply job_ok_advances, A7|by apply B7].
  - by etrans.
Qed.

Definition popped id rest a : LiveRouteActor := set_pending rest (ac_pending_set a ∖ {[id]}) a.

Lemma popped_local id rest a id' : id' ≠ id → same_local id' a (popped id rest a).
Proof. intros Hne. split; try done. cbn. set_solver. Qed.

(** After popping, the entry of [id] may owe a place in the queue. *)
Lemma popped_touches_ok id rest a a' :
  ac_pending a = id :: rest → actor_ok a → touches id (popped id rest a) a' →
  size (ac_entries a') <= size (ac_entries a) →
  (∀ e, ac_entries a' !! id = Some e → is_Some (ac_entries a !! id) ∧ entry_good a' id e) →
  gone_ok a' id → actor_ok a'.
Proof.
  intros Hp [[Hnd Hset] H2 H3 H4 H5 H6 H7 H8] Ht Hsize Hid Hgone. rewrite Hp in Hnd, Hset.
  apply NoDup_cons in Hnd as [Hnot Hnd]. pose proof (to_global _ _ _ Ht) as [G1 G2 G3 G4 _ _ _]. split.
  - apply (to_queue _ _ _ Ht). split; [done|]. intros i. cbn.
    rewrite elem_of_difference, Hset, elem_of_cons, elem_of_singleton.
    split; [tauto|]. intros Hi. split; [by right|]. by intros ->.
  - apply (to_outputs _ _ _ Ht). by apply (outputs_ok_ext a).
  - intros i e He. destruct (decide (i = id)) as [->|Hne]; [by apply Hid|].
    rewrite (touches_entries id (popped id rest a)) in He by done.
    apply (entry_ok_local _ _ a); [|by apply G2|by apply H3].
    etrans; [by apply (popped_local id rest)|by apply (to_local _ _ _ Ht)].
  - intros i e He. rewrite G3. destruct (decide (i = id)) as [->|Hne].
    + destruct (Hid e He) as [[e0 He0] _]. by eapply H4.
    + rewrite (touches_entries id (popped id rest a)) in He by done. by eapply H4.
  - by rewrite G1, G2.
  - rewrite G4. cbn. lia.
  - by rewrite G3.
  - intros i. destruct (decide (i = id)) as [->|Hne]; [done|].
    apply (gone_ok_local _ (popped id rest a)); [by apply (to_local _ _ _ Ht)|done|apply H8].
Qed.

(** The job of an entry is made for the current view and request. *)
Lemma job_of_ok id e a :
  actor_ok a → ac_entries a !! id = Some (started id (ac_view a) e) →
  re_cancellation e = SubscriptionToken id →
  job_ok a (job_of id e (ac_view a)).
Proof.
  intros Ha He Htok. split; try done.
  - cbn. by eapply ao_ids.
  - intros e'. cbn. rewrite He. intros [= <-]. cbn. split; [lia|done].
Qed.

Lemma outputs_ok_jobs jobs a : outputs_ok (on_shared (set_jobs jobs) a) → outputs_ok a.
Proof. by apply outputs_ok_ext. Qed.

Lemma actor_ok_jobs jobs a : actor_ok (on_shared (set_jobs jobs) a) → actor_ok a.
Proof.
  intros [H1 H2 H3 H4 H5 H6 H7 H8]. split; try done; [by eapply outputs_ok_jobs|].
  intros id e He. by eapply entry_ok_local, H3.
Qed.

Lemma idle_not_outstanding out a e stamp :
  outstanding_ok a out → stamp ∈ out → ac_entries a !! stamp_subscription stamp = Some e →
  ¬ idle_dirty e.
Proof. intros Ho Hs He [_ Hact]. pose proof (ou_owned _ _ Ho stamp e Hs He). by rewrite Hact in *. Qed.

Lemma schedule_step pool out id rest a :
  ac_workers a = Some pool → length (sh_jobs (ac_shared a)) <= wp_capacity pool →
  actor_ok a → outstanding_ok a out → ac_pending a = id :: rest →
  ∃ new, scheduled pool out new a (schedule_one id (popped id rest a)).2 ∧
    if (schedule_one id (popped id rest a)).1
    then ac_pending (schedule_one id (popped id rest a)).2 = rest
    else wp_capacity pool <= length (sh_jobs (ac_shared a)) ∧ new = [].
Proof.
  intros Hpool Hbound Ha Ho Hp. set (b := popped id rest a).
  assert (∀ e, ac_entries a !! id = Some e → entry_fit answers hears b id e) as Hfit.
  { intros e He. destruct (ao_entries _ Ha id e He) as [Hf _]. by apply (entry_fit_local _ _ a). }
  assert (keeps_cancelled out a b) as Hkb by (by intros ?).
  assert (outstanding_ok b out) as Hob by (destruct Ho; by split).
  assert (advances a b) as Hadv by (split; [cbn; lia|by left|eauto]).
  destruct (schedule_one_cases answers hears id b) as
    [Hex|e a' He Hid Ht He' Hok Hfull|e pool' a' He Hid Hp' Hroom Hjobs Ht He' Hok Hc Hpend];
    [by exists pool|done| | |]; cbn [fst snd].
  - exists []. split; [|done]. split; rewrite ?app_nil_r; try done.
    + eapply (popped_touches_ok id rest a b); try done; [|apply Ha]. intros e He.
      split; [by exists e|]. split; [by apply Hfit|]. intros Hd Hact. right. by apply (Hex e).
    + intros job. by intros ?%not_elem_of_nil.
  - exists []. pose proof (to_global _ _ _ Ht) as HG. split; [|split; [by apply (Hfull pool)|done]].
    split; rewrite ?app_nil_r; try done.
    + apply (to_jobs _ _ _ Ht).
    + rewrite (to_jobs _ _ _ Ht). done.
    + eapply (popped_touches_ok id rest a a'); try done; [by rewrite He'|..].
      { intros e0. rewrite He'. intros He0. assert (e0 = e) as -> by (cbn in *; congruence).
        split; [by exists e|done]. }
      apply (gone_ok_live _ e). by rewrite He'.
    + eapply (outstanding_touches id b); try done. intros e'. rewrite He'. eauto.
    + etrans; [exact Hadv|]. eapply (advances_touches id); try done. intros e'. rewrite He'. eauto.
    + change (keeps_cancelled out b a'). eapply (keeps_cancelled_touches id); [exact Ht|]. intros s t Hs Hsub _.
      exfalso. eapply (idle_not_outstanding out b); try done. by rewrite Hsub.
    + intros job. by intros ?%not_elem_of_nil.
    + by destruct HG.
  - assert (pool' = pool) as -> by (cbn in *; congruence).
    set (a0 := on_shared (set_jobs (sh_jobs (ac_shared b))) a') in *.
    pose proof (to_global _ _ _ Ht) as HG.
    assert (ac_entries a' !! id = Some (started id (ac_view b) e)) as Hid0 by (by rewrite He', lookup_insert_eq).
    assert (entry_good a0 id (started id (ac_view b) e)) as Hok0 by by apply (entry_ok_local _ _ a').
    assert (actor_ok a') as Ha'.
    { apply (actor_ok_jobs (sh_jobs (ac_shared b))). fold a0.
      apply (popped_touches_ok id rest a a0); try done.
      - change (ac_entries a0) with (ac_entries a'). rewrite He', map_size_insert.
        change (ac_entries b) with (ac_entries a) in *. by rewrite He.
      - intros e0. change (ac_entries a0) with (ac_entries a'). rewrite Hid0. intros [= <-].
        split; [by exists e|done].
      - by apply (gone_ok_live _ (started id (ac_view b) e)). }
    assert (∀ s, s ∈ out → stamp_subscription s ≠ id) as Hother.
    { intros s Hs Hsub. eapply (idle_not_outstanding out b); try done. by rewrite Hsub. }
    assert (∀ i, i ≠ id → ac_entries a' !! i = ac_entries b !! i) as Hsame.
    { intros i Hne. by rewrite He', lookup_insert_ne. }
    exists [job_of id e (ac_view b)]. split; [|done]. split.
    + done.
    + rewrite Hjobs, length_app. cbn in *. lia.
    + done.
    + cbn. rewrite Permutation_app_comm. cbn. split.
      * constructor; [|apply Ho]. intros Hin. by apply Hother in Hin.
      * intros i e0 act. destruct (decide (i = id)) as [->|Hne].
        -- rewrite Hid0. intros [= <-] [= <-]. by left.
        -- rewrite Hsame by done. intros He0 Hact. right. by eapply (ou_active b).
      * intros s e0 [->|Hs]%elem_of_cons.
        -- cbn. rewrite Hid0. by intros [= <-].
        -- rewrite Hsame by auto. by apply (ou_owned b out).
    + etrans; [exact Hadv|]. assert (advances b a0) as [A1 A2 A3]; [|by split].
      eapply (advances_touches id b a0); [done|].
      change (ac_entries a0) with (ac_entries a'). rewrite Hid0. intros e0 [= <-]. exists e.
      split; [done|]. by left.
    + change (keeps_cancelled out b a0). eapply (keeps_cancelled_touches id); [exact Ht|].
      intros s t Hs Hsub. by destruct (Hother s Hs).
    + intros job ->%list_elem_of_singleton.
      assert (ac_view b = ac_view a') as Hview by (symmetry; apply HG).
      rewrite Hview in *. by apply job_of_ok; [..|apply (eb_token _ _ _ (ef_base _ _ _ _ _ (Hfit e He)))].
    + by destruct HG.
Qed.

Lemma scheduled_nil pool out a :
  length (sh_jobs (ac_shared a)) <= wp_capacity pool → actor_ok a → outstanding_ok a out →
  scheduled pool out [] a a.
Proof.
  intros Hb Ha Ho. split; rewrite ?app_nil_r; try done; [by intros ?|].
  intros job. by intros ?%not_elem_of_nil.
Qed.

Lemma schedule_loop_ok pool fuel out a :
  length (ac_pending a) <= fuel → ac_workers a = Some pool →
  length (sh_jobs (ac_shared a)) <= wp_capacity pool → actor_ok a → outstanding_ok a out →
  ∃ new, scheduled pool out new a (schedule_loop fuel a) ∧
    (ac_pending (schedule_loop fuel a) = [] ∨
     wp_capacity pool <= length (sh_jobs (ac_shared (schedule_loop fuel a)))).
Proof.
  revert out a. induction fuel as [|fuel IH]; intros out a Hfuel Hpool Hb Ha Ho; cbn [schedule_loop].
  - destruct (ac_pending a) eqn:Hp; [|cbn in Hfuel; lia]. exists [].
    split; [by apply scheduled_nil|by left].
  - destruct (ac_pending a) as [|id rest] eqn:Hp.
    { exists []. split; [by apply scheduled_nil|by left]. }
    destruct (schedule_step pool out id rest a) as (new & Hs & Hgo); try done.
    fold (popped id rest a). destruct (schedule_one id (popped id rest a)) as [go a1]. cbn [fst snd] in *.
    destruct go.
    + destruct (IH (out ++ (job_stamp <$> new)) a1) as (new' & Hs' & Hend).
      * rewrite Hgo. cbn in Hfuel. lia.
      * by rewrite (sg_workers _ _ (sd_global _ _ _ _ _ Hs)).
      * apply Hs.
      * apply Hs.
      * apply Hs.
      * exists (new ++ new'). split; [by eapply scheduled_trans|done].
    + destruct Hgo as [Hfull ->]. exists []. split; [done|]. right.
      rewrite (sd_jobs _ _ _ _ _ Hs). cbn. by rewrite app_nil_r.
Qed.

Lemma schedule_pending_ok pool out a :
  ac_workers a = Some pool → length (sh_jobs (ac_shared a)) <= wp_capacity pool →
  actor_ok a → outstanding_ok a out →
  ∃ new, scheduled pool out new a (schedule_pending a) ∧
    (ac_pending (schedule_pending a) = [] ∨
     wp_capacity pool <= length (sh_jobs (ac_shared (schedule_pending a)))).
Proof. by apply schedule_loop_ok. Qed.
End invariant.
