(* ===== verification/LiveRuntime.v ===== *)
(** * Live routes ([src/live_routes.rs]): the workers and the runtime

    The runtime puts the coordinator of [LiveRoutes] together with its inputs
    (the commits, the commands, the clean-up queue, the workers' results) and its
    worker threads.  [actor_turn] is one round of the coordinator's loop;
    [runtime_step] interleaves it with the workers, [environment_step] is what
    the outside does.

    A worker runs its search in steps: it takes a job, sends the events of the
    search one by one and then the result.  The search is a run of the streaming
    driver.  As long as the worker has read no cancellation the run is one whose
    every read is quiet; once a token of the job is cancelled the worker may
    notice it, and goes on with a run that has already sent the same events. *)

From stdpp Require Import pretty.
From S2P Require Import Prelude AmmState Petgraph Graph Config SearchTypes Liquidity QuoteCache Quote.
From S2P Require Import Workers Searcher Streaming StreamDriver LiveState LiveGraph LiveView LiveRoutes.

Definition MAX_COMMIT_BURST : Z := 16.

Section runtime.
Context `{!AmmTypes} `{!AmmLive} `{!Petgraph Address EdgeData}.
(** The [Display] of the runtime's errors, and whether a worker may panic (in
    the code of an adapter). *)
Context (runtime_error_display : LiveRouteRuntimeError → string) (worker_may_panic : Prop).

(** ** The search of a worker *)

(** What the worker reads while it searches: the tokens at each poll of the
    enumeration and at each event, and whether each event could be sent. *)
Record JobReads := {
  jr_polls : nat → bool;
  jr_cancelled : nat → bool;
  jr_send_ok : nat → bool;
}.

Definition quiet_job_reads : JobReads :=
  {| jr_polls := λ _, false; jr_cancelled := λ _, false; jr_send_ok := λ _, true |}.

Definition on_route_event (reads : JobReads) : Callback := λ trace _,
  if jr_cancelled reads (length trace) then Stop
  else if negb (jr_send_ok reads (length trace)) then Stop
  else Continue.

(** The events the callback sends. *)
Definition sent_events (reads : JobReads) (trace : list RouteSearchEvent) :
    list RouteSearchEvent :=
  omap (λ '(n, event),
    if negb (jr_cancelled reads n) && jr_send_ok reads n then Some event else None)
    (enumerate trace).

(** [stream_routes_snapshot_cancellable] on the job's view, with the events its
    callback sends. *)
Definition run_route_search (job : RouteWorkerJob) (schedule : list Move) (reads : JobReads) :
    option (result SearchError StreamingSearchReport * list RouteSearchEvent) :=
  let s := view_searcher (job_view job) in
  match as_snapshot_cache s with
  | None => Some (Err ErrSnapshotRequired, [])
  | Some overlay =>
      run ← stream_routes_parallel_with_cache s (job_request job) (SourceSnapshot overlay)
              (job_streaming job) schedule (on_route_event reads)
              (Some (λ n, negb (jr_polls reads n))) (new_quote_cache s);
      Some (run_report run, sent_events reads run.1.2)
  end.

Definition route_search_failure_message (e : SearchError) : string :=
  match e with
  | ErrNoViableRoute candidates failures =>
      let first :=
        match failures with f :: _ => pf_reason f | [] => "all candidates failed"%string end in
      "no viable route among " +:+ pretty (N.of_nat candidates) +:+ " candidates: " +:+ first
  | _ => search_error_display e
  end.

Definition search_result (r : result SearchError StreamingSearchReport) :
    result RouteSearchFailure StreamingSearchReport :=
  match r with
  | Ok report => Ok report
  | Err e => Err {| failure_message := route_search_failure_message e;
                    failure_worker_panicked := false |}
  end.

Definition cancelled_before_execution : RouteSearchFailure :=
  {| failure_message := "route search cancelled before worker execution";
     failure_worker_panicked := false |}.
Definition worker_panicked : RouteSearchFailure :=
  {| failure_message := "route worker panicked"; failure_worker_panicked := true |}.

(** The worker's check of its two tokens. *)
Definition job_cancelled (sh : RouteShared) (job : RouteWorkerJob) : bool :=
  is_cancelled sh (job_subscription_cancel job) || is_cancelled sh (job_cancellation job).

(** ** The runtime *)

(** A worker waits for a command, is about to report a job it did not run, runs
    a search (with the events sent, the events to come and the result), or has
    ended. *)
Inductive RouteWorkerThread : Type :=
  | ThreadIdle
  | ThreadRefusing (job : RouteWorkerJob)
  | ThreadSearching (job : RouteWorkerJob) (noticed : bool) (sent rest : list RouteSearchEvent)
      (r : result SearchError StreamingSearchReport)
  | ThreadExited.

(** [close] has sent its workers all but so many shutdowns. *)
Inductive RuntimePhase : Type :=
  | PhaseRunning
  | PhaseStopping (pool : RouteWorkerPool) (shutdowns : nat)
  | PhaseExited.

Record RouteRuntime := {
  rt_actor : LiveRouteActor;
  rt_commits : list AmmStateCommit;
  rt_commits_closed : bool;
  rt_commands : list RouteCommand;
  rt_commands_closed : bool;
  rt_results : list RouteWorkerMessage;
  rt_results_closed : bool;
  rt_config : LiveRouteRuntimeConfig;
  rt_threads : list RouteWorkerThread;
  rt_commit_streak : Z;
  rt_phase : RuntimePhase;
  rt_lineages : Z;
}.

Definition rt_set_actor (a : LiveRouteActor) (r : RouteRuntime) : RouteRuntime :=
  {| rt_actor := a; rt_commits := rt_commits r; rt_commits_closed := rt_commits_closed r;
     rt_commands := rt_commands r; rt_commands_closed := rt_commands_closed r;
     rt_results := rt_results r; rt_results_closed := rt_results_closed r;
     rt_config := rt_config r; rt_threads := rt_threads r;
     rt_commit_streak := rt_commit_streak r; rt_phase := rt_phase r;
     rt_lineages := rt_lineages r |}.
Definition rt_set_commits (commits : list AmmStateCommit) (closed : bool) (r : RouteRuntime) :
    RouteRuntime :=
  {| rt_actor := rt_actor r; rt_commits := commits; rt_commits_closed := closed;
     rt_commands := rt_commands r; rt_commands_closed := rt_commands_closed r;
     rt_results := rt_results r; rt_results_closed := rt_results_closed r;
     rt_config := rt_config r; rt_threads := rt_threads r;
     rt_commit_streak := rt_commit_streak r; rt_phase := rt_phase r;
     rt_lineages := rt_lineages r |}.
Definition rt_set_commands (commands : list RouteCommand) (closed : bool) (r : RouteRuntime) :
    RouteRuntime :=
  {| rt_actor := rt_actor r; rt_commits := rt_commits r;
     rt_commits_closed := rt_commits_closed r; rt_commands := commands;
     rt_commands_closed := closed; rt_results := rt_results r;
     rt_results_closed := rt_results_closed r; rt_config := rt_config r;
     rt_threads := rt_threads r; rt_commit_streak := rt_commit_streak r;
     rt_phase := rt_phase r; rt_lineages := rt_lineages r |}.
Definition rt_set_results (results : list RouteWorkerMessage) (closed : bool) (r : RouteRuntime) :
    RouteRuntime :=
  {| rt_actor := rt_actor r; rt_commits := rt_commits r;
     rt_commits_closed := rt_commits_closed r; rt_commands := rt_commands r;
     rt_commands_closed := rt_commands_closed r; rt_results := results;
     rt_results_closed := closed; rt_config := rt_config r; rt_threads := rt_threads r;
     rt_commit_streak := rt_commit_streak r; rt_phase := rt_phase r;
     rt_lineages := rt_lineages r |}.
Definition rt_set_thread (i : nat) (th : RouteWorkerThread) (r : RouteRuntime) : RouteRuntime :=
  {| rt_actor := rt_actor r; rt_commits := rt_commits r;
     rt_commits_closed := rt_commits_closed r; rt_commands := rt_commands r;
     rt_commands_closed := rt_commands_closed r; rt_results := rt_results r;
     rt_results_closed := rt_results_closed r; rt_config := rt_config r;
     rt_threads := <[i := th]> (rt_threads r); rt_commit_streak := rt_commit_streak r;
     rt_phase := rt_phase r; rt_lineages := rt_lineages r |}.
Definition rt_set_streak (streak : Z) (r : RouteRuntime) : RouteRuntime :=
  {| rt_actor := rt_actor r; rt_commits := rt_commits r;
     rt_commits_closed := rt_commits_closed r; rt_commands := rt_commands r;
     rt_commands_closed := rt_commands_closed r; rt_results := rt_results r;
     rt_results_closed := rt_results_closed r; rt_config := rt_config r;
     rt_threads := rt_threads r; rt_commit_streak := streak; rt_phase := rt_phase r;
     rt_lineages := rt_lineages r |}.
Definition rt_set_phase (phase : RuntimePhase) (r : RouteRuntime) : RouteRuntime :=
  {| rt_actor := rt_actor r; rt_commits := rt_commits r;
     rt_commits_closed := rt_commits_closed r; rt_commands := rt_commands r;
     rt_commands_closed := rt_commands_closed r; rt_results := rt_results r;
     rt_results_closed := rt_results_closed r; rt_config := rt_config r;
     rt_threads := rt_threads r; rt_commit_streak := rt_commit_streak r; rt_phase := phase;
     rt_lineages := rt_lineages r |}.
Definition rt_set_lineages (lineages : Z) (r : RouteRuntime) : RouteRuntime :=
  {| rt_actor := rt_actor r; rt_commits := rt_commits r;
     rt_commits_closed := rt_commits_closed r; rt_commands := rt_commands r;
     rt_commands_closed := rt_commands_closed r; rt_results := rt_results r;
     rt_results_closed := rt_results_closed r; rt_config := rt_config r;
     rt_threads := rt_threads r; rt_commit_streak := rt_commit_streak r;
     rt_phase := rt_phase r; rt_lineages := lineages |}.

Definition on_actor (f : LiveRouteActor → LiveRouteActor) (r : RouteRuntime) : RouteRuntime :=
  rt_set_actor (f (rt_actor r)) r.
Definition rt_shared (r : RouteRuntime) : RouteShared := ac_shared (rt_actor r).
Definition on_rt_shared (f : RouteShared → RouteShared) (r : RouteRuntime) : RouteRuntime :=
  on_actor (on_shared f) r.
Definition push_result (m : RouteWorkerMessage) (r : RouteRuntime) : RouteRuntime :=
  rt_set_results (rt_results r ++ [m]) (rt_results_closed r) r.

(** ** The coordinator's loop *)

Inductive LiveRouteActorInput : Type :=
  | InputCommit (commit : option AmmStateCommit)
  | InputCommand (command : option RouteCommand)
  | InputCleanup (id : RouteSubscriptionId)
  | InputWorker (message : option RouteWorkerMessage).

(** A branch of [select!]: ready with a value, or with the end of its channel.
    The senders of the clean-up queue outlive those of the commands. *)
Definition next_commit (r : RouteRuntime) : option (LiveRouteActorInput * RouteRuntime) :=
  match rt_commits r with
  | c :: cs => Some (InputCommit (Some c), rt_set_commits cs (rt_commits_closed r) r)
  | [] => if rt_commits_closed r then Some (InputCommit None, r) else None
  end.
Definition next_command (r : RouteRuntime) : option (LiveRouteActorInput * RouteRuntime) :=
  match rt_commands r with
  | c :: cs => Some (InputCommand (Some c), rt_set_commands cs (rt_commands_closed r) r)
  | [] => if rt_commands_closed r then Some (InputCommand None, r) else None
  end.
Definition next_cleanup (r : RouteRuntime) : option (LiveRouteActorInput * RouteRuntime) :=
  match sh_cleanup (rt_shared r) with
  | id :: ids => Some (InputCleanup id, on_rt_shared (set_cleanup ids) r)
  | [] => None
  end.
Definition thread_exited (th : RouteWorkerThread) : bool :=
  match th with ThreadExited => true | _ => false end.
Definition next_result (r : RouteRuntime) : option (LiveRouteActorInput * RouteRuntime) :=
  match rt_results r with
  | m :: ms => Some (InputWorker (Some m), rt_set_results ms (rt_results_closed r) r)
  | [] => if forallb thread_exited (rt_threads r) then Some (InputWorker None, r) else None
  end.

Fixpoint first_ready (branches : list (RouteRuntime → option (LiveRouteActorInput * RouteRuntime)))
    (r : RouteRuntime) : option (LiveRouteActorInput * RouteRuntime) :=
  match branches with
  | [] => None
  | branch :: branches =>
      match branch r with Some x => Some x | None => first_ready branches r end
  end.

(** [next_input]: [None] waits. *)
Definition next_input (prefer_fairness : bool) : RouteRuntime →
    option (LiveRouteActorInput * RouteRuntime) :=
  first_ready (if prefer_fairness
               then [next_command; next_cleanup; next_result; next_commit]
               else [next_commit; next_command; next_cleanup; next_result]).

Definition fail (e : LiveRouteRuntimeError) (a : LiveRouteActor) : LiveRouteActor :=
  set_ending (ac_shutdown_response a) (Some (runtime_error_display e)) (ac_workers a) a.

(** [apply_commit] as the loop calls it; [true] ends the loop. *)
Definition turn_commit (commit : AmmStateCommit) (r : RouteRuntime) : option (bool * RouteRuntime) :=
  '(res, a, lineages) ← actor_apply_commit commit (rt_actor r) (rt_lineages r);
  let r := rt_set_lineages lineages (rt_set_actor a r) in
  match res with
  | Err e => Some (true, on_actor (fail e) r)
  | Ok _ => Some (false, r)
  end.

(** The [match] of the loop; [None] is a panic inside the graph. *)
Definition handle_input (input : LiveRouteActorInput) (r : RouteRuntime) :
    option (bool * RouteRuntime) :=
  match input with
  | InputCommit None | InputCommand None | InputWorker None => Some (true, r)
  | InputCommit (Some commit) =>
      '(ends, r) ← turn_commit commit r;
      Some (ends, if ends : bool then r
                  else rt_set_streak (usize_saturating_add (rt_commit_streak r) 1) r)
  | InputCommand (Some command) =>
      let '(ends, a) := handle_command command (rt_actor r) in
      let r := rt_set_actor a r in
      Some (ends, if ends : bool then r else rt_set_streak 0 r)
  | InputCleanup id =>
      Some (false, rt_set_streak 0 (on_actor (λ a, (cancel_subscription id a).2) r))
  | InputWorker (Some message) =>
      '(ends, r) ←
        match rt_commits r with
        | commit :: commits =>
            turn_commit commit (rt_set_commits commits (rt_commits_closed r) r)
        | [] => Some (false, r)
        end;
      Some (if ends : bool then (true, r)
            else (false, rt_set_streak 0 (on_actor (handle_worker_message message) r)))
  end.

(** [close]: the results channel closes and the pool begins to shut down. *)
Definition begin_close (r : RouteRuntime) : RouteRuntime :=
  let pool := ac_workers (rt_actor r) in
  let r := on_actor actor_close r in
  let r := rt_set_results (rt_results r) true r in
  let r := on_actor (λ a, set_ending (ac_shutdown_response a) (ac_terminal_failure a) None a) r in
  match pool with
  | Some pool => rt_set_phase (PhaseStopping pool (wp_threads pool)) r
  | None => rt_set_phase PhaseExited r
  end.

(** One round of the loop; [None] waits or panics. *)
Definition actor_turn (r : RouteRuntime) : option RouteRuntime :=
  '(input, r) ← next_input (MAX_COMMIT_BURST <=? rt_commit_streak r)%Z r;
  '(ends, r) ← handle_input input r;
  Some (if ends : bool then begin_close r else on_actor schedule_pending r).

(** ** Steps *)

Definition results_room (r : RouteRuntime) : Prop :=
  rt_results_closed r = false ∧ length (rt_results r) < result_capacity (rt_config r).

Inductive runtime_step (r : RouteRuntime) : RouteRuntime → Prop :=
  | step_actor r' :
      rt_phase r = PhaseRunning → actor_turn r = Some r' → runtime_step r r'
  | step_take i job jobs schedule events res :
      rt_threads r !! i = Some ThreadIdle →
      sh_jobs (rt_shared r) = WorkerSearch job :: jobs →
      job_cancelled (rt_shared r) job = false →
      run_route_search job schedule quiet_job_reads = Some (res, events) →
      runtime_step r (rt_set_thread i (ThreadSearching job false [] events res)
                        (on_rt_shared (set_jobs jobs) r))
  | step_refuse i job jobs :
      rt_threads r !! i = Some ThreadIdle →
      sh_jobs (rt_shared r) = WorkerSearch job :: jobs →
      job_cancelled (rt_shared r) job = true →
      runtime_step r (rt_set_thread i (ThreadRefusing job) (on_rt_shared (set_jobs jobs) r))
  | step_notice i job sent rest res schedule reads rest' res' :
      rt_threads r !! i = Some (ThreadSearching job false sent rest res) →
      job_cancelled (rt_shared r) job = true →
      (∀ n, jr_send_ok reads n = true) →
      run_route_search job schedule reads = Some (res', sent ++ rest') →
      runtime_step r (rt_set_thread i (ThreadSearching job true sent rest' res') r)
  | step_event i job noticed sent event rest res :
      rt_threads r !! i = Some (ThreadSearching job noticed sent (event :: rest) res) →
      results_room r →
      runtime_step r (rt_set_thread i (ThreadSearching job noticed (sent ++ [event]) rest res)
                        (push_result (MessageEvent (job_stamp job) event) r))
  | step_complete i job noticed sent res :
      rt_threads r !! i = Some (ThreadSearching job noticed sent [] res) →
      results_room r →
      runtime_step r (rt_set_thread i ThreadIdle
                        (push_result (MessageCompleted (job_stamp job) (search_result res)) r))
  | step_panic i job noticed sent rest res :
      worker_may_panic →
      rt_threads r !! i = Some (ThreadSearching job noticed sent rest res) →
      results_room r →
      runtime_step r (rt_set_thread i ThreadIdle
                        (push_result (MessageCompleted (job_stamp job) (Err worker_panicked)) r))
  | step_refused i job :
      rt_threads r !! i = Some (ThreadRefusing job) →
      results_room r →
      runtime_step r (rt_set_thread i ThreadIdle
        (push_result (MessageCompleted (job_stamp job) (Err cancelled_before_execution)) r))
  | step_unheard i th :
      rt_threads r !! i = Some th →
      match th with ThreadRefusing _ | ThreadSearching _ _ _ _ _ => True | _ => False end →
      rt_results_closed r = true →
      runtime_step r (rt_set_thread i ThreadIdle r)
  | step_stop i jobs :
      rt_threads r !! i = Some ThreadIdle →
      sh_jobs (rt_shared r) = WorkerShutdown :: jobs →
      runtime_step r (rt_set_thread i ThreadExited (on_rt_shared (set_jobs jobs) r))
  | step_send_shutdown pool n :
      rt_phase r = PhaseStopping pool (S n) →
      length (sh_jobs (rt_shared r)) < wp_capacity pool →
      runtime_step r
        (rt_set_phase (PhaseStopping pool n)
           (on_rt_shared (λ sh, set_jobs (sh_jobs sh ++ [WorkerShutdown]) sh) r))
  | step_exit pool :
      rt_phase r = PhaseStopping pool 0 →
      forallb thread_exited (rt_threads r) = true →
      runtime_step r
        (rt_set_phase PhaseExited
           (if ac_shutdown_response (rt_actor r)
            then on_rt_shared (output (OutReply ReplyShutdown)) r else r)).

(** ** The outside

    Callers send commands while a handle is left and the queue has room; they
    cancel a subscription's token, begin [LiveRouteSubscription::cancel] (whose
    command is a step of its own) or drop the subscription. *)

(** [subscribe], [unsubscribe], [replace] and [shutdown] send their command. *)
Definition send_command (c : RouteCommand) (r : RouteRuntime) : RouteRuntime :=
  rt_set_commands (rt_commands r ++ [c]) false r.

(** [LiveRouteSubscription::cancel], before its command is sent. *)
Definition subscription_cancel (id : RouteSubscriptionId) (sh : RouteShared) : RouteShared :=
  (token_request (SubscriptionToken id) sh).2.

(** [LiveRouteSubscription::drop]. *)
Definition subscription_drop (id : RouteSubscriptionId) (sh : RouteShared) : RouteShared :=
  let sh := token_cancel (SubscriptionToken id) sh in
  set_cleanup (sh_cleanup sh ++ [id]) sh.

Inductive environment_step (r : RouteRuntime) : RouteRuntime → Prop :=
  | env_commit c :
      rt_commits_closed r = false →
      environment_step r (rt_set_commits (rt_commits r ++ [c]) false r)
  | env_commits_end :
      environment_step r (rt_set_commits (rt_commits r) true r)
  | env_command c :
      rt_commands_closed r = false →
      length (rt_commands r) < command_capacity (rt_config r) →
      environment_step r (send_command c r)
  | env_handles_dropped :
      environment_step r (rt_set_commands (rt_commands r) true r)
  | env_token_cancel id :
      environment_step r (on_rt_shared (token_cancel (SubscriptionToken id)) r)
  | env_cancel_begins id :
      environment_step r (on_rt_shared (subscription_cancel id) r)
  | env_drop id :
      is_Some (sh_tokens (rt_shared r) !! SubscriptionToken id) →
      environment_step r (on_rt_shared (subscription_drop id) r).

(** ** Starting *)

Definition RouteWorkerPool_new (config : LiveRouteRuntimeConfig) (spawned : nat → bool) :
    result LiveRouteRuntimeError RouteWorkerPool :=
  if forallb spawned (seq 0 (worker_threads config))
  then Ok {| wp_capacity := job_queue_capacity config; wp_threads := worker_threads config |}
  else Err RouteWorkerSpawn.

(** [LiveRouteRuntime::spawn]; [subscription] is what the AMM runtime answers,
    [in_runtime] whether an asynchronous runtime is there, [spawned] which
    threads the operating system grants. *)
Definition LiveRouteRuntime_spawn (subscription : result LiveRouteRuntimeError AmmStateSnapshot)
    (in_runtime : bool) (spawned : nat → bool) (graph_options : GraphBuildOptions)
    (config : LiveRouteRuntimeConfig) (lineages : Z) :
    option (result LiveRouteRuntimeError RouteRuntime * Z) :=
  match (config ← LiveRouteRuntimeConfig_validate config;
         _ ← (if in_runtime then Ok () else Err RouteClosed);
         snapshot ← subscription; Ok (config, snapshot)) with
  | Err e => Some (Err e, lineages)
  | Ok (config, snapshot) =>
      '(live, lineages) ← from_snapshot snapshot graph_options lineages;
      Some
        (match live with
         | Err e => Err (RouteLiveGraph e)
         | Ok live =>
             match LiveSearchView_new snapshot live with
             | Err e => Err (RouteSearchView (search_error_display e))
             | Ok view =>
                 pool ← RouteWorkerPool_new config spawned;
                 Ok {| rt_actor :=
                         {| ac_live := live; ac_view := view; ac_entries := ∅; ac_pending := [];
                            ac_pending_set := ∅; ac_next_subscription := 0; ac_sequence := 0;
                            ac_max_subscriptions := max_subscriptions config;
                            ac_workers := Some pool; ac_shutdown_response := false;
                            ac_terminal_failure := None;
                            ac_shared := {| sh_tokens := ∅; sh_watches := ∅; sh_cleanup := [];
                                            sh_jobs := []; sh_outputs := [] |} |};
                       rt_commits := []; rt_commits_closed := false; rt_commands := [];
                       rt_commands_closed := false; rt_results := []; rt_results_closed := false;
                       rt_config := config;
                       rt_threads := replicate (worker_threads config) ThreadIdle;
                       rt_commit_streak := 0; rt_phase := PhaseRunning;
                       rt_lineages := lineages |}
             end
         end, lineages)
  end.
End runtime.
