(* ===== verification/LiveRuntimeProps.v ===== *)
(** * The invariant of the live route runtime

    [runtime_ok] is the invariant of a running runtime: the coordinator's
    [actor_ok], every queued job and busy worker works on the active search of
    its subscription or on a cancelled one, what the workers have reported was
    reported by such searches, and the queues keep their bounds.  Every step of
    the runtime and of the outside preserves it, until the coordinator closes. *)

From S2P Require Import Prelude AmmState Petgraph Graph Config SearchTypes Liquidity QuoteCache Quote.
From S2P Require Import Searcher Streaming StreamDriver LiveState LiveGraph LiveGraphProps.
From S2P Require Import LiveGraphTheorems LiveView LiveRoutes LiveRoutesProps LiveRoutesInv LiveRuntime.

Section props.
Context `{!AmmTypes} `{!AmmLive} `{!Petgraph Address EdgeData}.
Context (runtime_error_display : LiveRouteRuntimeError → string) (worker_may_panic : Prop).
Implicit Types (a : LiveRouteActor) (r : RouteRuntime) (job : RouteWorkerJob)
  (out : list RouteJobStamp) (th : RouteWorkerThread) (m : RouteWorkerMessage).

(** ** What searches report *)

Definition job_for (v : LiveSearchView) (spec : RouteSubscriptionSpec) job : Prop :=
  job_view job = v ∧ job_request job = spec_request spec ∧
  job_streaming job = single_worker (spec_streaming spec).

(** A run of the job's search during which nobody cancelled it. *)
Definition uninterrupted job (res : result SearchError StreamingSearchReport)
    (events : list RouteSearchEvent) : Prop :=
  ∃ schedule, run_route_search job schedule quiet_job_reads = Some (res, events).

(** A run during which its tokens may have been cancelled. *)
Definition interruptible job (res : result SearchError StreamingSearchReport)
    (events : list RouteSearchEvent) : Prop :=
  ∃ schedule reads, (∀ n, jr_send_ok reads n = true) ∧
    run_route_search job schedule reads = Some (res, events).

Definition searched job (r : result RouteSearchFailure StreamingSearchReport) : Prop :=
  (∃ res events, uninterrupted job res events ∧ r = search_result res) ∨
  worker_may_panic ∧ r = Err worker_panicked.

Definition answers (v : LiveSearchView) (spec : RouteSubscriptionSpec)
    (r : result RouteSearchFailure StreamingSearchReport) : Prop :=
  ∃ job, job_for v spec job ∧ searched job r.

Definition hears (v : LiveSearchView) (spec : RouteSubscriptionSpec) (q : RouteQuote) : Prop :=
  ∃ job res events event, job_for v spec job ∧ interruptible job res events ∧ event ∈ events ∧
    event_best event = Some q.

Abbreviation actor_good := (actor_ok answers hears).

(** ** Jobs on their way *)

Definition queued_stamp (c : RouteWorkerCommand) : option RouteJobStamp :=
  match c with WorkerSearch job => Some (job_stamp job) | WorkerShutdown => None end.
Definition thread_job th : option RouteWorkerJob :=
  match th with
  | ThreadRefusing job | ThreadSearching job _ _ _ _ => Some job
  | ThreadIdle | ThreadExited => None
  end.
Definition thread_stamp th : option RouteJobStamp := job_stamp <$> thread_job th.
Definition completed_stamp m : option RouteJobStamp :=
  match m with MessageCompleted stamp _ => Some stamp | MessageEvent _ _ => None end.

(** The searches that are queued, running, or whose result is on its way. *)
Definition outstanding r : list RouteJobStamp :=
  omap queued_stamp (sh_jobs (rt_shared r)) ++ omap thread_stamp (rt_threads r) ++
  omap completed_stamp (rt_results r).

Definition thread_ok a th : Prop :=
  match th with
  | ThreadIdle => True
  | ThreadExited => False
  | ThreadRefusing job => job_ok a job ∧ job_cancelled (ac_shared a) job = true
  | ThreadSearching job false sent rest res => job_ok a job ∧ uninterrupted job res (sent ++ rest)
  | ThreadSearching job true sent rest res =>
      job_ok a job ∧ job_cancelled (ac_shared a) job = true ∧ interruptible job res (sent ++ rest)
  end.

Definition message_ok a m : Prop :=
  match m with
  | MessageEvent stamp event =>
      ∃ job res events, job_ok a job ∧ job_stamp job = stamp ∧ interruptible job res events ∧
        event ∈ events
  | MessageCompleted stamp r =>
      ∃ job, job_ok a job ∧ job_stamp job = stamp ∧
        (job_cancelled (ac_shared a) job = true ∨ searched job r)
  end.

Definition queued_ok a (c : RouteWorkerCommand) : Prop :=
  ∃ job, c = WorkerSearch job ∧ job_ok a job.

(** The invariant while messages are being handled: [extra] are the results
    taken from the channel. *)
Record runtime_mid (extra : list RouteJobStamp) r : Prop := {
  rm_actor : actor_good (rt_actor r);
  rm_outstanding : outstanding_ok (rt_actor r) (extra ++ outstanding r);
  rm_jobs : Forall (queued_ok (rt_actor r)) (sh_jobs (rt_shared r));
  rm_threads : Forall (thread_ok (rt_actor r)) (rt_threads r);
  rm_messages : Forall (message_ok (rt_actor r)) (rt_results r);
  rm_config : LiveRouteRuntimeConfig_validate (rt_config r) = Ok (rt_config r);
  rm_pool : ac_workers (rt_actor r) =
    Some {| wp_capacity := job_queue_capacity (rt_config r); wp_threads := worker_threads (rt_config r) |};
  rm_queue : length (sh_jobs (rt_shared r)) <= job_queue_capacity (rt_config r);
  rm_open : rt_results_closed r = false;
  rm_results : length (rt_results r) <= result_capacity (rt_config r);
  rm_commands : length (rt_commands r) <= command_capacity (rt_config r);
  rm_count : length (rt_threads r) = worker_threads (rt_config r);
  rm_max : ac_max_subscriptions (rt_actor r) = max_subscriptions (rt_config r);
  rm_failure : ac_terminal_failure (rt_actor r) = None;
  rm_running : rt_phase r = PhaseRunning;
}.

(** Between two rounds of the coordinator a waiting subscription has a search to
    wait for. *)
Record runtime_ok r : Prop := {
  ro_mid : runtime_mid [] r;
  ro_pending : ac_pending (rt_actor r) ≠ [] → outstanding r ≠ [];
}.

Lemma config_positive r extra :
  runtime_mid extra r →
  0 < worker_threads (rt_config r) ∧ 0 < job_queue_capacity (rt_config r) ∧
  0 < result_capacity (rt_config r) ∧ 0 < command_capacity (rt_config r) ∧
  0 < max_subscriptions (rt_config r).
Proof.
  intros Hm. pose proof (rm_config _ _ Hm) as Hc. unfold LiveRouteRuntimeConfig_validate in Hc.
  destruct (_ || _) eqn:Hz; [done|]. rewrite !orb_false_iff, !Nat.eqb_neq in Hz. lia.
Qed.

(** ** The coordinator moves on *)

Record moves_on out a a' : Prop := {
  mo_advances : advances a a';
  mo_keeps : keeps_cancelled out a a';
}.

Lemma job_cancelled_keep out a a' job :
  moves_on out a a' → job_ok a job → job_stamp job ∈ out →
  job_cancelled (ac_shared a) job = true → job_cancelled (ac_shared a') job = true.
Proof.
  intros [_ Hk] Hj Hin. unfold job_cancelled.
  rewrite (jo_subscription _ _ Hj), (jo_token _ _ Hj), !orb_true_iff.
  intros [Hc|Hc]; [left|right]; by eapply Hk.
Qed.

Lemma queued_ok_moves out a a' c : moves_on out a a' → queued_ok a c → queued_ok a' c.
Proof. intros Hm (job & -> & Hj). exists job. split; [done|]. by eapply job_ok_advances, Hj; apply Hm. Qed.

Lemma thread_ok_moves out a a' th :
  moves_on out a a' → (∀ stamp, thread_stamp th = Some stamp → stamp ∈ out) →
  thread_ok a th → thread_ok a' th.
Proof.
  intros Hm Hin. destruct th as [|job|job [] sent rest res|]; cbn; try done.
  - intros [Hj Hc]. split; [by eapply job_ok_advances, Hj; apply Hm|].
    eapply job_cancelled_keep; try done. by apply Hin.
  - intros (Hj & Hc & Hr). split_and!; [by eapply job_ok_advances, Hj; apply Hm| |done].
    eapply job_cancelled_keep; try done. by apply Hin.
  - intros [Hj Hr]. split; [by eapply job_ok_advances, Hj; apply Hm|done].
Qed.

Lemma message_ok_moves out a a' m :
  moves_on out a a' → (∀ stamp, completed_stamp m = Some stamp → stamp ∈ out) →
  message_ok a m → message_ok a' m.
Proof.
  intros Hm Hin. destruct m as [stamp event|stamp r]; cbn.
  - intros (job & res & events & Hj & H1 & H2). exists job, res, events. split; [|done].
    by eapply job_ok_advances, Hj; apply Hm.
  - intros (job & Hj & Hs & Hc). exists job. split_and!; [by eapply job_ok_advances, Hj; apply Hm|done|].
    destruct Hc as [Hc|Hc]; [left|by right]. eapply job_cancelled_keep; try done.
    rewrite Hs. by apply Hin.
Qed.

Lemma Forall_moves {A} (P P' : A → Prop) (f : A → option RouteJobStamp) out (l : list A) :
  (∀ x, (∀ stamp, f x = Some stamp → stamp ∈ out) → P x → P' x) →
  omap f l ⊆ out → Forall P l → Forall P' l.
Proof.
  intros Hp Hsub. rewrite !Forall_forall. intros HP x Hx. apply Hp; [|by apply HP].
  intros stamp Hs. apply Hsub, list_elem_of_omap. by exists x.
Qed.

(** The invariant when the coordinator's part of the state moves on, and jobs are
    added to the queue. *)
Lemma runtime_mid_actor extra extra' new r a :
  runtime_mid extra r →
  actor_good a → outstanding_ok a (extra' ++ outstanding r ++ (job_stamp <$> new)) →
  moves_on (outstanding r) (rt_actor r) a →
  sh_jobs (ac_shared a) = sh_jobs (rt_shared r) ++ (WorkerSearch <$> new) →
  (∀ job, job ∈ new → job_ok a job) →
  length (sh_jobs (ac_shared a)) <= job_queue_capacity (rt_config r) →
  ac_workers a = ac_workers (rt_actor r) →
  ac_max_subscriptions a = ac_max_subscriptions (rt_actor r) →
  ac_terminal_failure a = ac_terminal_failure (rt_actor r) →
  runtime_mid extra' (rt_set_actor a r).
Proof.
  intros [H1 H2 H3 H4 H5 H6 H7 H8 H9 H10 H11 H12 H13 H14 H15] Ha Ho Hm Hj Hnew Hb Hw Hmax Hf.
  split; try done; cbn.
  - assert (outstanding (rt_set_actor a r) ≡ₚ outstanding r ++ (job_stamp <$> new)) as Hp.
    { unfold outstanding at 1. unfold rt_shared. cbn. rewrite Hj, omap_app.
      assert (omap queued_stamp (WorkerSearch <$> new) = job_stamp <$> new) as ->.
      { clear. induction new; csimpl; [done|]. by f_equal. }
      unfold outstanding. rewrite <- !app_assoc. apply Permutation_app_head.
      rewrite Permutation_app_comm, <- !app_assoc. done. }
    by rewrite Hp.
  - unfold rt_shared. cbn. rewrite Hj. apply Forall_app. split.
    + eapply Forall_impl; [exact H3|]. intros c. by apply (queued_ok_moves (outstanding r)).
    + apply Forall_forall. intros c (job & -> & Hin)%list_elem_of_fmap. exists job. eauto.
  - eapply (Forall_moves _ _ thread_stamp (outstanding r)); [|set_solver|exact H4].
    intros th Hin. by apply (thread_ok_moves (outstanding r)).
  - eapply (Forall_moves _ _ completed_stamp (outstanding r)); [|set_solver|exact H5].
    intros m Hin. by apply (message_ok_moves (outstanding r)).
  - by rewrite Hw.
  - by rewrite Hmax.
  - by rewrite Hf.
Qed.
Lemma handled_mid still extra extra' r a :
  runtime_mid extra r → handled answers hears still (extra' ++ outstanding r) (rt_actor r) a →
  runtime_mid extra' (rt_set_actor a r).
Proof.
  intros Hm [H1 H2 H3 H4 H5 H6 H7 H8 _].
  apply (runtime_mid_actor extra extra' [] r a); try done.
  - cbn. by rewrite app_nil_r.
  - split; [done|]. intros stamp t Hs. apply H4. set_solver.
  - by rewrite H5, app_nil_r.
  - intros job. by intros ?%not_elem_of_nil.
  - rewrite H5. apply Hm.
Qed.

Lemma handled_moves still extra r a :
  handled answers hears still (extra ++ outstanding r) (rt_actor r) a → moves_on extra (rt_actor r) a.
Proof.
  intros [_ _ H3 H4 _ _ _ _ _]. split; [done|]. intros stamp t Hs. apply H4. set_solver.
Qed.

(** ** Taking an input *)

Inductive taken r : LiveRouteActorInput → RouteRuntime → Prop :=
  | taken_commit c cs :
      rt_commits r = c :: cs →
      taken r (InputCommit (Some c)) (rt_set_commits cs (rt_commits_closed r) r)
  | taken_commits_end :
      rt_commits r = [] → rt_commits_closed r = true → taken r (InputCommit None) r
  | taken_command c cs :
      rt_commands r = c :: cs →
      taken r (InputCommand (Some c)) (rt_set_commands cs (rt_commands_closed r) r)
  | taken_commands_end :
      rt_commands r = [] → rt_commands_closed r = true → taken r (InputCommand None) r
  | taken_cleanup id ids :
      sh_cleanup (rt_shared r) = id :: ids →
      taken r (InputCleanup id) (on_rt_shared (set_cleanup ids) r)
  | taken_result m ms :
      rt_results r = m :: ms →
      taken r (InputWorker (Some m)) (rt_set_results ms (rt_results_closed r) r)
  | taken_results_end :
      rt_results r = [] → forallb thread_exited (rt_threads r) = true → taken r (InputWorker None) r.

(** Nothing to take. *)
Definition nothing_to_take r : Prop :=
  rt_commits r = [] ∧ rt_commits_closed r = false ∧ rt_commands r = [] ∧
  rt_commands_closed r = false ∧ sh_cleanup (rt_shared r) = [] ∧ rt_results r = [] ∧
  forallb thread_exited (rt_threads r) = false.

Lemma next_input_cases fair r :
  match next_input fair r with
  | Some (input, r') => taken r input r'
  | None => nothing_to_take r
  end.
Proof.
  unfold next_input, nothing_to_take.
  destruct fair; cbn [first_ready];
    unfold next_commit, next_command, next_cleanup, next_result;
    destruct (rt_commits r) eqn:?; destruct (rt_commands r) eqn:?;
    destruct (sh_cleanup (rt_shared r)) eqn:?; destruct (rt_results r) eqn:?;
    repeat (match goal with |- context [if ?b then _ else _] => destruct b eqn:? end);
    try (by econstructor); by split_and!.
Qed.

(** ** What the coordinator leaves when its loop ends *)

Record closable a : Prop := {
  cb_outputs : outputs_ok a;
  cb_base id e : ac_entries a !! id = Some e → entry_base (ac_shared a) id e;
  cb_gone id : gone_ok a id;
}.

Lemma actor_closable a : actor_good a → closable a.
Proof.
  intros Ha. split; [apply Ha| |].
  - intros id e He. apply (ao_entries _ _ _ Ha id e He).
  - apply (ao_gone _ _ _ Ha).
Qed.

Lemma closable_ext a a' :
  ac_entries a' = ac_entries a → ac_shared a' = ac_shared a → ac_sequence a' = ac_sequence a →
  ac_next_subscription a' = ac_next_subscription a → closable a → closable a'.
Proof.
  intros He Hs Hq Hn [H1 H2 H3]. split; unfold gone_ok; rewrite ?He, ?Hs, ?Hn; try done.
  by apply (outputs_ok_ext a); rewrite ?Hs.
Qed.
(** ** Handling an input *)

Lemma runtime_mid_lineages extra lin r : runtime_mid extra r → runtime_mid extra (rt_set_lineages lin r).
Proof. intros []. by split. Qed.
Lemma runtime_mid_streak extra n r : runtime_mid extra r → runtime_mid extra (rt_set_streak n r).
Proof. intros []. by split. Qed.
Lemma runtime_mid_commits extra cs b r : runtime_mid extra r → runtime_mid extra (rt_set_commits cs b r).
Proof. intros []. by split. Qed.

(** What an input leaves alone. *)
Record same_frame r r' : Prop := {
  sf_threads : rt_threads r' = rt_threads r;
  sf_jobs : sh_jobs (rt_shared r') = sh_jobs (rt_shared r);
  sf_config : rt_config r' = rt_config r;
  sf_workers : ac_workers (rt_actor r') = ac_workers (rt_actor r);
  sf_phase : rt_phase r' = rt_phase r;
  sf_next : (ac_next_subscription (rt_actor r) <= ac_next_subscription (rt_actor r'))%Z;
}.

Lemma handled_frame still out r a :
  handled answers hears still out (rt_actor r) a → same_frame r (rt_set_actor a r).
Proof. intros [_ _ H3 _ H5 H6 _ _ _]. split; try done. apply H3. Qed.

(** The commit became the coordinator's state. *)
Definition committed (c : AmmStateCommit) lin lin' a a' : Prop :=
  ∃ d, apply_commit c (ac_live a) lin = Some (Ok (d, ac_live a'), lin') ∧
    LiveSearchView_new (commit_snapshot c) (ac_live a') = Ok (ac_view a').

Lemma turn_commit_ok extra r c ends r' :
  versions_counted → runtime_mid extra r → turn_commit runtime_error_display c r = Some (ends, r') →
  ∃ a lin, r' = rt_set_lineages lin (rt_set_actor a r) ∧ same_frame r r' ∧
    if ends : bool then closable a
    else runtime_mid extra r' ∧ moves_on extra (rt_actor r) a ∧
      committed c (rt_lineages r) lin (rt_actor r) a.
Proof.
  intros Hver Hm. unfold turn_commit.
  destruct (actor_apply_commit c (rt_actor r) (rt_lineages r)) as [[[res a] lin]|] eqn:Happ; [|done].
  cbn [mbind option_bind].
  pose proof (actor_apply_commit_handled answers hears (extra ++ outstanding r) c (rt_actor r)
    (rt_lineages r) res a lin Hver (rm_actor _ _ Hm) (rm_outstanding _ _ Hm) Happ) as Hcases.
  destruct res as [[]|e]; intros [= <- <-].
  - destruct Hcases as [Hh Hc]. exists a, lin. split; [done|].
    split; [destruct (handled_frame _ _ _ _ Hh); by split|]. split_and!.
    + apply runtime_mid_lineages. by apply (handled_mid false extra).
    + by apply (handled_moves false extra r).
    + destruct Hc as (d & H1 & H2 & _). by exists d.
  - destruct Hcases as [l ->]. do 2 eexists. split; [reflexivity|]. split; [by split|].
    apply (closable_ext (rt_actor r)); try done. apply actor_closable, Hm.
Qed.

Lemma outstanding_pop_result m ms r :
  rt_results r = m :: ms → runtime_mid [] r →
  runtime_mid (option_list (completed_stamp m)) (rt_set_results ms (rt_results_closed r) r).
Proof.
  intros Hr [H1 H2 H3 H4 H5 H6 H7 H8 H9 H10 H11 H12 H13 H14 H15]. rewrite Hr in H5, H10.
  apply Forall_cons in H5 as [_ H5]. split; try done; cbn; [|cbn in H10; lia].
  assert (option_list (completed_stamp m) ++ outstanding (rt_set_results ms (rt_results_closed r) r) ≡ₚ
    outstanding r) as Hp; [|by rewrite Hp].
  unfold outstanding. cbn. rewrite Hr. csimpl.
  destruct (completed_stamp m); cbn; [|done]. by rewrite Permutation_middle, Permutation_middle.
Qed.

Lemma stamps_below extra r stamp :
  runtime_mid extra r → stamp ∈ outstanding r →
  (stamp_subscription stamp < ac_next_subscription (rt_actor r))%Z.
Proof.
  intros [_ _ H3 H4 H5 _ _ _ _ _ _ _ _ _ _] Hs.
  rewrite Forall_forall in H3. rewrite Forall_forall in H4. rewrite Forall_forall in H5.
  unfold outstanding in Hs. rewrite !elem_of_app, !list_elem_of_omap in Hs.
  destruct Hs as [(c & Hc & Hs)|[(th & Hth & Hs)|(m & Hm & Hs)]].
  - apply H3 in Hc as (job & -> & Hj). injection Hs as <-. apply (jo_id _ _ Hj).
  - apply H4 in Hth. destruct th as [|job|job [] sent rest res|]; try done;
      injection Hs as <-; apply Hth.
  - apply H5 in Hm. destruct m as [|stamp' r']; [done|]. injection Hs as ->.
    destruct Hm as (job & Hj & <- & _). apply (jo_id _ _ Hj).
Qed.

(** A job that passes the fence is one for the current view and request. *)
Lemma job_ok_current a job e :
  job_ok a job → ac_entries a !! stamp_subscription (job_stamp job) = Some e →
  fresh (ac_view a) e (job_stamp job) → job_for (ac_view a) (re_spec e) job.
Proof.
  intros Hj He [Hs Hep]. destruct (jo_request _ _ Hj e He) as [_ Hreq].
  destruct (Hreq Hep) as [H1 H2]. split; [|done]. by apply (jo_view _ _ Hj).
Qed.

Lemma handle_event_mid r stamp event :
  runtime_mid [] r → message_ok (rt_actor r) (MessageEvent stamp event) →
  handled answers hears true (outstanding r) (rt_actor r) (handle_worker_event stamp event (rt_actor r)).
Proof.
  intros Hm (job & res & events & Hj & <- & Hrun & Hin).
  apply handle_worker_event_handled; [apply Hm|apply (rm_outstanding _ _ Hm)|].
  intros e q (e' & act & He' & _ & _ & Hf & _)%accepts_spec He Hq. assert (e' = e) as -> by congruence.
  exists job, res, events, event. split; [|done]. by apply job_ok_current.
Qed.

Lemma handle_completed_mid r stamp res :
  runtime_mid [stamp] r → message_ok (rt_actor r) (MessageCompleted stamp res) →
  handled answers hears true (outstanding r) (rt_actor r) (handle_worker_completed stamp res (rt_actor r)).
Proof.
  intros Hm (job & Hj & <- & Hres).
  apply handle_worker_completed_handled; [apply Hm|apply (rm_outstanding _ _ Hm)|].
  intros e He Hact Hf Hc. exists job. split; [by apply job_ok_current|].
  destruct Hres as [Hcan|]; [exfalso|done].
  unfold job_cancelled in Hcan. rewrite (jo_subscription _ _ Hj), (jo_token _ _ Hj), Hc in Hcan.
  cbn [orb] in Hcan. destruct (ao_entries _ _ _ (rm_actor _ _ Hm) _ e He) as [[Hb Ha _] _].
  destruct (re_active e) as [act|] eqn:Hae; [|done]. injection Hact as Hact.
  pose proof (ak_cancelled _ _ _ _ _ (Ha act eq_refl)) as Hk.
  rewrite (ab_token _ _ _ _ (eb_active _ _ _ Hb act Hae)), Hact, Hcan in Hk.
  apply eq_sym, not_false_iff_true in Hk. apply Hk. apply (ak_fresh _ _ _ _ _ (Ha act eq_refl)).
  by rewrite Hact.
Qed.

(** At most the next commit was applied. *)
Definition follows_commits r r' : Prop :=
  ac_live (rt_actor r') = ac_live (rt_actor r) ∧ ac_view (rt_actor r') = ac_view (rt_actor r) ∧
  rt_commits r' = rt_commits r ∧ rt_lineages r' = rt_lineages r ∨
  ∃ c cs, rt_commits r = c :: cs ∧ rt_commits r' = cs ∧
    committed c (rt_lineages r) (rt_lineages r') (rt_actor r) (rt_actor r').

Definition input_result r (ends : bool) r' : Prop :=
  same_frame r r' ∧
  if ends then closable (rt_actor r') else runtime_mid [] r' ∧ follows_commits r r'.

Lemma input_closes r r' :
  same_frame r r' → ac_entries (rt_actor r') = ac_entries (rt_actor r) →
  rt_shared r' = rt_shared r → ac_sequence (rt_actor r') = ac_sequence (rt_actor r) →
  ac_next_subscription (rt_actor r') = ac_next_subscription (rt_actor r) →
  runtime_mid [] r → input_result r true r'.
Proof.
  intros Hf He Hs Hq Hn Hm. split; [done|]. apply (closable_ext (rt_actor r)); try done.
  apply actor_closable, Hm.
Qed.

Lemma cleanup_tokens_only ids a : tokens_only a (on_shared (set_cleanup ids) a).
Proof. split; try done. by exists (sh_tokens (ac_shared a)), ids. Qed.

Lemma tokens_only_moves out a a' : tokens_only a a' → moves_on out a a'.
Proof.
  intros [(tokens & cleanup & ->) _ Hk _]. split; [|by intros ? ? _ _ ?; apply Hk].
  split; [cbn; lia|by left|]. intros id e He _. exists e. split; [done|by left].
Qed.

Lemma tokens_only_mid extra r a :
  tokens_only (rt_actor r) a → runtime_mid extra r → runtime_mid extra (rt_set_actor a r).
Proof.
  intros Ht Hm. pose proof (tk_shared _ _ Ht) as (tokens & cleanup & Heq).
  apply (runtime_mid_actor extra extra [] r a); try (subst a; done).
  - by eapply tokens_only_actor, Hm.
  - cbn. rewrite app_nil_r. destruct (rm_outstanding _ _ Hm). by subst a.
  - by apply tokens_only_moves.
  - subst a. cbn. by rewrite app_nil_r.
  - intros job. by intros ?%not_elem_of_nil.
  - subst a. apply Hm.
Qed.

Lemma taken_commit_result r c cs ends r' :
  versions_counted → runtime_mid [] r → rt_commits r = c :: cs →
  turn_commit runtime_error_display c (rt_set_commits cs (rt_commits_closed r) r) = Some (ends, r') →
  input_result r ends r'.
Proof.
  intros Hver Hm Hc Ht. set (r1 := rt_set_commits cs (rt_commits_closed r) r) in *.
  destruct (turn_commit_ok [] r1 c ends r' Hver (runtime_mid_commits _ _ _ _ Hm) Ht)
    as (a & lin & -> & Hf & Hres). split.
  - destruct Hf. by split.
  - destruct ends; [done|]. destruct Hres as (Hm' & _ & Hcom). split; [done|]. right. by exists c, cs.
Qed.
Lemma not_all_exited extra r : runtime_mid extra r → forallb thread_exited (rt_threads r) = false.
Proof.
  intros Hm. destruct (rt_threads r) as [|th ths] eqn:Hth.
  - pose proof (config_positive _ _ Hm). pose proof (rm_count _ _ Hm) as Hc. rewrite Hth in Hc. cbn in Hc. lia.
  - pose proof (rm_threads _ _ Hm) as Hf. rewrite Hth in Hf. apply Forall_cons in Hf as [Hf _].
    cbn. by destruct th.
Qed.

Lemma command_result r c ends a :
  runtime_mid [] r → handle_command c (rt_actor r) = (ends, a) →
  same_frame r (rt_set_actor a r) ∧
  if ends : bool then closable a
  else runtime_mid [] (rt_set_actor a r) ∧ ac_live a = ac_live (rt_actor r) ∧
    ac_view a = ac_view (rt_actor r).
Proof.
  intros Hm Heq. pose proof (handle_command_handled answers hears (outstanding r) c (rt_actor r)
    (rm_actor _ _ Hm) (rm_outstanding _ _ Hm) (λ s, stamps_below _ _ s Hm)) as Hh.
  rewrite Heq in Hh. cbn [fst snd] in Hh. destruct ends.
  - destruct c; cbn in Heq;
      [by destruct (add_subscription _ _)|by destruct (cancel_subscription _ _)
      |by destruct (replace_subscription _ _ _)|]. injection Heq as <-.
    split; [by split|]. apply (closable_ext (rt_actor r)); try done. apply actor_closable, Hm.
  - specialize (Hh eq_refl). split; [by eapply handled_frame|].
    split; [by apply (handled_mid true [])|]. by apply (hd_live _ _ _ _ _ _ Hh).
Qed.

Lemma message_result r m :
  runtime_mid (option_list (completed_stamp m)) r → message_ok (rt_actor r) m →
  let a := handle_worker_message m (rt_actor r) in
  same_frame r (rt_set_actor a r) ∧ runtime_mid [] (rt_set_actor a r) ∧
  ac_live a = ac_live (rt_actor r) ∧ ac_view a = ac_view (rt_actor r).
Proof.
  intros Hm Hok a.
  assert (handled answers hears true (outstanding r) (rt_actor r) a) as Hh.
  { destruct m as [stamp event|stamp res]; [by apply handle_event_mid|by apply handle_completed_mid]. }
  split; [by eapply handled_frame|]. split; [by eapply (handled_mid true)|].
  by apply (hd_live _ _ _ _ _ _ Hh).
Qed.

Lemma handle_input_ok r input r1 ends r2 :
  versions_counted → runtime_mid [] r → taken r input r1 →
  handle_input runtime_error_display input r1 = Some (ends, r2) → input_result r ends r2.
Proof.
  intros Hver Hm Htaken.
  destruct Htaken as [c cs Hc|Hc Hcl|c cs Hc|Hc Hcl|id ids Hid|m ms Hr|Hr Hex]; cbn [handle_input].
  - destruct (turn_commit _ c _) as [[e r']|] eqn:Ht; cbn [mbind option_bind]; [|done].
    intros [= <- <-]. destruct (taken_commit_result r c cs e r' Hver Hm Hc Ht) as [[] Hres].
    destruct e; split; try done. destruct Hres as [Hm' Hf].
    split; [by apply runtime_mid_streak|exact Hf].
  - intros [= <- <-]. by apply (input_closes r).
  - destruct (handle_command c _) as [e a] eqn:Hh. intros [= <- <-].
    destruct (command_result r c e a Hm Hh) as [[] Hres].
    destruct e; split; try done. destruct Hres as (Hm' & Hl & Hv).
    split; [|by left]. destruct Hm' as [H1 H2 H3 H4 H5 H6 H7 H8 H9 H10 H11 H12 H13 H14 H15].
    split; try done. cbn in *. rewrite Hc in H11. cbn in H11. lia.
  - intros [= <- <-]. by apply (input_closes r).
  - intros [= <- <-]. set (r1 := on_rt_shared (set_cleanup ids) r).
    assert (runtime_mid [] r1) as Hm1 by (apply tokens_only_mid; [apply cleanup_tokens_only|done]).
    pose proof (cancel_subscription_handled answers hears (outstanding r1) id (rt_actor r1)
      (rm_actor _ _ Hm1) (rm_outstanding _ _ Hm1)) as Hh.
    destruct (handled_frame _ _ _ _ Hh) as [F1 F2 F3 F4 F5 F6]. split; [by split|].
    split; [by apply runtime_mid_streak, (handled_mid true [] [] r1)|]. left.
    destruct (hd_live _ _ _ _ _ _ Hh) as [Hl Hv]; [done|]. by split_and!.
  - set (r1 := rt_set_results ms (rt_results_closed r) r).
    pose proof (outstanding_pop_result m ms r Hr Hm) as Hm1. fold r1 in Hm1.
    assert (message_ok (rt_actor r) m) as Hmsg.
    { pose proof (rm_messages _ _ Hm) as Hf. rewrite Hr in Hf. by apply Forall_cons in Hf as [? _]. }
    change (rt_commits r1) with (rt_commits r). destruct (rt_commits r) as [|c cs] eqn:Hc; cbn [mbind option_bind].
    + intros [= <- <-]. destruct (message_result r1 m Hm1 Hmsg) as ([F1 F2 F3 F4 F5 F6] & Hm' & Hl & Hv).
      split; [by split|]. split; [by apply runtime_mid_streak|]. left. by split_and!.
    + destruct (turn_commit _ c _) as [[e r']|] eqn:Ht; cbn [mbind option_bind]; [|done].
      destruct (turn_commit_ok _ _ c e r' Hver (runtime_mid_commits _ cs (rt_commits_closed r1) _ Hm1) Ht)
        as (a & lin & -> & [F1 F2 F3 F4 F5 F6] & Hres).
      destruct e; intros [= <- <-]; [by split; [split|]|].
      destruct Hres as (Hm2 & Hmv & Hcom).
      assert (message_ok a m) as Hmsg2.
      { eapply message_ok_moves; [exact Hmv| |done]. intros stamp ->. cbn. by left. }
      destruct (message_result _ m Hm2 Hmsg2) as ([G1 G2 G3 G4 G5 G6] & Hm' & Hl & Hv).
      split; [split; first [by etrans|by etrans; [exact F6|exact G6]]|]. split; [by apply runtime_mid_streak|]. right. exists c, cs.
      split_and!; [done|done|]. destruct Hcom as (d & Hd & Hview). exists d. cbn in *.
      by rewrite Hl, Hv.
  - by rewrite (not_all_exited _ _ Hm) in Hex.
Qed.

(** ** A round of the coordinator *)

Lemma schedule_ok r :
  runtime_mid [] r →
  runtime_ok (on_actor schedule_pending r) ∧
  ac_live (rt_actor (on_actor schedule_pending r)) = ac_live (rt_actor r) ∧
  ac_view (rt_actor (on_actor schedule_pending r)) = ac_view (rt_actor r).
Proof.
  intros Hm. pose proof (config_positive _ _ Hm) as Hpos.
  destruct (schedule_pending_ok answers hears _ (outstanding r) (rt_actor r) (rm_pool _ _ Hm)
    (rm_queue _ _ Hm) (rm_actor _ _ Hm) (rm_outstanding _ _ Hm)) as (new & [S1 S2 S3 S4 S5 S6 S7 S8] & Hend).
  set (a := schedule_pending (rt_actor r)) in *. change (on_actor schedule_pending r) with (rt_set_actor a r).
  split; [|by destruct S8]. assert (runtime_mid [] (rt_set_actor a r)) as Hm'.
  { by apply (runtime_mid_actor [] [] new); try done; apply S8. }
  split; [done|]. cbn [rt_actor rt_set_actor]. intros Hp. destruct Hend as [Hend|Hfull]; [done|].
  unfold outstanding. change (rt_shared (rt_set_actor a r)) with (ac_shared a).
  pose proof (rm_jobs _ _ Hm') as Hj. change (rt_shared (rt_set_actor a r)) with (ac_shared a) in Hj.
  destruct (sh_jobs (ac_shared a)) as [|c cs]; cbn in Hfull; [lia|].
  apply Forall_cons in Hj as [(job & -> & _) _]. by csimpl.
Qed.

(** ** The end *)

Definition final_state (failure : option string) (st : RouteSubscriptionState) : Prop :=
  st = StateCancelled ∨
  st = match failure with None => StateClosed | Some message => StateRuntimeFailed message end.

Record closing_entries (ids : list RouteSubscriptionId) a : Prop := {
  ce_outputs : outputs_ok a;
  ce_base id e : ac_entries a !! id = Some e → entry_base (ac_shared a) id e;
  ce_done id : ac_entries a !! id = None →
    (∀ sn, sh_watches (ac_shared a) !! id = Some sn → final_state (ac_terminal_failure a) (sn_state sn)) ∧
    ((0 <= id < ac_next_subscription a)%Z →
     is_cancelled (ac_shared a) (SubscriptionToken id) = true);
  ce_todo id : is_Some (ac_entries a !! id) → id ∈ ids;
}.

Lemma entry_base_local id a a' e :
  same_local id a a' → entry_base (ac_shared a) id e → entry_base (ac_shared a') id e.
Proof.
  intros [_ _ Ht _] [H1 H2 H3]. split; [done|by rewrite Ht|]. intros act Ha.
  pose proof (H3 act Ha) as Hb. pose proof (active_token_owned _ _ _ _ Hb) as Hown. destruct Hb.
  split; try done. by rewrite Ht.
Qed.

Lemma close_entry_ok id ids a :
  closing_entries (id :: ids) a →
  closing_entries ids (close_entry a id) ∧ same_global a (close_entry a id) ∧
  sh_jobs (ac_shared (close_entry a id)) = sh_jobs (ac_shared a).
Proof.
  intros [H1 H2 H3 H4]. unfold close_entry. destruct (ac_entries a !! id) as [e|] eqn:He.
  2: { split; [|done]. split; try done. intros i Hi. pose proof (H4 i Hi) as [->|]%elem_of_cons; [|done].
       rewrite He in Hi. by destruct Hi. }
  set (st := match ac_terminal_failure a with
             | None => StateClosed
             | Some message => StateRuntimeFailed message
             end).
  destruct (retire_entry_ok id e st a (H2 id e He)) as (Ht & Hdel & (sn & Hsn & _ & _ & Hst) & Hcan & _).
  set (a1 := retire_entry id e st a) in *.
  assert (closing_entries ids a1) as Hc.
  { pose proof (to_global _ _ _ Ht) as [_ _ G3 _ _ G6 _]. split.
    - by apply (to_outputs _ _ _ Ht).
    - intros i e'. rewrite Hdel. intros [Hne Hi]%lookup_delete_Some.
      eapply entry_base_local; [by apply (to_local _ _ _ Ht)|by apply H2].
    - intros i. rewrite Hdel, G3, G6. destruct (decide (i = id)) as [->|Hne].
      + intros _. split; [|done]. intros sn' Hw. assert (sn' = sn) as -> by congruence. right. by rewrite Hst.
      + rewrite lookup_delete_ne by done. destruct (to_local _ _ _ Ht i Hne) as [_ L2 L3 _].
        rewrite L2, (is_cancelled_ext (SubscriptionToken i) _ (ac_shared a)) by (by apply L3). apply H3.
    - intros i. rewrite Hdel. intros [e' [Hne Hi]%lookup_delete_Some].
      pose proof (H4 i ltac:(eauto)) as Hin. set_solver. }
  pose proof (to_global _ _ _ Ht) as HG.
  destruct (ac_terminal_failure a1) eqn:Hf.
  - split_and!; [done|done|apply (to_jobs _ _ _ Ht)].
  - assert (touches id a1 (publish_event (Some id) None RuntimeClosed a1)) as Ht1 by apply touches_publish_event.
    split_and!; [|etrans; [exact HG|apply Ht1]|by rewrite (to_jobs _ _ _ Ht1), (to_jobs _ _ _ Ht)].
    destruct Hc as [C1 C2 C3 C4]. split; [by apply (to_outputs _ _ _ Ht1)| |exact C3|exact C4].
    intros i e' Hi. apply (entry_base_tokens (ac_shared a1)); [done|by apply C2].
Qed.

Lemma close_entries_ok ids a :
  closing_entries ids a →
  closing_entries [] (foldl close_entry a ids) ∧ same_global a (foldl close_entry a ids) ∧
  sh_jobs (ac_shared (foldl close_entry a ids)) = sh_jobs (ac_shared a).
Proof.
  revert a. induction ids as [|id ids IH]; intros a Hc; cbn [foldl]; [done|].
  destruct (close_entry_ok id ids a Hc) as (Hc1 & Hg1 & Hj1). destruct (IH _ Hc1) as (Hc2 & Hg2 & Hj2).
  split_and!; [done|by etrans|congruence].
Qed.

(** Everything is closed. *)
Record closed_ok a : Prop := {
  cd_outputs : outputs_ok a;
  cd_entries : ac_entries a = ∅;
  cd_watches id sn : sh_watches (ac_shared a) !! id = Some sn →
    final_state (ac_terminal_failure a) (sn_state sn);
  cd_cancelled id : (0 <= id < ac_next_subscription a)%Z →
    is_cancelled (ac_shared a) (SubscriptionToken id) = true;
}.

Lemma actor_close_ok a :
  closable a →
  closed_ok (actor_close a) ∧ same_global a (actor_close a) ∧
  sh_jobs (ac_shared (actor_close a)) = sh_jobs (ac_shared a).
Proof.
  intros [H1 H2 H3].
  destruct (close_entries_ok (entry_ids a) a) as ([C1 _ C3 C4] & Hg & Hj).
  { split; [done|done| |].
    - intros id Hid. destruct (H3 id Hid) as [Hw Hc]. split; [|done]. intros sn Hsn. left. by apply Hw.
    - intros id. by rewrite elem_of_entry_ids. }
  set (a1 := foldl close_entry a (entry_ids a)) in *.
  assert (ac_entries a1 = ∅) as Hempty.
  { apply map_empty. intros id. destruct (ac_entries a1 !! id) eqn:He; [|done].
    destruct (not_elem_of_nil id). apply C4. eauto. }
  assert (closed_ok a1) as Hc.
  { split; [done|done|..]; intros id; apply C3; by rewrite Hempty. }
  change (actor_close a) with (match ac_terminal_failure a1 with
    | Some message => publish_event None None (RuntimeFailed message) a1 | None => a1 end).
  destruct (ac_terminal_failure a1) as [message|] eqn:Hf; [|done].
  assert (touches 0 a1 (publish_event None None (RuntimeFailed message) a1)) as Ht by apply touches_publish_event.
  split_and!; [|etrans; [exact Hg|apply Ht]|by rewrite (to_jobs _ _ _ Ht)].
  destruct Hc as [D1 D2 D3 D4]. split; [by apply (to_outputs _ _ _ Ht)|exact D2|exact D3|exact D4].
Qed.

(** ** Steps of the workers *)

Lemma omap_insert {A B} (f : A → option B) (l : list A) i x y :
  l !! i = Some x →
  option_list (f x) ++ omap f (<[i := y]> l) ≡ₚ option_list (f y) ++ omap f l.
Proof.
  revert i. induction l as [|z l IH]; intros [|i]; csimpl; try done.
  - intros [= ->]. destruct (f x), (f y); cbn; try done. apply perm_swap.
  - intros Hi. specialize (IH i Hi). destruct (f z) as [b|]; [|done].
    rewrite <- !Permutation_middle. by rewrite IH.
Qed.

(** Worker [i] becomes [th], leaving these queues. *)
Record worker_moved i th (jobs : list RouteWorkerCommand) (results : list RouteWorkerMessage) r r' :
    Prop := {
  wm_actor : rt_actor r' = on_shared (set_jobs jobs) (rt_actor r);
  wm_threads : rt_threads r' = <[i := th]> (rt_threads r);
  wm_results : rt_results r' = results;
  wm_open : rt_results_closed r' = rt_results_closed r;
  wm_config : rt_config r' = rt_config r;
  wm_commands : rt_commands r' = rt_commands r;
  wm_commits : rt_commits r' = rt_commits r;
  wm_lineages : rt_lineages r' = rt_lineages r;
  wm_phase : rt_phase r' = rt_phase r;
}.

Lemma set_jobs_same a : on_shared (set_jobs (sh_jobs (ac_shared a))) a = a.
Proof. by destruct a as [? ? ? ? ? ? ? ? ? ? ? []]. Qed.

Lemma moves_on_jobs out jobs a : moves_on out a (on_shared (set_jobs jobs) a).
Proof.
  split; [|by intros ? ? ? ? ?]. split; [cbn; lia|by left|]. intros id e He _. exists e.
  split; [done|by left].
Qed.

Lemma actor_ok_set_jobs jobs a : actor_good a → actor_good (on_shared (set_jobs jobs) a).
Proof.
  intros Ha. apply (actor_ok_jobs _ _ (sh_jobs (ac_shared a))).
  by destruct a as [? ? ? ? ? ? ? ? ? ? ? []].
Qed.

Lemma worker_moved_ok i th0 th jobs results r r' :
  runtime_ok r → rt_threads r !! i = Some th0 → worker_moved i th jobs results r r' →
  Forall (queued_ok (rt_actor r)) jobs → length jobs <= job_queue_capacity (rt_config r) →
  thread_ok (rt_actor r) th → Forall (message_ok (rt_actor r)) results →
  length results <= result_capacity (rt_config r) →
  omap queued_stamp jobs ++ option_list (thread_stamp th) ++ omap completed_stamp results ≡ₚ
    omap queued_stamp (sh_jobs (rt_shared r)) ++ option_list (thread_stamp th0) ++
    omap completed_stamp (rt_results r) →
  runtime_ok r'.
Proof.
  intros [Hm Hp] Hi [W1 W2 W3 W4 W5 W6 W7 W8 W9] Hj Hjb Hth Hres Hrb Hperm.
  assert (outstanding r' ≡ₚ outstanding r) as Hout.
  { unfold outstanding, rt_shared. rewrite W1, W2, W3. cbn.
    apply (Permutation_app_inv_l (option_list (thread_stamp th0))).
    rewrite (Permutation_app_swap_app _ (omap queued_stamp jobs)).
    rewrite (app_assoc (option_list _) (omap thread_stamp _)), (omap_insert _ _ _ _ th Hi).
    rewrite (Permutation_app_swap_app _ (omap queued_stamp (sh_jobs _))).
    rewrite <- !app_assoc.
    rewrite (Permutation_app_comm (omap thread_stamp (rt_threads r)) (omap completed_stamp results)).
    rewrite (Permutation_app_comm (omap thread_stamp (rt_threads r)) (omap completed_stamp (rt_results r))).
    rewrite (app_assoc (option_list (thread_stamp th))), (app_assoc (omap queued_stamp jobs)), Hperm.
    by rewrite <- !app_assoc. }
  assert (moves_on (outstanding r) (rt_actor r) (rt_actor r')) as Hmv.
  { rewrite W1. apply moves_on_jobs. }
  destruct Hm as [H1 H2 H3 H4 H5 H6 H7 H8 H9 H10 H11 H12 H13 H14 H15].
  split; [split|]; rewrite ?W2, ?W3, ?W4, ?W5, ?W6, ?W9; try done.
  - rewrite W1. by apply actor_ok_set_jobs.
  - rewrite Hout, W1. by destruct H2.
  - unfold rt_shared. rewrite W1 at 2. cbn. eapply Forall_impl; [exact Hj|]. intros c.
    by apply (queued_ok_moves (outstanding r)).
  - assert (Forall (thread_ok (rt_actor r)) (<[i:=th]> (rt_threads r))) as Hf by by apply Forall_insert.
    eapply (Forall_moves _ _ thread_stamp); [|reflexivity|exact Hf].
    intros th' Hin. apply (thread_ok_moves (omap thread_stamp (<[i:=th]> (rt_threads r)))); [|done].
    rewrite W1. apply moves_on_jobs.
  - eapply (Forall_moves _ _ completed_stamp); [|reflexivity|exact Hres].
    intros m Hin. apply (message_ok_moves (omap completed_stamp results)); [|done].
    rewrite W1. apply moves_on_jobs.
  - by rewrite W1.
  - unfold rt_shared. by rewrite W1.
  - by rewrite length_insert.
  - by rewrite W1.
  - by rewrite W1.
  - rewrite W1. cbn. intros Hne Hnil. apply Hp; [done|]. rewrite Hnil in Hout. by apply Permutation_nil.
Qed.

(** ** Closing *)

Definition exited_threads r : nat := sum_list_with (λ th, if thread_exited th then 1 else 0) (rt_threads r).
Definition queued_shutdowns r : nat :=
  sum_list_with (λ c, match c with WorkerShutdown => 1 | WorkerSearch _ => 0 end) (sh_jobs (rt_shared r)).

Definition cancelled_command (sh : RouteShared) (c : RouteWorkerCommand) : Prop :=
  match c with WorkerSearch job => job_cancelled sh job = true | WorkerShutdown => True end.

Record stopping_ok r : Prop := {
  st_closed : closed_ok (rt_actor r);
  st_results : rt_results_closed r = true;
  st_jobs : Forall (cancelled_command (rt_shared r)) (sh_jobs (rt_shared r));
  st_phase :
    match rt_phase r with
    | PhaseRunning => False
    | PhaseStopping pool n =>
        0 < wp_capacity pool ∧ length (sh_jobs (rt_shared r)) <= wp_capacity pool ∧
        exited_threads r + queued_shutdowns r + n = length (rt_threads r)
    | PhaseExited => forallb thread_exited (rt_threads r) = true
    end;
}.

Lemma closed_ok_ext a a' :
  ac_entries a' = ac_entries a → ac_terminal_failure a' = ac_terminal_failure a →
  sh_watches (ac_shared a') = sh_watches (ac_shared a) →
  ac_next_subscription a' = ac_next_subscription a →
  (∀ t, is_cancelled (ac_shared a) t = true → is_cancelled (ac_shared a') t = true) →
  outputs_ok a' → closed_ok a → closed_ok a'.
Proof.
  intros He Hf Hw Hn Hc Ho [H1 H2 H3 H4]. split; rewrite ?He, ?Hf, ?Hw, ?Hn; auto.
Qed.

Lemma sum_list_zero {A} (f : A → nat) l : Forall (λ x, f x = 0) l → sum_list_with f l = 0.
Proof. induction 1; csimpl; lia. Qed.

Lemma begin_close_ok r r' :
  runtime_mid [] r → same_frame r r' → closable (rt_actor r') → stopping_ok (begin_close r').
Proof.
  intros Hm [F1 F2 F3 F4 F5 F6] Hc. destruct (actor_close_ok _ Hc) as (Hcl & Hg & Hj).
  assert (ac_workers (rt_actor r') = Some {| wp_capacity := job_queue_capacity (rt_config r);
    wp_threads := worker_threads (rt_config r) |}) as Hpool by (by rewrite F4, (rm_pool _ _ Hm)).
  unfold begin_close. rewrite Hpool. split; cbn.
  - apply (closed_ok_ext (actor_close (rt_actor r'))); try done.
    by apply (outputs_ok_ext (actor_close (rt_actor r'))); [..|apply Hcl].
  - done.
  - unfold rt_shared. cbn. rewrite Hj. change (ac_shared (rt_actor r')) with (rt_shared r'). rewrite F2.
    eapply Forall_impl; [apply (rm_jobs _ _ Hm)|]. intros c (job & -> & Hok). cbn. unfold job_cancelled.
    pose proof (jo_id _ _ Hok). rewrite (jo_subscription _ _ Hok), (cd_cancelled _ Hcl); [done|].
    rewrite (sg_next _ _ Hg). lia.
  - unfold exited_threads, queued_shutdowns. unfold rt_shared. cbn. rewrite Hj, F1.
    change (ac_shared (rt_actor r')) with (rt_shared r'). rewrite F2.
    destruct (config_positive _ _ Hm) as (_ & Hcap & _). split_and!; [done|apply Hm|].
    rewrite !sum_list_zero; [by rewrite (rm_count _ _ Hm)|..].
    + eapply Forall_impl; [apply (rm_jobs _ _ Hm)|]. by intros c (job & -> & _).
    + eapply Forall_impl; [apply (rm_threads _ _ Hm)|]. by intros [] ?.
Qed.

(** A round of the coordinator goes on, after at most one commit, or closes. *)
Lemma actor_turn_ok r r' :
  versions_counted → runtime_ok r → actor_turn runtime_error_display r = Some r' →
  runtime_ok r' ∧ follows_commits r r' ∨ stopping_ok r'.
Proof.
  intros Hver [Hm _]. unfold actor_turn.
  pose proof (next_input_cases (MAX_COMMIT_BURST <=? rt_commit_streak r)%Z r) as Hnext.
  destruct (next_input _ r) as [[input r1]|]; cbn [mbind option_bind]; [|done].
  destruct (handle_input runtime_error_display input r1) as [[ends r2]|] eqn:Hh; cbn [mbind option_bind]; [|done].
  destruct (handle_input_ok r input r1 ends r2 Hver Hm Hnext Hh) as [Hf Hres].
  destruct ends; intros [= <-].
  - right. by eapply begin_close_ok.
  - left. destruct Hres as [Hm2 Hc]. destruct (schedule_ok r2 Hm2) as (Hok & Hl & Hv). split; [done|].
    unfold follows_commits, committed in *. rewrite Hl, Hv. exact Hc.
Qed.

Lemma worker_moved_follows i th jobs results r r' :
  worker_moved i th jobs results r r' → follows_commits r r'.
Proof. intros [W1 _ _ _ _ _ W7 W8 _]. left. rewrite W1, W7, W8. done. Qed.

(** A worker's step that only reports. *)
Lemma worker_reports_ok i th0 m r :
  runtime_ok r → rt_threads r !! i = Some th0 → results_room r → message_ok (rt_actor r) m →
  ∀ th, thread_ok (rt_actor r) th →
  option_list (completed_stamp m) ++ option_list (thread_stamp th) ≡ₚ option_list (thread_stamp th0) →
  let r' := rt_set_thread i th (push_result m r) in runtime_ok r' ∧ follows_commits r r'.
Proof.
  intros Hr Hi [Hopen Hroom] Hmsg th Hth Hp r'. pose proof (ro_mid _ Hr) as Hm.
  assert (worker_moved i th (sh_jobs (rt_shared r)) (rt_results r ++ [m]) r r') as Hw.
  { split; try done. apply eq_sym, set_jobs_same. }
  split; [|by eapply worker_moved_follows]. eapply worker_moved_ok; try done.
  - apply Hm.
  - apply Hm.
  - apply Forall_app. split; [apply Hm|]. by apply Forall_singleton.
  - rewrite length_app. cbn. lia.
  - rewrite omap_app. csimpl. apply Permutation_app_head. rewrite <- Hp.
    rewrite (Permutation_app_comm (omap completed_stamp (rt_results r))), !app_assoc.
    apply Permutation_app_tail. rewrite (Permutation_app_comm (option_list (thread_stamp th))).
    by destruct (completed_stamp m).
Qed.

(** A worker's step that takes a job. *)
Lemma worker_takes_ok i job jobs r :
  runtime_ok r → rt_threads r !! i = Some ThreadIdle →
  sh_jobs (rt_shared r) = WorkerSearch job :: jobs →
  ∀ th, thread_job th = Some job → (job_ok (rt_actor r) job → thread_ok (rt_actor r) th) →
  let r' := rt_set_thread i th (on_rt_shared (set_jobs jobs) r) in runtime_ok r' ∧ follows_commits r r'.
Proof.
  intros Hr Hi Hj th Hjob Hth r'. pose proof (ro_mid _ Hr) as Hm.
  pose proof (rm_jobs _ _ Hm) as Hf. pose proof (rm_queue _ _ Hm) as Hq. rewrite Hj in Hf, Hq.
  apply Forall_cons in Hf as [(job' & [= <-] & Hok) Hf].
  assert (worker_moved i th jobs (rt_results r) r r') as Hw by by split.
  split; [|by eapply worker_moved_follows]. eapply worker_moved_ok; try done.
  - cbn in Hq. lia.
  - by apply Hth.
  - apply Hm.
  - apply Hm.
  - rewrite Hj. csimpl. unfold thread_stamp. rewrite Hjob. cbn.
    by rewrite Permutation_middle.
Qed.

Lemma interruptible_of_uninterrupted job res events :
  uninterrupted job res events → interruptible job res events.
Proof. intros (schedule & Hr). by exists schedule, quiet_job_reads. Qed.

Lemma searching_ok a job noticed sent rest res :
  thread_ok a (ThreadSearching job noticed sent rest res) →
  job_ok a job ∧ interruptible job res (sent ++ rest) ∧
  (job_cancelled (ac_shared a) job = true ∨ uninterrupted job res (sent ++ rest)).
Proof.
  destruct noticed; cbn; [tauto|]. intros [Hj Hu]. split_and!; [done|by apply interruptible_of_uninterrupted|by right].
Qed.

Lemma runtime_step_ok r r' :
  versions_counted → runtime_ok r → runtime_step runtime_error_display worker_may_panic r r' →
  runtime_ok r' ∧ follows_commits r r' ∨ stopping_ok r'.
Proof.
  intros Hver Hr Hstep. pose proof (ro_mid _ Hr) as Hm.
  assert (∀ i th, rt_threads r !! i = Some th → thread_ok (rt_actor r) th) as Hthread.
  { intros i th Hi. pose proof (rm_threads _ _ Hm) as Hf. rewrite Forall_lookup in Hf. eauto. }
  destruct Hstep as [r' Hrun Ht|i job jobs schedule events res Hi Hj Hc Hrun
    |i job jobs Hi Hj Hc|i job sent rest res schedule reads rest' res' Hi Hc Hsend Hrun
    |i job noticed sent event rest res Hi Hroom|i job noticed sent res Hi Hroom
    |i job noticed sent rest res Hpanic Hi Hroom|i job Hi Hroom|i th Hi Hbusy Hcl|i jobs Hi Hj
    |pool n Hphase Hroom|pool Hphase Hex].
  - by apply actor_turn_ok.
  - left. apply (worker_takes_ok i job); try done. intros Hok. split; [done|]. by exists schedule.
  - left. by apply (worker_takes_ok i job).
  - left. apply Hthread in Hi as Hok. destruct Hok as [Hok _].
    assert (worker_moved i (ThreadSearching job true sent rest' res') (sh_jobs (rt_shared r))
      (rt_results r) r (rt_set_thread i (ThreadSearching job true sent rest' res') r)) as Hw.
    { split; try done. apply eq_sym, set_jobs_same. }
    split; [|by eapply worker_moved_follows]. eapply worker_moved_ok; try done; try apply Hm.
    cbn. split_and!; try done. by exists schedule, reads.
  - left. apply Hthread in Hi as Hok. pose proof (searching_ok _ _ _ _ _ _ Hok) as (Hj & Hint & _).
    eapply worker_reports_ok; try done.
    + exists job, res, (sent ++ event :: rest). split_and!; try done. set_solver.
    + destruct noticed; cbn in *; by rewrite <- app_assoc.
  - left. apply Hthread in Hi as Hok. pose proof (searching_ok _ _ _ _ _ _ Hok) as (Hj & _ & Hres).
    eapply worker_reports_ok; try done. exists job. split_and!; try done.
    destruct Hres as [|Hu]; [by left|right]. left. by exists res, (sent ++ []).
  - left. apply Hthread in Hi as Hok. pose proof (searching_ok _ _ _ _ _ _ Hok) as (Hj & _ & _).
    eapply worker_reports_ok; try done. exists job. split_and!; try done. right. by right.
  - left. pose proof (Hthread _ _ Hi) as [Hj Hc]. eapply worker_reports_ok; try done.
    exists job. split_and!; try done. by left.
  - by rewrite (rm_open _ _ Hm) in Hcl.
  - pose proof (rm_jobs _ _ Hm) as Hf. rewrite Hj in Hf. by apply Forall_cons in Hf as [(job & ? & _) _].
  - by rewrite (rm_running _ _ Hm) in Hphase.
  - by rewrite (rm_running _ _ Hm) in Hphase.
Qed.

(** ** The outside *)

Lemma tokens_only_set tokens cleanup a id :
  (∀ t, t ≠ SubscriptionToken id → tokens !! t = sh_tokens (ac_shared a) !! t) →
  (is_Some (sh_tokens (ac_shared a) !! SubscriptionToken id) →
   rc_cancelled <$> tokens !! SubscriptionToken id = Some true) →
  tokens_only a (on_shared (λ sh, set_cleanup cleanup (set_tokens tokens sh)) a).
Proof.
  intros Hother Hself. split.
  - by exists tokens, cleanup.
  - intros t Ht. cbn. destruct (decide (t = SubscriptionToken id)) as [->|Hne]; [|by rewrite Hother].
    specialize (Hself Ht). destruct (tokens !! SubscriptionToken id); [eauto|done].
  - intros t. unfold is_cancelled. cbn. destruct (decide (t = SubscriptionToken id)) as [->|Hne]; [|by rewrite Hother].
    destruct (sh_tokens _ !! SubscriptionToken id) as [c|]; [|done]. specialize (Hself ltac:(eauto)).
    destruct (tokens !! SubscriptionToken id); cbn in *; congruence.
  - intros i j. unfold is_cancelled. cbn. by rewrite Hother.
Qed.

Lemma tokens_only_cancel id cleanup a :
  tokens_only a (on_shared (λ sh, let sh := token_cancel (SubscriptionToken id) sh in
                                  set_cleanup (sh_cleanup sh ++ cleanup) sh) a).
Proof.
  destruct (token_cancel_shared (SubscriptionToken id) (ac_shared a)) as (tokens & cl & Heq & Hother & Hself & _).
  unfold on_shared. cbv zeta. rewrite Heq.
  apply (tokens_only_set tokens (cl ++ cleanup) a id); [by intros; apply Hother|done].
Qed.

Lemma tokens_only_cancelled id a : tokens_only a (on_shared (token_cancel (SubscriptionToken id)) a).
Proof.
  destruct (token_cancel_shared (SubscriptionToken id) (ac_shared a)) as (tokens & cl & Heq & Hother & Hself & _).
  unfold on_shared. rewrite Heq. apply (tokens_only_set tokens cl a id); [by intros; apply Hother|done].
Qed.

Lemma tokens_only_request id a :
  tokens_only a (on_shared (λ sh, (token_request (SubscriptionToken id) sh).2) a).
Proof.
  unfold on_shared, token_request. destruct (sh_tokens (ac_shared a) !! SubscriptionToken id) as [c|] eqn:Hc; cbn [snd].
  - pose proof (tokens_only_set (<[SubscriptionToken id := {| rc_cancelled := true; rc_cleanup := rc_cleanup c |}]>
      (sh_tokens (ac_shared a))) (sh_cleanup (ac_shared a)) a id) as Ht. apply Ht.
    + intros t Hne. by rewrite lookup_insert_ne.
    + intros _. by rewrite lookup_insert_eq.
  - pose proof (cleanup_tokens_only (sh_cleanup (ac_shared a)) a) as Ht.
    by destruct a as [? ? ? ? ? ? ? ? ? ? ? []].
Qed.

(** A step of the outside changes only tokens of subscriptions and the inputs. *)
Record outside r r' : Prop := {
  os_actor : tokens_only (rt_actor r) (rt_actor r');
  os_results : rt_results r' = rt_results r;
  os_open : rt_results_closed r' = rt_results_closed r;
  os_config : rt_config r' = rt_config r;
  os_threads : rt_threads r' = rt_threads r;
  os_lineages : rt_lineages r' = rt_lineages r;
  os_phase : rt_phase r' = rt_phase r;
  os_commands : length (rt_commands r) <= command_capacity (rt_config r) →
    length (rt_commands r') <= command_capacity (rt_config r);
}.

Lemma tokens_only_refl a : tokens_only a a.
Proof.
  split; try done. exists (sh_tokens (ac_shared a)), (sh_cleanup (ac_shared a)).
  by destruct a as [? ? ? ? ? ? ? ? ? ? ? []].
Qed.

Lemma environment_step_outside r r' : environment_step r r' → outside r r'.
Proof.
  intros Hstep. pose proof (tokens_only_refl (rt_actor r)).
  destruct Hstep as [c Hc| |c Hc Hroom| |id|id|id Hid]; split; try done; cbn.
  - intros _. rewrite length_app. cbn. lia.
  - apply tokens_only_cancelled.
  - apply tokens_only_request.
  - apply (tokens_only_cancel id [id]).
Qed.

Lemma outside_ok r r' : outside r r' → runtime_ok r → runtime_ok r'.
Proof.
  intros [O1 O2 O3 O4 O5 O6 O7 O8] [Hm Hp].
  pose proof (tokens_only_mid [] r (rt_actor r') O1 Hm) as Hm'.
  pose proof (tk_shared _ _ O1) as (tokens & cleanup & Heq).
  assert (outstanding r' = outstanding (rt_set_actor (rt_actor r') r)) as Hout.
  { unfold outstanding. by rewrite O5, O2. }
  destruct Hm' as [H1 H2 H3 H4 H5 H6 H7 H8 H9 H10 H11 H12 H13 H14 H15]. cbn in *.
  split; [split|]; rewrite ?O2, ?O3, ?O4, ?O5, ?O7; try done; [by rewrite Hout|by apply O8|].
  intros Hne. rewrite Hout. revert Hne. unfold outstanding, rt_shared. cbn. rewrite Heq. exact Hp.
Qed.

Lemma outside_stopping r r' : outside r r' → stopping_ok r → stopping_ok r'.
Proof.
  intros [O1 O2 O3 O4 O5 O6 O7 O8] [Hc Hr Hjobs Hph]. pose proof (tk_shared _ _ O1) as (tokens & cleanup & Heq).
  assert (sh_jobs (rt_shared r') = sh_jobs (rt_shared r)) as Hj by (unfold rt_shared; by rewrite Heq).
  split; [|by rewrite O3| |].
  - pose proof (tk_keep _ _ O1) as Hk. rewrite Heq in Hk |- *. apply (closed_ok_ext (rt_actor r)); try done.
    apply (outputs_ok_ext (rt_actor r)); [done..|apply Hc].
  - rewrite Hj. eapply Forall_impl; [exact Hjobs|]. intros [job|]; [|done]. cbn. unfold job_cancelled.
    rewrite !orb_true_iff. intros [Hx|Hx]; [left|right]; by apply (tk_keep _ _ O1).
  - unfold exited_threads, queued_shutdowns in *. by rewrite O7, O5, Hj.
Qed.
End props.
