(* ===== verification/LiveRuntimeTheorems.v ===== *)
(** * Theorems about live routes

    A runtime follows the AMM runtime's commits with its subscribers' commands,
    cancellations and drops in any order, and its workers in any order: what a
    subscription shows as ready is the outcome of an uninterrupted search on the
    current state; the queues keep their bounds and publications their order;
    the runtime never stalls with a subscription waiting, and its shutdown
    ends. *)

From S2P Require Import Prelude Ordering AmmState Petgraph Graph GraphInv GraphProps GraphTheorems Config.
From S2P Require Import SearchTypes Enumerate EnumerateProps EnumerateTheorems Liquidity QuoteCache QuoteCacheProps Quote.
From S2P Require Import QuoteProps Heuristic HeuristicSearch HeuristicProps HeuristicTheorems Searcher SearchTheorems.
From S2P Require Import Streaming StreamingProps StreamingTheorems StreamDriver StreamDriverRun.
From S2P Require Import StreamDriverTheorems LiveState LiveGraph LiveGraphProps LiveGraphTheorems.
From S2P Require Import LiveView LiveRoutes LiveRoutesProps LiveRoutesInv LiveRuntime LiveRuntimeProps.

(** ** Shutting down *)

Section shutdown.
Context `{!AmmTypes} `{!AmmLive} `{!Petgraph Address EdgeData}.
Context (runtime_error_display : LiveRouteRuntimeError → string) (worker_may_panic : Prop).
Implicit Types (r : RouteRuntime) (th : RouteWorkerThread).

Abbreviation step := (runtime_step runtime_error_display worker_may_panic).

(** What is left to do: a worker that waits for its shutdown, a job in the queue,
    a shutdown to send. *)
Definition thread_weight th : nat :=
  match th with
  | ThreadIdle => 1
  | ThreadRefusing _ => 2
  | ThreadSearching _ noticed _ _ _ => if noticed then 2 else 3
  | ThreadExited => 0
  end.

Definition shutdown_work r : nat :=
  sum_list_with thread_weight (rt_threads r) + 3 * length (sh_jobs (rt_shared r)) +
  match rt_phase r with
  | PhaseStopping _ n => S (4 * n)
  | PhaseRunning | PhaseExited => 0
  end.

Lemma sum_list_insert {A} (f : A → nat) l i x y :
  l !! i = Some x → sum_list_with f (<[i := y]> l) + f x = sum_list_with f l + f y.
Proof.
  revert i. induction l as [|z l IH]; intros [|i]; csimpl; try done.
  - intros [= ->]. lia.
  - intros Hi. specialize (IH i Hi). lia.
Qed.

Abbreviation exited th := (if thread_exited th then 1 else 0).

Lemma exited_le (l : list RouteWorkerThread) : sum_list_with (λ th, exited th) l <= length l.
Proof. induction l as [|th l IH]; csimpl; [done|]. destruct (thread_exited th); lia. Qed.

Lemma exited_all (l : list RouteWorkerThread) :
  sum_list_with (λ th, exited th) l = length l ↔ forallb thread_exited l = true.
Proof.
  induction l as [|th l IH]; csimpl; [done|]. rewrite andb_true_iff, <- IH.
  pose proof (exited_le l). destruct (thread_exited th); split.
  - intros. split; [done|lia].
  - intros []. lia.
  - lia.
  - by intros [].
Qed.

(** A step while stopping. *)
Record stopping_step r r' : Prop := {
  sp_ok : stopping_ok r';
  sp_work : shutdown_work r' < shutdown_work r;
  sp_watches : sh_watches (rt_shared r') = sh_watches (rt_shared r);
}.

(** A worker's step while stopping. *)
Lemma stopping_thread i th0 th jobs r :
  stopping_ok r → rt_threads r !! i = Some th0 →
  Forall (cancelled_command (rt_shared r)) jobs →
  length jobs <= length (sh_jobs (rt_shared r)) →
  thread_weight th + 3 * length jobs < thread_weight th0 + 3 * length (sh_jobs (rt_shared r)) →
  (if thread_exited th then 1 else 0) +
    sum_list_with (λ c, match c with WorkerShutdown => 1 | WorkerSearch _ => 0 end) jobs =
  (if thread_exited th0 then 1 else 0) + queued_shutdowns r →
  (rt_phase r = PhaseExited → thread_exited th = true) →
  stopping_step r (rt_set_thread i th (on_rt_shared (set_jobs jobs) r)).
Proof.
  intros [H1 H2 H3 H4] Hi Hj Hlen Hw Hcount Hex.
  set (r' := rt_set_thread i th (on_rt_shared (set_jobs jobs) r)).
  pose proof (sum_list_insert thread_weight _ _ _ th Hi) as Hs1.
  pose proof (sum_list_insert (λ th, exited th) _ _ _ th Hi) as Hs2.
  assert (exited_threads r' + queued_shutdowns r' = exited_threads r + queued_shutdowns r) as Hacc.
  { unfold exited_threads, queued_shutdowns in *. unfold rt_shared in *. cbn in *. lia. }
  split.
  - split; [|done| |].
    + apply (closed_ok_ext (rt_actor r)); try done. apply (outputs_ok_ext (rt_actor r)); [done..|apply H1].
    + exact Hj.
    + change (rt_phase r') with (rt_phase r). destruct (rt_phase r) as [|pool n|] eqn:Hph; [done| |].
      * destruct H4 as (Hc & Hl & Ha). split_and!; [done| |].
        -- change (length jobs <= wp_capacity pool). lia.
        -- rewrite Hacc, Ha. cbn. by rewrite length_insert.
      * apply exited_all. apply exited_all in H4. cbn. rewrite length_insert. specialize (Hex eq_refl).
        cbn in Hs2. rewrite Hex, H4 in Hs2.
        pose proof (exited_le (<[i:=th]> (rt_threads r))) as Hle. rewrite length_insert in Hle. destruct (thread_exited th0); lia.
  - unfold shutdown_work. change (rt_phase r') with (rt_phase r). cbn in *.
    change (sh_jobs (rt_shared r')) with jobs. destruct (rt_phase r); lia.
  - done.
Qed.
Lemma rt_jobs_same r : on_rt_shared (set_jobs (sh_jobs (rt_shared r))) r = r.
Proof. by destruct r as [[? ? ? ? ? ? ? ? ? ? ? []] ? ? ? ? ? ? ? ? ? ? ?]. Qed.

Lemma stopping_not_exited i th r :
  stopping_ok r → rt_threads r !! i = Some th → thread_exited th = false → rt_phase r ≠ PhaseExited.
Proof.
  intros [_ _ _ H4] Hi Hth Hph. rewrite Hph in H4. rewrite forallb_forall in H4.
  apply list_elem_of_lookup_2, list_elem_of_In, H4 in Hi. congruence.
Qed.

Lemma stopping_thread_only i th0 th r :
  stopping_ok r → rt_threads r !! i = Some th0 → thread_exited th0 = false → thread_exited th = false →
  thread_weight th < thread_weight th0 → stopping_step r (rt_set_thread i th r).
Proof.
  intros Hs Hi He0 He Hw. pose proof (stopping_not_exited _ _ _ Hs Hi He0) as Hph.
  rewrite <- (rt_jobs_same r) at 2. eapply stopping_thread; [done|done|apply Hs|done|lia| |done].
  by rewrite He, He0.
Qed.

Lemma stopping_runtime_step r r' : stopping_ok r → step r r' → stopping_step r r'.
Proof.
  intros Hs Hstep. pose proof Hs as [H1 H2 H3 H4].
  destruct Hstep as [r' Hrun Ht|i job jobs schedule events res Hi Hj Hc Hrun
    |i job jobs Hi Hj Hc|i job sent rest res schedule reads rest' res' Hi Hc Hsend Hrun
    |i job noticed sent event rest res Hi [Hroom _]|i job noticed sent res Hi [Hroom _]
    |i job noticed sent rest res Hpanic Hi [Hroom _]|i job Hi [Hroom _]|i th Hi Hbusy Hcl|i jobs Hi Hj
    |pool n Hphase Hroom|pool Hphase Hex]; try congruence.
  - by rewrite Hrun in H4.
  - eapply stopping_thread; try done; unfold queued_shutdowns; rewrite ?Hj; cbn; try lia.
    + rewrite Hj in H3. by apply Forall_cons in H3 as [_ ?].
    + intros Hph. by destruct (stopping_not_exited _ _ _ Hs Hi eq_refl).
  - eapply stopping_thread; try done; unfold queued_shutdowns; rewrite ?Hj; cbn; try lia.
    + rewrite Hj in H3. by apply Forall_cons in H3 as [_ ?].
    + intros Hph. by destruct (stopping_not_exited _ _ _ Hs Hi eq_refl).
  - eapply stopping_thread_only; try done. cbn. lia.
  - eapply stopping_thread_only; try done; destruct th as [| |? [] ? ? ?|]; try done; cbn; lia.
  - eapply stopping_thread; try done; unfold queued_shutdowns; rewrite ?Hj; cbn; try lia.
    rewrite Hj in H3. by apply Forall_cons in H3 as [_ ?].
  - rewrite Hphase in H4. destruct H4 as (Hcap & Hl & Ha).
    set (r' := rt_set_phase (PhaseStopping pool n)
      (on_rt_shared (λ sh, set_jobs (sh_jobs sh ++ [WorkerShutdown]) sh) r)).
    assert (sh_jobs (rt_shared r') = sh_jobs (rt_shared r) ++ [WorkerShutdown]) as Hj by done.
    split; [split|..]; try done.
    + apply (closed_ok_ext (rt_actor r)); try done. apply (outputs_ok_ext (rt_actor r)); [done..|apply H1].
    + rewrite Hj. apply Forall_app. split; [exact H3|]. by apply Forall_singleton.
    + change (rt_phase r') with (PhaseStopping pool n). unfold queued_shutdowns in *.
      rewrite Hj, length_app, sum_list_with_app. cbn. split_and!; [done|lia|].
      unfold exited_threads in Ha. lia.
    + unfold shutdown_work. rewrite Hj, length_app, Hphase. cbn. lia.
  - set (r1 := if ac_shutdown_response (rt_actor r) then on_rt_shared (output (OutReply ReplyShutdown)) r else r).
    assert (sh_jobs (rt_shared r1) = sh_jobs (rt_shared r) ∧ sh_watches (rt_shared r1) = sh_watches (rt_shared r) ∧
      rt_threads r1 = rt_threads r ∧ rt_results_closed r1 = true ∧
      (∀ t, is_cancelled (rt_shared r1) t = is_cancelled (rt_shared r) t) ∧ closed_ok (rt_actor r1))
      as (Hj & Hw & Hth & Hcl & Hcan & Hclosed).
    { unfold r1. destruct (ac_shutdown_response _); [|done]. split_and!; try done.
      apply (closed_ok_ext (rt_actor r)); try done. by apply outputs_ok_reply, H1. }
    split; [split|..]; try done.
    + change (rt_shared (rt_set_phase PhaseExited r1)) with (rt_shared r1). rewrite Hj.
      eapply Forall_impl; [exact H3|]. intros [job|]; [|done]. cbn. unfold job_cancelled. by rewrite !Hcan.
    + cbn. by rewrite Hth.
    + unfold shutdown_work. change (rt_shared (rt_set_phase PhaseExited r1)) with (rt_shared r1).
      cbn. rewrite Hj, Hth, Hphase. lia.
Qed.

(** It can always go on. *)
Lemma busy_thread (l : list RouteWorkerThread) :
  forallb thread_exited l = false → ∃ i th, l !! i = Some th ∧ thread_exited th = false.
Proof.
  induction l as [|th l IH]; csimpl; [done|]. destruct (thread_exited th) eqn:Hth.
  - intros (i & x & Hi & Hx)%IH. by exists (S i), x.
  - intros _. by exists 0, th.
Qed.

Lemma stopping_progress r :
  stopping_ok r → rt_phase r ≠ PhaseExited → ∃ r', step r r'.
Proof.
  intros [H1 H2 H3 H4] Hne. destruct (rt_phase r) as [|pool n|] eqn:Hph; [done| |done].
  destruct H4 as (Hcap & Hl & Ha).
  destruct (forallb thread_exited (rt_threads r)) eqn:Hex.
  - assert (n = 0) as ->; [|eexists; by eapply step_exit].
    apply exited_all in Hex. unfold exited_threads in Ha. lia.
  - destruct (busy_thread _ Hex) as (i & th & Hi & Hth).
    destruct th as [|job|job noticed sent rest res|]; [|by eexists; eapply (step_unheard _ _ r i)..|done].
    destruct (sh_jobs (rt_shared r)) as [|[job|] jobs] eqn:Hj.
    + destruct n as [|n]; [|eexists; eapply step_send_shutdown; [done|]; rewrite Hj; cbn; lia].
      exfalso. unfold exited_threads, queued_shutdowns in Ha. rewrite Hj in Ha. cbn in Ha.
      assert (forallb thread_exited (rt_threads r) = true); [|congruence]. apply exited_all. lia.
    + apply Forall_cons in H3 as [H3 _]. eexists. by eapply step_refuse.
    + eexists. by eapply step_stop.
Qed.

Lemma stopping_outside r r' :
  stopping_ok r → environment_step r r' →
  stopping_ok r' ∧ shutdown_work r' = shutdown_work r ∧
  sh_watches (rt_shared r') = sh_watches (rt_shared r).
Proof.
  intros Hs Henv%environment_step_outside. split; [by eapply outside_stopping|].
  destruct Henv as [[(tokens & cleanup & Heq) _ _ _] _ _ _ Hth _ Hph _].
  unfold shutdown_work, rt_shared. by rewrite Heq, Hth, Hph.
Qed.
End shutdown.

(** ** Executions *)

Section executions.
Context `{!AmmTypes} `{!AmmLive} `{!Petgraph Address EdgeData} `{!PetgraphLaws Address EdgeData}.
Context (runtime_error_display : LiveRouteRuntimeError → string) (worker_may_panic : Prop).
Context (layout : Address → Address → U256).
Implicit Types (r : RouteRuntime) (a : LiveRouteActor) (s : AmmStateSnapshot).

(** Commits the AMM runtime sends one after the other. *)
Fixpoint commits_follow s (cs : list AmmStateCommit) : Prop :=
  match cs with
  | [] => True
  | c :: cs => commit_ok s c ∧ commits_follow (commit_snapshot c) cs
  end.

(** The commits on their way follow the current snapshot, and the version
    counters have room for the next one. *)
Definition fed r : Prop :=
  commits_follow (lv_snapshot (ac_view (rt_actor r))) (rt_commits r) ∧
  ∀ c cs, rt_commits r = c :: cs → version_room (ac_live (rt_actor r)) c (rt_lineages r).

(** One step of the runtime or of the outside. *)
Definition execution_step r r' : Prop :=
  (rt_phase r = PhaseRunning → fed r) ∧
  (runtime_step runtime_error_display worker_may_panic r r' ∨ environment_step r r').

(** The coordinator follows the AMM runtime. *)
Record following (o : GraphBuildOptions) a : Prop := {
  fo_snapshot : snapshot_wf (lv_snapshot (ac_view a));
  fo_live : live_ok layout (lv_snapshot (ac_view a)) (ac_live a);
  fo_view : LiveSearchView_new (lv_snapshot (ac_view a)) (ac_live a) = Ok (ac_view a);
  fo_options : live_options (ac_live a) = o;
}.

Abbreviation good := (runtime_ok worker_may_panic).

Lemma following_ext o a a' :
  ac_live a' = ac_live a → ac_view a' = ac_view a → following o a → following o a'.
Proof. intros Hl Hv []. split; by rewrite ?Hl, ?Hv. Qed.

Lemma following_commits o r r' :
  versions_counted → fed r → follows_commits r r' → following o (rt_actor r) → following o (rt_actor r').
Proof.
  intros Hver [Hchain Hroom] [(Hl & Hv & _)|(c & cs & Hc & _ & d & Happ & Hview)] Hf.
  { by eapply following_ext. }
  destruct Hf as [F1 F2 F3 F4]. rewrite Hc in Hchain. destruct Hchain as [Hok _].
  assert (live_step layout (lv_snapshot (ac_view (rt_actor r)), ac_live (rt_actor r))
    (commit_snapshot c, ac_live (rt_actor r'))) as Hstep.
  { eapply live_commit; [done|by eapply Hroom|exact Happ]. }
  destruct (live_step_ok layout _ _ _ _ Hver F1 F2 Hstep) as (G1 & G2 & G3 & _).
  assert (lv_snapshot (ac_view (rt_actor r')) = commit_snapshot c) as Hs.
  { apply LiveSearchView_new_Ok in Hview as [_ ->]. done. }
  split; rewrite ?Hs; try done. by rewrite G3.
Qed.

(** A runtime that was started, at any later moment. *)
Definition alive (o : GraphBuildOptions) r : Prop :=
  good r ∧ following o (rt_actor r) ∨ stopping_ok r.

Lemma alive_step o r r' : versions_counted → alive o r → execution_step r r' → alive o r'.
Proof.
  intros Hver [[Hok Hf]|Hs] [Hfed [Hstep|Hstep]].
  - destruct (runtime_step_ok _ _ _ _ Hver Hok Hstep) as [[Hok' Hc]|Hs]; [|by right].
    left. split; [done|]. eapply following_commits; try done. apply Hfed, (rm_running _ _ _ (ro_mid _ _ Hok)).
  - left. apply environment_step_outside in Hstep. split; [by eapply outside_ok|].
    destruct Hstep as [[(tokens & cleanup & Heq) _ _ _] _ _ _ _ _ _ _].
    eapply following_ext; [..|exact Hf]; by rewrite Heq.
  - right. eapply stopping_runtime_step; [exact Hs|exact Hstep].
  - right. by eapply outside_stopping; [apply environment_step_outside|].
Qed.

Lemma alive_steps o r r' : versions_counted → alive o r → rtc execution_step r r' → alive o r'.
Proof. intros Hver Ha Hsteps. induction Hsteps; [done|]. eauto using alive_step. Qed.

Lemma spawn_alive o cfg s in_runtime spawned lin r lin' :
  tokens_documented → snapshot_wf s →
  LiveRouteRuntime_spawn (Ok s) in_runtime spawned o cfg lin = Some (Ok r, lin') →
  alive o r.
Proof.
  intros Hdoc Hs. unfold LiveRouteRuntime_spawn.
  destruct (LiveRouteRuntimeConfig_validate cfg) as [c|e] eqn:Hval; cbn; [|done].
  assert (c = cfg) as ->.
  { unfold LiveRouteRuntimeConfig_validate in Hval. destruct (_ || _); [done|by injection Hval as <-]. }
  destruct in_runtime; cbn; [|done].
  destruct (from_snapshot s o lin) as [[[l|e] lin1]|] eqn:Hl; cbn; [|done..].
  destruct (LiveSearchView_new s l) as [v|e] eqn:Hv; cbn; [|done].
  unfold RouteWorkerPool_new. destruct (forallb spawned _); cbn; [|done]. intros [= <- <-].
  destruct (from_snapshot_inv layout _ _ _ _ _ _ Hdoc Hs Hl) as (Hok & Ho & _ & _).
  pose proof Hv as [Hm%matches_snapshot_spec Heq]%LiveSearchView_new_Ok.
  left. split; [split; [split|]|]; cbn; try done; try lia.
  - split; cbn; try done.
    + split; [constructor|]. intros id. cbn. split; [set_solver|by intros ?%not_elem_of_nil].
    + split; cbn; [apply numbered_nil|done|]. intros id. by rewrite lookup_empty.
    + rewrite Heq. unfold view_version. cbn. symmetry. apply Hm.
    + rewrite map_size_empty. lia.
    + intros id _. split; [intros sn; cbn; by rewrite lookup_empty|]. cbn. lia.
  - assert (omap thread_stamp (replicate (worker_threads cfg) ThreadIdle) = []) as Hnil.
    { induction (worker_threads cfg) as [|n IH]; csimpl; [done|exact IH]. }
    unfold outstanding, rt_shared. cbn. rewrite Hnil. split; [constructor|..].
    + intros id e act. cbn. by rewrite lookup_empty.
    + intros stamp e. by intros ?%not_elem_of_nil.
  - by apply Forall_replicate.
  - by rewrite length_replicate.
  - assert (lv_snapshot v = s) as Hvs by by subst v. split; cbn; by rewrite ?Hvs.
Qed.

(** Everything after a start. *)
Lemma execution_alive o cfg s in_runtime spawned lin r0 lin' r :
  tokens_documented → versions_counted → snapshot_wf s →
  LiveRouteRuntime_spawn (Ok s) in_runtime spawned o cfg lin = Some (Ok r0, lin') →
  rtc execution_step r0 r → alive o r.
Proof. intros Hdoc Hver Hs Hspawn Hsteps. eapply alive_steps; [done|by eapply spawn_alive|done]. Qed.

Lemma alive_running o r : alive o r → rt_phase r = PhaseRunning → good r ∧ following o (rt_actor r).
Proof. intros [?|[_ _ _ H4]] Hph; [done|]. by rewrite Hph in H4. Qed.

Lemma alive_ended o r : alive o r → rt_phase r ≠ PhaseRunning → stopping_ok r.
Proof. intros [[Hok _]|?] Hph; [|done]. by destruct Hph; apply (rm_running _ _ _ (ro_mid _ _ Hok)). Qed.
End executions.

(** ** Searches on the current view *)

Section searches.
Context `{!AmmTypes} `{!AmmLive} `{!Petgraph Address EdgeData} `{!PetgraphLaws Address EdgeData}.
Context (layout : Address → Address → U256) (o : GraphBuildOptions).
Context (Inv : AdapterCache → Prop) (sim : SimConfig → Hop → U256 → result SimError U256).
Implicit Types (a : LiveRouteActor) (s : AmmStateSnapshot) (spec : RouteSubscriptionSpec).

(** What a search of [spec] on the snapshot relies on: adapters that answer
    consistently from the snapshot's cache, distinct endpoints and an order of
    the hop groups of its heuristic. *)
Record searchable s spec : Prop := {
  sb_simulates : simulates (rs_registry (ss_registry s)) Inv sim;
  sb_cache : Inv (ss_cache s);
  sb_distinct : token_in (spec_request spec) ≠ token_out (spec_request spec);
  sb_order : target_first (request_heuristic (spec_request spec)) = true ∨
    ranks_branches (liquidity_pruning (rr_config (spec_request spec))) = false;
}.

(** The quote of a path in a snapshot. *)
Definition snapshot_quote s spec (p : RoutePath) : result string RouteQuote :=
  path_quote (rs_registry (ss_registry s)) sim (rr_sim_config (spec_request spec))
    (live_quote_context s) p (rr_amount_in (spec_request spec)).

Definition spec_route (g : AmmGraph) spec (p : RoutePath) : Prop :=
  valid_route g (token_in (spec_request spec)) (token_out (spec_request spec))
    (rr_config (spec_request spec)) false p.

(** A report that is right for the snapshot: its best is the quote of an
    admissible route, and no route beats it when the search was exhaustive. *)
Record report_right s (g : AmmGraph) spec (report : StreamingSearchReport) : Prop := {
  rr_best q : rep_best report = Some q →
    spec_route g spec (rq_path q) ∧ snapshot_quote s spec (rq_path q) = Ok q;
  rr_exhaustive :
    completion (spec_streaming spec) = CompletionExhaustive → stop_policy (spec_streaming spec) = None →
    max_candidates (rr_config (spec_request spec)) = None →
    rep_finality report = FinalityExhaustive ∧
    ∀ p q, spec_route g spec p → snapshot_quote s spec p = Ok q →
      ∃ best, rep_best report = Some best ∧ (rq_amount_out q <= rq_amount_out best)%Z;
}.

Lemma single_worker_fields c :
  completion (single_worker c) = completion c ∧ stop_policy (single_worker c) = stop_policy c ∧
  workers (parallel (single_worker c)) = 1.
Proof. by destruct c as [? ? ? ? ? ? ? ? []]. Qed.

Lemma view_stream_env a spec :
  state_refs_named → following layout o a → searchable (lv_snapshot (ac_view a)) spec →
  stream_env (view_searcher (ac_view a)) Inv sim (spec_request spec)
    (SourceSnapshot (ss_cache (lv_snapshot (ac_view a)))).
Proof.
  intros Hnamed [F1 F2 F3 F4] [S1 S2 S3 S4]. apply LiveSearchView_new_Ok in F3 as [_ Hv].
  split; try done.
  - rewrite Hv. by apply live_scope_inj.
  - rewrite Hv. apply F2.
Qed.

Lemma quiet_search a spec job schedule :
  state_refs_named → following layout o a → searchable (lv_snapshot (ac_view a)) spec →
  job_for (ac_view a) spec job →
  (∀ report events, run_route_search job schedule quiet_job_reads = Some (Ok report, events) →
     report_right (lv_snapshot (ac_view a)) (live_graph (ac_live a)) spec report) ∧
  is_Some (run_route_search job schedule quiet_job_reads).
Proof.
  intros Hnamed Hf Hs (Hjv & Hjr & Hjs).
  pose proof (view_stream_env a spec Hnamed Hf Hs) as Henv.
  pose proof (fo_view _ _ _ Hf) as [_ Hv]%LiveSearchView_new_Ok.
  destruct (single_worker_fields (spec_streaming spec)) as (Hcomp & Hpol & _).
  unfold run_route_search. rewrite Hjv, Hjr, Hjs. cbv zeta. cbn [as_snapshot_cache view_searcher].
  set (sr := view_searcher (ac_view a)) in *. set (config := single_worker (spec_streaming spec)) in *.
  destruct (stream_run_spec sr Inv sim (spec_request spec)
    (SourceSnapshot (ss_cache (lv_snapshot (ac_view a)))) config schedule
    (on_route_event quiet_job_reads) (Some (λ n, negb (jr_polls quiet_job_reads n)))
    (new_quote_cache sr) Henv (coherent_empty _ _ _)) as ([[res tr] qc] & -> & Hgood).
  split; [|by eexists]. intros report events. cbn. destruct res as [r|e]; [|done]. intros [= <- <-].
  destruct Hgood as [(_ & [_ Hq] & [Hbest _ _] & Hall & Hfin)|(e & tr' & He & _)]; [|done].
  cbn [fst snd] in *.
  assert (as_graph sr = live_graph (ac_live a) ∧ as_quote_context sr = live_quote_context (lv_snapshot (ac_view a)))
    as [Hg Hctx].
  { unfold sr. rewrite Hv. done. }
  assert (as_registry sr = rs_registry (ss_registry (lv_snapshot (ac_view a)))) as Hreg by done.
  unfold complete in Hall. rewrite Hg, Hctx, Hreg in Hq, Hall. split.
  - intros q Hb. rewrite Hbest in Hb. apply Hq. by apply head_ranking_elem.
  - intros Hc Hp Hm. assert (rep_finality (sr_report r) = FinalityExhaustive) as Hfinal.
    { rewrite Hfin; [unfold configured_finality; by rewrite Hcomp, Hc|]. split; try done. by rewrite Hpol. }
    split; [done|]. intros p q Hr Hpq. pose proof (Hall Hfinal Hm p q Hr Hpq) as Hin. rewrite Hbest.
    destruct (head (ranking (sr_quotes r))) as [best|] eqn:Hh.
    + exists best. split; [done|]. by eapply head_ranking_max.
    + apply head_ranking_None in Hh. rewrite Hh in Hin. set_solver.
Qed.
End searches.

(** ** The theorems *)

Section claims.
Context `{!AmmTypes} `{!AmmLive} `{!Petgraph Address EdgeData} `{!PetgraphLaws Address EdgeData}.
Context (layout : Address → Address → U256).
Implicit Types (r : RouteRuntime) (s : AmmStateSnapshot) (e : RouteEntry).

(** What the runtime relies on when it starts. *)
Record started_from display panics s o cfg r : Prop := {
  fr_documented : tokens_documented;
  fr_counted : versions_counted;
  fr_snapshot : snapshot_wf s;
  fr_reached : ∃ in_runtime spawned lin r0 lin',
    LiveRouteRuntime_spawn (Ok s) in_runtime spawned o cfg lin = Some (Ok r0, lin') ∧
    rtc (execution_step display panics) r0 r;
}.

Lemma started_alive display panics s o cfg r :
  started_from display panics s o cfg r → alive panics layout o r.
Proof.
  intros [Hdoc Hver Hs (inr & spawned & lin & r0 & lin' & Hspawn & Hsteps)].
  by eapply (execution_alive display panics layout o cfg s inr spawned lin r0 lin').
Qed.

Lemma report_right_tokens sim s g g' spec report :
  pool_tokens g = pool_tokens g' →
  report_right sim s g spec report → report_right sim s g' spec report.
Proof.
  intros Htok [H1 H2]. split.
  - intros q Hq. destruct (H1 q Hq) as [Hr Hp]. split; [|done]. by apply (valid_route_tokens layout g g').
  - intros Hc Hp Hm. destruct (H2 Hc Hp Hm) as [Hfin Hall]. split; [done|]. intros p q Hr.
    apply Hall. by apply (valid_route_tokens layout g' g).
Qed.

(** The state of a subscription and what it relies on. *)
Lemma running_entry display panics s o cfg r id e :
  started_from display panics s o cfg r → rt_phase r = PhaseRunning →
  ac_entries (rt_actor r) !! id = Some e →
  entry_ok (answers panics) hears (rt_actor r) id e ∧ following layout o (rt_actor r).
Proof.
  intros Hst Hrun He. destruct (alive_running _ _ _ _ (started_alive _ _ _ _ _ _ Hst) Hrun) as [Hok Hf].
  split; [|done]. by apply (ao_entries _ _ _ (rm_actor _ _ _ (ro_mid _ _ Hok))).
Qed.

(** C15: What a subscription shows as ready is right for the current state.
    However the runtime got here (commits, commands, cancellations, drops and
    worker steps in any order), a subscription's ready snapshot carries the
    current view, epoch and provenance, and its report is one of an
    uninterrupted search of the current request on the current state: its best
    is the quote of an admissible route of the graph a rebuild from the current
    snapshot gives, and when the search is exhaustive, without a stop policy or
    a candidate limit, no admissible route beats it. *)
Theorem live_routes_current display panics s0 o cfg r id e sn source best report Inv sim lin fresh lin' :
  started_from display panics s0 o cfg r → state_refs_named →
  rt_phase r = PhaseRunning →
  ac_entries (rt_actor r) !! id = Some e →
  sh_watches (rt_shared r) !! id = Some sn → sn_state sn = StateReady source best report →
  let view := ac_view (rt_actor r) in
  let s := lv_snapshot view in
  searchable Inv sim s (re_spec e) →
  from_snapshot s o lin = Some (Ok fresh, lin') →
  sn_view sn = view ∧ sn_epoch sn = re_epoch e ∧ source = RouteProvenance_from_view view ∧
  best = versioned source <$> rep_best report ∧
  report_right sim s (live_graph fresh) (re_spec e) report.
Proof.
  intros Hst Hnamed Hrun He Hsn Hstate view s Hsearch Hfresh.
  destruct (running_entry _ _ _ _ _ _ _ _ Hst Hrun He) as [[Hfit _] Hf].
  destruct (ef_watch _ _ _ _ _ Hfit) as (sn' & Hsn' & _ & Hep & Hv & Hshows).
  assert (sn' = sn) as -> by (unfold rt_shared in Hsn; congruence).
  rewrite Hstate in Hshows. destruct Hshows as (-> & _ & _ & _ & Hbest & job & Hjob & Hres).
  split_and!; [done|done|done|done|].
  destruct Hres as [(res & events & (schedule & Hrunr) & Heq)|[_ ?]]; [|done].
  destruct res as [rep|err]; [|done]. injection Heq as <-.
  destruct (quiet_search layout o Inv sim _ _ job schedule Hnamed Hf Hsearch Hjob) as [Hright _].
  specialize (Hright _ _ Hrunr).
  destruct (from_snapshot_inv layout _ _ _ _ _ _ (fr_documented _ _ _ _ _ _ Hst) (fo_snapshot _ _ _ Hf) Hfresh)
    as (Hokf & Hof & _).
  eapply report_right_tokens; [|exact Hright].
  apply map_eq. intros p. pose proof (fo_live _ _ _ Hf) as Hok.
  rewrite (lo_tokens _ _ _ Hok), (lo_tokens _ _ _ Hokf), Hof. by rewrite (fo_options _ _ _ Hf).
Qed.

(** C18: A running runtime keeps its bounds and shows nothing stale.  The job,
    result and command queues stay within their capacities and the subscriptions
    within their number; every subscription has at most one search that is
    queued, running or reporting, its active one; the coordinator's view is one
    of its live graph; and a subscription's channel shows the current view, its
    current epoch and the current provenance, even while it waits or searches. *)
Theorem live_routes_bounded display panics s0 o cfg r :
  started_from display panics s0 o cfg r → rt_phase r = PhaseRunning →
  let a := rt_actor r in
  length (sh_jobs (rt_shared r)) <= job_queue_capacity (rt_config r) ∧
  length (rt_results r) <= result_capacity (rt_config r) ∧
  length (rt_commands r) <= command_capacity (rt_config r) ∧
  size (ac_entries a) <= max_subscriptions (rt_config r) ∧
  NoDup (ac_pending a) ∧
  NoDup (outstanding r) ∧
  (∀ stamp e, stamp ∈ outstanding r → ac_entries a !! stamp_subscription stamp = Some e →
     active_stamp <$> re_active e = Some stamp) ∧
  LiveSearchView_new (lv_snapshot (ac_view a)) (ac_live a) = Ok (ac_view a) ∧
  ∀ id e, ac_entries a !! id = Some e →
    ∃ sn, sh_watches (rt_shared r) !! id = Some sn ∧ sn_view sn = ac_view a ∧
      sn_epoch sn = re_epoch e ∧
      state_source (sn_state sn) = Some (RouteProvenance_from_view (ac_view a)).
Proof.
  intros Hst Hrun a. destruct (alive_running _ _ _ _ (started_alive _ _ _ _ _ _ Hst) Hrun) as [[Hm _] Hf].
  pose proof (rm_actor _ _ _ Hm) as Ha. split_and!; [apply Hm|apply Hm|apply Hm|..].
  - rewrite <- (rm_max _ _ _ Hm). apply Ha.
  - apply (ao_queue _ _ _ Ha).
  - by destruct (rm_outstanding _ _ _ Hm).
  - intros stamp e Hs He. by eapply (ou_owned _ _ (rm_outstanding _ _ _ Hm)).
  - apply (fo_view _ _ _ Hf).
  - intros id e He. destruct (ao_entries _ _ _ Ha id e He) as [Hfit _].
    destruct (ef_watch _ _ _ _ _ Hfit) as (sn & Hsn & _ & Hep & Hv & Hshows).
    exists sn. split_and!; try done.
    destruct (sn_state sn); cbn in *; try done; destruct Hshows as [H1 _]; [by rewrite H1|..].
    + destruct H1 as [H1 _]. by rewrite H1.
    + by rewrite H1.
    + by rewrite H1.
Qed.

(** C24: Everything the runtime publishes is numbered in increasing order, until
    the counter saturates, and a subscription's channel holds the last snapshot
    published for it; while it runs and when it shuts down. *)
Theorem live_routes_publications display panics s0 o cfg r :
  started_from display panics s0 o cfg r →
  let outputs := omap out_sequence (sh_outputs (rt_shared r)) in
  ((ac_sequence (rt_actor r) < u64_max)%Z →
     StronglySorted Z.lt outputs ∧ Forall (λ n, 0 <= n < ac_sequence (rt_actor r))%Z outputs) ∧
  ∀ id, sh_watches (rt_shared r) !! id = latest id (sh_outputs (rt_shared r)).
Proof.
  intros Hst outputs.
  assert (outputs_ok (rt_actor r)) as [[_ H1] _ H2]; [|by split].
  destruct (started_alive _ _ _ _ _ _ Hst) as [[Hok _]|Hs].
  - apply (ao_outputs _ _ _ (rm_actor _ _ _ (ro_mid _ _ Hok))).
  - apply Hs.
Qed.

(** C17: A shutdown ends.  Once the coordinator has left its loop, no
    subscription is left and every channel shows a final state (cancelled, or
    closed, or the failure that ended the runtime), for good; every step of the
    runtime makes the work that is left smaller, which nothing outside makes
    larger; and until everything has ended some step is possible, so all worker
    threads are joined.  Then nothing moves any more. *)
Theorem live_routes_shutdown display panics s0 o cfg r :
  started_from display panics s0 o cfg r → rt_phase r ≠ PhaseRunning →
  ac_entries (rt_actor r) = ∅ ∧
  (∀ id sn, sh_watches (rt_shared r) !! id = Some sn →
     final_state (ac_terminal_failure (rt_actor r)) (sn_state sn)) ∧
  (∀ r', runtime_step display panics r r' →
     shutdown_work r' < shutdown_work r ∧ sh_watches (rt_shared r') = sh_watches (rt_shared r)) ∧
  (∀ r', environment_step r r' →
     shutdown_work r' = shutdown_work r ∧ sh_watches (rt_shared r') = sh_watches (rt_shared r)) ∧
  (rt_phase r = PhaseExited ∧ forallb thread_exited (rt_threads r) = true ∧
     (∀ r', ¬ runtime_step display panics r r') ∨
   rt_phase r ≠ PhaseExited ∧ ∃ r', runtime_step display panics r r').
Proof.
  intros Hst Hph. pose proof (alive_ended _ _ _ _ (started_alive _ _ _ _ _ _ Hst) Hph) as Hs.
  pose proof (st_closed _ Hs) as [_ Hent Hw _]. split_and!; [done|exact Hw|..].
  - intros r' [_ ? ?]%(stopping_runtime_step display panics); [done|exact Hs].
  - intros r' Hstep. destruct (stopping_outside _ _ Hs Hstep) as (_ & ? & ?). done.
  - destruct (rt_phase r) as [|pool n|] eqn:Hphase; [done|right|left].
    + split; [done|]. apply stopping_progress; [done|]. by rewrite Hphase.
    + pose proof (st_phase _ Hs) as Hex. rewrite Hphase in Hex. split_and!; [done..|].
      intros r' Hstep. pose proof (stopping_not_exited) as Hno.
      assert (∀ i th, rt_threads r !! i = Some th → thread_exited th = true) as Hall.
      { intros i th Hi. destruct (thread_exited th) eqn:Hth; [done|]. by destruct (Hno _ _ _ Hs Hi Hth). }
      destruct Hstep as [r' Hrun Ht|i ? ? ? ? ? Hi|i ? ? Hi|i ? ? ? ? ? ? ? ? Hi|i ? ? ? ? ? ? Hi
        |i ? ? ? ? Hi|i ? ? ? ? ? _ Hi|i ? Hi|i th Hi Hbusy|i ? Hi|? ? Hp|? Hp]; try congruence;
        apply Hall in Hi; try done. by destruct th.
Qed.
(** C23: A commit invalidates every subscription.  When it is accepted, the
    coordinator's view is that of the commit's snapshot, one version further;
    the subscriptions are the same, each marked for another search; the token of
    a search that was running is cancelled; the channel shows, for the new
    state, that a search is pending, with the last ready quote; and an idle
    subscription waits in the queue, unless its job numbers are used up (one with
    an active search is queued when that search reports, not here).  When the
    commit is refused, what the subscriptions show and ask for stays as it was. *)
Theorem live_commit_invalidates display panics s0 o cfg r c lin res a lin' :
  started_from display panics s0 o cfg r → rt_phase r = PhaseRunning →
  actor_apply_commit c (rt_actor r) lin = Some (res, a, lin') →
  match res with
  | Err _ =>
      ac_entries a = ac_entries (rt_actor r) ∧ ac_view a = ac_view (rt_actor r) ∧
      ac_shared a = ac_shared (rt_actor r)
  | Ok _ =>
      LiveSearchView_new (commit_snapshot c) (ac_live a) = Ok (ac_view a) ∧
      view_version (ac_view a) = (view_version (ac_view (rt_actor r)) + 1)%Z ∧
      (∀ id, ac_entries a !! id =
         entry_marked_dirty TriggerAmmCommit <$> ac_entries (rt_actor r) !! id) ∧
      ∀ id e, ac_entries (rt_actor r) !! id = Some e →
        (∀ act, re_active e = Some act → is_cancelled (ac_shared a) (active_cancellation act) = true) ∧
        (re_active e = None → id ∈ ac_pending a ∨ (u64_max <= re_next_job e)%Z) ∧
        ∃ sn, sh_watches (ac_shared a) !! id = Some sn ∧ sn_view sn = ac_view a ∧
          sn_epoch sn = re_epoch e ∧
          sn_state sn = StatePending (RouteProvenance_from_view (ac_view a)) (re_last_ready e)
  end.
Proof.
  intros Hst Hrun Happ. pose proof (fr_counted _ _ _ _ _ _ Hst) as Hver.
  destruct (alive_running _ _ _ _ (started_alive _ _ _ _ _ _ Hst) Hrun) as [[Hm _] _].
  pose proof (actor_apply_commit_handled _ _ _ c (rt_actor r) lin res a lin' Hver (rm_actor _ _ _ Hm)
    (rm_outstanding _ _ _ Hm) Happ) as Hcases.
  destruct res as [[]|err]; [|by destruct Hcases as [l ->]].
  destruct Hcases as ([Ha _ _ _ _ _ _ _ _] & d & Hd & Hview & Hent). split_and!; [done| |done|].
  - apply apply_commit_version, Hver in Hd. rewrite (ao_version _ _ _ (rm_actor _ _ _ Hm)), <- Hd.
    by apply LiveSearchView_new_Ok in Hview as [_ ->].
  - intros id e He. specialize (Hent id). rewrite He in Hent. cbn in Hent.
    destruct (ao_entries _ _ _ Ha id _ Hent) as [[_ Hact (sn & Hsn & _ & Hep & Hv & Hshows)] Hq].
    split_and!.
    + intros act Hac. by rewrite (ak_cancelled _ _ _ _ _ (Hact act Hac)).
    + intros Hac. destruct (Hq eq_refl Hac) as [Hin|]; [left|by right]. by apply (ao_queue _ _ _ Ha).
    + exists sn. split_and!; [done..|]. destruct (sn_state sn); cbn in Hshows; try done.
      * by destruct Hshows as (-> & -> & _).
      * by destruct Hshows as (_ & _ & ? & _).
      * by destruct Hshows as (_ & ? & _).
      * by destruct Hshows as (_ & ? & _).
Qed.

(** ** No stall *)

Lemma apply_commit_returns o r c cs :
  versions_counted → fed r → following layout o (rt_actor r) → rt_commits r = c :: cs →
  is_Some (apply_commit c (ac_live (rt_actor r)) (rt_lineages r)).
Proof.
  intros Hver [Hchain Hroom] [F1 F2 F3 F4] Hc. specialize (Hroom c cs Hc). rewrite Hc in Hchain.
  pose proof (apply_commit_cases layout _ _ _ _ Hver F1 (proj1 Hchain) F2 Hroom) as Hcases. cbv zeta in Hcases.
  repeat case_decide; try by rewrite Hcases; eauto.
  destruct Hcases as (d & l & lin & -> & _). eauto.
Qed.

Lemma turn_commit_returns display o r c cs r1 :
  versions_counted → fed r → following layout o (rt_actor r) → rt_commits r = c :: cs →
  rt_actor r1 = rt_actor r → rt_lineages r1 = rt_lineages r → is_Some (turn_commit display c r1).
Proof.
  intros Hver Hfed Hf Hc Ha Hl. destruct (apply_commit_returns o r c cs Hver Hfed Hf Hc) as [[res lin] Happ].
  unfold turn_commit, actor_apply_commit. rewrite Ha, Hl, Happ. cbn.
  destruct res as [[d l]|e]; cbn; [|by eexists]. destruct (LiveSearchView_new _ l); cbn; by eexists.
Qed.

Lemma actor_turn_returns display o r :
  versions_counted → fed r → following layout o (rt_actor r) →
  nothing_to_take r ∨ is_Some (actor_turn display r).
Proof.
  intros Hver Hfed Hf. unfold actor_turn.
  pose proof (next_input_cases (MAX_COMMIT_BURST <=? rt_commit_streak r)%Z r) as Hnext.
  destruct (next_input _ r) as [[input r1]|]; [right|by left]. cbn [mbind option_bind].
  assert (is_Some (handle_input display input r1)) as [[ends r2] ->]; [|cbn; by destruct ends; eexists].
  destruct Hnext as [c cs Hc|Hc Hcl|c cs Hc|Hc Hcl|id ids Hid|m ms Hr|Hr Hex]; cbn [handle_input].
  - destruct (turn_commit_returns display o r c cs (rt_set_commits cs (rt_commits_closed r) r) Hver Hfed Hf Hc)
      as [[ends r2] ->]; [done..|]. cbn. by eexists.
  - by eexists.
  - destruct (handle_command c _). by eexists.
  - by eexists.
  - by eexists.
  - destruct (rt_commits (rt_set_results ms (rt_results_closed r) r)) as [|c cs] eqn:Hc; cbn [mbind option_bind].
    { by eexists. }
    destruct (turn_commit_returns display o r c cs (rt_set_commits cs
      (rt_commits_closed (rt_set_results ms (rt_results_closed r) r)) (rt_set_results ms (rt_results_closed r) r))
      Hver Hfed Hf Hc) as [[ends r2] ->]; [done..|]. cbn. destruct ends; by eexists.
  - by eexists.
Qed.

(** A worker that is busy can go on when its reports are taken. *)
Lemma busy_steps display panics i th job r :
  rt_threads r !! i = Some th → thread_job th = Some job → results_room r →
  ∃ r', runtime_step display panics r r'.
Proof.
  intros Hi Hjob Hroom. destruct th as [|job'|job' noticed sent [|event rest] res|]; try done; eexists.
  - by eapply step_refused.
  - by eapply step_complete.
  - by eapply step_event.
Qed.

(** A waiting worker can take the next job. *)
Lemma take_steps display panics o Inv sim i job jobs r :
  state_refs_named → runtime_ok panics r → following layout o (rt_actor r) →
  (∀ id e, ac_entries (rt_actor r) !! id = Some e →
     searchable Inv sim (lv_snapshot (ac_view (rt_actor r))) (re_spec e)) →
  rt_threads r !! i = Some ThreadIdle → sh_jobs (rt_shared r) = WorkerSearch job :: jobs →
  ∃ r', runtime_step display panics r r'.
Proof.
  intros Hnamed [Hm _] Hf Hsearch Hi Hj.
  destruct (job_cancelled (rt_shared r) job) eqn:Hc; [eexists; by eapply step_refuse|].
  pose proof (rm_jobs _ _ _ Hm) as Hjobs. rewrite Hj in Hjobs.
  apply Forall_cons in Hjobs as [(job' & [= <-] & Hok) _].
  assert (job_stamp job ∈ outstanding r) as Hout by (unfold outstanding; rewrite Hj; csimpl; by left).
  unfold job_cancelled in Hc. rewrite (jo_subscription _ _ Hok), (jo_token _ _ Hok) in Hc.
  apply orb_false_iff in Hc as [Hc1 Hc2].
  destruct (ac_entries (rt_actor r) !! stamp_subscription (job_stamp job)) as [e|] eqn:He.
  2: { destruct (ao_gone _ _ _ (rm_actor _ _ _ Hm) _ He) as [_ Hgone].
       specialize (Hgone (jo_id _ _ Hok)). unfold rt_shared in Hc1. congruence. }
  pose proof (ou_owned _ _ (rm_outstanding _ _ _ Hm) _ e Hout He) as Hact.
  destruct (re_active e) as [act|] eqn:Hae; [|done]. injection Hact as Hact.
  destruct (ao_entries _ _ _ (rm_actor _ _ _ Hm) _ e He) as [[Hb Ha _] _].
  destruct (Ha act Hae) as [Hbase _ Hfresh Hk]. rewrite (ab_token _ _ _ _ Hbase), Hact in Hk.
  unfold rt_shared in Hc2. rewrite Hc2 in Hk. symmetry in Hk. apply Hfresh in Hk. rewrite Hact in Hk.
  destruct (quiet_search layout o Inv sim _ _ job [] Hnamed Hf (Hsearch _ _ He)
    (job_ok_current _ _ _ Hok He Hk)) as [_ [[res events] Hrun]]. eexists. eapply step_take; try done.
  unfold job_cancelled. rewrite (jo_subscription _ _ Hok), (jo_token _ _ Hok).
  apply orb_false_iff. split; [exact Hc1|exact Hc2].
Qed.

(** C16: The runtime never stalls.  When no step of it is possible, every input
    is consumed and no search is queued, running or reporting; and every
    subscription shows a result or a failure for the current state and its
    current request, unless its token was cancelled without its removal being
    requested, or its job numbers are used up. *)
Theorem live_routes_never_stall display panics s0 o cfg r Inv sim :
  started_from display panics s0 o cfg r → state_refs_named →
  rt_phase r = PhaseRunning → fed r →
  (∀ id e, ac_entries (rt_actor r) !! id = Some e →
     searchable Inv sim (lv_snapshot (ac_view (rt_actor r))) (re_spec e)) →
  (∀ r', ¬ runtime_step display panics r r') →
  let source := RouteProvenance_from_view (ac_view (rt_actor r)) in
  nothing_to_take r ∧ sh_jobs (rt_shared r) = [] ∧ Forall (λ th, th = ThreadIdle) (rt_threads r) ∧
  ∀ id e, ac_entries (rt_actor r) !! id = Some e →
    ∃ sn, sh_watches (rt_shared r) !! id = Some sn ∧
      sn_view sn = ac_view (rt_actor r) ∧ sn_epoch sn = re_epoch e ∧
      ((∃ best report, sn_state sn = StateReady source best report) ∨
       (∃ failure, sn_state sn = StateFailed source failure) ∨
       is_cancelled (rt_shared r) (SubscriptionToken id) = true ∨ (u64_max <= re_next_job e)%Z).
Proof.
  intros Hst Hnamed Hrun Hfed Hsearch Hstuck source.
  destruct (alive_running _ _ _ _ (started_alive _ _ _ _ _ _ Hst) Hrun) as [Hok Hf].
  pose proof (ro_mid _ _ Hok) as Hm. pose proof (config_positive _ _ _ Hm) as Hpos.
  destruct (actor_turn_returns display o r (fr_counted _ _ _ _ _ _ Hst) Hfed Hf) as [Hnone|[r' Ht]].
  2: { destruct (Hstuck r'). by eapply step_actor. }
  pose proof Hnone as (Hn1 & Hn2 & Hn3 & Hn4 & Hn5 & Hn6 & Hn7).
  assert (results_room r) as Hroom.
  { split; [apply (rm_open _ _ _ Hm)|]. rewrite Hn6. cbn. lia. }
  assert (Forall (λ th, th = ThreadIdle) (rt_threads r)) as Hidle.
  { apply Forall_lookup. intros i th Hi. pose proof (rm_threads _ _ _ Hm) as Hth.
    rewrite Forall_lookup in Hth. specialize (Hth i th Hi).
    destruct th as [|job|job noticed sent rest res|]; try done;
      by destruct (busy_steps display panics i _ job r Hi eq_refl Hroom) as [r' []%Hstuck]. }
  assert (sh_jobs (rt_shared r) = []) as Hjobs.
  { destruct (sh_jobs (rt_shared r)) as [|c jobs] eqn:Hj; [done|]. exfalso.
    pose proof (rm_jobs _ _ _ Hm) as Hq. rewrite Hj in Hq. apply Forall_cons in Hq as [(job & -> & _) _].
    destruct (rt_threads r) as [|th ths] eqn:Hth; [done|].
    apply Forall_cons in Hidle as [-> _].
    destruct (take_steps display panics o Inv sim 0 job jobs r) as [r' []%Hstuck]; try done. by rewrite Hth. }
  assert (outstanding r = []) as Hout.
  { unfold outstanding. rewrite Hjobs, Hn6. cbn. rewrite app_nil_r.
    clear Hn7. induction Hidle as [|th ths -> _ IH]; csimpl; [done|exact IH]. }
  split_and!; try done. intros id e He.
  destruct (ao_entries _ _ _ (rm_actor _ _ _ Hm) id e He) as [Hfit Hq].
  destruct (ef_watch _ _ _ _ _ Hfit) as (sn & Hsn & _ & Hep & Hv & Hshows). exists sn. split_and!; try done.
  assert (re_active e = None) as Hact.
  { destruct (re_active e) as [act|] eqn:Ha; [|done].
    pose proof (ou_active _ _ (rm_outstanding _ _ _ Hm) id e act He Ha) as Hin. rewrite Hout in Hin.
    by apply not_elem_of_nil in Hin. }
  assert (re_dirty e = true → (u64_max <= re_next_job e)%Z) as Hdirty.
  { intros Hd. destruct (Hq Hd Hact) as [Hin|]; [exfalso|done].
    apply (ao_queue _ _ _ (rm_actor _ _ _ Hm)) in Hin.
    apply (ro_pending _ _ Hok); [|done]. intros Hnil. rewrite Hnil in Hin. by apply not_elem_of_nil in Hin. }
  unfold rt_shared. destruct (sn_state sn) as [src prev|stamp prov prev|src best report|src failure| | |];
    cbn in Hshows; try done.
  - destruct Hshows as (_ & _ & [Hd|Hc]); auto.
  - destruct Hshows as (_ & _ & _ & [Hd|Hc] & _); [|by auto]. by rewrite Hact in Hd.
  - destruct Hshows as (-> & _). left. eauto.
  - destruct Hshows as (-> & _). right. left. eauto.
Qed.
End claims.
