(* ===== verification/Concrete.v ===== *)
(** * A concrete environment

    The parameters of the development instantiated with executable ones: a
    graph library that satisfies [PetgraphLaws], and small adapter types with a
    registry of four pools.  Nothing here models the program; it shows that the
    hypotheses of the theorems can hold and lets the definitions be run. *)

From stdpp Require Import pretty.
From S2P Require Import Prelude AmmState Petgraph Graph Config SearchTypes QuoteCache Quote.
From S2P Require Import QuoteProps Searcher.

(** ** A graph library: nodes and edges numbered in order of creation *)

Record IndexedGraph (NW EW : Type) := {
  ig_nodes : gmap nat NW;
  ig_edges : gmap nat (nat * nat * EW);
  ig_next_node : nat;
  ig_next_edge : nat;
}.
Arguments Build_IndexedGraph {NW EW}.
Arguments ig_nodes {NW EW}.
Arguments ig_edges {NW EW}.
Arguments ig_next_node {NW EW}.
Arguments ig_next_edge {NW EW}.

Definition edge_from {EW} (n : nat) (e : option (nat * nat * EW)) : bool :=
  match e with Some (a, _, _) => bool_decide (a = n) | None => false end.
Definition edge_to {EW} (n : nat) (e : option (nat * nat * EW)) : bool :=
  match e with Some (_, b, _) => bool_decide (b = n) | None => false end.

Section indexed.
Context {NW EW : Type}.
Implicit Types g : IndexedGraph NW EW.

(** The edge indices, most recent first. *)
Definition ig_recent g : list nat := reverse (seq 0 (ig_next_edge g)).

#[export] Instance IndexedGraph_petgraph : Petgraph NW EW := {|
  DiGraph := IndexedGraph NW EW;
  pg_empty := Build_IndexedGraph ∅ ∅ 0 0;
  pg_node_weight g n := ig_nodes g !! n;
  pg_edge g e := ig_edges g !! e;
  pg_outgoing g n := filter (λ e, edge_from n (ig_edges g !! e) = true) (ig_recent g);
  pg_incoming g n := filter (λ e, edge_to n (ig_edges g !! e) = true) (ig_recent g);
  pg_node_indices g := (map_to_list (ig_nodes g)).*1;
  pg_edge_indices g := (map_to_list (ig_edges g)).*1;
  pg_add_node w g :=
    (ig_next_node g,
     Build_IndexedGraph (<[ig_next_node g := w]> (ig_nodes g)) (ig_edges g)
       (S (ig_next_node g)) (ig_next_edge g));
  pg_add_edge a b w g :=
    (ig_next_edge g,
     Build_IndexedGraph (ig_nodes g) (<[ig_next_edge g := (a, b, w)]> (ig_edges g))
       (ig_next_node g) (S (ig_next_edge g)));
  pg_remove_edge e g :=
    Build_IndexedGraph (ig_nodes g) (delete e (ig_edges g)) (ig_next_node g) (ig_next_edge g);
  pg_remove_node n g :=
    Build_IndexedGraph (delete n (ig_nodes g))
      (filter (λ e, negb (edge_from n (Some e.2)) && negb (edge_to n (Some e.2)) = true)
         (ig_edges g)) (ig_next_node g) (ig_next_edge g);
|}.

Record ig_ok g : Prop := {
  ig_node_bound n : is_Some (ig_nodes g !! n) → n < ig_next_node g;
  ig_edge_bound e : is_Some (ig_edges g !! e) → e < ig_next_edge g;
  ig_edge_live e a b w : ig_edges g !! e = Some (a, b, w) →
    is_Some (ig_nodes g !! a) ∧ is_Some (ig_nodes g !! b);
}.

Lemma elem_of_ig_recent g e : e ∈ ig_recent g ↔ e < ig_next_edge g.
Proof. unfold ig_recent. rewrite elem_of_reverse, elem_of_seq. lia. Qed.

Lemma NoDup_ig_recent g : NoDup (ig_recent g).
Proof. unfold ig_recent. rewrite reverse_Permutation. apply NoDup_seq. Qed.

Lemma ig_edge_kept n (m : gmap nat (nat * nat * EW)) e :
  filter (λ e, negb (edge_from n (Some e.2)) && negb (edge_to n (Some e.2)) = true) m !! e =
  match m !! e with
  | Some (a, b, w) => if decide (a = n ∨ b = n) then None else Some (a, b, w)
  | None => None
  end.
Proof.
  rewrite map_lookup_filter. destruct (m !! e) as [[[a b] w]|]; simpl; [|done].
  repeat case_bool_decide; simplify_option_eq; naive_solver.
Qed.

Lemma ig_ok_empty : ig_ok pg_empty.
Proof. constructor; simpl; intros *; rewrite lookup_empty; [by intros []..|done]. Qed.

Lemma ig_ok_add_node g w : ig_ok g → ig_ok (pg_add_node w g).2.
Proof.
  intros [H1 H2 H3]. constructor; simpl.
  - intros n. rewrite lookup_insert_is_Some'. intros [<-|Hn%H1]; lia.
  - done.
  - intros e a b w' He. apply H3 in He as [??]. rewrite !lookup_insert_is_Some'. auto.
Qed.

Lemma ig_ok_add_edge g a b w :
  ig_ok g → is_Some (pg_node_weight g a) → is_Some (pg_node_weight g b) →
  ig_ok (pg_add_edge a b w g).2.
Proof.
  intros [H1 H2 H3] Ha Hb. constructor; simpl.
  - done.
  - intros e. rewrite lookup_insert_is_Some'. intros [<-|He%H2]; lia.
  - intros e a' b' w'. rewrite lookup_insert_Some. intros [[_ [= <- <- _]]|[_ He%H3]]; done.
Qed.

Lemma ig_ok_remove_edge g e : ig_ok g → ig_ok (pg_remove_edge e g).
Proof.
  intros [H1 H2 H3]. constructor; simpl; [done|..].
  - intros e'. rewrite lookup_delete_is_Some. naive_solver.
  - intros e' a b w. rewrite lookup_delete_Some. naive_solver.
Qed.

Lemma ig_ok_remove_node g n : ig_ok g → ig_ok (pg_remove_node n g).
Proof.
  intros [H1 H2 H3]. constructor;
    cbn [pg_remove_node pg_outgoing pg_edge pg_node_weight IndexedGraph_petgraph ig_edges ig_nodes
    ig_next_node ig_next_edge].
  - intros m. rewrite lookup_delete_is_Some. naive_solver.
  - intros e. rewrite ig_edge_kept. intros [x Hx]. apply H2.
    destruct (ig_edges g !! e); [by eexists|done].
  - intros e a b w. rewrite ig_edge_kept.
    destruct (ig_edges g !! e) as [[[a' b'] w']|] eqn:He; [|done].
    case_decide as Hn; [done|]. intros [= -> -> ->]. apply H3 in He as [??].
    rewrite !lookup_delete_is_Some. naive_solver.
Qed.

Lemma filter_edge_lookup g (P : option (nat * nat * EW) → bool) e :
  ig_ok g → P None = false →
  e ∈ filter (λ e, P (ig_edges g !! e) = true) (ig_recent g) ↔ P (ig_edges g !! e) = true.
Proof.
  intros Hok HP. rewrite list_elem_of_filter, elem_of_ig_recent. split; [tauto|].
  intros He. split; [done|]. apply (ig_edge_bound _ Hok).
  destruct (ig_edges g !! e) eqn:Hl; [by eexists|congruence].
Qed.

(** Removing edges filters every list of edges. *)
Lemma filter_edges_removed g (m : gmap nat (nat * nat * EW)) (P : option (nat * nat * EW) → bool) :
  P None = false →
  (∀ e, m !! e = ig_edges g !! e ∨ m !! e = None) →
  filter (λ e, P (m !! e) = true) (ig_recent g) =
  filter (λ e, is_Some (m !! e)) (filter (λ e, P (ig_edges g !! e) = true) (ig_recent g)).
Proof.
  intros HP Hm. rewrite list_filter_filter. apply filter_ext_in. intros e _.
  destruct (Hm e) as [He|He]; rewrite He.
  - destruct (ig_edges g !! e) eqn:Hl; [naive_solver eauto|]. rewrite HP. naive_solver.
  - rewrite HP. split; [done|]. by intros [[]].
Qed.

#[export] Instance IndexedGraph_laws : PetgraphLaws NW EW.
Proof.
  refine {| pg_ok := (ig_ok : DiGraph NW EW → Prop) |}.
  - apply ig_ok_empty.
  - apply ig_ok_add_node.
  - apply ig_ok_add_edge.
  - apply ig_ok_remove_edge.
  - apply ig_ok_remove_node.
  - intros n. apply lookup_empty.
  - intros e. apply lookup_empty.
  - intros g e a b w Hok. apply (ig_edge_live _ Hok).
  - intros g n e Hok. simpl. rewrite (filter_edge_lookup g (edge_from n)) by done.
    destruct (ig_edges g !! e) as [[[a b] w]|]; simpl; [|naive_solver].
    rewrite bool_decide_eq_true. naive_solver.
  - intros g n e Hok. simpl. rewrite (filter_edge_lookup g (edge_to n)) by done.
    destruct (ig_edges g !! e) as [[[a b] w]|]; simpl; [|naive_solver].
    rewrite bool_decide_eq_true. naive_solver.
  - intros g n _. apply NoDup_filter, NoDup_ig_recent.
  - intros g n _. apply NoDup_filter, NoDup_ig_recent.
  - intros g n _. simpl. rewrite list_elem_of_fmap. split.
    + intros ([n' w] & -> & Hin). apply elem_of_map_to_list in Hin. by eexists.
    + intros [w Hw]. exists (n, w). by rewrite elem_of_map_to_list.
  - intros g _. apply NoDup_fst_map_to_list.
  - intros g e _. simpl. rewrite list_elem_of_fmap. split.
    + intros ([e' w] & -> & Hin). apply elem_of_map_to_list in Hin. by eexists.
    + intros [w Hw]. exists (e, w). by rewrite elem_of_map_to_list.
  - intros g _. apply NoDup_fst_map_to_list.
  - intros g w Hok. simpl. destruct (ig_nodes g !! ig_next_node g) eqn:Hn; [|done].
    assert (ig_next_node g < ig_next_node g); [apply (ig_node_bound _ Hok); by eexists|lia].
  - intros g w n _. simpl. case_decide; subst; [apply lookup_insert_eq|by apply lookup_insert_ne].
  - done.
  - done.
  - intros g a b w Hok _ _. simpl. destruct (ig_edges g !! ig_next_edge g) eqn:Hn; [|done].
    assert (ig_next_edge g < ig_next_edge g); [apply (ig_edge_bound _ Hok); by eexists|lia].
  - done.
  - intros g a b w e _ _ _. simpl.
    case_decide; subst; [apply lookup_insert_eq|by apply lookup_insert_ne].
  - intros g a b w n Hok _ _. simpl. unfold ig_recent at 1. cbn [ig_next_edge].
    rewrite seq_S, reverse_app. simpl.
    assert (filter (λ e, edge_from n (<[ig_next_edge g:=(a, b, w)]> (ig_edges g) !! e) = true)
        (ig_recent g) = filter (λ e, edge_from n (ig_edges g !! e) = true) (ig_recent g)) as Hrest.
    { apply filter_ext_in. intros e He%elem_of_ig_recent. by rewrite lookup_insert_ne by lia. }
    rewrite filter_cons, lookup_insert_eq. simpl. fold (ig_recent g). rewrite Hrest.
    repeat case_bool_decide; repeat case_decide; congruence.
  - done.
  - intros g e e' _. simpl. case_decide; subst; [apply lookup_delete_eq|by apply lookup_delete_ne].
  - intros g e n Hok. simpl. rewrite (filter_edges_removed g _ (edge_from n)); [|done|].
    + apply filter_ext_in. intros e' He'. apply (filter_edge_lookup g (edge_from n)) in He'; [|done..].
      destruct (decide (e' = e)) as [->|Hne].
      * rewrite lookup_delete_eq. split; [by intros []|done].
      * rewrite lookup_delete_ne by done. split; [done|]. intros _.
        destruct (ig_edges g !! e'); [by eexists|done].
    + intros e'. destruct (decide (e' = e)) as [->|Hne].
      * right. apply lookup_delete_eq.
      * left. by apply lookup_delete_ne.
  - intros g n m _. simpl. case_decide; subst; [apply lookup_delete_eq|by apply lookup_delete_ne].
  - intros g n e _. apply ig_edge_kept.
  - intros g n m Hok. cbn [pg_remove_node pg_outgoing pg_edge pg_node_weight IndexedGraph_petgraph ig_edges ig_nodes
    ig_next_node ig_next_edge].
    apply (filter_edges_removed g _ (edge_from m)); [done|].
    intros e. rewrite ig_edge_kept. destruct (ig_edges g !! e) as [[[a b] w]|]; [|by left].
    case_decide; [by right|by left].
Qed.
End indexed.

(** ** Adapter types: pools, configurations and caches are numbers *)

#[export] Instance demo_types : AmmTypes := {|
  PoolKey := Z;
  PoolKey_eq_dec := _;
  PoolKey_countable := _;
  pool_protocol := λ _, ProtocolId.UniswapV2;
  pool_address := λ k, Some k;
  pool_debug := pretty;
  address_debug := pretty;
  protocol_debug := λ _, "UniswapV2";
  AdapterCache := Z;
  SimConfig := Z;
  SimConfig_default := 0%Z;
  sim_v3_quoter := λ c, c;
  sim_v2_router := λ c, c;
  sim_from := λ c, c;
  SimError := string;
  sim_error_display := λ e, e;
  AmmStatePoint := Z;
  AmmStatePoint_eq_dec := _;
  PoolInstanceId := Z;
  PoolInstanceId_eq_dec := _;
  PoolInstanceId_countable := _;
  instance_key := λ i, i;
  instance_debug := pretty;
  PoolStateRef := Z * Z * Z;
  PoolStateRef_eq_dec := _;
  PoolStateRef_countable := _;
  PoolRevision := Z;
  PoolStateRef_new := λ i r p, (i, r, p);
  state_ref_pool := λ s, s.1.1;
|}.

(** Four pools over the tokens 10, 20 and 30; pools 1 and 4 are parallel. *)
Definition demo_pool (key t0 t1 : Z) : PoolRegistration :=
  {| reg_key := key : PoolKey; reg_status := PoolStatus.Ready;
     reg_metadata := ProtocolMetadata.UniswapV2 (Some t0) (Some t1) (Some 30%Z);
     reg_state_addresses := [] |}.
Definition demo_pools : list PoolRegistration :=
  [demo_pool 1 10 20; demo_pool 2 20 30; demo_pool 3 10 30; demo_pool 4 10 20].

(** [rate key] is the output of the pool per hundred units of input. *)
Definition demo_sim (rate : Z → Z) (_ : SimConfig) (h : Hop) (amount : U256) :
    result SimError U256 :=
  if (amount <=? 0)%Z then Err ("zero input" : SimError)
  else Ok (u256_wrap (amount * rate (hop_pool h) / 100)).

(** The adapter counts its calls in the cache. *)
Definition demo_adapter (rate : Z → Z) : Adapter := λ pool c tin tout amount cfg,
  (demo_sim rate cfg {| hop_pool := reg_key pool; hop_token_in := tin; hop_token_out := tout |}
     amount, (c + 1)%Z).

Definition demo_registry (rate : Z → Z) (pools : list PoolRegistration) : AdapterRegistry :=
  {| registry_pools := pools;
     registry_pool := λ k, snd <$> list_find (λ p, reg_key p = k) pools;
     registry_adapter := λ _, Some (demo_adapter rate) |}.

Definition demo_rate (key : Z) : Z :=
  if decide (key = 1%Z) then 200 else if decide (key = 2%Z) then 150
  else if decide (key = 3%Z) then 250 else 210.

(** Caches the adapters answer from: the call count is not negative. *)
Definition demo_inv (c : AdapterCache) : Prop := (0 <= (c : Z))%Z.

Lemma demo_simulates rate pools :
  simulates (demo_registry rate pools) demo_inv (demo_sim rate).
Proof.
  constructor.
  - intros cfg c h amount pool swap Hc Hp [= <-]. simpl in *.
    apply fmap_Some in Hp as ([i p] & Hf & ->). apply list_find_Some in Hf as (_ & Hk & _).
    simpl in Hk |- *. unfold demo_inv in *. split; [|lia].
    unfold demo_sim. simpl. by rewrite Hk.
  - done.
Qed.

Lemma demo_registry_wf rate pools :
  NoDup (reg_key <$> pools) → registry_wf (demo_registry rate pools).
Proof.
  intros Hnd. constructor; [|done]. intros k p. simpl. rewrite fmap_Some. split.
  - intros ([i q] & Hf & ->). apply list_find_Some in Hf as (Hi & Hk & _).
    split; [by eapply list_elem_of_lookup_2|done].
  - intros [Hin <-]. destruct (list_find_elem_of (λ q, reg_key q = reg_key p) pools p Hin eq_refl)
      as [[i q] Hf].
    exists (i, q). split; [done|]. simpl. apply list_find_Some in Hf as (Hi & Hk & _).
    apply list_elem_of_lookup in Hin as [j Hj].
    assert (i = j) as ->.
    { eapply (NoDup_lookup (reg_key <$> pools)); [done| |].
      - rewrite list_lookup_fmap, Hi. simpl. by rewrite Hk.
      - by rewrite list_lookup_fmap, Hj. }
    congruence.
Qed.

(** The graph of the four pools and its searcher. *)
Definition demo_report : option (GraphBuildReport * Z) :=
  from_registry (demo_registry demo_rate demo_pools) GraphBuildOptions_default 7.
Definition demo_graph : AmmGraph :=
  match demo_report with
  | Some (rep, _) => report_graph rep
  | None => AmmGraph_empty {| lineage := 0; revision := 0 |}
  end.
Definition demo_searcher (rate : Z → Z) : AmmSearcher :=
  AmmSearcher_new (demo_registry rate demo_pools) demo_graph.

Definition demo_hop (key tin tout : Z) : Hop :=
  {| hop_pool := key : PoolKey; hop_token_in := tin; hop_token_out := tout |}.

(** From token 10 to token 30 with at most two hops. *)
Definition demo_request : RouteRequest :=
  rr_with_config (with_hops 1 2 SearchConfig_default) (RouteRequest_new 10 30 1000).
