(* ===== verification/Witnesses.v ===== *)
(** * Witnesses: graph, configuration and enumeration

    For each theorem with hypotheses, a concrete input at which they hold, in
    the environment of [Concrete]. *)

From S2P Require Import Prelude AmmState Petgraph Graph GraphInv GraphProps GraphTheorems.
From S2P Require Import Config SearchTypes Enumerate EnumerateProps EnumerateTheorems.
From S2P Require Import QuoteCache Quote QuoteProps Searcher Concrete.

(** ** Graphs *)

Definition demo_empty : AmmGraph := AmmGraph_empty {| lineage := 7; revision := 0 |}.

Definition demo_apply (r : PoolRegistration) (g : AmmGraph) : AmmGraph :=
  match apply_pool r GraphBuildOptions_default g with Some (_, g') => g' | None => g end.

Definition demo_pool5 : PoolRegistration := demo_pool 5 20 40.

(** Evaluation by a Boolean keeps the types out of the computation. *)
Definition some_b {A} (o : option A) : bool := match o with Some _ => true | None => false end.

Lemma some_b_true {A} (o : option A) : some_b o = true → is_Some o.
Proof. destruct o; [by eexists|done]. Qed.

Lemma demo_report_ok : ∃ rep lin', from_registry (demo_registry demo_rate demo_pools)
  GraphBuildOptions_default 7 = Some (rep, lin') ∧ demo_graph = report_graph rep.
Proof.
  assert (some_b demo_report = true) as H by (vm_compute; reflexivity).
  apply some_b_true in H as [[rep lin'] H]. exists rep, lin'. split; [exact H|].
  unfold demo_graph. by rewrite H.
Qed.

#[local] Opaque demo_graph.

Definition demo_applies (r : PoolRegistration) (g : AmmGraph) : bool :=
  some_b (apply_pool r GraphBuildOptions_default g).

Lemma demo_apply_Some r g :
  demo_applies r g = true →
  ∃ m, apply_pool r GraphBuildOptions_default g = Some (m, demo_apply r g).
Proof.
  unfold demo_applies, demo_apply. destruct (apply_pool _ _ g) as [[m g']|]; [eauto|done].
Qed.

Lemma demo_pools_nodup : NoDup (reg_key <$> demo_pools).
Proof. refine (bool_decide_unpack _ _). vm_compute. done. Qed.

Lemma demo_graph_ok :
  graph_wf demo_graph ∧ no_orphans demo_graph ∧
  tracks GraphBuildOptions_default (demo_registry demo_rate demo_pools) demo_graph.
Proof.
  destruct demo_report_ok as (rep & lin' & H & ->).
  destruct (from_registry_spec _ _ _ _ _ (demo_registry_wf demo_rate _ demo_pools_nodup)
    H) as (H1 & H2 & _ & H4 & _). done.
Qed.

Lemma demo_graph_sorted : tokens_sorted demo_graph.
Proof.
  intros p ts. destruct demo_graph_ok as (_ & _ & Ht). rewrite Ht.
  unfold registry_topology. destruct (registry_pool _ p) as [r|]; simpl; [|done].
  destruct (searchable_tokens _ r) as [ts'|] eqn:Hs; simpl; [|done].
  intros [= <-]. by eapply searchable_tokens_sorted.
Qed.

Lemma demo_apply_step r g : demo_applies r g = true → graph_step g (demo_apply r g).
Proof. intros [m H]%demo_apply_Some. by eapply step_apply. Qed.

Lemma reachable_graph_wf_witness :
  AmmGraph_new 7 = Some (demo_empty, 8%Z) ∧ graph_wf (demo_apply demo_pool5 demo_empty).
Proof.
  split; [reflexivity|].
  apply (reachable_graph_wf 7 demo_empty 8); [reflexivity|].
  eapply rtc_l; [|apply rtc_refl]. apply demo_apply_step. vm_compute. reflexivity.
Defined.

Lemma version_identifies_topology_witness :
  lineage (version (demo_apply demo_pool5 demo_graph)) = lineage (version demo_graph).
Proof.
  refine (proj1 (version_identifies_topology demo_graph (demo_apply demo_pool5 demo_graph) _ _)).
  - apply demo_graph_ok.
  - eapply rtc_l; [|apply rtc_refl]. apply demo_apply_step. vm_compute. reflexivity.
Defined.

Lemma demo_pool5_applies : demo_applies demo_pool5 demo_graph = true.
Proof. vm_compute. reflexivity. Qed.

Lemma apply_pool_correct_witness :
  ∃ m, apply_pool demo_pool5 GraphBuildOptions_default demo_graph =
      Some (m, demo_apply demo_pool5 demo_graph) ∧
    graph_wf (demo_apply demo_pool5 demo_graph).
Proof.
  destruct (demo_apply_Some demo_pool5 demo_graph demo_pool5_applies) as [m Hm].
  exists m. split; [done|].
  pose proof (apply_pool_correct demo_pool5 GraphBuildOptions_default demo_graph
    (proj1 demo_graph_ok)) as Hc.
  rewrite Hm in Hc. apply Hc.
Defined.

Lemma from_registry_correct_witness :
  graph_wf demo_graph ∧ no_orphans demo_graph.
Proof.
  destruct demo_report_ok as (rep & lin' & H & ->).
  destruct (from_registry_correct (demo_registry demo_rate demo_pools) GraphBuildOptions_default
    7 _ _ (demo_registry_wf demo_rate _ demo_pools_nodup) H) as (H1 & H2 & _).
  done.
Defined.

Definition demo_registry5 : AdapterRegistry :=
  demo_registry demo_rate (demo_pool5 :: demo_pools).

Lemma demo_registered5 :
  registered demo_pool5 (demo_registry demo_rate demo_pools) demo_registry5.
Proof.
  intros p. destruct (decide (p = reg_key demo_pool5)) as [->|Hne]; [done|].
  unfold demo_registry5, demo_registry. cbn [registry_pool].
  change (list_find (λ q, reg_key q = p) (demo_pool5 :: demo_pools)) with
    (if decide (reg_key demo_pool5 = p) then Some (0, demo_pool5)
     else prod_map S id <$> list_find (λ q, reg_key q = p) demo_pools).
  rewrite decide_False by congruence.
  by destruct (list_find (λ q, reg_key q = p) demo_pools) as [[i q]|].
Qed.

Lemma incremental_agrees_with_rebuild_witness :
  ∃ g2, tracks GraphBuildOptions_default demo_registry5 (demo_apply demo_pool5 demo_graph) ∧
    pool_tokens g2 = pool_tokens (demo_apply demo_pool5 demo_graph).
Proof.
  destruct (demo_apply_Some demo_pool5 demo_graph demo_pool5_applies) as [m Hm].
  assert (some_b (rebuild_from_registry demo_registry5 GraphBuildOptions_default 9
    (demo_apply demo_pool5 demo_graph)) = true) as Hr by (vm_compute; reflexivity).
  apply some_b_true in Hr as [[[s g2] lin'] Hr]. exists g2.
  destruct demo_graph_ok as (Hwf & Hno & Htr).
  assert (registry_wf demo_registry5) as Hwf5.
  { apply demo_registry_wf. refine (bool_decide_unpack _ _). vm_compute. done. }
  destruct (incremental_agrees_with_rebuild _ _ _ _ _ _ _ _ _ _ _
    Hwf5 demo_registered5 Hwf Hno Htr Hm Hr) as (H1 & _ & H3 & _).
  split; [exact H1|exact H3].
Defined.

Lemma parallel_neighbors_spec_witness :
  (4%Z ∈ parallel_neighbors demo_graph (1%Z : PoolKey)) ∧
  ∃ a b, share_pair demo_graph (1%Z : PoolKey) 4%Z a b.
Proof.
  assert (4%Z ∈ parallel_neighbors demo_graph (1%Z : PoolKey)) as Hin
    by (refine (bool_decide_unpack _ _); vm_compute; done).
  split; [done|].
  by apply (parallel_neighbors_spec demo_graph 1%Z 4%Z (proj1 demo_graph_ok) demo_graph_sorted).
Defined.

Lemma tracked_tokens_spec_witness :
  10%Z ∈ tracked_tokens_for_pool demo_graph (1%Z : PoolKey) true.
Proof.
  apply (tracked_tokens_spec demo_graph 1%Z true 10%Z (proj1 demo_graph_ok) demo_graph_sorted).
  exists 4%Z, 20%Z. split; [done|]. split; [done|].
  exists [10%Z; 20%Z], [10%Z; 20%Z].
  split_and!; [vm_compute; reflexivity|vm_compute; reflexivity|set_solver..].
Defined.

Lemma outgoing_edges_correct_witness :
  length (outgoing_edges demo_graph 0) = length (pg_outgoing (graph demo_graph) 0).
Proof.
  apply (outgoing_edges_correct demo_graph 10%Z 0 (proj1 demo_graph_ok)).
  vm_compute. reflexivity.
Defined.

Definition demo_changes : bool :=
  match apply_pool demo_pool5 GraphBuildOptions_default demo_graph with
  | Some (m, g1) => topology_changed m && some_b (remove_pool_compacting (5%Z : PoolKey) g1)
  | None => false
  end.

Lemma add_remove_roundtrip_witness :
  ∃ g2, pool_tokens g2 = pool_tokens demo_graph ∧ dom (node_map g2) = dom (node_map demo_graph).
Proof.
  assert (demo_changes = true) as Hb by (vm_compute; reflexivity). unfold demo_changes in Hb.
  destruct (apply_pool demo_pool5 GraphBuildOptions_default demo_graph) as [[m g1]|] eqn:Ha;
    [|done].
  apply andb_prop in Hb as [Hm Hr]. apply some_b_true in Hr as [[m' g2] Hr].
  exists g2. destruct demo_graph_ok as (Hwf & Hno & _).
  assert (pool_tokens demo_graph !! reg_key demo_pool5 = None) as Hnone
    by (vm_compute; reflexivity).
  destruct (add_remove_roundtrip _ _ _ _ _ _ _ Hwf Hno Hnone Ha Hm Hr) as (H1 & H2 & _).
  split; [exact H1|exact H2].
Defined.

(** ** Configuration *)

Lemma streaming_config_validate_correct_witness :
  let c := StreamingSearchConfig_default (Some 4) in
  StreamingSearchConfig_validate c = Ok () ∧
  StreamingSearchConfig_validate (stop_at_confidence_bps 9000 c) = Ok ().
Proof.
  split; [reflexivity|].
  apply (proj2 (streaming_config_validate_correct (StreamingSearchConfig_default (Some 4)) 9000)).
  - reflexivity.
  - lia.
Defined.

(** ** Enumeration *)

Definition demo_config : SearchConfig := rr_config demo_request.

Lemma demo_nodes : node_index demo_graph 10%Z = Some 0 ∧ node_index demo_graph 30%Z = Some 2.
Proof. split; vm_compute; reflexivity. Qed.

Lemma demo_config_valid : SearchConfig_validate demo_config = Ok ().
Proof. reflexivity. Qed.

Lemma enumeration_sound_complete_witness :
  ∃ e, enumerate_routes_filtered demo_graph 10 30 demo_config false ∅ None None = Some (Ok e) ∧
    length (re_paths e) = 3 ∧
    ∀ p, p ∈ re_paths e ↔ valid_route demo_graph 10 30 demo_config false p.
Proof.
  destruct (enumeration_sound_complete demo_graph 10 30 0 2 demo_config false
    (proj1 demo_graph_ok) (proj1 demo_nodes) (proj2 demo_nodes) demo_config_valid)
    as (r & Hr & Hspec).
  assert (match r with Ok e => length (re_paths e) = 3 | Err _ => False end) as Hlen.
  { assert (match enumerate_routes_filtered demo_graph 10 30 demo_config false ∅ None None with
            | Some (Ok e) => length (re_paths e) = 3 | _ => False end) as Hc
      by (vm_compute; reflexivity).
    by rewrite Hr in Hc. }
  destruct r as [e|]; [|done]. exists e. split; [done|]. split; [done|]. apply Hspec.
Defined.

Lemma enumeration_limit_and_exclusion_witness :
  ∃ full r, enumerate_routes_filtered demo_graph 10 30 demo_config false ∅ None None = Some full ∧
    enumerate_routes_filtered demo_graph 10 30 demo_config false ∅ (Some 2) None = Some r ∧
    match full, r with
    | Ok e0, Ok e => length (re_paths e) ≤ 2
    | _, _ => True
    end.
Proof.
  destruct (enumeration_limit_and_exclusion demo_graph 10 30 0 2 demo_config false ∅ (Some 2)
    (proj1 demo_graph_ok) (proj1 demo_nodes) (proj2 demo_nodes) demo_config_valid)
    as (full & r & H1 & H2 & H3); [done|].
  exists full, r. split; [done|]. split; [done|].
  destruct full, r; try done. destruct H3 as [-> _]. rewrite length_take. lia.
Defined.

Lemma enumeration_error_cases_witness :
  enumerate_routes_filtered demo_graph 10 99 demo_config false ∅ None None =
    Some (Err (ErrTokenNotFound 99)).
Proof.
  apply (enumeration_error_cases demo_graph 10 99 demo_config false ∅ None
    (ErrTokenNotFound 99) (proj1 demo_graph_ok)).
  vm_compute. reflexivity.
Defined.

Lemma enumeration_cancellation_witness :
  ∃ r, enumerate_routes_filtered demo_graph 10 30 demo_config false ∅ None
         (Some (λ n, bool_decide (n < 2))) = Some r.
Proof.
  destruct (enumeration_cancellation demo_graph 10 30 0 2 demo_config false ∅ None
    (Some (λ n, bool_decide (n < 2))) (proj1 demo_nodes) (proj2 demo_nodes) demo_config_valid)
    as (r & r0 & Hr & _).
  by exists r.
Defined.
