(* ===== verification/SearchWitnesses.v ===== *)
(** * Witnesses: quote cache, quoting, search, streaming and sessions *)

From S2P Require Import Prelude AmmState Petgraph Graph GraphInv GraphProps GraphTheorems.
From S2P Require Import Config SearchTypes Enumerate EnumerateProps EnumerateTheorems.
From S2P Require Import QuoteCache QuoteCacheProps Quote QuoteProps Ranking Workers Searcher.
From S2P Require Import SearchTheorems.
From S2P Require Import Streaming StreamingProps StreamingTheorems Session SessionProps.
From S2P Require Import SessionTheorems Concrete Witnesses.

#[local] Opaque demo_graph.

Definition demo_cache : @AdapterCache demo_types := 0%Z.
Definition demo_cfg : @SimConfig demo_types := 0%Z.

Lemma demo_cache_inv : demo_inv demo_cache.
Proof. unfold demo_inv, demo_cache. lia. Qed.

(** ** The quote cache *)

Definition demo_key : HopQuoteKey :=
  {| key_pool := ScopeStatic (1%Z : PoolKey); key_token_in := 10; key_token_out := 20;
     key_amount_in := 1000; key_sim_config := SimConfigKey_from demo_cfg |}.
Definition demo_quote (_ : HopQuoteKey) : result string U256 := Ok 2000%Z.

Definition demo_spawned : CacheSystem :=
  {| sys_cache := with_context ContextStatic;
     sys_threads := <[0 := Looking demo_key]> ∅ |}.
Definition demo_looked : CacheSystem :=
  {| sys_cache := (cache_lookup demo_key (with_context ContextStatic)).2;
     sys_threads := <[0 := Executing demo_key]> (<[0 := Looking demo_key]> ∅) |}.

Lemma demo_spawn : cache_step demo_quote EvSpawn (initial_system ContextStatic) demo_spawned.
Proof. by apply step_spawn. Qed.
Lemma demo_lookup : cache_step demo_quote EvLookup demo_spawned demo_looked.
Proof.
  apply (step_lookup demo_quote (with_context ContextStatic) _ (<[0 := Looking demo_key]> ∅) 0
    demo_key LookupMiss); [apply lookup_insert_eq|reflexivity].
Qed.

Lemma cache_interleavings_correct_witness : index_ok (sys_cache demo_looked).
Proof.
  apply (cache_interleavings_correct demo_quote ContextStatic demo_looked).
  eapply rtc_l; [exists EvSpawn; apply demo_spawn|].
  eapply rtc_l; [exists EvLookup; apply demo_lookup|apply rtc_refl].
Defined.

Lemma cache_no_deadlock_witness :
  ∃ ev s', ev ∈ [EvLookup; EvExecute; EvPublish] ∧ cache_step demo_quote ev demo_looked s'.
Proof.
  apply (cache_no_deadlock demo_quote ContextStatic demo_looked 0 (Executing demo_key)).
  - eapply rtc_l; [exists EvSpawn; apply demo_spawn|].
    eapply rtc_l; [exists EvLookup; apply demo_lookup|apply rtc_refl].
  - reflexivity.
  - discriminate.
  - discriminate.
Defined.

Lemma cache_single_flight_witness :
  entries (sys_cache demo_looked) !! demo_key = Some InFlight.
Proof.
  apply (cache_single_flight demo_quote ContextStatic demo_looked).
  - eapply rtc_l; [exists EvSpawn; split; [discriminate|apply demo_spawn]|].
    eapply rtc_l; [exists EvLookup; split; [discriminate|apply demo_lookup]|apply rtc_refl].
  - exists 0, (Executing demo_key). split; [reflexivity|]. by left.
Defined.

Definition demo_affected : gset (@PoolKey demo_types) := {[1%Z]}.

Lemma invalidate_pools_correct_witness :
  entries (invalidate_pools demo_affected
    (cache_publish demo_key (Success 2000) (sys_cache demo_looked))) !! demo_key = None.
Proof.
  destruct (invalidate_pools_correct demo_affected
    (cache_publish demo_key (Success 2000) (sys_cache demo_looked))) as (_ & Hent & _).
  - apply cache_publish_index, cache_lookup_index, index_ok_empty.
  - rewrite Hent. rewrite decide_True; [reflexivity|]. simpl. set_solver.
Defined.

(** ** Search *)

Definition demo_s : AmmSearcher := demo_searcher demo_rate.

Lemma demo_env : search_env demo_s demo_inv (demo_sim demo_rate) demo_cache.
Proof.
  constructor.
  - apply demo_simulates.
  - apply scope_inj_static.
  - apply demo_graph_ok.
  - apply demo_cache_inv.
  - done.
Qed.

Lemma demo_complete : complete_search (rr_config demo_request).
Proof. by constructor. Qed.

(** The search as it runs: three routes, best first. *)
Example find_routes_runs :
  match find_routes demo_s demo_request demo_cache with
  | Some (Ok quotes, _) => (rq_amount_out <$> quotes) = [3150%Z; 3000%Z; 2500%Z]
  | _ => False
  end.
Proof. vm_compute. reflexivity. Qed.

Lemma find_routes_optimal_witness :
  ∃ res cache', find_routes demo_s demo_request demo_cache = Some (res, cache') ∧
    optimal demo_s (demo_sim demo_rate) 10 30 1000 (rr_config demo_request)
      (rr_sim_config demo_request) false res.
Proof.
  destruct (find_routes_optimal demo_s demo_inv (demo_sim demo_rate) demo_cache
    demo_request 0 2 demo_env demo_complete (proj1 demo_nodes) (proj2 demo_nodes))
    as (res & c & H1 & H2 & _).
  exists res, c. split; [exact H1|exact H2].
Defined.

Lemma find_best_route_optimal_witness :
  ∃ res cache', find_best_route demo_s demo_request demo_cache = Some (res, cache').
Proof.
  destruct (find_best_route_optimal demo_s demo_inv (demo_sim demo_rate) demo_cache
    demo_request 0 2 demo_env demo_complete (proj1 demo_nodes) (proj2 demo_nodes))
    as (res & c & H1 & _).
  exists res, c. exact H1.
Defined.

Definition demo_cycle : CycleRequest := CycleRequest_new 10 1000.

Lemma demo_sim_u256 rate cfg h a out : demo_sim rate cfg h a = Ok out → is_u256 out.
Proof.
  unfold demo_sim. destruct (a <=? 0)%Z; [done|]. intros [= <-].
  unfold u256_wrap, is_u256. apply Z.mod_pos_bound. done.
Qed.

Lemma find_cycles_correct_witness :
  ∃ res cache', find_cycles demo_s demo_cycle demo_cache =
    Some (cycle_quotes res, cache').
Proof.
  destruct (find_cycles_correct demo_s demo_inv (demo_sim demo_rate) demo_cache
    demo_cycle 0 demo_env) as (res & c & H1 & _).
  - by constructor.
  - exact (proj1 demo_nodes).
  - unfold is_u256. simpl. split; [lia|]. done.
  - apply demo_sim_u256.
  - exists res, c. exact H1.
Defined.

Definition demo_parallel : ParallelSearchConfig := {| workers := 2 |}.

Lemma demo_order i : i < workers demo_parallel → i ∈ [1; 0].
Proof. simpl. intros Hi. rewrite !elem_of_cons. lia. Qed.

(** The second thread overtakes the first, which wakes up once for nothing. *)
Definition demo_moves : list Move :=
  [WorkerTurn 1; WorkerTurn 0; WorkerTurn 1; SpuriousWakeup 0; WorkerTurn 1; CoordinatorTurn].

Lemma find_routes_parallel_agrees_witness :
  ∃ res cache' res', find_routes demo_s demo_request demo_cache = Some (res, cache') ∧
    find_routes_parallel demo_s demo_request demo_cache demo_parallel demo_moves =
      Some res' ∧ agree res res'.
Proof.
  assert (some_b (find_routes demo_s demo_request demo_cache) = true) as Hr
    by (vm_compute; reflexivity).
  apply some_b_true in Hr as [[res c] Hr].
  destruct (find_routes_parallel_agrees demo_s demo_inv (demo_sim demo_rate) demo_cache
    demo_cache demo_request demo_parallel demo_moves res c demo_env) as (res' & H1 & H2).
  - by intros h.
  - apply demo_cache_inv.
  - reflexivity.
  - exact Hr.
  - exists res, c, res'. split; [exact Hr|]. split; [exact H1|]. destruct H2 as [H2|[_ [i Hi]]]; [exact H2|].
    exfalso. unfold demo_moves in Hi. repeat (apply elem_of_cons in Hi as [Hi|Hi]; [discriminate|]).
    by apply elem_of_nil in Hi.
Defined.

Lemma batch_agrees_with_single_witness :
  ∃ report, batch_parallel_with_stats find_routes_with_quote_cache demo_s [demo_request; demo_request]
      demo_cache demo_parallel [1; 0] = Some (Ok report) ∧
    length (batch_results report) = 2.
Proof.
  destruct (batch_agrees_with_single demo_s demo_inv (demo_sim demo_rate) demo_cache
    [demo_request; demo_request] demo_cache demo_parallel [1; 0] demo_env)
    as (report & H1 & H2 & _).
  - intros r Hr h. apply elem_of_cons in Hr as [->|Hr]; [done|].
    by apply list_elem_of_singleton in Hr as ->.
  - apply demo_cache_inv.
  - reflexivity.
  - apply demo_order.
  - exists report. split; [exact H1|exact H2].
Defined.

(** ** Quoting *)

Definition demo_path : RoutePath := [demo_hop 1 10 20; demo_hop 2 20 30].
Definition demo_path4 : RoutePath := [demo_hop 4 10 20; demo_hop 2 20 30].
Definition demo_reg : AdapterRegistry := demo_registry demo_rate demo_pools.

Lemma dag_quoting_agrees_witness :
  ∃ quotes failures qc' c',
    quote_paths_with_registry demo_reg [demo_path; demo_path4; []] 1000 demo_cfg
      demo_cache (with_context ContextStatic) = Some (quotes, failures, qc', c') ∧
    length quotes + length failures = 3.
Proof.
  destruct (dag_quoting_agrees demo_reg demo_inv (demo_sim demo_rate) ContextStatic
    demo_cfg [demo_path; demo_path4; []] 1000 demo_cache
    (with_context ContextStatic)) as (qs & fs & qc & c & H1 & H2 & H3 & _).
  - apply demo_simulates.
  - apply scope_inj_static.
  - apply demo_cache_inv.
  - apply coherent_empty.
  - repeat constructor; apply scoped_static.
  - exists qs, fs, qc, c. split; [exact H1|].
    apply Permutation_length in H2, H3. rewrite H2, H3. vm_compute. reflexivity.
Defined.

Lemma observed_quoting_prefix_witness :
  ∃ e, quote_paths_with_registry_observed demo_reg demo_cfg 1000
    (Some (λ q n, (bool_decide (n < 1), S n))) None [demo_path; demo_path4] demo_cache
    (with_context ContextStatic) 0 = Some e.
Proof.
  destruct (observed_quoting_prefix demo_reg demo_inv (demo_sim demo_rate) ContextStatic
    demo_cfg [demo_path; demo_path4] 1000 demo_cache
    (with_context ContextStatic) (Some (λ (q : RouteQuote) n, (bool_decide (n < 1), S n))) None 0)
    as (e & _ & _ & He & _).
  - apply demo_simulates.
  - apply scope_inj_static.
  - apply demo_cache_inv.
  - apply coherent_empty.
  - exists e. exact He.
Defined.

(** ** Streaming *)

Definition demo_on : Callback := λ _ _, Continue.
Definition demo_stream_config : StreamingSearchConfig :=
  stop_at_confidence_bps 10000 (with_top_k 1
    (emit_initial_results_at_confidence_bps 5000 (StreamingSearchConfig_default (Some 4)))).

Definition demo_q (path : RoutePath) (amount : U256) : RouteQuote :=
  {| rq_path := path; rq_amount_in := 1000; rq_amount_out := amount; rq_hops := [] |}.
Definition demo_q1 : RouteQuote := demo_q demo_path 3000.
Definition demo_q4 : RouteQuote := demo_q demo_path4 3150.

Definition demo_start : Stream :=
  (StreamingRouteState_new demo_stream_config, [EvStarted (completion demo_stream_config)]).
Definition demo_run (ins : list StreamInput) : Stream :=
  foldl (λ st i, (stream_step demo_on i st).2) demo_start ins.

Lemma demo_streamed ins :
  streamed demo_on demo_stream_config ins ((demo_run ins).1, (demo_run ins).2).
Proof.
  rewrite <-surjective_pairing. unfold demo_run. induction ins as [|i ins IH] using rev_ind.
  - apply streamed_new.
  - rewrite foldl_app. simpl. by apply streamed_step.
Qed.

Definition demo_inputs : list StreamInput :=
  [InQuote PhaseHeuristic demo_q1; InFailed PhaseHeuristic 1; InHeuristicDone; InTotal 3;
   InQuote PhaseExhaustive demo_q4].

Lemma demo_inputs_ok : Forall input_ok demo_inputs.
Proof. repeat constructor; simpl; lia. Qed.

Lemma streaming_ranking_correct_witness :
  ss_best (demo_run demo_inputs).1 = Some demo_q4 ∧
  ss_top_routes (demo_run demo_inputs).1 = [demo_q4].
Proof.
  destruct (streaming_ranking_correct demo_on demo_stream_config demo_inputs _ _
    (demo_streamed demo_inputs)) as (H1 & _ & _ & H4).
  split; [rewrite H1; vm_compute; reflexivity|]. rewrite H4.
  - vm_compute. reflexivity.
  - refine (bool_decide_unpack _ _). vm_compute. done.
Defined.

Lemma observe_quote_events_witness :
  ∃ rank, (observe_quote demo_on PhaseExhaustive demo_q4
      ((demo_run (take 4 demo_inputs)).1, (demo_run (take 4 demo_inputs)).2)).2.2 =
    (demo_run (take 4 demo_inputs)).2 ++
    [EvProgress (progress (observe_quote demo_on PhaseExhaustive demo_q4
      ((demo_run (take 4 demo_inputs)).1, (demo_run (take 4 demo_inputs)).2)).2.1);
     EvBestUpdated PhaseExhaustive demo_q4 (Some demo_q1) Provisional;
     EvRouteFound PhaseExhaustive rank demo_q4].
Proof.
  destruct (observe_quote demo_on PhaseExhaustive demo_q4
    ((demo_run (take 4 demo_inputs)).1, (demo_run (take 4 demo_inputs)).2))
    as [ok [s' tr']] eqn:Hobs.
  assert (ok = true) as ->.
  { assert ((observe_quote demo_on PhaseExhaustive demo_q4
      ((demo_run (take 4 demo_inputs)).1, (demo_run (take 4 demo_inputs)).2)).1 = true) as Ht
      by (vm_compute; reflexivity).
    by rewrite Hobs in Ht. }
  destruct (observe_quote_events demo_on demo_stream_config (take 4 demo_inputs) _ _
    PhaseExhaustive demo_q4 s' tr' (demo_streamed (take 4 demo_inputs))) as (rank & H1 & H2 & _).
  - refine (bool_decide_unpack _ _). vm_compute. done.
  - vm_compute. reflexivity.
  - exact Hobs.
  - exists (Some 1). simpl. rewrite H1.
    assert (rank = Some 1) as ->; [|reflexivity].
    apply H2. split; [simpl; lia|]. vm_compute. reflexivity.
Defined.

Lemma initial_results_gated_witness :
  match initial_result_policy demo_stream_config with
  | Some policy => gated policy true (demo_run demo_inputs).2
  | None => False
  end.
Proof.
  exact (initial_results_gated demo_on demo_stream_config demo_inputs _ _
    (demo_streamed demo_inputs)).
Defined.

Lemma stream_run_verdict_witness :
  ¬ stop_policy_met (stream_run demo_on demo_inputs demo_start).2.1.
Proof.
  destruct (stream_run demo_on demo_inputs demo_start) as [ok [s tr]] eqn:Hrun.
  assert (ok = true) as ->.
  { assert ((stream_run demo_on demo_inputs demo_start).1 = true) as Ht
      by (vm_compute; reflexivity).
    by rewrite Hrun in Ht. }
  destruct (stream_run_verdict demo_on demo_stream_config demo_inputs true s tr Hrun)
    as (evs & _ & Hv & _).
  exact (proj2 Hv).
Defined.

Lemma progress_bounds_witness :
  ∃ p, EvProgress p ∈ (demo_run demo_inputs).2 ∧ (pr_confidence_bps p <= 9999)%Z.
Proof.
  assert (EvProgress (progress (demo_run demo_inputs).1) ∈ (demo_run demo_inputs).2) as Hin.
  { assert ((demo_run demo_inputs).2 !! 6 = Some (EvProgress (progress (demo_run demo_inputs).1)))
      as Hl by (vm_compute; reflexivity).
    by apply list_elem_of_lookup_2 in Hl. }
  exists (progress (demo_run demo_inputs).1). split; [exact Hin|].
  destruct (progress_bounds demo_on demo_stream_config demo_inputs _ _ _ demo_inputs_ok
    (demo_streamed demo_inputs) Hin) as (_ & _ & _ & Hc & _).
  destruct (pr_best_amount_out (progress (demo_run demo_inputs).1)); lia.
Defined.

Lemma progress_monotone_witness :
  StronglySorted progress_le (omap event_progress (demo_run demo_inputs).2).
Proof.
  exact (progress_monotone demo_on demo_stream_config demo_inputs _ _ demo_inputs_ok
    (demo_streamed demo_inputs)).
Defined.

Lemma report_correct_witness :
  rep_heuristic_was_final_best (report (demo_run demo_inputs).1 FinalityExhaustive
    QuoteCacheStats_default LiquidityPruneStats_default) = Some false.
Proof.
  destruct (report_correct demo_on demo_stream_config (take 2 demo_inputs) (drop 3 demo_inputs)
    (demo_run demo_inputs).1 (demo_run demo_inputs).2
    QuoteCacheStats_default LiquidityPruneStats_default) as (_ & _ & H3 & _).
  - repeat constructor.
  - repeat constructor.
  - exact (demo_streamed demo_inputs).
  - rewrite H3. vm_compute. reflexivity.
Defined.

Lemma finish_stream_report_correct_witness :
  rep_best (finish_stream_report demo_on FinalityExhaustive QuoteCacheStats_default
    LiquidityPruneStats_default true
    ((demo_run demo_inputs).1, (demo_run demo_inputs).2)).1 = Some demo_q4.
Proof.
  destruct (finish_stream_report demo_on FinalityExhaustive QuoteCacheStats_default
    LiquidityPruneStats_default true ((demo_run demo_inputs).1, (demo_run demo_inputs).2))
    as [r [s' tr']] eqn:Hf.
  destruct (finish_stream_report_correct demo_on demo_stream_config demo_inputs _ _
    FinalityExhaustive QuoteCacheStats_default LiquidityPruneStats_default true r s' tr'
    (demo_streamed demo_inputs) Hf) as (H1 & _).
  simpl. rewrite H1. vm_compute. reflexivity.
Defined.

(** ** Sessions

    A session over three routes; then the rate of pool 2 changes. *)

Definition demo_rate' (key : Z) : Z := if decide (key = 2%Z) then 160 else demo_rate key.
Definition demo_s' : AmmSearcher := demo_searcher demo_rate'.

Definition demo_path3 : RoutePath := [demo_hop 3 10 30].
Definition demo_quotes : list RouteQuote :=
  omap (λ p, quote_of demo_reg (demo_sim demo_rate) demo_cfg ContextStatic 1000 p)
    [demo_path; demo_path3].

Definition demo_session : RouteSearchSession :=
  session_from_run demo_s demo_request demo_stream_config (head (ranking demo_quotes))
    FinalityExhaustive demo_quotes (with_context ContextStatic).

Lemma demo_quotes_current q :
  q ∈ demo_quotes → session_quote demo_s (demo_sim demo_rate) demo_session (rq_path q) = Some q.
Proof.
  unfold demo_quotes. rewrite list_elem_of_omap. intros (p & _ & Hq).
  assert (rq_path q = p) as ->.
  { apply (session_quote_path demo_s (demo_sim demo_rate) demo_session). exact Hq. }
  exact Hq.
Qed.

Lemma session_start_correct_witness :
  session_current demo_s (demo_sim demo_rate) demo_session.
Proof.
  apply (session_start_correct demo_s (demo_sim demo_rate) demo_request demo_stream_config
    FinalityExhaustive demo_quotes (with_context ContextStatic) demo_quotes_current).
  apply coherent_empty.
Defined.

Lemma demo_session_current : session_current demo_s (demo_sim demo_rate) demo_session.
Proof. apply session_start_current; [apply demo_quotes_current|apply coherent_empty]. Qed.

Lemma demo_refresh_env : refresh_env demo_s' demo_inv (demo_sim demo_rate') demo_cache.
Proof.
  constructor; [apply demo_simulates|apply scope_logical_static|apply demo_cache_inv].
Qed.

Definition demo_changed : AffectedPools := from_pool_keys [2%Z : @PoolKey demo_types].

Lemma demo_agree_off :
  agree_off demo_s' (demo_sim demo_rate') demo_s (demo_sim demo_rate)
    (affected_pools demo_changed).
Proof.
  intros cfg h amount Hh.
  assert (demo_sim demo_rate' cfg h amount = demo_sim demo_rate cfg h amount) as Hs.
  { unfold demo_sim, demo_rate'. rewrite decide_False; [done|]. intros Hp. apply Hh. set_solver. }
  unfold hop_result. rewrite Hs. reflexivity.
Qed.

Definition demo_iter_table (t : gmap RoutePath RouteSessionEntry) : list RouteSessionEntry :=
  (map_to_list t).*2.
Lemma demo_orders : iteration_orders elements elements demo_iter_table.
Proof. by constructor. Qed.

Definition demo_up (refused : bool) (_ : list RouteUpdateEvent) (e : RouteUpdateEvent) :
    SearchControl :=
  match e with UpRouteRequoted _ => if refused then Stop else Continue | _ => Continue end.

Definition demo_refresh (refused : bool) (affected : AffectedPools) : option Refresh :=
  refresh_affected (demo_up refused) elements elements demo_iter_table demo_s' demo_cache
    affected demo_session [].

Definition recomputes (o : option Refresh) : bool :=
  match o with
  | Some (r, _, _) => match ir_status r with RecomputeRequired => true | _ => false end
  | None => false
  end.

Lemma demo_refreshes (refused : bool) (affected : AffectedPools) :
  some_b (demo_refresh refused affected) && negb (recomputes (demo_refresh refused affected)) =
    true →
  ∃ r s' tr', demo_refresh refused affected = Some (r, s', tr') ∧
    ir_status r ≠ RecomputeRequired.
Proof.
  destruct (demo_refresh refused affected) as [[[r s'] tr']|]; [|done]. simpl. intros Hr.
  exists r, s', tr'. split; [done|]. intros Hs. by rewrite Hs in Hr.
Qed.

Lemma demo_accepting : accepting (demo_up false).
Proof. by intros tr []. Qed.

Lemma refresh_recompute_iff_witness :
  ∃ r s' tr', demo_refresh false {| affected_pools := ∅; unknown_logs := 0; removed_logs := 1 |} =
      Some (r, s', tr') ∧ ir_status r = RecomputeRequired.
Proof.
  destruct (demo_refresh false _) as [[[r s'] tr']|] eqn:Hr; cycle 1.
  { assert (some_b (demo_refresh false
      {| affected_pools := ∅; unknown_logs := 0; removed_logs := 1 |}) = true) as Hs
      by (vm_compute; reflexivity).
    by rewrite Hr in Hs. }
  exists r, s', tr'. split; [reflexivity|].
  apply (refresh_recompute_iff (demo_up false) elements elements demo_iter_table demo_orders
    demo_s' demo_cache {| affected_pools := ∅; unknown_logs := 0; removed_logs := 1 |}
    demo_session [] r s' tr'); [reflexivity|exact Hr|].
  left. simpl. lia.
Defined.

Lemma refresh_keeps_indexes_witness :
  ∃ r s' tr', demo_refresh true demo_changed = Some (r, s', tr') ∧ session_ok s'.
Proof.
  destruct (refresh_keeps_indexes (demo_up true) elements elements demo_iter_table demo_orders
    demo_s' demo_inv (demo_sim demo_rate') demo_cache demo_refresh_env demo_s
    (demo_sim demo_rate) eq_refl demo_changed demo_session [] demo_session_current
    demo_agree_off) as (r & s' & tr' & Hr & Hok & _).
  exists r, s', tr'. split; [exact Hr|exact Hok].
Defined.


Lemma refresh_refused_marks_failed_witness :
  ∃ r s' tr', demo_refresh true demo_changed = Some (r, s', tr') ∧ best_ok s'.
Proof.
  destruct (demo_refreshes true demo_changed ltac:(vm_compute; reflexivity))
    as (r & s' & tr' & Hr & Hs).
  destruct (refresh_refused_marks_failed (demo_up true) elements elements demo_iter_table
    demo_orders demo_s' demo_inv (demo_sim demo_rate') demo_cache demo_refresh_env demo_s
    (demo_sim demo_rate) eq_refl demo_changed demo_session [] r s' tr') as (Hb & _).
  - reflexivity.
  - reflexivity.
  - apply demo_session_current.
  - apply demo_agree_off.
  - exact Hr.
  - exact Hs.
  - exists r, s', tr'. split; [exact Hr|exact Hb].
Defined.
