(* ===== verification/LiquidityWitnesses.v ===== *)
(** * Witnesses: the liquidity index

    The theorems of [LiquidityTheorems] applied in the environment of
    [Concrete]: two parallel pools whose balances are seeded, moved by a
    transfer log and refreshed. *)

From S2P Require Import Prelude AmmState Petgraph Graph GraphPairs GraphInv GraphProps GraphTheorems.
From S2P Require Import Config SearchTypes Liquidity LiquidityProps LiquidityBuild LiquidityTheorems.
From S2P Require Import QuoteCache Quote QuoteProps Searcher Concrete Witnesses.

(** The balance of a holder is in the slot of its number. *)
Definition demo_layout (token holder : Address) : U256 := holder.

Lemma demo_layout_inj : layout_injective demo_layout.
Proof. by intros token h h'. Qed.

Definition demo_tokens (r : PoolRegistration) : option (list Address) :=
  match reg_metadata r with
  | ProtocolMetadata.UniswapV2 (Some a) (Some b) _ => Some [a; b]
  | _ => None
  end.

Definition demo_reg : AdapterRegistry := demo_registry demo_rate demo_pools.

Definition demo_delta (d : SlotDelta) (v : U256) : U256 :=
  match d with DeltaAdd x => u256_add v x | DeltaSub x => u256_sub v x end.

(** The adapter applies every update. *)
Definition demo_updates (cache : AdapterCache) (us : list StateUpdate) : StateDiff * AdapterCache :=
  ({| diff_skipped := []; diff_skipped_masks := 0; has_skipped := false |}, cache).

Definition demo_built : option (PoolLiquidityIndex * PoolLiquidityBuildReport) :=
  from_registry_with_scope demo_tokens demo_reg demo_graph ParallelEdgeOutputs.
Definition demo_index : PoolLiquidityIndex :=
  match demo_built with Some (ix, _) => ix | None => PoolLiquidityIndex_default end.
Definition demo_build_report : PoolLiquidityBuildReport :=
  match demo_built with Some (_, r) => r | None => Build_PoolLiquidityBuildReport 0 0 end.

Lemma demo_reg_wf : registry_wf demo_reg.
Proof. apply demo_registry_wf, demo_pools_nodup. Qed.

Lemma demo_separate : registry_separate demo_layout demo_reg.
Proof.
  intros r source tk vault slot high h Hr Hm Hs. simpl in Hr. unfold demo_pools in Hr.
  assert (∃ a b c, reg_metadata r = ProtocolMetadata.UniswapV2 a b c) as (a & b & c & Hmd).
  { repeat (apply elem_of_cons in Hr as [->|Hr]; [by do 3 eexists|]). by apply elem_of_nil in Hr. }
  unfold metadata_source in Hm. rewrite Hmd in Hm. injection Hm as <-. unfold erc20_source in Hs.
  by destruct (pool_address (reg_key r)).
Qed.

Lemma demo_built_eq :
  from_registry_with_scope demo_tokens demo_reg demo_graph ParallelEdgeOutputs =
  Some (demo_index, demo_build_report).
Proof.
  destruct (from_registry_ok demo_layout demo_tokens (λ _ _, 0%Z) demo_reg demo_graph ParallelEdgeOutputs
    demo_reg_wf demo_separate) as (ix & r & Heq & _).
  rewrite Heq. unfold demo_index, demo_build_report, demo_built. rewrite Heq. reflexivity.
Qed.

#[local] Opaque demo_index demo_build_report demo_graph.

(** The words of the two holders before the transfer. *)
Definition demo_words (token slot : Z) : U256 := (token * 100 + slot)%Z.

Lemma demo_index_ok : index_wf demo_layout demo_index ∧ entries_ok demo_layout demo_words demo_index.
Proof.
  destruct (from_registry_ok demo_layout demo_tokens demo_words demo_reg demo_graph ParallelEdgeOutputs
    demo_reg_wf demo_separate) as (ix & r & Heq & Hok).
  assert (Some (ix, r) = Some (demo_index, demo_build_report)) as H
    by (rewrite <-Heq; exact demo_built_eq).
  apply (f_equal (from_option fst ix)) in H. simpl in H. rewrite <-H. exact Hok.
Qed.

(** Seeding the slots of pool 1 and writing its words. *)
Definition demo_seed (token holder : Address) (ix : PoolLiquidityIndex) : PoolLiquidityIndex :=
  match set_erc20_balance_slot token holder (demo_layout token holder) ix with
  | Some (_, ix') => ix' | None => ix end.
Definition demo_write (us : list StateUpdate) (ix : PoolLiquidityIndex) : PoolLiquidityIndex :=
  match apply_storage_updates us ix with Some (_, ix') => ix' | None => ix end.

Abbreviation step := (index_step demo_layout demo_tokens 99 demo_delta demo_updates).

Lemma demo_seed_step σ token holder ix :
  never_panics demo_layout demo_tokens 99 demo_delta demo_updates ix →
  step (σ, ix) (σ, demo_seed token holder ix).
Proof.
  intros Hnp. destruct (np_seed _ _ _ _ _ _ Hnp token holder) as [[n ix'] Heq].
  unfold demo_seed. rewrite Heq. by eapply step_seed_slot.
Qed.

Lemma demo_write_step σ us ix :
  never_panics demo_layout demo_tokens 99 demo_delta demo_updates ix →
  step (σ, ix) (write_updates us σ, demo_write us ix).
Proof.
  intros Hnp. destruct (np_updates _ _ _ _ _ _ Hnp us) as [[n ix'] Heq].
  unfold demo_write. rewrite Heq. by eapply step_updates.
Qed.

Definition demo_write1 : list StateUpdate := [UpdateSlot 20 1 2001].
Definition demo_live : PoolLiquidityIndex := demo_write demo_write1 (demo_seed 20 1 demo_index).
Definition demo_live_words : Storage := write_updates demo_write1 demo_words.

Lemma demo_seed_ok :
  index_wf demo_layout (demo_seed 20 1 demo_index) ∧
  entries_ok demo_layout demo_words (demo_seed 20 1 demo_index).
Proof.
  apply (index_step_ok demo_layout demo_tokens 99 demo_delta demo_updates
    (demo_words, demo_index) (demo_words, demo_seed 20 1 demo_index)).
  - exact demo_layout_inj.
  - apply demo_seed_step, wf_never_panics, demo_index_ok.
  - apply demo_index_ok.
Qed.

Lemma demo_live_ok :
  index_wf demo_layout demo_live ∧ entries_ok demo_layout demo_live_words demo_live.
Proof.
  apply (index_step_ok demo_layout demo_tokens 99 demo_delta demo_updates
    (demo_words, demo_seed 20 1 demo_index) (demo_live_words, demo_live)).
  - exact demo_layout_inj.
  - apply demo_write_step, wf_never_panics, demo_seed_ok.
  - apply demo_seed_ok.
Qed.

(** Pool 1 sends 5 of token 20 to an untracked holder. *)
Definition demo_log : TransferLog :=
  {| log_address := 20; log_topics := [99; 1; 77]%Z; log_data := replicate 31 0%Z ++ [5%Z] |}.

Lemma demo_log_parses :
  parse_transfer 99 demo_log = Some {| tr_token := 20; tr_from := 1; tr_to := 77; tr_value := 5 |}.
Proof. vm_compute. reflexivity. Qed.

(** The index as it runs: the balance of pool 1 follows its word. *)
Example demo_live_runs :
  balance_state demo_live (1 : Z) 20 = BalanceFresh 2001 ∧
  balance_state demo_live (4 : Z) 20 = BalanceUnknown ∧
  match apply_transfer_log 99 demo_delta demo_updates (0 : Z) demo_log demo_live with
  | Some (report, _, ix) =>
      report = Build_TransferApplyReport true 1 0 1 0 ∧
      balance_state ix (1 : Z) 20 = BalanceFresh 1996
  | None => False
  end.
Proof. vm_compute. done. Qed.


(** A snapshot of every word. *)
Lemma refresh_from_snapshot_correct_witness :
  entries_ok demo_layout demo_words
    (refresh_from_snapshot (λ a s, Some (demo_words a s)) demo_live).2.
Proof.
  pose proof (refresh_from_snapshot_correct demo_layout (λ a s, Some (demo_words a s)) demo_live) as H.
  destruct (refresh_from_snapshot _ demo_live) as [report ix'].
  destruct H as (_ & _ & _ & _ & _ & _ & H).
  apply (H demo_live_words demo_words (proj1 demo_live_ok) (proj2 demo_live_ok)).
  by intros a s w [= <-].
Defined.

(** A provider that discovers every slot and reads every word. *)
Definition demo_track (c : AdapterCache) (token : Address) (holders : list Address) :
    result string (option (list (Address * U256))) * AdapterCache :=
  (Ok (Some ((λ h, (h, demo_layout token h)) <$> holders)), c).
Definition demo_sync (specs : list StorageSyncSpec) : list (result string StorageSnapshot) :=
  (λ spec, Ok {| snap_target := spec_target spec;
                 snap_entries := (λ s, (s, demo_words (spec_target spec) s)) <$> spec_slots spec |}) <$> specs.

Lemma demo_provider_ok : provider_ok demo_layout demo_track demo_sync map_to_list demo_words.
Proof.
  constructor.
  - intros c token holders pairs c' [= <- _]. apply Forall_forall.
    by intros [h s] (h' & [= -> ->] & _)%list_elem_of_fmap.
  - intros specs. apply length_fmap.
  - intros specs i spec snap Hi Ha. unfold demo_sync in Ha. rewrite list_lookup_fmap, Hi in Ha.
    injection Ha as <-. simpl. split_and!; [done|..].
    + by intros slot v (s & [= -> ->] & _)%list_elem_of_fmap.
    + intros slot Hs. rewrite <-list_fmap_compose. apply list_elem_of_fmap. by exists slot.
  - done.
Qed.

Lemma refresh_correct_witness :
  ∃ r cache' ix',
    refresh demo_track demo_sync (λ _ c, c) map_to_list map_to_list RefreshAll (0 : Z) demo_index =
      Some (r, cache', ix') ∧
    entries_ok demo_layout demo_words ix' ∧
    ∀ i t key, targets ix' !! i = Some t → lt_active t = true → storage_slot t = Some key →
      fresh_of (lt_balance t) ≠ None.
Proof.
  destruct (refresh_correct demo_layout demo_track demo_sync (λ _ c, c) map_to_list map_to_list
    demo_words demo_words demo_provider_ok RefreshAll (0 : Z) demo_index (proj1 demo_index_ok)
    (proj2 demo_index_ok) (or_introl eq_refl)) as (r & c & ix' & H1 & _ & H2 & H3).
  exists r, c, ix'. split; [exact H1|]. split; [exact H2|]. apply (H3 eq_refl).
  intros specs a (spec & -> & _)%list_elem_of_fmap. by eexists.
Defined.


Lemma demo_tokens_agree : tokens_agree demo_tokens demo_reg demo_graph.
Proof.
  intros p ts Hp. destruct demo_graph_ok as (_ & _ & Htr). rewrite Htr in Hp. clear Htr.
  fold demo_reg in Hp. unfold registry_topology in Hp. destruct (registry_pool demo_reg p) as [r|] eqn:Hr; [|done].
  assert (r ∈ demo_pools) as Hin by exact (proj1 (proj1 (registry_pool_spec _ demo_reg_wf p r) Hr)).
  assert (∃ tokens, demo_tokens r = Some tokens ∧ Ok (sorted_tokens tokens) = searchable_tokens GraphBuildOptions_default r)
    as (tokens & Ht & Hs).
  { unfold demo_pools in Hin.
    repeat (apply elem_of_cons in Hin as [->|Hin]; [eexists; split; [reflexivity|vm_compute; reflexivity]|]).
    by apply elem_of_nil in Hin. }
  exists r, tokens. split_and!; [done|done|]. cbn [mbind option_bind] in Hp. rewrite <-Hs in Hp. by injection Hp.
Qed.

Lemma reconcile_agrees_with_rebuild_witness :
  ∃ report ix',
    reconcile_pools demo_tokens demo_reg demo_graph ParallelEdgeOutputs [(1 : Z); (4 : Z)] demo_index =
      Some (report, ix') ∧
    ∀ k, tracked ix' k = tracked demo_index k.
Proof.
  destruct (reconcile_agrees_with_rebuild demo_layout demo_tokens demo_reg demo_graph ParallelEdgeOutputs
    [(1 : Z); (4 : Z)] demo_index demo_index demo_build_report) as (rep & ix' & H1 & _ & H2 & _).
  - apply demo_graph_ok.
  - apply demo_graph_sorted.
  - apply demo_reg_wf.
  - apply demo_tokens_agree.
  - apply demo_index_ok.
  - exact demo_built_eq.
  - intros p _. split; [intros tk|]; reflexivity.
  - exists rep, ix'. split; [exact H1|exact H2].
Defined.

Lemma decode_balancer_cash_roundtrip_witness :
  decode_balancer_cash (pack_cash 3 8 5) false = 5%Z ∧ decode_balancer_cash (pack_cash 3 8 5) true = 8%Z.
Proof. apply (proj1 decode_balancer_cash_roundtrip 3%Z 8%Z 5%Z); lia. Defined.

(** The balance of token 20 in pool 1 of the seeded index. *)
Lemma demo_live_target :
  ∃ i, live (targets demo_live) i 20 (Erc20Balance 1 (Some 1%Z)).
Proof.
  assert (existsb (λ t, lt_active t && bool_decide (lt_token t = 20%Z) &&
    bool_decide (lt_source t = Erc20Balance 1 (Some 1%Z))) (targets demo_live) = true) as H
    by (vm_compute; reflexivity).
  apply existsb_exists in H as (t & Ht & Hb). apply list_elem_of_In, list_elem_of_lookup in Ht as [i Ht].
  apply andb_prop in Hb as [Hb Hs]. apply andb_prop in Hb as [Ha Htk].
  rewrite bool_decide_eq_true in Hs, Htk. exists i, t. split_and!; assumption.
Qed.

#[local] Opaque demo_live.

Lemma reseeded_slot_still_written_witness :
  ∃ n ix1 k ix2 i t,
    set_erc20_balance_slot 20 1 7 demo_live = Some (n, ix1) ∧
    apply_storage_updates [UpdateSlot 20 1 42] ix1 = Some (k, ix2) ∧
    targets ix2 !! i = Some t ∧ lt_balance t = BalanceFresh 42.
Proof.
  destruct demo_live_target as [i Hi].
  destruct (reseeded_slot_still_written demo_layout demo_live 20%Z 1%Z 1%Z 7%Z i 42%Z (proj1 demo_live_ok) Hi)
    as (n & ix1 & k & ix2 & t & H1 & H2 & H3 & _ & H4); [done|].
  exists n, ix1, k, ix2, i, t. split_and!; assumption.
Defined.
