(* ===== verification/HeuristicWitnesses.v ===== *)
(** * Witnesses: the heuristic search

    The theorems about the heuristic search applied to the market of [Concrete]:
    four pools over three tokens, and a variant whose pools pay at most 1000. *)

From S2P Require Import Prelude Ordering AmmState Petgraph Graph GraphInv GraphProps GraphTheorems.
From S2P Require Import Config SearchTypes Enumerate EnumerateProps EnumerateTheorems Liquidity.
From S2P Require Import QuoteCache QuoteCacheProps Quote QuoteProps Ranking Heuristic.
From S2P Require Import HeuristicProps HeuristicSearch HeuristicSteps HeuristicRun.
From S2P Require Import HeuristicTheorems HeuristicPruning Searcher SearchTheorems ModeTheorems.
From S2P Require Import Concrete Witnesses SearchWitnesses.

#[local] Opaque demo_graph.

(** ** A search that prunes nothing *)

(** No beam, no dominance, no shortlist; room for eight parallel edges and two
    finalists. *)
Definition demo_heuristic : HeuristicSearchConfig :=
  {| max_auto_connectors := 8; min_auto_connector_degree := 1; beam_width := None;
     parallel_edge_limit := 8; simulate_finalists := true; max_finalists := 2;
     target_first := true; prefix_dominance := false;
     fast_lane := FastLaneConfig_enabled;
     edge_shortlist := AdaptiveEdgeShortlistConfig_disabled;
     upper_bound_pruning := UpperBoundPruningConfig_disabled |}.

Definition demo_heuristic_config : SearchConfig :=
  with_mode (ModeHeuristic demo_heuristic)
    (with_connector_tokens [20%Z] (rr_config demo_request)).
Definition demo_heuristic_request : RouteRequest :=
  rr_with_config demo_heuristic_config demo_request.

Example heuristic_runs :
  match find_routes demo_s demo_heuristic_request demo_cache with
  | Some (Ok quotes, _) => rq_amount_out <$> quotes = [3150%Z; 3000%Z]
  | _ => False
  end.
Proof. vm_compute. reflexivity. Qed.

Lemma demo_heuristic_env :
  heuristic_env (as_registry demo_s) (as_graph demo_s) demo_inv (demo_sim demo_rate)
    ContextStatic 10 30 demo_heuristic_config demo_heuristic false.
Proof.
  constructor.
  - apply demo_simulates.
  - apply scope_inj_static.
  - apply demo_graph_ok.
  - reflexivity.
  - reflexivity.
  - discriminate.
  - by left.
Qed.

Lemma demo_degree : max_out_degree (as_graph demo_s) ≤ 8.
Proof. apply Nat.leb_le. vm_compute. reflexivity. Qed.

Lemma demo_unpruned :
  unpruned (S := ()) (as_registry demo_s) (as_graph demo_s) (as_liquidity_index demo_s)
    demo_heuristic_config demo_heuristic demo_cfg None (demo_sim demo_rate) ContextStatic.
Proof. constructor; try done. apply demo_degree. Qed.

Lemma demo_usable :
  usable_caches (as_registry demo_s) demo_inv (demo_sim demo_rate) ContextStatic
    (with_context ContextStatic) demo_cache.
Proof. split; [apply coherent_empty|apply demo_cache_inv]. Qed.

Lemma heuristic_search_sound_witness :
  ∃ out : result SearchError HeuristicRoutesReport,
    match out with
    | Ok report => hr_quotes report ≠ [] ∧ length (hr_quotes report) ≤ 2
    | Err e => match e with ErrNoPath _ _ | ErrNoViableRoute _ _ => True | _ => False end
    end.
Proof.
  destruct (heuristic_search_sound (S := ()) (as_registry demo_s) (as_graph demo_s) None demo_inv
    (demo_sim demo_rate) ContextStatic 10 30 0 2 1000 demo_heuristic_config demo_heuristic demo_cfg
    false FullRun None () demo_cache (with_context ContextStatic) demo_heuristic_env
    (proj1 demo_nodes) (proj2 demo_nodes) demo_usable) as (out & _ & Hout).
  exists out. destruct out as [report|[]]; try done.
  destruct Hout as (_ & _ & Hlen & Hne & _). split; [by apply Hne|exact Hlen].
Defined.

Lemma heuristic_search_optimal_witness :
  ∃ out r, find_routes_heuristic_with_cache_observed (S := ()) (as_registry demo_s)
    (as_graph demo_s) None 10 30 1000 demo_heuristic_config demo_heuristic demo_cfg demo_cache
    (with_context ContextStatic) false FullRun None () = Some (out, r).
Proof.
  destruct (heuristic_search_optimal (S := ()) (as_registry demo_s) (as_graph demo_s) None demo_inv
    (demo_sim demo_rate) ContextStatic 10 30 0 2 1000 demo_heuristic_config demo_heuristic demo_cfg
    false None () demo_cache (with_context ContextStatic) demo_heuristic_env demo_unpruned
    (proj1 demo_nodes) (proj2 demo_nodes) demo_usable) as (out & r & H1 & _).
  exists out, r. exact H1.
Defined.

Lemma heuristic_refines_exhaustive_witness :
  ∃ res cache' res' cache'',
    find_routes demo_s demo_heuristic_request demo_cache = Some (res, cache') ∧
    find_routes demo_s (rr_with_config (exhaustive demo_heuristic_config) demo_heuristic_request)
      demo_cache = Some (res', cache'') ∧
    truncates 2 res res'.
Proof.
  apply (heuristic_refines_exhaustive demo_s demo_inv (demo_sim demo_rate) demo_cache
    demo_heuristic_request demo_heuristic {[20%Z]} 0 2 demo_env).
  - reflexivity.
  - reflexivity.
  - reflexivity.
  - intros h [= <-]. split; [discriminate|by left].
  - apply demo_unpruned.
  - reflexivity.
  - exact (proj1 demo_nodes).
  - exact (proj2 demo_nodes).
Defined.

(** ** Dominance and reachability *)

Definition demo_label (amount : Z) (tokens : gset Z) : PrefixLabel :=
  {| pl_amount := amount; pl_visited_tokens := tokens; pl_used_pools := ∅ |}.

Lemma dominance_index_pareto_witness :
  (insert_or_dominated 20 (demo_label 5 {[10%Z]})
     (insert_labels [(20%Z, demo_label 5 {[10%Z]}); (20%Z, demo_label 7 {[10%Z; 30%Z]})])).1 = true.
Proof.
  destruct (dominance_index_pareto
    [(20%Z, demo_label 5 {[10%Z]}); (20%Z, demo_label 7 {[10%Z; 30%Z]})] 20
    (demo_label 5 {[10%Z]})) as (_ & _ & _ & H). apply H. by left.
Defined.

Lemma static_route_check_exact_witness :
  has_static_route_to_target demo_graph 10 30 0 2 (connector_tokens demo_heuristic_config) false 0
    {[10%Z]} ∅ 2 = true ↔
  ∃ q, q ≠ [] ∧ length q ≤ 2 ∧ open_route demo_graph 10 30 demo_heuristic_config false ([] ++ q).
Proof.
  apply (static_route_check_exact demo_graph 10 30 0 2 demo_heuristic_config false 2
    (initial_state 10 0) (proj1 demo_graph_ok) (proj1 demo_nodes) (proj2 demo_nodes)).
  - apply (initial_state_ok demo_graph 10 30 0 2 demo_heuristic_config (proj1 demo_graph_ok)
      (proj1 demo_nodes) (proj2 demo_nodes)).
  - discriminate.
Defined.

(** ** The balance cap *)

(** Pools that pay at most 1000, and an index that knows what pools 2 and 3 hold
    of token 30. *)
Definition capped_sim (cfg : @SimConfig demo_types) (h : Hop) (amount : U256) :
    result SimError U256 :=
  match demo_sim demo_rate cfg h amount with Ok out => Ok (Z.min out 1000) | Err e => Err e end.

Definition capped_adapter : Adapter := λ pool c tin tout amount cfg,
  (capped_sim cfg {| hop_pool := reg_key pool; hop_token_in := tin; hop_token_out := tout |}
     amount, (c + 1)%Z).
Definition capped_registry : AdapterRegistry :=
  {| registry_pools := demo_pools; registry_pool := registry_pool demo_reg;
     registry_adapter := λ _, Some capped_adapter |}.

Definition capped_target : PoolLiquidityTarget :=
  {| lt_token := 30; lt_source := SourceUnknown; lt_balance := BalanceFresh 1000;
     lt_active := true |}.
Definition capped_index : PoolLiquidityIndex :=
  {| targets := [capped_target; capped_target];
     by_pool_token := <[(2%Z : PoolKey, 30%Z) := 0]> (<[(3%Z : PoolKey, 30%Z) := 1]> ∅);
     by_token_holder := ∅; by_storage_slot := ∅; by_pool := ∅; pool_token_counts := ∅;
     free_targets := [] |}.

Lemma capped_pays :
  pays_from_balance capped_registry (Some capped_index) demo_cfg capped_sim ContextStatic.
Proof.
  intros index hop amount out b [= <-] Hout Hb.
  assert (out <= 1000)%Z as Hle.
  { revert Hout. unfold hop_quote, hop_result. destruct (quote_key _ _ _ _); [|done].
    destruct (registry_pool _ _); [|done]. simpl. unfold capped_sim.
    destruct (demo_sim _ _ _ _); [|done]. simpl. intros [= <-]. lia. }
  assert (b = 1000%Z) as ->; [|done]. revert Hb. unfold balance_state. cbn [by_pool_token capped_index].
  destruct (_ !! _) as [i|] eqn:Hi; [|done].
  rewrite !lookup_insert_Some, lookup_empty in Hi.
  destruct Hi as [[_ <-]|[_ [[_ <-]|[_ [=]]]]]; simpl; congruence.
Qed.

Lemma upper_bound_pruning_safe_witness :
  ∃ inc, Some 1000%Z = Some inc ∧
    ∀ q rq, q ≠ [] →
      valid_route demo_graph 10 30 (cfg demo_heuristic_config (Some {[20%Z]})) false q →
      path_quote capped_registry capped_sim demo_cfg ContextStatic q 1000 = Ok rq →
      (rq_amount_out rq <= inc)%Z.
Proof.
  assert (Hprune : (fst <$> should_prune_upper_bound_prefix demo_graph (Some capped_index) 30 2 false
    (initial_heuristic_state 10 0 1000) 2 (Some 1000%Z) UpperBoundPruningConfig_conservative
    (with_context ContextStatic)) = Some true) by (vm_compute; reflexivity).
  destruct (should_prune_upper_bound_prefix _ _ _ _ _ _ _ _ _ _) as [[b qc]|] eqn:Heq; [|done].
  injection Hprune as ->.
  apply (upper_bound_pruning_safe capped_registry demo_graph (Some capped_index) 10 30 0 2 1000
    demo_heuristic_config demo_cfg (Some {[20%Z]}) false capped_sim ContextStatic
    (initial_heuristic_state 10 0 1000) (Some 1000%Z) UpperBoundPruningConfig_conservative
    (with_context ContextStatic) qc (proj1 demo_graph_ok) (proj1 demo_nodes) (proj2 demo_nodes)).
  - constructor; [|done]. apply (initial_state_ok demo_graph 10 30 0 2
      (cfg demo_heuristic_config (Some {[20%Z]})) (proj1 demo_graph_ok)
      (proj1 demo_nodes) (proj2 demo_nodes)).
  - apply capped_pays.
  - exact Heq.
Defined.
