(* ===== verification/StreamWitnesses.v ===== *)
(** * Witnesses: the streaming driver

    The theorems about the streaming driver applied to the market of [Concrete],
    searched by two worker threads. *)

From S2P Require Import Prelude Ordering AmmState Petgraph Graph GraphInv GraphProps GraphTheorems.
From S2P Require Import Config SearchTypes Enumerate EnumerateProps EnumerateTheorems Liquidity.
From S2P Require Import QuoteCache QuoteCacheProps Quote QuoteProps Ranking Heuristic.
From S2P Require Import HeuristicSearch HeuristicSteps HeuristicWatch HeuristicTheorems Workers WorkersProps.
From S2P Require Import WorkersTheorems Searcher SearchTheorems.
From S2P Require Import Streaming StreamingProps StreamingTheorems Session SessionProps.
From S2P Require Import SessionTheorems StreamDriver StreamDriverProps StreamDriverRun.
From S2P Require Import StreamDriverTheorems Concrete Witnesses SearchWitnesses.
From S2P Require Import HeuristicWitnesses.

#[local] Opaque demo_graph.

Definition demo_accept : Callback := λ _ _, Continue.

Definition demo_streaming (c : StreamingCompletion) : StreamingSearchConfig :=
  {| completion := c; parallel := {| workers := 2 |}; emit_all_viable := true; top_k := 2;
     stop_policy := None; initial_result_policy := None |}.

Definition demo_schedule : list Move := demo_moves.

(** A heuristic without connectors: it finds the direct route only and leaves the
    others to the exhaustive phase. *)
Definition narrow_heuristic : HeuristicSearchConfig :=
  {| max_auto_connectors := 0; min_auto_connector_degree := 1; beam_width := Some 1;
     parallel_edge_limit := 1; simulate_finalists := true; max_finalists := 1;
     target_first := true; prefix_dominance := true;
     fast_lane := FastLaneConfig_disabled;
     edge_shortlist := AdaptiveEdgeShortlistConfig_disabled;
     upper_bound_pruning := UpperBoundPruningConfig_disabled |}.

Definition demo_stream_request : RouteRequest :=
  rr_with_config (with_mode (ModeHeuristic narrow_heuristic) (rr_config demo_request)) demo_request.

Definition demo_stream_run (request : RouteRequest) (c : StreamingCompletion) : option StreamRun :=
  stream_routes_parallel_with_cache demo_s request (SourceCache demo_cache) (demo_streaming c)
    demo_schedule demo_accept None (new_quote_cache demo_s).

Example stream_runs :
  match demo_stream_run demo_stream_request CompletionExhaustive with
  | Some (Ok r, tr, _) =>
      rq_amount_out <$> sr_quotes r = [2500%Z; 3000%Z; 3150%Z] ∧
      rep_finality (sr_report r) = FinalityExhaustive ∧
      rep_improvements_after_heuristic (sr_report r) = 2%Z
  | _ => False
  end.
Proof. vm_compute. done. Qed.

(** The candidate limit of the request is reached in the fast lane. *)
Definition limited_request : RouteRequest :=
  rr_with_config (with_mode (ModeHeuristic demo_heuristic)
    (with_max_candidates 1 (rr_config demo_request))) demo_request.

Lemma limited_run :
  match demo_stream_run limited_request CompletionExhaustive with
  | Some (Ok r, tr, _) =>
      bool_decide (rq_amount_out <$> sr_quotes r = [2500%Z; 3150%Z]) &&
      bool_decide (rep_finality (sr_report r) = Stopped) &&
      forallb (λ e, match e with EvCompleted _ => false | _ => true end) tr
  | _ => false
  end = true.
Proof. vm_compute. reflexivity. Qed.

(** A candidate limit reached in the fast lane ends a streamed search as if
    the callback had stopped it.  Here the callback accepts every event, there is
    no stop policy and no cancellation, and the search is asked for the exhaustive
    completion with at most one candidate: the fast lane evaluates two routes,
    the report has finality [Stopped] and no [Completed] event is emitted. *)
Example fast_lane_limit_reports_stopped :
  match demo_stream_run limited_request CompletionExhaustive with
  | Some (Ok r, tr, _) =>
      max_candidates (rr_config limited_request) = Some 1 ∧
      rq_amount_out <$> sr_quotes r = [2500%Z; 3150%Z] ∧
      rep_finality (sr_report r) = Stopped ∧
      Forall (λ e, match e with EvCompleted _ => False | _ => True end) tr
  | _ => False
  end.
Proof.
  pose proof limited_run as H.
  destruct (demo_stream_run limited_request CompletionExhaustive) as [[[[r|e] tr] qc]|]; [|done..].
  rewrite !andb_true_iff, !bool_decide_eq_true in H. destruct H as [[H1 H2] H3].
  split_and!; [reflexivity|exact H1|exact H2|]. apply Is_true_true, forallb_True in H3.
  eapply Forall_impl; [exact H3|]. by intros [].
Qed.

(** ** The theorems applied *)

Lemma demo_stream_env request c :
  c = SourceCache demo_cache →
  token_in request = 10%Z → token_out request = 30%Z →
  target_first (request_heuristic request) = true →
  stream_env demo_s demo_inv (demo_sim demo_rate) request c.
Proof.
  intros -> Hi Ho Htf. constructor.
  - apply demo_simulates.
  - apply scope_inj_static.
  - apply demo_graph_ok.
  - apply demo_cache_inv.
  - by rewrite Hi, Ho.
  - by left.
Qed.

Lemma demo_coherent :
  coherent (as_registry demo_s) (demo_sim demo_rate) (as_quote_context demo_s)
    (new_quote_cache demo_s).
Proof. apply coherent_empty. Qed.

Lemma demo_outcome_some : ∃ r tr qc,
  demo_stream_run demo_stream_request CompletionExhaustive = Some (Ok r, tr, qc) ∧
  rep_finality (sr_report r) = FinalityExhaustive.
Proof.
  assert (match demo_stream_run demo_stream_request CompletionExhaustive with
          | Some (Ok r, _, _) => bool_decide (rep_finality (sr_report r) = FinalityExhaustive)
          | _ => false
          end = true) as H by (vm_compute; reflexivity).
  destruct (demo_stream_run demo_stream_request CompletionExhaustive) as [[[[r|e] tr] qc]|]; [|done..].
  exists r, tr, qc. split; [done|]. by apply bool_decide_eq_true in H.
Qed.

Lemma streamed_search_sound_witness : ∃ r tr qc,
  demo_stream_run demo_stream_request CompletionExhaustive = Some (Ok r, tr, qc) ∧
  rep_best (sr_report r) = head (ranking (sr_quotes r)).
Proof.
  destruct demo_outcome_some as (r & tr & qc & Hrun & _). exists r, tr, qc. split; [exact Hrun|].
  apply (streamed_search_sound demo_s demo_inv (demo_sim demo_rate) demo_stream_request
    (SourceCache demo_cache) (demo_streaming CompletionExhaustive) demo_schedule demo_accept None
    (new_quote_cache demo_s) r tr qc).
  - apply demo_stream_env; reflexivity.
  - exact demo_coherent.
  - exact Hrun.
Defined.

Lemma exhaustive_finality_complete_witness : ∃ r tr qc,
  demo_stream_run demo_stream_request CompletionExhaustive = Some (Ok r, tr, qc) ∧
  ∀ p q, valid_route (as_graph demo_s) 10 30 (rr_config demo_stream_request) false p →
    path_quote (as_registry demo_s) (demo_sim demo_rate) (rr_sim_config demo_stream_request)
      (as_quote_context demo_s) p 1000 = Ok q → q ∈ sr_quotes r.
Proof.
  destruct demo_outcome_some as (r & tr & qc & Hrun & Hfin). exists r, tr, qc.
  split; [exact Hrun|]. intros p q Hv Hq.
  apply (exhaustive_finality_complete demo_s demo_inv (demo_sim demo_rate) demo_stream_request
    (SourceCache demo_cache) (demo_streaming CompletionExhaustive) demo_schedule demo_accept None
    (new_quote_cache demo_s) r tr qc) with (p := p).
  - apply demo_stream_env; reflexivity.
  - exact demo_coherent.
  - reflexivity.
  - exact Hrun.
  - exact Hfin.
  - exact Hv.
  - exact Hq.
Defined.

Lemma streamed_search_returns_witness : ∃ res tr qc,
  demo_stream_run demo_stream_request CompletionExhaustive = Some (res, tr, qc) ∧
  match res with
  | Ok r => rep_finality (sr_report r) = FinalityExhaustive
  | Err _ => True
  end.
Proof.
  destruct (streamed_search_returns demo_s demo_inv (demo_sim demo_rate) demo_stream_request
    (SourceCache demo_cache) (demo_streaming CompletionExhaustive) demo_schedule demo_accept None
    (new_quote_cache demo_s)) as (res & tr & qc & Hrun & _ & Hres).
  - apply demo_stream_env; reflexivity.
  - exact demo_coherent.
  - exists res, tr, qc. split; [exact Hrun|]. destruct res as [r|e]; [|exact I].
    apply Hres. constructor; reflexivity.
Defined.

(** A session started from the same search. *)
Definition demo_start : option (result SearchError RouteSearchSession) :=
  start_route_session demo_s demo_stream_request demo_cache (demo_streaming CompletionExhaustive)
    demo_schedule demo_accept.

Lemma demo_start_some : ∃ session, demo_start = Some (Ok session).
Proof.
  assert (match demo_start with Some (Ok _) => true | _ => false end = true) as H
    by (vm_compute; reflexivity).
  destruct demo_start as [[session|e]|]; [by exists session|done..].
Qed.


(** ** Worker threads *)

(** An observer that keeps every quote. *)
Definition demo_keep (q : RouteQuote) (seen : list RouteQuote) : bool * list RouteQuote :=
  (true, seen ++ [q]).

(** Two threads quote the same path.  The second waits for the first hop, wakes
    up once for nothing, is woken when the first publishes it, looks it up, asks
    for the second hop and its adapter panics; the first thread takes that key
    over, sends its quote and ends. *)
Definition demo_chunks : list (list RoutePath) := [[demo_path]; [demo_path]].
Definition demo_panic_moves : list Move :=
  [WorkerTurn 0; WorkerTurn 1; SpuriousWakeup 1; WorkerTurn 1] ++
  [WorkerTurn 0; WorkerTurn 0; WorkerTurn 1; WorkerTurn 1; WorkerTurn 0; AdapterPanic 1] ++
  replicate 7 (WorkerTurn 0) ++ [CoordinatorTurn; CoordinatorTurn].

Definition demo_workers : WorkerSystem (list RouteQuote) :=
  spawn_workers ContextStatic demo_cfg 1000 true demo_cache demo_chunks (with_context ContextStatic) [].
Definition demo_workers_end : option (WorkerSystem (list RouteQuote)) :=
  execution demo_reg demo_cfg demo_keep demo_panic_moves demo_workers.

Lemma demo_workers_run :
  match demo_workers_end with
  | Some sys =>
      system_ended sys && bool_decide (rq_amount_out <$> ws_observer sys = [3000%Z]) &&
      match join_workers (ws_threads sys) with Err ErrWorkerPanic => true | _ => false end
  | None => false
  end = true.
Proof. vm_compute. reflexivity. Qed.

Lemma workers_finish_witness : ∃ sys,
  demo_workers_end = Some sys ∧ system_ended sys = true ∧
  threads_done demo_reg (demo_sim demo_rate) ContextStatic demo_cfg 1000 true demo_keep [] demo_chunks
    demo_panic_moves sys.
Proof.
  pose proof demo_workers_run as Hrun. destruct demo_workers_end as [sys|] eqn:Hend; [|discriminate].
  apply andb_true_iff in Hrun as [[Hended _]%andb_true_iff _].
  exists sys. split; [reflexivity|]. split; [exact Hended|].
  destruct (workers_finish demo_reg demo_inv (demo_sim demo_rate) ContextStatic demo_cfg 1000 true demo_keep []
    demo_chunks demo_cache (with_context ContextStatic) demo_panic_moves sys) as (_ & _ & Hdone).
  - apply demo_simulates.
  - apply scope_inj_static.
  - apply coherent_empty.
  - apply demo_cache_inv.
  - exact Hend.
  - exact (Hdone Hended).
Defined.
