(* ===== verification/LiveWitnesses.v ===== *)
(** * Witnesses: the live graph

    A runtime of two snapshots in the environment of [Concrete]: a commit
    replaces the pool parallel to another one, and the live graph follows it,
    recovers to it and is searched on it. *)

From S2P Require Import Prelude AmmState Petgraph Graph GraphPairs GraphInv GraphProps GraphTheorems.
From S2P Require Import Config SearchTypes Liquidity LiquidityProps LiquidityBuild LiquidityTheorems.
From S2P Require Import QuoteCache Quote QuoteProps Searcher SearchTheorems LiveState LiveGraph.
From S2P Require Import LiveGraphProps LiveGraphTheorems LiveView Concrete Witnesses LiquidityWitnesses.

(** The tokens of the metadata. *)
Definition metadata_tokens (r : PoolRegistration) : option (list Address) :=
  match reg_metadata r with
  | ProtocolMetadata.UniswapV2 (Some a) (Some b) _
  | ProtocolMetadata.UniswapV3 (Some a) (Some b) _
  | ProtocolMetadata.PancakeV3 (Some a) (Some b) _
  | ProtocolMetadata.Slipstream (Some a) (Some b) _
  | ProtocolMetadata.SolidlyV2 (Some a) (Some b) => Some [a; b]
  | ProtocolMetadata.BalancerV2 tokens _ _ => Some tokens
  | ProtocolMetadata.Curve coins _ => Some coins
  | _ => None
  end.

#[export] Instance demo_live_types : AmmLive := {|
  AmmRuntimeId := Z;
  AmmRuntimeId_eq_dec := _;
  PoolRevision_eq_dec := Z.eq_dec;
  pool_key_le := Z.leb;
  version_next := λ v, u64_checked_add v 1;
  registration_tokens := metadata_tokens;
  storage_value := λ _ address slot, Some (address * 100 + slot)%Z;
|}.

Lemma demo_documented : tokens_documented.
Proof.
  assert (∀ tokens ts, normalize_tokens tokens = Ok ts → sorted_tokens tokens = ts) as Hn.
  { intros tokens ts. unfold normalize_tokens. case_decide; [done|]. by intros [= <-]. }
  intros r ts. unfold tokens_for_pool, registration_tokens, demo_live_types, metadata_tokens.
  destruct (reg_metadata r) as [[] []|[] []|[] []|[] []|[] []| | | |]; try done; intros Hts%Hn; eauto.
Qed.

Lemma demo_counted : versions_counted.
Proof. intros v w. simpl. unfold u64_checked_add. case_decide; [|done]. by intros [= <-]. Qed.

Definition demo_snapshot (ver : Z) (pools : list PoolRegistration) : AmmStateSnapshot :=
  {| ss_runtime_id := 77%Z : AmmRuntimeId; ss_version := ver; ss_point := ver : AmmStatePoint;
     ss_registry :=
       {| rs_registry := demo_registry demo_rate pools;
          rs_pools := (λ p, (reg_key p, reg_key p : PoolInstanceId)) <$> pools;
          rs_pool_instance := λ k,
            (reg_key : PoolRegistration → PoolInstanceId) <$>
              registry_pool (demo_registry demo_rate pools) k;
          rs_pool := registry_pool (demo_registry demo_rate pools) |};
     ss_pool_revision := λ _, Some (0%Z : PoolRevision);
     ss_cache := 0%Z : AdapterCache |}.

Lemma demo_snapshot_wf ver pools : NoDup (reg_key <$> pools) → snapshot_wf (demo_snapshot ver pools).
Proof.
  intros Hnd. pose proof (demo_registry_wf demo_rate pools Hnd) as Hreg.
  assert (∀ k (i : PoolInstanceId), rs_pool_instance (ss_registry (demo_snapshot ver pools)) k = Some i →
    i = k) as Hik.
  { intros k i (r & Hr & ->)%fmap_Some. by apply (registry_pool_spec _ Hreg) in Hr as [_ ?]. }
  constructor.
  - exact Hreg.
  - intros k i. unfold demo_snapshot. cbn [ss_registry rs_pools rs_pool_instance]. rewrite fmap_Some.
    setoid_rewrite (registry_pool_spec _ Hreg). rewrite list_elem_of_fmap. split.
    + intros (r & [= -> ->] & Hr). by exists r.
    + intros (r & [Hr <-] & ->). by exists r.
  - intros k. unfold demo_snapshot. cbn [ss_registry rs_registry rs_pool_instance]. by rewrite fmap_is_Some.
  - intros k i Hi. by rewrite (Hik k i Hi).
  - intros k i Hi. apply (Hik k i Hi).
  - by eexists.
Qed.

(** Pool 4, parallel to pool 1, goes and pool 5, parallel to pool 2, comes. *)
Definition demo_pools2 : list PoolRegistration :=
  [demo_pool 1 10 20; demo_pool 2 20 30; demo_pool 3 10 30; demo_pool 5 20 30].
Definition demo_old : AmmStateSnapshot := demo_snapshot 1 demo_pools.
Definition demo_new : AmmStateSnapshot := demo_snapshot 2 demo_pools2.
Definition demo_commit : AmmStateCommit :=
  {| commit_snapshot := demo_new;
     commit_changes := {| cs_version := 2; cs_point := 2%Z : AmmStatePoint;
       cs_pool_changes := [4%Z : PoolInstanceId; 5%Z : PoolInstanceId];
       cs_requires_full_refresh := false |} |}.

Lemma demo_old_wf : snapshot_wf demo_old.
Proof. apply demo_snapshot_wf, demo_pools_nodup. Qed.
Lemma demo_new_wf : snapshot_wf demo_new.
Proof. apply demo_snapshot_wf. apply (bool_decide_unpack _). vm_compute. done. Qed.

Lemma demo_commit_complete : commit_complete demo_old demo_commit.
Proof.
  intros k Hk. assert (k ≠ 4%Z ∧ k ≠ 5%Z) as [H4 H5].
  { split; intros ->; apply Hk; vm_compute; [left|right; left]. }
  destruct (decide (k = 1%Z)) as [->|H1]; [reflexivity|].
  destruct (decide (k = 2%Z)) as [->|H2]; [reflexivity|].
  destruct (decide (k = 3%Z)) as [->|H3]; [reflexivity|].
  unfold active_pool. simpl. repeat (rewrite decide_False by done; simpl). done.
Qed.

Lemma demo_sources : sources_kept demo_old demo_new.
Proof.
  intros k i r r' rev rev' Ha Ha' _.
  destruct (decide (k = 4%Z)) as [->|H4]; [done|]. destruct (decide (k = 5%Z)) as [->|H5]; [done|].
  pose proof (demo_commit_complete k) as Hk. unfold demo_commit in Hk. cbn [commit_snapshot] in Hk.
  rewrite Ha, Ha' in Hk. assert (r' = r) as ->; [|done].
  assert (Some (i, r', rev') = Some (i, r, rev)) as Heq; [|congruence]. apply Hk.
  unfold changed_pools. simpl. set_solver.
Qed.

Lemma demo_commit_ok : commit_ok demo_old demo_commit.
Proof. constructor; [apply demo_new_wf|apply demo_commit_complete|apply demo_sources]. Qed.

(** The live graph before and after, and the rebuild. *)
Definition demo_built_live (s : AmmStateSnapshot) (lin : Z) : option (LiveAmmGraph * Z) :=
  match from_snapshot_with_liquidity_scope s GraphBuildOptions_default ParallelEdgeOutputs lin with
  | Some (Ok l, lin) => Some (l, lin)
  | _ => None
  end.
Definition demo_no_live : LiveAmmGraph :=
  {| live_graph := AmmGraph_empty {| lineage := 0; revision := 0 |};
     live_runtime_id := 0%Z : AmmRuntimeId; live_state_version := 0;
     live_point := 0%Z : AmmStatePoint; live_options := GraphBuildOptions_default;
     live_liquidity_scope := ParallelEdgeOutputs; live_liquidity := PoolLiquidityIndex_default;
     live_indexed := ∅ |}.
Definition demo_live : LiveAmmGraph := default demo_no_live (fst <$> demo_built_live demo_old 7).
Definition demo_rebuilt : LiveAmmGraph := default demo_no_live (fst <$> demo_built_live demo_new 8).

Definition demo_applied : option (GraphDelta * LiveAmmGraph * Z) :=
  match apply_commit demo_commit demo_live 8%Z with
  | Some (Ok (d, l), lin) => Some (d, l, lin)
  | _ => None
  end.
Definition demo_no_delta : GraphDelta :=
  Build_GraphDelta 0 (0%Z : AmmStatePoint) {| lineage := 0; revision := 0 |}
    {| lineage := 0; revision := 0 |} ImpactUnchanged [] PoolLiquidityMutationReport_default.
Definition demo_delta_of : GraphDelta := default demo_no_delta (fst ∘ fst <$> demo_applied).
Definition demo_followed : LiveAmmGraph := default demo_no_live (snd ∘ fst <$> demo_applied).

Lemma demo_built_live_eq s lin :
  snapshot_wf s → (lin < u64_max)%Z →
  from_snapshot_with_liquidity_scope s GraphBuildOptions_default ParallelEdgeOutputs lin =
  Some (Ok (default demo_no_live (fst <$> demo_built_live s lin)), lin + 1)%Z.
Proof.
  intros Hs Hlin.
  destruct (from_snapshot_ok demo_layout GraphBuildOptions_default ParallelEdgeOutputs s lin
    demo_documented Hs Hlin) as (l & Heq & _).
  unfold demo_built_live. rewrite Heq. reflexivity.
Qed.

Lemma demo_live_eq :
  from_snapshot_with_liquidity_scope demo_old GraphBuildOptions_default ParallelEdgeOutputs 7%Z =
  Some (Ok demo_live, 8%Z).
Proof. apply (demo_built_live_eq demo_old 7); [apply demo_old_wf|reflexivity]. Qed.
Lemma demo_rebuilt_eq :
  from_snapshot_with_liquidity_scope demo_new GraphBuildOptions_default ParallelEdgeOutputs 8%Z =
  Some (Ok demo_rebuilt, 9%Z).
Proof. apply (demo_built_live_eq demo_new 8); [apply demo_new_wf|reflexivity]. Qed.

Lemma demo_live_facts :
  live_ok demo_layout demo_old demo_live ∧ live_options demo_live = GraphBuildOptions_default ∧
  live_liquidity_scope demo_live = ParallelEdgeOutputs ∧
  live_version demo_live = {| lineage := 7; revision := 0 |}.
Proof.
  exact (from_snapshot_inv demo_layout GraphBuildOptions_default ParallelEdgeOutputs demo_old 7%Z
    demo_live 8%Z demo_documented demo_old_wf demo_live_eq).
Qed.

Lemma demo_live_matches :
  live_runtime_id demo_live = (77%Z : AmmRuntimeId) ∧ live_state_version demo_live = 1%Z.
Proof.
  destruct demo_live_facts as ([Hm _ _ _ _ _] & _). apply matches_snapshot_spec in Hm as (H1 & H2 & _).
  split; [exact H1|exact H2].
Qed.

Lemma demo_room : version_room demo_live demo_commit 8%Z.
Proof.
  unfold version_room. destruct demo_live_facts as (_ & _ & _ & ->). simpl. by split.
Qed.

Lemma demo_commit_applies :
  ∃ d l' lin', apply_commit demo_commit demo_live 8%Z = Some (Ok (d, l'), lin') ∧
    moved demo_layout demo_old demo_new demo_live d l'.
Proof.
  destruct demo_live_matches as [Hrt Hver].
  apply (apply_commit_ok demo_layout); [apply demo_counted|apply demo_old_wf|apply demo_commit_ok
    |apply demo_live_facts|apply demo_room| |done|done|]; [by rewrite Hrt|by rewrite Hver].
Qed.

Lemma demo_followed_eq : ∃ lin',
  apply_commit demo_commit demo_live 8%Z = Some (Ok (demo_delta_of, demo_followed), lin') ∧
  moved demo_layout demo_old demo_new demo_live demo_delta_of demo_followed.
Proof.
  destruct demo_commit_applies as (d & l' & lin' & Heq & Hmv). exists lin'.
  assert (demo_applied = Some (d, l', lin')) as Happ by (unfold demo_applied; rewrite Heq; reflexivity).
  assert (demo_delta_of = d) as -> by (unfold demo_delta_of; rewrite Happ; reflexivity).
  assert (demo_followed = l') as -> by (unfold demo_followed; rewrite Happ; reflexivity).
  split; [exact Heq|exact Hmv].
Qed.

#[local] Opaque demo_live demo_followed demo_rebuilt demo_delta_of.

Lemma apply_commit_correct_witness :
  ∃ d l' lin', apply_commit demo_commit demo_live 8%Z = Some (Ok (d, l'), lin') ∧
    moved demo_layout demo_old demo_new demo_live d l'.
Proof.
  pose proof (apply_commit_correct demo_layout demo_old demo_live demo_commit 8%Z demo_counted
    demo_old_wf demo_commit_ok (proj1 demo_live_facts) demo_room) as H.
  destruct demo_live_matches as [Hrt Hver]. cbn zeta in H. rewrite Hrt, Hver in H.
  rewrite !decide_False in H; [exact H|..]; intros Hn; vm_compute in Hn; intuition congruence.
Defined.

(** The commit, and the balances of pool 1 seeded and read. *)
Lemma demo_steps : rtc (live_step demo_layout) (demo_old, demo_live) (demo_new, demo_followed).
Proof.
  destruct demo_followed_eq as (lin' & Heq & _). apply rtc_once.
  change demo_new with (commit_snapshot demo_commit).
  eapply (live_commit demo_layout); [apply demo_commit_ok|apply demo_room|exact Heq].
Qed.

Lemma live_graph_agrees_with_rebuild_witness :
  matches_snapshot demo_followed demo_new = true ∧
  live_indexed demo_followed = live_indexed demo_rebuilt ∧
  pool_tokens (live_graph demo_followed) = pool_tokens (live_graph demo_rebuilt) ∧
  ∀ p tk, tracked (live_liquidity demo_followed) (p, tk) = tracked (live_liquidity demo_rebuilt) (p, tk).
Proof.
  destruct (live_graph_agrees_with_rebuild demo_layout GraphBuildOptions_default ParallelEdgeOutputs
    demo_old 7%Z demo_live 8%Z demo_new demo_followed 8%Z demo_rebuilt 9%Z demo_documented
    demo_counted demo_old_wf demo_live_eq demo_steps demo_rebuilt_eq)
    as (H1 & _ & _ & H2 & H3 & _ & _ & H4 & _).
  split; [exact H1|split; [exact H2|split; [exact H3|exact H4]]].
Defined.

Lemma reconcile_snapshot_correct_witness :
  ∃ d l', reconcile_snapshot demo_new demo_live 8%Z = Some (Ok (d, l'), 9%Z) ∧
    moved demo_layout demo_old demo_new demo_live d l'.
Proof.
  assert (revision (live_version demo_live) < u64_max)%Z as Hrev
    by (destruct demo_live_facts as (_ & _ & _ & ->); reflexivity).
  pose proof (reconcile_snapshot_correct demo_layout demo_old demo_new demo_live 8%Z demo_old_wf
    demo_new_wf demo_sources (proj1 demo_live_facts) ltac:(reflexivity) Hrev) as H.
  destruct demo_live_matches as [Hrt Hver]. rewrite Hrt, Hver in H.
  rewrite !decide_False in H; [exact H|..]; intros Hn; vm_compute in Hn; congruence.
Defined.

(** The same commit at the last version. *)
Definition demo_last : LiveAmmGraph :=
  with_version {| lineage := 7; revision := u64_max |} demo_live.

Lemma exhausted_version_panics_witness :
  live_ok demo_layout demo_old demo_last ∧ apply_commit demo_commit demo_last 8%Z = None.
Proof.
  destruct demo_live_facts as (Hok & Ho & _ & _). destruct demo_live_matches as [Hrt Hver].
  assert (live_ok demo_layout demo_old demo_last) as Hlast by (apply live_ok_version; exact Hok).
  split; [exact Hlast|].
  refine (exhausted_version_panics demo_layout demo_old demo_last demo_commit 8%Z (4%Z : @PoolKey demo_types)
    demo_old_wf demo_commit_ok Hlast _ eq_refl eq_refl _ _ _).
  - unfold demo_last, with_version. cbn [live_runtime_id]. rewrite Hrt. reflexivity.
  - unfold demo_last, with_version. cbn [live_state_version]. rewrite Hver. reflexivity.
  - unfold demo_last, with_version, live_version. cbn. intros Hn. discriminate Hn.
  - unfold demo_last, with_version. cbn [live_options]. rewrite Ho. vm_compute. congruence.
Defined.

(** A search on the view of the live graph. *)
Lemma demo_rebuilt_facts : live_ok demo_layout demo_new demo_rebuilt ∧
  live_options demo_rebuilt = GraphBuildOptions_default.
Proof.
  destruct (from_snapshot_inv demo_layout GraphBuildOptions_default ParallelEdgeOutputs demo_new 8%Z
    demo_rebuilt 9%Z demo_documented demo_new_wf demo_rebuilt_eq) as (H1 & H2 & _).
  split; [exact H1|exact H2].
Qed.

Definition demo_view (l : LiveAmmGraph) : LiveSearchView :=
  {| lv_snapshot := demo_new; lv_graph := live_graph l; lv_liquidity := live_liquidity l;
     lv_quote_context := live_quote_context demo_new |}.

Lemma demo_view_eq : LiveSearchView_new demo_new demo_rebuilt = Ok (demo_view demo_rebuilt).
Proof.
  unfold LiveSearchView_new. rewrite (lo_snapshot _ _ _ (proj1 demo_rebuilt_facts)). reflexivity.
Qed.

Lemma demo_rebuilt_token t p ts :
  ip_tokens <$> searchable_pool GraphBuildOptions_default demo_new p = Some ts → t ∈ ts →
  is_Some (node_index (live_graph demo_rebuilt) t).
Proof.
  intros Hp Ht. destruct demo_rebuilt_facts as [Hok Ho]. unfold node_index.
  apply (lo_orphans _ _ _ Hok). exists p, ts. split; [|exact Ht].
  rewrite (lo_tokens _ _ _ Hok), Ho. exact Hp.
Qed.

Lemma live_search_agrees_with_rebuild_witness :
  ∃ v res, LiveSearchView_new demo_new demo_followed = Ok v ∧
    find_routes (view_searcher v) demo_request (0%Z : AdapterCache) = Some (res, 0%Z : AdapterCache) ∧
    optimal (view_searcher (demo_view demo_rebuilt)) (demo_sim demo_rate) 10%Z 30%Z 1000%Z
      (rr_config demo_request) (rr_sim_config demo_request) false res.
Proof.
  apply (live_search_agrees_with_rebuild demo_layout GraphBuildOptions_default ParallelEdgeOutputs
    demo_old 7%Z demo_live 8%Z demo_new demo_followed 8%Z demo_rebuilt 9%Z (demo_view demo_rebuilt)
    demo_inv (demo_sim demo_rate) (0%Z : @AdapterCache demo_types) demo_request demo_documented demo_counted);
    [done|apply demo_old_wf|apply demo_live_eq|apply demo_steps|apply demo_rebuilt_eq
    |apply demo_view_eq|apply demo_simulates|done|done| | |].
  - constructor; reflexivity.
  - apply (demo_rebuilt_token _ (1%Z : @PoolKey demo_types) [10%Z; 20%Z]); [vm_compute; reflexivity|set_solver].
  - apply (demo_rebuilt_token _ (3%Z : @PoolKey demo_types) [10%Z; 30%Z]); [vm_compute; reflexivity|set_solver].
Defined.
