(* ===== verification/LiveRouteWitnesses.v ===== *)
(** * Witnesses: live routes

    A runtime in the environment of [Concrete] with one worker: a caller
    subscribes to an exhaustive search, the runtime runs until nothing is left to
    do, the AMM runtime commits, a caller shuts it down.  [settle] is a scheduler
    that runs the steps of the model one after the other. *)

From S2P Require Import Prelude AmmState Petgraph Graph GraphInv GraphProps GraphTheorems Config.
From S2P Require Import SearchTypes Enumerate EnumerateProps EnumerateTheorems Liquidity QuoteCache.
From S2P Require Import QuoteCacheProps Quote QuoteProps Heuristic HeuristicSearch HeuristicProps.
From S2P Require Import HeuristicTheorems Searcher SearchTheorems Streaming StreamDriver LiveState.
From S2P Require Import LiveGraph LiveGraphProps LiveGraphTheorems LiveView LiveRoutes.
From S2P Require Import LiveRoutesProps LiveRoutesInv LiveRuntime LiveRuntimeProps.
From S2P Require Import LiveRuntimeTheorems Concrete Witnesses LiquidityWitnesses StreamWitnesses.
From S2P Require Import Workers LiveWitnesses.

Definition demo_display : LiveRouteRuntimeError → string := λ _, "failed"%string.

Definition demo_runtime_config : LiveRouteRuntimeConfig :=
  with_job_queue_capacity 2 (with_max_subscriptions 2 (LiveRouteRuntimeConfig_default None)).

Definition demo_spec : RouteSubscriptionSpec :=
  {| spec_request := demo_stream_request; spec_streaming := demo_streaming CompletionExhaustive |}.

Definition demo_solo : list Move := [].

Abbreviation demo_step := (execution_step demo_display False).

(** ** A scheduler *)

(** The next step of a runtime without commits: the coordinator's when it has an
    input, then the first worker's. *)
Definition next_step (r : RouteRuntime) : option RouteRuntime :=
  match actor_turn demo_display r with
  | Some r' => Some r'
  | None =>
      match rt_threads r !! 0 with
      | Some (ThreadSearching job noticed sent (event :: rest) res) =>
          Some (rt_set_thread 0 (ThreadSearching job noticed (sent ++ [event]) rest res)
                  (push_result (MessageEvent (job_stamp job) event) r))
      | Some (ThreadSearching job noticed sent [] res) =>
          Some (rt_set_thread 0 ThreadIdle
                  (push_result (MessageCompleted (job_stamp job) (search_result res)) r))
      | Some ThreadIdle =>
          match sh_jobs (rt_shared r) with
          | WorkerSearch job :: jobs =>
              if job_cancelled (rt_shared r) job then None
              else
                '(res, events) ← run_route_search job demo_solo quiet_job_reads;
                Some (rt_set_thread 0 (ThreadSearching job false [] events res)
                        (on_rt_shared (set_jobs jobs) r))
          | _ => None
          end
      | _ => None
      end
  end.

Fixpoint settle (fuel : nat) (r : RouteRuntime) : RouteRuntime :=
  match fuel with
  | 0 => r
  | S fuel =>
      match rt_phase r, rt_commits r, rt_results_closed r with
      | PhaseRunning, [], false =>
          if length (rt_results r) <? result_capacity (rt_config r) then
            match next_step r with Some r' => settle fuel r' | None => r end
          else r
      | _, _, _ => r
      end
  end.

Lemma next_step_steps r r' :
  rt_phase r = PhaseRunning → results_room r → next_step r = Some r' →
  runtime_step demo_display False r r'.
Proof.
  intros Hrun Hroom. unfold next_step. destruct (actor_turn demo_display r) as [r1|] eqn:Ht.
  { intros [= <-]. by apply step_actor. }
  destruct (rt_threads r !! 0) as [[|job|job noticed sent [|event rest] res|]|] eqn:Hi; try done.
  - destruct (sh_jobs (rt_shared r)) as [|[job|] jobs] eqn:Hj; try done.
    destruct (job_cancelled (rt_shared r) job) eqn:Hc; [done|].
    destruct (run_route_search job demo_solo quiet_job_reads) as [[res events]|] eqn:Hr; cbn; [|done].
    intros [= <-]. by eapply step_take.
  - intros [= <-]. by eapply step_complete.
  - intros [= <-]. by eapply step_event.
Qed.

Lemma settle_steps fuel r : rtc demo_step r (settle fuel r).
Proof.
  revert r. induction fuel as [|fuel IH]; intros r; cbn [settle]; [done|].
  destruct (rt_phase r) eqn:Hrun; try done. destruct (rt_commits r) eqn:Hc; [|done].
  destruct (rt_results_closed r) eqn:Ho; [done|]. destruct (_ <? _) eqn:Hroom; [|done].
  destruct (next_step r) as [r'|] eqn:Hn; [|done]. apply Nat.ltb_lt in Hroom.
  eapply rtc_l; [|apply IH]. split.
  - intros _. split; rewrite Hc; [done|]. done.
  - left. by apply next_step_steps.
Qed.

(** Without commits the view stays. *)
Lemma settle_view fuel r :
  runtime_ok False r → rt_phase (settle fuel r) = PhaseRunning →
  ac_view (rt_actor (settle fuel r)) = ac_view (rt_actor r).
Proof.
  revert r. induction fuel as [|fuel IH]; intros r Hok; cbn [settle]; [done|].
  destruct (rt_phase r) eqn:Hrun; try done. destruct (rt_commits r) eqn:Hc; [|done].
  destruct (rt_results_closed r) eqn:Ho; [done|]. destruct (_ <? _) eqn:Hroom; [|done].
  destruct (next_step r) as [r'|] eqn:Hn; [|done]. apply Nat.ltb_lt in Hroom.
  apply next_step_steps in Hn; [|done..].
  destruct (runtime_step_ok _ _ _ _ demo_counted Hok Hn) as [[Hok' Hf]|Hs].
  - intros Hr. rewrite IH by done. destruct Hf as [(_ & Hv & _)|(c & cs & Hcc & _)]; [done|congruence].
  - destruct fuel as [|fuel]; cbn [settle];
      (pose proof (st_phase _ Hs); destruct (rt_phase r') eqn:Hp; by rewrite ?Hp).
Qed.

(** ** The run *)

Definition demo_spawned : option (result LiveRouteRuntimeError RouteRuntime * Z) :=
  LiveRouteRuntime_spawn (Ok demo_old) true (λ _, true) GraphBuildOptions_default
    demo_runtime_config 7%Z.

Definition demo_settled (r0 : RouteRuntime) : RouteRuntime :=
  settle 60 (send_command (CommandSubscribe demo_spec) r0).

Example demo_runs :
  match demo_spawned with
  | Some (Ok r0, _) =>
      let r := demo_settled r0 in
      (re_spec <$> ac_entries (rt_actor r)) = {[0%Z := demo_spec]} ∧
      match sn_state <$> sh_watches (rt_shared r) !! 0%Z with
      | Some (StateReady _ (Some q) report) =>
          rq_amount_out (vq_quote q) = 3150%Z ∧ rep_finality report = FinalityExhaustive
      | _ => False
      end
  | _ => False
  end.
Proof. vm_compute. split_and!; reflexivity. Qed.

(** The state the run settles in, with a search result shown. *)
Definition demo_quiet (r : RouteRuntime) : bool :=
  match rt_phase r with PhaseRunning => true | _ => false end &&
  match rt_commits r, rt_commands r, rt_results r, sh_jobs (rt_shared r), rt_threads r with
  | [], [], [], [], [ThreadIdle] => true
  | _, _, _, _, _ => false
  end &&
  match actor_turn demo_display r with None => true | Some _ => false end &&
  match sn_state <$> sh_watches (rt_shared r) !! 0%Z with
  | Some (StateReady _ (Some _) _) => true
  | _ => false
  end.

(** After a shutdown command. *)
Definition demo_stopping (r : RouteRuntime) : option RouteRuntime :=
  actor_turn demo_display (send_command CommandShutdown r).

(** Evaluating at the state the run settles in. *)
Definition demo_at {A} (d : A) (f : RouteRuntime → RouteRuntime → A) : A :=
  match demo_spawned with Some (Ok r0, _) => f r0 (demo_settled r0) | _ => d end.

Definition demo_accepts (r : RouteRuntime) : bool :=
  negb (rt_commands_closed r) && (length (rt_commands r) <? command_capacity (rt_config r)).

Lemma demo_run_spec :
  demo_at ∅ (λ _ r, re_spec <$> ac_entries (rt_actor r)) = {[0%Z := demo_spec]}.
Proof. vm_compute. reflexivity. Qed.
Lemma demo_run_quiet :
  demo_at false (λ r0 r, demo_accepts r0 && demo_quiet r && demo_accepts r) = true.
Proof. vm_compute. reflexivity. Qed.
Lemma demo_run_commit :
  demo_at false (λ _ r,
    match actor_apply_commit demo_commit (rt_actor r) 8%Z with
    | Some (Ok _, _, _) => true
    | _ => false
    end) = true.
Proof. vm_compute. reflexivity. Qed.
Lemma demo_run_stops :
  demo_at false (λ _ r,
    match demo_stopping r with
    | Some r' => match rt_phase r' with PhaseStopping _ _ => true | _ => false end
    | None => false
    end) = true.
Proof. vm_compute. reflexivity. Qed.

Lemma demo_send_step c r :
  rt_commits r = [] → demo_accepts r = true → demo_step r (send_command c r).
Proof.
  intros Hc [Ho%negb_true_iff Hroom%Nat.ltb_lt]%andb_true_iff.
  split; [intros _; split; by rewrite Hc|]. right. by apply env_command.
Qed.

Abbreviation demo_started := (started_from demo_display False demo_old GraphBuildOptions_default
  demo_runtime_config).

(** The quiet state, with what the theorems ask of it. *)
Record demo_facts (r : RouteRuntime) : Prop := {
  df_started : demo_started r;
  df_specs : (re_spec <$> ac_entries (rt_actor r)) = {[0%Z := demo_spec]};
  df_quiet : demo_quiet r = true;
  df_snapshot : lv_snapshot (ac_view (rt_actor r)) = demo_old;
  df_commit : ∃ a lin, actor_apply_commit demo_commit (rt_actor r) 8%Z = Some (Ok (), a, lin);
  df_shutdown : ∃ r', rtc demo_step r r' ∧ rt_phase r' ≠ PhaseRunning;
}.

Lemma demo_quiet_facts r :
  demo_quiet r = true →
  rt_phase r = PhaseRunning ∧ rt_commits r = [] ∧ sh_jobs (rt_shared r) = [] ∧
  rt_results r = [] ∧ rt_threads r = [ThreadIdle] ∧ actor_turn demo_display r = None ∧
  ∃ sn source q report, sh_watches (rt_shared r) !! 0%Z = Some sn ∧
    sn_state sn = StateReady source (Some q) report.
Proof.
  unfold demo_quiet. rewrite !andb_true_iff. intros [[[H1 H2] H3] H4].
  destruct (rt_phase r); try done. destruct (rt_commits r), (rt_commands r), (rt_results r),
    (sh_jobs (rt_shared r)), (rt_threads r) as [|[] []]; try done.
  destruct (actor_turn demo_display r); [done|].
  destruct (sh_watches (rt_shared r) !! 0%Z) as [sn|]; [|done]. cbn in H4.
  destruct (sn_state sn) as [| |source [q|] report| | | |] eqn:Hst; try done.
  split_and!; try done. by exists sn, source, q, report.
Qed.

#[local] Opaque demo_settled actor_apply_commit demo_old demo_commit.

Lemma demo_reached : ∃ r, demo_facts r.
Proof.
  pose proof demo_run_spec as H1. pose proof demo_run_quiet as H2. pose proof demo_run_commit as H3.
  pose proof demo_run_stops as H4. unfold demo_at in *.
  destruct demo_spawned as [[[r0|e] lin]|] eqn:Hspawn; [|done..].
  apply andb_true_iff in H2 as [[Hacc0 Hquiet]%andb_true_iff Hacc].
  assert (rt_commits r0 = [] ∧ lv_snapshot (ac_view (rt_actor r0)) = demo_old) as [Hc0 Hs0].
  { unfold demo_spawned, LiveRouteRuntime_spawn in Hspawn.
    destruct (LiveRouteRuntimeConfig_validate _); cbn in Hspawn; [|done].
    destruct (from_snapshot _ _ _) as [[[l|?] ?]|]; cbn in Hspawn; [|done..].
    destruct (LiveSearchView_new _ _) eqn:Hv; cbn in Hspawn; [|done].
    destruct (RouteWorkerPool_new _ _); cbn in Hspawn; [|done]. injection Hspawn as <- _.
    apply LiveSearchView_new_Ok in Hv as [_ ->]. by split. }
  assert (runtime_ok False r0) as Hok0.
  { apply (alive_running _ demo_layout GraphBuildOptions_default).
    - exact (spawn_alive False demo_layout _ _ _ _ _ _ _ _ demo_documented demo_old_wf Hspawn).
    - unfold demo_spawned, LiveRouteRuntime_spawn in Hspawn.
      destruct (LiveRouteRuntimeConfig_validate _); cbn in Hspawn; [|done].
      destruct (from_snapshot _ _ _) as [[[l|?] ?]|]; cbn in Hspawn; [|done..].
      destruct (LiveSearchView_new _ _) eqn:Hv; cbn in Hspawn; [|done].
      destruct (RouteWorkerPool_new _ _); cbn in Hspawn; [|done]. by injection Hspawn as <- _. }
  pose proof (demo_send_step (CommandSubscribe demo_spec) r0 Hc0 Hacc0) as Hsub.
  pose proof (settle_steps 60 (send_command (CommandSubscribe demo_spec) r0)) as Hsettle.
  pose proof (settle_view 60 (send_command (CommandSubscribe demo_spec) r0)) as Hview.
  change (settle 60 _) with (demo_settled r0) in Hsettle, Hview.
  set (r := demo_settled r0) in *. clearbody r.
  destruct (demo_quiet_facts r Hquiet) as (Hrun & Hc & _).
  exists r. split.
  - split; [apply demo_documented|apply demo_counted|apply demo_old_wf|].
    exists true, (λ _, true), 7%Z, r0, lin. split; [exact Hspawn|]. by eapply rtc_l.
  - exact H1.
  - exact Hquiet.
  - rewrite Hview; [exact Hs0| |exact Hrun]. apply (outside_ok _ r0); [|exact Hok0].
    destruct Hsub as [_ [Hstep|Hstep]]; [|by apply environment_step_outside].
    apply environment_step_outside. apply andb_true_iff in Hacc0 as [Ho%negb_true_iff Hroom%Nat.ltb_lt].
    by apply env_command.
  - destruct (actor_apply_commit _ _ _) as [[[[[]|?] a] lin']|]; [|done..]. by exists a, lin'.
  - pose proof (demo_send_step CommandShutdown r Hc Hacc) as Hsend.
    unfold demo_stopping in H4.
    destruct (actor_turn demo_display (send_command CommandShutdown r)) as [r'|] eqn:Ht; [|done].
    exists r'. split; [|by intros Hp; rewrite Hp in H4]. eapply rtc_l; [exact Hsend|].
    apply rtc_once. split.
    + intros _. split; change (rt_commits (send_command CommandShutdown r)) with (rt_commits r); by rewrite Hc.
    + left. by apply step_actor.
Qed.

Lemma demo_searchable :
  searchable demo_inv (demo_sim demo_rate) demo_old demo_spec.
Proof. split; [apply demo_simulates|done|done|by left]. Qed.

Lemma demo_entry r : demo_facts r →
  (∃ e, ac_entries (rt_actor r) !! 0%Z = Some e) ∧
  ∀ id e, ac_entries (rt_actor r) !! id = Some e → re_spec e = demo_spec.
Proof.
  intros Hr. pose proof (df_specs _ Hr) as Hspecs. split.
  - assert ((re_spec <$> ac_entries (rt_actor r)) !! 0%Z = Some demo_spec) as H.
    { rewrite Hspecs. apply lookup_singleton_eq. }
    rewrite lookup_fmap in H. apply fmap_Some in H as (e & He & _). by exists e.
  - intros id e He. assert ((re_spec <$> ac_entries (rt_actor r)) !! id = Some (re_spec e)) as H.
    { by rewrite lookup_fmap, He. }
    rewrite Hspecs in H. by apply lookup_singleton_Some in H as [_ <-].
Qed.

Lemma live_routes_current_witness : ∃ r sn source q report fresh,
  demo_started r ∧ sh_watches (rt_shared r) !! 0%Z = Some sn ∧
  sn_state sn = StateReady source (Some q) report ∧
  report_right (demo_sim demo_rate) demo_old (live_graph fresh) demo_spec report.
Proof.
  destruct demo_reached as [r Hr]. destruct (demo_entry r Hr) as [[e He] Hspec].
  pose proof (Hspec _ _ He) as Hse.
  destruct (demo_quiet_facts r (df_quiet _ Hr)) as (Hrun & _ & _ & _ & _ & _ & sn & source & q & report & Hsn & Hst).
  set (fresh := default demo_no_live (fst <$> demo_built_live demo_old 8)).
  exists r, sn, source, q, report, fresh. split; [apply Hr|split; [exact Hsn|split; [exact Hst|]]].
  rewrite <- (df_snapshot _ Hr), <- Hse.
  apply (live_routes_current demo_layout demo_display False demo_old GraphBuildOptions_default
    demo_runtime_config r 0%Z e sn source (Some q) report demo_inv (demo_sim demo_rate) 8%Z fresh 9%Z
    (df_started _ Hr)); [done|exact Hrun|exact He|exact Hsn|exact Hst| |].
  - rewrite (df_snapshot _ Hr), Hse. exact demo_searchable.
  - rewrite (df_snapshot _ Hr). apply (demo_built_live_eq demo_old 8); [apply demo_old_wf|reflexivity].
Defined.

Lemma live_routes_bounded_witness : ∃ r, demo_started r ∧
  length (rt_results r) <= result_capacity (rt_config r) ∧ NoDup (outstanding r).
Proof.
  destruct demo_reached as [r Hr].
  destruct (demo_quiet_facts r (df_quiet _ Hr)) as (Hrun & _).
  destruct (live_routes_bounded demo_layout demo_display False demo_old GraphBuildOptions_default
    demo_runtime_config r (df_started _ Hr) Hrun) as (_ & H1 & _ & _ & _ & H2 & _).
  exists r. split; [apply Hr|split; [exact H1|exact H2]].
Defined.

Lemma live_routes_publications_witness : ∃ r, demo_started r ∧
  ∀ id, sh_watches (rt_shared r) !! id = latest id (sh_outputs (rt_shared r)).
Proof.
  destruct demo_reached as [r Hr].
  destruct (live_routes_publications demo_layout demo_display False demo_old GraphBuildOptions_default
    demo_runtime_config r (df_started _ Hr)) as [_ H]. exists r. split; [apply Hr|exact H].
Defined.

Lemma demo_stuck r : demo_facts r → ∀ r', ¬ runtime_step demo_display False r r'.
Proof.
  intros Hr. destruct (demo_quiet_facts r (df_quiet _ Hr)) as (Hrun & _ & Hj & _ & Hth & Hturn & _).
  assert (∀ i th, rt_threads r !! i = Some th → th = ThreadIdle) as Hidle.
  { intros i th. rewrite Hth. destruct i as [|i]; cbn; [congruence|done]. }
  intros r' Hstep. destruct Hstep as [r' _ Ht|i ? ? ? ? ? Hi Hjobs|i ? ? Hi Hjobs|i ? ? ? ? ? ? ? ? Hi
    |i ? ? ? ? ? ? Hi|i ? ? ? ? Hi|i ? ? ? ? ? [] Hi|i ? Hi|i th Hi Hbusy|i ? Hi Hjobs|? ? Hp|? Hp];
    try congruence; try (by apply Hidle in Hi). by rewrite (Hidle _ _ Hi) in Hbusy.
Qed.

Lemma live_routes_never_stall_witness : ∃ r, demo_started r ∧ nothing_to_take r ∧
  Forall (λ th, th = ThreadIdle) (rt_threads r).
Proof.
  destruct demo_reached as [r Hr]. destruct (demo_entry r Hr) as [_ Hspec].
  destruct (demo_quiet_facts r (df_quiet _ Hr)) as (Hrun & Hc & _).
  destruct (live_routes_never_stall demo_layout demo_display False demo_old GraphBuildOptions_default
    demo_runtime_config r demo_inv (demo_sim demo_rate) (df_started _ Hr)) as (H1 & _ & H2 & _).
  - done.
  - exact Hrun.
  - split; rewrite Hc; done.
  - intros id e He. rewrite (df_snapshot _ Hr), (Hspec _ _ He). exact demo_searchable.
  - exact (demo_stuck r Hr).
  - exists r. split; [apply Hr|split; [exact H1|exact H2]].
Defined.

Lemma live_commit_invalidates_witness : ∃ r a, demo_started r ∧
  view_version (ac_view a) = (view_version (ac_view (rt_actor r)) + 1)%Z ∧
  ∀ id, ac_entries a !! id = entry_marked_dirty TriggerAmmCommit <$> ac_entries (rt_actor r) !! id.
Proof.
  destruct demo_reached as [r Hr]. destruct (df_commit _ Hr) as (a & lin & Happ).
  destruct (demo_quiet_facts r (df_quiet _ Hr)) as (Hrun & _).
  destruct (live_commit_invalidates demo_layout demo_display False demo_old GraphBuildOptions_default
    demo_runtime_config r demo_commit 8%Z (Ok ()) a lin (df_started _ Hr) Hrun Happ) as (_ & H1 & H2 & _).
  exists r, a. split; [apply Hr|split; [exact H1|exact H2]].
Defined.

Lemma live_routes_shutdown_witness : ∃ r, demo_started r ∧ rt_phase r ≠ PhaseRunning ∧
  ac_entries (rt_actor r) = ∅.
Proof.
  destruct demo_reached as [r Hr]. destruct (df_shutdown _ Hr) as (r' & Hsteps & Hph).
  assert (demo_started r') as Hst.
  { destruct (df_started _ Hr) as [H1 H2 H3 (inr & spawned & lin & r0 & lin' & Hspawn & Hs)].
    split; [exact H1|exact H2|exact H3|]. exists inr, spawned, lin, r0, lin'. split; [exact Hspawn|].
    by etrans. }
  destruct (live_routes_shutdown demo_layout demo_display False demo_old GraphBuildOptions_default
    demo_runtime_config r' Hst Hph) as (H1 & _). exists r'. split; [exact Hst|split; [exact Hph|exact H1]].
Defined.
