(* ===== verification/SidecarWitnesses.v ===== *)
(** * Witnesses: the sidecar

    The request-path index over the two snapshots of [LiveWitnesses], whose
    updater is told of the commit and then lags; and the routes of
    [SearchWitnesses] turned into transactions that run against a small world
    of balances and constant-product pairs. *)

From S2P Require Import Prelude AmmState Petgraph Graph Liquidity LiquidityTheorems LiveState LiveGraph.
From S2P Require Import LiveGraphProps LiveGraphTheorems GraphIndex GraphIndexProps GraphIndexTheorems.
From S2P Require Import GraphInv Config SearchTypes Enumerate EnumerateTheorems QuoteCache Quote QuoteProps.
From S2P Require Import Searcher SearchTheorems Bytes ExecutorRouter Execution ExecutionProps ExecutionTheorems.
From S2P Require Import Concrete Witnesses SearchWitnesses LiquidityWitnesses LiveWitnesses.

#[local] Opaque demo_live demo_followed demo_rebuilt demo_delta_of.

(** ** The request-path index *)

Definition demo_history (n : nat) : AmmStateSnapshot :=
  demo_snapshot (1 + Z.of_nat n) (match n with 0 => demo_pools | S _ => demo_pools2 end).

Lemma demo_history_ok : history_ok demo_history.
Proof.
  constructor.
  - intros [|n]; [exact demo_old_wf|]. apply demo_snapshot_wf. apply (bool_decide_unpack _). vm_compute. exact I.
  - intros n. unfold demo_history. cbn [ss_version demo_snapshot]. lia.
  - intros n. unfold graph_fits.
    assert (searchable_table GraphBuildOptions_default (demo_history n) =
      searchable_table GraphBuildOptions_default (match n with 0 => demo_old | S _ => demo_new end)) as ->
      by (by destruct n).
    destruct n; vm_compute; discriminate.
Qed.

Definition demo_index_of (l : LiveAmmGraph) (v : Z) : GraphIndex := from_graph (live_graph l) v.

Lemma demo_index_built :
  graph_index_from_amm (demo_history 0) 7%Z = Some (Ok (demo_index_of demo_live 1), 8%Z).
Proof.
  unfold graph_index_from_amm. rewrite (live_bind_ok _ _ demo_live 7%Z 8%Z) by exact demo_live_eq.
  reflexivity.
Qed.
Lemma demo_index_rebuilt :
  graph_index_from_amm (demo_history 1) 8%Z = Some (Ok (demo_index_of demo_rebuilt 2), 9%Z).
Proof.
  unfold graph_index_from_amm. rewrite (live_bind_ok _ _ demo_rebuilt 8%Z 9%Z) by exact demo_rebuilt_eq.
  reflexivity.
Qed.

Definition demo_events : list UpdaterEvent :=
  [CommitApplied demo_delta_of (Ok (demo_index_of demo_rebuilt 2)); Lagged (Ok (demo_index_of demo_rebuilt 2))].

Lemma demo_published : published demo_layout (demo_history 0) (demo_history 1) demo_delta_of.
Proof.
  destruct demo_followed_eq as (lin' & Heq & _). destruct demo_live_facts as (Hok & Ho & _).
  exists demo_live, demo_commit, demo_followed, 8%Z, lin'.
  split; [exact Hok|]. split; [exact Ho|]. split; [exact demo_commit_ok|]. split; [reflexivity|].
  split; [exact demo_room|exact Heq].
Qed.

Lemma demo_feed : feed demo_layout demo_history 0 demo_events.
Proof.
  apply (feed_commit _ _ 0 1 0 demo_delta_of 8%Z _ 9%Z);
    [lia|lia|vm_compute; discriminate|exact demo_published|exact demo_index_rebuilt|].
  apply (feed_lagged _ _ 1 1 8%Z _ 9%Z); [lia|exact demo_index_rebuilt|]. apply feed_nil.
Qed.

Lemma graph_index_follows_witness :
  let c := foldl (on_event (λ _, "")) (cache_from_index (demo_index_of demo_live 1)) demo_events in
  ∃ n, 0 ≤ n ∧ gc_versions c = ss_version (demo_history n) ∧
    (∀ d r, CommitApplied d r ∈ demo_events → (source_state_version d <= ss_version (demo_history n))%Z) ∧
    ∀ l, live_ok demo_layout (demo_history n) l → live_options l = GraphBuildOptions_default →
      gc_index c = from_graph (live_graph l) (live_state_version l) ∧
      ∀ token, stats token (gc_index c) = graph_stats (live_graph l) token.
Proof.
  exact (graph_index_follows (λ _, "") demo_layout demo_history 0 7%Z (demo_index_of demo_live 1) 8%Z
    demo_events demo_documented demo_counted demo_history_ok demo_index_built demo_feed).
Defined.

(** ** Executable swaps *)

#[export] Instance demo_keys : @AmmKeys demo_types := {| pool_key_view := PoolKeyView.UniswapV2 : @PoolKey demo_types → _ |}.

(** Balances by token and owner; every pair reports a million of each token. *)
Definition demo_balance (w : gmap (Z * Z) Z) (token owner : Z) : Z := default 0%Z (w !! (token, owner)).
Definition demo_move (token from to amount : Z) (w : gmap (Z * Z) Z) : option (gmap (Z * Z) Z) :=
  if decide (amount <= demo_balance w token from)%Z then
    let w1 := <[(token, from) := (demo_balance w token from - amount)%Z]> w in
    Some (<[(token, to) := (demo_balance w1 token to + amount)%Z]> w1)
  else None.
Definition demo_tokens (p : Z) : Z * Z :=
  if decide (p = 2%Z) then (20, 30)%Z else if decide (p = 3%Z) then (10, 30)%Z else (10, 20)%Z.

Definition demo_self : Z := 99.
Definition demo_step_call (c : ExternalCall) (st : RouterStorage * gmap (Z * Z) Z) :
    option (RouterStorage * gmap (Z * Z) Z) :=
  w ← match c with
      | SafeTransferFrom token from to amount => demo_move token from to amount st.2
      | SafeTransfer token to amount => demo_move token demo_self to amount st.2
      | PairSwap p out0 out1 =>
          w ← demo_move (demo_tokens p).1 p demo_self out0 st.2;
          demo_move (demo_tokens p).2 p demo_self out1 w
      | _ => None
      end;
  Some (st.1, w).

#[export] Instance demo_evm : Evm := {|
  World := gmap (Z * Z) Z;
  self := demo_self;
  WETH := 98;
  PERMIT2 := 97;
  ether_balance := λ _, 0%Z;
  evm_balanceOf := λ w token owner, Some (demo_balance w token owner);
  evm_getReserves := λ _ _, Some (1000000, 1000000)%Z;
  evm_solidlyAmountOut := λ _ _ _ _, None;
  evm_call := demo_step_call;
|}.

Definition demo_execution (floor : option Z) : ExecutionRequest :=
  {| deployment := {| router := demo_self; weth := 98; permit2 := 97 |};
     er_recipient := 55; er_deadline := 2000; er_min_amount_out := floor; authorization := Allowance |}.

(** A stand-in for the ABI: the route itself. *)
Definition demo_abi (call : RouterCall) : Bytes := rp_route (call_params call).

Definition demo_routes : list RouteQuote :=
  match find_routes demo_s demo_request demo_cache with Some (Ok routes, _) => routes | _ => [] end.
Definition demo_swap (floor : option Z) : ExecutableSwap :=
  match build_executable_swap demo_abi (as_registry demo_s) demo_routes (demo_execution floor) with
  | Ok swap => swap
  | Err _ => {| es_to := 0; es_value := 0; es_data := []; es_approval := None; es_min_amount_out := 0;
                es_deadline := 0 |}
  end.

Lemma demo_routes_found : ∃ c, find_routes demo_s demo_request demo_cache = Some (Ok demo_routes, c).
Proof.
  unfold demo_routes. destruct (find_routes demo_s demo_request demo_cache) as [[[routes|e] c]|] eqn:H.
  - by exists c.
  - exfalso. assert (match find_routes demo_s demo_request demo_cache with
      | Some (Ok _, _) => true | _ => false end = true) by (vm_compute; reflexivity). by rewrite H in *.
  - exfalso. assert (match find_routes demo_s demo_request demo_cache with
      | Some (Ok _, _) => true | _ => false end = true) by (vm_compute; reflexivity). by rewrite H in *.
Qed.

Lemma demo_built :
  build_executable_swap demo_abi (as_registry demo_s) demo_routes (demo_execution (Some 900%Z)) =
    Ok (demo_swap (Some 900%Z)).
Proof. vm_compute. reflexivity. Qed.

Definition demo_message : Message := {| msg_sender := 7; msg_value := 0; block_timestamp := 1000 |}.
Definition demo_world : gmap (Z * Z) Z :=
  list_to_map [((10, 7), 5000); ((20, 4), 1000000); ((30, 2), 1000000); ((10, demo_self), 3)]%Z.
Definition demo_storage : RouterStorage :=
  {| unlocked := 1; callbackPool := 0; callbackToken := 0; callbackAmount := 0 |}.
Definition demo_params (data : Bytes) : RouterParams :=
  {| rp_token_in := 10; rp_token_out := 30; rp_amount_in := 1000; rp_min_amount_out := 900;
     rp_recipient := 55; rp_deadline := 2000; rp_route := data |}.

(** The transaction as it runs: two constant-product swaps, and what was in the
    contract before is still there. *)
Example demo_swap_runs :
  match run_call demo_message [] (ExecuteExactInputCall (demo_params (es_data (demo_swap (Some 900%Z)))))
          (demo_storage, demo_world) with
  | Some (Ok (out, (s, w))) =>
      (out, demo_balance w 30 55, demo_balance w 10 demo_self, demo_balance w 10 7) = (992, 992, 3, 4000)%Z
  | _ => False
  end.
Proof. vm_compute. reflexivity. Qed.

Lemma slippage_floor_exact_witness : min_amount_out_from_slippage 19999 50 = Ok 19899%Z.
Proof.
  destruct (slippage_floor_exact 19999 50) as [H _]; [split; [lia|done]|lia|].
  rewrite decide_True in H by (vm_compute; split; [reflexivity|discriminate]). exact H.
Defined.

Lemma demo_key_typed (k : Z) registration :
  registry_pool (as_registry demo_s) k = Some registration → registration_typed registration.
Proof.
  change (registry_pool (as_registry demo_s) k) with (snd <$> list_find (λ p, reg_key p = k) demo_pools).
  intros ([i p] & Hf & ->)%fmap_Some. apply list_find_Some in Hf as (Hi & _ & _).
  apply list_elem_of_lookup_2 in Hi. unfold demo_pools in Hi. rewrite !elem_of_cons, elem_of_nil in Hi.
  by destruct Hi as [->|[->|[->|[->|[]]]]]; (split; [constructor|]).
Qed.

Definition typed_hop (hop : Hop) : bool :=
  bool_decide (0 <= (hop_pool hop : Z) < 256)%Z && bool_decide (0 <= hop_token_in hop < 256)%Z &&
  bool_decide (0 <= hop_token_out hop < 256)%Z.
Lemma demo_hops_typed quote hop : quote ∈ demo_routes → hop ∈ rq_path quote → hop_typed hop.
Proof.
  intros Hq Hh. assert (forallb (λ q, forallb typed_hop (rq_path q)) demo_routes = true) as H
    by (vm_compute; reflexivity).
  rewrite forallb_forall in H. apply list_elem_of_In, H in Hq.
  rewrite forallb_forall in Hq. apply list_elem_of_In, Hq in Hh. unfold typed_hop in Hh.
  rewrite !andb_true_iff, !bool_decide_eq_true in Hh. assert (256 < 256 ^ Z.of_nat 20)%Z by done.
  unfold hop_typed, key_typed, is_uint. simpl. lia.
Qed.

Lemma built_swap_executes_quote_witness :
  ∃ quote call path, head demo_routes = Some quote ∧ es_data (demo_swap (Some 900%Z)) = demo_abi call ∧
    path.*1 = rq_path quote ∧
    ∀ msg b1 b2 st, execute msg (contract_params [] (call_params call)) b1 b2 st =
      execute_path msg path (contract_params [] (call_params call)) b1 b2 st.
Proof.
  destruct (built_swap_executes_quote demo_abi (as_registry demo_s) demo_routes
    (demo_execution (Some 900%Z)) (demo_swap (Some 900%Z)) demo_key_typed demo_hops_typed demo_built)
    as (quote & others & call & path & H1 & H2 & H3 & _ & _ & _ & _ & _ & Hrun).
  exists quote, call, path. split; [rewrite H1; reflexivity|]. split; [exact H2|]. split; [exact H3|].
  intros msg b1 b2 st. apply Hrun. constructor.
Defined.

Lemma built_swap_settles_witness :
  ∃ call, es_data (demo_swap (Some 900%Z)) = demo_abi call ∧
    ∀ msg tail st out st', run_call msg tail call st = Some (Ok (out, st')) → (900 <= out)%Z.
Proof.
  destruct (built_swap_settles demo_abi (as_registry demo_s) demo_routes
    (demo_execution (Some 900%Z)) (demo_swap (Some 900%Z))) as (quote & first & final & call & _ & _ & _ & H & Hrun).
  - intros m [= <-]. lia.
  - exact demo_built.
  - exists call. split; [exact H|]. intros msg tail st out st' Hr.
    destruct (Hrun msg tail st out st' Hr) as (_ & [_ Hm] & _).
    assert (es_min_amount_out (demo_swap (Some 900%Z)) = 900%Z) as <- by (vm_compute; reflexivity).
    exact Hm.
Defined.

Lemma found_routes_executable_witness :
  ∃ swap, build_executable_swap demo_abi (as_registry demo_s) demo_routes (demo_execution None) = Ok swap.
Proof.
  destruct demo_routes_found as [c Hc].
  apply (found_routes_executable demo_abi demo_s demo_inv (demo_sim demo_rate) demo_cache demo_request 0 2
    demo_routes c (demo_execution None) demo_env demo_complete (proj1 demo_nodes) (proj2 demo_nodes) Hc).
  - discriminate.
  - reflexivity.
  - discriminate.
  - split; [exists 3000%Z; split; [vm_compute; reflexivity|discriminate]|].
    intros quote hop Hq Hh.
    assert (match head demo_routes with
      | Some q => forallb (λ h, match registry_pool (as_registry demo_s) (hop_pool h) with
          | Some r => bool_decide (is_Some (match hop_encoding h r with Ok e => Some e | Err _ => None end))
          | None => false end) (rq_path q)
      | None => false end = true) as H by (vm_compute; reflexivity).
    rewrite Hq in H. rewrite forallb_forall in H. apply list_elem_of_In, H in Hh.
    destruct (registry_pool _ _) as [r|]; [|discriminate]. destruct (hop_encoding hop r) as [e|] eqn:He.
    + exists r, e. split; [reflexivity|exact He].
    + discriminate.
Defined.
